(* ===== verification/_CoqProject ===== *)
-Q . S2P
Prelude.v
RustStr.v
Launcher.v
Provision.v
AbsPath.v
HostShell.v
Permissions.v
ReadDeny.v
PolicyTransforms.v
CommandSafety.v
ExecPolicy.v
ExecApproval.v
StreamText.v
StreamPlan.v
Utf8Stream.v
HeadTail.v
Truncate.v
Template.v
IpAddress.v
NetworkPolicy.v
NetworkConfig.v
MitmHook.v
NetworkProxy.v
ProxySpec.v
Watch.v
Interact.v
NetworkApproval.v
Orchestrator.v
ContextHistory.v
Readiness.v
AgentRegistry.v
AgentResidency.v
EnvManager.v
EnvConfig.v
EnvResolve.v
EnvSwitch.v
EnvStatus.v
Advisory.v
SeekSequence.v
PatchParser.v
PatchGrammar.v
PatchApply.v
PatchFs.v
TurnDiff.v
ExecProcess.v
ShellEnv.v
LocalProcess.v
RemoteSession.v
SessionRegistry.v
RpcCalls.v
Connection.v
ExecStream.v
PatchInvocation.v
PatchSafety.v
PatchProgress.v
ConfigLayers.v
InputQueue.v
