(* ===== verification/Prelude.v ===== *)
(** * codex-switch: a verification development

    The repository is a fork of the codex command-line agent whose tools can move,
    thread by thread, between the host and remote machines.  A model's turn produces
    tool calls; a call is resolved to an environment, a command is approved or
    refused, a patch is parsed and applied, output is truncated and recorded in the
    thread's history, and the network traffic of commands passes a policy proxy.
    The development models these parts from the Rust sources under src/codex-rs and
    proves what makes each correct and what they guarantee together.

    ** The parts and the files that model them

    Shared by all files:
    - Prelude (this file): [result], the state-and-error monad [st_err], iterator
      helpers, saturating [usize] arithmetic, tactics and generic lemmas.
    - Interact: programs that call other components, their runs and a weakest
      precondition over every answer.  Watch: tokio's watch channel as a class.
    - RustStr: Rust strings as lists of scalar values with the library operations
      the code calls.  IpAddress: the address parser and classes of [std::net].

    Environments (the fork's own feature):
    - Launcher: exec-server/src/provision/launcher.rs, chains of ssh and docker hops,
      their ids and the argv they become.
    - Provision: the rest of exec-server/src/provision, which probes a remote and
      installs the codex binary, as a trace of effects.
    - EnvManager: exec-server/src/environment.rs, the registry shared by all threads.
      EnvConfig: environment_toml.rs, the registry at start-up.
    - EnvResolve: core/src/tools/handlers/mod.rs and environment_selection.rs, which
      environment a tool call runs in.
    - EnvSwitch, EnvStatus, Advisory: the handlers env_switch.rs, env_status.rs and
      remote_command_advisory.rs.
    - ExecProcess, LocalProcess: exec-server/src/process.rs and local_process.rs, the
      processes of an exec server and their events; RemoteSession: client.rs, how the
      client of the server follows them; RpcCalls: rpc.rs and the end of a transport in
      connection.rs, the calls of that client.  SessionRegistry:
      server/session_registry.rs, sessions that outlive a connection; Connection:
      server/processor.rs and the guards of server/handler.rs.  ShellEnv: protocol/src/shell_environment.rs,
      the variables a process is given.
    - AbsPath (utils/absolute-path), HostShell (shell-command/src/shell_detect.rs,
      core/src/shell.rs) and Permissions (protocol/src/permissions.rs): what the
      handlers use of paths, shells and sandbox policies.  ReadDeny: the matcher of
      denied reads in permissions.rs.  PolicyTransforms:
      sandboxing/src/policy_transforms.rs, additional permissions.

    Commands:
    - CommandSafety: shell-command/src/bash.rs and command_safety, the safe and the
      dangerous lists over a syntax tree.
    - ExecPolicy: execpolicy/src, the rules and their decisions.
    - ExecApproval: core/src/exec_policy.rs and execpolicy/src/amend.rs, the
      requirement a command gets and the amendments of the rules.
    - Orchestrator: core/src/tools/orchestrator.rs and sandboxing.rs with the trait
      methods of core/src/tools/runtimes and the selection of sandboxing/src/manager.rs:
      approval, sandbox, attempt, retry.  It asks the requirement of ExecApproval, uses
      the policies of Permissions and PolicyTransforms and tells NetworkApproval when
      an attempt starts and ends.
    - HeadTail: core/src/unified_exec/head_tail_buffer.rs, the buffer of a process.
      ExecStream: core/src/unified_exec/async_watcher.rs, its events and transcript.
    - AgentRegistry: core/src/agent/registry.rs and protocol/src/agent_path.rs.
      AgentResidency: core/src/agent/control/residency.rs and execution.rs, how many
      agents are loaded and run.

    Patches:
    - SeekSequence, PatchParser, PatchApply, PatchFs: apply-patch/src, from the text of
      a patch to the changed files and the delta that describes the change.
      PatchGrammar: the documented grammar as a tree with its rendering.
    - PatchInvocation: apply-patch/src/invocation.rs, the commands that are calls of
      apply_patch and the verified action.  PatchSafety: core/src/safety.rs,
      core/src/apply_patch.rs, the handlers and the runtime of apply_patch, from the
      action to the request that Orchestrator runs.  PatchProgress: the events sent
      while a patch is written.
    - TurnDiff: core/src/turn_diff_tracker.rs, the net diff of a turn from the deltas.

    Configuration:
    - ConfigLayers: config/src/state.rs, merge.rs, key_aliases.rs, overrides.rs,
      fingerprint.rs and constraint.rs, the layers a configuration is merged from.

    Conversation:
    - StreamText, StreamPlan, Utf8Stream: utils/stream-parser/src, the parsers of
      streamed model output.
    - Truncate: utils/string/src/truncate.rs and utils/output-truncation.  Template:
      utils/template/src/lib.rs.
    - ContextHistory: core/src/context_manager, the thread history.
    - InputQueue: core/src/session/input_queue.rs and inject.rs, tasks/mod.rs and the
      loop of session/turn.rs, how mail and prompts reach the turns of a session.
    - Readiness: utils/readiness/src/lib.rs, the flag that gates tool calls.

    Network:
    - NetworkPolicy: network-proxy/src/policy.rs and the permissions of config.rs.
      NetworkConfig: the rest of config.rs.  MitmHook: mitm_hook.rs.
    - NetworkProxy: state.rs, runtime.rs and network_policy.rs, the shared state, its
      tasks and the decision on a request.  ProxySpec: core/src/config/network_proxy_spec.rs,
      core/src/network_proxy_loader.rs and the network tables of
      config/src/permissions_toml.rs, where those states come from.
    - NetworkApproval: core/src/tools/network_approval.rs, the session's decider behind
      that decision, which asks hooks, the reviewer or the user.

    ** How the code is represented

    Structs are records and enums inductive types with the source's constructors.
    Methods that mutate and fail are [st_err] computations or take and return the
    state; [?] is the monadic bind.  Integers are [N], [Z] or [nat] with the width
    written out where the code wraps or saturates ([USIZE_MAX], i32 tokens, i64 token
    counts, u64 revisions, double-precision budgets).  Hash maps are [gmap]s; where
    the code iterates over one, the order is a parameter with a permutation law.
    Asynchronous code is split at its locks or atomic accesses into steps of tasks
    that interleave (Readiness, NetworkProxy, AgentRegistry, AgentResidency,
    LocalProcess, SessionRegistry, Connection, RpcCalls) or into
    the calls of a [prog] (NetworkApproval, Orchestrator, InputQueue).  Panics (slicing, insertion past the
    end) are [None], and the theorems show that they do not happen.

    Code outside the repository is a parameter of the definitions that use it: ssh,
    docker, the POSIX shell and HTTP (Launcher, Provision), tree-sitter and shlex
    (CommandSafety, ExecApproval, Advisory, PatchInvocation), the file system behind
    [ExecutorFileSystem] (PatchFs), tokio's watch and broadcast channels
    (Watch, ExecProcess), the processes of the operating system (LocalProcess), sha1 and
    similar (TurnDiff, PatchInvocation), JSON and SHA-256 (ConfigLayers), image decoding and JSON sizes (ContextHistory), globset, url,
    name resolution and certificates (the network files).  What the code relies on is
    a class of laws, with an instance that satisfies them, except where the theorems
    need none.

    ** What the theorems show

    - Environments: a successful switch takes effect for the thread, in the environment
      that was asked for, and a failed one changes nothing; the registry stays well
      formed under every sequence of operations; a tool call only reaches environments
      of its own thread; no hop value escapes its place in the argv; only verified
      archives reach a remote; a remote gets full access only from a host that has it,
      and is told never to ask only by a host that never asks (the flags in between may
      be looser than the host's policy).
    - Remote processes: under every interleaving of its tasks a process reports its
      output, exit and end once and in order, what a read can return is the end of the
      output within its limit, and every event is notified once; a client that receives
      the notifications in any order publishes the same events; a failed session stays
      failed; a session belongs to one connection from initialize until it leaves, and
      one without a connection expires; every call of a client is answered.
      A child sees exactly the variables its policy leaves.
    - Commands: what runs without asking has been allowed by a rule or by the safe
      list; dangerous commands no rule covers never do; the strictest decision counts; an approved
      amendment takes effect; the output buffer refines its specification.
    - Running a tool: a run follows a protocol of approvals and attempts for every
      answer of hooks, reviewers and the tool; denied reads stay in the sandbox; nothing
      leaves it without consent; approvals are remembered per key; a refused network
      access fails the call.  A grant of permissions stays within the grant and, for
      reads, within the request, deny patterns included; agents are counted, named and unloaded within their limits.
    - Patches: the parser inverts the grammar and does not depend on how the text is
      cut; the reported delta is exact; the diff of a turn is the net change.  What the
      user is shown of a patch is what its run leaves; a patch that is approved without
      a question writes only where the policy allows it, and one approved from memory
      only what was approved before; the last progress event shows the whole patch.
      Each of these names the patches the code mishandles and therefore excepts: a file
      renamed onto itself, a rename hidden by a later hunk for the same file, lines that
      end in several carriage returns.
    - Configuration: a setting has the value of the highest enabled layer that has one,
      and its origin names that layer; the layers of a stack stay in order.
    - Conversation: streaming equals batch parsing; truncation keeps both ends within
      the budget; a prompt pairs every call and output that has an id (tool searches of
      the server apart); a roll-back cuts exactly the last turns; a waiter with a receiver
      is woken, and one without may not be.  All input of a session is accounted for, a
      turn that ends without an abort has recorded or set aside all that was pending
      while its task ran, mail keeps its order, and a tool that waits does not miss mail.
    - Network: a request passes only when it is neither denied nor local and the
      allowlist or the decider admits it; the states that the loader and the
      specifications build are within their managed constraints, and the shared state
      stays so under every interleaving; a change of a domain list
      takes effect; an operation left alone terminates; hooks decide in configuration
      order; the proxies stay on the loopback interface unless told otherwise.  A host
      is approved by someone, one request per host asks at a time, and every request is
      answered unless the one it waits for is dropped.

    Examples next to the theorems record where the code departs from its
    documentation or loses something (an overlapping edit, a recorded request, a
    wake-up).

    ** Fuel and bounds

    Most recursion is structural; the loop of a turn is over the script of what the
    model does, and a script that ends leaves the turn running.  Fuel is used where it is not, with a bound that is
    shown to be enough: [detect_shell_type] (the length of the path, which every
    recursive call shortens), [replace_all] (the length of the text), the delivery of
    nested hops (their number), the loop of the inline tag parser (the buffered text,
    by [push_loop_total]), the walks over a syntax tree (its number of nodes),
    [alloc_token] (two more than the number of tokens, by its theorem), [reserve_slot]
    (one more than the number of residents), the parser of templates (one more than the
    length of the source), the merge of two layers (the depth of the upper one, by
    [merge_at]) and the wait for a pending approval (two rounds, by
    [requests_answered]).  The constants
    of the code (64 map entries, 200 recorded requests, the 1 MiB buffer) are kept.

    ** Not modelled

    The terminal interface, the application server, model clients, login, MCP,
    storage and the platform sandboxes are input and output around libraries.
    Windows and macOS branches are left out unless a parameter selects them.  Of the
    modelled parts: the Starlark reader of rule files, how a runtime spawns a process
    and builds its sandboxed command line, the servers of the network proxy, the context updates between turns,
    how the files of the configuration layers are found, read and decoded, and
    serialisation.
    Also left: the remaining helpers of core/src/tools/handlers/mod.rs. *)

From stdpp Require Export base list option gmap strings pretty sorting.

(** ** Results

    Rust's [Result<A, E>].  [result E] is a monad in the sense of stdpp's
    operational classes, so [x ← e; k] is the [?] operator: an [Err] returns
    early. *)

Inductive result (E A : Type) : Type :=
| Ok (a : A)
| Err (e : E).
Arguments Ok {E A} a.
Arguments Err {E A} e.

#[export] Instance result_ret E : MRet (result E) := λ A a, Ok a.
#[export] Instance result_bind E : MBind (result E) := λ A B f r,
  match r with Ok a => f a | Err e => Err e end.
#[export] Instance result_fmap E : FMap (result E) := λ A B f r,
  match r with Ok a => Ok (f a) | Err e => Err e end.

#[export] Instance result_eq_dec {E A} `{!EqDecision E, !EqDecision A} :
  EqDecision (result E A).
Proof. solve_decision. Defined.

Definition is_ok {E A} (r : result E A) : bool :=
  match r with Ok _ => true | Err _ => false end.

Definition map_err {E F A} (f : E → F) (r : result E A) : result F A :=
  match r with Ok a => Ok a | Err e => Err (f e) end.

Definition ok_or {E A} (o : option A) (e : E) : result E A :=
  match o with Some a => Ok a | None => Err e end.

(** [Option::filter]. *)
Definition opt_filter {A} (p : A → bool) (o : option A) : option A :=
  match o with Some a => if p a then Some a else None | None => None end.

(** [Option::or_else]. *)
Definition opt_or {A} (o1 o2 : option A) : option A :=
  match o1 with Some a => Some a | None => o2 end.

Definition opt_is_some {A} (o : option A) : bool :=
  match o with Some _ => true | None => false end.

(** [iter().find_map(f)] and [iter().find(p)]. *)
Fixpoint find_map {A B} (f : A → option B) (l : list A) : option B :=
  match l with
  | [] => None
  | a :: l => match f a with Some b => Some b | None => find_map f l end
  end.

Fixpoint find {A} (p : A → bool) (l : list A) : option A :=
  match l with
  | [] => None
  | a :: l => if p a then Some a else find p l
  end.

(** [iter().any(p)] and [iter().all(p)]. *)
Definition any {A} (p : A → bool) (l : list A) : bool := existsb p l.
Definition all {A} (p : A → bool) (l : list A) : bool := forallb p l.

(** [iter().map(f).collect::<Result<Vec<_>, _>>()]: the first error wins. *)
Fixpoint collect_map {E A B} (f : A → result E B) (l : list A) : result E (list B) :=
  match l with
  | [] => Ok []
  | a :: l => match f a with
              | Err e => Err e
              | Ok b => match collect_map f l with
                        | Err e => Err e
                        | Ok bs => Ok (b :: bs)
                        end
              end
  end.

(** ** Machine integers

    [usize] is 64 bits wide; [saturating_add], [saturating_sub] and
    [saturating_mul]. *)

Definition USIZE_MAX : N := (2 ^ 64 - 1)%N.
Definition sat_add (a b : N) : N := N.min (a + b) USIZE_MAX.
Definition sat_sub (a b : N) : N := (a - b)%N.
Definition sat_mul (a b : N) : N := N.min (a * b) USIZE_MAX.

(** ** State and errors

    A method that mutates [self] and returns a [Result]: an error keeps the
    state reached so far. *)

Definition st_err (S E A : Type) : Type := S → S * result E A.

#[export] Instance st_err_ret S E : MRet (st_err S E) := λ A a s, (s, Ok a).
#[export] Instance st_err_bind S E : MBind (st_err S E) := λ A B k m s,
  match m s with
  | (s', Ok a) => k a s'
  | (s', Err e) => (s', Err e)
  end.

Definition throw {S E A} (e : E) : st_err S E A := λ s, (s, Err e).
Definition get {S E} : st_err S E S := λ s, (s, Ok s).
Definition modify {S E} (f : S → S) : st_err S E unit := λ s, (f s, Ok ()).
Definition lift {S E A} (r : result E A) : st_err S E A := λ s, (s, r).

(** ** Tactics *)

(** Decompose a hypothesis of the shape [match _ with ... end = v] until the
    scrutinees are known. *)
Ltac case_in H :=
  match type of H with
  | context [match ?x with _ => _ end] => let E := fresh "E" in destruct x eqn:E
  end.

Ltac crush := repeat (case_match; simplify_eq/=; try done).

Create HintDb codex discriminated.
Create Rewrite HintDb codex_rw.

(** ** Generic lemmas *)

Section Results.
Context {E A B : Type}.

Lemma bind_Ok (r : result E A) (f : A → result E B) b :
  r ≫= f = Ok b ↔ ∃ a, r = Ok a ∧ f a = Ok b.
Proof. destruct r; naive_solver. Qed.

Lemma bind_Err (r : result E A) (f : A → result E B) e :
  r ≫= f = Err e ↔ r = Err e ∨ ∃ a, r = Ok a ∧ f a = Err e.
Proof. destruct r; naive_solver. Qed.

Lemma map_err_Ok {F} (f : E → F) (r : result E A) a :
  map_err f r = Ok a ↔ r = Ok a.
Proof. destruct r; naive_solver. Qed.

Lemma ok_or_Ok (o : option A) (e : E) a : ok_or o e = Ok a ↔ o = Some a.
Proof. destruct o; naive_solver. Qed.

Lemma collect_map_Ok (f : A → result E B) l bs :
  collect_map f l = Ok bs ↔ Forall2 (λ a b, f a = Ok b) l bs.
Proof.
  split.
  - revert bs; induction l as [|a l IH]; intros bs H; simpl in *.
    { by simplify_eq. }
    destruct (f a) eqn:Ha, (collect_map f l); simplify_eq; auto.
  - induction 1 as [|a b l bs Ha _ IH]; simpl; [done|]. by rewrite Ha, IH.
Qed.
End Results.

Section StateErrors.
Context {S E A B C : Type}.
Implicit Types (m : st_err S E A) (k : A → st_err S E B).

Lemma st_bind_Ok m k s s' b :
  (m ≫= k) s = (s', Ok b) ↔ ∃ q a, m s = (q, Ok a) ∧ k a q = (s', Ok b).
Proof. unfold mbind, st_err_bind. destruct (m s) as [q [a|e]]; naive_solver. Qed.

Lemma st_bind_eq m m' k k' s :
  m s = m' s → (∀ a q, k a q = k' a q) → (m ≫= k) s = (m' ≫= k') s.
Proof.
  intros Hm Hk. unfold mbind, st_err_bind. rewrite Hm. destruct (m' s) as [q []]; auto.
Qed.

Lemma st_bind_assoc m k (h : B → st_err S E C) s :
  ((m ≫= k) ≫= h) s = (m ≫= λ a, k a ≫= h) s.
Proof. unfold mbind, st_err_bind. by destruct (m s) as [q []]. Qed.

(** A step is run by evaluating what it does to the known state. *)
Lemma st_bind_step m k s q a : m s = (q, Ok a) → (m ≫= k) s = k a q.
Proof. intros Hm. unfold mbind, st_err_bind. by rewrite Hm. Qed.

Lemma st_bind_fail m k s q e : m s = (q, Err e) → (m ≫= k) s = (q, Err e).
Proof. intros Hm. unfold mbind, st_err_bind. by rewrite Hm. Qed.
End StateErrors.

Section Finders.
Context {A B : Type}.

Lemma find_map_Some (f : A → option B) l b :
  find_map f l = Some b → ∃ a, a ∈ l ∧ f a = Some b.
Proof.
  induction l as [|a l IH]; simpl; [done|].
  destruct (f a) eqn:Ha; [intros [= <-]|]; set_solver.
Qed.

Lemma find_map_None (f : A → option B) l :
  find_map f l = None ↔ ∀ a, a ∈ l → f a = None.
Proof.
  induction l as [|a l IH]; simpl.
  { split; [intros _ a Ha; by apply elem_of_nil in Ha|done]. }
  setoid_rewrite elem_of_cons. destruct (f a) as [b|] eqn:Ha.
  - split; [done|]. intros H. by rewrite H in Ha by auto.
  - rewrite IH. split; [intros H a' [->|?]|]; auto.
Qed.

Lemma find_Some (p : A → bool) l a : find p l = Some a → a ∈ l ∧ p a = true.
Proof.
  induction l as [|a' l IH]; simpl; [done|].
  destruct (p a') eqn:Ha; [intros [= <-]|]; set_solver.
Qed.

Lemma find_None (p : A → bool) l : find p l = None ↔ ∀ a, a ∈ l → p a = false.
Proof.
  induction l as [|a l IH]; simpl.
  { split; [intros _ a Ha; by apply elem_of_nil in Ha|done]. }
  setoid_rewrite elem_of_cons. destruct (p a) eqn:Ha.
  - split; [done|]. intros H. by rewrite H in Ha by auto.
  - rewrite IH. split; [intros H a' [->|?]|]; auto.
Qed.

Lemma any_true (p : A → bool) l : any p l = true ↔ ∃ a, a ∈ l ∧ p a = true.
Proof.
  unfold any. rewrite existsb_exists. by setoid_rewrite list_elem_of_In.
Qed.

Lemma all_true (p : A → bool) l : all p l = true ↔ ∀ a, a ∈ l → p a = true.
Proof.
  unfold all. rewrite forallb_forall. by setoid_rewrite list_elem_of_In.
Qed.

Lemma any_false (p : A → bool) l : any p l = false ↔ ∀ a, a ∈ l → p a = false.
Proof.
  rewrite <-not_true_iff_false, any_true. split.
  - intros H a Ha. apply not_true_is_false. eauto.
  - intros H (a & Ha & Hp). by rewrite H in Hp.
Qed.
End Finders.

#[export] Hint Rewrite @bind_Ok @map_err_Ok @ok_or_Ok @collect_map_Ok : codex_rw.
