(* ===== verification/RustStr.v ===== *)
(** * Rust strings

    A Rust [str] as the sequence of its Unicode scalar values ([char]s), with
    the standard-library operations the modelled code calls: trimming,
    splitting, prefixes, lines, joining, the UTF-8 byte length and the ordering.
    The operations are executable; the lemmas below are the ones the components
    share. *)

From Stdlib Require Import Ascii.
From S2P Require Import Prelude.

Abbreviation char := N (only parsing).
Abbreviation str := (list N) (only parsing).

(** [lit "..."] is an ASCII string literal. *)
Definition lit (s : string) : str := N_of_ascii <$> String.list_ascii_of_string s.

Definition ch (s : string) : char := default 0%N (head (lit s)).

Definition nl : char := 10%N.
Definition cr : char := 13%N.
Definition dquote : str := [34%N].

(** [format!("{n}")] of a [usize]. *)
Definition fmt_nat (n : nat) : str := lit (pretty n).

Definition str_eqb (s t : str) : bool := bool_decide (s = t).
Declare Scope rstr_scope.
Infix "==" := str_eqb (at level 70, no associativity) : rstr_scope.
Open Scope rstr_scope.

(** ** Characters *)

Definition in_range (lo hi c : char) : bool := (lo <=? c)%N && (c <=? hi)%N.

(** [char::is_whitespace]: the Unicode property White_Space. *)
Definition is_whitespace (c : char) : bool :=
  in_range 9 13 c || (c =? 32)%N || (c =? 133)%N || (c =? 160)%N || (c =? 5760)%N
  || in_range 8192 8202 c || (c =? 8232)%N || (c =? 8233)%N || (c =? 8239)%N
  || (c =? 8287)%N || (c =? 12288)%N.

(** [char::is_control]: the general category Cc. *)
Definition is_control (c : char) : bool := in_range 0 31 c || in_range 127 159 c.

Definition is_ascii_digit (c : char) : bool := in_range 48 57 c.
Definition is_ascii_alphabetic (c : char) : bool := in_range 65 90 c || in_range 97 122 c.
Definition is_ascii_alphanumeric (c : char) : bool := is_ascii_alphabetic c || is_ascii_digit c.
Definition is_ascii_hexdigit (c : char) : bool :=
  is_ascii_digit c || in_range 65 70 c || in_range 97 102 c.
Definition to_ascii_lowercase (c : char) : char :=
  if in_range 65 90 c then (c + 32)%N else c.

(** Bytes of a [char] in UTF-8. *)
Definition len_utf8 (c : char) : nat :=
  if (c <? 128)%N then 1 else if (c <? 2048)%N then 2 else if (c <? 65536)%N then 3 else 4.

(** [str::len], in bytes. *)
Definition str_len (s : str) : nat := sum_list_with len_utf8 s.

(** ** Trimming *)

Fixpoint drop_while (p : char → bool) (s : str) : str :=
  match s with
  | [] => []
  | c :: s' => if p c then drop_while p s' else s
  end.

Definition trim_start (s : str) : str := drop_while is_whitespace s.
Definition trim_end (s : str) : str := reverse (drop_while is_whitespace (reverse s)).
Definition trim (s : str) : str := trim_end (trim_start s).

Definition is_empty {A} (s : list A) : bool := match s with [] => true | _ => false end.

(** ** Prefixes, suffixes, containment *)

Fixpoint strip_prefix (p s : str) : option str :=
  match p, s with
  | [], _ => Some s
  | c :: p', d :: s' => if (c =? d)%N then strip_prefix p' s' else None
  | _ :: _, [] => None
  end.

Definition starts_with (p s : str) : bool := opt_is_some (strip_prefix p s).
Definition strip_suffix (p s : str) : option str :=
  reverse <$> strip_prefix (reverse p) (reverse s).
Definition ends_with (p s : str) : bool := opt_is_some (strip_suffix p s).

Definition contains_char (c : char) (s : str) : bool := existsb (N.eqb c) s.

Fixpoint contains (p s : str) : bool :=
  starts_with p s || match s with [] => false | _ :: s' => contains p s' end.

(** ** Splitting and joining *)

(** [s.split(c)]: always at least one part. *)
Fixpoint split (c : char) (s : str) : list str :=
  match s with
  | [] => [[]]
  | d :: s' =>
      if (c =? d)%N then [] :: split c s'
      else match split c s' with
           | [] => [[d]]
           | p :: ps => (d :: p) :: ps
           end
  end.

(** [s.split_once(pred)]: around the first character that satisfies [p]. *)
Fixpoint split_once_by (p : char → bool) (s : str) : option (str * str) :=
  match s with
  | [] => None
  | d :: s' => if p d then Some ([], s') else (λ '(a, b), (d :: a, b)) <$> split_once_by p s'
  end.
Definition split_once (c : char) (s : str) : option (str * str) := split_once_by (N.eqb c) s.

(** [s.trim_end_matches(c)] *)
Definition trim_end_char (c : char) (s : str) : str := reverse (drop_while (N.eqb c) (reverse s)).

(** [s.rsplit_once(c)] *)
Definition rsplit_once (c : char) (s : str) : option (str * str) :=
  (λ '(a, b), (reverse b, reverse a)) <$> split_once c (reverse s).

Definition count_char (c : char) (s : str) : nat := length (List.filter (N.eqb c) s).

(** [s.find(n)], the position of the first occurrence. *)
Fixpoint find_str (n s : str) : option nat :=
  if starts_with n s then Some 0
  else match s with [] => None | _ :: s' => S <$> find_str n s' end.

(** [s.split_once(n)] for a text. *)
Definition split_once_str (n s : str) : option (str * str) :=
  (λ i, (take i s, drop (i + length n) s)) <$> find_str n s.

(** [parts.join(sep)]. *)
Fixpoint join (sep : str) (parts : list str) : str :=
  match parts with
  | [] => []
  | [p] => p
  | p :: ps => p ++ sep ++ join sep ps
  end.

(** [s.lines()]: parts end at "\n" or "\r\n"; a final line ending adds no
    empty line. *)
Definition strip_cr (s : str) : str := default s (strip_suffix [cr] s).
Fixpoint lines_of_parts (parts : list str) : list str :=
  match parts with
  | [] => []
  | [last] => if is_empty last then [] else [last]
  | p :: ps => strip_cr p :: lines_of_parts ps
  end.
Definition lines (s : str) : list str := lines_of_parts (split nl s).

(** [s.split_whitespace()]. *)
Fixpoint split_whitespace_go (cur : str) (s : str) : list str :=
  match s with
  | [] => if is_empty cur then [] else [reverse cur]
  | c :: s' =>
      if is_whitespace c
      then (if is_empty cur then [] else [reverse cur]) ++ split_whitespace_go [] s'
      else split_whitespace_go (c :: cur) s'
  end.
Definition split_whitespace (s : str) : list str := split_whitespace_go [] s.

(** [s.replace(c, by)]. *)
Definition replace_char (c : char) (by_ : str) (s : str) : str :=
  s ≫= λ d, if (c =? d)%N then by_ else [d].

Definition eq_ignore_ascii_case (s t : str) : bool :=
  (to_ascii_lowercase <$> s) == (to_ascii_lowercase <$> t).

(** [str::to_lowercase].  The mapping of the characters outside ASCII is the
    Unicode table [lower]. *)
Definition to_lowercase (lower : char → str) (s : str) : str :=
  s ≫= λ c, if (c <? 128)%N then [to_ascii_lowercase c] else lower c.

(** A literal in which [^] stands for the double quote. *)
Definition litq (s : string) : str :=
  (λ c, if (c =? 94)%N then 34%N else c) <$> lit s.

(** [str::cmp]: UTF-8 byte order is code-point order. *)
Fixpoint str_cmp (s t : str) : comparison :=
  match s, t with
  | [], [] => Eq
  | [], _ :: _ => Lt
  | _ :: _, [] => Gt
  | c :: s', d :: t' => match (c ?= d)%N with Eq => str_cmp s' t' | o => o end
  end.
Definition str_le (s t : str) : Prop := str_cmp s t ≠ Gt.
#[export] Instance str_le_dec : RelDecision str_le.
Proof. intros s t. unfold str_le. apply _. Defined.

(** Unix paths: [Path::is_absolute] and [Path::join]. *)
Definition path_is_absolute (p : str) : bool := starts_with [47%N] p.
Definition path_join (base p : str) : str :=
  if path_is_absolute p then p
  else if is_empty base || ends_with [47%N] base then base ++ p
  else base ++ [47%N] ++ p.

(** ** Lemmas *)

Lemma str_eqb_true s t : (s == t) = true ↔ s = t.
Proof. apply bool_decide_eq_true. Qed.
Lemma str_eqb_false s t : (s == t) = false ↔ s ≠ t.
Proof. apply bool_decide_eq_false. Qed.
Lemma str_eqb_reflect s t : reflect (s = t) (s == t).
Proof. apply iff_reflect. by rewrite str_eqb_true. Qed.
Lemma str_eqb_refl s : (s == s) = true.
Proof. by apply str_eqb_true. Qed.

#[export] Hint Rewrite str_eqb_true str_eqb_false : codex_rw.

(** Case analysis on a string test of the goal or of a hypothesis. *)
Ltac case_str :=
  match goal with
  | |- context [str_eqb ?s ?t] =>
      let E := fresh "E" in
      destruct (str_eqb s t) eqn:E; [apply str_eqb_true in E|apply str_eqb_false in E]
  | _ : context [str_eqb ?s ?t] |- _ =>
      let E := fresh "E" in
      destruct (str_eqb s t) eqn:E; [apply str_eqb_true in E|apply str_eqb_false in E]
  end.

Lemma is_empty_true {A} (s : list A) : is_empty s = true ↔ s = [].
Proof. by destruct s. Qed.
Lemma is_empty_false {A} (s : list A) : is_empty s = false ↔ s ≠ [].
Proof. by destruct s. Qed.

Section Affix.
Implicit Types p s r : str.

Lemma strip_prefix_Some p s r : strip_prefix p s = Some r ↔ s = p ++ r.
Proof.
  revert s; induction p as [|c p IH]; intros s; simpl; [naive_solver|].
  destruct s as [|d s]; [naive_solver|].
  destruct (N.eqb_spec c d) as [->|?]; [rewrite IH|]; naive_solver.
Qed.

Lemma strip_prefix_app p r : strip_prefix p (p ++ r) = Some r.
Proof. by apply strip_prefix_Some. Qed.

Lemma starts_with_true p s : starts_with p s = true ↔ ∃ r, s = p ++ r.
Proof.
  unfold starts_with. setoid_rewrite <-strip_prefix_Some.
  destruct (strip_prefix p s); naive_solver.
Qed.

Lemma strip_suffix_Some p s r : strip_suffix p s = Some r ↔ s = r ++ p.
Proof.
  unfold strip_suffix. rewrite fmap_Some. setoid_rewrite strip_prefix_Some. split.
  - intros (x & Hs & ->). rewrite <-(reverse_involutive s), Hs, reverse_app.
    by rewrite reverse_involutive.
  - intros ->. exists (reverse r). by rewrite reverse_app, reverse_involutive.
Qed.

Lemma strip_suffix_app p r : strip_suffix p (r ++ p) = Some r.
Proof. by apply strip_suffix_Some. Qed.

Lemma ends_with_true p s : ends_with p s = true ↔ ∃ r, s = r ++ p.
Proof.
  unfold ends_with. setoid_rewrite <-strip_suffix_Some.
  destruct (strip_suffix p s); naive_solver.
Qed.

Lemma contains_char_true (c : char) s : contains_char c s = true ↔ c ∈ s.
Proof.
  unfold contains_char. rewrite existsb_exists.
  setoid_rewrite <-list_elem_of_In. setoid_rewrite N.eqb_eq. naive_solver.
Qed.

Lemma contains_char_false (c : char) s : contains_char c s = false ↔ c ∉ s.
Proof. rewrite <-contains_char_true. by destruct (contains_char c s). Qed.
End Affix.

Section SplitJoin.
Implicit Types s p : str.

Lemma split_nonempty (c : char) s : split c s ≠ [].
Proof. destruct s; simpl; [done|]. case_match; [done|]. by case_match. Qed.

Lemma split_no_sep (c : char) s p : p ∈ split c s → c ∉ p.
Proof.
  revert p; induction s as [|d s IH]; intros p; simpl.
  { intros ->%list_elem_of_singleton. apply not_elem_of_nil. }
  destruct (N.eqb_spec c d) as [->|Hcd].
  { intros [->|?]%elem_of_cons; [apply not_elem_of_nil|auto]. }
  destruct (split c s) as [|q qs]; intros Hp.
  - apply list_elem_of_singleton in Hp as ->. by rewrite list_elem_of_singleton.
  - apply elem_of_cons in Hp as [->|Hp]; [|by apply IH; right].
    rewrite not_elem_of_cons. split; [done|]. apply IH. by left.
Qed.

(** Splitting loses nothing. *)
Lemma join_split (c : char) s : join [c] (split c s) = s.
Proof.
  induction s as [|d s IH]; simpl; [done|].
  pose proof (split_nonempty c s).
  destruct (N.eqb_spec c d) as [<-|?], (split c s) as [|p ps]; try done.
  - simpl in *. by rewrite IH.
  - rewrite <-IH. by destruct ps.
Qed.

Lemma split_prefix (c : char) p s :
  c ∉ p → split c (p ++ c :: s) = p :: split c s.
Proof.
  induction p as [|d p IH]; intros Hp; simpl; [by rewrite N.eqb_refl|].
  destruct (N.eqb_spec c d) as [->|?]; [set_solver|]. by rewrite IH by set_solver.
Qed.

Lemma split_none (c : char) p : c ∉ p → split c p = [p].
Proof.
  induction p as [|d p IH]; intros Hp; simpl; [done|].
  destruct (N.eqb_spec c d) as [->|?]; [set_solver|]. by rewrite IH by set_solver.
Qed.

(** Joining parts that do not contain the separator is undone by [split]. *)
Lemma split_join (c : char) ps :
  ps ≠ [] → Forall (λ p, c ∉ p) ps → split c (join [c] ps) = ps.
Proof.
  induction ps as [|p ps IH]; [done|]. intros _ [Hp Hps]%Forall_cons.
  destruct ps as [|q ps]; [by apply split_none|].
  change (join [c] (p :: q :: ps)) with (p ++ c :: join [c] (q :: ps)).
  rewrite split_prefix by done. by rewrite IH.
Qed.

Lemma split_once_by_Some (f : char → bool) s a b :
  split_once_by f s = Some (a, b) ↔
    ∃ c, s = a ++ c :: b ∧ f c = true ∧ Forall (λ d, f d = false) a.
Proof.
  revert a b; induction s as [|d s IH]; intros a b; simpl.
  { split; [done|]. intros (? & ? & _). by destruct a. }
  destruct (f d) eqn:Hd.
  - split; [intros [= <- <-]; by exists d|].
    intros (c & Hs & Hc & Ha). destruct a as [|e a]; simplify_eq/=; [done|].
    apply Forall_cons in Ha as [Ha _]. by rewrite Hd in Ha.
  - rewrite fmap_Some. split.
    + intros ([a' b'] & Ha & [= -> ->]). apply IH in Ha as (c & -> & Hc & Ha).
      exists c. auto.
    + intros (c & Hs & Hc & Ha). destruct a as [|e a]; simplify_eq/=; [by rewrite Hd in Hc|].
      apply Forall_cons in Ha as [_ Ha]. exists (a, b). rewrite IH. eauto.
Qed.

Lemma split_once_app (c : char) a b :
  c ∉ a → split_once c (a ++ c :: b) = Some (a, b).
Proof.
  intros Hc. apply split_once_by_Some. exists c. split; [done|].
  split; [apply N.eqb_refl|]. apply Forall_forall. intros d Hd. apply N.eqb_neq. set_solver.
Qed.

Lemma split_once_Some (c : char) s a b :
  split_once c s = Some (a, b) → s = a ++ c :: b ∧ c ∉ a.
Proof.
  intros (d & -> & Hd & Ha)%split_once_by_Some. apply N.eqb_eq in Hd as <-.
  split; [done|]. rewrite Forall_forall in Ha. intros Hc.
  specialize (Ha _ Hc). by rewrite N.eqb_refl in Ha.
Qed.
End SplitJoin.

Section Trim.
Implicit Types s : str.

Lemma drop_while_suffix p s : ∃ k, s = k ++ drop_while p s ∧ Forall (λ c, p c = true) k.
Proof.
  induction s as [|c s (k & Hk & Hp)]; simpl; [by exists []|].
  destruct (p c) eqn:Hc; [exists (c :: k)|exists []]; simpl; [|done].
  split; [by f_equal|auto].
Qed.

Lemma drop_while_head p s c s' : drop_while p s = c :: s' → p c = false.
Proof. induction s as [|d s IH]; simpl; [done|]. destruct (p d) eqn:Hd; naive_solver. Qed.

Lemma drop_while_id p s : (∀ c, head s = Some c → p c = false) → drop_while p s = s.
Proof. destruct s as [|c s]; simpl; [done|]. intros H. by rewrite H. Qed.

(** A string is trimmed when it neither starts nor ends with white space. *)
Definition trimmed s : Prop :=
  (∀ c, head s = Some c → is_whitespace c = false) ∧
  (∀ c, last s = Some c → is_whitespace c = false).

Lemma last_reverse_head {A} (l : list A) : last l = head (reverse l).
Proof. by rewrite head_reverse. Qed.

Lemma trim_end_id s : (∀ c, last s = Some c → is_whitespace c = false) → trim_end s = s.
Proof.
  intros H. unfold trim_end. rewrite drop_while_id; [by rewrite reverse_involutive|].
  intros c. rewrite head_reverse. apply H.
Qed.

Lemma trim_id s : trimmed s → trim s = s.
Proof. intros [Hh Hl]. unfold trim, trim_start. rewrite drop_while_id by done. by apply trim_end_id. Qed.

Lemma trim_end_prefix s : ∃ k, s = trim_end s ++ k ∧ Forall (λ c, is_whitespace c = true) k.
Proof.
  destruct (drop_while_suffix is_whitespace (reverse s)) as (k & Hk & Hp).
  exists (reverse k). split; [|by apply Forall_reverse].
  unfold trim_end. rewrite <-reverse_app, <-Hk. by rewrite reverse_involutive.
Qed.

Lemma trim_end_last s c : last (trim_end s) = Some c → is_whitespace c = false.
Proof.
  unfold trim_end. rewrite last_reverse. intros H.
  destruct (drop_while is_whitespace (reverse s)) as [|d l] eqn:E; simplify_eq/=.
  by eapply drop_while_head.
Qed.

Lemma trim_trimmed s : trimmed (trim s).
Proof.
  split; [|apply trim_end_last]. intros c Hc. unfold trim in Hc.
  destruct (trim_end_prefix (trim_start s)) as (k & Hk & _).
  destruct (trim_end (trim_start s)) as [|d l]; simplify_eq/=.
  by eapply drop_while_head.
Qed.

Lemma trim_idemp s : trim (trim s) = trim s.
Proof. apply trim_id, trim_trimmed. Qed.
End Trim.

Section Order.
Implicit Types s t u : str.

Lemma str_cmp_refl s : str_cmp s s = Eq.
Proof. induction s as [|c s IH]; simpl; [done|]. by rewrite N.compare_refl. Qed.

Lemma str_cmp_eq s t : str_cmp s t = Eq → s = t.
Proof.
  revert t; induction s as [|c s IH]; intros [|d t]; simpl; try done.
  destruct (c ?= d)%N eqn:E; try done. apply N.compare_eq in E as ->. intros ?. by f_equal; apply IH.
Qed.

Lemma str_cmp_antisym s t : str_cmp t s = CompOpp (str_cmp s t).
Proof.
  revert t; induction s as [|c s IH]; intros [|d t]; simpl; try done.
  rewrite (N.compare_antisym c d). destruct (c ?= d)%N; simpl; auto.
Qed.

Lemma str_cmp_lt_trans s t u : str_cmp s t = Lt → str_cmp t u = Lt → str_cmp s u = Lt.
Proof.
  revert t u; induction s as [|c s IH]; intros [|d t] [|e u]; simpl; try done.
  intros H1 H2.
  destruct (N.compare_spec c d) as [->|Hcd|Hcd]; [|clear H1|done].
  - destruct (N.compare_spec d e) as [->|?|?]; [eauto|done|done].
  - destruct (N.compare_spec d e) as [->|Hde|Hde]; [| |done].
    + by rewrite (proj2 (N.compare_lt_iff _ _)).
    + rewrite (proj2 (N.compare_lt_iff c e)); [done|]. by etrans.
Qed.

#[export] Instance str_le_total : Total str_le.
Proof. intros s t. unfold str_le. rewrite (str_cmp_antisym s t). destruct (str_cmp s t); auto. Qed.

#[export] Instance str_le_trans : Transitive str_le.
Proof.
  intros s t u. unfold str_le. intros H1 H2.
  destruct (str_cmp s t) eqn:E1; [by apply str_cmp_eq in E1 as ->| |done].
  destruct (str_cmp t u) eqn:E2; [apply str_cmp_eq in E2 as <-; by rewrite E1| |done].
  by rewrite (str_cmp_lt_trans _ _ _ E1 E2).
Qed.

#[export] Instance str_le_antisym : AntiSymm (=) str_le.
Proof.
  intros s t. unfold str_le. rewrite (str_cmp_antisym s t).
  destruct (str_cmp s t) eqn:E; [|done|done]. intros _ _. by apply str_cmp_eq.
Qed.
End Order.

(** ** Texts joined by a separator *)

Lemma first_sep_inj (c : char) a a' b b' :
  c ∉ a → c ∉ a' → a ++ c :: b = a' ++ c :: b' → a = a' ∧ b = b'.
Proof.
  revert a'. induction a as [| x a IH]; intros [| x' a'] Ha Ha' Heq; simplify_eq/=; try done.
  - by destruct Ha'; left.
  - by destruct Ha; left.
  - apply not_elem_of_cons in Ha as [_ Ha]. apply not_elem_of_cons in Ha' as [_ Ha'].
    destruct (IH a' Ha Ha' ltac:(done)) as [-> ->]. done.
Qed.

Lemma last_sep_inj (c : char) a a' b b' :
  c ∉ b → c ∉ b' → a ++ c :: b = a' ++ c :: b' → a = a' ∧ b = b'.
Proof.
  intros Hb Hb' Heq. apply (f_equal reverse) in Heq.
  rewrite !reverse_app, !reverse_cons, <- !app_assoc in Heq. cbn in Heq.
  apply first_sep_inj in Heq as [H1 H2]; [| by rewrite elem_of_reverse..].
  by apply (inj reverse) in H1, H2.
Qed.

Lemma pretty_digits (n : N) (c : char) : c ∈ lit (pretty n) → is_ascii_digit c = true.
Proof.
  assert (Hgo : ∀ n s, (∀ c, c ∈ lit s → is_ascii_digit c = true) →
                  ∀ c, c ∈ lit (pretty_N_go n s) → is_ascii_digit c = true).
  { clear. intros n. induction (N.lt_wf_0 n) as [n _ IH]. intros s Hs c.
    destruct (decide (n = 0)%N) as [-> | Hn]; [rewrite pretty_N_go_0; apply Hs|].
    rewrite pretty_N_go_step by lia. apply IH; [apply N.div_lt; lia|].
    intros d Hd. unfold lit in Hd. cbn in Hd. apply elem_of_cons in Hd as [-> | Hd]; [| by apply Hs].
    assert (n `mod` 10 < 10)%N as Hlt by (apply N.mod_lt; lia).
    revert Hlt. generalize (n `mod` 10)%N. intros m Hm.
    destruct (decide (m ∈ [0;1;2;3;4;5;6;7;8;9]%N)) as [Hin | Hout].
    - repeat (apply elem_of_cons in Hin as [-> | Hin]; [done|]). by apply elem_of_nil in Hin.
    - destruct Hout. repeat (rewrite elem_of_cons). lia. }
  unfold pretty, pretty_N. case_decide; [| apply Hgo; intros d Hd; by apply elem_of_nil in Hd].
  intros Hc. apply list_elem_of_singleton in Hc as ->. done.
Qed.

#[export] Instance lit_inj : Inj (=) (=) lit.
Proof.
  intros s. induction s as [| a s IH]; intros [| b t] H; try done.
  unfold lit in *. cbn in H. injection H as Ha Hs. apply (f_equal ascii_of_N) in Ha. rewrite !ascii_N_embedding in Ha.
  rewrite Ha. f_equal. by apply IH.
Qed.

#[export] Hint Resolve trim_trimmed : codex.
#[export] Hint Rewrite trim_idemp strip_prefix_Some strip_suffix_Some : codex_rw.

(** Literals stay folded in proofs; [by_compute] evaluates closed facts about
    them. *)
#[global] Opaque lit ch.
Ltac by_compute := solve [vm_compute; first [reflexivity | congruence | intuition congruence]].
