(* ===== verification/Launcher.v ===== *)
(** * Remote launchers (codex-rs/exec-server/src/provision/launcher.rs)

    A launcher is the outer-to-inner list of transport hops (SSH hosts, Docker
    containers) a command is routed through.  The file holds the launcher ids
    and their parser, the validation of hop values, the POSIX quoting and the
    argv synthesis, and shows

    - ids and launchers are in bijection on valid launchers;
    - whatever the hop values and the inner tokens are, the synthesised argv
      reaches the innermost hop as exactly the inner tokens ([Delivery]). *)

From S2P Require Import Prelude.
From S2P Require Import RustStr.

(** A single transport layer in a multi-hop chain. *)
Inductive Hop :=
| Docker (container : str)
| Ssh (host : str).

#[export] Instance Hop_eq_dec : EqDecision Hop.
Proof. solve_decision. Defined.

Definition id_segment (h : Hop) : str :=
  match h with
  | Docker container => lit "docker:" ++ container
  | Ssh host => lit "ssh:" ++ host
  end.

Definition MAX_HOP_VALUE_LEN : nat := 256.

Definition validate_hop_value (s : str) : result str unit :=
  if is_empty s then Err (lit "hop value must not be empty")
  else if MAX_HOP_VALUE_LEN <? str_len s then
    Err (lit "hop value length " ++ fmt_nat (str_len s) ++ lit " exceeds maximum "
         ++ fmt_nat MAX_HOP_VALUE_LEN)
  else if starts_with (lit "-") s then
    Err (lit "hop value `" ++ s
         ++ lit "` must not start with `-` (would be interpreted as a flag)")
  else if contains_char (ch ">") s then
    Err (lit "hop value `" ++ s
         ++ lit "` must not contain `>` (reserved as the id segment separator)")
  else if any (λ c, is_control c || is_whitespace c) s then
    Err (lit "hop value `" ++ s
         ++ lit "` must not contain whitespace or control characters")
  else Ok tt.

Record RemoteLauncher := mkLauncher { hops : list Hop }.

#[export] Instance RemoteLauncher_eq_dec : EqDecision RemoteLauncher.
Proof. solve_decision. Defined.

Definition docker (container : str) : RemoteLauncher := mkLauncher [Docker container].
Definition ssh (host : str) : RemoteLauncher := mkLauncher [Ssh host].
Definition layered (hs : list Hop) : RemoteLauncher := mkLauncher hs.

(** The closure of [RemoteLauncher::from_id], run on one segment. *)
Definition hop_of_segment (id seg : str) : result str Hop :=
  '(kind, value) ← ok_or (split_once (ch ":") seg)
      (lit "launcher id segment `" ++ seg ++ lit "` is missing a `:` separator");
  if is_empty value then
    Err (lit "launcher id segment `" ++ seg ++ lit "` has an empty value after `:`")
  else
    _ ← validate_hop_value value;
    if kind == lit "ssh" then Ok (Ssh value)
    else if kind == lit "docker" then Ok (Docker value)
    else Err (lit "unknown hop type `" ++ kind ++ lit "` in launcher id `" ++ id
              ++ lit "`; valid types are `ssh`, `docker`").

Definition from_id (id : str) : result str RemoteLauncher :=
  if is_empty id then Err (lit "launcher id must not be empty")
  else mkLauncher <$> collect_map (hop_of_segment id) (split (ch ">") id).

Definition with_appended_hop (l : RemoteLauncher) (h : Hop) : RemoteLauncher :=
  mkLauncher (hops l ++ [h]).

Definition id (l : RemoteLauncher) : str := join (lit ">") (id_segment <$> hops l).

(** ** Quoting and argv synthesis *)

Definition squote : char := ch "'".
Definition backslash : char := ch "\".

Definition posix_single_quote (s : str) : str :=
  [squote] ++ replace_char squote (lit "'\''") s ++ [squote].

Definition shell_join (tokens : list str) : str :=
  join (lit " ") (posix_single_quote <$> tokens).

Definition SSH_HARDENING_FLAGS : list str :=
  [lit "-T"; lit "-q"; lit "-o"; lit "BatchMode=yes"; lit "-o";
   lit "StrictHostKeyChecking=accept-new"; lit "-o"; lit "LogLevel=ERROR"; lit "-o";
   lit "ConnectTimeout=20"; lit "-o"; lit "ServerAliveInterval=15"; lit "-o";
   lit "ServerAliveCountMax=2"].

(** The closure of [fold_hops]: one hop around the tokens composed so far. *)
Definition wrap_hop (tokens : list str) (h : Hop) : list str :=
  match h with
  | Docker container =>
      [lit "docker"; lit "exec"; lit "-i"; lit "--"; container] ++ tokens
  | Ssh host =>
      ([lit "ssh"] ++ SSH_HARDENING_FLAGS ++ [lit "--"; host]) ++ [shell_join tokens]
  end.

Definition fold_hops (hs : list Hop) (inner_tokens : list str) : list str :=
  fold_left wrap_hop (reverse hs) inner_tokens.

Definition exec_argv (l : RemoteLauncher) (inner : list str) : list str :=
  fold_hops (hops l) inner.

Definition shell_argv (l : RemoteLauncher) (script : str) : list str :=
  fold_hops (hops l) [lit "sh"; lit "-c"; script].

(** ** Hop values *)

Definition hop_value (h : Hop) : str :=
  match h with Docker c => c | Ssh h => h end.

(** What [validate_hop_value] promises, as a predicate. *)
Record hop_value_ok (s : str) : Prop := {
  hv_nonempty : s ≠ [];
  hv_len : str_len s ≤ 256;
  hv_no_flag : head s ≠ Some (ch "-");
  hv_no_sep : ch ">" ∉ s;
  hv_plain : Forall (λ c, is_control c = false ∧ is_whitespace c = false) s }.

Lemma validate_hop_value_ok_iff s : validate_hop_value s = Ok tt ↔ hop_value_ok s.
Proof.
  unfold validate_hop_value.
  destruct (is_empty s) eqn:He.
  { split; [done|]. intros [Hne _ _ _ _]. by apply is_empty_true in He. }
  apply is_empty_false in He.
  destruct (Nat.ltb_spec MAX_HOP_VALUE_LEN (str_len s)) as [Hl|Hl].
  { split; [done|]. intros [_ Hlen _ _ _]. unfold MAX_HOP_VALUE_LEN in Hl. lia. }
  destruct (starts_with (lit "-") s) eqn:Hs.
  { split; [done|]. intros [_ _ Hf _ _]. apply starts_with_true in Hs as [r ->]. done. }
  destruct (contains_char (ch ">") s) eqn:Hc.
  { split; [done|]. intros [_ _ _ Hsep _]. by apply contains_char_true in Hc. }
  destruct (any _ s) eqn:Ha.
  { split; [done|]. intros [_ _ _ _ Hp]. apply any_true in Ha as (c & Hin & Hcc).
    rewrite Forall_forall in Hp. destruct (Hp c Hin) as [H1 H2]. by rewrite H1, H2 in Hcc. }
  split; [intros _|done]. split; [done|done| | |].
  - intros Hh. destruct s as [|c s]; by simplify_eq/=.
  - by apply contains_char_false.
  - apply Forall_forall. intros c Hin. rewrite any_false in Ha.
    by apply orb_false_iff, Ha.
Qed.


(** ** Ids and launchers *)

Definition hop_ok (h : Hop) : Prop := hop_value_ok (hop_value h).

(** A launcher that [from_id] or the [env_switch] intake can produce. *)
Definition launcher_ok (l : RemoteLauncher) : Prop := hops l ≠ [] ∧ Forall hop_ok (hops l).

Lemma id_segment_no_sep h : hop_ok h → ch ">" ∉ id_segment h.
Proof.
  intros [_ _ _ Hs _]. destruct h; unfold id_segment; apply not_elem_of_app;
    (split; [apply contains_char_false; by_compute|done]).
Qed.

Lemma hop_of_segment_id_segment i h : hop_ok h → hop_of_segment i (id_segment h) = Ok h.
Proof.
  intros Hok. pose proof (proj2 (validate_hop_value_ok_iff _) Hok) as Hv.
  destruct Hok as [Hne _ _ _ _]. unfold hop_of_segment.
  destruct h as [c|c]; simpl in *.
  - replace (lit "docker:" ++ c) with (lit "docker" ++ ch ":" :: c) by by_compute.
    rewrite split_once_app by (apply contains_char_false; by_compute). simpl.
    rewrite (proj2 (is_empty_false c)), Hv by done. done.
  - replace (lit "ssh:" ++ c) with (lit "ssh" ++ ch ":" :: c) by by_compute.
    rewrite split_once_app by (apply contains_char_false; by_compute). simpl.
    rewrite (proj2 (is_empty_false c)), Hv by done. done.
Qed.

Lemma hop_of_segment_inv i seg h :
  hop_of_segment i seg = Ok h → id_segment h = seg ∧ hop_ok h.
Proof.
  unfold hop_of_segment. intros ([kind value] & Hsp%ok_or_Ok & H)%bind_Ok.
  destruct (is_empty value); [done|].
  apply bind_Ok in H as ([] & Hv%validate_hop_value_ok_iff & H).
  apply split_once_Some in Hsp as [-> _].
  repeat case_str; simplify_eq; done.
Qed.

Lemma id_nonempty l : hops l ≠ [] → id l ≠ [].
Proof. destruct l as [[|[c|c] [|h hs]]]; done. Qed.

Lemma from_id_id_ok l : launcher_ok l → from_id (id l) = Ok l.
Proof.
  intros [Hne Hok]. unfold from_id.
  rewrite (proj2 (is_empty_false _)) by by apply id_nonempty.
  unfold id. change (lit ">") with [ch ">"]. rewrite split_join.
  - rewrite (proj2 (collect_map_Ok _ _ (hops l))); [by destruct l|].
    apply Forall2_fmap_l, Forall_Forall2_diag.
    eapply Forall_impl; [done|]. intros h. apply hop_of_segment_id_segment.
  - by destruct l as [[|??]].
  - apply Forall_fmap. eapply Forall_impl; [done|]. intros h. apply id_segment_no_sep.
Qed.

Lemma from_id_inv s l : from_id s = Ok l → id l = s ∧ launcher_ok l.
Proof.
  unfold from_id. destruct (is_empty s) eqn:Hs; [done|].
  destruct (collect_map _ _) as [hs|e] eqn:Hc; [|done]. intros [= <-].
  apply collect_map_Ok in Hc.
  assert (Forall2 (λ seg h, id_segment h = seg ∧ hop_ok h) (split (ch ">") s) hs) as Hi.
  { eapply Forall2_impl; [done|]. intros seg h. apply hop_of_segment_inv. }
  assert (id_segment <$> hs = split (ch ">") s) as Hseg.
  { induction Hi as [|seg h segs hs [] _ IH] in Hc |- *; [done|].
    apply Forall2_cons in Hc as [_ Hc]. csimpl. f_equal; auto. }
  split.
  - unfold id; simpl. rewrite Hseg. apply (join_split (ch ">")).
  - split; simpl.
    + intros ->. apply Forall2_nil_inv_r in Hc. by apply split_nonempty in Hc.
    + clear -Hi. induction Hi as [|??? ? [] _ IH]; auto.
Qed.

(** ** Delivery of an argv through the hops

    The programs that carry the argv (the remote login shell, [ssh] and
    [docker]) are not part of the repository.  They are parameters, with the
    documented behaviour the synthesis relies on as laws. *)

(** POSIX shell quoting (XCU 2.2): [sh_word w v] says that the shell text [w],
    made of single-quoted fragments and backslash-escaped characters, is part of
    one word whose value is [v]. *)
Inductive sh_word : str → str → Prop :=
| sh_word_nil : sh_word [] []
| sh_word_quoted q w v :
    squote ∉ q → sh_word w v → sh_word (squote :: q ++ squote :: w) (q ++ v)
| sh_word_escaped c w v :
    c ≠ nl → sh_word w v → sh_word (backslash :: c :: w) (c :: v).

(** A command line is split at unquoted blanks. *)
Class PosixShell (sh_words : str → option (list str)) : Prop := {
  sh_words_one w v : w ≠ [] → sh_word w v → sh_words w = Some [v];
  sh_words_cons w v rest vs :
    w ≠ [] → sh_word w v → sh_words rest = Some vs →
    sh_words (w ++ [ch " "] ++ rest) = Some (v :: vs) }.

(** The options before [--] that the synthesis uses: flags without an argument
    and [-o] with one. *)
Fixpoint ssh_options (opts : list str) : bool :=
  match opts with
  | [] => true
  | o :: rest =>
      if (o == lit "-T") || (o == lit "-q") then ssh_options rest
      else if o == lit "-o" then
        match rest with [] => false | _ :: rest => ssh_options rest end
      else false
  end.

Class Transport := {
  sh_words : str → option (list str);
  (* the host, and the command line its login shell receives *)
  ssh_cli : list str → option (str * str);
  (* the container, and the argv executed in it *)
  docker_cli : list str → option (str * list str) }.

Class TransportLaws `{T : Transport} : Prop := {
  transport_shell :: PosixShell sh_words;
  ssh_cli_spec opts host cmd :
    ssh_options opts = true →
    ssh_cli (lit "ssh" :: opts ++ [lit "--"; host; cmd]) = Some (host, cmd);
  docker_cli_spec container argv :
    argv ≠ [] →
    docker_cli ([lit "docker"; lit "exec"; lit "-i"; lit "--"; container] ++ argv)
    = Some (container, argv) }.

Section Delivery.
Context `{TransportLaws}.

(** What happens when [argv] is executed: the hop it enters and the argv
    that is executed there. *)
Definition hop_step (argv : list str) : option (Hop * list str) :=
  match argv with
  | [] => None
  | prog :: _ =>
      if prog == lit "ssh" then
        '(host, cmd) ← ssh_cli argv; words ← sh_words cmd; Some (Ssh host, words)
      else if prog == lit "docker" then
        '(container, inner) ← docker_cli argv; Some (Docker container, inner)
      else None
  end.

(** [n] hops: the hops entered, outermost first, and the argv that the
    innermost one executes. *)
Fixpoint deliver (n : nat) (argv : list str) : option (list Hop * list str) :=
  match n with
  | 0 => Some ([], argv)
  | S n =>
      '(h, inner) ← hop_step argv;
      '(hs, final) ← deliver n inner;
      Some (h :: hs, final)
  end.
End Delivery.

Lemma posix_single_quote_go q s :
  squote ∉ q →
  sh_word (squote :: q ++ replace_char squote (lit "'\''") s ++ [squote]) (q ++ s).
Proof.
  revert q; induction s as [|c s IH]; intros q Hq; csimpl.
  { rewrite app_nil_r. rewrite <-(app_nil_r q) at 2. apply sh_word_quoted; [done|constructor]. }
  unfold replace_char; csimpl. fold (replace_char squote (lit "'\''") s).
  destruct (N.eqb_spec squote c) as [<-|Hc].
  - replace (lit "'\''") with [squote; backslash; squote; squote] by by_compute.
    apply sh_word_quoted; [done|]. apply sh_word_escaped; [by_compute|].
    apply (IH []). apply not_elem_of_nil.
  - specialize (IH (q ++ [c])). rewrite <-!app_assoc in IH. apply IH.
    rewrite not_elem_of_app, list_elem_of_singleton. done.
Qed.

Lemma posix_single_quote_word s : sh_word (posix_single_quote s) s.
Proof. apply (posix_single_quote_go []), not_elem_of_nil. Qed.

Lemma shell_join_words `{!PosixShell sh} tokens :
  tokens ≠ [] → sh (shell_join tokens) = Some tokens.
Proof.
  induction tokens as [|t [|u ts] IH]; intros Hne; [done| |].
  - apply sh_words_one; [done|apply posix_single_quote_word].
  - replace (shell_join (t :: u :: ts))
      with (posix_single_quote t ++ [ch " "] ++ shell_join (u :: ts)) by by_compute.
    apply sh_words_cons; [done|apply posix_single_quote_word|by apply IH].
Qed.

Lemma fold_hops_cons h hs inner : fold_hops (h :: hs) inner = wrap_hop (fold_hops hs inner) h.
Proof. unfold fold_hops. by rewrite reverse_cons, fold_left_app. Qed.

Lemma wrap_hop_nonempty tokens h : wrap_hop tokens h ≠ [].
Proof. by destruct h. Qed.

Lemma fold_hops_nonempty hs inner : inner ≠ [] → fold_hops hs inner ≠ [].
Proof. destruct hs; [done|]. rewrite fold_hops_cons. intros _. apply wrap_hop_nonempty. Qed.

Lemma hop_step_wrap `{TransportLaws} tokens h :
  tokens ≠ [] → hop_step (wrap_hop tokens h) = Some (h, tokens).
Proof.
  intros Hne. destruct h as [c|host]; unfold hop_step.
  - cbn [wrap_hop app]. replace (lit "docker" == lit "ssh") with false by by_compute.
    rewrite str_eqb_refl. change (lit "docker" :: ?r) with ([lit "docker"] ++ r).
    rewrite (docker_cli_spec c tokens) by done. done.
  - cbn [wrap_hop]. rewrite <-!app_assoc. cbn [app]. rewrite str_eqb_refl.
    rewrite ssh_cli_spec by by_compute. cbn. by rewrite shell_join_words.
Qed.

Lemma deliver_fold_hops `{TransportLaws} hs inner :
  inner ≠ [] → deliver (length hs) (fold_hops hs inner) = Some (hs, inner).
Proof.
  intros Hne. induction hs as [|h hs IH]; [done|].
  rewrite fold_hops_cons. cbn [length deliver].
  rewrite hop_step_wrap by by apply fold_hops_nonempty. cbn. by rewrite IH.
Qed.

(** ** A concrete transport

    An executable lexer for command lines without expansions or operators, and
    the two command lines: the laws above can be met. *)

Module ReferenceTransport.
Inductive mode := Plain | Quoted | Escaped.

(** Characters with a meaning to the shell outside quotes. *)
Definition special (c : char) : bool :=
  contains_char c (lit "|&;<>()$`*?[]#~=%{}!" ++ dquote ++ [nl]).

Fixpoint lex (m : mode) (cur : option str) (s : str) : option (list str) :=
  match s with
  | [] => match m with Plain => Some (option_list cur) | _ => None end
  | c :: s' =>
      match m with
      | Quoted =>
          if (c =? squote)%N then lex Plain cur s'
          else lex Quoted (Some (default [] cur ++ [c])) s'
      | Escaped =>
          if (c =? nl)%N then None else lex Plain (Some (default [] cur ++ [c])) s'
      | Plain =>
          if (c =? ch " ")%N then (λ ws, option_list cur ++ ws) <$> lex Plain None s'
          else if (c =? squote)%N then lex Quoted (Some (default [] cur)) s'
          else if (c =? backslash)%N then lex Escaped (Some (default [] cur)) s'
          else if special c then None
          else lex Plain (Some (default [] cur ++ [c])) s'
      end
  end.
Definition words (s : str) : option (list str) := lex Plain None s.

Fixpoint skip_options (opts : list str) : option (list str) :=
  match opts with
  | [] => None
  | o :: rest =>
      if (o == lit "-T") || (o == lit "-q") then skip_options rest
      else if o == lit "-o" then match rest with [] => None | _ :: rest => skip_options rest end
      else if o == lit "--" then Some rest else None
  end.

Definition ssh_main (argv : list str) : option (str * str) :=
  match argv with
  | _ :: args =>
      match skip_options args with Some [host; cmd] => Some (host, cmd) | _ => None end
  | [] => None
  end.

Definition docker_main (argv : list str) : option (str * list str) :=
  match argv with
  | _ :: sub :: opt :: dashes :: container :: argv =>
      if (sub == lit "exec") && (opt == lit "-i") && (dashes == lit "--")
      then Some (container, argv) else None
  | _ => None
  end.

#[export] Instance transport : Transport :=
  { sh_words := words; ssh_cli := ssh_main; docker_cli := docker_main }.

Lemma lex_quoted cur q s :
  squote ∉ q → lex Quoted (Some cur) (q ++ squote :: s) = lex Plain (Some (cur ++ q)) s.
Proof.
  revert cur; induction q as [|c q IH]; intros cur Hq; simpl.
  { by rewrite app_nil_r. }
  apply not_elem_of_cons in Hq as [Hc Hq].
  destruct (N.eqb_spec c squote); [congruence|].
  rewrite IH by done. by rewrite <-app_assoc.
Qed.

Lemma lex_word w v cur s :
  sh_word w v → lex Plain (Some cur) (w ++ s) = lex Plain (Some (cur ++ v)) s.
Proof.
  intros Hw; revert cur; induction Hw as [|q w v Hq _ IH|c w v Hc _ IH]; intros cur.
  - by rewrite app_nil_r.
  - cbn [app lex]. replace (squote =? ch " ")%N with false by by_compute.
    rewrite N.eqb_refl, <-app_assoc. cbn [app default]. rewrite lex_quoted by done.
    rewrite IH. by rewrite app_assoc.
  - cbn [app lex]. replace (backslash =? ch " ")%N with false by by_compute.
    replace (backslash =? squote)%N with false by by_compute.
    rewrite N.eqb_refl. cbn [default]. destruct (N.eqb_spec c nl); [done|].
    rewrite IH. by rewrite <-app_assoc.
Qed.

Lemma lex_word_start w v s :
  w ≠ [] → sh_word w v → lex Plain None (w ++ s) = lex Plain (Some v) s.
Proof.
  intros Hne Hw. rewrite <-(app_nil_l v), <-(lex_word w v [] s Hw).
  by destruct Hw.
Qed.

#[export] Instance words_posix : PosixShell words.
Proof.
  split; unfold words.
  - intros w v Hne Hw. rewrite <-(app_nil_r w). by rewrite (lex_word_start w v).
  - intros w v rest vs Hne Hw Hr. rewrite (lex_word_start w v) by done.
    cbn. by rewrite N.eqb_refl, Hr.
Qed.

Lemma skip_options_spec opts rest :
  ssh_options opts = true → skip_options (opts ++ lit "--" :: rest) = Some rest.
Proof.
  induction opts as [opts IH] using (induction_ltof1 _ (@length _)); unfold ltof in IH.
  destruct opts as [|o opts]; cbn [ssh_options skip_options app]; [done|].
  intros Ho. destruct (_ || _); [apply IH; simpl; [lia|done]|].
  destruct (o == lit "-o"); [|done].
  destruct opts as [|v opts]; [done|]. apply IH; simpl; [lia|done].
Qed.

#[export] Instance transport_laws : TransportLaws.
Proof.
  split.
  - apply words_posix.
  - intros opts host cmd Ho. cbn. by rewrite skip_options_spec.
  - intros container argv _. by_compute.
Qed.
End ReferenceTransport.

(** ** Properties *)

(** a launcher that passed validation is recovered from its id: for every
    non-empty hop list whose values [validate_hop_value] accepts,
    [RemoteLauncher::from_id] applied to [RemoteLauncher::id] returns exactly
    that launcher. *)
Theorem from_id_id l :
  hops l ≠ [] → Forall (λ h, validate_hop_value (hop_value h) = Ok tt) (hops l) →
  from_id (id l) = Ok l.
Proof.
  intros Hne Hv. apply from_id_id_ok. split; [done|].
  eapply Forall_impl; [done|]. intros h. apply validate_hop_value_ok_iff.
Qed.

Definition example_launcher : RemoteLauncher :=
  layered [Ssh (lit "user@host"); Docker (lit "c:1"); Docker (lit "inner")].

Lemma from_id_id_witness :
  from_id (id example_launcher) = Ok example_launcher
  ∧ id example_launcher = lit "ssh:user@host>docker:c:1>docker:inner".
Proof.
  split; [|by_compute]. apply (from_id_id example_launcher); [done|].
  repeat constructor.
Defined.

(** ids are canonical and parsing is sound: when [from_id] accepts a
    string, printing the launcher gives the same string back, the launcher has at
    least one hop, and every hop value satisfies all the rules of
    [validate_hop_value] (not empty, at most 256 bytes, no leading dash, no
    [>], no white space or control character). *)
Theorem from_id_sound s l :
  from_id s = Ok l → id l = s ∧ hops l ≠ [] ∧ Forall (λ h, hop_value_ok (hop_value h)) (hops l).
Proof. intros [Hid [Hne Hok]]%from_id_inv. done. Qed.

Lemma from_id_sound_witness :
  id example_launcher = lit "ssh:user@host>docker:c:1>docker:inner"
  ∧ hops example_launcher ≠ []
  ∧ Forall (λ h, hop_value_ok (hop_value h)) (hops example_launcher).
Proof. apply from_id_sound. vm_compute. reflexivity. Defined.

(** C5: no hop value and no token can escape its position: executing the argv
    built by [fold_hops] enters exactly the listed hops, outermost first, and
    the innermost one executes exactly the inner tokens, for every POSIX shell
    and every [ssh] and [docker] that follow their documented command lines.
    This covers [exec_argv] and [shell_argv]. *)
Theorem fold_hops_delivers `{TransportLaws} l inner script :
  inner ≠ [] →
  deliver (length (hops l)) (exec_argv l inner) = Some (hops l, inner) ∧
  deliver (length (hops l)) (shell_argv l script)
  = Some (hops l, [lit "sh"; lit "-c"; script]).
Proof. intros Hne. split; by apply deliver_fold_hops. Qed.

Lemma fold_hops_delivers_witness :
  deliver (T := ReferenceTransport.transport) 3 (exec_argv example_launcher [lit "a'b"; lit "$x; rm"])
  = Some (hops example_launcher, [lit "a'b"; lit "$x; rm"])
  ∧ deliver (T := ReferenceTransport.transport) 3 (shell_argv example_launcher (lit "uname -m"))
  = Some (hops example_launcher, [lit "sh"; lit "-c"; lit "uname -m"]).
Proof. apply (@fold_hops_delivers _ ReferenceTransport.transport_laws example_launcher). done. Defined.
