(* ===== verification/Provision.v ===== *)
(** * Provisioning of the remote codex binary (codex-rs/exec-server/src/provision)

    Probe of the remote host, version policy, download with SHA-256
    verification, installation and final version check:
    [ensure_remote_codex] and everything it calls.

    The remote processes, HTTP, the temporary file, SHA-256 and JSON parsing are
    outside the repository.  Each is a parameter that may answer differently at
    every call: an answer is a function of the history of effects so far.  The
    effects performed are recorded in a trace, so that "no network access" and
    "nothing unverified is streamed" are statements about traces. *)

From S2P Require Import Prelude.
From S2P Require Import RustStr.
From S2P Require Import Launcher.

(** ** Managed paths (paths.rs) *)

Definition MANAGED_CODEX_ROOT_RELATIVE : str := lit ".codex-server/env-switch".
Definition MANAGED_CODEX_SYMLINK_RELATIVE : str := lit ".codex-server/env-switch/current/codex".

Definition managed_codex_path (remote_home : str) : str :=
  remote_home ++ lit "/" ++ MANAGED_CODEX_SYMLINK_RELATIVE.
Definition managed_current_dir (remote_home : str) : str :=
  remote_home ++ lit "/" ++ MANAGED_CODEX_ROOT_RELATIVE ++ lit "/current".
Definition managed_release_dir (remote_home version : str) : str :=
  remote_home ++ lit "/" ++ MANAGED_CODEX_ROOT_RELATIVE ++ lit "/releases/" ++ version.

(** ** Errors (error.rs) *)

Inductive ProvisionError :=
| UnsupportedPlatform (os arch : str)
| ProbeOutputParse (msg : str)
| LauncherIo (err : str)
| LauncherNonZero (status : Z) (stderr : str)
| Http (err : str)
| HttpClientBuild (err : str)
| GitHubRateLimit (status : N)
| AssetNotFound (triple version : str)
| DigestMismatch (asset expected actual : str)
| AssetNotInSums (asset : str)
| LatestVersionResolve (msg : str)
| InvalidVersion (msg : str)
| VersionCheckFailed (expected actual : str)
| InstallRequiredVersionFailed (version : str) (source : ProvisionError)
| Timeout (secs : N) (context : str)
| TempFileIo (err : str).

Definition fmt_Z (z : Z) : str :=
  match z with
  | Zneg p => lit "-" ++ fmt_nat (Pos.to_nat p)
  | _ => fmt_nat (Z.to_nat z)
  end.

(** [Display for ProvisionError] *)
Fixpoint provision_error_display (e : ProvisionError) : str :=
  match e with
  | UnsupportedPlatform os arch =>
      lit "unsupported remote platform: os=" ++ os ++ lit ", arch=" ++ arch
  | ProbeOutputParse m => lit "failed to parse probe output: " ++ m
  | LauncherIo m => lit "launcher command failed: " ++ m
  | LauncherNonZero st stderr =>
      lit "launcher command exited with status " ++ fmt_Z st ++ lit ": " ++ stderr
  | Http m => lit "failed to fetch release from GitHub: " ++ m
  | HttpClientBuild m => lit "failed to build HTTP client: " ++ m
  | GitHubRateLimit st =>
      lit "GitHub API rate limit exceeded (HTTP " ++ fmt_nat (N.to_nat st)
      ++ lit "): set GITHUB_TOKEN or retry later"
  | AssetNotFound triple version =>
      lit "release asset not found on GitHub for triple '" ++ triple ++ lit "' version '" ++ version
      ++ lit "' (HTTP 404)"
  | DigestMismatch asset expected actual =>
      lit "SHA-256 mismatch for " ++ asset ++ lit ": expected " ++ expected ++ lit ", got " ++ actual
  | AssetNotInSums asset => lit "asset " ++ asset ++ lit " not found in SHA256SUMS"
  | LatestVersionResolve m => lit "failed to resolve latest release version: " ++ m
  | InvalidVersion m => lit "invalid codex version: " ++ m
  | VersionCheckFailed expected actual =>
      lit "post-install version check failed: expected " ++ expected ++ lit ", got " ++ actual
  | InstallRequiredVersionFailed version source =>
      lit "failed to install required codex version " ++ version ++ lit ": "
      ++ provision_error_display source
  | Timeout secs context =>
      lit "command timed out after " ++ fmt_nat (N.to_nat secs) ++ lit "s: " ++ context
  | TempFileIo m => lit "temporary file I/O error during install: " ++ m
  end.

(** ** Probe output (probe.rs) *)

Record RemoteProbe := {
  os : str;
  arch : str;
  home : str;
  existing : option (str * str);
  probe_shell : option str }.

(** The loop of [parse_probe_output] over the optional lines: the last line of
    each kind wins. *)
Fixpoint probe_fields (ls : list str) (path version shell : option str)
    : option str * option str * option str :=
  match ls with
  | [] => (path, version, shell)
  | l :: ls =>
      match strip_prefix (lit "CODEX_PATH:") l with
      | Some p => probe_fields ls (Some (trim p)) version shell
      | None =>
          match strip_prefix (lit "CODEX_VERSION:") l with
          | Some v => probe_fields ls path (Some (trim v)) shell
          | None =>
              match strip_prefix (lit "CODEX_SHELL:") l with
              | Some sh => probe_fields ls path version (Some (trim sh))
              | None => probe_fields ls path version shell
              end
          end
      end
  end.

Definition parse_probe_output (output : str) : result ProvisionError RemoteProbe :=
  match List.filter (λ l, negb (is_empty (trim l))) (lines output) with
  | [] => Err (ProbeOutputParse (lit "missing uname -s line"))
  | [_] => Err (ProbeOutputParse (lit "missing uname -m line"))
  | [_; _] => Err (ProbeOutputParse (lit "missing $HOME line"))
  | l1 :: l2 :: l3 :: rest =>
      let home := trim l3 in
      let '(codex_path, codex_version, shell) := probe_fields rest None None None in
      let existing :=
        match codex_path, codex_version with
        | Some path, Some version =>
            if path == managed_codex_path home then Some (path, version) else None
        | _, _ => None
        end in
      Ok {| os := trim l1; arch := trim l2; home := home;
            existing := existing; probe_shell := shell |}
  end.

Definition PROBE_SCRIPT : str := litq "
set -e
uname -s
uname -m
echo ^$HOME^
_codex_path=^$HOME/__MANAGED_CODEX_SYMLINK_RELATIVE__^
if [ ! -x ^$_codex_path^ ]; then
  _codex_path=^^
fi
if [ -n ^$_codex_path^ ]; then
  echo ^CODEX_PATH:$_codex_path^
  _ver=^$(^$_codex_path^ --version 2>/dev/null | sed -n 's/.* \([0-9][0-9A-Za-z.+-]*\)$/\1/p' | head -n 1)^
  if [ -n ^$_ver^ ]; then
    echo ^CODEX_VERSION:$_ver^
  fi
fi
_sh=^$( { [ -n ^$SHELL^ ] && command -v ^$SHELL^; } 2>/dev/null || command -v bash 2>/dev/null || command -v sh 2>/dev/null )^
[ -n ^$_sh^ ] && echo ^CODEX_SHELL:$_sh^
".

(** [str::replace] of a non-empty pattern, leftmost occurrences first; [fuel]
    bounds the replacements, and the length of the text is enough. *)
Fixpoint replace_all (fuel : nat) (pat by_ s : str) : str :=
  match s, fuel with
  | [], _ | _, 0 => s
  | c :: s', S fuel =>
      match strip_prefix pat s with
      | Some r => by_ ++ replace_all fuel pat by_ r
      | None => c :: replace_all fuel pat by_ s'
      end
  end.

Definition probe_script : str :=
  replace_all (length PROBE_SCRIPT) (lit "__MANAGED_CODEX_SYMLINK_RELATIVE__")
    MANAGED_CODEX_SYMLINK_RELATIVE PROBE_SCRIPT.

(** ** Platform (triple.rs) *)

Definition resolve_triple (lower : char → str) (os arch : str) : result ProvisionError str :=
  let os_lower := to_lowercase lower os in
  let arch_lower := to_lowercase lower arch in
  canonical_arch ←
    (if (arch_lower == lit "x86_64") || (arch_lower == lit "amd64") then Ok (lit "x86_64")
     else if (arch_lower == lit "aarch64") || (arch_lower == lit "arm64") then Ok (lit "aarch64")
     else Err (UnsupportedPlatform os arch));
  if os_lower == lit "linux" then Ok (canonical_arch ++ lit "-unknown-linux-musl")
  else if os_lower == lit "darwin" then Ok (canonical_arch ++ lit "-apple-darwin")
  else Err (UnsupportedPlatform os arch).

(** ** Versions (version.rs, install.rs) *)

Definition normalize_version (v : str) : str :=
  default (trim v) (strip_prefix (lit "v") (trim v)).

Definition is_dev_version (v : str) : bool :=
  (v == lit "0.0.0") || contains (lit "-dev") v.

Definition canonicalize_exact_version (version : str) : result ProvisionError str :=
  let trimmed := trim version in
  let version :=
    default trimmed (opt_or (strip_prefix (lit "rust-v") trimmed) (strip_prefix (lit "v") trimmed)) in
  if is_empty version then Err (InvalidVersion (lit "version must not be empty"))
  else if any (λ c, is_control c || is_whitespace c || (c =? ch "/")%N || (c =? backslash)%N) version
  then Err (InvalidVersion (lit "version `" ++ trimmed ++ lit "` contains an invalid character"))
  else Ok version.

Inductive VersionPolicy :=
| Exact (version : str)
| HostVersion
| Latest.

(** [parse_version_output]: the trailing token of the first line whose trailing
    token starts with a digit. *)
Definition version_token (line : str) : option str :=
  opt_filter (λ s, match s with c :: _ => is_ascii_digit c | [] => false end)
    (last (split_whitespace line)).

Definition parse_version_output (output : str) : result ProvisionError str :=
  match find_map version_token (lines output) with
  | Some ver => Ok ver
  | None => Err (ProbeOutputParse (lit "could not parse version from: " ++ output))
  end.

(** [parse_sha256sums], the loop body on one line. *)
Definition sums_line (lower : char → str) (asset_name line : str) : option str :=
  let line := trim line in
  if is_empty line then None
  else match split_once_by is_whitespace line with
       | None => None
       | Some (hex, name) =>
           if (str_len hex =? 64) && all is_ascii_hexdigit hex && (trim name == asset_name)
           then Some (to_lowercase lower hex) else None
       end.

(** The file is UTF-8 ([from_utf8] fails otherwise). *)
Definition parse_sha256sums (lower : char → str) (from_utf8 : list N → result str str)
    (sums : list N) (asset_name : str) : result ProvisionError str :=
  content ← map_err (λ e, ProbeOutputParse (lit "SHA256SUMS is not UTF-8: " ++ e)) (from_utf8 sums);
  match find_map (sums_line lower asset_name) (lines content) with
  | Some hex => Ok hex
  | None => Err (AssetNotInSums asset_name)
  end.

(** [finalize_sha256_hex]: two lowercase hexadecimal digits per byte. *)
Definition hex_digit (n : N) : char := if (n <? 10)%N then (48 + n)%N else (87 + n)%N.
Definition finalize_sha256_hex (hash : list N) : str :=
  hash ≫= λ b, [hex_digit (b / 16); hex_digit (b mod 16)].

(** [github_token]: the first variable that is set decides. *)
Definition github_token (env : str → option str) : option str :=
  opt_filter (λ token, negb (is_empty (trim token)))
    (find_map env [lit "GITHUB_TOKEN"; lit "GH_TOKEN"; lit "CODEX_GITHUB_TOKEN"]).

(** [parse_latest_tag_name], after [serde_json] extracted the tag name. *)
Definition latest_version_of_tag (debug : str → str) (tag_name : str)
    : result ProvisionError str :=
  ok_or (opt_filter (λ v, negb (is_empty v)) (strip_prefix (lit "rust-v") tag_name))
    (LatestVersionResolve
      (lit "tag_name " ++ debug tag_name ++ lit " does not have expected rust-v prefix")).

(** ** Effects *)

(** How a launcher subprocess ends: it exceeds its time limit, cannot be
    spawned, or exits with a status and (lossily decoded) output. *)
Inductive Outcome :=
| TimedOut
| SpawnFailed (err : str)
| Exited (success : bool) (code : option Z) (stdout stderr : str).

(** An HTTP exchange: the request or a redirect fails, or a status arrives with
    a body that is read in chunks. *)
Inductive Response :=
| NoResponse (err : str)
| Responded (status : N) (body : list (result str (list N))).

Inductive event :=
| EvRun (argv : list str)
| EvHttp (url : str) (auth : option str)
| EvSpawn (argv : list str)
| EvStdin (bytes : list N).

Abbreviation trace := (list event).

(** A computation reads the effects so far and adds its own. *)
Definition prov (A : Type) : Type := trace → result ProvisionError A * trace.

#[export] Instance prov_ret : MRet prov := λ A a tr, (Ok a, tr).
#[export] Instance prov_bind : MBind prov := λ A B f m tr,
  match m tr with
  | (Ok a, tr') => f a tr'
  | (Err e, tr') => (Err e, tr')
  end.

Definition lift {A} (r : result ProvisionError A) : prov A := λ tr, (r, tr).
Definition emit (ev : event) : prov unit := λ tr, (Ok tt, tr ++ [ev]).
Definition observe {A} (answer : trace → A) : prov A := λ tr, (Ok (answer tr), tr).

(** The parameters: everything outside the repository. *)
Class Outside := {
  run_outcome : trace → list str → Outcome;
  http_response : trace → str → Response;
  http_client : trace → result str unit;         (* building the HTTP client *)
  env_var : str → option str;                    (* the process environment *)
  tag_name_of_json : str → result str str;       (* serde_json *)
  from_utf8 : list N → result str str;
  utf8_text : list N → str;                      (* [Response::text] *)
  unicode_lower : char → str;
  debug_str : str → str;                         (* [{:?}] of a string *)
  status_error : N → str;                        (* reqwest's error of a status *)
  sha256 : list N → list N;
  temp_file : trace → result str unit;           (* any temporary file operation *)
  spawn : trace → list str → result str unit;
  write_stdin : trace → list N → result str unit;
  wait_outcome : trace → result str (bool * option Z * str);
  install_cut : trace → option nat;              (* the install time limit, if it fires *)
  cargo_pkg_version : str }.

Record ProvisionedCodex := {
  codex_path : str;
  version : str;
  warning : option str;
  shell : option str }.

Definition reuse (p : str * str) (sh : option str) : ProvisionedCodex :=
  {| codex_path := p.1; version := p.2; warning := None; shell := sh |}.

Section Provisioning.
Context `{O : Outside}.

Definition PROBE_TIMEOUT_SECS : N := 20.
Definition VERIFY_TIMEOUT_SECS : N := 20.
Definition INSTALL_TIMEOUT_SECS : N := 300.
Definition RELEASES_BASE : str := lit "https://github.com/openai/codex/releases/download".
Definition LATEST_URL : str := lit "https://api.github.com/repos/openai/codex/releases/latest".

(** [cmd.output()] of a launcher argv under a time limit: the shared shape of
    [probe] and [verify_remote_version]. *)
Definition run_captured (argv : list str) (secs : N) (context : str) : prov str :=
  match argv with
  | [] => lift (Err (ProbeOutputParse (lit "empty launcher argv")))
  | _ :: _ =>
      _ ← emit (EvRun argv);
      out ← observe (λ tr, run_outcome tr argv);
      match out with
      | TimedOut => lift (Err (Timeout secs context))
      | SpawnFailed e => lift (Err (LauncherIo e))
      | Exited true _ stdout _ => mret stdout
      | Exited false code _ stderr => lift (Err (LauncherNonZero (default (-1)%Z code) stderr))
      end
  end.

Definition probe (launcher : RemoteLauncher) : prov RemoteProbe :=
  stdout ← run_captured (shell_argv launcher probe_script) PROBE_TIMEOUT_SECS (lit "remote probe");
  lift (parse_probe_output stdout).

Definition verify_remote_version (launcher : RemoteLauncher) (codex_path : str) : prov str :=
  stdout ← run_captured (shell_argv launcher (posix_single_quote codex_path ++ lit " --version"))
    VERIFY_TIMEOUT_SECS (lit "verify " ++ codex_path ++ lit " --version");
  lift (parse_version_output stdout).

Definition build_client : prov unit :=
  r ← observe http_client; lift (map_err HttpClientBuild r).

Definition send (url : str) : prov (N * list (result str (list N))) :=
  _ ← emit (EvHttp url (github_token env_var));
  r ← observe (λ tr, http_response tr url);
  match r with
  | NoResponse e => lift (Err (Http e))
  | Responded status body => mret (status, body)
  end.

(** [error_for_status]: 4xx and 5xx are errors. *)
Definition error_for_status (status : N) : result ProvisionError unit :=
  if (400 <=? status)%N && (status <=? 599)%N
  then Err (Http (status_error status)) else Ok tt.

Definition collect_body (body : list (result str (list N))) : result ProvisionError (list N) :=
  (λ chunks, concat chunks) <$> collect_map (map_err Http) body.

Definition resolve_latest_version : prov str :=
  _ ← build_client;
  '(status, body) ← send LATEST_URL;
  if (status =? 403)%N || (status =? 429)%N then lift (Err (GitHubRateLimit status))
  else
    _ ← lift (error_for_status status);
    bytes ← lift (collect_body body);
    tag ← lift (map_err (λ e, LatestVersionResolve
                   (lit "failed to parse GitHub releases JSON: " ++ e))
                 (tag_name_of_json (utf8_text bytes)));
    lift (latest_version_of_tag debug_str tag).

(** [VersionPolicy::is_satisfied_by_existing] *)
Definition is_satisfied_by_existing (policy : VersionPolicy) (existing : str) : bool :=
  match policy with
  | Exact v =>
      match canonicalize_exact_version v with
      | Ok version => normalize_version existing == version
      | Err _ => false
      end
  | HostVersion =>
      if is_dev_version cargo_pkg_version then false
      else normalize_version existing == normalize_version cargo_pkg_version
  | Latest => false
  end.

(** [VersionPolicy::resolve] *)
Definition resolve (policy : VersionPolicy) : prov str :=
  match policy with
  | Exact v => lift (canonicalize_exact_version v)
  | HostVersion =>
      if is_dev_version cargo_pkg_version then resolve_latest_version
      else mret cargo_pkg_version
  | Latest => resolve_latest_version
  end.

Definition check_github_response_status (status : N) (triple version : str)
    : result ProvisionError unit :=
  if (status =? 404)%N then Err (AssetNotFound triple version)
  else if (status =? 403)%N || (status =? 429)%N then Err (GitHubRateLimit status)
  else Ok tt.

Definition temp_file_op : prov unit :=
  r ← observe temp_file; lift (map_err TempFileIo r).

(** The download loop: every chunk goes to the hasher and to the file. *)
Fixpoint download (body : list (result str (list N))) (hashed : list N) : prov (list N) :=
  match body with
  | [] => mret hashed
  | chunk :: body =>
      chunk ← lift (map_err Http chunk);
      _ ← temp_file_op;
      download body (hashed ++ chunk)
  end.

Definition install_sh (remote_home version : str) : str :=
  let release_dir := managed_release_dir remote_home version in
  let release_dir_q := posix_single_quote release_dir in
  let codex_bin_q := posix_single_quote (release_dir ++ lit "/bin/codex") in
  let current_dir_q := posix_single_quote (managed_current_dir remote_home) in
  let symlink_q := posix_single_quote (managed_codex_path remote_home) in
  lit "mkdir -p " ++ release_dir_q ++ lit " && tar -xzf - -C " ++ release_dir_q
  ++ lit " && chmod 0755 " ++ codex_bin_q ++ lit " && mkdir -p " ++ current_dir_q
  ++ lit " && ln -sf " ++ codex_bin_q ++ lit " " ++ symlink_q.

(** Spawn the extraction, feed it the verified file, wait for it.  The copy
    loop is represented by its whole effect on the child's stdin. *)
Definition stream_archive (argv : list str) (archive : list N) : prov unit :=
  _ ← lift (if is_empty argv then Err (ProbeOutputParse (lit "empty launcher argv")) else Ok tt);
  _ ← emit (EvSpawn argv);
  sp ← observe (λ tr, spawn tr argv);
  _ ← lift (map_err LauncherIo sp);
  _ ← temp_file_op;
  _ ← emit (EvStdin archive);
  wr ← observe (λ tr, write_stdin tr archive);
  _ ← lift (map_err LauncherIo wr);
  out ← observe wait_outcome;
  '(success, code, stderr) ← lift (map_err LauncherIo out);
  if (success : bool) then mret tt
  else lift (Err (LauncherNonZero (default (-1)%Z code) stderr)).

Definition asset_name (triple : str) : str :=
  lit "codex-package-" ++ triple ++ lit ".tar.gz".
Definition archive_url (triple version : str) : str :=
  RELEASES_BASE ++ lit "/rust-v" ++ version ++ lit "/" ++ asset_name triple.
Definition sums_url (version : str) : str :=
  RELEASES_BASE ++ lit "/rust-v" ++ version ++ lit "/codex-package_SHA256SUMS".

Definition install_remote_codex_inner (launcher : RemoteLauncher)
    (triple version remote_home : str) : prov unit :=
  _ ← build_client;
  '(sums_status, sums_body) ← send (sums_url version);
  _ ← lift (check_github_response_status sums_status triple version);
  _ ← lift (error_for_status sums_status);
  sums_bytes ← lift (collect_body sums_body);
  expected_hex ← lift (parse_sha256sums unicode_lower from_utf8 sums_bytes (asset_name triple));
  _ ← temp_file_op;
  '(status, body) ← send (archive_url triple version);
  _ ← lift (check_github_response_status status triple version);
  _ ← lift (error_for_status status);
  archive ← download body [];
  _ ← temp_file_op;
  let actual_hex := finalize_sha256_hex (sha256 archive) in
  if actual_hex == expected_hex
  then stream_archive (shell_argv launcher (install_sh remote_home version)) archive
  else lift (Err (DigestMismatch (asset_name triple) expected_hex actual_hex)).

(** The time limit around the whole installation cuts it after some of its
    effects. *)
Definition install_remote_codex (launcher : RemoteLauncher)
    (triple version remote_home : str) : prov unit := λ tr,
  let '(r, tr') := install_remote_codex_inner launcher triple version remote_home tr in
  match install_cut tr with
  | None => (r, tr')
  | Some n =>
      (Err (Timeout INSTALL_TIMEOUT_SECS (lit "install (download + remote extraction)")),
       take (length tr + n) tr')
  end.

(** The two steps after the version is resolved and no reuse is possible. *)
Definition install_and_verify (launcher : RemoteLauncher) (triple version remote_home : str)
    (sh : option str) : prov ProvisionedCodex :=
  let codex_path := managed_codex_path remote_home in
  _ ← (λ tr, let '(r, tr') := install_remote_codex launcher triple version remote_home tr in
              (map_err (InstallRequiredVersionFailed version) r, tr'));
  installed_version ← verify_remote_version launcher codex_path;
  if installed_version == version
  then mret {| codex_path := codex_path; version := version; warning := None; shell := sh |}
  else lift (Err (VersionCheckFailed version installed_version)).

Definition ensure_remote_codex (launcher : RemoteLauncher) (desired : VersionPolicy)
    : prov ProvisionedCodex :=
  probe_result ← probe launcher;
  triple ← lift (resolve_triple unicode_lower (os probe_result) (arch probe_result));
  let remote_shell := probe_shell probe_result in
  let slow_path :=
    version ← resolve desired;
    match existing probe_result with
    | Some (existing_path, existing_version) =>
        if normalize_version existing_version == normalize_version version
        then mret (reuse (existing_path, existing_version) remote_shell)
        else install_and_verify launcher triple version (home probe_result) remote_shell
    | None => install_and_verify launcher triple version (home probe_result) remote_shell
    end in
  match existing probe_result with
  | Some (existing_path, existing_version) =>
      if is_satisfied_by_existing desired existing_version
      then mret (reuse (existing_path, existing_version) remote_shell)
      else slow_path
  | None => slow_path
  end.
End Provisioning.

(** ** A small program logic for traces

    [triple m P Q]: [m] only adds effects that satisfy [P], and its successful
    results satisfy [Q]. *)

Definition triple {A} (m : prov A) (P : event → Prop) (Q : A → Prop) : Prop :=
  ∀ tr r tr', m tr = (r, tr') →
    ∃ new, tr' = tr ++ new ∧ Forall P new ∧ ∀ a, r = Ok a → Q a.

Section Triples.
Context {A B : Type} (P : event → Prop).
Implicit Types (Q : A → Prop) (R : B → Prop).

Lemma triple_ret Q a : Q a → triple (mret a) P Q.
Proof.
  intros HQ tr r tr' [= <- <-]. exists []. rewrite app_nil_r.
  split; [done|]. split; [constructor|]. by intros ? [= <-].
Qed.

Lemma triple_lift Q (r : result ProvisionError A) : (∀ a, r = Ok a → Q a) → triple (lift r) P Q.
Proof. intros HQ tr r' tr' [= <- <-]. exists []. rewrite app_nil_r. auto using Forall_nil_2. Qed.

Lemma triple_lift_eq (r : result ProvisionError A) : triple (lift r) P (λ a, r = Ok a).
Proof. by apply triple_lift. Qed.

Lemma triple_emit ev : P ev → triple (emit ev) P (λ _, True).
Proof. intros HP tr r tr' [= <- <-]. exists [ev]. auto using Forall_nil_2. Qed.

Lemma triple_observe Q (f : trace → A) : (∀ tr, Q (f tr)) → triple (observe f) P Q.
Proof.
  intros HQ tr r tr' [= <- <-]. exists []. rewrite app_nil_r.
  split; [done|]. split; [constructor|]. by intros ? [= <-].
Qed.

Lemma triple_bind Q R (m : prov A) (f : A → prov B) :
  triple m P Q → (∀ a, Q a → triple (f a) P R) → triple (m ≫= f) P R.
Proof.
  intros Hm Hf tr r tr' H. unfold mbind, prov_bind in H.
  destruct (m tr) as [[a|e] tr1] eqn:E; apply Hm in E as (n1 & -> & HP & HQ).
  - apply (Hf a (HQ a eq_refl)) in H as (n2 & -> & HP2 & HR).
    exists (n1 ++ n2). rewrite app_assoc. split; [done|]. by split; [apply Forall_app|].
  - simplify_eq. exists n1. by repeat split.
Qed.

Lemma triple_weaken Q (Q' : A → Prop) (m : prov A) :
  triple m P Q → (∀ a, Q a → Q' a) → triple m P Q'.
Proof. intros Hm HQ tr r tr' (n & ? & ? & ?)%Hm. exists n. naive_solver. Qed.
End Triples.

(** One step of a [triple] proof: decompose a bind, close the primitive steps. *)
Ltac tstep :=
  lazymatch goal with
  | |- triple (_ ≫= _) _ _ => eapply triple_bind; [|intros]
  | |- triple (mret _) _ _ => apply triple_ret
  | |- triple (emit _) _ _ => apply triple_emit
  | |- triple (observe _) _ _ => apply (triple_observe _ (λ _, True)); intros; exact I
  | |- triple (lift (Err _)) _ _ => apply triple_lift; intros; discriminate
  | |- triple (lift _) _ _ => first [apply triple_lift_eq | by apply triple_lift]
  | |- triple (match ?x with _ => _ end) _ _ => destruct x eqn:?
  end.

Section ProvisioningLemmas.
Context `{O : Outside}.

(** [bytes] is the archive that GitHub served for the release, and its digest
    is the one the release's SHA256SUMS lists for the asset. *)
Definition verified_archive (triple version : str) (bytes : list N) : Prop :=
  (∃ tr status body, http_response tr (archive_url triple version) = Responded status body
     ∧ collect_body body = Ok bytes) ∧
  (∃ tr status body sums, http_response tr (sums_url version) = Responded status body
     ∧ collect_body body = Ok sums
     ∧ parse_sha256sums unicode_lower from_utf8 sums (asset_name triple)
       = Ok (finalize_sha256_hex (sha256 bytes))).

Definition stdin_ok (triple version : str) (ev : event) : Prop :=
  match ev with EvStdin bytes => verified_archive triple version bytes | _ => True end.

Lemma send_triple P url :
  (∀ auth, P (EvHttp url auth)) →
  triple (send url) P (λ r, ∃ tr, http_response tr url = Responded r.1 r.2).
Proof.
  intros HP. unfold send. tstep; [by tstep|].
  eapply (triple_bind _ (λ r, ∃ tr, http_response tr url = r)).
  { apply triple_observe. eauto. }
  intros r Hr. tstep; [tstep|]. by tstep.
Qed.

Lemma temp_file_op_triple P : triple temp_file_op P (λ _, True).
Proof. unfold temp_file_op. tstep; [tstep|]. by apply triple_lift. Qed.

Lemma build_client_triple P : triple build_client P (λ _, True).
Proof. unfold build_client. tstep; [tstep|]. by apply triple_lift. Qed.

Lemma download_triple P body hashed :
  triple (download body hashed) P
    (λ a, ∃ bytes, collect_body body = Ok bytes ∧ a = hashed ++ bytes).
Proof.
  revert hashed; induction body as [|chunk body IH]; intros hashed; simpl.
  { tstep. exists []. by rewrite app_nil_r. }
  eapply (triple_bind _ (λ c, chunk = Ok c)).
  { apply triple_lift. by intros c ?%map_err_Ok. }
  intros c ->. tstep; [apply temp_file_op_triple|].
  eapply triple_weaken; [apply IH|]. intros a' (bytes & Hb & ->).
  exists (c ++ bytes). rewrite app_assoc. split; [|done].
  unfold collect_body in *. cbn. destruct (collect_map _ body); simplify_eq/=; done.
Qed.

Lemma stream_archive_triple P argv archive :
  P (EvSpawn argv) → P (EvStdin archive) →
  triple (stream_archive argv archive) P (λ _, True).
Proof.
  intros HS HI. unfold stream_archive.
  repeat first [apply temp_file_op_triple | done | tstep].
Qed.

Lemma install_inner_triple launcher trip version home :
  triple (install_remote_codex_inner launcher trip version home)
    (stdin_ok trip version) (λ _, True).
Proof.
  unfold install_remote_codex_inner.
  tstep; [apply build_client_triple|].
  tstep; [by apply send_triple|]. destruct a0 as [sums_status sums_body], H0 as [tr1 H1].
  do 4 (tstep; [tstep|]). tstep; [apply temp_file_op_triple|].
  tstep; [by apply send_triple|]. destruct a5 as [status body], H6 as [tr2 H7].
  do 2 (tstep; [tstep|]).
  tstep; [apply download_triple|]. destruct H9 as (bytes & Hb & ->).
  tstep; [apply temp_file_op_triple|]. cbn [app]. case_str; [|tstep].
  apply stream_archive_triple; [done|]. split; [by exists tr2, status, body|].
  rewrite E. by exists tr1, sums_status, sums_body, a2.
Qed.

Lemma install_triple launcher trip version home :
  triple (install_remote_codex launcher trip version home) (stdin_ok trip version) (λ _, True).
Proof.
  intros tr r tr'. unfold install_remote_codex.
  destruct (install_remote_codex_inner _ _ _ _ tr) as [r0 tr0] eqn:E.
  apply install_inner_triple in E as (new & -> & HP & _).
  destruct (install_cut tr) as [n|]; intros [= <- <-].
  - exists (take n new). rewrite take_app_add. split; [done|]. split; [by apply Forall_take|done].
  - by exists new.
Qed.

Lemma run_captured_triple P argv secs context :
  (∀ argv, P (EvRun argv)) →
  triple (run_captured argv secs context) P
    (λ stdout, ∃ tr code err, run_outcome (tr ++ [EvRun argv]) argv = Exited true code stdout err).
Proof.
  intros HP tr r tr'. unfold run_captured, mbind, prov_bind, emit, observe, lift, mret, prov_ret.
  destruct argv as [|p argv]; intros H.
  { simplify_eq. exists []. rewrite app_nil_r. split; [done|]. by split. }
  exists [EvRun (p :: argv)].
  destruct (run_outcome _ _) as [|e|[] code out err] eqn:E; simplify_eq;
    (split; [done|]; split; [auto|]; try done). intros ? [= <-]. eauto.
Qed.

(** The binary at [path] reported [ver] when it was asked through [launcher]. *)
Definition reported (launcher : RemoteLauncher) (path ver : str) : Prop :=
  ∃ tr code stdout err,
    run_outcome tr (shell_argv launcher (posix_single_quote path ++ lit " --version"))
    = Exited true code stdout err
    ∧ parse_version_output stdout = Ok ver.

Lemma verify_triple P launcher path :
  (∀ argv, P (EvRun argv)) →
  triple (verify_remote_version launcher path) P (reported launcher path).
Proof.
  intros HP. unfold verify_remote_version. tstep; [by apply run_captured_triple|].
  apply triple_lift. destruct H as (tr & code & err & H). intros v Hv.
  eexists _, code, a, err. by split; [exact H|].
Qed.

Lemma install_and_verify_triple launcher trip ver hm sh :
  triple (install_and_verify launcher trip ver hm sh) (stdin_ok trip ver)
    (λ p, p = {| codex_path := managed_codex_path hm; version := ver;
                 warning := None; shell := sh |}
          ∧ reported launcher (managed_codex_path hm) ver).
Proof.
  unfold install_and_verify. eapply (triple_bind _ (λ _, True)).
  { intros tr r tr'.
    destruct (install_remote_codex _ _ _ _ tr) as [r0 tr0] eqn:E.
    apply install_triple in E as (new & -> & HP & _). intros [= <- <-]. by exists new. }
  intros _ _. tstep; [by apply verify_triple|].
  case_str; [|tstep]. subst. by tstep.
Qed.

Lemma resolve_effects P policy :
  (∀ url auth, P (EvHttp url auth)) → triple (resolve policy) P (λ _, True).
Proof.
  intros HP. assert (triple resolve_latest_version P (λ _, True)).
  { unfold resolve_latest_version. tstep; [apply build_client_triple|].
    tstep; [by apply send_triple|]. destruct a0 as [status body].
    tstep; [tstep|]. repeat tstep. }
  destruct policy; simpl; [by apply triple_lift| |done].
  tstep; [done|]. by tstep.
Qed.

Lemma probe_trace launcher tr r tr' :
  probe launcher tr = (r, tr') → tr' = tr ++ [EvRun (shell_argv launcher probe_script)].
Proof.
  unfold probe, run_captured. destruct (shell_argv launcher probe_script) as [|p argv] eqn:E.
  { by apply fold_hops_nonempty in E. }
  unfold mbind, prov_bind, emit, observe, lift, mret, prov_ret.
  by destruct (run_outcome _ _) as [|e|[] code out err]; intros [= <- <-].
Qed.

Lemma parse_probe_existing out pr path ver :
  parse_probe_output out = Ok pr → existing pr = Some (path, ver) →
  path = managed_codex_path (home pr).
Proof.
  unfold parse_probe_output. destruct (List.filter _ _) as [|l1 [|l2 [|l3 rest]]]; [done..|].
  destruct (probe_fields rest None None None) as [[cp cv] sh]. intros [= <-]; simpl.
  destruct cp as [cp|], cv as [cv|]; try done. case_str; by intros [= <- <-].
Qed.

Lemma probe_existing launcher tr pr tr' path ver :
  probe launcher tr = (Ok pr, tr') → existing pr = Some (path, ver) →
  path = managed_codex_path (home pr).
Proof.
  unfold probe, mbind, prov_bind, lift.
  destruct (run_captured _ _ _ tr) as [[out|] tr1]; [|done].
  intros [= Hp <-]. by apply parse_probe_existing with out.
Qed.
End ProvisioningLemmas.

Section EnsureLemmas.
Context `{O : Outside}.

(** The slow path of [ensure_remote_codex], after the fast path missed. *)
Definition resolve_then_install (launcher : RemoteLauncher) (desired : VersionPolicy)
    (pr : RemoteProbe) (trip : str) : prov ProvisionedCodex :=
  ver ← resolve desired;
  match existing pr with
  | Some (existing_path, existing_version) =>
      if normalize_version existing_version == normalize_version ver
      then mret (reuse (existing_path, existing_version) (probe_shell pr))
      else install_and_verify launcher trip ver (home pr) (probe_shell pr)
  | None => install_and_verify launcher trip ver (home pr) (probe_shell pr)
  end.

(** How the slow path may end: it reuses the existing binary when its version
    is the resolved one, or installs the resolved version and the installed
    binary reports it. *)
Definition slow_result (launcher : RemoteLauncher) (desired : VersionPolicy) (pr : RemoteProbe)
    (p : ProvisionedCodex) : Prop :=
  ∃ ver tr1 tr2, resolve desired tr1 = (Ok ver, tr2) ∧
    ((∃ e, existing pr = Some e ∧ p = reuse e (probe_shell pr)
           ∧ normalize_version e.2 = normalize_version ver) ∨
     (p = {| codex_path := managed_codex_path (home pr); version := ver;
             warning := None; shell := probe_shell pr |}
      ∧ reported launcher (managed_codex_path (home pr)) ver)).

(** A streamed archive is verified for a version the policy resolved to. *)
Definition stdin_verified (desired : VersionPolicy) (trip : str) (ev : event) : Prop :=
  match ev with
  | EvStdin bytes => ∃ ver tr1 tr2, resolve desired tr1 = (Ok ver, tr2)
                                    ∧ verified_archive trip ver bytes
  | _ => True
  end.

Lemma resolve_then_install_triple launcher desired pr trip :
  triple (resolve_then_install launcher desired pr trip) (stdin_verified desired trip)
    (slow_result launcher desired pr).
Proof.
  unfold resolve_then_install.
  eapply (triple_bind _ (λ ver, ∃ tr1 tr2, resolve desired tr1 = (Ok ver, tr2))).
  { intros tr r tr' H. pose proof H as Hr.
    eapply resolve_effects with (P := stdin_verified desired trip) in Hr as (new & -> & HP & _);
      [|done]. exists new. repeat split; [done|]. intros a ->. eauto. }
  intros ver (tr1 & tr2 & Hres).
  assert (triple (install_and_verify launcher trip ver (home pr) (probe_shell pr))
            (stdin_verified desired trip) (slow_result launcher desired pr)) as Hinst.
  { intros tr r tr' (new & -> & HP & HQ)%install_and_verify_triple. exists new.
    split; [done|]. split.
    - eapply Forall_impl; [done|]. intros [] Hev; simpl in *; eauto.
    - intros p Hp. destruct (HQ p Hp) as [-> Hrep]. exists ver, tr1, tr2. split; [done|]. by right. }
  destruct (existing pr) as [[path v]|] eqn:Hex; [|done].
  case_str; [|done]. tstep. exists ver, tr1, tr2. split; [done|]. left. by exists (path, v).
Qed.

Lemma ensure_cases launcher desired tr r tr' :
  ensure_remote_codex launcher desired tr = (r, tr') →
  (∃ e, r = Err e ∧ tr' = tr ++ [EvRun (shell_argv launcher probe_script)]) ∨
  ∃ pr trip, probe launcher tr = (Ok pr, tr ++ [EvRun (shell_argv launcher probe_script)])
    ∧ resolve_triple unicode_lower (os pr) (arch pr) = Ok trip ∧
    ((∃ e, existing pr = Some e ∧ is_satisfied_by_existing desired e.2 = true
           ∧ r = Ok (reuse e (probe_shell pr))
           ∧ tr' = tr ++ [EvRun (shell_argv launcher probe_script)]) ∨
     resolve_then_install launcher desired pr trip
       (tr ++ [EvRun (shell_argv launcher probe_script)]) = (r, tr')).
Proof.
  unfold ensure_remote_codex, resolve_then_install.
  unfold mbind at 1 2, prov_bind at 1 2, lift at 1.
  destruct (probe launcher tr) as [[pr|e] tr1] eqn:Hp; pose proof (probe_trace _ _ _ _ Hp) as ->.
  2: { intros [= <- <-]. left. eauto. }
  destruct (resolve_triple _ _ _) as [trip|e] eqn:Ht; [|intros [= <- <-]; left; eauto].
  intros H. right. exists pr, trip. split; [done|]. split; [done|].
  destruct (existing pr) as [[path v]|] eqn:Hex; [|by right].
  destruct (is_satisfied_by_existing desired v) eqn:Hs; [|by right].
  left. exists (path, v). by injection H as <- <-.
Qed.
End EnsureLemmas.

(** ** Properties *)

(** C10: when [ensure_remote_codex] succeeds, the binary is the one managed by
    env_switch under the probed home, with the probed shell, and its version is
    right: either it was already there and satisfies the policy, decided with the
    probe as the only effect (no network access), or the policy resolved to a
    version and the binary already has that version (up to a leading [v]) or was
    installed and reported exactly that version.  An incompatible existing binary
    is never returned. *)
Theorem ensure_remote_codex_sound `{O : Outside} launcher desired tr p tr' :
  ensure_remote_codex launcher desired tr = (Ok p, tr') →
  ∃ pr, probe launcher tr = (Ok pr, tr ++ [EvRun (shell_argv launcher probe_script)])
    ∧ codex_path p = managed_codex_path (home pr)
    ∧ shell p = probe_shell pr ∧ warning p = None
    ∧ ((existing pr = Some (codex_path p, version p)
        ∧ is_satisfied_by_existing desired (version p) = true
        ∧ tr' = tr ++ [EvRun (shell_argv launcher probe_script)]) ∨
       ∃ ver tr1 tr2, resolve desired tr1 = (Ok ver, tr2)
         ∧ ((existing pr = Some (codex_path p, version p)
             ∧ normalize_version (version p) = normalize_version ver)
            ∨ (version p = ver ∧ reported launcher (codex_path p) ver))).
Proof.
  intros [(e & [=] & _)|(pr & trip & Hp & _ & [([path v] & He & Hs & [= ->] & ->)|H])]%ensure_cases;
    exists pr; (split; [done|]).
  - pose proof (probe_existing _ _ _ _ _ _ Hp He) as ->. do 3 (split; [done|]). by left.
  - apply resolve_then_install_triple in H as (new & -> & _ & HQ).
    destruct (HQ p eq_refl) as (ver & tr1 & tr2 & Hr & [([path v] & He & -> & Hn)|[-> Hrep]]).
    + pose proof (probe_existing _ _ _ _ _ _ Hp He) as ->. do 3 (split; [done|]).
      right. exists ver, tr1, tr2. auto.
    + do 3 (split; [done|]). right. exists ver, tr1, tr2. auto.
Qed.

(** C11: whatever the remote, the network and the timing do, every archive that
    [ensure_remote_codex] streams to a remote is the one GitHub served for the
    platform and for a version the policy resolved to, and its SHA-256 is the one
    the release's SHA256SUMS lists for that asset. *)
Theorem ensure_streams_only_verified `{O : Outside} launcher desired tr r tr' bytes :
  ensure_remote_codex launcher desired tr = (r, tr') →
  EvStdin bytes ∈ drop (length tr) tr' →
  ∃ pr trip ver tr1 tr2 tr3,
    probe launcher tr = (Ok pr, tr3)
    ∧ resolve_triple unicode_lower (os pr) (arch pr) = Ok trip
    ∧ resolve desired tr1 = (Ok ver, tr2)
    ∧ verified_archive trip ver bytes.
Proof.
  intros [(e & -> & ->)|(pr & trip & Hp & Ht & [(e & _ & _ & _ & ->)|H])]%ensure_cases Hin.
  1,2: rewrite drop_app_length in Hin; set_solver.
  apply resolve_then_install_triple in H as (new & -> & HP & _).
  rewrite <-app_assoc, drop_app_length in Hin.
  apply elem_of_cons in Hin as [[=]|Hin].
  rewrite Forall_forall in HP. destruct (HP _ Hin) as (ver & tr1 & tr2 & Hr & Hv).
  eauto 10.
Qed.

(** ** A concrete outside world

    A Linux host without codex, whose release page serves a one-byte archive. *)
Module DemoWorld.
Definition hash : list N := repeat 171%N 32.
Definition sums : str := finalize_sha256_hex hash ++ lit "  " ++ asset_name (lit "x86_64-unknown-linux-musl").

Definition probe_reply : str :=
  lit "Linux" ++ [nl] ++ lit "x86_64" ++ [nl] ++ lit "/home/u" ++ [nl] ++ lit "CODEX_SHELL:/bin/bash" ++ [nl].

Definition box : RemoteLauncher := layered [Ssh (lit "box")].

#[export] Instance outside : Outside := {|
  run_outcome := λ _ argv,
    Exited true (Some 0%Z)
      (if bool_decide (argv = shell_argv box probe_script) then probe_reply else lit "codex 0.141.0") [];
  http_response := λ _ url,
    if url == sums_url (lit "0.141.0") then Responded 200 [Ok sums] else Responded 200 [Ok [7%N]];
  http_client := λ _, Ok tt;
  env_var := λ _, None;
  tag_name_of_json := λ _, Ok (lit "rust-v0.141.0");
  from_utf8 := λ b, Ok b;
  utf8_text := λ b, b;
  unicode_lower := λ c, [c];
  debug_str := λ s, s;
  status_error := λ _, [];
  sha256 := λ _, hash;
  temp_file := λ _, Ok tt;
  spawn := λ _ _, Ok tt;
  write_stdin := λ _ _, Ok tt;
  wait_outcome := λ _, Ok (true, Some 0%Z, []);
  install_cut := λ _, None;
  cargo_pkg_version := lit "0.141.0" |}.

Definition provisioned : ProvisionedCodex :=
  {| codex_path := lit "/home/u/.codex-server/env-switch/current/codex";
     version := lit "0.141.0"; warning := None; shell := Some (lit "/bin/bash") |}.
End DemoWorld.

Lemma ensure_remote_codex_sound_witness :
  ∃ pr, codex_path DemoWorld.provisioned = managed_codex_path (home pr)
        ∧ shell DemoWorld.provisioned = probe_shell pr.
Proof.
  destruct (ensure_remote_codex_sound (O := DemoWorld.outside) DemoWorld.box HostVersion []
              DemoWorld.provisioned
              (ensure_remote_codex (O := DemoWorld.outside) DemoWorld.box HostVersion []).2)
    as (pr & _ & Hpath & Hsh & _).
  - vm_compute. reflexivity.
  - exists pr. split; assumption.
Defined.

Lemma ensure_streams_only_verified_witness :
  ∃ pr trip ver tr1 tr2 tr3,
    probe (O := DemoWorld.outside) DemoWorld.box [] = (Ok pr, tr3)
    ∧ resolve_triple (unicode_lower (Outside := DemoWorld.outside)) (os pr) (arch pr) = Ok trip
    ∧ resolve (O := DemoWorld.outside) HostVersion tr1 = (Ok ver, tr2)
    ∧ verified_archive (O := DemoWorld.outside) trip ver [7%N].
Proof.
  apply (ensure_streams_only_verified (O := DemoWorld.outside) DemoWorld.box HostVersion []
           (ensure_remote_codex (O := DemoWorld.outside) DemoWorld.box HostVersion []).1
           (ensure_remote_codex (O := DemoWorld.outside) DemoWorld.box HostVersion []).2 [7%N]).
  - vm_compute. reflexivity.
  - apply list_elem_of_In. vm_compute. auto 10.
Defined.
