(* ===== verification/AbsPath.v ===== *)
(** * Absolute paths (codex-rs/utils/absolute-path/src/lib.rs, absolutize.rs)

    [AbsolutePathBuf]: home-directory expansion, resolution against a base and
    lexical normalisation, on Unix hosts (the [cfg(windows)] branches are left
    out).  A path is its string; the buffer [normalize_path] builds is the list of
    its components, last first. *)

From S2P Require Import Prelude.
From S2P Require Import RustStr.

Definition slash : char := 47%N.
Definition dot : str := [46%N].
Definition dotdot : str := [46%N; 46%N].

(** ** Components of a path ([std::path::Component], Unix) *)

Inductive Component := RootDir | CurDir | ParentDir | Normal (s : str).

(** A segment between two separators; empty segments and [.] vanish, except a
    leading [.] of a relative path. *)
Definition component_of_segment (seg : str) : option Component :=
  if is_empty seg then None
  else if seg == dot then None
  else if seg == dotdot then Some ParentDir
  else Some (Normal seg).

Definition components (p : str) : list Component :=
  if path_is_absolute p then RootDir :: omap component_of_segment (split slash p)
  else match split slash p with
       | seg :: segs =>
           (if seg == dot then [CurDir] else option_list (component_of_segment seg))
           ++ omap component_of_segment segs
       | [] => []
       end.

#[export] Instance Component_eq_dec : EqDecision Component.
Proof. solve_decision. Defined.

(** [Path] comparisons work on components. *)
Definition path_eq (p q : str) : bool := bool_decide (components p = components q).

Fixpoint strip_components (base p : list Component) : option (list Component) :=
  match base, p with
  | [], p => Some p
  | b :: base, c :: p => if decide (b = c) then strip_components base p else None
  | _ :: _, [] => None
  end.

(** [Path::strip_prefix] (the components that remain) and [Path::starts_with]. *)
Definition path_strip_prefix (base p : str) : option (list Component) :=
  strip_components (components base) (components p).
Definition path_starts_with (base p : str) : bool := opt_is_some (path_strip_prefix base p).

(** ** Normalisation (absolutize.rs) *)

(** [PathBuf::pop]: the root and the empty buffer have no parent. *)
Definition buf_pop (buf : list Component) : list Component :=
  match buf with
  | Normal _ :: buf => buf
  | _ => buf
  end.

Definition normalize_step (buf : list Component) (c : Component) : list Component :=
  match c with
  | CurDir => buf
  | ParentDir => buf_pop buf
  | RootDir => [RootDir]
  | Normal s => Normal s :: buf
  end.

Definition component_name (c : Component) : option str :=
  match c with
  | RootDir => None
  | CurDir => Some dot
  | ParentDir => Some dotdot
  | Normal s => Some s
  end.

(** The string of a buffer. *)
Definition buf_string (buf : list Component) : str :=
  match reverse buf with
  | RootDir :: cs => slash :: join [slash] (omap component_name cs)
  | cs => join [slash] (omap component_name cs)
  end.

Definition normalize_path (p : str) : str :=
  let normalized := buf_string (fold_left normalize_step (components p) []) in
  if is_empty normalized then dot else normalized.

Definition path_with_base (p base : str) : str :=
  if path_is_absolute p then p else path_join base p.

Definition absolutize_from (p base : str) : str := normalize_path (path_with_base p base).

(** ** [AbsolutePathBuf] (lib.rs) *)

Section AbsolutePathBuf.
(** [dirs::home_dir()] *)
Context (home_dir : option str).

Definition trim_start_slashes (s : str) : str := drop_while (N.eqb slash) s.

Definition maybe_expand_home_directory (p : str) : str :=
  match home_dir, strip_prefix (lit "~") p with
  | Some home, Some rest =>
      if is_empty rest then home
      else match strip_prefix [slash] rest with
           | Some rest => path_join home (trim_start_slashes rest)
           | None => p
           end
  | _, _ => p
  end.

Definition resolve_path_against_base (p base : str) : str :=
  absolutize_from (maybe_expand_home_directory p) base.

Definition from_absolute_path_checked (p : str) : result str str :=
  let expanded := maybe_expand_home_directory p in
  if negb (path_is_absolute expanded) then Err (lit "path is not absolute: " ++ p)
  else Ok (absolutize_from expanded [slash]).

(** [AbsolutePathBuf::from_absolute_path]; [current_dir] is the outcome of
    [std::env::current_dir()]. *)
Definition absolutize (current_dir : result str str) (p : str) : result str str :=
  if path_is_absolute p then Ok (normalize_path p)
  else c ← current_dir; Ok (absolutize_from p c).

Definition from_absolute_path (current_dir : result str str) (p : str) : result str str :=
  absolutize current_dir (maybe_expand_home_directory p).

(** [AbsolutePathBuf::join] *)
Definition abs_join (self p : str) : str := resolve_path_against_base p self.
End AbsolutePathBuf.

(** ** Reference: walking the segments of an absolute path *)

Definition walk_step (stack : list str) (seg : str) : list str :=
  if is_empty seg || (seg == dot) then stack
  else if seg == dotdot then tail stack
  else seg :: stack.

Definition walk (stack : list str) (p : str) : list str := fold_left walk_step (split slash p) stack.

Definition abs_string (stack : list str) : str := slash :: join [slash] (reverse stack).

(** Segments of a normal path. *)
Definition plain (seg : str) : Prop :=
  seg ≠ [] ∧ (slash ∉ seg) ∧ seg ≠ dot ∧ seg ≠ dotdot.

Lemma split_app_sep (c : char) s t : split c (s ++ c :: t) = split c s ++ split c t.
Proof.
  induction s as [|d s IH]; simpl; [by rewrite N.eqb_refl|].
  destruct (N.eqb_spec c d) as [<-|Hne]; [by rewrite IH|]. rewrite IH.
  pose proof (split_nonempty c s). by destruct (split c s).
Qed.

Lemma walk_app_sep stack s t : walk stack (s ++ slash :: t) = walk (walk stack s) t.
Proof. unfold walk. by rewrite split_app_sep, fold_left_app. Qed.

Lemma walk_step_plain stack seg :
  slash ∉ seg → Forall plain stack → Forall plain (walk_step stack seg).
Proof.
  intros Hs Hst. unfold walk_step. destruct (is_empty seg) eqn:He; simpl; [done|].
  case_str; [done|]. case_str; [by destruct Hst|]. constructor; [|done].
  by apply is_empty_false in He.
Qed.

Lemma walk_plain stack p : Forall plain stack → Forall plain (walk stack p).
Proof.
  intros Hst. unfold walk. assert (∀ q, q ∈ split slash p → slash ∉ q) as Hs
    by (intros q; apply split_no_sep). revert stack Hst Hs.
  induction (split slash p) as [|seg segs IH]; intros stack Hst Hs; simpl; [done|].
  apply IH; [apply walk_step_plain; [apply Hs; by left|done]|]. intros q Hq. apply Hs. by right.
Qed.

Lemma fold_walk_plain stack segs :
  Forall plain segs → fold_left walk_step segs stack = reverse segs ++ stack.
Proof.
  intros Hp. revert stack. induction Hp as [|seg segs (He & _ & Hd & Hdd) _ IH]; intros stack; [done|].
  simpl. rewrite IH, reverse_cons, <-app_assoc. simpl. f_equal. unfold walk_step.
  rewrite (proj2 (is_empty_false seg)), (proj2 (str_eqb_false seg dot)),
    (proj2 (str_eqb_false seg dotdot)) by done. done.
Qed.

Lemma walk_abs_string stack : Forall plain stack → walk [] (abs_string stack) = stack.
Proof.
  intros Hp. unfold abs_string. change (slash :: ?s) with ([] ++ slash :: s).
  rewrite walk_app_sep. change (walk [] []) with (@nil str). unfold walk.
  assert (Forall plain (reverse stack)) as Hr by (by apply Forall_reverse).
  destruct (decide (reverse stack = [])) as [Hn|Hn].
  { rewrite Hn. apply (f_equal reverse) in Hn. by rewrite reverse_involutive in Hn. }
  rewrite split_join; [|done|by eapply Forall_impl; [exact Hr|intros ? (_ & ? & _)]].
  by rewrite fold_walk_plain, reverse_involutive, app_nil_r.
Qed.

(** The normalisation loop is the walk, on a buffer that starts at the root. *)
Lemma normalize_fold_walk stack segs :
  fold_left normalize_step (omap component_of_segment segs) ((Normal <$> stack) ++ [RootDir])
  = (Normal <$> fold_left walk_step segs stack) ++ [RootDir].
Proof.
  revert stack; induction segs as [|seg segs IH]; intros stack; [done|].
  simpl. unfold walk_step at 2, component_of_segment at 1.
  destruct (is_empty seg); simpl; [apply IH|]. case_str; simpl; [apply IH|].
  case_str; simpl; [|apply (IH (seg :: stack))]. rewrite <-IH. by destruct stack.
Qed.

Lemma omap_normal_names (l : list str) : omap component_name (Normal <$> l) = l.
Proof. induction l as [|s l IH]; csimpl; [done|]. by rewrite IH. Qed.

Lemma buf_string_abs stack : buf_string ((Normal <$> stack) ++ [RootDir]) = abs_string stack.
Proof.
  unfold buf_string, abs_string. rewrite reverse_app. simpl. by rewrite <-fmap_reverse, omap_normal_names.
Qed.

Lemma normalize_path_abs p : path_is_absolute p = true → normalize_path p = abs_string (walk [] p).
Proof.
  intros Hp. unfold normalize_path, components. rewrite Hp. simpl.
  rewrite (normalize_fold_walk []), buf_string_abs. done.
Qed.

Lemma path_is_absolute_true p : path_is_absolute p = true ↔ ∃ r, p = slash :: r.
Proof. apply starts_with_true. Qed.

Lemma path_is_absolute_app a b : path_is_absolute a = true → path_is_absolute (a ++ b) = true.
Proof. rewrite !path_is_absolute_true. intros [r ->]. by exists (r ++ b). Qed.

Lemma abs_string_absolute stack : path_is_absolute (abs_string stack) = true.
Proof. apply path_is_absolute_true. by eexists. Qed.

(** Resolving a relative path walks it from the base. *)
Lemma path_join_walk base p :
  path_is_absolute base = true → path_is_absolute p = false →
  path_is_absolute (path_join base p) = true ∧ walk [] (path_join base p) = walk (walk [] base) p.
Proof.
  intros Hb Hp. unfold path_join. rewrite Hp.
  destruct (is_empty base) eqn:He; [by apply is_empty_true in He as ->|].
  destruct (ends_with _ base) eqn:Hs; simpl; (split; [by apply path_is_absolute_app|]).
  - apply ends_with_true in Hs as [b ->]. rewrite <-app_assoc. simpl.
    change 47%N with slash. rewrite !walk_app_sep. done.
  - apply walk_app_sep.
Qed.

Lemma absolutize_from_walk p base :
  path_is_absolute base = true →
  absolutize_from p base = abs_string (if path_is_absolute p then walk [] p else walk (walk [] base) p).
Proof.
  intros Hb. unfold absolutize_from, path_with_base. destruct (path_is_absolute p) eqn:Hp.
  - by apply normalize_path_abs.
  - destruct (path_join_walk base p Hb Hp) as [Ha Hw]. by rewrite normalize_path_abs, Hw.
Qed.

(** The normal absolute paths. *)
Definition abs_normal (q : str) : Prop := ∃ stack, Forall plain stack ∧ q = abs_string stack.

Lemma absolutize_from_normal p base : path_is_absolute base = true → abs_normal (absolutize_from p base).
Proof.
  intros Hb. rewrite absolutize_from_walk by done. eexists. split; [|done].
  destruct (path_is_absolute p); repeat apply walk_plain; constructor.
Qed.

Lemma abs_normal_fixed home q : abs_normal q → from_absolute_path_checked home q = Ok q.
Proof.
  intros (stack & Hp & ->). unfold from_absolute_path_checked, maybe_expand_home_directory.
  assert (strip_prefix (lit "~") (abs_string stack) = None) as Hn by (by vm_compute).
  rewrite Hn. destruct home; rewrite abs_string_absolute; simpl;
    rewrite absolutize_from_walk, abs_string_absolute, walk_abs_string; done.
Qed.

(** Paths home expansion leaves alone. *)
Lemma expand_no_tilde home p : starts_with (lit "~") p = false → maybe_expand_home_directory home p = p.
Proof.
  unfold starts_with, maybe_expand_home_directory. by destruct home, (strip_prefix (lit "~") p).
Qed.

Lemma starts_with_char_app (c : char) p q : p ≠ [] → starts_with [c] (p ++ q) = starts_with [c] p.
Proof. destruct p as [|d p]; [done|]. intros _. unfold starts_with. simpl. by destruct (c =? d)%N. Qed.

(** ** Components of normal paths *)

Lemma component_of_plain name : plain name → component_of_segment name = Some (Normal name).
Proof.
  intros (He & _ & Hd & Hdd). unfold component_of_segment.
  by rewrite (proj2 (is_empty_false name)), (proj2 (str_eqb_false name dot)),
    (proj2 (str_eqb_false name dotdot)).
Qed.

Lemma components_plain name : plain name → components name = [Normal name].
Proof.
  intros Hp. pose proof Hp as (He & Hs & Hd & _). unfold components.
  assert (path_is_absolute name = false) as ->.
  { apply not_true_is_false. intros [r ->]%path_is_absolute_true. apply Hs. by left. }
  rewrite split_none by done. rewrite (proj2 (str_eqb_false name dot)), component_of_plain by done.
  done.
Qed.

Lemma omap_component_plain segs : Forall plain segs → omap component_of_segment segs = Normal <$> segs.
Proof.
  induction 1 as [|seg segs Hp _ IH]; [done|]. csimpl. by rewrite component_of_plain, IH.
Qed.

Lemma components_abs_string stack :
  Forall plain stack → components (abs_string stack) = RootDir :: (Normal <$> reverse stack).
Proof.
  intros Hp. unfold components. rewrite abs_string_absolute. f_equal. unfold abs_string. simpl.
  assert (Forall plain (reverse stack)) as Hr by (by apply Forall_reverse).
  destruct (decide (reverse stack = [])) as [->|Hn]; [done|].
  rewrite split_join; [|done|by eapply Forall_impl; [exact Hr|intros ? (_ & ? & _)]].
  by apply omap_component_plain.
Qed.

(** Normal paths are equal when their components are. *)
Lemma abs_normal_eq p q : abs_normal p → abs_normal q → components p = components q → p = q.
Proof.
  intros (s & Hs & ->) (t & Ht & ->). rewrite !components_abs_string by done.
  intros [= H]. apply (f_equal (omap component_name)) in H. rewrite !omap_normal_names in H.
  apply (f_equal reverse) in H. by rewrite !reverse_involutive in H; subst.
Qed.

Lemma strip_components_Some base p r : strip_components base p = Some r ↔ p = base ++ r.
Proof.
  revert p; induction base as [|b base IH]; intros [|c p]; simpl; try naive_solver.
  case_decide as Hb; [rewrite IH|]; naive_solver.
Qed.

Lemma path_starts_with_true base p :
  path_starts_with base p = true ↔ ∃ r, components p = components base ++ r.
Proof.
  unfold path_starts_with, path_strip_prefix. setoid_rewrite <-strip_components_Some.
  destruct (strip_components _ _); naive_solver.
Qed.

Lemma path_starts_with_refl p : path_starts_with p p = true.
Proof. apply path_starts_with_true. exists []. by rewrite app_nil_r. Qed.

(** Joining a relative path of one plain segment. *)
Lemma abs_join_plain home base stack name :
  Forall plain stack → base = abs_string stack → plain name →
  starts_with (lit "~") name = false →
  abs_join home base name = abs_string (name :: stack).
Proof.
  intros Hp -> Hn Ht. unfold abs_join, resolve_path_against_base. rewrite expand_no_tilde by done.
  rewrite absolutize_from_walk by apply abs_string_absolute.
  assert (path_is_absolute name = false) as ->.
  { apply not_true_is_false. intros [r ->]%path_is_absolute_true.
    destruct Hn as (_ & Hs & _). apply Hs. by left. }
  rewrite walk_abs_string by done. f_equal. unfold walk. rewrite split_none by apply Hn.
  apply (fold_walk_plain stack [name]). by constructor.
Qed.

(** ** Properties *)

(** an [AbsolutePathBuf] is absolute and normal.  [from_absolute_path_checked]
    rejects exactly the paths that are not absolute after home expansion; an accepted
    path starts at the root and has no empty, [.] or [..] segment (so it cannot name
    anything above the root), and checking it again changes nothing.  [join] always
    yields such a path. *)
Theorem absolute_path_normal home p base :
  (is_ok (from_absolute_path_checked home p)
     = path_is_absolute (maybe_expand_home_directory home p))
  ∧ (∀ q, from_absolute_path_checked home p = Ok q →
       abs_normal q ∧ path_is_absolute q = true ∧ from_absolute_path_checked home q = Ok q)
  ∧ (path_is_absolute base = true → abs_normal (abs_join home base p)).
Proof.
  split; [|split].
  - unfold from_absolute_path_checked. by destruct (path_is_absolute _).
  - intros q Hq. assert (abs_normal q) as Hn.
    { unfold from_absolute_path_checked in Hq. destruct (path_is_absolute _); [|done].
      injection Hq as <-. by apply absolutize_from_normal. }
    split; [done|]. split; [|by apply abs_normal_fixed].
    destruct Hn as (stack & _ & ->). apply abs_string_absolute.
  - by apply absolutize_from_normal.
Qed.

Lemma absolute_path_normal_witness :
  from_absolute_path_checked None (lit "/a/./b/../c") = Ok (lit "/a/c") ∧ abs_normal (lit "/a/c").
Proof.
  assert (from_absolute_path_checked None (lit "/a/./b/../c") = Ok (lit "/a/c")) as H
    by (vm_compute; reflexivity).
  split; [exact H|].
  exact (proj1 (proj1 (proj2 (absolute_path_normal None (lit "/a/./b/../c") [slash])) _ H)).
Defined.

(** relative resolution composes.  For relative [p] and [q] that home
    expansion leaves alone, resolving [q] against the resolution of [p] is resolving
    [p/q]: resolving step by step, as nested working directories do, never differs
    from resolving the whole path at once. *)
Theorem abs_join_compose home base p q :
  path_is_absolute base = true →
  p ≠ [] → path_is_absolute p = false → path_is_absolute q = false →
  starts_with (lit "~") p = false → starts_with (lit "~") q = false →
  abs_join home (abs_join home base p) q = abs_join home base (p ++ slash :: q).
Proof.
  intros Hb Hne Hp Hq Htp Htq. unfold abs_join, resolve_path_against_base.
  rewrite !expand_no_tilde; try done.
  - assert (path_is_absolute (p ++ slash :: q) = false) as Hpq
      by (unfold path_is_absolute in *; by rewrite starts_with_char_app).
    rewrite (absolutize_from_walk p base), (absolutize_from_walk (p ++ _) base) by done.
    rewrite absolutize_from_walk by apply abs_string_absolute. rewrite Hp, Hq, Hpq.
    rewrite walk_abs_string by (repeat apply walk_plain; constructor). by rewrite walk_app_sep.
  - change (lit "~") with [126%N] in *. by rewrite starts_with_char_app.
Qed.

Lemma abs_join_compose_witness :
  abs_join None (abs_join None (lit "/srv") (lit "a/..")) (lit "../b")
  = abs_join None (lit "/srv") (lit "a/../../b").
Proof.
  apply (abs_join_compose None (lit "/srv") (lit "a/..") (lit "../b")); vm_compute; congruence.
Defined.
