(* ===== verification/HostShell.v ===== *)
(** * Shell detection (codex-rs/shell-command/src/shell_detect.rs, core/src/shell.rs)

    Which shell runs a command: detection of the kind of shell from a path, the
    search for an executable of that kind on the host, the fallbacks, and the
    argument vector a command is run with.  The Unix, non-macOS configuration is
    modelled.

    The host (files, [PATH] search, password database) is the parameter
    [HostWorld]. *)

From S2P Require Import Prelude.
From S2P Require Import RustStr.
From S2P Require Import AbsPath.

Inductive ShellType := Zsh | Bash | PowerShell | Sh | Cmd.

#[export] Instance ShellType_eq_dec : EqDecision ShellType.
Proof. solve_decision. Defined.

Definition shell_type_name (t : ShellType) : str :=
  match t with
  | Zsh => lit "zsh"
  | Bash => lit "bash"
  | PowerShell => lit "powershell"
  | Sh => lit "sh"
  | Cmd => lit "cmd"
  end.

(** [DetectedShell] and [Shell] have the same fields; [From] copies them. *)
Record Shell := { shell_type : ShellType; shell_path : str }.

(** ** Detection *)

Definition file_name (p : str) : option str :=
  match last (components p) with
  | Some (Normal s) => Some s
  | _ => None
  end.

(** [Path::file_stem]: the name up to its last dot, the whole name if that dot is
    leading or missing. *)
Definition file_stem (p : str) : option str :=
  name ← file_name p;
  Some (match split_once 46%N (reverse name) with
        | Some (_, before) => if is_empty before then name else reverse before
        | None => name
        end).

Definition shell_type_of_name (s : str) : option ShellType :=
  if s == lit "zsh" then Some Zsh
  else if s == lit "sh" then Some Sh
  else if s == lit "cmd" then Some Cmd
  else if s == lit "bash" then Some Bash
  else if s == lit "pwsh" then Some PowerShell
  else if s == lit "powershell" then Some PowerShell
  else None.

Fixpoint detect_shell_type_fuel (fuel : nat) (p : str) : option ShellType :=
  match fuel with
  | 0 => None
  | S fuel =>
      match shell_type_of_name p with
      | Some t => Some t
      | None =>
          match file_stem p with
          | Some name => if negb (path_eq name p) then detect_shell_type_fuel fuel name else None
          | None => None
          end
      end
  end.

(** The stem of a path is shorter than the path, or the recursion stops. *)
Definition detect_shell_type (p : str) : option ShellType := detect_shell_type_fuel (S (length p)) p.

(** ** The host *)

Class HostWorld := {
  is_file : str → bool;
  user_shell_path : option str;
  which : str → option str;
  home_dir : option str }.

Section Host.
Context `{W : HostWorld}.

Definition file_exists (p : str) : option str := if is_file p then Some p else None.

Definition get_shell_path (t : ShellType) (provided_path : option str) (binary_name : str)
    (fallback_paths : list str) : option str :=
  match provided_path ≫= file_exists with
  | Some p => Some p
  | None =>
      match opt_filter (λ p, bool_decide (detect_shell_type p = Some t)
                             && opt_is_some (file_exists p)) user_shell_path with
      | Some p => Some p
      | None => match which binary_name with
                | Some p => Some p
                | None => find_map file_exists fallback_paths
                end
      end
  end.

Definition ZSH_FALLBACK_PATHS := [lit "/bin/zsh"].
Definition BASH_FALLBACK_PATHS := [lit "/bin/bash"; lit "/usr/bin/bash"].
Definition SH_FALLBACK_PATHS := [lit "/bin/sh"].
Definition PWSH_FALLBACK_PATHS := [lit "/usr/local/bin/pwsh"].
Definition POWERSHELL_FALLBACK_PATHS : list str := [].

Definition as_shell (t : ShellType) (p : option str) : option Shell :=
  (λ p, {| shell_type := t; shell_path := p |}) <$> p.

Definition get_zsh_shell p := as_shell Zsh (get_shell_path Zsh p (lit "zsh") ZSH_FALLBACK_PATHS).
Definition get_bash_shell p :=
  as_shell Bash (get_shell_path Bash p (lit "bash") BASH_FALLBACK_PATHS).
Definition get_sh_shell p := as_shell Sh (get_shell_path Sh p (lit "sh") SH_FALLBACK_PATHS).
Definition get_powershell_shell p :=
  as_shell PowerShell
    (opt_or (get_shell_path PowerShell p (lit "pwsh") PWSH_FALLBACK_PATHS)
            (get_shell_path PowerShell p (lit "powershell") POWERSHELL_FALLBACK_PATHS)).
Definition get_cmd_shell p := as_shell Cmd (get_shell_path Cmd p (lit "cmd") []).

Definition ultimate_fallback_shell : Shell :=
  {| shell_type := Sh; shell_path := lit "/bin/sh" |}.

Definition get_shell (t : ShellType) (p : option str) : option Shell :=
  match t with
  | Zsh => get_zsh_shell p
  | Bash => get_bash_shell p
  | PowerShell => get_powershell_shell p
  | Sh => get_sh_shell p
  | Cmd => get_cmd_shell p
  end.

Definition get_shell_by_model_provided_path (p : str) : Shell :=
  default ultimate_fallback_shell (detect_shell_type p ≫= λ t, get_shell t (Some p)).

Definition default_user_shell_from_path (user_shell_path : option str) : Shell :=
  let user_default_shell :=
    (user_shell_path ≫= detect_shell_type) ≫= λ t, get_shell t None in
  let shell_with_fallback :=
    opt_or (opt_or user_default_shell (get_shell Bash None)) (get_shell Zsh None) in
  default ultimate_fallback_shell shell_with_fallback.

Definition default_user_shell : Shell := default_user_shell_from_path user_shell_path.
End Host.

(** ** Running a command (core/src/shell.rs) *)

Definition derive_exec_args (s : Shell) (command : str) (use_login_shell : bool) : list str :=
  match shell_type s with
  | Zsh | Bash | Sh =>
      [shell_path s; if use_login_shell then lit "-lc" else lit "-c"; command]
  | PowerShell =>
      [shell_path s] ++ (if use_login_shell then [] else [lit "-NoProfile"])
      ++ [lit "-Command"; command]
  | Cmd => [shell_path s; lit "/c"; command]
  end.

Record ShellInfo := { info_name : str; info_path : str }.

Definition from_environment_shell_info (i : ShellInfo) : result str Shell :=
  let shell t := Ok {| shell_type := t; shell_path := info_path i |} in
  if info_name i == lit "zsh" then shell Zsh
  else if info_name i == lit "bash" then shell Bash
  else if info_name i == lit "powershell" then shell PowerShell
  else if info_name i == lit "sh" then shell Sh
  else if info_name i == lit "cmd" then shell Cmd
  else Err (lit "unknown environment shell `" ++ info_name i ++ lit "`").

(** ** Termination of detection *)

Lemma elem_split_length (c : char) s p : p ∈ split c s → length p ≤ length s.
Proof.
  revert p; induction s as [|d s IH]; intros p; simpl.
  { by intros ->%list_elem_of_singleton. }
  destruct (c =? d)%N.
  { intros [->|Hp]%elem_of_cons; simpl; [lia|]. specialize (IH _ Hp). lia. }
  destruct (split c s) as [|q qs] eqn:Hs.
  - intros ->%list_elem_of_singleton. simpl. lia.
  - intros [->|Hp]%elem_of_cons; simpl.
    + specialize (IH q (list_elem_of_here _ _)). lia.
    + specialize (IH p (list_elem_of_further _ _ _ Hp)). lia.
Qed.

(** A normal component of a path is one of its segments. *)
Lemma component_segment p s : Normal s ∈ components p → s ∈ split slash p.
Proof.
  assert (∀ segs : list str, Normal s ∈ omap component_of_segment segs → s ∈ segs) as Ho.
  { intros segs (x & Hx & Hc)%list_elem_of_omap. unfold component_of_segment in Hc.
    repeat case_match; simplify_eq. done. }
  unfold components. destruct (path_is_absolute p).
  - intros [|H]%elem_of_cons; [done|]. by apply Ho.
  - destruct (split slash p) as [|seg segs]; [by intros ?%not_elem_of_nil|].
    intros [H|H]%elem_of_app; [|right; by apply Ho].
    assert (s = seg) as ->; [|by left]. unfold component_of_segment in H.
    repeat case_match; simplify_eq/=; rewrite ?list_elem_of_singleton in H;
      first [by apply not_elem_of_nil in H|congruence].
Qed.

(** Only one segment is as long as the whole path. *)
Lemma split_length_eq (c : char) s p : p ∈ split c s → length p = length s → p = s.
Proof.
  intros Hp Hl. destruct (decide (c ∈ s)) as [Hc|Hc].
  - exfalso. apply list_elem_of_split in Hc as (a & b & ->). rewrite split_app_sep in Hp.
    rewrite length_app in Hl. simpl in Hl.
    apply elem_of_app in Hp as [Hp%elem_split_length|Hp%elem_split_length]; lia.
  - rewrite split_none in Hp by done. by apply list_elem_of_singleton in Hp.
Qed.

Lemma file_stem_shorter p name : file_stem p = Some name → name = p ∨ length name < length p.
Proof.
  unfold file_stem, file_name. intros Hs. destruct (last (components p)) as [c|] eqn:Hl; [|done].
  destruct c as [| | |s]; try done. simpl in Hs. injection Hs as <-.
  apply last_Some_elem_of, component_segment in Hl.
  assert (s = p ∨ length s < length p) as Hsp.
  { pose proof (elem_split_length _ _ _ Hl). destruct (decide (length s = length p)); [|right; lia].
    left. by apply split_length_eq in Hl. }
  destruct (split_once 46%N (reverse s)) as [[a b]|] eqn:Hd; [|done].
  destruct (is_empty b); [done|]. right. apply split_once_Some in Hd as [Hr _].
  apply (f_equal length) in Hr. rewrite length_reverse, length_app in *. simpl in Hr.
  pose proof (elem_split_length _ _ _ Hl). lia.
Qed.

Lemma detect_fuel_enough n m p :
  length p < n → length p < m → detect_shell_type_fuel n p = detect_shell_type_fuel m p.
Proof.
  revert m p; induction n as [|n IH]; intros [|m] p Hn Hm; try lia. simpl.
  destruct (shell_type_of_name p); [done|]. destruct (file_stem p) as [name|] eqn:Hs; [|done].
  destruct (path_eq name p) eqn:He; [done|]. simpl.
  apply file_stem_shorter in Hs as [->|Hlt]; [|apply IH; lia].
  unfold path_eq in He. by apply bool_decide_eq_false in He.
Qed.

(** The recursive equation of the source. *)
Lemma detect_shell_type_eq p :
  detect_shell_type p =
    match shell_type_of_name p with
    | Some t => Some t
    | None => match file_stem p with
              | Some name => if negb (path_eq name p) then detect_shell_type name else None
              | None => None
              end
    end.
Proof.
  unfold detect_shell_type at 1. cbn [detect_shell_type_fuel].
  destruct (shell_type_of_name p); [done|]. destruct (file_stem p) as [name|] eqn:Hs; [|done].
  destruct (path_eq name p) eqn:He; [done|]. simpl.
  apply file_stem_shorter in Hs as [->|Hlt].
  { unfold path_eq in He. by apply bool_decide_eq_false in He. }
  unfold detect_shell_type. apply detect_fuel_enough; lia.
Qed.

(** ** Detection looks at the base name only *)

(** A directory contributes at least one component. *)
Lemma components_in_dir dir name :
  plain name → ∃ c cs, components (dir ++ slash :: name) = c :: cs ++ [Normal name].
Proof.
  intros Hp. assert (omap component_of_segment [name] = [Normal name]) as Hn
    by (simpl; by rewrite component_of_plain).
  unfold components. destruct (path_is_absolute _) eqn:Ha; rewrite split_app_sep.
  - rewrite (split_none slash name), omap_app, Hn by apply Hp. eauto.
  - rewrite (split_none slash name) by apply Hp. pose proof (split_nonempty slash dir).
    destruct (split slash dir) as [|seg segs] eqn:Hs; [done|]. simpl. rewrite omap_app, Hn.
    case_str; [by eexists _, _|].
    assert (seg ≠ []) as Hseg.
    { intros ->. apply (f_equal (join [slash])) in Hs. rewrite join_split in Hs. subst dir.
      by destruct segs. }
    unfold component_of_segment at 1. rewrite (proj2 (is_empty_false seg)),
      (proj2 (str_eqb_false seg dot)) by done.
    case_str; by eexists _, _.
Qed.

Definition stem_of_name (name : str) : str :=
  match split_once 46%N (reverse name) with
  | Some (_, before) => if is_empty before then name else reverse before
  | None => name
  end.

Lemma stem_elem name c : c ∈ stem_of_name name → c ∈ name.
Proof.
  unfold stem_of_name. destruct (split_once _ _) as [[a b]|] eqn:Hs; [|done].
  destruct (is_empty b); [done|]. apply split_once_Some in Hs as [Hr _]. intros Hc.
  apply elem_of_reverse. rewrite Hr. apply elem_of_app. right. right. by rewrite elem_of_reverse in Hc.
Qed.

Lemma table_has_no_sep p : slash ∈ p → shell_type_of_name p = None.
Proof.
  intros Hp. unfold shell_type_of_name.
  repeat (case_str; [exfalso; subst p; apply contains_char_true in Hp; by vm_compute in Hp|]). done.
Qed.

(** A name of the table has no dot, so it is its own stem. *)
Lemma table_stem name t : shell_type_of_name name = Some t → stem_of_name name = name.
Proof.
  unfold shell_type_of_name. intros H.
  repeat (case_str; [subst name; by vm_compute|]). done.
Qed.

Lemma file_name_in_dir dir name : plain name → file_name (dir ++ slash :: name) = Some name.
Proof.
  intros Hp. unfold file_name. destruct (components_in_dir dir name Hp) as (c & cs & ->).
  change (c :: cs ++ [Normal name]) with ((c :: cs) ++ [Normal name]). by rewrite last_snoc.
Qed.

Lemma stem_path_eq dir name :
  plain name → path_eq (stem_of_name name) (dir ++ slash :: name) = false.
Proof.
  intros Hp. unfold path_eq. apply bool_decide_eq_false. intros Heq.
  destruct (components_in_dir dir name Hp) as (c & cs & Hc). rewrite Hc in Heq.
  assert (length (components (stem_of_name name)) ≤ 1) as Hl.
  { unfold components. assert (slash ∉ stem_of_name name) as Hs.
    { intros Hin%stem_elem. by destruct Hp as (_ & ? & _). }
    destruct (path_is_absolute _) eqn:Ha.
    { apply path_is_absolute_true in Ha as [r Hr]. rewrite Hr in Hs. exfalso. apply Hs. by left. }
    rewrite split_none by done. case_str; simpl; [lia|]. destruct (component_of_segment _); simpl; lia. }
  rewrite Heq in Hl. simpl in Hl. rewrite length_app in Hl. simpl in Hl. lia.
Qed.

Lemma detect_in_dir dir name :
  plain name → detect_shell_type (dir ++ slash :: name) = detect_shell_type (stem_of_name name).
Proof.
  intros Hp. rewrite detect_shell_type_eq, table_has_no_sep by (apply elem_of_app; right; by left).
  unfold file_stem. rewrite file_name_in_dir by done. simpl. fold (stem_of_name name).
  by rewrite stem_path_eq.
Qed.

(** ** Properties *)

(** detection depends on the base name only: whatever the directory, the
    shell detected for [dir/name] is the one detected for [name]. *)
Theorem detect_shell_type_basename dir name :
  plain name → detect_shell_type (dir ++ slash :: name) = detect_shell_type name.
Proof.
  intros Hp. rewrite detect_in_dir by done. rewrite (detect_shell_type_eq name).
  destruct (shell_type_of_name name) as [t|] eqn:Ht.
  { rewrite (table_stem _ _ Ht), detect_shell_type_eq. by rewrite Ht. }
  assert (file_stem name = Some (stem_of_name name)) as ->.
  { unfold file_stem, file_name. by rewrite components_plain. }
  destruct (path_eq (stem_of_name name) name) eqn:He; [|done]. simpl.
  unfold path_eq in He. apply bool_decide_eq_true in He. rewrite (components_plain name) in He by done.
  destruct (decide (stem_of_name name = name)) as [Heq|Hne].
  - rewrite Heq, detect_shell_type_eq, Ht. unfold file_stem, file_name.
    rewrite components_plain by done. simpl. fold (stem_of_name name). rewrite Heq.
    unfold path_eq. by rewrite bool_decide_true.
  - exfalso. assert (Normal name ∈ components (stem_of_name name)) as Hin.
    { rewrite He. apply list_elem_of_here. }
    apply component_segment in Hin. apply Hne.
    assert (slash ∉ stem_of_name name) as Hs.
    { intros Hi%stem_elem. by destruct Hp as (_ & ? & _). }
    rewrite split_none in Hin by done. by apply list_elem_of_singleton in Hin.
Qed.

Lemma detect_shell_type_basename_witness :
  detect_shell_type (lit "/opt/x" ++ slash :: lit "bash.exe") = Some Bash.
Proof.
  rewrite (detect_shell_type_basename (lit "/opt/x") (lit "bash.exe")); [vm_compute; reflexivity|].
  split; [by_compute|]. split; [|split; by_compute].
  apply contains_char_false. vm_compute. reflexivity.
Defined.

Section ShellSearch.
Context `{W : HostWorld}.

(** The search only returns an executable of the host. *)
Definition on_host (p : str) : Prop := is_file p = true ∨ ∃ b, which b = Some p.

Lemma get_shell_path_on_host t p b fb q : get_shell_path t p b fb = Some q → on_host q.
Proof.
  unfold get_shell_path, file_exists, on_host.
  destruct (p ≫= _) as [p'|] eqn:Hp.
  { intros [= <-]. apply bind_Some in Hp as (x & -> & Hx). destruct (is_file x) eqn:?; naive_solver. }
  destruct (opt_filter _ _) as [u|] eqn:Hu.
  { intros [= <-]. destruct user_shell_path as [v|]; [|done]. simpl in Hu.
    destruct (is_file v) eqn:Hv; [|by rewrite andb_false_r in Hu].
    destruct (_ && _); naive_solver. }
  destruct (which b) as [w|] eqn:Hw; [intros [= <-]; eauto|].
  intros (x & _ & Hx)%find_map_Some. destruct (is_file x) eqn:?; naive_solver.
Qed.

Lemma get_shell_on_host t p s : get_shell t p = Some s → shell_type s = t ∧ on_host (shell_path s).
Proof.
  destruct t; simpl; unfold get_zsh_shell, get_bash_shell, get_powershell_shell, get_sh_shell,
    get_cmd_shell, as_shell; rewrite fmap_Some; intros (q & Hq & ->); (split; [done|]); simpl;
    try (by eapply get_shell_path_on_host).
  unfold opt_or in Hq. destruct (get_shell_path PowerShell p (lit "pwsh") _) eqn:H1; simplify_eq;
    by eapply get_shell_path_on_host.
Qed.

Lemma get_shell_path_provided t p b fb :
  is_file p = true → get_shell_path t (Some p) b fb = Some p.
Proof. intros Hp. unfold get_shell_path, file_exists. simpl. by rewrite Hp. Qed.

Lemma get_shell_provided t p :
  is_file p = true → get_shell t (Some p) = Some {| shell_type := t; shell_path := p |}.
Proof.
  intros Hp. destruct t; simpl; unfold get_zsh_shell, get_bash_shell, get_powershell_shell,
    get_sh_shell, get_cmd_shell; by rewrite ?get_shell_path_provided.
Qed.

(** the shell for a path given by the model or by recorded metadata.  When
    the path names a known kind of shell and is a file of the host, that very path
    is used; in every other case the result is an executable of the HOST of the
    same kind, or [/bin/sh].  The command is always passed as one final argument. *)
Theorem model_provided_shell p command login :
  let s := get_shell_by_model_provided_path p in
  (∀ t, detect_shell_type p = Some t → is_file p = true →
     s = {| shell_type := t; shell_path := p |})
  ∧ (s = ultimate_fallback_shell
     ∨ detect_shell_type p = Some (shell_type s) ∧ on_host (shell_path s))
  ∧ ∃ flags, derive_exec_args s command login = shell_path s :: flags ++ [command].
Proof.
  cbn zeta. unfold get_shell_by_model_provided_path. split; [|split].
  - intros t -> Hp. simpl. by rewrite get_shell_provided.
  - destruct (detect_shell_type p) as [t|]; simpl; [|by left].
    destruct (get_shell t (Some p)) as [s|] eqn:Hs; simpl; [|by left].
    right. by apply get_shell_on_host in Hs as [-> ?].
  - unfold derive_exec_args. destruct (shell_type _), login; first [by eexists [_] | by eexists [_; _]].
Qed.
End ShellSearch.

(** A host with [/bin/bash] and [/bin/sh] only. *)
Definition demo_host : HostWorld :=
  {| is_file := λ p, any (str_eqb p) [lit "/bin/bash"; lit "/bin/sh"]; user_shell_path := None;
     which := λ _, None; home_dir := None |}.

Lemma model_provided_shell_witness :
  get_shell_by_model_provided_path (W := demo_host) (lit "/bin/bash")
  = {| shell_type := Bash; shell_path := lit "/bin/bash" |}.
Proof.
  apply (proj1 (model_provided_shell (W := demo_host) (lit "/bin/bash") (lit "ls") false) Bash);
    vm_compute; reflexivity.
Defined.

(** A shell recorded on another machine is looked up on this host: [/usr/bin/zsh]
    of a remote becomes [/bin/sh] when the host has no zsh. *)
Example remote_shell_resolved_on_host :
  get_shell_by_model_provided_path (W := demo_host) (lit "/usr/bin/zsh") = ultimate_fallback_shell.
Proof. vm_compute. reflexivity. Qed.
