(* ===== verification/Permissions.v ===== *)
(** * File-system permissions (codex-rs/protocol/src/permissions.rs)

    The sandbox policy of a session: a list of entries, each granting read, write
    or no access to a path, a glob or a symbolic location.  The effective access of a
    path is that of the most specific matching entry, ties going to the stronger
    restriction; writes to workspace metadata ([.git], [.agents], [.codex]) need an
    entry of their own.

    The host (environment variables, directories, home and current directory) is
    the parameter [PermWorld].  Unix hosts are modelled.  The derived root lists for
    the platform sandboxes ([get_writable_roots_with_cwd] and its kin, which
    canonicalise symbolic links) are left out. *)

From S2P Require Import Prelude.
From S2P Require Import RustStr.
From S2P Require Import AbsPath.

(** ** Data *)

Inductive NetworkSandboxPolicy := NetRestricted | NetEnabled.

Definition net_is_enabled (n : NetworkSandboxPolicy) : bool :=
  match n with NetEnabled => true | NetRestricted => false end.

(** The constructors are ordered: [Read < Write < Deny]. *)
Inductive FileSystemAccessMode := Read | Write | Deny.

Definition can_read (a : FileSystemAccessMode) : bool :=
  match a with Deny => false | _ => true end.
Definition can_write (a : FileSystemAccessMode) : bool :=
  match a with Write => true | _ => false end.
Definition access_rank (a : FileSystemAccessMode) : nat :=
  match a with Read => 0 | Write => 1 | Deny => 2 end.

Inductive FileSystemSpecialPath :=
| Root
| Minimal
| ProjectRoots (subpath : option str)
| Tmpdir
| SlashTmp
| Unknown (path : str) (subpath : option str).

Inductive FileSystemPath :=
| Path (path : str)
| GlobPattern (pattern : str)
| Special (value : FileSystemSpecialPath).

Record FileSystemSandboxEntry := mkEntry {
  entry_path : FileSystemPath;
  access : FileSystemAccessMode }.

Inductive FileSystemSandboxKind := Restricted | Unrestricted | ExternalSandbox.

Record FileSystemSandboxPolicy := mkPolicy {
  kind : FileSystemSandboxKind;
  glob_scan_max_depth : option nat;
  entries : list FileSystemSandboxEntry }.

Record ResolvedFileSystemEntry := {
  resolved_path : str;
  resolved_access : FileSystemAccessMode }.

#[export] Instance access_eq_dec : EqDecision FileSystemAccessMode.
Proof. solve_decision. Defined.

(** The derived [PartialEq]: paths compare by components. *)
Definition subpath_eq (l r : option str) : bool :=
  match l, r with
  | Some l, Some r => path_eq l r
  | None, None => true
  | _, _ => false
  end.
Definition special_eq (l r : FileSystemSpecialPath) : bool :=
  match l, r with
  | Root, Root | Minimal, Minimal | Tmpdir, Tmpdir | SlashTmp, SlashTmp => true
  | ProjectRoots l, ProjectRoots r => subpath_eq l r
  | Unknown l ls, Unknown r rs => (l == r) && subpath_eq ls rs
  | _, _ => false
  end.
Definition fspath_eq (l r : FileSystemPath) : bool :=
  match l, r with
  | Path l, Path r => path_eq l r
  | GlobPattern l, GlobPattern r => l == r
  | Special l, Special r => special_eq l r
  | _, _ => false
  end.
Definition entry_eq (l r : FileSystemSandboxEntry) : bool :=
  fspath_eq (entry_path l) (entry_path r) && bool_decide (access l = access r).

Definition is_restricted (p : FileSystemSandboxPolicy) : bool :=
  match kind p with Restricted => true | _ => false end.

Definition restricted (es : list FileSystemSandboxEntry) : FileSystemSandboxPolicy :=
  mkPolicy Restricted None es.
Definition unrestricted : FileSystemSandboxPolicy := mkPolicy Unrestricted None [].
Definition external_sandbox : FileSystemSandboxPolicy := mkPolicy ExternalSandbox None [].
Definition read_only : FileSystemSandboxPolicy := restricted [mkEntry (Special Root) Read].

Definition PROTECTED_METADATA_PATH_NAMES : list str := [lit ".git"; lit ".agents"; lit ".codex"].

Definition is_protected_metadata_name (name : str) : bool :=
  any (λ m, name == m) PROTECTED_METADATA_PATH_NAMES.

Definition metadata_path_name (name : str) : option str :=
  find (λ m, name == m) PROTECTED_METADATA_PATH_NAMES.

(** ** Entries that name the same target *)

Definition special_paths_share_target (l r : FileSystemSpecialPath) : bool :=
  match l, r with
  | Root, Root | Minimal, Minimal | Tmpdir, Tmpdir | SlashTmp, SlashTmp => true
  | ProjectRoots l, ProjectRoots r => subpath_eq l r
  | Unknown l ls, Unknown r rs => (l == r) && subpath_eq ls rs
  | _, _ => false
  end.

(** [path.parent().is_none()] *)
Definition has_no_parent (p : str) : bool :=
  match last (components p) with
  | None | Some RootDir => true
  | Some _ => false
  end.

Definition special_path_matches_absolute_path (v : FileSystemSpecialPath) (p : str) : bool :=
  match v with
  | Root => has_no_parent p
  | SlashTmp => path_eq p (lit "/tmp")
  | _ => false
  end.

Definition file_system_paths_share_target (l r : FileSystemPath) : bool :=
  match l, r with
  | Path l, Path r => path_eq l r
  | Special l, Special r => special_paths_share_target l r
  | Path p, Special v | Special v, Path p => special_path_matches_absolute_path v p
  | GlobPattern l, GlobPattern r => l == r
  | GlobPattern _, _ | _, GlobPattern _ => false
  end.

(** ** Predicates on a whole policy *)

Definition has_root_access (p : FileSystemSandboxPolicy) (f : FileSystemAccessMode → bool) : bool :=
  is_restricted p
  && any (λ e, match entry_path e with Special Root => f (access e) | _ => false end) (entries p).

Definition has_denied_read_restrictions (p : FileSystemSandboxPolicy) : bool :=
  is_restricted p && any (λ e, bool_decide (access e = Deny)) (entries p).

Definition has_same_target_write_override (p : FileSystemSandboxPolicy)
    (e : FileSystemSandboxEntry) : bool :=
  any (λ c, can_write (access c) && (access_rank (access e) <? access_rank (access c))
            && file_system_paths_share_target (entry_path c) (entry_path e)) (entries p).

Definition narrows_write (p : FileSystemSandboxPolicy) (e : FileSystemSandboxEntry) : bool :=
  if can_write (access e) then false
  else match entry_path e with
       | Path _ => negb (has_same_target_write_override p e)
       | GlobPattern _ => true
       | Special v =>
           match v with
           | Root => bool_decide (access e = Deny)
           | Minimal | Unknown _ _ => false
           | _ => negb (has_same_target_write_override p e)
           end
       end.

Definition has_write_narrowing_entries (p : FileSystemSandboxPolicy) : bool :=
  is_restricted p && any (narrows_write p) (entries p).

Definition has_full_disk_read_access (p : FileSystemSandboxPolicy) : bool :=
  match kind p with
  | Unrestricted | ExternalSandbox => true
  | Restricted => has_root_access p can_read && negb (has_denied_read_restrictions p)
  end.

Definition has_full_disk_write_access (p : FileSystemSandboxPolicy) : bool :=
  match kind p with
  | Unrestricted | ExternalSandbox => true
  | Restricted => has_root_access p can_write && negb (has_write_narrowing_entries p)
  end.

Definition include_platform_defaults (p : FileSystemSandboxPolicy) : bool :=
  negb (has_full_disk_read_access p) && is_restricted p
  && any (λ e, match entry_path e with Special Minimal => can_read (access e) | _ => false end)
       (entries p).

(** ** Resolution of entries *)

Class PermWorld := {
  perm_home : option str;
  perm_current_dir : result str str;
  tmpdir_var : option str;
  is_dir : str → bool;
  is_regular_file : str → bool;
  path_exists : str → bool;
  read_file : str → option str }.

Section Resolution.
Context `{W : PermWorld}.

(** [AbsolutePathBuf::from_absolute_path(p).ok()] *)
Definition absolute_path (p : str) : option str :=
  match from_absolute_path perm_home perm_current_dir p with
  | Ok q => Some q
  | Err _ => None
  end.

Definition resolve_file_system_special_path (v : FileSystemSpecialPath) (cwd : option str)
    : option str :=
  match v with
  | Root | Minimal | Unknown _ _ => None
  | ProjectRoots subpath =>
      cwd ≫= λ cwd, Some (match subpath with
                          | Some sub => resolve_path_against_base perm_home sub cwd
                          | None => cwd
                          end)
  | Tmpdir => tmpdir_var ≫= λ t, if is_empty t then None else absolute_path t
  | SlashTmp => absolute_path (lit "/tmp") ≫= λ t, if is_dir t then Some t else None
  end.

Definition resolve_file_system_path (p : FileSystemPath) (cwd : option str) : option str :=
  match p with
  | Path p => Some p
  | GlobPattern _ => None
  | Special v => resolve_file_system_special_path v cwd
  end.

(** The root of an absolute path is [/]. *)
Definition absolute_root_path_for_cwd (cwd : str) : str := [slash].

Definition resolve_entry_path (p : FileSystemPath) (cwd : option str) : option str :=
  match p with
  | Special Root => absolute_root_path_for_cwd <$> cwd
  | _ => resolve_file_system_path p cwd
  end.

Definition resolved_entries_with_cwd (p : FileSystemSandboxPolicy) (cwd : str)
    : list ResolvedFileSystemEntry :=
  let cwd_absolute := absolute_path cwd in
  omap (λ e, (λ q, {| resolved_path := q; resolved_access := access e |})
               <$> resolve_entry_path (entry_path e) cwd_absolute) (entries p).

Definition resolve_candidate_path (path cwd : str) : option str :=
  if path_is_absolute path then absolute_path path
  else cwd ← absolute_path cwd; Some (abs_join perm_home cwd path).

(** [(specificity, access)], compared lexicographically. *)
Definition resolved_entry_precedence (e : ResolvedFileSystemEntry) : nat * nat :=
  (length (components (resolved_path e)), access_rank (resolved_access e)).

Definition precedence_le (a b : nat * nat) : bool :=
  (a.1 <? b.1) || ((a.1 =? b.1) && (a.2 <=? b.2)).

(** [Iterator::max_by_key]: the last of the maximal elements. *)
Definition max_by_key {A} (key : A → nat * nat) (l : list A) : option A :=
  fold_left (λ best a, match best with
                       | None => Some a
                       | Some b => if precedence_le (key b) (key a) then Some a else Some b
                       end) l None.

Definition resolve_access_with_cwd (p : FileSystemSandboxPolicy) (path cwd : str)
    : FileSystemAccessMode :=
  match kind p with
  | Unrestricted | ExternalSandbox => Write
  | Restricted =>
      match resolve_candidate_path path cwd with
      | None => Deny
      | Some path =>
          default Deny (resolved_access <$>
            max_by_key resolved_entry_precedence
              (List.filter (λ e, path_starts_with (resolved_path e) path)
                 (resolved_entries_with_cwd p cwd)))
      end
  end.

Definition can_read_path_with_cwd (p : FileSystemSandboxPolicy) (path cwd : str) : bool :=
  can_read (resolve_access_with_cwd p path cwd).

(** *** Workspace metadata *)

Definition metadata_child (target : str) (e : ResolvedFileSystemEntry) : option (str * str) :=
  rest ← path_strip_prefix (resolved_path e) target;
  first ← head rest;
  name ← component_name first;
  m ← metadata_path_name name;
  Some (abs_join perm_home (resolved_path e) m, m).

Definition metadata_child_of_writable_root (p : FileSystemSandboxPolicy) (target cwd : str)
    : option (str * str) :=
  find_map (metadata_child target)
    (List.filter (λ e, can_write (resolved_access e)) (resolved_entries_with_cwd p cwd)).

Definition has_explicit_write_entry_for_metadata_path (p : FileSystemSandboxPolicy)
    (metadata_path target cwd : str) : bool :=
  any (λ e, can_write (resolved_access e) && path_starts_with (resolved_path e) target
            && path_starts_with metadata_path (resolved_path e))
    (resolved_entries_with_cwd p cwd).

Definition is_metadata_write_denied (p : FileSystemSandboxPolicy) (path cwd : str) : bool :=
  if negb (is_restricted p) then false
  else match resolve_candidate_path path cwd with
       | None => true
       | Some target =>
           match metadata_child_of_writable_root p target cwd with
           | None => false
           | Some (mp, _) => negb (has_explicit_write_entry_for_metadata_path p mp target cwd)
           end
       end.

Definition can_write_path_with_cwd (p : FileSystemSandboxPolicy) (path cwd : str) : bool :=
  if negb (can_write (resolve_access_with_cwd p path cwd)) then false
  else if has_full_disk_write_access p then true
  else negb (is_metadata_write_denied p path cwd).

Definition forbidden_agent_metadata_write (path cwd : str) (p : FileSystemSandboxPolicy)
    : option str :=
  if negb (is_restricted p) then None
  else
    target ← resolve_candidate_path path cwd;
    '(mp, name) ← metadata_child_of_writable_root p target cwd;
    if has_explicit_write_entry_for_metadata_path p mp target cwd then None
    else if negb (can_write_path_with_cwd p target cwd) then Some name
    else None.

(** ** Changing a policy *)

Definition deny_entries (p : FileSystemSandboxPolicy) : list FileSystemSandboxEntry :=
  List.filter (λ e, bool_decide (access e = Deny)) (entries p).

(** [if !entries.contains(e) { entries.push(e) }] for each [e]. *)
Definition push_missing (es new : list FileSystemSandboxEntry) : list FileSystemSandboxEntry :=
  fold_left (λ es e, if any (λ x, entry_eq x e) es then es else es ++ [e]) new es.

Definition preserve_deny_read_restrictions_from (self existing : FileSystemSandboxPolicy)
    : FileSystemSandboxPolicy :=
  let has_deny := any (λ e, bool_decide (access e = Deny)) (entries existing) in
  let self := match kind self with
              | Unrestricted =>
                  if has_deny then restricted [mkEntry (Special Root) Write] else self
              | _ => self
              end in
  if negb (is_restricted self) then self
  else mkPolicy (kind self)
         (opt_or (glob_scan_max_depth self) (glob_scan_max_depth existing))
         (push_missing (entries self) (deny_entries existing)).

Definition with_additional_readable_roots (p : FileSystemSandboxPolicy) (cwd : str)
    (roots : list str) : FileSystemSandboxPolicy :=
  if has_full_disk_read_access p then p
  else fold_left (λ p r, if can_read_path_with_cwd p r cwd then p
                         else mkPolicy (kind p) (glob_scan_max_depth p)
                                (entries p ++ [mkEntry (Path r) Read])) roots p.

Definition with_additional_writable_roots (p : FileSystemSandboxPolicy) (cwd : str)
    (roots : list str) : FileSystemSandboxPolicy :=
  fold_left (λ p r, if can_write_path_with_cwd p r cwd then p
                    else mkPolicy (kind p) (glob_scan_max_depth p)
                           (entries p ++ [mkEntry (Path r) Write])) roots p.

Definition append_default_read_only_entry_if_no_explicit_rule
    (es : list FileSystemSandboxEntry) (p : FileSystemPath) : list FileSystemSandboxEntry :=
  if any (λ e, file_system_paths_share_target (entry_path e) p) es then es
  else es ++ [mkEntry p Read].

(** [materialize_project_roots_with_workspace_roots] *)
Definition PROJECT_ROOTS_GLOB_PATTERN_PREFIX : str := lit "codex-project-roots://".

Definition parse_project_roots_glob_pattern (pattern : str) : option str :=
  strip_prefix PROJECT_ROOTS_GLOB_PATTERN_PREFIX pattern.

Definition materialize_entry (roots : list str) (e : FileSystemSandboxEntry)
    : list FileSystemSandboxEntry :=
  match entry_path e with
  | Special (ProjectRoots subpath) =>
      (λ root, mkEntry (Path (match subpath with
                              | Some sub => resolve_path_against_base perm_home sub root
                              | None => root
                              end)) (access e)) <$> roots
  | GlobPattern pattern =>
      match parse_project_roots_glob_pattern pattern with
      | Some sub =>
          (λ root, mkEntry (GlobPattern (resolve_path_against_base perm_home sub root)) (access e))
            <$> roots
      | None => [e]
      end
  | Path _ | Special _ => [e]
  end.

Definition materialize_project_roots_with_workspace_roots (p : FileSystemSandboxPolicy)
    (roots : list str) : FileSystemSandboxPolicy :=
  mkPolicy (kind p) (glob_scan_max_depth p) (entries p ≫= materialize_entry roots).

Definition with_materialized_project_roots_for_workspace_roots (p : FileSystemSandboxPolicy)
    (roots : list str) : FileSystemSandboxPolicy :=
  mkPolicy (kind p) (glob_scan_max_depth p)
    (push_missing (entries p)
       (entries (materialize_project_roots_with_workspace_roots p roots))).

(** ** Default protections under a writable root *)

(** [Path::parent] *)
Definition path_parent (p : str) : option str :=
  match reverse (components p) with
  | [] | RootDir :: _ => None
  | _ :: cs => Some (buf_string cs)
  end.

Definition resolve_gitdir_from_file (dot_git : str) : option str :=
  contents ← read_file dot_git;
  '(prefix, gitdir_raw) ← split_once (ch ":") (trim contents);
  if negb (trim prefix == lit "gitdir") then None
  else
    let gitdir_raw := trim gitdir_raw in
    if is_empty gitdir_raw then None
    else
      base ← path_parent dot_git;
      let gitdir_path := resolve_path_against_base perm_home gitdir_raw base in
      if path_exists gitdir_path then Some gitdir_path else None.

Definition file_name_of (p : str) : option Component := last (components p).

Definition is_git_pointer_file (p : str) : bool :=
  is_regular_file p && bool_decide (file_name_of p = Some (Normal (lit ".git"))).

(** [dedup_absolute_paths] without canonicalisation. *)
Fixpoint dedup_absolute_paths_from (seen : list str) (ps : list str) : list str :=
  match ps with
  | [] => []
  | p :: ps => if any (λ q, path_eq q p) seen then dedup_absolute_paths_from seen ps
               else p :: dedup_absolute_paths_from (seen ++ [p]) ps
  end.
Definition dedup_absolute_paths (ps : list str) : list str := dedup_absolute_paths_from [] ps.

Definition default_read_only_subpaths_for_writable_root (root : str)
    (protect_missing_dot_codex : bool) : list str :=
  let git := abs_join perm_home root (lit ".git") in
  let agents := abs_join perm_home root (lit ".agents") in
  let codex := abs_join perm_home root (lit ".codex") in
  dedup_absolute_paths
    ((if is_dir git || is_regular_file git then
        (if is_regular_file git && is_git_pointer_file git
         then option_list (resolve_gitdir_from_file git) else [])
        ++ [git]
      else [])
     ++ (if is_dir agents then [agents] else [])
     ++ (if protect_missing_dot_codex || is_dir codex then [codex] else [])).

Definition append_default_read_only_paths (es : list FileSystemSandboxEntry) (ps : list str)
    : list FileSystemSandboxEntry :=
  fold_left (λ es p, append_default_read_only_entry_if_no_explicit_rule es (Path p)) ps es.

Definition workspace_write (writable_roots : list str)
    (exclude_tmpdir_env_var exclude_slash_tmp : bool) : FileSystemSandboxPolicy :=
  let es :=
    [mkEntry (Special Root) Read; mkEntry (Special (ProjectRoots None)) Write]
    ++ (if exclude_slash_tmp then [] else [mkEntry (Special SlashTmp) Write])
    ++ (if exclude_tmpdir_env_var then [] else [mkEntry (Special Tmpdir) Write])
    ++ ((λ r, mkEntry (Path r) Write) <$> writable_roots) in
  let protect es name :=
    append_default_read_only_entry_if_no_explicit_rule es (Special (ProjectRoots (Some name))) in
  let es := fold_left protect PROTECTED_METADATA_PATH_NAMES es in
  restricted (fold_left (λ es r, append_default_read_only_paths es
                           (default_read_only_subpaths_for_writable_root r false))
                writable_roots es).

(** ** The legacy policy *)

Inductive SandboxPolicy :=
| DangerFullAccess
| ReadOnly (network_access : bool)
| External (network_access : NetworkSandboxPolicy)
| WorkspaceWrite (writable_roots : list str) (network_access : bool)
    (exclude_tmpdir_env_var exclude_slash_tmp : bool).

(** [impl From<&SandboxPolicy> for FileSystemSandboxPolicy] *)
Definition from_sandbox_policy (sp : SandboxPolicy) : FileSystemSandboxPolicy :=
  match sp with
  | DangerFullAccess => unrestricted
  | External _ => external_sandbox
  | ReadOnly _ => restricted [mkEntry (Special Root) Read]
  | WorkspaceWrite roots _ ex_tmpdir ex_slash => workspace_write roots ex_tmpdir ex_slash
  end.

Definition from_legacy_sandbox_policy_for_cwd (sp : SandboxPolicy) (cwd : str)
    : FileSystemSandboxPolicy :=
  let p := from_sandbox_policy sp in
  match sp with
  | WorkspaceWrite roots _ _ _ =>
      let es := match absolute_path cwd with
                | Some c => append_default_read_only_paths (entries p)
                              (default_read_only_subpaths_for_writable_root c true)
                | None => entries p
                end in
      mkPolicy (kind p) (glob_scan_max_depth p)
        (fold_left (λ es r, append_default_read_only_paths es
                      (default_read_only_subpaths_for_writable_root r false)) roots es)
  | _ => p
  end.

Definition from_legacy_sandbox_policy_preserving_deny_entries (sp : SandboxPolicy) (cwd : str)
    (existing : FileSystemSandboxPolicy) : FileSystemSandboxPolicy :=
  let rebuilt := from_legacy_sandbox_policy_for_cwd sp cwd in
  if negb (is_restricted rebuilt) then rebuilt
  else mkPolicy (kind rebuilt) (glob_scan_max_depth existing)
         (push_missing (entries rebuilt) (deny_entries existing)).

(** The accumulators of the loop of [to_legacy_sandbox_policy]. *)
Record LegacyScan := {
  workspace_root_writable : bool;
  legacy_writable_roots : list str;
  tmpdir_writable : bool;
  slash_tmp_writable : bool;
  unbridgeable_root_write : bool }.

Definition scan_start : LegacyScan :=
  {| workspace_root_writable := false; legacy_writable_roots := []; tmpdir_writable := false;
     slash_tmp_writable := false; unbridgeable_root_write := false |}.

Definition scan_workspace (a : LegacyScan) : LegacyScan :=
  {| workspace_root_writable := true; legacy_writable_roots := legacy_writable_roots a;
     tmpdir_writable := tmpdir_writable a; slash_tmp_writable := slash_tmp_writable a;
     unbridgeable_root_write := unbridgeable_root_write a |}.
Definition scan_root (r : str) (a : LegacyScan) : LegacyScan :=
  {| workspace_root_writable := workspace_root_writable a;
     legacy_writable_roots := legacy_writable_roots a ++ [r];
     tmpdir_writable := tmpdir_writable a; slash_tmp_writable := slash_tmp_writable a;
     unbridgeable_root_write := unbridgeable_root_write a |}.

Definition scan_entry (cwd : option str) (a : LegacyScan) (e : FileSystemSandboxEntry) : LegacyScan :=
  match entry_path e with
  | GlobPattern _ => a
  | Path p =>
      if can_write (access e) then
        if match cwd with Some c => path_eq c p | None => false end
        then scan_workspace a else scan_root p a
      else a
  | Special v =>
      match v with
      | Root =>
          match access e with
          | Write =>
              {| workspace_root_writable := workspace_root_writable a;
                 legacy_writable_roots := legacy_writable_roots a;
                 tmpdir_writable := tmpdir_writable a; slash_tmp_writable := slash_tmp_writable a;
                 unbridgeable_root_write := true |}
          | _ => a
          end
      | Minimal | Unknown _ _ => a
      | ProjectRoots subpath =>
          if negb (opt_is_some subpath) && can_write (access e) then scan_workspace a
          else match resolve_file_system_special_path v cwd with
               | Some p => if can_write (access e) then scan_root p a else a
               | None => a
               end
      | Tmpdir =>
          if can_write (access e) then
            {| workspace_root_writable := workspace_root_writable a;
               legacy_writable_roots := legacy_writable_roots a;
               tmpdir_writable := true; slash_tmp_writable := slash_tmp_writable a;
               unbridgeable_root_write := unbridgeable_root_write a |}
          else a
      | SlashTmp =>
          if can_write (access e) then
            {| workspace_root_writable := workspace_root_writable a;
               legacy_writable_roots := legacy_writable_roots a;
               tmpdir_writable := tmpdir_writable a; slash_tmp_writable := true;
               unbridgeable_root_write := unbridgeable_root_write a |}
          else a
      end
  end.

Definition to_legacy_sandbox_policy (p : FileSystemSandboxPolicy) (network : NetworkSandboxPolicy)
    (cwd : str) : result str SandboxPolicy :=
  let full := if net_is_enabled network then DangerFullAccess else External NetRestricted in
  match kind p with
  | ExternalSandbox => Ok (External (if net_is_enabled network then NetEnabled else NetRestricted))
  | Unrestricted => Ok full
  | Restricted =>
      let a := fold_left (scan_entry (absolute_path cwd)) (entries p) scan_start in
      if has_full_disk_write_access p then Ok full
      else if workspace_root_writable a then
        Ok (WorkspaceWrite (dedup_absolute_paths (legacy_writable_roots a)) (net_is_enabled network)
              (negb (tmpdir_writable a)) (negb (slash_tmp_writable a)))
      else if unbridgeable_root_write a || negb (is_empty (legacy_writable_roots a))
              || tmpdir_writable a || slash_tmp_writable a then
        Err (lit "permissions profile requests filesystem writes outside the workspace root, which is not supported until the runtime enforces FileSystemSandboxPolicy directly")
      else Ok (ReadOnly (net_is_enabled network))
  end.
End Resolution.

(** ** Permission profiles (protocol/src/models.rs) and approval *)

Inductive ManagedFileSystemPermissions :=
| ManagedRestricted (entries : list FileSystemSandboxEntry) (glob_scan_max_depth : option nat)
| ManagedUnrestricted.

Definition to_sandbox_policy (m : ManagedFileSystemPermissions) : FileSystemSandboxPolicy :=
  match m with
  | ManagedRestricted es depth => mkPolicy Restricted depth es
  | ManagedUnrestricted => unrestricted
  end.

Inductive PermissionProfile :=
| ProfileManaged (file_system : ManagedFileSystemPermissions) (network : NetworkSandboxPolicy)
| ProfileDisabled
| ProfileExternal (network : NetworkSandboxPolicy).

Definition file_system_sandbox_policy (p : PermissionProfile) : FileSystemSandboxPolicy :=
  match p with
  | ProfileManaged fs _ => to_sandbox_policy fs
  | ProfileDisabled => unrestricted
  | ProfileExternal _ => external_sandbox
  end.

(** [AskForApproval]; the fine-grained configuration is five switches. *)
Inductive AskForApproval :=
| UnlessTrusted | OnFailure | OnRequest
| Granular (sandbox_approval rules skill_approval request_permissions mcp_elicitations : bool)
| Never.

(** ** Precedence *)

Lemma precedence_le_spec a b :
  precedence_le a b = true ↔ a.1 < b.1 ∨ a.1 = b.1 ∧ a.2 ≤ b.2.
Proof.
  unfold precedence_le. rewrite orb_true_iff, andb_true_iff, Nat.ltb_lt, Nat.eqb_eq, Nat.leb_le. done.
Qed.

Lemma precedence_le_refl a : precedence_le a a = true.
Proof. apply precedence_le_spec. lia. Qed.
Lemma precedence_le_trans a b c :
  precedence_le a b = true → precedence_le b c = true → precedence_le a c = true.
Proof. rewrite !precedence_le_spec. lia. Qed.
Lemma precedence_le_flip a b : precedence_le a b = false → precedence_le b a = true.
Proof.
  intros H. apply precedence_le_spec. apply not_true_iff_false in H. rewrite precedence_le_spec in H. lia.
Qed.

Section MaxByKey.
Context {A : Type} (key : A → nat * nat).

Definition max_of (l : list A) (a : A) : Prop :=
  a ∈ l ∧ ∀ b, b ∈ l → precedence_le (key b) (key a) = true.

Lemma max_by_key_snoc l a :
  max_by_key key (l ++ [a])
  = match max_by_key key l with
    | None => Some a
    | Some b => if precedence_le (key b) (key a) then Some a else Some b
    end.
Proof. unfold max_by_key. by rewrite fold_left_app. Qed.

Lemma max_by_key_spec l :
  match max_by_key key l with Some a => max_of l a | None => l = [] end.
Proof.
  induction l as [|a l IH] using rev_ind; [done|]. rewrite max_by_key_snoc.
  destruct (max_by_key key l) as [b|].
  - destruct IH as [Hb Hmax]. destruct (precedence_le (key b) (key a)) eqn:Hle.
    + split; [set_solver|]. intros c [Hc| ->%list_elem_of_singleton]%elem_of_app;
        [|apply precedence_le_refl]. eauto using precedence_le_trans.
    + split; [set_solver|]. intros c [Hc| ->%list_elem_of_singleton]%elem_of_app;
        [by auto|by apply precedence_le_flip].
  - subst l. split; [by left|]. intros c ->%list_elem_of_singleton. apply precedence_le_refl.
Qed.

Lemma max_of_key l a b : max_of l a → max_of l b → key a = key b.
Proof.
  intros [Ha Hma] [Hb Hmb]. specialize (Hma _ Hb). specialize (Hmb _ Ha).
  rewrite precedence_le_spec in *. destruct (key a), (key b); simpl in *. f_equal; lia.
Qed.

Lemma max_of_perm l l' a : l ≡ₚ l' → max_of l a → max_of l' a.
Proof. intros Hp. unfold max_of. by setoid_rewrite Hp. Qed.
End MaxByKey.

Lemma access_rank_inj a b : access_rank a = access_rank b → a = b.
Proof. by destruct a, b. Qed.

Section Access.
Context `{W : PermWorld}.

Definition matching (p : FileSystemSandboxPolicy) (target cwd : str) : list ResolvedFileSystemEntry :=
  List.filter (λ e, path_starts_with (resolved_path e) target) (resolved_entries_with_cwd p cwd).

Lemma matching_elem p target cwd e :
  e ∈ matching p target cwd ↔
    e ∈ resolved_entries_with_cwd p cwd ∧ path_starts_with (resolved_path e) target = true.
Proof. unfold matching. by rewrite !list_elem_of_In, filter_In. Qed.

Lemma resolved_elem p cwd e :
  e ∈ resolved_entries_with_cwd p cwd ↔
    ∃ en q, en ∈ entries p ∧ resolve_entry_path (entry_path en) (absolute_path cwd) = Some q
            ∧ e = {| resolved_path := q; resolved_access := access en |}.
Proof.
  unfold resolved_entries_with_cwd. rewrite list_elem_of_omap. setoid_rewrite fmap_Some. naive_solver.
Qed.

(** The effective access is that of any maximal matching entry. *)
Lemma resolve_access_max p path cwd target e :
  kind p = Restricted → resolve_candidate_path path cwd = Some target →
  max_of resolved_entry_precedence (matching p target cwd) e →
  resolve_access_with_cwd p path cwd = resolved_access e.
Proof.
  intros Hk Ht He. unfold resolve_access_with_cwd. rewrite Hk, Ht. fold (matching p target cwd).
  pose proof (max_by_key_spec resolved_entry_precedence (matching p target cwd)) as Hm.
  destruct (max_by_key _ _) as [b|]; simpl.
  - pose proof (max_of_key _ _ _ _ Hm He) as Hkey. unfold resolved_entry_precedence in Hkey.
    apply access_rank_inj. congruence.
  - destruct He as [He _]. rewrite Hm in He. by apply not_elem_of_nil in He.
Qed.

Lemma resolve_access_cases p path cwd target :
  kind p = Restricted → resolve_candidate_path path cwd = Some target →
  matching p target cwd = [] ∧ resolve_access_with_cwd p path cwd = Deny
  ∨ ∃ e, max_of resolved_entry_precedence (matching p target cwd) e
         ∧ resolve_access_with_cwd p path cwd = resolved_access e.
Proof.
  intros Hk Ht. pose proof (max_by_key_spec resolved_entry_precedence (matching p target cwd)) as Hm.
  destruct (max_by_key _ _) as [b|] eqn:Hb.
  - right. exists b. split; [done|]. by eapply resolve_access_max.
  - left. split; [done|]. unfold resolve_access_with_cwd. rewrite Hk, Ht.
    fold (matching p target cwd). by rewrite Hb.
Qed.

(** An entry that covers a target and beats every other one decides. *)
Lemma resolve_access_by p path cwd target e :
  kind p = Restricted → resolve_candidate_path path cwd = Some target →
  e ∈ matching p target cwd →
  (∀ e', e' ∈ matching p target cwd →
     precedence_le (resolved_entry_precedence e') (resolved_entry_precedence e) = true) →
  resolve_access_with_cwd p path cwd = resolved_access e.
Proof. intros. eapply resolve_access_max; try done. Qed.
End Access.

(** [std::env::current_dir()] is an absolute path. *)
Class PermWorldLaws `{W : PermWorld} : Prop :=
  current_dir_absolute : ∀ c, perm_current_dir = Ok c → path_is_absolute c = true.

(** Subpaths of project roots as configuration spells them: no empty, [.] or
    [..] segment. *)
Definition normal_subpath (sub : str) : Prop :=
  ∃ segs, segs ≠ [] ∧ Forall plain segs ∧ sub = join [slash] segs.

(** The type invariant of a policy: [Path] entries hold [AbsolutePathBuf]s. *)
Definition entry_wf (e : FileSystemSandboxEntry) : Prop :=
  match entry_path e with
  | Path p => abs_normal p
  | Special (ProjectRoots (Some sub)) => normal_subpath sub
  | _ => True
  end.
Definition policy_wf (p : FileSystemSandboxPolicy) : Prop := Forall entry_wf (entries p).

Lemma components_join segs : segs ≠ [] → Forall plain segs → components (join [slash] segs) = Normal <$> segs.
Proof.
  intros Hne Hp. destruct segs as [|s segs]; [done|]. pose proof Hp as [(He & Hs & Hd & Hdd) Hps]%Forall_cons.
  unfold components. assert (path_is_absolute (join [slash] (s :: segs)) = false) as ->.
  { apply not_true_is_false. intros [r Hr]%path_is_absolute_true. destruct s as [|c s]; [done|].
    destruct segs; simpl in Hr; injection Hr as -> _; apply Hs; by left. }
  rewrite split_join; [|done|by eapply Forall_impl; [exact Hp|intros ? (_ & ? & _)]].
  rewrite (proj2 (str_eqb_false s dot)) by done.
  rewrite component_of_plain, omap_component_plain; done.
Qed.

Lemma normal_subpath_eq l r : normal_subpath l → normal_subpath r → path_eq l r = true → l = r.
Proof.
  intros (a & Ha & Hpa & ->) (b & Hb & Hpb & ->) H. unfold path_eq in H. apply bool_decide_eq_true in H.
  rewrite !components_join in H by done. apply (f_equal (omap component_name)) in H.
  rewrite !omap_normal_names in H. by subst.
Qed.

Section FullDisk.
Context `{L : PermWorldLaws}.

Lemma absolute_path_normal_form q t : absolute_path q = Some t → abs_normal t.
Proof.
  unfold absolute_path, from_absolute_path, absolutize.
  destruct (path_is_absolute _) eqn:Ha; simpl.
  - intros [= <-]. rewrite normalize_path_abs by done. eexists. split; [|done]. apply walk_plain. constructor.
  - destruct perm_current_dir as [c|] eqn:Hc; simpl; [|done]. intros [= <-].
    apply absolutize_from_normal. by apply current_dir_absolute.
Qed.

Lemma candidate_normal path cwd t : resolve_candidate_path path cwd = Some t → abs_normal t.
Proof.
  unfold resolve_candidate_path. destruct (path_is_absolute path); [apply absolute_path_normal_form|].
  intros (c & Hc & [= <-])%bind_Some. apply absolute_path_normal_form in Hc as (st & _ & ->).
  apply absolutize_from_normal, abs_string_absolute.
Qed.

Lemma root_components : components [slash] = [RootDir].
Proof. by vm_compute. Qed.

Lemma root_covers t : abs_normal t → path_starts_with [slash] t = true.
Proof.
  intros (st & Hst & ->). apply path_starts_with_true. rewrite components_abs_string by done.
  rewrite root_components. by eexists.
Qed.

Lemma no_parent_root p : abs_normal p → has_no_parent p = true → components p = [RootDir].
Proof.
  intros (st & Hst & ->). unfold has_no_parent. rewrite components_abs_string by done.
  destruct st as [|s st]; [done|]. rewrite reverse_cons, fmap_app. simpl.
  change (RootDir :: ?l ++ [Normal s]) with ((RootDir :: l) ++ [Normal s]). by rewrite last_snoc.
Qed.

(** A resolved entry and a write entry for the same target resolve alike. *)
Lemma share_target_resolves c e cwd q :
  entry_wf c → entry_wf e → is_Some cwd → is_dir (lit "/tmp") = true →
  file_system_paths_share_target (entry_path c) (entry_path e) = true →
  resolve_entry_path (entry_path e) cwd = Some q →
  ∃ q', resolve_entry_path (entry_path c) cwd = Some q' ∧ components q' = components q.
Proof.
  intros Hc He [d ->] Htmp Hs Hq. unfold entry_wf in *.
  assert (absolute_path (lit "/tmp") = Some (lit "/tmp")) as Ht.
  { unfold absolute_path, from_absolute_path. rewrite expand_no_tilde by by_compute. by vm_compute. }
  destruct (entry_path c) as [pc|gc|vc], (entry_path e) as [pe|ge|ve]; try done; simpl in Hs.
  - simplify_eq/=. unfold path_eq in Hs. apply bool_decide_eq_true in Hs. eauto.
  - destruct ve; try done; simpl in *.
    + injection Hq as <-. exists pc. split; [done|].
      rewrite (no_parent_root _ Hc Hs). symmetry. apply root_components.
    + rewrite Ht in Hq. simpl in Hq. rewrite Htmp in Hq. injection Hq as <-.
      unfold path_eq in Hs. apply bool_decide_eq_true in Hs. eauto.
  - destruct vc; try done; simpl in *; simplify_eq.
    + eexists. split; [done|]. rewrite (no_parent_root _ He Hs). apply root_components.
    + rewrite Ht. simpl. rewrite Htmp. unfold path_eq in Hs. apply bool_decide_eq_true in Hs. eauto.
  - destruct vc as [| |[l|]| | |], ve as [| |[r|]| | |]; try done; simpl in *; eauto.
    apply normal_subpath_eq in Hs as ->; [eauto|done|done].
Qed.

Context (p : FileSystemSandboxPolicy) (cwd c : str).
Hypothesis Hwf : policy_wf p.
Hypothesis Hcwd : absolute_path cwd = Some c.
Hypothesis Hrestricted : kind p = Restricted.

Lemma root_entry_matches f target :
  has_root_access p f = true → abs_normal target →
  ∃ a, f a = true ∧ {| resolved_path := [slash]; resolved_access := a |} ∈ matching p target cwd.
Proof.
  unfold has_root_access. intros [_ (e & He & Hf)%any_true]%andb_true_iff Ht.
  destruct (entry_path e) as [| |[]] eqn:Hp; try done. exists (access e). split; [done|].
  apply matching_elem. split; [|by apply root_covers]. apply resolved_elem.
  exists e, [slash]. by rewrite Hp, Hcwd.
Qed.

(** Under full-disk write access no matching entry is above every write entry. *)
Lemma write_beats_narrow target e :
  is_dir (lit "/tmp") = true → has_full_disk_write_access p = true → abs_normal target →
  max_of resolved_entry_precedence (matching p target cwd) e → resolved_access e = Write.
Proof.
  intros Htmp Hfull Ht [He Hmax]. unfold has_full_disk_write_access in Hfull. rewrite Hrestricted in Hfull.
  apply andb_true_iff in Hfull as [Hroot Hnarrow%negb_true_iff].
  destruct (root_entry_matches _ target Hroot Ht) as (a & Ha & Hr). destruct a; try done.
  apply matching_elem in He as [He Hcov]. apply resolved_elem in He as (en & q & Hen & Hq & ->).
  simpl in *. destruct (can_write (access en)) eqn:Hw; [by destruct (access en)|]. exfalso.
  assert (∀ q', components q' = components q →
    {| resolved_path := q'; resolved_access := Write |} ∈ resolved_entries_with_cwd p cwd →
    access en = Read → False) as Hbeat.
  { intros q' Hc Hin Hre.
    assert ({| resolved_path := q'; resolved_access := Write |} ∈ matching p target cwd) as Hm.
    { apply matching_elem. split; [done|]. apply path_starts_with_true. simpl. rewrite Hc.
      by apply path_starts_with_true. }
    apply Hmax in Hm. rewrite precedence_le_spec in Hm. simpl in Hm. rewrite Hc, Hre in Hm. simpl in Hm. lia. }
  unfold has_write_narrowing_entries, is_restricted in Hnarrow. rewrite Hrestricted in Hnarrow. simpl in Hnarrow.
  rewrite any_false in Hnarrow. specialize (Hnarrow _ Hen). unfold narrows_write in Hnarrow. rewrite Hw in Hnarrow.
  assert (has_same_target_write_override p en = true → False) as Hover.
  { intros (cd & Hcd & Hcond)%any_true.
    apply andb_true_iff in Hcond as [[Hcw Hrank%Nat.ltb_lt]%andb_true_iff Hshare].
    unfold policy_wf in Hwf. rewrite Forall_forall in Hwf.
    destruct (share_target_resolves cd en (Some c) q) as (q' & Hq' & Hcomp); try done;
      [by apply Hwf|by apply Hwf|by rewrite <-Hcwd|].
    apply (Hbeat q' Hcomp); [|by destruct (access cd), (access en); simpl in *; try done; lia].
    apply resolved_elem. exists cd, q'. rewrite Hcwd. by destruct (access cd). }
  destruct (entry_path en) as [pe|ge|v] eqn:Hp; [by apply negb_false_iff in Hnarrow; auto|done|].
  destruct v; try done; try (by apply negb_false_iff in Hnarrow; auto).
  apply bool_decide_eq_false in Hnarrow. rewrite Hcwd in Hq. simpl in Hq. injection Hq as <-.
  apply matching_elem in Hr as [Hr _]. apply (Hbeat _ eq_refl Hr). by destruct (access en).
Qed.

Lemma full_disk_write_writes path target :
  resolve_candidate_path path cwd = Some target →
  is_dir (lit "/tmp") = true → has_full_disk_write_access p = true →
  can_write_path_with_cwd p path cwd = true.
Proof.
  intros Ht Htmp Hfull. pose proof (candidate_normal _ _ _ Ht) as Hn.
  unfold can_write_path_with_cwd. rewrite Hfull.
  destruct (resolve_access_cases p path cwd target Hrestricted Ht) as [[Hm _]|(e & He & ->)].
  - exfalso. unfold has_full_disk_write_access in Hfull. rewrite Hrestricted in Hfull.
    apply andb_true_iff in Hfull as [Hroot _].
    destruct (root_entry_matches _ target Hroot Hn) as (a & _ & Hr).
    rewrite Hm in Hr. by apply not_elem_of_nil in Hr.
  - by rewrite (write_beats_narrow target e Htmp Hfull Hn He).
Qed.
End FullDisk.

(** ** Keeping deny entries *)

Lemma entry_eq_refl e : entry_eq e e = true.
Proof.
  assert (∀ s, subpath_eq s s = true) as Hs.
  { intros [s|]; [|done]. unfold subpath_eq, path_eq. by rewrite bool_decide_true. }
  unfold entry_eq. rewrite (bool_decide_true (access e = access e)), andb_true_r by done.
  destruct (entry_path e) as [p|g|v]; simpl; [unfold path_eq; by rewrite bool_decide_true|apply str_eqb_refl|].
  destruct v; simpl; rewrite ?str_eqb_refl, ?Hs; done.
Qed.

Lemma push_missing_cons es e new :
  push_missing es (e :: new) = push_missing (if any (λ x, entry_eq x e) es then es else es ++ [e]) new.
Proof. done. Qed.

Lemma push_missing_keeps es new e : e ∈ es → e ∈ push_missing es new.
Proof.
  revert es; induction new as [|n new IH]; intros es He; [done|]. rewrite push_missing_cons. apply IH.
  destruct (any _ es); set_solver.
Qed.

Lemma push_missing_adds es new e :
  e ∈ new → ∃ e', e' ∈ push_missing es new ∧ entry_eq e' e = true.
Proof.
  revert es; induction new as [|n new IH]; intros es; [by intros ?%not_elem_of_nil|].
  rewrite push_missing_cons. intros [->|He]%elem_of_cons; [|by apply IH].
  destruct (any (λ x, entry_eq x n) es) eqn:Ha.
  - apply any_true in Ha as (x & Hx & Heq). exists x. split; [by apply push_missing_keeps|done].
  - exists n. split; [apply push_missing_keeps; set_solver|apply entry_eq_refl].
Qed.

Lemma preserve_entries self existing e :
  kind self ≠ ExternalSandbox → e ∈ entries existing → access e = Deny →
  kind (preserve_deny_read_restrictions_from self existing) = Restricted
  ∧ ∃ e', e' ∈ entries (preserve_deny_read_restrictions_from self existing) ∧ entry_eq e' e = true.
Proof.
  intros Hk He Ha. unfold preserve_deny_read_restrictions_from.
  assert (any (λ e, bool_decide (access e = Deny)) (entries existing) = true) as ->.
  { apply any_true. exists e. by rewrite bool_decide_true. }
  assert (e ∈ deny_entries existing) as Hd.
  { unfold deny_entries. apply list_elem_of_In, filter_In. rewrite <-list_elem_of_In.
    by rewrite bool_decide_true. }
  destruct (kind self) eqn:Hs; [| |done].
  - unfold is_restricted. rewrite Hs. simpl. split; [done|]. by apply push_missing_adds.
  - simpl. split; [done|]. by apply push_missing_adds.
Qed.

Section DenyAt.
Context `{L : PermWorldLaws}.

Lemma absolute_path_fixed q : abs_normal q → absolute_path q = Some q.
Proof.
  intros (st & Hst & ->). unfold absolute_path, from_absolute_path, absolutize.
  rewrite expand_no_tilde by (by vm_compute). rewrite abs_string_absolute.
  by rewrite normalize_path_abs, walk_abs_string by (apply abs_string_absolute || done).
Qed.

Lemma candidate_fixed q cwd : abs_normal q → resolve_candidate_path q cwd = Some q.
Proof.
  intros Hq. unfold resolve_candidate_path.
  assert (path_is_absolute q = true) as -> by (destruct Hq as (st & _ & ->); apply abs_string_absolute).
  by apply absolute_path_fixed.
Qed.

(** A deny entry for a path denies that path whatever the other entries. *)
Lemma deny_entry_denies p e q' q cwd :
  kind p = Restricted → e ∈ entries p → entry_path e = Path q' → access e = Deny →
  components q' = components q → abs_normal q →
  resolve_access_with_cwd p q cwd = Deny.
Proof.
  intros Hk He Hp Ha Hc Hq.
  apply (resolve_access_by p q cwd q {| resolved_path := q'; resolved_access := Deny |});
    [done|by apply candidate_fixed| |].
  - apply matching_elem. split; [|apply path_starts_with_true; simpl; rewrite Hc; exists []; by rewrite app_nil_r].
    apply resolved_elem. exists e, q'. by rewrite Hp, Ha.
  - intros e' [_ Hcov]%matching_elem. apply path_starts_with_true in Hcov as [r Hr].
    apply precedence_le_spec. simpl. rewrite Hc, Hr, length_app.
    destruct (resolved_access e'); simpl; lia.
Qed.
End DenyAt.

(** ** Properties of access resolution *)

Section AccessProperties.
Context `{L : PermWorldLaws}.

(** C12: the precedence rule.  Under a restricted policy a path no entry covers is
    denied; otherwise it gets the access of a covering entry that no other covering
    entry beats, a longer path winning and, at equal length, deny over write over
    read.  The result depends only on which entries the policy has, not on their
    order or repetition. *)
Theorem resolve_access_precedence p path cwd target :
  kind p = Restricted → resolve_candidate_path path cwd = Some target →
  (matching p target cwd = [] ∧ resolve_access_with_cwd p path cwd = Deny
   ∨ ∃ e, e ∈ matching p target cwd ∧ resolve_access_with_cwd p path cwd = resolved_access e
       ∧ ∀ e', e' ∈ matching p target cwd →
           let n e := length (components (resolved_path e)) in
           n e' < n e
           ∨ n e' = n e ∧ access_rank (resolved_access e') ≤ access_rank (resolved_access e))
  ∧ ∀ p', kind p' = Restricted → (∀ e, e ∈ entries p' ↔ e ∈ entries p) →
      resolve_access_with_cwd p' path cwd = resolve_access_with_cwd p path cwd.
Proof.
  intros Hk Ht. split.
  - destruct (resolve_access_cases p path cwd target Hk Ht) as [?|(e & [He Hmax] & Hres)]; [by left|].
    right. exists e. split; [done|]. split; [done|]. intros e' He'. exact (proj1 (precedence_le_spec _ _) (Hmax _ He')).
  - intros p' Hk' Hent.
    assert (∀ e, e ∈ matching p' target cwd ↔ e ∈ matching p target cwd) as Hm.
    { intros e. rewrite !matching_elem, !resolved_elem. by setoid_rewrite Hent. }
    destruct (resolve_access_cases p path cwd target Hk Ht) as [[Hn ->]|(e & [He Hmax] & ->)].
    + destruct (resolve_access_cases p' path cwd target Hk' Ht) as [[_ ?]|(e & [He _] & _)]; [done|].
      exfalso. apply Hm in He. rewrite Hn in He. by apply not_elem_of_nil in He.
    + apply (resolve_access_by p' path cwd target); [done|done|by apply Hm|].
      intros e' He'. by apply Hmax, Hm.
Qed.

(** full-disk access means what it says.  For a well-formed policy and any
    path the host can resolve: if the policy reports full-disk read access, the path
    can be read; if it reports full-disk write access (and [/tmp] is a directory), the
    path can be written. *)
Theorem full_disk_access_sound p path cwd :
  policy_wf p → is_Some (absolute_path cwd) → is_Some (resolve_candidate_path path cwd) →
  (has_full_disk_read_access p = true → can_read_path_with_cwd p path cwd = true)
  ∧ (is_dir (lit "/tmp") = true → has_full_disk_write_access p = true →
     can_write_path_with_cwd p path cwd = true).
Proof.
  intros Hwf [c Hc] [t Ht]. pose proof (candidate_normal _ _ _ Ht) as Hn. split.
  - intros Hfull. unfold can_read_path_with_cwd. destruct (kind p) eqn:Hk;
      [|unfold resolve_access_with_cwd; by rewrite Hk..].
    unfold has_full_disk_read_access in Hfull. rewrite Hk in Hfull.
    apply andb_true_iff in Hfull as [Hroot Hdeny%negb_true_iff].
    destruct (root_entry_matches p cwd c Hc _ t Hroot Hn) as (a & _ & Hr).
    destruct (resolve_access_cases p path cwd t Hk Ht) as [[Hm _]|(e & [He _] & ->)].
    { rewrite Hm in Hr. by apply not_elem_of_nil in Hr. }
    apply matching_elem in He as [(en & q & Hen & _ & ->)%resolved_elem _]. simpl.
    unfold has_denied_read_restrictions, is_restricted in Hdeny. rewrite Hk in Hdeny. simpl in Hdeny.
    rewrite any_false in Hdeny. specialize (Hdeny _ Hen). apply bool_decide_eq_false in Hdeny.
    by destruct (access en).
  - intros Htmp Hfull. destruct (kind p) eqn:Hk; [by eapply full_disk_write_writes|..];
      unfold can_write_path_with_cwd, resolve_access_with_cwd; by rewrite Hk, Hfull.
Qed.

(** workspace metadata is protected.  If a restricted policy without
    full-disk write access lets a path be written, and the path lies in the [.git],
    [.agents] or [.codex] of a writable root, then some write entry that covers the
    path is itself inside such a metadata directory of a writable root: the grant on
    the root alone never reaches its metadata. *)
Theorem metadata_write_needs_entry p path cwd target root name rest :
  can_write_path_with_cwd p path cwd = true →
  kind p = Restricted → has_full_disk_write_access p = false →
  resolve_candidate_path path cwd = Some target →
  root ∈ resolved_entries_with_cwd p cwd → can_write (resolved_access root) = true →
  is_protected_metadata_name name = true →
  components target = components (resolved_path root) ++ Normal name :: rest →
  ∃ w root' name', w ∈ resolved_entries_with_cwd p cwd ∧ resolved_access w = Write
    ∧ path_starts_with (resolved_path w) target = true
    ∧ root' ∈ resolved_entries_with_cwd p cwd ∧ resolved_access root' = Write
    ∧ name' ∈ PROTECTED_METADATA_PATH_NAMES
    ∧ path_starts_with (abs_join perm_home (resolved_path root') name') (resolved_path w) = true.
Proof.
  intros Hw Hk Hfull Ht Hroot Hrw Hname Hcomp.
  assert (is_Some (metadata_child target root)) as Hchild.
  { unfold metadata_child, path_strip_prefix.
    rewrite (proj2 (strip_components_Some _ _ _) Hcomp). simpl.
    unfold is_protected_metadata_name in Hname. unfold metadata_path_name.
    destruct (find _ _) as [m|] eqn:Hf; [by eexists|]. rewrite find_None in Hf.
    apply any_true in Hname as (m & Hm & Heq). by rewrite Hf in Heq. }
  unfold can_write_path_with_cwd in Hw. rewrite Hfull in Hw.
  destruct (negb _) eqn:?; [done|]. apply negb_true_iff in Hw.
  unfold is_metadata_write_denied, is_restricted in Hw. rewrite Hk, Ht in Hw. simpl in Hw.
  destruct (metadata_child_of_writable_root p target cwd) as [[mp m]|] eqn:Hmc.
  - apply negb_false_iff, any_true in Hw as (w & Hwin & Hcond).
    apply andb_true_iff in Hcond as [[Hww Hcov]%andb_true_iff Hin].
    apply find_map_Some in Hmc as (root' & Hr' & Hch).
    apply list_elem_of_In, filter_In in Hr' as [Hr' Hrw'].
    unfold metadata_child in Hch. apply bind_Some in Hch as (r & _ & Hch).
    apply bind_Some in Hch as (f & _ & Hch). apply bind_Some in Hch as (n & _ & Hch).
    apply bind_Some in Hch as (m' & Hm' & [= <- <-]). apply find_Some in Hm' as [Hm' _].
    exists w, root', m'. split; [done|]. split; [by destruct (resolved_access w)|]. split; [done|].
    split; [by apply list_elem_of_In|]. split; [by destruct (resolved_access root')|]. done.
  - exfalso. unfold metadata_child_of_writable_root in Hmc. rewrite find_map_None in Hmc.
    destruct Hchild as [x Hx]. rewrite Hmc in Hx; [done|].
    apply list_elem_of_In, filter_In. rewrite <-list_elem_of_In. done.
Qed.

(** denied paths stay denied when the allow side of a policy is replaced.
    After [preserve_deny_read_restrictions_from], every path an existing deny entry
    names cannot be read, whatever the new policy grants (unless an external sandbox is
    in charge); an unrestricted policy becomes a restricted one for this. *)
Theorem preserve_deny_denies self existing q cwd :
  kind self ≠ ExternalSandbox → mkEntry (Path q) Deny ∈ entries existing → abs_normal q →
  let p := preserve_deny_read_restrictions_from self existing in
  kind p = Restricted ∧ can_read_path_with_cwd p q cwd = false
  ∧ can_write_path_with_cwd p q cwd = false.
Proof.
  intros Hk He Hq. cbn zeta. destruct (preserve_entries self existing _ Hk He eq_refl) as (Hkp & e' & Hin & Heq).
  unfold entry_eq in Heq. apply andb_true_iff in Heq as [Hp Ha%bool_decide_eq_true]. simpl in Hp, Ha.
  destruct (entry_path e') as [q'| |] eqn:Hpath; try done. simpl in Hp. unfold path_eq in Hp.
  apply bool_decide_eq_true in Hp.
  pose proof (deny_entry_denies _ e' q' q cwd Hkp Hin Hpath Ha Hp Hq) as Hd.
  unfold can_read_path_with_cwd, can_write_path_with_cwd. by rewrite Hd.
Qed.
End AccessProperties.

(** ** A concrete host *)

Definition demo_perm_world : PermWorld :=
  {| perm_home := Some (lit "/home/u"); perm_current_dir := Ok (lit "/work"); tmpdir_var := None;
     is_dir := λ p, p == lit "/tmp"; is_regular_file := λ _, false; path_exists := λ _, false;
     read_file := λ _, None |}.
Lemma demo_perm_laws : PermWorldLaws (W := demo_perm_world).
Proof. intros c [= <-]. vm_compute. reflexivity. Qed.

(** Read everything, write [/work], never [/work/.git/hooks]. *)
Definition demo_policy : FileSystemSandboxPolicy :=
  restricted [mkEntry (Special Root) Read; mkEntry (Path (lit "/work")) Write;
              mkEntry (Path (lit "/work/.git/hooks")) Deny; mkEntry (Path (lit "/work/.git")) Write].

Lemma demo_abs (p : str) (stack : list str) :
  forallb (λ s, negb (is_empty s) && negb (contains_char slash s) && negb (s == dot)
                && negb (s == dotdot)) stack = true →
  p = abs_string stack → abs_normal p.
Proof.
  intros H ->. exists stack. split; [|done]. apply Forall_forall. intros s Hs%list_elem_of_In.
  rewrite forallb_forall in H. specialize (H s Hs). rewrite !andb_true_iff, !negb_true_iff in H.
  destruct H as [[[?%is_empty_false ?%contains_char_false] ?%str_eqb_false] ?%str_eqb_false].
  done.
Qed.

Lemma demo_policy_wf : policy_wf demo_policy.
Proof.
  repeat constructor.
  - by apply (demo_abs _ [lit "work"]); vm_compute.
  - by apply (demo_abs _ [lit "hooks"; lit ".git"; lit "work"]); vm_compute.
  - by apply (demo_abs _ [lit ".git"; lit "work"]); vm_compute.
Qed.

Lemma resolve_access_precedence_witness :
  resolve_access_with_cwd (W := demo_perm_world)
    (restricted (reverse (entries demo_policy))) (lit "/work/.git/hooks/x") (lit "/work")
  = resolve_access_with_cwd (W := demo_perm_world) demo_policy (lit "/work/.git/hooks/x") (lit "/work").
Proof.
  apply (proj2 (resolve_access_precedence (W := demo_perm_world) demo_policy (lit "/work/.git/hooks/x")
    (lit "/work") (lit "/work/.git/hooks/x") eq_refl ltac:(vm_compute; reflexivity))).
  - reflexivity.
  - intros e. apply elem_of_reverse.
Defined.

Lemma full_disk_access_sound_witness :
  can_write_path_with_cwd (W := demo_perm_world) (restricted [mkEntry (Special Root) Write])
    (lit "/etc/passwd") (lit "/work") = true.
Proof.
  apply (full_disk_access_sound (W := demo_perm_world) (L := demo_perm_laws)
    (restricted [mkEntry (Special Root) Write]) (lit "/etc/passwd") (lit "/work")).
  - repeat constructor.
  - eexists. vm_compute. reflexivity.
  - eexists. vm_compute. reflexivity.
  - vm_compute. reflexivity.
  - reflexivity.
Defined.

(** Without a [/tmp] directory the report is wrong about it: a read entry for
    [/tmp] counts as overridden by the symbolic one, which does not resolve. *)
Example full_disk_write_without_tmp :
  let w := {| perm_home := None; perm_current_dir := Ok [slash]; tmpdir_var := None;
              is_dir := λ _, false; is_regular_file := λ _, false; path_exists := λ _, false;
              read_file := λ _, None |} in
  let p := restricted [mkEntry (Special Root) Write; mkEntry (Special SlashTmp) Write;
                       mkEntry (Path (lit "/tmp")) Read] in
  has_full_disk_write_access p = true
  ∧ can_write_path_with_cwd (W := w) p (lit "/tmp/x") [slash] = false.
Proof. by vm_compute. Qed.

Lemma metadata_write_needs_entry_witness :
  ∃ w root' name', w ∈ resolved_entries_with_cwd (W := demo_perm_world) demo_policy (lit "/work")
    ∧ resolved_access w = Write
    ∧ path_starts_with (resolved_path w) (lit "/work/.git/config") = true
    ∧ root' ∈ resolved_entries_with_cwd (W := demo_perm_world) demo_policy (lit "/work")
    ∧ resolved_access root' = Write ∧ name' ∈ PROTECTED_METADATA_PATH_NAMES
    ∧ path_starts_with (abs_join (Some (lit "/home/u")) (resolved_path root') name') (resolved_path w) = true.
Proof.
  apply (metadata_write_needs_entry (W := demo_perm_world) demo_policy (lit "/work/.git/config")
    (lit "/work") (lit "/work/.git/config") {| resolved_path := lit "/work"; resolved_access := Write |}
    (lit ".git") [Normal (lit "config")]); try (vm_compute; reflexivity).
  apply resolved_elem. exists (mkEntry (Path (lit "/work")) Write), (lit "/work").
  split; [|done]. apply list_elem_of_In. simpl. auto.
Defined.

(** The protection looks at the first writable root that has the path in its
    metadata, so it depends on the order of the entries: with [/a] first, the grant
    on [/a/.git] opens [/a/.git/.codex]; with [/a/.git] first, it does not. *)
Example metadata_protection_order :
  let e1 := mkEntry (Path (lit "/a")) Write in
  let e2 := mkEntry (Path (lit "/a/.git")) Write in
  can_write_path_with_cwd (W := demo_perm_world) (restricted [e1; e2]) (lit "/a/.git/.codex/x") [slash] = true
  ∧ can_write_path_with_cwd (W := demo_perm_world) (restricted [e2; e1]) (lit "/a/.git/.codex/x") [slash] = false.
Proof. by vm_compute. Qed.

Lemma preserve_deny_denies_witness :
  can_read_path_with_cwd (W := demo_perm_world)
    (preserve_deny_read_restrictions_from unrestricted demo_policy) (lit "/work/.git/hooks") (lit "/work")
  = false.
Proof.
  apply (preserve_deny_denies (W := demo_perm_world) unrestricted demo_policy
    (lit "/work/.git/hooks") (lit "/work")).
  - done.
  - apply list_elem_of_In. simpl. auto.
  - by apply (demo_abs _ [lit "hooks"; lit ".git"; lit "work"]); vm_compute.
Defined.

(** ** The workspace-write policy *)

Section Workspace.
Context `{L : PermWorldLaws}.

Definition plain_workspace : FileSystemSandboxPolicy :=
  restricted [mkEntry (Special Root) Read; mkEntry (Special (ProjectRoots None)) Write;
              mkEntry (Special (ProjectRoots (Some (lit ".git")))) Read;
              mkEntry (Special (ProjectRoots (Some (lit ".agents")))) Read;
              mkEntry (Special (ProjectRoots (Some (lit ".codex")))) Read].

Lemma workspace_write_plain : workspace_write [] true true = plain_workspace.
Proof. vm_compute. reflexivity. Qed.

Lemma metadata_name_plain name :
  name ∈ PROTECTED_METADATA_PATH_NAMES → plain name ∧ starts_with (lit "~") name = false.
Proof.
  assert (∀ n, (negb (is_empty n) && negb (contains_char slash n) && negb (n == dot)
    && negb (n == dotdot)) = true → plain n) as Hp.
  { intros n. rewrite !andb_true_iff, !negb_true_iff.
    intros [[[?%is_empty_false ?%contains_char_false] ?%str_eqb_false] ?%str_eqb_false]. done. }
  intros Hn. unfold PROTECTED_METADATA_PATH_NAMES in Hn.
  repeat (apply elem_of_cons in Hn as [->|Hn]; [split; [apply Hp; by vm_compute|by vm_compute]|]).
  by apply not_elem_of_nil in Hn.
Qed.

Context (cwd : str) (stack : list str) (Hst : Forall plain stack)
  (Hcwd : absolute_path cwd = Some (abs_string stack)).
Let root := abs_string stack.

Definition metadata_dir (name : str) : str := abs_join perm_home root name.

Lemma metadata_dir_eq name :
  name ∈ PROTECTED_METADATA_PATH_NAMES →
  metadata_dir name = abs_string (name :: stack)
  ∧ components (metadata_dir name) = components root ++ [Normal name].
Proof.
  intros [Hp Ht]%metadata_name_plain. assert (metadata_dir name = abs_string (name :: stack)) as Heq
    by (by apply abs_join_plain). split; [done|]. rewrite Heq. unfold root.
  rewrite !components_abs_string by (done || by constructor). rewrite reverse_cons, fmap_app. done.
Qed.

Lemma workspace_resolved e :
  e ∈ resolved_entries_with_cwd plain_workspace cwd ↔
    e = {| resolved_path := [slash]; resolved_access := Read |}
    ∨ e = {| resolved_path := root; resolved_access := Write |}
    ∨ ∃ name, name ∈ PROTECTED_METADATA_PATH_NAMES
              ∧ e = {| resolved_path := metadata_dir name; resolved_access := Read |}.
Proof.
  unfold resolved_entries_with_cwd. rewrite Hcwd. simpl. unfold PROTECTED_METADATA_PATH_NAMES.
  change (absolute_root_path_for_cwd _) with [slash]. fold root.
  change (resolve_path_against_base perm_home (lit ?n) root) with (metadata_dir (lit n)).
  rewrite !elem_of_cons. setoid_rewrite elem_of_cons. setoid_rewrite elem_of_cons.
  setoid_rewrite elem_of_cons. setoid_rewrite elem_of_nil. naive_solver.
Qed.

Lemma workspace_max target e :
  abs_normal target →
  e ∈ resolved_entries_with_cwd plain_workspace cwd →
  path_starts_with (resolved_path e) target = true →
  (∀ name, name ∈ PROTECTED_METADATA_PATH_NAMES → path_starts_with (metadata_dir name) target = true →
     length (components root) < length (components (resolved_path e))) →
  (path_starts_with root target = true → length (components root) ≤ length (components (resolved_path e))) →
  (resolved_path e = [slash] → resolved_access e = Read → path_starts_with root target = false) →
  resolve_access_with_cwd plain_workspace target cwd = resolved_access e.
Proof.
  intros Ht He Hcov Hmeta Hroot Hsl.
  apply (resolve_access_by plain_workspace target cwd target e); [done|by apply candidate_fixed
    |by apply matching_elem|].
  assert (1 ≤ length (components (resolved_path e))) as Hone.
  { apply workspace_resolved in He as [->|[->|(n & Hn & ->)]]; cbn [resolved_path].
    - by vm_compute.
    - unfold root. rewrite components_abs_string by done. simpl. lia.
    - rewrite (proj2 (metadata_dir_eq n Hn)), length_app. simpl. lia. }
  intros e' [He' Hcov']%matching_elem. apply precedence_le_spec.
  apply workspace_resolved in He' as [->|[->|(n & Hn & ->)]];
    cbn [resolved_path resolved_access resolved_entry_precedence fst snd access_rank] in *.
  - rewrite root_components. cbn [length]. destruct (access_rank (resolved_access e)); lia.
  - specialize (Hroot Hcov'). destruct (decide (length (components root) = length (components (resolved_path e)))) as [Heq|];
      [|lia]. right. split; [done|].
    apply workspace_resolved in He as [->|[->|(m & Hm & ->)]];
      cbn [resolved_path resolved_access access_rank] in *; [|lia|].
    + by rewrite Hsl in Hcov'.
    + rewrite (proj2 (metadata_dir_eq m Hm)), length_app in Heq. cbn [length] in Heq. lia.
  - rewrite (proj2 (metadata_dir_eq n Hn)), length_app. cbn [length]. specialize (Hmeta n Hn Hcov').
    destruct (access_rank (resolved_access e)); lia.
Qed.

Lemma workspace_access target :
  abs_normal target →
  can_write (resolve_access_with_cwd plain_workspace target cwd) = true ↔
    path_starts_with root target = true
    ∧ ∀ name, name ∈ PROTECTED_METADATA_PATH_NAMES → path_starts_with (metadata_dir name) target = false.
Proof.
  intros Ht.
  destruct (path_starts_with root target) eqn:Hr.
  - destruct (any (λ n, path_starts_with (metadata_dir n) target) PROTECTED_METADATA_PATH_NAMES) eqn:Hm.
    + apply any_true in Hm as (n & Hn & Hcov).
      rewrite (workspace_max target {| resolved_path := metadata_dir n; resolved_access := Read |}); try done.
      * split; [done|]. intros [_ H]. by rewrite H in Hcov.
      * apply workspace_resolved. eauto.
      * intros m Hm _. cbn [resolved_path]. rewrite (proj2 (metadata_dir_eq n Hn)), length_app. cbn [length]. lia.
      * intros _. cbn [resolved_path]. rewrite (proj2 (metadata_dir_eq n Hn)), length_app. lia.
      * cbn [resolved_path]. intros H. exfalso. apply (f_equal (λ p, length (components p))) in H.
        rewrite (proj2 (metadata_dir_eq n Hn)), length_app, root_components in H. unfold root in H.
        rewrite components_abs_string in H by done. cbn [length] in H. lia.
    + rewrite any_false in Hm.
      rewrite (workspace_max target {| resolved_path := root; resolved_access := Write |}); try done.
      * apply workspace_resolved. auto.
      * intros m Hm' Hc. by rewrite Hm in Hc.
  - rewrite (workspace_max target {| resolved_path := [slash]; resolved_access := Read |}); try done.
    * split; [done|]. by intros [? _].
    * apply workspace_resolved. auto.
    * by apply root_covers.
    * intros m Hm Hc. exfalso. apply not_true_iff_false in Hr. apply Hr.
      apply path_starts_with_true in Hc as [r Hc]. rewrite (proj2 (metadata_dir_eq m Hm)), <-app_assoc in Hc.
      apply path_starts_with_true. eauto.
    * by rewrite Hr.
Qed.

Lemma workspace_not_metadata target :
  abs_normal target →
  (∀ name, name ∈ PROTECTED_METADATA_PATH_NAMES → path_starts_with (metadata_dir name) target = false) →
  is_metadata_write_denied plain_workspace target cwd = false.
Proof.
  intros Ht Hm. unfold is_metadata_write_denied. rewrite candidate_fixed by done.
  cbn [is_restricted plain_workspace restricted kind negb].
  destruct (metadata_child_of_writable_root plain_workspace target cwd) as [[mp n]|] eqn:Hc; [|done].
  exfalso. apply find_map_Some in Hc as (e & He & Hch).
  apply list_elem_of_In, filter_In in He as [He%list_elem_of_In Hw].
  apply workspace_resolved in He as [->|[->|(? & _ & ->)]]; try done.
  unfold metadata_child in Hch. apply bind_Some in Hch as (r & Hr & Hch).
  apply bind_Some in Hch as (f & Hf & Hch). apply bind_Some in Hch as (x & Hx & Hch).
  apply bind_Some in Hch as (m & Hm' & _). apply find_Some in Hm' as [Hin ->%str_eqb_true].
  specialize (Hm m Hin). apply not_true_iff_false in Hm. apply Hm. apply path_starts_with_true.
  unfold path_strip_prefix in Hr. apply strip_components_Some in Hr. cbn [resolved_path] in Hr.
  destruct r as [|f' r]; [done|]. simpl in Hf. injection Hf as ->.
  exists r. rewrite (proj2 (metadata_dir_eq m Hin)), <-app_assoc, Hr. f_equal. simpl. f_equal.
  destruct (metadata_name_plain _ Hin) as [(_ & _ & ? & ?) _]. by destruct f; simplify_eq/=.
Qed.
End Workspace.

Section LegacyScanLemmas.
Context `{W : PermWorld}.

(** Read entries do not influence the legacy projection. *)
Lemma scan_read cwd a e : access e = Read → scan_entry cwd a e = a.
Proof.
  intros Ha. unfold scan_entry. rewrite Ha. cbn [can_write].
  destruct (entry_path e) as [| |[]]; rewrite ?andb_false_r; try done.
  by destruct (resolve_file_system_special_path _ cwd).
Qed.

Lemma scan_reads cwd a es : Forall (λ e, access e = Read) es → fold_left (scan_entry cwd) es a = a.
Proof. intros H. revert a. induction H as [|e es He _ IH]; intros a; simpl; [done|]. by rewrite scan_read. Qed.

Definition extends_by_reads (es es' : list FileSystemSandboxEntry) : Prop :=
  ∃ rs, es' = es ++ rs ∧ Forall (λ e, access e = Read) rs.

#[export] Instance extends_refl : Reflexive extends_by_reads.
Proof. intros es. exists []. by rewrite app_nil_r. Qed.
#[export] Instance extends_trans : Transitive extends_by_reads.
Proof.
  intros a b c (r1 & -> & H1) (r2 & -> & H2). exists (r1 ++ r2). split; [by rewrite app_assoc|].
  by apply Forall_app.
Qed.

Lemma append_extends es p : extends_by_reads es (append_default_read_only_entry_if_no_explicit_rule es p).
Proof.
  unfold append_default_read_only_entry_if_no_explicit_rule. destruct (any _ es); [done|].
  exists [mkEntry p Read]. auto.
Qed.

Lemma fold_extends {B} (f : list FileSystemSandboxEntry → B → list FileSystemSandboxEntry) l es :
  (∀ es b, extends_by_reads es (f es b)) → extends_by_reads es (fold_left f l es).
Proof. intros Hf. revert es; induction l as [|b l IH]; intros es; simpl; [done|]. by rewrite <-IH. Qed.

Lemma workspace_write_entries (roots : list str) (a b : bool) :
  extends_by_reads
    ([mkEntry (Special Root) Read; mkEntry (Special (ProjectRoots None)) Write]
     ++ (if b then [] else [mkEntry (Special SlashTmp) Write])
     ++ (if a then [] else [mkEntry (Special Tmpdir) Write])
     ++ ((λ r, mkEntry (Path r) Write) <$> roots))
    (entries (workspace_write roots a b)).
Proof.
  unfold workspace_write. cbn [entries restricted].
  etrans; [|apply fold_extends; intros es r; apply fold_extends; intros; apply append_extends].
  apply fold_extends. intros. apply append_extends.
Qed.

Lemma scan_roots (cwd : option str) (a : LegacyScan) (roots : list str) :
  fold_left (scan_entry cwd) ((λ r, mkEntry (Path r) Write) <$> roots) a
  = {| workspace_root_writable :=
         workspace_root_writable a
         || any (λ r, match cwd with Some c => path_eq c r | None => false end) roots;
       legacy_writable_roots :=
         legacy_writable_roots a
         ++ List.filter (λ r, negb (match cwd with Some c => path_eq c r | None => false end)) roots;
       tmpdir_writable := tmpdir_writable a; slash_tmp_writable := slash_tmp_writable a;
       unbridgeable_root_write := unbridgeable_root_write a |}.
Proof.
  revert a; induction roots as [|r roots IH]; intros a; simpl.
  { rewrite orb_false_r, app_nil_r. by destruct a. }
  rewrite IH. unfold scan_entry. cbn [entry_path access can_write].
  destruct (match cwd with Some c => path_eq c r | None => false end); simpl.
  - f_equal; by destruct (workspace_root_writable a), (any _ roots).
  - by rewrite <-app_assoc.
Qed.

(** [impl From<&SandboxPolicy> for NetworkSandboxPolicy] *)
Definition network_of (sp : SandboxPolicy) : NetworkSandboxPolicy :=
  let of_bool (b : bool) := if b then NetEnabled else NetRestricted in
  match sp with
  | DangerFullAccess => NetEnabled
  | External n => n
  | ReadOnly n => of_bool n
  | WorkspaceWrite _ n _ _ => of_bool n
  end.

Lemma no_root_write (roots : list str) (a b : bool) :
  has_full_disk_write_access (workspace_write roots a b) = false.
Proof.
  unfold has_full_disk_write_access. cbn [kind workspace_write restricted]. apply andb_false_iff. left.
  unfold has_root_access. apply andb_false_iff. right. apply any_false. intros e He.
  destruct (workspace_write_entries roots a b) as (rs & Heq & Hrs). rewrite Heq in He.
  apply elem_of_app in He as [He|He].
  - repeat (apply elem_of_app in He as [He|He]).
    + by repeat (apply elem_of_cons in He as [->|He]; [done|]); apply not_elem_of_nil in He.
    + destruct b; [by apply not_elem_of_nil in He|]. by apply list_elem_of_singleton in He as ->.
    + destruct a; [by apply not_elem_of_nil in He|]. by apply list_elem_of_singleton in He as ->.
    + by apply list_elem_of_fmap in He as (r & -> & _).
  - rewrite Forall_forall in Hrs. rewrite (Hrs _ He). by destruct (entry_path e) as [| |[]].
Qed.
End LegacyScanLemmas.

Section PolicyProperties.
Context `{L : PermWorldLaws}.

Lemma can_write_candidate p path cwd t :
  resolve_candidate_path path cwd = Some t →
  can_write_path_with_cwd p path cwd = can_write_path_with_cwd p t cwd.
Proof.
  intros Ht. pose proof (candidate_normal _ _ _ Ht) as Hn.
  unfold can_write_path_with_cwd, resolve_access_with_cwd, is_metadata_write_denied.
  by rewrite Ht, candidate_fixed.
Qed.

(** what the workspace-write policy lets an agent write.  Without extra roots
    and temporary directories, a path can be written iff it lies under the working
    directory and not under its [.git], [.agents] or [.codex]. *)
Theorem workspace_write_exact path cwd c target :
  absolute_path cwd = Some c → resolve_candidate_path path cwd = Some target →
  can_write_path_with_cwd (workspace_write [] true true) path cwd = true ↔
    path_starts_with c target = true
    ∧ ∀ name, name ∈ PROTECTED_METADATA_PATH_NAMES →
        path_starts_with (abs_join perm_home c name) target = false.
Proof.
  intros Hc Ht. rewrite (can_write_candidate _ _ _ _ Ht), workspace_write_plain.
  pose proof (candidate_normal _ _ _ Ht) as Hn.
  destruct (absolute_path_normal_form _ _ Hc) as (stack & Hst & ->).
  rewrite <-(workspace_access cwd stack Hst Hc target Hn). unfold can_write_path_with_cwd.
  destruct (can_write (resolve_access_with_cwd plain_workspace target cwd)) eqn:Hw; simpl; [|done].
  apply (workspace_access cwd stack Hst Hc target Hn) in Hw as [_ Hm].
  by rewrite (workspace_not_metadata cwd stack Hst Hc target Hn Hm).
Qed.

(** legacy policies survive the round trip through the file-system policy.
    Projecting a legacy sandbox policy and reading it back with its own network setting
    returns it unchanged, except that the writable roots of a workspace policy lose
    repetitions and the working directory itself. *)
Theorem legacy_policy_round_trip sp cwd :
  to_legacy_sandbox_policy (from_sandbox_policy sp) (network_of sp) cwd
  = Ok match sp with
       | WorkspaceWrite roots net a b =>
           WorkspaceWrite
             (dedup_absolute_paths
                (List.filter (λ r, negb (match absolute_path cwd with
                                         | Some c => path_eq c r | None => false end)) roots))
             net a b
       | sp => sp
       end.
Proof.
  destruct sp as [|n|n|roots n a b]; [done|by destruct n|by destruct n|].
  unfold to_legacy_sandbox_policy. cbn [from_sandbox_policy kind workspace_write restricted].
  rewrite no_root_write.
  destruct (workspace_write_entries roots a b) as (rs & Heq & Hrs). rewrite Heq, fold_left_app.
  rewrite (scan_reads _ _ rs Hrs), !fold_left_app, scan_roots. by destruct a, b, n.
Qed.
End PolicyProperties.

Lemma workspace_write_exact_witness :
  can_write_path_with_cwd (W := demo_perm_world) (workspace_write (W := demo_perm_world) [] true true)
    (lit "src/main.rs") (lit "/work") = true.
Proof.
  apply (workspace_write_exact (W := demo_perm_world) (L := demo_perm_laws) (lit "src/main.rs")
    (lit "/work") (lit "/work") (lit "/work/src/main.rs")); [vm_compute; reflexivity..|].
  split; [vm_compute; reflexivity|]. intros name Hn. unfold PROTECTED_METADATA_PATH_NAMES in Hn.
  repeat (apply elem_of_cons in Hn as [->|Hn]; [vm_compute; reflexivity|]). by apply not_elem_of_nil in Hn.
Defined.
