(* ===== verification/ReadDeny.v ===== *)
(** * Denied reads ([ReadDenyMatcher] of codex-rs/protocol/src/permissions.rs)

    The deny entries of a policy as a matcher that direct reads consult: exact roots,
    under the spellings that symbolic links give them, and glob patterns.

    The file system and the glob library are the parameters [FsWorld]. *)

From S2P Require Import Prelude RustStr AbsPath Permissions.

(** [fs::canonicalize]; [fs::symlink_metadata], with whether the file is a symbolic
    link; the error of [GlobBuilder::build]; [GlobMatcher::is_match]. *)
Class FsWorld := {
  canonicalize : str → option str;
  symlink_metadata : str → option bool;
  glob_error : str → option str;
  glob_is_match : str → str → bool }.

(** [Path::ancestors]: at most one for every component. *)
Fixpoint ancestors_from `{W : PermWorld} (n : nat) (p : str) : list str :=
  p :: match n with
       | 0 => []
       | S n => match path_parent p with Some q => ancestors_from n q | None => [] end
       end.
Definition ancestors `{W : PermWorld} (p : str) : list str := ancestors_from (length (components p)) p.

Section ReadDeny.
Context `{W : PermWorld} `{F : FsWorld}.

(** ** Symbolic links (utils/absolute-path/src/lib.rs) *)

Definition should_preserve_logical_path (logical : str) : bool :=
  any (λ a, default false (symlink_metadata a) && opt_is_some (p ← path_parent a; path_parent p))
    (ancestors logical).

Definition canonicalize_preserving_symlinks (path : str) : option str :=
  logical ← absolute_path path;
  Some (match canonicalize path with
        | Some canonical =>
            if should_preserve_logical_path logical && negb (path_eq canonical logical) then logical
            else canonical
        | None => logical
        end).

(** [path.join(suffix)] for the rest of a path. *)
Definition join_rest (p : str) (rest : list Component) : str :=
  path_join p (join [slash] (omap component_name rest)).

Definition normalize_effective_absolute_path (path : str) : str :=
  default path
    (find_map (λ a,
       _ ← symlink_metadata a;
       normalized ← canonicalize_preserving_symlinks a;
       suffix ← path_strip_prefix a path;
       absolute_path (join_rest normalized suffix)) (ancestors path)).

(** ** Denied roots and patterns *)

Definition get_unreadable_roots_with_cwd (p : FileSystemSandboxPolicy) (cwd : str) : list str :=
  if negb (is_restricted p) then []
  else
    let root := absolute_root_path_for_cwd <$> absolute_path cwd in
    dedup_absolute_paths (normalize_effective_absolute_path <$>
      (resolved_path <$>
         List.filter (λ e, bool_decide (resolved_access e = Deny)
                           && negb (can_read_path_with_cwd p (resolved_path e) cwd)
                           && negb (match root with Some r => path_eq r (resolved_path e) | None => false end))
           (resolved_entries_with_cwd p cwd))).

(** [Vec::dedup] *)
Fixpoint dedup_adjacent (l : list str) : list str :=
  match l with
  | a :: (b :: _) as l' => if a == b then dedup_adjacent l' else a :: dedup_adjacent l'
  | _ => l
  end.

Definition deny_glob (cwd : str) (e : FileSystemSandboxEntry) : option str :=
  match entry_path e with
  | GlobPattern pattern => Some (resolve_path_against_base perm_home pattern cwd)
  | Path _ | Special _ => None
  end.
Definition get_unreadable_globs_with_cwd (p : FileSystemSandboxPolicy) (cwd : str) : list str :=
  if negb (is_restricted p) then []
  else dedup_adjacent (merge_sort str_le (omap (deny_glob cwd) (deny_entries p))).

(** ** The matcher *)

Record ReadDenyMatcher := mkMatcher {
  denied_candidates : list (list str);
  deny_read_matchers : list str;
  invalid_pattern : bool }.

Definition push_unique (candidates : list str) (c : str) : list str :=
  if any (λ x, path_eq x c) candidates then candidates else candidates ++ [c].

Definition normalized_and_canonical_candidates (path : str) : list str :=
  let candidates := push_unique [] (default path (absolute_path path)) in
  match c ← canonicalize path; absolute_path c with
  | Some c => push_unique candidates c
  | None => candidates
  end.

(** [fail_closed] is the behaviour on invalid patterns. *)
Fixpoint build_matchers (fail_closed : bool) (patterns : list str) : result str (list str * bool) :=
  match patterns with
  | [] => Ok ([], false)
  | pattern :: patterns =>
      match glob_error pattern with
      | None => '(ms, invalid) ← build_matchers fail_closed patterns; Ok (pattern :: ms, invalid)
      | Some err =>
          if fail_closed then '(ms, _) ← build_matchers fail_closed patterns; Ok (ms, true)
          else Err (lit "invalid deny-read glob pattern `" ++ pattern ++ lit "`: " ++ err)
      end
  end.

Definition build (fail_closed : bool) (p : FileSystemSandboxPolicy) (cwd : str)
    : result str (option ReadDenyMatcher) :=
  if negb (has_denied_read_restrictions p) then Ok None
  else
    '(ms, invalid) ← build_matchers fail_closed (get_unreadable_globs_with_cwd p cwd);
    Ok (Some (mkMatcher
      (normalized_and_canonical_candidates <$> get_unreadable_roots_with_cwd p cwd) ms invalid)).

(** [new]: the error branch is unreachable, by [build_fail_closed]. *)
Definition matcher_new (p : FileSystemSandboxPolicy) (cwd : str) : option ReadDenyMatcher :=
  match build true p cwd with Ok m => m | Err _ => None end.
Definition matcher_try_new (p : FileSystemSandboxPolicy) (cwd : str) : result str (option ReadDenyMatcher) :=
  build false p cwd.

Definition is_read_denied (m : ReadDenyMatcher) (path : str) : bool :=
  if invalid_pattern m then true
  else
    let candidates := normalized_and_canonical_candidates path in
    any (λ denied, any (λ c, any (λ d, path_eq c d || path_starts_with d c) denied) candidates)
      (denied_candidates m)
    || any (λ g, any (glob_is_match g) candidates) (deny_read_matchers m).

(** The check of a direct read. *)
Definition read_denied (p : FileSystemSandboxPolicy) (path cwd : str) : bool :=
  match matcher_new p cwd with Some m => is_read_denied m path | None => false end.

(** ** Lemmas *)

Lemma build_matchers_ok patterns : is_ok (build_matchers true patterns) = true.
Proof.
  induction patterns as [|g ps IH]; cbn; [done|].
  destruct (build_matchers true ps) as [[ms b]|e]; [|done]. by destruct (glob_error g).
Qed.

Lemma build_fail_closed p cwd : is_ok (build true p cwd) = true.
Proof.
  unfold build. destruct (has_denied_read_restrictions p); cbn [negb]; [|done].
  pose proof (build_matchers_ok (get_unreadable_globs_with_cwd p cwd)) as H.
  by destruct (build_matchers true _) as [[ms b]|e].
Qed.

Lemma build_matchers_spec patterns ms b :
  build_matchers true patterns = Ok (ms, b) →
  (∀ g, g ∈ ms ↔ g ∈ patterns ∧ glob_error g = None) ∧
  (b = true ↔ ∃ g, g ∈ patterns ∧ glob_error g ≠ None).
Proof.
  revert ms b. induction patterns as [|g ps IH]; intros ms b; cbn.
  { intros [= <- <-]. split; [|split; [done|intros (g & Hg & _)]]; set_solver. }
  pose proof (build_matchers_ok ps) as Hok. destruct (build_matchers true ps) as [[ms' b']|e]; [|done].
  specialize (IH ms' b' eq_refl) as [IH1 IH2]. destruct (glob_error g) as [err|] eqn:Eg; intros [= <- <-].
  - split; [|split; [|done]].
    + intros g'. rewrite IH1, elem_of_cons. naive_solver.
    + intros _. exists g. split; [by left|congruence].
  - split.
    + intros g'. rewrite !elem_of_cons, IH1. naive_solver.
    + rewrite IH2. setoid_rewrite elem_of_cons. naive_solver.
Qed.

Lemma elem_of_dedup_adjacent l x : x ∈ dedup_adjacent l ↔ x ∈ l.
Proof.
  induction l as [|a [|b l] IH]; [done..|].
  change (dedup_adjacent (a :: b :: l)) with
    (if a == b then dedup_adjacent (b :: l) else a :: dedup_adjacent (b :: l)).
  destruct (str_eqb_reflect a b) as [->|_]; rewrite ?elem_of_cons, IH, ?elem_of_cons; naive_solver.
Qed.

Lemma elem_of_unreadable_globs p cwd g :
  kind p = Restricted →
  g ∈ get_unreadable_globs_with_cwd p cwd ↔
    ∃ pattern, mkEntry (GlobPattern pattern) Deny ∈ entries p ∧
      g = resolve_path_against_base perm_home pattern cwd.
Proof.
  intros Hk. unfold get_unreadable_globs_with_cwd, is_restricted. rewrite Hk. cbn [negb].
  rewrite elem_of_dedup_adjacent, merge_sort_Permutation, list_elem_of_omap. unfold deny_entries.
  setoid_rewrite list_elem_of_In. setoid_rewrite filter_In. setoid_rewrite <-list_elem_of_In. split.
  - intros ([ep a] & [He Ha] & Hg). cbn in *. apply bool_decide_eq_true in Ha as ->.
    destruct ep as [|pattern|]; try done. injection Hg as <-. eauto.
  - intros (pattern & He & ->). exists (mkEntry (GlobPattern pattern) Deny). by rewrite bool_decide_true.
Qed.

Lemma path_eq_starts_with c d : path_eq c d = true → path_starts_with d c = true.
Proof.
  unfold path_eq. intros H%bool_decide_eq_true. apply path_starts_with_true. exists []. by rewrite app_nil_r, H.
Qed.

Lemma unreadable_root_denied p cwd d :
  d ∈ get_unreadable_roots_with_cwd p cwd → has_denied_read_restrictions p = true.
Proof.
  unfold get_unreadable_roots_with_cwd, has_denied_read_restrictions.
  destruct (is_restricted p); cbn [negb]; [|by intros ?%not_elem_of_nil].
  assert (∀ ps seen x, x ∈ dedup_absolute_paths_from seen ps → x ∈ ps) as Hd.
  { induction ps as [|q ps IH]; intros seen x; cbn; [done|]. destruct (any _ seen); [right; by eapply IH|].
    intros [->|Hx]%elem_of_cons; [by left|right; by eapply IH]. }
  intros Hx%Hd. apply list_elem_of_fmap in Hx as (y & _ & Hy). apply list_elem_of_fmap in Hy as (e & _ & He).
  apply list_elem_of_In, filter_In in He as [He Hp]. apply list_elem_of_In, resolved_elem in He as (en & q & Hen & _ & ->).
  rewrite !andb_true_iff in Hp. destruct Hp as [[Ha _] _]. cbn in Ha. apply any_true. by exists en.
Qed.

(** What makes a read denied. *)
Lemma read_denied_true p path cwd :
  kind p = Restricted →
  read_denied p path cwd = true ↔
    (∃ g, g ∈ get_unreadable_globs_with_cwd p cwd ∧
      (glob_error g ≠ None ∨
       ∃ c, c ∈ normalized_and_canonical_candidates path ∧ glob_is_match g c = true))
    ∨ ∃ d d' c, d ∈ get_unreadable_roots_with_cwd p cwd ∧ d' ∈ normalized_and_canonical_candidates d ∧
        c ∈ normalized_and_canonical_candidates path ∧ path_starts_with d' c = true.
Proof.
  intros Hk. unfold read_denied, matcher_new, build.
  destruct (has_denied_read_restrictions p) eqn:Hr; cbn [negb].
  2:{ split; [done|]. intros [(g & Hg & _)|(d & d' & c & Hd & _)].
      - apply elem_of_unreadable_globs in Hg as (pat & He & _); [|done].
        unfold has_denied_read_restrictions, is_restricted in Hr. rewrite Hk in Hr. cbn in Hr.
        rewrite any_false in Hr. specialize (Hr _ He). by rewrite bool_decide_true in Hr.
      - apply unreadable_root_denied in Hd. congruence. }
  pose proof (build_matchers_ok (get_unreadable_globs_with_cwd p cwd)) as Hok.
  destruct (build_matchers true _) as [[ms b]|e] eqn:Eb; [|done]. cbn [mbind result_bind].
  apply build_matchers_spec in Eb as [Hms Hb]. unfold is_read_denied. cbn [invalid_pattern denied_candidates deny_read_matchers].
  destruct b.
  { split; [|done]. intros _. left. destruct Hb as [Hb _]. destruct (Hb eq_refl) as (g & Hg & He). eauto. }
  rewrite orb_true_iff, !any_true. split.
  - intros [(l & Hl & H)|(g & Hg & H)].
    + right. apply list_elem_of_fmap in Hl as (d & -> & Hd). apply any_true in H as (c & Hc & H).
      apply any_true in H as (d' & Hd' & H). exists d, d', c. split; [done|]. split; [done|]. split; [done|].
      apply orb_true_iff in H as [H|H]; [by apply path_eq_starts_with|done].
    + left. apply Hms in Hg as [Hg _]. apply any_true in H as (c & Hc & H). eauto 7.
  - intros [(g & Hg & [He|(c & Hc & H)])|(d & d' & c & Hd & Hd' & Hc & H)].
    + destruct Hb as [_ Hb]. by discriminate Hb; eauto.
    + destruct (glob_error g) eqn:Eg; [destruct Hb as [_ Hb]; by discriminate Hb; exists g; split; congruence|].
      right. exists g. split; [by apply Hms|]. apply any_true. eauto.
    + left. exists (normalized_and_canonical_candidates d). split; [apply list_elem_of_fmap; eauto|].
      apply any_true. exists c. split; [done|]. apply any_true. exists d'. split; [done|]. by rewrite H, orb_true_r.
Qed.
End ReadDeny.
