(* ===== verification/PolicyTransforms.v ===== *)
(** * Additional permissions (codex-rs/sandboxing/src/policy_transforms.rs)

    A command may ask for permissions beyond the policy of its session; a grant is
    intersected with what was asked for, and what results is merged into the policy.
    The model covers the whole file: normalisation, merging, intersection and the
    effective policies. *)

From S2P Require Import Prelude RustStr AbsPath Permissions ReadDeny.

(** ** Profiles (protocol/src/models.rs) *)

(** [NonZeroUsize] *)
Definition nonzero (n : nat) : option nat := if (n =? 0)%nat then None else Some n.

Record FileSystemPermissions := mkFsPerms {
  fs_entries : list FileSystemSandboxEntry;
  fs_depth : option nat }.
Definition fs_default : FileSystemPermissions := mkFsPerms [] None.
Definition fs_is_empty (f : FileSystemPermissions) : bool := is_empty (fs_entries f).

(** [NetworkPermissions { enabled }] *)
Record AdditionalPermissionProfile := mkAdditional {
  ap_network : option (option bool);
  ap_file_system : option FileSystemPermissions }.
Definition ap_is_empty (p : AdditionalPermissionProfile) : bool :=
  negb (opt_is_some (ap_network p)) && negb (opt_is_some (ap_file_system p)).

Inductive SandboxEnforcement := EnfManaged | EnfDisabled | EnfExternal.

Definition enforcement (p : PermissionProfile) : SandboxEnforcement :=
  match p with
  | ProfileManaged _ _ => EnfManaged
  | ProfileDisabled => EnfDisabled
  | ProfileExternal _ => EnfExternal
  end.
Definition network_sandbox_policy (p : PermissionProfile) : NetworkSandboxPolicy :=
  match p with
  | ProfileManaged _ n | ProfileExternal n => n
  | ProfileDisabled => NetEnabled
  end.
Definition to_runtime_permissions (p : PermissionProfile) : FileSystemSandboxPolicy * NetworkSandboxPolicy :=
  (file_system_sandbox_policy p, network_sandbox_policy p).

Definition from_runtime_permissions_with_enforcement (enf : SandboxEnforcement)
    (fs : FileSystemSandboxPolicy) (net : NetworkSandboxPolicy) : PermissionProfile :=
  match kind fs, enf with
  | ExternalSandbox, _ => ProfileExternal net
  | Unrestricted, EnfDisabled => ProfileDisabled
  | Unrestricted, _ => ProfileManaged ManagedUnrestricted net
  | Restricted, _ =>
      ProfileManaged (ManagedRestricted (entries fs) (d ← glob_scan_max_depth fs; nonzero d)) net
  end.

(** ** Merging *)

Definition is_deny (e : FileSystemSandboxEntry) : bool := bool_decide (access e = Deny).
Definition is_glob (e : FileSystemSandboxEntry) : bool :=
  match entry_path e with GlobPattern _ => true | _ => false end.

Inductive GlobScanDepth := Bounded (n : nat) | Unbounded.

Definition effective_glob_scan_depth (es : list FileSystemSandboxEntry) (depth : option nat)
    : option GlobScanDepth :=
  if any (λ e, is_deny e && is_glob e) es
  then Some (match depth with Some d => Bounded d | None => Unbounded end)
  else None.

Definition merge_glob_scan_max_depth (les : list FileSystemSandboxEntry) (ldepth : option nat)
    (res : list FileSystemSandboxEntry) (rdepth : option nat) : option nat :=
  match effective_glob_scan_depth les ldepth, effective_glob_scan_depth res rdepth with
  | Some Unbounded, _ | _, Some Unbounded => None
  | Some (Bounded l), Some (Bounded r) => Some (Nat.max l r)
  | Some (Bounded d), None | None, Some (Bounded d) => Some d
  | None, None => None
  end.

Definition merge_permission_entries (base permissions : list FileSystemSandboxEntry) :=
  push_missing [] (base ++ permissions).

Definition merge_file_system (base permissions : FileSystemPermissions) : option FileSystemPermissions :=
  opt_filter (λ f, negb (fs_is_empty f))
    (Some (mkFsPerms (merge_permission_entries (fs_entries base) (fs_entries permissions))
             (d ← merge_glob_scan_max_depth (fs_entries base) (fs_depth base)
                    (fs_entries permissions) (fs_depth permissions); nonzero d))).

Definition merge_permission_profiles (base permissions : option AdditionalPermissionProfile)
    : option AdditionalPermissionProfile :=
  match permissions with
  | None => base
  | Some permissions =>
      match base with
      | Some base =>
          let network := match ap_network base, ap_network permissions with
                         | Some (Some true), _ | _, Some (Some true) => Some (Some true)
                         | _, _ => None
                         end in
          let file_system := match ap_file_system base, ap_file_system permissions with
                             | Some base, Some permissions => merge_file_system base permissions
                             | Some base, None => Some base
                             | None, permissions => permissions
                             end in
          opt_filter (λ p, negb (ap_is_empty p)) (Some (mkAdditional network file_system))
      | None => opt_filter (λ p, negb (ap_is_empty p)) (Some permissions)
      end
  end.

Definition merge_file_system_policy_with_additional_permissions (p : FileSystemSandboxPolicy)
    (additional : FileSystemPermissions) : FileSystemSandboxPolicy :=
  match kind p with
  | Restricted =>
      mkPolicy Restricted
        (merge_glob_scan_max_depth (entries p) (glob_scan_max_depth p)
           (fs_entries additional) (fs_depth additional))
        (push_missing (entries p) (fs_entries additional))
  | Unrestricted | ExternalSandbox => p
  end.

Definition effective_file_system_sandbox_policy (p : FileSystemSandboxPolicy)
    (additional : option AdditionalPermissionProfile) : FileSystemSandboxPolicy :=
  match additional with
  | None => p
  | Some additional =>
      match ap_file_system additional with
      | None => p
      | Some fs =>
          if fs_is_empty fs then p else merge_file_system_policy_with_additional_permissions p fs
      end
  end.

Definition merge_network_access (base : bool) (additional : AdditionalPermissionProfile) : bool :=
  base || default false (n ← ap_network additional; n).

Definition effective_network_sandbox_policy (n : NetworkSandboxPolicy)
    (additional : option AdditionalPermissionProfile) : NetworkSandboxPolicy :=
  match additional with
  | Some a => if merge_network_access (net_is_enabled n) a then NetEnabled else NetRestricted
  | None => n
  end.

Definition effective_permission_profile (p : PermissionProfile)
    (additional : option AdditionalPermissionProfile) : PermissionProfile :=
  let '(fs, net) := to_runtime_permissions p in
  from_runtime_permissions_with_enforcement (enforcement p)
    (effective_file_system_sandbox_policy fs additional) (effective_network_sandbox_policy net additional).

Definition should_require_platform_sandbox (fs : FileSystemSandboxPolicy) (net : NetworkSandboxPolicy)
    (has_managed_network_requirements : bool) : bool :=
  if has_managed_network_requirements then true
  else if negb (net_is_enabled net)
       then match kind fs with ExternalSandbox => false | _ => true end
       else match kind fs with
            | Restricted => negb (has_full_disk_write_access fs)
            | Unrestricted | ExternalSandbox => false
            end.

(** ** Intersection *)

Section Intersection.
Context `{W : PermWorld} `{F : FsWorld}.

Fixpoint normalize_entries (acc es : list FileSystemSandboxEntry)
    : result str (list FileSystemSandboxEntry) :=
  match es with
  | [] => Ok acc
  | e :: es =>
      if is_glob e && negb (is_deny e)
      then Err (lit "glob file system permissions only support deny-read entries")
      else
        let path := match entry_path e with
                    | Path path =>
                        Path (default path (p ← canonicalize_preserving_symlinks path; absolute_path p))
                    | p => p
                    end in
        let e := mkEntry path (access e) in
        normalize_entries (if any (λ x, entry_eq x e) acc then acc else acc ++ [e]) es
  end.

Definition normalize_additional_permissions (p : AdditionalPermissionProfile)
    : result str AdditionalPermissionProfile :=
  let network := opt_filter opt_is_some (ap_network p) in
  match ap_file_system p with
  | Some fs =>
      es ← normalize_entries [] (fs_entries fs);
      let fs := mkFsPerms es (fs_depth fs) in
      Ok (mkAdditional network (if fs_is_empty fs then None else Some fs))
  | None => Ok (mkAdditional network None)
  end.

(** [cwd.ancestors().last()]: the root of an absolute path, and otherwise empty. *)
Definition last_ancestor (cwd : str) : str := if path_is_absolute cwd then [slash] else [].

Definition resolve_permission_path (p : FileSystemPath) (cwd : str) : option str :=
  match p with
  | Path path => Some path
  | GlobPattern _ => None
  | Special v =>
      match v with
      | Root => absolute_path (last_ancestor cwd)
      | ProjectRoots subpath =>
          cwd ← absolute_path cwd;
          Some (match subpath with
                | Some sub => resolve_path_against_base perm_home sub cwd
                | None => cwd
                end)
      | Tmpdir => t ← tmpdir_var; if is_empty t then None else absolute_path t
      | SlashTmp => t ← absolute_path (lit "/tmp"); if is_dir t then Some t else None
      | Minimal | Unknown _ _ => None
      end
  end.

Definition access_covers (requested granted : FileSystemAccessMode) : bool :=
  match granted with
  | Read => can_read requested
  | Write => can_write requested
  | Deny => false
  end.

Definition paths_overlap (l r : str) : bool := path_starts_with r l || path_starts_with l r.

Definition is_glob_char (c : char) : bool :=
  N.eqb c (ch "*") || N.eqb c (ch "?") || N.eqb c (ch "[") || N.eqb c (ch "]").

Definition glob_static_prefix_path (pattern cwd : str) : option str :=
  let resolved := resolve_path_against_base perm_home pattern cwd in
  let prefix := match split_once_by is_glob_char resolved with
                | None => Some resolved
                | Some ([], _) => None
                | Some (prefix, _) =>
                    if ends_with [slash] prefix || ends_with (lit "\") prefix then Some prefix
                    else path_parent prefix
                end in
  p ← prefix; absolute_path p.

Definition materialize_cwd_dependent_entry (cwd : str) (e : FileSystemSandboxEntry)
    : FileSystemSandboxEntry :=
  match entry_path e with
  | Special (ProjectRoots _) =>
      match resolve_permission_path (entry_path e) cwd with
      | Some path => mkEntry (Path path) (access e)
      | None => e
      end
  | GlobPattern pattern =>
      mkEntry (GlobPattern (resolve_path_against_base perm_home pattern cwd)) (access e)
  | Path _ | Special _ => e
  end.

Definition granted_file_system_entry_within_request (requested : FileSystemPermissions)
    (requested_policy : FileSystemSandboxPolicy) (matcher : option ReadDenyMatcher)
    (cwd : str) (granted : FileSystemSandboxEntry) : bool :=
  if negb (can_read (access granted)) then false
  else match resolve_permission_path (entry_path granted) cwd with
       | Some path =>
           if match matcher with Some m => is_read_denied m path | None => false end then false
           else access_covers (resolve_access_with_cwd requested_policy path cwd) (access granted)
       | None =>
           any (λ e, access_covers (access e) (access granted)
                     && fspath_eq (entry_path e) (entry_path granted)) (fs_entries requested)
       end.

Definition deny_entry_constrains_accepted_grant (accepted : list FileSystemSandboxEntry) (cwd : str)
    (deny : FileSystemSandboxEntry) : bool :=
  any (λ e,
    match resolve_permission_path (entry_path e) cwd with
    | None => false
    | Some grant_path =>
        let overlaps o := match o with Some p => paths_overlap p grant_path | None => false end in
        match entry_path deny with
        | GlobPattern pattern => overlaps (glob_static_prefix_path pattern cwd)
        | _ => overlaps (resolve_permission_path (entry_path deny) cwd)
        end
    end) (List.filter (λ e, can_read (access e)) accepted).

(** The retained entries; they are also pushed to [output]. *)
Definition retained_deny_entries (source accepted : list FileSystemSandboxEntry) (cwd : str)
    : list FileSystemSandboxEntry :=
  materialize_cwd_dependent_entry cwd <$>
    List.filter (λ e, is_deny e && deny_entry_constrains_accepted_grant accepted cwd e) source.
Definition retain_constraining_deny_entries (source accepted : list FileSystemSandboxEntry) (cwd : str)
    (output : list FileSystemSandboxEntry) : list FileSystemSandboxEntry * list FileSystemSandboxEntry :=
  let retained := retained_deny_entries source accepted cwd in (push_missing output retained, retained).

Definition accepted_entries (requested granted : FileSystemPermissions) (cwd : str)
    : list FileSystemSandboxEntry :=
  let requested_policy := restricted (fs_entries requested) in
  let matcher := matcher_new requested_policy cwd in
  push_missing [] (materialize_cwd_dependent_entry cwd <$>
    List.filter (granted_file_system_entry_within_request requested requested_policy matcher cwd)
      (fs_entries granted)).

Definition intersect_file_system (requested granted : FileSystemPermissions) (cwd : str)
    : FileSystemPermissions :=
  let accepted := accepted_entries requested granted cwd in
  let '(entries, requested_deny) :=
    retain_constraining_deny_entries (fs_entries requested) accepted cwd accepted in
  let '(entries, granted_deny) :=
    retain_constraining_deny_entries (fs_entries granted) accepted cwd entries in
  mkFsPerms entries
    (d ← merge_glob_scan_max_depth requested_deny (fs_depth requested) granted_deny (fs_depth granted);
     nonzero d).

Definition intersect_permission_profiles (requested granted : AdditionalPermissionProfile) (cwd : str)
    : AdditionalPermissionProfile :=
  let file_system :=
    opt_filter (λ f, negb (fs_is_empty f))
      ((λ f, intersect_file_system f (default fs_default (ap_file_system granted)) cwd)
         <$> ap_file_system requested) in
  let network := match ap_network requested, ap_network granted with
                 | Some (Some true), Some (Some true) => Some (Some true)
                 | _, _ => None
                 end in
  mkAdditional network file_system.
End Intersection.

(** ** Lists of entries *)

Lemma push_missing_only es new e : e ∈ push_missing es new → e ∈ es ∨ e ∈ new.
Proof.
  revert es; induction new as [|n new IH]; intros es He; [by left|].
  rewrite push_missing_cons in He. apply IH in He as [He|He]; [|set_solver].
  destruct (any _ es); set_solver.
Qed.

Section Resolved.
Context `{L : PermWorldLaws} `{F : FsWorld}.
Context (cwd : str) (Hcwd : path_is_absolute cwd = true).

Lemma absolute_cwd : ∃ c, absolute_path cwd = Some c ∧ abs_normal c.
Proof.
  destruct (absolute_path cwd) as [c|] eqn:E; [exists c; split; [done|by eapply absolute_path_normal_form]|].
  unfold absolute_path, from_absolute_path, absolutize in E. rewrite expand_no_tilde in E.
  - by rewrite Hcwd in E.
  - apply path_is_absolute_true in Hcwd as [r ->]. by cbn.
Qed.

Lemma resolve_permission_entry p :
  resolve_permission_path p cwd = resolve_entry_path p (absolute_path cwd).
Proof.
  destruct absolute_cwd as (c & Ec & _). rewrite Ec. destruct p as [p|g|[]]; try done.
  - cbn. unfold last_ancestor. rewrite Hcwd. apply absolute_path_fixed. by exists [].
  - cbn. by rewrite Ec.
Qed.

Lemma resolved_iff es r :
  r ∈ resolved_entries_with_cwd (restricted es) cwd ↔
    ∃ en, en ∈ es ∧ resolve_permission_path (entry_path en) cwd = Some (resolved_path r) ∧
      resolved_access r = access en.
Proof.
  rewrite resolved_elem. setoid_rewrite resolve_permission_entry. split.
  - intros (en & q & He & Hq & ->). eauto.
  - intros (en & He & Hq & Ha). exists en, (resolved_path r). split; [done|]. split; [done|].
    destruct r; cbn in *. by subst.
Qed.

Lemma permission_path_normal e q :
  entry_wf e → resolve_permission_path (entry_path e) cwd = Some q → abs_normal q.
Proof.
  unfold entry_wf. destruct absolute_cwd as (c & Ec & st & Hst & Hc).
  destruct (entry_path e) as [p|g|v]; cbn; [by intros Hp [= <-]|done|].
  destruct v as [| |sub| | |]; cbn; intros Hw; try done; try apply absolute_path_normal_form.
  - rewrite Ec. cbn. intros [= <-]. destruct sub as [sub|]; [|subst c; by exists st].
    apply absolutize_from_normal. subst c. apply abs_string_absolute.
  - intros (t & _ & Ht)%bind_Some. destruct (is_empty t); [done|]. by eapply absolute_path_normal_form.
  - intros (t & Ht & E)%bind_Some. destruct (is_dir t); [|done]. injection E as <-. by eapply absolute_path_normal_form.
Qed.

(** *** Materialised entries *)

Definition not_project (e : FileSystemSandboxEntry) : Prop :=
  match entry_path e with Special (ProjectRoots _) => False | _ => True end.

Lemma materialize_not_project e : not_project (materialize_cwd_dependent_entry cwd e).
Proof.
  unfold materialize_cwd_dependent_entry, not_project. destruct absolute_cwd as (c & Ec & _).
  destruct (entry_path e) as [p|g|v] eqn:E; cbn; rewrite ?E; try done.
  destruct v; cbn; rewrite ?E; try done. by rewrite Ec.
Qed.

Lemma materialize_access e : access (materialize_cwd_dependent_entry cwd e) = access e.
Proof. unfold materialize_cwd_dependent_entry. by repeat case_match. Qed.

Lemma materialize_path e :
  resolve_permission_path (entry_path (materialize_cwd_dependent_entry cwd e)) cwd =
  resolve_permission_path (entry_path e) cwd.
Proof.
  unfold materialize_cwd_dependent_entry. destruct absolute_cwd as (c & Ec & _).
  destruct (entry_path e) as [p|g|v] eqn:E; cbn; rewrite ?E; try done.
  destruct v; cbn; rewrite ?E; try done. by rewrite Ec.
Qed.

Lemma entry_eq_path x m q :
  entry_eq x m = true → not_project m → resolve_permission_path (entry_path m) cwd = Some q →
  access x = access m ∧
  ∃ q', resolve_permission_path (entry_path x) cwd = Some q' ∧ components q' = components q.
Proof.
  unfold entry_eq, not_project. intros [H Ha%bool_decide_eq_true]%andb_true_iff Hm Hq. split; [done|].
  destruct (entry_path x) as [p|g|v], (entry_path m) as [p'|g'|v']; cbn in H; try done.
  - injection Hq as <-. exists p. split; [done|]. unfold path_eq in H. by apply bool_decide_eq_true in H.
  - destruct v, v'; cbn in H; try done; eauto.
Qed.

(** Entries pushed to a list are resolved from it. *)
Lemma pushed_resolved es new m q :
  m ∈ new → not_project m → resolve_permission_path (entry_path m) cwd = Some q →
  ∃ r, r ∈ resolved_entries_with_cwd (restricted (push_missing es new)) cwd ∧
    resolved_access r = access m ∧ components (resolved_path r) = components q.
Proof.
  intros Hin Hm Hq. destruct (push_missing_adds es new m Hin) as (x & Hx & Heq).
  destruct (entry_eq_path x m q Heq Hm Hq) as (Ha & q' & Hq' & Hc).
  exists {| resolved_path := q'; resolved_access := access x |}. split; [|done].
  apply resolved_iff. by exists x.
Qed.

Lemma resolved_keep es new r :
  r ∈ resolved_entries_with_cwd (restricted es) cwd →
  r ∈ resolved_entries_with_cwd (restricted (push_missing es new)) cwd.
Proof.
  rewrite !resolved_iff. intros (en & He & H). exists en. split; [by apply push_missing_keeps|done].
Qed.

(** *** The intersected list *)

Context (requested granted : FileSystemPermissions).
Let R := fs_entries requested.
Let G := fs_entries granted.
Let accepted := accepted_entries requested granted cwd.
Let I := fs_entries (intersect_file_system requested granted cwd).

Lemma intersect_entries :
  I = push_missing (push_missing accepted (retained_deny_entries R accepted cwd))
        (retained_deny_entries G accepted cwd).
Proof. done. Qed.

Definition within (g : FileSystemSandboxEntry) : Prop :=
  g ∈ G ∧ granted_file_system_entry_within_request requested (restricted R)
    (matcher_new (restricted R) cwd) cwd g = true.

Lemma retained_deny source e : e ∈ retained_deny_entries source accepted cwd → access e = Deny.
Proof.
  unfold retained_deny_entries. intros (x & -> & Hx)%list_elem_of_fmap.
  apply list_elem_of_In, filter_In in Hx as [_ [Hd _]%andb_true_iff]. rewrite materialize_access.
  by apply bool_decide_eq_true in Hd.
Qed.

Lemma accepted_within e : e ∈ accepted → ∃ g, within g ∧ e = materialize_cwd_dependent_entry cwd g.
Proof.
  unfold accepted, accepted_entries. intros [H|H]%push_missing_only; [by apply not_elem_of_nil in H|].
  apply list_elem_of_fmap in H as (g & -> & Hg). apply list_elem_of_In, filter_In in Hg as [Hg Hw].
  exists g. split; [|done]. split; [by apply list_elem_of_In|done].
Qed.

(** A grant that survives was granted, and requested where it applies. *)
Lemma readable_entry r :
  r ∈ resolved_entries_with_cwd (restricted I) cwd → can_read (resolved_access r) = true →
  ∃ g, within g ∧ resolve_permission_path (entry_path g) cwd = Some (resolved_path r) ∧
    resolved_access r = access g ∧ r ∈ resolved_entries_with_cwd (restricted accepted) cwd.
Proof.
  rewrite resolved_iff. intros (en & He & Hq & Ha) Hr. rewrite intersect_entries in He.
  apply push_missing_only in He as [He|He]; [apply push_missing_only in He as [He|He]|].
  - destruct (accepted_within en He) as (g & Hg & ->). exists g. rewrite materialize_path in Hq.
    rewrite materialize_access in Ha. split; [done|]. split; [done|]. split; [done|].
    apply resolved_iff. exists (materialize_cwd_dependent_entry cwd g).
    by rewrite materialize_path, materialize_access.
  - apply retained_deny in He. by rewrite Ha, He in Hr.
  - apply retained_deny in He. by rewrite Ha, He in Hr.
Qed.

(** A denial that overlaps a surviving grant survives. *)
Lemma deny_survives d qd r :
  d ∈ R ∨ d ∈ G → access d = Deny → resolve_permission_path (entry_path d) cwd = Some qd →
  r ∈ resolved_entries_with_cwd (restricted accepted) cwd → can_read (resolved_access r) = true →
  paths_overlap qd (resolved_path r) = true →
  ∃ r', r' ∈ resolved_entries_with_cwd (restricted I) cwd ∧ resolved_access r' = Deny ∧
    components (resolved_path r') = components qd.
Proof.
  intros Hd Ha Hqd Hr Hread Ho.
  assert (deny_entry_constrains_accepted_grant accepted cwd d = true) as Hc.
  { apply resolved_iff in Hr as (en & He & Hq & Hra). unfold deny_entry_constrains_accepted_grant.
    apply any_true. exists en. split.
    - apply list_elem_of_In, filter_In. rewrite <-list_elem_of_In. split; [done|]. by rewrite <-Hra.
    - rewrite Hq. by destruct (entry_path d); [rewrite Hqd|discriminate Hqd|rewrite Hqd]. }
  assert (∀ source, d ∈ source → materialize_cwd_dependent_entry cwd d ∈ retained_deny_entries source accepted cwd) as Hret.
  { intros source Hs. unfold retained_deny_entries. apply list_elem_of_fmap_2, list_elem_of_In, filter_In.
    rewrite <-list_elem_of_In. split; [done|]. unfold is_deny. by rewrite bool_decide_true, Hc. }
  rewrite <-materialize_path in Hqd. pose proof (materialize_not_project d) as Hnp.
  rewrite intersect_entries. rewrite <-Ha, <-materialize_access. destruct Hd as [Hd|Hd].
  - destruct (pushed_resolved accepted _ _ qd (Hret R Hd) Hnp Hqd) as (r' & Hr' & H).
    exists r'. split; [by apply resolved_keep|done].
  - apply pushed_resolved; auto.
Qed.

Lemma accepted_survives g q :
  within g → resolve_permission_path (entry_path g) cwd = Some q →
  ∃ r, r ∈ resolved_entries_with_cwd (restricted I) cwd ∧ resolved_access r = access g ∧
    components (resolved_path r) = components q.
Proof.
  intros [Hg Hw] Hq. rewrite <-materialize_path in Hq. rewrite <-materialize_access.
  destruct (pushed_resolved [] (materialize_cwd_dependent_entry cwd <$>
    List.filter (granted_file_system_entry_within_request requested (restricted R)
      (matcher_new (restricted R) cwd) cwd) G) (materialize_cwd_dependent_entry cwd g) q) as (r & Hr & H).
  - apply list_elem_of_fmap_2, list_elem_of_In, filter_In. by rewrite <-list_elem_of_In.
  - apply materialize_not_project.
  - done.
  - exists r. split; [|done]. rewrite intersect_entries. by apply resolved_keep, resolved_keep.
Qed.

(** *** Access below and above an entry *)

Lemma starts_with_trans a b c :
  path_starts_with a b = true → path_starts_with b c = true → path_starts_with a c = true.
Proof.
  rewrite !path_starts_with_true. intros [r Hr] [r' Hr']. exists (r ++ r'). by rewrite Hr', Hr, app_assoc.
Qed.

Lemma starts_with_shorter a b t :
  path_starts_with a t = true → path_starts_with b t = true →
  length (components a) ≤ length (components b) → path_starts_with a b = true.
Proof.
  rewrite !path_starts_with_true. intros [r Hr] [r' Hr'] Hl. rewrite Hr in Hr'.
  apply app_eq_inv in Hr' as [(k & Ha & Hk)|(k & Hb & _)]; [|by exists k].
  exists []. rewrite app_nil_r. rewrite Ha, length_app in Hl. destruct k; [by rewrite Ha, app_nil_r|cbn in Hl; lia].
Qed.

Definition depth (r : ResolvedFileSystemEntry) : nat := length (components (resolved_path r)).

(** The entry that decides a path also decides the paths between it and that one. *)
Lemma access_between es t q r :
  abs_normal q → path_starts_with q t = true → path_starts_with (resolved_path r) q = true →
  max_of resolved_entry_precedence (matching (restricted es) t cwd) r →
  resolve_access_with_cwd (restricted es) q cwd = resolved_access r.
Proof.
  intros Hq Hqt Hrq [Hr Hmax]. apply (resolve_access_by (restricted es) q cwd q r); [done|by apply candidate_fixed| |].
  - apply matching_elem in Hr as [Hr _]. by apply matching_elem.
  - intros r' [Hr' Hc]%matching_elem. apply Hmax, matching_elem. split; [done|]. by eapply starts_with_trans.
Qed.

Lemma matching_covered es q t r :
  r ∈ matching (restricted es) q cwd → path_starts_with q t = true → r ∈ matching (restricted es) t cwd.
Proof. rewrite !matching_elem. intros [Hr Hc] Hq. split; [done|]. by eapply starts_with_trans. Qed.

(** A denial in the request below a grant that survives, at a path of the grant. *)
Lemma request_denial t r r0 g :
  Forall entry_wf G →
  r ∈ resolved_entries_with_cwd (restricted accepted) cwd → can_read (resolved_access r) = true →
  path_starts_with (resolved_path r) t = true →
  within g → resolve_permission_path (entry_path g) cwd = Some (resolved_path r) →
  max_of resolved_entry_precedence (matching (restricted R) t cwd) r0 → resolved_access r0 = Deny →
  ∃ r', r' ∈ matching (restricted I) t cwd ∧ resolved_access r' = Deny ∧ depth r < depth r'.
Proof.
  intros Hwf Hr Hread Hrt [Hg Hw] Hgq Hmax Hdeny. pose proof Hmax as [H0 _].
  apply matching_elem in H0 as [H0 H0t]. apply resolved_iff in H0 as (d & Hd & Hdq & Hda).
  destruct (decide (depth r0 ≤ depth r)) as [Hle|Hgt].
  - exfalso. assert (abs_normal (resolved_path r)) as Hn.
    { eapply permission_path_normal; [|done]. by eapply Forall_forall. }
    pose proof (access_between R t (resolved_path r) r0 Hn Hrt (starts_with_shorter _ _ _ H0t Hrt Hle) Hmax) as E.
    unfold granted_file_system_entry_within_request in Hw. rewrite Hgq, E, Hdeny in Hw.
    destruct (can_read (access g)) eqn:Hc; cbn [negb] in Hw; [|done].
    destruct (match matcher_new _ _ with Some _ => _ | None => _ end); [done|]. by destruct (access g).
  - destruct (deny_survives d (resolved_path r0) r) as (r' & Hr' & Ha' & Hc'); [by left|congruence|done|done|done| |].
    { unfold paths_overlap. apply orb_true_iff. left. apply (starts_with_shorter _ _ t); [done|done|]. unfold depth in *. lia. }
    exists r'. split; [|split; [done|unfold depth in *; rewrite Hc'; lia]]. apply matching_elem. split; [done|].
    apply path_starts_with_true. rewrite Hc'. by apply path_starts_with_true.
Qed.

Lemma not_longer es t r r' :
  max_of resolved_entry_precedence (matching (restricted es) t cwd) r →
  r' ∈ matching (restricted es) t cwd →
  depth r' < depth r ∨ (depth r' = depth r ∧ access_rank (resolved_access r') ≤ access_rank (resolved_access r)).
Proof. intros [_ Hmax] Hr'. specialize (Hmax r' Hr'). by apply precedence_le_spec in Hmax. Qed.

(** A surviving grant is covered by the request. *)
Lemma grant_requested t r g :
  Forall entry_wf G → within g → resolve_permission_path (entry_path g) cwd = Some (resolved_path r) →
  path_starts_with (resolved_path r) t = true → ∃ r1, r1 ∈ matching (restricted R) t cwd.
Proof.
  intros Hwf [Hg Hw] Hq Hrt.
  assert (abs_normal (resolved_path r)) as Hn by (eapply permission_path_normal; [by eapply Forall_forall|done]).
  unfold granted_file_system_entry_within_request in Hw. rewrite Hq in Hw.
  destruct (resolve_access_cases (restricted R) (resolved_path r) cwd (resolved_path r) eq_refl (candidate_fixed _ _ Hn))
    as [[_ E]|(r1 & [H1 _] & _)]; [|exists r1; by eapply matching_covered].
  rewrite E in Hw. destruct (can_read (access g)) eqn:Hc; cbn [negb] in Hw; [|done].
  destruct (match matcher_new _ _ with Some _ => _ | None => _ end); [done|]. by destruct (access g).
Qed.

Lemma granted_entry g r :
  within g → resolve_permission_path (entry_path g) cwd = Some (resolved_path r) → resolved_access r = access g →
  r ∈ resolved_entries_with_cwd (restricted G) cwd.
Proof. intros [Hg _] Hq Ha. apply resolved_iff. by exists g. Qed.

Lemma intersect_read path :
  Forall entry_wf G →
  can_read (resolve_access_with_cwd (restricted I) path cwd) = true →
  can_read (resolve_access_with_cwd (restricted R) path cwd) = true ∧
  can_read (resolve_access_with_cwd (restricted G) path cwd) = true.
Proof.
  intros Hwf Hread. destruct (resolve_candidate_path path cwd) as [t|] eqn:Ht.
  2:{ unfold resolve_access_with_cwd in Hread. by rewrite Ht in Hread. }
  destruct (resolve_access_cases (restricted I) path cwd t eq_refl Ht) as [[_ E]|(r & Hmax & E)]; rewrite E in Hread; [done|].
  pose proof Hmax as [[Hr Hrt]%matching_elem _]. destruct (readable_entry r Hr Hread) as (g & Hg & Hq & Ha & Hacc).
  split.
  - destruct (grant_requested t r g Hwf Hg Hq Hrt) as [r1 H1].
    destruct (resolve_access_cases (restricted R) path cwd t eq_refl Ht) as [[Hnil _]|(r0 & Hmax0 & ->)].
    { rewrite Hnil in H1. by apply not_elem_of_nil in H1. }
    destruct (resolved_access r0) eqn:Ea; [done..|exfalso].
    destruct (request_denial t r r0 g) as (r' & Hr' & _ & Hd); [done..|].
    destruct (not_longer _ _ _ _ Hmax Hr'); lia.
  - pose proof (granted_entry g r Hg Hq Ha) as HrG.
    destruct (resolve_access_cases (restricted G) path cwd t eq_refl Ht) as [[Hnil _]|(g0 & Hmax0 & ->)].
    { exfalso. assert (r ∈ matching (restricted G) t cwd) as H by (by apply matching_elem).
      rewrite Hnil in H. by apply not_elem_of_nil in H. }
    destruct (resolved_access g0) eqn:Ea; [done..|exfalso].
    assert (r ∈ matching (restricted G) t cwd) as HrG' by (by apply matching_elem).
    pose proof (not_longer _ _ _ _ Hmax0 HrG') as Hl. pose proof Hmax0 as [[H0 H0t]%matching_elem _].
    apply resolved_iff in H0 as (d & Hd & Hdq & Hda).
    destruct (deny_survives d (resolved_path g0) r) as (r' & Hr' & Ha' & Hc'); [by right|congruence|done|done|done| |].
    { unfold paths_overlap. apply orb_true_iff. left. apply (starts_with_shorter _ _ t); [done|done|]. unfold depth in *. lia. }
    assert (r' ∈ matching (restricted I) t cwd) as Hr''.
    { apply matching_elem. split; [done|]. apply path_starts_with_true. rewrite Hc'. by apply path_starts_with_true. }
    destruct (not_longer _ _ _ _ Hmax Hr'') as [Hl'|[Hl' Hrk]]; unfold depth in *; rewrite Hc' in Hl'; [lia|].
    rewrite Ha' in Hrk. destruct (resolved_access r); cbn in Hrk; [lia|lia|done].
Qed.

(** The matcher adds nothing to the entries: no symbolic links or patterns are involved
    at the granted paths. *)
Definition matcher_lexical : Prop :=
  ∀ g q, g ∈ G → resolve_permission_path (entry_path g) cwd = Some q →
    read_denied (restricted R) q cwd = true → resolve_access_with_cwd (restricted R) q cwd = Deny.

Lemma within_readable g q :
  matcher_lexical → g ∈ G → access g = Read → resolve_permission_path (entry_path g) cwd = Some q →
  can_read (resolve_access_with_cwd (restricted R) q cwd) = true → within g.
Proof.
  intros Hlex Hg Ha Hq Hread. split; [done|]. unfold granted_file_system_entry_within_request.
  rewrite Hq, Ha. cbn [can_read negb]. pose proof (Hlex g q Hg Hq) as Hd. unfold read_denied in Hd.
  destruct (match matcher_new _ _ with Some _ => _ | None => _ end); [|done].
  rewrite Hd in Hread by done. done.
Qed.

Lemma intersect_write path :
  Forall entry_wf G → matcher_lexical →
  can_write (resolve_access_with_cwd (restricted I) path cwd) = true →
  can_write (resolve_access_with_cwd (restricted G) path cwd) = true.
Proof.
  intros Hwf Hlex Hwrite.
  assert (can_read (resolve_access_with_cwd (restricted I) path cwd) = true) as Hread.
  { by destruct (resolve_access_with_cwd _ _ _). }
  apply intersect_read in Hread as [_ HreadG]; [|done].
  destruct (resolve_candidate_path path cwd) as [t|] eqn:Ht.
  2:{ unfold resolve_access_with_cwd in HreadG. by rewrite Ht in HreadG. }
  destruct (resolve_access_cases (restricted I) path cwd t eq_refl Ht) as [[_ E]|(r & Hmax & E)]; rewrite E in Hwrite; [done|].
  destruct (resolved_access r) eqn:Er; [done| |done].
  assert (can_read (resolved_access r) = true) as Hread by (by rewrite Er).
  pose proof Hmax as [[Hr Hrt]%matching_elem _]. destruct (readable_entry r Hr Hread) as (g & Hg & Hq & Ha & Hacc).
  pose proof (granted_entry g r Hg Hq Ha) as HrG.
  assert (r ∈ matching (restricted G) t cwd) as HrG' by (by apply matching_elem).
  destruct (resolve_access_cases (restricted G) path cwd t eq_refl Ht) as [[_ E']|(g0 & Hmax0 & E')]; rewrite E' in HreadG |- *; [done|].
  destruct (resolved_access g0) eqn:Ea; [exfalso|done|done].
  pose proof (not_longer _ _ _ _ Hmax0 HrG') as Hl. rewrite Er, Ea in Hl. cbn in Hl.
  assert (depth r < depth g0) as Hlt by lia. clear Hl.
  pose proof Hmax0 as [[H0 H0t]%matching_elem _]. apply resolved_iff in H0 as (g1 & Hg1 & Hq1 & Ha1).
  assert (path_starts_with (resolved_path r) (resolved_path g0) = true) as Hrg0.
  { apply (starts_with_shorter _ _ t); [done|done|]. unfold depth in *. lia. }
  assert (abs_normal (resolved_path g0)) as Hn by (eapply permission_path_normal; [by eapply Forall_forall|done]).
  destruct (resolve_access_cases (restricted R) (resolved_path g0) cwd (resolved_path g0) eq_refl (candidate_fixed _ _ Hn))
    as [[Hnil _]|(r0 & Hmax1 & E1)].
  { destruct (grant_requested (resolved_path g0) r g) as [r1 H1]; [done..|]. rewrite Hnil in H1.
    by apply not_elem_of_nil in H1. }
  destruct (can_read (resolved_access r0)) eqn:Er0.
  - destruct (accepted_survives g1 (resolved_path g0)) as (r' & Hr' & Ha' & Hc'); [|done|].
    { eapply within_readable; [done|done|congruence|done|by rewrite E1]. }
    assert (r' ∈ matching (restricted I) t cwd) as Hr''.
    { apply matching_elem. split; [done|]. apply path_starts_with_true. rewrite Hc'. by apply path_starts_with_true. }
    destruct (not_longer _ _ _ _ Hmax Hr''); unfold depth in *; rewrite Hc' in *; lia.
  - destruct (resolved_access r0) eqn:Er1; try done.
    destruct (request_denial (resolved_path g0) r r0 g) as (r' & Hr' & _ & Hd); [done..|].
    assert (r' ∈ matching (restricted I) t cwd) as Hr'' by (by eapply matching_covered).
    destruct (not_longer _ _ _ _ Hmax Hr''); lia.
Qed.
End Resolved.

(** ** Deny patterns *)

(** A pattern matches its literal part literally: up to its first special character,
    and as a whole when it has none. *)
Definition is_special_char (c : char) : bool :=
  is_glob_char c || N.eqb c (ch "{") || N.eqb c (ch "}") || N.eqb c (ch "\").

Class GlobLaws `{F : FsWorld} : Prop := {
  glob_literal g c : glob_is_match g c = true → any is_special_char g = false → c = g;
  glob_prefix g c pre x rest :
    glob_is_match g c = true → g = pre ++ x :: rest → any is_special_char pre = false →
    ∃ r, c = pre ++ r }.

(** The segments before the last separator of a beginning of a normal path. *)
Lemma normal_split_prefix t q r :
  abs_normal t → t = q ++ slash :: r →
  ∃ T1, Forall plain T1 ∧ split slash q = [] :: T1 ∧ path_starts_with (abs_string (reverse T1)) t = true.
Proof.
  intros (st & Hst & ->) E. pose proof (proj2 (Forall_reverse _ _) Hst) as Hr.
  assert (∃ T, split slash (abs_string st) = [] :: T ∧ (T = reverse st ∨ T = [[]] ∧ st = [])) as (T & ET & HT).
  { unfold abs_string. change (slash :: ?s) with ([] ++ slash :: s). rewrite split_prefix by apply not_elem_of_nil.
    eexists. split; [done|]. destruct (decide (st = [])) as [->|Hne]; [by right|]. left.
    apply split_join; [by destruct st as [|s0 st0]; [|rewrite reverse_cons; destruct (reverse st0)]|].
    eapply Forall_impl; [exact Hr|]. by intros x (_ & ? & _). }
  rewrite E, split_app_sep in ET. pose proof (split_nonempty slash q) as Hq. pose proof (split_nonempty slash r) as Hnr.
  destruct (split slash q) as [|q0 T1]; [done|]. cbn in ET. injection ET as -> ET. exists T1.
  assert (Forall plain T1 ∧ ∃ T2, reverse st = T1 ++ T2) as [Hp [T2 E2]].
  { destruct HT as [->|[-> ->]].
    - rewrite <-ET in Hr. apply Forall_app in Hr as [? _]. eauto.
    - destruct T1 as [|x T1]; [split; [constructor|by exists []]|]. exfalso. cbn in ET.
      injection ET as _ ET. by apply app_nil in ET as [_ ET]. }
  split; [done|]. split; [done|]. apply path_starts_with_true. rewrite !components_abs_string by (done || by apply Forall_reverse).
  rewrite reverse_involutive, E2, fmap_app. by eexists.
Qed.

Lemma rsplit_slash p : path_is_absolute p = true → ∃ q seg, p = q ++ slash :: seg ∧ (slash ∉ seg).
Proof.
  intros [r ->]%path_is_absolute_true.
  assert (∀ r, ∃ q seg, slash :: r = q ++ slash :: seg ∧ (slash ∉ seg)) as H; [|apply H].
  clear r. intros r. induction r as [|c r IH] using rev_ind; [exists [], []; split; [done|apply not_elem_of_nil]|].
  destruct (decide (c = slash)) as [->|Hne].
  - exists (slash :: r), []. split; [done|apply not_elem_of_nil].
  - destruct IH as (q & seg & E & Hs). exists q, (seg ++ [c]). split; [|set_solver].
    rewrite app_comm_cons, E, <-app_assoc. done.
Qed.

Lemma path_parent_prefix q seg T1 x :
  split slash q = [] :: T1 → Forall plain T1 → slash ∉ seg → seg ≠ [] →
  path_parent (q ++ slash :: seg) = Some x →
  ∃ T, x = abs_string (reverse T) ∧ Forall plain T ∧ ∃ T', T1 = T ++ T'.
Proof.
  intros Hq Hp Hs Hne. unfold path_parent, components.
  assert (path_is_absolute (q ++ slash :: seg) = true) as Ha.
  { apply path_is_absolute_true. pose proof (join_split slash q) as E. rewrite Hq in E.
    destruct T1; cbn in E; subst q; cbn; eauto. }
  rewrite Ha, split_app_sep, Hq, (split_none slash seg) by done. cbn [omap list_omap app].
  cbn [component_of_segment is_empty orb]. unfold app at 1.
  rewrite (omap_app _ T1 [seg]), omap_component_plain by done.
  assert (∀ T, buf_string (reverse (Normal <$> T) ++ [RootDir]) = abs_string (reverse T)) as Hbuf.
  { intros T. rewrite <-fmap_reverse. apply buf_string_abs. }
  cbn [omap list_omap]. unfold component_of_segment. rewrite (proj2 (is_empty_false seg) Hne). cbn [orb].
  assert (∀ c, (c = ParentDir ∨ c = Normal seg) →
    match reverse (RootDir :: (Normal <$> T1) ++ [c]) with [] | RootDir :: _ => None | _ :: cs => Some (buf_string cs) end = Some x →
    ∃ T, x = abs_string (reverse T) ∧ Forall plain T ∧ ∃ T', T1 = T ++ T') as Hlast.
  { intros c Hc. rewrite reverse_cons, reverse_app. cbn [reverse rev_append app]. intros H.
    exists T1. split; [|split; [done|exists []; by rewrite app_nil_r]]. destruct Hc as [->| ->]; cbn in H; injection H as <-; apply Hbuf. }
  destruct (str_eqb_reflect seg dot) as [->|Hd].
  - rewrite app_nil_r. intros H. destruct T1 as [|s T0 _] using rev_ind; [done|]. exists T0.
    apply Forall_app in Hp as [Hp _]. split; [|split; [done|by exists [s]]].
    rewrite fmap_app, app_comm_cons, reverse_app, reverse_cons in H. cbn [fmap list_fmap reverse rev_append app] in H.
    injection H as <-. apply Hbuf.
  - destruct (str_eqb_reflect seg dotdot) as [->|Hdd]; apply Hlast; auto.
Qed.

Lemma split_special p :
  match split_once_by is_glob_char p with
  | None => any is_glob_char p = false
  | Some (pre, rest) => ∃ x, p = pre ++ x :: rest
  end.
Proof.
  destruct (split_once_by is_glob_char p) as [[pre rest]|] eqn:E.
  - apply split_once_by_Some in E as (c & -> & _). by exists c.
  - induction p as [|c p IH]; [done|]. cbn in E |- *. destruct (is_glob_char c); [done|].
    apply IH. by destruct (split_once_by is_glob_char p) as [[]|].
Qed.

Section DenyPatterns.
Context `{L : PermWorldLaws} `{GL : GlobLaws}.
Context (cwd : str) (Hcwd : path_is_absolute cwd = true).

(** Only wildcards and classes are used. *)
Definition simple_pattern (p : str) : Prop := ∀ c, c ∈ p → is_special_char c = true → is_glob_char c = true.

Lemma simple_pattern_check p : all (λ c, implb (is_special_char c) (is_glob_char c)) p = true → simple_pattern p.
Proof. rewrite all_true. intros H c Hc Hs. specialize (H c Hc). by rewrite Hs in H. Qed.

(** A path that matches a pattern is below the pattern's static prefix. *)
Lemma static_prefix_covers pattern s t :
  let g := resolve_path_against_base perm_home pattern cwd in
  simple_pattern g → glob_static_prefix_path pattern cwd = Some s → abs_normal t →
  glob_is_match g t = true → path_starts_with s t = true.
Proof.
  intros g Hsimple Hs Ht Hm. unfold glob_static_prefix_path in Hs. fold g in Hs.
  assert (abs_normal g) as Hg by (by apply absolutize_from_normal).
  pose proof (split_special g) as Hsp. destruct (split_once_by is_glob_char g) as [[pre rest]|] eqn:Esp.
  - apply split_once_by_Some in Esp as (x & Eg & Hx & Hpre). clear Hsp.
    assert (any is_special_char pre = false) as Hno.
    { apply any_false. intros c Hc. destruct (is_special_char c) eqn:Ec; [|done]. exfalso.
      assert (is_glob_char c = true) as Hc'. { apply Hsimple; [rewrite Eg; set_solver|done]. }
      rewrite Forall_forall in Hpre. specialize (Hpre c Hc). congruence. }
    destruct (glob_prefix g t pre x rest Hm Eg Hno) as [r Et].
    destruct pre as [|c0 pre0]; [done|]. set (pre := c0 :: pre0) in *.
    assert (path_is_absolute pre = true) as Hpa.
    { destruct Hg as (st & _ & E). rewrite E in Eg. injection Eg as <- _. apply path_is_absolute_true. by eexists. }
    destruct (rsplit_slash pre Hpa) as (q & seg & Epre & Hseg).
    destruct (normal_split_prefix t q (seg ++ r) Ht) as (T1 & HT1 & Eq & Hcov).
    { by rewrite Et, Epre, <-app_assoc. }
    assert (∀ T T', T1 = T ++ T' → path_starts_with (abs_string (reverse T)) t = true) as Hsub.
    { intros T T' ->. apply Forall_app in HT1 as HTT. destruct HTT as [HT HT'].
      eapply starts_with_trans; [|exact Hcov]. apply path_starts_with_true.
      rewrite !components_abs_string by (apply Forall_reverse; try apply Forall_app; done).
      rewrite !reverse_involutive, fmap_app. by eexists. }
    destruct (ends_with [slash] pre || ends_with (lit "\") pre) eqn:Eends.
    + apply orb_true_iff in Eends as [He|He].
      * cbn in Hs. apply ends_with_true in He as [q' Eq'].
        assert (seg = [] ∧ q = q') as [-> ->].
        { rewrite Epre in Eq'. destruct seg as [|y seg _] using rev_ind.
          - by apply app_inj_tail in Eq' as [-> _].
          - rewrite app_comm_cons, app_assoc in Eq'. apply app_inj_tail in Eq' as [_ ->].
            exfalso. apply Hseg. set_solver. }
        unfold absolute_path, from_absolute_path, absolutize in Hs. rewrite expand_no_tilde, Hpa in Hs.
        -- injection Hs as <-. rewrite normalize_path_abs by done. rewrite Epre, walk_app_sep.
           assert (walk (walk [] q') [] = reverse T1) as ->; [|done].
           unfold walk at 2. rewrite Eq. cbn. by rewrite fold_walk_plain, app_nil_r.
        -- apply path_is_absolute_true in Hpa as [r0 Er0]. rewrite Er0. by cbn.
      * exfalso. apply ends_with_true in He as [q' Eq']. rewrite any_false in Hno.
        replace (lit "\") with [92%N] in Eq' by by_compute.
        assert (is_special_char 92 = true) as H92 by by_compute. rewrite Hno in H92; [done|].
        rewrite Eq'. apply elem_of_app. right. by left.
    + assert (seg ≠ []) as Hne.
      { intros ->. apply orb_false_iff in Eends as [Eends _]. rewrite Epre in Eends.
        assert (ends_with [slash] (q ++ [slash]) = true) by (apply ends_with_true; by exists q). congruence. }
      apply bind_Some in Hs as (x0 & Hpar & Habs). rewrite Epre in Hpar.
      destruct (path_parent_prefix q seg T1 x0 Eq HT1 Hseg Hne Hpar) as (T & -> & HT & T' & ET).
      rewrite absolute_path_fixed in Habs by (exists (reverse T); split; [by apply Forall_reverse|done]).
      injection Habs as <-. by eapply Hsub.
  - assert (any is_special_char g = false) as Hno.
    { apply any_false. intros c Hc. destruct (is_special_char c) eqn:Ec; [|done]. exfalso.
      rewrite any_false in Hsp. specialize (Hsp c Hc). by rewrite (Hsimple c Hc Ec) in Hsp. }
    apply glob_literal in Hm as ->; [|done]. cbn in Hs. rewrite absolute_path_fixed in Hs by done.
    injection Hs as <-. apply path_starts_with_refl.
Qed.

Lemma resolve_pattern_twice pattern :
  let g := resolve_path_against_base perm_home pattern cwd in resolve_path_against_base perm_home g cwd = g.
Proof.
  intros g. assert (abs_normal g) as (st & Hst & E) by (by apply absolutize_from_normal). rewrite E.
  unfold resolve_path_against_base. rewrite expand_no_tilde by (by vm_compute).
  by rewrite absolutize_from_walk, abs_string_absolute, walk_abs_string.
Qed.

Lemma pattern_kept es new g :
  mkEntry (GlobPattern g) Deny ∈ new → mkEntry (GlobPattern g) Deny ∈ push_missing es new.
Proof.
  intros H. destruct (push_missing_adds es new _ H) as ([ep a] & He & Heq). unfold entry_eq in Heq. cbn in Heq.
  apply andb_true_iff in Heq as [Hp Ha%bool_decide_eq_true]. destruct ep as [|g'|]; cbn in Hp; try done.
  apply str_eqb_true in Hp as ->. by rewrite Ha in He.
Qed.

(** A deny pattern that matches a path which a surviving grant covers survives. *)
Lemma pattern_survives requested granted pattern s r t :
  let R := fs_entries requested in let G := fs_entries granted in
  let g := resolve_path_against_base perm_home pattern cwd in
  mkEntry (GlobPattern pattern) Deny ∈ R ∨ mkEntry (GlobPattern pattern) Deny ∈ G →
  simple_pattern g → glob_static_prefix_path pattern cwd = Some s → abs_normal t →
  glob_is_match g t = true →
  r ∈ resolved_entries_with_cwd (restricted (accepted_entries requested granted cwd)) cwd →
  can_read (resolved_access r) = true → path_starts_with (resolved_path r) t = true →
  mkEntry (GlobPattern g) Deny ∈ fs_entries (intersect_file_system requested granted cwd).
Proof.
  intros R G g Hd Hsimple Hs Ht Hm Hr Hread Hrt. set (accepted := accepted_entries requested granted cwd) in *.
  pose proof (static_prefix_covers pattern s t Hsimple Hs Ht Hm) as Hst.
  assert (deny_entry_constrains_accepted_grant accepted cwd (mkEntry (GlobPattern pattern) Deny) = true) as Hc.
  { apply (resolved_iff cwd Hcwd) in Hr as (en & He & Hq & Hra). unfold deny_entry_constrains_accepted_grant.
    apply any_true. exists en. split.
    - apply list_elem_of_In, filter_In. rewrite <-list_elem_of_In. split; [done|]. by rewrite <-Hra.
    - rewrite Hq. cbn [entry_path]. rewrite Hs. unfold paths_overlap. apply orb_true_iff.
      destruct (decide (length (components (resolved_path r)) ≤ length (components s))) as [Hl|Hl].
      + left. by apply (starts_with_shorter _ _ t).
      + right. apply (starts_with_shorter _ _ t); [done|done|lia]. }
  assert (∀ source, mkEntry (GlobPattern pattern) Deny ∈ source →
    mkEntry (GlobPattern g) Deny ∈ retained_deny_entries source accepted cwd) as Hret.
  { intros source Hin. unfold retained_deny_entries.
    change (mkEntry (GlobPattern g) Deny) with (materialize_cwd_dependent_entry cwd (mkEntry (GlobPattern pattern) Deny)).
    apply list_elem_of_fmap_2, list_elem_of_In, filter_In. rewrite <-list_elem_of_In. split; [done|].
    unfold is_deny. by rewrite bool_decide_true, Hc. }
  rewrite (intersect_entries cwd). fold accepted R G. destruct Hd as [Hd|Hd]; [apply push_missing_keeps|]; by apply pattern_kept, Hret.
Qed.

Lemma pattern_denies requested granted pattern path t :
  let R := fs_entries requested in let G := fs_entries granted in
  let g := resolve_path_against_base perm_home pattern cwd in
  mkEntry (GlobPattern pattern) Deny ∈ R ∨ mkEntry (GlobPattern pattern) Deny ∈ G →
  simple_pattern g → opt_is_some (glob_static_prefix_path pattern cwd) = true →
  path_is_absolute path = true → absolute_path path = Some t → glob_is_match g t = true →
  let i := restricted (fs_entries (intersect_file_system requested granted cwd)) in
  can_read (resolve_access_with_cwd i path cwd) = true → read_denied i path cwd = true.
Proof.
  intros R G g Hd Hsimple Hs Hpath Ht Hm i Hread.
  destruct (glob_static_prefix_path pattern cwd) as [s|] eqn:Es; [|done].
  assert (resolve_candidate_path path cwd = Some t) as Hc by (unfold resolve_candidate_path; by rewrite Hpath).
  destruct (resolve_access_cases i path cwd t eq_refl Hc) as [[_ E]|(r & Hmax & E)]; rewrite E in Hread; [done|].
  pose proof Hmax as [[Hr Hrt]%matching_elem _].
  destruct (readable_entry cwd Hcwd requested granted r Hr Hread) as (g0 & _ & _ & _ & Hacc).
  assert (mkEntry (GlobPattern g) Deny ∈ fs_entries (intersect_file_system requested granted cwd)) as Hin.
  { eapply pattern_survives; try done. by eapply absolute_path_normal_form. }
  apply read_denied_true; [done|]. left. exists g. split.
  - apply elem_of_unreadable_globs; [done|]. exists g. split; [done|]. symmetry. apply resolve_pattern_twice.
  - right. exists t. split; [|done]. unfold normalized_and_canonical_candidates. rewrite Ht. cbn [default id].
    unfold push_unique at 2. cbn [any existsb]. cbn. destruct (c ← canonicalize path; absolute_path c); [|by left].
    unfold push_unique. cbn. destruct (path_eq t l); cbn; set_solver.
Qed.
End DenyPatterns.

Section Properties.
Context `{L : PermWorldLaws} `{F : FsWorld}.

Definition granted_files (p : AdditionalPermissionProfile) : FileSystemSandboxPolicy :=
  restricted (fs_entries (default fs_default (ap_file_system p))).

Lemma intersect_files requested granted cwd :
  granted_files (intersect_permission_profiles requested granted cwd) =
  match ap_file_system requested with
  | Some f => restricted (fs_entries (intersect_file_system f (default fs_default (ap_file_system granted)) cwd))
  | None => restricted []
  end.
Proof.
  unfold granted_files, intersect_permission_profiles. cbn [ap_file_system]. destruct (ap_file_system requested) as [f|]; [|done].
  cbn [fmap option_fmap option_map opt_filter]. destruct (fs_is_empty _) eqn:E; cbn [negb default id]; [|done].
  unfold fs_is_empty in E. apply is_empty_true in E. by rewrite E.
Qed.

(** A deny pattern is not lost in an intersection: a path that matches a pattern the
    request or the grant denies, and that the intersection would let a command read,
    is denied by the intersection's own matcher, for patterns made of wildcards and
    classes. *)
Lemma deny_patterns_kept `{!GlobLaws} requested granted cwd pattern path t :
  path_is_absolute cwd = true →
  let g := resolve_path_against_base perm_home pattern cwd in
  let deny := mkEntry (GlobPattern pattern) Deny in
  deny ∈ entries (granted_files requested) ∨ deny ∈ entries (granted_files granted) →
  simple_pattern g → opt_is_some (glob_static_prefix_path pattern cwd) = true →
  path_is_absolute path = true → absolute_path path = Some t → glob_is_match g t = true →
  let i := granted_files (intersect_permission_profiles requested granted cwd) in
  can_read (resolve_access_with_cwd i path cwd) = true → read_denied i path cwd = true.
Proof.
  intros Hcwd g deny Hd Hsimple Hs Hpath Ht Hm i. unfold i. rewrite intersect_files.
  unfold granted_files in Hd. destruct (ap_file_system requested) as [f|].
  - by eapply pattern_denies.
  - unfold resolve_access_with_cwd. cbn. by destruct (resolve_candidate_path path cwd).
Qed.

(** The deny patterns of a profile, made of wildcards and classes and with a prefix that
    resolves, that match a path. *)
Definition pattern_forbids (p : AdditionalPermissionProfile) (cwd path : str) : Prop :=
  ∃ pattern t, mkEntry (GlobPattern pattern) Deny ∈ entries (granted_files p) ∧
    simple_pattern (resolve_path_against_base perm_home pattern cwd) ∧
    opt_is_some (glob_static_prefix_path pattern cwd) = true ∧
    path_is_absolute path = true ∧ absolute_path path = Some t ∧
    glob_is_match (resolve_path_against_base perm_home pattern cwd) t = true.

(** C23: A grant never exceeds what was granted nor, for reads, what was requested.  For an
    absolute working directory and a granted policy in normal form: a path that the path
    entries of the intersection let a command read may be read under the path entries of the
    request and under those of the grant, and when moreover a deny pattern of either matches
    it the intersection's own matcher denies it, so that what can be read in the end is
    forbidden by neither (for patterns made of the wildcards [*], [?] and classes, whose
    literal beginning is matched literally; patterns with alternatives in braces or escapes
    are left out, since [alternatives_dropped] shows the code lose one); a path the
    intersection lets a command write may be written under the grant, when no symbolic link
    or deny pattern of the request touches a granted path; and the network is open only
    when both open it. *)
Theorem intersect_within_grant `{!GlobLaws} requested granted cwd path :
  path_is_absolute cwd = true → policy_wf (granted_files granted) →
  let i := intersect_permission_profiles requested granted cwd in
  (can_read (resolve_access_with_cwd (granted_files i) path cwd) = true →
     can_read (resolve_access_with_cwd (granted_files requested) path cwd) = true ∧
     can_read (resolve_access_with_cwd (granted_files granted) path cwd) = true ∧
     (read_denied (granted_files i) path cwd = false →
        ¬ pattern_forbids requested cwd path ∧ ¬ pattern_forbids granted cwd path)) ∧
  (matcher_lexical cwd (default fs_default (ap_file_system requested)) (default fs_default (ap_file_system granted)) →
   can_write (resolve_access_with_cwd (granted_files i) path cwd) = true →
     can_write (resolve_access_with_cwd (granted_files granted) path cwd) = true) ∧
  (ap_network i = Some (Some true) ↔
     ap_network requested = Some (Some true) ∧ ap_network granted = Some (Some true)).
Proof.
  intros Hcwd Hwf i.
  assert (∀ p, p = requested ∨ p = granted → pattern_forbids p cwd path →
    can_read (resolve_access_with_cwd (granted_files i) path cwd) = true →
    read_denied (granted_files i) path cwd = true) as Hdeny.
  { intros p Hp (pattern & t & ? & ? & ? & ? & ? & ?) ?.
    by apply (deny_patterns_kept requested granted cwd pattern path t); [|destruct Hp as [->| ->]; auto|..]. }
  assert (can_read (resolve_access_with_cwd (granted_files i) path cwd) = true →
    read_denied (granted_files i) path cwd = false →
    ¬ pattern_forbids requested cwd path ∧ ¬ pattern_forbids granted cwd path) as Hfree.
  { intros Hr Hn. split; intros Hf; apply Hdeny in Hf; auto; congruence. }
  clear Hdeny. revert Hfree. unfold i. rewrite intersect_files. intros Hfree.
  assert (∀ x, can_read (resolve_access_with_cwd (restricted []) x cwd) = true → False) as Hnone.
  { intros x. unfold resolve_access_with_cwd. cbn. by destruct (resolve_candidate_path x cwd). }
  split; [|split].
  - destruct (ap_file_system requested) as [f|] eqn:Ef; [|by intros ?%Hnone].
    intros Hr. specialize (Hfree Hr). apply intersect_read in Hr as [? ?]; [|done|done].
    assert (granted_files requested = restricted (fs_entries f)) as -> by (unfold granted_files; by rewrite Ef).
    done.
  - destruct (ap_file_system requested) as [f|] eqn:Ef; [by apply intersect_write|].
    intros _ Hw. exfalso. apply (Hnone path). by destruct (resolve_access_with_cwd _ _ _).
  - cbn [ap_network intersect_permission_profiles].
    destruct (ap_network requested) as [[[]|]|], (ap_network granted) as [[[]|]|]; naive_solver.
Qed.

(** *** Merging into a policy *)

Lemma entry_eq_path_wf cwd x m q :
  entry_wf x → entry_wf m → entry_eq x m = true → resolve_permission_path (entry_path m) cwd = Some q →
  access x = access m ∧
  ∃ q', resolve_permission_path (entry_path x) cwd = Some q' ∧ components q' = components q.
Proof.
  intros Hx Hm Heq Hq. destruct (entry_path m) as [p|g|v] eqn:Em; [| |destruct v as [| |sub| | |] eqn:Ev];
    try (apply (entry_eq_path cwd x m); [done|unfold not_project; by rewrite Em|by rewrite Em]).
  unfold entry_eq in Heq. apply andb_true_iff in Heq as [Heq Ha%bool_decide_eq_true]. split; [done|].
  unfold entry_wf in Hx, Hm. rewrite Em in Heq, Hm. destruct (entry_path x) as [p|g|v'] eqn:Ex; try done.
  destruct v' as [| |sub'| | |]; try done. cbn in Heq. exists q. split; [|done].
  rewrite <-Hq. destruct sub as [sub|], sub' as [sub'|]; try done. cbn in Heq.
  by rewrite (normal_subpath_eq sub' sub Hx Hm Heq).
Qed.

(** Additional permissions take effect by precedence only: in the effective policy a
    path has the access of the most specific entry among those of the policy and the
    added ones, a denial winning over a grant of the same length, and no access when
    none covers it. *)
Theorem effective_policy_precedence p network added cwd path t :
  path_is_absolute cwd = true → kind p = Restricted → policy_wf p → Forall entry_wf (fs_entries added) →
  resolve_candidate_path path cwd = Some t →
  let m := effective_file_system_sandbox_policy p (Some (mkAdditional network (Some added))) in
  let covers r := r ∈ matching p t cwd ∨ r ∈ matching (restricted (fs_entries added)) t cwd in
  ((∀ r, ¬ covers r) ∧ resolve_access_with_cwd m path cwd = Deny) ∨
  ∃ r, covers r ∧ resolve_access_with_cwd m path cwd = resolved_access r ∧
    ∀ r', covers r' → precedence_le (resolved_entry_precedence r') (resolved_entry_precedence r) = true.
Proof.
  intros Hcwd Hk Hwf Hadd Ht m covers. destruct p as [k depth0 es]. cbn in Hk. subst k. unfold policy_wf in Hwf. cbn in Hwf.
  assert (∃ d, m = mkPolicy Restricted d (push_missing es (fs_entries added))) as [d Em].
  { unfold m. cbn. unfold fs_is_empty. destruct (fs_entries added); [by exists depth0|]. cbn. eauto. }
  assert (∀ dd es0, matching (mkPolicy Restricted dd es0) t cwd = matching (restricted es0) t cwd) as Hdepth by done.
  assert (∀ r, r ∈ matching m t cwd → covers r) as H1.
  { intros r. rewrite Em, Hdepth, matching_elem, (resolved_iff cwd Hcwd). intros [(en & He & Hq & Ha) Hc].
    unfold covers. rewrite Hdepth, !matching_elem, !(resolved_iff cwd Hcwd).
    apply push_missing_only in He as [He|He]; [left|right]; eauto. }
  assert (∀ r, covers r → ∃ r', r' ∈ matching m t cwd ∧ resolved_entry_precedence r' = resolved_entry_precedence r) as H2.
  { intros r. unfold covers. rewrite Em, !Hdepth. setoid_rewrite matching_elem. setoid_rewrite (resolved_iff cwd Hcwd).
    intros [[(en & He & Hq & Ha) Hc]|[(en & He & Hq & Ha) Hc]].
    - exists r. split; [|done]. split; [|done]. exists en. split; [by apply push_missing_keeps|done].
    - destruct (push_missing_adds es _ en He) as (x & Hx & Heq).
      assert (entry_wf x) as Hwx.
      { apply push_missing_only in Hx as [Hx|Hx]; [by apply (proj1 (Forall_forall _ _) Hwf)|by apply (proj1 (Forall_forall _ _) Hadd)]. }
      destruct (entry_eq_path_wf cwd x en _ Hwx (proj1 (Forall_forall _ _) Hadd _ He) Heq Hq) as (Hax & q' & Hq' & Hcq).
      exists {| resolved_path := q'; resolved_access := access x |}. split; [split; [by exists x|]|].
      + apply path_starts_with_true. cbn. rewrite Hcq. by apply path_starts_with_true.
      + unfold resolved_entry_precedence. cbn. by rewrite Hcq, Hax, Ha. }
  assert (kind m = Restricted) as Hkm by (by rewrite Em).
  destruct (resolve_access_cases m path cwd t Hkm Ht) as [[Hnil E]|(r & [Hr Hmax] & E)]; [left|right].
  - split; [|done]. intros r (r' & Hr' & _)%H2. rewrite Hnil in Hr'. by apply not_elem_of_nil in Hr'.
  - exists r. split; [by apply H1|]. split; [done|]. intros r' (r1 & Hr1 & <-)%H2. by apply Hmax.
Qed.

(** The effective network policy opens the network exactly when the policy or the
    added permissions do, and the platform sandbox is left out only for a process
    that an external sandbox confines or that may use the network and write every
    path. *)
Theorem platform_sandbox_required fs net managed additional :
  (net_is_enabled (effective_network_sandbox_policy net additional) = true ↔
     net_is_enabled net = true ∨ ∃ a, additional = Some a ∧ ap_network a = Some (Some true)) ∧
  (should_require_platform_sandbox fs net managed = false →
     managed = false ∧ (kind fs = ExternalSandbox ∨
       (net_is_enabled net = true ∧ has_full_disk_write_access fs = true))).
Proof.
  split.
  - unfold effective_network_sandbox_policy, merge_network_access. destruct additional as [a|]; [|naive_solver].
    destruct net, (ap_network a) as [[[]|]|] eqn:E; cbn; naive_solver.
  - unfold should_require_platform_sandbox. destruct managed; [done|].
    unfold has_full_disk_write_access. destruct net, (kind fs); cbn; intros H; try done; auto.
    rewrite negb_false_iff in H. auto.
Qed.
End Properties.

(** ** Examples *)

(** A file system without links, and patterns with one star at the end. *)
Definition demo_fs_world : FsWorld :=
  {| canonicalize := λ _, None; symlink_metadata := λ _, None; glob_error := λ _, None;
     glob_is_match := λ g c, (g == c) || match split_once (ch "*") g with
                                          | Some (pre, []) => starts_with pre c
                                          | _ => false
                                          end |}.

Lemma demo_glob_laws : GlobLaws (F := demo_fs_world).
Proof.
  split; cbn.
  - intros g c [H%str_eqb_true|H]%orb_true_iff Hno; [done|].
    destruct (split_once (ch "*") g) as [[pre rest]|] eqn:E; [|done].
    apply split_once_Some in E as [-> _]. rewrite any_false in Hno.
    assert (is_special_char (ch "*") = true) as Hs by by_compute.
    rewrite Hno in Hs; [done|]. apply elem_of_app. right. by left.
  - intros g c pre x rest [H%str_eqb_true|H]%orb_true_iff Eg Hno; [subst; eauto|].
    destruct (split_once (ch "*") g) as [[p r]|] eqn:E; [|done]. destruct r; [|done].
    apply split_once_Some in E as [E _]. apply starts_with_true in H as [c' ->]. rewrite Eg in E.
    apply app_eq_inv in E as [(k & -> & E)|(k & -> & _)]; [|rewrite <-app_assoc; eauto].
    destruct k as [|y k]; cbn in E; [rewrite app_nil_r; eauto|]. injection E as E _. exfalso.
    assert (is_special_char (ch "*") = true) as Hs by by_compute. rewrite any_false in Hno.
    rewrite Hno in Hs; [done|]. apply elem_of_app. right. rewrite E. by left.
Qed.

Definition demo_profile (es : list FileSystemSandboxEntry) : AdditionalPermissionProfile :=
  mkAdditional None (Some (mkFsPerms es None)).

#[local] Existing Instance demo_perm_world.
#[local] Existing Instance demo_fs_world.

(** The request leaves [docs] read-only below a writable directory; the grant of that
    directory is accepted as a whole, and the carve-out is lost. *)
Example request_carveout_lost :
  let requested := demo_profile [mkEntry (Path (lit "/work")) Write; mkEntry (Path (lit "/work/docs")) Read] in
  let granted := demo_profile [mkEntry (Path (lit "/work")) Write] in
  let i := intersect_permission_profiles requested granted (lit "/work") in
  resolve_access_with_cwd (granted_files requested) (lit "/work/docs") (lit "/work") = Read ∧
  resolve_access_with_cwd (granted_files i) (lit "/work/docs") (lit "/work") = Write.
Proof. by vm_compute. Qed.

(** A pattern with alternatives counts as literal, so that its denial is dropped although
    it covers files below the grant. *)
Example alternatives_dropped :
  let deny := mkEntry (GlobPattern (lit "/work/{a,b}/secret")) Deny in
  let requested := demo_profile [mkEntry (Path (lit "/work/a")) Read; deny] in
  ap_file_system (intersect_permission_profiles requested requested (lit "/work")) =
    Some (mkFsPerms [mkEntry (Path (lit "/work/a")) Read] None).
Proof. by vm_compute. Qed.

Lemma intersect_within_grant_witness :
  let requested := demo_profile [mkEntry (Path (lit "/work")) Write; mkEntry (GlobPattern (lit "/work/key*")) Deny;
                                 mkEntry (Path (lit "/work/keys")) Deny] in
  let granted := demo_profile [mkEntry (Path (lit "/work")) Write] in
  let i := intersect_permission_profiles requested granted (lit "/work") in
  can_write (resolve_access_with_cwd (granted_files i) (lit "/work/src") (lit "/work")) = true ∧
  can_read (resolve_access_with_cwd (granted_files requested) (lit "/work/src") (lit "/work")) = true ∧
  ¬ pattern_forbids requested (lit "/work") (lit "/work/src") ∧
  can_read (resolve_access_with_cwd (granted_files i) (lit "/work/keys") (lit "/work")) = false ∧
  read_denied (granted_files i) (lit "/work/key.pem") (lit "/work") = true.
Proof.
  intros requested granted i.
  destruct (intersect_within_grant (L := demo_perm_laws) (H := demo_glob_laws) requested granted (lit "/work") (lit "/work/src"))
    as [H _].
  - reflexivity.
  - constructor; [|constructor]. apply (demo_abs _ [lit "work"]); vm_compute; reflexivity.
  - split; [vm_compute; reflexivity|]. destruct H as (H1 & _ & H3); [vm_compute; reflexivity|].
    destruct H3 as [H3 _]; [vm_compute; reflexivity|]. split; [exact H1|]. split; [exact H3|].
    split; vm_compute; reflexivity.
Defined.

Lemma effective_policy_precedence_witness :
  let p := demo_policy in
  let added := mkFsPerms [mkEntry (Path (lit "/work/.git/hooks")) Write] None in
  resolve_access_with_cwd (effective_file_system_sandbox_policy p (Some (mkAdditional None (Some added))))
    (lit "/work/.git/hooks/x") (lit "/work") = Deny.
Proof.
  intros p added.
  destruct (effective_policy_precedence (L := demo_perm_laws) p None added (lit "/work") (lit "/work/.git/hooks/x")
    (lit "/work/.git/hooks/x") eq_refl eq_refl demo_policy_wf) as [[_ E]|(r & Hr & E & Hmax)].
  - constructor; [|constructor]. apply (demo_abs _ [lit "hooks"; lit ".git"; lit "work"]); vm_compute; reflexivity.
  - vm_compute. reflexivity.
  - exact E.
  - vm_compute. reflexivity.
Defined.
