(* ===== verification/CommandSafety.v ===== *)
(** * Shell command safety

    [shell-command/src/bash.rs] and
    [shell-command/src/command_safety/{is_dangerous_command,is_safe_command}.rs]
    (the Unix build; the safe list is the one of Linux).

    tree-sitter is a library: its syntax tree is the data type [Node] and its
    parser the parameter [try_parse_shell] of the section.  The walks over the
    tree are the stack loops of the code; their fuel is the number of nodes and
    the lemmas [walk_*] show it is enough. *)

From S2P Require Import Prelude RustStr HostShell.

(** ** tree-sitter's tree *)

(** A node: its kind, whether it is named, whether its subtree has an error,
    where it starts, the source text it spans ([None] when that is not UTF-8) and
    its children. *)
Inductive Node :=
  mkNode (kind : str) (is_named has_error : bool) (start_byte : N) (utf8_text : option str)
    (children : list Node).

Definition kind (n : Node) : str := let 'mkNode k _ _ _ _ _ := n in k.
Definition is_named (n : Node) : bool := let 'mkNode _ b _ _ _ _ := n in b.
Definition has_error (n : Node) : bool := let 'mkNode _ _ b _ _ _ := n in b.
Definition start_byte (n : Node) : N := let 'mkNode _ _ _ i _ _ := n in i.
Definition utf8_text (n : Node) : option str := let 'mkNode _ _ _ _ t _ := n in t.
Definition children (n : Node) : list Node := let 'mkNode _ _ _ _ _ cs := n in cs.

Definition named_children (n : Node) : list Node := List.filter is_named (children n).
Definition named_child (n : Node) (i : nat) : option Node := named_children n !! i.

Fixpoint node_count (n : Node) : nat :=
  let 'mkNode _ _ _ _ _ cs := n in S (sum_list_with node_count cs).
Definition nodes_count (ns : list Node) : nat := sum_list_with node_count ns.

Definition one_of (s : str) (l : list str) : bool := any (str_eqb s) l.
Arguments one_of : simpl never.

(** ** Word-only command sequences *)

Definition ALLOWED_KINDS : list str :=
  lit <$> ["program"; "list"; "pipeline"; "command"; "command_name"; "word"; "string";
           "string_content"; "raw_string"; "number"; "concatenation"]%string.
Definition ALLOWED_PUNCT_TOKENS : list str :=
  (lit <$> ["&&"; "||"; ";"; "|"]%string) ++ [dquote; lit "'"].

(** The tests of the loop body on one node. *)
Definition node_allowed (n : Node) : bool :=
  if is_named n then one_of (kind n) ALLOWED_KINDS
  else
    negb (existsb (λ c, contains_char c (lit "&;|")) (kind n)
          && negb (one_of (kind n) ALLOWED_PUNCT_TOKENS))
    && (one_of (kind n) ALLOWED_PUNCT_TOKENS || is_empty (trim (kind n))).

(** The [while let Some(node) = stack.pop()] loop; the top of the stack is the
    head of the list, so the children go in reversed. *)
Fixpoint walk_commands (fuel : nat) (stack command_nodes : list Node) : option (list Node) :=
  match fuel, stack with
  | _, [] => Some command_nodes
  | O, _ => None
  | S fuel, node :: stack =>
      if negb (node_allowed node) then None
      else
        let command_nodes :=
          if is_named node && (kind node == lit "command")
          then command_nodes ++ [node] else command_nodes in
        walk_commands fuel (reverse (children node) ++ stack) command_nodes
  end.

(** [sort_by_key(Node::start_byte)], a stable sort. *)
Fixpoint insert_by_start (n : Node) (l : list Node) : list Node :=
  match l with
  | [] => [n]
  | m :: l' => if (start_byte n <=? start_byte m)%N then n :: l else m :: insert_by_start n l'
  end.
Fixpoint sort_by_start (l : list Node) : list Node :=
  match l with [] => [] | n :: l => insert_by_start n (sort_by_start l) end.

Definition parse_double_quoted_string (n : Node) : option str :=
  if negb (kind n == lit "string") then None
  else if any (λ part, negb (kind part == lit "string_content")) (named_children n) then None
  else raw ← utf8_text n; text ← strip_prefix dquote raw; strip_suffix dquote text.

Definition parse_raw_string (n : Node) : option str :=
  if negb (kind n == lit "raw_string") then None
  else raw ← utf8_text n; s ← strip_prefix (lit "'") raw; strip_suffix (lit "'") s.

(** A part of a concatenation. *)
Definition concat_part (part : Node) : option str :=
  if one_of (kind part) [lit "word"; lit "number"] then utf8_text part
  else if kind part == lit "string" then parse_double_quoted_string part
  else if kind part == lit "raw_string" then parse_raw_string part
  else None.

(** The word one child of a command node contributes. *)
Definition plain_word (child : Node) : option str :=
  if kind child == lit "command_name" then
    word_node ← named_child child 0;
    if negb (kind word_node == lit "word") then None else utf8_text word_node
  else if one_of (kind child) [lit "word"; lit "number"] then utf8_text child
  else if kind child == lit "string" then parse_double_quoted_string child
  else if kind child == lit "raw_string" then parse_raw_string child
  else if kind child == lit "concatenation" then
    parts ← mapM concat_part (named_children child);
    let concatenated := concat parts in
    if is_empty concatenated then None else Some concatenated
  else None.

Definition parse_plain_command_from_node (cmd : Node) : option (list str) :=
  if negb (kind cmd == lit "command") then None
  else mapM plain_word (named_children cmd).

Definition try_parse_word_only_commands_sequence (root : Node) : option (list (list str)) :=
  if has_error root then None
  else
    command_nodes ← walk_commands (node_count root) [root] [];
    mapM parse_plain_command_from_node (sort_by_start command_nodes).

(** ** Here-documents *)

Fixpoint walk_kind (fuel : nat) (k : str) (stack : list Node) : bool :=
  match fuel, stack with
  | _, [] | O, _ => false
  | S fuel, current :: stack =>
      if kind current == k then true
      else walk_kind fuel k (reverse (named_children current) ++ stack)
  end.

Definition has_named_descendant_kind (node : Node) (k : str) : bool :=
  walk_kind (node_count node) k [node].

Fixpoint walk_single (fuel : nat) (stack : list Node) (single_command : option Node)
    : option Node :=
  match fuel, stack with
  | _, [] => single_command
  | O, _ => None
  | S fuel, node :: stack =>
      let rest := reverse (named_children node) ++ stack in
      if kind node == lit "command" then
        match single_command with
        | Some _ => None
        | None => walk_single fuel rest (Some node)
        end
      else walk_single fuel rest single_command
  end.

Definition find_single_command_node (root : Node) : option Node :=
  walk_single (node_count root) [root] None.

Definition is_literal_word_or_number (n : Node) : bool :=
  one_of (kind n) [lit "word"; lit "number"] && is_empty (named_children n).

Definition is_allowed_heredoc_attachment_kind (k : str) : bool :=
  one_of k (lit <$> ["heredoc_body"; "simple_heredoc_body"; "heredoc_redirect";
                     "herestring_redirect"; "redirected_statement"]%string).

(** The words one child contributes: none for an attachment. *)
Definition heredoc_word (child : Node) : option (list str) :=
  if kind child == lit "command_name" then
    word_node ← named_child child 0;
    if negb (one_of (kind word_node) [lit "word"; lit "number"])
       || negb (is_literal_word_or_number word_node)
    then None else (λ t, [t]) <$> utf8_text word_node
  else if one_of (kind child) [lit "word"; lit "number"] then
    if negb (is_literal_word_or_number child) then None else (λ t, [t]) <$> utf8_text child
  else if kind child == lit "comment" then Some []
  else if is_allowed_heredoc_attachment_kind (kind child) then Some []
  else None.

Definition parse_heredoc_command_words (cmd : Node) : option (list str) :=
  if negb (kind cmd == lit "command") then None
  else
    words ← mapM heredoc_word (named_children cmd);
    if is_empty (concat words) then None else Some (concat words).

Definition extract_bash_command (command : list str) : option (str * str) :=
  match command with
  | [shell; flag; script] =>
      if negb (one_of flag [lit "-lc"; lit "-c"])
         || negb (match detect_shell_type shell with
                  | Some Zsh | Some Bash | Some Sh => true
                  | _ => false
                  end)
      then None
      else Some (shell, script)
  | _ => None
  end.

(** ** Git *)

Definition is_git_global_option_with_value (arg : str) : bool :=
  one_of arg (lit <$> ["-C"; "-c"; "--config-env"; "--exec-path"; "--git-dir"; "--namespace";
                       "--super-prefix"; "--work-tree"]%string).

Definition is_git_global_option_with_inline_value (arg : str) : bool :=
  any (λ p, starts_with p arg)
    (lit <$> ["--config-env="; "--exec-path="; "--git-dir="; "--namespace="; "--super-prefix=";
              "--work-tree="]%string)
  || ((starts_with (lit "-C") arg || starts_with (lit "-c") arg) && Nat.ltb 2 (str_len arg)).

Definition executable_name_lookup_key (raw : str) : option str := file_name raw.

(** The loop over the arguments; [idx] is the index of the head. *)
Fixpoint scan_git (idx : nat) (skip_next : bool) (args : list str) (subcommands : list str)
    : option (nat * str) :=
  match args with
  | [] => None
  | arg :: args =>
      if skip_next then scan_git (S idx) false args subcommands
      else if is_git_global_option_with_inline_value arg then
        scan_git (S idx) false args subcommands
      else if is_git_global_option_with_value arg then scan_git (S idx) true args subcommands
      else if (arg == lit "--") || starts_with (lit "-") arg then
        scan_git (S idx) false args subcommands
      else if one_of arg subcommands then Some (idx, arg)
      else None
  end.

Definition find_git_subcommand (command : list str) (subcommands : list str)
    : option (nat * str) :=
  match command with
  | [] => None
  | cmd0 :: args =>
      if bool_decide (executable_name_lookup_key cmd0 = Some (lit "git"))
      then scan_git 1 false args subcommands else None
  end.

Inductive GitOptionPattern :=
| Exact (o : str)
| ShortWithInlineValue (o : str)
| GPrefix (o : str).

Definition git_pattern_matches (p : GitOptionPattern) (arg : str) : bool :=
  match p with
  | Exact o => arg == o
  | ShortWithInlineValue o => starts_with o arg && Nat.ltb (str_len o) (str_len arg)
  | GPrefix o => starts_with o arg
  end.

Definition UNSAFE_GIT_GLOBAL_OPTIONS : list GitOptionPattern :=
  [Exact (lit "-C"); ShortWithInlineValue (lit "-C"); Exact (lit "-c");
   ShortWithInlineValue (lit "-c"); Exact (lit "-p"); Exact (lit "--config-env");
   GPrefix (lit "--config-env="); Exact (lit "--exec-path"); GPrefix (lit "--exec-path=");
   Exact (lit "--git-dir"); GPrefix (lit "--git-dir="); Exact (lit "--namespace");
   GPrefix (lit "--namespace="); Exact (lit "--paginate"); Exact (lit "--super-prefix");
   GPrefix (lit "--super-prefix="); Exact (lit "--work-tree"); GPrefix (lit "--work-tree=")].

Definition UNSAFE_GIT_SUBCOMMAND_OPTIONS : list GitOptionPattern :=
  [Exact (lit "--output"); GPrefix (lit "--output="); Exact (lit "--ext-diff");
   Exact (lit "--textconv"); Exact (lit "--exec"); GPrefix (lit "--exec=")].

Definition git_matches_option_pattern (arg : str) (ps : list GitOptionPattern) : bool :=
  any (λ p, git_pattern_matches p arg) ps.

Definition git_has_unsafe_global_option (args : list str) : bool :=
  any (λ arg, git_matches_option_pattern arg UNSAFE_GIT_GLOBAL_OPTIONS) args.

Definition git_subcommand_args_are_read_only (args : list str) : bool :=
  negb (any (λ arg, git_matches_option_pattern arg UNSAFE_GIT_SUBCOMMAND_OPTIONS) args).

Definition BRANCH_READ_ONLY_FLAGS : list str :=
  lit <$> ["--list"; "-l"; "--show-current"; "-a"; "--all"; "-r"; "--remotes"; "-v"; "-vv";
           "--verbose"]%string.

(** The loop over the arguments: any other argument returns false at once. *)
Fixpoint scan_branch (saw_read_only_flag : bool) (args : list str) : bool :=
  match args with
  | [] => saw_read_only_flag
  | arg :: args =>
      if one_of arg BRANCH_READ_ONLY_FLAGS || starts_with (lit "--format=") arg
      then scan_branch true args else false
  end.

Definition git_branch_is_read_only (branch_args : list str) : bool :=
  if is_empty branch_args then true else scan_branch false branch_args.

Definition is_safe_git_command (command : list str) : bool :=
  match find_git_subcommand command
          (lit <$> ["status"; "log"; "diff"; "show"; "branch"]%string) with
  | None => false
  | Some (subcommand_idx, subcommand) =>
      let global_args := drop 1 (take subcommand_idx command) in
      if git_has_unsafe_global_option global_args then false
      else
        let subcommand_args := drop (S subcommand_idx) command in
        if one_of subcommand (lit <$> ["status"; "log"; "diff"; "show"]%string)
        then git_subcommand_args_are_read_only subcommand_args
        else if subcommand == lit "branch"
        then git_subcommand_args_are_read_only subcommand_args
             && git_branch_is_read_only subcommand_args
        else false
  end.

(** ** The safe list *)

(** /^(\d+,)?\d+p$/ *)
Definition is_valid_sed_n_arg (arg : option str) : bool :=
  match arg with
  | None => false
  | Some s =>
      match strip_suffix (lit "p") s with
      | None => false
      | Some core =>
          match split (ch ",") core with
          | [num] => negb (is_empty num) && forallb is_ascii_digit num
          | [a; b] => negb (is_empty a) && negb (is_empty b)
                      && forallb is_ascii_digit a && forallb is_ascii_digit b
          | _ => false
          end
      end
  end.

Definition ALWAYS_SAFE : list str :=
  lit <$> ["numfmt"; "tac"; "cat"; "cd"; "cut"; "echo"; "expr"; "false"; "grep"; "head"; "id";
           "ls"; "nl"; "paste"; "pwd"; "rev"; "seq"; "stat"; "tail"; "tr"; "true"; "uname";
           "uniq"; "wc"; "which"; "whoami"]%string.
Definition UNSAFE_BASE64_OPTIONS : list str := [lit "-o"; lit "--output"].
Definition UNSAFE_FIND_OPTIONS : list str :=
  lit <$> ["-exec"; "-execdir"; "-ok"; "-okdir"; "-delete"; "-fls"; "-fprint"; "-fprint0";
           "-fprintf"]%string.
Definition UNSAFE_RIPGREP_OPTIONS_WITH_ARGS : list str := [lit "--pre"; lit "--hostname-bin"].
Definition UNSAFE_RIPGREP_OPTIONS_WITHOUT_ARGS : list str := [lit "--search-zip"; lit "-z"].

Definition is_safe_to_call_with_exec (command : list str) : bool :=
  match command with
  | [] => false
  | cmd0 :: _ =>
      match executable_name_lookup_key cmd0 with
      | None => false
      | Some cmd =>
          if one_of cmd ALWAYS_SAFE then true
          else if cmd == lit "base64" then
            negb (any (λ arg, one_of arg UNSAFE_BASE64_OPTIONS
                              || starts_with (lit "--output=") arg
                              || (starts_with (lit "-o") arg && negb (arg == lit "-o")))
                    (drop 1 command))
          else if cmd == lit "find" then
            negb (any (λ arg, one_of arg UNSAFE_FIND_OPTIONS) command)
          else if cmd == lit "rg" then
            negb (any (λ arg, one_of arg UNSAFE_RIPGREP_OPTIONS_WITHOUT_ARGS
                              || any (λ opt, (arg == opt) || starts_with (opt ++ lit "=") arg)
                                   UNSAFE_RIPGREP_OPTIONS_WITH_ARGS)
                    command)
          else if cmd == lit "git" then is_safe_git_command command
          else if (cmd == lit "sed") && Nat.leb (length command) 4
                  && bool_decide (command !! 1 = Some (lit "-n"))
                  && is_valid_sed_n_arg (command !! 2)
          then true
          else false
      end
  end.

(** ** Dangerous commands *)

Fixpoint is_dangerous_to_call_with_exec (command : list str) : bool :=
  match command with
  | [] => false
  | cmd0 :: rest =>
      if cmd0 == lit "rm" then
        match rest with
        | arg :: _ => one_of arg [lit "-f"; lit "-rf"]
        | [] => false
        end
      else if cmd0 == lit "sudo" then is_dangerous_to_call_with_exec rest
      else false
  end.

Section Parsed.
(** tree-sitter's bash parser: the root of the tree, or nothing. *)
Context (try_parse_shell : str → option Node).

Definition parse_shell_script_into_commands (script : str) : option (list (list str)) :=
  tree ← try_parse_shell script; try_parse_word_only_commands_sequence tree.

Definition parse_shell_lc_plain_commands (command : list str) : option (list (list str)) :=
  '(_, script) ← extract_bash_command command; parse_shell_script_into_commands script.

Definition parse_shell_lc_single_command_prefix (command : list str) : option (list str) :=
  '(_, script) ← extract_bash_command command;
  root ← try_parse_shell script;
  if has_error root then None
  else if negb (has_named_descendant_kind root (lit "heredoc_redirect")) then None
  else if has_named_descendant_kind root (lit "file_redirect") then None
  else command_node ← find_single_command_node root; parse_heredoc_command_words command_node.

Definition is_known_safe_command (command : list str) : bool :=
  let command := (λ s, if s == lit "zsh" then lit "bash" else s) <$> command in
  if is_safe_to_call_with_exec command then true
  else match parse_shell_lc_plain_commands command with
       | Some all_commands =>
           negb (is_empty all_commands) && all is_safe_to_call_with_exec all_commands
       | None => false
       end.

Definition command_might_be_dangerous (command : list str) : bool :=
  if is_dangerous_to_call_with_exec command then true
  else match parse_shell_lc_plain_commands command with
       | Some all_commands => any is_dangerous_to_call_with_exec all_commands
       | None => false
       end.
End Parsed.

(** ** The walks over the tree *)

Definition child_of (n m : Node) : Prop := m ∈ children n.
Definition named_child_of (n m : Node) : Prop := m ∈ named_children n.

Lemma one_of_true s l : one_of s l = true ↔ s ∈ l.
Proof.
  unfold one_of. rewrite any_true. setoid_rewrite str_eqb_true. naive_solver.
Qed.

Lemma node_count_children n : node_count n = S (nodes_count (children n)).
Proof. by destruct n. Qed.

Lemma nodes_count_app l k : nodes_count (l ++ k) = nodes_count l + nodes_count k.
Proof. unfold nodes_count. induction l as [|n l IH]; simpl; [done|]. rewrite IH. lia. Qed.

Lemma nodes_count_reverse l : nodes_count (reverse l) = nodes_count l.
Proof.
  induction l as [|n l IH]; [done|].
  rewrite reverse_cons, nodes_count_app, IH. unfold nodes_count; simpl. lia.
Qed.

Lemma nodes_count_filter l : nodes_count (List.filter is_named l) ≤ nodes_count l.
Proof.
  unfold nodes_count. induction l as [|n l IH]; simpl; [done|]. case_match; simpl; lia.
Qed.

Lemma named_children_in n m : m ∈ named_children n ↔ m ∈ children n ∧ is_named m = true.
Proof.
  unfold named_children. rewrite !list_elem_of_In, filter_In. done.
Qed.

(** Below a node: itself or below one of its children. *)
Lemma rtc_node (R : Node → Node → Prop) n m :
  rtc R n m ↔ m = n ∨ ∃ c, R n c ∧ rtc R c m.
Proof.
  split.
  - intros [|? c ? Hc Hm]; [by left|right]. eauto.
  - intros [-> | (c & Hc & Hm)]; [done|]. by eapply rtc_l.
Qed.

(** The nodes a stack still has to visit. *)
Definition below (R : Node → Node → Prop) (stack : list Node) (m : Node) : Prop :=
  ∃ n, n ∈ stack ∧ rtc R n m.

Lemma below_cons (R : Node → Node → Prop) (next : Node → list Node) n stack m :
  (∀ a b, R a b ↔ b ∈ next a) →
  below R (n :: stack) m ↔ m = n ∨ below R (reverse (next n) ++ stack) m.
Proof.
  intros HR. unfold below. split.
  - intros (x & [-> | Hx]%elem_of_cons & Hm).
    + apply rtc_node in Hm as [-> | (c & Hc & Hm)]; [by left|right].
      exists c. rewrite elem_of_app, elem_of_reverse, <-HR. auto.
    + right. exists x. rewrite elem_of_app. auto.
  - intros [-> | (x & [Hx | Hx]%elem_of_app & Hm)].
    + exists n. split; [by left|done].
    + exists n. split; [by left|]. rewrite elem_of_reverse, <-HR in Hx. by eapply rtc_l.
    + exists x. split; [by right|done].
Qed.

Lemma below_nil R m : ¬ below R [] m.
Proof. intros (n & Hn & _). by apply elem_of_nil in Hn. Qed.

Definition is_command (n : Node) : bool := is_named n && (kind n == lit "command").

(** The first walk accepts exactly the trees whose nodes are all allowed, and
    collects all their command nodes; the fuel is never the reason to reject. *)
Lemma walk_commands_spec fuel stack acc :
  nodes_count stack ≤ fuel →
  match walk_commands fuel stack acc with
  | Some r => (∀ m, below child_of stack m → node_allowed m = true) ∧
              ∀ m, m ∈ r ↔ m ∈ acc ∨ (below child_of stack m ∧ is_command m = true)
  | None => ∃ m, below child_of stack m ∧ node_allowed m = false
  end.
Proof.
  revert stack acc. induction fuel as [|fuel IH]; intros [|n stack] acc Hle; simpl.
  - split; [by intros m ?%below_nil|]. intros m. pose proof (below_nil child_of m). naive_solver.
  - unfold nodes_count in Hle. simpl in Hle. rewrite node_count_children in Hle. lia.
  - split; [by intros m ?%below_nil|]. intros m. pose proof (below_nil child_of m). naive_solver.
  - assert (Hle' : nodes_count (reverse (children n) ++ stack) ≤ fuel).
    { rewrite nodes_count_app, nodes_count_reverse. unfold nodes_count in *. simpl in Hle.
      rewrite node_count_children in Hle. unfold nodes_count in Hle. lia. }
    assert (Hb : ∀ m, below child_of (n :: stack) m
                      ↔ m = n ∨ below child_of (reverse (children n) ++ stack) m)
      by (intros m; by apply below_cons).
    destruct (node_allowed n) eqn:Ha; simpl.
    + specialize (IH (reverse (children n) ++ stack)
        (if is_named n && (kind n == lit "command") then acc ++ [n] else acc) Hle').
      fold (is_command n) in *. destruct (walk_commands _ _ _) as [r|].
      * destruct IH as [H1 H2]. split; [intros m [-> | ?]%Hb; auto|].
        intros m. rewrite H2, Hb. destruct (is_command n) eqn:Hc; [|naive_solver congruence].
        rewrite elem_of_app, list_elem_of_singleton. naive_solver.
      * destruct IH as (m & Hm & Hf). exists m. rewrite Hb. auto.
    + exists n. rewrite Hb. auto.
Qed.

Lemma insert_by_start_in n l m : m ∈ insert_by_start n l ↔ m = n ∨ m ∈ l.
Proof.
  induction l as [|x l IH]; simpl; [set_solver|]. case_match; [set_solver|].
  rewrite !elem_of_cons, IH. naive_solver.
Qed.

Lemma sort_by_start_in l m : m ∈ sort_by_start l ↔ m ∈ l.
Proof.
  induction l as [|n l IH]; simpl; [done|]. by rewrite insert_by_start_in, IH, elem_of_cons.
Qed.

(** Nothing of a script escapes the word-only reading: when it accepts a
    tree, every node of the tree is of an allowed kind (no redirection,
    substitution, group or control flow), every command node contributes the
    words read from it, and every list of words comes from a command node. *)
Lemma word_only_sequence_sound (root : Node) (cmds : list (list str)) :
  try_parse_word_only_commands_sequence root = Some cmds →
  has_error root = false ∧
  (∀ m, rtc child_of root m → node_allowed m = true) ∧
  (∀ m, rtc child_of root m → is_command m = true →
     ∃ words, parse_plain_command_from_node m = Some words ∧ words ∈ cmds) ∧
  (∀ words, words ∈ cmds →
     ∃ m, rtc child_of root m ∧ is_command m = true ∧
          parse_plain_command_from_node m = Some words).
Proof.
  unfold try_parse_word_only_commands_sequence. intros H.
  destruct (has_error root) eqn:He; [done|]. apply bind_Some in H as (ns & Hw & Hm).
  pose proof (walk_commands_spec (node_count root) [root] []) as Hspec.
  rewrite Hw in Hspec. destruct Hspec as [Hall Hin]; [unfold nodes_count; simpl; lia|].
  assert (Hbelow : ∀ m, below child_of [root] m ↔ rtc child_of root m).
  { intros m. unfold below. split; [by intros (n & ->%list_elem_of_singleton & ?)|].
    exists root. by split; [left|]. }
  apply mapM_Some in Hm. split; [done|]. split; [intros m Hm'; by apply Hall, Hbelow|]. split.
  - intros m Hd Hc. assert (Hms : m ∈ sort_by_start ns).
    { apply sort_by_start_in, Hin. right. by rewrite Hbelow. }
    apply list_elem_of_lookup in Hms as [i Hi].
    destruct (Forall2_lookup_l _ _ _ _ _ Hm Hi) as (words & Hw' & Hp).
    exists words. split; [done|]. by eapply list_elem_of_lookup_2.
  - intros words [i Hi]%list_elem_of_lookup.
    destruct (Forall2_lookup_r _ _ _ _ _ Hm Hi) as (m & Hmi & Hp).
    apply list_elem_of_lookup_2, sort_by_start_in, Hin in Hmi as [Hmi | [Hmi Hc]];
      [by apply elem_of_nil in Hmi|].
    exists m. by rewrite Hbelow in Hmi.
Qed.

(** The second walk finds a kind exactly when some named descendant has it. *)
Lemma walk_kind_spec fuel k stack :
  nodes_count stack ≤ fuel →
  walk_kind fuel k stack = true ↔ ∃ m, below named_child_of stack m ∧ kind m = k.
Proof.
  revert stack. induction fuel as [|fuel IH]; intros [|n stack] Hle; simpl.
  - split; [done|]. by intros (m & ?%below_nil & _).
  - unfold nodes_count in Hle. simpl in Hle. rewrite node_count_children in Hle. lia.
  - split; [done|]. by intros (m & ?%below_nil & _).
  - assert (Hle' : nodes_count (reverse (named_children n) ++ stack) ≤ fuel).
    { rewrite nodes_count_app, nodes_count_reverse. unfold named_children.
      pose proof (nodes_count_filter (children n)). unfold nodes_count in *. simpl in Hle.
      rewrite node_count_children in Hle. unfold nodes_count in Hle. lia. }
    assert (Hb : ∀ m, below named_child_of (n :: stack) m
                      ↔ m = n ∨ below named_child_of (reverse (named_children n) ++ stack) m)
      by (intros m; by apply below_cons).
    setoid_rewrite Hb. case_str; [split; eauto; intros _; exists n; auto|].
    rewrite (IH _ Hle'). naive_solver.
Qed.

Lemma has_named_descendant_kind_spec n k :
  has_named_descendant_kind n k = true ↔ ∃ m, rtc named_child_of n m ∧ kind m = k.
Proof.
  unfold has_named_descendant_kind.
  rewrite walk_kind_spec by (unfold nodes_count; simpl; lia). unfold below. split.
  - intros (m & (x & ->%list_elem_of_singleton & Hm) & Hk). eauto.
  - intros (m & Hm & Hk). exists m. split; [|done]. exists n. by split; [left|].
Qed.

(** ** Git *)

(** The options git reads a value for are all refused before a safe
    subcommand. *)
Lemma value_options_unsafe arg :
  is_git_global_option_with_value arg = true ∨ is_git_global_option_with_inline_value arg = true →
  git_matches_option_pattern arg UNSAFE_GIT_GLOBAL_OPTIONS = true.
Proof.
  unfold git_matches_option_pattern. rewrite any_true. intros [H | H].
  - apply one_of_true in H. exists (Exact arg). simpl. rewrite str_eqb_refl. split; [|done].
    repeat (apply elem_of_cons in H as [-> | H]; [set_solver|]). by apply elem_of_nil in H.
  - unfold is_git_global_option_with_inline_value in H. apply orb_true_iff in H as [H | H].
    + apply any_true in H as (p & Hp & Hs). exists (GPrefix p). split; [|done].
      repeat (apply elem_of_cons in Hp as [-> | Hp]; [set_solver|]). by apply elem_of_nil in Hp.
    + apply andb_true_iff in H as [[H | H]%orb_true_iff Hl];
        [exists (ShortWithInlineValue (lit "-C"))|exists (ShortWithInlineValue (lit "-c"))];
        (split; [set_solver|]); simpl; by rewrite H.
Qed.

(** Where the scan stops: every word it passed over is an option or the value of
    one. *)
Lemma scan_git_Some idx skip args subs i sub :
  scan_git idx skip args subs = Some (i, sub) →
  ∃ pre post, args = pre ++ sub :: post ∧ i = idx + length pre ∧ sub ∈ subs ∧
    starts_with (lit "-") sub = false ∧
    (skip = false →
     any (λ a, git_matches_option_pattern a UNSAFE_GIT_GLOBAL_OPTIONS) pre = false →
     Forall (λ a, starts_with (lit "-") a = true) pre).
Proof.
  revert idx skip. induction args as [|a args IH]; intros idx skip H; simpl in H; [done|].
  assert (Hrec : ∀ sk, scan_git (S idx) sk args subs = Some (i, sub) →
    (skip = false → sk = false → starts_with (lit "-") a = true) →
    (sk = true → skip = false →
       git_matches_option_pattern a UNSAFE_GIT_GLOBAL_OPTIONS = true) →
    ∃ pre post, a :: args = pre ++ sub :: post ∧ i = idx + length pre ∧ sub ∈ subs ∧
      starts_with (lit "-") sub = false ∧
      (skip = false →
       any (λ x, git_matches_option_pattern x UNSAFE_GIT_GLOBAL_OPTIONS) pre = false →
       Forall (λ x, starts_with (lit "-") x = true) pre)).
  { intros sk Hs Hd Hu. destruct (IH _ _ Hs) as (pre & post & -> & -> & Hin & Hn & Hf).
    exists (a :: pre), post. split; [done|]. split; [simpl; lia|]. split; [done|].
    split; [done|]. intros Hsk Hany. rewrite any_false in Hany.
    destruct sk; [by rewrite Hany in Hu; [discriminate Hu|left]|].
    constructor; [by apply Hd|]. apply Hf; [done|]. apply any_false. intros x Hx.
    apply Hany. by right. }
  destruct skip; [by apply (Hrec false)|].
  destruct (is_git_global_option_with_inline_value a) eqn:H1.
  { apply (Hrec false); [done| |done]. intros _ _.
    unfold is_git_global_option_with_inline_value in H1. apply orb_true_iff in H1 as [H1 | H1].
    - apply any_true in H1 as (p & Hp & (r & ->)%starts_with_true).
      repeat (apply elem_of_cons in Hp as [-> | Hp]; [done|]). by apply elem_of_nil in Hp.
    - apply andb_true_iff in H1 as [[(r & ->)%starts_with_true |
        (r & ->)%starts_with_true]%orb_true_iff _]; done. }
  destruct (is_git_global_option_with_value a) eqn:H2.
  { apply (Hrec true); [done|done|]. intros _ _. by apply value_options_unsafe; left. }
  destruct ((a == lit "--") || starts_with (lit "-") a) eqn:H3.
  { apply (Hrec false); [done| |done]. intros _ _.
    apply orb_true_iff in H3 as [->%str_eqb_true | ?]; done. }
  apply orb_false_iff in H3 as [_ H3].
  destruct (one_of a subs) eqn:H4; [|done]. simplify_eq. exists [], args.
  apply one_of_true in H4. split; [done|]. split; [simpl; lia|]. auto.
Qed.

Lemma scan_branch_options b args :
  scan_branch b args = true →
  Forall (λ a, a ∈ BRANCH_READ_ONLY_FLAGS ∨ ∃ f, a = lit "--format=" ++ f) args.
Proof.
  revert b. induction args as [|a args IH]; intros b H; [constructor|]. cbn [scan_branch] in H.
  destruct (one_of a BRANCH_READ_ONLY_FLAGS || starts_with (lit "--format=") a) eqn:Ha; [|done].
  constructor; [|by eapply IH].
  apply orb_true_iff in Ha as [Ha%one_of_true | (r & ->)%starts_with_true]; [by left|right; by exists r].
Qed.

(** The option [o] as a word of its own, or with its value after an equals sign. *)
Definition option_given (o a : str) : Prop := a = o ∨ ∃ v, a = o ++ lit "=" ++ v.

Lemma git_pattern_unmatched ps a :
  git_matches_option_pattern a ps = false → Forall (λ p, git_pattern_matches p a = false) ps.
Proof. unfold git_matches_option_pattern. intros H. apply Forall_forall. by apply any_false. Qed.

Lemma exact_unmatched o a : git_pattern_matches (Exact o) a = false → a ≠ o.
Proof. apply str_eqb_false. Qed.

Lemma prefix_unmatched o a :
  git_pattern_matches (Exact o) a = false → git_pattern_matches (GPrefix (o ++ lit "=")) a = false →
  ¬ option_given o a.
Proof.
  intros H1%exact_unmatched H2 [->|[v ->]]; [done|]. cbn in H2.
  apply not_true_iff_false in H2. apply H2. apply starts_with_true. exists v. by rewrite <-app_assoc.
Qed.

Lemma short_unmatched o a :
  git_pattern_matches (Exact o) a = false → git_pattern_matches (ShortWithInlineValue o) a = false →
  starts_with o a = false.
Proof.
  intros H1%exact_unmatched H2. cbn in H2. destruct (starts_with o a) eqn:Hs; [|done]. exfalso.
  apply starts_with_true in Hs as [v ->]. apply Nat.ltb_ge in H2. destruct v as [|c v].
  - by rewrite app_nil_r in H1.
  - unfold str_len in H2. rewrite sum_list_with_app in H2. cbn in H2. assert (0 < len_utf8 c) by (unfold len_utf8; repeat case_match; lia). lia.
Qed.

(** The global options that make git read, run or show something else. *)
Definition global_option_harmless (a : str) : Prop :=
  starts_with (lit "-") a = true ∧ starts_with (lit "-C") a = false ∧ starts_with (lit "-c") a = false
  ∧ a ≠ lit "-p" ∧ a ≠ lit "--paginate"
  ∧ ¬ option_given (lit "--config-env") a ∧ ¬ option_given (lit "--exec-path") a
  ∧ ¬ option_given (lit "--git-dir") a ∧ ¬ option_given (lit "--work-tree") a
  ∧ ¬ option_given (lit "--namespace") a ∧ ¬ option_given (lit "--super-prefix") a.

(** The options of the subcommands that write a file or run a program. *)
Definition subcommand_option_harmless (a : str) : Prop :=
  ¬ option_given (lit "--output") a ∧ ¬ option_given (lit "--exec") a
  ∧ a ≠ lit "--ext-diff" ∧ a ≠ lit "--textconv".

(** The arguments of [git branch] that only list. *)
Definition branch_option_lists (a : str) : Prop :=
  a ∈ (lit <$> ["--list"; "-l"; "--show-current"; "-a"; "--all"; "-r"; "--remotes"; "-v"; "-vv";
                "--verbose"]%string)
  ∨ ∃ f, a = lit "--format=" ++ f.

Lemma unmatched_global a :
  starts_with (lit "-") a = true → git_matches_option_pattern a UNSAFE_GIT_GLOBAL_OPTIONS = false →
  global_option_harmless a.
Proof.
  intros Hd H%git_pattern_unmatched. unfold UNSAFE_GIT_GLOBAL_OPTIONS in H.
  repeat (apply Forall_cons in H as [? H]). clear H. unfold global_option_harmless. split_and!;
    first [ done | by apply short_unmatched | by apply exact_unmatched | by apply prefix_unmatched ].
Qed.

Lemma unmatched_subcommand a :
  git_matches_option_pattern a UNSAFE_GIT_SUBCOMMAND_OPTIONS = false → subcommand_option_harmless a.
Proof.
  intros H%git_pattern_unmatched. unfold UNSAFE_GIT_SUBCOMMAND_OPTIONS in H.
  repeat (apply Forall_cons in H as [? H]). clear H. unfold subcommand_option_harmless. split_and!;
    first [ by apply exact_unmatched | by apply prefix_unmatched ].
Qed.

(** C22: A git command is called safe only when it is git, options, one of the
    subcommands [status], [log], [diff], [show] and [branch], and arguments, where none
    of the options before the subcommand is one of those the checker knows to redirect
    git ([-C], [-c], [-p], [--paginate], [--config-env], [--exec-path], [--git-dir],
    [--work-tree], [--namespace], [--super-prefix], alone or with an inline value),
    none of the arguments after it is [--output], [--exec], [--ext-diff] or
    [--textconv], and the arguments of [branch] are all listing flags.  Options outside
    these lists are not judged. *)
Theorem safe_git_no_bypass (command : list str) :
  is_safe_git_command command = true →
  ∃ git pre sub post, command = git :: pre ++ sub :: post ∧
    file_name git = Some (lit "git") ∧
    sub ∈ (lit <$> ["status"; "log"; "diff"; "show"; "branch"]%string) ∧
    Forall global_option_harmless pre ∧
    Forall subcommand_option_harmless post ∧
    (sub = lit "branch" → Forall branch_option_lists post).
Proof.
  unfold is_safe_git_command, find_git_subcommand. intros H.
  destruct command as [|git args]; [done|].
  case_bool_decide as Hgit; [|done].
  destruct (scan_git 1 false args _) as [[i sub]|] eqn:Hs; [|done].
  destruct (scan_git_Some _ _ _ _ _ _ Hs) as (pre & post & -> & -> & Hin & Hn & Hopts).
  change (1 + length pre) with (S (length pre)) in H.
  replace (drop 1 (take (S (length pre)) (git :: pre ++ sub :: post))) with pre in H
    by (simpl; by rewrite drop_0, take_app_length).
  destruct (git_has_unsafe_global_option pre) eqn:Hg; [done|].
  replace (drop (S (S (length pre))) (git :: pre ++ sub :: post)) with post in H
    by (simpl; replace (S (length pre)) with (length pre + 1) by lia; by rewrite drop_app_add).
  assert (Hpre : Forall global_option_harmless pre).
  { specialize (Hopts eq_refl). rewrite Forall_forall in Hopts |- *. intros a Ha. apply unmatched_global; [by apply Hopts|].
    unfold git_has_unsafe_global_option in Hg. rewrite any_false in Hg. by apply Hg. }
  assert (Hro : git_subcommand_args_are_read_only post = true).
  { case_match; [done|]. case_match; [|done]. by apply andb_true_iff in H as [??]. }
  exists git, pre, sub, post. do 4 (split; [done|]). split.
  - apply Forall_forall. intros a Ha. apply unmatched_subcommand. unfold git_subcommand_args_are_read_only in Hro.
    apply negb_true_iff in Hro. rewrite any_false in Hro. by apply Hro.
  - intros ->. simpl in H. apply andb_true_iff in H as [_ Hb].
    unfold git_branch_is_read_only in Hb. destruct (is_empty post) eqn:He.
    { apply is_empty_true in He as ->. constructor. }
    by eapply scan_branch_options.
Qed.

Lemma safe_git_no_bypass_witness :
  let command := lit <$> ["git"; "--no-pager"; "log"; "-1"]%string in
  is_safe_git_command command = true ∧
  ∃ git pre sub post, command = git :: pre ++ sub :: post ∧ sub ∈ (lit <$> ["log"; "status"; "diff"; "show"; "branch"]%string).
Proof.
  intros command. split; [vm_compute; reflexivity|].
  destruct (safe_git_no_bypass command) as (git & pre & sub & post & H & _ & Hs & _);
    [vm_compute; reflexivity|].
  exists git, pre, sub, post. split; [exact H|]. set_solver.
Defined.

(** ** Dangerous commands *)

Lemma is_dangerous_exact command :
  is_dangerous_to_call_with_exec command = true ↔
    ∃ n flag rest, command = replicate n (lit "sudo") ++ lit "rm" :: flag :: rest ∧
      flag ∈ [lit "-f"; lit "-rf"].
Proof.
  induction command as [|c command IH]; simpl.
  { split; [done|]. intros (n & flag & rest & H & _). by destruct n. }
  case_str; [subst c|case_str; [subst c|]].
  - split.
    + destruct command as [|flag rest]; [done|]. intros H%one_of_true. by exists 0, flag, rest.
    + intros (n & flag & rest & H & Hf). destruct n as [|n]; simplify_eq/=. by apply one_of_true.
  - rewrite IH. split.
    + intros (n & flag & rest & -> & Hf). by exists (S n), flag, rest.
    + intros (n & flag & rest & H & Hf). destruct n as [|n]; simplify_eq/=. eauto.
  - split; [done|]. intros (n & flag & rest & H & _). destruct n as [|n]; simplify_eq/=; done.
Qed.

(** No command is on both lists. *)
Lemma safe_not_dangerous command :
  is_safe_to_call_with_exec command = true → is_dangerous_to_call_with_exec command = false.
Proof.
  destruct command as [|c rest]; [done|]. simpl. intros H.
  case_str; [subst c; vm_compute in H; destruct rest; done|].
  case_str; [subst c; exfalso; by vm_compute in H|done].
Qed.

(** The programs some call of which is safe; none of them is a shell. *)
Definition safe_tools : list str :=
  ALWAYS_SAFE ++ (lit <$> ["base64"; "find"; "rg"; "git"; "sed"]%string).

Lemma is_safe_tool c rest :
  is_safe_to_call_with_exec (c :: rest) = true → ∃ tool, file_name c = Some tool ∧ tool ∈ safe_tools.
Proof.
  cbn [is_safe_to_call_with_exec]. unfold executable_name_lookup_key.
  destruct (file_name c) as [tool|]; [|done]. intros H. exists tool. split; [done|].
  unfold safe_tools. apply elem_of_app. destruct (one_of tool ALWAYS_SAFE) eqn:Ho; [left; by apply one_of_true|right].
  repeat (case_str; [subst tool; apply list_elem_of_In; cbn; by auto 10|]).
  destruct (tool == lit "sed") eqn:Hs; [|done]. apply str_eqb_true in Hs as ->.
  apply list_elem_of_In. cbn. by auto 10.
Qed.

Lemma safe_tool_no_shell c tool :
  file_name c = Some tool → tool ∈ safe_tools → detect_shell_type c = None.
Proof.
  intros Hn Ht.
  assert (Forall (λ t, detect_shell_type t = None ∧ split_once 46%N (reverse t) = None
                       ∧ ¬ t ∈ (lit <$> ["zsh"; "sh"; "cmd"; "bash"; "pwsh"; "powershell"]%string)) safe_tools) as Hall
    by (apply (bool_decide_unpack _); vm_compute; exact I).
  rewrite Forall_forall in Hall. destruct (Hall _ Ht) as (Hd & Hdot & Hname). clear Hall.
  rewrite detect_shell_type_eq. destruct (shell_type_of_name c) eqn:Hty.
  { exfalso. apply Hname. apply list_elem_of_In. unfold shell_type_of_name in Hty.
    repeat (case_str; [subst c; vm_compute in Hn; injection Hn as <-; cbn; by auto 10|]). done. }
  unfold file_stem. rewrite Hn. simpl. rewrite Hdot. by case_match.
Qed.

Lemma extract_bash_command_Some command shell script :
  extract_bash_command command = Some (shell, script) →
  ∃ flag, command = [shell; flag; script] ∧ flag ∈ [lit "-lc"; lit "-c"] ∧ is_Some (detect_shell_type shell).
Proof.
  unfold extract_bash_command. destruct command as [|a [|flag [|b [|? ?]]]]; try done.
  destruct (one_of flag _) eqn:Hf; [|done]. apply one_of_true in Hf. simpl.
  destruct (detect_shell_type a) as [t|] eqn:Ht; [|done].
  destruct (negb _); [done|]. intros [= <- <-]. exists flag. rewrite Ht. eauto.
Qed.

(** No command is known to be safe and flagged dangerous.  The safe check reads every
    word [zsh] as [bash], the script included, so that the script [zsh] itself needs a
    word on the parser: it holds no dangerous command. *)
Lemma known_safe_not_dangerous (try_parse_shell : str → option Node) command :
  (∀ cmds, parse_shell_script_into_commands try_parse_shell (lit "zsh") = Some cmds →
     any is_dangerous_to_call_with_exec cmds = false) →
  is_known_safe_command try_parse_shell command = true →
  command_might_be_dangerous try_parse_shell command = false.
Proof.
  intros Hzsh. unfold is_known_safe_command. set (z := λ s : str, if s == lit "zsh" then lit "bash" else s).
  assert (∀ c, is_dangerous_to_call_with_exec (z <$> c) = is_dangerous_to_call_with_exec c) as Hz.
  { assert (∀ x y, y ≠ lit "zsh" → y ≠ lit "bash" → (z x == y) = (x == y)) as Heq.
    { intros x y H1 H2. unfold z. destruct (x == lit "zsh") eqn:E; [apply str_eqb_true in E as ->|done].
      rewrite !(proj2 (str_eqb_false _ _)) by congruence. done. }
    induction c as [|x c IH]; [done|]. cbn [fmap list_fmap is_dangerous_to_call_with_exec].
    rewrite !Heq by (by vm_compute). case_str; [|case_str; [exact IH|done]].
    destruct c as [|f c]; [done|]. cbn. unfold one_of, any. cbn [existsb]. by rewrite !Heq by (by vm_compute). }
  intros H. unfold command_might_be_dangerous.
  destruct (is_safe_to_call_with_exec (z <$> command)) eqn:Hsafe.
  { rewrite <-Hz, (safe_not_dangerous _ Hsafe).
    destruct (parse_shell_lc_plain_commands try_parse_shell command) as [cmds|] eqn:Hp; [|done]. exfalso.
    apply bind_Some in Hp as ([shell script] & He & _).
    apply extract_bash_command_Some in He as (flag & -> & _ & Hsh). cbn [fmap list_fmap] in Hsafe.
    apply is_safe_tool in Hsafe as (tool & Hn & Ht). apply safe_tool_no_shell in Hn; [|done].
    unfold z in Hn. destruct (shell == lit "zsh"); [by vm_compute in Hn|]. rewrite Hn in Hsh. by destruct Hsh. }
  destruct (parse_shell_lc_plain_commands try_parse_shell (z <$> command)) as [cmds|] eqn:Hp; [|done].
  apply andb_true_iff in H as [_ Hall]. rewrite all_true in Hall.
  apply bind_Some in Hp as ([shell script] & He & Hp).
  apply extract_bash_command_Some in He as (flag & Hcmd & Hflag & Hsh).
  assert (is_dangerous_to_call_with_exec command = false) as ->.
  { rewrite <-Hz, Hcmd. cbn. case_str; [subst shell; vm_compute in Hsh; by destruct Hsh|].
    case_str; [subst shell; vm_compute in Hsh; by destruct Hsh|done]. }
  destruct (parse_shell_lc_plain_commands try_parse_shell command) as [cmds'|] eqn:Hp'; [|done].
  apply bind_Some in Hp' as ([shell' script'] & He' & Hp').
  apply extract_bash_command_Some in He' as (flag' & -> & _ & _). cbn in Hcmd. injection Hcmd as _ _ Hs.
  destruct (decide (script' = lit "zsh")) as [->|Hne]; [by apply Hzsh|].
  unfold z in Hs. rewrite (proj2 (str_eqb_false script' _) Hne) in Hs. subst script'.
  rewrite Hp in Hp'. injection Hp' as <-. apply any_false. intros c Hc. by apply safe_not_dangerous, Hall.
Qed.

(** C21: A command on the safe list is safe throughout: either its own argv is, or
    it is a shell call whose script parses to a tree without any redirection,
    substitution, group or control flow, in which every single command is itself
    safe and none is on the dangerous list. *)
Theorem known_safe_script_sound (try_parse_shell : str → option Node) (command : list str) :
  is_known_safe_command try_parse_shell command = true →
  let command' := (λ s, if s == lit "zsh" then lit "bash" else s) <$> command in
  is_safe_to_call_with_exec command' = true ∨
  ∃ shell script root, extract_bash_command command' = Some (shell, script) ∧
    try_parse_shell script = Some root ∧ has_error root = false ∧
    (∀ m, rtc child_of root m → node_allowed m = true) ∧
    (∃ m, rtc child_of root m ∧ is_command m = true) ∧
    ∀ m, rtc child_of root m → is_command m = true →
      ∃ words, parse_plain_command_from_node m = Some words ∧
        is_safe_to_call_with_exec words = true ∧ is_dangerous_to_call_with_exec words = false.
Proof.
  intros H command'. unfold is_known_safe_command in H. fold command' in H.
  destruct (is_safe_to_call_with_exec command'); [by left|right].
  destruct (parse_shell_lc_plain_commands try_parse_shell command') as [cmds|] eqn:Hp; [|done].
  apply andb_true_iff in H as [Hne Hall]. rewrite all_true in Hall.
  unfold parse_shell_lc_plain_commands in Hp. apply bind_Some in Hp as ([shell script] & He & Hp).
  unfold parse_shell_script_into_commands in Hp. apply bind_Some in Hp as (root & Hroot & Hseq).
  destruct (word_only_sequence_sound root cmds Hseq) as (Herr & Hallow & Hin & Hout).
  exists shell, script, root. do 4 (split; [done|]). split.
  - destruct cmds as [|w cmds]; [done|]. destruct (Hout w) as (m & ? & ? & _); [by left|]. eauto.
  - intros m Hm Hc. destruct (Hin m Hm Hc) as (words & Hw & Hwin). exists words.
    split; [done|]. split; [by apply Hall|]. by apply safe_not_dangerous, Hall.
Qed.

(** The tree of the script "ls". *)
Definition demo_tree : Node :=
  mkNode (lit "program") true false 0 (Some (lit "ls"))
    [mkNode (lit "command") true false 0 (Some (lit "ls"))
       [mkNode (lit "command_name") true false 0 (Some (lit "ls"))
          [mkNode (lit "word") true false 0 (Some (lit "ls")) []]]].

Definition demo_parse (script : str) : option Node :=
  if script == lit "ls" then Some demo_tree else None.

Lemma known_safe_script_sound_witness :
  is_known_safe_command demo_parse (lit <$> ["zsh"; "-lc"; "ls"]%string) = true ∧
  (is_safe_to_call_with_exec (lit <$> ["bash"; "-lc"; "ls"]%string) = true ∨
   ∃ root, demo_parse (lit "ls") = Some root ∧
     ∀ m, rtc child_of root m → node_allowed m = true).
Proof.
  split; [vm_compute; reflexivity|].
  destruct (known_safe_script_sound demo_parse (lit <$> ["zsh"; "-lc"; "ls"]%string))
    as [H | (shell & script & root & He & Hr & _ & Hall & _)]; [vm_compute; reflexivity|by left|].
  right. exists root. split; [|exact Hall].
  assert (Hs : Some (shell, script) = Some (lit "bash", lit "ls"))
    by (rewrite <-He; vm_compute; reflexivity).
  injection Hs as -> ->. exact Hr.
Defined.

(** The sed entry checks the script argument but not what follows it: an option
    there, such as [-f] with a script file of its own, is accepted. *)
Lemma sed_option_after_script :
  is_safe_to_call_with_exec (lit <$> ["sed"; "-n"; "1p"; "-fscript.sed"]%string) = true.
Proof. vm_compute. reflexivity. Qed.
