(* ===== verification/ExecPolicy.v ===== *)
(** * The exec policy

    [execpolicy/src/{decision,rule,policy,executable_name}.rs]: prefix rules by
    program with the strictest match deciding, basename fallback for executables
    of the host, network rules compiled to domain lists, and overlays.  The only
    implementation of the trait [Rule] is [PrefixRule], so a [RuleRef] is one;
    the rule multimap is a map to the vector of rules of a program.

    The Starlark front end ([parser.rs]), the examples a rule file may carry and
    the JSON of the command-line checker are not modelled. *)

From S2P Require Import Prelude RustStr AbsPath HostShell.

(** ** Decisions *)

Inductive Decision := Allow | Prompt | Forbidden.
#[export] Instance Decision_eq_dec : EqDecision Decision.
Proof. solve_decision. Defined.

Inductive Error :=
| InvalidDecision (s : str)
| InvalidPattern (s : str)
| InvalidRule (s : str).

Definition decision_parse (raw : str) : result Error Decision :=
  if raw == lit "allow" then Ok Allow
  else if raw == lit "prompt" then Ok Prompt
  else if raw == lit "forbidden" then Ok Forbidden
  else Err (InvalidDecision raw).

(** The derived [Ord]: declaration order. *)
Definition rank (d : Decision) : nat :=
  match d with Allow => 0 | Prompt => 1 | Forbidden => 2 end.
Definition decision_max (a b : Decision) : Decision := if Nat.leb (rank a) (rank b) then b else a.

(** [iter().max()] *)
Definition max_decision (ds : list Decision) : option Decision :=
  match ds with [] => None | d :: ds => Some (fold_left decision_max ds d) end.

(** ** Rules *)

Inductive PatternToken := Single (s : str) | Alts (l : list str).

Definition token_matches (t : PatternToken) (token : str) : bool :=
  match t with
  | Single expected => expected == token
  | Alts alternatives => any (λ alt, alt == token) alternatives
  end.

Record PrefixPattern := { first : str; rest : list PatternToken }.

(** [zip] of the pattern with [cmd[1..pattern_length]]. *)
Fixpoint tokens_match (ts : list PatternToken) (cmd : list str) : bool :=
  match ts, cmd with
  | t :: ts, c :: cmd => token_matches t c && tokens_match ts cmd
  | _, _ => true
  end.

Definition matches_prefix (p : PrefixPattern) (cmd : list str) : option (list str) :=
  let pattern_length := length (rest p) + 1 in
  if Nat.ltb (length cmd) pattern_length then None
  else match cmd with
       | [] => None
       | c :: args =>
           if negb (c == first p) then None
           else if tokens_match (rest p) (take (length (rest p)) args)
           then Some (take pattern_length cmd) else None
       end.

Inductive RuleMatch :=
| PrefixRuleMatch (matched_prefix : list str) (decision : Decision)
    (resolved_program : option str) (justification : option str)
| HeuristicsRuleMatch (command : list str) (decision : Decision).

Definition rm_decision (m : RuleMatch) : Decision :=
  match m with PrefixRuleMatch _ d _ _ => d | HeuristicsRuleMatch _ d => d end.

Definition with_resolved_program (program : str) (m : RuleMatch) : RuleMatch :=
  match m with
  | PrefixRuleMatch mp d _ j => PrefixRuleMatch mp d (Some program) j
  | other => other
  end.

Record PrefixRule := {
  pattern : PrefixPattern;
  rule_decision : Decision;
  rule_justification : option str;
}.

Definition rule_matches (r : PrefixRule) (cmd : list str) : option RuleMatch :=
  (λ mp, PrefixRuleMatch mp (rule_decision r) None (rule_justification r))
  <$> matches_prefix (pattern r) cmd.

Inductive NetworkRuleProtocol := Http | Https | Socks5Tcp | Socks5Udp.

Definition protocol_parse (raw : str) : result Error NetworkRuleProtocol :=
  if raw == lit "http" then Ok Http
  else if (raw == lit "https") || (raw == lit "https_connect") || (raw == lit "http-connect")
  then Ok Https
  else if raw == lit "socks5_tcp" then Ok Socks5Tcp
  else if raw == lit "socks5_udp" then Ok Socks5Udp
  else Err (InvalidRule
    (lit "network_rule protocol must be one of http, https, socks5_tcp, socks5_udp (got "
     ++ raw ++ lit ")")).

Definition as_policy_string (p : NetworkRuleProtocol) : str :=
  match p with
  | Http => lit "http" | Https => lit "https"
  | Socks5Tcp => lit "socks5_tcp" | Socks5Udp => lit "socks5_udp"
  end.

Record NetworkRule := {
  host : str;
  protocol : NetworkRuleProtocol;
  net_decision : Decision;
  net_justification : option str;
}.

Definition is_port (port : str) : bool := negb (is_empty port) && forallb is_ascii_digit port.

(** The host without brackets or port. *)
Definition strip_port (raw host : str) : result Error str :=
  match strip_prefix (lit "[") host with
  | Some stripped =>
      match split_once (ch "]") stripped with
      | None => Err (InvalidRule (lit "network_rule host has an invalid bracketed IPv6 literal"))
      | Some (inside, rest) =>
          let port_ok := match strip_prefix (lit ":") rest with
                         | Some port => is_port port
                         | None => false
                         end in
          if negb (is_empty rest) && negb port_ok
          then Err (InvalidRule (lit "network_rule host contains an unsupported suffix: " ++ raw))
          else Ok inside
      end
  | None =>
      if Nat.eqb (count_char (ch ":") host) 1 then
        match rsplit_once (ch ":") host with
        | Some (candidate, port) =>
            Ok (if negb (is_empty candidate) && is_port port then candidate else host)
        | None => Ok host
        end
      else Ok host
  end.

Definition normalize_network_rule_host (raw : str) : result Error str :=
  let host := trim raw in
  if is_empty host then Err (InvalidRule (lit "network_rule host cannot be empty"))
  else if contains (lit "://") host || contains_char (ch "/") host
          || contains_char (ch "?") host || contains_char (ch "#") host
  then Err (InvalidRule
    (lit "network_rule host must be a hostname or IP literal (without scheme or path)"))
  else
    host ← strip_port raw host;
    let normalized := to_ascii_lowercase <$> trim (trim_end_char (ch ".") host) in
    if is_empty normalized then Err (InvalidRule (lit "network_rule host cannot be empty"))
    else if contains_char (ch "*") normalized
    then Err (InvalidRule
      (lit "network_rule host must be a specific host; wildcards are not allowed"))
    else if existsb is_whitespace normalized
    then Err (InvalidRule (lit "network_rule host cannot contain whitespace"))
    else Ok normalized.

(** ** The policy *)

Record MatchOptions := { resolve_host_executables : bool }.
Definition default_options : MatchOptions := {| resolve_host_executables := false |}.

Record Policy := {
  rules_by_program : gmap str (list PrefixRule);
  network_rules : list NetworkRule;
  host_executables_by_name : gmap str (list str);
}.

Definition from_parts r n h : Policy :=
  {| rules_by_program := r; network_rules := n; host_executables_by_name := h |}.
Definition policy_new r : Policy := from_parts r [] ∅.
Definition policy_empty : Policy := policy_new ∅.

(** [MultiMap::insert]: at the end of the vector of the key. *)
Definition multimap_insert (k : str) (r : PrefixRule) (m : gmap str (list PrefixRule))
    : gmap str (list PrefixRule) := <[k := default [] (m !! k) ++ [r]]> m.

Definition prefix_rule_of (first_token : str) (rest : list str) (d : Decision) : PrefixRule :=
  {| pattern := {| first := first_token; rest := Single <$> rest |};
     rule_decision := d; rule_justification := None |}.

Definition add_prefix_rule (prefix : list str) (d : Decision) : st_err Policy Error unit :=
  match prefix with
  | [] => throw (InvalidPattern (lit "prefix cannot be empty"))
  | first_token :: rest =>
      modify (λ p,
        from_parts
          (multimap_insert first_token (prefix_rule_of first_token rest d) (rules_by_program p))
          (network_rules p) (host_executables_by_name p))
  end.

Definition add_network_rule (host : str) (pr : NetworkRuleProtocol) (d : Decision)
    (justification : option str) : st_err Policy Error unit :=
  host ← lift (normalize_network_rule_host host);
  if match justification with Some raw => is_empty (trim raw) | None => false end
  then throw (InvalidRule (lit "justification cannot be empty"))
  else modify (λ p,
    from_parts (rules_by_program p)
      (network_rules p ++ [{| host := host; protocol := pr; net_decision := d;
                              net_justification := justification |}])
      (host_executables_by_name p)).

Definition set_host_executable_paths (name : str) (paths : list str) (p : Policy) : Policy :=
  from_parts (rules_by_program p) (network_rules p)
    (<[name := paths]> (host_executables_by_name p)).

(** Every rule of the overlay is inserted behind those of the base; network rules
    are appended; an overlay entry for an executable replaces that of the base. *)
Definition merge_overlay (base overlay : Policy) : Policy :=
  from_parts
    (union_with (λ a b, Some (a ++ b)) (rules_by_program base) (rules_by_program overlay))
    (network_rules base ++ network_rules overlay)
    (host_executables_by_name overlay ∪ host_executables_by_name base).

Definition upsert_domain (entries : list str) (h : str) : list str :=
  List.filter (λ e, negb (e == h)) entries ++ [h].

Definition compile_step (st : list str * list str) (r : NetworkRule) : list str * list str :=
  let '(allowed, denied) := st in
  match net_decision r with
  | Allow => (upsert_domain allowed (host r), List.filter (λ e, negb (e == host r)) denied)
  | Forbidden => (List.filter (λ e, negb (e == host r)) allowed, upsert_domain denied (host r))
  | Prompt => (allowed, denied)
  end.

Definition compiled_network_domains (p : Policy) : list str * list str :=
  fold_left compile_step (network_rules p) ([], []).

(** ** Matching *)

Definition executable_lookup_key (raw : str) : str := raw.
Definition executable_path_lookup_key (path : str) : option str :=
  executable_lookup_key <$> file_name path.

Definition match_exact_rules (p : Policy) (cmd : list str) : option (list RuleMatch) :=
  match cmd with
  | [] => None
  | c :: _ => Some (match rules_by_program p !! c with
                    | Some rules => omap (λ r, rule_matches r cmd) rules
                    | None => []
                    end)
  end.

Definition non_empty {A} (o : option (list A)) : option (list A) :=
  opt_filter (λ l, negb (is_empty l)) o.

Record Evaluation := { decision : Decision; matched_rules : list RuleMatch }.

Definition is_prefix_match (m : RuleMatch) : bool :=
  match m with HeuristicsRuleMatch _ _ => false | _ => true end.

Definition is_match (e : Evaluation) : bool := any is_prefix_match (matched_rules e).

(** [expect]s a match: [None] is the panic. *)
Definition from_matches (matches : list RuleMatch) : option Evaluation :=
  (λ d, {| decision := d; matched_rules := matches |}) <$> max_decision (rm_decision <$> matches).

Section Matching.
(** The home directory and the working directory [AbsolutePathBuf::try_from]
    resolves against. *)
Context (home_dir : option str) (current_dir : result str str).

Definition match_host_executable_rules (p : Policy) (cmd : list str) : list RuleMatch :=
  match cmd with
  | [] => []
  | c :: args =>
      match from_absolute_path home_dir current_dir c with
      | Err _ => []
      | Ok program =>
          match executable_path_lookup_key program with
          | None => []
          | Some basename =>
              match rules_by_program p !! basename with
              | None => []
              | Some rules =>
                  if match host_executables_by_name p !! basename with
                     | Some paths => negb (any (λ path, path_eq path program) paths)
                     | None => false
                     end
                  then []
                  else with_resolved_program program
                         <$> omap (λ r, rule_matches r (basename :: args)) rules
              end
          end
      end
  end.

Definition matches_for_command_with_options (p : Policy) (cmd : list str)
    (heuristics_fallback : option (list str → Decision)) (options : MatchOptions)
    : list RuleMatch :=
  let matched_rules :=
    default []
      (opt_or (non_empty (match_exact_rules p cmd))
         (non_empty (if resolve_host_executables options
                     then Some (match_host_executable_rules p cmd) else None))) in
  match matched_rules, heuristics_fallback with
  | [], Some fallback => [HeuristicsRuleMatch cmd (fallback cmd)]
  | _, _ => matched_rules
  end.

Definition matches_for_command (p : Policy) (cmd : list str)
    (heuristics_fallback : option (list str → Decision)) : list RuleMatch :=
  matches_for_command_with_options p cmd heuristics_fallback default_options.

Definition check_with_options (p : Policy) (cmd : list str) (fallback : list str → Decision)
    (options : MatchOptions) : option Evaluation :=
  from_matches (matches_for_command_with_options p cmd (Some fallback) options).

Definition check (p : Policy) (cmd : list str) (fallback : list str → Decision)
    : option Evaluation :=
  from_matches (matches_for_command_with_options p cmd (Some fallback) default_options).

Definition check_multiple_with_options (p : Policy) (commands : list (list str))
    (fallback : list str → Decision) (options : MatchOptions) : option Evaluation :=
  from_matches
    (commands ≫= λ c, matches_for_command_with_options p c (Some fallback) options).

Definition check_multiple (p : Policy) (commands : list (list str))
    (fallback : list str → Decision) : option Evaluation :=
  check_multiple_with_options p commands fallback default_options.
End Matching.

(** ** The strictest decision *)

Lemma rank_inj a b : rank a = rank b → a = b.
Proof. by destruct a, b. Qed.

Lemma decision_max_rank a b : rank (decision_max a b) = max (rank a) (rank b).
Proof. by destruct a, b. Qed.

Lemma fold_max_rank ds d :
  rank d ≤ rank (fold_left decision_max ds d) ∧
  (∀ x, x ∈ ds → rank x ≤ rank (fold_left decision_max ds d)) ∧
  (fold_left decision_max ds d = d ∨ fold_left decision_max ds d ∈ ds).
Proof.
  revert d. induction ds as [|x ds IH]; intros d; simpl.
  { split; [done|]. split; [by intros ? ?%elem_of_nil|by left]. }
  destruct (IH (decision_max d x)) as (H1 & H2 & H3). rewrite decision_max_rank in H1.
  split; [lia|]. split; [intros y [-> | Hy]%elem_of_cons; [lia|auto]|].
  destruct H3 as [-> | ?]; [|right; by right].
  unfold decision_max. case_match; [right; by left|by left].
Qed.

Lemma max_decision_Some ds d :
  max_decision ds = Some d ↔ d ∈ ds ∧ ∀ x, x ∈ ds → rank x ≤ rank d.
Proof.
  destruct ds as [|x ds]; simpl.
  { split; [done|]. by intros [?%elem_of_nil _]. }
  destruct (fold_max_rank ds x) as (H1 & H2 & H3). set (m := fold_left decision_max ds x) in *.
  assert (Hm : m ∈ x :: ds ∧ ∀ y, y ∈ x :: ds → rank y ≤ rank m).
  { split; [destruct H3 as [-> | ?]; [by left|by right]|].
    intros y [-> | ?]%elem_of_cons; auto. }
  split; [by intros [= <-]|]. intros [Hd Hle]. f_equal. apply rank_inj.
  pose proof (proj2 Hm d Hd). pose proof (Hle m (proj1 Hm)). lia.
Qed.

Lemma max_decision_total ds : ds ≠ [] → is_Some (max_decision ds).
Proof. destruct ds; [done|]. by eexists. Qed.

Lemma from_matches_Some ms e :
  from_matches ms = Some e ↔
    matched_rules e = ms ∧ decision e ∈ rm_decision <$> ms ∧
    ∀ m, m ∈ ms → rank (rm_decision m) ≤ rank (decision e).
Proof.
  unfold from_matches. rewrite fmap_Some. setoid_rewrite max_decision_Some. split.
  - intros (d & [Hd Hle] & ->). split; [done|]. split; [done|].
    intros m Hm. apply Hle. apply list_elem_of_fmap. eauto.
  - destruct e as [d r]. simpl. intros (-> & Hd & Hle). exists d. split; [|done].
    split; [done|]. intros x (m & -> & Hm)%list_elem_of_fmap. auto.
Qed.

(** ** Prefix matching *)

Lemma tokens_match_Forall2 ts cs :
  length ts = length cs →
  tokens_match ts cs = true ↔ Forall2 (λ t c, token_matches t c = true) ts cs.
Proof.
  revert cs. induction ts as [|t ts IH]; intros [|c cs] Hl; simplify_eq/=; [done|].
  rewrite andb_true_iff, IH by done. split; [intros []; by constructor|by inversion 1].
Qed.

(** A rule matches exactly the commands that start with its pattern. *)
Lemma matches_prefix_Some p cmd mp :
  matches_prefix p cmd = Some mp ↔
    ∃ toks more, cmd = first p :: toks ++ more ∧ mp = first p :: toks ∧
      Forall2 (λ t c, token_matches t c = true) (rest p) toks.
Proof.
  unfold matches_prefix. destruct (Nat.ltb_spec (length cmd) (length (rest p) + 1)) as [Hlt|Hge].
  { split; [done|]. intros (toks & more & -> & -> & HF). apply Forall2_length in HF.
    simpl in Hlt. rewrite length_app in Hlt. lia. }
  destruct cmd as [|c args]; [simpl in Hge; lia|]. simpl in Hge.
  replace (length (rest p) + 1) with (S (length (rest p))) by lia. cbn [take].
  assert (Hl : length (rest p) = length (take (length (rest p)) args))
    by (rewrite length_take; lia).
  destruct (c == first p) eqn:Hc; simpl.
  - apply str_eqb_true in Hc as ->.
    destruct (tokens_match (rest p) (take (length (rest p)) args)) eqn:Ht.
    + apply tokens_match_Forall2 in Ht; [|done]. split.
      * intros [= <-]. exists (take (length (rest p)) args), (drop (length (rest p)) args).
        by rewrite take_drop.
      * intros (toks & more & [= ->] & -> & HF). apply Forall2_length in HF.
        by rewrite HF, take_app_length.
    + split; [done|]. intros (toks & more & [= ->] & -> & HF).
      pose proof (Forall2_length _ _ _ HF) as HFl. rewrite HFl, take_app_length in Ht.
      apply tokens_match_Forall2 in HF; [congruence|done].
  - split; [done|]. intros (toks & more & [= -> _] & _). by rewrite str_eqb_refl in Hc.
Qed.

(** The rule an amendment adds matches exactly the commands it is a prefix of. *)
Lemma prefix_rule_of_matches c toks d cmd :
  is_Some (rule_matches (prefix_rule_of c toks d) cmd) ↔ ∃ more, cmd = (c :: toks) ++ more.
Proof.
  unfold rule_matches. rewrite fmap_is_Some. unfold is_Some. setoid_rewrite matches_prefix_Some.
  simpl. assert (Hsingle : ∀ ts, Forall2 (λ t x, token_matches t x = true) (Single <$> toks) ts
                                ↔ ts = toks).
  { intros ts. rewrite Forall2_fmap_l. split.
    - intros HF. induction HF as [|x y ? ? Hxy _ IH]; [done|].
      simpl in Hxy. apply str_eqb_true in Hxy as ->. by f_equal.
    - intros ->. apply Forall2_same_length_lookup_2; [done|].
      intros i x y Hx Hy. simplify_eq. simpl. apply str_eqb_refl. }
  split.
  - intros (mp & ts & more & -> & _ & ->%Hsingle). by exists more.
  - intros [more ->]. exists (c :: toks), toks, more. by rewrite Hsingle.
Qed.

Section Checks.
Context (home_dir : option str) (current_dir : result str str).
Implicit Types (p base overlay : Policy) (cmd : list str) (o : MatchOptions).

Local Abbreviation matches := (matches_for_command_with_options home_dir current_dir).
Local Abbreviation check_multi := (check_multiple_with_options home_dir current_dir).

(** The rules that match, without a fallback, are all prefix rules. *)
Lemma matches_are_rules p cmd o m :
  m ∈ matches p cmd None o → is_prefix_match m = true.
Proof.
  unfold matches_for_command_with_options. intros H.
  assert (Hex : ∀ rules c, Forall (λ m, is_prefix_match m = true) (omap (λ r, rule_matches r c) rules)).
  { intros rules c. apply Forall_forall. intros x (r & _ & Hx)%list_elem_of_omap.
    unfold rule_matches in Hx. by apply fmap_Some in Hx as (? & _ & ->). }
  assert (Hm : m ∈ default [] (match_exact_rules p cmd)
               ∨ m ∈ match_host_executable_rules home_dir current_dir p cmd).
  { destruct (match_exact_rules p cmd) as [[|x l]|]; simpl in *; try tauto;
      destruct (resolve_host_executables o); simpl in *;
      try (by apply elem_of_nil in H);
      destruct (match_host_executable_rules home_dir current_dir p cmd); simpl in *; auto. }
  destruct Hm as [Hm | Hm].
  - destruct cmd as [|c cmd]; simpl in Hm; [by apply elem_of_nil in Hm|].
    destruct (rules_by_program p !! c); [|by apply elem_of_nil in Hm].
    by eapply (proj1 (Forall_forall _ _) (Hex _ _)).
  - clear H. unfold match_host_executable_rules in Hm.
    repeat (case_match; try by apply elem_of_nil in Hm).
    all: apply list_elem_of_fmap in Hm as (x & -> & Hx);
      eapply (proj1 (Forall_forall _ _) (Hex _ _)) in Hx; by destruct x.
Qed.

(** With a fallback: the matching rules, or else the fallback's word alone. *)
Lemma matches_fallback p cmd f o :
  matches p cmd (Some f) o =
    match matches p cmd None o with
    | [] => [HeuristicsRuleMatch cmd (f cmd)]
    | ms => ms
    end.
Proof. unfold matches_for_command_with_options. by destruct (default [] _). Qed.

Lemma matches_nonempty p cmd f o : matches p cmd (Some f) o ≠ [].
Proof. rewrite matches_fallback. by destruct (matches p cmd None o). Qed.

(** What one command contributes: its matching rules or the fallback. *)
Definition contributes p cmd (f : list str → Decision) o (d : Decision) : Prop :=
  (∃ m, m ∈ matches p cmd None o ∧ rm_decision m = d) ∨
  (matches p cmd None o = [] ∧ f cmd = d).

Lemma contributes_matches p cmd f o d :
  contributes p cmd f o d ↔ ∃ m, m ∈ matches p cmd (Some f) o ∧ rm_decision m = d.
Proof.
  rewrite matches_fallback. unfold contributes. destruct (matches p cmd None o) as [|m ms].
  - split.
    + intros [(m & ?%elem_of_nil & _) | [_ <-]]; [done|]. eexists. split; [by left|done].
    + intros (m & ->%list_elem_of_singleton & <-). by right.
  - split; [intros [? | [? _]]; [done|done]|]. by left.
Qed.

(** The evaluation of several commands: total on a non-empty list, with the
    strictest of the decisions the commands contribute. *)
Lemma check_multi_spec p (commands : list (list str)) f o :
  commands ≠ [] →
  ∃ e, check_multi p commands f o = Some e ∧
    matched_rules e = commands ≫= (λ c, matches p c (Some f) o) ∧
    (∃ c, c ∈ commands ∧ contributes p c f o (decision e)) ∧
    ∀ c d, c ∈ commands → contributes p c f o d → rank d ≤ rank (decision e).
Proof.
  intros Hne. unfold check_multiple_with_options.
  set (ms := commands ≫= _).
  assert (Hms : ms ≠ []).
  { destruct commands as [|c commands]; [done|]. unfold ms. rewrite bind_cons.
    intros [H _]%app_nil. by apply matches_nonempty in H. }
  destruct (max_decision_total (rm_decision <$> ms)) as [d Hd]; [by destruct ms|].
  exists {| decision := d; matched_rules := ms |}.
  assert (Hf : from_matches ms = Some {| decision := d; matched_rules := ms |})
    by (unfold from_matches; by rewrite Hd).
  apply from_matches_Some in Hf as (_ & (m & -> & Hm)%list_elem_of_fmap & Hle). simpl in *.
  split; [unfold from_matches; by rewrite Hd|]. split; [done|]. split.
  - apply list_elem_of_bind in Hm as (c & Hm & Hc). exists c. split; [done|].
    apply contributes_matches. eauto.
  - intros c d' Hc (m' & Hm' & <-)%contributes_matches. apply Hle.
    apply list_elem_of_bind. eauto.
Qed.

(** A list of commands gets the strictest decision: the evaluation never
    fails on a non-empty list, its decision is contributed by one of the
    commands, and no command contributes a stricter one.  A command contributes
    the decisions of its matching rules, and the fallback's only when no rule
    matches it. *)
Theorem check_multiple_strictest p (commands : list (list str)) f o :
  commands ≠ [] →
  ∃ e, check_multi p commands f o = Some e ∧
    (∃ c, c ∈ commands ∧ contributes p c f o (decision e)) ∧
    ∀ c d, c ∈ commands → contributes p c f o d → rank d ≤ rank (decision e).
Proof.
  intros Hne. destruct (check_multi_spec p commands f o Hne) as (e & He & _ & Hc & Hle). eauto.
Qed.

(** ** Overlays *)

Definition exact_matches p cmd : list RuleMatch := default [] (match_exact_rules p cmd).

Lemma merge_overlay_exact base overlay cmd :
  exact_matches (merge_overlay base overlay) cmd
  = exact_matches base cmd ++ exact_matches overlay cmd.
Proof.
  unfold exact_matches. destruct cmd as [|c cmd]; simpl; [done|].
  rewrite lookup_union_with.
  destruct (rules_by_program base !! c) as [a|], (rules_by_program overlay !! c) as [b|]; simpl;
    rewrite ?omap_app, ?app_nil_r; done.
Qed.

Lemma matches_exact p cmd :
  matches p cmd None default_options = exact_matches p cmd.
Proof.
  unfold matches_for_command_with_options, exact_matches. simpl.
  by destruct (match_exact_rules p cmd) as [[|m ms]|].
Qed.

(** An overlay adds restrictions and never lifts one: with both layers
    merged, a command is decided by the rules of both, so the decision is at
    least as strict as that of each layer that has a rule for it, and the
    fallback is consulted only when neither has. *)
Theorem merge_overlay_strictest base overlay cmd f :
  ∃ e, check home_dir current_dir (merge_overlay base overlay) cmd f = Some e ∧
    (∀ m, m ∈ exact_matches base cmd ++ exact_matches overlay cmd →
       rank (rm_decision m) ≤ rank (decision e)) ∧
    ((∃ m, m ∈ exact_matches base cmd ++ exact_matches overlay cmd ∧
           decision e = rm_decision m) ∨
     (exact_matches base cmd = [] ∧ exact_matches overlay cmd = [] ∧ decision e = f cmd)).
Proof.
  destruct (check_multi_spec (merge_overlay base overlay) [cmd] f default_options)
    as (e & He & _ & (c & ->%list_elem_of_singleton & Hc) & Hle); [done|].
  exists e. unfold check_multiple_with_options in He. simpl in He. rewrite app_nil_r in He.
  split; [exact He|]. unfold contributes in *. rewrite matches_exact, merge_overlay_exact in *.
  split.
  - intros m Hm. apply (Hle cmd); [by left|]. left. rewrite matches_exact, merge_overlay_exact. eauto.
  - destruct Hc as [(m & Hm & <-) | [[Hb Ho]%app_nil <-]]; [left; eauto|by right].
Qed.
End Checks.

(** ** Network rules *)

Lemma filter_neq_in (l : list str) h x :
  x ∈ List.filter (λ e, negb (e == h)) l ↔ x ∈ l ∧ x ≠ h.
Proof.
  rewrite !list_elem_of_In, filter_In, negb_true_iff, str_eqb_false. done.
Qed.

(** The last rule for a host that allows or forbids it. *)
Definition last_verdict (rules : list NetworkRule) (h : str) : option Decision :=
  fold_left (λ v r, if (host r == h) && negb (bool_decide (net_decision r = Prompt))
                    then Some (net_decision r) else v) rules None.

Lemma compile_step_in allowed denied r h v :
  (h ∈ allowed ↔ v = Some Allow) → (h ∈ denied ↔ v = Some Forbidden) →
  let st := compile_step (allowed, denied) r in
  let v' := if (host r == h) && negb (bool_decide (net_decision r = Prompt))
            then Some (net_decision r) else v in
  (h ∈ st.1 ↔ v' = Some Allow) ∧ (h ∈ st.2 ↔ v' = Some Forbidden).
Proof.
  intros Ha Hd. unfold compile_step, upsert_domain.
  destruct (host r == h) eqn:Hh; [apply str_eqb_true in Hh as <-|apply str_eqb_false in Hh];
    destruct (net_decision r); simpl; rewrite ?elem_of_app, ?filter_neq_in, ?list_elem_of_singleton;
    naive_solver.
Qed.

Lemma compile_fold_in rules allowed denied h v :
  (h ∈ allowed ↔ v = Some Allow) → (h ∈ denied ↔ v = Some Forbidden) →
  let st := fold_left compile_step rules (allowed, denied) in
  let v' := fold_left (λ v r, if (host r == h) && negb (bool_decide (net_decision r = Prompt))
                    then Some (net_decision r) else v) rules v in
  (h ∈ st.1 ↔ v' = Some Allow) ∧ (h ∈ st.2 ↔ v' = Some Forbidden).
Proof.
  revert allowed denied v. induction rules as [|r rules IH]; intros allowed denied v Ha Hd; [done|].
  destruct (compile_step_in allowed denied r h v Ha Hd) as [Ha' Hd']. cbn [fold_left].
  destruct (compile_step (allowed, denied) r) as [a d]. by apply IH.
Qed.

(** The compiled domain lists follow the last word: a host is allowed exactly
    when the last of its rules that is not a prompt allows it, denied exactly
    when that rule forbids it, and hence never both. *)
Theorem compiled_domains_last_wins (p : Policy) (h : str) :
  let '(allowed, denied) := compiled_network_domains p in
  (h ∈ allowed ↔ last_verdict (network_rules p) h = Some Allow) ∧
  (h ∈ denied ↔ last_verdict (network_rules p) h = Some Forbidden) ∧
  ¬ (h ∈ allowed ∧ h ∈ denied).
Proof.
  unfold compiled_network_domains.
  destruct (compile_fold_in (network_rules p) [] [] h None) as [Ha Hd];
    [split; [by intros ?%elem_of_nil|done]..|].
  destruct (fold_left compile_step (network_rules p) ([], [])) as [allowed denied].
  split; [done|]. split; [done|]. intros [H1 H2]. apply Ha in H1. apply Hd in H2. congruence.
Qed.

(** What a stored host looks like. *)
Lemma normalize_network_rule_host_Ok raw h :
  normalize_network_rule_host raw = Ok h →
  h ≠ [] ∧ (∀ c, c ∈ h → is_whitespace c = false ∧ c ≠ ch "*" ∧ to_ascii_lowercase c = c).
Proof.
  unfold normalize_network_rule_host. intros H.
  repeat (case_match; [done|]). apply bind_Ok in H as (host & _ & H).
  set (n := to_ascii_lowercase <$> trim (trim_end_char (ch ".") host)) in *.
  destruct (is_empty n) eqn:He; [done|]. destruct (contains_char (ch "*") n) eqn:Hs; [done|].
  destruct (existsb is_whitespace n) eqn:Hw; [done|]. injection H as <-.
  apply is_empty_false in He. apply contains_char_false in Hs.
  split; [done|]. intros c Hc. split; [|split].
  - apply not_true_is_false. intros Hc'. apply not_true_iff_false in Hw. apply Hw.
    apply existsb_exists. exists c. by rewrite <-list_elem_of_In.
  - by intros ->.
  - apply list_elem_of_fmap in Hc as (d & -> & _). unfold to_ascii_lowercase, in_range.
    destruct (65 <=? d)%N eqn:E1, (d <=? 90)%N eqn:E2; simpl; try done;
      rewrite ?E1, ?E2; simpl; try done.
    apply N.leb_le in E1, E2. destruct (N.leb_spec 65 (d + 32)), (N.leb_spec (d + 32) 90);
      simpl; try done; lia.
Qed.

(** Normalizing twice can differ from normalizing once: a final dot survives when
    blanks follow it. *)
Lemma normalize_host_not_idempotent :
  normalize_network_rule_host (lit "x. .") = Ok (lit "x.") ∧
  normalize_network_rule_host (lit "x.") = Ok (lit "x").
Proof. vm_compute. done. Qed.

(** ** Examples *)

Definition git_allow : Policy :=
  policy_new {[lit "git" := [prefix_rule_of (lit "git") [lit "status"] Allow]]}.

(** The basename fallback is meant for absolute program paths, but a relative
    path is made absolute first: [./git status] in the working directory gets the
    rule of [git status]. *)
Lemma relative_path_takes_basename_rule :
  matches_for_command_with_options None (Ok (lit "/work")) git_allow
    [lit "./git"; lit "status"] None {| resolve_host_executables := true |}
  = [PrefixRuleMatch [lit "git"; lit "status"] Allow (Some (lit "/work/git")) None].
Proof. vm_compute. reflexivity. Qed.

(** A later layer that allows does not override an earlier one that forbids. *)
Lemma overlay_allow_does_not_override :
  let base := policy_new {[lit "git" := [prefix_rule_of (lit "git") [] Forbidden]]} in
  decision <$> check None (Ok (lit "/work")) (merge_overlay base git_allow)
    [lit "git"; lit "status"] (λ _, Prompt) = Some Forbidden.
Proof. vm_compute. reflexivity. Qed.

Lemma check_multiple_strictest_witness :
  ∃ e, check_multiple_with_options None (Ok (lit "/work")) git_allow
         [[lit "git"; lit "status"]; [lit "make"]] (λ _, Prompt) default_options = Some e ∧
    rank Prompt ≤ rank (decision e).
Proof.
  destruct (check_multiple_strictest None (Ok (lit "/work")) git_allow
    [[lit "git"; lit "status"]; [lit "make"]] (λ _, Prompt) default_options)
    as (e & He & _ & Hle); [done|].
  exists e. split; [exact He|]. apply (Hle [lit "make"]); [right; left|].
  right. split; vm_compute; reflexivity.
Defined.
