(* ===== verification/ExecApproval.v ===== *)
(** * Approval of commands

    [core/src/exec_policy.rs] (the Unix build) with the rule file of
    [execpolicy/src/amend.rs]: how a command, the exec policy, the approval policy
    and the permission profile give the requirement the tool orchestrator acts
    on, and how an approved amendment changes the policy in memory and on disk.

    Parameters: tree-sitter's parser, the home and working directories, [shlex]
    and [serde_json] for the texts shown and written.  Loading the rule files and
    formatting their errors are not modelled. *)

From S2P Require Import Prelude RustStr AbsPath HostShell Permissions CommandSafety ExecPolicy.

(** ** Data *)

(** [SandboxPermissions] (protocol/src/models.rs) *)
Inductive SandboxPermissions := UseDefault | RequireEscalated | WithAdditionalPermissions.

Definition requests_sandbox_override (s : SandboxPermissions) : bool :=
  match s with UseDefault => false | _ => true end.

Record ExecPolicyAmendment := { amendment_command : list str }.

Inductive ExecApprovalRequirement :=
| Skip (bypass_sandbox : bool) (proposed : option ExecPolicyAmendment)
| NeedsApproval (reason : option str) (proposed : option ExecPolicyAmendment)
| ForbiddenReq (reason : str).

Record UnmatchedCommandContext := {
  approval_policy : AskForApproval;
  permission_profile : PermissionProfile;
  sandbox_permissions : SandboxPermissions;
  used_complex_parsing : bool;
}.

Record ExecPolicyCommands := {
  commands : list (list str);
  complex_parsing : bool;
}.

Record ExecApprovalRequest := {
  command : list str;
  req_approval_policy : AskForApproval;
  req_permission_profile : PermissionProfile;
  req_sandbox_permissions : SandboxPermissions;
  prefix_rule : option (list str);
}.

Definition PROMPT_CONFLICT_REASON : str :=
  lit "approval required by policy, but AskForApproval is set to Never".
Definition REJECT_SANDBOX_APPROVAL_REASON : str :=
  lit "approval required by policy, but AskForApproval::Granular.sandbox_approval is false".
Definition REJECT_RULES_APPROVAL_REASON : str :=
  lit "approval required by policy rule, but AskForApproval::Granular.rules is false".

Definition BANNED_PREFIX_SUGGESTIONS : list (list str) :=
  List.map (List.map lit)
    [["python3"]; ["python3"; "-"]; ["python3"; "-c"]; ["python"]; ["python"; "-"];
     ["python"; "-c"]; ["py"]; ["py"; "-3"]; ["pythonw"]; ["pyw"]; ["pypy"]; ["pypy3"];
     ["git"]; ["bash"]; ["bash"; "-lc"]; ["sh"]; ["sh"; "-c"]; ["sh"; "-lc"]; ["zsh"];
     ["zsh"; "-lc"]; ["/bin/zsh"]; ["/bin/zsh"; "-lc"]; ["/bin/bash"]; ["/bin/bash"; "-lc"];
     ["pwsh"]; ["pwsh"; "-Command"]; ["pwsh"; "-c"]; ["powershell"];
     ["powershell"; "-Command"]; ["powershell"; "-c"]; ["powershell.exe"];
     ["powershell.exe"; "-Command"]; ["powershell.exe"; "-c"]; ["env"]; ["sudo"]; ["node"];
     ["node"; "-e"]; ["perl"]; ["perl"; "-e"]; ["ruby"]; ["ruby"; "-e"]; ["php"];
     ["php"; "-r"]; ["lua"]; ["lua"; "-e"]; ["osascript"]]%string.

(** ** Decisions *)

Definition is_policy_match (m : RuleMatch) : bool :=
  match m with PrefixRuleMatch _ _ _ _ => true | HeuristicsRuleMatch _ _ => false end.

Definition decides (d : Decision) (m : RuleMatch) : bool := bool_decide (rm_decision m = d).

Definition prompt_is_rejected_by_policy (a : AskForApproval) (prompt_is_rule : bool)
    : option str :=
  match a with
  | Never => Some PROMPT_CONFLICT_REASON
  | OnFailure | OnRequest | UnlessTrusted => None
  | Granular sandbox_approval rules _ _ _ =>
      if prompt_is_rule then if negb rules then Some REJECT_RULES_APPROVAL_REASON else None
      else if negb sandbox_approval then Some REJECT_SANDBOX_APPROVAL_REASON else None
  end.

Definition try_derive_execpolicy_amendment_for_prompt_rules (ms : list RuleMatch)
    : option ExecPolicyAmendment :=
  if any (λ m, is_policy_match m && decides Prompt m) ms then None
  else find_map (λ m, match m with
                      | HeuristicsRuleMatch c Prompt => Some {| amendment_command := c |}
                      | _ => None
                      end) ms.

Definition try_derive_execpolicy_amendment_for_allow_rules (ms : list RuleMatch)
    : option ExecPolicyAmendment :=
  if any is_policy_match ms then None
  else find_map (λ m, match m with
                      | HeuristicsRuleMatch c Allow => Some {| amendment_command := c |}
                      | _ => None
                      end) ms.

(** [max_by_key]: the last of the greatest elements. *)
Definition max_by_len {A} (l : list (list str * A)) : option (list str * A) :=
  match l with
  | [] => None
  | x :: l => Some (fold_left (λ m y, if Nat.leb (length m.1) (length y.1) then y else m) l x)
  end.

(** The prefix rules with decision [d] that matched, with their justification. *)
Definition rules_deciding (d : Decision) (ms : list RuleMatch) : list (list str * option str) :=
  omap (λ m, match m with
             | PrefixRuleMatch mp d' _ j => if bool_decide (d' = d) then Some (mp, j) else None
             | HeuristicsRuleMatch _ _ => None
             end) ms.

Section Approval.
Context (try_parse_shell : str → option Node).
Context (home_dir : option str) (current_dir : result str str).
(** [shlex::try_join], [None] when a word holds a NUL. *)
Context (shlex_try_join : list str → option str).
(** [serde_json::to_string] of a string. *)
Context (to_json : str → str).

Definition render_decision_for_unmatched_command (cmd : list str)
    (ctx : UnmatchedCommandContext) : Decision :=
  let a := approval_policy ctx in
  let fs := file_system_sandbox_policy (permission_profile ctx) in
  let is_known_safe := is_known_safe_command try_parse_shell cmd in
  if is_known_safe && negb (used_complex_parsing ctx)
     && match a with UnlessTrusted => true | _ => false end
  then Allow
  else if command_might_be_dangerous try_parse_shell cmd then
    match a with
    | Never =>
        match permission_profile ctx with
        | ProfileDisabled | ProfileExternal _ => Allow
        | ProfileManaged _ _ => Forbidden
        end
    | OnFailure | OnRequest | UnlessTrusted | Granular _ _ _ _ _ => Prompt
    end
  else
    match a with
    | Never | OnFailure => Allow
    | UnlessTrusted => Prompt
    | OnRequest | Granular _ _ _ _ _ =>
        match Permissions.kind fs with
        | Unrestricted | ExternalSandbox => Allow
        | Restricted =>
            if requests_sandbox_override (sandbox_permissions ctx) then Prompt else Allow
        end
    end.

Definition commands_for_exec_policy (cmd : list str) : ExecPolicyCommands :=
  match opt_filter (λ cs, negb (is_empty cs)) (parse_shell_lc_plain_commands try_parse_shell cmd) with
  | Some cs => {| commands := cs; complex_parsing := false |}
  | None =>
      match parse_shell_lc_single_command_prefix try_parse_shell cmd with
      | Some single => {| commands := [single]; complex_parsing := true |}
      | None => {| commands := [cmd]; complex_parsing := false |}
      end
  end.

Definition render_shlex_command (args : list str) : str :=
  default (join (lit " ") args) (shlex_try_join args).

Definition derive_prompt_reason (args : list str) (e : Evaluation) : option str :=
  let c := render_shlex_command args in
  match max_by_len (rules_deciding Prompt (matched_rules e)) with
  | Some (_, Some j) => Some (lit "`" ++ c ++ lit "` requires approval: " ++ j)
  | Some (_, None) => Some (lit "`" ++ c ++ lit "` requires approval by policy")
  | None => None
  end.

Definition derive_forbidden_reason (args : list str) (e : Evaluation) : str :=
  let c := render_shlex_command args in
  match max_by_len (rules_deciding Forbidden (matched_rules e)) with
  | Some (_, Some j) => lit "`" ++ c ++ lit "` rejected: " ++ j
  | Some (mp, None) =>
      lit "`" ++ c ++ lit "` rejected: policy forbids commands starting with `"
      ++ render_shlex_command mp ++ lit "`"
  | None => lit "`" ++ c ++ lit "` rejected: blocked by policy"
  end.

(** [None] is the panic of an evaluation without a match; the outcome of
    [check_with_options] is never that ([check_one_total]). *)
Definition decides_allow (e : option Evaluation) : bool :=
  match e with Some e => bool_decide (decision e = Allow) | None => false end.

Definition prefix_rule_would_approve_all_commands (p : Policy) (prefix : list str)
    (cmds : list (list str)) (fallback : list str → Decision) (o : MatchOptions) : bool :=
  match add_prefix_rule prefix Allow p with
  | (_, Err _) => false
  | (p', Ok _) =>
      all (λ c, decides_allow (check_with_options home_dir current_dir p' c fallback o)) cmds
  end.

Definition derive_requested_execpolicy_amendment_from_prefix_rule (prefix : option (list str))
    (ms : list RuleMatch) (p : Policy) (cmds : list (list str))
    (fallback : list str → Decision) (o : MatchOptions) : option ExecPolicyAmendment :=
  prefix ← prefix;
  if is_empty prefix then None
  else if any (λ banned, bool_decide (prefix = banned)) BANNED_PREFIX_SUGGESTIONS then None
  else if any is_policy_match ms then None
  else if prefix_rule_would_approve_all_commands p prefix cmds fallback o
  then Some {| amendment_command := prefix |} else None.

Definition host_options : MatchOptions := {| resolve_host_executables := true |}.

(** [None] would be the panic of [from_matches]; [approval_total] rules it out. *)
Definition create_exec_approval_requirement_for_command (p : Policy) (req : ExecApprovalRequest)
    : option ExecApprovalRequirement :=
  let cs := commands_for_exec_policy (command req) in
  let auto_amendment_allowed := negb (complex_parsing cs) in
  let fallback := λ c, render_decision_for_unmatched_command c
    {| approval_policy := req_approval_policy req;
       permission_profile := req_permission_profile req;
       sandbox_permissions := req_sandbox_permissions req;
       used_complex_parsing := complex_parsing cs |} in
  evaluation ← check_multiple_with_options home_dir current_dir p (commands cs) fallback host_options;
  let requested_amendment :=
    if auto_amendment_allowed then
      derive_requested_execpolicy_amendment_from_prefix_rule (prefix_rule req)
        (matched_rules evaluation) p (commands cs) fallback host_options
    else None in
  Some
    match decision evaluation with
    | Forbidden => ForbiddenReq (derive_forbidden_reason (command req) evaluation)
    | Prompt =>
        let prompt_is_rule :=
          any (λ m, is_policy_match m && decides Prompt m) (matched_rules evaluation) in
        match prompt_is_rejected_by_policy (req_approval_policy req) prompt_is_rule with
        | Some reason => ForbiddenReq reason
        | None =>
            NeedsApproval (derive_prompt_reason (command req) evaluation)
              (opt_or requested_amendment
                 (if auto_amendment_allowed
                  then try_derive_execpolicy_amendment_for_prompt_rules (matched_rules evaluation)
                  else None))
        end
    | Allow =>
        Skip
          (all (λ c, any (λ m, is_policy_match m && decides Allow m)
                       (matches_for_command_with_options home_dir current_dir p c None host_options))
             (commands cs))
          (if auto_amendment_allowed
           then try_derive_execpolicy_amendment_for_allow_rules (matched_rules evaluation)
           else None)
    end.

(** ** The rule file *)

Inductive AmendError :=
| EmptyPrefix
| InvalidNetworkRule (e : Error)
| AmendIo (e : str).

(** What [append_locked_line] writes behind the contents it read. *)
Definition appended (contents line : str) : str :=
  if any (λ existing, existing == line) (lines contents) then []
  else (if negb (is_empty contents) && negb (ends_with [nl] contents) then [nl] else [])
       ++ line ++ [nl].

(** How the operating system treats the file operations: they work, they fail
    before anything is written, or a write fails after some characters. *)
Inductive IoOutcome := IoOk | IoFails (e : str) | IoFailsAfter (n : nat) (e : str).

Record RuleFile := { contents : str; io : IoOutcome }.

Definition append_rule_line (line : str) : st_err RuleFile AmendError unit := λ f,
  let text := appended (contents f) line in
  match io f with
  | IoOk => ({| contents := contents f ++ text; io := io f |}, Ok ())
  | IoFails e => (f, Err (AmendIo e))
  | IoFailsAfter n e =>
      if is_empty text then (f, Ok ())
      else ({| contents := contents f ++ take n text; io := io f |}, Err (AmendIo e))
  end.

Definition blocking_append_allow_prefix_rule (prefix : list str)
    : st_err RuleFile AmendError unit :=
  if is_empty prefix then throw EmptyPrefix
  else
    let pattern := lit "[" ++ join (lit ", ") (to_json <$> prefix) ++ lit "]" in
    append_rule_line (lit "prefix_rule(pattern=" ++ pattern ++ litq ", decision=^allow^)").

Definition decision_word (d : Decision) : str :=
  match d with Allow => lit "allow" | Prompt => lit "prompt" | Forbidden => lit "deny" end.

Definition blocking_append_network_rule (host : str) (pr : NetworkRuleProtocol) (d : Decision)
    (justification : option str) : st_err RuleFile AmendError unit :=
  host ← lift (map_err InvalidNetworkRule (normalize_network_rule_host host));
  if match justification with Some raw => is_empty (trim raw) | None => false end
  then throw (InvalidNetworkRule (InvalidRule (lit "justification cannot be empty")))
  else
    let args := [lit "host=" ++ to_json host;
                 lit "protocol=" ++ to_json (as_policy_string pr);
                 lit "decision=" ++ to_json (decision_word d)]
                ++ match justification with
                   | Some j => [lit "justification=" ++ to_json j]
                   | None => []
                   end in
    append_rule_line (lit "network_rule(" ++ join (lit ", ") args ++ lit ")").

(** ** The manager *)

Record ExecPolicyManager := { policy : Policy; rule_file : RuleFile }.

Inductive ExecPolicyUpdateError :=
| AppendRule (e : AmendError)
| AddRule (e : Error).

(** A step on the rule file, then a step on the policy; the update lock is held
    throughout, so no other update runs in between. *)
Definition on_file {A} (m : st_err RuleFile AmendError A)
    : st_err ExecPolicyManager ExecPolicyUpdateError A := λ s,
  let '(f, r) := m (rule_file s) in
  ({| policy := policy s; rule_file := f |}, map_err AppendRule r).

(** [self.policy.store] happens only when the change of the copy succeeded. *)
Definition on_policy {A} (m : st_err Policy Error A)
    : st_err ExecPolicyManager ExecPolicyUpdateError A := λ s,
  match m (policy s) with
  | (p, Ok a) => ({| policy := p; rule_file := rule_file s |}, Ok a)
  | (_, Err e) => (s, Err (AddRule e))
  end.

Definition already_allowed (p : Policy) (c : list str) : bool :=
  match check_multiple_with_options home_dir current_dir p [c] (λ _, Forbidden) host_options with
  | Some e => bool_decide (decision e = Allow)
              && any (λ m, is_policy_match m && decides Allow m) (matched_rules e)
  | None => false
  end.

Definition append_amendment_and_update (a : ExecPolicyAmendment)
    : st_err ExecPolicyManager ExecPolicyUpdateError unit :=
  _ ← on_file (blocking_append_allow_prefix_rule (amendment_command a));
  s ← get;
  if already_allowed (policy s) (amendment_command a) then mret ()
  else on_policy (add_prefix_rule (amendment_command a) Allow).

Definition append_network_rule_and_update (host : str) (pr : NetworkRuleProtocol)
    (d : Decision) (justification : option str)
    : st_err ExecPolicyManager ExecPolicyUpdateError unit :=
  _ ← on_file (blocking_append_network_rule host pr d justification);
  on_policy (add_network_rule host pr d justification).
End Approval.

(** ** Which decisions a requirement reflects *)

Section Requirement.
Context (try_parse_shell : str → option Node).
Context (home_dir : option str) (current_dir : result str str).
Context (shlex_try_join : list str → option str).
Implicit Types (p : Policy) (req : ExecApprovalRequest) (c : list str).

Local Abbreviation matches p c := (matches_for_command_with_options home_dir current_dir p c None host_options).
Local Abbreviation create :=
  (create_exec_approval_requirement_for_command try_parse_shell home_dir current_dir shlex_try_join).

(** The commands a request is split into, and the fallback used for them. *)
Definition segments req : list (list str) :=
  commands (commands_for_exec_policy try_parse_shell (command req)).

Definition fallback_of req : list str → Decision := λ c,
  render_decision_for_unmatched_command try_parse_shell c
    {| approval_policy := req_approval_policy req;
       permission_profile := req_permission_profile req;
       sandbox_permissions := req_sandbox_permissions req;
       used_complex_parsing :=
         complex_parsing (commands_for_exec_policy try_parse_shell (command req)) |}.

Lemma segments_nonempty req : segments req ≠ [].
Proof.
  unfold segments, commands_for_exec_policy.
  destruct (parse_shell_lc_plain_commands try_parse_shell (command req)) as [[|c cs]|]; simpl;
    try done; by case_match.
Qed.

Lemma policy_match_is_prefix m : is_policy_match m = is_prefix_match m.
Proof. by destruct m. Qed.

(** The evaluation behind a requirement. *)
Lemma create_eval p req :
  ∃ e, check_multiple_with_options home_dir current_dir p (segments req) (fallback_of req)
         host_options = Some e ∧
    matched_rules e = segments req ≫=
      (λ c, matches_for_command_with_options home_dir current_dir p c (Some (fallback_of req))
              host_options) ∧
    (∃ c, c ∈ segments req ∧
       contributes home_dir current_dir p c (fallback_of req) host_options (decision e)) ∧
    (∀ c d, c ∈ segments req →
       contributes home_dir current_dir p c (fallback_of req) host_options d →
       rank d ≤ rank (decision e)) ∧
    ∃ r, create p req = Some r ∧
      match decision e with
      | Forbidden => ∃ reason, r = ForbiddenReq reason
      | Prompt =>
          let by_rule := any (λ m, is_policy_match m && decides Prompt m) (matched_rules e) in
          match prompt_is_rejected_by_policy (req_approval_policy req) by_rule with
          | Some reason => r = ForbiddenReq reason
          | None => ∃ reason a, r = NeedsApproval reason a
          end
      | Allow => ∃ a, r = Skip
          (all (λ c, any (λ m, is_policy_match m && decides Allow m) (matches p c)) (segments req)) a
      end.
Proof.
  destruct (check_multi_spec home_dir current_dir p (segments req) (fallback_of req) host_options
              (segments_nonempty req)) as (e & He & Hm & Hc & Hle).
  exists e. do 4 (split; [done|]).
  unfold create_exec_approval_requirement_for_command.
  unfold segments, fallback_of in He. rewrite He. cbn [mbind option_bind].
  eexists. split; [reflexivity|]. destruct (decision e); [by eexists| |by eexists].
  cbn zeta. destruct (prompt_is_rejected_by_policy _ _); [done|]. by do 2 eexists.
Qed.

(** C19: A command runs without asking only when every part of it is cleared: if
    the requirement is to skip approval, then for each command the request splits
    into, every matching rule says allow, or no rule matches and the heuristics
    say allow; and the sandbox is bypassed only when each of them is explicitly
    allowed by a rule, with no prompting or forbidding rule matching any. *)
Theorem approval_skip_sound p req bypass a :
  create p req = Some (Skip bypass a) →
  ∀ c, c ∈ segments req →
    (∀ m, m ∈ matches p c → rm_decision m = Allow) ∧
    (matches p c = [] → fallback_of req c = Allow) ∧
    (bypass = true → matches p c ≠ []).
Proof.
  intros H c Hc. destruct (create_eval p req) as (e & _ & _ & _ & Hle & r & Hr & Hshape).
  rewrite H in Hr. injection Hr as <-.
  destruct (decision e) eqn:Hd.
  - destruct Hshape as [a' [= -> _]].
    assert (Hallow : ∀ d, contributes home_dir current_dir p c (fallback_of req) host_options d →
                          d = Allow).
    { intros d Hd'. specialize (Hle c d Hc Hd'). by destruct d; simpl in Hle; [|lia|lia]. }
    split; [intros m Hm; apply Hallow; left; eauto|].
    split; [intros Hn; apply Hallow; by right|].
    intros Hall Hn. rewrite all_true in Hall. specialize (Hall c Hc). by rewrite Hn in Hall.
  - cbn zeta in Hshape. case_match; [done|]. by destruct Hshape as (? & ? & ?).
  - by destruct Hshape as [? ?].
Qed.

(** The approval policy is honoured: a requirement always results; it asks
    the user only if the policy permits asking (never under [Never]; under the
    granular setting only with the switch for rule prompts, or for sandbox
    prompts when no rule prompted), and otherwise what would prompt is
    forbidden. *)
Theorem approval_prompt_permitted p req :
  ∃ r, create p req = Some r ∧
    (∀ reason a, r = NeedsApproval reason a →
       match req_approval_policy req with
       | Never => False
       | Granular sandbox_approval rules _ _ _ =>
           if any (λ c, any (decides Prompt) (matches p c)) (segments req)
           then rules = true else sandbox_approval = true
       | _ => True
       end).
Proof.
  destruct (create_eval p req) as (e & _ & Hm & _ & _ & r & Hr & Hshape).
  exists r. split; [done|]. intros reason a ->.
  assert (Hrule : any (λ m, is_policy_match m && decides Prompt m) (matched_rules e)
                  = any (λ c, any (decides Prompt) (matches p c)) (segments req)).
  { rewrite Hm. apply Bool.eq_true_iff_eq. rewrite !any_true. setoid_rewrite list_elem_of_bind.
    setoid_rewrite any_true. split.
    - intros (m & (c & Hmc & Hc) & [Hp Hd]%andb_true_iff). exists c. split; [done|].
      exists m. split; [|done]. rewrite matches_fallback in Hmc.
      destruct (matches p c); [|done]. by apply list_elem_of_singleton in Hmc as ->.
    - intros (c & Hc & m & Hmc & Hd). exists m. rewrite Hd, andb_true_r.
      rewrite policy_match_is_prefix, (matches_are_rules _ _ _ _ _ _ Hmc). split; [|done].
      exists c. split; [|done]. rewrite matches_fallback.
      by destruct (matches p c); [apply elem_of_nil in Hmc|]. }
  destruct (decision e); [by destruct Hshape| |by destruct Hshape].
  cbn zeta in Hshape. rewrite Hrule in Hshape.
  destruct (req_approval_policy req) as [| | |sa ru ? ? ?|]; simpl in Hshape; try done.
  destruct (any (λ c, any (decides Prompt) (matches p c)) (segments req)); simpl in Hshape;
    [destruct ru|destruct sa]; simpl in Hshape; try done; by destruct Hshape.
Qed.

(** C20: A dangerous command that no rule covers never runs unasked: if one of the
    commands of a request is flagged dangerous and matched by no rule, the requirement
    is not to skip approval, unless the approval policy is [Never] and the sandbox is
    disabled or external.  The early return for commands known to be safe is no way
    around it, because no dangerous command is known to be safe; for this the shell
    parser is taken to find no dangerous command in the one-word script [zsh], which the
    safe check reads as [bash]. *)
Theorem dangerous_never_skips p req c bypass a :
  c ∈ segments req → matches p c = [] →
  command_might_be_dangerous try_parse_shell c = true →
  (∀ cmds, parse_shell_script_into_commands try_parse_shell (lit "zsh") = Some cmds →
     any is_dangerous_to_call_with_exec cmds = false) →
  create p req = Some (Skip bypass a) →
  req_approval_policy req = Never ∧
  (req_permission_profile req = ProfileDisabled ∨
   ∃ n, req_permission_profile req = ProfileExternal n).
Proof.
  intros Hc Hn Hdang Hzsh H.
  assert (Hsafe : is_known_safe_command try_parse_shell c = false).
  { destruct (is_known_safe_command try_parse_shell c) eqn:Hs; [|done].
    apply known_safe_not_dangerous in Hs; [by rewrite Hs in Hdang|done]. }
  destruct (create_eval p req) as (e & _ & _ & _ & Hle & r & Hr & Hshape).
  rewrite H in Hr. injection Hr as <-.
  assert (Hd : decision e = Allow).
  { destruct (decision e); [done| |by destruct Hshape].
    cbn zeta in Hshape. case_match; [done|]. by destruct Hshape as (? & ? & ?). }
  assert (Hf : fallback_of req c = Allow).
  { specialize (Hle c (fallback_of req c) Hc (or_intror (conj Hn eq_refl))).
    rewrite Hd in Hle. destruct (fallback_of req c); simpl in Hle; [done|lia|lia]. }
  unfold fallback_of, render_decision_for_unmatched_command in Hf. simpl in Hf.
  rewrite Hdang in Hf.
  destruct (req_approval_policy req); rewrite ?andb_false_r in Hf; try done.
  - by rewrite Hsafe in Hf.
  - split; [done|]. destruct (req_permission_profile req) as [| |n]; [done|by left|right; by exists n].
Qed.
End Requirement.

(** ** Amendments *)

Section Amend.
Context (home_dir : option str) (current_dir : result str str) (to_json : str → str).
Implicit Types (p : Policy) (s : ExecPolicyManager) (c : list str).

Local Abbreviation matches p c := (matches_for_command_with_options home_dir current_dir p c None host_options).
Local Abbreviation update := (append_amendment_and_update home_dir current_dir to_json).

(** A rule that matches a command matches everything the command begins. *)
Lemma rule_matches_extends r c more :
  is_Some (rule_matches r c) → is_Some (rule_matches r (c ++ more)).
Proof.
  unfold rule_matches. rewrite !fmap_is_Some. unfold is_Some. setoid_rewrite matches_prefix_Some.
  intros (mp & toks & rest & -> & -> & HF). exists (first (pattern r) :: toks), toks, (rest ++ more).
  simpl. by rewrite <-app_assoc.
Qed.

Lemma omap_matches_extends rules c more :
  omap (λ r, rule_matches r c) rules ≠ [] → omap (λ r, rule_matches r (c ++ more)) rules ≠ [].
Proof.
  intros H. destruct (omap (λ r, rule_matches r c) rules) as [|m ms] eqn:E; [done|].
  assert (Hm : m ∈ omap (λ r, rule_matches r c) rules) by (rewrite E; by left).
  apply list_elem_of_omap in Hm as (r & Hr & Hm).
  destruct (rule_matches_extends r c more) as [m' Hm']; [by exists m|].
  intros Hn. assert (m' ∈ omap (λ r, rule_matches r (c ++ more)) rules) as Hin
    by (apply list_elem_of_omap; eauto).
  rewrite Hn in Hin. by apply elem_of_nil in Hin.
Qed.

Lemma matches_empty p c :
  matches p c = [] ↔
    exact_matches p c = [] ∧ match_host_executable_rules home_dir current_dir p c = [].
Proof.
  unfold matches_for_command_with_options, exact_matches. simpl.
  destruct (match_exact_rules p c) as [[|m ms]|]; simpl;
    destruct (match_host_executable_rules home_dir current_dir p c); simpl; naive_solver.
Qed.

Lemma matches_extends p c more : c ≠ [] → matches p c ≠ [] → matches p (c ++ more) ≠ [].
Proof.
  rewrite !matches_empty. destruct c as [|x c]; [done|]. intros _ Hne [He Hh]. apply Hne.
  unfold exact_matches in *. simpl in *. split.
  - destruct (rules_by_program p !! x) as [rules|]; [|done].
    destruct (omap (λ r, rule_matches r (x :: c)) rules) eqn:E; [done|].
    exfalso. apply (omap_matches_extends rules (x :: c) more); [by rewrite E|done].
  - repeat case_match; try done. all: apply fmap_nil_inv in Hh;
    match goal with |- _ <$> omap (λ r, rule_matches r ?k) ?l = [] =>
      destruct (omap (λ r, rule_matches r k) l) eqn:E; [done|];
      exfalso; apply (omap_matches_extends l k more); [by rewrite E|done] end.
Qed.

(** Adding a prefix rule leaves the rules of every program in place. *)
Lemma add_prefix_rule_exact x toks d p c :
  exact_matches (add_prefix_rule (x :: toks) d p).1 c
  = exact_matches p c ++ (if bool_decide (head c = Some x)
                          then default [] ((λ m, [m]) <$> rule_matches (prefix_rule_of x toks d) c)
                          else []).
Proof.
  unfold exact_matches. destruct c as [|y c]; simpl; [done|]. unfold multimap_insert.
  case_bool_decide as Hx.
  - simplify_eq. rewrite lookup_insert_eq. simpl.
    rewrite omap_app. simpl. destruct (rules_by_program p !! x); simpl;
      by destruct (rule_matches (prefix_rule_of x toks d) (x :: c)).
  - rewrite lookup_insert_ne by congruence. by rewrite app_nil_r.
Qed.

Lemma update_cases a s s' :
  update a s = (s', Ok ()) →
  ∃ x toks, amendment_command a = x :: toks ∧
    ((already_allowed home_dir current_dir (policy s) (amendment_command a) = true ∧
      policy s' = policy s) ∨
     policy s' = (add_prefix_rule (x :: toks) Allow (policy s)).1).
Proof.
  unfold append_amendment_and_update. intros H.
  apply st_bind_Ok in H as (q & [] & Hf & H). unfold on_file in Hf.
  unfold blocking_append_allow_prefix_rule in Hf.
  destruct (amendment_command a) as [|x toks] eqn:Ha; [done|]. exists x, toks. split; [done|].
  simpl in Hf. destruct (append_rule_line _ _) as [f r] in Hf. simplify_eq/=.
  apply st_bind_Ok in H as (q' & s1 & Hg & H). unfold get in Hg. simplify_eq/=.
  destruct (already_allowed home_dir current_dir (policy s) (x :: toks)) eqn:Hal.
  - left. split; [done|]. unfold mret, st_err_ret in H. by simplify_eq/=.
  - right. unfold on_policy in H. simpl in H. by simplify_eq/=.
Qed.

(** An approved amendment takes effect and lifts no other rule: after a
    successful update, every command that begins with the approved prefix and had
    no rule is allowed by a rule of its own, and every rule that matched a
    command by its program name before still matches it. *)
Theorem amendment_takes_effect a s s' :
  update a s = (s', Ok ()) →
  (∀ more f, let c := amendment_command a ++ more in
     matches (policy s) c = [] →
     ∃ m e, check_with_options home_dir current_dir (policy s') c f host_options = Some e ∧
       matched_rules e = [m] ∧ is_policy_match m = true ∧ decision e = Allow) ∧
  (∀ c m, m ∈ exact_matches (policy s) c → m ∈ exact_matches (policy s') c).
Proof.
  intros H. destruct (update_cases a s s' H) as (x & toks & Ha & Hcases). rewrite Ha in *.
  split.
  - intros more f c Hn. destruct Hcases as [[Hal _] | Hp].
    { exfalso. apply (matches_extends (policy s) (x :: toks) more); [done| |done].
      intros Hn'. unfold already_allowed in Hal.
      destruct (check_multi_spec home_dir current_dir (policy s) [x :: toks] (λ _, Forbidden)
                  host_options) as (e & He & _ & _ & Hle); [done|]. rewrite He in Hal.
      apply andb_true_iff in Hal as [Hd%bool_decide_eq_true _].
      specialize (Hle (x :: toks) Forbidden ltac:(by left) (or_intror (conj Hn' eq_refl))).
      rewrite Hd in Hle. simpl in Hle. lia. }
    apply matches_empty in Hn as [Hex _].
    destruct (proj2 (prefix_rule_of_matches x toks Allow c)) as [m Hm]; [by exists more|].
    assert (Hex' : exact_matches (policy s') c = [m]).
    { rewrite Hp, add_prefix_rule_exact, Hex. unfold c at 1. simpl.
      rewrite bool_decide_true by done. by rewrite Hm. }
    assert (Hmd : rm_decision m = Allow ∧ is_policy_match m = true).
    { unfold rule_matches in Hm. by apply fmap_Some in Hm as (mp & _ & ->). }
    assert (Hms : matches_for_command_with_options home_dir current_dir (policy s') c (Some f)
                    host_options = [m]).
    { unfold exact_matches in Hex'. unfold matches_for_command_with_options.
      destruct (match_exact_rules (policy s') c) as [l|]; simplify_eq/=. done. }
    exists m. unfold check_with_options. rewrite Hms. unfold from_matches. simpl.
    eexists. split; [done|]. simpl. naive_solver.
  - intros c m Hm. destruct Hcases as [[_ ->] | ->]; [done|].
    rewrite add_prefix_rule_exact. apply elem_of_app. by left.
Qed.

Definition demo_manager : ExecPolicyManager :=
  {| policy := policy_empty; rule_file := {| contents := []; io := IoOk |} |}.

(** The rule file never loses a line, and a failed update leaves the policy. *)
Lemma update_failure_keeps_policy a s s' e : update a s = (s', Err e) → policy s' = policy s.
Proof.
  unfold append_amendment_and_update, mbind, st_err_bind, on_file.
  destruct (blocking_append_allow_prefix_rule to_json (amendment_command a) (rule_file s)) as [f [[]|e']];
    simpl; [|by intros [= <- _]].
  destruct (already_allowed home_dir current_dir (policy s) (amendment_command a)); [done|].
  unfold on_policy. simpl.
  destruct (add_prefix_rule (amendment_command a) Allow (policy s)) as [q [[]|?]];
    [done|by intros [= <- _]].
Qed.
End Amend.

Lemma amendment_takes_effect_witness :
  let a := {| amendment_command := [lit "make"] |} in
  ∃ s' m e,
    append_amendment_and_update None (Ok (lit "/w")) id a demo_manager = (s', Ok ()) ∧
    check_with_options None (Ok (lit "/w")) (policy s') [lit "make"; lit "all"]
      (λ _, Prompt) host_options = Some e ∧ matched_rules e = [m] ∧ decision e = Allow.
Proof.
  intros a.
  destruct (append_amendment_and_update None (Ok (lit "/w")) id a demo_manager) as [s' r] eqn:E.
  assert (Hr : r = Ok ()) by (change r with (s', r).2; rewrite <-E; vm_compute; reflexivity).
  subst r.
  destruct (amendment_takes_effect None (Ok (lit "/w")) id a demo_manager s' E) as [H _].
  destruct (H [lit "all"] (λ _, Prompt)) as (m & e & H1 & H2 & _ & H3); [vm_compute; reflexivity|].
  exists s', m, e. split; [reflexivity|]. split; [exact H1|]. split; [exact H2|exact H3].
Defined.

(** A request to run one plain command under [OnRequest] with full access. *)
Definition demo_request (c : list str) (a : AskForApproval) : ExecApprovalRequest :=
  {| command := c; req_approval_policy := a; req_permission_profile := ProfileDisabled;
     req_sandbox_permissions := UseDefault; prefix_rule := None |}.

Lemma approval_skip_sound_witness :
  create_exec_approval_requirement_for_command demo_parse None (Ok (lit "/w")) (λ _, None)
    git_allow (demo_request [lit "git"; lit "status"] OnRequest) = Some (Skip true None) ∧
  ∀ m, m ∈ matches_for_command_with_options None (Ok (lit "/w")) git_allow
             [lit "git"; lit "status"] None host_options → rm_decision m = Allow.
Proof.
  assert (H : create_exec_approval_requirement_for_command demo_parse None (Ok (lit "/w"))
    (λ _, None) git_allow (demo_request [lit "git"; lit "status"] OnRequest)
    = Some (Skip true None)) by (vm_compute; reflexivity).
  split; [exact H|].
  apply (approval_skip_sound demo_parse None (Ok (lit "/w")) (λ _, None) git_allow
           (demo_request [lit "git"; lit "status"] OnRequest) true None H [lit "git"; lit "status"]).
  vm_compute. left.
Defined.

Lemma dangerous_never_skips_witness :
  create_exec_approval_requirement_for_command demo_parse None (Ok (lit "/w")) (λ _, None)
    policy_empty (demo_request [lit "rm"; lit "-rf"; lit "x"] Never)
  = Some (Skip false (Some {| amendment_command := [lit "rm"; lit "-rf"; lit "x"] |})) ∧
  req_approval_policy (demo_request [lit "rm"; lit "-rf"; lit "x"] Never) = Never.
Proof.
  assert (H : create_exec_approval_requirement_for_command demo_parse None (Ok (lit "/w"))
    (λ _, None) policy_empty (demo_request [lit "rm"; lit "-rf"; lit "x"] Never)
    = Some (Skip false (Some {| amendment_command := [lit "rm"; lit "-rf"; lit "x"] |})))
    by (vm_compute; reflexivity).
  split; [exact H|].
  apply (dangerous_never_skips demo_parse None (Ok (lit "/w")) (λ _, None) policy_empty
    (demo_request [lit "rm"; lit "-rf"; lit "x"] Never) [lit "rm"; lit "-rf"; lit "x"] false
    (Some {| amendment_command := [lit "rm"; lit "-rf"; lit "x"] |})).
  - vm_compute. left.
  - vm_compute. reflexivity.
  - vm_compute. reflexivity.
  - intros cmds. vm_compute. discriminate.
  - exact H.
Defined.
