(* ===== verification/StreamText.v ===== *)
(** * Streamed assistant text

    [utils/stream-parser/src]: parsers that take the model's text in chunks and
    split it into visible text and extracted payloads.  The trait
    [StreamTextParser] is a class; [InlineHiddenTagParser] (with its citation
    instance), [TaggedLineParser] (with its proposed-plan instance) and
    [AssistantTextStreamParser] are modelled operation by operation.

    A [String] is the list of its characters.  The byte offsets the code computes
    only ever slice strings at character boundaries, so positions and lengths of
    slices are counted in characters here; where the code compares lengths in
    bytes ([find_next_open]) the comparison is on UTF-8 lengths.

    The theorems show that the result does not depend on how the text was cut
    into chunks: exactly for citations, and up to the merging of adjacent text
    segments for plans ([segs_equiv]), hence for the composition. *)

From S2P Require Import Prelude RustStr.

(** ** The trait *)

Record StreamTextChunk (T : Type) := {
  visible_text : str;
  extracted : list T;
}.
Arguments Build_StreamTextChunk {T} _ _.
Arguments visible_text {T} _.
Arguments extracted {T} _.

Definition empty_chunk {T} : StreamTextChunk T := {| visible_text := []; extracted := [] |}.

Definition chunk_is_empty {T} (c : StreamTextChunk T) : bool :=
  is_empty (visible_text c) && is_empty (extracted c).

Definition chunk_app {T} (c d : StreamTextChunk T) : StreamTextChunk T :=
  {| visible_text := visible_text c ++ visible_text d; extracted := extracted c ++ extracted d |}.

Class StreamTextParser (P T : Type) := {
  push_str : P → str → P * StreamTextChunk T;
  finish : P → P * StreamTextChunk T;
}.

(** What every parser of the crate promises to its caller, up to an equivalence
    on the extracted payloads: text pushed in pieces gives the state and the
    output of the text pushed at once. *)
Class ChunkLaws (P T : Type) `{!StreamTextParser P T}
    (idle : P → Prop) (eqv : relation (list T)) : Prop := {
  laws_equiv :: Equivalence eqv;
  laws_app_proper :: Proper (eqv ==> eqv ==> eqv) (++);
  laws_idle p a : idle p → idle (push_str p a).1;
  laws_nil p : idle p → push_str p [] = (p, empty_chunk);
  laws_push p a b : idle p →
    let r1 := push_str p a in
    let r2 := push_str r1.1 b in
    let r := push_str p (a ++ b) in
    r.1 = r2.1 ∧ visible_text r.2 = visible_text r1.2 ++ visible_text r2.2 ∧
    eqv (extracted r.2) (extracted r1.2 ++ extracted r2.2);
}.

(** A client that pushes chunk after chunk and appends the results. *)
Section Client.
Context {P T : Type} `{!StreamTextParser P T}.

Fixpoint push_all (p : P) (chunks : list str) : P * StreamTextChunk T :=
  match chunks with
  | [] => (p, empty_chunk)
  | c :: chunks =>
      let r := push_str p c in
      let r' := push_all r.1 chunks in
      (r'.1, chunk_app r.2 r'.2)
  end.

(** The whole stream, flushed. *)
Definition stream_all (p : P) (chunks : list str) : StreamTextChunk T :=
  let r := push_all p chunks in
  chunk_app r.2 (finish r.1).2.

Context (idle : P → Prop) (eqv : relation (list T)) `{!ChunkLaws P T idle eqv}.

Lemma push_all_concat p chunks :
  idle p →
  (push_all p chunks).1 = (push_str p (concat chunks)).1 ∧
  visible_text (push_all p chunks).2 = visible_text (push_str p (concat chunks)).2 ∧
  eqv (extracted (push_all p chunks).2) (extracted (push_str p (concat chunks)).2).
Proof.
  revert p. induction chunks as [|c chunks IH]; intros p Hp; simpl.
  - rewrite (laws_nil p Hp). done.
  - destruct (laws_push p c (concat chunks) Hp) as (Hs & Hv & He).
    destruct (IH _ (laws_idle p c Hp)) as (Hs' & Hv' & He').
    rewrite Hs, Hv, Hs', Hv'. do 2 (split; [done|]). by rewrite He, He'.
Qed.

Lemma stream_all_concat p chunks :
  idle p →
  visible_text (stream_all p chunks) = visible_text (stream_all p [concat chunks]) ∧
  eqv (extracted (stream_all p chunks)) (extracted (stream_all p [concat chunks])).
Proof.
  intros Hp. destruct (push_all_concat p chunks Hp) as (Hs & Hv & He).
  unfold stream_all. simpl. rewrite !app_nil_r, Hs, Hv. split; [done|]. by rewrite He.
Qed.
End Client.

(** ** Searching *)

(** [Iterator::min_by]: the first of the least elements. *)
Definition min_by {A} (cmp : A → A → comparison) (l : list A) : option A :=
  match l with
  | [] => None
  | a :: l => Some (fold_left (λ m b, match cmp m b with Gt => b | _ => m end) l a)
  end.

(** The descending loop over [k]: the longest proper prefix of [needle], of
    length at most [k], that ends [s]. *)
Fixpoint suffix_prefix_from (s needle : str) (k : nat) : nat :=
  match k with
  | O => 0
  | S k' => if ends_with (take k needle) s then k else suffix_prefix_from s needle k'
  end.

Definition longest_suffix_prefix_len (s needle : str) : nat :=
  suffix_prefix_from s needle (min (length s) (length needle - 1)).

(** ** [InlineHiddenTagParser] *)

Record ExtractedInlineTag (T : Type) := { ei_tag : T; content : str }.
Arguments Build_ExtractedInlineTag {T} _ _.
Arguments ei_tag {T} _.
Arguments content {T} _.

Record InlineTagSpec (T : Type) := { tag : T; open : str; close : str }.
Arguments Build_InlineTagSpec {T} _ _ _.
Arguments tag {T} _.
Arguments open {T} _.
Arguments close {T} _.

Record ActiveTag (T : Type) := { at_tag : T; at_close : str; at_content : str }.
Arguments Build_ActiveTag {T} _ _ _.
Arguments at_tag {T} _.
Arguments at_close {T} _.
Arguments at_content {T} _.

Record InlineHiddenTagParser (T : Type) := {
  specs : list (InlineTagSpec T);
  pending : str;
  active : option (ActiveTag T);
}.
Arguments Build_InlineHiddenTagParser {T} _ _ _.
Arguments specs {T} _.
Arguments pending {T} _.
Arguments active {T} _.

Section Inline.
Context {T : Type}.
Implicit Types (p : InlineHiddenTagParser T) (sp : list (InlineTagSpec T)).

(** The assertions of [new]; a violation panics. *)
Definition specs_ok (sp : list (InlineTagSpec T)) : bool :=
  negb (is_empty sp)
  && all (λ s, negb (is_empty (open s)) && negb (is_empty (close s))) sp.

Definition inline_new (sp : list (InlineTagSpec T)) : option (InlineHiddenTagParser T) :=
  if specs_ok sp then Some {| specs := sp; pending := []; active := None |} else None.

Definition open_candidate (pending : str) (idx : nat) (s : InlineTagSpec T)
    : option (nat * nat * nat) :=
  (λ pos, (pos, str_len (open s), idx)) <$> find_str (open s) pending.

(** Position, then the longer delimiter, then the earlier specification. *)
Definition open_cmp (a b : nat * nat * nat) : comparison :=
  let '(pos_a, len_a, idx_a) := a in
  let '(pos_b, len_b, idx_b) := b in
  match Nat.compare pos_a pos_b with
  | Eq => match Nat.compare len_b len_a with Eq => Nat.compare idx_a idx_b | o => o end
  | o => o
  end.

Definition find_next_open (sp : list (InlineTagSpec T)) (pending : str) : option (nat * nat) :=
  (λ '(pos, _, idx), (pos, idx)) <$> min_by open_cmp (omap id (imap (open_candidate pending) sp)).

Definition max_open_prefix_suffix_len (sp : list (InlineTagSpec T)) (pending : str) : nat :=
  max_list ((λ s, longest_suffix_prefix_len pending (open s)) <$> sp).

(** One turn of the [loop] of [push_str] with no tag open: either it opens one
    and continues, or it drains and breaks. *)
Definition drain_visible_to_suffix_match (p : InlineHiddenTagParser T)
    (out : StreamTextChunk (ExtractedInlineTag T)) (keep : nat)
    : InlineHiddenTagParser T * StreamTextChunk (ExtractedInlineTag T) :=
  let take_ := length (pending p) - keep in
  if Nat.eqb take_ 0 then (p, out)
  else ({| specs := specs p; pending := drop take_ (pending p); active := active p |},
        {| visible_text := visible_text out ++ take take_ (pending p);
           extracted := extracted out |}).

(** The [loop]; [None] when the fuel runs out ([push_loop_total]). *)
Fixpoint push_loop (fuel : nat) (p : InlineHiddenTagParser T)
    (out : StreamTextChunk (ExtractedInlineTag T))
    : option (InlineHiddenTagParser T * StreamTextChunk (ExtractedInlineTag T)) :=
  match fuel with
  | O => None
  | S fuel =>
      match active p with
      | Some a =>
          match find_str (at_close a) (pending p) with
          | Some close_idx =>
              let e := {| ei_tag := at_tag a;
                          content := at_content a ++ take close_idx (pending p) |} in
              push_loop fuel
                {| specs := specs p;
                   pending := drop (close_idx + length (at_close a)) (pending p);
                   active := None |}
                {| visible_text := visible_text out; extracted := extracted out ++ [e] |}
          | None =>
              let keep := longest_suffix_prefix_len (pending p) (at_close a) in
              let take_ := length (pending p) - keep in
              Some
                (if Nat.ltb 0 take_ then
                   {| specs := specs p; pending := drop take_ (pending p);
                      active := Some {| at_tag := at_tag a; at_close := at_close a;
                                        at_content := at_content a ++ take take_ (pending p) |} |}
                 else p,
                 out)
          end
      | None =>
          match find_next_open (specs p) (pending p) with
          | Some (open_idx, spec_idx) =>
              match specs p !! spec_idx with
              | None => None
              | Some s =>
                  push_loop fuel
                    {| specs := specs p;
                       pending := drop (open_idx + length (open s)) (pending p);
                       active := Some {| at_tag := tag s; at_close := close s; at_content := [] |} |}
                    {| visible_text := visible_text out ++ take open_idx (pending p);
                       extracted := extracted out |}
              end
          | None =>
              let keep := max_open_prefix_suffix_len (specs p) (pending p) in
              Some (drain_visible_to_suffix_match p out keep)
          end
      end
  end.

Definition inline_push_str (p : InlineHiddenTagParser T) (chunk : str)
    : InlineHiddenTagParser T * StreamTextChunk (ExtractedInlineTag T) :=
  let p := {| specs := specs p; pending := pending p ++ chunk; active := active p |} in
  default (p, empty_chunk) (push_loop (S (length (pending p))) p empty_chunk).

Definition inline_finish (p : InlineHiddenTagParser T)
    : InlineHiddenTagParser T * StreamTextChunk (ExtractedInlineTag T) :=
  match active p with
  | Some a =>
      let content := at_content a ++ pending p in
      ({| specs := specs p; pending := []; active := None |},
       {| visible_text := []; extracted := [{| ei_tag := at_tag a; content := content |}] |})
  | None =>
      ({| specs := specs p; pending := []; active := None |},
       {| visible_text := pending p; extracted := [] |})
  end.
End Inline.

#[export] Instance inline_parser {T} :
  StreamTextParser (InlineHiddenTagParser T) (ExtractedInlineTag T) := {
  push_str := inline_push_str;
  finish := inline_finish;
}.

(** ** [CitationStreamParser] *)

Inductive CitationTag := Citation.

Definition CITATION_OPEN : str := lit "<oai-mem-citation>".
Definition CITATION_CLOSE : str := lit "</oai-mem-citation>".

Definition citation_specs : list (InlineTagSpec CitationTag) :=
  [{| tag := Citation; open := CITATION_OPEN; close := CITATION_CLOSE |}].

Record CitationStreamParser := { cite_inner : InlineHiddenTagParser CitationTag }.

(** [CitationStreamParser::new]; [inline_new] succeeds on its specification. *)
Definition citation_new : CitationStreamParser :=
  {| cite_inner := default {| specs := citation_specs; pending := []; active := None |}
                     (inline_new citation_specs) |}.

Definition cite_chunk (c : StreamTextChunk (ExtractedInlineTag CitationTag))
    : StreamTextChunk str :=
  {| visible_text := visible_text c; extracted := content <$> extracted c |}.

#[export] Instance citation_parser : StreamTextParser CitationStreamParser str := {
  push_str p chunk :=
    let '(inner, c) := push_str (cite_inner p) chunk in
    ({| cite_inner := inner |}, cite_chunk c);
  finish p :=
    let '(inner, c) := finish (cite_inner p) in
    ({| cite_inner := inner |}, cite_chunk c);
}.

Definition strip_citations (text : str) : str * list str :=
  let '(p, out) := push_str citation_new text in
  let '(_, tail) := finish p in
  (visible_text out ++ visible_text tail, extracted out ++ extracted tail).

Example strip_citations_ex :
  strip_citations (lit "hello <oai-mem-citation>doc A</oai-mem-citation> world")
  = (lit "hello  world", [lit "doc A"]).
Proof. vm_compute. reflexivity. Qed.

(** ** Occurrences *)

(** [n] occurs in [s] at position [i]. *)
Definition occurs (n s : str) (i : nat) : Prop := ∃ r, drop i s = n ++ r.

(** The last [k] characters of [s] are a non-empty proper prefix of [n]. *)
Definition dangling (n s : str) (k : nat) : Prop :=
  0 < k < length n ∧ k ≤ length s ∧ drop (length s - k) s = take k n.

Section Occurrences.
Implicit Types n s t b : str.

Lemma occurs_0 n s : occurs n s 0 ↔ starts_with n s = true.
Proof. unfold occurs. rewrite starts_with_true. done. Qed.

Lemma occurs_cons n c s i : occurs n (c :: s) (S i) ↔ occurs n s i.
Proof. done. Qed.

Lemma occurs_bound n s i : n ≠ [] → occurs n s i → i + length n ≤ length s.
Proof.
  intros Hn [r Hr]. apply (f_equal length) in Hr. rewrite length_drop, length_app in Hr.
  destruct n; [done|]. simpl in *. lia.
Qed.

Lemma occurs_shift n t s i : occurs n (t ++ s) (length t + i) ↔ occurs n s i.
Proof. unfold occurs. by rewrite drop_app_add. Qed.

Lemma occurs_app_l n s b i : n ≠ [] → occurs n s i → occurs n (s ++ b) i.
Proof.
  intros Hn Ho. pose proof (occurs_bound _ _ _ Hn Ho). destruct Ho as [r Hr].
  exists (r ++ b). rewrite drop_app_le by lia. by rewrite Hr, app_assoc.
Qed.

Lemma occurs_fits n s b i : i + length n ≤ length s → occurs n (s ++ b) i → occurs n s i.
Proof.
  intros Hle [r Hr]. rewrite drop_app_le in Hr by lia.
  exists (drop (length n) (drop i s)).
  assert (Hn : take (length n) (drop i s ++ b) = n) by (by rewrite Hr, take_app_length).
  rewrite take_app_le in Hn by (rewrite length_drop; lia).
  transitivity (take (length n) (drop i s) ++ drop (length n) (drop i s));
    [by rewrite take_drop|by rewrite Hn].
Qed.

(** An occurrence that starts in [s] and runs over its end leaves a dangling
    prefix of the needle there. *)
Lemma occurs_spans n s b i :
  i < length s → length s < i + length n → occurs n (s ++ b) i → dangling n s (length s - i).
Proof.
  intros Hi Hn [r Hr]. rewrite drop_app_le in Hr by lia.
  split; [lia|]. split; [lia|]. replace (length s - (length s - i)) with i by lia.
  assert (length (drop i s) = length s - i) as Hl by apply length_drop.
  rewrite <-(take_app_length (drop i s) b), Hr, Hl. by rewrite take_app_le by lia.
Qed.

Lemma find_str_Some n s i :
  find_str n s = Some i ↔ occurs n s i ∧ i ≤ length s ∧ ∀ j, j < i → ¬ occurs n s j.
Proof.
  revert i. induction s as [|c s IH]; intros i; simpl.
  - destruct (starts_with n []) eqn:Hs.
    + split; [intros [= <-]; split; [by apply occurs_0|split; [done|lia]]|].
      intros (_ & ? & _). by replace i with 0 by lia.
    + split; [done|]. intros ([r Hr] & ? & _). rewrite drop_nil in Hr.
      symmetry in Hr. apply app_eq_nil in Hr as [-> ->]. done.
  - destruct (starts_with n (c :: s)) eqn:Hs.
    + split; [intros [= <-]; split; [by apply occurs_0|split; [lia|lia]]|].
      intros (_ & _ & H). destruct i as [|i]; [done|]. destruct (H 0); [lia|by apply occurs_0].
    + rewrite fmap_Some. setoid_rewrite IH. split.
      * intros (j & (Ho & Hle & Hmin) & ->). split; [done|]. split; [lia|].
        intros [|k] Hk; [rewrite occurs_0; congruence|]. apply Hmin. lia.
      * intros (Ho & Hle & Hmin). destruct i as [|i]; [apply occurs_0 in Ho; congruence|].
        exists i. split; [|done]. split; [done|]. split; [lia|].
        intros j Hj. apply (Hmin (S j)). lia.
Qed.

Lemma find_str_None n s : n ≠ [] → find_str n s = None ↔ ∀ i, ¬ occurs n s i.
Proof.
  intros Hn. split.
  - intros Hf. induction s as [|c s IH]; intros i Ho; simpl in Hf.
    + apply occurs_bound in Ho; [|done]. destruct n; [done|]. simpl in *. lia.
    + case_match eqn:Hs; [done|]. apply fmap_None in Hf.
      destruct i as [|i]; [apply occurs_0 in Ho; congruence|]. by eapply IH.
  - intros H. destruct (find_str n s) as [i|] eqn:Hf; [|done].
    apply find_str_Some in Hf as [Ho _]. by destruct (H i).
Qed.

Lemma dangling_ends_with n s k :
  0 < k < length n → k ≤ length s → ends_with (take k n) s = true ↔ dangling n s k.
Proof.
  intros Hk Hl. rewrite ends_with_true. unfold dangling. split.
  - intros [r ->]. rewrite length_app, length_take in *. split; [done|]. split; [done|].
    rewrite drop_app_length'; [done|lia].
  - intros (_ & _ & Hd). exists (take (length s - k) s). by rewrite <-Hd, take_drop.
Qed.

Lemma suffix_prefix_from_spec s n k :
  k < length n → k ≤ length s →
  let m := suffix_prefix_from s n k in
  m ≤ k ∧ (m = 0 ∨ dangling n s m) ∧ ∀ j, j ≤ k → dangling n s j → j ≤ m.
Proof.
  induction k as [|k IH]; intros Hn Hs m.
  { split; [done|]. split; [by left|]. intros j Hj [[??] _]. lia. }
  unfold m. cbn [suffix_prefix_from]. destruct (ends_with (take (S k) n) s) eqn:He.
  - apply dangling_ends_with in He; [|lia|done]. split; [done|]. split; [by right|]. lia.
  - destruct IH as (H1 & H2 & H3); [lia|lia|]. split; [lia|]. split; [done|].
    intros j Hj Hd. destruct (decide (j = S k)) as [->|?]; [|apply H3; [lia|done]].
    apply dangling_ends_with in Hd; [congruence|lia|lia].
Qed.

Lemma longest_suffix_prefix_len_spec s n :
  n ≠ [] →
  let m := longest_suffix_prefix_len s n in
  (m = 0 ∨ dangling n s m) ∧ ∀ j, dangling n s j → j ≤ m.
Proof.
  intros Hn m. assert (0 < length n) by (destruct n; [done|simpl; lia]).
  destruct (suffix_prefix_from_spec s n (min (length s) (length n - 1))) as (H1 & H2 & H3); [lia|lia|].
  split; [exact H2|]. intros j Hd. apply H3; [|done]. destruct Hd as (? & ? & _). lia.
Qed.

Lemma dangling_nil n k : ¬ dangling n [] k.
Proof. intros (? & ? & _). simpl in *. lia. Qed.

(** A dangling end of [s ++ b] that starts in [s] leaves one in [s]. *)
Lemma dangling_spans n s b k :
  length b < k → dangling n (s ++ b) k → dangling n s (k - length b).
Proof.
  intros Hb (Hk & Hl & Hd). rewrite length_app in *. split; [lia|]. split; [lia|].
  assert (Hdr : drop (length s + length b - k) s ++ b = take k n).
  { rewrite <-Hd, drop_app_le by lia. done. }
  replace (length s - (k - length b)) with (length s + length b - k) by lia.
  set (d := drop (length s + length b - k) s) in *.
  assert (length d = k - length b) as Hdl by (unfold d; rewrite length_drop; lia).
  rewrite <-(take_app_length d b), Hdr, Hdl, take_take. f_equal. lia.
Qed.

Lemma dangling_shift n t s k : k ≤ length s → dangling n (t ++ s) k ↔ dangling n s k.
Proof.
  intros Hk. unfold dangling. rewrite length_app.
  replace (length t + length s - k) with (length t + (length s - k)) by lia.
  rewrite drop_app_add. intuition lia.
Qed.
End Occurrences.

(** ** The earliest of several needles *)

(** No delimiter occurs inside another one. *)
Definition antichain (ns : list str) : Prop :=
  ∀ n m a c, n ∈ ns → m ∈ ns → m = a ++ n ++ c → m = n.

(** The occurrence the parser acts on: earliest, then longest, then first. *)
Definition first_in (ns : list str) (s : str) (pos idx : nat) : Prop :=
  ∃ n, ns !! idx = Some n ∧ occurs n s pos ∧
    ∀ j m i, ns !! j = Some m → occurs m s i →
      open_cmp (pos, str_len n, idx) (i, str_len m, j) ≠ Gt.

(** The longest dangling prefix of any needle. *)
Definition keeps (ns : list str) (s : str) (k : nat) : Prop :=
  (k = 0 ∨ ∃ n, n ∈ ns ∧ dangling n s k) ∧ ∀ n j, n ∈ ns → dangling n s j → j ≤ k.

Definition no_occurrence (ns : list str) (s : str) : Prop :=
  ∀ n i, n ∈ ns → ¬ occurs n s i.

Lemma open_cmp_le a b :
  open_cmp a b ≠ Gt ↔
    a.1.1 < b.1.1 ∨ (a.1.1 = b.1.1 ∧ (b.1.2 < a.1.2 ∨ (a.1.2 = b.1.2 ∧ a.2 ≤ b.2))).
Proof.
  destruct a as [[pa la] ia], b as [[pb lb] ib]; simpl.
  destruct (Nat.compare_spec pa pb), (Nat.compare_spec lb la), (Nat.compare_spec ia ib);
    simpl; split; intros; try done; try lia.
Qed.

Section MinBy.
Context {A : Type} (cmp : A → A → comparison).
Context (cmp_trans : ∀ a b c, cmp a b ≠ Gt → cmp b c ≠ Gt → cmp a c ≠ Gt).
Context (cmp_total : ∀ a b, cmp a b = Gt → cmp b a ≠ Gt).
Context (cmp_refl : ∀ a, cmp a a ≠ Gt).

Lemma min_by_least (l : list A) a :
  min_by cmp l = Some a → a ∈ l ∧ ∀ b, b ∈ l → cmp a b ≠ Gt.
Proof.
  destruct l as [|x l]; simpl; [done|]. intros [= <-]. revert x.
  induction l as [|y l IH]; intros x; simpl.
  { split; [set_solver|]. by intros b ->%list_elem_of_singleton. }
  destruct (IH (match cmp x y with Gt => y | _ => x end)) as [Hin Hle]. split.
  - destruct (cmp x y); set_solver.
  - pose proof (Hle _ (list_elem_of_here _ _)) as Hh. intros b Hb.
    assert (Hx : cmp (match cmp x y with Gt => y | _ => x end) x ≠ Gt
                 ∧ cmp (match cmp x y with Gt => y | _ => x end) y ≠ Gt).
    { destruct (cmp x y) eqn:E; split; auto; congruence. }
    apply elem_of_cons in Hb as [->|[->|Hb]%elem_of_cons];
      [eapply cmp_trans; [exact Hh|apply Hx]..|]. apply Hle. by right.
Qed.
End MinBy.

Section Needles.
Implicit Types (ns : list str) (s t b : str).

Lemma first_in_unique ns s pos idx pos' idx' :
  first_in ns s pos idx → first_in ns s pos' idx' → pos = pos' ∧ idx = idx'.
Proof.
  intros (n & Hn & Ho & H) (n' & Hn' & Ho' & H').
  pose proof (H _ _ _ Hn' Ho') as H1%open_cmp_le.
  pose proof (H' _ _ _ Hn Ho) as H2%open_cmp_le. simpl in *. lia.
Qed.

Lemma keeps_unique ns s k k' : keeps ns s k → keeps ns s k' → k = k'.
Proof.
  intros [[->|(n & Hn & Hd)] H] [[->|(n' & Hn' & Hd')] H']; try done.
  - specialize (H _ _ Hn' Hd'). lia.
  - specialize (H' _ _ Hn Hd). lia.
  - specialize (H _ _ Hn' Hd'). specialize (H' _ _ Hn Hd). lia.
Qed.

(** (A) More input does not change an occurrence that was found. *)
Lemma first_in_app ns s b pos idx :
  antichain ns → [] ∉ ns → first_in ns s pos idx → first_in ns (s ++ b) pos idx.
Proof.
  intros Hanti Hne (n & Hn & Ho & Hmin).
  assert (Hn0 : n ≠ []) by (intros ->; by apply Hne, (list_elem_of_lookup_2 _ _ _ Hn)).
  exists n. split; [done|]. split; [by apply occurs_app_l|].
  intros j m i Hm Hom. destruct (decide (i + length m ≤ length s)) as [Hfit|Hlong].
  { eapply Hmin; [done|]. by eapply occurs_fits. }
  destruct (decide (pos < i)) as [?|Hle]; [apply open_cmp_le; simpl; lia|].
  pose proof (occurs_bound _ _ _ Hn0 Ho) as Hb.
  destruct (occurs_app_l _ _ b _ Hn0 Ho) as [r Hr], Hom as [r' Hr'].
  replace pos with (i + (pos - i)) in Hr by lia. rewrite <-drop_drop, Hr' in Hr.
  rewrite drop_app_le in Hr by lia.
  assert (m = n) as ->; [|lia].
  apply (Hanti n m (take (pos - i) m) (drop (length n) (drop (pos - i) m)));
    [by eapply list_elem_of_lookup_2..|].
  apply (f_equal (take (length n))) in Hr. rewrite take_app_length in Hr.
  rewrite take_app_le in Hr by (rewrite length_drop; lia).
  rewrite <-Hr at 1. rewrite take_drop. by rewrite take_drop.
Qed.

(** (B) Nothing that starts before the dangling end can still match. *)
Section Keep.
Context (ns : list str) (t q b : str).
Context (Hnone : no_occurrence ns (t ++ q)).
Context (Hkeep : ∀ n j, n ∈ ns → dangling n (t ++ q) j → j ≤ length q).
Context (Hne : [] ∉ ns).

Lemma occurs_late n i : n ∈ ns → occurs n (t ++ q ++ b) i → length t ≤ i.
Proof.
  intros Hn Ho. destruct (decide (length t ≤ i)) as [?|Hlt]; [done|].
  rewrite app_assoc in Ho. assert (n ≠ []) by set_solver.
  destruct (decide (i + length n ≤ length (t ++ q))) as [Hfit|Hlong].
  { by destruct (Hnone n i Hn); eapply occurs_fits. }
  pose proof Hlt. rewrite length_app in Hlong.
  apply occurs_spans in Ho; [|rewrite length_app; lia|rewrite length_app; lia].
  apply Hkeep in Ho; [|done]. rewrite length_app in Ho. lia.
Qed.

Lemma first_in_late pos idx :
  first_in ns (t ++ q ++ b) pos idx ↔
    ∃ pos', pos = length t + pos' ∧ first_in ns (q ++ b) pos' idx.
Proof.
  split.
  - intros (n & Hn & Ho & Hmin).
    pose proof (occurs_late n pos (list_elem_of_lookup_2 _ _ _ Hn) Ho) as Hle.
    exists (pos - length t). split; [lia|]. exists n. split; [done|].
    replace pos with (length t + (pos - length t)) in Ho by lia. rewrite occurs_shift in Ho.
    split; [done|]. intros j m i Hm Hom%(occurs_shift m t).
    specialize (Hmin j m _ Hm Hom). apply open_cmp_le in Hmin. apply open_cmp_le. simpl in *. lia.
  - intros (pos' & -> & n & Hn & Ho & Hmin). exists n. split; [done|].
    split; [by apply occurs_shift|]. intros j m i Hm Hom.
    pose proof (occurs_late m i (list_elem_of_lookup_2 _ _ _ Hm) Hom) as Hle.
    replace i with (length t + (i - length t)) in Hom by lia. rewrite occurs_shift in Hom.
    specialize (Hmin j m _ Hm Hom). apply open_cmp_le in Hmin. apply open_cmp_le. simpl in *. lia.
Qed.

Lemma no_occurrence_late : no_occurrence ns (t ++ q ++ b) ↔ no_occurrence ns (q ++ b).
Proof.
  split; intros H n i Hn Ho.
  - apply (H n (length t + i) Hn). by apply occurs_shift.
  - pose proof (occurs_late n i Hn Ho) as Hle. apply (H n (i - length t) Hn).
    apply (occurs_shift n t). by replace (length t + (i - length t)) with i by lia.
Qed.

Lemma dangling_late n k : n ∈ ns → dangling n (t ++ q ++ b) k → k ≤ length (q ++ b).
Proof.
  intros Hn Hd. destruct (decide (k ≤ length (q ++ b))) as [?|Hlong]; [done|].
  rewrite app_assoc in Hd. rewrite length_app in Hlong.
  apply dangling_spans in Hd; [|lia]. apply Hkeep in Hd; [lia|done].
Qed.

Lemma keeps_late k : keeps ns (q ++ b) k → keeps ns (t ++ q ++ b) k.
Proof.
  intros [Hk Hmax]. split.
  - destruct Hk as [->|(n & Hn & Hd)]; [by left|right]. exists n. split; [done|].
    apply dangling_shift; [|done]. by destruct Hd as (_ & ? & _).
  - intros n j Hn Hd. apply (Hmax n j Hn). apply (dangling_shift n t); [|done].
    by eapply dangling_late.
Qed.
End Keep.

Lemma find_str_first n s i : n ≠ [] → find_str n s = Some i ↔ first_in [n] s i 0.
Proof.
  intros Hn. rewrite find_str_Some. split.
  - intros (Ho & _ & Hmin). exists n. split; [done|]. split; [done|].
    intros j m k Hm Hk. apply open_cmp_le. destruct j as [|j]; simplify_eq/=.
    destruct (decide (k < i)) as [Hlt|]; [by destruct (Hmin k)|lia].
  - intros (m & [= <-] & Ho & Hmin). pose proof (occurs_bound _ _ _ Hn Ho).
    split; [done|]. split; [lia|]. intros j Hj Hoj.
    specialize (Hmin 0 n j eq_refl Hoj). apply open_cmp_le in Hmin. simpl in *. lia.
Qed.

Lemma longest_keeps n s : n ≠ [] → keeps [n] s (longest_suffix_prefix_len s n).
Proof.
  intros Hn. destruct (longest_suffix_prefix_len_spec s n Hn) as [H1 H2]. split.
  - destruct H1 as [->|?]; [by left|right]. exists n. set_solver.
  - intros m j ->%list_elem_of_singleton. apply H2.
Qed.

Lemma keeps_cons n ns s a k : keeps [n] s a → keeps ns s k → keeps (n :: ns) s (max a k).
Proof.
  intros [Ha Ha'] [Hk Hk']. split.
  - destruct (Nat.max_spec a k) as [[_ ->]|[_ ->]];
      [destruct Hk as [->|(m & ? & ?)]|destruct Ha as [->|(m & ? & ?)]];
      [by left|right; exists m; set_solver..|by left|right; exists m; set_solver].
  - intros m j [->|Hm]%elem_of_cons Hd;
      [specialize (Ha' n j ltac:(set_solver) Hd)|specialize (Hk' m j Hm Hd)]; lia.
Qed.

Lemma antichain_single n : antichain [n].
Proof. by intros a b x y ->%list_elem_of_singleton ->%list_elem_of_singleton. Qed.

Lemma no_occurrence_single n s : n ≠ [] → no_occurrence [n] s ↔ find_str n s = None.
Proof.
  intros Hn. rewrite find_str_None by done. split.
  - intros H i. apply H. by left.
  - intros H m i ->%list_elem_of_singleton. apply H.
Qed.
End Needles.

Section FindOpen.
Context {T : Type}.
Implicit Types sp : list (InlineTagSpec T).

Definition openers (sp : list (InlineTagSpec T)) : list str := open <$> sp.

Lemma opener_nonempty sp j x : [] ∉ openers sp → sp !! j = Some x → open x ≠ [].
Proof.
  intros Hne Hx E. apply Hne. rewrite <-E. apply list_elem_of_fmap.
  eauto using list_elem_of_lookup_2.
Qed.

Lemma open_candidates sp s c :
  c ∈ omap id (imap (open_candidate s) sp) ↔
    ∃ j x pos, sp !! j = Some x ∧ find_str (open x) s = Some pos ∧
               c = (pos, str_len (open x), j).
Proof.
  rewrite list_elem_of_omap. setoid_rewrite elem_of_lookup_imap. unfold open_candidate.
  split.
  - intros (o & (j & x & -> & Hx) & Hc). unfold id in Hc. apply fmap_Some in Hc.
    destruct Hc as (pos & Hf & ->). eauto 10.
  - intros (j & x & pos & Hx & Hf & ->). eexists. split; [eauto|]. by rewrite Hf.
Qed.

Lemma find_next_open_Some sp s pos idx :
  [] ∉ openers sp → find_next_open sp s = Some (pos, idx) → first_in (openers sp) s pos idx.
Proof.
  intros Hne H. unfold find_next_open in H.
  apply fmap_Some in H as ([[pos' l] idx'] & Hm & [= <- <-]).
  apply min_by_least in Hm as [Hin Hle].
  - apply open_candidates in Hin as (j & x & p & Hx & Hf & [= -> -> ->]).
    apply find_str_Some in Hf as (Ho & _ & Hmin). exists (open x).
    split; [unfold openers; by rewrite list_lookup_fmap, Hx|]. split; [done|].
    intros k m i Hm Hi. apply list_lookup_fmap_Some in Hm as (y & -> & Hy).
    destruct (find_str (open y) s) as [i'|] eqn:Hfy.
    + specialize (Hle (i', str_len (open y), k)). rewrite open_candidates in Hle.
      specialize (Hle ltac:(eauto 10)). apply find_str_Some in Hfy as (_ & _ & Hmin').
      destruct (decide (i < i')) as [Hlt|]; [by destruct (Hmin' i)|].
      apply open_cmp_le in Hle. apply open_cmp_le. simpl in *. lia.
    + rewrite find_str_None in Hfy by eauto using opener_nonempty. by destruct (Hfy i).
  - intros a b c. rewrite !open_cmp_le. lia.
  - intros a b Hgt. apply open_cmp_le.
    assert (~ open_cmp a b ≠ Gt) as Hn by auto. rewrite open_cmp_le in Hn. lia.
  - intros a. apply open_cmp_le. lia.
Qed.

Lemma find_next_open_None sp s :
  [] ∉ openers sp → find_next_open sp s = None ↔ no_occurrence (openers sp) s.
Proof.
  intros Hne. unfold find_next_open. rewrite fmap_None. split.
  - intros Hm n i (x & -> & Hx)%list_elem_of_fmap Ho.
    apply list_elem_of_lookup in Hx as [j Hx].
    destruct (omap id (imap (open_candidate s) sp)) as [|c l] eqn:Hc; [|done].
    destruct (find_str (open x) s) as [pos|] eqn:Hf.
    + assert (Hin : (pos, str_len (open x), j) ∈ omap id (imap (open_candidate s) sp))
        by (apply open_candidates; eauto 10).
      rewrite Hc in Hin. by apply elem_of_nil in Hin.
    + rewrite find_str_None in Hf by eauto using opener_nonempty. by destruct (Hf i).
  - intros H. destruct (omap id (imap (open_candidate s) sp)) as [|c l] eqn:Hc; [done|].
    assert (Hin : c ∈ omap id (imap (open_candidate s) sp)) by (rewrite Hc; left).
    apply open_candidates in Hin as (j & x & pos & Hx & Hf & ->).
    apply find_str_Some in Hf as [Ho _]. destruct (H (open x) pos); [|done].
    apply list_elem_of_fmap. eauto using list_elem_of_lookup_2.
Qed.

Lemma find_next_open_first sp s pos idx :
  [] ∉ openers sp → first_in (openers sp) s pos idx → find_next_open sp s = Some (pos, idx).
Proof.
  intros Hne Hf. destruct (find_next_open sp s) as [[pos' idx']|] eqn:H.
  - apply find_next_open_Some in H; [|done].
    destruct (first_in_unique _ _ _ _ _ _ Hf H) as [-> ->]. done.
  - apply find_next_open_None in H; [|done]. destruct Hf as (n & Hn & Ho & _).
    destruct (H n pos); [by eapply list_elem_of_lookup_2|done].
Qed.

Lemma max_open_keeps sp s :
  [] ∉ openers sp → keeps (openers sp) s (max_open_prefix_suffix_len sp s).
Proof.
  induction sp as [|x sp IH]; intros Hne.
  { split; [by left|]. intros n j Hn. by apply elem_of_nil in Hn. }
  unfold openers in *. rewrite fmap_cons in Hne.
  apply (keeps_cons (open x)); [apply longest_keeps; set_solver|apply IH; set_solver].
Qed.
End FindOpen.

(** ** Chunk invariance of the inline parser *)

Section InlineLoop.
Context {T : Type}.
Implicit Types (p : InlineHiddenTagParser T) (out : StreamTextChunk (ExtractedInlineTag T)).

Definition with_more (p : InlineHiddenTagParser T) (b : str) : InlineHiddenTagParser T :=
  {| specs := specs p; pending := pending p ++ b; active := active p |}.

(** The specifications passed the assertions of [new], no opener hides inside
    another one, and the open tag has a closing delimiter. *)
Record inline_wf (p : InlineHiddenTagParser T) : Prop := {
  wf_openers : [] ∉ openers (specs p);
  wf_closers s : s ∈ specs p → close s ≠ [];
  wf_antichain : antichain (openers (specs p));
  wf_active a : active p = Some a → at_close a ≠ [];
}.

Lemma specs_ok_wf sp :
  specs_ok sp = true → antichain (openers sp) →
  inline_wf {| specs := sp; pending := []; active := None |}.
Proof.
  intros [_ Hall]%andb_true_iff Ha. rewrite all_true in Hall. split; simpl; try done.
  - intros (s & Hs & Hin)%list_elem_of_fmap. apply Hall, andb_true_iff in Hin as [Ho _].
    by rewrite <-Hs in Ho.
  - intros s Hin E. apply Hall, andb_true_iff in Hin as [_ Hc]. by rewrite E in Hc.
Qed.

Lemma wf_with_more p b : inline_wf p → inline_wf (with_more p b).
Proof. intros []. by split. Qed.

(** The states one turn of the loop leads to keep the invariant. *)
Lemma wf_closed p q : inline_wf p →
  inline_wf {| specs := specs p; pending := q; active := None |}.
Proof. intros []. by split. Qed.

Lemma wf_opened p q s c : inline_wf p → s ∈ specs p →
  inline_wf {| specs := specs p; pending := q;
               active := Some {| at_tag := tag s; at_close := close s; at_content := c |} |}.
Proof. intros [] Hs. split; simpl; try done. intros a [= <-]. simpl. auto. Qed.

Lemma find_next_open_spec p pos idx :
  inline_wf p → find_next_open (specs p) (pending p) = Some (pos, idx) →
  ∃ s, specs p !! idx = Some s ∧ s ∈ specs p ∧ open s ≠ [] ∧
       pos + length (open s) ≤ length (pending p).
Proof.
  intros [Hne _ _ _] Hf. pose proof (find_next_open_Some _ _ _ _ Hne Hf) as (n & Hn & Ho & _).
  apply list_lookup_fmap_Some in Hn as (s & -> & Hs). exists s. split; [done|].
  split; [by eapply list_elem_of_lookup_2|].
  assert (open s ≠ []) by by eapply opener_nonempty. split; [done|]. by apply occurs_bound.
Qed.

(** Every [continue] consumes a delimiter, so the loop stops within one turn per
    pending character. *)
Lemma push_loop_total fuel p out :
  inline_wf p → length (pending p) < fuel → is_Some (push_loop fuel p out).
Proof.
  revert p out. induction fuel as [|fuel IH]; intros p out Hwf Hlt; [lia|]. simpl.
  destruct (active p) as [a|] eqn:Ha.
  - pose proof (wf_active _ Hwf a Ha) as Hc.
    destruct (find_str (at_close a) (pending p)) as [i|] eqn:Hf; [|done].
    apply find_str_Some in Hf as (Ho & _). apply occurs_bound in Ho; [|done].
    apply IH; [by apply wf_closed|]. simpl. rewrite length_drop.
    destruct (at_close a); [done|]. simpl in *. lia.
  - destruct (find_next_open (specs p) (pending p)) as [[i idx]|] eqn:Hf; [|done].
    destruct (find_next_open_spec p i idx Hwf Hf) as (s & -> & Hin & Hne & Hle).
    apply IH; [by apply wf_opened|]. simpl. rewrite length_drop.
    destruct (open s); [done|]. simpl in *. lia.
Qed.

Lemma push_loop_mono f f' p out r :
  push_loop f p out = Some r → f ≤ f' → push_loop f' p out = Some r.
Proof.
  revert f' p out. induction f as [|f IH]; intros f' p out H Hle; [done|].
  destruct f' as [|f']; [lia|]. simpl in *. repeat (case_match; simplify_eq; try done);
    apply IH; try done; lia.
Qed.

(** The loop only appends to its output. *)
Lemma push_loop_frame f p o out :
  push_loop f p (chunk_app o out)
  = (λ '(p', out'), (p', chunk_app o out')) <$> push_loop f p out.
Proof.
  revert p out. induction f as [|f IH]; intros p out; simpl; [done|].
  destruct (active p) as [a|].
  - destruct (find_str _ _) as [i|]; [|done]. rewrite <-IH. unfold chunk_app; simpl.
    by rewrite app_assoc.
  - destruct (find_next_open _ _) as [[i idx]|].
    + destruct (specs p !! idx) as [s|]; [|done]. rewrite <-IH. unfold chunk_app; simpl.
      by rewrite app_assoc.
    + simpl. unfold drain_visible_to_suffix_match. destruct (Nat.eqb _ _); [done|].
      unfold chunk_app; simpl. by rewrite app_assoc.
Qed.

(** The text drained when nothing matches, and what is left. *)
Lemma drained_split (s : str) k :
  k ≤ length s → s = take (length s - k) s ++ drop (length s - k) s
                 ∧ length (drop (length s - k) s) = k.
Proof. intros. split; [by rewrite take_drop|]. rewrite length_drop. lia. Qed.

Lemma keeps_length ns s k : keeps ns s k → k ≤ length s.
Proof. intros [[->|(n & _ & _ & ? & _)] _]; lia. Qed.

(** With a tag open and no closing delimiter in sight, draining first and then
    getting more text is getting the text at once. *)
Lemma drain_active_app f p out a b :
  inline_wf p → active p = Some a → find_str (at_close a) (pending p) = None →
  let k := longest_suffix_prefix_len (pending p) (at_close a) in
  let n := length (pending p) - k in
  push_loop (S f) (with_more p b) out
  = push_loop (S f) {| specs := specs p; pending := drop n (pending p) ++ b;
                       active := Some {| at_tag := at_tag a; at_close := at_close a;
                                         at_content := at_content a ++ take n (pending p) |} |} out.
Proof.
  intros Hwf Ha Hf k n. pose proof (wf_active _ Hwf a Ha) as Hc.
  pose proof (longest_keeps (at_close a) (pending p) Hc) as Hk. fold k in Hk.
  destruct (drained_split (pending p) k (keeps_length _ _ _ Hk)) as [Hs Hq].
  fold n in Hs, Hq. set (t := take n (pending p)) in *. set (q := drop n (pending p)) in *.
  apply no_occurrence_single in Hf; [|done].
  rewrite Hs in Hf, Hk. destruct Hk as [_ Hk]. rewrite <-Hq in Hk.
  assert (Hne : [] ∉ [at_close a]) by set_solver.
  simpl. rewrite Ha. simpl. rewrite Hs, <-app_assoc.
  destruct (find_str (at_close a) (q ++ b)) as [i|] eqn:Hfi.
  - apply find_str_first in Hfi; [|done].
    assert (Hfi' : find_str (at_close a) (t ++ q ++ b) = Some (length t + i)).
    { apply find_str_first; [done|]. apply first_in_late; eauto. }
    by rewrite Hfi', <-Nat.add_assoc, drop_app_add, take_app_add, app_assoc.
  - apply no_occurrence_single in Hfi; [|done].
    rewrite <-(no_occurrence_late [at_close a] t q b) in Hfi by done.
    apply no_occurrence_single in Hfi as ->; [|done].
    pose proof (longest_keeps (at_close a) (q ++ b) Hc) as Hk2.
    pose proof (keeps_late _ t q b Hk _ Hk2) as Hk3.
    rewrite (keeps_unique _ _ _ _ (longest_keeps _ (t ++ q ++ b) Hc) Hk3).
    pose proof (keeps_length _ _ _ Hk2) as Hle. rewrite (length_app t).
    set (k2 := longest_suffix_prefix_len (q ++ b) (at_close a)) in *.
    replace (length t + length (q ++ b) - k2) with (length t + (length (q ++ b) - k2)) by lia.
    rewrite drop_app_add, take_app_add. set (m := length (q ++ b) - k2).
    destruct (Nat.ltb_spec 0 (length t + m)) as [?|Hz], (Nat.ltb_spec 0 m) as [?|Hz'];
      [by rewrite app_assoc| | |]; try lia.
    + replace m with 0 by lia. rewrite drop_0, take_0, app_nil_r. done.
    + assert (Ht : t = []) by (apply nil_length_inv; lia).
      rewrite Ht, app_nil_r. unfold with_more. rewrite Hs, Ha, Ht. by destruct a.
Qed.

(** The same with no tag open. *)
Lemma drain_visible_app f p out b :
  inline_wf p → active p = None → find_next_open (specs p) (pending p) = None →
  let k := max_open_prefix_suffix_len (specs p) (pending p) in
  let n := length (pending p) - k in
  push_loop (S f) (with_more p b) out
  = push_loop (S f) {| specs := specs p; pending := drop n (pending p) ++ b; active := None |}
      {| visible_text := visible_text out ++ take n (pending p); extracted := extracted out |}.
Proof.
  intros Hwf Ha Hf k n. pose proof Hwf as [Hne _ _ _].
  pose proof (max_open_keeps (specs p) (pending p) Hne) as Hk. fold k in Hk.
  destruct (drained_split (pending p) k (keeps_length _ _ _ Hk)) as [Hs Hq].
  fold n in Hs, Hq. set (t := take n (pending p)) in *. set (q := drop n (pending p)) in *.
  apply find_next_open_None in Hf; [|done].
  rewrite Hs in Hf, Hk. destruct Hk as [_ Hk]. rewrite <-Hq in Hk.
  simpl. rewrite Ha. simpl. rewrite Hs, <-app_assoc.
  destruct (find_next_open (specs p) (q ++ b)) as [[i idx]|] eqn:Hfi.
  - apply find_next_open_Some in Hfi; [|done].
    assert (Hfi' : find_next_open (specs p) (t ++ q ++ b) = Some (length t + i, idx)).
    { apply find_next_open_first; [done|]. apply first_in_late; eauto. }
    rewrite Hfi'. destruct (specs p !! idx) as [s|]; [|done].
    by rewrite <-Nat.add_assoc, drop_app_add, take_app_add, app_assoc.
  - apply find_next_open_None in Hfi; [|done].
    rewrite <-(no_occurrence_late (openers (specs p)) t q b) in Hfi by done.
    apply find_next_open_None in Hfi as ->; [|done].
    pose proof (max_open_keeps (specs p) (q ++ b) Hne) as Hk2.
    pose proof (keeps_late _ t q b Hk _ Hk2) as Hk3.
    rewrite (keeps_unique _ _ _ _ (max_open_keeps _ (t ++ q ++ b) Hne) Hk3).
    pose proof (keeps_length _ _ _ Hk2) as Hle. unfold drain_visible_to_suffix_match.
    simpl. rewrite Hs, <-app_assoc, (length_app t), Ha.
    set (k2 := max_open_prefix_suffix_len (specs p) (q ++ b)) in *.
    replace (length t + length (q ++ b) - k2) with (length t + (length (q ++ b) - k2)) by lia.
    rewrite drop_app_add, take_app_add. set (m := length (q ++ b) - k2).
    destruct (Nat.eqb_spec (length t + m) 0) as [Hz|?], (Nat.eqb_spec m 0) as [Hz'|?];
      [| | |by rewrite app_assoc]; try lia.
    + assert (Ht : t = []) by (apply nil_length_inv; lia).
      rewrite Ht, app_nil_r. unfold with_more. rewrite Hs, Ha, Ht. by destruct out.
    + rewrite Hz', drop_0, take_0, app_nil_r. done.
Qed.

(** More text after a break continues where the text at once would be. *)
Lemma push_loop_app f p out p' out' b f2 r :
  inline_wf p → push_loop f p out = Some (p', out') →
  push_loop f2 (with_more p' b) out' = Some r →
  push_loop (f + f2) (with_more p b) out = Some r.
Proof.
  revert p out. induction f as [|f IH]; intros p out Hwf H H2; [done|].
  destruct (active p) as [a|] eqn:Ha; simpl in H; rewrite Ha in H.
  - pose proof (wf_active _ Hwf a Ha) as Hc.
    destruct (find_str (at_close a) (pending p)) as [i|] eqn:Hf.
    + simpl. rewrite Ha. pose proof Hf as Hf'.
      apply find_str_Some in Hf' as (Ho & _). apply occurs_bound in Ho; [|done].
      apply find_str_first in Hf; [|done].
      assert (Hf' : find_str (at_close a) (pending p ++ b) = Some i).
      { apply find_str_first; [done|].
        apply first_in_app; [apply antichain_single|set_solver|done]. }
      simpl. rewrite Hf'. rewrite take_app_le, drop_app_le by lia.
      exact (IH _ _ (wf_closed _ _ Hwf) H H2).
    + destruct f2 as [|f2]; [done|]. injection H as <- <-.
      apply (push_loop_mono (S f2)); [|lia].
      rewrite (drain_active_app _ _ _ a) by done.
      destruct (Nat.ltb_spec 0 (length (pending p)
        - longest_suffix_prefix_len (pending p) (at_close a))) as [?|Hz]; [exact H2|].
      rewrite <-H2. f_equal. unfold with_more.
      replace (length (pending p) - _) with 0 by lia.
      rewrite drop_0, take_0, app_nil_r, Ha. by destruct a.
  - destruct (find_next_open (specs p) (pending p)) as [[i idx]|] eqn:Hf.
    + destruct (find_next_open_spec p i idx Hwf Hf) as (s & Hs & Hin & Hne & Hle).
      rewrite Hs in H. simpl. rewrite Ha. simpl.
      apply find_next_open_Some in Hf; [|apply Hwf].
      apply (first_in_app _ _ b) in Hf; [|apply Hwf..].
      apply find_next_open_first in Hf; [|apply Hwf].
      rewrite Hf, Hs, take_app_le, drop_app_le by lia.
      exact (IH _ _ (wf_opened _ _ _ _ Hwf Hin) H H2).
    + destruct f2 as [|f2]; [done|]. injection H as H.
      apply (push_loop_mono (S f2)); [|lia].
      rewrite drain_visible_app by done. unfold drain_visible_to_suffix_match in H.
      destruct (Nat.eqb_spec (length (pending p)
        - max_open_prefix_suffix_len (specs p) (pending p)) 0) as [Hz|?]; simplify_eq.
      * rewrite <-H2. f_equal; [|by rewrite Hz, take_0, app_nil_r; destruct out'].
        unfold with_more. by rewrite Hz, drop_0, Ha.
      * rewrite Ha in H2. exact H2.
Qed.

Lemma push_loop_wf f p out p' out' :
  inline_wf p → push_loop f p out = Some (p', out') → inline_wf p'.
Proof.
  revert p out. induction f as [|f IH]; intros p out Hwf H; [done|]. simpl in H.
  destruct (active p) as [a|] eqn:Ha.
  - destruct (find_str _ _) as [i|]; [by eapply IH; [apply wf_closed|]|]. simplify_eq.
    destruct Hwf as [? ? ? Hact]. case_match; [|by split]. split; simpl; try done.
    intros a' [= <-]. simpl. auto.
  - destruct (find_next_open (specs p) (pending p)) as [[i idx]|] eqn:Hf.
    + destruct (find_next_open_spec p i idx Hwf Hf) as (s & Hs & Hin & _). rewrite Hs in H.
      by eapply IH; [apply wf_opened|].
    + simplify_eq. unfold drain_visible_to_suffix_match in *. destruct Hwf.
      case_match; simplify_eq; by split.
Qed.

Lemma inline_push_run p a :
  inline_wf p → ∃ p' out, inline_push_str p a = (p', out) ∧
    push_loop (S (length (pending p ++ a))) (with_more p a) empty_chunk = Some (p', out).
Proof.
  intros Hwf. unfold inline_push_str. simpl pending. fold (with_more p a).
  destruct (push_loop_total (S (length (pending p ++ a))) (with_more p a) empty_chunk)
    as [[p' out] Hr]; [by apply wf_with_more|simpl; lia|]. rewrite Hr. eauto.
Qed.

Lemma with_more_app p a b : with_more (with_more p a) b = with_more p (a ++ b).
Proof. unfold with_more; simpl. by rewrite app_assoc. Qed.

Lemma chunk_app_empty out : chunk_app out empty_chunk = out.
Proof. destruct out. unfold chunk_app; simpl. by rewrite !app_nil_r. Qed.

(** Pushing a text in two pieces is pushing it at once. *)
Lemma inline_push_app p a b :
  inline_wf p →
  let '(p1, o1) := inline_push_str p a in
  let '(p2, o2) := inline_push_str p1 b in
  inline_push_str p (a ++ b) = (p2, chunk_app o1 o2).
Proof.
  intros Hwf. destruct (inline_push_run p a Hwf) as (p1 & o1 & -> & H1).
  assert (Hwf1 : inline_wf p1) by (eapply push_loop_wf; [by apply wf_with_more|done]).
  destruct (inline_push_run p1 b Hwf1) as (p2 & o2 & -> & H2).
  destruct (inline_push_run p (a ++ b) Hwf) as (p3 & o3 & -> & H3).
  pose proof (push_loop_frame (S (length (pending p1 ++ b))) (with_more p1 b) o1 empty_chunk) as Hf.
  rewrite H2, chunk_app_empty in Hf. cbn [fmap option_fmap option_map] in Hf.
  pose proof (push_loop_app _ _ _ _ _ b _ _ (wf_with_more _ a Hwf) H1 Hf) as H.
  rewrite with_more_app in H.
  apply (push_loop_mono _ (S (length (pending p ++ a)) + S (length (pending p1 ++ b))
                          + S (length (pending p ++ a ++ b)))) in H; [|lia].
  apply (push_loop_mono _ (S (length (pending p ++ a)) + S (length (pending p1 ++ b))
                          + S (length (pending p ++ a ++ b)))) in H3; [|lia].
  congruence.
Qed.

Lemma inline_push_wf p a : inline_wf p → inline_wf (inline_push_str p a).1.
Proof.
  intros Hwf. destruct (inline_push_run p a Hwf) as (p1 & o1 & -> & H1).
  eapply push_loop_wf; [by apply wf_with_more|done].
Qed.

(** A parser at rest: it has nothing to emit without new input. *)
Definition inline_idle (p : InlineHiddenTagParser T) : Prop :=
  inline_wf p ∧ inline_push_str p [] = (p, empty_chunk).

Lemma inline_push_idle p a : inline_wf p → inline_idle (inline_push_str p a).1.
Proof.
  intros Hwf. split; [by apply inline_push_wf|].
  pose proof (inline_push_app p a [] Hwf) as H. rewrite app_nil_r in H.
  destruct (inline_push_str p a) as [p1 o1]. simpl.
  destruct (inline_push_str p1 []) as [p2 o2]. simplify_eq.
  destruct o1 as [v1 e1], o2 as [v2 e2]. unfold chunk_app in *; simpl in *. simplify_eq.
  f_equal. unfold empty_chunk. f_equal; by eapply (app_inv_head _ _ []); rewrite app_nil_r.
Qed.

Lemma inline_new_idle sp p :
  antichain (openers sp) → inline_new sp = Some p → inline_idle p.
Proof.
  unfold inline_new. intros Ha H. destruct (specs_ok sp) eqn:Hs; simplify_eq.
  pose proof (specs_ok_wf sp Hs Ha) as Hwf. split; [done|]. pose proof Hwf as [Hne _ _ _].
  unfold inline_push_str; simpl in *. destruct (find_next_open sp []) as [[i idx]|] eqn:Hf.
  - destruct (find_next_open_spec _ i idx Hwf Hf) as (s & _ & _ & Hn & Hle); simpl in *.
    destruct (open s); simpl in *; [done|lia].
  - done.
Qed.
End InlineLoop.

#[export] Instance inline_laws {T} :
  ChunkLaws (InlineHiddenTagParser T) (ExtractedInlineTag T) inline_idle eq.
Proof.
  split; try apply _.
  - intros p a [Hwf _]. by apply inline_push_idle.
  - by intros p [_ H].
  - intros p a b [Hwf _]. simpl. pose proof (inline_push_app p a b Hwf) as H.
    destruct (inline_push_str p a) as [p1 o1]. simpl.
    destruct (inline_push_str p1 b) as [p2 o2]. simpl. by rewrite H.
Qed.

(** The openers of a parser with one specification. *)
Lemma citation_new_idle : inline_idle (cite_inner citation_new).
Proof.
  apply (inline_new_idle citation_specs); [apply antichain_single|]. vm_compute. reflexivity.
Qed.

Definition citation_idle (p : CitationStreamParser) : Prop := inline_idle (cite_inner p).

#[export] Instance citation_laws : ChunkLaws CitationStreamParser str citation_idle eq.
Proof.
  split; try apply _; unfold citation_idle; simpl.
  - intros p a Hp. pose proof (laws_idle (cite_inner p) a Hp). simpl in *.
    by destruct (inline_push_str (cite_inner p) a).
  - intros [p] Hp. pose proof (laws_nil p Hp) as H. simpl in *. by rewrite H.
  - intros p a b Hp. destruct (laws_push (cite_inner p) a b Hp) as (H1 & H2 & H3). simpl in *.
    destruct (inline_push_str (cite_inner p) a) as [p1 o1]. simpl in *.
    destruct (inline_push_str p1 b) as [p2 o2]. simpl in *.
    destruct (inline_push_str (cite_inner p) (a ++ b)) as [p3 o3]. simpl in *.
    by rewrite H1, H2, H3, fmap_app.
Qed.

(** ** What the inline parser hides

    The input as a sequence of visible pieces and tagged pieces. *)

Section Accounting.
Context {T : Type}.

Inductive piece :=
| Vis (s : str)
| Hid (x : InlineTagSpec T) (c : str) (closed : bool).

Definition piece_source (g : piece) : str :=
  match g with
  | Vis s => s
  | Hid x c closed => open x ++ c ++ (if closed then close x else [])
  end.

Definition piece_visible (g : piece) : str := match g with Vis s => s | Hid _ _ _ => [] end.

Definition piece_hidden (g : piece) : list (ExtractedInlineTag T) :=
  match g with Vis _ => [] | Hid x c _ => [{| ei_tag := tag x; content := c |}] end.

(** The pieces are cut at the delimiters: no opener inside visible text, content
    up to the first closing delimiter, and only the last piece may be left open. *)
Definition piece_ok (sp : list (InlineTagSpec T)) (g : piece) : Prop :=
  match g with
  | Vis s => no_occurrence (openers sp) s
  | Hid x c true => x ∈ sp ∧ find_str (close x) (c ++ close x) = Some (length c)
  | Hid x c false => x ∈ sp ∧ find_str (close x) c = None
  end.

Fixpoint pieces_ok (sp : list (InlineTagSpec T)) (gs : list piece) : Prop :=
  match gs with
  | [] => True
  | g :: gs =>
      piece_ok sp g ∧ pieces_ok sp gs ∧
      match g with Hid _ _ false => gs = [] | _ => True end
  end.

Definition flat (gs : list piece) : str := concat (piece_source <$> gs).
Definition vis (gs : list piece) : str := concat (piece_visible <$> gs).
Definition hid (gs : list piece) : list (ExtractedInlineTag T) := concat (piece_hidden <$> gs).

Lemma find_str_prefix n s b i :
  n ≠ [] → find_str n s = Some i → s = take i s ++ n ++ b →
  find_str n (take i s ++ n) = Some (length (take i s)).
Proof.
  intros Hn (Ho & Hi & Hmin)%find_str_Some Hs. apply find_str_Some.
  assert (Hl : length (take i s) = i) by (rewrite length_take; lia). rewrite Hl.
  split; [exists []; rewrite drop_app_length' by done; by rewrite app_nil_r|].
  split; [rewrite length_app; lia|].
  intros j Hj Hoj. apply (Hmin j Hj). rewrite Hs, app_assoc. by apply occurs_app_l.
Qed.

Lemma find_str_cut n s i :
  find_str n s = Some i → s = take i s ++ n ++ drop (i + length n) s.
Proof.
  intros ([r Hr] & _)%find_str_Some. rewrite <-(take_drop i s) at 1. f_equal.
  rewrite <-drop_drop, Hr. by rewrite drop_app_length.
Qed.

(** From a state with or without an open tag to the end of the stream. *)
Lemma push_loop_accounts f (p : InlineHiddenTagParser T) out p' out' :
  inline_wf p → push_loop f p out = Some (p', out') →
  let o := chunk_app out' (inline_finish p').2 in
  match active p with
  | None => ∃ gs, pieces_ok (specs p) gs ∧ pending p = flat gs ∧
      visible_text o = visible_text out ++ vis gs ∧ extracted o = extracted out ++ hid gs
  | Some a => ∃ c closed gs, pieces_ok (specs p) gs ∧ (closed = false → gs = []) ∧
      (if closed then find_str (at_close a) (c ++ at_close a) = Some (length c)
       else find_str (at_close a) c = None) ∧
      pending p = c ++ (if closed then at_close a else []) ++ flat gs ∧
      visible_text o = visible_text out ++ vis gs ∧
      extracted o
      = extracted out ++ {| ei_tag := at_tag a; content := at_content a ++ c |} :: hid gs
  end.
Proof.
  revert p out. induction f as [|f IH]; intros p out Hwf H o; [done|]. simpl in H.
  destruct (active p) as [a|] eqn:Ha.
  - pose proof (wf_active _ Hwf a Ha) as Hc.
    destruct (find_str (at_close a) (pending p)) as [i|] eqn:Hf.
    + destruct (IH _ _ (wf_closed _ _ Hwf) H) as (gs & Hok & Hp & Hv & He). simpl in *.
      pose proof (find_str_cut _ _ _ Hf) as Hcut.
      exists (take i (pending p)), true, gs. split; [done|]. split; [done|].
      split; [by eapply find_str_prefix|]. split; [by rewrite <-Hp|].
      split; [done|]. by rewrite He, <-app_assoc.
    + exists (pending p), false, []. simplify_eq. split; [done|]. split; [done|]. split; [done|].
      split; [by rewrite app_nil_r|]. unfold o, inline_finish. case_match eqn:Hlt; simpl.
      * by rewrite <-app_assoc, take_drop, !app_nil_r.
      * by rewrite Ha; simpl; rewrite !app_nil_r.
  - destruct (find_next_open (specs p) (pending p)) as [[i idx]|] eqn:Hf.
    + destruct (find_next_open_spec p i idx Hwf Hf) as (s & Hs & Hin & Hne & Hle).
      rewrite Hs in H. pose proof (wf_opened p (drop (i + length (open s)) (pending p)) s [] Hwf Hin)
        as Hwf'.
      destruct (IH _ _ Hwf' H) as (c & closed & gs & Hok & Hcl & Hfs & Hp & Hv & He). simpl in *.
      pose proof (find_next_open_Some _ _ _ _ (wf_openers _ Hwf) Hf) as (n & Hn & Ho & Hmin).
      apply list_lookup_fmap_Some in Hn as (s' & -> & Hs'). simplify_eq.
      exists (Vis (take i (pending p)) :: Hid s c closed :: gs). split.
      { split; [|split; [|done]].
        - intros m j (y & -> & Hy)%list_elem_of_fmap Hoj.
          apply list_elem_of_lookup in Hy as [k Hy].
          assert (open y ≠ []) by (eapply opener_nonempty; [apply Hwf|done]).
          pose proof (occurs_bound _ _ _ ltac:(done) Hoj) as Hb. rewrite length_take in Hb.
          assert (0 < length (open y)) by (destruct (open y); [done|simpl; lia]).
          apply (occurs_app_l _ _ (drop i (pending p))) in Hoj; [|done]. rewrite take_drop in Hoj.
          specialize (Hmin k (open y) j ltac:(unfold openers; by rewrite list_lookup_fmap, Hy) Hoj).
          apply open_cmp_le in Hmin. simpl in Hmin. lia.
        - split; [by destruct closed|]. split; [done|]. by destruct closed; [|apply Hcl]. }
      unfold flat, vis, hid in *. rewrite !fmap_cons. simpl. split; [|split].
      * destruct Ho as [r Hr]. rewrite <-(take_drop i (pending p)) at 1. f_equal.
        rewrite Hr. rewrite <-!app_assoc. f_equal.
        rewrite <-drop_drop, Hr, drop_app_length in Hp. exact Hp.
      * rewrite Hv. by rewrite <-app_assoc.
      * by rewrite He.
    + injection H as H. exists [Vis (pending p)].
      apply find_next_open_None in Hf; [|apply Hwf].
      split; [done|]. unfold flat, vis, hid; simpl. rewrite !app_nil_r. split; [done|].
      unfold drain_visible_to_suffix_match in H. unfold o, inline_finish.
      case_match; simplify_eq/=; rewrite Ha; simpl; rewrite ?app_nil_r; [done|].
      by rewrite <-app_assoc, take_drop.
Qed.
End Accounting.
Arguments piece T : clear implicits.

(** However the stream is cut into chunks, the inline tag parser gives the
    result of the whole text at once, and accounts for every character: the text
    is a sequence of visible pieces, free of openers, and of tagged pieces, each
    up to its first closing delimiter (the last one possibly unterminated); the
    visible output is the visible pieces and the extracted tags are the contents,
    in order. *)
Theorem inline_stream_accounts {T} (sp : list (InlineTagSpec T)) p chunks :
  inline_new sp = Some p → antichain (openers sp) →
  stream_all p chunks = stream_all p [concat chunks] ∧
  ∃ gs : list (piece T), pieces_ok sp gs ∧ concat chunks = flat gs ∧
    visible_text (stream_all p chunks) = vis gs ∧ extracted (stream_all p chunks) = hid gs.
Proof.
  intros Hnew Ha. pose proof (inline_new_idle sp p Ha Hnew) as Hidle.
  destruct (stream_all_concat inline_idle eq p chunks Hidle) as [Hv He].
  split; [by destruct (stream_all p chunks), (stream_all p [concat chunks]); simpl in *; subst|].
  rewrite Hv, He. unfold stream_all. simpl. rewrite !app_nil_r.
  destruct (inline_push_run p (concat chunks) (proj1 Hidle)) as (p' & out & -> & Hrun). simpl.
  pose proof (push_loop_accounts _ _ _ _ _ (wf_with_more _ _ (proj1 Hidle)) Hrun) as H.
  clear Hrun Hv He. unfold inline_new in Hnew. destruct (specs_ok sp); [|done].
  injection Hnew as <-. destruct H as (gs & Hok & Hp & Hvs & Hes). by exists gs.
Qed.

Lemma inline_stream_accounts_witness :
  inline_new citation_specs = Some (cite_inner citation_new) ∧
  stream_all (cite_inner citation_new)
    [lit "a <oai-mem-"; lit "citation>x</oai-"; lit "mem-citation> b"]
  = {| visible_text := lit "a  b"; extracted := [{| ei_tag := Citation; content := lit "x" |}] |}.
Proof.
  split; [vm_compute; reflexivity|].
  rewrite (proj1 (inline_stream_accounts citation_specs (cite_inner citation_new)
    [lit "a <oai-mem-"; lit "citation>x</oai-"; lit "mem-citation> b"]
    ltac:(vm_compute; reflexivity) (antichain_single _))).
  vm_compute. reflexivity.
Defined.

(** With an opener inside another one the cut shows: "<ab" opens the longer tag
    when it arrives at once and the shorter one when it arrives in two pieces. *)
Lemma inline_overlap_depends_on_chunks :
  let sp := [{| tag := 0; open := lit "<a"; close := lit ">" |};
             {| tag := 1; open := lit "<ab"; close := lit ">" |}] in
  let p := {| specs := sp; pending := []; active := None |} in
  inline_new sp = Some p ∧
  ei_tag <$> extracted (stream_all p [lit "<ab>"]) = [1] ∧
  ei_tag <$> extracted (stream_all p [lit "<a"; lit "b>"]) = [0].
Proof. vm_compute. done. Qed.
