(* ===== verification/StreamPlan.v ===== *)
(** * Plan blocks and assistant text

    [utils/stream-parser/src/{tagged_line_parser,proposed_plan,assistant_text}.rs].
    The line parser buffers a line only while it can still turn out to be a tag;
    [parse_is_line_based] shows that this early decision never changes the result
    of the line-by-line reading [ref_parse].  Segments are compared by the
    characters and tags they carry ([atoms]), so that two texts that differ only
    in where a run of text was cut are equivalent ([segs_equiv]). *)

From S2P Require Import Prelude RustStr StreamText.

(** ** [TaggedLineParser] *)

Record TagSpec (T : Type) := { ts_open : str; ts_close : str; ts_tag : T }.
Arguments Build_TagSpec {T} _ _ _.
Arguments ts_open {T} _.
Arguments ts_close {T} _.
Arguments ts_tag {T} _.

Inductive TaggedLineSegment (T : Type) :=
| Normal (s : str)
| TagStart (t : T)
| TagDelta (t : T) (s : str)
| TagEnd (t : T).
Arguments Normal {T} s.
Arguments TagStart {T} t.
Arguments TagDelta {T} t s.
Arguments TagEnd {T} t.

Record TaggedLineParser (T : Type) := {
  tl_specs : list (TagSpec T);
  active_tag : option T;
  detect_tag : bool;
  line_buffer : str;
}.
Arguments Build_TaggedLineParser {T} _ _ _ _.
Arguments tl_specs {T} _.
Arguments active_tag {T} _.
Arguments detect_tag {T} _.
Arguments line_buffer {T} _.

Section TaggedLine.
Context {T : Type} `{!EqDecision T}.
Implicit Types (p : TaggedLineParser T) (segs : list (TaggedLineSegment T)).

Definition tagged_new (sp : list (TagSpec T)) : TaggedLineParser T :=
  {| tl_specs := sp; active_tag := None; detect_tag := true; line_buffer := [] |}.

(** [segments.last_mut()]: text joins a last segment of the same role. *)
Definition push_segment (segs : list (TaggedLineSegment T)) (seg : TaggedLineSegment T)
    : list (TaggedLineSegment T) :=
  match seg with
  | Normal delta =>
      if is_empty delta then segs
      else match last segs with
           | Some (Normal existing) => removelast segs ++ [Normal (existing ++ delta)]
           | _ => segs ++ [Normal delta]
           end
  | TagDelta t delta =>
      if is_empty delta then segs
      else match last segs with
           | Some (TagDelta t' existing) =>
               if bool_decide (t' = t)
               then removelast segs ++ [TagDelta t' (existing ++ delta)]
               else segs ++ [TagDelta t delta]
           | _ => segs ++ [TagDelta t delta]
           end
  | TagStart t => segs ++ [TagStart t]
  | TagEnd t => segs ++ [TagEnd t]
  end.

Definition push_text (act : option T) (text : str) (segs : list (TaggedLineSegment T))
    : list (TaggedLineSegment T) :=
  match act with
  | Some t => push_segment segs (TagDelta t text)
  | None => push_segment segs (Normal text)
  end.

Definition is_tag_prefix (sp : list (TagSpec T)) (slug : str) : bool :=
  let slug := trim_end slug in
  any (λ s, starts_with slug (ts_open s) || starts_with slug (ts_close s)) sp.

Definition match_open (sp : list (TagSpec T)) (slug : str) : option T :=
  ts_tag <$> find (λ s, ts_open s == slug) sp.

Definition match_close (sp : list (TagSpec T)) (slug : str) : option T :=
  ts_tag <$> find (λ s, ts_close s == slug) sp.

Definition set_line (act : option T) (detect : bool) (buf : str) (p : TaggedLineParser T)
    : TaggedLineParser T :=
  {| tl_specs := tl_specs p; active_tag := act; detect_tag := detect; line_buffer := buf |}.

(** [line.strip_suffix('\n').unwrap_or(&line)], trimmed on both sides. *)
Definition line_slug (line : str) : str :=
  trim_end (trim_start (default line (strip_suffix [nl] line))).

Definition finish_line (p : TaggedLineParser T) (segs : list (TaggedLineSegment T))
    : TaggedLineParser T * list (TaggedLineSegment T) :=
  let line := line_buffer p in
  let slug := line_slug line in
  match match_open (tl_specs p) slug, active_tag p with
  | Some t, None => (set_line (Some t) true [] p, push_segment segs (TagStart t))
  | _, _ =>
      match match_close (tl_specs p) slug with
      | Some t =>
          if bool_decide (active_tag p = Some t)
          then (set_line None true [] p, push_segment segs (TagEnd t))
          else (set_line (active_tag p) true [] p, push_text (active_tag p) line segs)
      | None => (set_line (active_tag p) true [] p, push_text (active_tag p) line segs)
      end
  end.

(** The body of the loop of [parse] on one character; the state is the parser,
    the current [run] and the segments. *)
Definition parse_char (st : TaggedLineParser T * str * list (TaggedLineSegment T)) (c : char)
    : TaggedLineParser T * str * list (TaggedLineSegment T) :=
  let '(p, run, segs) := st in
  if detect_tag p then
    let segs := if is_empty run then segs else push_text (active_tag p) run segs in
    let p := set_line (active_tag p) true (line_buffer p ++ [c]) p in
    if (c =? nl)%N then
      let '(p, segs) := finish_line p segs in (p, [], segs)
    else
      let slug := trim_start (line_buffer p) in
      if is_empty slug || is_tag_prefix (tl_specs p) slug then (p, [], segs)
      else (set_line (active_tag p) false [] p, [],
            push_text (active_tag p) (line_buffer p) segs)
  else
    let run := run ++ [c] in
    if (c =? nl)%N then
      (set_line (active_tag p) true (line_buffer p) p, [], push_text (active_tag p) run segs)
    else (p, run, segs).

Definition parse (p : TaggedLineParser T) (delta : str)
    : TaggedLineParser T * list (TaggedLineSegment T) :=
  let '(p, run, segs) := fold_left parse_char delta (p, [], []) in
  (p, if is_empty run then segs else push_text (active_tag p) run segs).

Definition tagged_finish (p : TaggedLineParser T)
    : TaggedLineParser T * list (TaggedLineSegment T) :=
  let '(act, segs) :=
    if is_empty (line_buffer p) then (active_tag p, [])
    else
      let buffered := line_buffer p in
      let slug := line_slug buffered in
      match match_open (tl_specs p) slug, active_tag p with
      | Some t, None => (Some t, push_segment [] (TagStart t))
      | _, _ =>
          match match_close (tl_specs p) slug with
          | Some t =>
              if bool_decide (active_tag p = Some t) then (None, push_segment [] (TagEnd t))
              else (active_tag p, push_text (active_tag p) buffered [])
          | None => (active_tag p, push_text (active_tag p) buffered [])
          end
      end in
  let segs := match act with Some t => push_segment segs (TagEnd t) | None => segs end in
  (set_line None true [] p, segs).
End TaggedLine.

(** ** [ProposedPlanParser] *)

Inductive PlanTag := ProposedPlan.
#[export] Instance PlanTag_eq_dec : EqDecision PlanTag.
Proof. solve_decision. Defined.

Definition OPEN_TAG : str := lit "<proposed_plan>".
Definition CLOSE_TAG : str := lit "</proposed_plan>".

Inductive ProposedPlanSegment :=
| PlanNormal (s : str)
| ProposedPlanStart
| ProposedPlanDelta (s : str)
| ProposedPlanEnd.

Record ProposedPlanParser := { plan_parser : TaggedLineParser PlanTag }.

Definition plan_specs : list (TagSpec PlanTag) :=
  [{| ts_open := OPEN_TAG; ts_close := CLOSE_TAG; ts_tag := ProposedPlan |}].

Definition plan_new : ProposedPlanParser := {| plan_parser := tagged_new plan_specs |}.

Definition map_segment (s : TaggedLineSegment PlanTag) : ProposedPlanSegment :=
  match s with
  | Normal text => PlanNormal text
  | TagStart ProposedPlan => ProposedPlanStart
  | TagDelta ProposedPlan text => ProposedPlanDelta text
  | TagEnd ProposedPlan => ProposedPlanEnd
  end.

(** The body of the loop of [map_segments]. *)
Definition map_step (out : StreamTextChunk ProposedPlanSegment)
    (segment : TaggedLineSegment PlanTag) : StreamTextChunk ProposedPlanSegment :=
  let mapped := map_segment segment in
  {| visible_text :=
       match mapped with
       | PlanNormal text => visible_text out ++ text
       | _ => visible_text out
       end;
     extracted := extracted out ++ [mapped] |}.

Definition map_segments (segs : list (TaggedLineSegment PlanTag))
    : StreamTextChunk ProposedPlanSegment :=
  fold_left map_step segs empty_chunk.

#[export] Instance plan_stream : StreamTextParser ProposedPlanParser ProposedPlanSegment := {
  push_str p chunk :=
    let '(q, segs) := parse (plan_parser p) chunk in
    ({| plan_parser := q |}, map_segments segs);
  finish p :=
    let '(q, segs) := tagged_finish (plan_parser p) in
    ({| plan_parser := q |}, map_segments segs);
}.

Definition strip_proposed_plan_blocks (text : str) : str :=
  let '(p, out) := push_str plan_new text in
  visible_text out ++ visible_text (finish p).2.

Definition extract_step (st : str * bool) (seg : ProposedPlanSegment) : str * bool :=
  match seg with
  | ProposedPlanStart => ([], true)
  | ProposedPlanDelta delta => (st.1 ++ delta, st.2)
  | ProposedPlanEnd | PlanNormal _ => st
  end.

Definition plan_of (segs : list ProposedPlanSegment) : option str :=
  let '(plan_text, saw_plan_block) := fold_left extract_step segs ([], false) in
  if saw_plan_block then Some plan_text else None.

Definition extract_proposed_plan_text (text : str) : option str :=
  let '(p, out) := push_str plan_new text in
  plan_of (extracted out ++ extracted (finish p).2).

(** ** [AssistantTextStreamParser] *)

Record AssistantTextChunk := {
  a_visible_text : str;
  a_citations : list str;
  plan_segments : list ProposedPlanSegment;
}.

Record AssistantTextStreamParser := {
  plan_mode : bool;
  citations : CitationStreamParser;
  plan : ProposedPlanParser;
}.

Definition assistant_new (plan_mode : bool) : AssistantTextStreamParser :=
  {| plan_mode := plan_mode; citations := citation_new; plan := plan_new |}.

Definition assistant_is_empty (c : AssistantTextChunk) : bool :=
  is_empty (a_visible_text c) && is_empty (a_citations c) && is_empty (plan_segments c).

Definition parse_visible_text (p : AssistantTextStreamParser) (visible : str)
    : AssistantTextStreamParser * AssistantTextChunk :=
  if negb (plan_mode p) then
    (p, {| a_visible_text := visible; a_citations := []; plan_segments := [] |})
  else
    let '(pl, plan_chunk) := push_str (plan p) visible in
    ({| plan_mode := plan_mode p; citations := citations p; plan := pl |},
     {| a_visible_text := visible_text plan_chunk; a_citations := [];
        plan_segments := extracted plan_chunk |}).

Definition with_citations (cs : list str) (out : AssistantTextChunk) : AssistantTextChunk :=
  {| a_visible_text := a_visible_text out; a_citations := cs;
     plan_segments := plan_segments out |}.

Definition assistant_push_str (p : AssistantTextStreamParser) (chunk : str)
    : AssistantTextStreamParser * AssistantTextChunk :=
  let '(cs, citation_chunk) := push_str (citations p) chunk in
  let p := {| plan_mode := plan_mode p; citations := cs; plan := plan p |} in
  let '(p, out) := parse_visible_text p (visible_text citation_chunk) in
  (p, with_citations (extracted citation_chunk) out).

Definition assistant_finish (p : AssistantTextStreamParser)
    : AssistantTextStreamParser * AssistantTextChunk :=
  let '(cs, citation_chunk) := finish (citations p) in
  let p := {| plan_mode := plan_mode p; citations := cs; plan := plan p |} in
  let '(p, out) := parse_visible_text p (visible_text citation_chunk) in
  let '(p, out) :=
    if plan_mode p then
      let '(pl, tail) := finish (plan p) in
      ({| plan_mode := plan_mode p; citations := citations p; plan := pl |},
       if negb (chunk_is_empty tail) then
         {| a_visible_text := a_visible_text out ++ visible_text tail;
            a_citations := a_citations out;
            plan_segments := plan_segments out ++ extracted tail |}
       else out)
    else (p, out) in
  (p, with_citations (extracted citation_chunk) out).

Example plan_ex :
  extract_proposed_plan_text (lit "a" ++ [nl] ++ lit " <proposed_plan> " ++ [nl] ++ lit "- step"
    ++ [nl] ++ lit "</proposed_plan>") = Some (lit "- step" ++ [nl]).
Proof. vm_compute. reflexivity. Qed.

(** ** Atoms: what a list of segments says, character by character *)

Inductive atom (T : Type) :=
| Char (role : option T) (c : char)
| Opens (t : T)
| Closes (t : T).
Arguments Char {T} role c.
Arguments Opens {T} t.
Arguments Closes {T} t.

Definition text_atoms {T} (role : option T) (s : str) : list (atom T) := Char role <$> s.

Definition seg_atoms {T} (s : TaggedLineSegment T) : list (atom T) :=
  match s with
  | Normal s => text_atoms None s
  | TagDelta t s => text_atoms (Some t) s
  | TagStart t => [Opens t]
  | TagEnd t => [Closes t]
  end.

Definition atoms {T} (segs : list (TaggedLineSegment T)) : list (atom T) :=
  concat (seg_atoms <$> segs).

Definition atom_visible {T} (a : atom T) : str :=
  match a with Char None c => [c] | _ => [] end.

Section Atoms.
Context {T : Type} `{!EqDecision T}.
Implicit Types (p : TaggedLineParser T) (segs : list (TaggedLineSegment T)) (act : option T).

Lemma atoms_app segs segs' : atoms (segs ++ segs') = atoms segs ++ atoms segs'.
Proof. unfold atoms. by rewrite fmap_app, concat_app. Qed.

Lemma atoms_single (seg : TaggedLineSegment T) : atoms [seg] = seg_atoms seg.
Proof. unfold atoms. simpl. by rewrite app_nil_r. Qed.

Lemma split_last segs x : last segs = Some x → segs = removelast segs ++ [x].
Proof.
  destruct segs as [|y segs _] using rev_ind; [done|].
  rewrite last_snoc. intros [= ->]. by rewrite removelast_last.
Qed.

Lemma atoms_push_segment segs seg :
  atoms (push_segment segs seg) = atoms segs ++ seg_atoms seg.
Proof.
  destruct seg as [s|t|t s|t]; simpl; try by rewrite atoms_app, atoms_single.
  - destruct s as [|c s]; simpl; [by rewrite app_nil_r|].
    destruct (last segs) as [[]|] eqn:Hl; try by rewrite atoms_app, atoms_single.
    apply split_last in Hl. rewrite Hl at 2.
    rewrite !atoms_app, !atoms_single, <-app_assoc. simpl. unfold text_atoms.
    by rewrite fmap_app.
  - destruct s as [|c s]; simpl; [by rewrite app_nil_r|].
    destruct (last segs) as [[]|] eqn:Hl; try by rewrite atoms_app, atoms_single.
    case_bool_decide; [subst|by rewrite atoms_app, atoms_single].
    apply split_last in Hl. rewrite Hl at 2.
    rewrite !atoms_app, !atoms_single, <-app_assoc. simpl. unfold text_atoms.
    by rewrite fmap_app.
Qed.

Lemma atoms_push_text act text segs :
  atoms (push_text act text segs) = atoms segs ++ text_atoms act text.
Proof. destruct act; exact (atoms_push_segment _ _). Qed.

(** ** One character at a time

    The parser after a character, and the atoms the character adds once runs are
    flushed: neither depends on the run or on the segments collected so far. *)

Definition line_ref (sp : list (TagSpec T)) (act : option T) (line : str)
    : option T * list (atom T) :=
  let slug := line_slug line in
  match match_open sp slug, act with
  | Some t, None => (Some t, [Opens t])
  | _, _ =>
      match match_close sp slug with
      | Some t => if bool_decide (act = Some t) then (None, [Closes t])
                  else (act, text_atoms act line)
      | None => (act, text_atoms act line)
      end
  end.

Definition next (p : TaggedLineParser T) (c : char) : TaggedLineParser T * list (atom T) :=
  if detect_tag p then
    let buf := line_buffer p ++ [c] in
    if (c =? nl)%N then
      let '(act, a) := line_ref (tl_specs p) (active_tag p) buf in (set_line act true [] p, a)
    else if is_empty (trim_start buf) || is_tag_prefix (tl_specs p) (trim_start buf)
    then (set_line (active_tag p) true buf p, [])
    else (set_line (active_tag p) false [] p, text_atoms (active_tag p) buf)
  else
    (set_line (active_tag p) (c =? nl)%N (line_buffer p) p, text_atoms (active_tag p) [c]).

Fixpoint next_all (p : TaggedLineParser T) (s : str) : TaggedLineParser T * list (atom T) :=
  match s with
  | [] => (p, [])
  | c :: s => let '(p, a) := next p c in let '(p, b) := next_all p s in (p, a ++ b)
  end.

(** What a loop state amounts to: the segments and the unflushed run. *)
Definition view (st : TaggedLineParser T * str * list (TaggedLineSegment T)) : list (atom T) :=
  let '(p, run, segs) := st in atoms segs ++ text_atoms (active_tag p) run.

Lemma atoms_flush act run segs :
  atoms (if is_empty run then segs else push_text act run segs)
  = atoms segs ++ text_atoms act run.
Proof. destruct run; simpl; [by rewrite app_nil_r|]. apply atoms_push_text. Qed.

Lemma finish_line_ref p segs :
  let r := line_ref (tl_specs p) (active_tag p) (line_buffer p) in
  (finish_line p segs).1 = set_line r.1 true [] p ∧
  atoms (finish_line p segs).2 = atoms segs ++ r.2.
Proof.
  unfold finish_line, line_ref.
  repeat case_match; cbn [fst snd]; rewrite ?atoms_push_text, ?atoms_push_segment; done.
Qed.

Lemma parse_char_next st c :
  let '(p, a) := next st.1.1 c in
  (parse_char st c).1.1 = p ∧ view (parse_char st c) = view st ++ a.
Proof.
  destruct st as [[p run] segs]. unfold next, parse_char, view. simpl.
  destruct p as [sp act [] buf]; simpl.
  - destruct (N.eqb_spec c nl) as [->|Hc].
    + unfold set_line; simpl.
      set (q := {| tl_specs := sp; active_tag := act; detect_tag := true;
                   line_buffer := buf ++ [nl] |}).
      destruct (finish_line_ref q (if is_empty run then segs else push_text act run segs))
        as [H1 H2]. simpl in H1, H2.
      destruct (line_ref sp act (buf ++ [nl])) as [act' a].
      destruct (finish_line q _) as [p' segs']. simpl in *. subst p'. split; [done|].
      by rewrite H2, atoms_flush, app_nil_r.
    + destruct (is_empty (trim_start (buf ++ [c])) || _); unfold set_line; simpl; split; try done;
        rewrite ?atoms_push_text, atoms_flush; by rewrite ?app_nil_r.
  - destruct (N.eqb_spec c nl) as [->|Hc]; unfold set_line; simpl; split; try done.
    + rewrite atoms_push_text, app_nil_r. unfold text_atoms. by rewrite fmap_app, app_assoc.
    + unfold text_atoms. by rewrite fmap_app, app_assoc.
Qed.

Lemma fold_parse_char s st :
  let '(p, a) := next_all st.1.1 s in
  (fold_left parse_char s st).1.1 = p ∧ view (fold_left parse_char s st) = view st ++ a.
Proof.
  revert st. induction s as [|c s IH]; intros st; simpl; [by rewrite app_nil_r|].
  pose proof (parse_char_next st c) as H. destruct (next st.1.1 c) as [p a].
  destruct H as [Hp Hv]. specialize (IH (parse_char st c)). rewrite Hp in IH.
  destruct (next_all p s) as [p' b]. by rewrite app_assoc, <-Hv.
Qed.

Lemma parse_next p s :
  (parse p s).1 = (next_all p s).1 ∧ atoms (parse p s).2 = (next_all p s).2.
Proof.
  pose proof (fold_parse_char s (p, [], [])) as H. unfold parse.
  destruct (fold_left parse_char s (p, [], [])) as [[p' run] segs]. simpl in H.
  destruct (next_all p s) as [q b]. destruct H as [H1 H2]. simpl in *. subst q.
  split; [done|]. by rewrite atoms_flush.
Qed.

Lemma next_all_app p a b :
  next_all p (a ++ b)
  = let '(q, x) := next_all p a in let '(r, y) := next_all q b in (r, x ++ y).
Proof.
  revert p. induction a as [|c a IH]; intros p; simpl; [by destruct (next_all p b)|].
  destruct (next p c) as [q x]. rewrite IH. destruct (next_all q a) as [r y].
  destruct (next_all r b) as [u z]. by rewrite app_assoc.
Qed.
End Atoms.

(** ** The line-by-line reading *)

Definition close_atoms {T} (act : option T) : list (atom T) :=
  match act with Some t => [Closes t] | None => [] end.

Section Lines.
Context {T : Type} `{!EqDecision T}.
Implicit Types (p : TaggedLineParser T) (act : option T) (b l x o : str).

(** Every line, with its line break, is a tag or text; a block that is still open
    at the end is closed. *)
Fixpoint ref_parts (sp : list (TagSpec T)) (act : option T) (parts : list str)
    : list (atom T) :=
  match parts with
  | [] => close_atoms act
  | [l] =>
      if is_empty l then close_atoms act
      else let '(act', a) := line_ref sp act l in a ++ close_atoms act'
  | l :: ls => let '(act', a) := line_ref sp act (l ++ [nl]) in a ++ ref_parts sp act' ls
  end.

Definition ref_parse (sp : list (TagSpec T)) (text : str) : list (atom T) :=
  ref_parts sp None (split nl text).

(** The delimiters do not end in white space. *)
Definition specs_trimmed (sp : list (TagSpec T)) : bool :=
  all (λ s, (trim_end (ts_open s) == ts_open s) && (trim_end (ts_close s) == ts_close s)) sp.

Lemma trim_end_app_ws o k : Forall (λ c, is_whitespace c = true) k → trim_end (o ++ k) = trim_end o.
Proof.
  intros Hk. unfold trim_end. rewrite reverse_app. f_equal.
  apply Forall_reverse in Hk. induction Hk as [|c r Hc _ IH]; simpl; [done|]. by rewrite Hc.
Qed.

Lemma trim_start_app b l : trim_start b ≠ [] → trim_start (b ++ l) = trim_start b ++ l.
Proof.
  unfold trim_start. induction b as [|c b IH]; simpl; [done|]. by destruct (is_whitespace c).
Qed.

(** A text that trims to [o] starts with whatever its own prefixes trim to. *)
Lemma trim_end_prefix_of x l o :
  trim_end (x ++ l) = o → trim_end o = o → starts_with (trim_end x) o = true.
Proof.
  intros Hx Ho. destruct (trim_end_prefix (x ++ l)) as (k & Hk & Hws). rewrite Hx in Hk.
  apply starts_with_true. apply app_eq_inv in Hk as [(r & Hr & Hk)|(r & Hr & _)].
  - rewrite Hk in Hws. apply Forall_app in Hws as [Hws _]. rewrite Hr, trim_end_app_ws, Ho by done.
    exists []. by rewrite app_nil_r.
  - destruct (trim_end_prefix x) as (k' & Hk' & _). exists (k' ++ r).
    by rewrite app_assoc, <-Hk'.
Qed.

Section Specs.
Context (sp : list (TagSpec T)) (Htrim : specs_trimmed sp = true).

Definition line_state (act : option T) (detect : bool) (buf : str) : TaggedLineParser T :=
  {| tl_specs := sp; active_tag := act; detect_tag := detect; line_buffer := buf |}.

Lemma match_prefix x l :
  trim_start x = x → x ≠ [] → is_tag_prefix sp x = false →
  match_open sp (trim_end (x ++ l)) = None ∧ match_close sp (trim_end (x ++ l)) = None.
Proof.
  unfold match_open, match_close, is_tag_prefix, specs_trimmed in *.
  rewrite all_true in Htrim. rewrite any_false. intros _ _ Hp.
  split; apply fmap_None, find_None; intros s Hs; apply str_eqb_false; intros Heq;
    specialize (Hp s Hs); apply orb_false_iff in Hp as [Hp1 Hp2];
    specialize (Htrim s Hs); apply andb_true_iff in Htrim as [Ht1%str_eqb_true Ht2%str_eqb_true].
  - by rewrite (trim_end_prefix_of x l) in Hp1.
  - by rewrite (trim_end_prefix_of x l) in Hp2.
Qed.

Lemma trim_start_idemp x : trim_start (trim_start x) = trim_start x.
Proof.
  unfold trim_start. apply drop_while_id. intros c Hc.
  destruct (drop_while is_whitespace x) as [|d l] eqn:E; simplify_eq/=.
  by eapply drop_while_head.
Qed.

(** Once a line is ruled out, no continuation of it is a tag. *)
Lemma line_ref_ruled_out act b l :
  nl ∉ b ++ l → trim_start b ≠ [] → is_tag_prefix sp (trim_start b) = false →
  line_ref sp act (b ++ l) = (act, text_atoms act (b ++ l)) ∧
  line_ref sp act (b ++ l ++ [nl]) = (act, text_atoms act (b ++ l ++ [nl])).
Proof.
  intros Hnl Hne Hp. unfold line_ref.
  assert (Hs1 : line_slug (b ++ l) = trim_end (trim_start b ++ l)).
  { unfold line_slug. destruct (strip_suffix [nl] (b ++ l)) as [r|] eqn:Hs; simpl.
    - apply strip_suffix_Some in Hs. rewrite Hs in Hnl. set_solver.
    - by rewrite trim_start_app. }
  assert (Hs2 : line_slug (b ++ l ++ [nl]) = trim_end (trim_start b ++ l)).
  { unfold line_slug. rewrite app_assoc, strip_suffix_app. simpl. by rewrite trim_start_app. }
  rewrite Hs1, Hs2.
  destruct (match_prefix (trim_start b) l) as [-> ->]; [apply trim_start_idemp|done|done|]. done.
Qed.

Lemma next_text act l :
  nl ∉ l → next_all (line_state act false []) l = (line_state act false [], text_atoms act l).
Proof.
  induction l as [|c l IH]; intros Hl; simpl; [done|].
  assert ((c =? nl)%N = false) as Hc by (apply N.eqb_neq; set_solver).
  unfold next. simpl. rewrite Hc. change (set_line _ _ _ _) with (line_state act false []).
  by rewrite IH by set_solver.
Qed.

(** A buffered line either stays buffered to its end or is let go as text. *)
Lemma next_line act b l :
  nl ∉ b ++ l →
  next_all (line_state act true b) l = (line_state act true (b ++ l), []) ∨
  (next_all (line_state act true b) l = (line_state act false [], text_atoms act (b ++ l)) ∧
   b ++ l ≠ [] ∧
   line_ref sp act (b ++ l) = (act, text_atoms act (b ++ l)) ∧
   line_ref sp act (b ++ l ++ [nl]) = (act, text_atoms act (b ++ l ++ [nl]))).
Proof.
  revert b. induction l as [|c l IH]; intros b Hl; simpl.
  { left. by rewrite app_nil_r. }
  assert ((c =? nl)%N = false) as Hc by (apply N.eqb_neq; set_solver).
  unfold next. simpl. rewrite Hc.
  destruct (is_empty (trim_start (b ++ [c])) || is_tag_prefix sp (trim_start (b ++ [c]))) eqn:Hcand.
  - change (set_line _ _ _ _) with (line_state act true (b ++ [c])).
    replace (b ++ c :: l) with ((b ++ [c]) ++ l) in * by by rewrite <-app_assoc.
    replace (b ++ c :: l ++ [nl]) with ((b ++ [c]) ++ l ++ [nl]) by by rewrite <-app_assoc.
    destruct (IH _ Hl) as [->|(-> & ?)]; [by left|by right].
  - apply orb_false_iff in Hcand as [He%is_empty_false Hp]. right.
    change (set_line _ _ _ _) with (line_state act false []).
    rewrite next_text by set_solver. unfold text_atoms. rewrite <-fmap_app.
    replace (b ++ c :: l) with ((b ++ [c]) ++ l) in * by by rewrite <-app_assoc.
    replace (b ++ c :: l ++ [nl]) with ((b ++ [c]) ++ l ++ [nl]) by by rewrite <-app_assoc.
    split; [done|]. split; [by destruct b|]. by apply line_ref_ruled_out.
Qed.

Lemma next_full_line act l :
  nl ∉ l →
  next_all (line_state act true []) (l ++ [nl])
  = let '(act', a) := line_ref sp act (l ++ [nl]) in (line_state act' true [], a).
Proof.
  intros Hl. rewrite next_all_app.
  destruct (next_line act [] l Hl) as [->|(-> & _ & _ & Href)]; simpl; unfold next; simpl.
  - destruct (line_ref sp act (l ++ [nl])) as [act' a]. by rewrite app_nil_r.
  - simpl in Href. rewrite Href. simpl. unfold text_atoms. by rewrite fmap_app.
Qed.

Lemma finish_atoms act buf :
  atoms (tagged_finish (line_state act true buf)).2
  = if is_empty buf then close_atoms act
    else let '(act', a) := line_ref sp act buf in a ++ close_atoms act'.
Proof.
  unfold tagged_finish, line_ref. cbn [line_buffer line_state active_tag tl_specs].
  destruct (is_empty buf); [by destruct act|].
  destruct (match_open sp (line_slug buf)) as [t|], act as [u|];
    try (destruct (match_close sp (line_slug buf)) as [t'|]; [case_bool_decide|]);
    cbn [fst snd close_atoms];
    rewrite ?atoms_push_segment, ?atoms_push_text, ?app_nil_r; done.
Qed.

Lemma finish_text_atoms act :
  atoms (tagged_finish (line_state act false [])).2 = close_atoms act.
Proof. by destruct act. Qed.

Lemma parse_lines act (parts : list str) :
  parts ≠ [] → Forall (λ l, nl ∉ l) parts →
  let '(p, a) := next_all (line_state act true []) (join [nl] parts) in
  a ++ atoms (tagged_finish p).2 = ref_parts sp act parts.
Proof.
  revert act. induction parts as [|l parts IH]; intros act; [done|]. intros _ [Hl Hps]%Forall_cons.
  destruct parts as [|l' parts].
  - cbn [join ref_parts].
    destruct (next_line act [] l Hl) as [->|(-> & Hne & Href & _)]; cbn [app] in *.
    + by rewrite finish_atoms.
    + rewrite finish_text_atoms, Href. by destruct l.
  - change (join [nl] (l :: l' :: parts)) with (l ++ [nl] ++ join [nl] (l' :: parts)).
    rewrite app_assoc, next_all_app, next_full_line by done.
    cbn [ref_parts]. destruct (line_ref sp act (l ++ [nl])) as [act' a].
    specialize (IH act' ltac:(done) Hps).
    destruct (next_all (line_state act' true []) (join [nl] (l' :: parts))) as [p b].
    by rewrite <-app_assoc, IH.
Qed.
End Specs.

(** The streaming tag parser equals the line-by-line reading: although it
    releases a line as text as soon as the line can no longer be a tag, the
    characters, their roles and the tags it reports for a whole text are those of
    reading every complete line, for any delimiters without trailing blanks. *)
Theorem parse_is_line_based (sp : list (TagSpec T)) (text : str) :
  specs_trimmed sp = true →
  let r := parse (tagged_new sp) text in
  atoms (r.2 ++ (tagged_finish r.1).2) = ref_parse sp text.
Proof.
  intros Htrim r. unfold r. rewrite atoms_app.
  destruct (parse_next (tagged_new sp) text) as [-> ->].
  pose proof (parse_lines sp Htrim None (split nl text) (split_nonempty nl text)) as H.
  rewrite join_split in H. change (tagged_new sp) with (line_state sp None true []).
  destruct (next_all (line_state sp None true []) text) as [p a]. simpl.
  apply H, Forall_forall. intros l. apply split_no_sep.
Qed.
End Lines.

Lemma parse_is_line_based_witness :
  specs_trimmed plan_specs = true ∧
  ref_parse plan_specs (lit "x" ++ [nl] ++ lit "<proposed_plan>" ++ [nl] ++ lit "y")
  = [Char None 120; Char None 10; Opens ProposedPlan; Char (Some ProposedPlan) 121;
     Closes ProposedPlan]%N.
Proof.
  split; [vm_compute; reflexivity|].
  rewrite <-(parse_is_line_based plan_specs); [vm_compute; reflexivity|vm_compute; reflexivity].
Defined.

(** ** Plan segments up to merging *)

Definition plan_atoms (segs : list ProposedPlanSegment) : list (atom PlanTag) :=
  concat ((λ s, match s with
                | PlanNormal s => text_atoms None s
                | ProposedPlanStart => [Opens ProposedPlan]
                | ProposedPlanDelta s => text_atoms (Some ProposedPlan) s
                | ProposedPlanEnd => [Closes ProposedPlan]
                end) <$> segs).

(** The same characters in the same roles and the same tags. *)
Definition segs_equiv (l l' : list ProposedPlanSegment) : Prop := plan_atoms l = plan_atoms l'.

#[export] Instance segs_equiv_equivalence : Equivalence segs_equiv.
Proof. split; unfold segs_equiv; repeat intro; congruence. Qed.

Lemma plan_atoms_app l l' : plan_atoms (l ++ l') = plan_atoms l ++ plan_atoms l'.
Proof. unfold plan_atoms. by rewrite fmap_app, concat_app. Qed.

#[export] Instance segs_equiv_app : Proper (segs_equiv ==> segs_equiv ==> segs_equiv) (++).
Proof. intros l l' Hl k k' Hk. unfold segs_equiv in *. rewrite !plan_atoms_app. congruence. Qed.

Definition atoms_visible {T} (l : list (atom T)) : str := concat (atom_visible <$> l).

Lemma atoms_visible_app {T} (l l' : list (atom T)) :
  atoms_visible (l ++ l') = atoms_visible l ++ atoms_visible l'.
Proof. unfold atoms_visible. by rewrite fmap_app, concat_app. Qed.

Lemma visible_text_atoms {T} (act : option T) s :
  atoms_visible (text_atoms act s) = match act with None => s | Some _ => [] end.
Proof.
  unfold atoms_visible, text_atoms. induction s as [|c s IH]; [by destruct act|].
  rewrite !fmap_cons. simpl. rewrite IH. by destruct act.
Qed.

Lemma map_segments_fold segs out :
  visible_text (fold_left map_step segs out) = visible_text out ++ atoms_visible (atoms segs) ∧
  extracted (fold_left map_step segs out) = extracted out ++ (map_segment <$> segs).
Proof.
  revert out. induction segs as [|s segs IH]; intros out; [by rewrite !app_nil_r|].
  cbn [fold_left]. destruct (IH (map_step out s)) as [-> ->].
  change (s :: segs) with ([s] ++ segs).
  rewrite atoms_app, atoms_visible_app, atoms_single, fmap_app, !app_assoc. split; [|done].
  f_equal. destruct s as [s|[]|[] s|[]]; simpl; rewrite ?visible_text_atoms, ?app_nil_r; done.
Qed.

Lemma map_segments_visible segs : visible_text (map_segments segs) = atoms_visible (atoms segs).
Proof. apply (map_segments_fold segs empty_chunk). Qed.

Lemma map_segments_atoms segs : plan_atoms (extracted (map_segments segs)) = atoms segs.
Proof.
  unfold map_segments. rewrite (proj2 (map_segments_fold segs empty_chunk)). simpl.
  unfold plan_atoms, atoms. rewrite <-list_fmap_compose. f_equal.
  apply list_fmap_ext. intros i s _. by destruct s as [s|[]|[] s|[]].
Qed.

#[export] Instance plan_laws :
  ChunkLaws ProposedPlanParser ProposedPlanSegment (λ _, True) segs_equiv.
Proof.
  split; try apply _; simpl; [done|by intros []|].
  intros p a b _. destruct (parse (plan_parser p) a) as [p1 s1] eqn:H1. simpl.
  destruct (parse p1 b) as [p2 s2] eqn:H2, (parse (plan_parser p) (a ++ b)) as [p3 s3] eqn:H3.
  simpl. rewrite !map_segments_visible. unfold segs_equiv.
  rewrite plan_atoms_app, !map_segments_atoms.
  pose proof (parse_next (plan_parser p) a) as [E1 F1]. rewrite H1 in E1, F1.
  pose proof (parse_next p1 b) as [E2 F2]. rewrite H2 in E2, F2.
  pose proof (parse_next (plan_parser p) (a ++ b)) as [E3 F3]. rewrite H3 in E3, F3.
  simpl in *. rewrite next_all_app in E3, F3.
  destruct (next_all (plan_parser p) a) as [q x]. simpl in *. subst q.
  destruct (next_all p1 b) as [r y]. simpl in *. subst.
  split; [done|]. rewrite F3, <-atoms_visible_app. done.
Qed.

(** ** The assistant text *)

Definition assistant_app (c d : AssistantTextChunk) : AssistantTextChunk :=
  {| a_visible_text := a_visible_text c ++ a_visible_text d;
     a_citations := a_citations c ++ a_citations d;
     plan_segments := plan_segments c ++ plan_segments d |}.

(** A client that pushes the chunks and flushes, appending the results. *)
Fixpoint assistant_all (p : AssistantTextStreamParser) (chunks : list str) : AssistantTextChunk :=
  match chunks with
  | [] => (assistant_finish p).2
  | c :: chunks =>
      let '(p, out) := assistant_push_str p c in assistant_app out (assistant_all p chunks)
  end.

(** The same in two passes: all citations first, then the plan blocks of the
    text that is left. *)
Definition two_passes (p : AssistantTextStreamParser) (chunks : list str) : AssistantTextChunk :=
  let cited := stream_all (citations p) chunks in
  if plan_mode p then
    let planned := stream_all (plan p) [visible_text cited] in
    {| a_visible_text := visible_text planned; a_citations := extracted cited;
       plan_segments := extracted planned |}
  else {| a_visible_text := visible_text cited; a_citations := extracted cited;
          plan_segments := [] |}.

Definition assistant_equiv (c d : AssistantTextChunk) : Prop :=
  a_visible_text c = a_visible_text d ∧ a_citations c = a_citations d ∧
  segs_equiv (plan_segments c) (plan_segments d).

#[export] Instance assistant_equiv_equivalence : Equivalence assistant_equiv.
Proof.
  split; unfold assistant_equiv.
  - by intros c.
  - intros c d (-> & -> & H). by rewrite H.
  - intros c d e (-> & -> & H) (-> & -> & H'). by rewrite H.
Qed.

(** Pushing two texts to the plan parser and flushing, at once or one by one. *)
Lemma plan_stream_app (p : ProposedPlanParser) a b :
  visible_text (stream_all p [a ++ b])
  = visible_text (push_str p a).2 ++ visible_text (stream_all (push_str p a).1 [b]) ∧
  segs_equiv (extracted (stream_all p [a ++ b]))
    (extracted (push_str p a).2 ++ extracted (stream_all (push_str p a).1 [b])).
Proof.
  destruct (laws_push p a b I) as (Hs & Hv & He). unfold stream_all. cbn [push_all fst snd].
  rewrite Hs. cbn [visible_text extracted chunk_app]. rewrite Hv. cbn [empty_chunk visible_text extracted].
  rewrite !app_nil_r, <-!app_assoc. split; [done|]. by rewrite He, <-app_assoc.
Qed.

Lemma two_passes_nil p : assistant_equiv (assistant_all p []) (two_passes p []).
Proof.
  unfold two_passes, stream_all. cbn [assistant_all push_all fst snd].
  unfold assistant_finish. destruct (finish (citations p)) as [cs cc]. cbn [snd].
  unfold parse_visible_text. cbn [plan_mode]. destruct (plan_mode p) eqn:Hm; [|done]. cbn [negb].
  replace (chunk_app empty_chunk cc) with cc by (by destruct cc). cbn [plan].
  destruct (push_str (plan p) (visible_text cc)) as [pl pc]. cbn [fst snd plan_mode plan].
  destruct (finish pl) as [pl' tail]. cbn [snd].
  unfold assistant_equiv, with_citations, chunk_is_empty.
  destruct tail as [[|v vs] [|e es]]; simpl; rewrite ?app_nil_r; done.
Qed.

Lemma assistant_two_passes p chunks :
  assistant_equiv (assistant_all p chunks) (two_passes p chunks).
Proof.
  revert p. induction chunks as [|c chunks IH]; intros p; [apply two_passes_nil|].
  cbn [assistant_all]. unfold assistant_push_str.
  destruct (push_str (citations p) c) as [cs cc] eqn:Hc. unfold parse_visible_text. cbn [plan_mode].
  assert (Hcited : stream_all (citations p) (c :: chunks)
                   = chunk_app cc (stream_all cs chunks)).
  { unfold stream_all. cbn [push_all]. rewrite Hc. cbn [fst snd]. unfold chunk_app; simpl.
    by rewrite !app_assoc. }
  unfold two_passes. rewrite Hcited. destruct (plan_mode p) eqn:Hm; cbn [negb].
  - cbn [plan]. destruct (plan_stream_app (plan p) (visible_text cc)
                            (visible_text (stream_all cs chunks))) as [Hv He].
    destruct (push_str (plan p) (visible_text cc)) as [pl pc]. cbn [fst snd] in *.
    specialize (IH {| plan_mode := true; citations := cs; plan := pl |}).
    destruct IH as (H1 & H2 & H3). unfold two_passes in *. cbn [plan_mode citations plan] in *.
    unfold assistant_equiv, assistant_app, with_citations. cbn [visible_text extracted chunk_app
      a_visible_text a_citations plan_segments] in *.
    rewrite Hv, H1, H2. split; [done|]. split; [done|]. by rewrite He, H3.
  - specialize (IH {| plan_mode := false; citations := cs; plan := plan p |}).
    destruct IH as (H1 & H2 & H3). unfold two_passes in *. cbn [plan_mode citations plan] in *.
    unfold assistant_equiv, assistant_app, with_citations. cbn [visible_text extracted chunk_app
      a_visible_text a_citations plan_segments] in *. by rewrite H1, H2.
Qed.

(** The plan text is a function of the atoms. *)
Definition extract_atom (st : str * bool) (a : atom PlanTag) : str * bool :=
  match a with
  | Opens _ => ([], true)
  | Char (Some _) c => (st.1 ++ [c], st.2)
  | Char None _ | Closes _ => st
  end.

Lemma extract_text role s st :
  fold_left extract_atom (text_atoms role s) st
  = match role with Some _ => (st.1 ++ s, st.2) | None => st end.
Proof.
  revert st. induction s as [|c s IH]; intros st; simpl.
  - destruct role, st; simpl; by rewrite ?app_nil_r.
  - destruct role; simpl in *; rewrite IH; simpl; by rewrite <-?app_assoc.
Qed.

Lemma plan_of_atoms segs st :
  fold_left extract_step segs st = fold_left extract_atom (plan_atoms segs) st.
Proof.
  revert st. induction segs as [|s segs IH]; intros st; [done|].
  change (s :: segs) with ([s] ++ segs) at 2. rewrite plan_atoms_app, fold_left_app.
  cbn [fold_left]. rewrite IH. f_equal. unfold plan_atoms. simpl. rewrite app_nil_r.
  destruct s; simpl; rewrite ?extract_text; done.
Qed.

#[export] Instance plan_of_proper : Proper (segs_equiv ==> eq) plan_of.
Proof. intros l l' H. unfold plan_of. by rewrite !plan_of_atoms, H. Qed.

(** C34: The assistant stream in one pass over arbitrary chunks gives what the
    batch functions give on the whole text: the citations of [strip_citations];
    as visible text what it leaves, less the plan blocks in plan mode; and plan
    segments that carry the plan text of [extract_proposed_plan_text]. *)
Theorem assistant_stream_is_batch (plan_mode : bool) (chunks : list str) :
  let out := assistant_all (assistant_new plan_mode) chunks in
  let '(text, cites) := strip_citations (concat chunks) in
  a_citations out = cites ∧
  (if plan_mode then
     a_visible_text out = strip_proposed_plan_blocks text ∧
     plan_of (plan_segments out) = extract_proposed_plan_text text
   else a_visible_text out = text ∧ plan_segments out = []).
Proof.
  destruct (assistant_two_passes (assistant_new plan_mode) chunks) as (Hv & Hc & Hp).
  destruct (stream_all_concat citation_idle eq citation_new chunks citation_new_idle) as [Hcv Hce].
  unfold two_passes in *. cbn [assistant_new citations StreamPlan.plan_mode plan] in *.
  assert (Hstrip : strip_citations (concat chunks)
    = (visible_text (stream_all citation_new chunks), extracted (stream_all citation_new chunks))).
  { rewrite Hcv, Hce. unfold strip_citations, stream_all. cbn [push_all].
    destruct (push_str citation_new (concat chunks)) as [p o]. cbn [fst snd].
    destruct (finish p) as [q t]. simpl. by rewrite !app_nil_r. }
  rewrite Hstrip. set (v := visible_text (stream_all citation_new chunks)) in *.
  destruct plan_mode.
  - split; [by rewrite Hc|]. rewrite Hv, Hp. unfold strip_proposed_plan_blocks,
      extract_proposed_plan_text, stream_all. cbn [push_all].
    destruct (push_str plan_new v) as [p o]. cbn [fst snd]. simpl. by rewrite !app_nil_r.
  - split; [by rewrite Hc|]. split; [by rewrite Hv|].
    clear. revert chunks. cut (∀ p chunks, StreamPlan.plan_mode p = false →
      plan_segments (assistant_all p chunks) = []); [intros H chunks; by apply H|].
    intros p chunks. revert p. induction chunks as [|c chunks IH]; intros p Hp; simpl.
    + unfold assistant_finish. destruct (finish (citations p)) as [cs cc].
      unfold parse_visible_text. simpl. by rewrite Hp.
    + unfold assistant_push_str. destruct (push_str (citations p) c) as [cs cc].
      unfold parse_visible_text. simpl. rewrite Hp. simpl. by apply IH.
Qed.
