(* ===== verification/Utf8Stream.v ===== *)
(** * Bytes to text across chunk boundaries

    [utils/stream-parser/src/utf8_stream.rs]: a wrapper that accepts raw bytes,
    buffers a partial code point between chunks and hands complete text to an
    inner [StreamTextParser].  [decode] is [std::str::from_utf8] with the offsets
    and error lengths of [Utf8Error]; [encode] is UTF-8.  The inner parser is any
    parser that satisfies the interface [ChunkLaws]. *)

From S2P Require Import Prelude RustStr StreamText.

Local Open Scope N_scope.

(** ** [std::str::from_utf8] *)

(** How the validation ends: at the end of the input, inside a code point that
    could still be completed, or at an invalid sequence of the given length. *)
Inductive status := Complete | NeedMore | Bad (error_len : N).

Definition is_cont (b : N) : bool := in_range 128 191 b.

Definition cp2 (b0 b1 : N) : char := (b0 - 192) * 64 + (b1 - 128).
Definition cp3 (b0 b1 b2 : N) : char := (b0 - 224) * 4096 + (b1 - 128) * 64 + (b2 - 128).
Definition cp4 (b0 b1 b2 b3 : N) : char :=
  (b0 - 240) * 262144 + (b1 - 128) * 4096 + (b2 - 128) * 64 + (b3 - 128).

(** The second bytes allowed after a lead byte of a three- or four-byte sequence
    (no overlong forms, no surrogates, nothing above U+10FFFF). *)
Definition second3 (b0 b1 : N) : bool :=
  if b0 =? 224 then in_range 160 191 b1
  else if b0 =? 237 then in_range 128 159 b1
  else is_cont b1.
Definition second4 (b0 b1 : N) : bool :=
  if b0 =? 240 then in_range 144 191 b1
  else if b0 =? 244 then in_range 128 143 b1
  else is_cont b1.

Definition cons_char (c : char) (r : str * list N * status) : str * list N * status :=
  let '(t, rest, st) := r in (c :: t, rest, st).

(** The text decoded, the bytes that were not, and why it stopped there. *)
Fixpoint decode (bs : list N) : str * list N * status :=
  match bs with
  | [] => ([], [], Complete)
  | b0 :: r0 =>
      if b0 <? 128 then cons_char b0 (decode r0)
      else if in_range 194 223 b0 then
        match r0 with
        | [] => ([], bs, NeedMore)
        | b1 :: r1 => if is_cont b1 then cons_char (cp2 b0 b1) (decode r1) else ([], bs, Bad 1)
        end
      else if in_range 224 239 b0 then
        match r0 with
        | [] => ([], bs, NeedMore)
        | b1 :: r1 =>
            if negb (second3 b0 b1) then ([], bs, Bad 1) else
            match r1 with
            | [] => ([], bs, NeedMore)
            | b2 :: r2 =>
                if negb (is_cont b2) then ([], bs, Bad 2)
                else cons_char (cp3 b0 b1 b2) (decode r2)
            end
        end
      else if in_range 240 244 b0 then
        match r0 with
        | [] => ([], bs, NeedMore)
        | b1 :: r1 =>
            if negb (second4 b0 b1) then ([], bs, Bad 1) else
            match r1 with
            | [] => ([], bs, NeedMore)
            | b2 :: r2 =>
                if negb (is_cont b2) then ([], bs, Bad 2) else
                match r2 with
                | [] => ([], bs, NeedMore)
                | b3 :: r3 =>
                    if negb (is_cont b3) then ([], bs, Bad 3)
                    else cons_char (cp4 b0 b1 b2 b3) (decode r3)
                end
            end
        end
      else ([], bs, Bad 1)
  end.

Record Utf8Error := { utf8_valid_up_to : nat; utf8_error_len : option N }.

Definition from_utf8 (bs : list N) : result Utf8Error str :=
  match decode bs with
  | (t, _, Complete) => Ok t
  | (_, rest, NeedMore) =>
      Err {| utf8_valid_up_to := length bs - length rest; utf8_error_len := None |}
  | (_, rest, Bad n) =>
      Err {| utf8_valid_up_to := length bs - length rest; utf8_error_len := Some n |}
  end.

(** ** [Utf8StreamParser] *)

Inductive Utf8StreamParserError :=
| InvalidUtf8 (valid_up_to : nat) (error_len : N)
| IncompleteUtf8AtEof.

Record Utf8StreamParser (P : Type) := { inner : P; pending_utf8 : list N }.
Arguments Build_Utf8StreamParser {P} _ _.
Arguments inner {P} _.
Arguments pending_utf8 {P} _.

Definition utf8_error_display (e : Utf8StreamParserError) : str :=
  match e with
  | InvalidUtf8 valid_up_to error_len =>
      lit "invalid UTF-8 in streamed bytes at offset " ++ fmt_nat valid_up_to
      ++ lit " (error length " ++ fmt_nat (N.to_nat error_len) ++ lit ")"
  | IncompleteUtf8AtEof => lit "incomplete UTF-8 code point at end of stream"
  end.

Section Utf8Stream.
Context {P T : Type} `{!StreamTextParser P T}.

Definition utf8_new (p : P) : Utf8StreamParser P := {| inner := p; pending_utf8 := [] |}.

Definition push_bytes (chunk : list N)
    : st_err (Utf8StreamParser P) Utf8StreamParserError (StreamTextChunk T) := λ u,
  let old_len := length (pending_utf8 u) in
  let buf := pending_utf8 u ++ chunk in
  match from_utf8 buf with
  | Ok text =>
      let '(p, out) := push_str (inner u) text in
      ({| inner := p; pending_utf8 := [] |}, Ok out)
  | Err err =>
      match utf8_error_len err with
      | Some error_len =>
          ({| inner := inner u; pending_utf8 := take old_len buf |},
           Err (InvalidUtf8 (utf8_valid_up_to err) error_len))
      | None =>
          let valid_up_to := utf8_valid_up_to err in
          if Nat.eqb valid_up_to 0 then
            ({| inner := inner u; pending_utf8 := buf |}, Ok empty_chunk)
          else
            match from_utf8 (take valid_up_to buf) with
            | Ok text =>
                let '(p, out) := push_str (inner u) text in
                ({| inner := p; pending_utf8 := drop valid_up_to buf |}, Ok out)
            | Err prefix_err =>
                ({| inner := inner u; pending_utf8 := take old_len buf |},
                 Err (InvalidUtf8 (utf8_valid_up_to prefix_err)
                        (default 0 (utf8_error_len prefix_err))))
            end
      end
  end.

(** The check [finish] and [into_inner] make of the buffered bytes. *)
Definition check_pending (bs : list N) : result Utf8StreamParserError unit :=
  match bs with
  | [] => Ok ()
  | _ =>
      match from_utf8 bs with
      | Ok _ => Ok ()
      | Err err =>
          match utf8_error_len err with
          | Some error_len => Err (InvalidUtf8 (utf8_valid_up_to err) error_len)
          | None => Err IncompleteUtf8AtEof
          end
      end
  end.

Definition utf8_finish
    : st_err (Utf8StreamParser P) Utf8StreamParserError (StreamTextChunk T) := λ u,
  match check_pending (pending_utf8 u) with
  | Err e => (u, Err e)
  | Ok _ =>
      let flushed :=
        match pending_utf8 u with
        | [] => Ok (inner u, pending_utf8 u, empty_chunk)
        | bs =>
            match from_utf8 bs with
            | Ok text =>
                let '(p, out) := push_str (inner u) text in Ok (p, [], out)
            | Err err =>
                Err (InvalidUtf8 (utf8_valid_up_to err) (default 0 (utf8_error_len err)))
            end
        end in
      match flushed with
      | Err e => (u, Err e)
      | Ok (p, bs, out) =>
          let '(p, tail) := finish p in
          ({| inner := p; pending_utf8 := bs |},
           Ok {| visible_text := visible_text out ++ visible_text tail;
                 extracted := extracted out ++ extracted tail |})
      end
  end.

Definition into_inner (u : Utf8StreamParser P) : result Utf8StreamParserError P :=
  _ ← check_pending (pending_utf8 u); Ok (inner u).

Definition into_inner_lossy (u : Utf8StreamParser P) : P := inner u.
End Utf8Stream.

(** ** UTF-8 *)

Definition encode_char (c : char) : list N :=
  if c <? 128 then [c]
  else if c <? 2048 then [192 + c / 64; 128 + c mod 64]
  else if c <? 65536 then [224 + c / 4096; 128 + c / 64 mod 64; 128 + c mod 64]
  else [240 + c / 262144; 128 + c / 4096 mod 64; 128 + c / 64 mod 64; 128 + c mod 64].

Definition encode (s : str) : list N := s ≫= encode_char.

(** A Unicode scalar value. *)
Definition is_scalar (c : char) : bool := (c <? 55296) || in_range 57344 1114111 c.

(** ** Decoding step by step *)

(** The beginning of a byte sequence: nothing, a code point, an error that more
    input does not cure, or an incomplete code point. *)
Inductive decode_head (bs : list N) : Prop :=
| head_nil : bs = [] → decode_head bs
| head_char c pre r :
    bs = pre ++ r → pre ≠ [] → (∀ r', decode (pre ++ r') = cons_char c (decode r')) →
    decode_head bs
| head_bad n : (∀ b, decode (bs ++ b) = ([], bs ++ b, Bad n)) → decode_head bs
| head_more : bs ≠ [] → decode bs = ([], bs, NeedMore) → decode_head bs.

Lemma decode_head_total bs : decode_head bs.
Proof.
  destruct bs as [|b0 r0]; [by apply head_nil|].
  destruct (b0 <? 128) eqn:H1.
  { eapply (head_char _ b0 [b0]); [done|done|]. intros r'. simpl. by rewrite H1. }
  destruct (in_range 194 223 b0) eqn:H2.
  { destruct r0 as [|b1 r1]; [apply head_more; [done|]; simpl; by rewrite H1, H2|].
    destruct (is_cont b1) eqn:H3.
    - eapply (head_char _ (cp2 b0 b1) [b0; b1]); [done|done|]. intros r'. simpl. by rewrite H1, H2, H3.
    - apply (head_bad _ 1). intros b. simpl. by rewrite H1, H2, H3. }
  destruct (in_range 224 239 b0) eqn:H3.
  { destruct r0 as [|b1 r1]; [apply head_more; [done|]; simpl; by rewrite H1, H2, H3|].
    destruct (second3 b0 b1) eqn:H4;
      [|apply (head_bad _ 1); intros b; simpl; by rewrite H1, H2, H3, H4].
    destruct r1 as [|b2 r2]; [apply head_more; [done|]; simpl; by rewrite H1, H2, H3, H4|].
    destruct (is_cont b2) eqn:H5.
    - eapply (head_char _ (cp3 b0 b1 b2) [b0; b1; b2]); [done|done|].
      intros r'. simpl. by rewrite H1, H2, H3, H4, H5.
    - apply (head_bad _ 2). intros b. simpl. by rewrite H1, H2, H3, H4, H5. }
  destruct (in_range 240 244 b0) eqn:H4;
    [|apply (head_bad _ 1); intros b; simpl; by rewrite H1, H2, H3, H4].
  destruct r0 as [|b1 r1]; [apply head_more; [done|]; simpl; by rewrite H1, H2, H3, H4|].
  destruct (second4 b0 b1) eqn:H5;
    [|apply (head_bad _ 1); intros b; simpl; by rewrite H1, H2, H3, H4, H5].
  destruct r1 as [|b2 r2]; [apply head_more; [done|]; simpl; by rewrite H1, H2, H3, H4, H5|].
  destruct (is_cont b2) eqn:H6;
    [|apply (head_bad _ 2); intros b; simpl; by rewrite H1, H2, H3, H4, H5, H6].
  destruct r2 as [|b3 r3]; [apply head_more; [done|]; simpl; by rewrite H1, H2, H3, H4, H5, H6|].
  destruct (is_cont b3) eqn:H7.
  - eapply (head_char _ (cp4 b0 b1 b2 b3) [b0; b1; b2; b3]); [done|done|].
    intros r'. simpl. by rewrite H1, H2, H3, H4, H5, H6, H7.
  - apply (head_bad _ 3). intros b. simpl. by rewrite H1, H2, H3, H4, H5, H6, H7.
Qed.

(** Induction along the decoding. *)
Lemma decode_ind (Q : list N → Prop) :
  Q [] →
  (∀ c pre r, pre ≠ [] → (∀ r', decode (pre ++ r') = cons_char c (decode r')) → Q r → Q (pre ++ r)) →
  (∀ bs n, (∀ b, decode (bs ++ b) = ([], bs ++ b, Bad n)) → Q bs) →
  (∀ bs, bs ≠ [] → decode bs = ([], bs, NeedMore) → Q bs) →
  ∀ bs, Q bs.
Proof.
  intros Hnil Hchar Hbad Hmore bs. remember (length bs) as k eqn:Hk.
  revert bs Hk. induction k as [k IH] using lt_wf_ind. intros bs ->.
  destruct (decode_head_total bs) as [->|c pre r -> Hne Hc|n Hn|Hne Hm]; eauto.
  apply (Hchar c); [done|done|]. eapply IH; [|done]. rewrite length_app.
  destruct pre; [done|]. simpl. lia.
Qed.

Lemma decode_bad bs n :
  (∀ b, decode (bs ++ b) = ([], bs ++ b, Bad n)) → decode bs = ([], bs, Bad n).
Proof. intros H. specialize (H []). by rewrite app_nil_r in H. Qed.

(** More input continues where the decoding stopped, unless it stopped at an
    error. *)
Lemma decode_app a b :
  let '(t, rest, st) := decode a in
  decode (a ++ b) =
    match st with
    | Bad n => (t, rest ++ b, Bad n)
    | _ => let '(t2, r2, s2) := decode (rest ++ b) in (t ++ t2, r2, s2)
    end.
Proof.
  induction a as [|c pre r _ Hc IH|bs n Hn|bs _ Hm] using decode_ind; simpl.
  - by destruct (decode b) as [[t r] s].
  - rewrite Hc, <-app_assoc, Hc. destruct (decode r) as [[t rest] st]. simpl.
    destruct st; rewrite IH; try done; by destruct (decode (rest ++ b)) as [[t2 r2] s2].
  - rewrite (decode_bad _ _ Hn). apply Hn.
  - rewrite Hm. by destruct (decode (bs ++ b)) as [[t2 r2] s2].
Qed.

(** The decoded part is itself complete, and empty only if no text came out. *)
Lemma decode_split bs :
  let '(t, rest, st) := decode bs in
  ∃ pre, bs = pre ++ rest ∧ decode pre = (t, [], Complete) ∧ (t = [] ↔ pre = []) ∧
    (st = Complete → rest = []).
Proof.
  induction bs as [|c pre r Hne Hc IH|bs n Hn|bs Hne Hm] using decode_ind; simpl.
  - by exists [].
  - rewrite Hc. destruct (decode r) as [[t rest] st]. simpl.
    destruct IH as (pre' & -> & Hd & _ & Hst). exists (pre ++ pre').
    rewrite <-app_assoc. split; [done|]. split; [by rewrite Hc, Hd|].
    split; [|done]. split; [done|]. intros [? _]%app_nil. done.
  - rewrite (decode_bad _ _ Hn). by exists [].
  - rewrite Hm. by exists [].
Qed.

(** What was left over decodes to nothing. *)
Lemma decode_rest bs :
  let '(_, rest, st) := decode bs in
  st = NeedMore → rest ≠ [] ∧ decode rest = ([], rest, NeedMore).
Proof.
  induction bs as [|c pre r Hne Hc IH|bs n Hn|bs Hne Hm] using decode_ind; simpl; [done| | |].
  - rewrite Hc. by destruct (decode r) as [[t rest] st].
  - by rewrite (decode_bad _ _ Hn).
  - by rewrite Hm.
Qed.

Lemma from_utf8_Ok bs s : from_utf8 bs = Ok s ↔ decode bs = (s, [], Complete).
Proof.
  unfold from_utf8. pose proof (decode_split bs) as H.
  destruct (decode bs) as [[t rest] []]; [|naive_solver..].
  destruct H as (_ & _ & _ & _ & Hr). rewrite (Hr eq_refl). naive_solver.
Qed.

(** ** One chunk of bytes *)

Section Stream.
Context {P T : Type} `{!StreamTextParser P T}.
Implicit Types u : Utf8StreamParser P.

(** What the buffer may hold between chunks. *)
Definition buffered (bs : list N) : Prop := bs = [] ∨ decode bs = ([], bs, NeedMore).

(** [push_bytes] by the way the decoding of the buffer ends. *)
Lemma push_bytes_eq u chunk :
  let '(t, rest, st) := decode (pending_utf8 u ++ chunk) in
  push_bytes chunk u =
    match st with
    | Bad n => (u, Err (InvalidUtf8 (length (pending_utf8 u ++ chunk) - length rest) n))
    | _ =>
        if is_empty t && negb (is_empty rest) then
          ({| inner := inner u; pending_utf8 := rest |}, Ok empty_chunk)
        else
          let '(p, out) := push_str (inner u) t in
          ({| inner := p; pending_utf8 := rest |}, Ok out)
    end.
Proof.
  pose proof (decode_split (pending_utf8 u ++ chunk)) as Hs.
  pose proof (decode_rest (pending_utf8 u ++ chunk)) as Hr.
  unfold push_bytes, from_utf8 at 1.
  destruct (decode (pending_utf8 u ++ chunk)) as [[t rest] st] eqn:Hd.
  destruct Hs as (pre & Hb & Hpre & Hnil & Hst). destruct st; simpl.
  - rewrite (Hst eq_refl), andb_false_r. done.
  - destruct (Hr eq_refl) as [Hne _].
    assert (Hlen : (length (pending_utf8 u ++ chunk) - length rest)%nat = length pre)
      by (rewrite Hb, length_app; lia).
    rewrite Hlen. destruct t as [|c t]; simpl.
    + rewrite (proj1 Hnil eq_refl) in *. simpl in *. rewrite Hb. by destruct rest.
    + destruct pre as [|x pre]; [by discriminate (proj2 Hnil eq_refl)|].
      cbn [length Nat.eqb]. change (S (length pre)) with (length (x :: pre)).
      rewrite Hb, take_app_length, drop_app_length.
      by rewrite (proj2 (from_utf8_Ok _ _) Hpre).
  - rewrite take_app_length. by destruct u.
Qed.

Fixpoint push_bytes_all (chunks : list (list N))
    : st_err (Utf8StreamParser P) Utf8StreamParserError (StreamTextChunk T) :=
  match chunks with
  | [] => mret empty_chunk
  | c :: chunks =>
      out ← push_bytes c; rest ← push_bytes_all chunks; mret (chunk_app out rest)
  end.

(** The whole byte stream, flushed. *)
Definition bytes_all (chunks : list (list N))
    : st_err (Utf8StreamParser P) Utf8StreamParserError (StreamTextChunk T) :=
  out ← push_bytes_all chunks; tail ← utf8_finish; mret (chunk_app out tail).

Context (idle : P → Prop) (eqv : relation (list T)) `{!ChunkLaws P T idle eqv}.

(** One chunk that is not invalid hands its complete text to the inner parser. *)
Lemma push_bytes_ok u chunk t rest st :
  idle (inner u) → decode (pending_utf8 u ++ chunk) = (t, rest, st) →
  st = Complete ∨ st = NeedMore →
  push_bytes chunk u
  = ({| inner := (push_str (inner u) t).1; pending_utf8 := rest |},
     Ok (push_str (inner u) t).2).
Proof.
  intros Hi Hd Hst. pose proof (push_bytes_eq u chunk) as H. rewrite Hd in H. rewrite H.
  destruct st; [| |by destruct Hst].
  all: destruct (is_empty t && negb (is_empty rest)) eqn:He;
    [apply andb_true_iff in He as [->%is_empty_true _]; by rewrite (laws_nil _ Hi)
    |by destruct (push_str (inner u) t)].
Qed.

Lemma push_bytes_all_ok chunks u s :
  idle (inner u) → buffered (pending_utf8 u) →
  decode (pending_utf8 u ++ concat chunks) = (s, [], Complete) →
  ∃ out, push_bytes_all chunks u
         = ({| inner := (push_str (inner u) s).1; pending_utf8 := [] |}, Ok out) ∧
    visible_text out = visible_text (push_str (inner u) s).2 ∧
    eqv (extracted out) (extracted (push_str (inner u) s).2).
Proof.
  revert u s. induction chunks as [|c chunks IH]; intros u s Hi Hbuf Hd.
  - simpl in Hd. rewrite app_nil_r in Hd. destruct u as [p bs]. simpl in *.
    destruct Hbuf as [->|Hbuf]; [|by rewrite Hbuf in Hd]. simplify_eq/=.
    exists empty_chunk. by rewrite (laws_nil p Hi).
  - simpl in Hd. rewrite app_assoc in Hd.
    pose proof (decode_app (pending_utf8 u ++ c) (concat chunks)) as Happ.
    pose proof (decode_split (pending_utf8 u ++ c)) as Hsplit.
    pose proof (decode_rest (pending_utf8 u ++ c)) as Hrest.
    destruct (decode (pending_utf8 u ++ c)) as [[t rest] st] eqn:Hc.
    rewrite Hd in Happ. assert (Hst : st = Complete ∨ st = NeedMore) by (destruct st; naive_solver).
    assert (Hbuf' : buffered rest).
    { destruct Hsplit as (_ & _ & _ & _ & Hcomp), Hst as [-> | ->]; [left; by apply Hcomp|right].
      by apply Hrest. }
    destruct (decode (rest ++ concat chunks)) as [[t2 r2] s2] eqn:Hr.
    assert (s = t ++ t2 ∧ r2 = [] ∧ s2 = Complete) as (-> & -> & ->)
      by (destruct Hst as [-> | ->]; simplify_eq; done).
    pose proof (push_bytes_ok u c t rest st Hi Hc Hst) as Hpush.
    destruct (IH {| inner := (push_str (inner u) t).1; pending_utf8 := rest |} t2)
      as (out & Hall & Hv & He); [by apply laws_idle|done|done|]. simpl in *.
    destruct (laws_push (inner u) t t2 Hi) as (Hp & Hv' & He').
    exists (chunk_app (push_str (inner u) t).2 out). split; [|split].
    + rewrite (st_bind_step _ _ _ _ _ Hpush), (st_bind_step _ _ _ _ _ Hall).
      unfold mret, st_err_ret. by rewrite Hp.
    + simpl. by rewrite Hv, Hv'.
    + simpl. by rewrite He, He'.
Qed.

(** Cutting the bytes anywhere, inside a code point too, changes nothing: if
    the concatenation of the chunks is valid UTF-8 for [s], no push and no flush
    fails, and the output is that of giving [s] to the inner parser at once. *)
Theorem utf8_stream_exact (p : P) (chunks : list (list N)) (s : str) :
  idle p → from_utf8 (concat chunks) = Ok s →
  ∃ u out, bytes_all chunks (utf8_new p) = (u, Ok out) ∧ pending_utf8 u = [] ∧
    visible_text out = visible_text (stream_all p [s]) ∧
    eqv (extracted out) (extracted (stream_all p [s])).
Proof.
  intros Hi Hs%from_utf8_Ok.
  destruct (push_bytes_all_ok chunks (utf8_new p) s Hi (or_introl eq_refl) Hs)
    as (out & Hall & Hv & He). unfold bytes_all. rewrite (st_bind_step _ _ _ _ _ Hall).
  unfold stream_all. simpl in *. unfold utf8_finish. simpl.
  destruct (push_str p s) as [q o]. simpl in *. unfold mbind, st_err_bind. simpl.
  destruct (finish q) as [q' tail]. eexists _, _. split; [reflexivity|]. simpl.
  rewrite !app_nil_r, Hv. split; [done|]. split; [done|]. by rewrite He.
Qed.

(** An invalid chunk is refused as a whole: [push_bytes] fails exactly when
    the buffered bytes with the chunk contain an ill-formed sequence, reports its
    offset and length, and leaves the buffer and the inner parser untouched. *)
Theorem push_bytes_error_exact (u : Utf8StreamParser P) (chunk : list N) u' e :
  push_bytes chunk u = (u', Err e) ↔
    u' = u ∧ ∃ t rest n, decode (pending_utf8 u ++ chunk) = (t, rest, Bad n) ∧
      e = InvalidUtf8 (length (pending_utf8 u ++ chunk) - length rest) n.
Proof.
  pose proof (push_bytes_eq u chunk) as H.
  destruct (decode (pending_utf8 u ++ chunk)) as [[t rest] st]. rewrite H. split.
  - destruct st; [..|naive_solver]; case_match; try done; by destruct (push_str (inner u) t).
  - intros (-> & t' & rest' & n & [= <- <- ->] & ->). done.
Qed.
End Stream.

(** ** Encoding and decoding *)

Lemma in_range_true lo hi c : in_range lo hi c = true ↔ lo <= c ∧ c <= hi.
Proof. unfold in_range. rewrite andb_true_iff, !N.leb_le. done. Qed.
Lemma in_range_false lo hi c : in_range lo hi c = false ↔ c < lo ∨ hi < c.
Proof. unfold in_range. rewrite andb_false_iff, !N.leb_gt. done. Qed.

(** Quotients and remainders by a constant, for [lia]. *)
Ltac euclid c d :=
  pose proof (N.div_mod c d ltac:(done)); pose proof (N.mod_lt c d ltac:(done)).

Lemma decode_encode_char c r :
  is_scalar c = true → decode (encode_char c ++ r) = cons_char c (decode r).
Proof.
  intros Hc. unfold encode_char.
  assert (Hmax : c <= 1114111 ∧ (c < 55296 ∨ 57344 <= c)).
  { unfold is_scalar in Hc. apply orb_true_iff in Hc as [H%N.ltb_lt|[]%in_range_true]; lia. }
  destruct (N.ltb_spec c 128) as [H1|H1].
  { simpl. by rewrite (proj2 (N.ltb_lt _ _) H1). }
  destruct (N.ltb_spec c 2048) as [H2|H2].
  { euclid c 64. set (q := c / 64) in *. set (m := c mod 64) in *. simpl.
    rewrite (proj2 (N.ltb_ge (192 + q) 128)) by lia.
    rewrite (proj2 (in_range_true 194 223 (192 + q))) by lia. unfold is_cont.
    rewrite (proj2 (in_range_true 128 191 (128 + m))) by lia.
    f_equal. unfold cp2. lia. }
  destruct (N.ltb_spec c 65536) as [H3|H3].
  { euclid c 64. euclid (c / 64) 64. rewrite (N.Div0.div_div c 64 64) in *.
    change (64 * 64) with 4096 in *. set (q := c / 4096) in *.
    set (m1 := c / 64 mod 64) in *. set (m0 := c mod 64) in *. simpl.
    rewrite (proj2 (N.ltb_ge (224 + q) 128)) by lia.
    rewrite (proj2 (in_range_false 194 223 (224 + q))) by lia.
    rewrite (proj2 (in_range_true 224 239 (224 + q))) by lia. unfold second3, is_cont.
    rewrite (proj2 (in_range_true 128 191 (128 + m0))) by lia.
    assert (Hs : (if 224 + q =? 224 then in_range 160 191 (128 + m1)
            else if 224 + q =? 237 then in_range 128 159 (128 + m1)
            else in_range 128 191 (128 + m1)) = true).
    { destruct (N.eqb_spec (224 + q) 224), (N.eqb_spec (224 + q) 237); apply in_range_true; lia. }
    rewrite Hs. simpl. f_equal. unfold cp3. lia. }
  euclid c 64. euclid (c / 64) 64. euclid (c / 64 / 64) 64.
  rewrite !N.Div0.div_div in *. change (64 * 64) with 4096 in *.
  change (64 * 4096) with 262144 in *. change (4096 * 64) with 262144 in *.
  set (q := c / 262144) in *. set (m2 := c / 4096 mod 64) in *.
  set (m1 := c / 64 mod 64) in *. set (m0 := c mod 64) in *. simpl.
  rewrite (proj2 (N.ltb_ge (240 + q) 128)) by lia.
  rewrite (proj2 (in_range_false 194 223 (240 + q))) by lia.
  rewrite (proj2 (in_range_false 224 239 (240 + q))) by lia.
  rewrite (proj2 (in_range_true 240 244 (240 + q))) by lia. unfold second4, is_cont.
  rewrite (proj2 (in_range_true 128 191 (128 + m0))) by lia.
  rewrite (proj2 (in_range_true 128 191 (128 + m1))) by lia.
  assert (Hs : (if 240 + q =? 240 then in_range 144 191 (128 + m2)
          else if 240 + q =? 244 then in_range 128 143 (128 + m2)
          else in_range 128 191 (128 + m2)) = true).
  { destruct (N.eqb_spec (240 + q) 240), (N.eqb_spec (240 + q) 244); apply in_range_true; lia. }
  rewrite Hs. simpl. f_equal. unfold cp4. lia.
Qed.

(** Encoding and decoding round trip: the UTF-8 bytes of any text of Unicode
    scalar values are accepted and give the text back. *)
Theorem from_utf8_encode (s : str) :
  Forall (λ c, is_scalar c = true) s → from_utf8 (encode s) = Ok s.
Proof.
  intros Hs. apply from_utf8_Ok. induction Hs as [|c s Hc _ IH]; [done|].
  unfold encode in *. rewrite bind_cons, decode_encode_char by done. by rewrite IH.
Qed.

Lemma from_utf8_encode_witness :
  Forall (λ c, is_scalar c = true) [104; 233; 8364; 128512] ∧
  from_utf8 [104; 195; 169; 226; 130; 172; 240; 159; 152; 128] = Ok [104; 233; 8364; 128512].
Proof.
  split; [repeat constructor|].
  apply (from_utf8_encode [104; 233; 8364; 128512]). repeat constructor.
Defined.

(** The bytes of the citation tags, cut inside the code point U+00E9. *)
Lemma utf8_stream_exact_witness :
  citation_idle citation_new ∧
  ∃ u out, bytes_all [[97; 195]; [169]] (utf8_new citation_new) = (u, Ok out) ∧
    visible_text out = [97; 233].
Proof.
  split; [exact citation_new_idle|].
  destruct (utf8_stream_exact citation_idle eq citation_new [[97; 195]; [169]] [97; 233])
    as (u & out & H & _ & Hv & _); [exact citation_new_idle|vm_compute; reflexivity|].
  exists u, out. split; [exact H|]. rewrite Hv. vm_compute. reflexivity.
Defined.

Lemma push_bytes_error_exact_witness :
  push_bytes [97; 255; 98] (utf8_new citation_new) = (utf8_new citation_new, Err (InvalidUtf8 1 1)).
Proof.
  apply (push_bytes_error_exact (utf8_new citation_new) [97; 255; 98]). split; [reflexivity|].
  exists [97], [255; 98], 1. split; reflexivity.
Defined.
