(* ===== verification/HeadTail.v ===== *)
(** * The output buffer of a running process

    [core/src/unified_exec/head_tail_buffer.rs]: a capped buffer that keeps the
    first and the last bytes of the output and drops the middle.  The counters
    are [usize]s with the saturating arithmetic of the code; the chunks are the
    queues of byte vectors.  [head_tail_refines] shows that any sequence of
    pushes and drains keeps exactly the prefix and the suffix of the byte stream
    that the budgets allow, however the stream was cut into chunks. *)

From S2P Require Import Prelude.

Local Open Scope N_scope.

Definition len {A} (l : list A) : N := N.of_nat (length l).

(** ** The buffer *)

Definition UNIFIED_EXEC_OUTPUT_MAX_BYTES : N := 1024 * 1024.

Record HeadTailBuffer := {
  max_bytes : N;
  head_budget : N;
  tail_budget : N;
  head : list (list N);
  tail : list (list N);
  head_bytes : N;
  tail_bytes : N;
  omitted_bytes : N;
}.

Definition new (max_bytes : N) : HeadTailBuffer :=
  let head_budget := max_bytes / 2 in
  let tail_budget := sat_sub max_bytes head_budget in
  {| max_bytes := max_bytes; head_budget := head_budget; tail_budget := tail_budget;
     head := []; tail := []; head_bytes := 0; tail_bytes := 0; omitted_bytes := 0 |}.

Definition default_buffer : HeadTailBuffer := new UNIFIED_EXEC_OUTPUT_MAX_BYTES.

Definition retained_bytes (b : HeadTailBuffer) : N := sat_add (head_bytes b) (tail_bytes b).

Definition set_omitted (n : N) (b : HeadTailBuffer) : HeadTailBuffer :=
  {| max_bytes := max_bytes b; head_budget := head_budget b; tail_budget := tail_budget b;
     head := head b; tail := tail b; head_bytes := head_bytes b; tail_bytes := tail_bytes b;
     omitted_bytes := n |}.

Definition set_head (h : list (list N)) (n : N) (b : HeadTailBuffer) : HeadTailBuffer :=
  {| max_bytes := max_bytes b; head_budget := head_budget b; tail_budget := tail_budget b;
     head := h; tail := tail b; head_bytes := n; tail_bytes := tail_bytes b;
     omitted_bytes := omitted_bytes b |}.

Definition set_tail (t : list (list N)) (n : N) (b : HeadTailBuffer) : HeadTailBuffer :=
  {| max_bytes := max_bytes b; head_budget := head_budget b; tail_budget := tail_budget b;
     head := head b; tail := t; head_bytes := head_bytes b; tail_bytes := n;
     omitted_bytes := omitted_bytes b |}.

(** The [while excess > 0] loop: one iteration per front chunk; the result is
    the queue, [tail_bytes] and [omitted_bytes] when it stops. *)
Fixpoint trim_loop (excess : N) (tail : list (list N)) (tail_bytes omitted_bytes : N)
    : list (list N) * N * N :=
  if excess =? 0 then (tail, tail_bytes, omitted_bytes) else
  match tail with
  | [] => ([], tail_bytes, omitted_bytes)
  | front :: rest =>
      if len front <=? excess then
        trim_loop (excess - len front) rest
          (sat_sub tail_bytes (len front)) (sat_add omitted_bytes (len front))
      else
        (drop (N.to_nat excess) front :: rest,
         sat_sub tail_bytes excess, sat_add omitted_bytes excess)
  end.

Definition trim_tail_to_budget (b : HeadTailBuffer) : HeadTailBuffer :=
  let excess := sat_sub (tail_bytes b) (tail_budget b) in
  let '(t, n, om) := trim_loop excess (tail b) (tail_bytes b) (omitted_bytes b) in
  set_omitted om (set_tail t n b).

Definition push_to_tail (chunk : list N) (b : HeadTailBuffer) : HeadTailBuffer :=
  if tail_budget b =? 0 then set_omitted (sat_add (omitted_bytes b) (len chunk)) b else
  if tail_budget b <=? len chunk then
    let start := sat_sub (len chunk) (tail_budget b) in
    let kept := drop (N.to_nat start) chunk in
    let dropped := sat_sub (len chunk) (len kept) in
    let b := set_omitted (sat_add (sat_add (omitted_bytes b) (tail_bytes b)) dropped) b in
    set_tail [kept] (len kept) b
  else
    let b := set_tail (tail b ++ [chunk]) (sat_add (tail_bytes b) (len chunk)) b in
    trim_tail_to_budget b.

Definition push_chunk (chunk : list N) (b : HeadTailBuffer) : HeadTailBuffer :=
  if max_bytes b =? 0 then set_omitted (sat_add (omitted_bytes b) (len chunk)) b else
  if head_bytes b <? head_budget b then
    let remaining_head := sat_sub (head_budget b) (head_bytes b) in
    if len chunk <=? remaining_head then
      set_head (head b ++ [chunk]) (sat_add (head_bytes b) (len chunk)) b
    else
      let head_part := take (N.to_nat remaining_head) chunk in
      let tail_part := drop (N.to_nat remaining_head) chunk in
      let b :=
        match head_part with
        | [] => b
        | _ => set_head (head b ++ [head_part]) (sat_add (head_bytes b) (len head_part)) b
        end in
      push_to_tail tail_part b
  else push_to_tail chunk b.

Definition snapshot_chunks (b : HeadTailBuffer) : list (list N) := head b ++ tail b.

Definition to_bytes (b : HeadTailBuffer) : list N := concat (head b) ++ concat (tail b).

Definition drain_chunks (b : HeadTailBuffer) : HeadTailBuffer * list (list N) :=
  let out := head b ++ tail b in
  (set_omitted 0 (set_tail [] 0 (set_head [] 0 b)), out).

(** ** The abstract buffer

    The whole stream since the last drain; what is retained of it is a function
    of the stream alone. *)

(** The last [n] elements. *)
Definition lastn {A} (n : N) (l : list A) : list A := drop (length l - N.to_nat n) l.

Definition kept_head (max : N) (stream : list N) : list N := take (N.to_nat (max / 2)) stream.
Definition kept_tail (max : N) (stream : list N) : list N :=
  lastn (max - max / 2) (drop (N.to_nat (max / 2)) stream).

(** The calls a client makes. *)
Inductive call :=
| Push (chunk : list N)
| Drain.

Definition exec_call (b : HeadTailBuffer) (c : call) : HeadTailBuffer :=
  match c with Push chunk => push_chunk chunk b | Drain => (drain_chunks b).1 end.

Definition spec_call (stream : list N) (c : call) : list N :=
  match c with Push chunk => stream ++ chunk | Drain => [] end.

(** The concrete buffer stands for the stream. *)
Record represents (max : N) (b : HeadTailBuffer) (stream : list N) : Prop := {
  rep_max : max_bytes b = max;
  rep_head_budget : head_budget b = max / 2;
  rep_tail_budget : tail_budget b = max - max / 2;
  rep_head : concat (head b) = kept_head max stream;
  rep_tail : concat (tail b) = kept_tail max stream;
  rep_head_bytes : head_bytes b = len (concat (head b));
  rep_tail_bytes : tail_bytes b = len (concat (tail b));
  rep_omitted : omitted_bytes b = N.min (len stream - max) USIZE_MAX;
}.

(** ** Lemmas *)

Section Lists.
Context {A : Type}.
Implicit Types l k : list A.

Lemma len_app l k : len (l ++ k) = len l + len k.
Proof. unfold len. rewrite length_app. lia. Qed.

Lemma len_take n l : len (take (N.to_nat n) l) = N.min n (len l).
Proof. unfold len. rewrite length_take. lia. Qed.

Lemma len_drop n l : len (drop (N.to_nat n) l) = len l - n.
Proof. unfold len. rewrite length_drop. lia. Qed.

Lemma len_lastn n l : len (lastn n l) = N.min n (len l).
Proof. unfold len, lastn. rewrite length_drop. lia. Qed.

Lemma lastn_all n l : len l <= n → lastn n l = l.
Proof. unfold len, lastn. intros. by replace (length l - N.to_nat n)%nat with 0%nat by lia. Qed.

(** Only the last [n] elements of the past matter for the last [n] elements. *)
Lemma lastn_app n l k : lastn n (lastn n l ++ k) = lastn n (l ++ k).
Proof.
  unfold lastn. rewrite length_app, length_drop, length_app.
  destruct (decide (length l ≤ N.to_nat n)%nat) as [?|?].
  { by replace (length l - N.to_nat n)%nat with 0%nat by lia; rewrite drop_0, Nat.sub_0_r. }
  rewrite <-drop_app_le by lia. rewrite drop_drop. f_equal. lia.
Qed.

(** A suffix that is long enough hides everything before it. *)
Lemma lastn_app_r n l k : n <= len k → lastn n (l ++ k) = lastn n k.
Proof.
  unfold len, lastn. intros. rewrite length_app, drop_app_ge by lia. f_equal. lia.
Qed.
End Lists.

Lemma drop_concat_front {A} (n : N) (l k : list A) :
  len l <= n → drop (N.to_nat n) (l ++ k) = drop (N.to_nat (n - len l)) k.
Proof. unfold len. intros. rewrite drop_app_ge by lia. f_equal. lia. Qed.

Lemma sat_add_assoc_min a b c :
  sat_add (N.min a USIZE_MAX) b = N.min (a + b) USIZE_MAX ∧
  sat_add (sat_add (N.min a USIZE_MAX) b) c = N.min (a + b + c) USIZE_MAX.
Proof. unfold sat_add. lia. Qed.

(** The trim loop drops exactly the excess from the front of the queue. *)
Lemma trim_loop_spec excess t n om :
  excess <= len (concat t) → n = len (concat t) →
  ∃ t', trim_loop excess t n (N.min om USIZE_MAX)
        = (t', n - excess, N.min (om + excess) USIZE_MAX) ∧
        concat t' = drop (N.to_nat excess) (concat t).
Proof.
  revert excess n om. induction t as [|front rest IH]; intros excess n om Hle ->; simpl in *.
  - replace excess with 0 by (unfold len in *; simpl in *; lia). exists []. simpl.
    split; [do 2 f_equal; lia|done].
  - destruct (N.eqb_spec excess 0) as [->|?].
    { exists (front :: rest). split; [do 2 f_equal; lia|done]. }
    rewrite len_app in Hle. destruct (N.leb_spec (len front) excess) as [?|?].
    + rewrite (proj1 (sat_add_assoc_min om (len front) 0)).
      destruct (IH (excess - len front) (sat_sub (len (front ++ concat rest)) (len front))
                  (om + len front)) as (t' & -> & Ht').
      { lia. } { rewrite len_app. unfold sat_sub. lia. }
      exists t'. split; [|by rewrite drop_concat_front].
      rewrite len_app. unfold sat_sub. do 2 (f_equal; try lia).
    + eexists. split; [rewrite (proj1 (sat_add_assoc_min om excess 0)); reflexivity|]. simpl.
      rewrite drop_app_le by (unfold len in *; lia). done.
Qed.

(** The tail queue follows the stream behind the head: [past] is that stream
    before the push and [om] what it had lost of its own. *)
Lemma push_to_tail_spec chunk b past om :
  0 < tail_budget b → tail_budget b <= 2 ^ 63 →
  concat (tail b) = lastn (tail_budget b) past →
  tail_bytes b = len (concat (tail b)) →
  omitted_bytes b = N.min om USIZE_MAX → om = len past - tail_budget b →
  ∃ t, push_to_tail chunk b
       = set_omitted (N.min (len (past ++ chunk) - tail_budget b) USIZE_MAX)
           (set_tail t (len (concat t)) b) ∧
       concat t = lastn (tail_budget b) (past ++ chunk).
Proof.
  intros Hpos Hmax Ht Hn Hom ->. unfold push_to_tail.
  destruct (N.eqb_spec (tail_budget b) 0) as [?|_]; [lia|].
  pose proof (len_lastn (tail_budget b) past) as Hlen. rewrite <-Ht in Hlen.
  rewrite len_app. destruct (N.leb_spec (tail_budget b) (len chunk)) as [Hbig|Hsmall].
  - exists [drop (N.to_nat (sat_sub (len chunk) (tail_budget b))) chunk]. simpl.
    rewrite app_nil_r. split.
    + rewrite Hom, (proj2 (sat_add_assoc_min _ _ _)), Hn, Hlen, len_drop. unfold sat_sub.
      unfold set_omitted, set_tail; simpl. f_equal. lia.
    + rewrite lastn_app_r by done. unfold lastn, sat_sub. f_equal. unfold len. lia.
  - assert (Hfit : sat_add (tail_bytes b) (len chunk) = len (concat (tail b ++ [chunk]))).
    { rewrite concat_app, len_app. simpl. rewrite app_nil_r. unfold sat_add, USIZE_MAX. lia. }
    unfold trim_tail_to_budget; simpl. rewrite Hfit, Hom.
    assert (Hcat : len (concat (tail b ++ [chunk])) = N.min (tail_budget b) (len past) + len chunk)
      by (rewrite concat_app, len_app; simpl; rewrite app_nil_r; lia).
    destruct (trim_loop_spec (sat_sub (len (concat (tail b ++ [chunk]))) (tail_budget b))
                (tail b ++ [chunk]) (len (concat (tail b ++ [chunk])))
                (len past - tail_budget b)) as (t & -> & Hcut);
      [unfold sat_sub; lia|done|].
    exists t. split.
    + unfold set_omitted, set_tail; simpl. rewrite Hcut, len_drop, Hcat. unfold sat_sub.
      f_equal; lia.
    + rewrite Hcut, <-lastn_app, <-Ht. rewrite concat_app. simpl. rewrite app_nil_r.
      unfold lastn. f_equal. unfold sat_sub, len. lia.
Qed.

Lemma represents_new max : represents max (new max) [].
Proof.
  split; try done.
  - unfold kept_head. by rewrite take_nil.
  - unfold kept_tail, lastn. by rewrite !drop_nil.
Qed.

Lemma drain_new max b stream : represents max b stream → (drain_chunks b).1 = new max.
Proof. intros []. destruct b; simpl in *. by subst. Qed.

Lemma drain_bytes b : concat (drain_chunks b).2 = to_bytes b.
Proof. unfold drain_chunks, to_bytes; simpl. by rewrite concat_app. Qed.

(** What is kept of the head is decided once the head budget is full. *)
Lemma kept_head_app max stream chunk :
  kept_head max (stream ++ chunk)
  = kept_head max stream ++ take (N.to_nat (max / 2 - len stream)) chunk.
Proof. unfold kept_head. rewrite take_app. f_equal. unfold len. f_equal. lia. Qed.

Lemma behind_head_app max (stream chunk : list N) :
  drop (N.to_nat (max / 2)) (stream ++ chunk)
  = drop (N.to_nat (max / 2)) stream ++ drop (N.to_nat (max / 2 - len stream)) chunk.
Proof. rewrite drop_app. f_equal. unfold len. f_equal. lia. Qed.

(** Each push keeps the representation. *)
Section PushRepresents.
Context (max : N) (Hmax : max <= USIZE_MAX).

Lemma budgets : max / 2 <= 2 ^ 63 ∧ max - max / 2 <= 2 ^ 63 ∧ (0 < max → 0 < max - max / 2).
Proof.
  pose proof (N.div_mod max 2 ltac:(done)). pose proof (N.mod_lt max 2 ltac:(done)).
  change USIZE_MAX with 18446744073709551615 in Hmax. change (2 ^ 63) with 9223372036854775808.
  generalize dependent (max / 2). generalize dependent (max mod 2). lia.
Qed.

(** The part of a push that goes behind the head. *)
Lemma push_behind_head b stream chunk part h :
  0 < max → represents max b stream →
  concat h = kept_head max (stream ++ chunk) →
  drop (N.to_nat (max / 2)) (stream ++ chunk) = drop (N.to_nat (max / 2)) stream ++ part →
  max / 2 <= len (stream ++ chunk) →
  represents max (push_to_tail part (set_head h (len (concat h)) b)) (stream ++ chunk).
Proof.
  intros Hpos [] Hh Hpart Hfull.
  destruct budgets as (? & ? & ?).
  destruct (push_to_tail_spec part (set_head h (len (concat h)) b)
              (drop (N.to_nat (max / 2)) stream)
              (len (drop (N.to_nat (max / 2)) stream) - (max - max / 2))) as (t & -> & Ht);
    simpl; rewrite ?rep_tail_budget0; try done; [lia| |].
  { rewrite rep_omitted0, len_drop. f_equal. lia. }
  simpl in Ht. rewrite rep_tail_budget0 in *.
  split; simpl; rewrite ?rep_tail_budget0; try done.
  - by rewrite Ht, <-Hpart.
  - rewrite <-Hpart, len_drop. f_equal. lia.
Qed.

Lemma push_represents b stream chunk :
  represents max b stream → represents max (push_chunk chunk b) (stream ++ chunk).
Proof.
  intros Hrep. pose proof Hrep as []. destruct budgets as (? & ? & ?).
  assert (Hhl : head_bytes b = N.min (max / 2) (len stream))
    by (rewrite rep_head_bytes0, rep_head0; apply len_take).
  unfold push_chunk. rewrite rep_max0. destruct (N.eqb_spec max 0) as [->|Hpos].
  { split; simpl; try done.
    - rewrite rep_tail0. unfold kept_tail, lastn. rewrite !Nat.sub_0_r, !drop_ge by lia. done.
    - rewrite rep_omitted0, (proj1 (sat_add_assoc_min _ _ 0)), len_app. f_equal. lia. }
  rewrite rep_head_budget0. destruct (N.ltb_spec (head_bytes b) (max / 2)) as [Hroom|Hfull].
  - assert (len stream < max / 2) as Hshort by lia.
    assert (head_bytes b = len stream) as Hhs by lia. rewrite Hhs. unfold sat_sub.
    assert (Hnt : concat (tail b) = []).
    { rewrite rep_tail0. unfold kept_tail, lastn.
      rewrite (drop_ge stream) by (unfold len in *; lia). by rewrite drop_nil. }
    destruct (N.leb_spec (len chunk) (max / 2 - len stream)) as [Hfit|Hsplit].
    + assert (Hcat : concat (head b ++ [chunk]) = kept_head max (stream ++ chunk)).
      { rewrite concat_app, kept_head_app, rep_head0. simpl. rewrite app_nil_r. f_equal.
        rewrite take_ge; [done|]. unfold len in *. lia. }
      split; simpl; try done.
      * rewrite Hnt. unfold kept_tail, lastn.
        rewrite (drop_ge (stream ++ chunk)) by (rewrite length_app; unfold len in *; lia).
        by rewrite drop_nil.
      * rewrite Hcat. unfold kept_head. rewrite len_take, len_app. unfold sat_add, USIZE_MAX. lia.
      * rewrite rep_omitted0, len_app. f_equal. lia.
    + set (part := take (N.to_nat (max / 2 - len stream)) chunk).
      assert (Hpl : len part = max / 2 - len stream) by (unfold part; rewrite len_take; lia).
      destruct part as [|x part'] eqn:Hpart; [unfold len in *; simpl in *; lia|].
      rewrite <-Hpart in *. clear x part' Hpart.
      assert (Hcat : concat (head b ++ [part]) = kept_head max (stream ++ chunk)).
      { rewrite concat_app, kept_head_app, rep_head0. simpl. by rewrite app_nil_r. }
      assert (Hlen : sat_add (len stream) (len part) = len (concat (head b ++ [part]))).
      { rewrite Hcat. unfold kept_head. rewrite len_take, len_app. unfold sat_add, USIZE_MAX. lia. }
      rewrite Hlen. apply push_behind_head; auto; [lia|apply behind_head_app|rewrite len_app; lia].
  - replace b with (set_head (head b) (len (concat (head b))) b)
      by (destruct b; simpl in *; by subst).
    apply push_behind_head; auto; [lia| | |rewrite len_app; lia].
    + rewrite kept_head_app, rep_head0.
      replace (max / 2 - len stream) with 0 by lia. by rewrite app_nil_r.
    + rewrite behind_head_app. replace (max / 2 - len stream) with 0 by lia. done.
Qed.
End PushRepresents.

Lemma calls_represent max calls b stream :
  max <= USIZE_MAX → represents max b stream →
  represents max (fold_left exec_call calls b) (fold_left spec_call calls stream).
Proof.
  intros Hmax. revert b stream. induction calls as [|[chunk|] calls IH]; intros b stream Hb; simpl.
  - done.
  - by apply IH, push_represents.
  - apply IH. change (represents max (drain_chunks b).1 []).
    rewrite (drain_new _ _ _ Hb). apply represents_new.
Qed.

Lemma kept_split max stream :
  len (kept_head max stream) = N.min (max / 2) (len stream) ∧
  len (kept_tail max stream) = N.min (max - max / 2) (len stream - max / 2).
Proof.
  unfold kept_head, kept_tail. by rewrite len_take, len_lastn, len_drop.
Qed.

(** After any sequence of pushes and drains, the buffer holds exactly the
    first [max / 2] bytes of the stream pushed since the last drain and the last
    [max - max / 2] bytes of the rest, whatever the chunks were: the snapshot and
    the drained chunks concatenate to them, the byte counters agree with them and
    never exceed the limit, the omitted count is the number of bytes lost
    (saturated), and a stream within the limit is kept whole. *)
Theorem head_tail_refines (max : N) (calls : list call) :
  max <= USIZE_MAX →
  let b := fold_left exec_call calls (new max) in
  let stream := fold_left spec_call calls [] in
  to_bytes b = kept_head max stream ++ kept_tail max stream ∧
  concat (snapshot_chunks b) = to_bytes b ∧
  concat (drain_chunks b).2 = to_bytes b ∧
  retained_bytes b = len (to_bytes b) ∧
  retained_bytes b <= max ∧
  omitted_bytes b = N.min (len stream - len (to_bytes b)) USIZE_MAX ∧
  (len stream <= max → to_bytes b = stream).
Proof.
  intros Hmax b stream.
  assert (represents max b stream) as []
    by (apply calls_represent; [done|apply represents_new]).
  assert (Hb : to_bytes b = kept_head max stream ++ kept_tail max stream)
    by (unfold to_bytes; congruence).
  destruct (kept_split max stream) as [Hh Ht].
  assert (Hdiv : max / 2 <= max) by (apply N.Div0.div_le_upper_bound; lia).
  split; [done|]. split; [exact (drain_bytes b)|]. split; [apply drain_bytes|].
  assert (Hlen : len (to_bytes b) = N.min max (len stream))
    by (rewrite Hb, len_app, Hh, Ht; lia).
  assert (Hret : retained_bytes b = len (to_bytes b)).
  { unfold retained_bytes. rewrite rep_head_bytes0, rep_tail_bytes0.
    unfold sat_add. rewrite <-len_app. fold (to_bytes b). lia. }
  split; [done|]. split; [lia|]. split; [rewrite rep_omitted0, Hlen; f_equal; lia|].
  intros Hfit. rewrite Hb. unfold kept_head, kept_tail.
  rewrite lastn_all by (rewrite len_drop; lia). apply take_drop.
Qed.

Lemma head_tail_refines_witness :
  let b := fold_left exec_call [Push [1; 2]; Push [3; 4; 5; 6]; Push [7]] (new 4) in
  4 <= USIZE_MAX ∧ to_bytes b = [1; 2; 6; 7] ∧ omitted_bytes b = 3.
Proof.
  intros b.
  pose proof (head_tail_refines 4 [Push [1; 2]; Push [3; 4; 5; 6]; Push [7]]) as H.
  destruct H as (H & _ & _ & _ & _ & Hom & _); [done|].
  split; [done|]. split; [exact H|exact Hom].
Defined.
