(* ===== verification/Truncate.v ===== *)
(** * Truncating output (codex-rs/utils/string/src/truncate.rs,
    codex-rs/utils/output-truncation/src/lib.rs)

    Keeping the beginning and the end of a text within a budget of bytes or of
    approximate tokens, on character boundaries, and the same for the items of a
    tool output; with [TruncationPolicy] (protocol/src/protocol.rs) and its
    scaling by a floating-point factor.

    Lengths are [usize]s with the saturating arithmetic of the code, and slices
    are taken at byte offsets: [None] is the panic of a slice that does not lie on
    a character boundary. *)

From S2P Require Import Prelude RustStr.

Local Open Scope N_scope.
Local Open Scope rstr_scope.

Definition APPROX_BYTES_PER_TOKEN : N := 4.

(** [str::len] and [chars().count()] as [usize]s. *)
Definition byte_len (s : str) : N := N.of_nat (str_len s).
Definition char_count (s : str) : N := N.of_nat (length s).
Definition char_len (c : char) : N := N.of_nat (len_utf8 c).

(** The text before and from byte [n]. *)
Fixpoint split_at_byte (n : N) (s : str) : option (str * str) :=
  if n =? 0 then Some ([], s)
  else match s with
       | [] => None
       | c :: s' =>
           if n <? char_len c then None
           else ab ← split_at_byte (n - char_len c) s'; Some (c :: ab.1, ab.2)
       end.

Definition approx_token_count (text : str) : N :=
  sat_add (byte_len text) (sat_sub APPROX_BYTES_PER_TOKEN 1) / APPROX_BYTES_PER_TOKEN.

Definition approx_bytes_for_tokens (tokens : N) : N := sat_mul tokens APPROX_BYTES_PER_TOKEN.

Definition approx_tokens_from_byte_count (bytes : N) : N :=
  sat_add bytes (sat_sub APPROX_BYTES_PER_TOKEN 1) / APPROX_BYTES_PER_TOKEN.

(** ** Splitting *)

(** The variables of the loop of [split_string]; [at_byte] is the index that
    [char_indices] yields. *)
Record split_state := mkSplit {
  at_byte : N;
  prefix_end : N;
  suffix_start : N;
  removed_chars : N;
  suffix_started : bool;
}.

Definition split_char (beginning_bytes tail_start_target : N) (st : split_state) (c : char)
    : split_state :=
  let idx := at_byte st in
  let char_end := idx + char_len c in
  if char_end <=? beginning_bytes then
    mkSplit char_end char_end (suffix_start st) (removed_chars st) (suffix_started st)
  else if tail_start_target <=? idx then
    if negb (suffix_started st)
    then mkSplit char_end (prefix_end st) idx (removed_chars st) true
    else mkSplit char_end (prefix_end st) (suffix_start st) (removed_chars st) true
  else mkSplit char_end (prefix_end st) (suffix_start st) (sat_add (removed_chars st) 1)
         (suffix_started st).

Definition split_string (s : str) (beginning_bytes end_bytes : N) : option (N * str * str) :=
  if is_empty s then Some (0, [], [])
  else
    let len := byte_len s in
    let st := foldl (split_char beginning_bytes (sat_sub len end_bytes))
                (mkSplit 0 0 len 0 false) s in
    let suffix_start := if suffix_start st <? prefix_end st then prefix_end st else suffix_start st in
    before ← fst <$> split_at_byte (prefix_end st) s;
    after ← snd <$> split_at_byte suffix_start s;
    Some (removed_chars st, before, after).

Definition split_budget (budget : N) : N * N :=
  let left_ := budget / 2 in (left_, budget - left_).

(** ** Truncating a text *)

Definition ellipsis : str := [8230].
Definition fmt_N (n : N) : str := lit (pretty n).

Definition format_truncation_marker (use_tokens : bool) (removed_count : N) : str :=
  ellipsis ++ fmt_N removed_count
  ++ (if use_tokens then lit " tokens truncated" else lit " chars truncated") ++ ellipsis.

Definition removed_units (use_tokens : bool) (removed_bytes removed_chars : N) : N :=
  if use_tokens then approx_tokens_from_byte_count removed_bytes else removed_chars.

Definition assemble_truncated_output (prefix suffix marker : str) : str :=
  prefix ++ marker ++ suffix.

Definition truncate_with_byte_estimate (s : str) (max_bytes : N) (use_tokens : bool)
    : option str :=
  if is_empty s then Some []
  else if max_bytes =? 0 then
    Some (format_truncation_marker use_tokens
            (removed_units use_tokens (byte_len s) (char_count s)))
  else if byte_len s <=? max_bytes then Some s
  else
    let '(left_budget, right_budget) := split_budget max_bytes in
    '(removed, l, r) ← split_string s left_budget right_budget;
    let marker := format_truncation_marker use_tokens
      (removed_units use_tokens (sat_sub (byte_len s) max_bytes) removed) in
    Some (assemble_truncated_output l r marker).

Definition truncate_middle_chars (s : str) (max_bytes : N) : option str :=
  truncate_with_byte_estimate s max_bytes false.

Definition truncate_middle_with_token_budget (s : str) (max_tokens : N)
    : option (str * option N) :=
  if is_empty s then Some ([], None)
  else if (0 <? max_tokens) && (byte_len s <=? approx_bytes_for_tokens max_tokens)
  then Some (s, None)
  else
    truncated ← truncate_with_byte_estimate s (approx_bytes_for_tokens max_tokens) true;
    Some (if truncated == s then (truncated, None) else (truncated, Some (approx_token_count s))).

(** ** Policies *)

Inductive TruncationPolicy := Bytes (bytes : N) | Tokens (tokens : N).

Definition token_budget (p : TruncationPolicy) : N :=
  match p with
  | Bytes bytes => approx_tokens_from_byte_count bytes
  | Tokens tokens => tokens
  end.

Definition byte_budget (p : TruncationPolicy) : N :=
  match p with
  | Bytes bytes => bytes
  | Tokens tokens => approx_bytes_for_tokens tokens
  end.

Definition truncate_text (content : str) (p : TruncationPolicy) : option str :=
  match p with
  | Bytes bytes => truncate_middle_chars content bytes
  | Tokens tokens => fst <$> truncate_middle_with_token_budget content tokens
  end.

Definition formatted_truncate_text (content : str) (p : TruncationPolicy) : option str :=
  if byte_len content <=? byte_budget p then Some content
  else
    result ← truncate_text content p;
    Some (lit "Total output lines: " ++ fmt_nat (length (lines content)) ++ [nl; nl] ++ result).

(** ** Items of a tool output *)

Inductive ImageDetail := Auto | Low | High | Original.
Inductive FunctionCallOutputContentItem :=
| InputText (text : str)
| InputImage (image_url : str) (detail : option ImageDetail)
| EncryptedContent (encrypted_content : str).

Definition text_of (i : FunctionCallOutputContentItem) : option str :=
  match i with InputText t => Some t | _ => None end.
Definition is_text (i : FunctionCallOutputContentItem) : bool := opt_is_some (text_of i).

Definition combine_texts (segments : list str) : str :=
  foldl (λ combined t, (if is_empty combined then combined else combined ++ [nl]) ++ t) [] segments.

Definition formatted_truncate_text_content_items_with_policy
    (items : list FunctionCallOutputContentItem) (p : TruncationPolicy)
    : option (list FunctionCallOutputContentItem * option N) :=
  let text_segments := omap text_of items in
  if is_empty text_segments then Some (items, None)
  else
    let combined := combine_texts text_segments in
    if byte_len combined <=? byte_budget p then Some (items, None)
    else
      text ← formatted_truncate_text combined p;
      Some (InputText text :: List.filter (λ i, negb (is_text i)) items,
            Some (approx_token_count combined)).

(** The variables of the loop of [truncate_function_output_items_with_policy]. *)
Record items_state := mkItems {
  out : list FunctionCallOutputContentItem;
  remaining_budget : N;
  omitted_text_items : nat;
}.

Definition item_cost (p : TruncationPolicy) (text : str) : N :=
  match p with Bytes _ => byte_len text | Tokens _ => approx_token_count text end.

Definition with_budget (p : TruncationPolicy) (n : N) : TruncationPolicy :=
  match p with Bytes _ => Bytes n | Tokens _ => Tokens n end.

Definition truncate_item (p : TruncationPolicy) (st : items_state)
    (item : FunctionCallOutputContentItem) : option items_state :=
  match item with
  | InputText text =>
      if remaining_budget st =? 0
      then Some (mkItems (out st) (remaining_budget st) (S (omitted_text_items st)))
      else
        let cost := item_cost p text in
        if cost <=? remaining_budget st
        then Some (mkItems (out st ++ [InputText text]) (sat_sub (remaining_budget st) cost)
                     (omitted_text_items st))
        else
          snippet ← truncate_text text (with_budget p (remaining_budget st));
          Some (if is_empty snippet
                then mkItems (out st) 0 (S (omitted_text_items st))
                else mkItems (out st ++ [InputText snippet]) 0 (omitted_text_items st))
  | _ => Some (mkItems (out st ++ [item]) (remaining_budget st) (omitted_text_items st))
  end.

Fixpoint truncate_items (p : TruncationPolicy) (st : items_state)
    (items : list FunctionCallOutputContentItem) : option items_state :=
  match items with
  | [] => Some st
  | item :: items => st ← truncate_item p st item; truncate_items p st items
  end.

Definition initial_budget (p : TruncationPolicy) : N :=
  match p with Bytes _ => byte_budget p | Tokens _ => token_budget p end.

Definition omitted_note (n : nat) : list FunctionCallOutputContentItem :=
  if Nat.ltb 0 n then [InputText (lit "[omitted " ++ fmt_nat n ++ lit " text items ...]")] else [].

Definition truncate_function_output_items_with_policy
    (items : list FunctionCallOutputContentItem) (p : TruncationPolicy)
    : option (list FunctionCallOutputContentItem) :=
  st ← truncate_items p (mkItems [] (initial_budget p) 0) items;
  Some (out st ++ omitted_note (omitted_text_items st)).

(** ** Estimates on [i64] *)

Definition I64_MAX : Z := 2 ^ 63 - 1.

Definition approx_tokens_from_byte_count_i64 (bytes : Z) : Z :=
  if (bytes <=? 0)%Z then 0
  else Z.min (Z.of_N (approx_tokens_from_byte_count (Z.to_N bytes))) I64_MAX.

(** ** Scaling a policy

    A non-negative finite [f64] is an integer of at most 53 bits times a power of
    two; a product is rounded to nearest, ties to even. *)

Record f64 := mkF64 { mantissa : N; exponent : Z }.

Definition round53 (m : N) (e : Z) : f64 :=
  let drop := N.size m - 53 in
  if drop =? 0 then mkF64 m e
  else
    let q := N.shiftr m drop in
    let r := m mod 2 ^ drop in
    let half := 2 ^ (drop - 1) in
    let up := (half <? r) || ((r =? half) && N.odd q) in
    mkF64 (if up then q + 1 else q) (e + Z.of_N drop).

Definition f64_of_usize (n : N) : f64 := round53 n 0.
Definition f64_mul (a b : f64) : f64 :=
  round53 (mantissa a * mantissa b) (exponent a + exponent b).
(** [x.ceil() as usize], which saturates. *)
Definition f64_ceil_usize (a : f64) : N :=
  let n := match exponent a with
           | Zneg p => (mantissa a + (2 ^ Npos p - 1)) / 2 ^ Npos p
           | e => mantissa a * 2 ^ Z.to_N e
           end in
  N.min n USIZE_MAX.

(** The double nearest to 1.2. *)
Definition f64_1_2 : f64 := mkF64 5404319552844595 (-52).

Definition policy_mul (p : TruncationPolicy) (multiplier : f64) : TruncationPolicy :=
  match p with
  | Bytes bytes => Bytes (f64_ceil_usize (f64_mul (f64_of_usize bytes) multiplier))
  | Tokens tokens => Tokens (f64_ceil_usize (f64_mul (f64_of_usize tokens) multiplier))
  end.

(** The rounding never loses a unit on the budgets in use: six fifths, rounded
    up. *)
Example policy_mul_1_2 :
  all (λ n, f64_ceil_usize (f64_mul (f64_of_usize (N.of_nat n)) f64_1_2)
            =? (6 * N.of_nat n + 4) / 5) (seq 0 5000) = true.
Proof. by_compute. Qed.

(** ** Lengths and slices *)

Lemma char_len_pos c : 0 < char_len c.
Proof. unfold char_len, len_utf8. repeat case_match; lia. Qed.

Lemma byte_len_app s t : byte_len (s ++ t) = byte_len s + byte_len t.
Proof. unfold byte_len, str_len. rewrite sum_list_with_app. lia. Qed.
Lemma byte_len_cons c s : byte_len (c :: s) = char_len c + byte_len s.
Proof. unfold byte_len, char_len, str_len. cbn. lia. Qed.
Lemma byte_len_nil : byte_len [] = 0.
Proof. done. Qed.

Lemma char_count_le s : char_count s <= byte_len s.
Proof.
  induction s as [|c s IH]; [done|]. rewrite byte_len_cons. unfold char_count in *. cbn [length].
  pose proof (char_len_pos c). lia.
Qed.

Lemma split_at_byte_app s t : split_at_byte (byte_len s) (s ++ t) = Some (s, t).
Proof.
  induction s as [|c s IH]; cbn [app]; [by destruct t|].
  rewrite byte_len_cons. pose proof (char_len_pos c). cbn [split_at_byte].
  destruct (N.eqb_spec (char_len c + byte_len s) 0); [lia|].
  destruct (N.ltb_spec (char_len c + byte_len s) (char_len c)); [lia|].
  replace (char_len c + byte_len s - char_len c) with (byte_len s) by lia. by rewrite IH.
Qed.

(** ** What [split_string] does *)

(** The longest prefix of at most [b] bytes, and the rest. *)
Fixpoint take_bytes (b : N) (s : str) : str * str :=
  match s with
  | [] => ([], [])
  | c :: s' =>
      if char_len c <=? b
      then let '(x, y) := take_bytes (b - char_len c) s' in (c :: x, y)
      else ([], s)
  end.

(** The shortest prefix of at least [n] bytes (or everything), and the rest. *)
Fixpoint skip_bytes (n : N) (s : str) : str * str :=
  match s with
  | [] => ([], [])
  | c :: s' =>
      if n =? 0 then ([], s)
      else let '(x, y) := skip_bytes (n - char_len c) s' in (c :: x, y)
  end.

Lemma take_bytes_spec b s x y :
  take_bytes b s = (x, y) →
  s = x ++ y ∧ byte_len x <= b ∧ ∀ c r, y = c :: r → b < byte_len x + char_len c.
Proof.
  revert b x y. induction s as [|c s IH]; intros b x y; cbn [take_bytes].
  { intros [= <- <-]. split_and!; [done|unfold byte_len; cbn; lia|done]. }
  destruct (N.leb_spec (char_len c) b) as [Hc|Hc]; [|intros [= <- <-]]; last first.
  { split_and!; [done|unfold byte_len; cbn; lia|]. intros c' r [= -> ->]. rewrite byte_len_nil. lia. }
  destruct (take_bytes (b - char_len c) s) as [x' y'] eqn:E. intros [= <- <-].
  destruct (IH _ _ _ E) as (-> & Hx & Hy). rewrite byte_len_cons.
  split_and!; [done|lia|]. intros c' r ->. specialize (Hy _ _ eq_refl). lia.
Qed.

Lemma skip_bytes_spec n s x y :
  skip_bytes n s = (x, y) →
  s = x ++ y ∧ (y = [] ∨ n <= byte_len x) ∧
  ∀ m c m', x = m ++ c :: m' → byte_len m < n.
Proof.
  revert n x y. induction s as [|c s IH]; intros n x y; cbn [skip_bytes].
  { intros [= <- <-]. split_and!; [done|by left|]. by intros [] ? ?. }
  destruct (N.eqb_spec n 0) as [->|Hn].
  { intros [= <- <-]. split_and!; [done|right; unfold byte_len; cbn; lia|]. by intros [] ? ?. }
  destruct (skip_bytes (n - char_len c) s) as [x' y'] eqn:E. intros [= <- <-].
  destruct (IH _ _ _ E) as (-> & Hx & Hm). split_and!; [done| |].
  - destruct Hx as [?|?]; [by left|right]. rewrite byte_len_cons. lia.
  - intros [|c' m] d m' [= -> Em]; [rewrite byte_len_nil; lia|].
    rewrite byte_len_cons. specialize (Hm _ _ _ Em). lia.
Qed.

Section SplitLoop.
Context (b target : N).

Lemma loop_prefix x a L r :
  a + byte_len x <= b →
  foldl (split_char b target) (mkSplit a a L r false) x
  = mkSplit (a + byte_len x) (a + byte_len x) L r false.
Proof.
  revert a. induction x as [|c x IH]; intros a Ha; cbn [foldl].
  { by rewrite byte_len_nil, N.add_0_r. }
  rewrite byte_len_cons in Ha |- *. unfold split_char at 2. cbn.
  destruct (N.leb_spec (a + char_len c) b); [|lia].
  rewrite IH by lia. by rewrite N.add_assoc.
Qed.

Lemma loop_removed x a p L r :
  (∀ m c m', x = m ++ c :: m' → b < a + byte_len m + char_len c ∧ a + byte_len m < target) →
  r + char_count x <= USIZE_MAX →
  foldl (split_char b target) (mkSplit a p L r false) x
  = mkSplit (a + byte_len x) p L (r + char_count x) false.
Proof.
  revert a r. induction x as [|c x IH]; intros a r Hx Hr; cbn [foldl].
  { rewrite byte_len_nil. unfold char_count. cbn. by rewrite !N.add_0_r. }
  destruct (Hx [] c x eq_refl) as [H1 H2]. rewrite byte_len_nil in H1, H2.
  unfold split_char at 2. cbn.
  destruct (N.leb_spec (a + char_len c) b); [lia|]. destruct (N.leb_spec target a); [lia|].
  assert (char_count (c :: x) = 1 + char_count x) as Ec by (unfold char_count; cbn [length]; lia).
  rewrite Ec in Hr |- *. unfold sat_add. rewrite N.min_l by lia.
  rewrite IH; [|intros m d m' Em; destruct (Hx (c :: m) d m' ltac:(by rewrite Em)) as [H3 H4];
                rewrite byte_len_cons in H3, H4; lia|lia].
  rewrite byte_len_cons. f_equal; lia.
Qed.

Lemma loop_suffix x a p L r started :
  (∀ m c m', x = m ++ c :: m' → b < a + byte_len m + char_len c ∧ target <= a + byte_len m) →
  ∃ started', foldl (split_char b target) (mkSplit a p L r started) x
  = mkSplit (a + byte_len x) p (if started || is_empty x then L else a) r started'.
Proof.
  revert a L started. induction x as [|c x IH]; intros a L started Hx; cbn [foldl].
  { rewrite byte_len_nil, N.add_0_r. exists started. by destruct started. }
  destruct (Hx [] c x eq_refl) as [H1 H2]. rewrite byte_len_nil in H1, H2.
  unfold split_char at 2. cbn.
  destruct (N.leb_spec (a + char_len c) b); [lia|]. destruct (N.leb_spec target a); [|lia].
  assert (∀ m d m', x = m ++ d :: m' →
    b < a + char_len c + byte_len m + char_len d ∧ target <= a + char_len c + byte_len m) as Hx'.
  { intros m d m' Em. destruct (Hx (c :: m) d m' ltac:(by rewrite Em)) as [H3 H4].
    rewrite byte_len_cons in H3, H4. lia. }
  rewrite byte_len_cons, N.add_assoc.
  destruct started; cbn; [destruct (IH _ L true Hx') as [s' ->]|destruct (IH _ a true Hx') as [s' ->]];
    by exists s'.
Qed.
End SplitLoop.

(** The text is cut into a beginning, a removed middle and an end; the slices lie
    on character boundaries; beginning and end fit their budgets and cannot be
    extended into the middle. *)
Lemma split_string_spec s b e :
  byte_len s <= USIZE_MAX →
  ∃ before mid after, s = before ++ mid ++ after ∧
    split_string s b e = Some (char_count mid, before, after) ∧
    byte_len before <= b ∧ (∀ c r, mid ++ after = c :: r → b < byte_len before + char_len c) ∧
    byte_len after <= e ∧ (∀ m c, mid = m ++ [c] → e < char_len c + byte_len after).
Proof.
  intros Hs. destruct (take_bytes b s) as [before rest] eqn:Et.
  destruct (take_bytes_spec _ _ _ _ Et) as (-> & Hb & Hmax).
  set (target := sat_sub (byte_len (before ++ rest)) e).
  destruct (skip_bytes (target - byte_len before) rest) as [mid after] eqn:Ek.
  destruct (skip_bytes_spec _ _ _ _ Ek) as (-> & Hafter & Hmid).
  rewrite !byte_len_app in Hs. pose proof (char_count_le mid).
  assert (target = byte_len before + byte_len mid + byte_len after - e) as Etg
    by (unfold target, sat_sub; rewrite !byte_len_app; lia).
  assert (∀ m c m', mid ++ after = m ++ c :: m' → b < byte_len before + byte_len m + char_len c) as Hbig.
  { intros [|d m] c m' E; [rewrite byte_len_nil; specialize (Hmax _ _ E); lia|].
    specialize (Hmax _ _ E). rewrite byte_len_cons. lia. }
  exists before, mid, after. split; [done|]. split; [|split_and!; [done|done| |]].
  - unfold split_string. destruct (before ++ mid ++ after) as [|c0 s0] eqn:E0.
    { apply app_nil in E0 as [-> [-> ->]%app_nil]. done. }
    cbn [is_empty]. rewrite <-E0. cbv zeta.
    assert (sat_sub (byte_len (before ++ mid ++ after)) e = target) as ->
      by (unfold sat_sub; rewrite Etg, !byte_len_app; lia). rewrite !foldl_app.
    rewrite loop_prefix by (rewrite N.add_0_l; lia).
    rewrite loop_removed; [|intros m c m' E; split|rewrite N.add_0_l; lia].
    2:{ rewrite N.add_0_l. apply (Hbig m c (m' ++ after)). by rewrite E, <-app_assoc. }
    2:{ specialize (Hmid _ _ _ E). lia. }
    rewrite !N.add_0_l.
    destruct (loop_suffix b target after (byte_len before + byte_len mid) (byte_len before)
      (byte_len (before ++ mid ++ after)) (char_count mid) false) as [st' ->].
    { intros m c m' E. split.
      - rewrite <-(N.add_assoc (byte_len before)), <-byte_len_app. apply (Hbig (mid ++ m) c m').
        by rewrite E, app_assoc.
      - destruct Hafter as [->|?]; [by destruct m|]. lia. }
    cbn [suffix_start prefix_end removed_chars orb].
    assert ((if is_empty after then byte_len (before ++ mid ++ after)
             else byte_len before + byte_len mid) = byte_len (before ++ mid)) as ->.
    { destruct after; cbn; rewrite ?app_nil_r, ?byte_len_app; done. }
    destruct (N.ltb_spec (byte_len (before ++ mid)) (byte_len before)) as [Hl|_];
      [rewrite byte_len_app in Hl; lia|].
    rewrite split_at_byte_app, app_assoc, split_at_byte_app. done.
  - destruct Hafter as [->|?]; [rewrite byte_len_nil; lia|]. lia.
  - intros m c ->. specialize (Hmid m c [] eq_refl). rewrite Etg, byte_len_app, byte_len_cons, byte_len_nil in Hmid.
    lia.
Qed.

(** ** Truncating a text *)

(** [s] with its middle replaced by the marker, within [max] bytes. *)
Definition truncated_to (s : str) (max : N) (use_tokens : bool) (out_text : str) : Prop :=
  ∃ before mid after, s = before ++ mid ++ after ∧ mid ≠ [] ∧
    out_text = before ++ format_truncation_marker use_tokens
      (if use_tokens then approx_tokens_from_byte_count (byte_len s - max) else char_count mid)
      ++ after ∧
    byte_len before <= max / 2 ∧ byte_len after <= max - max / 2 ∧
    (∀ c r, mid = c :: r → max / 2 < byte_len before + char_len c) ∧
    (∀ r c, mid = r ++ [c] → max - max / 2 < char_len c + byte_len after).

Lemma half_le n : n / 2 <= n.
Proof. apply N.Div0.div_le_upper_bound. lia. Qed.

Lemma byte_len_pos s : s ≠ [] → 0 < byte_len s.
Proof. destruct s as [|c s]; [done|]. rewrite byte_len_cons. pose proof (char_len_pos c). lia. Qed.

Lemma truncate_estimate_spec s max ut :
  byte_len s <= USIZE_MAX →
  ∃ o, truncate_with_byte_estimate s max ut = Some o ∧
    if byte_len s <=? max then o = s else truncated_to s max ut o.
Proof.
  intros Hs. unfold truncate_with_byte_estimate.
  destruct (is_empty s) eqn:Es.
  { apply is_empty_true in Es as ->. exists []. rewrite byte_len_nil.
    by destruct (N.leb_spec 0 max) as [_|?]; [|lia]. }
  apply is_empty_false in Es. pose proof (byte_len_pos s Es).
  destruct (N.eqb_spec max 0) as [->|Hm].
  { eexists. split; [done|]. destruct (N.leb_spec (byte_len s) 0); [lia|].
    exists [], s, []. rewrite !app_nil_r, byte_len_nil, N.sub_0_r. unfold removed_units.
    split_and!; [done|done|done|done|done| |].
    - intros c r _. pose proof (char_len_pos c). change (0 / 2) with 0. lia.
    - intros r c _. pose proof (char_len_pos c). change (0 - 0 / 2) with 0. lia. }
  destruct (N.leb_spec (byte_len s) max) as [Hle|Hgt]; [by eexists|].
  unfold split_budget. pose proof (half_le max).
  destruct (split_string_spec s (max / 2) (max - max / 2) Hs)
    as (before & mid & after & E & -> & H1 & H2 & H3 & H4).
  eexists. split; [done|]. exists before, mid, after.
  assert (byte_len s = byte_len before + byte_len mid + byte_len after) as El
    by (rewrite E, !byte_len_app; lia).
  split_and!; try done.
  - intros ->. rewrite byte_len_nil in El. lia.
  - intros c r ->. by apply (H2 c (r ++ after)).
Qed.

(** C37: A text over the budget keeps its two ends: truncation of a text whose length fits
    in a [usize] never panics on a character boundary; a text within the budget is returned
    as it is; otherwise the result is a beginning of at most half the budget and an end of
    at most the other half, neither of which could take one more character, around a marker.
    Under a byte policy the marker counts the characters left out; under a token policy it
    gives the tokens of the bytes by which the text exceeds the budget, which is less than
    what is left out when characters straddle the cuts ([token_marker_below_removed]). *)
Theorem truncate_text_exact (s : str) (p : TruncationPolicy) :
  byte_len s <= USIZE_MAX →
  ∃ o, truncate_text s p = Some o ∧
    if byte_len s <=? byte_budget p then o = s
    else truncated_to s (byte_budget p) (match p with Bytes _ => false | Tokens _ => true end) o.
Proof.
  intros Hs. destruct p as [n|n]; cbn [truncate_text byte_budget].
  { exact (truncate_estimate_spec s n false Hs). }
  unfold truncate_middle_with_token_budget.
  destruct (is_empty s) eqn:Es.
  { apply is_empty_true in Es as ->. exists []. split; [done|]. rewrite byte_len_nil.
    destruct (N.leb_spec 0 (approx_bytes_for_tokens n)); [done|lia]. }
  destruct ((0 <? n) && (byte_len s <=? approx_bytes_for_tokens n)) eqn:Eb.
  { apply andb_true_iff in Eb as [_ Eb]. exists s. split; [done|]. by rewrite Eb. }
  destruct (truncate_estimate_spec s (approx_bytes_for_tokens n) true Hs) as (o & -> & Ho).
  exists o. split; [|done]. cbn. by destruct (o == s).
Qed.

Lemma truncate_text_exact_witness :
  truncate_text (lit "abcdefghij") (Bytes 4)
  = Some (lit "ab" ++ format_truncation_marker false 6 ++ lit "ij") ∧
  truncated_to (lit "abcdefghij") 4 false (lit "ab" ++ format_truncation_marker false 6 ++ lit "ij").
Proof.
  split; [by_compute|].
  destruct (truncate_text_exact (lit "abcdefghij") (Bytes 4)) as (o & Ho & H); [by_compute|].
  assert (o = lit "ab" ++ format_truncation_marker false 6 ++ lit "ij") as <-; [|exact H].
  apply (inj Some). rewrite <-Ho. by_compute.
Defined.

(** Four characters of three bytes under a budget of one token are all left out, three
    tokens by their length; the marker says two, the tokens over the budget. *)
Example token_marker_below_removed :
  let s := [9731; 9731; 9731; 9731] in
  truncate_text s (Tokens 1) = Some (format_truncation_marker true 2) ∧
  approx_tokens_from_byte_count (byte_len s) = 3.
Proof. split; by_compute. Qed.

(** The token count is reported exactly when the text was changed. *)
Lemma token_budget_reports s n o t :
  byte_len s <= USIZE_MAX → truncate_middle_with_token_budget s n = Some (o, t) →
  t = if o == s then None else Some (approx_token_count s).
Proof.
  intros Hs. unfold truncate_middle_with_token_budget. destruct (is_empty s) eqn:Es.
  { apply is_empty_true in Es as ->. by intros [= <- <-]. }
  destruct ((0 <? n) && _); [intros [= <- <-]; by rewrite str_eqb_refl|].
  destruct (truncate_with_byte_estimate s _ true) as [x|]; [|done]. cbn.
  destruct (x == s) eqn:Ex; intros [= <- <-]; by rewrite Ex.
Qed.

(** ** Truncating items *)

Definition texts (items : list FunctionCallOutputContentItem) : list str := omap text_of items.
Definition others (items : list FunctionCallOutputContentItem) : list FunctionCallOutputContentItem :=
  List.filter (λ i, negb (is_text i)) items.
Definition total_cost (p : TruncationPolicy) (ts : list str) : N :=
  foldr (λ t n, item_cost p t + n) 0 ts.

(** Of the texts [ts], under budget [b], the first [k] are kept, [cut] is what is
    shown of the next one and [om] texts are left out. *)
Definition kept_texts (p : TruncationPolicy) (b : N) (ts : list str) (k : nat) (cut : list str)
    (om : nat) : Prop :=
  total_cost p (take k ts) <= b ∧
  match drop k ts with
  | [] => cut = [] ∧ om = 0%nat
  | t :: rest =>
      let left_over := b - total_cost p (take k ts) in
      if left_over =? 0 then cut = [] ∧ om = S (length rest)
      else left_over < item_cost p t ∧ om = length rest ∧
        ∃ x, truncate_text t (with_budget p left_over) = Some x ∧ cut = [x]
  end.

Lemma texts_app l m : texts (l ++ m) = texts l ++ texts m.
Proof. unfold texts. by rewrite omap_app. Qed.
Lemma others_app l m : others (l ++ m) = others l ++ others m.
Proof. apply List.filter_app. Qed.

Lemma others_others l : others (others l) = others l.
Proof.
  unfold others. induction l as [|i l IH]; [done|]. cbn.
  destruct (negb (is_text i)) eqn:E; [|done]. cbn. by rewrite E, IH.
Qed.
Lemma texts_others l : texts (others l) = [].
Proof. unfold texts, others. by induction l as [|[] l IH]. Qed.

Lemma truncate_items_exhausted p items o n :
  truncate_items p (mkItems o 0 n) items
  = Some (mkItems (o ++ others items) 0 (n + length (texts items))).
Proof.
  revert o n. induction items as [|[t|u d|x] items IH]; intros o n; cbn [truncate_items];
    [by rewrite app_nil_r, Nat.add_0_r|..]; cbn; rewrite IH, <-?app_assoc; try done.
  do 2 f_equal. unfold texts. cbn. lia.
Qed.

(** The snippet of a text over a positive budget is not empty. *)
Lemma truncate_text_over p t b :
  byte_len t <= USIZE_MAX → 0 < b → b < item_cost p t →
  ∃ x, truncate_text t (with_budget p b) = Some x ∧ is_empty x = false.
Proof.
  intros Ht Hb Hc. destruct p as [n|n]; cbn [with_budget item_cost truncate_text] in *.
  - destruct (truncate_estimate_spec t b false Ht) as (x & Hx & H).
    destruct (N.leb_spec (byte_len t) b); [lia|]. exists x. split; [exact Hx|].
    destruct H as (be & mid & af & _ & _ & -> & _). by destruct be.
  - unfold truncate_middle_with_token_budget, approx_token_count in *.
    destruct (is_empty t) eqn:Et.
    { apply is_empty_true in Et as ->. exfalso. apply (N.nlt_0_r b).
      assert (item_cost (Tokens n) [] = 0) as <- by by_compute. exact Hc. }
    destruct ((0 <? b) && _) eqn:Eb; [by exists t|].
    destruct (truncate_estimate_spec t (approx_bytes_for_tokens b) true Ht) as (x & Hx & H).
    rewrite Hx. exists x. cbn. split; [by destruct (x == t)|].
    destruct (byte_len t <=? _); [by subst x|].
    destruct H as (be & mid & af & _ & _ & -> & _). by destruct be.
Qed.

Lemma truncate_items_spec p items : ∀ o b,
  (∀ t, t ∈ texts items → byte_len t <= USIZE_MAX) →
  ∃ r b' k cut om, truncate_items p (mkItems o b 0) items = Some (mkItems (o ++ r) b' om) ∧
    others r = others items ∧ texts r = take k (texts items) ++ cut ∧
    kept_texts p b (texts items) k cut om.
Proof.
  induction items as [|i items IH]; intros o b Hl; cbn [truncate_items].
  { exists [], b, 0%nat, [], 0%nat. rewrite app_nil_r. split_and!; try done. split; [cbn; lia|done]. }
  destruct (is_text i) eqn:Ei; last first.
  { destruct (IH (o ++ [i]) b) as (r & b' & k & cut & om & Hr & Ho & Ht & Hk).
    { intros t Ht. apply Hl. destruct i; [done|exact Ht|exact Ht]. }
    exists (i :: r), b', k, cut, om. split_and!.
    - destruct i; [done|..]; cbn; by rewrite Hr, <-app_assoc.
    - unfold others in *. destruct i; [done|..]; cbn; by rewrite Ho.
    - destruct i; [done|..]; exact Ht.
    - destruct i; [done|..]; exact Hk. }
  destruct i as [t| |]; try done. clear Ei. cbn [truncate_item mbind option_bind remaining_budget out omitted_text_items].
  change (texts (InputText t :: items)) with (t :: texts items) in *.
  change (others (InputText t :: items)) with (others items).
  destruct (N.eqb_spec b 0) as [->|Hb].
  { cbn [mbind option_bind]. rewrite truncate_items_exhausted. exists (others items), 0, 0%nat, [], (S (length (texts items))).
    split_and!; [done| | |].
    - apply others_others.
    - apply texts_others.
    - split; [cbn; lia|done]. }
  destruct (N.leb_spec (item_cost p t) b) as [Hc|Hc].
  - destruct (IH (o ++ [InputText t]) (sat_sub b (item_cost p t))) as (r & b' & k & cut & om & Hr & Ho & Ht & Hk).
    { intros t' Ht. apply Hl. by right. }
    exists (InputText t :: r), b', (S k), cut, om. cbn [mbind option_bind]. rewrite Hr, <-app_assoc.
    split_and!; [done|done|by change (t :: texts r = t :: (take k (texts items) ++ cut)); rewrite Ht|].
    unfold kept_texts, sat_sub in Hk |- *. 
    change (total_cost p (take (S k) (t :: texts items)))
      with (item_cost p t + total_cost p (take k (texts items))).
    change (drop (S k) (t :: texts items)) with (drop k (texts items)).
    destruct Hk as [Hk1 Hk2]. split; [lia|].
    by replace (b - (item_cost p t + total_cost p (take k (texts items))))
      with (b - item_cost p t - total_cost p (take k (texts items))) by lia.
  - destruct (truncate_text_over p t b) as (x & Hx & Hx'); [apply Hl; by left|lia|done|].
    rewrite Hx. cbn [mbind option_bind]. rewrite Hx', truncate_items_exhausted.
    exists (InputText x :: others items), 0, 0%nat, [x], (length (texts items)).
    rewrite <-app_assoc. split_and!; [done| | |].
    + apply others_others.
    + change (x :: texts (others items) = [x]). by rewrite texts_others.
    + split; [cbn; lia|]. cbn [take drop total_cost foldr]. rewrite N.sub_0_r.
      destruct (N.eqb_spec b 0); [done|]. split_and!; [done|done|]. by exists x.
Qed.

(** Truncating the items of a tool output keeps every image and encrypted
    item in place and the longest run of texts that fits the budget; the next text
    is cut to what is left, and the texts after it are only counted, in a note at
    the end.  It never fails. *)
Theorem truncate_items_exact (items : list FunctionCallOutputContentItem) (p : TruncationPolicy) :
  (∀ t, t ∈ texts items → byte_len t <= USIZE_MAX) →
  ∃ r k cut om, truncate_function_output_items_with_policy items p
                = Some (r ++ omitted_note om) ∧
    others r = others items ∧ texts r = take k (texts items) ++ cut ∧
    kept_texts p (initial_budget p) (texts items) k cut om.
Proof.
  intros Hl. unfold truncate_function_output_items_with_policy.
  destruct (truncate_items_spec p items [] (initial_budget p) Hl)
    as (r & b' & k & cut & om & -> & Ho & Ht & Hk).
  by exists r, k, cut, om.
Qed.

Lemma truncate_items_exact_witness :
  truncate_function_output_items_with_policy
    [InputText (lit "abc"); InputImage (lit "u") None; InputText (lit "defghi"); InputText (lit "j")]
    (Bytes 5)
  = Some [InputText (lit "abc"); InputImage (lit "u") None;
          InputText (lit "d" ++ format_truncation_marker false 4 ++ lit "i");
          InputText (lit "[omitted 1 text items ...]")] ∧
  ∃ r k cut om, truncate_function_output_items_with_policy
    [InputText (lit "abc"); InputImage (lit "u") None; InputText (lit "defghi"); InputText (lit "j")]
    (Bytes 5) = Some (r ++ omitted_note om) ∧ others r = [InputImage (lit "u") None] ∧
    kept_texts (Bytes 5) 5 [lit "abc"; lit "defghi"; lit "j"] k cut om.
Proof.
  split; [by_compute|].
  destruct (truncate_items_exact
    [InputText (lit "abc"); InputImage (lit "u") None; InputText (lit "defghi"); InputText (lit "j")]
    (Bytes 5)) as (r & k & cut & om & H1 & H2 & _ & H4).
  { intros t Ht. repeat (apply elem_of_cons in Ht as [->|Ht]; [by_compute|]). by apply elem_of_nil in Ht. }
  exists r, k, cut, om. split; [exact H1|]. split; [exact H2|exact H4].
Defined.
