(* ===== verification/Template.v ===== *)
(** * Text templates (codex-rs/utils/template/src/lib.rs)

    The strict template language of prompts: placeholders, doubled delimiters for
    literal ones, and rendering with exactly the values the template names. *)

From S2P Require Import Prelude RustStr.

(** ** Data *)

Inductive TemplateParseError :=
| EmptyPlaceholder (start : nat)
| NestedPlaceholder (start : nat)
| UnmatchedClosingDelimiter (start : nat)
| UnterminatedPlaceholder (start : nat).

Inductive TemplateRenderError :=
| DuplicateValue (name : str)
| ExtraValue (name : str)
| MissingValue (name : str).

Inductive TemplateError :=
| ParseError (e : TemplateParseError)
| RenderError (e : TemplateRenderError).

Inductive Segment :=
| Literal (text : str)
| Placeholder (name : str).

Record Template := mkTemplate {
  placeholders : gset (list N);
  segments : list Segment }.

Definition opening : str := [123%N; 123%N].
Definition closing : str := [125%N; 125%N].

(** ** Parsing *)

(** The segments are kept in reverse while they are collected. *)
Definition push_literal (rsegments : list Segment) (text : str) : list Segment :=
  if is_empty text then rsegments
  else match rsegments with
       | Literal existing :: rest => Literal (existing ++ text) :: rest
       | _ => Literal text :: rsegments
       end.

(** From [cursor] on, with [rest] ahead and [name] behind since the delimiter at [start]. *)
Fixpoint placeholder_loop (start cursor : nat) (name rest : str)
    : result TemplateParseError (str * nat * str) :=
  match rest with
  | [] => Err (UnterminatedPlaceholder start)
  | c :: rest' =>
      if starts_with opening rest then Err (NestedPlaceholder start)
      else match strip_prefix closing rest with
           | Some after =>
               if is_empty (trim name) then Err (EmptyPlaceholder start)
               else Ok (trim name, cursor + str_len closing, after)
           | None => placeholder_loop start (cursor + len_utf8 c) (name ++ [c]) rest'
           end
  end.

Definition parse_placeholder (start : nat) (rest : str) : result TemplateParseError (str * nat * str) :=
  placeholder_loop start (start + str_len opening) [] (drop 2 rest).

(** [literal] is [source[literal_start..cursor]]; every turn consumes a character. *)
Fixpoint parse_loop (fuel cursor : nat) (names : gset (list N)) (rsegments : list Segment)
    (literal rest : str) : option (result TemplateParseError Template) :=
  match fuel with
  | 0 => None
  | S fuel =>
      match rest with
      | [] => Some (Ok (mkTemplate names (reverse (push_literal rsegments literal))))
      | c :: rest' =>
          if starts_with (opening ++ opening) rest then
            parse_loop fuel (cursor + 4) names (push_literal (push_literal rsegments literal) opening)
              [] (drop 4 rest)
          else if starts_with (closing ++ closing) rest then
            parse_loop fuel (cursor + 4) names (push_literal (push_literal rsegments literal) closing)
              [] (drop 4 rest)
          else if starts_with opening rest then
            match parse_placeholder cursor rest with
            | Err e => Some (Err e)
            | Ok (name, next, after) =>
                parse_loop fuel next ({[name]} ∪ names)
                  (Placeholder name :: push_literal rsegments literal) [] after
            end
          else if starts_with closing rest then Some (Err (UnmatchedClosingDelimiter cursor))
          else parse_loop fuel (cursor + len_utf8 c) names rsegments (literal ++ [c]) rest'
      end
  end.

Definition parse (source : str) : option (result TemplateParseError Template) :=
  parse_loop (S (length source)) 0 ∅ [] [] source.

(** ** Rendering *)

Fixpoint build_variable_map (m : gmap (list N) (list N)) (variables : list (str * str))
    : result TemplateRenderError (gmap (list N) (list N)) :=
  match variables with
  | [] => Ok m
  | (name, value) :: variables =>
      if opt_is_some (m !! name) then Err (DuplicateValue name)
      else build_variable_map (<[name := value]> m) variables
  end.

(** The order of [BTreeSet] and [BTreeMap]. *)
Definition in_order (s : gset (list N)) : list str := merge_sort str_le (elements s).

Fixpoint render_segments (m : gmap (list N) (list N)) (rendered : str) (segs : list Segment)
    : result TemplateRenderError str :=
  match segs with
  | [] => Ok rendered
  | Literal text :: segs => render_segments m (rendered ++ text) segs
  | Placeholder name :: segs =>
      match m !! name with
      | Some value => render_segments m (rendered ++ value) segs
      | None => Err (MissingValue name)
      end
  end.

Definition render_template (t : Template) (variables : list (str * str)) : result TemplateRenderError str :=
  m ← build_variable_map ∅ variables;
  match find (λ name, negb (opt_is_some (m !! name))) (in_order (placeholders t)) with
  | Some name => Err (MissingValue name)
  | None =>
      match find (λ name, negb (bool_decide (name ∈ placeholders t))) (in_order (dom m)) with
      | Some name => Err (ExtraValue name)
      | None => render_segments m [] (segments t)
      end
  end.

Definition render (template : str) (variables : list (str * str)) : option (result TemplateError str) :=
  r ← parse template;
  Some (t ← map_err ParseError r; map_err RenderError (render_template t variables)).

(** ** Termination *)

Lemma placeholder_loop_shorter start cursor name rest n next after :
  placeholder_loop start cursor name rest = Ok (n, next, after) → length after < length rest.
Proof.
  revert cursor name. induction rest as [|c rest IH]; intros cursor name H; [done|].
  cbn [placeholder_loop] in H. destruct (starts_with opening (c :: rest)); [done|].
  destruct (strip_prefix closing (c :: rest)) as [s|] eqn:E.
  - destruct (is_empty (trim name)); [done|]. injection H as _ _ <-.
    apply strip_prefix_Some in E. rewrite E. rewrite length_app. cbn. lia.
  - apply IH in H. cbn. lia.
Qed.

Lemma parse_placeholder_shorter start c d rest n next after :
  parse_placeholder start (c :: d :: rest) = Ok (n, next, after) → length after < length rest.
Proof. apply placeholder_loop_shorter. Qed.

Lemma starts_with_length p s : starts_with p s = true → length p ≤ length s.
Proof. intros [r ->]%starts_with_true. rewrite length_app. lia. Qed.

Lemma parse_loop_fuel f1 f2 cursor names rsegs literal rest :
  length rest < f1 → length rest < f2 →
  parse_loop f1 cursor names rsegs literal rest = parse_loop f2 cursor names rsegs literal rest.
Proof.
  revert f2 cursor names rsegs literal rest. induction f1 as [|f1 IH]; intros f2 cursor names rsegs literal rest H1 H2; [lia|].
  destruct f2 as [|f2]; [lia|]. cbn [parse_loop]. destruct rest as [|c rest]; [done|]. cbn [length] in H1, H2.
  destruct (starts_with (opening ++ opening) (c :: rest)) eqn:E1.
  { apply starts_with_length in E1. cbn [length app opening] in E1. apply IH; rewrite length_drop; cbn [length]; lia. }
  destruct (starts_with (closing ++ closing) (c :: rest)) eqn:E2.
  { apply starts_with_length in E2. cbn [length app closing] in E2. apply IH; rewrite length_drop; cbn [length]; lia. }
  destruct (starts_with opening (c :: rest)) eqn:E3.
  { apply starts_with_length in E3. cbn [length opening] in E3. destruct rest as [|d rest]; [cbn in E3; lia|].
    destruct (parse_placeholder cursor (c :: d :: rest)) as [[[n next] after]|e] eqn:Ep; [|done].
    apply parse_placeholder_shorter in Ep. apply IH; cbn in *; lia. }
  destruct (starts_with closing (c :: rest)); [done|]. apply IH; lia.
Qed.

Lemma parse_loop_total f cursor names rsegs literal rest :
  length rest < f → is_Some (parse_loop f cursor names rsegs literal rest).
Proof.
  revert cursor names rsegs literal rest. induction f as [|f IH]; intros cursor names rsegs literal rest H1; [lia|].
  cbn [parse_loop]. destruct rest as [|c rest]; [by eexists|]. cbn [length] in H1.
  destruct (starts_with (opening ++ opening) (c :: rest)) eqn:E1.
  { apply starts_with_length in E1. cbn [length app opening] in E1. apply IH; rewrite length_drop; cbn [length]; lia. }
  destruct (starts_with (closing ++ closing) (c :: rest)) eqn:E2.
  { apply starts_with_length in E2. cbn [length app closing] in E2. apply IH; rewrite length_drop; cbn [length]; lia. }
  destruct (starts_with opening (c :: rest)) eqn:E3.
  { apply starts_with_length in E3. cbn [length opening] in E3. destruct rest as [|d rest]; [cbn in E3; lia|].
    destruct (parse_placeholder cursor (c :: d :: rest)) as [[[n next] after]|e] eqn:Ep; [|by eexists].
    apply parse_placeholder_shorter in Ep. apply IH; cbn in *; lia. }
  destruct (starts_with closing (c :: rest)); [by eexists|]. apply IH; lia.
Qed.

(** ** Printing *)

Lemma parse_loop_cons fuel cursor names rsegs literal c rest :
  parse_loop (S fuel) cursor names rsegs literal (c :: rest) =
  if starts_with (opening ++ opening) (c :: rest) then
    parse_loop fuel (cursor + 4) names (push_literal (push_literal rsegs literal) opening) [] (drop 3 rest)
  else if starts_with (closing ++ closing) (c :: rest) then
    parse_loop fuel (cursor + 4) names (push_literal (push_literal rsegs literal) closing) [] (drop 3 rest)
  else if starts_with opening (c :: rest) then
    match parse_placeholder cursor (c :: rest) with
    | Err e => Some (Err e)
    | Ok (name, next, after) =>
        parse_loop fuel next ({[name]} ∪ names) (Placeholder name :: push_literal rsegs literal) [] after
    end
  else if starts_with closing (c :: rest) then Some (Err (UnmatchedClosingDelimiter cursor))
  else parse_loop fuel (cursor + len_utf8 c) names rsegs (literal ++ [c]) rest.
Proof. done. Qed.

Definition parse_from (cursor : nat) (names : gset (list N)) (rsegs : list Segment) (literal rest : str) :=
  parse_loop (S (length rest)) cursor names rsegs literal rest.

Definition is_pair (b c d : char) : bool := N.eqb c b && N.eqb d b.

Fixpoint escape (s : str) : str :=
  match s with
  | c :: ((d :: s'') as s') =>
      if is_pair 123 c d then opening ++ opening ++ escape s''
      else if is_pair 125 c d then closing ++ closing ++ escape s''
      else c :: escape s'
  | _ => s
  end.

Definition print_placeholder (name : str) : str := opening ++ 32%N :: name ++ 32%N :: closing.
Definition print_segment (seg : Segment) : str :=
  match seg with Literal text => escape text | Placeholder name => print_placeholder name end.
Definition print_template (segs : list Segment) : str := concat (print_segment <$> segs).

Lemma escape_pair_open s : escape (123%N :: 123%N :: s) = opening ++ opening ++ escape s.
Proof. done. Qed.
Lemma escape_pair_close s : escape (125%N :: 125%N :: s) = closing ++ closing ++ escape s.
Proof. done. Qed.

Lemma escape_head c s : ∃ s', escape (c :: s) = c :: s'.
Proof.
  destruct s as [|d s]; [by eexists|]. cbn [escape]. unfold is_pair.
  destruct (N.eqb_spec c 123) as [->|]; [|destruct (N.eqb_spec c 125) as [->|]]; cbn.
  - destruct (N.eqb d 123); eauto.
  - destruct (N.eqb d 125); eauto.
  - eauto.
Qed.

Lemma push_push rs a b : push_literal (push_literal rs a) b = push_literal rs (a ++ b).
Proof.
  unfold push_literal. destruct a as [|x a]; [done|]. destruct b as [|y b]; [by rewrite app_nil_r|].
  cbn [is_empty app]. destruct rs as [|[t|n] rs]; cbn; [done| |done]. by rewrite <-app_assoc.
Qed.

(** A character that starts no delimiter. *)
Lemma parse_from_char cursor names rsegs literal c rest :
  (∀ d, head rest = Some d → (c = 123%N → d ≠ 123%N) ∧ (c = 125%N → d ≠ 125%N)) →
  parse_from cursor names rsegs literal (c :: rest) =
  parse_from (cursor + len_utf8 c) names rsegs (literal ++ [c]) rest.
Proof.
  intros H. unfold parse_from. rewrite parse_loop_cons.
  assert (∀ b more, b = 123%N ∨ b = 125%N → starts_with (b :: b :: more) (c :: rest) = false) as Hno.
  { intros b more Hb. apply not_true_is_false. intros [r Hr]%starts_with_true. cbn in Hr. injection Hr as -> ->.
    destruct (H b eq_refl) as [H1 H2]. destruct Hb as [-> | ->]; [by apply H1|by apply H2]. }
  unfold opening, closing. cbn [app]. rewrite !Hno by auto. done.
Qed.

Lemma parse_from_pair cursor names rsegs literal b rest :
  b = 123%N ∨ b = 125%N →
  parse_from cursor names rsegs literal (b :: b :: b :: b :: rest) =
  parse_from (cursor + 4) names (push_literal (push_literal rsegs literal) [b; b]) [] rest.
Proof.
  intros Hb. unfold parse_from. rewrite parse_loop_cons.
  assert (∀ b' s, starts_with [b'; b'; b'; b'] (b' :: b' :: b' :: b' :: s) = true) as Hs.
  { intros b' s. apply starts_with_true. by exists s. }
  destruct Hb as [-> | ->]; unfold opening, closing; cbn [app]; rewrite ?Hs.
  - apply parse_loop_fuel; cbn; lia.
  - replace (starts_with [123%N; 123%N; 123%N; 123%N] (125%N :: 125%N :: 125%N :: 125%N :: rest)) with false by done.
    apply parse_loop_fuel; cbn; lia.
Qed.

(** What follows a literal: nothing or a placeholder. *)
Definition follows (text tail : str) : Prop :=
  tail = [] ∨ (head tail = Some 123%N ∧ last text ≠ Some 123%N).

Lemma parse_literal cursor names rsegs literal text tail :
  follows text tail →
  ∃ cursor' rsegs' literal',
    parse_from cursor names rsegs literal (escape text ++ tail) = parse_from cursor' names rsegs' literal' tail ∧
    push_literal rsegs' literal' = push_literal rsegs (literal ++ text).
Proof.
  remember (length text) as n eqn:Hn. revert text Hn cursor rsegs literal.
  induction (lt_wf n) as [n _ IH]. intros text Hn cursor rsegs literal Hf.
  destruct text as [|c text]; [exists cursor, rsegs, literal; by rewrite app_nil_r|].
  assert (∀ s1 s2, c :: text = s1 ++ s2 → s2 ≠ [] → follows s2 tail) as Hsuf.
  { intros s1 s2 E Hne. destruct Hf as [->|[Hh Hl]]; [by left|right]. split; [done|].
    rewrite E, last_app in Hl. destruct (last s2) eqn:El; [done|]. by apply last_None in El. }
  assert (∀ b rest, b = 123%N ∨ b = 125%N → c :: text = b :: b :: rest → ∃ cursor' rsegs' literal',
    parse_from cursor names rsegs literal (([b; b] ++ [b; b] ++ escape rest) ++ tail) =
      parse_from cursor' names rsegs' literal' tail ∧
    push_literal rsegs' literal' = push_literal rsegs (literal ++ c :: text)) as Hpair.
  { intros b rest Hb E. rewrite E. cbn [app]. rewrite parse_from_pair by done.
    assert (follows rest tail ∨ rest = []) as Hfr.
    { destruct rest as [|x rest]; [by right|left]. by apply (Hsuf [b; b] (x :: rest)). }
    destruct (decide (rest = [])) as [->|Hne].
    - eexists _, _, []. cbn [escape app]. split; [done|]. rewrite !push_push, app_nil_r. done.
    - destruct (IH (length rest)) with (text := rest) (cursor := cursor + 4) (literal := @nil N)
        (rsegs := push_literal (push_literal rsegs literal) [b; b]) as (cu & rs & l & H1 & H2); [|done|by destruct Hfr|].
      { rewrite Hn, E. cbn. lia. }
      exists cu, rs, l. split; [done|]. by rewrite H2, !push_push, <-?app_assoc. }
  assert (∀ rest, text = rest → (∀ d, head (escape rest ++ tail) = Some d → (c = 123%N → d ≠ 123%N) ∧ (c = 125%N → d ≠ 125%N)) →
    ∃ cursor' rsegs' literal',
    parse_from cursor names rsegs literal (c :: escape rest ++ tail) = parse_from cursor' names rsegs' literal' tail ∧
    push_literal rsegs' literal' = push_literal rsegs (literal ++ c :: text)) as Hchar.
  { intros rest -> Hd. rewrite parse_from_char by done. destruct (decide (rest = [])) as [->|Hne].
    - cbn [escape app]. eexists _, _, _. split; [done|]. done.
    - destruct (IH (length rest)) with (text := rest) (cursor := cursor + len_utf8 c) (literal := literal ++ [c])
        (rsegs := rsegs) as (cu & rs & l & H1 & H2); [rewrite Hn; cbn; lia|done|by apply (Hsuf [c])|].
      exists cu, rs, l. split; [done|]. rewrite H2. by rewrite <-app_assoc. }
  destruct text as [|d text].
  { apply (Hchar []); [done|]. cbn [escape app]. intros d Hd. destruct Hf as [->|[Hh Hl]]; [done|].
    rewrite Hh in Hd. injection Hd as <-. split; [intros ->; by cbn in Hl|done]. }
  destruct (is_pair 123 c d) eqn:E1.
  { unfold is_pair in E1. apply andb_true_iff in E1 as [->%N.eqb_eq ->%N.eqb_eq]. apply (Hpair 123%N); auto. }
  destruct (is_pair 125 c d) eqn:E2.
  { unfold is_pair in E2. apply andb_true_iff in E2 as [->%N.eqb_eq ->%N.eqb_eq]. apply (Hpair 125%N); auto. }
  replace (escape (c :: d :: text)) with (c :: escape (d :: text)) by (cbn [escape]; by rewrite E1, E2).
  apply Hchar; [done|]. destruct (escape_head d text) as [s' ->]. intros d' [= <-].
  unfold is_pair in E1, E2. split; intros -> ->; discriminate.
Qed.

(** ** Placeholders *)

(** A name as it can be written: trimmed, not empty and without delimiters. *)
Definition name_ok (n : str) : Prop :=
  trimmed n ∧ n ≠ [] ∧ contains opening n = false ∧ contains closing n = false.

Lemma contains_suffix p a b : contains p (a ++ b) = false → contains p b = false.
Proof.
  induction a as [|x a IH]; [done|]. cbn [app contains]. intros [_ H]%orb_false_iff. auto.
Qed.

Lemma contains_starts p s : contains p s = false → starts_with p s = false.
Proof. destruct s; cbn [contains]; [by intros [? _]%orb_false_iff|by intros [? _]%orb_false_iff]. Qed.

Lemma two_starts (b c d : char) s : starts_with [b; b] (c :: d :: s) = N.eqb b c && N.eqb b d.
Proof. unfold starts_with. cbn. destruct (N.eqb b c); [|done]. by destruct (N.eqb b d). Qed.

Lemma placeholder_scan start cursor name n tail :
  contains opening n = false → contains closing n = false →
  trim (name ++ n ++ [32%N]) ≠ [] →
  ∃ next, placeholder_loop start cursor name (n ++ 32%N :: closing ++ tail) =
    Ok (trim (name ++ n ++ [32%N]), next, tail).
Proof.
  revert cursor name. induction n as [|c n IH]; intros cursor name Ho Hc Ht.
  - cbn [app]. cbn [placeholder_loop].
    replace (starts_with opening (32%N :: closing ++ tail)) with false by done.
    replace (strip_prefix closing (32%N :: closing ++ tail)) with (@None str) by done.
    unfold closing at 1. cbn [app placeholder_loop].
    replace (starts_with opening (125%N :: 125%N :: tail)) with false by done.
    replace (strip_prefix closing (125%N :: 125%N :: tail)) with (Some tail) by done.
    cbn [app] in Ht. rewrite (proj2 (is_empty_false _) Ht). eauto.
  - assert (∀ b, b = 123%N ∨ b = 125%N → starts_with [b; b] (c :: n) = false →
      starts_with [b; b] (c :: n ++ 32%N :: closing ++ tail) = false) as Hno.
    { intros b Hb H. destruct n as [|d n]; cbn [app] in *; rewrite two_starts in *; [|done].
      destruct Hb as [-> | ->]; by rewrite andb_false_r. }
    cbn [app placeholder_loop].
    pose proof (Hno 123%N (or_introl eq_refl) (contains_starts _ _ Ho)) as H123.
    change [123%N; 123%N] with opening in H123. rewrite H123.
    assert (strip_prefix closing (c :: n ++ 32%N :: closing ++ tail) = None) as ->.
    { pose proof (Hno 125%N (or_intror eq_refl) (contains_starts _ _ Hc)) as H125.
      unfold starts_with in H125. change [125%N; 125%N] with closing in H125. by destruct (strip_prefix closing _). }
    destruct (IH (cursor + len_utf8 c) (name ++ [c])) as [next E].
    + by apply (contains_suffix _ [c]).
    + by apply (contains_suffix _ [c]).
    + by rewrite <-app_assoc.
    + exists next. rewrite E, <-app_assoc. done.
Qed.

Lemma trim_padded n : trimmed n → n ≠ [] → trim ((32%N :: n) ++ [32%N]) = n.
Proof.
  intros Ht Hne. unfold trim, trim_start. cbn [app drop_while].
  replace (is_whitespace 32) with true by done.
  rewrite drop_while_id.
  - unfold trim_end. rewrite reverse_app. change (reverse [32%N] ++ reverse n) with (32%N :: reverse n). cbn [drop_while].
    replace (is_whitespace 32) with true by done. rewrite drop_while_id; [by rewrite reverse_involutive|].
    intros c. rewrite head_reverse. apply Ht.
  - intros c Hc. destruct n as [|x n]; [done|]. by apply (proj1 Ht).
Qed.

Lemma parse_from_placeholder cursor names rsegs literal n tail :
  name_ok n →
  ∃ cursor', parse_from cursor names rsegs literal (print_placeholder n ++ tail) =
    parse_from cursor' ({[n]} ∪ names) (Placeholder n :: push_literal rsegs literal) [] tail.
Proof.
  intros (Ht & Hne & Ho & Hc). set (rest := 32%N :: (n ++ 32%N :: closing) ++ tail).
  change (print_placeholder n ++ tail) with (123%N :: 123%N :: rest). unfold parse_from. rewrite parse_loop_cons.
  change (opening ++ opening) with [123%N; 123%N; 123%N; 123%N].
  change (closing ++ closing) with [125%N; 125%N; 125%N; 125%N].
  replace (starts_with [123%N; 123%N; 123%N; 123%N] (123%N :: 123%N :: rest)) with false by done.
  replace (starts_with [125%N; 125%N; 125%N; 125%N] (123%N :: 123%N :: rest)) with false by done.
  replace (starts_with opening (123%N :: 123%N :: rest)) with true by done.
  unfold parse_placeholder. change (drop 2 (123%N :: 123%N :: rest)) with rest.
  assert (rest = (32%N :: n) ++ 32%N :: closing ++ tail) as Er.
  { unfold rest. rewrite <-app_assoc. done. }
  destruct (placeholder_scan cursor (cursor + str_len opening) [] (32%N :: n) tail) as [next E].
  - cbn [contains]. rewrite Ho. destruct n as [|x n]; [done|]. unfold opening. by rewrite two_starts.
  - cbn [contains]. rewrite Hc. destruct n as [|x n]; [done|]. unfold closing. by rewrite two_starts.
  - change ([] ++ (32%N :: n) ++ [32%N]) with ((32%N :: n) ++ [32%N]). by rewrite trim_padded.
  - rewrite Er, E. change ([] ++ (32%N :: n) ++ [32%N]) with ((32%N :: n) ++ [32%N]).
    rewrite trim_padded by done. exists next. apply parse_loop_fuel; [|lia].
    cbn [length]. rewrite length_app. cbn. lia.
Qed.

(** ** Round trip *)

Definition names_of (segs : list Segment) : gset (list N) :=
  list_to_set (omap (λ s, match s with Placeholder n => Some n | Literal _ => None end) segs).

(** Templates in normal form: literals are not empty, not adjacent, and end in no brace
    that a following placeholder would take. *)
Fixpoint normal (segs : list Segment) : Prop :=
  match segs with
  | [] => True
  | Literal t :: segs =>
      t ≠ [] ∧ normal segs ∧
      match segs with
      | [] => True
      | Placeholder _ :: _ => last t ≠ Some 123%N
      | Literal _ :: _ => False
      end
  | Placeholder n :: segs => name_ok n ∧ normal segs
  end.

Fixpoint push_segments (rsegs : list Segment) (segs : list Segment) : list Segment :=
  match segs with
  | [] => rsegs
  | Literal t :: segs => push_segments (push_literal rsegs t) segs
  | Placeholder n :: segs => push_segments (Placeholder n :: rsegs) segs
  end.

Lemma parse_printed cursor names rsegs literal segs :
  normal segs →
  parse_from cursor names rsegs literal (print_template segs) =
    Some (Ok (mkTemplate (names ∪ names_of segs) (reverse (push_segments (push_literal rsegs literal) segs)))).
Proof.
  revert cursor names rsegs literal. induction segs as [|[t|n] segs IH]; intros cursor names rsegs literal Hn.
  - unfold parse_from. cbn. unfold names_of. cbn. by rewrite union_empty_r_L.
  - cbn [normal] in Hn. destruct Hn as (Hne & Hn & Hnext).
    change (print_template (Literal t :: segs)) with (escape t ++ print_template segs).
    destruct (parse_literal cursor names rsegs literal t (print_template segs)) as (cu & rs & l & -> & E).
    { destruct segs as [|[t'|n'] segs]; [by left|done|right]. done. }
    rewrite IH by done. cbn [push_segments]. rewrite push_push, <-E. done.
  - cbn [normal] in Hn. destruct Hn as [Hok Hn].
    change (print_template (Placeholder n :: segs)) with (print_placeholder n ++ print_template segs).
    destruct (parse_from_placeholder cursor names rsegs literal n (print_template segs) Hok) as [cu ->].
    rewrite IH by done. cbn [push_segments]. do 3 f_equal. unfold names_of. cbn. set_solver.
Qed.

Lemma push_segments_normal rsegs segs :
  normal segs → match rsegs, segs with Literal _ :: _, Literal _ :: _ => False | _, _ => True end →
  push_segments rsegs segs = reverse segs ++ rsegs.
Proof.
  revert rsegs. induction segs as [|[t|n] segs IH]; intros rsegs Hn Hh; [done| |].
  - cbn [normal] in Hn. destruct Hn as (Hne & Hn & Hnext). cbn [push_segments].
    assert (push_literal rsegs t = Literal t :: rsegs) as ->.
    { unfold push_literal. rewrite (proj2 (is_empty_false t) Hne). by destruct rsegs as [|[]]. }
    rewrite IH, reverse_cons, <-app_assoc; [done|done|]. by destruct segs as [|[]].
  - cbn [normal] in Hn. destruct Hn as [_ Hn]. cbn [push_segments]. rewrite IH, reverse_cons, <-app_assoc; done.
Qed.

(** Parsing reads every source to an end, and is the inverse of writing: a template
    in normal form, written with its literal delimiters doubled, is read back exactly,
    with its names. *)
Theorem template_parse_print (source : str) (segs : list Segment) :
  is_Some (parse source) ∧
  (normal segs → parse (print_template segs) = Some (Ok (mkTemplate (names_of segs) segs))).
Proof.
  split; [apply parse_loop_total; lia|]. intros Hn. unfold parse. fold (parse_from 0 ∅ [] [] (print_template segs)).
  rewrite parse_printed by done. cbn [push_literal is_empty].
  by rewrite push_segments_normal, app_nil_r, reverse_involutive, union_empty_l_L.
Qed.

Definition demo_template : list Segment :=
  [Literal (lit "Hello "); Placeholder (lit "name"); Literal (lit ", {{literally}}")].

Lemma trimmed_check n :
  match head n with Some c => negb (is_whitespace c) | None => true end = true →
  match last n with Some c => negb (is_whitespace c) | None => true end = true → trimmed n.
Proof. intros H1 H2. split; intros c Hc; [rewrite Hc in H1|rewrite Hc in H2]; by apply negb_true_iff. Qed.

Lemma demo_normal : normal demo_template.
Proof.
  cbn. split; [by vm_compute|]. split; [|by vm_compute].
  split; [|split; [by vm_compute|done]].
  split; [by apply trimmed_check; vm_compute|]. split; [by vm_compute|by vm_compute].
Qed.

Lemma template_parse_print_witness :
  parse (lit "Hello {{ name }}, {{{{literally}}}}") = Some (Ok (mkTemplate (names_of demo_template) demo_template)).
Proof. exact (proj2 (template_parse_print [] demo_template) demo_normal). Defined.

(** ** Strict rendering *)

Lemma build_map_spec m vars :
  match build_variable_map m vars with
  | Ok m' => NoDup vars.*1 ∧ (∀ n, n ∈ vars.*1 → m !! n = None) ∧
      (∀ n v, (n, v) ∈ vars → m' !! n = Some v) ∧ (∀ n, n ∉ vars.*1 → m' !! n = m !! n)
  | Err (DuplicateValue n) =>
      ∃ l v l', vars = l ++ (n, v) :: l' ∧ (n ∈ l.*1 ∨ is_Some (m !! n)) ∧ NoDup l.*1 ∧
        ∀ x, x ∈ l.*1 → m !! x = None
  | Err _ => False
  end.
Proof.
  revert m. induction vars as [|[n v] vars IH]; intros m; cbn [build_variable_map].
  { split; [constructor|]. split; [by intros ? ?%not_elem_of_nil|]. split; [by intros ? ? ?%not_elem_of_nil|done]. }
  destruct (m !! n) as [v0|] eqn:E; cbn [opt_is_some].
  { exists [], v, vars. split; [done|]. split; [right; by eexists|]. split; [constructor|].
    by intros x ?%not_elem_of_nil. }
  specialize (IH (<[n := v]> m)). destruct (build_variable_map (<[n:=v]> m) vars) as [m'|[n'|n'|n']]; try done.
  - destruct IH as (H1 & H2 & H3 & H4).
    assert (n ∉ vars.*1) as Hn by (intros Hn; specialize (H2 n Hn); by rewrite lookup_insert_eq in H2).
    split; [by constructor|]. split; [|split].
    + intros n' [->|Hn']%elem_of_cons; [done|]. specialize (H2 n' Hn').
      by apply lookup_insert_None in H2 as [? _].
    + intros n' v' [[= -> ->]|Hv]%elem_of_cons; [rewrite H4 by done; apply lookup_insert_eq|by apply H3].
    + intros n' [Hne Hn']%not_elem_of_cons. rewrite H4 by done. by rewrite lookup_insert_ne.
  - destruct IH as (l & v' & l' & -> & Hn & Hnd & Hnone).
    assert (n ∉ l.*1) as Hnin by (intros Hin; specialize (Hnone n Hin); by rewrite lookup_insert_eq in Hnone).
    exists ((n, v) :: l), v', l'. split; [done|]. split; [|split; [by constructor|]].
    + destruct Hn as [Hn|Hn]; [left; by right|]. destruct (decide (n' = n)) as [->|Hne]; [left; by left|].
      rewrite lookup_insert_ne in Hn by done. by right.
    + intros x [->|Hx]%elem_of_cons; [done|]. specialize (Hnone x Hx). by apply lookup_insert_None in Hnone as [? _].
Qed.

Lemma elem_of_in_order s n : n ∈ in_order s ↔ n ∈ s.
Proof. unfold in_order. by rewrite merge_sort_Permutation, elem_of_elements. Qed.

Lemma in_order_sorted s : StronglySorted str_le (in_order s).
Proof. apply StronglySorted_merge_sort; apply _. Qed.

(** The first element of a sorted list that satisfies a predicate is the least. *)
Lemma find_least (p : str → bool) l n :
  StronglySorted str_le l → find p l = Some n → ∀ x, x ∈ l → p x = true → str_le n x.
Proof.
  induction 1 as [|a l Hs IH Ha]; cbn [find]; [done|]. destruct (p a) eqn:E.
  - intros [= <-] x [->|Hx]%elem_of_cons _; [unfold str_le; by rewrite str_cmp_refl|by eapply Forall_forall].
  - intros Hf x [->|Hx]%elem_of_cons Hp; [congruence|by apply IH].
Qed.

(** The text of a template under an assignment. *)
Definition fill (m : gmap (list N) (list N)) (seg : Segment) : str :=
  match seg with Literal t => t | Placeholder n => default [] (m !! n) end.

Lemma render_segments_ok m rendered segs :
  (∀ n, n ∈ names_of segs → is_Some (m !! n)) →
  render_segments m rendered segs = Ok (rendered ++ concat (fill m <$> segs)).
Proof.
  revert rendered. induction segs as [|[t|n] segs IH]; intros rendered Hm; cbn [render_segments].
  - by rewrite app_nil_r.
  - rewrite IH, <-app_assoc; [done|]. intros n Hn. apply Hm. done.
  - destruct (Hm n) as [v Hv]; [unfold names_of; cbn; set_solver|]. rewrite Hv, IH, <-app_assoc.
    + cbn. by rewrite Hv.
    + intros n' Hn'. apply Hm. unfold names_of in *. cbn. set_solver.
Qed.

(** The names of a parsed template are those of its segments. *)
Lemma names_of_app a b : names_of (a ++ b) = names_of a ∪ names_of b.
Proof. unfold names_of. by rewrite omap_app, list_to_set_app_L. Qed.

Lemma names_of_push rsegs t : names_of (reverse (push_literal rsegs t)) = names_of (reverse rsegs).
Proof.
  unfold push_literal. destruct (is_empty t); [done|].
  destruct rsegs as [|[x|n] rsegs]; rewrite ?reverse_cons, ?names_of_app; unfold names_of; cbn; set_solver.
Qed.

Lemma parse_loop_names f cursor names rsegs literal rest t :
  parse_loop f cursor names rsegs literal rest = Some (Ok t) → names_of (reverse rsegs) = names →
  names_of (segments t) = placeholders t.
Proof.
  revert cursor names rsegs literal rest. induction f as [|f IH]; intros cursor names rsegs literal rest H Hn; [done|].
  cbn [parse_loop] in H. destruct rest as [|c rest]; [injection H as <-; cbn [segments placeholders]; by rewrite names_of_push|].
  destruct (starts_with (opening ++ opening) _); [eapply IH; [exact H|by rewrite !names_of_push]|].
  destruct (starts_with (closing ++ closing) _); [eapply IH; [exact H|by rewrite !names_of_push]|].
  destruct (starts_with opening _).
  - destruct (parse_placeholder cursor (c :: rest)) as [[[n next] after]|e]; [|done]. eapply IH; [exact H|].
    rewrite reverse_cons, names_of_app, names_of_push, Hn. unfold names_of. cbn. set_solver.
  - destruct (starts_with closing _); [done|]. by eapply IH.
Qed.

(** Rendering is strict: it succeeds exactly when every name is given one value and
    the names are those of the template, and then fills the values in; otherwise the
    error names the first repeated value, or else the least missing one, or else the
    least one too many. *)
Theorem render_strict source t vars :
  parse source = Some (Ok t) →
  match render_template t vars with
  | Ok text => NoDup vars.*1 ∧ list_to_set vars.*1 = placeholders t ∧
      text = concat (fill (list_to_map vars) <$> segments t)
  | Err (DuplicateValue n) => ∃ l v l', vars = l ++ (n, v) :: l' ∧ n ∈ l.*1 ∧ NoDup l.*1
  | Err (MissingValue n) => NoDup vars.*1 ∧ n ∈ placeholders t ∧ (n ∉ vars.*1) ∧
      ∀ x, x ∈ placeholders t → x ∉ vars.*1 → str_le n x
  | Err (ExtraValue n) => NoDup vars.*1 ∧ (∀ x, x ∈ placeholders t → x ∈ vars.*1) ∧
      n ∈ vars.*1 ∧ (n ∉ placeholders t) ∧ ∀ x, x ∈ vars.*1 → x ∉ placeholders t → str_le n x
  end.
Proof.
  intros Hparse%parse_loop_names; [|done]. unfold render_template. pose proof (build_map_spec ∅ vars) as Hb.
  destruct (build_variable_map ∅ vars) as [m|[n|n|n]] eqn:Em; cbn [mbind result_bind]; try done.
  2:{ destruct Hb as (l & v & l' & -> & [Hn|[? Hn]] & Hnd & _); [eauto 7|by rewrite lookup_empty in Hn]. }
  destruct Hb as (Hnd & _ & H3 & H4).
  assert (∀ n, opt_is_some (m !! n) = true ↔ n ∈ vars.*1) as Hdom.
  { intros n. destruct (decide (n ∈ vars.*1)) as [Hn|Hn].
    - pose proof Hn as Hn'. apply list_elem_of_fmap in Hn' as ([n' v] & -> & Hv). cbn. by rewrite (H3 _ _ Hv).
    - rewrite (H4 n Hn), lookup_empty. done. }
  destruct (find _ (in_order (placeholders t))) as [n|] eqn:E1.
  { pose proof (find_least _ _ _ (in_order_sorted _) E1) as Hleast. apply find_Some in E1 as [Hin Hp].
    rewrite elem_of_in_order in Hin. apply negb_true_iff in Hp. split; [done|]. split; [done|]. split.
    - rewrite <-Hdom. by rewrite Hp.
    - intros x Hx Hx'. apply Hleast; [by apply elem_of_in_order|]. apply negb_true_iff, not_true_iff_false.
      by rewrite Hdom. }
  assert (∀ x, x ∈ placeholders t → x ∈ vars.*1) as Hall.
  { intros x Hx. apply Hdom. rewrite find_None in E1. specialize (E1 x (proj2 (elem_of_in_order _ _) Hx)).
    by apply negb_false_iff in E1. }
  assert (∀ n, n ∈ dom m ↔ n ∈ vars.*1) as Hdom'.
  { intros n. rewrite elem_of_dom, <-Hdom. destruct (m !! n); split; try done. }
  destruct (find _ (in_order (dom m))) as [n|] eqn:E2.
  { pose proof (find_least _ _ _ (in_order_sorted _) E2) as Hleast. apply find_Some in E2 as [Hin Hp].
    rewrite elem_of_in_order, Hdom' in Hin. apply negb_true_iff, bool_decide_eq_false in Hp.
    split; [done|]. split; [done|]. split; [done|]. split; [done|].
    intros x Hx Hx'. apply Hleast; [by apply elem_of_in_order, Hdom'|]. by apply negb_true_iff, bool_decide_eq_false. }
  rewrite render_segments_ok.
  - split; [done|]. split.
    + apply leibniz_equiv. intros x. rewrite elem_of_list_to_set. split; [|apply Hall].
      intros Hx. rewrite find_None in E2. specialize (E2 x).
      rewrite elem_of_in_order, Hdom' in E2. specialize (E2 Hx). by apply negb_false_iff, bool_decide_eq_true in E2.
    + cbn [app]. do 2 f_equal. assert (m = list_to_map vars) as ->; [|done]. apply map_eq. intros n.
      destruct (decide (n ∈ vars.*1)) as [Hn|Hn].
      * apply list_elem_of_fmap in Hn as ([n' v] & -> & Hv). cbn. rewrite (H3 _ _ Hv). symmetry.
        by apply elem_of_list_to_map_1.
      * rewrite (H4 n Hn), lookup_empty. symmetry. by apply not_elem_of_list_to_map_1.
  - intros n Hn. apply elem_of_dom, Hdom', Hall. set_solver.
Qed.

Lemma render_strict_witness :
  render_template (mkTemplate (names_of demo_template) demo_template) [(lit "name", lit "Ada")] =
    Ok (lit "Hello Ada, {{literally}}") ∧
  NoDup [(lit "name", lit "Ada")].*1.
Proof.
  pose proof (render_strict (print_template demo_template) (mkTemplate (names_of demo_template) demo_template)
    [(lit "name", lit "Ada")] ltac:(vm_compute; reflexivity)) as H.
  assert (render_template (mkTemplate (names_of demo_template) demo_template) [(lit "name", lit "Ada")] =
    Ok (lit "Hello Ada, {{literally}}")) as E by (vm_compute; reflexivity).
  rewrite E in H. split; [exact E|exact (proj1 H)].
Defined.
