(* ===== verification/IpAddress.v ===== *)
(** * IP addresses (std::net), as the network policy uses them

    [IpAddr::from_str] with the recursive-descent parser of the standard library
    (decimal octets without leading zeros, groups of at most four hexadecimal
    digits, one [::], an embedded IPv4 address in the last two groups), and the
    classification methods.  An IPv4 address is a 32-bit number; an IPv6 address
    is its eight 16-bit segments. *)

From S2P Require Import Prelude RustStr.

Local Open Scope N_scope.

Inductive IpAddr := V4 (ip : N) | V6 (segments : list N).

(** ** Parsing

    A reader takes the rest of the input and gives a value and what remains, or
    fails without consuming anything. *)

Definition reader (A : Type) : Type := str → option (A * str).

Definition read_given_char (c : char) : reader unit := λ s,
  match s with
  | d :: s' => if d =? c then Some (tt, s') else None
  | [] => None
  end.

(** [read_separator(sep, index, inner)]. *)
Definition read_separator {A} (sep : char) (index : nat) (inner : reader A) : reader A := λ s,
  match index with
  | O => inner s
  | S _ => match read_given_char sep s with Some (_, s') => inner s' | None => None end
  end.

Definition digit_value (radix : N) (c : char) : option N :=
  let v := if in_range 48 57 c then Some (c - 48)
           else if in_range 97 122 c then Some (c - 87)
           else if in_range 65 90 c then Some (c - 55)
           else None in
  opt_filter (λ n, n <? radix) v.

(** The digits at the beginning. *)
Fixpoint read_digits (radix : N) (s : str) : list N * str :=
  match s with
  | c :: s' =>
      match digit_value radix c with
      | Some d => let '(ds, r) := read_digits radix s' in (d :: ds, r)
      | None => ([], s)
      end
  | [] => ([], [])
  end.

Definition digits_value (radix : N) (ds : list N) : N := foldl (λ n d, n * radix + d) 0 ds.

(** [read_number(radix, max_digits, allow_zero_prefix)]; [limit] is the range of
    the integer type. *)
Definition read_number (radix : N) (max_digits : nat) (allow_zero_prefix : bool) (limit : N)
    : reader N := λ s,
  let '(ds, r) := read_digits radix s in
  if Nat.eqb (length ds) 0 || Nat.ltb max_digits (length ds) then None
  else if negb allow_zero_prefix && Nat.ltb 1 (length ds) && bool_decide (head ds = Some 0) then None
  else let n := digits_value radix ds in if n <? limit then Some (n, r) else None.

Fixpoint read_octets (k index : nat) (acc : N) (s : str) : option (N * str) :=
  match k with
  | O => Some (acc, s)
  | S k =>
      match read_separator (ch ".") index (read_number 10 3 false 256) s with
      | Some (n, s') => read_octets k (S index) (acc * 256 + n) s'
      | None => None
      end
  end.
Definition read_ipv4_addr : reader N := read_octets 4 0 0.

(** [read_groups] from group [index] of [limit]; the groups read and whether the
    last two are an IPv4 address. *)
Fixpoint read_groups (k index limit : nat) (s : str) : list N * bool * str :=
  match k with
  | O => ([], false, s)
  | S k =>
      match (if Nat.ltb index (limit - 1) then read_separator (ch ":") index read_ipv4_addr s
             else None) with
      | Some (v4, s') => ([v4 / 65536; v4 mod 65536], true, s')
      | None =>
          match read_separator (ch ":") index (read_number 16 4 true 65536) s with
          | Some (g, s') =>
              let '(gs, ipv4, r) := read_groups k (S index) limit s' in (g :: gs, ipv4, r)
          | None => ([], false, s)
          end
      end
  end.

Definition read_ipv6_addr : reader (list N) := λ s,
  let '(hd, head_ipv4, s) := read_groups 8 0 8 s in
  if Nat.eqb (length hd) 8 then Some (hd, s)
  else if head_ipv4 then None
  else
    match read_given_char (ch ":") s with
    | Some (_, s) =>
        match read_given_char (ch ":") s with
        | Some (_, s) =>
            let limit := (8 - (length hd + 1))%nat in
            let '(tl, _, s) := read_groups limit 0 limit s in
            Some (hd ++ replicate (8 - length hd - length tl) 0 ++ tl, s)
        | None => None
        end
    | None => None
    end.

Definition all_read {A} (r : reader A) (s : str) : option A :=
  match r s with Some (a, []) => Some a | _ => None end.

(** [host.parse::<IpAddr>()]; a text of more than 15 bytes is no IPv4 address. *)
Definition parse_ip (s : str) : option IpAddr :=
  match (if Nat.ltb 15 (str_len s) then None else all_read read_ipv4_addr s) with
  | Some v4 => Some (V4 v4)
  | None => V6 <$> all_read read_ipv6_addr s
  end.

(** ** Classification *)

Definition octet (ip : N) (i : N) : N := N.shiftr ip (8 * (3 - i)) mod 256.

Definition v4_is_loopback (ip : N) : bool := octet ip 0 =? 127.
Definition v4_is_private (ip : N) : bool :=
  (octet ip 0 =? 10)
  || ((octet ip 0 =? 172) && in_range 16 31 (octet ip 1))
  || ((octet ip 0 =? 192) && (octet ip 1 =? 168)).
Definition v4_is_link_local (ip : N) : bool := (octet ip 0 =? 169) && (octet ip 1 =? 254).
Definition v4_is_unspecified (ip : N) : bool := ip =? 0.
Definition v4_is_multicast (ip : N) : bool := in_range 224 239 (octet ip 0).
Definition v4_is_broadcast (ip : N) : bool := ip =? 4294967295.

Definition v6_is_loopback (s : list N) : bool := bool_decide (s = [0; 0; 0; 0; 0; 0; 0; 1]).
Definition v6_is_unspecified (s : list N) : bool := bool_decide (s = [0; 0; 0; 0; 0; 0; 0; 0]).
Definition segment0 (s : list N) : N := default 0 (head s).
Definition v6_is_multicast (s : list N) : bool := N.land (segment0 s) 65280 =? 65280.
Definition v6_is_unique_local (s : list N) : bool := N.land (segment0 s) 65024 =? 64512.
Definition v6_is_unicast_link_local (s : list N) : bool := N.land (segment0 s) 65472 =? 65152.
(** [to_ipv4]: the mapped and the compatible addresses. *)
Definition v6_to_ipv4 (s : list N) : option N :=
  match s with
  | [0; 0; 0; 0; 0; x; ab; cd] =>
      if (x =? 0) || (x =? 65535) then Some (ab * 65536 + cd) else None
  | _ => None
  end.

Definition is_loopback (ip : IpAddr) : bool :=
  match ip with V4 ip => v4_is_loopback ip | V6 s => v6_is_loopback s end.

(** The parser on concrete inputs. *)
Example parse_ip_examples :
  parse_ip (lit "127.0.0.1") = Some (V4 2130706433) ∧
  parse_ip (lit "127.0.0.01") = None ∧ parse_ip (lit "1.2.3") = None ∧
  parse_ip (lit "256.1.1.1") = None ∧
  parse_ip (lit "::1") = Some (V6 [0; 0; 0; 0; 0; 0; 0; 1]) ∧
  parse_ip (lit "fe80::1:2") = Some (V6 [65152; 0; 0; 0; 0; 0; 1; 2]) ∧
  parse_ip (lit "::ffff:10.0.0.1") = Some (V6 [0; 0; 0; 0; 0; 65535; 2560; 1]) ∧
  parse_ip (lit "1:2:3:4:5:6:7:8") = Some (V6 [1; 2; 3; 4; 5; 6; 7; 8]) ∧
  parse_ip (lit "1:2:3:4:5:6:7:8:9") = None ∧ parse_ip (lit "1::2::3") = None ∧
  parse_ip (lit "12345::") = None ∧ parse_ip (lit "::") = Some (V6 [0; 0; 0; 0; 0; 0; 0; 0]).
Proof. by_compute. Qed.
