(* ===== verification/NetworkPolicy.v ===== *)
(** * Hosts and domain patterns of the network proxy

    [network-proxy/src/policy.rs]: the normal form of a host, the addresses that
    count as local, the domain patterns and their comparison with managed ones;
    and the domain permissions of [network-proxy/src/config.rs].

    Matching a glob (globset) and parsing a URL host (url) are parameters. *)

From S2P Require Import Prelude RustStr IpAddress.

Local Open Scope N_scope.
Local Open Scope rstr_scope.

(** ** Addresses *)

Definition U32_MAX : N := 4294967295.

Definition ipv4_in_cidr (ip : N) (base : N) (prefix : N) : bool :=
  let mask := if prefix =? 0 then 0 else N.land (N.shiftl U32_MAX (32 - prefix)) U32_MAX in
  N.land ip mask =? N.land base mask.

(** The number of [a.b.c.d]. *)
Definition v4 (a b c d : N) : N := ((a * 256 + b) * 256 + c) * 256 + d.

Definition is_non_public_ipv4 (ip : N) : bool :=
  v4_is_loopback ip || v4_is_private ip || v4_is_link_local ip || v4_is_unspecified ip
  || v4_is_multicast ip || v4_is_broadcast ip
  || ipv4_in_cidr ip (v4 0 0 0 0) 8 || ipv4_in_cidr ip (v4 100 64 0 0) 10
  || ipv4_in_cidr ip (v4 192 0 0 0) 24 || ipv4_in_cidr ip (v4 192 0 2 0) 24
  || ipv4_in_cidr ip (v4 198 18 0 0) 15 || ipv4_in_cidr ip (v4 198 51 100 0) 24
  || ipv4_in_cidr ip (v4 203 0 113 0) 24 || ipv4_in_cidr ip (v4 240 0 0 0) 4.

Definition is_non_public_ipv6 (s : list N) : bool :=
  match v6_to_ipv4 s with
  | Some v4 => is_non_public_ipv4 v4 || v6_is_loopback s
  | None =>
      v6_is_loopback s || v6_is_unspecified s || v6_is_multicast s || v6_is_unique_local s
      || v6_is_unicast_link_local s
  end.

Definition is_non_public_ip (ip : IpAddr) : bool :=
  match ip with V4 ip => is_non_public_ipv4 ip | V6 s => is_non_public_ipv6 s end.

(** ** Hosts *)

Definition is_ip (s : str) : bool := opt_is_some (parse_ip s).

Definition unscoped_ip_literal (host : str) : option str :=
  '(ip, _) ← split_once (ch "%") host;
  if is_ip ip then Some ip else None.

(** One delimiter of the loop of [normalize_ip_literal]. *)
Definition scoped_literal (host delimiter : str) : option str :=
  '(ip, scope) ← split_once_str delimiter host;
  if is_ip ip then Some (ip ++ lit "%" ++ scope) else None.

Definition normalize_ip_literal (host : str) : option str :=
  if is_ip host then Some host
  else opt_or (scoped_literal host (lit "%25")) (scoped_literal host (lit "%")).

Definition normalize_dns_host_or_ip_literal (host : str) : str :=
  let host := trim_end_char (ch ".") (to_ascii_lowercase <$> host) in
  default host (normalize_ip_literal host).

Definition normalize_host (host : str) : str :=
  let host := trim host in
  match (if starts_with (lit "[") host then split_once (ch "]") host else None) with
  | Some (bracketed, _) => normalize_dns_host_or_ip_literal (drop 1 bracketed)
  | None =>
      if Nat.eqb (count_char (ch ":") host) 1
      then normalize_dns_host_or_ip_literal (default [] (head (split (ch ":") host)))
      else normalize_dns_host_or_ip_literal host
  end.

(** [Host::parse]: [None] is the error for an empty host. *)
Definition host_parse (input : str) : option str :=
  let normalized := normalize_host input in
  if is_empty normalized then None else Some normalized.

Definition is_loopback_host (host : str) : bool :=
  let host := default host (unscoped_ip_literal host) in
  if host == lit "localhost" then true
  else match parse_ip host with Some ip => is_loopback ip | None => false end.

(** ** Domain patterns *)

Inductive DomainPattern :=
| ApexAndSubdomains (domain : str)
| SubdomainsOnly (domain : str)
| Exact (domain : str).

Definition normalize_pattern (pattern : str) : str :=
  let pattern := trim pattern in
  if pattern == lit "*" then lit "*"
  else match strip_prefix (lit "**.") pattern with
       | Some domain => lit "**." ++ normalize_host domain
       | None =>
           match strip_prefix (lit "*.") pattern with
           | Some domain => lit "*." ++ normalize_host domain
           | None => normalize_host pattern
           end
       end.

Definition parse_domain (domain : str) (build : str → DomainPattern) : DomainPattern :=
  let domain := trim domain in if is_empty domain then Exact [] else build domain.

Definition domain_pattern_parse (input : str) : DomainPattern :=
  let input := trim input in
  if is_empty input then Exact []
  else match strip_prefix (lit "**.") input with
       | Some domain => parse_domain domain ApexAndSubdomains
       | None =>
           match strip_prefix (lit "*.") input with
           | Some domain => parse_domain domain SubdomainsOnly
           | None => Exact input
           end
       end.

Definition expand (p : DomainPattern) : list str :=
  match p with
  | Exact domain => [domain]
  | SubdomainsOnly domain => [lit "?*." ++ domain]
  | ApexAndSubdomains domain => [domain; lit "?*." ++ domain]
  end.
Definition expand_domain_pattern (pattern : str) : list str :=
  expand (domain_pattern_parse pattern).

Definition is_global_wildcard_domain_pattern (pattern : str) : bool :=
  any (λ candidate, candidate == lit "*") (expand_domain_pattern (normalize_pattern pattern)).

Definition normalize_domain (domain : str) : str :=
  to_ascii_lowercase <$> trim_end_char (ch ".") domain.
Definition domain_eq (l r : str) : bool := normalize_domain l == normalize_domain r.
Definition is_subdomain_or_equal (child parent : str) : bool :=
  let child := normalize_domain child in
  let parent := normalize_domain parent in
  (child == parent) || ends_with (lit "." ++ parent) child.
Definition is_strict_subdomain (child parent : str) : bool :=
  let child := normalize_domain child in
  let parent := normalize_domain parent in
  negb (child == parent) && ends_with (lit "." ++ parent) child.

Definition allows (managed candidate : DomainPattern) : bool :=
  match managed with
  | Exact domain =>
      match candidate with Exact candidate => domain_eq candidate domain | _ => false end
  | SubdomainsOnly domain =>
      match candidate with
      | Exact candidate => is_strict_subdomain candidate domain
      | SubdomainsOnly candidate => is_subdomain_or_equal candidate domain
      | ApexAndSubdomains candidate => is_strict_subdomain candidate domain
      end
  | ApexAndSubdomains domain =>
      match candidate with
      | Exact candidate | SubdomainsOnly candidate | ApexAndSubdomains candidate =>
          is_subdomain_or_equal candidate domain
      end
  end.

Section Parsers.
(** [url::Host::parse] with [to_string]; [None] when it fails. *)
Context (url_host_parse : str → option str).
(** Compiling a glob, case-insensitively: [None] when the pattern is invalid. *)
Context (glob : str → option (str → bool)).

Definition parse_domain_for_constraints (domain : str) : str :=
  let domain := trim_end_char (ch ".") (trim domain) in
  if is_empty domain then []
  else
    let host := if starts_with (lit "[") domain && ends_with (lit "]") domain
                then take (length domain - 2) (drop 1 domain) else domain in
    if contains_char (ch "*") host || contains_char (ch "?") host || contains_char (ch "%") host
    then domain
    else default [] (url_host_parse host).

Definition parse_for_constraints (input : str) : DomainPattern :=
  let input := trim input in
  if is_empty input then Exact []
  else match strip_prefix (lit "**.") input with
       | Some domain => ApexAndSubdomains (parse_domain_for_constraints domain)
       | None =>
           match strip_prefix (lit "*.") input with
           | Some domain => SubdomainsOnly (parse_domain_for_constraints domain)
           | None => Exact (parse_domain_for_constraints input)
           end
       end.

Inductive GlobalWildcard := WildcardAllow | WildcardReject.

(** The globs of the candidates, each once, in order. *)
Fixpoint compile_candidates (seen : gset (list N)) (candidates : list str)
    : result str (gset (list N) * list (str → bool)) :=
  match candidates with
  | [] => Ok (seen, [])
  | c :: candidates =>
      if decide (c ∈ seen) then compile_candidates seen candidates
      else
        g ← ok_or (glob c) (lit "invalid glob pattern: " ++ c);
        '(seen, gs) ← compile_candidates ({[c]} ∪ seen) candidates;
        Ok (seen, g :: gs)
  end.

Fixpoint compile_globs (seen : gset (list N)) (patterns : list str) (w : GlobalWildcard)
    : result str (list (str → bool)) :=
  match patterns with
  | [] => Ok []
  | pattern :: patterns =>
      if (match w with WildcardReject => true | WildcardAllow => false end)
         && is_global_wildcard_domain_pattern pattern
      then Err (litq "unsupported global wildcard domain pattern ^*^; use exact hosts or scoped wildcards like *.example.com or **.example.com")
      else
        '(seen, gs) ← compile_candidates seen (expand_domain_pattern (normalize_pattern pattern));
        rest ← compile_globs seen patterns w;
        Ok (gs ++ rest)
  end.

Definition compile_globset_with_policy (patterns : list str) (w : GlobalWildcard)
    : result str (list (str → bool)) := compile_globs ∅ patterns w.
Definition compile_allowlist_globset (patterns : list str) :=
  compile_globset_with_policy patterns WildcardAllow.
Definition compile_denylist_globset (patterns : list str) :=
  compile_globset_with_policy patterns WildcardReject.
End Parsers.

(** [GlobSet::is_match]. *)
Definition is_match (set : list (str → bool)) (s : str) : bool := any (λ g, g s) set.

(** ** Domain permissions (config.rs) *)

Inductive NetworkDomainPermission := PermNone | PermAllow | PermDeny.
#[export] Instance NetworkDomainPermission_eq_dec : EqDecision NetworkDomainPermission.
Proof. solve_decision. Defined.
Definition perm_rank (p : NetworkDomainPermission) : nat :=
  match p with PermNone => 0%nat | PermAllow => 1%nat | PermDeny => 2%nat end.

Record NetworkDomainPermissionEntry := mkEntry {
  pattern : str;
  permission : NetworkDomainPermission;
}.
#[export] Instance NetworkDomainPermissionEntry_eq_dec : EqDecision NetworkDomainPermissionEntry.
Proof. solve_decision. Defined.

(** The loop of [effective_entries]: the order of the patterns and the map. *)
Definition effective_step (st : list str * gmap (list N) NetworkDomainPermission)
    (e : NetworkDomainPermissionEntry) : list str * gmap (list N) NetworkDomainPermission :=
  let '(order, m) := st in
  match m !! pattern e with
  | None => (order ++ [pattern e], <[pattern e := permission e]> m)
  | Some p =>
      (order, if Nat.ltb (perm_rank p) (perm_rank (permission e))
              then <[pattern e := permission e]> m else m)
  end.

(** [remove] from the map for every pattern of the order. *)
Fixpoint take_entries (order : list str) (m : gmap (list N) NetworkDomainPermission)
    : list NetworkDomainPermissionEntry :=
  match order with
  | [] => []
  | p :: order =>
      match m !! p with
      | Some perm => mkEntry p perm :: take_entries order (delete p m)
      | None => take_entries order m
      end
  end.

Definition effective_entries (entries : list NetworkDomainPermissionEntry)
    : list NetworkDomainPermissionEntry :=
  let '(order, m) := foldl effective_step ([], ∅) entries in take_entries order m.

(** [domains] of the settings; [None] when there are none. *)
Definition Domains : Type := option (list NetworkDomainPermissionEntry).

Definition domain_entries (domains : Domains) (p : NetworkDomainPermission) : option (list str) :=
  opt_filter (λ l, negb (is_empty l))
    ((λ entries, pattern <$> List.filter (λ e, bool_decide (permission e = p))
                               (effective_entries entries)) <$> domains).
Definition allowed_domains (d : Domains) : option (list str) := domain_entries d PermAllow.
Definition denied_domains (d : Domains) : option (list str) := domain_entries d PermDeny.

Definition some_entries (l : list NetworkDomainPermissionEntry) : Domains :=
  if is_empty l then None else Some l.

Definition upsert_domain_permission (host : str) (p : NetworkDomainPermission)
    (normalize : str → str) (d : Domains) : Domains :=
  let normalized_host := normalize host in
  some_entries
    (List.filter (λ e, negb (normalize (pattern e) == normalized_host)) (default [] d)
     ++ [mkEntry host p]).

(** The loop of [set_domain_entries]. *)
Definition add_entry (p : NetworkDomainPermission) (l : list NetworkDomainPermissionEntry) (e : str)
    : list NetworkDomainPermissionEntry :=
  if any (λ x, (pattern x == e) && bool_decide (permission x = p)) l then l else l ++ [mkEntry e p].
Definition set_domain_entries (entries : list str) (p : NetworkDomainPermission) (d : Domains)
    : Domains :=
  some_entries (foldl (add_entry p)
    (List.filter (λ e, negb (bool_decide (permission e = p))) (default [] d)) entries).

(** ** Which addresses are local *)

Lemma cidr_block ip base p :
  ip < 2 ^ 32 → base < 2 ^ 32 → 0 < p → p <= 32 →
  ipv4_in_cidr ip base p = true ↔ ip / 2 ^ (32 - p) = base / 2 ^ (32 - p).
Proof.
  intros Hi Hb Hp Hp32. unfold ipv4_in_cidr. destruct (N.eqb_spec p 0) as [?|_]; [lia|].
  set (k := 32 - p). assert (k <= 31) as Hk by (unfold k; lia).
  assert (∀ x, x < 2 ^ 32 → N.land x (N.land (N.shiftl U32_MAX k) U32_MAX) = x / 2 ^ k * 2 ^ k) as E.
  { intros x Hx. change U32_MAX with (N.ones 32). rewrite N.land_assoc, N.land_ones.
    assert (N.land x (N.shiftl (N.ones 32) k) = x / 2 ^ k * 2 ^ k) as ->.
    { rewrite <-N.shiftr_div_pow2, <-N.shiftl_mul_pow2. apply N.bits_inj. intros n.
      rewrite N.land_spec. destruct (N.lt_ge_cases n k) as [Hn|Hn].
      - by rewrite !N.shiftl_spec_low, andb_false_r.
      - rewrite !N.shiftl_spec_high' by done. rewrite N.shiftr_spec' .
        replace (n - k + k) with n by lia.
        destruct (N.lt_ge_cases (n - k) 32) as [H|H].
        + by rewrite N.ones_spec_low, andb_true_r.
        + rewrite N.ones_spec_high, andb_false_r by done. symmetry.
          destruct (decide (x = 0)) as [->|Hx0]; [apply N.bits_0|].
          apply N.bits_above_log2. apply (N.lt_le_trans _ 32); [|lia].
          apply N.log2_lt_pow2; lia. }
    apply N.mod_small. apply (N.le_lt_trans _ x); [|done].
    rewrite N.mul_comm. apply N.Div0.mul_div_le. }
  rewrite N.eqb_eq, !E by done. split; [|by intros ->]. apply N.mul_cancel_r. apply N.pow_nonzero. lia.
Qed.

(** The blocks of addresses that are not public, as first and last address. *)
Definition non_public_blocks : list (N * N) :=
  [(v4 0 0 0 0, v4 0 255 255 255); (v4 10 0 0 0, v4 10 255 255 255);
   (v4 100 64 0 0, v4 100 127 255 255); (v4 127 0 0 0, v4 127 255 255 255);
   (v4 169 254 0 0, v4 169 254 255 255); (v4 172 16 0 0, v4 172 31 255 255);
   (v4 192 0 0 0, v4 192 0 0 255); (v4 192 0 2 0, v4 192 0 2 255);
   (v4 192 168 0 0, v4 192 168 255 255); (v4 198 18 0 0, v4 198 19 255 255);
   (v4 198 51 100 0, v4 198 51 100 255); (v4 203 0 113 0, v4 203 0 113 255);
   (v4 224 0 0 0, v4 239 255 255 255); (v4 240 0 0 0, v4 255 255 255 255)].

Definition in_block (ip : N) (b : N * N) : bool := (b.1 <=? ip) && (ip <=? b.2).

Lemma cidr_interval ip base p :
  ip < 2 ^ 32 → base < 2 ^ 32 → 0 < p → p <= 32 → base mod 2 ^ (32 - p) = 0 →
  ipv4_in_cidr ip base p = in_block ip (base, base + 2 ^ (32 - p) - 1).
Proof.
  intros Hi Hb Hp Hp32 Hm. apply eq_true_iff_eq. rewrite cidr_block by done.
  unfold in_block. rewrite andb_true_iff, !N.leb_le. cbn [fst snd].
  set (m := 2 ^ (32 - p)) in *. assert (0 < m) as Hm0 by (apply N.neq_0_lt_0, N.pow_nonzero; lia).
  clearbody m.
  pose proof (N.div_mod base m ltac:(lia)) as Hdb. pose proof (N.div_mod ip m ltac:(lia)) as Hdi.
  pose proof (N.mod_lt ip m ltac:(lia)). rewrite Hm in Hdb. split.
  - intros E. rewrite <-E in Hdb. revert Hdb Hdi H. clear -Hm0.
    generalize (m * (ip / m)) (ip mod m). lia.
  - intros [H1 H2]. symmetry. revert Hdb. generalize (base / m). intros q Hdb.
    apply (N.div_unique ip m q (ip - base)); lia.
Qed.

Lemma cidr_interval_b ip base p last :
  ip < 2 ^ 32 →
  (base <? 2 ^ 32) && (0 <? p) && (p <=? 32) && (base mod 2 ^ (32 - p) =? 0)
  && (last =? base + 2 ^ (32 - p) - 1) = true →
  ipv4_in_cidr ip base p = in_block ip (base, last).
Proof.
  rewrite !andb_true_iff, !N.ltb_lt, N.leb_le, !N.eqb_eq. intros ? [[[[? ?] ?] ?] ->].
  by apply cidr_interval.
Qed.

(** The first two octets, by division. *)
Lemma octets ip :
  ip < 2 ^ 32 →
  ∃ r, ip = octet ip 0 * 16777216 + octet ip 1 * 65536 + r ∧ r < 65536 ∧
    octet ip 0 < 256 ∧ octet ip 1 < 256.
Proof.
  intros Hi. unfold octet. change (8 * (3 - 0)) with 24. change (8 * (3 - 1)) with 16.
  rewrite !N.shiftr_div_pow2. change (2 ^ 24) with 16777216. change (2 ^ 16) with 65536.
  change (2 ^ 32) with 4294967296 in Hi. exists (ip mod 65536).
  assert (ip / 16777216 = ip / 65536 / 256) as E by (rewrite N.Div0.div_div; done).
  assert (ip / 16777216 < 256) as H0 by (apply N.Div0.div_lt_upper_bound; lia).
  rewrite (N.mod_small (ip / 16777216)) by done.
  pose proof (N.div_mod ip 65536 ltac:(lia)). pose proof (N.div_mod (ip / 65536) 256 ltac:(lia)).
  pose proof (N.mod_lt ip 65536 ltac:(lia)). pose proof (N.mod_lt (ip / 65536) 256 ltac:(lia)).
  lia.
Qed.

Lemma block_of ip (P : bool) (b : N * N) : (P = true ↔ b.1 <= ip <= b.2) → P = in_block ip b.
Proof.
  intros H. apply eq_true_iff_eq. rewrite H. unfold in_block. by rewrite andb_true_iff, !N.leb_le.
Qed.

(** An IPv4 address is treated as local exactly when it lies in one of
    fourteen blocks: this network, the private networks, carrier-grade NAT,
    loopback, link-local, the protocol, documentation and benchmarking blocks,
    multicast, and the reserved block with the broadcast address. *)
Theorem non_public_ipv4_exact (ip : N) :
  ip < 2 ^ 32 → is_non_public_ipv4 ip = any (in_block ip) non_public_blocks.
Proof.
  intros Hi. destruct (octets ip Hi) as (r & E & Hr & H0 & H1).
  assert (v4_is_loopback ip = in_block ip (v4 127 0 0 0, v4 127 255 255 255)) as E1.
  { apply block_of. unfold v4_is_loopback, v4. rewrite N.eqb_eq. cbn [fst snd]. lia. }
  assert (v4_is_private ip = in_block ip (v4 10 0 0 0, v4 10 255 255 255)
    || in_block ip (v4 172 16 0 0, v4 172 31 255 255)
    || in_block ip (v4 192 168 0 0, v4 192 168 255 255)) as E2.
  { unfold v4_is_private, in_range.
    rewrite <-(block_of ip (octet ip 0 =? 10) (v4 10 0 0 0, v4 10 255 255 255)),
      <-(block_of ip ((octet ip 0 =? 172) && ((16 <=? octet ip 1) && (octet ip 1 <=? 31)))
           (v4 172 16 0 0, v4 172 31 255 255)),
      <-(block_of ip ((octet ip 0 =? 192) && (octet ip 1 =? 168))
           (v4 192 168 0 0, v4 192 168 255 255)); [done|..];
      rewrite ?andb_true_iff, ?N.eqb_eq, ?N.leb_le; unfold v4; cbn [fst snd]; lia. }
  assert (v4_is_link_local ip = in_block ip (v4 169 254 0 0, v4 169 254 255 255)) as E3.
  { apply block_of. unfold v4_is_link_local, v4. rewrite andb_true_iff, !N.eqb_eq. cbn [fst snd]. lia. }
  assert (v4_is_multicast ip = in_block ip (v4 224 0 0 0, v4 239 255 255 255)) as E4.
  { apply block_of. unfold v4_is_multicast, in_range, v4. rewrite andb_true_iff, !N.leb_le.
    cbn [fst snd]. lia. }
  assert (v4_is_unspecified ip = true → in_block ip (v4 0 0 0 0, v4 0 255 255 255) = true) as E5.
  { unfold v4_is_unspecified. rewrite N.eqb_eq. intros ->. by_compute. }
  assert (v4_is_broadcast ip = true → in_block ip (v4 240 0 0 0, v4 255 255 255 255) = true) as E6.
  { unfold v4_is_broadcast. rewrite N.eqb_eq. intros ->. by_compute. }
  unfold is_non_public_ipv4. rewrite E1, E2, E3, E4,
    (cidr_interval_b ip (v4 0 0 0 0) 8 (v4 0 255 255 255)),
    (cidr_interval_b ip (v4 100 64 0 0) 10 (v4 100 127 255 255)),
    (cidr_interval_b ip (v4 192 0 0 0) 24 (v4 192 0 0 255)),
    (cidr_interval_b ip (v4 192 0 2 0) 24 (v4 192 0 2 255)),
    (cidr_interval_b ip (v4 198 18 0 0) 15 (v4 198 19 255 255)),
    (cidr_interval_b ip (v4 198 51 100 0) 24 (v4 198 51 100 255)),
    (cidr_interval_b ip (v4 203 0 113 0) 24 (v4 203 0 113 255)),
    (cidr_interval_b ip (v4 240 0 0 0) 4 (v4 255 255 255 255)) by (exact Hi || by_compute).
  clear -E5 E6. apply eq_true_iff_eq. unfold any, non_public_blocks, existsb.
  rewrite orb_false_r, !orb_true_iff. tauto.
Qed.

Lemma non_public_ipv4_exact_witness :
  is_non_public_ipv4 (v4 100 127 0 1) = true ∧ is_non_public_ipv4 (v4 100 128 0 1) = false ∧
  is_non_public_ipv4 (v4 100 127 0 1) = any (in_block (v4 100 127 0 1)) non_public_blocks.
Proof.
  split; [by_compute|]. split; [by_compute|].
  apply (non_public_ipv4_exact (v4 100 127 0 1)). by_compute.
Defined.

(** The IPv6 forms of an IPv4 address are classified like the address. *)
Lemma mapped_like_ipv4 ab cd :
  is_non_public_ip (V6 [0; 0; 0; 0; 0; 65535; ab; cd]) = is_non_public_ip (V4 (ab * 65536 + cd)).
Proof.
  cbn -[is_non_public_ipv4]. unfold v6_is_loopback. rewrite bool_decide_false by done.
  apply orb_false_r.
Qed.

(** Other embeddings are not looked into: the NAT64 form of the loopback address
    and the documentation prefix count as public. *)
Example nat64_loopback_is_public :
  is_non_public_ip (V6 [100; 65435; 0; 0; 0; 0; 32512; 1]) = false ∧
  is_non_public_ip (V6 [8193; 3512; 0; 0; 0; 0; 0; 1]) = false ∧
  parse_ip (lit "64:ff9b::127.0.0.1") = Some (V6 [100; 65435; 0; 0; 0; 0; 32512; 1]).
Proof. by_compute. Qed.

(** ** The effective permissions *)

(** [q] is the strongest permission the entries give to the pattern [p]. *)
Definition strongest (l : list NetworkDomainPermissionEntry) (p : str) (q : NetworkDomainPermission)
    : Prop :=
  mkEntry p q ∈ l ∧ ∀ q', mkEntry p q' ∈ l → (perm_rank q' ≤ perm_rank q)%nat.

Lemma perm_rank_inj q q' : perm_rank q = perm_rank q' → q = q'.
Proof. by destruct q, q'. Qed.

Lemma strongest_snoc l p q e :
  strongest (l ++ [e]) p q ↔
    (pattern e ≠ p ∧ strongest l p q) ∨
    (pattern e = p ∧ ((strongest l p q ∧ (perm_rank (permission e) ≤ perm_rank q)%nat) ∨
                      (q = permission e ∧
                       ∀ q', mkEntry p q' ∈ l → (perm_rank q' ≤ perm_rank q)%nat))).
Proof.
  unfold strongest. destruct e as [p' r]; cbn [pattern permission].
  setoid_rewrite elem_of_app. setoid_rewrite list_elem_of_singleton.
  destruct (decide (p' = p)) as [->|]; naive_solver.
Qed.

Lemma effective_fold l order m :
  foldl effective_step ([], ∅) l = (order, m) →
  NoDup order ∧ (∀ p, p ∈ order ↔ is_Some (m !! p)) ∧ (∀ p q, m !! p = Some q ↔ strongest l p q).
Proof.
  revert order m. induction l as [|[p r] l IH] using rev_ind; intros order m.
  { intros [= <- <-]. split; [constructor|]. split; intros p.
    - rewrite lookup_empty. split; [set_solver|by intros []].
    - intros q. rewrite lookup_empty. unfold strongest. set_solver. }
  rewrite foldl_app. destruct (foldl _ _ l) as [order0 m0] eqn:E.
  cbn [foldl effective_step pattern permission].
  destruct (IH _ _ eq_refl) as (Hnd & Hord & Hm). clear IH.
  destruct (m0 !! p) as [q0|] eqn:Hp.
  - intros [= <- <-]. pose proof (proj1 (Hm p q0) Hp) as Hs. split; [done|]. split.
    + intros p'. rewrite Hord. case_match; [|done].
      destruct (decide (p = p')) as [->|]; [rewrite lookup_insert_eq|by rewrite lookup_insert_ne].
      rewrite Hp. split; eauto.
    + intros p' q. rewrite strongest_snoc, <-Hm. cbn [pattern permission].
      destruct (decide (p = p')) as [<-|Hne].
      2:{ case_match; rewrite ?lookup_insert_ne by done; naive_solver. }
      destruct (Nat.ltb_spec (perm_rank q0) (perm_rank r)) as [H|H].
      * rewrite lookup_insert_eq, Hp.
        split; [|intros [[? _]|(_ & [[[= <-] ?]|[-> _]])]; [done|lia|done]].
        intros [= <-]. right. split; [done|]. right. split; [done|]. intros q' Hq'.
        destruct Hs as [_ Hs]. specialize (Hs q' Hq'). lia.
      * rewrite Hp. split; [naive_solver|]. intros [[? _]|(_ & [[? _]|[-> Hr]])]; [done|done|].
        f_equal. apply perm_rank_inj. destruct Hs as [Hs _]. specialize (Hr q0 Hs). lia.
  - intros [= <- <-]. assert (p ∉ order0) as Hno by (rewrite Hord, Hp; by intros []).
    split; [apply NoDup_app; split; [done|]; split; [clear -Hno; set_solver|apply NoDup_singleton]|].
    split.
    + intros p'. rewrite elem_of_app, list_elem_of_singleton, Hord.
      destruct (decide (p = p')) as [<-|]; [rewrite lookup_insert_eq|rewrite lookup_insert_ne by done].
      * split; [eauto|by right].
      * naive_solver.
    + intros p' q. rewrite strongest_snoc, <-Hm. cbn [pattern permission].
      destruct (decide (p = p')) as [<-|Hne]; [|rewrite lookup_insert_ne by done; naive_solver].
      rewrite lookup_insert_eq, Hp. split; [|naive_solver]. intros [= <-]. right. split; [done|]. right.
      split; [done|]. intros q' Hq'. exfalso.
      assert (∃ q1, strongest l p q1) as [q1 Hq1%Hm]; [|congruence].
      clear -Hq'. destruct (decide (mkEntry p PermDeny ∈ l)) as [H|Hd].
      { exists PermDeny. split; [done|]. intros []; cbn; lia. }
      destruct (decide (mkEntry p PermAllow ∈ l)) as [H|Ha].
      { exists PermAllow. split; [done|]. intros []; cbn; (lia || done). }
      exists PermNone. split; [|intros []; cbn; (lia || done)]. by destruct q'.
Qed.

Lemma take_entries_spec order m e :
  NoDup order → e ∈ take_entries order m ↔ pattern e ∈ order ∧ m !! pattern e = Some (permission e).
Proof.
  intros Hnd. revert m. induction Hnd as [|p order Hp Hnd IH]; intros m; cbn [take_entries].
  { set_solver. }
  destruct e as [p' q']; cbn [pattern permission] in *. rewrite elem_of_cons.
  destruct (m !! p) as [q|] eqn:E; [rewrite elem_of_cons|]; rewrite IH.
  - destruct (decide (p = p')) as [<-|]; [|rewrite lookup_delete_ne by done; naive_solver].
    rewrite lookup_delete_eq. naive_solver.
  - naive_solver.
Qed.

Lemma take_entries_patterns order m : pattern <$> take_entries order m `sublist_of` order.
Proof.
  revert m. induction order as [|p order IH]; intros m; cbn [take_entries]; [constructor|].
  case_match; cbn; [by apply sublist_skip|by apply sublist_cons].
Qed.

Lemma effective_entries_spec l :
  NoDup (pattern <$> effective_entries l) ∧
  ∀ p q, mkEntry p q ∈ effective_entries l ↔ strongest l p q.
Proof.
  unfold effective_entries. destruct (foldl _ _ l) as [order m] eqn:E.
  destruct (effective_fold _ _ _ E) as (Hnd & Hord & Hm). split.
  - eapply sublist_NoDup; [exact Hnd|]. apply take_entries_patterns.
  - intros p q. rewrite take_entries_spec by done. cbn [pattern permission]. rewrite <-Hm, Hord.
    split; [naive_solver|]. intros ->. split; [by eexists|done].
Qed.

Lemma elem_of_domain_entries l p q :
  p ∈ default [] (domain_entries (Some l) q) ↔ strongest l p q.
Proof.
  rewrite <-(proj2 (effective_entries_spec l)). unfold domain_entries. cbn -[effective_entries].
  set (ls := pattern <$> _). transitivity (p ∈ ls).
  { unfold opt_filter. destruct ls; [|done]. cbn. set_solver. }
  unfold ls. rewrite list_elem_of_fmap. split.
  - intros ([p' q'] & -> & [H1 H2]%list_elem_of_In%filter_In). cbn in *. apply list_elem_of_In in H1.
    by apply bool_decide_eq_true in H2 as <-.
  - intros H. exists (mkEntry p q). split; [done|]. apply list_elem_of_In, filter_In.
    split; [by apply list_elem_of_In|]. cbn. by apply bool_decide_eq_true.
Qed.

Lemma sublist_map_filter {A B} (g : A → B) (f : A → bool) l :
  g <$> List.filter f l `sublist_of` g <$> l.
Proof. induction l as [|x l IH]; cbn; [done|]. destruct (f x); by constructor. Qed.

Lemma domain_entries_NoDup l q : NoDup (default [] (domain_entries (Some l) q)).
Proof.
  unfold domain_entries, opt_filter. cbn -[effective_entries].
  case_match; cbn -[effective_entries]; [|constructor].
  eapply sublist_NoDup; [apply (proj1 (effective_entries_spec l))|].
  apply sublist_map_filter.
Qed.

Lemma elem_of_denied l p : p ∈ default [] (denied_domains (Some l)) ↔ mkEntry p PermDeny ∈ l.
Proof.
  unfold denied_domains. rewrite elem_of_domain_entries. unfold strongest. split; [naive_solver|].
  intros H. split; [done|]. intros []; cbn; lia.
Qed.

Lemma elem_of_allowed l p :
  p ∈ default [] (allowed_domains (Some l)) ↔ mkEntry p PermAllow ∈ l ∧ (mkEntry p PermDeny ∉ l).
Proof.
  unfold allowed_domains. rewrite elem_of_domain_entries. unfold strongest. split.
  - intros [H1 H2]. split; [done|]. intros H. specialize (H2 _ H). cbn in H2. lia.
  - intros [H1 H2]. split; [done|]. intros []; cbn; (lia || done).
Qed.

(** The two domain lists of a configuration: a pattern is denied exactly when
    one of its entries denies it, allowed exactly when one allows it and none denies
    it, and neither list repeats a pattern, whatever the order and repetition of the
    entries. *)
Theorem domain_lists_exact (l : list NetworkDomainPermissionEntry) :
  (∀ p, p ∈ default [] (denied_domains (Some l)) ↔ mkEntry p PermDeny ∈ l) ∧
  (∀ p, p ∈ default [] (allowed_domains (Some l)) ↔
     mkEntry p PermAllow ∈ l ∧ (mkEntry p PermDeny ∉ l)) ∧
  NoDup (default [] (denied_domains (Some l)) ++ default [] (allowed_domains (Some l))).
Proof.
  split; [apply elem_of_denied|]. split; [apply elem_of_allowed|].
  apply NoDup_app. split; [apply domain_entries_NoDup|]. split; [|apply domain_entries_NoDup].
  intros p H1%elem_of_denied H2%elem_of_allowed. naive_solver.
Qed.

(** ** Managed patterns bound the patterns they allow *)

(** A host name in normal form: lower-case letters, digits, hyphens and dots, with
    no dot at either end. *)
Definition name_char (c : char) : bool :=
  in_range 97 122 c || is_ascii_digit c || N.eqb c (ch "-") || N.eqb c (ch ".").
Definition plain_name (d : str) : bool :=
  negb (is_empty d) && all name_char d
  && negb (starts_with (lit ".") d) && negb (ends_with (lit ".") d).

Definition domain_of (P : DomainPattern) : str :=
  match P with Exact d | SubdomainsOnly d | ApexAndSubdomains d => d end.
(** How a pattern is written. *)
Definition show_pattern (P : DomainPattern) : str :=
  match P with
  | Exact d => d
  | SubdomainsOnly d => lit "*." ++ d
  | ApexAndSubdomains d => lit "**." ++ d
  end.

Definition lower (s : str) : str := to_ascii_lowercase <$> s.
(** The hosts of a pattern. *)
Definition covers (P : DomainPattern) (h : str) : Prop :=
  match P with
  | Exact d => lower h = d
  | SubdomainsOnly d => ∃ x, x ≠ [] ∧ lower h = x ++ lit "." ++ d
  | ApexAndSubdomains d => lower h = d ∨ ∃ x, x ≠ [] ∧ lower h = x ++ lit "." ++ d
  end.

Lemma name_char_codes c :
  name_char c = ((97 <=? c) && (c <=? 122)) || ((48 <=? c) && (c <=? 57)) || (c =? 45) || (c =? 46).
Proof.
  unfold name_char, is_ascii_digit, in_range. replace (ch "-") with 45 by by_compute.
  by replace (ch ".") with 46 by by_compute.
Qed.

Lemma name_char_lower c : name_char c = true → to_ascii_lowercase c = c.
Proof.
  unfold to_ascii_lowercase, in_range.
  destruct ((65 <=? c) && (c <=? 90)) eqn:E; [|done]. intros H. exfalso.
  revert E H. rewrite name_char_codes. cbn. rewrite !orb_true_iff, !andb_true_iff, !N.leb_le, !N.eqb_eq.
  lia.
Qed.

Lemma name_char_not c x : name_char c = true → name_char x = false → c ≠ x.
Proof. congruence. Qed.

Lemma name_char_space c : name_char c = true → is_whitespace c = false.
Proof.
  intros H. destruct (is_whitespace c) eqn:E; [|done]. exfalso. revert H E.
  rewrite name_char_codes. unfold is_whitespace, in_range. cbn.
  rewrite !orb_true_iff, !andb_true_iff, !N.leb_le, !N.eqb_eq. lia.
Qed.

Section Plain.
Context (d : str) (Hd : plain_name d = true).

Lemma plain_parts :
  d ≠ [] ∧ (∀ c, c ∈ d → name_char c = true) ∧ (∀ c, head d = Some c → c ≠ ch ".") ∧
  (∀ c, last d = Some c → c ≠ ch ".").
Proof.
  unfold plain_name in Hd. rewrite !andb_true_iff, !negb_true_iff in Hd.
  destruct Hd as [[[H1 H2] H3] H4]. apply is_empty_false in H1. split; [done|]. rewrite all_true in H2.
  split; [done|]. split; intros c Hc ->.
  - destruct d as [|c' d']; [done|]. injection Hc as ->.
    assert (starts_with (lit ".") (ch "." :: d') = true) by (apply starts_with_true; by exists d').
    congruence.
  - apply last_Some in Hc as [l ->].
    assert (ends_with (lit ".") (l ++ [ch "."]) = true) by (apply ends_with_true; by exists l).
    congruence.
Qed.

Lemma plain_lower : lower d = d.
Proof.
  destruct plain_parts as (_ & H & _). unfold lower. clear -H.
  induction d as [|c l IH]; cbn; [done|]. f_equal; [apply name_char_lower, H; set_solver|].
  apply IH. set_solver.
Qed.

Lemma plain_trimmed : trimmed d.
Proof.
  destruct plain_parts as (_ & H & _). split; intros c Hc; apply name_char_space, H.
  - destruct d; simplify_eq/=. set_solver.
  - apply last_Some in Hc as [l ->]. set_solver.
Qed.

Lemma plain_no c : name_char c = false → contains_char c d = false.
Proof.
  intros Hc. apply contains_char_false. intros H. destruct plain_parts as (_ & Hn & _).
  specialize (Hn _ H). congruence.
Qed.

Lemma plain_trim_dots : trim_end_char (ch ".") d = d.
Proof.
  unfold trim_end_char. rewrite drop_while_id; [apply reverse_involutive|].
  intros c. rewrite head_reverse. intros Hc. apply N.eqb_neq. intros <-.
  by eapply (proj2 (proj2 (proj2 plain_parts))).
Qed.

Lemma plain_head c l : name_char c = false → strip_prefix (c :: l) d = None.
Proof.
  intros Hc. destruct (strip_prefix (c :: l) d) as [r|] eqn:E; [|done].
  apply strip_prefix_Some in E. exfalso.
  assert (contains_char c d = true) by (apply contains_char_true; rewrite E; set_solver).
  rewrite plain_no in * by done. done.
Qed.

Lemma split_once_str_none n :
  (∃ c, c ∈ n ∧ name_char c = false) → split_once_str n d = None.
Proof.
  intros (c & Hc & Hn). unfold split_once_str. pose proof (plain_no c Hn) as Hno.
  apply contains_char_false in Hno. clear Hd.
  assert (find_str n d = None) as ->; [|done].
  induction d as [|x l IH].
  - cbn. destruct (starts_with n []) eqn:E; [|done]. apply starts_with_true in E as [r E].
    symmetry in E. apply app_nil in E as [-> _]. set_solver.
  - cbn. destruct (starts_with n (x :: l)) eqn:E.
    + apply starts_with_true in E as [r E]. exfalso. apply Hno. rewrite E. apply elem_of_app. by left.
    + rewrite IH by set_solver. done.
Qed.

Lemma plain_normalize_host : normalize_host d = d.
Proof.
  unfold normalize_host. rewrite (trim_id _ plain_trimmed).
  unfold starts_with. change (lit "[") with [ch "["]. rewrite plain_head by done. cbn [opt_is_some].
  assert (Nat.eqb (count_char (ch ":") d) 1 = false) as ->.
  { apply Nat.eqb_neq. unfold count_char. destruct plain_parts as (_ & Hn & _).
    replace (List.filter (N.eqb (ch ":")) d) with (@nil char); [done|].
    clear -Hn. induction d as [|x l IH]; cbn; [done|].
    destruct (N.eqb_spec (ch ":") x) as [<-|]; [|apply IH; intros y Hy; apply Hn; by right].
    assert (name_char (ch ":") = true) as H by (apply Hn; by left). by vm_compute in H. }
  unfold normalize_dns_host_or_ip_literal. fold (lower d). rewrite plain_lower, plain_trim_dots.
  unfold normalize_ip_literal, scoped_literal. destruct (is_ip d); [done|].
  rewrite !split_once_str_none; [done|exists (ch "%"); split; [apply contains_char_true|]; by_compute..].
Qed.
End Plain.

(** Reading back a written pattern, for the constraints and for the globs. *)
Lemma strip_prefix_cons (c : char) p s : strip_prefix (c :: p) (c :: s) = strip_prefix p s.
Proof. cbn. by rewrite N.eqb_refl. Qed.

Lemma show_trimmed P : plain_name (domain_of P) = true → trim (show_pattern P) = show_pattern P.
Proof.
  intros HP. apply trim_id. pose proof (plain_trimmed _ HP) as [H1 H2].
  destruct (plain_parts _ HP) as (Hne & _). destruct P as [d|d|d]; cbn [show_pattern domain_of] in *.
  3: done.
  all: split; [intros c; by intros [= <-]|]; intros c; rewrite last_app;
    destruct (last d) eqn:E; [intros [= <-]; by apply H2|]; by apply last_None in E.
Qed.

Lemma wildcard_prefixes : lit "**." = [42; 42; 46] ∧ lit "*." = [42; 46] ∧ lit "*" = [42].
Proof. by_compute. Qed.

Lemma show_wildcards {A} P (f g h : str → A) :
  plain_name (domain_of P) = true →
  match strip_prefix (lit "**.") (show_pattern P) with
  | Some d => f d
  | None => match strip_prefix (lit "*.") (show_pattern P) with
            | Some d => g d | None => h (show_pattern P) end
  end = match P with ApexAndSubdomains d => f d | SubdomainsOnly d => g d | Exact d => h d end.
Proof.
  intros HP. destruct wildcard_prefixes as (E1 & E2 & E3).
  destruct P as [d|d|d]; cbn [show_pattern domain_of] in *; rewrite ?strip_prefix_app; [done|..].
  - by rewrite E1, E2.
  - rewrite E1, E2, !plain_head; done.
Qed.

Lemma show_nonempty P : plain_name (domain_of P) = true → is_empty (show_pattern P) = false.
Proof.
  intros HP. apply is_empty_false. destruct (plain_parts _ HP) as (H & _).
  destruct P as [d|d|d]; cbn [show_pattern domain_of] in *; [..|done]; by destruct d.
Qed.

Lemma show_not_star P : plain_name (domain_of P) = true → (show_pattern P == lit "*") = false.
Proof.
  intros HP. apply str_eqb_false. destruct wildcard_prefixes as (E1 & E2 & E3).
  destruct P as [d|d|d]; cbn [show_pattern domain_of] in *; rewrite ?E1, ?E2, ?E3; [done..|].
  intros ->. by vm_compute in HP.
Qed.

Lemma domain_pattern_parse_show P :
  plain_name (domain_of P) = true → domain_pattern_parse (show_pattern P) = P.
Proof.
  intros HP. unfold domain_pattern_parse. rewrite show_trimmed, show_nonempty by done.
  destruct (plain_parts _ HP) as (Hne & _).
  rewrite (show_wildcards P (λ d, parse_domain d ApexAndSubdomains) (λ d, parse_domain d SubdomainsOnly) Exact)
    by done.
  unfold parse_domain. destruct P as [d|d|d]; cbn [domain_of] in *; [..|done].
  all: by rewrite (trim_id _ (plain_trimmed _ HP)), (proj2 (is_empty_false _) Hne).
Qed.

Lemma normalize_pattern_show P :
  plain_name (domain_of P) = true → normalize_pattern (show_pattern P) = show_pattern P.
Proof.
  intros HP. unfold normalize_pattern. rewrite show_trimmed, show_not_star by done.
  rewrite (show_wildcards P (λ d, lit "**." ++ normalize_host d) (λ d, lit "*." ++ normalize_host d)
             normalize_host) by done.
  destruct P as [d|d|d]; cbn [domain_of show_pattern] in *; by rewrite plain_normalize_host.
Qed.

Lemma expand_show P :
  plain_name (domain_of P) = true →
  expand_domain_pattern (normalize_pattern (show_pattern P)) = expand P.
Proof.
  intros HP. unfold expand_domain_pattern. by rewrite normalize_pattern_show, domain_pattern_parse_show.
Qed.

Lemma parse_for_constraints_show url_host_parse P :
  plain_name (domain_of P) = true → url_host_parse (domain_of P) = Some (domain_of P) →
  parse_for_constraints url_host_parse (show_pattern P) = P.
Proof.
  intros HP Hu. unfold parse_for_constraints. rewrite show_trimmed, show_nonempty by done.
  rewrite (show_wildcards P (λ d, ApexAndSubdomains (parse_domain_for_constraints url_host_parse d))
    (λ d, SubdomainsOnly (parse_domain_for_constraints url_host_parse d))
    (λ d, Exact (parse_domain_for_constraints url_host_parse d))) by done.
  assert (parse_domain_for_constraints url_host_parse (domain_of P) = domain_of P) as E.
  { unfold parse_domain_for_constraints.
    rewrite (trim_id _ (plain_trimmed _ HP)), (plain_trim_dots _ HP).
    destruct (plain_parts _ HP) as (Hne & _). rewrite (proj2 (is_empty_false _) Hne).
    unfold starts_with. change (lit "[") with [ch "["]. rewrite plain_head by done. cbn [opt_is_some andb].
    rewrite !plain_no by done. cbn [orb]. by rewrite Hu. }
  destruct P as [d|d|d]; cbn [domain_of] in *; by rewrite E.
Qed.

(** ** What a compiled set matches *)

Section Compiled.
Context (glob : str → option (str → bool)).

Definition glob_matches (c h : str) : Prop := ∃ g, glob c = Some g ∧ g h = true.

Lemma compile_candidates_match seen cs seen' gs h :
  compile_candidates glob seen cs = Ok (seen', gs) →
  seen' = list_to_set cs ∪ seen ∧
  (is_match gs h = true ↔ ∃ c, c ∈ cs ∧ (c ∉ seen) ∧ glob_matches c h).
Proof.
  revert seen seen' gs. induction cs as [|c cs IH]; intros seen seen' gs; cbn [compile_candidates].
  { intros [= <- <-]. split; [set_solver|]. cbn. set_solver. }
  case_decide as Hc.
  - intros [-> H]%IH. split; [set_solver|]. rewrite H. set_solver.
  - intros (g & Hg%ok_or_Ok & [[s1 gs1] [H [= <- <-]]]%bind_Ok)%bind_Ok.
    apply IH in H as [-> H]. split; [set_solver|].
    unfold is_match, any in *. cbn [existsb]. rewrite orb_true_iff, H. split.
    + intros [Hh|(c' & ? & ? & ?)]; [exists c; split; [set_solver|]; split; [done|by exists g]|].
      exists c'. set_solver.
    + intros (c' & [->|Hin]%elem_of_cons & Hs & Hm); [left; destruct Hm as (g' & ? & ?); congruence|].
      destruct (decide (c' = c)) as [->|]; [left; destruct Hm as (g' & ? & ?); congruence|].
      right. exists c'. set_solver.
Qed.

Lemma compile_globs_match seen ps w gs h :
  compile_globs glob seen ps w = Ok gs →
  (is_match gs h = true ↔
   ∃ p c, p ∈ ps ∧ c ∈ expand_domain_pattern (normalize_pattern p) ∧ (c ∉ seen) ∧ glob_matches c h).
Proof.
  revert seen gs. induction ps as [|p ps IH]; intros seen gs; cbn [compile_globs].
  { intros [= <-]. cbn. set_solver. }
  case_match; [done|].
  intros [[s1 gs1] [H1 (rest & H2 & [= <-])%bind_Ok]]%bind_Ok.
  apply (compile_candidates_match _ _ _ _ h) in H1 as [-> H1]. apply IH in H2.
  unfold is_match, any in *. rewrite existsb_app, orb_true_iff, H1, H2. clear.
  set (cs := expand_domain_pattern _). split.
  - intros [(c & ? & ? & ?)|(p' & c & ? & ? & Hs & ?)]; [exists p, c|exists p', c]; set_solver.
  - intros (p' & c & [->|Hp]%elem_of_cons & Hc & Hs & Hm); [left; exists c; set_solver|].
    destruct (decide (c ∈ cs)); [left; exists c|right; exists p', c]; set_solver.
Qed.

Lemma compile_globset_match ps w gs h :
  compile_globset_with_policy glob ps w = Ok gs →
  (is_match gs h = true ↔
   ∃ p c, p ∈ ps ∧ c ∈ expand_domain_pattern (normalize_pattern p) ∧ glob_matches c h).
Proof.
  intros H. rewrite (compile_globs_match _ _ _ _ _ H). split; intros (p & c & H1 & H2 & H3).
  - exists p, c. naive_solver.
  - exists p, c. split; [done|]. split; [done|]. split; [set_solver|done].
Qed.
End Compiled.

Lemma plain_normalize_domain d : plain_name d = true → normalize_domain d = d.
Proof. intros Hd. unfold normalize_domain. rewrite plain_trim_dots by done. by apply plain_lower. Qed.

Lemma subdomain_parts c d :
  plain_name c = true → plain_name d = true →
  (is_strict_subdomain c d = true → ∃ x, x ≠ [] ∧ c = x ++ lit "." ++ d) ∧
  (is_subdomain_or_equal c d = true → c = d ∨ ∃ x, x ≠ [] ∧ c = x ++ lit "." ++ d).
Proof.
  intros Hc Hd. unfold is_strict_subdomain, is_subdomain_or_equal.
  rewrite !plain_normalize_domain by done.
  assert (ends_with (lit "." ++ d) c = true → ∃ x, x ≠ [] ∧ c = x ++ lit "." ++ d) as H.
  { intros [x ->]%ends_with_true. exists x. split; [|done]. intros ->.
    destruct (plain_parts _ Hc) as (_ & _ & Hh & _). by apply (Hh (ch ".")). }
  rewrite andb_true_iff, orb_true_iff, str_eqb_true. naive_solver.
Qed.

Lemma allows_covers (M C : DomainPattern) h :
  plain_name (domain_of M) = true → plain_name (domain_of C) = true →
  allows M C = true → covers C h → covers M h.
Proof.
  intros HM HC Ha. destruct (subdomain_parts _ _ HC HM) as [Hs He].
  assert (∀ x y z : str, x ≠ [] → (x ++ lit ".") ++ y ++ z ≠ []) as Hn by (intros []; done).
  destruct M as [d|d|d], C as [c|c|c]; cbn [allows domain_of covers] in *; try done.
  1-3: apply He in Ha as [-> | (x & Hx & ->)]; [naive_solver|].
  4-6: first [apply Hs in Ha as (x & Hx & ->)|apply He in Ha as [-> | (x & Hx & ->)]; [naive_solver|]].
  7: { unfold domain_eq in Ha. rewrite !plain_normalize_domain in Ha by done.
       apply str_eqb_true in Ha. by subst. }
  all: try (intros [-> | (y & Hy & ->)]); try (intros (y & Hy & ->)); try (intros ->).
  all: try right; try (exists x; by rewrite <-?app_assoc); exists (y ++ lit "." ++ x);
    (split; [by destruct y|by rewrite <-!app_assoc]).
Qed.

(** What is used of globset: a name matches itself and [?*.name] the names that end
    with the name behind a dot, up to the case of ASCII letters. *)
Class GlobLaws (glob : str → option (str → bool)) : Prop := {
  glob_literal d h : plain_name d = true → glob_matches glob d h ↔ lower h = d;
  glob_subdomains d h :
    plain_name d = true →
    glob_matches glob (lit "?*." ++ d) h ↔ ∃ x, x ≠ [] ∧ lower h = x ++ lit "." ++ d;
}.

Section Bounded.
Context (glob : str → option (str → bool)) `{!GlobLaws glob} (url_host_parse : str → option str).

(** The domains of a pattern are in normal form for the host parser too. *)
Definition canonical (P : DomainPattern) : Prop :=
  plain_name (domain_of P) = true ∧ url_host_parse (domain_of P) = Some (domain_of P).

Lemma expand_covers P h :
  plain_name (domain_of P) = true → (∃ c, c ∈ expand P ∧ glob_matches glob c h) ↔ covers P h.
Proof.
  intros HP. destruct P as [d|d|d]; cbn [expand covers domain_of] in *;
    rewrite <-?glob_subdomains, <-?glob_literal by done; set_solver.
Qed.

Lemma compiled_covers Ps w gs h :
  Forall canonical Ps → compile_globset_with_policy glob (show_pattern <$> Ps) w = Ok gs →
  is_match gs h = true ↔ ∃ P, P ∈ Ps ∧ covers P h.
Proof.
  intros HP Hc. rewrite (compile_globset_match _ _ _ _ _ Hc). rewrite Forall_forall in HP. split.
  - intros (p & c & (P & -> & Hin)%list_elem_of_fmap & H2 & H3). exists P. split; [done|].
    destruct (HP _ Hin) as [Hp _]. rewrite expand_show in H2 by done.
    apply expand_covers; [done|]. by exists c.
  - intros (P & Hin & H). destruct (HP _ Hin) as [Hp _]. apply expand_covers in H as (c & H1 & H2); [|done].
    exists (show_pattern P), c. rewrite expand_show by done. split; [|done].
    apply list_elem_of_fmap. by exists P.
Qed.

(** Entries that the managed entries allow only match hosts the managed entries
    match. *)
Lemma allowed_within_managed Ms Cs w w' ms cs h :
  Forall canonical Ms → Forall canonical Cs →
  (∀ e, e ∈ show_pattern <$> Cs →
     any (λ m, allows m (parse_for_constraints url_host_parse e))
       (parse_for_constraints url_host_parse <$> (show_pattern <$> Ms)) = true) →
  compile_globset_with_policy glob (show_pattern <$> Ms) w = Ok ms →
  compile_globset_with_policy glob (show_pattern <$> Cs) w' = Ok cs →
  is_match cs h = true → is_match ms h = true.
Proof.
  intros HM HC Ha Hm Hc. rewrite (compiled_covers _ _ _ _ HM Hm), (compiled_covers _ _ _ _ HC Hc).
  intros (C & HCi & Hcov). rewrite Forall_forall in HM, HC. destruct (HC _ HCi) as [HC1 HC2].
  assert (show_pattern C ∈ show_pattern <$> Cs) as Hin by (apply list_elem_of_fmap; by exists C).
  specialize (Ha _ Hin). rewrite any_true in Ha. destruct Ha as (m & Hmi & Hall).
  apply list_elem_of_fmap in Hmi as (e & -> & He). apply list_elem_of_fmap in He as (M & -> & HMi).
  destruct (HM _ HMi) as [HM1 HM2]. rewrite !parse_for_constraints_show in Hall by done.
  exists M. split; [done|]. by apply (allows_covers M C h).
Qed.
End Bounded.

(** A matcher for these patterns that satisfies the laws. *)
Definition demo_glob (p : str) : option (str → bool) :=
  Some (match strip_prefix (lit "?*.") p with
        | Some d => λ h, ends_with (lit "." ++ d) (drop 1 (lower h))
        | None => λ h, lower h == p
        end).

#[export] Instance demo_glob_laws : GlobLaws demo_glob.
Proof.
  assert (lit "?*." = [63; 42; 46]) as E by by_compute. split; intros d h Hd; unfold glob_matches, demo_glob.
  - rewrite E, plain_head by (exact Hd || by_compute). setoid_rewrite <-str_eqb_true. naive_solver.
  - rewrite strip_prefix_app. split.
    + intros (g & [= <-] & H). apply ends_with_true in H as [x H].
      destruct (lower h) as [|c t] eqn:El; [by destruct x|]. cbn [drop] in H. rewrite drop_0 in H. rewrite H.
      exists (c :: x). done.
    + intros (x & Hx & H). eexists. split; [done|]. apply ends_with_true.
      destruct x as [|c x]; [done|]. rewrite H. by exists x.
Qed.
