(* ===== verification/NetworkConfig.v ===== *)
(** * The settings of the network proxy

    [network-proxy/src/config.rs] and the configuration types of
    [network-proxy/src/mitm_hook.rs]: the settings record, the unix-socket
    permissions, the methods a mode allows, and the addresses the proxies listen on.

    Parsing a URL is a parameter. *)

From S2P Require Import Prelude RustStr AbsPath IpAddress NetworkPolicy.

Local Open Scope N_scope.
Local Open Scope rstr_scope.

(** An [anyhow] error: the messages from the outermost context inwards. *)
Definition anyhow : Type := list str.
Definition with_context {A} (m : str) (r : result anyhow A) : result anyhow A := map_err (cons m) r.

(** ** Hooks (mitm_hook.rs); the maps are in key order, a body is its JSON text *)

Record MitmHookMatchConfig := mkMatchConfig {
  methods : list str;
  path_prefixes : list str;
  query : list (str * list str);
  headers : list (str * list str);
  body : option str;
}.
Record InjectedHeaderConfig := mkInjected {
  injected_name : str;
  secret_env_var : option str;
  secret_file : option str;
  prefix : option str;
}.
Record MitmHookActionsConfig := mkActionsConfig {
  strip_request_headers : list str;
  inject_request_headers : list InjectedHeaderConfig;
}.
Record MitmHookConfig := mkHookConfig {
  hook_host : str;
  matcher : MitmHookMatchConfig;
  actions : MitmHookActionsConfig;
}.

(** ** Settings *)

Inductive NetworkMode := Limited | Full.

Definition allows_method (mode : NetworkMode) (method : str) : bool :=
  match mode with
  | Full => true
  | Limited => (method == lit "GET") || (method == lit "HEAD") || (method == lit "OPTIONS")
  end.

Inductive NetworkUnixSocketPermission := SocketAllow | SocketDeny.

(** The entries of a [BTreeMap], in key order. *)
Definition UnixSockets : Type := option (list (str * NetworkUnixSocketPermission)).

Record NetworkProxySettings := mkSettings {
  enabled : bool;
  proxy_url : str;
  enable_socks5 : bool;
  socks_url : str;
  enable_socks5_udp : bool;
  allow_upstream_proxy : bool;
  dangerously_allow_non_loopback_proxy : bool;
  dangerously_allow_all_unix_sockets : bool;
  mode : NetworkMode;
  domains : Domains;
  unix_sockets : UnixSockets;
  allow_local_binding : bool;
  mitm : bool;
  mitm_hooks : list MitmHookConfig;
}.

#[export] Instance NetworkMode_eq_dec : EqDecision NetworkMode.
Proof. solve_decision. Defined.
#[export] Instance NetworkUnixSocketPermission_eq_dec : EqDecision NetworkUnixSocketPermission.
Proof. solve_decision. Defined.
#[export] Instance MitmHookMatchConfig_eq_dec : EqDecision MitmHookMatchConfig.
Proof. solve_decision. Defined.
#[export] Instance InjectedHeaderConfig_eq_dec : EqDecision InjectedHeaderConfig.
Proof. solve_decision. Defined.
#[export] Instance MitmHookActionsConfig_eq_dec : EqDecision MitmHookActionsConfig.
Proof. solve_decision. Defined.
#[export] Instance MitmHookConfig_eq_dec : EqDecision MitmHookConfig.
Proof. solve_decision. Defined.
#[export] Instance NetworkProxySettings_eq_dec : EqDecision NetworkProxySettings.
Proof. solve_decision. Defined.

Definition default_proxy_url : str := lit "http://127.0.0.1:3128".
Definition default_socks_url : str := lit "http://127.0.0.1:8081".
Definition default_settings : NetworkProxySettings :=
  mkSettings false default_proxy_url true default_socks_url true true false false Full None None
    false false [].

Definition set_domains (d : Domains) (s : NetworkProxySettings) : NetworkProxySettings :=
  mkSettings (enabled s) (proxy_url s) (enable_socks5 s) (socks_url s) (enable_socks5_udp s)
    (allow_upstream_proxy s) (dangerously_allow_non_loopback_proxy s)
    (dangerously_allow_all_unix_sockets s) (mode s) d (unix_sockets s) (allow_local_binding s)
    (mitm s) (mitm_hooks s).
Definition set_mode (m : NetworkMode) (s : NetworkProxySettings) : NetworkProxySettings :=
  mkSettings (enabled s) (proxy_url s) (enable_socks5 s) (socks_url s) (enable_socks5_udp s)
    (allow_upstream_proxy s) (dangerously_allow_non_loopback_proxy s)
    (dangerously_allow_all_unix_sockets s) m (domains s) (unix_sockets s) (allow_local_binding s)
    (mitm s) (mitm_hooks s).

(** ** Unix sockets *)

Definition allow_unix_sockets (s : NetworkProxySettings) : list str :=
  default [] ((λ l, fst <$> List.filter (λ e, bool_decide (e.2 = SocketAllow)) l) <$> unix_sockets s).

Fixpoint btree_insert {V} (k : str) (v : V) (l : list (str * V)) : list (str * V) :=
  match l with
  | [] => [(k, v)]
  | (k', v') :: l' =>
      match str_cmp k k' with
      | Lt => (k, v) :: l
      | Eq => (k, v) :: l'
      | Gt => (k', v') :: btree_insert k v l'
      end
  end.

Definition set_unix_socket_entries (entries : list str) (p : NetworkUnixSocketPermission)
    (u : UnixSockets) : UnixSockets :=
  let kept := List.filter (λ e, negb (bool_decide (e.2 = p))) (default [] u) in
  let l := foldl (λ m e, btree_insert e p m) kept entries in
  if is_empty l then None else Some l.

Inductive ValidatedUnixSocketPath := Native (path : str) | UnixStyleAbsolute (path : str).

Section Paths.
Context (home_dir : option str) (current_dir : result str str).
(** [{:?}] of a string. *)
Context (debug_str : str → str).

Definition unix_style_parse (value : str) : option str :=
  if starts_with [slash] value then Some value else None.

Definition validated_parse (socket_path : str) : result anyhow ValidatedUnixSocketPath :=
  if path_is_absolute socket_path then
    path ← with_context (lit "failed to normalize unix socket path " ++ debug_str socket_path)
             (map_err (λ e, [e]) (from_absolute_path home_dir current_dir socket_path));
    Ok (Native path)
  else match unix_style_parse socket_path with
       | Some path => Ok (UnixStyleAbsolute path)
       | None => Err [lit "expected an absolute path, got " ++ debug_str socket_path]
       end.

Fixpoint validate_socket_paths (index : nat) (l : list str) : result anyhow unit :=
  match l with
  | [] => Ok ()
  | p :: l =>
      _ ← with_context (lit "invalid network.allow_unix_sockets[" ++ fmt_nat index ++ lit "]")
            (validated_parse p);
      validate_socket_paths (S index) l
  end.
Definition validate_unix_socket_allowlist_paths (cfg : NetworkProxySettings) : result anyhow unit :=
  validate_socket_paths 0 (allow_unix_sockets cfg).
End Paths.

(** ** Listening addresses *)

Definition SocketAddr : Type := IpAddr * N.
Definition localhost4 : IpAddr := V4 2130706433.

Definition clamp_non_loopback (addr : SocketAddr) (allow_non_loopback : bool) : SocketAddr :=
  if is_loopback addr.1 then addr
  else if allow_non_loopback then addr
  else (localhost4, addr.2).

Definition clamp_bind_addrs (http_addr socks_addr : SocketAddr) (cfg : NetworkProxySettings)
    : SocketAddr * SocketAddr :=
  let http_addr := clamp_non_loopback http_addr (dangerously_allow_non_loopback_proxy cfg) in
  let socks_addr := clamp_non_loopback socks_addr (dangerously_allow_non_loopback_proxy cfg) in
  if is_empty (allow_unix_sockets cfg) && negb (dangerously_allow_all_unix_sockets cfg)
  then (http_addr, socks_addr)
  else ((localhost4, http_addr.2), (localhost4, socks_addr.2)).

Record SocketAddressParts := mkParts { part_host : str; part_port : N }.

(** [str::parse::<u16>]. *)
Definition parse_u16 (s : str) : option N :=
  let digits := default s (strip_prefix (lit "+") s) in
  if is_empty digits || negb (all is_ascii_digit digits) then None
  else let n := foldl (λ n c, n * 10 + (c - 48)) 0 digits in
       if n <=? 65535 then Some n else None.

Definition missing_host {A} (input : str) : result anyhow A :=
  Err [lit "missing host in network proxy address: " ++ input].

Definition parse_host_port_fallback (input : str) (default_port : N)
    : result anyhow SocketAddressParts :=
  let without_scheme := from_option snd input (split_once_str (lit "://") input) in
  let host_port := default without_scheme (head (split slash without_scheme)) in
  let host_port := from_option snd host_port (rsplit_once (ch "@") host_port) in
  match (if starts_with (lit "[") host_port then split_once (ch "]") host_port else None) with
  | Some (before, after) =>
      let host := drop 1 before in
      let port := default default_port (strip_prefix (lit ":") after ≫= parse_u16) in
      if is_empty host then missing_host input else Ok (mkParts host port)
  | None =>
      match (if Nat.eqb (count_char (ch ":") host_port) 1 then rsplit_once (ch ":") host_port else None) with
      | Some (host, port) =>
          if is_empty host then missing_host input
          else Ok (mkParts host (default default_port (parse_u16 port)))
      | None =>
          if is_empty host_port then missing_host input else Ok (mkParts host_port default_port)
      end
  end.

Definition is_bracket (c : char) : bool := N.eqb c (ch "[") || N.eqb c (ch "]").
Definition trim_brackets (s : str) : str :=
  reverse (drop_while is_bracket (reverse (drop_while is_bracket s))).

Section Addresses.
(** [Url::parse]: the host and the port of the URL, [None] on failure. *)
Context (url_parse : str → option (option str * option N)).

Definition parse_host_port (url : str) (default_port : N) : result anyhow SocketAddressParts :=
  let trimmed := trim url in
  if is_empty trimmed then missing_host url
  else if match parse_ip trimmed with Some (V6 _) => true | _ => false end
          && negb (starts_with (lit "[") trimmed)
  then Ok (mkParts trimmed default_port)
  else
    let candidate := if contains (lit "://") trimmed then trimmed else lit "http://" ++ trimmed in
    match url_parse candidate with
    | Some (Some host, port) =>
        let host := trim_brackets host in
        if is_empty host then missing_host url
        else Ok (mkParts host (default default_port port))
    | _ => parse_host_port_fallback trimmed default_port
    end.

Definition resolve_addr (url : str) (default_port : N) : result anyhow SocketAddr :=
  addr_parts ← parse_host_port url default_port;
  let host := if eq_ignore_ascii_case (part_host addr_parts) (lit "localhost")
              then lit "127.0.0.1" else part_host addr_parts in
  match parse_ip host with
  | Some ip => Ok (ip, part_port addr_parts)
  | None => Ok (localhost4, part_port addr_parts)
  end.

Definition format_host_and_port (host : str) (port : N) : str :=
  if contains_char (ch ":") host
  then lit "[" ++ host ++ lit "]:" ++ fmt_nat (N.to_nat port)
  else host ++ lit ":" ++ fmt_nat (N.to_nat port).

Definition host_and_port_from_network_addr (value : str) (default_port : N) : str :=
  let trimmed := trim value in
  if is_empty trimmed then lit "<missing>"
  else match parse_host_port trimmed default_port with
       | Ok parts => format_host_and_port (part_host parts) (part_port parts)
       | Err _ => format_host_and_port trimmed default_port
       end.

Record RuntimeConfig := mkRuntime { http_addr : SocketAddr; socks_addr : SocketAddr }.

Definition resolve_runtime (home_dir : option str) (current_dir : result str str)
    (debug_str : str → str) (cfg : NetworkProxySettings) : result anyhow RuntimeConfig :=
  _ ← validate_unix_socket_allowlist_paths home_dir current_dir debug_str cfg;
  http ← with_context (lit "invalid network.proxy_url: " ++ proxy_url cfg)
           (resolve_addr (proxy_url cfg) 3128);
  socks ← with_context (lit "invalid network.socks_url: " ++ socks_url cfg)
            (resolve_addr (socks_url cfg) 8081);
  let '(http, socks) := clamp_bind_addrs http socks cfg in
  Ok (mkRuntime http socks).
End Addresses.

(** ** The proxies stay on the loopback interface *)

Lemma localhost4_loopback : is_loopback localhost4 = true.
Proof. by_compute. Qed.

Lemma clamp_non_loopback_spec addr allow :
  (clamp_non_loopback addr allow).2 = addr.2 ∧
  (is_loopback (clamp_non_loopback addr allow).1 = false →
   allow = true ∧ clamp_non_loopback addr allow = addr).
Proof.
  unfold clamp_non_loopback. pose proof localhost4_loopback.
  destruct (is_loopback addr.1) eqn:E, allow; cbn [fst snd]; split; congruence || naive_solver.
Qed.

(** The proxies keep the ports of their URLs, and listen beyond the loopback
    interface only at the address the URL names, when the settings allow it and no
    unix socket is proxied. *)
Theorem resolve_runtime_loopback url_parse home_dir current_dir debug_str
    (cfg : NetworkProxySettings) (rt : RuntimeConfig) :
  resolve_runtime url_parse home_dir current_dir debug_str cfg = Ok rt →
  ∃ http socks,
    resolve_addr url_parse (proxy_url cfg) 3128 = Ok http ∧
    resolve_addr url_parse (socks_url cfg) 8081 = Ok socks ∧
    (http_addr rt).2 = http.2 ∧ (socks_addr rt).2 = socks.2 ∧
    ∀ bound requested : SocketAddr,
      (bound, requested) ∈ [(http_addr rt, http); (socks_addr rt, socks)] →
      is_loopback bound.1 = false →
      bound = requested ∧ dangerously_allow_non_loopback_proxy cfg = true ∧
      allow_unix_sockets cfg = [] ∧ dangerously_allow_all_unix_sockets cfg = false.
Proof.
  unfold resolve_runtime. rewrite bind_Ok. intros ([] & _ & H). rewrite bind_Ok in H.
  destruct H as (http & H1 & H). rewrite bind_Ok in H. destruct H as (socks & H2 & H).
  unfold with_context in *. rewrite map_err_Ok in H1, H2. exists http, socks.
  split; [done|]. split; [done|]. pose proof localhost4_loopback as HL.
  destruct (clamp_non_loopback_spec http (dangerously_allow_non_loopback_proxy cfg)) as [Hp Hh].
  destruct (clamp_non_loopback_spec socks (dangerously_allow_non_loopback_proxy cfg)) as [Hq Hs].
  unfold clamp_bind_addrs in H.
  destruct (is_empty (allow_unix_sockets cfg)
    && negb (dangerously_allow_all_unix_sockets cfg)) eqn:E; injection H as <-; cbn [http_addr socks_addr].
  - apply andb_true_iff in E as [E1%is_empty_true E2%negb_true_iff]. split; [done|]. split; [done|].
    intros b r Hb Hf. rewrite !elem_of_cons, elem_of_nil in Hb. naive_solver.
  - split; [done|]. split; [done|]. intros b r Hb Hf. exfalso.
    rewrite !elem_of_cons, elem_of_nil in Hb. cbn [fst snd] in *. naive_solver congruence.
Qed.

(** A URL parser for the two defaults and one other address. *)
Definition demo_url_parse (s : str) : option (option str * option N) :=
  if s == default_proxy_url then Some (Some (lit "127.0.0.1"), Some 3128)
  else if s == default_socks_url then Some (Some (lit "127.0.0.1"), Some 8081)
  else if s == lit "http://0.0.0.0:9000" then Some (Some (lit "0.0.0.0"), Some 9000)
  else None.

Definition demo_exposed (all_sockets : bool) : NetworkProxySettings :=
  mkSettings true (lit "0.0.0.0:9000") true default_socks_url true true true all_sockets Full None
    None false false [].

Lemma resolve_runtime_loopback_witness :
  resolve_runtime demo_url_parse None (Err []) id (demo_exposed true)
    = Ok (mkRuntime (localhost4, 9000) (localhost4, 8081)) ∧
  ∃ rt, resolve_runtime demo_url_parse None (Err []) id (demo_exposed false) = Ok rt ∧
    http_addr rt = (V4 0, 9000) ∧ dangerously_allow_non_loopback_proxy (demo_exposed false) = true.
Proof.
  split; [by_compute|]. exists (mkRuntime (V4 0, 9000) (localhost4, 8081)).
  assert (resolve_runtime demo_url_parse None (Err []) id (demo_exposed false)
    = Ok (mkRuntime (V4 0, 9000) (localhost4, 8081))) as E by by_compute.
  split; [exact E|]. split; [reflexivity|].
  destruct (resolve_runtime_loopback _ _ _ _ _ _ E) as (http & socks & _ & _ & _ & _ & H).
  destruct (H (V4 0, 9000) http) as (_ & H' & _); [by left|by_compute|exact H'].
Defined.

(** ** The allowed sockets *)

Lemma elem_of_btree_insert {V} (k : str) (v : V) l p :
  (p, v) ∈ btree_insert k v l ↔ p = k ∨ (p, v) ∈ l.
Proof.
  induction l as [|[k' v'] l IH]; cbn [btree_insert]; [set_solver|].
  destruct (str_cmp k k') eqn:E; rewrite !elem_of_cons, ?IH; [apply str_cmp_eq in E as ->|..]; naive_solver.
Qed.

Lemma set_allow_unix_sockets_exact entries s p u :
  unix_sockets s = set_unix_socket_entries entries SocketAllow u →
  p ∈ allow_unix_sockets s ↔ p ∈ entries.
Proof.
  intros E. unfold allow_unix_sockets. rewrite E. unfold set_unix_socket_entries.
  set (kept := List.filter _ _). set (l := foldl _ kept entries).
  assert ((p, SocketAllow) ∈ l ↔ p ∈ entries) as Hl.
  { assert ((p, SocketAllow) ∈ l ↔ p ∈ entries ∨ (p, SocketAllow) ∈ kept) as ->.
    { unfold l. clearbody kept. clear. revert kept. induction entries as [|e es IH]; intros kept; cbn.
      - set_solver.
      - rewrite IH, elem_of_btree_insert. set_solver. }
    split; [|by left]. intros [?|H]; [done|]. apply list_elem_of_In, filter_In in H as [_ H].
    by vm_compute in H. }
  rewrite <-Hl. transitivity (p ∈ (fst <$> List.filter (λ e, bool_decide (e.2 = SocketAllow)) l)).
  { destruct l; done. }
  rewrite list_elem_of_fmap. split.
  - intros ([p' q] & -> & [H1 H2]%list_elem_of_In%filter_In). apply list_elem_of_In in H1. cbn in *.
    by apply bool_decide_eq_true in H2 as ->.
  - intros H. exists (p, SocketAllow). split; [done|]. apply list_elem_of_In, filter_In.
    split; [by apply list_elem_of_In|]. by apply bool_decide_eq_true.
Qed.
