(* ===== verification/MitmHook.v ===== *)
(** * Request hooks of the network proxy

    [network-proxy/src/mitm_hook.rs]: validation and compilation of the configured
    hooks and their evaluation on a request.

    Globs, header names and values, form decoding, the environment and the files are
    parameters. *)

From S2P Require Import Prelude RustStr AbsPath NetworkPolicy NetworkConfig.

Local Open Scope rstr_scope.

Record CompiledGlobMatcher := mkGlob { glob_pattern : str; glob_matcher : str → bool }.
Inductive PathMatcher := PathPrefix (p : str) | PathGlob (g : CompiledGlobMatcher).
Inductive ValueMatcher := ValueExact (v : str) | ValueGlob (g : CompiledGlobMatcher).
Inductive MatcherPattern := PatLiteral (s : str) | PatGlob (s : str).

(** A query or a header constraint. *)
Record ValueConstraint := mkConstraint {
  constraint_name : str;
  allowed_values : list ValueMatcher;
}.
Record MitmHookMatcher := mkMatcher {
  m_methods : list str;
  m_path_prefixes : list PathMatcher;
  m_query : list ValueConstraint;
  m_headers : list ValueConstraint;
}.
Inductive SecretSource := EnvVar (name : str) | File (path : str).
Record ResolvedInjectedHeader := mkResolved {
  resolved_name : str;
  resolved_value : str;
  resolved_source : SecretSource;
}.
Record MitmHookActions := mkActions {
  a_strip_request_headers : list str;
  a_inject_request_headers : list ResolvedInjectedHeader;
}.
Record MitmHook := mkHook {
  h_host : str;
  h_matcher : MitmHookMatcher;
  h_actions : MitmHookActions;
}.

Definition MitmHooksByHost : Type := gmap (list N) (list MitmHook).

Inductive HookEvaluation :=
| NoHooksForHost
| Matched (actions : MitmHookActions)
| HookedHostNoMatch.

(** A request: a header value is [None] when it is not visible ASCII ([to_str]). *)
Record Request := mkRequest {
  r_method : str;
  r_path : str;
  r_query : option str;
  r_headers : list (str * option str);
}.

(** What the code outside the crate provides. *)
Class MitmOutside := {
  mo_home_dir : option str;
  mo_current_dir : result str str;
  mo_debug_str : str → str;
  (** [GlobBuilder] with or without [literal_separator]. *)
  mo_glob : bool → str → result str (str → bool);
  (** [HeaderName::from_bytes] and [HeaderValue::from_str]. *)
  mo_header_name : str → result str str;
  mo_header_value : str → result str str;
  (** [form_urlencoded::parse]. *)
  mo_form_parse : str → list (str * str);
  (** [env::var] and [fs::read_to_string]. *)
  mo_env_var : str → option str;
  mo_read_file : str → result str str;
}.

Definition PATTERN_PREFIX : str := lit "pattern:".
Definition LITERAL_PREFIX : str := lit "literal:".
Definition to_ascii_uppercase (c : char) : char :=
  if in_range 97 122 c then (c - 32)%N else c.

Section Hooks.
Context `{MitmOutside}.

(** ** Parsing the parts of a hook *)

Definition parse_matcher_pattern (pattern : str) : result anyhow MatcherPattern :=
  match strip_prefix LITERAL_PREFIX pattern with
  | Some literal => Ok (PatLiteral literal)
  | None =>
      match strip_prefix PATTERN_PREFIX pattern with
      | None => Ok (PatLiteral pattern)
      | Some glob_pattern =>
          if is_empty glob_pattern then Err [lit "glob pattern must not be empty"]
          else Ok (PatGlob glob_pattern)
      end
  end.

Definition compile_glob_matcher (pattern : str) (literal_separator : bool)
    : result anyhow CompiledGlobMatcher :=
  match mo_glob literal_separator pattern with
  | Ok g => Ok (mkGlob pattern g)
  | Err err => Err [lit "invalid glob pattern " ++ mo_debug_str pattern ++ lit ": " ++ err]
  end.

Definition compile_path_matcher (prefix : str) : result anyhow PathMatcher :=
  p ← parse_matcher_pattern prefix;
  match p with
  | PatLiteral prefix =>
      if is_empty prefix then Err [lit "path_prefixes must not contain empty entries"]
      else Ok (PathPrefix prefix)
  | PatGlob glob_pattern => g ← compile_glob_matcher glob_pattern true; Ok (PathGlob g)
  end.
Definition compile_path_matchers (path_prefixes : list str) : result anyhow (list PathMatcher) :=
  collect_map compile_path_matcher path_prefixes.

Definition compile_value_matcher (value : str) : result anyhow ValueMatcher :=
  p ← parse_matcher_pattern value;
  match p with
  | PatLiteral value => Ok (ValueExact value)
  | PatGlob glob_pattern => g ← compile_glob_matcher glob_pattern false; Ok (ValueGlob g)
  end.
Definition compile_value_matchers (values : list str) : result anyhow (list ValueMatcher) :=
  collect_map compile_value_matcher values.

Definition normalize_hook_host (host : str) : result anyhow str :=
  let normalized := normalize_host host in
  if is_empty normalized then Err [lit "host must not be empty"]
  else if contains_char (ch "*") normalized
  then Err [lit "MITM hook hosts must be exact hosts and cannot contain wildcards"]
  else Ok normalized.

Definition normalize_method (method : str) : result anyhow str :=
  let normalized := to_ascii_uppercase <$> trim method in
  if is_empty normalized then Err [lit "methods must not contain empty entries"] else Ok normalized.
Definition normalize_methods (methods : list str) : result anyhow (list str) :=
  collect_map normalize_method methods.

Definition normalize_query_name (name : str) : result anyhow str :=
  if is_empty name then Err [lit "query keys must not be empty"] else Ok name.

Definition parse_header_name (name : str) : result anyhow str :=
  map_err (λ err, [lit "invalid header name " ++ mo_debug_str name ++ lit ": " ++ err])
    (mo_header_name name).

Definition parse_secret_file (path : str) : result anyhow str :=
  if is_empty (trim path) then Err [lit "secret_file must not be empty"]
  else if negb (path_is_absolute path)
  then Err [lit "secret_file must be an absolute path: " ++ mo_debug_str path]
  else with_context (lit "secret_file must be an absolute path: " ++ mo_debug_str path)
         (map_err (λ e, [e]) (from_absolute_path mo_home_dir mo_current_dir path)).

(** ** Validation *)

(** A [for] loop of fallible steps. *)
Fixpoint try_each {A} (f : A → result anyhow unit) (l : list A) : result anyhow unit :=
  match l with [] => Ok () | a :: l => _ ← f a; try_each f l end.

Definition validate_query_constraint (e : str * list str) : result anyhow unit :=
  let '(name, values) := e in
  normalized ← normalize_query_name name;
  if is_empty (normalized : str) then Err [lit "query keys must not be empty"]
  else if is_empty values
  then Err [lit "query key " ++ mo_debug_str name ++ lit " must list at least one allowed value"]
  else _ ← with_context (lit "invalid matcher for query key " ++ mo_debug_str name)
             (compile_value_matchers values);
       Ok ().
Definition validate_query_constraints : list (str * list str) → result anyhow unit :=
  try_each validate_query_constraint.

Definition validate_header_constraint (e : str * list str) : result anyhow unit :=
  let '(name, values) := e in
  _ ← parse_header_name name;
  _ ← with_context (lit "invalid matcher for header " ++ mo_debug_str name)
        (compile_value_matchers values);
  Ok ().
Definition validate_header_constraints : list (str * list str) → result anyhow unit :=
  try_each validate_header_constraint.

Definition validate_strip_request_headers : list str → result anyhow unit :=
  try_each (λ name, _ ← parse_header_name name; Ok ()).

Definition validate_injected_header (header : InjectedHeaderConfig) : result anyhow unit :=
  _ ← parse_header_name (injected_name header);
  match secret_env_var header, secret_file header with
  | Some secret_env_var, None =>
      if is_empty (trim secret_env_var) then Err [lit "secret_env_var must not be empty"] else Ok ()
  | None, Some secret_file => _ ← parse_secret_file secret_file; Ok ()
  | _, _ => Err [lit "expected exactly one of secret_env_var or secret_file"]
  end.
Definition validate_injected_headers : list InjectedHeaderConfig → result anyhow unit :=
  try_each validate_injected_header.

(** [network.mitm_hooks[i]] followed by a field. *)
Definition hook_field (i : nat) (field : str) : str :=
  lit "network.mitm_hooks[" ++ fmt_nat i ++ lit "]" ++ field.
Definition in_field {A} (i : nat) (field : str) (r : result anyhow A) : result anyhow A :=
  with_context (lit "invalid " ++ hook_field i field) r.

(** The body of the loop of [validate_mitm_hook_config]. *)
Definition validate_hook (i : nat) (hook : MitmHookConfig) : result anyhow unit :=
  let m := matcher hook in
  host ← in_field i (lit ".host") (normalize_hook_host (hook_host hook));
  methods ← in_field i (lit ".match.methods") (normalize_methods (methods m));
  if is_empty (methods : list str)
  then Err [hook_field i (lit ".match.methods must not be empty")]
  else
    path_prefixes ← in_field i (lit ".match.path_prefixes") (compile_path_matchers (path_prefixes m));
    if is_empty (path_prefixes : list PathMatcher)
    then Err [hook_field i (lit ".match.path_prefixes must not be empty")]
    else if opt_is_some (body m)
    then Err [hook_field i
                (lit ".match.body is reserved for a future release and is not yet supported")]
    else
      _ ← in_field i (lit ".match.query") (validate_query_constraints (query m));
      _ ← in_field i (lit ".match.headers") (validate_header_constraints (headers m));
      _ ← in_field i (lit ".actions.strip_request_headers")
            (validate_strip_request_headers (strip_request_headers (actions hook)));
      _ ← in_field i (lit ".actions.inject_request_headers")
            (validate_injected_headers (inject_request_headers (actions hook)));
      if is_empty (host : str) then Err [hook_field i (lit ".host must not be empty")] else Ok ().

Fixpoint validate_hooks (i : nat) (hooks : list MitmHookConfig) : result anyhow unit :=
  match hooks with
  | [] => Ok ()
  | hook :: hooks => _ ← validate_hook i hook; validate_hooks (S i) hooks
  end.

Definition validate_mitm_hook_config (config : NetworkProxySettings) : result anyhow unit :=
  let hooks := mitm_hooks config in
  if is_empty hooks then Ok ()
  else if negb (mitm config) then Err [lit "network.mitm_hooks requires network.mitm = true"]
  else validate_hooks 0 hooks.

(** ** Compilation *)

(** The closures of [compile_mitm_hooks]. *)
Definition read_secret_file (path : str) : result anyhow str :=
  value ← with_context (lit "failed to read secret file " ++ path)
            (map_err (λ e, [e]) (mo_read_file path));
  Ok (trim value).

Definition compile_injected_header (header : InjectedHeaderConfig)
    : result anyhow ResolvedInjectedHeader :=
  name ← parse_header_name (injected_name header);
  '(secret, source) ←
    match secret_env_var header, secret_file header with
    | Some env_var, None =>
        value ← ok_or (mo_env_var env_var) [lit "missing required environment variable " ++ env_var];
        Ok (value, EnvVar env_var)
    | None, Some secret_file =>
        path ← parse_secret_file secret_file;
        value ← read_secret_file path;
        Ok (value, File path)
    | _, _ => Err [lit "expected exactly one of secret_env_var or secret_file"]
    end;
  let prefix := default [] (prefix header) in
  value ← with_context (lit "invalid value for injected header " ++ injected_name header)
            (map_err (λ e, [e]) (mo_header_value (prefix ++ secret)));
  Ok (mkResolved name value source).

Definition compile_query (e : str * list str) : result anyhow ValueConstraint :=
  let '(name, values) := e in
  name ← normalize_query_name name; vs ← compile_value_matchers values; Ok (mkConstraint name vs).
Definition compile_header (e : str * list str) : result anyhow ValueConstraint :=
  let '(name, values) := e in
  name ← parse_header_name name; vs ← compile_value_matchers values; Ok (mkConstraint name vs).
Definition compile_injected (header : InjectedHeaderConfig) : result anyhow ResolvedInjectedHeader :=
  with_context (lit "failed to compile injected header " ++ injected_name header)
    (compile_injected_header header).

(** The body of the loop of [compile_mitm_hooks_with_resolvers]. *)
Definition compile_hook (hook : MitmHookConfig) : result anyhow MitmHook :=
  let m := matcher hook in
  host ← normalize_hook_host (hook_host hook);
  methods ← normalize_methods (methods m);
  path_prefixes ← compile_path_matchers (path_prefixes m);
  query ← collect_map compile_query (query m);
  headers ← collect_map compile_header (headers m);
  strip ← collect_map parse_header_name (strip_request_headers (actions hook));
  inject ← collect_map compile_injected (inject_request_headers (actions hook));
  Ok (mkHook host (mkMatcher methods path_prefixes query headers) (mkActions strip inject)).

(** [entry(host).or_default().push(hook)]. *)
Definition push_hook (m : MitmHooksByHost) (hook : MitmHook) : MitmHooksByHost :=
  <[h_host hook := default [] (m !! h_host hook) ++ [hook]]> m.

Fixpoint compile_hooks (m : MitmHooksByHost) (hooks : list MitmHookConfig)
    : result anyhow MitmHooksByHost :=
  match hooks with
  | [] => Ok m
  | hook :: hooks => h ← compile_hook hook; compile_hooks (push_hook m h) hooks
  end.

Definition compile_mitm_hooks (config : NetworkProxySettings) : result anyhow MitmHooksByHost :=
  _ ← validate_mitm_hook_config config;
  compile_hooks ∅ (mitm_hooks config).

(** ** Evaluation *)

Definition path_matcher_matches (p : PathMatcher) (candidate : str) : bool :=
  match p with
  | PathPrefix prefix => starts_with prefix candidate
  | PathGlob glob => glob_matcher glob candidate
  end.
Definition path_matches (path_prefixes : list PathMatcher) (path : str) : bool :=
  any (λ p, path_matcher_matches p path) path_prefixes.
Definition value_matches (v : ValueMatcher) (candidate : str) : bool :=
  match v with
  | ValueExact value => value == candidate
  | ValueGlob glob => glob_matcher glob candidate
  end.

(** The values collected per name. *)
Definition collect_values (l : list (str * str)) : gmap (list N) (list str) :=
  foldl (λ m e, <[e.1 := default [] (m !! e.1) ++ [e.2]]> m) ∅ l.

Definition query_matches (constraints : list ValueConstraint) (req : Request) : bool :=
  if is_empty constraints then true
  else
    let actual_values := collect_values (mo_form_parse (default [] (r_query req))) in
    all (λ c,
      match actual_values !! constraint_name c with
      | Some actual => any (λ candidate, any (λ a, value_matches a candidate) (allowed_values c)) actual
      | None => false
      end) constraints.

(** [get_all(name)]. *)
Definition get_all (name : str) (req : Request) : list (option str) :=
  snd <$> List.filter (λ e, e.1 == name) (r_headers req).

Definition headers_match (constraints : list ValueConstraint) (req : Request) : bool :=
  all (λ c,
    let actual := get_all (constraint_name c) req in
    if is_empty actual then false
    else if is_empty (allowed_values c) then true
    else any (λ value, match value with
                       | Some candidate => any (λ a, value_matches a candidate) (allowed_values c)
                       | None => false
                       end) actual) constraints.

Definition hook_matches (hook : MitmHook) (req : Request) : bool :=
  let m := h_matcher hook in
  let method := to_ascii_uppercase <$> r_method req in
  if negb (any (λ allowed, allowed == method) (m_methods m)) then false
  else if negb (path_matches (m_path_prefixes m) (r_path req)) then false
  else if negb (query_matches (m_query m) req) then false
  else headers_match (m_headers m) req.

Definition evaluate_mitm_hooks (hooks_by_host : MitmHooksByHost) (host : str) (req : Request)
    : HookEvaluation :=
  match hooks_by_host !! normalize_host host with
  | None => NoHooksForHost
  | Some hooks =>
      match find (λ hook, hook_matches hook req) hooks with
      | Some hook => Matched (h_actions hook)
      | None => HookedHostNoMatch
      end
  end.
End Hooks.

(** ** Compilation and evaluation *)

Section Theorems.
Context `{MitmOutside}.

Lemma compile_hooks_Ok m hooks m' :
  compile_hooks m hooks = Ok m' →
  ∃ hs, Forall2 (λ c h, compile_hook c = Ok h) hooks hs ∧ m' = foldl push_hook m hs.
Proof.
  revert m. induction hooks as [|c hooks IH]; intros m; cbn [compile_hooks].
  { intros [= <-]. by exists []. }
  intros (h & Hh & (hs & Hs & ->)%IH)%bind_Ok. exists (h :: hs). split; [by constructor|done].
Qed.

Definition of_host (host : str) (hs : list MitmHook) : list MitmHook :=
  List.filter (λ h, h_host h == host) hs.

Lemma of_host_app host a b : of_host host (a ++ b) = of_host host a ++ of_host host b.
Proof. apply List.filter_app. Qed.

Lemma push_hooks_lookup hs host :
  foldl push_hook ∅ hs !! host =
    if is_empty (of_host host hs) then None else Some (of_host host hs).
Proof.
  induction hs as [|h hs IH] using rev_ind; [done|].
  rewrite foldl_app, of_host_app. cbn [foldl]. unfold push_hook at 1.
  unfold MitmHooksByHost in *. set (m := foldl push_hook ∅ hs) in *. unfold of_host at 2 4. cbn [List.filter].
  destruct (str_eqb_reflect (h_host h) host) as [<-|Hne].
  - rewrite lookup_insert_eq, IH. by destruct (of_host (h_host h) hs).
  - rewrite lookup_insert_ne, IH, app_nil_r by done. done.
Qed.

Lemma compile_hook_host c h : compile_hook c = Ok h → h_host h = normalize_host (hook_host c).
Proof.
  unfold compile_hook. intros (host & Hh & Hr)%bind_Ok.
  repeat (apply bind_Ok in Hr as (? & _ & Hr)). injection Hr as <-. cbn [h_host].
  unfold normalize_hook_host in Hh. by repeat case_match; simplify_eq.
Qed.

Lemma of_host_nil host hs : is_empty (of_host host hs) = true ↔ ∀ h, h ∈ hs → h_host h ≠ host.
Proof.
  rewrite is_empty_true. unfold of_host. split.
  - intros E h Hh Hn. assert (h ∈ List.filter (λ h, h_host h == host) hs) as Hin.
    { apply list_elem_of_In, filter_In. split; [by apply list_elem_of_In|by apply str_eqb_true]. }
    rewrite E in Hin. by apply elem_of_nil in Hin.
  - intros E. destruct (List.filter _ hs) as [|h l] eqn:El; [done|]. exfalso.
    assert (In h (List.filter (λ h, h_host h == host) hs)) as Hin by (rewrite El; by left).
    apply filter_In in Hin as [H1 H2]. apply str_eqb_true in H2. apply list_elem_of_In in H1. naive_solver.
Qed.

(** The first hook of a host that satisfies [p], among all hooks. *)
Lemma find_of_host (p : MitmHook → bool) host hs :
  match find p (of_host host hs) with
  | Some h => ∃ before after, hs = before ++ h :: after ∧ h_host h = host ∧ p h = true ∧
                ∀ h', h' ∈ before → h_host h' = host → p h' = false
  | None => ∀ h, h ∈ hs → h_host h = host → p h = false
  end.
Proof.
  induction hs as [|x hs IH]; cbn; [intros h Hh; by apply elem_of_nil in Hh|].
  fold (of_host host hs).
  destruct (str_eqb_reflect (h_host x) host) as [Hx|Hx]; cbn [find].
  - destruct (p x) eqn:Hp.
    + exists [], hs. split; [done|]. split; [done|]. split; [done|].
      intros h' Hh. by apply elem_of_nil in Hh.
    + destruct (find p (of_host host hs)) as [h|].
      * destruct IH as (b & a & -> & H1 & H2 & H3). exists (x :: b), a. split; [done|].
        split; [done|]. split; [done|]. intros h' [->|Hh]%elem_of_cons; auto.
      * intros h [->|Hh]%elem_of_cons; auto.
  - destruct (find p (of_host host hs)) as [h|].
    + destruct IH as (b & a & -> & H1 & H2 & H3). exists (x :: b), a. split; [done|].
      split; [done|]. split; [done|]. intros h' [->|Hh]%elem_of_cons; [done|auto].
    + intros h [->|Hh]%elem_of_cons; [done|auto].
Qed.

(** Compiled hooks decide a request the way they are written: each configured
    hook is compiled once, a host has no hooks only when no configured hook names it,
    and the actions taken are those of the first hook, in configuration order, that
    names the host and matches the request. *)
Theorem mitm_evaluation_exact (cfg : NetworkProxySettings) (m : MitmHooksByHost) :
  compile_mitm_hooks cfg = Ok m →
  ∃ hs, Forall2 (λ c h, compile_hook c = Ok h ∧ h_host h = normalize_host (hook_host c))
          (mitm_hooks cfg) hs ∧
  ∀ host req,
    match evaluate_mitm_hooks m host req with
    | NoHooksForHost => ∀ h, h ∈ hs → h_host h ≠ normalize_host host
    | HookedHostNoMatch =>
        (∃ h, h ∈ hs ∧ h_host h = normalize_host host) ∧
        ∀ h, h ∈ hs → h_host h = normalize_host host → hook_matches h req = false
    | Matched acts =>
        ∃ before h after, hs = before ++ h :: after ∧ acts = h_actions h ∧
          h_host h = normalize_host host ∧ hook_matches h req = true ∧
          ∀ h', h' ∈ before → h_host h' = normalize_host host → hook_matches h' req = false
    end.
Proof.
  unfold compile_mitm_hooks. intros ([] & _ & (hs & Hs & ->)%compile_hooks_Ok)%bind_Ok.
  exists hs. split.
  { eapply Forall2_impl; [exact Hs|]. intros c h Hc. split; [done|]. by apply compile_hook_host. }
  intros host req. unfold evaluate_mitm_hooks. rewrite push_hooks_lookup.
  destruct (is_empty (of_host (normalize_host host) hs)) eqn:E; [by apply of_host_nil|].
  pose proof (find_of_host (λ h, hook_matches h req) (normalize_host host) hs) as Hf.
  destruct (find _ (of_host _ hs)) as [h|].
  - destruct Hf as (b & a & H1 & H2 & H3 & H4). by exists b, h, a.
  - split; [|done]. destruct (of_host (normalize_host host) hs) as [|h l] eqn:El; [done|].
    assert (In h (of_host (normalize_host host) hs)) as Hin by (rewrite El; by left).
    apply filter_In in Hin as [H1 H2%str_eqb_true]. exists h. by rewrite list_elem_of_In.
Qed.

(** ** Validation is complete *)

Lemma try_each_Ok {A} (f : A → result anyhow unit) l :
  try_each f l = Ok () ↔ ∀ a, a ∈ l → f a = Ok ().
Proof.
  induction l as [|a l IH]; cbn [try_each]; [set_solver|].
  rewrite bind_Ok. split.
  - intros ([] & Ha & Hl) x [->|Hx]%elem_of_cons; [done|by apply IH].
  - intros Hx. exists (). split; [apply Hx; by left|]. apply IH. intros y Hy. apply Hx. by right.
Qed.

Lemma in_field_Ok {A} i field (r : result anyhow A) a : in_field i field r = Ok a ↔ r = Ok a.
Proof. apply map_err_Ok. Qed.

(** The conditions on a hook that [validate_hook] establishes. *)
Definition hook_valid (c : MitmHookConfig) : Prop :=
  is_ok (normalize_hook_host (hook_host c)) = true ∧
  is_ok (normalize_methods (methods (matcher c))) = true ∧
  is_ok (compile_path_matchers (path_prefixes (matcher c))) = true ∧
  (∀ e, e ∈ query (matcher c) → validate_query_constraint e = Ok ()) ∧
  (∀ e, e ∈ headers (matcher c) → validate_header_constraint e = Ok ()) ∧
  (∀ n, n ∈ strip_request_headers (actions c) → is_ok (parse_header_name n) = true) ∧
  (∀ h, h ∈ inject_request_headers (actions c) → validate_injected_header h = Ok ()).

Lemma is_ok_Ok {E A} (r : result E A) a : r = Ok a → is_ok r = true.
Proof. by intros ->. Qed.

Lemma validate_hook_Ok i c : validate_hook i c = Ok () → hook_valid c.
Proof.
  unfold validate_hook. intros (host & H1%in_field_Ok & Hr)%bind_Ok.
  apply bind_Ok in Hr as (ms & H2%in_field_Ok & Hr). destruct (is_empty ms); [done|].
  apply bind_Ok in Hr as (ps & H3%in_field_Ok & Hr). destruct (is_empty ps); [done|].
  destruct (opt_is_some _); [done|].
  apply bind_Ok in Hr as ([] & H4%in_field_Ok & Hr).
  apply bind_Ok in Hr as ([] & H5%in_field_Ok & Hr).
  apply bind_Ok in Hr as ([] & H6%in_field_Ok & Hr).
  apply bind_Ok in Hr as ([] & H7%in_field_Ok & Hr).
  unfold hook_valid. repeat apply conj; eauto using is_ok_Ok.
  - by apply (try_each_Ok validate_query_constraint).
  - by apply (try_each_Ok validate_header_constraint).
  - intros n Hn. unfold validate_strip_request_headers in H6. rewrite try_each_Ok in H6.
    apply H6, bind_Ok in Hn as (x & Hx & _). by rewrite Hx.
  - by apply (try_each_Ok validate_injected_header).
Qed.

Lemma validate_hooks_Ok i hooks : validate_hooks i hooks = Ok () → ∀ c, c ∈ hooks → hook_valid c.
Proof.
  revert i. induction hooks as [|c hooks IH]; intros i; cbn [validate_hooks]; [set_solver|].
  intros ([] & H1 & H2)%bind_Ok x [->|Hx]%elem_of_cons; [by eapply validate_hook_Ok|by eapply IH].
Qed.

Lemma collect_map_Err {E A B} (f : A → result E B) l e :
  collect_map f l = Err e → ∃ a, a ∈ l ∧ f a = Err e.
Proof.
  induction l as [|a l IH]; cbn [collect_map]; [done|]. destruct (f a) eqn:Ha.
  - destruct (collect_map f l); intros [= <-]; destruct (IH eq_refl) as (x & Hx & ?).
    exists x. split; [by right|done].
  - intros [= <-]. exists a. split; [by left|done].
Qed.

(** What can go wrong with the secret of an injected header. *)
Definition secret_failure (h : InjectedHeaderConfig) : Prop :=
  (∃ v, secret_env_var h = Some v ∧ mo_env_var v = None) ∨
  (∃ f p, secret_file h = Some f ∧ parse_secret_file f = Ok p ∧ is_ok (mo_read_file p) = false) ∨
  (∃ v, is_ok (mo_header_value v) = false).

Lemma compile_injected_Err h e :
  validate_injected_header h = Ok () → compile_injected_header h = Err e → secret_failure h.
Proof.
  unfold validate_injected_header, compile_injected_header, secret_failure.
  intros (name & -> & Hv)%bind_Ok. cbn [mbind result_bind].
  intros [Hr|([sec src] & _ & [Hr|(? & _ & ?)]%bind_Err)]%bind_Err; [|right; right|done].
  2:{ exists (default [] (prefix h) ++ sec). unfold with_context in Hr. by destruct (mo_header_value _). }
  destruct (secret_env_var h) as [v|], (secret_file h) as [f|]; try done.
  - left. exists v. split; [done|]. by destruct (mo_env_var v).
  - right; left. apply bind_Ok in Hv as (p & Hp & _). exists f, p. split; [done|]. split; [done|].
    rewrite Hp in Hr. cbn in Hr. unfold read_secret_file, with_context in Hr. by destruct (mo_read_file p).
Qed.

(** Once the hooks pass validation, compiling them fails only for a secret: the
    environment variable is missing, the file cannot be read, or the header value is
    not a valid one; the error then names the header. *)
Theorem validated_hooks_compile (cfg : NetworkProxySettings) (e : anyhow) :
  validate_mitm_hook_config cfg = Ok () → compile_mitm_hooks cfg = Err e →
  ∃ c h e0, c ∈ mitm_hooks cfg ∧ h ∈ inject_request_headers (actions c) ∧
    secret_failure h ∧
    e = (lit "failed to compile injected header " ++ injected_name h) :: e0.
Proof.
  intros Hv. unfold compile_mitm_hooks. rewrite Hv. cbn [mbind result_bind].
  assert (∀ c, c ∈ mitm_hooks cfg → hook_valid c) as Hok.
  { unfold validate_mitm_hook_config in Hv. destruct (mitm_hooks cfg) as [|c l] eqn:E; [set_solver|].
    cbn [is_empty] in Hv. case_match; [done|]. by eapply validate_hooks_Ok. }
  clear Hv. revert Hok. generalize (∅ : MitmHooksByHost). induction (mitm_hooks cfg) as [|c l IH];
    intros m Hok; cbn [compile_hooks]; [done|].
  intros [Hc|(hk & _ & Hr)]%bind_Err.
  2:{ destruct (IH _ ltac:(intros; apply Hok; by right) Hr) as (c' & h & e0 & ? & ?).
      exists c', h, e0. split; [by right|done]. }
  destruct (Hok c ltac:(by left)) as (H1 & H2 & H3 & H4 & H5 & H6 & H7).
  unfold compile_hook in Hc.
  destruct (normalize_hook_host _); [|done]. destruct (normalize_methods _); [|done].
  destruct (compile_path_matchers _); [|done]. cbn [mbind result_bind] in Hc.
  apply bind_Err in Hc as [Hc|(qs & _ & Hc)].
  { apply collect_map_Err in Hc as ([name vs] & Hin & Hc). apply H4 in Hin.
    unfold validate_query_constraint, compile_query in *.
    destruct (normalize_query_name name); [|done]. cbn [mbind result_bind] in *.
    do 2 (case_match; [done|]). unfold with_context in Hin. by destruct (compile_value_matchers vs). }
  apply bind_Err in Hc as [Hc|(hs & _ & Hc)].
  { apply collect_map_Err in Hc as ([name vs] & Hin & Hc). apply H5 in Hin.
    unfold validate_header_constraint, compile_header in *.
    destruct (parse_header_name name); [|done]. cbn [mbind result_bind] in *.
    unfold with_context in Hin. by destruct (compile_value_matchers vs). }
  apply bind_Err in Hc as [Hc|(ss & _ & Hc)].
  { apply collect_map_Err in Hc as (n & Hin & Hc). apply H6 in Hin. by rewrite Hc in Hin. }
  apply bind_Err in Hc as [Hc|(ss' & _ & Hc)]; [|done].
  apply collect_map_Err in Hc as (h & Hin & Hc). unfold compile_injected, with_context in Hc.
  destruct (compile_injected_header h) as [|e0] eqn:E; [done|]. injection Hc as <-.
  exists c, h, e0. split; [by left|]. split; [done|]. split; [|done]. eapply compile_injected_Err; eauto.
Qed.
End Theorems.

(** ** Examples *)

(** Globs that match by their first character, header names in lower case, one
    environment variable. *)
Definition demo_mitm : MitmOutside := {|
  mo_home_dir := None;
  mo_current_dir := Err (lit "no directory");
  mo_debug_str := λ s, dquote ++ s ++ dquote;
  mo_glob := λ _ p, Ok (λ s, bool_decide (head p = head s));
  mo_header_name := λ s, if is_empty s then Err (lit "empty") else Ok (to_ascii_lowercase <$> s);
  mo_header_value := λ s, Ok s;
  mo_form_parse := λ s, [(lit "q", s)];
  mo_env_var := λ v, if v == lit "TOKEN" then Some (lit "s3cret") else None;
  mo_read_file := λ _, Err (lit "no such file");
|}.

Definition demo_hook (host path var : str) : MitmHookConfig :=
  mkHookConfig host (mkMatchConfig [lit "post"] [path] [] [] None)
    (mkActionsConfig [lit "Authorization"]
       [mkInjected (lit "Authorization") (Some var) None (Some (lit "Bearer "))]).
Definition demo_hooks_config (hooks : list MitmHookConfig) : NetworkProxySettings :=
  mkSettings true default_proxy_url true default_socks_url true true false false Limited None None
    false true hooks.

Lemma mitm_evaluation_exact_witness :
  let cfg := demo_hooks_config [demo_hook (lit "API.example.com") (lit "/v1") (lit "TOKEN");
                                demo_hook (lit "api.example.com") (lit "/") (lit "TOKEN")] in
  ∃ m, compile_mitm_hooks (H := demo_mitm) cfg = Ok m ∧
    evaluate_mitm_hooks (H := demo_mitm) m (lit "api.example.com:443")
      (mkRequest (lit "POST") (lit "/v1/x") None []) ≠ NoHooksForHost ∧
    ∃ hs, Forall2 (λ c h, compile_hook (H := demo_mitm) c = Ok h ∧
                          h_host h = normalize_host (hook_host c)) (mitm_hooks cfg) hs.
Proof.
  intros cfg. destruct (compile_mitm_hooks (H := demo_mitm) cfg) as [m|e] eqn:E;
    [|by vm_compute in E].
  exists m. split; [reflexivity|].
  destruct (mitm_evaluation_exact (H := demo_mitm) cfg m E) as (hs & H1 & H2). split.
  - intros Hn. specialize (H2 (lit "api.example.com:443") (mkRequest (lit "POST") (lit "/v1/x") None [])).
    rewrite Hn in H2.
    apply (Forall2_cons_inv_l _ _ [demo_hook (lit "api.example.com") (lit "/") (lit "TOKEN")])
      in H1 as (h & l' & [_ Hh] & _ & ->).
    apply (H2 h); [by left|]. rewrite Hh. by_compute.
  - exists hs. exact H1.
Defined.

Lemma validated_hooks_compile_witness :
  let cfg := demo_hooks_config [demo_hook (lit "a.b") (lit "/") (lit "ABSENT")] in
  validate_mitm_hook_config (H := demo_mitm) cfg = Ok () ∧
  ∃ e c h e0, compile_mitm_hooks (H := demo_mitm) cfg = Err e ∧ c ∈ mitm_hooks cfg ∧
    h ∈ inject_request_headers (actions c) ∧ secret_failure (H := demo_mitm) h ∧
    e = (lit "failed to compile injected header " ++ injected_name h) :: e0.
Proof.
  intros cfg. assert (validate_mitm_hook_config (H := demo_mitm) cfg = Ok ()) as Hv by by_compute.
  split; [exact Hv|]. destruct (compile_mitm_hooks (H := demo_mitm) cfg) as [m|e] eqn:E;
    [by vm_compute in E|].
  destruct (validated_hooks_compile (H := demo_mitm) cfg e Hv E) as (c & h & e0 & Hr).
  exists e, c, h, e0. split; [reflexivity|exact Hr].
Defined.

(** A hook whose host only differs by a trailing dot or letter case is the same. *)
Example same_host :
  normalize_host (lit "API.example.com.") = lit "api.example.com" ∧
  normalize_host (lit " [::1]:80 ") = lit "::1".
Proof. by_compute. Qed.
