(* ===== verification/NetworkProxy.v ===== *)
(** * The state of the network proxy and its decisions

    [network-proxy/src/state.rs] (building a state and checking it against managed
    constraints), [runtime.rs] (the shared state: decisions on hosts, recorded
    requests, changes of the domain lists, reloads) and [network_policy.rs] (the
    decision on a request, with an external decider).

    The operations of [runtime.rs] are split at the points where a lock is taken, so
    that the tasks of a process can be interleaved.  Name resolution, the
    configuration on disk, certificates and the libraries of the components below are
    parameters. *)

From S2P Require Import Prelude RustStr AbsPath IpAddress NetworkPolicy NetworkConfig MitmHook.

Local Open Scope N_scope.
Local Open Scope rstr_scope.

(** ** Constraints (state.rs) *)

Record NetworkProxyConstraints := mkConstraints {
  c_enabled : option bool;
  c_mode : option NetworkMode;
  c_allow_upstream_proxy : option bool;
  c_dangerously_allow_non_loopback_proxy : option bool;
  c_dangerously_allow_all_unix_sockets : option bool;
  c_allowed_domains : option (list str);
  c_allowlist_expansion_enabled : option bool;
  c_denied_domains : option (list str);
  c_denylist_expansion_enabled : option bool;
  c_allow_unix_sockets : option (list str);
  c_allow_local_binding : option bool;
}.
#[export] Instance NetworkProxyConstraints_eq_dec : EqDecision NetworkProxyConstraints.
Proof. solve_decision. Defined.

(** [NetworkProxyConstraintError::InvalidValue]. *)
Record NetworkProxyConstraintError := mkInvalidValue {
  field_name : str;
  candidate : str;
  allowed : str;
}.
(** [into_anyhow], with the message of the error. *)
Definition into_anyhow (e : NetworkProxyConstraintError) : anyhow :=
  [lit "invalid value for " ++ field_name e ++ lit ": " ++ candidate e
   ++ lit " (allowed " ++ allowed e ++ lit ")"].

(** What the code outside the crate provides, beyond the hooks. *)
Class NetOutside := {
  no_mitm :: MitmOutside;
  (** [url::Host::parse] and case-insensitive globs. *)
  no_url_host_parse : str → option str;
  no_domain_glob : str → option (str → bool);
  (** [{:?}] of a list of strings; the order of a [HashSet]. *)
  no_debug_strs : list str → str;
  no_hash_order : gset (list N) → list str;
  (** [MitmState::new]: reading or creating the certificate authority. *)
  no_mitm_state_new : bool → bool → result anyhow unit;
  (** [cfg!(target_os = "macos")] and [fs::canonicalize]. *)
  no_macos : bool;
  no_canonicalize : str → option str;
}.

Definition network_mode_rank (m : NetworkMode) : N := match m with Limited => 0 | Full => 1 end.
Definition fmt_mode (m : NetworkMode) : str :=
  match m with Limited => lit "Limited" | Full => lit "Full" end.

Definition lower_set (l : list str) : gset (list N) := list_to_set (lower <$> l).

(** A check of the constraints. *)
Definition check (p : bool) (field candidate allowed : str)
    : result NetworkProxyConstraintError unit :=
  if p then Ok () else Err (mkInvalidValue field candidate allowed).
Definition disabled : str := lit "false (disabled by managed config)".
(** The check of a flag that a constraint may forbid. *)
Definition check_flag (constraint : option bool) (field : str) (value : bool)
    : result NetworkProxyConstraintError unit :=
  match constraint with
  | Some true | None => Ok ()
  | Some false => check (negb value) field (lit "true") disabled
  end.

Definition validate_non_global_wildcard_domain_patterns (field : str) (patterns : list str)
    : result NetworkProxyConstraintError unit :=
  match find is_global_wildcard_domain_pattern patterns with
  | Some pattern =>
      Err (mkInvalidValue field (trim pattern)
             (lit "exact hosts or scoped wildcards like *.example.com or **.example.com"))
  | None => Ok ()
  end.

Section State.
Context `{NetOutside}.

Definition invalid_mitm_hook_configuration (err : anyhow) : NetworkProxyConstraintError :=
  mkInvalidValue (lit "network.mitm_hooks") (default [] (head err))
    (lit "valid MITM hook configuration").

(** The part of the check on the allowed domains. *)
Definition validate_allowed_domains (cfg_allowed cfg_denied : list str)
    (allowed_domains : list str) (expansion : option bool)
    : result NetworkProxyConstraintError unit :=
  let field := lit "network.allowed_domains" in
  let denied_domain_overrides := lower_set cfg_denied in
  _ ← validate_non_global_wildcard_domain_patterns field allowed_domains;
  match expansion with
  | Some true =>
      let missing := lower_set allowed_domains ∖ lower_set cfg_allowed ∖ denied_domain_overrides in
      check (bool_decide (missing = ∅)) field (lit "missing managed allowed_domains entries")
        (no_debug_strs (no_hash_order missing))
  | Some false =>
      check (bool_decide (lower_set cfg_allowed = lower_set allowed_domains ∖ denied_domain_overrides))
        field (no_debug_strs cfg_allowed) (lit "must match managed allowed_domains")
  | None =>
      let managed := parse_for_constraints no_url_host_parse <$> allowed_domains in
      let invalid := List.filter (λ entry,
        negb (any (λ m, allows m (parse_for_constraints no_url_host_parse entry)) managed)) cfg_allowed in
      check (is_empty invalid) field (no_debug_strs invalid) (lit "subset of managed allowed_domains")
  end.

(** The part of the check on the denied domains. *)
Definition validate_denied_domains (cfg_denied denied_domains : list str) (expansion : option bool)
    : result NetworkProxyConstraintError unit :=
  let field := lit "network.denied_domains" in
  _ ← validate_non_global_wildcard_domain_patterns field denied_domains;
  let required := lower_set denied_domains in
  match expansion with
  | Some false =>
      check (bool_decide (lower_set cfg_denied = required)) field (no_debug_strs cfg_denied)
        (lit "must match managed denied_domains")
  | Some true | None =>
      let missing := required ∖ lower_set cfg_denied in
      check (bool_decide (missing = ∅)) field (lit "missing managed denied_domains entries")
        (no_debug_strs (no_hash_order missing))
  end.

Definition validate_policy_against_constraints (config : NetworkProxySettings)
    (c : NetworkProxyConstraints) : result NetworkProxyConstraintError unit :=
  let config_allowed := default [] (allowed_domains (domains config)) in
  let config_denied := default [] (denied_domains (domains config)) in
  _ ← map_err invalid_mitm_hook_configuration (validate_mitm_hook_config config);
  _ ← validate_non_global_wildcard_domain_patterns (lit "network.denied_domains") config_denied;
  _ ← match c_enabled c with
      | Some max_enabled =>
          check (negb (enabled config && negb max_enabled)) (lit "network.enabled") (lit "true") disabled
      | None => Ok ()
      end;
  _ ← match c_mode c with
      | Some max_mode =>
          check (network_mode_rank (mode config) <=? network_mode_rank max_mode) (lit "network.mode")
            (fmt_mode (mode config)) (fmt_mode max_mode ++ lit " or more restrictive")
      | None => Ok ()
      end;
  _ ← check_flag (c_allow_upstream_proxy c) (lit "network.allow_upstream_proxy")
        (allow_upstream_proxy config);
  _ ← check_flag (c_dangerously_allow_non_loopback_proxy c)
        (lit "network.dangerously_allow_non_loopback_proxy")
        (dangerously_allow_non_loopback_proxy config);
  let allow_all_unix_sockets :=
    default (negb (opt_is_some (c_allow_unix_sockets c))) (c_dangerously_allow_all_unix_sockets c) in
  _ ← check (negb (dangerously_allow_all_unix_sockets config && negb allow_all_unix_sockets))
        (lit "network.dangerously_allow_all_unix_sockets") (lit "true") disabled;
  _ ← match c_allow_local_binding c with
      | Some allow =>
          check (negb (allow_local_binding config && negb allow)) (lit "network.allow_local_binding")
            (lit "true") disabled
      | None => Ok ()
      end;
  _ ← match c_allowed_domains c with
      | Some allowed => validate_allowed_domains config_allowed config_denied allowed
                          (c_allowlist_expansion_enabled c)
      | None => Ok ()
      end;
  _ ← match c_denied_domains c with
      | Some denied => validate_denied_domains config_denied denied (c_denylist_expansion_enabled c)
      | None => Ok ()
      end;
  match c_allow_unix_sockets c with
  | Some sockets =>
      let allowed_set := lower_set sockets in
      let invalid := List.filter (λ e, negb (bool_decide (lower e ∈ allowed_set)))
                       (allow_unix_sockets config) in
      check (is_empty invalid) (lit "network.allow_unix_sockets") (no_debug_strs invalid)
        (lit "subset of managed allow_unix_sockets")
  | None => Ok ()
  end.

(** ** The state (runtime.rs) *)

Record BlockedRequest := mkBlocked {
  b_host : str;
  b_reason : str;
  b_client : option str;
  b_method : option str;
  b_mode : option NetworkMode;
  b_protocol : str;
  b_decision : option str;
  b_source : option str;
  b_port : option N;
  b_timestamp : Z;
}.

Record ConfigState := mkState {
  config : NetworkProxySettings;
  allow_set : list (str → bool);
  deny_set : list (str → bool);
  mitm_state : option (bool * bool);
  hooks : MitmHooksByHost;
  constraints : NetworkProxyConstraints;
  blocked : list BlockedRequest;
  blocked_total : N;
}.

(** The error of [compile_globset] has the error of the library below it. *)
Definition glob_error {A} (r : result str A) : result anyhow A := map_err (λ e, [e]) r.

Definition build_config_state (config : NetworkProxySettings) (constraints : NetworkProxyConstraints)
    : result anyhow ConfigState :=
  _ ← validate_unix_socket_allowlist_paths mo_home_dir mo_current_dir mo_debug_str config;
  let allowed_domains := default [] (allowed_domains (domains config)) in
  let denied_domains := default [] (denied_domains (domains config)) in
  _ ← map_err into_anyhow
        (validate_non_global_wildcard_domain_patterns (lit "network.denied_domains") denied_domains);
  deny_set ← glob_error (compile_denylist_globset no_domain_glob denied_domains);
  allow_set ← glob_error (compile_allowlist_globset no_domain_glob allowed_domains);
  mitm_hooks ← compile_mitm_hooks config;
  mitm ← (if mitm config
          then _ ← no_mitm_state_new (allow_upstream_proxy config) (allow_local_binding config);
               Ok (Some (allow_upstream_proxy config, allow_local_binding config))
          else Ok None);
  Ok (mkState config allow_set deny_set mitm mitm_hooks constraints [] 0).
End State.

Definition MAX_BLOCKED_EVENTS : nat := 200.
Definition U64_MAX : N := 2 ^ 64 - 1.

Inductive HostBlockReason := Denied | NotAllowed | NotAllowedLocal.
Inductive HostBlockDecision := Allowed | Blocked (r : HostBlockReason).

Definition reason_str (r : HostBlockReason) : str :=
  match r with
  | Denied => lit "denied"
  | NotAllowed => lit "not_allowed"
  | NotAllowedLocal => lit "not_allowed_local"
  end.

Definition set_blocked (bs : list BlockedRequest) (total : N) (s : ConfigState) : ConfigState :=
  mkState (config s) (allow_set s) (deny_set s) (mitm_state s) (hooks s) (constraints s) bs total.
Definition set_config (cfg : NetworkProxySettings) (s : ConfigState) : ConfigState :=
  mkState cfg (allow_set s) (deny_set s) (mitm_state s) (hooks s) (constraints s) (blocked s)
    (blocked_total s).

(** ** Decisions on a host *)

Definition globset_matches_host_or_unscoped (set : list (str → bool)) (host : str) : bool :=
  is_match set host
  || match unscoped_ip_literal host with Some ip => is_match set ip | None => false end.

Definition is_explicit_local_allowlisted (allowed_domains : list str) (normalized_host : str) : bool :=
  let unscoped_host := unscoped_ip_literal normalized_host in
  any (λ pattern,
    let pattern := trim pattern in
    if (pattern == lit "*") || starts_with (lit "*.") pattern || starts_with (lit "**.") pattern
    then false
    else if contains_char (ch "*") pattern || contains_char (ch "?") pattern then false
    else
      let normalized_pattern := normalize_host pattern in
      (normalized_pattern == normalized_host)
      || match unscoped_host with Some ip => normalized_pattern == ip | None => false end)
    allowed_domains.

(** The answer of a lookup: [None] for a failure or a time-out. *)
Definition Lookup : Type := str → N → option (list SocketAddr).

Definition host_resolves_to_non_public_ip (lookup : Lookup) (host : str) (port : N) : bool :=
  match parse_ip host with
  | Some ip => is_non_public_ip ip
  | None =>
      match lookup host port with
      | Some addrs => any (λ addr, is_non_public_ip addr.1) addrs
      | None => true
      end
  end.

Definition is_local_literal (host : str) : bool :=
  let host_no_scope := default host (unscoped_ip_literal host) in
  if is_loopback_host host then true
  else match parse_ip host_no_scope with Some ip => is_non_public_ip ip | None => false end.

Definition host_decision (lookup : Lookup) (host : str) (port : N) (s : ConfigState)
    : HostBlockDecision :=
  match host_parse host with
  | None => Blocked NotAllowed
  | Some host =>
      let allowed := allowed_domains (domains (config s)) in
      let allowed_domains_empty := negb (opt_is_some allowed) in
      let allowed := default [] allowed in
      if globset_matches_host_or_unscoped (deny_set s) host then Blocked Denied
      else
        let is_allowlisted := globset_matches_host_or_unscoped (allow_set s) host in
        if negb (allow_local_binding (config s))
           && (if is_local_literal host then negb (is_explicit_local_allowlisted allowed host)
               else host_resolves_to_non_public_ip lookup host port)
        then Blocked NotAllowedLocal
        else if allowed_domains_empty || negb is_allowlisted then Blocked NotAllowed
        else Allowed
  end.

(** ** The state behind its lock: operations of one task *)

(** The answer of the reloader when an operation starts. *)
Definition Reload : Type := result anyhow (option ConfigState).

Definition reload_if_needed (ans : Reload) : st_err ConfigState anyhow unit :=
  answer ← lift ans;
  match answer with
  | None => mret ()
  | Some new_state => modify (λ guard, set_blocked (blocked guard) (blocked_total guard) new_state)
  end.

Definition host_blocked (ans : Reload) (lookup : Lookup) (host : str) (port : N)
    : st_err ConfigState anyhow HostBlockDecision :=
  _ ← reload_if_needed ans; s ← get; mret (host_decision lookup host port s).

(** [while len > MAX { pop_front }]. *)
Definition push_blocked (entry : BlockedRequest) (bs : list BlockedRequest) : list BlockedRequest :=
  let bs := bs ++ [entry] in drop (length bs - MAX_BLOCKED_EVENTS) bs.
Definition record_entry (entry : BlockedRequest) (s : ConfigState) : ConfigState :=
  set_blocked (push_blocked entry (blocked s)) (N.min (blocked_total s + 1) U64_MAX) s.

Definition record_blocked (ans : Reload) (entry : BlockedRequest) : st_err ConfigState anyhow unit :=
  _ ← reload_if_needed ans; modify (record_entry entry).
Definition blocked_snapshot (ans : Reload) : st_err ConfigState anyhow (list BlockedRequest) :=
  _ ← reload_if_needed ans; s ← get; mret (blocked s).
Definition drain_blocked (ans : Reload) : st_err ConfigState anyhow (list BlockedRequest) :=
  _ ← reload_if_needed ans; s ← get;
  _ ← modify (λ s, set_blocked [] (blocked_total s) s); mret (blocked s).

Definition force_reload (answer : result anyhow ConfigState) : st_err ConfigState anyhow unit :=
  new_state ← lift answer;
  modify (λ guard, set_blocked (blocked guard) (blocked_total new_state) new_state).
Definition replace_config_state (ans : Reload) (new_state : ConfigState)
    : st_err ConfigState anyhow unit :=
  _ ← reload_if_needed ans;
  modify (λ guard, set_blocked (blocked guard) (blocked_total guard) new_state).

(** A field of the configuration, after a reload. *)
Definition read_config {A} (f : ConfigState → A) (ans : Reload) : st_err ConfigState anyhow A :=
  _ ← reload_if_needed ans; s ← get; mret (f s).
Definition current_patterns : Reload → st_err ConfigState anyhow (list str * list str) :=
  read_config (λ s, (default [] (allowed_domains (domains (config s))),
                     default [] (denied_domains (domains (config s))))).
Definition method_allowed (method : str) : Reload → st_err ConfigState anyhow bool :=
  read_config (λ s, allows_method (mode (config s)) method).
Definition host_has_mitm_hooks (host : str) : Reload → st_err ConfigState anyhow bool :=
  read_config (λ s, opt_is_some (hooks s !! normalize_host host)).
Definition evaluate_mitm_hook_request `{MitmOutside} (host : str) (req : Request)
    : Reload → st_err ConfigState anyhow HookEvaluation :=
  read_config (λ s, evaluate_mitm_hooks (hooks s) host req).

Section Operations.
Context `{NetOutside}.

(** One entry of the loop of [is_unix_socket_allowed]. *)
Definition socket_entry_allows (requested_abs : str) (requested_canonical : option str) (entry : str)
    : bool :=
  match validated_parse mo_home_dir mo_current_dir mo_debug_str entry with
  | Ok (Native allowed_path) =>
      path_eq allowed_path requested_abs
      || match requested_canonical, no_canonicalize allowed_path with
         | Some r, Some a => path_eq a r
         | _, _ => false
         end
  | Ok (UnixStyleAbsolute _) | Err _ => false
  end.

Definition is_unix_socket_allowed (path : str) : Reload → st_err ConfigState anyhow bool :=
  read_config (λ s,
    if negb no_macos then false
    else if negb (path_is_absolute path) then false
    else if dangerously_allow_all_unix_sockets (config s) then true
    else match from_absolute_path mo_home_dir mo_current_dir path with
         | Err _ => false
         | Ok requested_abs =>
             any (socket_entry_allows requested_abs (no_canonicalize requested_abs))
               (allow_unix_sockets (config s))
         end).

(** ** Changing the policy: the parts between two locks *)

Inductive DomainListKind := ListAllow | ListDeny.
Definition list_permission (k : DomainListKind) : NetworkDomainPermission :=
  match k with ListAllow => PermAllow | ListDeny => PermDeny end.
Definition list_entries (k : DomainListKind) (cfg : NetworkProxySettings) : list str :=
  default [] (match k with
              | ListAllow => allowed_domains (domains cfg)
              | ListDeny => denied_domains (domains cfg)
              end).
Definition opposite (k : DomainListKind) : DomainListKind :=
  match k with ListAllow => ListDeny | ListDeny => ListAllow end.
Definition list_name (k : DomainListKind) : str :=
  match k with ListAllow => lit "allowlist" | ListDeny => lit "denylist" end.
Definition constraint_field (k : DomainListKind) : str :=
  match k with
  | ListAllow => lit "network.allowed_domains"
  | ListDeny => lit "network.denied_domains"
  end.

Definition lists_host (host : str) (entries : list str) : bool :=
  any (λ entry, normalize_host entry == host) entries.

Definition candidate_config (host : str) (k : DomainListKind) (cfg : NetworkProxySettings)
    : NetworkProxySettings :=
  set_domains (upsert_domain_permission host (list_permission k) normalize_host (domains cfg)) cfg.

(** From reading the state to taking the lock again: [None] when there is nothing to
    do, else the state to write. *)
Definition prepare_update (host : str) (k : DomainListKind) (s : ConfigState)
    : result anyhow (option ConfigState) :=
  if lists_host host (list_entries k (config s))
     && negb (lists_host host (list_entries (opposite k) (config s)))
  then Ok None
  else
    let candidate := candidate_config host k (config s) in
    _ ← with_context (constraint_field k ++ lit " constrained by managed config")
          (map_err into_anyhow (validate_policy_against_constraints candidate (constraints s)));
    new_state ← with_context (lit "failed to compile updated network " ++ list_name k)
                  (build_config_state candidate (constraints s));
    Ok (Some (set_blocked (blocked s) (blocked_total s) new_state)).

Definition prepare_mode (m : NetworkMode) (s : ConfigState) : result anyhow unit :=
  with_context (lit "network.mode constrained by managed config")
    (map_err into_anyhow
       (validate_policy_against_constraints (set_mode m (config s)) (constraints s))).

(** ** Tasks *)

Inductive Operation :=
| OpRecord (entry : BlockedRequest)
| OpDrain
| OpReplace (new_state : ConfigState)
| OpForce (answer : result anyhow ConfigState)
| OpMode (m : NetworkMode)
| OpUpdate (host : str) (k : DomainListKind)
| OpRead.

(** Where a task is: before its reload, between reading the state and writing the
    reloaded one, after the reload, before the write of a change, at its end. *)
Inductive Task :=
| TStart (op : Operation)
| TReload (op : Operation) (new_state : ConfigState)
| TRun (op : Operation)
| TMode (m : NetworkMode) (c : NetworkProxyConstraints)
| TUpdate (host : str) (k : DomainListKind) (previous_cfg : NetworkProxySettings)
    (c : NetworkProxyConstraints) (new_state : ConfigState)
| TDone (r : result anyhow unit).

(** A task up to its next lock; [ans] is the answer of the reloader. *)
Definition task_step (ans : Reload) (s : ConfigState) (t : Task) : ConfigState * Task :=
  match t with
  | TStart (OpForce answer) =>
      match answer with
      | Ok new_state => (set_blocked (blocked s) (blocked_total new_state) new_state, TDone (Ok ()))
      | Err e => (s, TDone (Err e))
      end
  | TStart op =>
      match ans with
      | Err e => (s, TDone (Err e))
      | Ok None => (s, TRun op)
      | Ok (Some new_state) => (s, TReload op (set_blocked (blocked s) (blocked_total s) new_state))
      end
  | TReload op new_state => (new_state, TRun op)
  | TRun (OpRecord entry) => (record_entry entry s, TDone (Ok ()))
  | TRun OpDrain => (set_blocked [] (blocked_total s) s, TDone (Ok ()))
  | TRun (OpReplace new_state) =>
      (set_blocked (blocked s) (blocked_total s) new_state, TDone (Ok ()))
  | TRun (OpMode m) =>
      match prepare_mode m s with
      | Ok _ => (s, TMode m (constraints s))
      | Err e => (s, TDone (Err e))
      end
  | TMode m c =>
      if bool_decide (constraints s = c)
      then (set_config (set_mode m (config s)) s, TDone (Ok ()))
      else (s, TStart (OpMode m))
  | TRun (OpUpdate host k) =>
      match prepare_update host k s with
      | Err e => (s, TDone (Err e))
      | Ok None => (s, TDone (Ok ()))
      | Ok (Some new_state) => (s, TUpdate host k (config s) (constraints s) new_state)
      end
  | TUpdate host k previous_cfg c new_state =>
      if bool_decide (constraints s = c) && bool_decide (config s = previous_cfg)
      then (new_state, TDone (Ok ()))
      else (s, TStart (OpUpdate host k))
  | TRun (OpForce _) | TRun OpRead => (s, TDone (Ok ()))
  | TDone r => (s, TDone r)
  end.

(** [update_domain_list]: the host is parsed first. *)
Definition update_domain_list (host : str) (k : DomainListKind) : Task :=
  match host_parse host with
  | None => TDone (Err [lit "invalid network host"; lit "host is empty"])
  | Some host => TStart (OpUpdate host k)
  end.
End Operations.

(** ** The decision on a request (network_policy.rs) *)

Inductive NetworkProtocol := Http | HttpsConnect | Socks5Tcp | Socks5Udp.
Inductive NetworkPolicyDecision := PolicyDeny | PolicyAsk.
Inductive NetworkDecisionSource := BaselinePolicy | ModeGuard | ProxyState | Decider.

Record NetworkPolicyRequest := mkPolicyRequest {
  q_protocol : NetworkProtocol;
  q_host : str;
  q_port : N;
  q_client_addr : option str;
  q_method : option str;
  q_command : option str;
  q_exec_policy_hint : option str;
}.

Inductive NetworkDecision :=
| Allow
| Deny (reason : str) (source : NetworkDecisionSource) (decision : NetworkPolicyDecision).

Definition REASON_POLICY_DENIED : str := lit "policy_denied".
Definition deny_with_source (reason : str) (source : NetworkDecisionSource) : NetworkDecision :=
  Deny (if is_empty reason then REASON_POLICY_DENIED else reason) source PolicyDeny.
Definition ask_with_source (reason : str) (source : NetworkDecisionSource) : NetworkDecision :=
  Deny (if is_empty reason then REASON_POLICY_DENIED else reason) source PolicyAsk.

Definition map_decider_decision (d : NetworkDecision) : NetworkDecision :=
  match d with
  | Allow => Allow
  | Deny reason _ decision => Deny reason Decider decision
  end.

Definition policy_decision_str (d : NetworkPolicyDecision) : str :=
  match d with PolicyDeny => lit "deny" | PolicyAsk => lit "ask" end.

(** What the audit event records of a decision. *)
Record AuditEvent := mkAudit {
  au_decision : str;
  au_source : NetworkDecisionSource;
  au_reason : str;
  au_host : str;
  au_port : N;
  au_override : bool;
}.

Definition evaluate_host_policy (ans : Reload) (lookup : Lookup)
    (decider : option (NetworkPolicyRequest → NetworkDecision)) (request : NetworkPolicyRequest)
    : st_err ConfigState anyhow (NetworkDecision * AuditEvent) :=
  host_decision ← host_blocked ans lookup (q_host request) (q_port request);
  let '(decision, policy_override) :=
    match host_decision with
    | Allowed => (Allow, false)
    | Blocked NotAllowed =>
        match decider with
        | Some decide =>
            let d := map_decider_decision (decide request) in
            (d, match d with Allow => true | Deny _ _ _ => false end)
        | None => (deny_with_source (reason_str NotAllowed) BaselinePolicy, false)
        end
    | Blocked reason => (deny_with_source (reason_str reason) BaselinePolicy, false)
    end in
  let '(policy_decision, source, reason) :=
    match decision with
    | Allow => (lit "allow", if policy_override then Decider else BaselinePolicy,
                if policy_override then reason_str NotAllowed else lit "allow")
    | Deny reason source decision => (policy_decision_str decision, source, reason)
    end in
  mret (decision,
        mkAudit policy_decision source reason (q_host request) (q_port request) policy_override).

(** ** Which hosts are allowed *)

(** The check that a host is not local: a local literal must be listed itself, a
    public address is one, and a name must resolve to public addresses only. *)
Definition not_local (lookup : Lookup) (allowed : list str) (host : str) (port : N) : Prop :=
  if is_local_literal host then is_explicit_local_allowlisted allowed host = true
  else match parse_ip host with
       | Some ip => is_non_public_ip ip = false
       | None => ∃ addrs, lookup host port = Some addrs ∧
                   ∀ addr, addr ∈ addrs → is_non_public_ip addr.1 = false
       end.

Lemma resolves_public lookup host port :
  host_resolves_to_non_public_ip lookup host port = false ↔
  match parse_ip host with
  | Some ip => is_non_public_ip ip = false
  | None => ∃ addrs, lookup host port = Some addrs ∧
              ∀ addr, addr ∈ addrs → is_non_public_ip addr.1 = false
  end.
Proof.
  unfold host_resolves_to_non_public_ip. destruct (parse_ip host); [done|].
  destruct (lookup host port) as [addrs|]; [|naive_solver]. rewrite any_false. naive_solver.
Qed.

Lemma local_check lookup allowed host port :
  (if is_local_literal host then negb (is_explicit_local_allowlisted allowed host)
   else host_resolves_to_non_public_ip lookup host port) = false ↔ not_local lookup allowed host port.
Proof.
  unfold not_local. destruct (is_local_literal host); [by rewrite negb_false_iff|apply resolves_public].
Qed.

(** The conditions under which a host passes, before the allowlist. *)
Definition passes (lookup : Lookup) (host : str) (port : N) (s : ConfigState) : Prop :=
  globset_matches_host_or_unscoped (deny_set s) host = false ∧
  (allow_local_binding (config s) = true ∨
   not_local lookup (default [] (allowed_domains (domains (config s)))) host port).

Lemma host_decision_cases lookup host port s h :
  host_parse host = Some h →
  match host_decision lookup host port s with
  | Allowed => passes lookup h port s ∧ globset_matches_host_or_unscoped (allow_set s) h = true ∧
               is_Some (allowed_domains (domains (config s)))
  | Blocked NotAllowed =>
      passes lookup h port s ∧
      (globset_matches_host_or_unscoped (allow_set s) h = false ∨
       allowed_domains (domains (config s)) = None)
  | Blocked Denied => globset_matches_host_or_unscoped (deny_set s) h = true
  | Blocked NotAllowedLocal =>
      globset_matches_host_or_unscoped (deny_set s) h = false ∧
      allow_local_binding (config s) = false ∧
      ¬ not_local lookup (default [] (allowed_domains (domains (config s)))) h port
  end.
Proof.
  intros E. unfold host_decision, passes. rewrite E.
  destruct (globset_matches_host_or_unscoped (deny_set s) h) eqn:Hd; [done|].
  pose proof (local_check lookup (default [] (allowed_domains (domains (config s)))) h port) as Hc.
  destruct (if is_local_literal h then _ else _).
  - destruct (allow_local_binding (config s)); cbn [negb andb].
    + destruct (allowed_domains _), (globset_matches_host_or_unscoped (allow_set s) h); cbn; naive_solver.
    + naive_solver.
  - rewrite andb_false_r.
    destruct (allowed_domains _), (globset_matches_host_or_unscoped (allow_set s) h); cbn; naive_solver.
Qed.

(** C28: A request is let through only when its host is not on the denylist and is
    not local (or local addresses are permitted), and either the allowlist matches
    it, or it is merely not listed and the external decider allows it, which the
    audit event then records as an override.  A decider cannot lift a denial or the
    local check. *)
Theorem request_allowed_sound ans lookup decider (request : NetworkPolicyRequest) s s' ev h :
  host_parse (q_host request) = Some h →
  evaluate_host_policy ans lookup decider request s = (s', Ok (Allow, ev)) →
  passes lookup h (q_port request) s' ∧
  if au_override ev
  then au_source ev = Decider ∧ ∃ decide, decider = Some decide ∧ decide request = Allow
  else au_source ev = BaselinePolicy ∧
       globset_matches_host_or_unscoped (allow_set s') h = true ∧
       is_Some (allowed_domains (domains (config s'))).
Proof.
  intros Hp. unfold evaluate_host_policy. intros (s1 & d & Hb & He)%st_bind_Ok.
  assert (d = host_decision lookup (q_host request) (q_port request) s1) as Hd.
  { unfold host_blocked in Hb. apply st_bind_Ok in Hb as (s2 & [] & Hr & Hb). cbn in Hb.
    by injection Hb as -> <-. }
  pose proof (host_decision_cases lookup (q_host request) (q_port request) s1 h Hp) as Hc.
  rewrite <-Hd in Hc. clear Hd Hb.
  destruct d as [|[]]; cbn in He.
  - injection He as <- <-. cbn. naive_solver.
  - done.
  - destruct decider as [decide|]; [|done].
    destruct (decide request) eqn:Hq; cbn in He; [|done]. injection He as <- <-. cbn. naive_solver.
  - done.
Qed.

(** A decision that is not [Allow] names its reason. *)
Lemma deny_reason_nonempty reason source : ∃ r d, deny_with_source reason source = Deny r source d ∧ r ≠ [].
Proof.
  unfold deny_with_source. destruct reason; cbn; do 2 eexists; (split; [done|]); [by vm_compute|done].
Qed.

(** ** Tasks over the shared state *)

Section System.
Context `{NetOutside}.

(** The sets are those of the configuration, the configuration meets the
    constraints, and the buffer is bounded. *)
Record consistent (s : ConfigState) : Prop := {
  cs_deny : compile_denylist_globset no_domain_glob
              (default [] (denied_domains (domains (config s)))) = Ok (deny_set s);
  cs_allow : compile_allowlist_globset no_domain_glob
               (default [] (allowed_domains (domains (config s)))) = Ok (allow_set s);
  cs_valid : validate_policy_against_constraints (config s) (constraints s) = Ok ();
  cs_bounded : (length (blocked s) ≤ MAX_BLOCKED_EVENTS)%nat;
}.

(** The states that a reload and operations bring in are consistent: ProxySpec proves
    it of the states that the host builds. *)
Definition reload_ok (ans : Reload) : Prop := ∀ s, ans = Ok (Some s) → consistent s.
Definition op_ok (op : Operation) : Prop :=
  match op with
  | OpReplace s => consistent s
  | OpForce (Ok s) => consistent s
  | _ => True
  end.

Definition mode_ok (m : NetworkMode) (c : NetworkProxyConstraints) : Prop :=
  match c_mode c with
  | Some mx => network_mode_rank m <= network_mode_rank mx
  | None => True
  end.

Definition task_ok (t : Task) : Prop :=
  match t with
  | TStart op | TRun op => op_ok op
  | TReload op s => op_ok op ∧ consistent s
  | TMode m c => mode_ok m c
  | TUpdate host k prev c s =>
      consistent s ∧ config s = candidate_config host k prev ∧ constraints s = c
  | TDone _ => True
  end.

Lemma check_Ok p f c a : check p f c a = Ok () ↔ p = true.
Proof. unfold check. destruct p; naive_solver. Qed.

(** The check of the mode is one of the checks, and the others do not look at it. *)
Lemma validate_set_mode m cfg c :
  validate_policy_against_constraints cfg c = Ok () → mode_ok m c →
  validate_policy_against_constraints (set_mode m cfg) c = Ok ().
Proof.
  intros Hv Hm. unfold validate_policy_against_constraints in *.
  change (validate_mitm_hook_config (set_mode m cfg)) with (validate_mitm_hook_config cfg).
  change (allow_unix_sockets (set_mode m cfg)) with (allow_unix_sockets cfg).
  cbn [set_mode domains enabled mode allow_upstream_proxy dangerously_allow_non_loopback_proxy
    dangerously_allow_all_unix_sockets allow_local_binding].
  do 3 (apply bind_Ok in Hv as ([] & E & Hv); rewrite E; clear E; cbn [mbind result_bind]).
  apply bind_Ok in Hv as ([] & _ & Hv).
  unfold mode_ok in Hm. destruct (c_mode c); [|exact Hv].
  apply N.leb_le in Hm. rewrite Hm. exact Hv.
Qed.

Lemma validate_mode_ok m cfg c :
  validate_policy_against_constraints (set_mode m cfg) c = Ok () → mode_ok m c.
Proof.
  intros Hv. unfold validate_policy_against_constraints in Hv.
  do 3 (apply bind_Ok in Hv as ([] & _ & Hv)). apply bind_Ok in Hv as ([] & Hm & _).
  unfold mode_ok. destruct (c_mode c); [|done]. apply check_Ok in Hm. by apply N.leb_le.
Qed.

Lemma build_config_state_Ok cfg c s :
  build_config_state cfg c = Ok s →
  config s = cfg ∧ constraints s = c ∧ blocked s = [] ∧
  compile_denylist_globset no_domain_glob (default [] (denied_domains (domains cfg))) = Ok (deny_set s) ∧
  compile_allowlist_globset no_domain_glob (default [] (allowed_domains (domains cfg))) = Ok (allow_set s).
Proof.
  unfold build_config_state. intros ([] & _ & Hr)%bind_Ok. apply bind_Ok in Hr as ([] & _ & Hr).
  apply bind_Ok in Hr as (deny & Hd%map_err_Ok & Hr). apply bind_Ok in Hr as (allow & Ha%map_err_Ok & Hr).
  apply bind_Ok in Hr as (hs & _ & Hr). apply bind_Ok in Hr as (m & _ & Hr). by injection Hr as <-.
Qed.

Lemma consistent_set_blocked s bs n :
  consistent s → (length bs ≤ MAX_BLOCKED_EVENTS)%nat → consistent (set_blocked bs n s).
Proof. by intros [] ?. Qed.

Lemma push_blocked_bounded e bs : (length (push_blocked e bs) ≤ MAX_BLOCKED_EVENTS)%nat.
Proof. unfold push_blocked. rewrite length_drop. lia. Qed.

Lemma prepare_update_ok host k s n :
  consistent s → prepare_update host k s = Ok (Some n) →
  consistent n ∧ config n = candidate_config host k (config s) ∧ constraints n = constraints s.
Proof.
  intros Hs. unfold prepare_update. case_match; [done|].
  intros ([] & Hv%map_err_Ok%map_err_Ok & (n0 & Hb%map_err_Ok & [= <-])%bind_Ok)%bind_Ok.
  apply build_config_state_Ok in Hb as (Hc & Hk & _ & Hd & Ha).
  split; [|by cbn]. split; cbn; rewrite ?Hc, ?Hk; try done. apply Hs.
Qed.

(** Every step of a task keeps the shared state and the task well formed. *)
Lemma task_step_ok ans s t s' t' :
  reload_ok ans → consistent s → task_ok t → task_step ans s t = (s', t') →
  consistent s' ∧ task_ok t'.
Proof.
  intros Ha Hs Ht. pose proof (cs_bounded s Hs) as Hb.
  assert (∀ s0 n, consistent s0 → consistent (set_blocked (blocked s) n s0)) as Hkeep
    by (intros; by apply consistent_set_blocked).
  destruct t as [op|op n|op|m c|host k prev c n|r]; cbn [task_step task_ok] in *.
  - destruct op as [e| |n|[n|er]|m|host k|]; cbn [op_ok] in Ht;
      try (intros [= <- <-]; cbn; by auto);
      (destruct ans as [[n'|]|er']; intros [= <- <-]; cbn; auto).
  - intros [= <- <-]. naive_solver.
  - destruct op as [e| |n|an|m|host k|]; try (intros [= <- <-]; cbn; auto); cbn [op_ok] in Ht.
    + split; [|done]. apply consistent_set_blocked; [done|]. apply push_blocked_bounded.
    + split; [|done]. apply consistent_set_blocked; [done|cbn; lia].
    + destruct (prepare_mode m s) as [[]|er] eqn:Hm; intros [= <- <-]; (split; [done|]); [|done].
      cbn. unfold prepare_mode, with_context in Hm. rewrite !map_err_Ok in Hm. by eapply validate_mode_ok.
    + destruct (prepare_update host k s) as [[n|]|er] eqn:Hp; intros [= <- <-]; (split; [done|]); [|done..].
      cbn. by apply prepare_update_ok.
  - case_bool_decide as Hc; intros [= <- <-]; (split; [|done]); [|done]. subst c.
    destruct Hs as [H1 H2 H3 H4]. split; cbn; try done. by apply validate_set_mode.
  - destruct Ht as (Hn & _ & _). case_match; intros [= <- <-]; by cbn.
  - by intros [= <- <-].
Qed.

End System.

(** ** Changing a domain list takes effect *)

(** What starts with a star does not normalise to a plain name. *)
Lemma not_plain (c : char) d : c ∈ d → name_char c = false → plain_name d = false.
Proof.
  intros Hc Hn. destruct (plain_name d) eqn:E; [|done].
  destruct (plain_parts _ E) as (_ & Hp & _). specialize (Hp _ Hc). congruence.
Qed.

Lemma trim_end_char_head (c d : char) t :
  d ≠ c → ∃ t', trim_end_char c (d :: t) = d :: t'.
Proof.
  intros Hne. unfold trim_end_char. destruct (drop_while_suffix (N.eqb c) (reverse (d :: t))) as (k & Hk & Hp).
  apply (f_equal reverse) in Hk. rewrite reverse_involutive, reverse_app in Hk.
  destruct (reverse (drop_while (N.eqb c) (reverse (d :: t)))) as [|x l] eqn:E.
  - rewrite app_nil_l in Hk. exfalso.
    assert (d ∈ k) as Hd by (apply elem_of_reverse; rewrite <-Hk; by left).
    rewrite Forall_forall in Hp. specialize (Hp _ Hd). apply N.eqb_eq in Hp. congruence.
  - injection Hk as <- _. by exists l.
Qed.

Lemma star_code : ch "*" = 42 ∧ ch ":" = 58 ∧ ch "." = 46 ∧ ch "%" = 37 ∧ lit "[" = [91].
Proof. by_compute. Qed.

Lemma name_char_star : name_char 42 = false ∧ name_char 37 = false.
Proof. by_compute. Qed.

Lemma normalize_dns_star t : plain_name (normalize_dns_host_or_ip_literal (42 :: t)) = false.
Proof.
  destruct name_char_star as [Hs Hp]. destruct star_code as (_ & _ & Hdot & Hpc & _).
  unfold normalize_dns_host_or_ip_literal. rewrite Hdot.
  destruct (trim_end_char_head 46 42 (to_ascii_lowercase <$> t)) as [t' Ht]; [done|].
  change (to_ascii_lowercase <$> 42 :: t) with (42 :: (to_ascii_lowercase <$> t)). rewrite Ht.
  unfold normalize_ip_literal. destruct (is_ip (42 :: t')); cbn [default from_option id].
  { apply (not_plain 42); [by left|done]. }
  assert (∀ delim r, scoped_literal (42 :: t') delim = Some r → plain_name r = false) as Hsc.
  { intros delim r. unfold scoped_literal. destruct (split_once_str delim _) as [[ip sc]|]; [|done]. cbn.
    destruct (is_ip ip); [|done]. intros [= <-]. apply (not_plain 37); [|done].
    replace (lit "%") with [37] by by_compute. set_solver. }
  destruct (scoped_literal (42 :: t') (lit "%25")) eqn:E1;
    cbn [opt_or default from_option id]; [by eapply Hsc|].
  destruct (scoped_literal (42 :: t') (lit "%")) eqn:E2;
    cbn [opt_or default from_option id]; [by eapply Hsc|].
  apply (not_plain 42); [by left|done].
Qed.

Lemma normalize_host_star e t : trim e = 42 :: t → plain_name (normalize_host e) = false.
Proof.
  intros E. destruct star_code as (_ & Hc & _ & _ & Hb). unfold normalize_host. rewrite E, Hb.
  change (starts_with [91] (42 :: t)) with false. cbn iota beta.
  case_match; [|apply normalize_dns_star]. rewrite Hc.
  destruct (split 58 t) as [|x l] eqn:Es; [by apply split_nonempty in Es|].
  change (split 58 (42 :: t)) with (match split 58 t with p :: ps => (42 :: p) :: ps | [] => [[42]] end).
  rewrite Es. apply normalize_dns_star.
Qed.

Lemma normalize_pattern_plain e :
  plain_name (normalize_host e) = true → normalize_pattern e = normalize_host e.
Proof.
  intros Hp. unfold normalize_pattern. destruct wildcard_prefixes as (E1 & E2 & E3).
  assert (normalize_host (trim e) = normalize_host e) as Ht.
  { unfold normalize_host. by rewrite trim_idemp. }
  destruct (trim e) as [|c t] eqn:E.
  - by rewrite E1, E2, E3.
  - destruct (decide (c = 42)) as [->|Hne]; [rewrite (normalize_host_star _ _ E) in Hp; done|].
    assert ((c :: t == lit "*") = false) as -> by (apply str_eqb_false; rewrite E3; congruence).
    assert (∀ p, strip_prefix (42 :: p) (c :: t) = None) as Hnone.
    { intros p. cbn [strip_prefix]. destruct (N.eqb_spec 42 c); [congruence|done]. }
    by rewrite E1, E2, !Hnone.
Qed.

Section Effect.
Context `{NetOutside} `{!GlobLaws no_domain_glob}.

(** A listed spelling of a plain host is matched by the compiled list. *)
Lemma listed_matches ps w gs e host :
  compile_globset_with_policy no_domain_glob ps w = Ok gs →
  e ∈ ps → normalize_host e = host → plain_name host = true →
  globset_matches_host_or_unscoped gs host = true.
Proof.
  intros Hc He Hn Hp. unfold globset_matches_host_or_unscoped.
  assert (is_match gs host = true) as ->; [|done].
  apply (compile_globset_match _ _ _ _ _ Hc). exists e, host. split; [done|].
  rewrite normalize_pattern_plain by congruence. rewrite Hn. split.
  - unfold expand_domain_pattern. change host with (show_pattern (Exact host)) at 2.
    rewrite domain_pattern_parse_show by done. cbn. set_solver.
  - apply glob_literal; [done|]. by apply plain_lower.
Qed.

Lemma lists_host_true host es :
  lists_host host es = true ↔ ∃ e, e ∈ es ∧ normalize_host e = host.
Proof. unfold lists_host. rewrite any_true. by setoid_rewrite str_eqb_true. Qed.

Lemma candidate_entries host k cfg :
  plain_name host = true →
  host ∈ list_entries k (candidate_config host k cfg) ∧
  ∀ e, e ∈ list_entries (opposite k) (candidate_config host k cfg) → normalize_host e ≠ host.
Proof.
  intros Hp. unfold candidate_config, list_entries, upsert_domain_permission, some_entries.
  cbn [set_domains domains]. rewrite (plain_normalize_host host) by done.
  set (kept := List.filter _ _). set (l := kept ++ [mkEntry host (list_permission k)]).
  assert (∀ e, e ∈ l → normalize_host (pattern e) = host → e = mkEntry host (list_permission k)) as Hl.
  { intros e [He|He%list_elem_of_singleton]%elem_of_app Hn; [|done].
    apply list_elem_of_In, filter_In in He as [_ He]. rewrite Hn, str_eqb_refl in He. done. }
  assert (mkEntry host (list_permission k) ∈ l) as Hin by (apply elem_of_app; right; by left).
  assert (is_empty l = false) as -> by (apply is_empty_false; intros E; rewrite E in Hin; set_solver).
  pose proof (plain_normalize_host host Hp) as Hnh.
  destruct k; cbn [opposite list_permission] in *.
  - rewrite elem_of_allowed. split.
    + split; [done|]. intros Hd. by specialize (Hl _ Hd Hnh).
    + intros e He%elem_of_denied Hn. by specialize (Hl _ He Hn).
  - rewrite elem_of_denied. split; [done|]. intros e [He _]%elem_of_allowed Hn.
    by specialize (Hl _ He Hn).
Qed.

(** When adding a domain succeeds, whatever the other tasks did meanwhile, the
    state it leaves decides accordingly: every spelling of a denied host is blocked as
    denied, and an allowed host is no longer blocked for not being listed. *)
Theorem domain_update_takes_effect ans s t s' host k lookup spelling port :
  consistent s → task_ok t →
  t = TRun (OpUpdate host k) ∨ (∃ prev c n, t = TUpdate host k prev c n) →
  task_step ans s t = (s', TDone (Ok ())) →
  plain_name host = true → host_parse spelling = Some host →
  match k with
  | ListDeny => host_decision lookup spelling port s' = Blocked Denied
  | ListAllow => host_decision lookup spelling port s' ≠ Blocked NotAllowed
  end.
Proof.
  intros Hs Ht Hk Hstep Hp Hsp.
  assert (consistent s' ∧ ∃ e, e ∈ list_entries k (config s') ∧ normalize_host e = host) as [Hs' (e & He & Hn)].
  { destruct Hk as [-> | (prev & c & n & ->)]; cbn [task_step task_ok] in *.
    - destruct (prepare_update host k s) as [[n|]|er] eqn:Hpr; try done. injection Hstep as <-.
      split; [done|]. unfold prepare_update in Hpr. case_match eqn:Hl.
      + apply andb_true_iff in Hl as [Hl _]. by apply lists_host_true.
      + by apply bind_Ok in Hpr as ([] & _ & (? & _ & ?)%bind_Ok).
    - case_match; [|done]. injection Hstep as <-. destruct Ht as (Hn & Hc & _). split; [done|].
      exists host. rewrite Hc. split; [by apply candidate_entries|by apply plain_normalize_host]. }
  pose proof (host_decision_cases lookup spelling port s' host Hsp) as Hc.
  destruct Hs' as [Hd Ha _ _]. destruct k; cbn [list_entries] in He.
  - intros E. rewrite E in Hc. destruct Hc as [_ [Hf|Hf]].
    + by rewrite (listed_matches _ _ _ _ _ Ha He Hn Hp) in Hf.
    + unfold list_entries in He. rewrite Hf in He. by apply elem_of_nil in He.
  - unfold host_decision. rewrite Hsp. by rewrite (listed_matches _ _ _ _ _ Hd He Hn Hp).
Qed.
End Effect.

(** ** What the constraints guarantee *)

Section Bounds.
Context `{NetOutside} `{!GlobLaws no_domain_glob}.

Lemma lower_set_sub (a b : list str) :
  lower_set a ∖ lower_set b = ∅ → ∀ x, x ∈ a → ∃ y, y ∈ b ∧ lower y = lower x.
Proof.
  intros E x Hx. assert (lower x ∈ lower_set b) as Hin.
  { assert (lower x ∈ lower_set a) by (apply elem_of_list_to_set, list_elem_of_fmap; by exists x).
    destruct (decide (lower x ∈ lower_set b)); [done|]. set_solver. }
  apply elem_of_list_to_set, list_elem_of_fmap in Hin as (y & -> & ?). by exists y.
Qed.

Lemma validate_denied_sub cfg_denied denied expansion :
  validate_denied_domains cfg_denied denied expansion = Ok () →
  ∀ d, d ∈ denied → ∃ e, e ∈ cfg_denied ∧ lower e = lower d.
Proof.
  unfold validate_denied_domains. intros ([] & _ & Hr)%bind_Ok. apply lower_set_sub.
  destruct expansion as [[]|]; apply check_Ok, bool_decide_eq_true in Hr; set_solver.
Qed.

Lemma validate_allowed_sub cfg_allowed cfg_denied managed :
  validate_allowed_domains cfg_allowed cfg_denied managed None = Ok () →
  ∀ e, e ∈ cfg_allowed →
    any (λ m, allows m (parse_for_constraints no_url_host_parse e))
      (parse_for_constraints no_url_host_parse <$> managed) = true.
Proof.
  unfold validate_allowed_domains. intros ([] & _ & Hr%check_Ok%is_empty_true)%bind_Ok e He.
  destruct (any _ _) eqn:E; [done|]. exfalso.
  assert (In e []) as []. rewrite <-Hr. apply filter_In. split; [by apply list_elem_of_In|].
  by rewrite E.
Qed.

Lemma validate_allowed_fixed cfg_allowed cfg_denied managed :
  validate_allowed_domains cfg_allowed cfg_denied managed (Some false) = Ok () →
  ∀ e, e ∈ cfg_allowed → ∃ m, m ∈ managed ∧ lower m = lower e.
Proof.
  unfold validate_allowed_domains. intros ([] & _ & Hr%check_Ok%bool_decide_eq_true)%bind_Ok.
  apply lower_set_sub. set_solver.
Qed.

(** C30: A configuration that passes the managed constraints stays within them.  Its
    mode, its switches (the proxy itself, upstream proxies, other bind addresses, local
    binding, all unix sockets) are off where the constraints forbid them, where a list
    of unix sockets forbids allowing them all unless the constraints say otherwise.  It
    lists, up to letter case, every managed denied domain and no unix socket outside the
    managed ones, and no allowed domain outside the managed ones when the managed list
    is fixed.  When the allowlist may only be narrowed and all its patterns and the
    managed ones are written canonically, its compiled allowlist matches no host that
    the managed allowlist does not match. *)
Theorem validated_policy_bounded (cfg : NetworkProxySettings) (c : NetworkProxyConstraints) :
  validate_policy_against_constraints cfg c = Ok () →
  mode_ok (mode cfg) c ∧
  (c_enabled c = Some false → enabled cfg = false) ∧
  (c_allow_upstream_proxy c = Some false → allow_upstream_proxy cfg = false) ∧
  (c_dangerously_allow_non_loopback_proxy c = Some false →
     dangerously_allow_non_loopback_proxy cfg = false) ∧
  (c_dangerously_allow_all_unix_sockets c = Some false
   ∨ (c_dangerously_allow_all_unix_sockets c = None ∧ is_Some (c_allow_unix_sockets c)) →
     dangerously_allow_all_unix_sockets cfg = false) ∧
  (c_allow_local_binding c = Some false → allow_local_binding cfg = false) ∧
  (∀ ds, c_denied_domains c = Some ds → ∀ d, d ∈ ds →
     ∃ e, e ∈ list_entries ListDeny cfg ∧ lower e = lower d) ∧
  (∀ us, c_allow_unix_sockets c = Some us → ∀ p, p ∈ allow_unix_sockets cfg →
     ∃ u, u ∈ us ∧ lower u = lower p) ∧
  (∀ ds, c_allowed_domains c = Some ds → c_allowlist_expansion_enabled c = Some false →
     ∀ e, e ∈ list_entries ListAllow cfg → ∃ d, d ∈ ds ∧ lower d = lower e) ∧
  (∀ Ms Cs ms cs host,
     c_allowed_domains c = Some (show_pattern <$> Ms) → c_allowlist_expansion_enabled c = None →
     list_entries ListAllow cfg = show_pattern <$> Cs →
     Forall (canonical no_url_host_parse) Ms → Forall (canonical no_url_host_parse) Cs →
     compile_allowlist_globset no_domain_glob (show_pattern <$> Ms) = Ok ms →
     compile_allowlist_globset no_domain_glob (list_entries ListAllow cfg) = Ok cs →
     is_match cs host = true → is_match ms host = true).
Proof.
  intros Hv. split; [eapply (validate_mode_ok _ cfg); by destruct cfg|].
  unfold validate_policy_against_constraints in Hv.
  do 2 (apply bind_Ok in Hv as ([] & _ & Hv)). apply bind_Ok in Hv as ([] & H1 & Hv).
  apply bind_Ok in Hv as ([] & _ & Hv). apply bind_Ok in Hv as ([] & H2 & Hv).
  apply bind_Ok in Hv as ([] & H3 & Hv). apply bind_Ok in Hv as ([] & H7%check_Ok & Hv).
  apply bind_Ok in Hv as ([] & H4 & Hv). apply bind_Ok in Hv as ([] & H5 & Hv).
  apply bind_Ok in Hv as ([] & H6 & H8). unfold check_flag in *.
  split; [intros E; rewrite E in H1; apply check_Ok in H1; by destruct (enabled cfg)|].
  split; [intros E; rewrite E in H2; apply check_Ok in H2; by apply negb_true_iff|].
  split; [intros E; rewrite E in H3; apply check_Ok in H3; by apply negb_true_iff|].
  split.
  { intros [E|[E [us Eus]]]; rewrite E in H7; [|rewrite Eus in H7];
      by destruct (dangerously_allow_all_unix_sockets cfg). }
  split; [intros E; rewrite E in H4; apply check_Ok in H4; by destruct (allow_local_binding cfg)|].
  split; [intros ds E; rewrite E in H6; by eapply validate_denied_sub|].
  split.
  { intros us E p Hp. rewrite E in H8. apply check_Ok, is_empty_true in H8.
    destruct (decide (lower p ∈ lower_set us)) as [Hin|Hout].
    - apply elem_of_list_to_set, list_elem_of_fmap in Hin as (u & Hu & ?). by exists u.
    - exfalso. assert (In p []) as []. rewrite <-H8. apply filter_In. split; [by apply list_elem_of_In|].
      by rewrite bool_decide_false. }
  split; [intros ds E1 E2; rewrite E1, E2 in H5; by eapply validate_allowed_fixed|].
  intros Ms Cs ms cs host E1 E2 E3 HM HC Hm Hc. rewrite E1, E2 in H5.
  pose proof (validate_allowed_sub _ _ _ H5) as Hall.
  change (default [] (allowed_domains (domains cfg))) with (list_entries ListAllow cfg) in Hall.
  rewrite E3 in Hall, Hc. 
  exact (allowed_within_managed no_domain_glob no_url_host_parse Ms Cs WildcardAllow WildcardAllow ms cs host
    HM HC Hall Hm Hc).
Qed.
End Bounds.

(** ** A task left alone finishes *)

Section Alone.
Context `{NetOutside}.

(** [n] steps of one task while the reloader reports no change. *)
Fixpoint alone (n : nat) (s : ConfigState) (t : Task) : ConfigState * Task :=
  match n with
  | O => (s, t)
  | S n => let '(s', t') := task_step (Ok None) s t in alone n s' t'
  end.

Definition is_done (t : Task) : bool := match t with TDone _ => true | _ => false end.

Lemma alone_run op s : is_done (alone 2 s (TRun op)).2 = true.
Proof.
  destruct op as [e| |n|an|m|host k|]; cbn; try done.
  - destruct (prepare_mode m s); cbn; [|done]. by rewrite bool_decide_true.
  - destruct (prepare_update host k s) as [[n|]|e]; cbn; [|done..]. by rewrite !bool_decide_true.
Qed.

Lemma alone_done n s r : alone n s (TDone r) = (s, TDone r).
Proof. induction n; cbn; done. Qed.

Lemma alone_add n k s t :
  is_done (alone n s t).2 = true → is_done (alone (n + k) s t).2 = true.
Proof.
  revert s t. induction n as [|n IH]; intros s t; cbn.
  - destruct t; try done. intros _. by rewrite alone_done.
  - destruct (task_step (Ok None) s t) as [s' t']. apply IH.
Qed.

Lemma alone_start op s : is_done (alone 3 s (TStart op)).2 = true.
Proof.
  destruct op as [e| |n|[n|er]|m|host k|]; try done.
  - exact (alone_run (OpMode m) s).
  - exact (alone_run (OpUpdate host k) s).
Qed.

(** The retry loops make progress: from any point of any operation, a task that
    runs without interference finishes within four steps between locks, the first of
    which may find that the state has changed. *)
Theorem task_alone_finishes (s : ConfigState) (t : Task) : ∃ s' r, alone 4 s t = (s', TDone r).
Proof.
  assert (is_done (alone 4 s t).2 = true) as Hd.
  { destruct t as [op|op n|op|m c|host k prev c n|r].
    - apply (alone_add 3 1), alone_start.
    - change (is_done (alone 3 n (TRun op)).2 = true). apply (alone_add 2 1), alone_run.
    - apply (alone_add 2 2), alone_run.
    - change (alone 4 s (TMode m c)) with
        (let '(s', t') := task_step (Ok None) s (TMode m c) in alone 3 s' t').
      cbn [task_step]. case_bool_decide; [by rewrite alone_done|apply alone_start].
    - change (alone 4 s (TUpdate host k prev c n)) with
        (let '(s', t') := task_step (Ok None) s (TUpdate host k prev c n) in alone 3 s' t').
      cbn [task_step]. destruct (bool_decide _ && bool_decide _); [by rewrite alone_done|apply alone_start].
    - by rewrite alone_done. }
  destruct (alone 4 s t) as [s' t']. destruct t' as [| | | | |r]; try done. by exists s', r.
Qed.
End Alone.

(** The buffer holds the most recent requests, in order. *)
Lemma record_blocked_recent (es : list BlockedRequest) :
  foldl (λ bs e, push_blocked e bs) [] es = drop (length es - MAX_BLOCKED_EVENTS) es.
Proof.
  induction es as [|e es IH] using rev_ind; [done|]. rewrite foldl_app. cbn [foldl]. rewrite IH.
  unfold push_blocked. rewrite !length_app, length_drop. cbn [length].
  set (M := MAX_BLOCKED_EVENTS). assert (0 < M)%nat as HM by (unfold M, MAX_BLOCKED_EVENTS; lia).
  clearbody M. destruct (decide (length es < M)%nat) as [Hl|Hl].
  - replace (length es - (length es - M) + 1 - M)%nat with 0%nat by lia.
    replace (length es - M)%nat with 0%nat by lia. by replace (length es + 1 - M)%nat with 0%nat by lia.
  - replace (length es - (length es - M) + 1 - M)%nat with 1%nat by lia.
    rewrite drop_app_le by (rewrite length_drop; lia). rewrite drop_drop.
    replace (length es + 1 - M)%nat with (length es - M + 1)%nat by lia.
    by rewrite drop_app_le by lia.
Qed.

(** ** Examples *)

Definition demo_net : NetOutside := {|
  no_mitm := demo_mitm;
  no_url_host_parse := Some;
  no_domain_glob := demo_glob;
  no_debug_strs := λ l, lit "[" ++ join (lit ", ") l ++ lit "]";
  no_hash_order := elements;
  no_mitm_state_new := λ _ _, Ok ();
  no_macos := true;
  no_canonicalize := λ _, None;
|}.
#[local] Existing Instance demo_net.

Definition no_constraints : NetworkProxyConstraints :=
  mkConstraints None None None None None None None None None None None.
Definition narrow_constraints : NetworkProxyConstraints :=
  mkConstraints None (Some Limited) None None None (Some (show_pattern <$> [ApexAndSubdomains (lit "example.com")]))
    None None None None (Some false).

Definition demo_config (d : Domains) : NetworkProxySettings :=
  set_mode Limited (set_domains d default_settings).
Definition demo_domains : Domains := Some [mkEntry (lit "www.example.com") PermAllow].
Definition demo_state : ConfigState :=
  match build_config_state (demo_config demo_domains) narrow_constraints with
  | Ok s => s
  | Err _ => mkState default_settings [] [] None ∅ no_constraints [] 0
  end.

Lemma demo_state_consistent : consistent demo_state.
Proof. split; [reflexivity|reflexivity|vm_compute; reflexivity|vm_compute; lia]. Qed.

Definition demo_lookup : Lookup := λ host _,
  if host == lit "rebind.example.com" then Some [(V4 (v4 10 0 0 1), 443)]
  else Some [(V4 (v4 93 184 216 34), 443)].
Definition demo_request (host : str) : NetworkPolicyRequest :=
  mkPolicyRequest HttpsConnect host 443 None None None None.

Lemma request_allowed_sound_witness :
  ∃ s' ev,
    evaluate_host_policy (Ok None) demo_lookup None (demo_request (lit "WWW.example.com:443")) demo_state
      = (s', Ok (Allow, ev)) ∧ au_override ev = false ∧
    passes demo_lookup (lit "www.example.com") 443 s'.
Proof.
  destruct (evaluate_host_policy (Ok None) demo_lookup None (demo_request (lit "WWW.example.com:443"))
    demo_state) as [s' [[d ev]|e]] eqn:E; [|by vm_compute in E].
  assert (d = Allow) as -> by (vm_compute in E; congruence).
  exists s', ev. split; [reflexivity|].
  split; [vm_compute in E; injection E as _ <-; reflexivity|].
  destruct (request_allowed_sound (Ok None) demo_lookup None (demo_request (lit "WWW.example.com:443"))
    demo_state s' ev (lit "www.example.com")) as [H _]; [by_compute|exact E|exact H].
Defined.

(** A name that resolves to a private address is blocked, whatever the decider says. *)
Example rebinding_is_blocked :
  (evaluate_host_policy (Ok None) demo_lookup (Some (λ _, Allow))
     (demo_request (lit "rebind.example.com")) demo_state).2
  = Ok (Deny (lit "not_allowed_local") BaselinePolicy PolicyDeny,
        mkAudit (lit "deny") BaselinePolicy (lit "not_allowed_local") (lit "rebind.example.com") 443 false).
Proof. by_compute. Qed.

Definition demo_deny : Operation := OpUpdate (lit "ads.example.com") ListDeny.

Lemma domain_update_takes_effect_witness :
  ∃ t s', task_step (Ok None) demo_state (TRun demo_deny) = (demo_state, t) ∧
    task_step (Ok None) demo_state t = (s', TDone (Ok ())) ∧
    host_decision demo_lookup (lit "ADS.example.com.") 443 demo_state = Blocked NotAllowed ∧
    host_decision demo_lookup (lit "ADS.example.com.") 443 s' = Blocked Denied.
Proof.
  destruct (task_step (Ok None) demo_state (TRun demo_deny)) as [s1 t] eqn:E1.
  assert (task_ok t ∧ s1 = demo_state ∧ ∃ prev c n, t = TUpdate (lit "ads.example.com") ListDeny prev c n)
    as (Ht & -> & prev & c & n & Et).
  { split; [refine (proj2 (task_step_ok (Ok None) demo_state (TRun demo_deny) s1 t _
      demo_state_consistent _ E1)); [intros s Hs; discriminate Hs|exact I]|].
    cbn [task_step demo_deny] in E1.
    destruct (prepare_update (lit "ads.example.com") ListDeny demo_state) as [[n|]|] eqn:Ep;
      [|by vm_compute in Ep..].
    injection E1 as <- <-. split; [reflexivity|]. do 3 eexists; reflexivity. }
  destruct (task_step (Ok None) demo_state t) as [s' t'] eqn:E2. exists t, s'.
  assert (t' = TDone (Ok ())) as ->.
  { rewrite Et in E2, E1. cbn [task_step demo_deny] in E1, E2.
    destruct (prepare_update _ _ demo_state) as [[m|]|]; [|done..]. injection E1 as <- <- _.
    rewrite !bool_decide_true in E2 by done. by injection E2 as _ <-. }
  split; [reflexivity|]. split; [exact E2|]. split; [by_compute|].
  exact (domain_update_takes_effect (Ok None) demo_state t s' (lit "ads.example.com") ListDeny demo_lookup
    (lit "ADS.example.com.") 443 demo_state_consistent Ht
    (or_intror (ex_intro _ prev (ex_intro _ c (ex_intro _ n Et)))) E2
    ltac:(by_compute) ltac:(by_compute)).
Defined.

Lemma demo_canonical : Forall (canonical no_url_host_parse) [ApexAndSubdomains (lit "example.com")] ∧
  Forall (canonical no_url_host_parse) [Exact (lit "www.example.com")].
Proof. split; repeat constructor; by_compute. Qed.

Lemma validated_policy_bounded_witness :
  validate_policy_against_constraints (demo_config demo_domains) narrow_constraints = Ok () ∧
  validate_policy_against_constraints
    (demo_config (Some [mkEntry (lit "*.org") PermAllow])) narrow_constraints ≠ Ok () ∧
  ∃ ms cs,
    compile_allowlist_globset no_domain_glob
      (show_pattern <$> [ApexAndSubdomains (lit "example.com")]) = Ok ms ∧
    compile_allowlist_globset no_domain_glob (list_entries ListAllow (demo_config demo_domains)) = Ok cs ∧
    ∀ host, is_match cs host = true → is_match ms host = true.
Proof.
  assert (validate_policy_against_constraints (demo_config demo_domains) narrow_constraints = Ok ()) as Hv
    by by_compute.
  split; [exact Hv|]. split; [by_compute|].
  destruct (compile_allowlist_globset no_domain_glob
    (show_pattern <$> [ApexAndSubdomains (lit "example.com")])) as [ms|] eqn:Em; [|by vm_compute in Em].
  destruct (compile_allowlist_globset no_domain_glob (list_entries ListAllow (demo_config demo_domains)))
    as [cs|] eqn:Ec; [|by vm_compute in Ec].
  exists ms, cs. split; [reflexivity|]. split; [reflexivity|]. intros host.
  destruct (validated_policy_bounded _ _ Hv) as (_ & _ & _ & _ & _ & _ & _ & _ & _ & H).
  destruct demo_canonical as [HM HC].
  exact (H [ApexAndSubdomains (lit "example.com")] [Exact (lit "www.example.com")] ms cs host
    ltac:(reflexivity) ltac:(reflexivity) ltac:(by_compute) HM HC Em Ec).
Defined.

(** A request recorded while a domain is added is lost: the addition writes back the
    buffer and the count it read before. *)
Definition demo_entry : BlockedRequest :=
  mkBlocked (lit "x.test") (lit "not_allowed") None None None (lit "http") None None None 0.

Example update_loses_record :
  let '(s1, adding) := task_step (Ok None) demo_state (TRun demo_deny) in
  let '(s2, recorded) := task_step (Ok None) s1 (TRun (OpRecord demo_entry)) in
  let '(s3, added) := task_step (Ok None) s2 adding in
  recorded = TDone (Ok ()) ∧ added = TDone (Ok ()) ∧
  (length (blocked s2), blocked_total s2) = (1%nat, 1) ∧
  (length (blocked s3), blocked_total s3) = (0%nat, 0).
Proof. by_compute. Qed.

(** A reload on request keeps the buffer and restarts the count; the other ways to
    replace the state keep both. *)
Example force_reload_restarts_count :
  let s := (record_blocked (Ok None) demo_entry demo_state).1 in
  let '(s1, _) := force_reload (Ok demo_state) s in
  let '(s2, _) := replace_config_state (Ok None) demo_state s in
  (length (blocked s1), blocked_total s1) = (1%nat, 0) ∧
  (length (blocked s2), blocked_total s2) = (1%nat, 1).
Proof. by_compute. Qed.

(** Normalising twice is not normalising once: the stored form of this host is not
    the form that the list compiles. *)
Example scoped_host_not_fixed :
  normalize_host (lit "[fe80::1%2525]") = lit "fe80::1%25" ∧
  normalize_host (lit "fe80::1%25") = lit "fe80::1%".
Proof. by_compute. Qed.

Example unparsable_managed_entry :
  allows (parse_for_constraints (λ _, None) (lit "bad host")) (parse_for_constraints (λ _, None) (lit "^"))
  = true.
Proof. by_compute. Qed.
