(* ===== verification/ProxySpec.v ===== *)
(** * Where the states of the network proxy come from

    [core/src/config/network_proxy_spec.rs], [core/src/network_proxy_loader.rs] and the
    network tables of [config/src/permissions_toml.rs]: a session's proxy is started from
    a [NetworkProxySpec] (the configuration under the managed requirements), a stand-alone
    proxy from the configuration layers, which it reads again when a file changes.  Both
    check the configuration against the managed constraints before they build a state.

    Decoding the merged TOML and choosing the permission profile are not modelled: the
    network table they select is an argument, so that the theorems hold for every one.
    The maps of the tables are association lists, those of a [BTreeMap] in key order. *)

From S2P Require Import Prelude RustStr AbsPath IpAddress Permissions ExecPolicy Truncate.
From S2P Require Import NetworkPolicy NetworkConfig MitmHook NetworkProxy.

Local Open Scope rstr_scope.

(** ** The network tables (permissions_toml.rs) *)

Inductive NetworkDomainPermissionToml := DomainTomlAllow | DomainTomlDeny.
#[export] Instance NetworkDomainPermissionToml_eq_dec : EqDecision NetworkDomainPermissionToml.
Proof. solve_decision. Defined.
Definition NetworkDomainPermissionsToml : Type := list (str * NetworkDomainPermissionToml).

(** [allowed_domains] and [denied_domains]: nothing when there are none. *)
Definition toml_domains (p : NetworkDomainPermissionToml) (d : NetworkDomainPermissionsToml)
    : option (list str) :=
  opt_filter (λ l, negb (is_empty l)) (Some (fst <$> List.filter (λ e, bool_decide (e.2 = p)) d)).
Definition toml_allowed_domains := toml_domains DomainTomlAllow.
Definition toml_denied_domains := toml_domains DomainTomlDeny.

Inductive NetworkUnixSocketPermissionToml := SocketTomlAllow | SocketTomlDeny.
#[export] Instance NetworkUnixSocketPermissionToml_eq_dec : EqDecision NetworkUnixSocketPermissionToml.
Proof. solve_decision. Defined.
Definition NetworkUnixSocketPermissionsToml : Type := list (str * NetworkUnixSocketPermissionToml).
Definition toml_allow_unix_sockets (u : NetworkUnixSocketPermissionsToml) : list str :=
  fst <$> List.filter (λ e, bool_decide (e.2 = SocketTomlAllow)) u.

Record NetworkMitmInjectedHeaderToml := mkInjectedToml {
  it_name : str;
  it_secret_env_var : option str;
  it_secret_file : option str;
  it_prefix : option str;
}.
Record NetworkMitmActionToml := mkActionToml {
  at_strip_request_headers : list str;
  at_inject_request_headers : list NetworkMitmInjectedHeaderToml;
}.
Record NetworkMitmHookToml := mkHookToml {
  ht_host : str;
  ht_methods : list str;
  ht_path_prefixes : list str;
  ht_query : list (str * list str);
  ht_headers : list (str * list str);
  ht_body : option str;
  ht_action : list str;
}.
Record NetworkMitmToml := mkMitmToml {
  mt_hooks : option (list (str * NetworkMitmHookToml));
  mt_actions : option (list (str * NetworkMitmActionToml));
}.
Record NetworkToml := mkNetworkToml {
  nt_enabled : option bool;
  nt_proxy_url : option str;
  nt_enable_socks5 : option bool;
  nt_socks_url : option str;
  nt_enable_socks5_udp : option bool;
  nt_allow_upstream_proxy : option bool;
  nt_dangerously_allow_non_loopback_proxy : option bool;
  nt_dangerously_allow_all_unix_sockets : option bool;
  nt_mode : option NetworkMode;
  nt_domains : option NetworkDomainPermissionsToml;
  nt_unix_sockets : option NetworkUnixSocketPermissionsToml;
  nt_allow_local_binding : option bool;
  nt_mitm : option NetworkMitmToml;
}.

(** [IndexMap]: an insertion keeps the place of a key it replaces. *)
Fixpoint index_map_insert {V} (k : str) (v : V) (m : list (str * V)) : list (str * V) :=
  match m with
  | [] => [(k, v)]
  | (k', v') :: m => if k == k' then (k, v) :: m else (k', v') :: index_map_insert k v m
  end.
Definition index_map_extend {V} (m more : list (str * V)) : list (str * V) :=
  foldl (λ m e, index_map_insert e.1 e.2 m) m more.
Definition index_map_get {V} (k : str) (m : list (str * V)) : option V :=
  snd <$> find (λ e, e.1 == k) m.

Definition action_is_empty (a : NetworkMitmActionToml) : bool :=
  is_empty (at_strip_request_headers a) && is_empty (at_inject_request_headers a).

Definition injected_to_runtime (i : NetworkMitmInjectedHeaderToml) : InjectedHeaderConfig :=
  mkInjected (it_name i) (it_secret_env_var i) (it_secret_file i) (it_prefix i).

(** The first action without an operation, then the first hook without an action. *)
Definition validate_action_definitions (m : NetworkMitmToml) : result str unit :=
  match find (λ e, action_is_empty e.2) (default [] (mt_actions m)) with
  | Some (action_name, _) =>
      Err (lit "network.mitm.actions." ++ action_name ++ lit " must define at least one operation")
  | None =>
      match mt_hooks m with
      | None => Ok ()
      | Some hooks =>
          match find (λ e, is_empty (ht_action e.2)) hooks with
          | Some (hook_name, _) =>
              Err (lit "network.mitm.hooks." ++ hook_name ++ lit ".action must not be empty")
          | None => Ok ()
          end
      end
  end.

Definition undefined_action (actions_by_name : list (str * NetworkMitmActionToml))
    (e : str * NetworkMitmHookToml) : option (str * str) :=
  (λ a, (e.1, a)) <$> find (λ a, negb (opt_is_some (index_map_get a actions_by_name))) (ht_action e.2).

Definition validate_action_references (m : NetworkMitmToml)
    (actions_by_name : list (str * NetworkMitmActionToml)) : result str unit :=
  _ ← validate_action_definitions m;
  match find_map (undefined_action actions_by_name) (default [] (mt_hooks m)) with
  | Some (hook_name, action_name) =>
      Err (lit "network.mitm.hooks." ++ hook_name ++ lit ".action references undefined action `"
           ++ action_name ++ lit "`")
  | None => Ok ()
  end.

Definition no_actions : MitmHookActionsConfig := mkActionsConfig [] [].
Definition add_action (selected : MitmHookActionsConfig) (a : NetworkMitmActionToml)
    : MitmHookActionsConfig :=
  mkActionsConfig (strip_request_headers selected ++ at_strip_request_headers a)
    (inject_request_headers selected ++ (injected_to_runtime <$> at_inject_request_headers a)).
Definition selected_actions (hook : NetworkMitmHookToml)
    (actions_by_name : option (list (str * NetworkMitmActionToml))) : MitmHookActionsConfig :=
  match actions_by_name with
  | None => no_actions
  | Some actions_by_name =>
      foldl add_action no_actions (omap (λ n, index_map_get n actions_by_name) (ht_action hook))
  end.

Definition hook_to_runtime (actions_by_name : option (list (str * NetworkMitmActionToml)))
    (hook : NetworkMitmHookToml) : MitmHookConfig :=
  mkHookConfig (ht_host hook)
    (mkMatchConfig (ht_methods hook) (ht_path_prefixes hook) (ht_query hook) (ht_headers hook) (ht_body hook))
    (selected_actions hook actions_by_name).
Definition to_runtime_hooks (m : NetworkMitmToml)
    (actions_by_name : option (list (str * NetworkMitmActionToml))) : list MitmHookConfig :=
  match mt_hooks m with
  | Some hooks => (λ e, hook_to_runtime actions_by_name e.2) <$> hooks
  | None => []
  end.

Definition toml_domain_permission (p : NetworkDomainPermissionToml) : NetworkDomainPermission :=
  match p with DomainTomlAllow => PermAllow | DomainTomlDeny => PermDeny end.
Definition overlay_network_domain_permissions (ds : NetworkDomainPermissionsToml) (d : Domains) : Domains :=
  foldl (λ d e, upsert_domain_permission e.1 (toml_domain_permission e.2) normalize_host d) d ds.

Definition toml_socket_permission (p : NetworkUnixSocketPermissionToml) : NetworkUnixSocketPermission :=
  match p with SocketTomlAllow => SocketAllow | SocketTomlDeny => SocketDeny end.
Definition overlay_unix_sockets (us : NetworkUnixSocketPermissionsToml) (u : UnixSockets) : UnixSockets :=
  let l := foldl (λ m e, btree_insert e.1 (toml_socket_permission e.2) m) (default [] u) us in
  if is_empty l then None else Some l.

(** The hooks of a table replace those of the configuration. *)
Definition apply_to_network_proxy_config (n : NetworkToml) (config : NetworkProxySettings)
    : NetworkProxySettings :=
  let mode := default (mode config) (nt_mode n) in
  let hooks := match nt_mitm n with
               | Some m => to_runtime_hooks m (mt_actions m)
               | None => mitm_hooks config
               end in
  mkSettings
    (default (enabled config) (nt_enabled n))
    (default (proxy_url config) (nt_proxy_url n))
    (default (enable_socks5 config) (nt_enable_socks5 n))
    (default (socks_url config) (nt_socks_url n))
    (default (enable_socks5_udp config) (nt_enable_socks5_udp n))
    (default (allow_upstream_proxy config) (nt_allow_upstream_proxy n))
    (default (dangerously_allow_non_loopback_proxy config) (nt_dangerously_allow_non_loopback_proxy n))
    (default (dangerously_allow_all_unix_sockets config) (nt_dangerously_allow_all_unix_sockets n))
    mode
    (match nt_domains n with
     | Some ds => overlay_network_domain_permissions ds (domains config)
     | None => domains config
     end)
    (match nt_unix_sockets n with
     | Some us => overlay_unix_sockets us (unix_sockets config)
     | None => unix_sockets config
     end)
    (default (allow_local_binding config) (nt_allow_local_binding n))
    (bool_decide (mode = Limited) || negb (is_empty hooks))
    hooks.

(** ** The loader (network_proxy_loader.rs) *)

Record NetworkConfigAccumulator := mkAccumulator {
  acc_config : NetworkProxySettings;
  acc_mitm_hooks : list (str * NetworkMitmHookToml);
  acc_mitm_actions : list (str * NetworkMitmActionToml);
}.
Definition accumulator_default : NetworkConfigAccumulator := mkAccumulator default_settings [] [].

Definition without_mitm (n : NetworkToml) : NetworkToml :=
  mkNetworkToml (nt_enabled n) (nt_proxy_url n) (nt_enable_socks5 n) (nt_socks_url n)
    (nt_enable_socks5_udp n) (nt_allow_upstream_proxy n) (nt_dangerously_allow_non_loopback_proxy n)
    (nt_dangerously_allow_all_unix_sockets n) (nt_mode n) (nt_domains n) (nt_unix_sockets n)
    (nt_allow_local_binding n) None.

Definition apply_network (n : NetworkToml) (a : NetworkConfigAccumulator) : NetworkConfigAccumulator :=
  let config := apply_to_network_proxy_config (without_mitm n) (acc_config a) in
  match nt_mitm n with
  | Some m => mkAccumulator config
                (index_map_extend (acc_mitm_hooks a) (default [] (mt_hooks m)))
                (index_map_extend (acc_mitm_actions a) (default [] (mt_actions m)))
  | None => mkAccumulator config (acc_mitm_hooks a) (acc_mitm_actions a)
  end.

Definition set_mitm (on : bool) (hooks : list MitmHookConfig) (s : NetworkProxySettings) : NetworkProxySettings :=
  mkSettings (enabled s) (proxy_url s) (enable_socks5 s) (socks_url s) (enable_socks5_udp s)
    (allow_upstream_proxy s) (dangerously_allow_non_loopback_proxy s)
    (dangerously_allow_all_unix_sockets s) (mode s) (domains s) (unix_sockets s) (allow_local_binding s)
    on hooks.

Definition finish (a : NetworkConfigAccumulator) : result anyhow NetworkProxySettings :=
  hooks ← (if is_empty (acc_mitm_hooks a) then Ok (mitm_hooks (acc_config a))
           else
             let mitm := mkMitmToml (Some (acc_mitm_hooks a)) (Some (acc_mitm_actions a)) in
             _ ← map_err (λ e, [e]) (validate_action_references mitm (acc_mitm_actions a));
             Ok (to_runtime_hooks mitm (Some (acc_mitm_actions a))));
  Ok (set_mitm (bool_decide (mode (acc_config a) = Limited) || negb (is_empty hooks)) hooks (acc_config a)).

Definition upsert_network_domain (p : NetworkDomainPermission) (s : NetworkProxySettings) (host : str)
    : NetworkProxySettings :=
  set_domains (upsert_domain_permission host p normalize_host (domains s)) s.
Definition apply_exec_policy_network_rules (config : NetworkProxySettings) (exec_policy : Policy)
    : NetworkProxySettings :=
  let '(allowed, denied) := compiled_network_domains exec_policy in
  foldl (upsert_network_domain PermDeny) (foldl (upsert_network_domain PermAllow) config allowed) denied.

(** [network] is what [selected_network_from_tables] finds in the merged layers. *)
Definition config_from_layers (network : result anyhow (option NetworkToml)) (exec_policy : Policy)
    : result anyhow NetworkProxySettings :=
  network ← network;
  config ← finish (match network with
                   | Some n => apply_network n accumulator_default
                   | None => accumulator_default
                   end);
  Ok (apply_exec_policy_network_rules config exec_policy).

Definition constraints_default : NetworkProxyConstraints :=
  mkConstraints None None None None None None None None None None None.
Definition opt_set {A} (new old : option A) : option A := match new with Some _ => new | None => old end.

Definition apply_network_constraints (n : NetworkToml) (c : NetworkProxyConstraints) : NetworkProxyConstraints :=
  let '(allowed, denied) :=
    match nt_domains n with
    | Some ds =>
        let d := match c_allowed_domains c with
                 | Some l => set_domain_entries l PermAllow None
                 | None => None
                 end in
        let d := match c_denied_domains c with
                 | Some l => set_domain_entries l PermDeny d
                 | None => d
                 end in
        let d := overlay_network_domain_permissions ds d in
        (allowed_domains d, denied_domains d)
    | None => (c_allowed_domains c, c_denied_domains c)
    end in
  mkConstraints
    (opt_set (nt_enabled n) (c_enabled c))
    (opt_set (nt_mode n) (c_mode c))
    (opt_set (nt_allow_upstream_proxy n) (c_allow_upstream_proxy c))
    (opt_set (nt_dangerously_allow_non_loopback_proxy n) (c_dangerously_allow_non_loopback_proxy c))
    (opt_set (nt_dangerously_allow_all_unix_sockets n) (c_dangerously_allow_all_unix_sockets c))
    allowed (c_allowlist_expansion_enabled c)
    denied (c_denylist_expansion_enabled c)
    (opt_set (toml_allow_unix_sockets <$> nt_unix_sockets n) (c_allow_unix_sockets c))
    (opt_set (nt_allow_local_binding n) (c_allow_local_binding c)).

Section Sources.
Context `{NetOutside}.

(** [network] is the selection in the layers that users do not control. *)
Definition network_constraints_from_trusted_layers (network : result anyhow (option NetworkToml))
    : result anyhow NetworkProxyConstraints :=
  network ← network;
  Ok (match network with
      | Some n => apply_network_constraints n constraints_default
      | None => constraints_default
      end).

Definition enforce_trusted_constraints (trusted : result anyhow (option NetworkToml))
    (config : NetworkProxySettings) : result anyhow NetworkProxyConstraints :=
  constraints ← network_constraints_from_trusted_layers trusted;
  _ ← with_context (lit "network proxy constraints")
        (map_err into_anyhow (validate_policy_against_constraints config constraints));
  Ok constraints.

(** [build_config_state_with_mtimes], from the loaded layers and rules on. *)
Definition load_config_state (network trusted : result anyhow (option NetworkToml)) (exec_policy : Policy)
    : result anyhow ConfigState :=
  config ← config_from_layers network exec_policy;
  constraints ← enforce_trusted_constraints trusted config;
  build_config_state config constraints.

(** The modification times of the layers' files: now, and at the last load. *)
Definition needs_reload (layer_mtimes : list (option N * option N)) : bool :=
  any (λ '(now, recorded),
         match now, recorded with
         | Some new_mtime, Some old_mtime => (old_mtime <? new_mtime)%N
         | Some _, None => true
         | None, Some _ => true
         | None, None => false
         end) layer_mtimes.

Definition maybe_reload (layer_mtimes : list (option N * option N))
    (network trusted : result anyhow (option NetworkToml)) (exec_policy : Policy) : Reload :=
  if negb (needs_reload layer_mtimes) then Ok None
  else state ← load_config_state network trusted exec_policy; Ok (Some state).
Definition reload_now := load_config_state.

(** ** The specification of a session's proxy (network_proxy_spec.rs) *)

(** [NetworkConstraints] (config_requirements.rs). *)
Record NetworkConstraints := mkRequirements {
  rq_enabled : option bool;
  rq_http_port : option N;
  rq_socks_port : option N;
  rq_allow_upstream_proxy : option bool;
  rq_dangerously_allow_non_loopback_proxy : option bool;
  rq_dangerously_allow_all_unix_sockets : option bool;
  rq_domains : option NetworkDomainPermissionsToml;
  rq_managed_allowed_domains_only : option bool;
  rq_unix_sockets : option NetworkUnixSocketPermissionsToml;
  rq_allow_local_binding : option bool;
}.

Record NetworkProxySpec := mkProxySpec {
  base_config : NetworkProxySettings;
  requirements : option NetworkConstraints;
  spec_config : NetworkProxySettings;
  spec_constraints : NetworkProxyConstraints;
  hard_deny_allowlist_misses : bool;
}.

Definition managed_sandbox_active (p : PermissionProfile) : bool :=
  match p with ProfileManaged _ _ => true | _ => false end.
Definition managed_allowed_domains_only (r : NetworkConstraints) : bool :=
  default false (rq_managed_allowed_domains_only r).
Definition allowlist_expansion_enabled (p : PermissionProfile) (hard_deny : bool) : bool :=
  managed_sandbox_active p && negb hard_deny.
Definition denylist_expansion_enabled (p : PermissionProfile) : bool := managed_sandbox_active p.

Definition merge_domain_lists (managed user_entries : list str) : list str :=
  foldl (λ managed entry,
           if any (λ m, eq_ignore_ascii_case m entry) managed then managed else managed ++ [entry])
    managed user_entries.

Definition local_url (port : N) : str := lit "http://127.0.0.1:" ++ fmt_N port.

(** The part of [apply_requirements] on one of the two domain lists. *)
Definition apply_managed_list (p : NetworkDomainPermission) (expansion : bool) (managed : option (list str))
    (d : Domains) : Domains :=
  match managed with
  | Some managed =>
      set_domain_entries
        (if expansion then merge_domain_lists managed (default [] (domain_entries d p)) else managed) p d
  | None => d
  end.

Definition apply_requirements (config : NetworkProxySettings) (r : NetworkConstraints)
    (profile : PermissionProfile) (hard_deny : bool) : NetworkProxySettings * NetworkProxyConstraints :=
  let allow_expansion := allowlist_expansion_enabled profile hard_deny in
  let deny_expansion := denylist_expansion_enabled profile in
  let managed_allowed := rq_domains r ≫= toml_allowed_domains in
  let managed_allowed := if hard_deny then Some (default [] managed_allowed) else managed_allowed in
  let managed_denied := rq_domains r ≫= toml_denied_domains in
  let sockets := toml_allow_unix_sockets <$> rq_unix_sockets r in
  (mkSettings
     (default (enabled config) (rq_enabled r))
     (default (proxy_url config) (local_url <$> rq_http_port r))
     (enable_socks5 config)
     (default (socks_url config) (local_url <$> rq_socks_port r))
     (enable_socks5_udp config)
     (default (allow_upstream_proxy config) (rq_allow_upstream_proxy r))
     (default (dangerously_allow_non_loopback_proxy config) (rq_dangerously_allow_non_loopback_proxy r))
     (default (dangerously_allow_all_unix_sockets config) (rq_dangerously_allow_all_unix_sockets r))
     (mode config)
     (apply_managed_list PermDeny deny_expansion managed_denied
        (apply_managed_list PermAllow allow_expansion managed_allowed (domains config)))
     (match sockets with
      | Some l => set_unix_socket_entries l SocketAllow (unix_sockets config)
      | None => unix_sockets config
      end)
     (default (allow_local_binding config) (rq_allow_local_binding r))
     (mitm config) (mitm_hooks config),
   mkConstraints (rq_enabled r) None (rq_allow_upstream_proxy r)
     (rq_dangerously_allow_non_loopback_proxy r) (rq_dangerously_allow_all_unix_sockets r)
     managed_allowed ((λ _, allow_expansion) <$> managed_allowed)
     managed_denied ((λ _, deny_expansion) <$> managed_denied)
     sockets (rq_allow_local_binding r)).

(** The text of an error: its outermost message. *)
Definition fmt_anyhow (e : anyhow) : str := default [] (head e).
Definition check_constraints (config : NetworkProxySettings) (c : NetworkProxyConstraints) : result str unit :=
  map_err (λ e, lit "network proxy constraints are invalid: " ++ fmt_anyhow (into_anyhow e))
    (validate_policy_against_constraints config c).

Definition from_config_and_constraints (config : NetworkProxySettings)
    (requirements : option NetworkConstraints) (profile : PermissionProfile) : result str NetworkProxySpec :=
  let hard_deny := match requirements with Some r => managed_allowed_domains_only r | None => false end in
  let '(effective, constraints) :=
    match requirements with
    | Some r => apply_requirements config r profile hard_deny
    | None => (config, constraints_default)
    end in
  _ ← check_constraints effective constraints;
  Ok (mkProxySpec config requirements effective constraints hard_deny).

Definition recompute_for_permission_profile (s : NetworkProxySpec) (profile : PermissionProfile)
    : result str NetworkProxySpec :=
  from_config_and_constraints (base_config s) (requirements s) profile.

(** [HashSet::insert]: the first occurrence of each host. *)
Fixpoint first_occurrences (seen : list str) (hosts : list str) : list str :=
  match hosts with
  | [] => []
  | h :: hosts =>
      if any (str_eqb h) seen then first_occurrences seen hosts
      else h :: first_occurrences (h :: seen) hosts
  end.
Definition upsert_network_domains (p : NetworkDomainPermission) (config : NetworkProxySettings)
    (hosts : list str) : NetworkProxySettings :=
  foldl (upsert_network_domain p) config (first_occurrences [] hosts).

Definition with_exec_policy_network_rules (s : NetworkProxySpec) (exec_policy : Policy)
    : result str NetworkProxySpec :=
  let '(allowed, denied) := compiled_network_domains exec_policy in
  let config := upsert_network_domains PermDeny
                  (upsert_network_domains PermAllow (spec_config s) allowed) denied in
  _ ← check_constraints config (spec_constraints s);
  Ok (mkProxySpec (base_config s) (requirements s) config (spec_constraints s) (hard_deny_allowlist_misses s)).

Definition build_config_state_for_spec (s : NetworkProxySpec) : result str ConfigState :=
  map_err (λ e, lit "failed to build network proxy state: " ++ fmt_anyhow e)
    (build_config_state (spec_config s) (spec_constraints s)).

(** [StaticNetworkProxyReloader]. *)
Definition static_maybe_reload (state : ConfigState) : Reload := Ok None.
Definition static_reload_now (state : ConfigState) : result anyhow ConfigState := Ok state.

(** ** Every state is built for its constraints *)

(** The specifications of a session. *)
Inductive spec_made : NetworkProxySpec → Prop :=
| made_new config r profile s : from_config_and_constraints config r profile = Ok s → spec_made s
| made_profile s profile s' : spec_made s → recompute_for_permission_profile s profile = Ok s' → spec_made s'
| made_rules s exec_policy s' : spec_made s → with_exec_policy_network_rules s exec_policy = Ok s' → spec_made s'.

(** The states that the loader and the specifications build. *)
Inductive host_built : ConfigState → Prop :=
| built_by_loader network trusted exec_policy s :
    load_config_state network trusted exec_policy = Ok s → host_built s
| built_by_spec spec s : spec_made spec → build_config_state_for_spec spec = Ok s → host_built s.

Lemma built_consistent cfg c s :
  validate_policy_against_constraints cfg c = Ok () → build_config_state cfg c = Ok s → consistent s.
Proof.
  intros Hv (Hc & Hk & Hb & Hd & Ha)%build_config_state_Ok. split; rewrite ?Hc, ?Hk, ?Hb; try done.
  unfold MAX_BLOCKED_EVENTS. cbn. lia.
Qed.

Lemma spec_made_valid s :
  spec_made s → validate_policy_against_constraints (spec_config s) (spec_constraints s) = Ok ().
Proof.
  assert (∀ config r profile s', from_config_and_constraints config r profile = Ok s' →
    validate_policy_against_constraints (spec_config s') (spec_constraints s') = Ok ()) as Hnew.
  { intros config r profile s'. unfold from_config_and_constraints. case_match.
    intros ([] & Hv%map_err_Ok & [= <-])%bind_Ok. done. }
  intros [config r profile s' Hs|s0 profile s' _ Hs|s0 exec_policy s' _ Hs]; [by eapply Hnew|by eapply Hnew|].
  revert Hs. unfold with_exec_policy_network_rules. case_match.
  by intros ([] & Hv%map_err_Ok & [= <-])%bind_Ok.
Qed.

Lemma host_built_consistent s : host_built s → consistent s.
Proof.
  intros [network trusted exec_policy s' Hs|spec s' Hspec Hs].
  - revert Hs. unfold load_config_state, enforce_trusted_constraints.
    intros (config & _ & (c & (c0 & _ & ([] & Hv%map_err_Ok%map_err_Ok & [= <-])%bind_Ok)%bind_Ok & Hb)%bind_Ok)%bind_Ok.
    by eapply built_consistent.
  - apply map_err_Ok in Hs. eapply built_consistent; [|exact Hs]. by apply spec_made_valid.
Qed.

(** ** The shared state *)

(** What a reload answers, and the states that operations bring in. *)
Definition reload_built (ans : Reload) : Prop := ∀ s, ans = Ok (Some s) → host_built s.
Definition op_built (op : Operation) : Prop :=
  match op with
  | OpReplace s => host_built s
  | OpForce (Ok s) => host_built s
  | _ => True
  end.

Inductive host_step : ConfigState * list Task → ConfigState * list Task → Prop :=
| host_spawn s ts op : op_built op → host_step (s, ts) (s, ts ++ [TStart op])
| host_task s ts i t ans s' t' :
    ts !! i = Some t → reload_built ans → task_step ans s t = (s', t') →
    host_step (s, ts) (s', <[i := t']> ts).

Lemma op_built_ok op : op_built op → op_ok op.
Proof. destruct op as [| | |[]| | |]; try done; apply host_built_consistent. Qed.

(** C29: the shared state of the proxy is always one its managed constraints permit.
    Let a proxy be started with a state that the loader or a session's specification
    built, from whatever configuration, rules and requirements.  Then, whatever the
    interleaving of requests, changes of the mode and of the domain lists, and reloads
    and replacements by other states that the loader or specifications build, the
    shared state has the glob sets of its own configuration, a configuration that its
    managed constraints permit, and at most 200 recorded requests. *)
Theorem shared_state_consistent (s s' : ConfigState) (ts : list Task) :
  host_built s → rtc host_step (s, []) (s', ts) → consistent s'.
Proof.
  intros Hs Hr.
  assert (∀ p q : ConfigState * list Task, rtc host_step p q →
    consistent p.1 ∧ Forall task_ok p.2 → consistent q.1 ∧ Forall task_ok q.2) as Hinv.
  { clear. induction 1 as [|p q r Hstep _ IH]; [done|]. intros [Hs Ht]. apply IH. clear IH.
    destruct Hstep as [s ts op Hop|s ts i t ans s' t' Hi Ha Hstep]; cbn in *.
    - split; [done|]. apply Forall_app. split; [done|]. constructor; [by apply op_built_ok|constructor].
    - assert (reload_ok ans) as Ha' by (intros n Hn; by apply host_built_consistent, Ha).
      destruct (task_step_ok _ _ _ _ _ Ha' Hs (proj1 (Forall_lookup _ _) Ht _ _ Hi) Hstep) as [H1 H2].
      split; [done|]. by apply Forall_insert. }
  apply (Hinv _ _ Hr). split; [by apply host_built_consistent|constructor].
Qed.
End Sources.

(** ** Examples *)

#[local] Existing Instance demo_net.

(** Requirements that pin the allowlist: the user's own entry is dropped. *)
Definition demo_requirements : NetworkConstraints :=
  mkRequirements (Some true) None None None None None (Some [(lit "example.com", DomainTomlAllow)]) (Some true)
    None (Some false).
Definition demo_spec : result str NetworkProxySpec :=
  from_config_and_constraints (demo_config (Some [mkEntry (lit "other.org") PermAllow]))
    (Some demo_requirements) ProfileDisabled.

Example demo_spec_pinned :
  match demo_spec with
  | Ok s => allowed_domains (domains (spec_config s)) = Some [lit "example.com"]
            ∧ hard_deny_allowlist_misses s = true
  | Err _ => False
  end.
Proof. by_compute. Qed.

(** A rule that allows another host is then refused. *)
Example demo_rules_refused s exec_policy :
  demo_spec = Ok s → compiled_network_domains exec_policy = ([lit "other.org"], []) →
  ∃ e, with_exec_policy_network_rules s exec_policy = Err e.
Proof.
  intros Hs Hp. unfold with_exec_policy_network_rules. rewrite Hp.
  vm_compute in Hs. injection Hs as <-. eexists. vm_compute. reflexivity.
Qed.

Definition demo_built : result str ConfigState := s ← demo_spec; build_config_state_for_spec s.

Lemma shared_state_consistent_witness :
  ∃ s ts, demo_built = Ok s ∧ rtc host_step (s, []) (s, ts) ∧ ts ≠ [] ∧ consistent s.
Proof.
  destruct demo_built as [s|e] eqn:Hs; [|vm_compute in Hs; discriminate Hs].
  exists s, [TRun OpRead].
  assert (rtc host_step (s, []) (s, [TRun OpRead])) as Hr.
  { eapply rtc_l; [apply (host_spawn s [] OpRead); exact I|]. apply rtc_once.
    apply (host_task s [TStart OpRead] 0 (TStart OpRead) (Ok None) s (TRun OpRead));
      [reflexivity|intros s' Hs'; discriminate Hs'|reflexivity]. }
  split; [reflexivity|]. split; [exact Hr|]. split; [discriminate|].
  apply (shared_state_consistent s s [TRun OpRead]); [|exact Hr].
  unfold demo_built in Hs. apply bind_Ok in Hs as (spec & Hspec & Hbuild).
  apply (built_by_spec spec s); [|exact Hbuild].
  exact (made_new _ _ _ _ Hspec).
Defined.
