(* ===== verification/Watch.v ===== *)
(** * tokio's [watch] channel

    A third-party primitive several components build on: the class [WatchChannel] with
    its documented behaviour as laws, and an executable instance. *)

From S2P Require Import Prelude.

(** A channel of [V]s as its sender sees it.  [version] counts the values made
    available; a receiver remembers the last version it has seen and [changed]
    resolves when the version has moved on. *)
Class WatchChannel (V W : Type) := {
  channel : V → W;
  value : W → V;
  version : W → N;
  receiver_count : W → nat;
  send : V → W → W;
  subscribe_rx : W → W;
  drop_rx : W → W;
}.
Arguments channel {V W _} _.
Arguments value {V W _} _.
Arguments send {V W _} _ _.
Arguments version {V} {W _} _.
Arguments receiver_count {V} {W _} _.
Arguments subscribe_rx {V} {W _} _.
Arguments drop_rx {V} {W _} _.

(** The documented behaviour: a value sent while no receiver exists is returned
    in the error and not made available to later receivers. *)
Class WatchLaws (V W : Type) `{!WatchChannel V W} : Prop := {
  channel_value b : value (channel b) = b;
  channel_receivers b : receiver_count (channel b) = 1;
  send_closed b w : receiver_count w = 0 → send b w = w;
  send_open b w : receiver_count w ≠ 0 →
    value (send b w) = b ∧ version (send b w) = (version w + 1)%N ∧
    receiver_count (send b w) = receiver_count w;
  subscribe_keeps w : value (subscribe_rx w) = value w ∧ version (subscribe_rx w) = version w;
  subscribe_count w : receiver_count (subscribe_rx w) = S (receiver_count w);
  drop_keeps w : value (drop_rx w) = value w ∧ version (drop_rx w) = version w;
  drop_count w : receiver_count (drop_rx w) = pred (receiver_count w);
}.

(** ** A concrete channel *)

Record Chan (V : Type) := mkChan { chan_value : V; chan_version : N; chan_receivers : nat }.
Arguments mkChan {V} _ _ _.
Arguments chan_value {V} _.
Arguments chan_version {V} _.
Arguments chan_receivers {V} _.

#[export] Instance chan_watch V : WatchChannel V (Chan V) := {
  channel b := mkChan b 0 1;
  value := chan_value;
  version := chan_version;
  receiver_count := chan_receivers;
  send b w :=
    if Nat.eqb (chan_receivers w) 0 then w
    else mkChan b (chan_version w + 1) (chan_receivers w);
  subscribe_rx w := mkChan (chan_value w) (chan_version w) (S (chan_receivers w));
  drop_rx w := mkChan (chan_value w) (chan_version w) (pred (chan_receivers w));
}.

#[export] Instance chan_laws V : WatchLaws V (Chan V).
Proof.
  split; simpl; try done.
  - by intros b w ->.
  - intros b w Hw. destruct (Nat.eqb_spec (chan_receivers w) 0); done.
Qed.
