(* ===== verification/Interact.v ===== *)
(** * Programs that interact

    Asynchronous functions call into other components, and each call may return
    anything the component chooses.  A [prog E A] is such a function: it returns, or
    makes a call [e : E X] and goes on with the answer.  The text of a [prog] reads
    like the code it models ([x ← call e; ...] is [.await], [x ←? m; ...] is
    [.await?]), and what it does is stated over all its [runs], that is for every
    answer of the components it calls. *)

From S2P Require Import Prelude.

Inductive prog (E : Set → Type) (A : Type) : Type :=
| Ret (a : A)
| Vis {X : Set} (e : E X) (k : X → prog E A).
Arguments Ret {E A} a.
Arguments Vis {E A X} e k.

Definition call {E : Set → Type} {X : Set} (e : E X) : prog E X := Vis e Ret.

Fixpoint prog_bind {E A B} (f : A → prog E B) (p : prog E A) : prog E B :=
  match p with
  | Ret a => f a
  | Vis e k => Vis e (λ x, prog_bind f (k x))
  end.

#[export] Instance prog_mret E : MRet (prog E) := λ A a, Ret a.
#[export] Instance prog_mbind E : MBind (prog E) := λ A B f p, prog_bind f p.

(** The [?] operator inside an asynchronous function. *)
Definition try_bind {E Er A B} (f : A → prog E (result Er B)) (p : prog E (result Er A))
    : prog E (result Er B) :=
  r ← p; match r with Ok a => f a | Err e => mret (Err e) end.
Notation "x ←? p ; q" := (try_bind (λ x, q) p)
  (at level 20, p at level 100, q at level 200, only parsing) : stdpp_scope.

(** ** Runs

    A trace lists the calls with their answers. *)
Inductive obs (E : Set → Type) : Type :=
| Obs {X : Set} (e : E X) (x : X).
Arguments Obs {E X} e x.

Inductive runs {E : Set → Type} {A : Type} : prog E A → list (obs E) → A → Prop :=
| runs_ret a : runs (Ret a) [] a
| runs_vis X (e : E X) k x tr a : runs (k x) tr a → runs (Vis e k) (Obs e x :: tr) a.

(** The weakest precondition of a program: [Q] holds of the trace and the result,
    whatever the answers. *)
Fixpoint wp {E A} (p : prog E A) (Q : list (obs E) → A → Prop) : Prop :=
  match p with
  | Ret a => Q [] a
  | Vis e k => ∀ x, wp (k x) (λ tr a, Q (Obs e x :: tr) a)
  end.

(** Execution against a component with a state. *)
Fixpoint exec {E A W} (h : ∀ X : Set, E X → W → W * X) (p : prog E A) (w : W) : W * list (obs E) * A :=
  match p with
  | Ret a => (w, [], a)
  | Vis e k =>
      let '(w1, x) := h _ e w in
      let '(w2, tr, a) := exec h (k x) w1 in (w2, Obs e x :: tr, a)
  end.

Section Laws.
Context {E : Set → Type}.

Lemma wp_runs {A} (p : prog E A) tr a Q : runs p tr a → wp p Q → Q tr a.
Proof.
  intros H. revert Q. induction H as [a | X e k x tr a H IH]; intros Q HQ.
  - exact HQ.
  - apply (IH (λ tr a, Q (Obs e x :: tr) a)), HQ.
Qed.

Lemma wp_mono {A} (p : prog E A) (Q R : list (obs E) → A → Prop) :
  (∀ tr a, Q tr a → R tr a) → wp p Q → wp p R.
Proof.
  revert Q R. induction p as [a | X e k IH]; intros Q R HQR H; [by apply HQR|].
  intros x. eapply IH; [| apply H]. intros tr a. apply HQR.
Qed.

Lemma wp_bind {A B} (p : prog E A) (f : A → prog E B) Q :
  wp p (λ tr a, wp (f a) (λ tr' b, Q (tr ++ tr') b)) → wp (p ≫= f) Q.
Proof. revert Q. induction p as [a | X e k IH]; intros Q H; [exact H|]. intros x. apply IH, H. Qed.

Lemma wp_all {A} (p : prog E A) (Q : list (obs E) → A → Prop) :
  (∀ tr a, runs p tr a → Q tr a) → wp p Q.
Proof.
  revert Q. induction p as [a | X e k IH]; intros Q H; [apply H; constructor|].
  intros x. apply IH. intros tr a Hr. apply H. by constructor.
Qed.

Lemma runs_exec {A W} (h : ∀ X : Set, E X → W → W * X) (p : prog E A) w w' tr a :
  exec h p w = (w', tr, a) → runs p tr a.
Proof.
  revert w w' tr a. induction p as [a0 | X e k IH]; intros w w' tr a; cbn [exec].
  - intros [= <- <- <-]. constructor.
  - destruct (h X e w) as [w1 x]. destruct (exec h (k x) w1) as [[w2 tr2] a2] eqn:He.
    intros [= <- <- <-]. constructor. by eapply IH.
Qed.

End Laws.
