(* ===== verification/NetworkApproval.v ===== *)
(** * Approval of network access (codex-rs/core/src/tools/network_approval.rs)

    The network proxy asks a decider about hosts that are not on its allowlist.  The
    decider is the session's [NetworkApprovalService]: it remembers the hosts that were
    approved or denied for the session, lets one request per host ask a hook, the
    reviewer or the user while the others wait for its answer, and records on the tool
    call that made the request that it was refused.

    An asynchronous function is a [prog] (Interact) whose calls are the sections under
    one lock and the questions to other components.  Requests run concurrently: the
    [Requests] section interleaves their calls in any order and lets the other
    components answer anything; a request may be dropped at any point, as when the
    client of the proxy disconnects.  The approval types of the protocol crate and
    core/src/network_policy_decision.rs come first. *)

From S2P Require Import Prelude RustStr AbsPath Permissions ReadDeny PolicyTransforms ExecPolicy ExecApproval.
From S2P Require Import Truncate NetworkPolicy NetworkProxy Interact.

Local Open Scope rstr_scope.

(** ** Decisions (protocol/src/approvals.rs, protocol.rs, network_policy.rs) *)

Inductive NetworkApprovalProtocol := ApHttp | ApHttps | ApSocks5Tcp | ApSocks5Udp.
#[export] Instance NetworkApprovalProtocol_eq_dec : EqDecision NetworkApprovalProtocol.
Proof. solve_decision. Defined.

Record NetworkApprovalContext := mkNetworkContext {
  nac_host : str;
  nac_protocol : NetworkApprovalProtocol;
}.

Inductive NetworkPolicyRuleAction := RuleAllow | RuleDeny.
Record NetworkPolicyAmendment := mkNetworkAmendment {
  npa_host : str;
  npa_action : NetworkPolicyRuleAction;
}.

Inductive ReviewDecision :=
| Approved
| ApprovedExecpolicyAmendment (amendment : ExecPolicyAmendment)
| ApprovedForSession
| AmendNetworkPolicy (amendment : NetworkPolicyAmendment)
| ReviewDenied
| TimedOut
| ReviewAborted.

(** [PermissionRequestDecision] (hooks/src/events/permission_request.rs) *)
Inductive PermissionRequestDecision := HookAllow | HookDeny (message : str).

(** [NetworkPolicyDecisionPayload] (protocol/src/network_policy.rs) *)
Record NetworkPolicyDecisionPayload := mkDecisionPayload {
  pd_decision : NetworkPolicyDecision;
  pd_source : NetworkDecisionSource;
  pd_protocol : option NetworkApprovalProtocol;
  pd_host : option str;
  pd_reason : option str;
  pd_port : option N;
}.
Definition is_ask_from_decider (p : NetworkPolicyDecisionPayload) : bool :=
  match pd_decision p, pd_source p with PolicyAsk, Decider => true | _, _ => false end.

(** ** Errors of tools (protocol/src/error.rs, core/src/tools/sandboxing.rs)

    [CodexErr] has some forty variants; all but the sandbox errors are carried by the
    text they display. *)

Record ExecToolCallOutput := mkExecOutput {
  exit_code : Z;
  out_stdout : str;
  out_stderr : str;
  aggregated_output : str;
  duration : N;
  timed_out : bool;
}.

Inductive SandboxErr :=
| SandboxDenied (output : ExecToolCallOutput) (network_policy_decision : option NetworkPolicyDecisionPayload)
| SeccompInstall (message : str)
| SeccompBackend (message : str)
| SandboxTimeout (output : ExecToolCallOutput)
| SandboxSignal (signal : Z)
| LandlockRestrict.
Inductive CodexErr := CodexSandbox (e : SandboxErr) | CodexOther (message : str).
Inductive ToolError := Rejected (message : str) | Codex (e : CodexErr).

(** ** core/src/network_policy_decision.rs *)

Definition parse_network_policy_decision (value : str) : option NetworkPolicyDecision :=
  if value == lit "deny" then Some PolicyDeny
  else if value == lit "ask" then Some PolicyAsk else None.

Definition network_approval_context_from_payload (payload : NetworkPolicyDecisionPayload)
    : option NetworkApprovalContext :=
  if negb (is_ask_from_decider payload) then None
  else
    protocol ← pd_protocol payload;
    host ← pd_host payload;
    let host := trim host in
    if is_empty host then None else Some (mkNetworkContext host protocol).

Definition block_detail (reason : str) : str :=
  if reason == lit "denied"
  then lit "domain is explicitly denied by policy and cannot be approved from this prompt"
  else if reason == lit "not_allowed"
  then lit "domain is not on the allowlist for the current sandbox mode"
  else if reason == lit "not_allowed_local"
  then lit "local/private network addresses are blocked by the sandbox policy"
  else if reason == lit "method_not_allowed"
  then lit "request method is blocked by the current network mode"
  else if reason == lit "proxy_disabled" then lit "network proxy is disabled"
  else lit "request is blocked by network policy".

Definition denied_network_policy_message (blocked : BlockedRequest) : option str :=
  match b_decision blocked ≫= parse_network_policy_decision with
  | Some PolicyDeny =>
      let host := trim (b_host blocked) in
      if is_empty host then Some (lit "Network access was blocked by policy.")
      else Some (lit "Network access to " ++ dquote ++ host ++ dquote ++ lit " was blocked: " ++
                 block_detail (b_reason blocked) ++ lit ".")
  | _ => None
  end.

Record ExecPolicyNetworkRuleAmendment := mkRuleAmendment {
  era_protocol : NetworkRuleProtocol;
  era_decision : Decision;
  era_justification : str;
}.

Definition execpolicy_network_rule_amendment (amendment : NetworkPolicyAmendment)
    (ctx : NetworkApprovalContext) (host : str) : ExecPolicyNetworkRuleAmendment :=
  let protocol :=
    match nac_protocol ctx with
    | ApHttp => ExecPolicy.Http | ApHttps => ExecPolicy.Https
    | ApSocks5Tcp => ExecPolicy.Socks5Tcp | ApSocks5Udp => ExecPolicy.Socks5Udp
    end in
  let '(decision, action_verb) :=
    match npa_action amendment with
    | RuleAllow => (ExecPolicy.Allow, lit "Allow")
    | RuleDeny => (ExecPolicy.Forbidden, lit "Deny")
    end in
  let protocol_label :=
    match nac_protocol ctx with
    | ApHttp => lit "http" | ApHttps => lit "https_connect"
    | ApSocks5Tcp => lit "socks5_tcp" | ApSocks5Udp => lit "socks5_udp"
    end in
  mkRuleAmendment protocol decision
    (action_verb ++ lit " " ++ protocol_label ++ lit " access to " ++ host).

(** ** The state of the service *)

Inductive NetworkApprovalMode := Immediate | Deferred.

(** [GuardianNetworkAccessTrigger] (core/src/guardian/approval_request.rs) *)
Record GuardianNetworkAccessTrigger := mkTrigger {
  tr_call_id : str;
  tr_tool_name : str;
  tr_command : list str;
  tr_cwd : str;
  tr_sandbox_permissions : SandboxPermissions;
  tr_additional_permissions : option AdditionalPermissionProfile;
  tr_justification : option str;
  tr_tty : option bool;
}.

(** Of the proxy the specification only asks whether there is one. *)
Record NetworkApprovalSpec := mkSpec {
  spec_network : bool;
  spec_mode : NetworkApprovalMode;
  spec_trigger : GuardianNetworkAccessTrigger;
  spec_command : str;
}.

Record HostApprovalKey := mkKey {
  k_host : str;
  k_protocol : str;
  k_port : N;
}.
#[export] Instance HostApprovalKey_eq_dec : EqDecision HostApprovalKey.
Proof. solve_decision. Defined.
#[export] Program Instance HostApprovalKey_countable : Countable HostApprovalKey :=
  inj_countable' (λ k, (k_host k, k_protocol k, k_port k)) (λ '(h, p, n), mkKey h p n) _.
Next Obligation. by intros [h p n]. Qed.

Definition protocol_key_label (p : NetworkApprovalProtocol) : str :=
  match p with
  | ApHttp => lit "http" | ApHttps => lit "https"
  | ApSocks5Tcp => lit "socks5-tcp" | ApSocks5Udp => lit "socks5-udp"
  end.
Definition from_request (request : NetworkPolicyRequest) (protocol : NetworkApprovalProtocol)
    : HostApprovalKey :=
  mkKey (to_ascii_lowercase <$> q_host request) (protocol_key_label protocol) (q_port request).

Inductive PendingApprovalDecision := AllowOnce | AllowForSession | DenyPending.
Definition deny (reason : str) : NetworkDecision := deny_with_source reason Decider.
Definition REASON_NOT_ALLOWED : str := lit "not_allowed".
Definition to_network_decision (d : PendingApprovalDecision) : NetworkDecision :=
  match d with
  | AllowOnce | AllowForSession => NetworkProxy.Allow
  | DenyPending => deny (lit "not_allowed")
  end.

Inductive NetworkApprovalOutcome := DeniedByUser | DeniedByPolicy (message : str).
Definition network_approval_outcome_to_result (o : option NetworkApprovalOutcome)
    : result ToolError unit :=
  match o with
  | Some DeniedByUser => Err (Rejected (lit "rejected by user"))
  | Some (DeniedByPolicy message) => Err (Rejected message)
  | None => Ok ()
  end.

(** [PendingHostApproval]: the decision, and how often [notify_waiters] was called,
    which is what a [Notified] future compares with the count at its creation. *)
Record PendingHostApproval := mkPending {
  p_decision : option PendingApprovalDecision;
  p_notified : nat;
}.
Definition pending_new : PendingHostApproval := mkPending None 0.

Record ActiveNetworkApprovalCall := mkActiveCall {
  ac_registration_id : str;
  ac_turn_id : str;
  ac_trigger : GuardianNetworkAccessTrigger;
  ac_command : str;
}.

(** [IndexMap]: insertion order, an insertion of a present key keeps its place. *)
Record NetworkApprovalCallState := mkCalls {
  active_calls : list (str * ActiveNetworkApprovalCall);
  call_outcomes : gmap (list N) NetworkApprovalOutcome;
}.
Fixpoint index_insert {V} (k : str) (v : V) (m : list (str * V)) : list (str * V) :=
  match m with
  | [] => [(k, v)]
  | (k', v') :: m => if k == k' then (k, v) :: m else (k', v') :: index_insert k v m
  end.
Definition shift_remove {V} (k : str) (m : list (str * V)) : list (str * V) :=
  List.filter (λ e, negb (e.1 == k)) m.
Definition index_get {V} (k : str) (m : list (str * V)) : option V :=
  snd <$> find (λ e, e.1 == k) m.

(** [pendings] are the allocated [PendingHostApproval]s; an [Arc] is an index.  A
    cancellation token is named by the registration it was created for. *)
Record NetworkApprovalService := mkService {
  calls : NetworkApprovalCallState;
  pending_host_approvals : gmap HostApprovalKey nat;
  session_approved_hosts : gset HostApprovalKey;
  session_denied_hosts : gset HostApprovalKey;
  pendings : list PendingHostApproval;
  cancelled : gset (list N);
}.
Definition service_default : NetworkApprovalService := mkService (mkCalls [] ∅) ∅ ∅ ∅ [] ∅.

Definition with_calls (f : NetworkApprovalCallState → NetworkApprovalCallState)
    (s : NetworkApprovalService) : NetworkApprovalService :=
  mkService (f (calls s)) (pending_host_approvals s) (session_approved_hosts s)
    (session_denied_hosts s) (pendings s) (cancelled s).
Definition with_pending (f : gmap HostApprovalKey nat → gmap HostApprovalKey nat)
    (s : NetworkApprovalService) : NetworkApprovalService :=
  mkService (calls s) (f (pending_host_approvals s)) (session_approved_hosts s)
    (session_denied_hosts s) (pendings s) (cancelled s).
Definition with_approved (f : gset HostApprovalKey → gset HostApprovalKey)
    (s : NetworkApprovalService) : NetworkApprovalService :=
  mkService (calls s) (pending_host_approvals s) (f (session_approved_hosts s))
    (session_denied_hosts s) (pendings s) (cancelled s).
Definition with_denied (f : gset HostApprovalKey → gset HostApprovalKey)
    (s : NetworkApprovalService) : NetworkApprovalService :=
  mkService (calls s) (pending_host_approvals s) (session_approved_hosts s)
    (f (session_denied_hosts s)) (pendings s) (cancelled s).
Definition with_pendings (f : list PendingHostApproval → list PendingHostApproval)
    (s : NetworkApprovalService) : NetworkApprovalService :=
  mkService (calls s) (pending_host_approvals s) (session_approved_hosts s)
    (session_denied_hosts s) (f (pendings s)) (cancelled s).
Definition cancel (registration_id : str) (s : NetworkApprovalService) : NetworkApprovalService :=
  mkService (calls s) (pending_host_approvals s) (session_approved_hosts s)
    (session_denied_hosts s) (pendings s) ({[registration_id]} ∪ cancelled s).

Definition sync_session_approved_hosts_to (self other : NetworkApprovalService) : NetworkApprovalService :=
  with_approved (λ _, session_approved_hosts self) other.

(** ** Operations under one lock *)

Definition register_call (registration_id turn_id : str) (trigger : GuardianNetworkAccessTrigger)
    (command : str) : NetworkApprovalService → NetworkApprovalService :=
  with_calls (λ c, mkCalls
    (index_insert registration_id (mkActiveCall registration_id turn_id trigger command) (active_calls c))
    (call_outcomes c)).

Definition resolve_single_active_call (s : NetworkApprovalService) : option ActiveNetworkApprovalCall :=
  match active_calls (calls s) with
  | [(_, c)] => Some c
  | _ => None
  end.

Definition get_or_create_pending_approval (key : HostApprovalKey) (s : NetworkApprovalService)
    : NetworkApprovalService * (nat * bool) :=
  match pending_host_approvals s !! key with
  | Some existing => (s, (existing, false))
  | None =>
      let created := length (pendings s) in
      (with_pending <[key := created]> (with_pendings (λ ps, ps ++ [pending_new]) s), (created, true))
  end.

(** [record_call_outcome] up to [drop(calls)]; it then cancels the token if [true]. *)
Definition set_call_outcome (registration_id : str) (outcome : NetworkApprovalOutcome)
    (s : NetworkApprovalService) : NetworkApprovalService * bool :=
  match index_get registration_id (active_calls (calls s)) with
  | None => (s, false)
  | Some _ =>
      match call_outcomes (calls s) !! registration_id with
      | Some DeniedByUser => (s, false)
      | _ => (with_calls (λ c, mkCalls (active_calls c) (<[registration_id := outcome]> (call_outcomes c))) s,
              true)
      end
  end.

Definition remove_call (registration_id : str) (s : NetworkApprovalService)
    : NetworkApprovalService * option NetworkApprovalOutcome :=
  (with_calls (λ c, mkCalls (shift_remove registration_id (active_calls c))
                      (delete registration_id (call_outcomes c))) s,
   call_outcomes (calls s) !! registration_id).
Definition unregister_call (registration_id : str) (s : NetworkApprovalService) : NetworkApprovalService :=
  (remove_call registration_id s).1.
Definition finish_call_outcome := remove_call.
Definition finish_call (registration_id : str) (s : NetworkApprovalService)
    : NetworkApprovalService * result ToolError unit :=
  let '(s, o) := finish_call_outcome registration_id s in (s, network_approval_outcome_to_result o).

Definition store_decision (n : nat) (d : PendingApprovalDecision) : NetworkApprovalService → NetworkApprovalService :=
  with_pendings (alter (λ p, mkPending (Some d) (p_notified p)) n).
Definition notify_waiters (n : nat) : NetworkApprovalService → NetworkApprovalService :=
  with_pendings (alter (λ p, mkPending (p_decision p) (S (p_notified p))) n).

(** ** The turn, and the calls of a request *)

Inductive ApprovalsReviewer := ReviewerUser | AutoReview.
#[export] Instance ApprovalsReviewer_eq_dec : EqDecision ApprovalsReviewer.
Proof. solve_decision. Defined.

(** What approvals use of [TurnContext]. *)
Record TurnContext := mkTurn {
  sub_id : str;
  turn_profile : PermissionProfile;
  turn_approval_policy : AskForApproval;
  approvals_reviewer : ApprovalsReviewer;
  turn_cwd : str;
}.

(** [guardian/src/review.rs] *)
Definition routes_approval_to_guardian_with_reviewer (turn : TurnContext) (reviewer : ApprovalsReviewer) : bool :=
  match turn_approval_policy turn with OnRequest | Granular _ _ _ _ _ => true | _ => false end &&
  bool_decide (reviewer = AutoReview).
Definition routes_approval_to_guardian (turn : TurnContext) : bool :=
  routes_approval_to_guardian_with_reviewer turn (approvals_reviewer turn).

Definition allows_network_approval_flow (policy : AskForApproval) : bool :=
  match policy with Never => false | _ => true end.
Definition permission_profile_allows_network_approval_flow (p : PermissionProfile) : bool :=
  match p with ProfileManaged _ _ => true | _ => false end.

(** [GuardianApprovalRequest::NetworkAccess] *)
Record NetworkAccess := mkNetworkAccess {
  na_id : str;
  na_turn_id : str;
  na_target : str;
  na_host : str;
  na_protocol : NetworkApprovalProtocol;
  na_port : N;
  na_trigger : option GuardianNetworkAccessTrigger;
}.

(** [Atomic] is a section under one lock (or one atomic access); [Notified n c] waits
    until pending approval [n] has been notified more than [c] times; the others are
    calls into the session, the hooks and the guardian, which may answer anything. *)
Inductive Ev : Set → Type :=
| Atomic {X : Set} (f : NetworkApprovalService → NetworkApprovalService * X) : Ev X
| Notified (n c : nat) : Ev unit
| ActiveTurnContext : Ev (option TurnContext)
| PermissionRequestHooks (run_id command description : str) : Ev (option PermissionRequestDecision)
| NewGuardianReviewId : Ev str
| ReviewApprovalRequest (review_id : str) (action : NetworkAccess) (retry_reason : option str) : Ev ReviewDecision
| RequestCommandApproval (call_id : str) (command : list str) (cwd : str) (reason : option str)
    (ctx : option NetworkApprovalContext) : Ev ReviewDecision
| PersistNetworkPolicyAmendment (a : NetworkPolicyAmendment) (ctx : NetworkApprovalContext) : Ev (result str unit)
| RecordAmendmentMessage (sub_id : str) (a : NetworkPolicyAmendment) : Ev unit
| SendWarning (sub_id message : str) : Ev unit
| GuardianRejectionMessage (review_id : str) : Ev str.

Definition update (f : NetworkApprovalService → NetworkApprovalService) : prog Ev unit :=
  call (Atomic (λ s, (f s, ()))).
Definition read {X : Set} (f : NetworkApprovalService → X) : prog Ev X := call (Atomic (λ s, (s, f s))).

Definition times_notified (n : nat) (s : NetworkApprovalService) : nat :=
  match pendings s !! n with Some p => p_notified p | None => 0 end.
Definition current_decision (n : nat) (s : NetworkApprovalService) : option PendingApprovalDecision :=
  match pendings s !! n with Some p => p_decision p | None => None end.

(** The loop of [wait_for_decision]; [None] when it is not done after [fuel] rounds. *)
Fixpoint wait_for_decision (fuel : nat) (n : nat) : prog Ev (option PendingApprovalDecision) :=
  match fuel with
  | 0 => mret None
  | S fuel =>
      notified ← read (times_notified n);
      decision ← read (current_decision n);
      match decision with
      | Some d => mret (Some d)
      | None => call (Notified n notified);; wait_for_decision fuel n
      end
  end.

Definition set_decision (n : nat) (d : PendingApprovalDecision) : prog Ev unit :=
  update (store_decision n d);; update (notify_waiters n).

Definition record_call_outcome (registration_id : str) (outcome : NetworkApprovalOutcome) : prog Ev unit :=
  recorded ← call (Atomic (set_call_outcome registration_id outcome));
  if recorded : bool then update (cancel registration_id) else mret ().

Definition record_outcome_for_single_active_call (outcome : NetworkApprovalOutcome) : prog Ev unit :=
  owner_call ← read resolve_single_active_call;
  match owner_call with
  | None => mret ()
  | Some owner_call => record_call_outcome (ac_registration_id owner_call) outcome
  end.

Definition record_blocked_request (blocked : BlockedRequest) : prog Ev unit :=
  match denied_network_policy_message blocked with
  | None => mret ()
  | Some message => record_outcome_for_single_active_call (DeniedByPolicy message)
  end.

Definition format_network_target (protocol host : str) (port : N) : str :=
  protocol ++ lit "://" ++ host ++ lit ":" ++ fmt_N port.
Definition approval_id_for_key (k : HostApprovalKey) : str :=
  lit "network#" ++ k_protocol k ++ lit "#" ++ k_host k ++ lit "#" ++ fmt_N (k_port k).

(** [guardian_timeout_message] *)
Definition guardian_timeout_message : str :=
  lit "The automatic permission approval review did not finish before its deadline. " ++
  lit "Do not assume the action is unsafe based on the timeout alone. " ++
  lit "You may retry once, or ask the user for guidance or explicit approval.".

Section Request.
Context (request : NetworkPolicyRequest).

Definition approval_protocol : NetworkApprovalProtocol :=
  match q_protocol request with
  | NetworkProxy.Http => ApHttp | HttpsConnect => ApHttps
  | NetworkProxy.Socks5Tcp => ApSocks5Tcp | NetworkProxy.Socks5Udp => ApSocks5Udp
  end.
Definition request_key : HostApprovalKey := from_request request approval_protocol.
Definition target : str := format_network_target (k_protocol request_key) (q_host request) (k_port request_key).
Definition policy_denial_message : str :=
  lit "Network access to " ++ dquote ++ target ++ dquote ++ lit " was blocked by policy.".
Definition prompt_reason : str := q_host request ++ lit " is not in the allowed_domains".
Definition network_context : NetworkApprovalContext := mkNetworkContext (q_host request) approval_protocol.

Definition remove_pending : prog Ev unit := update (with_pending (delete request_key)).

(** The three early exits of the owner. *)
Definition refuse_by_policy (pending : nat) : prog Ev (option NetworkDecision) :=
  set_decision pending DenyPending;;
  remove_pending;;
  record_outcome_for_single_active_call (DeniedByPolicy policy_denial_message);;
  mret (Some (deny REASON_NOT_ALLOWED)).

Definition apply_network_amendment (turn : TurnContext) (a : NetworkPolicyAmendment) : prog Ev unit :=
  persisted ← call (PersistNetworkPolicyAmendment a network_context);
  match persisted with
  | Ok _ => call (RecordAmendmentMessage (sub_id turn) a)
  | Err err => call (SendWarning (sub_id turn) (lit "Failed to apply network policy amendment: " ++ err))
  end.

Definition record_on (owner_call : option ActiveNetworkApprovalCall) (outcome : NetworkApprovalOutcome)
    : prog Ev unit :=
  match owner_call with
  | Some c => record_call_outcome (ac_registration_id c) outcome
  | None => mret ()
  end.

(** The reviewer or the user is asked. *)
Definition ask_for_review (turn : TurnContext) (owner_call : option ActiveNetworkApprovalCall)
    (guardian_review_id : option str) : prog Ev ReviewDecision :=
  match guardian_review_id with
  | Some review_id =>
      call (ReviewApprovalRequest review_id
        (mkNetworkAccess (approval_id_for_key request_key)
           (match owner_call with Some c => ac_turn_id c | None => sub_id turn end)
           target (q_host request) approval_protocol (k_port request_key) (ac_trigger <$> owner_call))
        (Some policy_denial_message))
  | None =>
      call (RequestCommandApproval (approval_id_for_key request_key) [lit "network-access"; target]
        (turn_cwd turn) (Some prompt_reason) (Some network_context))
  end.

(** The decision the answer stands for, and whether the refusal is remembered. *)
Definition resolve_review (turn : TurnContext) (owner_call : option ActiveNetworkApprovalCall)
    (guardian_review_id : option str) (approval_decision : ReviewDecision)
    : prog Ev (PendingApprovalDecision * bool) :=
  match approval_decision with
  | Approved | ApprovedExecpolicyAmendment _ => mret (AllowOnce, false)
  | ApprovedForSession => mret (AllowForSession, false)
  | AmendNetworkPolicy a =>
      match npa_action a with
      | RuleAllow => apply_network_amendment turn a;; mret (AllowForSession, false)
      | RuleDeny =>
          apply_network_amendment turn a;;
          record_on owner_call DeniedByUser;;
          mret (DenyPending, true)
      end
  | ReviewDenied | ReviewAborted =>
      match guardian_review_id, owner_call with
      | Some review_id, Some _ =>
          message ← call (GuardianRejectionMessage review_id);
          record_on owner_call (DeniedByPolicy message)
      | Some _, None => mret ()
      | None, _ => record_on owner_call DeniedByUser
      end;;
      mret (DenyPending, false)
  | TimedOut =>
      record_on owner_call (DeniedByPolicy guardian_timeout_message);;
      mret (DenyPending, false)
  end.

Definition remember (resolved : PendingApprovalDecision) (cache_session_deny : bool) : prog Ev unit :=
  match resolved with
  | AllowForSession =>
      update (with_denied (λ h, h ∖ {[request_key]}));;
      update (with_approved (λ h, {[request_key]} ∪ h))
  | _ => mret ()
  end;;
  if cache_session_deny then
    update (with_approved (λ h, h ∖ {[request_key]}));;
    update (with_denied (λ h, {[request_key]} ∪ h))
  else mret ().

Definition review (turn : TurnContext) (pending : nat) (owner_call : option ActiveNetworkApprovalCall)
    : prog Ev (option NetworkDecision) :=
  guardian_review_id ← (if routes_approval_to_guardian turn
                        then id ← call NewGuardianReviewId; mret (Some id) else mret None);
  approval_decision ← ask_for_review turn owner_call guardian_review_id;
  '(resolved, cache_session_deny) ← resolve_review turn owner_call guardian_review_id approval_decision;
  remember resolved cache_session_deny;;
  set_decision pending resolved;;
  remove_pending;;
  mret (Some (to_network_decision resolved)).

Definition decide_as_owner (pending : nat) : prog Ev (option NetworkDecision) :=
  turn_context ← call ActiveTurnContext;
  match turn_context with
  | None => refuse_by_policy pending
  | Some turn =>
      if negb (permission_profile_allows_network_approval_flow (turn_profile turn))
      then refuse_by_policy pending
      else if negb (allows_network_approval_flow (turn_approval_policy turn))
      then refuse_by_policy pending
      else
        owner_call ← read resolve_single_active_call;
        let command := match owner_call with
                       | Some c => ac_command c
                       | None => lit "network-access " ++ target
                       end in
        hooks ← call (PermissionRequestHooks (approval_id_for_key request_key) command
                        (lit "network-access " ++ target));
        match hooks with
        | Some HookAllow =>
            set_decision pending AllowOnce;; remove_pending;; mret (Some NetworkProxy.Allow)
        | Some (HookDeny message) =>
            record_on owner_call (DeniedByPolicy message);;
            set_decision pending DenyPending;; remove_pending;; mret (Some (deny REASON_NOT_ALLOWED))
        | None => review turn pending owner_call
        end
  end.

(** A request that found one pending waits for its decision. *)
Definition join_pending (pending : nat) : prog Ev (option NetworkDecision) :=
  decision ← wait_for_decision 2 pending; mret (option_map to_network_decision decision).

Definition handle_inline_policy_request : prog Ev (option NetworkDecision) :=
  denied ← read (λ s, bool_decide (request_key ∈ session_denied_hosts s));
  if denied : bool then mret (Some (deny REASON_NOT_ALLOWED)) else
  approved ← read (λ s, bool_decide (request_key ∈ session_approved_hosts s));
  if approved : bool then mret (Some NetworkProxy.Allow) else
  '(pending, is_owner) ← call (Atomic (get_or_create_pending_approval request_key));
  if is_owner : bool then decide_as_owner pending
  else join_pending pending.

End Request.

(** [build_network_policy_decider], whose session may be gone ([ask] is its error). *)
Definition network_policy_decider (session_alive : bool) (request : NetworkPolicyRequest)
    : prog Ev (option NetworkDecision) :=
  if session_alive then handle_inline_policy_request request
  else mret (Some (ask_with_source (lit "not_allowed") Decider)).

(** ** The calls of a tool attempt *)

Record ActiveNetworkApproval := mkActive {
  a_registration_id : option str;
  a_mode : NetworkApprovalMode;
}.

(** The [OnceCell] of a deferred approval is shared by its clones: it is empty or holds
    the outcome found by the first [finish]. *)
Record DeferredNetworkApproval := mkDeferred {
  d_registration_id : str;
  d_finish_outcome : option (option NetworkApprovalOutcome);
}.
Definition into_deferred (a : ActiveNetworkApproval) : option DeferredNetworkApproval :=
  match a_mode a, a_registration_id a with
  | Deferred, Some id => Some (mkDeferred id None)
  | _, _ => None
  end.

(** [fresh] is the new UUID. *)
Definition begin_network_approval (fresh turn_id : str) (managed_network_active : bool)
    (spec : option NetworkApprovalSpec) (s : NetworkApprovalService)
    : NetworkApprovalService * option ActiveNetworkApproval :=
  match spec with
  | None => (s, None)
  | Some spec =>
      if negb managed_network_active || negb (spec_network spec) then (s, None)
      else (register_call fresh turn_id (spec_trigger spec) (spec_command spec) s,
            Some (mkActive (Some fresh) (spec_mode spec)))
  end.

Definition finish_immediate_network_approval (a : ActiveNetworkApproval) (s : NetworkApprovalService)
    : NetworkApprovalService * result ToolError unit :=
  match a_registration_id a with
  | None => (s, Ok ())
  | Some id => finish_call id s
  end.

Definition deferred_finish (d : DeferredNetworkApproval) (s : NetworkApprovalService)
    : NetworkApprovalService * DeferredNetworkApproval * result ToolError unit :=
  match d_finish_outcome d with
  | Some outcome => (s, d, network_approval_outcome_to_result outcome)
  | None =>
      let '(s, outcome) := finish_call_outcome (d_registration_id d) s in
      (s, mkDeferred (d_registration_id d) (Some outcome), network_approval_outcome_to_result outcome)
  end.
Definition finish_deferred_network_approval (d : option DeferredNetworkApproval) (s : NetworkApprovalService)
    : NetworkApprovalService * result ToolError unit :=
  match d with
  | None => (s, Ok ())
  | Some d => let '(s, _, r) := deferred_finish d s in (s, r)
  end.

(** ** Concurrent requests *)

Definition asks {X : Set} (e : Ev X) : bool :=
  match e with Atomic _ | Notified _ _ => false | _ => true end.

Definition Task : Type := prog Ev (option NetworkDecision).

Inductive task_step : NetworkApprovalService → Task → NetworkApprovalService → obs Ev → Task → Prop :=
| step_atomic (X : Set) (f : NetworkApprovalService → NetworkApprovalService * X) k s :
    task_step s (Vis (Atomic f) k) (f s).1 (Obs (Atomic f) (f s).2) (k (f s).2)
| step_notified n c k s p :
    pendings s !! n = Some p → c < p_notified p →
    task_step s (Vis (Notified n c) k) s (Obs (Notified n c) ()) (k ())
| step_answer (X : Set) (e : Ev X) (x : X) k s :
    asks e = true → task_step s (Vis e k) s (Obs e x) (k x).

(** The service, what other components answered so far, the requests, what is left to
    do of each, and the ones whose future the proxy dropped: those do nothing more. *)
Record Pool := mkPool {
  service : NetworkApprovalService;
  answers : list (obs Ev);
  requests : list NetworkPolicyRequest;
  tasks : list Task;
  abandoned : gset nat;
}.

Inductive pool_step : Pool → Pool → Prop :=
| pool_task s l rs ts ab i p s' o p' :
    ts !! i = Some p → i ∉ ab → task_step s p s' o p' →
    pool_step (mkPool s l rs ts ab) (mkPool s' (l ++ [o]) rs (<[i := p']> ts) ab).

(** Between the steps of the requests calls start, finish and are refused, new requests
    arrive, and a request may be dropped wherever it is, as the proxy does when its
    client disconnects: what it did to the service stays. *)
Inductive outside_step : Pool → Pool → Prop :=
| outside_calls s l rs ts ab f :
    outside_step (mkPool s l rs ts ab) (mkPool (with_calls f s) l rs ts ab)
| outside_cancel s l rs ts ab id :
    outside_step (mkPool s l rs ts ab) (mkPool (cancel id s) l rs ts ab)
| outside_request s l rs ts ab r :
    outside_step (mkPool s l rs ts ab)
      (mkPool s l (rs ++ [r]) (ts ++ [handle_inline_policy_request r]) ab)
| outside_drop s l rs ts ab i :
    i < length ts → outside_step (mkPool s l rs ts ab) (mkPool s l rs ts ({[i]} ∪ ab)).

Definition any_step (σ σ' : Pool) : Prop := pool_step σ σ' ∨ outside_step σ σ'.
(** A service with remembered hosts, and no request yet. *)
Definition started (approved denied : gset HostApprovalKey) : Pool :=
  mkPool (mkService (mkCalls [] ∅) ∅ approved denied [] ∅) [] [] [] ∅.

(** *** Who approved what *)

Definition hook_allows (d : option PermissionRequestDecision) : bool :=
  match d with Some HookAllow => true | _ => false end.
Definition review_allows (d : ReviewDecision) : bool :=
  match d with
  | Approved | ApprovedExecpolicyAmendment _ | ApprovedForSession => true
  | AmendNetworkPolicy a => match npa_action a with RuleAllow => true | RuleDeny => false end
  | ReviewDenied | TimedOut | ReviewAborted => false
  end.
Definition decision_allows (d : PendingApprovalDecision) : bool :=
  match d with AllowOnce | AllowForSession => true | DenyPending => false end.

(** The question a call puts to a hook, the reviewer or the user: its approval id. *)
Definition question {X : Set} (e : Ev X) : option str :=
  match e with
  | PermissionRequestHooks id _ _ => Some id
  | ReviewApprovalRequest _ a _ => Some (na_id a)
  | RequestCommandApproval id _ _ _ _ => Some id
  | _ => None
  end.
Definition grants {X : Set} (e : Ev X) : X → bool :=
  match e in Ev X return X → bool with
  | PermissionRequestHooks _ _ _ => hook_allows
  | ReviewApprovalRequest _ _ _ => review_allows
  | RequestCommandApproval _ _ _ _ _ => review_allows
  | _ => λ _, false
  end.
Definition approves (o : obs Ev) (id : str) : Prop :=
  match o with Obs e x => question e = Some id ∧ grants e x = true end.

(** ** The invariant of the pool

    Each request has a ghost state that says how far it is; a step of the request is
    one of the transitions of [guar], and those keep the invariant. *)

Inductive phase :=
| Asking (granted : bool)
| Stored (d : PendingApprovalDecision)
| Signalled (d : PendingApprovalDecision).
Inductive ghost :=
| GStart
| GJoined (n : nat)
| GSubscribed (n c : nat)
| GBlocked (n : nat)
| GWoken (n : nat)
| GOwner (n : nat) (ph : phase)
| GDone (allowed : bool).

Definition cell_of (ph : phase) : PendingHostApproval :=
  match ph with
  | Asking _ => pending_new
  | Stored d => mkPending (Some d) 0
  | Signalled d => mkPending (Some d) 1
  end.
Definition granted_in (ph : phase) : bool :=
  match ph with Asking b => b | Stored d | Signalled d => decision_allows d end.

Section Invariant.
Context (initially : gset HostApprovalKey).

Definition evidence (k : HostApprovalKey) (l : list (obs Ev)) : Prop :=
  k ∈ initially ∨ List.Exists (λ o, approves o (approval_id_for_key k)) l.

(** What a request with key [k] knows; [ck] lists the keys of the pending approvals. *)
Definition local (k : HostApprovalKey) (g : ghost) (s : NetworkApprovalService) (l : list (obs Ev))
    (ck : list HostApprovalKey) : Prop :=
  match g with
  | GStart => True
  | GJoined n | GBlocked n => ck !! n = Some k
  | GSubscribed n c => ck !! n = Some k ∧ ∃ p, pendings s !! n = Some p ∧ c ≤ p_notified p
  | GWoken n => ck !! n = Some k ∧ ∃ d, pendings s !! n = Some (mkPending (Some d) 1)
  | GOwner n ph =>
      ck !! n = Some k ∧ pending_host_approvals s !! k = Some n ∧
      pendings s !! n = Some (cell_of ph) ∧ (granted_in ph = true → evidence k l)
  | GDone b => b = true → evidence k l
  end.

(** A pending approval is new, decided or signalled, and an approval has evidence. *)
Definition cell_ok (l : list (obs Ev)) (p : PendingHostApproval) (k : HostApprovalKey) : Prop :=
  p = pending_new ∨
  ∃ d, (p = mkPending (Some d) 0 ∨ p = mkPending (Some d) 1) ∧ (decision_allows d = true → evidence k l).
Record base (s : NetworkApprovalService) (l : list (obs Ev)) (ck : list HostApprovalKey) : Prop := {
  base_cells : Forall2 (cell_ok l) (pendings s) ck;
  base_approved : ∀ k, k ∈ session_approved_hosts s → evidence k l;
}.

Record Inv (s : NetworkApprovalService) (l : list (obs Ev)) (ck : list HostApprovalKey)
    (gs : list (HostApprovalKey * ghost)) : Prop := {
  inv_base : base s l ck;
  inv_local : ∀ i k g, gs !! i = Some (k, g) → local k g s l ck;
  inv_owned : ∀ k n, pending_host_approvals s !! k = Some n →
    ∃ i ph, gs !! i = Some (k, GOwner n ph);
  inv_decided : ∀ n p, pendings s !! n = Some p →
    p_notified p = 1 ∨ ∃ i k ph, gs !! i = Some (k, GOwner n ph);
  inv_unique : ∀ i j k k' n ph ph', gs !! i = Some (k, GOwner n ph) →
    gs !! j = Some (k', GOwner n ph') → i = j;
}.

(** *** Transitions *)

Inductive quiet (k : HostApprovalKey) (s : NetworkApprovalService) : ghost → ghost → Prop :=
| q_stay g : quiet k s g g
| q_denied : quiet k s GStart (GDone false)
| q_approved : k ∈ session_approved_hosts s → quiet k s GStart (GDone true)
| q_join n : pending_host_approvals s !! k = Some n → quiet k s GStart (GJoined n)
| q_subscribe n p : pendings s !! n = Some p → quiet k s (GJoined n) (GSubscribed n (p_notified p))
| q_block n c p : pendings s !! n = Some p → p_decision p = None → quiet k s (GSubscribed n c) (GBlocked n)
| q_see n c p d : pendings s !! n = Some p → p_decision p = Some d →
    quiet k s (GSubscribed n c) (GDone (decision_allows d))
| q_wake n d : pendings s !! n = Some (mkPending (Some d) 1) → quiet k s (GBlocked n) (GWoken n)
| q_woken n d : pendings s !! n = Some (mkPending (Some d) 1) → quiet k s (GWoken n) (GDone (decision_allows d)).

Definition same_cells (s s' : NetworkApprovalService) : Prop :=
  pending_host_approvals s' = pending_host_approvals s ∧ pendings s' = pendings s.

Inductive guar (k : HostApprovalKey) (s s' : NetworkApprovalService)
    : ghost → list HostApprovalKey → ghost → list HostApprovalKey → Prop :=
| g_quiet g g' ck :
    same_cells s s' → session_approved_hosts s' ⊆ session_approved_hosts s → quiet k s g g' →
    guar k s s' g ck g' ck
| g_approve n ck :
    same_cells s s' → session_approved_hosts s' = {[k]} ∪ session_approved_hosts s →
    guar k s s' (GOwner n (Asking true)) ck (GOwner n (Asking true)) ck
| g_create ck :
    pending_host_approvals s !! k = None →
    pending_host_approvals s' = <[k := length (pendings s)]> (pending_host_approvals s) →
    pendings s' = pendings s ++ [pending_new] → session_approved_hosts s' = session_approved_hosts s →
    guar k s s' GStart ck (GOwner (length (pendings s)) (Asking false)) (ck ++ [k])
| g_advance n ph ph' ck :
    pending_host_approvals s' = pending_host_approvals s →
    pendings s' = <[n := cell_of ph']> (pendings s) → session_approved_hosts s' = session_approved_hosts s →
    p_notified (cell_of ph) ≤ p_notified (cell_of ph') → (∀ d, ph ≠ Signalled d) →
    (granted_in ph' = true → granted_in ph = true) → (∀ b, ph' ≠ Asking b) →
    guar k s s' (GOwner n ph) ck (GOwner n ph') ck
| g_remove n d ck :
    pending_host_approvals s' = delete k (pending_host_approvals s) → pendings s' = pendings s →
    session_approved_hosts s' = session_approved_hosts s →
    guar k s s' (GOwner n (Signalled d)) ck (GDone (decision_allows d)) ck.

(** *** Preservation *)

Lemma evidence_mono k l o : evidence k l → evidence k (l ++ [o]).
Proof.
  intros [H | H]; [by left|]. right. apply List.Exists_app. by left.
Qed.

Lemma local_log k g s l ck o : local k g s l ck → local k g s (l ++ [o]) ck.
Proof.
  pose proof (evidence_mono k l o). destruct g; cbn; naive_solver.
Qed.

Lemma base_log s l ck o : base s l ck → base s (l ++ [o]) ck.
Proof.
  intros [Hc Ha]. split.
  - eapply Forall2_impl; [exact Hc|]. intros p k [-> | (d & Hp & He)]; [by left|].
    right. exists d. split; [done|]. intros Hd. by apply evidence_mono, He.
  - intros k Hk. by apply evidence_mono, Ha.
Qed.

Lemma Inv_log s l ck gs o : Inv s l ck gs → Inv s (l ++ [o]) ck gs.
Proof.
  intros [H1 H2 H3 H4 H5]. split; [by apply base_log | | done | done | done].
  intros i k g Hi. by eapply local_log, H2.
Qed.

(** The ghost state of the others stays; the stepping request gets a new one. *)
Lemma lookup_update (gs : list (HostApprovalKey * ghost)) i k g x j y :
  gs !! i = Some (k, g) → <[i := x]> gs !! j = Some y → i = j ∧ y = x ∨ i ≠ j ∧ gs !! j = Some y.
Proof.
  intros Hi Hj. destruct (decide (i = j)) as [<- | Hne].
  - left. rewrite list_lookup_insert_eq in Hj by (by eapply lookup_lt_Some). naive_solver.
  - right. by rewrite list_lookup_insert_ne in Hj.
Qed.

Lemma owners_update (gs : list (HostApprovalKey * ghost)) i k g g' :
  gs !! i = Some (k, g) →
  (∀ n ph, g = GOwner n ph → ∃ ph', g' = GOwner n ph') →
  ∀ j k' n ph, gs !! j = Some (k', GOwner n ph) → ∃ ph', <[i := (k, g')]> gs !! j = Some (k', GOwner n ph').
Proof.
  intros Hi Hg j k' n ph Hj. destruct (decide (i = j)) as [<- | Hne].
  - simplify_eq. destruct (Hg n ph eq_refl) as [ph' ->]. exists ph'.
    rewrite list_lookup_insert_eq by (by eapply lookup_lt_Some). done.
  - exists ph. by rewrite list_lookup_insert_ne.
Qed.

Lemma base_lookup s l ck n p :
  base s l ck → pendings s !! n = Some p → ∃ k, ck !! n = Some k ∧ cell_ok l p k.
Proof. intros [Hc _] Hp. by destruct (Forall2_lookup_l _ _ _ _ _ Hc Hp) as (k & Hk & Hok); eauto. Qed.

Lemma cell_undecided l p k : cell_ok l p k → p_decision p = None → p = pending_new.
Proof. intros [-> | (d & [-> | ->] & _)]; done. Qed.
Lemma cell_notified l p k : cell_ok l p k → 0 < p_notified p → ∃ d, p = mkPending (Some d) 1.
Proof. intros [-> | (d & [-> | ->] & _)]; cbn; [lia | lia | eauto]. Qed.
Lemma cell_evidence l p k d : cell_ok l p k → p_decision p = Some d → decision_allows d = true → evidence k l.
Proof. intros [-> | (d' & [-> | ->] & He)]; cbn; naive_solver. Qed.

(** A state with the same pending approvals and no further approved host. *)
Lemma local_same k g s s' l ck : same_cells s s' → local k g s l ck → local k g s' l ck.
Proof. intros [Hm Hp]. destruct g; cbn; rewrite ?Hm, ?Hp; done. Qed.

Lemma base_same s s' l ck :
  same_cells s s' → (∀ k, k ∈ session_approved_hosts s' → evidence k l) → base s l ck → base s' l ck.
Proof. intros [Hm Hp] Ha [Hc _]. split; [by rewrite Hp | done]. Qed.

Lemma quiet_local s l ck gs i k g g' :
  Inv s l ck gs → gs !! i = Some (k, g) → quiet k s g g' → local k g' s l ck.
Proof.
  intros HI Hi Hq. pose proof (inv_local _ _ _ _ HI _ _ _ Hi) as Hl.
  destruct Hq as [g | | Ha | n Hm | n p Hp | n c p Hp Hd | n c p d Hp Hd | n d Hp | n d Hp]; cbn in *.
  - done.
  - done.
  - intros _. by apply HI.
  - destruct (inv_owned _ _ _ _ HI _ _ Hm) as (j & ph & Hj). apply (inv_local _ _ _ _ HI _ _ _ Hj).
  - split; [done|]. exists p. by split.
  - apply Hl.
  - intros Ha. destruct (base_lookup s l ck n p) as (k' & Hk & Hok); [apply HI | done|].
    destruct Hl as [Hl _]. simplify_eq. by eapply cell_evidence.
  - by split; [| exists d].
  - intros Ha. destruct (base_lookup s l ck n (mkPending (Some d) 1)) as (k' & Hk & Hok); [apply HI | done|].
    destruct Hl as [Hl _]. simplify_eq. by eapply cell_evidence.
Qed.

Lemma quiet_owner k s g g' n ph : quiet k s g g' → g = GOwner n ph → g' = GOwner n ph.
Proof. intros [] Heq; congruence. Qed.
Lemma quiet_owner_inv k s g g' n ph : quiet k s g g' → g' = GOwner n ph → g = GOwner n ph.
Proof. intros [] Heq; congruence. Qed.

Lemma Inv_quiet s s' l ck gs i k g g' :
  Inv s l ck gs → gs !! i = Some (k, g) → same_cells s s' →
  (∀ k, k ∈ session_approved_hosts s' → evidence k l) → quiet k s g g' →
  Inv s' l ck (<[i := (k, g')]> gs).
Proof.
  intros HI Hi Hs Ha Hq. pose proof Hs as [Hm Hp].
  assert (Hown : ∀ n ph, g = GOwner n ph → ∃ ph', g' = GOwner n ph').
  { intros n ph Hg. exists ph. by eapply quiet_owner. }
  split.
  - eapply base_same; [exact Hs | done | apply HI].
  - intros j k' gj Hj. eapply local_same; [exact Hs|].
    destruct (lookup_update _ _ _ _ _ _ _ Hi Hj) as [(<- & ?) | (_ & Hj')]; simplify_eq.
    + by eapply quiet_local.
    + by eapply HI.
  - intros k' n Hk. rewrite Hm in Hk. destruct (inv_owned _ _ _ _ HI _ _ Hk) as (j & ph & Hj).
    destruct (owners_update gs i k g g' Hi Hown _ _ _ _ Hj) as [ph' Hj']. eauto.
  - intros n p Hn. rewrite Hp in Hn. destruct (inv_decided _ _ _ _ HI _ _ Hn) as [H | (j & k' & ph & Hj)];
      [by left|]. right. destruct (owners_update gs i k g g' Hi Hown _ _ _ _ Hj) as [ph' Hj']. eauto.
  - intros j1 j2 k1 k2 n ph1 ph2 H1 H2.
    destruct (lookup_update _ _ _ _ _ _ _ Hi H1) as [(<- & E1) | (N1 & H1')];
    destruct (lookup_update _ _ _ _ _ _ _ Hi H2) as [(<- & E2) | (N2 & H2')]; simplify_eq; try done.
    + eapply (inv_unique _ _ _ _ HI i j2); [| exact H2']. rewrite Hi. f_equal. f_equal.
      by eapply quiet_owner_inv.
    + eapply (inv_unique _ _ _ _ HI j1 i); [exact H1' |]. rewrite Hi. f_equal. f_equal.
      by eapply quiet_owner_inv.
    + by eapply (inv_unique _ _ _ _ HI).
Qed.

Lemma local_create k g s s' l ck k' :
  pending_host_approvals s !! k' = None →
  pending_host_approvals s' = <[k' := length (pendings s)]> (pending_host_approvals s) →
  pendings s' = pendings s ++ [pending_new] →
  local k g s l ck → local k g s' l (ck ++ [k']).
Proof.
  intros Hnone Hm Hp.
  assert (Hck : ∀ n, ck !! n = Some k → (ck ++ [k']) !! n = Some k) by (intros n; apply lookup_app_l_Some).
  assert (Hps : ∀ n p, pendings s !! n = Some p → pendings s' !! n = Some p).
  { intros n p Hn. rewrite Hp. by apply lookup_app_l_Some. }
  destruct g as [| n | n c | n | n | n ph | b]; cbn; [done | apply Hck | | apply Hck | | | done].
  - intros (H1 & p & H2 & H3). split; [by apply Hck|]. exists p. auto.
  - intros (H1 & d & H2). split; [by apply Hck|]. exists d. auto.
  - intros (H1 & H2 & H3 & H4). split_and!; auto.
    rewrite Hm, lookup_insert_ne; [done | congruence].
Qed.

Lemma Inv_create s s' l ck gs i k :
  Inv s l ck gs → gs !! i = Some (k, GStart) →
  pending_host_approvals s !! k = None →
  pending_host_approvals s' = <[k := length (pendings s)]> (pending_host_approvals s) →
  pendings s' = pendings s ++ [pending_new] →
  session_approved_hosts s' = session_approved_hosts s →
  Inv s' l (ck ++ [k]) (<[i := (k, GOwner (length (pendings s)) (Asking false))]> gs).
Proof.
  intros HI Hi Hnone Hm Hp Ha.
  assert (Hlen : length ck = length (pendings s)).
  { symmetry. eapply Forall2_length, HI. }
  assert (Hin : i < length gs) by (by eapply lookup_lt_Some).
  assert (Hkeep : ∀ j k' n ph, gs !! j = Some (k', GOwner n ph) →
            <[i := (k, GOwner (length (pendings s)) (Asking false))]> gs !! j = Some (k', GOwner n ph)).
  { intros j k' n ph Hj. rewrite list_lookup_insert_ne; [done | naive_solver]. }
  assert (Hnew : ∀ j k' n ph, gs !! j = Some (k', GOwner n ph) → n < length (pendings s)).
  { intros j k' n ph Hj. eapply lookup_lt_Some, (inv_local _ _ _ _ HI _ _ _ Hj). }
  split.
  - split; [| rewrite Ha; apply HI]. rewrite Hp. apply Forall2_app; [apply HI|].
    repeat constructor.
  - intros j k' g Hj. destruct (lookup_update _ _ _ _ _ _ _ Hi Hj) as [(<- & ?) | (_ & Hj')]; simplify_eq.
    + cbn. rewrite Hm, Hp, lookup_insert_eq, !lookup_app_r, Hlen, Nat.sub_diag by lia. done.
    + eapply local_create; eauto. by eapply HI.
  - intros k' n Hk. rewrite Hm in Hk. apply lookup_insert_Some in Hk as [[<- <-] | [Hne Hk]].
    + exists i, (Asking false). by rewrite list_lookup_insert_eq.
    + destruct (inv_owned _ _ _ _ HI _ _ Hk) as (j & ph & Hj). eauto.
  - intros n p Hn. rewrite Hp in Hn. apply lookup_app_Some in Hn as [Hn | [Hge Hn]].
    + destruct (inv_decided _ _ _ _ HI _ _ Hn) as [H | (j & k' & ph & Hj)]; [by left | eauto 6].
    + right. exists i, k, (Asking false). rewrite list_lookup_insert_eq by done.
      apply list_lookup_singleton_Some in Hn as [Hz _]. do 3 f_equal. lia.
  - intros j1 j2 k1 k2 n ph1 ph2 H1 H2.
    destruct (lookup_update _ _ _ _ _ _ _ Hi H1) as [(<- & E1) | (N1 & H1')];
    destruct (lookup_update _ _ _ _ _ _ _ Hi H2) as [(<- & E2) | (N2 & H2')]; simplify_eq; try done.
    + apply Hnew in H2'. lia.
    + apply Hnew in H1'. lia.
    + by eapply (inv_unique _ _ _ _ HI).
Qed.

(** Another request keeps what it knows when the owner of [n] changes the cell. *)
Lemma local_advance k g s s' l ck n q :
  pending_host_approvals s' = pending_host_approvals s →
  pendings s' = <[n := q]> (pendings s) →
  (∀ p, pendings s !! n = Some p → p_notified p ≤ p_notified q ∧ p_notified p = 0) →
  (∀ ph, g ≠ GOwner n ph) →
  local k g s l ck → local k g s' l ck.
Proof.
  intros Hm Hp Hmono Hne.
  assert (Hother : ∀ m p, pendings s !! m = Some p → m ≠ n → pendings s' !! m = Some p).
  { intros m p Hl Hmn. by rewrite Hp, list_lookup_insert_ne. }
  destruct g as [| m | m c | m | m | m ph | b]; cbn; try done.
  - intros (Hc & p & Hl & Hle). split; [done|]. destruct (decide (m = n)) as [-> | Hmn]; [| eauto].
    exists q. rewrite Hp, list_lookup_insert_eq by (by eapply lookup_lt_Some).
    split; [done|]. destruct (Hmono _ Hl). lia.
  - intros (Hc & d & Hl). split; [done|]. exists d. apply Hother; [done|]. intros ->.
    destruct (Hmono _ Hl) as [_ Hz]. cbn in Hz. lia.
  - intros (Hc & Hk & Hl & He). rewrite Hm. split_and!; [done | done | | done].
    apply Hother; [done|]. intros ->. by destruct (Hne ph).
Qed.

Lemma cell_of_ok l ph k : (granted_in ph = true → evidence k l) → cell_ok l (cell_of ph) k.
Proof. destruct ph as [b | d | d]; cbn; intros H; [by left | right; eauto | right; eauto]. Qed.

Lemma Inv_advance s s' l ck gs i k n ph ph' :
  Inv s l ck gs → gs !! i = Some (k, GOwner n ph) →
  pending_host_approvals s' = pending_host_approvals s →
  pendings s' = <[n := cell_of ph']> (pendings s) →
  session_approved_hosts s' = session_approved_hosts s →
  p_notified (cell_of ph) ≤ p_notified (cell_of ph') → (∀ d, ph ≠ Signalled d) →
  (granted_in ph' = true → evidence k l) →
  Inv s' l ck (<[i := (k, GOwner n ph')]> gs).
Proof.
  intros HI Hi Hm Hp Ha Hmono Hns Hgr.
  destruct (inv_local _ _ _ _ HI _ _ _ Hi) as (Hck & Hkm & Hcell & Hev).
  assert (Hz : p_notified (cell_of ph) = 0) by (destruct ph; cbn; naive_solver).
  assert (Hown := owners_update gs i k (GOwner n ph) (GOwner n ph') Hi ltac:(naive_solver)).
  split.
  - split; [| rewrite Ha; apply HI]. rewrite Hp, <- (list_insert_id ck n k Hck).
    apply Forall2_insert; [apply HI | by apply cell_of_ok; auto].
  - intros j k' g Hj. destruct (lookup_update _ _ _ _ _ _ _ Hi Hj) as [(<- & ?) | (Hij & Hj')]; simplify_eq.
    + cbn. rewrite Hm, Hp, list_lookup_insert_eq by (by eapply lookup_lt_Some). split_and!; auto.
    + eapply local_advance; [exact Hm | exact Hp | | | by eapply HI].
      * intros p Hl. rewrite Hcell in Hl. simplify_eq. done.
      * intros ph'' ->. by destruct Hij; eapply (inv_unique _ _ _ _ HI).
  - intros k' m Hk. rewrite Hm in Hk. destruct (inv_owned _ _ _ _ HI _ _ Hk) as (j & phj & Hj).
    destruct (Hown _ _ _ _ Hj) as [phj' Hj']. eauto.
  - intros m p Hl. destruct (decide (m = n)) as [-> | Hmn].
    + right. exists i, k, ph'. apply list_lookup_insert_eq. by eapply lookup_lt_Some.
    + rewrite Hp, list_lookup_insert_ne in Hl by done.
      destruct (inv_decided _ _ _ _ HI _ _ Hl) as [H | (j & k' & phj & Hj)]; [by left|]. right.
      destruct (Hown _ _ _ _ Hj) as [phj' Hj']. eauto.
  - intros j1 j2 k1 k2 m ph1 ph2 H1 H2.
    destruct (lookup_update _ _ _ _ _ _ _ Hi H1) as [(<- & E1) | (N1 & H1')];
    destruct (lookup_update _ _ _ _ _ _ _ Hi H2) as [(<- & E2) | (N2 & H2')]; simplify_eq; try done;
    by eapply (inv_unique _ _ _ _ HI).
Qed.

Lemma Inv_remove s s' l ck gs i k n d :
  Inv s l ck gs → gs !! i = Some (k, GOwner n (Signalled d)) →
  pending_host_approvals s' = delete k (pending_host_approvals s) →
  pendings s' = pendings s →
  session_approved_hosts s' = session_approved_hosts s →
  Inv s' l ck (<[i := (k, GDone (decision_allows d))]> gs).
Proof.
  intros HI Hi Hm Hp Ha.
  destruct (inv_local _ _ _ _ HI _ _ _ Hi) as (Hck & Hkm & Hcell & Hev).
  assert (Hkeep : ∀ j k' m ph, gs !! j = Some (k', GOwner m ph) → i ≠ j →
            <[i := (k, GDone (decision_allows d))]> gs !! j = Some (k', GOwner m ph)).
  { intros j k' m ph Hj Hij. by rewrite list_lookup_insert_ne. }
  assert (Howner : ∀ j k' m ph, gs !! j = Some (k', GOwner m ph) → i ≠ j → k' ≠ k).
  { intros j k' m ph Hj Hij ->. destruct (inv_local _ _ _ _ HI _ _ _ Hj) as (_ & Hm' & _).
    simplify_eq. by destruct Hij; eapply (inv_unique _ _ _ _ HI). }
  split.
  - split; [rewrite Hp | rewrite Ha]; apply HI.
  - intros j k' g Hj. destruct (lookup_update _ _ _ _ _ _ _ Hi Hj) as [(<- & ?) | (Hij & Hj')]; simplify_eq.
    + exact Hev.
    + pose proof (inv_local _ _ _ _ HI _ _ _ Hj') as Hl.
      destruct g as [| m | m c | m | m | m ph | b]; cbn in *; rewrite ?Hp; try done.
      destruct Hl as (? & ? & ? & ?). rewrite Hm, lookup_delete_ne; [done|].
      intros <-. by eapply Howner.
  - intros k' m Hk. rewrite Hm in Hk. apply lookup_delete_Some in Hk as [Hne Hk].
    destruct (inv_owned _ _ _ _ HI _ _ Hk) as (j & ph & Hj). exists j, ph. apply Hkeep; [done|].
    intros <-. simplify_eq.
  - intros m p Hl. rewrite Hp in Hl. destruct (decide (m = n)) as [-> | Hmn].
    { rewrite Hcell in Hl. simplify_eq. by left. }
    destruct (inv_decided _ _ _ _ HI _ _ Hl) as [H | (j & k' & ph & Hj)]; [by left|]. right.
    exists j, k', ph. apply Hkeep; [done|]. intros <-. simplify_eq.
  - intros j1 j2 k1 k2 m ph1 ph2 H1 H2.
    destruct (lookup_update _ _ _ _ _ _ _ Hi H1) as [(<- & E1) | (N1 & H1')];
    destruct (lookup_update _ _ _ _ _ _ _ Hi H2) as [(<- & E2) | (N2 & H2')]; simplify_eq; try done;
    by eapply (inv_unique _ _ _ _ HI).
Qed.

Lemma Inv_guar s s' l ck ck' gs i k g g' :
  Inv s l ck gs → gs !! i = Some (k, g) → guar k s s' g ck g' ck' →
  Inv s' l ck' (<[i := (k, g')]> gs).
Proof.
  intros HI Hi Hg. destruct Hg.
  - eapply Inv_quiet; eauto. intros k' Hk. apply HI. set_solver.
  - eapply Inv_quiet; eauto; [| constructor]. intros k' Hk.
    destruct (inv_local _ _ _ _ HI _ _ _ Hi) as (_ & _ & _ & Hev).
    rewrite H0 in Hk. apply elem_of_union in Hk as [Hk | Hk]; [| by apply HI].
    apply elem_of_singleton in Hk as ->. by apply Hev.
  - by eapply Inv_create.
  - eapply Inv_advance; eauto. intros Hgr. apply (inv_local _ _ _ _ HI _ _ _ Hi). auto.
  - by eapply Inv_remove.
Qed.

Lemma Inv_grant s l ck gs i k n b b' :
  Inv s l ck gs → gs !! i = Some (k, GOwner n (Asking b)) → (b' = true → evidence k l) →
  Inv s l ck (<[i := (k, GOwner n (Asking b'))]> gs).
Proof.
  intros HI Hi Hev. eapply (Inv_advance s s l ck gs i k n (Asking b) (Asking b')); try done.
  symmetry. apply list_insert_id. apply (inv_local _ _ _ _ HI _ _ _ Hi).
Qed.

(** *** Requests that follow the transitions *)

Definition ask_ok (k : HostApprovalKey) (g : ghost) (id : option str) {X : Set} (granting : X → bool)
    (K : ghost → X → Prop) : Prop :=
  match id with
  | Some id =>
      ∃ n b, g = GOwner n (Asking b) ∧ id = approval_id_for_key k ∧
      ∀ x, K (GOwner n (Asking (b || granting x))) x
  | None => ∀ x, K g x
  end.
Definition ok_ev (k : HostApprovalKey) (g : ghost) {X : Set} (e : Ev X) : (ghost → X → Prop) → Prop :=
  match e in Ev Y return (ghost → Y → Prop) → Prop with
  | Atomic f => λ K, ∀ s l ck, base s l ck → local k g s l ck →
      ∃ g' ck', guar k s (f s).1 g ck g' ck' ∧ K g' (f s).2
  | Notified n c => λ K, g = GBlocked n ∧ c = 0 ∧ K (GWoken n) ()
  | e => ask_ok k g (question e) (grants e)
  end.
Definition answer (b : bool) : option NetworkDecision :=
  Some (if b then NetworkProxy.Allow else deny REASON_NOT_ALLOWED).
Fixpoint ok (k : HostApprovalKey) (g : ghost) (p : Task) : Prop :=
  match p with
  | Ret r => ∃ b, g = GDone b ∧ r = answer b
  | Vis e cont => ok_ev k g e (λ g' x, ok k g' (cont x))
  end.

Lemma step_Inv s l ck gs i k g p s' o p' :
  Inv s l ck gs → gs !! i = Some (k, g) → ok k g p → task_step s p s' o p' →
  ∃ g' ck', Inv s' (l ++ [o]) ck' (<[i := (k, g')]> gs) ∧ ok k g' p'.
Proof.
  intros HI Hi Hok Hstep. destruct Hstep as [X f cont s | n c cont s p Hp Hc | X e x cont s He].
  - destruct (Hok s l ck) as (g' & ck' & Hg & Hk); [apply HI | by eapply HI|].
    exists g', ck'. split; [| done]. by eapply Inv_log, Inv_guar.
  - destruct Hok as (-> & -> & Hk). exists (GWoken n), ck. split; [| done].
    destruct (base_lookup s l ck n p) as (k' & Hk' & Hcell); [apply HI | done|].
    destruct (cell_notified _ _ _ Hcell Hc) as [d ->].
    apply Inv_log. eapply Inv_quiet; eauto; [by split | apply HI | by econstructor].
  - assert (Hask : ask_ok k g (question e) (grants e) (λ g' x, ok k g' (cont x))) by (by destruct e).
    destruct (question e) as [id|] eqn:Hq.
    + destruct Hask as (n & b & -> & -> & Hk). exists (GOwner n (Asking (b || grants e x))), ck.
      split; [| apply Hk]. eapply Inv_grant; [by apply Inv_log | done |].
      intros Hb. destruct b; cbn in Hb.
      * apply evidence_mono. by apply (inv_local _ _ _ _ HI _ _ _ Hi).
      * right. apply List.Exists_app. right. by repeat constructor.
    + exists g, ck. split; [| apply Hask]. rewrite list_insert_id by done. by apply Inv_log.
Qed.

(** *** The code follows the transitions *)

Lemma ok_ev_mono {X : Set} k g (e : Ev X) (K K' : ghost → X → Prop) :
  (∀ g x, K g x → K' g x) → ok_ev k g e K → ok_ev k g e K'.
Proof.
  intros HK. destruct e; cbn; unfold ask_ok; cbn; try (intros H x; by apply HK, H);
    try (intros (n & b & -> & -> & H); exists n, b; split_and!; auto; fail).
  - intros H s l ck Hb Hl. destruct (H s l ck Hb Hl) as (g' & ck' & Hg & Hk). eauto.
  - intros (-> & -> & H). auto.
Qed.

Lemma ok_assoc {A B} k g (m : prog Ev A) (h : A → prog Ev B) (f : B → Task) :
  ok k g (m ≫= λ x, h x ≫= f) → ok k g ((m ≫= h) ≫= f).
Proof.
  revert g. induction m as [a | X e cont IH]; intros g; [done|].
  apply ok_ev_mono. intros g' x. apply IH.
Qed.

Definition keeps (s s' : NetworkApprovalService) : Prop :=
  same_cells s s' ∧ session_approved_hosts s' ⊆ session_approved_hosts s.

Lemma ok_atomic_keeps {X : Set} k g (f : NetworkApprovalService → NetworkApprovalService * X) cont :
  (∀ s, keeps s (f s).1) → (∀ x, ok k g (cont x)) → ok k g (call (Atomic f) ≫= cont).
Proof.
  intros Hf Hk s l ck _ _. exists g, ck. split; [| apply Hk].
  destruct (Hf s). by apply g_quiet; [.. | constructor].
Qed.

Lemma ok_update_keeps k g f (p : Task) : (∀ s, keeps s (f s)) → ok k g p → ok k g (update f;; p).
Proof. intros Hf Hp. by apply (ok_atomic_keeps k g _ (λ _ : (), p)). Qed.

Lemma ok_read {X : Set} k g (f : NetworkApprovalService → X) cont :
  (∀ x, ok k g (cont x)) → ok k g (read f ≫= cont).
Proof. intros Hk. by apply ok_atomic_keeps. Qed.

Lemma set_call_outcome_keeps id o s : keeps s (set_call_outcome id o s).1.
Proof. unfold set_call_outcome. by repeat case_match. Qed.

Lemma ok_record_call_outcome k g id o (p : Task) : ok k g p → ok k g (record_call_outcome id o;; p).
Proof.
  intros Hp. refine (ok_atomic_keeps k g (set_call_outcome id o)
    (λ recorded : bool, (if recorded then update (cancel id) else mret ());; p) _ _).
  - intros s. apply set_call_outcome_keeps.
  - intros []; [by apply ok_update_keeps | exact Hp].
Qed.

Lemma ok_record_on k g c o (p : Task) : ok k g p → ok k g (record_on c o;; p).
Proof. intros Hp. destruct c as [c|]; [by apply ok_record_call_outcome | exact Hp]. Qed.

Lemma ok_record_single k g o (p : Task) :
  ok k g p → ok k g (record_outcome_for_single_active_call o;; p).
Proof.
  intros Hp. refine (ok_read k g resolve_single_active_call
    (λ c, match c with None => mret () | Some c => record_call_outcome (ac_registration_id c) o end;; p) _).
  intros [c|]; [by apply ok_record_call_outcome | exact Hp].
Qed.

Lemma alter_as_insert {A} (f : A → A) (l : list A) i x :
  l !! i = Some x → alter f i l = <[i := f x]> l.
Proof. intros Hi. rewrite list_insert_alter. apply list_alter_ext; naive_solver. Qed.

Lemma ok_set_decision k n b d (p : Task) :
  (decision_allows d = true → b = true) → ok k (GOwner n (Signalled d)) p →
  ok k (GOwner n (Asking b)) (set_decision n d;; p).
Proof.
  intros Hb Hp s l ck _ (_ & _ & Hl & _). exists (GOwner n (Stored d)), ck. split.
  { apply g_advance; try done. cbn. by rewrite (alter_as_insert _ _ _ _ Hl). }
  intros s1 l1 ck1 _ (_ & _ & Hl1 & _). exists (GOwner n (Signalled d)), ck1. split; [| done].
  apply g_advance; try done; [| cbn; lia]. cbn. by rewrite (alter_as_insert _ _ _ _ Hl1).
Qed.

Lemma ok_remove_pending r n d (p : Task) :
  ok (request_key r) (GDone (decision_allows d)) p →
  ok (request_key r) (GOwner n (Signalled d)) (remove_pending r;; p).
Proof.
  intros Hp s l ck _ _. exists (GDone (decision_allows d)), ck. split; [| done]. by apply g_remove.
Qed.

Lemma ok_refuse r n b : ok (request_key r) (GOwner n (Asking b)) (refuse_by_policy r n).
Proof.
  apply (ok_set_decision _ n b DenyPending); [done|]. apply ok_remove_pending, ok_record_single.
  by exists false.
Qed.

(** An amendment only talks to the session. *)
Lemma ok_amendment r k g turn a (p : Task) : ok k g p → ok k g (apply_network_amendment r turn a;; p).
Proof. intros Hp [[] | e] x; exact Hp. Qed.

Lemma ok_forget_denied k g h (p : Task) : ok k g p → ok k g (update (with_denied h);; p).
Proof. intros Hp. by apply ok_update_keeps. Qed.

Lemma ok_remember r n b d c (p : Task) :
  (decision_allows d = true → b = true) →
  ok (request_key r) (GOwner n (Asking b)) p →
  ok (request_key r) (GOwner n (Asking b)) (remember r d c;; p).
Proof.
  intros Hb Hp.
  assert (Hc : ok (request_key r) (GOwner n (Asking b))
                 ((if c then update (with_approved (λ h, h ∖ {[request_key r]}));;
                             update (with_denied (λ h, {[request_key r]} ∪ h)) else mret ());; p)).
  { destruct c; [| exact Hp].
    pose proof (ok_forget_denied _ _ (λ h, {[request_key r]} ∪ h) p Hp) as Hden.
    refine (ok_update_keeps _ _ (with_approved (λ h, h ∖ {[request_key r]})) _ _ Hden).
    intros s. split; [done|]. cbn. set_solver. }
  destruct d; [exact Hc | | exact Hc]. rewrite Hb in * by done.
  refine (ok_update_keeps _ _ (with_denied (λ h, h ∖ {[request_key r]})) _ _ _); [done|].
  intros s l ck _ _. exists (GOwner n (Asking true)), ck. split; [by apply g_approve | exact Hc].
Qed.

Lemma ok_finish r n b d c :
  (decision_allows d = true → b = true) →
  ok (request_key r) (GOwner n (Asking b))
     (remember r d c;; set_decision n d;; remove_pending r;; mret (Some (to_network_decision d))).
Proof.
  intros Hb. apply ok_remember; [done|]. apply ok_set_decision; [done|]. apply ok_remove_pending.
  exists (decision_allows d). by destruct d.
Qed.

Lemma ok_resolve r n b turn c id x (f : PendingApprovalDecision * bool → Task) :
  (review_allows x = true → b = true) →
  (∀ d q, (decision_allows d = true → b = true) → ok (request_key r) (GOwner n (Asking b)) (f (d, q))) →
  ok (request_key r) (GOwner n (Asking b)) (resolve_review r turn c id x ≫= f).
Proof.
  intros Hb Hf.
  assert (Hdeny : ∀ q, ok (request_key r) (GOwner n (Asking b)) (f (DenyPending, q))) by (intros; by apply Hf).
  destruct x as [| a | | [h []] | | |]; cbn [resolve_review npa_action]; [by apply Hf | by apply Hf | by apply Hf | ..];
    apply ok_assoc.
  - apply ok_amendment. by apply Hf.
  - apply ok_amendment, ok_assoc, ok_record_on, Hdeny.
  - destruct id as [id|]; [destruct c as [c|]|].
    + intros message. apply (ok_record_on _ _ (Some c) _ (f (DenyPending, false))), Hdeny.
    + apply Hdeny.
    + apply (ok_record_on _ _ c _ (f (DenyPending, false))), Hdeny.
  - apply (ok_record_on _ _ c _ (f (DenyPending, false))), Hdeny.
  - destruct id as [id|]; [destruct c as [c|]|].
    + intros message. apply (ok_record_on _ _ (Some c) _ (f (DenyPending, false))), Hdeny.
    + apply Hdeny.
    + apply (ok_record_on _ _ c _ (f (DenyPending, false))), Hdeny.
Qed.

Lemma ok_review r n turn c : ok (request_key r) (GOwner n (Asking false)) (review r turn n c).
Proof.
  assert (Hrest : ∀ id, ok (request_key r) (GOwner n (Asking false))
    (approval_decision ← ask_for_review r turn c id;
     '(resolved, cache) ← resolve_review r turn c id approval_decision;
     remember r resolved cache;; set_decision n resolved;; remove_pending r;;
     mret (Some (to_network_decision resolved)))).
  { intros id.
    assert (Hx : ∀ x, ok (request_key r) (GOwner n (Asking (review_allows x)))
      ('(resolved, cache) ← resolve_review r turn c id x;
       remember r resolved cache;; set_decision n resolved;; remove_pending r;;
       mret (Some (to_network_decision resolved)))).
    { intros x. apply ok_resolve; [done|]. intros d q Hd. by apply ok_finish. }
    destruct id as [id|]; by exists n, false. }
  unfold review. destruct (routes_approval_to_guardian turn); [intros id; apply Hrest | apply Hrest].
Qed.

Lemma ok_owner r n : ok (request_key r) (GOwner n (Asking false)) (decide_as_owner r n).
Proof.
  intros [turn|]; [| apply ok_refuse]. cbn.
  destruct (permission_profile_allows_network_approval_flow _); [| apply ok_refuse].
  destruct (allows_network_approval_flow _); [| apply ok_refuse].
  refine (ok_read _ _ resolve_single_active_call (λ c, _) _). intros c.
  exists n, false. split_and!; [done | done |]. intros [[| message]|].
  - refine (ok_set_decision _ n true AllowOnce _ _ _); [done|]. apply ok_remove_pending. by exists true.
  - refine (ok_record_on _ _ c (DeniedByPolicy message) _ _). apply ok_set_decision; [done|].
    apply ok_remove_pending. by exists false.
  - exact (ok_review r n turn c).
Qed.

Lemma ok_wait k n :
  ok k (GJoined n) (join_pending n).
Proof.
  intros s l ck Hb Hck. destruct (lookup_lt_is_Some_2 (pendings s) n) as [p Hp].
  { erewrite Forall2_length by apply Hb. by eapply lookup_lt_Some. }
  exists (GSubscribed n (p_notified p)), ck. cbn [fst snd]. unfold times_notified at 1. rewrite Hp.
  split; [by apply g_quiet, q_subscribe|].
  intros s1 l1 ck1 Hb1 (Hck1 & p1 & Hp1 & Hle). cbn [fst snd]. unfold current_decision at 1. rewrite Hp1.
  destruct (base_lookup _ _ _ _ _ Hb1 Hp1) as (k1 & Hk1 & Hcell).
  destruct (p_decision p1) as [d|] eqn:Hd.
  { exists (GDone (decision_allows d)), ck1. split; [by apply g_quiet; [.. | by eapply q_see]|].
    exists (decision_allows d). by destruct d. }
  exists (GBlocked n), ck1. split; [by apply g_quiet; [.. | by eapply q_block]|].
  rewrite (cell_undecided _ _ _ Hcell Hd) in Hle. cbn in Hle. split_and!; [done | cbn; lia |].
  refine (ok_read k (GWoken n) _ _ _). intros c.
  intros s2 l2 ck2 Hb2 (Hck2 & d & Hp2). exists (GDone (decision_allows d)), ck2.
  cbn [fst snd]. unfold current_decision. rewrite Hp2. split; [by apply g_quiet; [.. | by apply q_woken]|].
  exists (decision_allows d). by destruct d.
Qed.

Lemma ok_handle r : ok (request_key r) GStart (handle_inline_policy_request r).
Proof.
  intros s l ck _ _. cbn [fst snd]. case_bool_decide.
  { exists (GDone false), ck. split; [by apply g_quiet, q_denied | by exists false]. }
  exists GStart, ck. split; [by apply g_quiet, q_stay|]. clear.
  intros s l ck _ _. cbn [fst snd]. case_bool_decide as Hin.
  { exists (GDone true), ck. split; [by apply g_quiet, q_approved | by exists true]. }
  exists GStart, ck. split; [by apply g_quiet, q_stay|]. clear.
  intros s l ck _ _. unfold get_or_create_pending_approval.
  destruct (pending_host_approvals s !! request_key r) as [n|] eqn:Hn.
  - exists (GJoined n), ck. split; [by apply g_quiet, q_join | apply ok_wait].
  - exists (GOwner (length (pendings s)) (Asking false)), (ck ++ [request_key r]).
    split; [by apply g_create | apply ok_owner].
Qed.

(** *** The pool *)

Record PInv (σ : Pool) (ck : list HostApprovalKey) (gs : list (HostApprovalKey * ghost)) : Prop := {
  pinv : Inv (service σ) (answers σ) ck gs;
  pinv_tasks : ∀ i k g, gs !! i = Some (k, g) →
    ∃ p r, tasks σ !! i = Some p ∧ requests σ !! i = Some r ∧ k = request_key r ∧ ok k g p;
  pinv_ghosts : length gs = length (tasks σ) ∧ length (requests σ) = length (tasks σ);
}.

Lemma pool_step_PInv σ σ' ck gs :
  PInv σ ck gs → pool_step σ σ' → ∃ ck' gs', PInv σ' ck' gs'.
Proof.
  intros [HI Ht Hg] Hstep. destruct Hstep as [s l rs ts ab i p s' o p' Hi _ Hstep]. cbn in *.
  destruct (lookup_lt_is_Some_2 gs i) as [[k g] Hgi].
  { rewrite (proj1 Hg). by eapply lookup_lt_Some. }
  destruct (Ht i k g Hgi) as (q & r & Hq & Hr & -> & Hok). rewrite Hi in Hq. injection Hq as <-.
  destruct (step_Inv _ _ _ _ _ _ _ _ _ _ _ HI Hgi Hok Hstep) as (g' & ck' & HI' & Hok').
  exists ck', (<[i := (request_key r, g')]> gs). split; cbn.
  - done.
  - intros j k h Hj. destruct (lookup_update _ _ _ _ _ _ _ Hgi Hj) as [(<- & E) | (Hne & Hj')].
    + injection E as -> ->. exists p', r. rewrite list_lookup_insert_eq by (by eapply lookup_lt_Some). done.
    + destruct (Ht j k h Hj') as (p2 & r2 & ? & ? & ? & ?). exists p2, r2.
      by rewrite list_lookup_insert_ne.
  - by rewrite !length_insert.
Qed.

Lemma Inv_calls s s' l ck gs :
  pending_host_approvals s' = pending_host_approvals s → pendings s' = pendings s →
  session_approved_hosts s' = session_approved_hosts s → Inv s l ck gs → Inv s' l ck gs.
Proof.
  intros Hm Hp Ha [[Hc Hap] Hl Ho Hd Hu]. split; rewrite ?Hm, ?Hp; try done.
  - split; [by rewrite Hp | by rewrite Ha].
  - intros i k g Hi. by eapply local_same; [| eapply Hl].
Qed.

Lemma Inv_new s l ck gs k : Inv s l ck gs → Inv s l ck (gs ++ [(k, GStart)]).
Proof.
  intros HI. pose proof HI as [Hb Hl Ho Hd Hu].
  assert (Hold : ∀ j k' n ph, (gs ++ [(k, GStart)]) !! j = Some (k', GOwner n ph) →
            gs !! j = Some (k', GOwner n ph)).
  { intros j k' n ph Hj. apply lookup_app_Some in Hj as [Hj | [_ Hj]]; [done|].
    apply list_lookup_singleton_Some in Hj as [_ Hj]. congruence. }
  split; [done | | | |].
  - intros j k' g Hj. apply lookup_app_Some in Hj as [Hj | [_ Hj]]; [by eapply Hl|].
    apply list_lookup_singleton_Some in Hj as [_ [= <- <-]]. done.
  - intros k' n Hk. destruct (Ho k' n Hk) as (j & ph & Hj). exists j, ph. by apply lookup_app_l_Some.
  - intros n p Hn. destruct (Hd n p Hn) as [H | (j & k' & ph & Hj)]; [by left|]. right.
    exists j, k', ph. by apply lookup_app_l_Some.
  - intros i j k1 k2 n ph1 ph2 H1 H2. eapply Hu; by apply Hold.
Qed.

Lemma outside_step_PInv σ σ' ck gs :
  PInv σ ck gs → outside_step σ σ' → ∃ ck' gs', PInv σ' ck' gs'.
Proof.
  intros [HI Ht [Hg Hr]] Hstep. destruct Hstep as [s l rs ts ab f | s l rs ts ab id | s l rs ts ab r | s l rs ts ab i _];
    cbn [service answers requests tasks] in *.
  - exists ck, gs. split; [by apply (Inv_calls s) | exact Ht | by split].
  - exists ck, gs. split; [by apply (Inv_calls s) | exact Ht | by split].
  - exists ck, (gs ++ [(request_key r, GStart)]). split; cbn [service answers requests tasks].
    + by apply Inv_new.
    + intros i k g Hi. apply lookup_app_Some in Hi as [Hi | [Hle Hi]].
      * destruct (Ht i k g Hi) as (p & r' & Hp & Hr' & -> & Hok). exists p, r'.
        split_and!; [by apply lookup_app_l_Some | by apply lookup_app_l_Some | done | done].
      * apply list_lookup_singleton_Some in Hi as [Hi [= <- <-]].
        exists (handle_inline_policy_request r), r.
        rewrite !lookup_app_r by lia. replace (i - length ts) with 0 by lia.
        replace (i - length rs) with 0 by lia. split_and!; [done | done | done | apply ok_handle].
    + rewrite !length_app. cbn. lia.
  - exists ck, gs. by split.
Qed.

End Invariant.

Lemma PInv_started approved denied : PInv approved (started approved denied) [] [].
Proof.
  split; [| by intros i k g Hi | done]. split.
  - split; [constructor | by intros k Hk; left].
  - by intros i k g Hi.
  - intros k n Hk. change ((∅ : gmap HostApprovalKey nat) !! k = Some n) in Hk. by rewrite lookup_empty in Hk.
  - by intros n p Hn.
  - by intros i j k k' n ph ph' Hi.
Qed.

Lemma PInv_reachable approved denied σ :
  rtc any_step (started approved denied) σ → ∃ ck gs, PInv approved σ ck gs.
Proof.
  apply (rtc_ind_r (λ σ, ∃ ck gs, PInv approved σ ck gs)).
  - exists [], []. apply PInv_started.
  - intros σ1 σ2 _ Hstep (ck & gs & H). destruct Hstep.
    + by eapply pool_step_PInv.
    + by eapply outside_step_PInv.
Qed.

Lemma task_ok approved σ ck gs i p :
  PInv approved σ ck gs → tasks σ !! i = Some p →
  ∃ r g, requests σ !! i = Some r ∧ gs !! i = Some (request_key r, g) ∧ ok approved (request_key r) g p.
Proof.
  intros [HI Ht [Hg _]] Hi. destruct (lookup_lt_is_Some_2 gs i) as [[k g] Hgi].
  { rewrite Hg. by eapply lookup_lt_Some. }
  destruct (Ht i k g Hgi) as (q & r & Hq & Hr & -> & Hok). rewrite Hi in Hq. injection Hq as <-. eauto.
Qed.

(** C17: No request is let through unasked: when a request has been allowed, its host,
    protocol and port were approved for the session to begin with, or a hook, the
    reviewer or the user approved them - whatever the interleaving of the requests. *)
Theorem allow_needs_approval approved denied σ i r :
  rtc any_step (started approved denied) σ →
  requests σ !! i = Some r → tasks σ !! i = Some (Ret (Some NetworkProxy.Allow)) →
  request_key r ∈ approved ∨ List.Exists (λ o, approves o (approval_id_for_key (request_key r))) (answers σ).
Proof.
  intros Hr Hi Ht. destruct (PInv_reachable _ _ _ Hr) as (ck & gs & HP).
  destruct (task_ok _ _ _ _ _ _ HP Ht) as (r' & g & Hi' & Hg & (b & -> & Hb)).
  rewrite Hi in Hi'. injection Hi' as <-.
  destruct b; [| done]. by apply (inv_local _ _ _ _ _ (pinv _ _ _ _ HP) _ _ _ Hg).
Qed.

(** *** One question per host at a time *)

Lemma approval_id_inj r r' :
  approval_id_for_key (request_key r) = approval_id_for_key (request_key r') → request_key r = request_key r'.
Proof.
  assert (Hlabel : ∀ p, 35%N ∉ protocol_key_label p).
  { intros []; apply contains_char_false; by_compute. }
  assert (Hport : ∀ n, 35%N ∉ fmt_N n).
  { intros n Hin. apply pretty_digits in Hin. vm_compute in Hin. done. }
  assert (Hhash : lit "#" = [35%N]) by by_compute.
  unfold approval_id_for_key, request_key, from_request. cbn [k_protocol k_host k_port]. rewrite Hhash.
  intros H%app_inv_head. cbn [app] in H. apply first_sep_inj in H as [Hp H]; [| done | done].
  apply last_sep_inj in H as [Hh Hn]; [| done | done].
  rewrite Hp, Hh. f_equal. by apply (inj lit), (inj pretty) in Hn.
Qed.

(** Of the requests for one host, protocol and port only one asks at a time: when two
    requests are about to put the same question, they are the same request. *)
Theorem single_flight approved denied σ i j (X Y : Set) (e : Ev X) (e' : Ev Y) cont cont' id :
  rtc any_step (started approved denied) σ →
  tasks σ !! i = Some (Vis e cont) → tasks σ !! j = Some (Vis e' cont') →
  question e = Some id → question e' = Some id → i = j.
Proof.
  intros Hr Hi Hj Hq Hq'. destruct (PInv_reachable _ _ _ Hr) as (ck & gs & HP).
  destruct (task_ok _ _ _ _ _ _ HP Hi) as (r & g & _ & Hg & Hok).
  destruct (task_ok _ _ _ _ _ _ HP Hj) as (r' & g' & _ & Hg' & Hok').
  assert (Hask : ∀ (Z : Set) (f : Ev Z) k h K, question f = Some id → ok_ev approved k h f K →
            ∃ n b, h = GOwner n (Asking b) ∧ id = approval_id_for_key k).
  { intros Z f k h K Hf H. destruct f; try done; cbn in Hf, H; injection Hf as Hf;
      destruct H as (n & b & ? & ? & _); exists n, b; split; congruence. }
  destruct (Hask _ _ _ _ _ Hq Hok) as (n & b & -> & Hid).
  destruct (Hask _ _ _ _ _ Hq' Hok') as (n' & b' & -> & Hid').
  rewrite Hid in Hid'. apply approval_id_inj in Hid'. rewrite Hid' in Hg.
  pose proof (pinv _ _ _ _ HP) as HI.
  destruct (inv_local _ _ _ _ _ HI _ _ _ Hg) as (_ & Hm & _).
  destruct (inv_local _ _ _ _ _ HI _ _ _ Hg') as (_ & Hm' & _).
  rewrite Hm in Hm'. injection Hm' as <-. by eapply (inv_unique _ _ _ _ _ HI).
Qed.

(** *** Every request is answered *)

Inductive child : Task → Task → Prop :=
| child_vis (X : Set) (e : Ev X) cont x : child (cont x) (Vis e cont).
Definition list_child (ts' ts : list Task) : Prop :=
  ∃ i p p', ts !! i = Some p ∧ child p' p ∧ ts' = <[i := p']> ts.

Lemma child_wf p : Acc child p.
Proof.
  assert (Hsub : ∀ q p, child q p →
    match p with Ret _ => False | Vis e cont => ∀ x, Acc child (cont x) end → Acc child q).
  { intros q p' Hq. destruct Hq. auto. }
  assert (Hret : ∀ q p, child q p → match p with Ret _ => False | Vis _ _ => True end).
  { intros q p' Hq. by destruct Hq. }
  induction p as [r | X e cont IH]; constructor; intros q Hq.
  - by destruct (Hret _ _ Hq).
  - by apply (Hsub _ _ Hq).
Qed.

Lemma list_child_wf ts : Acc list_child ts.
Proof.
  induction ts as [| p ts IH].
  { constructor. intros ts' (i & p & p' & Hi & _). done. }
  revert ts IH. induction (child_wf p) as [p _ IHp]. intros ts IHts.
  induction IHts as [ts Hts IH]. constructor. intros ts' (i & q & q' & Hi & Hc & ->).
  destruct i as [| i]; cbn in *.
  - injection Hi as <-. apply IHp; [done|]. by constructor.
  - apply IH. by exists i, q, q'.
Qed.

Lemma task_step_child s p s' o p' : task_step s p s' o p' → child p' p.
Proof. intros []; constructor. Qed.

Lemma pool_step_wf σ : Acc (flip pool_step) σ.
Proof.
  assert (H : ∀ ts σ, tasks σ = ts → Acc (flip pool_step) σ).
  { intros ts. induction (list_child_wf ts) as [ts _ IH]. intros σ' Hσ. constructor.
    intros σ2 Hstep. eapply IH; [| done]. destruct Hstep as [s l rs ts' ab i p s' o p' Hi _ Hp].
    cbn in *. subst. exists i, p, p'. split_and!; [done | by eapply task_step_child | done]. }
  by eapply H.
Qed.

(** Only a waiter can be held up. *)
Lemma answerable (X : Set) (e : Ev X) : asks e = true → inhabited X.
Proof.
  destruct e; cbn; intros H; try done;
    first [exact (inhabits None) | exact (inhabits []) | exact (inhabits Approved)
          | exact (inhabits ()) | exact (inhabits (Ok ()))].
Qed.

Definition held (s : NetworkApprovalService) (p : Task) : Prop :=
  match p with
  | Vis (Notified n c) _ => ∀ q, pendings s !! n = Some q → p_notified q ≤ c
  | _ => False
  end.

Lemma task_moves s (p : Task) :
  (∃ r, p = Ret r) ∨ held s p ∨ ∃ s' o p', task_step s p s' o p'.
Proof.
  destruct p as [r | X e cont]; [by left; exists r|]. right.
  destruct (asks e) eqn:He.
  { right. destruct (answerable X e He) as [x]. exists s, (Obs e x), (cont x). by constructor. }
  destruct e as [X f | n c | | | | | | | | |]; try done.
  { right. do 3 eexists. apply step_atomic. }
  destruct (pendings s !! n) as [q|] eqn:Hq.
  - destruct (decide (c < p_notified q)) as [Hlt | Hge].
    + right. do 3 eexists. by eapply step_notified.
    + left. intros q' Hq'. rewrite Hq in Hq'. injection Hq' as <-. lia.
  - left. intros q' Hq'. congruence.
Qed.

Lemma held_blocked approved k g s p : ok approved k g p → held s p → ∃ n, g = GBlocked n ∧
  ∀ q, pendings s !! n = Some q → p_notified q = 0.
Proof.
  destruct p as [r | X e cont]; [done|]. destruct e as [X f | n c | | | | | | | | |]; try done.
  cbn. intros (-> & -> & _) Hq. exists n. split; [done|]. intros q H. specialize (Hq q H). lia.
Qed.

(** A request that waits, at a standstill, for another one for the same host, protocol
    and port that was dropped before it had given its decision. *)
Definition behind_abandoned (σ : Pool) (r : NetworkPolicyRequest) (p : Task) : Prop :=
  held (service σ) p ∧
  ∃ j r', j ∈ abandoned σ ∧ requests σ !! j = Some r' ∧ request_key r' = request_key r.

Lemma stuck_answered approved σ ck gs i p r :
  PInv approved σ ck gs → (∀ σ', ¬ pool_step σ σ') →
  tasks σ !! i = Some p → requests σ !! i = Some r → i ∉ abandoned σ →
  (∃ d, p = Ret (Some d)) ∨ behind_abandoned σ r p.
Proof.
  intros HP Hstuck Hi Hri Hab.
  assert (Hmove : ∀ j q, tasks σ !! j = Some q → j ∉ abandoned σ → (∃ r, q = Ret r) ∨ held (service σ) q).
  { intros j q Hj Hnot. destruct (task_moves (service σ) q) as [H | [H | (s' & o & q' & Hs)]]; [by left | by right|].
    destruct σ as [s l rs ts ab]. destruct (Hstuck (mkPool s' (l ++ [o]) rs (<[j := q']> ts) ab)). by econstructor. }
  destruct (task_ok _ _ _ _ _ _ HP Hi) as (r0 & g & Hr0 & Hg & Hok).
  rewrite Hri in Hr0. injection Hr0 as <-.
  destruct (Hmove i p Hi Hab) as [(a & ->) | Hheld].
  { left. destruct Hok as (b & _ & ->). by eexists. }
  pose proof (pinv _ _ _ _ HP) as HI.
  destruct (held_blocked _ _ _ _ _ Hok Hheld) as (n & -> & Hz).
  pose proof (inv_local _ _ _ _ _ HI _ _ _ Hg) as Hck. cbn in Hck.
  destruct (Forall2_lookup_r _ _ _ _ _ (base_cells _ _ _ _ (inv_base _ _ _ _ _ HI)) Hck) as (q & Hq & _).
  destruct (inv_decided _ _ _ _ _ HI _ _ Hq) as [H1 | (j & k & ph & Hj)]; [by rewrite Hz in H1|].
  destruct (pinv_tasks _ _ _ _ HP _ _ _ Hj) as (q2 & r2 & Hq2 & Hr2 & -> & Hok2).
  destruct (decide (j ∈ abandoned σ)) as [Hj'|Hj'].
  { right. split; [done|]. exists j, r2. split; [done|]. split; [done|].
    destruct (inv_local _ _ _ _ _ HI _ _ _ Hj) as (Hck2 & _). congruence. }
  destruct (Hmove j q2 Hq2 Hj') as [(a & ->) | Hheld2].
  - by destruct Hok2 as (b & ? & _).
  - by destruct (held_blocked _ _ _ _ _ Hok2 Hheld2) as (m & ? & _).
Qed.

(** C18: Requests are answered unless one is dropped: from every reachable state each
    schedule of the requests ends after finitely many steps, and when no request can
    move, each request that was not itself dropped has its answer, or waits behind a
    dropped request for the same host, protocol and port.  In particular, as long as no
    request is dropped, every schedule ends with an answer for all of them: the loop of
    a waiter does not miss its wake-up and does not run out of its two rounds. *)
Theorem requests_answered approved denied σ :
  rtc any_step (started approved denied) σ →
  Acc (flip pool_step) σ ∧
  ((∀ σ', ¬ pool_step σ σ') →
   ∀ i p r, tasks σ !! i = Some p → requests σ !! i = Some r → i ∉ abandoned σ →
     (∃ d, p = Ret (Some d)) ∨ behind_abandoned σ r p) ∧
  ((∀ σ', ¬ pool_step σ σ') → abandoned σ = ∅ →
   ∀ i p, tasks σ !! i = Some p → ∃ d, p = Ret (Some d)).
Proof.
  intros Hr. destruct (PInv_reachable _ _ _ Hr) as (ck & gs & HP).
  split; [apply pool_step_wf|]. split.
  - intros Hstuck i p r Hi Hri Hab. by eapply stuck_answered.
  - intros Hstuck Hnone i p Hi. destruct (task_ok _ _ _ _ _ _ HP Hi) as (r & _ & Hri & _).
    destruct (stuck_answered _ _ _ _ _ _ r HP Hstuck Hi Hri) as [H | (_ & j & r' & Hj & _)];
      [by rewrite Hnone; apply not_elem_of_empty | done |].
    rewrite Hnone in Hj. by apply not_elem_of_empty in Hj.
Qed.

(** ** The outcome of a call

    While a tool runs, requests of it and of others are refused.  [addressed] lists the
    refusals that concern one call: those recorded on it, and those the proxy reports
    while it is the only active call. *)

Inductive CallOp :=
| OpRegister (id turn_id : str) (trigger : GuardianNetworkAccessTrigger) (command : str)
| OpFinish (id : str)
| OpRecord (id : str) (o : NetworkApprovalOutcome)
| OpRefused (o : NetworkApprovalOutcome).

Definition recorded (id : str) (o : NetworkApprovalOutcome) (s : NetworkApprovalService) : NetworkApprovalService :=
  let '(s, b) := set_call_outcome id o s in if b : bool then cancel id s else s.
Definition apply_op (op : CallOp) (s : NetworkApprovalService) : NetworkApprovalService :=
  match op with
  | OpRegister id turn_id trigger command => register_call id turn_id trigger command s
  | OpFinish id => unregister_call id s
  | OpRecord id o => recorded id o s
  | OpRefused o =>
      match resolve_single_active_call s with
      | Some c => recorded (ac_registration_id c) o s
      | None => s
      end
  end.
Definition apply_ops (ops : list CallOp) (s : NetworkApprovalService) : NetworkApprovalService :=
  fold_left (λ s op, apply_op op s) ops s.

Definition addressed_now (id : str) (op : CallOp) (s : NetworkApprovalService) : list NetworkApprovalOutcome :=
  match op with
  | OpRecord id' o => if id' == id then [o] else []
  | OpRefused o =>
      match active_calls (calls s) with
      | [(id', _)] => if id' == id then [o] else []
      | _ => []
      end
  | _ => []
  end.
Fixpoint addressed (id : str) (ops : list CallOp) (s : NetworkApprovalService) : list NetworkApprovalOutcome :=
  match ops with
  | [] => []
  | op :: ops => addressed_now id op s ++ addressed id ops (apply_op op s)
  end.

(** A denial by the user stands, otherwise the latest refusal does. *)
Definition settle (current : option NetworkApprovalOutcome) (o : NetworkApprovalOutcome)
    : option NetworkApprovalOutcome :=
  match current with Some DeniedByUser => current | _ => Some o end.
Definition settled (os : list NetworkApprovalOutcome) : option NetworkApprovalOutcome :=
  fold_left settle os None.

Definition calls_wf (s : NetworkApprovalService) : Prop :=
  Forall (λ e, ac_registration_id e.2 = e.1) (active_calls (calls s)).

Section Outcomes.
Context (id : str).

Lemma index_get_insert {V} k (v : V) m :
  index_get k (index_insert k v m) = Some v.
Proof.
  unfold index_get. induction m as [| [k' v'] m IH]; cbn; [by rewrite str_eqb_refl|].
  destruct (k == k') eqn:E; cbn; [by rewrite str_eqb_refl|].
  assert ((k' == k) = false) as -> by (apply str_eqb_false; apply str_eqb_false in E; congruence). done.
Qed.
Lemma index_get_insert_ne {V} k k' (v : V) m :
  k ≠ k' → index_get k (index_insert k' v m) = index_get k m.
Proof.
  intros Hne. unfold index_get. induction m as [| [k2 v2] m IH]; cbn.
  - assert ((k' == k) = false) as -> by (by apply str_eqb_false). done.
  - destruct (k' == k2) eqn:E; cbn.
    + apply str_eqb_true in E as <-. assert ((k' == k) = false) as -> by (by apply str_eqb_false). done.
    + by destruct (k2 == k).
Qed.
Lemma index_get_remove_ne {V} k k' (m : list (str * V)) :
  k ≠ k' → index_get k (shift_remove k' m) = index_get k m.
Proof.
  intros Hne. unfold index_get, shift_remove. induction m as [| [k2 v2] m IH]; cbn; [done|].
  destruct (k2 == k') eqn:E; cbn.
  - apply str_eqb_true in E as ->. assert ((k' == k) = false) as -> by (by apply str_eqb_false). done.
  - by destruct (k2 == k).
Qed.

Lemma recorded_active id' o s : active_calls (calls (recorded id' o s)) = active_calls (calls s).
Proof. unfold recorded, set_call_outcome. by repeat case_match; simplify_eq/=. Qed.

Lemma recorded_other id' o s :
  id' ≠ id → call_outcomes (calls (recorded id' o s)) !! id = call_outcomes (calls s) !! id ∧
             (id ∈ cancelled (recorded id' o s) ↔ id ∈ cancelled s).
Proof.
  intros Hne. unfold recorded, set_call_outcome. repeat case_match; simplify_eq/=; try done;
    (split; [by rewrite lookup_insert_ne | set_solver]).
Qed.

Record live (s : NetworkApprovalService) (os : list NetworkApprovalOutcome) : Prop := {
  live_active : is_Some (index_get id (active_calls (calls s)));
  live_outcome : call_outcomes (calls s) !! id = settled os;
  live_cancelled : os ≠ [] → id ∈ cancelled s;
}.

Lemma settled_outcome_snoc os o : settled (os ++ [o]) = settle (settled os) o.
Proof. unfold settled. by rewrite fold_left_app. Qed.
Lemma settled_denied os : settled os = Some DeniedByUser → os ≠ [].
Proof. by intros H ->. Qed.

Lemma recorded_self o s os : live s os → live (recorded id o s) (os ++ [o]).
Proof.
  intros [Ha Ho Hc]. destruct Ha as [c Ha].
  assert (Hset : settled os = Some DeniedByUser ∧ recorded id o s = s ∨
                 settled os ≠ Some DeniedByUser ∧
                 recorded id o s = cancel id (with_calls (λ c, mkCalls (active_calls c)
                                                (<[id := o]> (call_outcomes c))) s)).
  { unfold recorded, set_call_outcome. rewrite Ha, Ho. by destruct (settled os) as [[]|]; [left | right..]. }
  destruct Hset as [[Hd ->] | [Hd ->]]; split; cbn.
  - eauto.
  - by rewrite settled_outcome_snoc, Ho, Hd.
  - intros _. by apply Hc, settled_denied.
  - eauto.
  - rewrite lookup_insert_eq, settled_outcome_snoc. by destruct (settled os) as [[]|].
  - intros _. set_solver.
Qed.

Lemma recorded_live id' o s os :
  live s os → live (recorded id' o s) (os ++ (if id' == id then [o] else [])).
Proof.
  intros Hl. destruct (id' == id) eqn:E.
  { apply str_eqb_true in E as ->. by apply recorded_self. }
  apply str_eqb_false in E. rewrite app_nil_r. destruct (recorded_other id' o s E) as [Ho Hc].
  destruct Hl as [H1 H2 H3]. split; [by rewrite recorded_active | by rewrite Ho | by rewrite Hc].
Qed.

Lemma recorded_wf id' o s : calls_wf s → calls_wf (recorded id' o s).
Proof. unfold calls_wf. by rewrite recorded_active. Qed.

Lemma apply_op_wf op s : calls_wf s → calls_wf (apply_op op s).
Proof.
  intros Hwf. destruct op as [id' t tr c | id' | id' o | o]; cbn.
  - unfold calls_wf. cbn. induction Hwf as [| [k v] m Hv Hm IH]; cbn; [by repeat constructor|].
    destruct (id' == k); constructor; done.
  - unfold calls_wf, shift_remove. cbn. apply Forall_forall. intros e He.
    apply list_elem_of_In, List.filter_In in He as [He _]. apply list_elem_of_In in He.
    unfold calls_wf in Hwf. rewrite Forall_forall in Hwf. by apply Hwf.
  - by apply recorded_wf.
  - case_match; [by apply recorded_wf | done].
Qed.

Lemma apply_op_live op s os :
  calls_wf s → live s os → op ≠ OpFinish id → live (apply_op op s) (os ++ addressed_now id op s).
Proof.
  intros Hwf Hl Hop. destruct op as [id' t tr c | id' | id' o | o]; cbn [apply_op addressed_now].
  - rewrite app_nil_r. destruct Hl as [H1 H2 H3]. split; [| done | done].
    unfold register_call, with_calls. cbn [calls active_calls].
    destruct (decide (id = id')) as [<- | Hne].
    + rewrite index_get_insert. eauto.
    + by rewrite index_get_insert_ne.
  - rewrite app_nil_r. assert (id ≠ id') as Hne by congruence. destruct Hl as [H1 H2 H3].
    split; [| | done]; unfold unregister_call, remove_call, with_calls; cbn [fst calls active_calls call_outcomes].
    + by rewrite index_get_remove_ne.
    + by rewrite lookup_delete_ne by congruence.
  - by apply recorded_live.
  - unfold resolve_single_active_call. unfold calls_wf in Hwf.
    destruct (active_calls (calls s)) as [| [k c] [| e m]] eqn:Hact; [by rewrite app_nil_r | | by rewrite app_nil_r].
    apply Forall_cons in Hwf as [Hk _]. cbn in Hk. rewrite Hk. by apply recorded_live.
Qed.

Lemma apply_ops_live ops s os :
  calls_wf s → live s os → (OpFinish id ∉ ops) → live (apply_ops ops s) (os ++ addressed id ops s).
Proof.
  revert s os. induction ops as [| op ops IH]; intros s os Hwf Hl Hops; cbn [addressed].
  { by rewrite app_nil_r. }
  apply not_elem_of_cons in Hops as [Hop Hops]. rewrite app_assoc. cbn. apply IH; [by apply apply_op_wf | | done].
  apply apply_op_live; congruence.
Qed.
End Outcomes.

(** The outcome of a call is exact: when a call that was just registered ends, it is
    rejected if and only if a refusal concerned it meanwhile, with the message of a
    denial by the user if there was one and of the latest refusal otherwise; the refused
    call's token is cancelled at once; and nothing of the call stays behind. *)
Theorem call_outcome_exact id ops s :
  calls_wf s → is_Some (index_get id (active_calls (calls s))) →
  call_outcomes (calls s) !! id = None → (OpFinish id ∉ ops) →
  let '(s', r) := finish_call id (apply_ops ops s) in
  r = network_approval_outcome_to_result (settled (addressed id ops s)) ∧
  (r = Ok () ↔ addressed id ops s = []) ∧
  (addressed id ops s ≠ [] → id ∈ cancelled s') ∧
  call_outcomes (calls s') !! id = None ∧ index_get id (active_calls (calls s')) = None.
Proof.
  intros Hwf Ha Ho Hops.
  destruct (apply_ops_live id ops s [] Hwf) as [Hl1 Hl2 Hl3]; [by split | done|]. cbn [app] in *.
  unfold finish_call, finish_call_outcome, remove_call. cbn. rewrite Hl2, lookup_delete_eq. split_and!; try done.
  - destruct (addressed id ops s) as [| o os] using rev_ind; [done|]. rewrite settled_outcome_snoc.
    split; [| by intros [_ H]%app_nil]. by destruct (settled os) as [[]|], o.
  - unfold index_get, shift_remove. generalize (active_calls (calls (apply_ops ops s))).
    intros m. induction m as [| [k v] m IH]; cbn; [done|]. destruct (k == id) eqn:E; cbn; [done|]. by rewrite E.
Qed.

(** ** Runs of the model

    [schedule] runs the tasks in a given order; [reply] answers the questions. *)

Definition task_next (reply : ∀ X : Set, Ev X → option X) (s : NetworkApprovalService) (p : Task)
    : option (NetworkApprovalService * obs Ev * Task) :=
  match p with
  | Ret _ => None
  | Vis e cont =>
      (match e in Ev X return (X → Task) → option (NetworkApprovalService * obs Ev * Task) with
       | Atomic f => λ cont, Some ((f s).1, Obs (Atomic f) (f s).2, cont (f s).2)
       | Notified n c => λ cont,
           match pendings s !! n with
           | Some q => if c <? p_notified q then Some (s, Obs (Notified n c) (), cont ()) else None
           | None => None
           end
       | e => λ cont, match reply _ e with Some x => Some (s, Obs e x, cont x) | None => None end
       end) cont
  end.

Definition pool_next reply (σ : Pool) (i : nat) : Pool :=
  match tasks σ !! i with
  | Some p =>
      if bool_decide (i ∈ abandoned σ) then σ
      else match task_next reply (service σ) p with
           | Some (s, o, p) => mkPool s (answers σ ++ [o]) (requests σ) (<[i := p]> (tasks σ)) (abandoned σ)
           | None => σ
           end
  | None => σ
  end.
Definition schedule reply (σ : Pool) (order : list nat) : Pool := fold_left (pool_next reply) order σ.
Definition arrive (r : NetworkPolicyRequest) (σ : Pool) : Pool :=
  mkPool (service σ) (answers σ) (requests σ ++ [r]) (tasks σ ++ [handle_inline_policy_request r])
    (abandoned σ).
Definition abandon (i : nat) (σ : Pool) : Pool :=
  mkPool (service σ) (answers σ) (requests σ) (tasks σ) ({[i]} ∪ abandoned σ).

Lemma task_next_sound reply s p s' o p' :
  task_next reply s p = Some (s', o, p') → task_step s p s' o p'.
Proof.
  destruct p as [r | X e cont]; [done|]. destruct e as [X f | n c | | | | | | | | |]; cbn [task_next]; intros H;
    [by injection H as <- <- <-; apply step_atomic | | case_match; [| done]; injection H as <- <- <-; by constructor..].
  destruct (pendings s !! n) as [q|] eqn:Hq; [| done]. destruct (c <? p_notified q) eqn:Hc; [| done].
  injection H as <- <- <-. apply Nat.ltb_lt in Hc. by eapply step_notified.
Qed.

Lemma schedule_sound reply order σ : rtc any_step σ (schedule reply σ order).
Proof.
  revert σ. induction order as [| i order IH]; intros σ; [constructor|]. cbn.
  transitivity (pool_next reply σ i); [| apply IH]. unfold pool_next.
  destruct (tasks σ !! i) as [p|] eqn:Hi; [| constructor].
  case_bool_decide as Hab; [constructor|].
  destruct (task_next reply (service σ) p) as [[[s' o] p']|] eqn:Hn; [| constructor].
  apply rtc_once. left. destruct σ. econstructor; [done | done | by eapply task_next_sound].
Qed.
Lemma arrive_sound r σ : rtc any_step σ (arrive r σ).
Proof. apply rtc_once. right. destruct σ. constructor. Qed.
Lemma schedule_abandoned reply order σ : abandoned (schedule reply σ order) = abandoned σ.
Proof.
  revert σ. induction order as [| i order IH]; intros σ; [done|].
  change (schedule reply σ (i :: order)) with (schedule reply (pool_next reply σ i) order). rewrite IH.
  unfold pool_next. repeat case_match; done.
Qed.
Lemma abandon_sound i σ : i < length (tasks σ) → rtc any_step σ (abandon i σ).
Proof. intros Hi. apply rtc_once. right. destruct σ. by constructor. Qed.

Definition demo_request : NetworkPolicyRequest :=
  mkPolicyRequest HttpsConnect (lit "Example.com") 443 None None None None.
Definition demo_turn : TurnContext :=
  mkTurn (lit "turn") (ProfileManaged ManagedUnrestricted NetEnabled) OnRequest ReviewerUser (lit "/work").
(** The user answers [d]; the hooks have no opinion. *)
Definition user_says (d : ReviewDecision) (X : Set) (e : Ev X) : option X :=
  match e in Ev X return option X with
  | ActiveTurnContext => Some (Some demo_turn)
  | PermissionRequestHooks _ _ _ => Some None
  | RequestCommandApproval _ _ _ _ _ => Some d
  | _ => None
  end.

(** Two requests for one host: the first asks and the second waits for its answer. *)
Definition demo_pool (d : ReviewDecision) (order : list nat) : Pool :=
  schedule (user_says d) (arrive demo_request (arrive demo_request (started ∅ ∅))) order.
Lemma demo_pool_reachable d order : rtc any_step (started ∅ ∅) (demo_pool d order).
Proof.
  unfold demo_pool. etransitivity; [apply arrive_sound|].
  etransitivity; [apply arrive_sound | apply schedule_sound].
Qed.

Definition demo_order : list nat := [0; 1; 0; 1; 0; 1; 1; 1] ++ replicate 12 0 ++ replicate 4 1.
Example demo_allowed :
  tasks (demo_pool ApprovedForSession demo_order) = [Ret (Some NetworkProxy.Allow); Ret (Some NetworkProxy.Allow)].
Proof. vm_compute. reflexivity. Qed.

Lemma allow_needs_approval_witness :
  request_key demo_request ∈ (∅ : gset HostApprovalKey) ∨
  List.Exists (λ o, approves o (approval_id_for_key (request_key demo_request)))
    (answers (demo_pool ApprovedForSession demo_order)).
Proof.
  apply (allow_needs_approval ∅ ∅ _ 1 demo_request).
  - apply demo_pool_reachable.
  - vm_compute. reflexivity.
  - rewrite demo_allowed. reflexivity.
Defined.

Definition asking_pool : Pool := demo_pool Approved [0; 1; 0; 1; 0; 1; 0; 0; 1; 1].
Definition task_question (p : Task) : option str :=
  match p with Vis e _ => question e | Ret _ => None end.
Definition next_question (σ : Pool) (i : nat) : option str := tasks σ !! i ≫= task_question.
Lemma next_question_Some σ i id :
  next_question σ i = Some id →
  ∃ (X : Set) (e : Ev X) cont, tasks σ !! i = Some (Vis e cont) ∧ question e = Some id.
Proof.
  unfold next_question. intros H. destruct (tasks σ !! i) as [[r | X e cont]|]; [done | | done]. by exists X, e, cont.
Qed.
Lemma asking_pool_asks : next_question asking_pool 0 = Some (approval_id_for_key (request_key demo_request)).
Proof. vm_compute. reflexivity. Qed.
Lemma single_flight_witness :
  next_question asking_pool 0 = Some (approval_id_for_key (request_key demo_request)) ∧ 0 = 0.
Proof.
  split; [exact asking_pool_asks|].
  destruct (next_question_Some _ _ _ asking_pool_asks) as (X & e & cont & E & H).
  exact (single_flight ∅ ∅ asking_pool 0 0 X X e e cont cont _ (demo_pool_reachable _ _) E E H H).
Defined.

Lemma requests_answered_witness :
  let σ := demo_pool ApprovedForSession demo_order in
  Acc (flip pool_step) σ ∧
  ((∀ σ', ¬ pool_step σ σ') → abandoned σ = ∅ → ∀ i p, tasks σ !! i = Some p → ∃ d, p = Ret (Some d)).
Proof.
  intros σ. destruct (requests_answered ∅ ∅ σ (demo_pool_reachable _ _)) as (H1 & _ & H3).
  split; [exact H1|exact H3].
Defined.

Definition demo_trigger : GuardianNetworkAccessTrigger :=
  mkTrigger (lit "call") (lit "shell") [lit "curl"] (lit "/work") UseDefault None None None.
Definition demo_call (id : str) : CallOp := OpRegister id (lit "turn") demo_trigger (lit "curl").
Lemma call_outcome_exact_witness :
  let s := apply_op (demo_call (lit "a")) service_default in
  let ops := [OpRefused (DeniedByPolicy (lit "x")); demo_call (lit "b"); OpRefused (DeniedByPolicy (lit "y"));
              OpRecord (lit "a") DeniedByUser; OpFinish (lit "b"); OpRefused (DeniedByPolicy (lit "z"))] in
  (finish_call (lit "a") (apply_ops ops s)).2 = Err (Rejected (lit "rejected by user")).
Proof.
  intros s ops. pose proof (call_outcome_exact (lit "a") ops s) as H.
  destruct (finish_call (lit "a") (apply_ops ops s)) as [s' r].
  destruct H as (-> & _).
  - repeat constructor.
  - eexists. vm_compute. reflexivity.
  - vm_compute. reflexivity.
  - intros H. repeat (apply elem_of_cons in H as [H | H]; [discriminate H || (injection H as H; vm_compute in H; discriminate H) |]).
    by apply elem_of_nil in H.
  - vm_compute. reflexivity.
Defined.

(** ** A request that is abandoned

    When the proxy drops a request whose question is open, as it does when the client
    disconnects, its pending approval stays in the map with no decision. *)

Lemma held_no_step s p : held s p → ∀ s' o p', ¬ task_step s p s' o p'.
Proof.
  intros Hheld s' o p' Hstep. destruct Hstep as [X f k s | n c k s q Hq Hc | X e x k s He]; cbn in Hheld.
  - done.
  - specialize (Hheld q Hq). lia.
  - by destruct e.
Qed.

Definition is_held (s : NetworkApprovalService) (p : Task) : bool :=
  match p with
  | Vis (Notified n c) _ => match pendings s !! n with Some q => p_notified q <=? c | None => true end
  | _ => false
  end.
Lemma is_held_spec s p : is_held s p = true → held s p.
Proof.
  destruct p as [r | X e cont]; [done|]. destruct e as [X f | n c | | | | | | | | |]; try done. cbn [is_held held].
  intros H q Hq. rewrite Hq in H. by apply Nat.leb_le.
Qed.

Definition abandoned_pool : Pool :=
  schedule (user_says Approved)
    (arrive demo_request
       (abandon 0 (schedule (user_says Approved) (arrive demo_request (started ∅ ∅)) [0; 0; 0; 0; 0; 0])))
    [1; 1; 1; 1; 1].

Lemma abandoned_pool_reachable : rtc any_step (started ∅ ∅) abandoned_pool.
Proof.
  unfold abandoned_pool. etransitivity; [| apply schedule_sound]. etransitivity; [| apply arrive_sound].
  etransitivity; [| apply abandon_sound; vm_compute; lia]. etransitivity; [apply arrive_sound | apply schedule_sound].
Qed.

Lemma held_by_computation σ i :
  is_held (service σ) <$> (tasks σ !! i) = Some true → ∀ p, tasks σ !! i = Some p → held (service σ) p.
Proof. intros H p Hp. apply is_held_spec. rewrite Hp in H. by injection H. Qed.

Lemma only_held_no_step σ σ' :
  pool_step σ σ' → length (tasks σ) = 2 → abandoned σ = {[0]} →
  (∀ p, tasks σ !! 1 = Some p → held (service σ) p) → False.
Proof.
  intros Hs Hl Hd Hh. destruct Hs as [s l rs ts ab i p s' o p' Hi Hab Hp].
  cbn [tasks abandoned service] in *. subst ab.
  pose proof (lookup_lt_Some _ _ _ Hi). assert (i = 1) as -> by (rewrite not_elem_of_singleton in Hab; lia).
  by eapply held_no_step; [eapply Hh|].
Qed.

(** A later request for the same host is never answered: it waits for the abandoned one. *)
Example abandoned_request_blocks :
  length (tasks abandoned_pool) = 2 ∧ abandoned abandoned_pool = {[0]} ∧
  (∀ σ', ¬ pool_step abandoned_pool σ') ∧
  (∀ p d, tasks abandoned_pool !! 1 = Some p → p ≠ Ret d).
Proof.
  assert (Hlen : length (tasks abandoned_pool) = 2) by (vm_compute; reflexivity).
  assert (Hdrop : abandoned abandoned_pool = {[0]}).
  { unfold abandoned_pool. rewrite schedule_abandoned. cbn [abandoned arrive abandon].
    rewrite schedule_abandoned. cbn [abandoned arrive started]. set_solver. }
  assert (Hheld : ∀ p, tasks abandoned_pool !! 1 = Some p → held (service abandoned_pool) p)
    by (apply held_by_computation; vm_compute; reflexivity).
  split; [exact Hlen|]. split; [exact Hdrop|]. split.
  - intros σ' Hs. exact (only_held_no_step _ _ Hs Hlen Hdrop Hheld).
  - intros p d Hp ->. exact (Hheld _ Hp).
Qed.
