(* ===== verification/Orchestrator.v ===== *)
(** * Running a tool: approval, sandbox, retry

    [core/src/tools/orchestrator.rs] drives every command and patch: it asks for the
    approval the request needs, selects the sandbox of the first attempt, runs it, and
    after a denial by the sandbox may run it again without one.  The policies and traits
    it uses are in [core/src/tools/sandboxing.rs]; the runtimes of shell commands, of
    unified exec and of patches ([core/src/tools/runtimes]) are its clients;
    [sandboxing/src/manager.rs] selects the sandbox.

    [run] is a [prog] (Interact): hooks, reviewers, the network approval service and the
    tool itself are called and may answer anything.  Durations are not recorded. *)

From S2P Require Import Prelude RustStr AbsPath HostShell Permissions ReadDeny PolicyTransforms CommandSafety.
From S2P Require Import ExecPolicy ExecApproval NetworkPolicy NetworkProxy Interact NetworkApproval.

Local Open Scope rstr_scope.

(** ** Sandboxes (sandboxing/src/manager.rs) *)

Inductive SandboxType := SandboxNone | MacosSeatbelt | LinuxSeccomp | WindowsRestrictedToken.
#[export] Instance SandboxType_eq_dec : EqDecision SandboxType.
Proof. solve_decision. Defined.
Inductive SandboxablePreference := PrefAuto | PrefRequire | PrefForbid.
Inductive WindowsSandboxLevel := WinDisabled | WinRestrictedToken | WinElevated.
#[export] Instance WindowsSandboxLevel_eq_dec : EqDecision WindowsSandboxLevel.
Proof. solve_decision. Defined.

(** [cfg!(target_os = ..)] *)
Inductive TargetOs := MacOs | Linux | Windows | OtherOs.

Definition as_metric_tag (t : SandboxType) : str :=
  match t with
  | SandboxNone => lit "none" | MacosSeatbelt => lit "seatbelt"
  | LinuxSeccomp => lit "seccomp" | WindowsRestrictedToken => lit "windows_sandbox"
  end.

Definition get_platform_sandbox (os : TargetOs) (windows_sandbox_enabled : bool) : option SandboxType :=
  match os with
  | MacOs => Some MacosSeatbelt
  | Linux => Some LinuxSeccomp
  | Windows => if windows_sandbox_enabled then Some WindowsRestrictedToken else None
  | OtherOs => None
  end.

Definition select_initial (os : TargetOs) (fs : FileSystemSandboxPolicy) (net : NetworkSandboxPolicy)
    (pref : SandboxablePreference) (level : WindowsSandboxLevel) (has_managed_network_requirements : bool)
    : SandboxType :=
  let platform := default SandboxNone (get_platform_sandbox os (negb (bool_decide (level = WinDisabled)))) in
  match pref with
  | PrefForbid => SandboxNone
  | PrefRequire => platform
  | PrefAuto =>
      if should_require_platform_sandbox fs net has_managed_network_requirements then platform else SandboxNone
  end.

Definition with_managed_mitm_ca_readable_root `{W : PermWorld} (profile : PermissionProfile)
    (managed_mitm_ca_trust_bundle_path : option str) (sandbox_policy_cwd : str) : PermissionProfile :=
  match managed_mitm_ca_trust_bundle_path with
  | None => profile
  | Some path =>
      let '(fs, net) := to_runtime_permissions profile in
      from_runtime_permissions_with_enforcement (enforcement profile)
        (with_additional_readable_roots fs sandbox_policy_cwd [path]) net
  end.

Definition ensure_linux_bubblewrap_is_supported (fs : FileSystemSandboxPolicy)
    (use_legacy_landlock allow_network_for_proxy is_wsl1 : bool) : bool :=
  let requires_bubblewrap :=
    allow_network_for_proxy || (negb use_legacy_landlock && negb (has_full_disk_write_access fs)) in
  negb (is_wsl1 && requires_bubblewrap).

(** ** Requirements and overrides (core/src/tools/sandboxing.rs) *)

Definition requires_escalated_permissions (s : SandboxPermissions) : bool :=
  match s with RequireEscalated => true | _ => false end.
Definition uses_additional_permissions (s : SandboxPermissions) : bool :=
  match s with WithAdditionalPermissions => true | _ => false end.

Definition allows_sandbox_approval (policy : AskForApproval) : bool :=
  match policy with Granular sandbox_approval _ _ _ _ => sandbox_approval | _ => true end.

Definition proposed_execpolicy_amendment (r : ExecApprovalRequirement) : option ExecPolicyAmendment :=
  match r with
  | NeedsApproval _ (Some prefix) => Some prefix
  | Skip _ (Some prefix) => Some prefix
  | _ => None
  end.

Definition default_exec_approval_requirement (policy : AskForApproval) (fs : FileSystemSandboxPolicy)
    : ExecApprovalRequirement :=
  let needs_approval :=
    match policy with
    | Never | OnFailure => false
    | OnRequest | Granular _ _ _ _ _ => match Permissions.kind fs with Restricted => true | _ => false end
    | UnlessTrusted => true
    end in
  if needs_approval &&
     match policy with Granular sandbox_approval _ _ _ _ => negb sandbox_approval | _ => false end
  then ForbiddenReq (lit "approval policy disallowed sandbox approval prompt")
  else if needs_approval then NeedsApproval None None
  else Skip false None.

Inductive SandboxOverride := NoOverride | BypassSandboxFirstAttempt.

Definition unsandboxed_execution_allowed (fs : FileSystemSandboxPolicy) : bool :=
  negb (has_denied_read_restrictions fs).

Definition sandbox_override_for_first_attempt (s : SandboxPermissions) (r : ExecApprovalRequirement)
    (fs : FileSystemSandboxPolicy) : SandboxOverride :=
  if negb (unsandboxed_execution_allowed fs) then NoOverride
  else if match r with Skip bypass_sandbox _ => bypass_sandbox | _ => false end
  then BypassSandboxFirstAttempt
  else if requires_escalated_permissions s then BypassSandboxFirstAttempt else NoOverride.

Definition sandbox_permissions_preserving_denied_reads (s : SandboxPermissions) (fs : FileSystemSandboxPolicy)
    : SandboxPermissions :=
  if requires_escalated_permissions s && negb (unsandboxed_execution_allowed fs) then UseDefault else s.

Definition managed_network_for_sandbox_permissions {P} (network : option P) (s : SandboxPermissions) : option P :=
  if requires_escalated_permissions s then None else network.

(** ** The cache of approvals *)

(** The keys of the three runtimes; they are stored by their JSON text. *)
Inductive ApprovalKey :=
| ShellKey (command : list str) (cwd : str) (s : SandboxPermissions) (a : option AdditionalPermissionProfile)
| ExecKey (environment_id : str) (command : list str) (cwd : str) (tty : bool) (s : SandboxPermissions)
    (a : option AdditionalPermissionProfile)
| PatchKey (environment_id path : str).

Section Store.
Context (to_json : ApprovalKey → option str).

(** [ApprovalStore] is the map from texts to decisions. *)
Definition store_get (store : gmap (list N) ReviewDecision) (key : ApprovalKey) : option ReviewDecision :=
  s ← to_json key; store !! s.
Definition store_put (key : ApprovalKey) (value : ReviewDecision) (store : gmap (list N) ReviewDecision) : gmap (list N) ReviewDecision :=
  match to_json key with Some s => <[s := value]> store | None => store end.

Definition is_approved_for_session (d : option ReviewDecision) : bool :=
  match d with Some ApprovedForSession => true | _ => false end.

(** [fetch] is the answer of the user, asked only if it is needed; the result says
    whether it was. *)
Definition with_cached_approval (keys : list ApprovalKey) (fetch : ReviewDecision) (store : gmap (list N) ReviewDecision)
    : gmap (list N) ReviewDecision * ReviewDecision * bool :=
  if is_empty keys then (store, fetch, true)
  else if all (λ key, is_approved_for_session (store_get store key)) keys
  then (store, ApprovedForSession, false)
  else match fetch with
       | ApprovedForSession =>
           (fold_left (λ st key, store_put key ApprovedForSession st) keys store, fetch, true)
       | _ => (store, fetch, true)
       end.

End Store.

(** ** core/src/command_canonicalization.rs *)

Definition CANONICAL_BASH_SCRIPT_PREFIX : str := lit "__codex_shell_script__".
Definition CANONICAL_POWERSHELL_SCRIPT_PREFIX : str := lit "__codex_powershell_script__".
Definition POWERSHELL_FLAGS : list str := lit <$> ["-nologo"; "-noprofile"; "-command"; "-c"].

(** The loop over the flags; [rest] starts at index [i]. *)
Fixpoint powershell_script (rest : list str) : option str :=
  match rest with
  | flag :: tail =>
      match tail with
      | script :: _ =>
          if negb (any (str_eqb (to_ascii_lowercase <$> flag)) POWERSHELL_FLAGS) then None
          else if eq_ignore_ascii_case flag (lit "-Command") || eq_ignore_ascii_case flag (lit "-c")
          then Some script
          else powershell_script tail
      | [] => None
      end
  | [] => None
  end.
Definition extract_powershell_command (command : list str) : option (str * str) :=
  match command with
  | shell :: rest =>
      if length command <? 3 then None
      else match detect_shell_type shell with
           | Some PowerShell => (λ script, (shell, script)) <$> powershell_script rest
           | _ => None
           end
  | [] => None
  end.

Definition canonicalize_command_for_approval (try_parse_shell : str → option Node) (command : list str)
    : list str :=
  match parse_shell_lc_plain_commands try_parse_shell command with
  | Some [single_command] => single_command
  | _ =>
      match extract_bash_command command with
      | Some (_, script) => [CANONICAL_BASH_SCRIPT_PREFIX; default [] (command !! 1); script]
      | None =>
          match extract_powershell_command command with
          | Some (_, script) => [CANONICAL_POWERSHELL_SCRIPT_PREFIX; script]
          | None => command
          end
      end
  end.

(** ** What the orchestrator knows of the turn, the call and an attempt *)

Record ApprovalCtx := mkApprovalCtx {
  ctx_call_id : str;
  guardian_review_id : option str;
  retry_reason : option str;
  network_approval_context : option NetworkApprovalContext;
}.

(** [PermissionRequestPayload]: the hook name and the string fields of its JSON input. *)
Record PermissionRequestPayload := mkPayload {
  hook_tool_name : str;
  matcher_aliases : list str;
  tool_input : list (str * str);
}.
Definition bash_payload (command : str) (description : option str) : PermissionRequestPayload :=
  mkPayload (lit "Bash") []
    ((lit "command", command) ::
     match description with Some d => [(lit "description", d)] | None => [] end).

(** The turn as the orchestrator uses it: that of NetworkApproval, with the sandbox
    settings. *)
Record ToolTurn := mkToolTurn {
  turn : TurnContext;
  managed_network : bool;
  windows_sandbox_level : WindowsSandboxLevel;
  use_legacy_landlock : bool;
  workspace_roots : list str;
  codex_linux_sandbox_exe : option str;
  windows_sandbox_private_desktop : bool;
}.
Record ToolCtx := mkToolCtx {
  call_id : str;
  tool_name : str;
}.

Record SandboxAttempt := mkAttempt {
  sandbox : SandboxType;
  at_permissions : PermissionProfile;
  enforce_managed_network : bool;
  at_sandbox_cwd : str;
  at_workspace_roots : list str;
  at_linux_sandbox_exe : option str;
  at_use_legacy_landlock : bool;
  at_windows_sandbox_level : WindowsSandboxLevel;
  at_private_desktop : bool;
  network_denial_cancellation_token : option str;
}.

Definition turn_fs (t : ToolTurn) : FileSystemSandboxPolicy := file_system_sandbox_policy (turn_profile (turn t)).
Definition turn_net (t : ToolTurn) : NetworkSandboxPolicy := network_sandbox_policy (turn_profile (turn t)).

(** ** Runtimes ([Approvable], [Sandboxable] and [ToolRuntime])

    The methods the orchestrator calls without waiting. *)

Class ToolRuntime (Rq : Type) := {
  sandbox_permissions_of : Rq → SandboxPermissions;
  should_bypass_approval : AskForApproval → bool → bool;
  exec_approval_requirement : Rq → option ExecApprovalRequirement;
  permission_request_payload : Rq → option PermissionRequestPayload;
  wants_no_sandbox_approval : AskForApproval → bool;
  sandbox_preference : SandboxablePreference;
  escalate_on_failure : bool;
  network_approval_spec : Rq → ToolTurn → ToolCtx → option NetworkApprovalSpec;
  sandbox_cwd : Rq → option str;
}.

(** The methods the traits provide. *)
Definition default_should_bypass_approval (policy : AskForApproval) (already_approved : bool) : bool :=
  if already_approved then true else match policy with Never => true | _ => false end.
Definition default_wants_no_sandbox_approval (policy : AskForApproval) : bool :=
  match policy with
  | OnFailure | UnlessTrusted => true
  | Never | OnRequest => false
  | Granular sandbox_approval _ _ _ _ => sandbox_approval
  end.

(** ** The orchestrator *)

Inductive ToolDecisionSource := SourceConfig | SourceAutomatedReviewer | SourceUser.

Section Orchestrator.
Context (os : TargetOs) {Rq : Type} `{ToolRuntime Rq} {Out : Set}.

Inductive OEv : Set → Type :=
| StrictAutoReview : OEv bool
| NewReviewId : OEv str
| RunHooks (run_id : str) (payload : PermissionRequestPayload) : OEv (option PermissionRequestDecision)
| StartApproval (ctx : ApprovalCtx) : OEv ReviewDecision
| RejectionMessage (review_id : str) : OEv str
| BeginNetwork (turn_id : str) (managed_network_active : bool) (spec : option NetworkApprovalSpec)
    : OEv (option ActiveNetworkApproval)
| RunTool (attempt : SandboxAttempt) : OEv (result ToolError Out)
| FinishImmediate (a : ActiveNetworkApproval) : OEv (result ToolError unit)
| FinishDeferred (d : option DeferredNetworkApproval) : OEv (result ToolError unit)
| OtelToolDecision (d : ReviewDecision) (source : ToolDecisionSource) : OEv unit
| OtelSandboxOutcome (outcome : str) (escalated : bool) : OEv unit.

Record OrchestratorRunResult := mkRunResult {
  output : Out;
  deferred_network_approval : option DeferredNetworkApproval;
}.

Context (req : Rq) (ctx : ToolCtx) (t : ToolTurn) (approval_policy : AskForApproval).

Definition run_attempt (attempt : SandboxAttempt)
    : prog OEv (result ToolError Out * option DeferredNetworkApproval) :=
  network_approval ← call (BeginNetwork (sub_id (turn t)) (managed_network t) (network_approval_spec req t ctx));
  run_result ← call (RunTool (mkAttempt (sandbox attempt) (at_permissions attempt) (enforce_managed_network attempt)
    (at_sandbox_cwd attempt) (at_workspace_roots attempt) (at_linux_sandbox_exe attempt)
    (at_use_legacy_landlock attempt) (at_windows_sandbox_level attempt) (at_private_desktop attempt)
    (network_approval ≫= a_registration_id)));
  match network_approval with
  | None => mret (run_result, None)
  | Some a =>
      match a_mode a with
      | Immediate =>
          finalize_result ← call (FinishImmediate a);
          match finalize_result with
          | Err err => mret (Err err, None)
          | Ok _ => mret (run_result, None)
          end
      | Deferred =>
          match run_result with
          | Err _ =>
              finalize_result ← call (FinishDeferred (into_deferred a));
              match finalize_result with
              | Err err => mret (Err err, None)
              | Ok _ => mret (run_result, None)
              end
          | Ok _ => mret (run_result, into_deferred a)
          end
      end
  end.

(** A [PermissionRequest] hook answers first, then the reviewer or the user. *)
Definition request_approval (run_id : str) (actx : ApprovalCtx) (evaluate_hooks : bool)
    : prog OEv (result ToolError ReviewDecision) :=
  hooks ← match (if evaluate_hooks then permission_request_payload req else None) with
          | Some payload => call (RunHooks run_id payload)
          | None => mret None
          end;
  match hooks with
  | Some HookAllow => call (OtelToolDecision Approved SourceConfig);; mret (Ok Approved)
  | Some (HookDeny message) => call (OtelToolDecision ReviewDenied SourceConfig);; mret (Err (Rejected message))
  | None =>
      decision ← call (StartApproval actx);
      call (OtelToolDecision decision
              (match guardian_review_id actx with Some _ => SourceAutomatedReviewer | None => SourceUser end));;
      mret (Ok decision)
  end.

Definition reject_if_not_approved (review_id : option str) (decision : ReviewDecision)
    : prog OEv (result ToolError unit) :=
  match decision with
  | ReviewDenied | ReviewAborted =>
      match review_id with
      | Some id => reason ← call (RejectionMessage id); mret (Err (Rejected reason))
      | None => mret (Err (Rejected (lit "rejected by user")))
      end
  | TimedOut => mret (Err (Rejected guardian_timeout_message))
  | Approved | ApprovedExecpolicyAmendment _ | ApprovedForSession => mret (Ok ())
  | AmendNetworkPolicy a =>
      match npa_action a with
      | RuleAllow => mret (Ok ())
      | RuleDeny => mret (Err (Rejected (lit "rejected by user")))
      end
  end.

Definition new_review_id (wanted : bool) : prog OEv (option str) :=
  if wanted then id ← call NewReviewId; mret (Some id) else mret None.

(** One prompt: the id of the review, the question, the verdict. *)
Definition approve (wanted : bool) (run_id : str) (reason : option str)
    (network_context : option NetworkApprovalContext) (evaluate_hooks : bool) : prog OEv (result ToolError unit) :=
  review_id ← new_review_id wanted;
  decision ←? request_approval run_id (mkApprovalCtx (call_id ctx) review_id reason network_context) evaluate_hooks;
  reject_if_not_approved review_id decision.

Definition requirement : ExecApprovalRequirement :=
  match exec_approval_requirement req with
  | Some r => r
  | None => default_exec_approval_requirement approval_policy (turn_fs t)
  end.

(** 1) Approval; the result is [already_approved]. *)
Definition first_approval (strict_auto_review use_guardian : bool) : prog OEv (result ToolError bool) :=
  match requirement with
  | Skip _ _ =>
      if strict_auto_review then
        _ ←? approve true (call_id ctx) None None false; mret (Ok true)
      else call (OtelToolDecision Approved SourceConfig);; mret (Ok false)
  | ForbiddenReq reason => mret (Err (Rejected reason))
  | NeedsApproval reason _ =>
      _ ←? approve use_guardian (call_id ctx) reason None (negb strict_auto_review); mret (Ok true)
  end.

Definition select_sandbox : SandboxType :=
  select_initial os (turn_fs t) (turn_net t) sandbox_preference (windows_sandbox_level t) (managed_network t).

Definition attempt_with (s : SandboxType) (exe : option str) : SandboxAttempt :=
  mkAttempt s (turn_profile (turn t)) (managed_network t) (default (turn_cwd (turn t)) (sandbox_cwd req))
    (workspace_roots t) exe (use_legacy_landlock t) (windows_sandbox_level t)
    (windows_sandbox_private_desktop t) None.

Definition initial_attempt : SandboxAttempt :=
  attempt_with
    (match sandbox_override_for_first_attempt (sandbox_permissions_of req) requirement (turn_fs t) with
     | BypassSandboxFirstAttempt => SandboxNone
     | NoOverride => select_sandbox
     end) (codex_linux_sandbox_exe t).

Definition sandbox_outcome_from_tool_error (err : ToolError) : option str :=
  match err with
  | Codex (CodexSandbox (SandboxDenied _ _)) => Some (lit "denied")
  | Codex (CodexSandbox (SandboxTimeout _)) => Some (lit "timed_out")
  | Codex (CodexSandbox (SandboxSignal _)) => Some (lit "signal")
  | Rejected _ | Codex _ => None
  end.
Definition report_outcome (err : ToolError) (escalated : bool) : prog OEv unit :=
  match sandbox_outcome_from_tool_error err with
  | Some outcome => call (OtelSandboxOutcome outcome escalated)
  | None => mret ()
  end.

Definition build_denial_reason_from_output (_ : ExecToolCallOutput) : str :=
  lit "command failed; retry without sandbox?".

(** The network question behind a denial. *)
Definition denial_network_context (decision : option NetworkPolicyDecisionPayload) : option NetworkApprovalContext :=
  if managed_network t then decision ≫= network_approval_context_from_payload else None.

(** The conditions under which a denial is final. *)
Definition allow_on_request_network_prompt (network_context : option NetworkApprovalContext) : bool :=
  match approval_policy with OnRequest => true | _ => false end &&
  opt_is_some network_context &&
  match default_exec_approval_requirement approval_policy (turn_fs t) with NeedsApproval _ _ => true | _ => false end.
Definition denial_is_final (decision : option NetworkPolicyDecisionPayload) : bool :=
  let network_context := denial_network_context decision in
  if opt_is_some decision && negb (opt_is_some network_context) then true
  else if negb escalate_on_failure then true
  else if negb (wants_no_sandbox_approval approval_policy) &&
          negb (allow_on_request_network_prompt network_context) then true
  else negb (unsandboxed_execution_allowed (turn_fs t)) && negb (opt_is_some network_context).

Definition retry_attempt : SandboxAttempt :=
  if unsandboxed_execution_allowed (turn_fs t) then attempt_with SandboxNone None
  else attempt_with select_sandbox (codex_linux_sandbox_exe t).

Definition retry (strict_auto_review use_guardian already_approved : bool) (out : ExecToolCallOutput)
    (decision : option NetworkPolicyDecisionPayload) : prog OEv (result ToolError OrchestratorRunResult) :=
  if denial_is_final decision then
    call (OtelSandboxOutcome (lit "denied") false);;
    mret (Err (Codex (CodexSandbox (SandboxDenied out decision))))
  else
    let network_context := denial_network_context decision in
    let reason :=
      match network_context with
      | Some c => lit "Network access to " ++ dquote ++ nac_host c ++ dquote ++ lit " is blocked by policy."
      | None => build_denial_reason_from_output out
      end in
    let bypass_retry_approval :=
      negb strict_auto_review && should_bypass_approval approval_policy already_approved &&
      negb (opt_is_some network_context) in
    _ ←? (if bypass_retry_approval then mret (Ok ())
          else approve use_guardian (call_id ctx ++ lit ":retry") (Some reason) network_context
                 (negb strict_auto_review));
    '(retry_result, deferred) ← run_attempt retry_attempt;
    match retry_result with
    | Ok o => call (OtelSandboxOutcome (lit "escalated") true);; mret (Ok (mkRunResult o deferred))
    | Err err => report_outcome err true;; mret (Err err)
    end.

Definition run : prog OEv (result ToolError OrchestratorRunResult) :=
  strict_auto_review ← call StrictAutoReview;
  let use_guardian := routes_approval_to_guardian (turn t) || strict_auto_review in
  already_approved ←? first_approval strict_auto_review use_guardian;
  '(first_result, deferred) ← run_attempt initial_attempt;
  match first_result with
  | Ok o => mret (Ok (mkRunResult o deferred))
  | Err (Codex (CodexSandbox (SandboxDenied out decision))) =>
      retry strict_auto_review use_guardian already_approved out decision
  | Err err => report_outcome err false;; mret (Err err)
  end.

End Orchestrator.

Arguments run os {Rq _ Out} req ctx t approval_policy.
Arguments mkRunResult {Out} output deferred_network_approval.
Arguments output {Out} _.

(** ** The protocol of a run

    What the orchestrator promises about the calls it makes, as a small automaton over
    the trace: which attempts may start when, and that nothing runs after a refusal. *)

(** What the orchestrator relies on of a runtime. *)
Class RuntimeLaws (Rq : Type) `{ToolRuntime Rq} : Prop := {
  bypass_only_approved p already :
    should_bypass_approval p already = true → already = true ∨ p = Never;
  never_escalates : wants_no_sandbox_approval Never = false;
}.

Definition untoken (a : SandboxAttempt) : SandboxAttempt :=
  mkAttempt (sandbox a) (at_permissions a) (enforce_managed_network a) (at_sandbox_cwd a) (at_workspace_roots a)
    (at_linux_sandbox_exe a) (at_use_legacy_landlock a) (at_windows_sandbox_level a) (at_private_desktop a) None.

Section Protocol.
Context (os : TargetOs) {Rq : Type} `{HR : ToolRuntime Rq} {Out : Set}.
Context (req : Rq) (ctx : ToolCtx) (t : ToolTurn) (approval_policy : AskForApproval).

(** Before the first attempt, after [n] attempts with the answer of the last, or refused;
    [consent]: a hook, the reviewer or the user has approved. *)
Inductive stage :=
| Before (consent : bool)
| Ran (consent : bool) (n : nat) (last : result ToolError Out)
| Refused.

Definition consent_of (st : stage) : bool :=
  match st with Before c | Ran c _ _ => c | Refused => false end.
Definition with_consent (st : stage) : stage :=
  match st with Before _ => Before true | Ran _ n r => Ran true n r | Refused => Refused end.

Definition may_start (consent : bool) (a : SandboxAttempt) : Prop :=
  untoken a = initial_attempt os req t approval_policy ∧
  match requirement req t approval_policy with
  | Skip _ _ => True
  | NeedsApproval _ _ => consent = true
  | ForbiddenReq _ => False
  end.
Definition is_denial (r : result ToolError Out) : bool :=
  match r with Err (Codex (CodexSandbox (SandboxDenied _ _))) => true | _ => false end.
Definition may_retry (consent : bool) (n : nat) (last : result ToolError Out) (a : SandboxAttempt) : Prop :=
  untoken a = retry_attempt os req t ∧ consent = true ∧ n = 1 ∧ is_denial last = true.

Definition answered (st : stage) (allowed refused : bool) : stage :=
  if refused then Refused else if allowed then with_consent st else st.
Definition hook_denies (d : option PermissionRequestDecision) : bool :=
  match d with Some (HookDeny _) => true | _ => false end.

(** [Refused] is left by no question: the orchestrator does not ask again. *)
Definition advance (st : stage) {X : Set} (e : OEv (Out:=Out) X) : X → stage → Prop :=
  match e in OEv Y return Y → stage → Prop with
  | RunTool a => λ x st',
      match st with
      | Before c => may_start c a ∧ st' = Ran c 1 x
      | Ran c n last => may_retry c n last a ∧ st' = Ran c (S n) x
      | Refused => False
      end
  | StartApproval _ => λ x st', st ≠ Refused ∧ st' = answered st (review_allows x) (negb (review_allows x))
  | RunHooks _ _ => λ x st', st ≠ Refused ∧ st' = answered st (hook_allows x) (hook_denies x)
  | FinishImmediate _ | FinishDeferred _ => λ x st',
      match st, x with
      | Ran c n _, Err e => st' = Ran c n (Err e)
      | Ran _ _ _, Ok _ => st' = st
      | _, _ => False
      end
  | _ => λ _ st', st' = st
  end.

Fixpoint protocol (st : stage) (tr : list (obs (OEv (Out:=Out)))) (st' : stage) : Prop :=
  match tr with
  | [] => st' = st
  | Obs e x :: tr => ∃ st1, advance st e x st1 ∧ protocol st1 tr st'
  end.

(** The result of a run: the answer of the last attempt (or of its network approval), or
    a rejection. *)
Definition concludes (st : stage) (r : result ToolError (OrchestratorRunResult (Out:=Out))) : Prop :=
  match st with
  | Before _ => ∃ reason, requirement req t approval_policy = ForbiddenReq reason ∧ r = Err (Rejected reason)
  | Ran _ n last => n ≤ 2 ∧ (output <$> r) = last
  | Refused => ∃ message, r = Err (Rejected message)
  end.

(** *** Programs that follow the protocol *)

Definition follows {A} (st : stage) (p : prog (OEv (Out:=Out)) A) (R : stage → A → Prop) : Prop :=
  wp p (λ tr a, ∃ st', protocol st tr st' ∧ R st' a).

Lemma follows_ret {A} st (a : A) R : R st a → follows st (mret a) R.
Proof. intros HR'. exists st. by split. Qed.

Lemma follows_call {X : Set} {A} st (e : OEv (Out:=Out) X) (f : X → prog (OEv (Out:=Out)) A) R :
  (∀ x, ∃ st', advance st e x st' ∧ follows st' (f x) R) → follows st (call e ≫= f) R.
Proof.
  intros Hx x. destruct (Hx x) as (st1 & Ha & Hf). eapply wp_mono; [| exact Hf].
  intros tr a (st' & Hp & HR'). exists st'. split; [| done]. by exists st1.
Qed.

Lemma protocol_app st tr tr' st1 st2 : protocol st tr st1 → protocol st1 tr' st2 → protocol st (tr ++ tr') st2.
Proof.
  revert st. induction tr as [| [X e x] tr IH]; intros st; cbn.
  - by intros ->.
  - intros (st' & Ha & Hp) H2. exists st'. split; [done|]. by apply IH.
Qed.

Lemma follows_bind {A B} st (p : prog (OEv (Out:=Out)) A) (f : A → prog (OEv (Out:=Out)) B) R S :
  follows st p R → (∀ st' a, R st' a → follows st' (f a) S) → follows st (p ≫= f) S.
Proof.
  intros Hp Hf. apply wp_bind. eapply wp_mono; [| exact Hp]. intros tr a (st1 & H1 & HR').
  eapply wp_mono; [| apply (Hf st1 a HR')]. intros tr' b (st2 & H2 & HS).
  exists st2. split; [| done]. by eapply protocol_app.
Qed.

Lemma follows_mono {A} st (p : prog (OEv (Out:=Out)) A) (R S : stage → A → Prop) :
  (∀ st a, R st a → S st a) → follows st p R → follows st p S.
Proof. intros HRS. apply wp_mono. intros tr a (st' & Hp & HR'). eauto. Qed.

(** Calls that are neither questions nor attempts. *)
Lemma follows_otel {A} st d s (p : prog (OEv (Out:=Out)) A) R :
  follows st p R → follows st (call (OtelToolDecision d s);; p) R.
Proof. intros Hp. apply follows_call. intros []. by exists st. Qed.
Lemma follows_outcome {A} st o b (p : prog (OEv (Out:=Out)) A) R :
  follows st p R → follows st (call (OtelSandboxOutcome o b);; p) R.
Proof. intros Hp. apply follows_call. intros []. by exists st. Qed.

Definition verdict (st st' : stage) (r : result ToolError unit) : Prop :=
  r = Ok () ∧ st' = with_consent st ∨ (∃ m, r = Err (Rejected m)) ∧ st' = Refused.

(** The answer, with the stage it leads to. *)
Lemma follows_request st run_id actx hooks :
  st ≠ Refused →
  follows st (request_approval req run_id actx hooks)
    (λ st' r, match r with
              | Ok d => st' = answered st (review_allows d) (negb (review_allows d))
              | Err e => (∃ m, e = Rejected m) ∧ st' = Refused
              end).
Proof.
  intros Hst.
  assert (Hask : follows st
    (decision ← call (StartApproval actx);
     call (OtelToolDecision decision
             (match guardian_review_id actx with Some _ => SourceAutomatedReviewer | None => SourceUser end));;
     mret (Ok decision))
    (λ st' r, match r with
              | Ok d => st' = answered st (review_allows d) (negb (review_allows d))
              | Err e => (∃ m, e = Rejected m) ∧ st' = Refused
              end)).
  { apply follows_call. intros d. eexists. split; [by split|]. by apply follows_otel, follows_ret. }
  unfold request_approval.
  destruct (if hooks then permission_request_payload req else None) as [payload|]; [| exact Hask].
  apply follows_call. intros [[| message]|]; eexists; (split; [by split|]).
  - by apply follows_otel, follows_ret.
  - apply follows_otel, follows_ret. eauto.
  - exact Hask.
Qed.

Lemma follows_reject st review_id d :
  follows (answered st (review_allows d) (negb (review_allows d))) (reject_if_not_approved review_id d)
    (λ st' r, verdict st st' r).
Proof.
  unfold reject_if_not_approved.
  assert (Hyes : follows (with_consent st) (mret (Ok ())) (λ st' r, verdict st st' r))
    by (apply follows_ret; by left).
  assert (Hno : ∀ m, follows Refused (mret (Err (Rejected m))) (λ st' r, verdict st st' r))
    by (intros m; apply follows_ret; right; eauto).
  destruct d as [| a | | [h []] | | |]; cbn [review_allows npa_action negb answered]; try exact Hyes; try apply Hno.
  - destruct review_id as [id|]; [| apply Hno]. apply follows_call. intros m. exists Refused. by split.
  - destruct review_id as [id|]; [| apply Hno]. apply follows_call. intros m. exists Refused. by split.
Qed.

Lemma follows_approve st wanted run_id reason net hooks :
  st ≠ Refused →
  follows st (approve req ctx wanted run_id reason net hooks) (λ st' r, verdict st st' r).
Proof.
  intros Hst. unfold approve.
  assert (Hid : follows st (new_review_id wanted) (λ st' _, st' = st)).
  { unfold new_review_id. destruct wanted; [| by apply follows_ret].
    apply follows_call. intros id. exists st. split; [done|]. by apply follows_ret. }
  eapply follows_bind; [exact Hid|]. intros st' review_id ->. unfold try_bind.
  eapply follows_bind; [by apply follows_request|]. intros st' [d | e] Hr; cbn in Hr.
  - rewrite Hr. apply follows_reject.
  - destruct Hr as [[m ->] ->]. apply follows_ret. right. eauto.
Qed.

Lemma follows_attempt st c n a :
  (∀ x a', untoken a' = untoken a → advance st (RunTool a') x (Ran c n x)) →
  follows st (run_attempt req ctx t a) (λ st' r, st' = Ran c n r.1).
Proof.
  intros Ha. apply follows_call. intros na. exists st. split; [done|].
  apply follows_call. intros x. exists (Ran c n x). split; [by apply Ha|].
  destruct na as [na|]; [| by apply follows_ret]. destruct (a_mode na).
  - apply follows_call. intros [u | e]; eexists; (split; [done | by apply follows_ret]).
  - destruct x as [o | e]; [by apply follows_ret|].
    apply follows_call. intros [u | e']; eexists; (split; [done | by apply follows_ret]).
Qed.

Lemma follows_report st err b :
  follows st (report_outcome err b) (λ st' _, st' = st).
Proof.
  unfold report_outcome. destruct (sandbox_outcome_from_tool_error err); [| by apply follows_ret].
  apply follows_call. intros []. exists st. split; [done | by apply follows_ret].
Qed.

Lemma untoken_initial : untoken (initial_attempt os req t approval_policy) = initial_attempt os req t approval_policy.
Proof. done. Qed.
Lemma untoken_retry : untoken (retry_attempt os req t) = retry_attempt os req t.
Proof. unfold retry_attempt. by case_match. Qed.

Context {HL : RuntimeLaws Rq}.

Lemma never_is_final decision : approval_policy = Never → denial_is_final (Rq:=Rq) t approval_policy decision = true.
Proof.
  intros ->. unfold denial_is_final. rewrite never_escalates. cbn. by repeat case_match.
Qed.

Lemma follows_retry c strict guardian already out decision :
  (already = true → c = true) →
  follows (Ran c 1 (Err (Codex (CodexSandbox (SandboxDenied out decision)))))
    (retry os req ctx t approval_policy strict guardian already out decision) concludes.
Proof.
  intros Hal. unfold retry.
  destruct (denial_is_final t approval_policy decision) eqn:Hfin.
  { apply follows_outcome, follows_ret. cbn. split; [lia | done]. }
  set (st := Ran c 1 (Err (Codex (CodexSandbox (SandboxDenied out decision))))). unfold try_bind.
  eapply (follows_bind st _ _ (λ st' r,
    r = Ok () ∧ st' = Ran true 1 (Err (Codex (CodexSandbox (SandboxDenied out decision)))) ∨
    (∃ m, r = Err (Rejected m)) ∧ st' = Refused)).
  - destruct (_ && _ && _) eqn:Hby.
    + apply follows_ret. left. split; [done|]. apply andb_true_iff in Hby as [[_ Hby]%andb_true_iff _].
      apply bypass_only_approved in Hby as [Hap | Hnever].
      * unfold st. by rewrite (Hal Hap).
      * apply never_is_final with (decision := decision) in Hnever. congruence.
    + by apply follows_approve.
  - intros st' r [[-> ->] | [[m ->] ->]]; [| apply follows_ret; cbn; eauto].
    eapply follows_bind.
    { apply (follows_attempt _ true 2). intros x a' Ha. split; [| done].
      split_and!; [| done | done | done]. by rewrite Ha, untoken_retry. }
    intros st' [[o | err] deferred]; cbn [fst]; intros ->.
    + by apply follows_outcome, follows_ret.
    + eapply follows_bind; [apply follows_report|]. intros st' _ ->. by apply follows_ret.
Qed.

Lemma follows_first strict guardian :
  follows (Before false) (first_approval req ctx t approval_policy strict guardian)
    (λ st' r, match r with
              | Ok already => ∃ c, st' = Before c ∧ (already = true → c = true) ∧
                  match requirement req t approval_policy with
                  | Skip _ _ => True | NeedsApproval _ _ => c = true | ForbiddenReq _ => False
                  end
              | Err e => concludes st' (Err e)
              end).
Proof.
  unfold first_approval. destruct (requirement req t approval_policy) as [b a | reason a | reason] eqn:Hreq.
  - destruct strict.
    + unfold try_bind. eapply follows_bind; [by apply follows_approve|].
      intros st' r [[-> ->] | [[m ->] ->]]; apply follows_ret; cbn; eauto.
    + apply follows_otel, follows_ret. by exists false.
  - unfold try_bind. eapply follows_bind; [by apply follows_approve|].
    intros st' r [[-> ->] | [[m ->] ->]]; apply follows_ret; cbn; eauto.
  - apply follows_ret. cbn. rewrite Hreq. eauto.
Qed.

Lemma follows_run : follows (Before false) (run os req ctx t approval_policy) concludes.
Proof.
  unfold run. apply follows_call. intros strict. exists (Before false). split; [done|].
  unfold try_bind. eapply follows_bind; [apply follows_first|].
  intros st r. destruct r as [already | e]; cbn beta iota; [| by apply follows_ret].
  intros (c & -> & Hal & Hreq).
  eapply follows_bind.
  { apply (follows_attempt _ c 1). intros x a' Ha. split; [| done]. split; [| done].
    by rewrite Ha, untoken_initial. }
  intros st' [[o | err] deferred]; cbn [fst]; intros ->.
  - apply follows_ret. split; [lia | done].
  - assert (Hother : follows (Ran c 1 (Err err)) (report_outcome err false;; mret (Err err)) concludes).
    { eapply follows_bind; [apply follows_report|]. intros st' _ ->. apply follows_ret. split; [lia | done]. }
    destruct err as [m | [[out decision | | | | |] | m]]; try exact Hother. by apply follows_retry.
Qed.

(** C13: A run of a tool follows its protocol, whatever hooks, reviewers, the network
    approval service and the tool answer: nothing runs before the approval the request
    needs or after a refusal, a forbidden request does not run at all, at most two
    attempts are made, the second only after the sandbox denied the first and with
    someone's consent, and the result is the answer of the last attempt or a
    rejection. *)
Theorem run_follows_protocol tr r :
  runs (run os req ctx t approval_policy) tr r → ∃ st, protocol (Before false) tr st ∧ concludes st r.
Proof. intros Hr. exact (wp_runs _ _ _ _ Hr follows_run). Qed.


(** *** What the protocol means for the sandbox *)

Definition consents {X : Set} (e : OEv (Out:=Out) X) : X → bool :=
  match e in OEv Y return Y → bool with
  | StartApproval _ => review_allows
  | RunHooks _ _ => hook_allows
  | _ => λ _, false
  end.

(** The command is trusted as such: nothing confines it in the first place, a rule
    allows it to bypass the sandbox, or it was excused from approval together with its
    request to escape it. *)
Definition trusted : Prop :=
  select_sandbox os t = SandboxNone ∨
  match requirement req t approval_policy with
  | Skip bypass_sandbox _ => bypass_sandbox = true ∨ requires_escalated_permissions (sandbox_permissions_of req) = true
  | _ => False
  end.

Fixpoint unsandboxed_ok (consented : bool) (tr : list (obs (OEv (Out:=Out)))) : Prop :=
  match tr with
  | [] => True
  | Obs e x :: tr =>
      match e with
      | RunTool a => sandbox a = SandboxNone → consented = true ∨ trusted
      | _ => True
      end ∧ unsandboxed_ok (consented || consents e x) tr
  end.

Lemma initial_unsandboxed c a :
  may_start c a → sandbox a = SandboxNone → c = true ∨ trusted.
Proof.
  intros [Ha Hreq] Hs. assert (Hi : sandbox (untoken a) = SandboxNone) by done. rewrite Ha in Hi.
  unfold initial_attempt, attempt_with in Hi. cbn [sandbox] in Hi. unfold trusted.
  unfold sandbox_override_for_first_attempt in Hi.
  destruct (unsandboxed_execution_allowed _); cbn [negb] in Hi; [| by right; left].
  destruct (requirement req t approval_policy) as [[] am | rs am | rs]; [by right; right; left | | | done];
    destruct (requires_escalated_permissions _) eqn:He; auto.
Qed.

Lemma answered_consent st y n : consent_of (answered st y n) = true → consent_of st = true ∨ y = true.
Proof. unfold answered. destruct n, y, st; cbn; auto. Qed.

Lemma protocol_unsandboxed tr st st' consented :
  protocol st tr st' → (consent_of st = true → consented = true) → unsandboxed_ok consented tr.
Proof.
  revert st consented. induction tr as [| [X e x] tr IH]; intros st consented; cbn [protocol unsandboxed_ok]; [done|].
  intros (st1 & Ha & Hp) Hc. split.
  - destruct e; try done. intros Hs. destruct st as [c | c n last |]; cbn in Ha.
    + destruct Ha as [Hm _]. destruct (initial_unsandboxed c _ Hm Hs) as [Hx | Hx]; [left; by apply Hc | by right].
    + destruct Ha as [(_ & Hx & _) _]. left. by apply Hc.
    + done.
  - apply (IH st1); [done|]. intros Hc1. apply orb_true_iff.
    destruct e; cbn [advance consents] in Ha |- *; try (left; subst; by apply Hc).
    + destruct Ha as [_ ->]. apply answered_consent in Hc1 as [Hx | Hx]; auto.
    + destruct Ha as [_ ->]. apply answered_consent in Hc1 as [Hx | Hx]; auto.
    + left. destruct st; [destruct Ha as [_ ->] | destruct Ha as [_ ->] | done]; by apply Hc.
    + left. destruct st, x; subst; try done; by apply Hc.
    + left. destruct st, x; subst; try done; by apply Hc.
Qed.

(** C15: No attempt leaves the sandbox unasked: whenever the tool is run without a
    sandbox, a hook, the reviewer or the user has approved before, or the request is
    trusted as such. *)
Theorem unsandboxed_needs_consent tr r :
  runs (run os req ctx t approval_policy) tr r → unsandboxed_ok false tr.
Proof.
  intros Hr. destruct (wp_runs _ _ _ _ Hr follows_run) as (st & Hp & _).
  by eapply protocol_unsandboxed.
Qed.

Fixpoint attempts (tr : list (obs (OEv (Out:=Out)))) : list SandboxAttempt :=
  match tr with
  | [] => []
  | Obs e _ :: tr => match e with RunTool a => a :: attempts tr | _ => attempts tr end
  end.

(** A deny entry the platform sandbox enforces. *)
Definition enforceable_deny (e : FileSystemSandboxEntry) : Prop :=
  access e = Permissions.Deny ∧ match entry_path e with Special Minimal | Special (Unknown _ _) => False | _ => True end.

Lemma deny_narrows p e : enforceable_deny e → narrows_write p e = true.
Proof.
  intros [Ha He]. unfold narrows_write. rewrite Ha. cbn.
  assert (Hno : has_same_target_write_override p e = false).
  { apply any_false. intros c _. rewrite Ha. by destruct (access c). }
  destruct (entry_path e) as [| | []]; rewrite ?Hno; done.
Qed.

Lemma denied_reads_need_sandbox e :
  Permissions.kind (turn_fs t) = Restricted → e ∈ entries (turn_fs t) → enforceable_deny e →
  has_denied_read_restrictions (turn_fs t) = true ∧
  should_require_platform_sandbox (turn_fs t) (turn_net t) (managed_network t) = true.
Proof.
  intros Hk He Hd. assert (Hr : is_restricted (turn_fs t) = true) by (unfold is_restricted; by rewrite Hk). split.
  - unfold has_denied_read_restrictions. rewrite Hr. apply any_true. exists e. split; [done|].
    apply bool_decide_eq_true, Hd.
  - unfold should_require_platform_sandbox, has_full_disk_write_access, has_write_narrowing_entries. rewrite Hk, Hr.
    assert (any (narrows_write (turn_fs t)) (entries (turn_fs t)) = true) as ->.
    { apply any_true. exists e. split; [done | by apply deny_narrows]. }
    rewrite andb_false_r. by destruct (managed_network t), (net_is_enabled (turn_net t)).
Qed.

Lemma protocol_sandbox s tr st st' :
  (∀ c a, may_start c a → sandbox a = s ∧ at_permissions a = turn_profile (turn t)) →
  sandbox (retry_attempt os req t) = s → at_permissions (retry_attempt os req t) = turn_profile (turn t) →
  protocol st tr st' → Forall (λ a, sandbox a = s ∧ at_permissions a = turn_profile (turn t)) (attempts tr).
Proof.
  intros Hs Hr Hperm. revert st. induction tr as [| [X e x] tr IH]; intros st; cbn [protocol attempts]; [constructor|].
  intros (st1 & Ha & Hp). destruct e; try (by eapply IH).
  constructor; [| by eapply IH]. destruct st as [c | c n last |]; cbn in Ha; [| | done].
  - destruct Ha as [Hm _]. by eapply Hs.
  - destruct Ha as [(Hu & _) _]. rewrite <- Hr, <- Hperm, <- Hu. done.
Qed.

(** C14: Denied reads are enforced: when the policy of the turn denies a path, every attempt
    runs in the platform sandbox with that policy - the first one even if a rule lets
    the command bypass the sandbox or the model asked to escape it, and the second one
    even if the user approved a retry. *)
Theorem denied_reads_stay_sandboxed tr r e s :
  runs (run os req ctx t approval_policy) tr r →
  Permissions.kind (turn_fs t) = Restricted → e ∈ entries (turn_fs t) → enforceable_deny e →
  sandbox_preference ≠ PrefForbid →
  get_platform_sandbox os (negb (bool_decide (windows_sandbox_level t = WinDisabled))) = Some s →
  Forall (λ a, sandbox a = s ∧ at_permissions a = turn_profile (turn t)) (attempts tr).
Proof.
  intros Hrun Hk He Hd Hpref Hs. destruct (denied_reads_need_sandbox e Hk He Hd) as [Hden Hreq].
  assert (Hun : unsandboxed_execution_allowed (turn_fs t) = false)
    by (unfold unsandboxed_execution_allowed; by rewrite Hden).
  assert (Hsel : select_sandbox os t = s).
  { unfold select_sandbox, select_initial. rewrite Hs, Hreq. by destruct sandbox_preference. }
  destruct (wp_runs _ _ _ _ Hrun follows_run) as (st & Hp & _).
  eapply protocol_sandbox; [| | | exact Hp].
  - intros c a [Ha _]. assert (Hi : sandbox (untoken a) = s ∧ at_permissions (untoken a) = turn_profile (turn t)).
    { rewrite Ha. unfold initial_attempt, sandbox_override_for_first_attempt. rewrite Hun. done. }
    exact Hi.
  - unfold retry_attempt. by rewrite Hun.
  - unfold retry_attempt. by rewrite Hun.
Qed.

End Protocol.

(** ** An attempt and the network approval service

    The service is told when an attempt starts and ends; what other tasks do to it
    meanwhile is [ops], and the tool itself answers [answer]. *)

Section Network.
Context {Rq : Type} `{HR : ToolRuntime Rq} {Out : Set}.
Context (req : Rq) (ctx : ToolCtx) (t : ToolTurn).
Context (fresh : str) (ops : list CallOp) (tool_answer : result ToolError Out).
Context (others : ∀ X : Set, OEv (Out:=Out) X → X).

Definition serve (X : Set) (e : OEv (Out:=Out) X) : NetworkApprovalService → NetworkApprovalService * X :=
  match e in OEv Y return NetworkApprovalService → NetworkApprovalService * Y with
  | BeginNetwork turn_id managed spec => begin_network_approval fresh turn_id managed spec
  | RunTool _ => λ s, (apply_ops ops s, tool_answer)
  | FinishImmediate a => finish_immediate_network_approval a
  | FinishDeferred d => finish_deferred_network_approval d
  | e => λ s, (s, others _ e)
  end.

(** A tool call does not succeed past a refused network access: when the call is
    watched by the network approval service, a refusal that concerns it makes an
    immediate attempt fail with the refusal whatever the tool returned; a deferred
    attempt that succeeded hands out the approval, and finishing it reports the
    refusal.  Without a refusal the tool's answer stands. *)
Theorem attempt_respects_refusals attempt s spec :
  calls_wf s → index_get fresh (active_calls (calls s)) = None → call_outcomes (calls s) !! fresh = None →
  (OpFinish fresh ∉ ops) →
  managed_network t = true → network_approval_spec req t ctx = Some spec → spec_network spec = true →
  let registered := register_call fresh (sub_id (turn t)) (spec_trigger spec) (spec_command spec) s in
  let refused := settled (addressed fresh ops registered) in
  let '(s', _, (r, deferred)) := exec serve (run_attempt req ctx t attempt) s in
  match spec_mode spec, tool_answer with
  | Deferred, Ok _ =>
      r = tool_answer ∧ ∃ d, deferred = Some d ∧
      (deferred_finish d s').2 = network_approval_outcome_to_result refused
  | _, _ =>
      deferred = None ∧
      r = match network_approval_outcome_to_result refused with Err e => Err e | Ok _ => tool_answer end
  end.
Proof.
  intros Hwf Hact Hout Hops Hman Hspec Hnet registered refused.
  assert (Hl : live fresh (apply_ops ops registered) (addressed fresh ops registered)).
  { refine (apply_ops_live fresh ops registered [] _ _ Hops).
    - exact (apply_op_wf (OpRegister fresh (sub_id (turn t)) (spec_trigger spec) (spec_command spec)) s Hwf).
    - split; [| exact Hout | done]. unfold registered, register_call, with_calls. cbn [calls active_calls].
      rewrite index_get_insert. eauto. }
  assert (Hfin : ∀ s, live fresh s (addressed fresh ops registered) →
            (finish_call fresh s).2 = network_approval_outcome_to_result refused).
  { intros s1 H1. cbn. by rewrite (live_outcome _ _ _ H1). }
  assert (Hbegin : begin_network_approval fresh (sub_id (turn t)) (managed_network t)
                     (network_approval_spec req t ctx) s = (registered, Some (mkActive (Some fresh) (spec_mode spec)))).
  { unfold begin_network_approval. by rewrite Hman, Hspec, Hnet. }
  unfold run_attempt. cbn [call prog_mbind mbind prog_bind exec serve]. rewrite Hbegin.
  cbn [a_mode]. destruct (spec_mode spec) eqn:Hmode.
  - cbn. pose proof (Hfin _ Hl) as Hf. cbn in Hf. rewrite Hf.
    by destruct (network_approval_outcome_to_result refused).
  - destruct tool_answer as [o | e] eqn:Hans; cbn.
    + split; [done|]. eexists. split; [done|]. cbn. by rewrite (live_outcome _ _ _ Hl).
    + rewrite (live_outcome _ _ _ Hl). fold refused. by destruct (network_approval_outcome_to_result refused).
Qed.

End Network.

(** ** The runtimes (core/src/tools/runtimes) *)

(** The requests, with the fields the orchestrator's methods read; of the network proxy
    only its presence matters. *)
Record ShellRequest := mkShellRequest {
  sh_command : list str;
  sh_environment_id : str;
  sh_hook_command : str;
  sh_cwd : str;
  sh_network : bool;
  sh_sandbox_permissions : SandboxPermissions;
  sh_additional_permissions : option AdditionalPermissionProfile;
  sh_justification : option str;
  sh_requirement : ExecApprovalRequirement;
}.
Record UnifiedExecRequest := mkExecRequest {
  ue_environment_id : str;
  ue_command : list str;
  ue_hook_command : str;
  ue_cwd : str;
  ue_sandbox_cwd : str;
  ue_network : bool;
  ue_tty : bool;
  ue_sandbox_permissions : SandboxPermissions;
  ue_additional_permissions : option AdditionalPermissionProfile;
  ue_justification : option str;
  ue_requirement : ExecApprovalRequirement;
}.
Record ApplyPatchRequest := mkPatchRequest {
  ap_environment_id : str;
  ap_patch : str;
  ap_cwd : str;
  ap_file_paths : list str;
  ap_requirement : ExecApprovalRequirement;
  ap_additional_permissions : option AdditionalPermissionProfile;
  ap_permissions_preapproved : bool;
}.

(** [network_approval_spec] of the two command runtimes. *)
Definition command_network_spec (mode : NetworkApprovalMode) (network : bool) (s : SandboxPermissions)
    (t : ToolTurn) (trigger : GuardianNetworkAccessTrigger) (hook_command : str) : option NetworkApprovalSpec :=
  let s := sandbox_permissions_preserving_denied_reads s (turn_fs t) in
  _ ← managed_network_for_sandbox_permissions (if network then Some () else None) s;
  Some (mkSpec true mode trigger hook_command).

#[export] Instance ShellRuntime : ToolRuntime ShellRequest := {|
  sandbox_permissions_of := sh_sandbox_permissions;
  should_bypass_approval := default_should_bypass_approval;
  exec_approval_requirement req := Some (sh_requirement req);
  permission_request_payload req := Some (bash_payload (sh_hook_command req) (sh_justification req));
  wants_no_sandbox_approval := default_wants_no_sandbox_approval;
  sandbox_preference := PrefAuto;
  escalate_on_failure := true;
  network_approval_spec req t ctx :=
    command_network_spec Immediate (sh_network req) (sh_sandbox_permissions req) t
      (mkTrigger (call_id ctx) (tool_name ctx) (sh_command req) (sh_cwd req) (sh_sandbox_permissions req)
         (sh_additional_permissions req) (sh_justification req) None) (sh_hook_command req);
  sandbox_cwd _ := None;
|}.

#[export] Instance UnifiedExecRuntime : ToolRuntime UnifiedExecRequest := {|
  sandbox_permissions_of := ue_sandbox_permissions;
  should_bypass_approval := default_should_bypass_approval;
  exec_approval_requirement req := Some (ue_requirement req);
  permission_request_payload req := Some (bash_payload (ue_hook_command req) (ue_justification req));
  wants_no_sandbox_approval := default_wants_no_sandbox_approval;
  sandbox_preference := PrefAuto;
  escalate_on_failure := true;
  network_approval_spec req t ctx :=
    command_network_spec Deferred (ue_network req) (ue_sandbox_permissions req) t
      (mkTrigger (call_id ctx) (tool_name ctx) (ue_command req) (ue_cwd req) (ue_sandbox_permissions req)
         (ue_additional_permissions req) (ue_justification req) (Some (ue_tty req))) (ue_hook_command req);
  sandbox_cwd req := Some (ue_sandbox_cwd req);
|}.

Definition patch_wants_no_sandbox_approval (policy : AskForApproval) : bool :=
  match policy with
  | Never => false
  | Granular sandbox_approval _ _ _ _ => sandbox_approval
  | OnFailure | OnRequest | UnlessTrusted => true
  end.
#[export] Instance ApplyPatchRuntime : ToolRuntime ApplyPatchRequest := {|
  sandbox_permissions_of _ := UseDefault;
  should_bypass_approval := default_should_bypass_approval;
  exec_approval_requirement req := Some (ap_requirement req);
  permission_request_payload req :=
    Some (mkPayload (lit "apply_patch") [lit "Write"; lit "Edit"] [(lit "command", ap_patch req)]);
  wants_no_sandbox_approval := patch_wants_no_sandbox_approval;
  sandbox_preference := PrefAuto;
  escalate_on_failure := true;
  network_approval_spec _ _ _ := None;
  sandbox_cwd req := Some (ap_cwd req);
|}.

Lemma default_bypass p already :
  default_should_bypass_approval p already = true → already = true ∨ p = Never.
Proof. unfold default_should_bypass_approval. destruct already; [by left|]. destruct p; try done. by right. Qed.
#[export] Instance ShellRuntime_laws : RuntimeLaws ShellRequest.
Proof. split; [apply default_bypass | done]. Qed.
#[export] Instance UnifiedExecRuntime_laws : RuntimeLaws UnifiedExecRequest.
Proof. split; [apply default_bypass | done]. Qed.
#[export] Instance ApplyPatchRuntime_laws : RuntimeLaws ApplyPatchRequest.
Proof. split; [apply default_bypass | done]. Qed.

(** *** [approval_keys] and [start_approval_async]

    [reviewed] and [prompted] are the answers of the guardian and of the user. *)

Section Keys.
Context (try_parse_shell : str → option Node) (to_json : ApprovalKey → option str).

Definition shell_approval_keys (req : ShellRequest) : list ApprovalKey :=
  [ShellKey (canonicalize_command_for_approval try_parse_shell (sh_command req)) (sh_cwd req)
     (sh_sandbox_permissions req) (sh_additional_permissions req)].
Definition exec_approval_keys (req : UnifiedExecRequest) : list ApprovalKey :=
  [ExecKey (ue_environment_id req) (canonicalize_command_for_approval try_parse_shell (ue_command req))
     (ue_cwd req) (ue_tty req) (ue_sandbox_permissions req) (ue_additional_permissions req)].
Definition patch_approval_keys (req : ApplyPatchRequest) : list ApprovalKey :=
  PatchKey (ap_environment_id req) <$> ap_file_paths req.

Definition start_command_approval (keys : list ApprovalKey) (ctx : ApprovalCtx)
    (reviewed prompted : ReviewDecision) (store : gmap (list N) ReviewDecision) : gmap (list N) ReviewDecision * ReviewDecision * bool :=
  match guardian_review_id ctx with
  | Some _ => (store, reviewed, true)
  | None => with_cached_approval to_json keys prompted store
  end.
(** The receiver of a patch approval may be gone, which is a denial. *)
Definition start_patch_approval (req : ApplyPatchRequest) (ctx : ApprovalCtx)
    (reviewed : ReviewDecision) (prompted : option ReviewDecision) (store : gmap (list N) ReviewDecision)
    : gmap (list N) ReviewDecision * ReviewDecision * bool :=
  let prompted := default ReviewDenied prompted in
  match guardian_review_id ctx with
  | Some _ => (store, reviewed, true)
  | None =>
      if ap_permissions_preapproved req && negb (opt_is_some (retry_reason ctx)) then (store, Approved, false)
      else match retry_reason ctx with
           | Some _ => (store, prompted, true)
           | None => with_cached_approval to_json (patch_approval_keys req) prompted store
           end
  end.
End Keys.

(** ** What the cache remembers *)

Section Cache.
Context (to_json : ApprovalKey → option str).
Context (to_json_inj : ∀ k k' s, to_json k = Some s → to_json k' = Some s → k = k').

(** A request: its keys and what the user would answer; in the history, what the answer
    was and whether the user gave it. *)
Definition Served : Type := list ApprovalKey * ReviewDecision * bool.
Definition serve_request (sh : gmap (list N) ReviewDecision * list Served) (rq : list ApprovalKey * ReviewDecision)
    : gmap (list N) ReviewDecision * list Served :=
  let '(store, d, asked) := with_cached_approval to_json rq.1 rq.2 sh.1 in (store, sh.2 ++ [(rq.1, d, asked)]).
Definition serve_requests (rqs : list (list ApprovalKey * ReviewDecision)) : gmap (list N) ReviewDecision * list Served :=
  fold_left serve_request rqs (∅, []).

(** The user approved, for the session, a request with this key. *)
Definition approved_before (hist : list Served) (key : ApprovalKey) : Prop :=
  ∃ keys, (keys, ApprovedForSession, true) ∈ hist ∧ key ∈ keys.

Definition remembers (store : gmap (list N) ReviewDecision) (hist : list Served) : Prop :=
  ∀ s d, store !! s = Some d ↔
    d = ApprovedForSession ∧ ∃ key, to_json key = Some s ∧ approved_before hist key.

Lemma approved_snoc hist e key :
  approved_before (hist ++ [e]) key ↔
  approved_before hist key ∨ ∃ keys, e = (keys, ApprovedForSession, true) ∧ key ∈ keys.
Proof.
  unfold approved_before. setoid_rewrite elem_of_app. setoid_rewrite list_elem_of_singleton. naive_solver.
Qed.

Lemma key_present (keys : list ApprovalKey) (s : str) :
  (∃ key, key ∈ keys ∧ to_json key = Some s) ∨ ¬ (∃ key, key ∈ keys ∧ to_json key = Some s).
Proof.
  destruct (any (λ k, bool_decide (to_json k = Some s)) keys) eqn:E.
  - left. apply any_true in E as (k & Hk & Hj%bool_decide_eq_true). eauto.
  - right. intros (k & Hk & Hj). rewrite any_false in E. specialize (E k Hk). by apply bool_decide_eq_false in E.
Qed.

Lemma put_all_lookup keys store s d :
  fold_left (λ st key, store_put to_json key ApprovedForSession st) keys store !! s = Some d ↔
  (d = ApprovedForSession ∧ ∃ key, key ∈ keys ∧ to_json key = Some s) ∨
  (¬ (∃ key, key ∈ keys ∧ to_json key = Some s) ∧ store !! s = Some d).
Proof.
  revert store. induction keys as [| key keys IH]; intros store; cbn [fold_left].
  { split; [intros H; right; split; [| done]; intros (k & Hk & _); by apply elem_of_nil in Hk |].
    intros [[_ (k & Hk & _)] | [_ H]]; [by apply elem_of_nil in Hk | done]. }
  rewrite IH. unfold store_put. setoid_rewrite elem_of_cons.
  destruct (to_json key) as [s'|] eqn:Hj; [| naive_solver].
  destruct (decide (s' = s)) as [-> | Hne].
  - rewrite lookup_insert_eq. destruct (key_present keys s) as [Hin | Hout]; naive_solver.
  - rewrite lookup_insert_ne by done. naive_solver.
Qed.

Lemma serve_remembers sh rq :
  remembers sh.1 sh.2 → remembers (serve_request sh rq).1 (serve_request sh rq).2.
Proof.
  destruct sh as [store hist], rq as [keys answer]. intros Hrem. unfold serve_request, with_cached_approval. cbn [fst snd].
  assert (Hsame : ∀ d asked, (keys, d, asked) ≠ (keys, ApprovedForSession, true) ∨ keys = [] →
            remembers store (hist ++ [(keys, d, asked)])).
  { intros d asked Hd s d'. rewrite (Hrem s d'). setoid_rewrite approved_snoc.
    split; [naive_solver|]. intros (-> & key & Hj & [Hk | (keys' & Heq & Hk)]); [naive_solver|].
    exfalso. destruct Hd as [Hd | ->]; [naive_solver|]. injection Heq as <- _ _. by apply elem_of_nil in Hk. }
  destruct (is_empty keys) eqn:Hempty.
  { apply is_empty_true in Hempty. cbn [fst snd]. apply Hsame. by right. }
  destruct (all _ keys) eqn:Hall; cbn [fst snd].
  { apply Hsame. left. congruence. }
  destruct answer; cbn [fst snd]; try (apply Hsame; left; congruence).
  intros s d. rewrite put_all_lookup, (Hrem s d). setoid_rewrite approved_snoc. split.
  - intros [(-> & key & Hk & Hj) | (_ & -> & key & Hj & Hk)]; [| naive_solver].
    split; [done|]. exists key. split; [done|]. right. eauto.
  - intros (-> & key & Hj & Hk). destruct (key_present keys s) as [Hin | Hout]; [by left|].
    right. split; [done|]. split; [done|]. exists key. split; [done|].
    destruct Hk as [Hk | (keys' & Heq & Hk)]; [done|]. injection Heq as <-. destruct Hout. eauto.
Qed.

Lemma requests_remembered rqs : remembers (serve_requests rqs).1 (serve_requests rqs).2.
Proof.
  unfold serve_requests. assert (H0 : remembers (∅, [] : list Served).1 (∅ : gmap (list N) ReviewDecision, []).2).
  { intros s d. cbn. rewrite lookup_empty. split; [done|]. intros (_ & key & _ & keys & Hin & _).
    by apply elem_of_nil in Hin. }
  revert H0. generalize (∅ : gmap (list N) ReviewDecision, [] : list Served). induction rqs as [| rq rqs IH]; intros sh H0; [done|].
  apply IH. by apply serve_remembers.
Qed.

(** The user is spared a prompt exactly when each key of the request belongs to a
    request the user approved for the session before; the answer is then that approval,
    and otherwise the user's own. *)
Theorem session_cache_exact rqs keys prompted :
  let '(store, hist) := serve_requests rqs in
  let '(_, d, asked) := with_cached_approval to_json keys prompted store in
  (asked = false ↔ keys ≠ [] ∧ ∀ key, key ∈ keys → is_Some (to_json key) ∧ approved_before hist key) ∧
  d = (if asked then prompted else ApprovedForSession).
Proof.
  pose proof (requests_remembered rqs) as Hrem. destruct (serve_requests rqs) as [store hist]. cbn [fst snd] in Hrem.
  assert (Hget : ∀ key, is_approved_for_session (store_get to_json store key) = true ↔
            is_Some (to_json key) ∧ approved_before hist key).
  { intros key. unfold store_get. destruct (to_json key) as [s|] eqn:Hj; cbn [mbind option_bind].
    - split.
      + intros H. destruct (store !! s) as [d|] eqn:Hs; [| done]. apply Hrem in Hs as (-> & k & Hk & Hap).
        split; [eauto|]. by rewrite (to_json_inj _ _ _ Hj Hk).
      + intros (_ & Hap). assert (Hs : store !! s = Some ApprovedForSession) by (apply Hrem; eauto). by rewrite Hs.
    - split; [done|]. by intros [[s Hs] _]. }
  unfold with_cached_approval. destruct (is_empty keys) eqn:Hempty.
  { apply is_empty_true in Hempty as ->. split; [| done]. split; [done | by intros [? _]]. }
  apply is_empty_false in Hempty. destruct (all _ keys) eqn:Hall.
  - split; [| done]. split; [| done]. intros _. split; [done|]. intros key Hk. apply Hget.
    rewrite all_true in Hall. by apply Hall.
  - assert (Hno : ¬ (keys ≠ [] ∧ ∀ key, key ∈ keys → is_Some (to_json key) ∧ approved_before hist key)).
    { intros [_ H]. apply not_true_iff_false in Hall. apply Hall, all_true. intros key Hk. by apply Hget, H. }
    destruct prompted; (split; [| done]); by split.
Qed.

End Cache.

(** ** Denials of the sandbox (core/src/exec.rs) *)

Definition SANDBOX_DENIED_KEYWORDS : list str :=
  lit <$> ["operation not permitted"; "permission denied"; "read-only file system"; "seccomp"; "sandbox"; "landlock";
           "failed to write file"].
Definition QUICK_REJECT_EXIT_CODES : list Z := [2; 126; 127]%Z.
Definition EXIT_CODE_SIGNAL_BASE : Z := 128.
Definition SIGSYS_CODE : Z := 31.

(** The Unix build; [lower] is the lower-case mapping of a scalar value. *)
Definition is_likely_sandbox_denied (lower : char → str) (s : SandboxType) (o : ExecToolCallOutput) : bool :=
  if bool_decide (s = SandboxNone) || (exit_code o =? 0)%Z then false
  else if any (λ section, any (λ needle, contains needle (to_lowercase lower section)) SANDBOX_DENIED_KEYWORDS)
            [out_stderr o; out_stdout o; aggregated_output o]
  then true
  else if any (Z.eqb (exit_code o)) QUICK_REJECT_EXIT_CODES then false
  else bool_decide (s = LinuxSeccomp) && (exit_code o =? EXIT_CODE_SIGNAL_BASE + SIGSYS_CODE)%Z.

(** ** Examples *)

Definition demo_shell (r : ExecApprovalRequirement) (s : SandboxPermissions) : ShellRequest :=
  mkShellRequest [lit "make"] (lit "local") (lit "make") (lit "/work") true s None None r.
Definition demo_tool_turn (fs : list FileSystemSandboxEntry) (p : AskForApproval) : ToolTurn :=
  mkToolTurn (mkTurn (lit "turn") (ProfileManaged (ManagedRestricted fs None) NetRestricted) p ReviewerUser (lit "/work"))
    true WinDisabled false [lit "/work"] (Some (lit "/opt/sandbox")) false.
Definition demo_tool_ctx : ToolCtx := mkToolCtx (lit "call") (lit "shell").
Definition demo_output : ExecToolCallOutput := mkExecOutput 1 [] (lit "permission denied") (lit "permission denied") 0 false.

(** The sandbox denies the tool, the user approves. *)
Definition demo_reply (X : Set) (e : OEv (Out:=nat) X) : X :=
  match e in OEv Y return Y with
  | StrictAutoReview => false
  | NewReviewId => []
  | RunHooks _ _ => None
  | StartApproval _ => Approved
  | RejectionMessage _ => []
  | BeginNetwork _ _ _ => None
  | RunTool a => if bool_decide (sandbox a = SandboxNone) then Ok 7
                 else Err (Codex (CodexSandbox (SandboxDenied demo_output None)))
  | FinishImmediate _ => Ok ()
  | FinishDeferred _ => Ok ()
  | OtelToolDecision _ _ => ()
  | OtelSandboxOutcome _ _ => ()
  end.
Definition demo_run (fs : list FileSystemSandboxEntry) :=
  exec (λ X e (w : unit), (w, demo_reply X e))
    (run Linux (demo_shell (Skip false None) UseDefault) demo_tool_ctx (demo_tool_turn fs OnFailure) OnFailure) ().
Definition demo_trace fs := (demo_run fs).1.2.
Lemma demo_runs fs :
  runs (run Linux (demo_shell (Skip false None) UseDefault) demo_tool_ctx (demo_tool_turn fs OnFailure) OnFailure)
    (demo_trace fs) (demo_run fs).2.
Proof.
  unfold demo_trace. destruct (demo_run fs) as [[w tr] r] eqn:E. exact (runs_exec _ _ _ _ _ _ E).
Qed.

Definition open_root : FileSystemSandboxEntry := Permissions.mkEntry (Special Root) Read.
Definition secret : FileSystemSandboxEntry := Permissions.mkEntry (Path (lit "/secret")) Permissions.Deny.

(** Without denied reads the second attempt runs without a sandbox; with them the
    denial is final. *)
Example demo_escalates : sandbox <$> attempts (demo_trace [open_root]) = [LinuxSeccomp; SandboxNone].
Proof. vm_compute. reflexivity. Qed.
Example demo_stays : sandbox <$> attempts (demo_trace [open_root; secret]) = [LinuxSeccomp].
Proof. vm_compute. reflexivity. Qed.

Lemma run_follows_protocol_witness :
  ∃ st, protocol Linux (demo_shell (Skip false None) UseDefault) (demo_tool_turn [open_root] OnFailure) OnFailure
          (Before false) (demo_trace [open_root]) st ∧
        concludes (demo_shell (Skip false None) UseDefault) (demo_tool_turn [open_root] OnFailure) OnFailure st
          (demo_run [open_root]).2.
Proof. eapply run_follows_protocol; [apply ShellRuntime_laws | apply demo_runs]. Defined.

Lemma unsandboxed_needs_consent_witness :
  unsandboxed_ok Linux (demo_shell (Skip false None) UseDefault) (demo_tool_turn [open_root] OnFailure) OnFailure
    false (demo_trace [open_root]).
Proof. eapply unsandboxed_needs_consent; [apply ShellRuntime_laws | apply demo_runs]. Defined.

Lemma denied_reads_stay_sandboxed_witness :
  Forall (λ a, sandbox a = LinuxSeccomp ∧
               at_permissions a = turn_profile (turn (demo_tool_turn [open_root; secret] OnFailure)))
    (attempts (demo_trace [open_root; secret])).
Proof.
  eapply (denied_reads_stay_sandboxed Linux _ _ _ _ _ _ secret LinuxSeccomp (demo_runs [open_root; secret])).
  - reflexivity.
  - right. left.
  - split; [reflexivity | exact I].
  - discriminate.
  - reflexivity.
Defined.

Lemma attempt_respects_refusals_witness :
  let req := demo_shell (Skip false None) UseDefault in
  let t := demo_tool_turn [open_root] OnFailure in
  let ops := [OpRecord (lit "id") DeniedByUser] in
  (exec (serve (lit "id") ops (Ok 7) demo_reply)
     (run_attempt req demo_tool_ctx t (initial_attempt Linux req t OnFailure)) service_default).2.1 =
  Err (Rejected (lit "rejected by user")).
Proof.
  intros req t ops.
  pose proof (attempt_respects_refusals req demo_tool_ctx t (lit "id") ops (Ok 7) demo_reply
    (initial_attempt Linux req t OnFailure) service_default
    (mkSpec true Immediate (mkTrigger (lit "call") (lit "shell") [lit "make"] (lit "/work") UseDefault None None None)
       (lit "make"))) as H.
  destruct (exec _ _ service_default) as [[s' tr] [r deferred]].
  destruct H as [_ ->]; [constructor | reflexivity | reflexivity | | reflexivity | reflexivity | reflexivity |].
  - intros Hin. apply elem_of_cons in Hin as [Hin | Hin]; [discriminate Hin | by apply elem_of_nil in Hin].
  - vm_compute. reflexivity.
Defined.

(** A serialiser for the keys of patches in one environment. *)
Definition demo_json (k : ApprovalKey) : option str :=
  match k with PatchKey [] path => Some path | _ => None end.
Lemma demo_json_inj k k' s : demo_json k = Some s → demo_json k' = Some s → k = k'.
Proof. destruct k as [| | [|] p], k' as [| | [|] p']; cbn; congruence. Qed.

(** Two patches are approved for the session; one that touches a file of each is not
    asked about. *)
Lemma session_cache_exact_witness :
  let patch paths : list ApprovalKey := PatchKey [] <$> paths in
  let rqs := [(patch [lit "a"; lit "b"], ApprovedForSession); (patch [lit "c"], ApprovedForSession);
              (patch [lit "d"], Approved)] in
  let '(_, d, asked) := with_cached_approval demo_json (patch [lit "b"; lit "c"]) ReviewDenied
                          (serve_requests demo_json rqs).1 in
  d = (if asked : bool then ReviewDenied else ApprovedForSession) ∧ asked = false.
Proof.
  intros patch rqs.
  pose proof (session_cache_exact demo_json demo_json_inj rqs (patch [lit "b"; lit "c"]) ReviewDenied) as H.
  assert (Ha : (with_cached_approval demo_json (patch [lit "b"; lit "c"]) ReviewDenied
                  (serve_requests demo_json rqs).1).2 = false) by (vm_compute; reflexivity).
  destruct (serve_requests demo_json rqs) as [store hist]. cbn [fst] in *.
  destruct (with_cached_approval demo_json _ _ store) as [[st d] asked]. cbn [snd] in Ha.
  destruct H as [_ H]. by split.
Defined.
