(* ===== verification/ContextHistory.v ===== *)
(** * The thread history (codex-rs/core/src/context_manager/history.rs,
    normalize.rs)

    [ContextManager] keeps the items of a conversation: it records them with
    their outputs truncated, prepares them for a prompt (every call with an
    output, every output with a call, no image for a model without vision), drops
    the oldest item with its counterpart, rolls back turns, and estimates tokens.

    The values the code only copies (metadata, JSON arguments, statuses, actions,
    summaries) are of an arbitrary type [Leaf].  Which user messages and which
    assistant messages are context or instructions, the length of the JSON of an
    item and the estimate for an original-size image are parameters.
    [error_or_panic] is its release build, which only logs. *)

From S2P Require Import Prelude RustStr Truncate.

Local Open Scope rstr_scope.

Inductive ContentItem :=
| MsgInputText (text : str)
| MsgInputImage (image_url : str) (detail : option ImageDetail)
| MsgOutputText (text : str).

Inductive FunctionCallOutputBody :=
| Text (content : str)
| ContentItems (items : list FunctionCallOutputContentItem).
Record FunctionCallOutputPayload := mkPayload {
  body : FunctionCallOutputBody;
  success : option bool;
}.
Definition from_text (content : str) : FunctionCallOutputPayload := mkPayload (Text content) None.

Inductive ResponseItem (Leaf : Type) :=
| Message (id : option str) (role : str) (content : list ContentItem) (phase metadata : option Leaf)
| AgentMessage (author recipient : str) (content : list Leaf) (metadata : option Leaf)
| Reasoning (id : str) (summary : list Leaf) (content : option (list Leaf))
    (encrypted_content : option str) (metadata : option Leaf)
| LocalShellCall (id call_id : option str) (status action : Leaf) (metadata : option Leaf)
| FunctionCall (id : option str) (name : str) (namespace : option str) (arguments call_id : str)
    (metadata : option Leaf)
| ToolSearchCall (id call_id status : option str) (execution : str) (arguments : Leaf)
    (metadata : option Leaf)
| FunctionCallOutput (call_id : str) (output : FunctionCallOutputPayload) (metadata : option Leaf)
| CustomToolCall (id status : option str) (call_id name input : str) (metadata : option Leaf)
| CustomToolCallOutput (call_id : str) (name : option str) (output : FunctionCallOutputPayload)
    (metadata : option Leaf)
| ToolSearchOutput (call_id : option str) (status execution : str) (tools : list Leaf)
    (metadata : option Leaf)
| WebSearchCall (id status : option str) (action metadata : option Leaf)
| ImageGenerationCall (id status : str) (revised_prompt : option str) (result : str)
    (metadata : option Leaf)
| Compaction (encrypted_content : str) (metadata : option Leaf)
| CompactionTrigger (metadata : option Leaf)
| ContextCompaction (encrypted_content : option str) (metadata : option Leaf)
| Other.
Arguments Message {Leaf}.
Arguments AgentMessage {Leaf}.
Arguments Reasoning {Leaf}.
Arguments LocalShellCall {Leaf}.
Arguments FunctionCall {Leaf}.
Arguments ToolSearchCall {Leaf}.
Arguments FunctionCallOutput {Leaf}.
Arguments CustomToolCall {Leaf}.
Arguments CustomToolCallOutput {Leaf}.
Arguments ToolSearchOutput {Leaf}.
Arguments WebSearchCall {Leaf}.
Arguments ImageGenerationCall {Leaf}.
Arguments Compaction {Leaf}.
Arguments CompactionTrigger {Leaf}.
Arguments ContextCompaction {Leaf}.
Arguments Other {Leaf}.

Inductive InputModality := ModalityText | ModalityImage.

Definition IMAGE_CONTENT_OMITTED_PLACEHOLDER : str :=
  lit "image content omitted because you do not support image input".

(** ** normalize.rs *)

Section Normalize.
Context {Leaf : Type}.
Implicit Types (items : list (ResponseItem Leaf)) (i j : ResponseItem Leaf).

(** The three sets of ids of the outputs. *)
Definition function_output_ids items : gset (list N) :=
  list_to_set (omap (λ i, match i with FunctionCallOutput c _ _ => Some c | _ => None end) items).
Definition tool_search_output_ids items : gset (list N) :=
  list_to_set (omap (λ i, match i with ToolSearchOutput c _ _ _ _ => c | _ => None end) items).
Definition custom_tool_output_ids items : gset (list N) :=
  list_to_set (omap (λ i, match i with CustomToolCallOutput c _ _ _ => Some c | _ => None end) items).

Definition aborted : FunctionCallOutputPayload := from_text (lit "aborted").

Definition missing_output items i : option (ResponseItem Leaf) :=
  match i with
  | FunctionCall _ _ _ _ call_id _ | LocalShellCall _ (Some call_id) _ _ _ =>
      if decide (call_id ∈ function_output_ids items) then None
      else Some (FunctionCallOutput call_id aborted None)
  | ToolSearchCall _ (Some call_id) _ _ _ _ =>
      if decide (call_id ∈ tool_search_output_ids items) then None
      else Some (ToolSearchOutput (Some call_id) (lit "completed") (lit "client") [] None)
  | CustomToolCall _ _ call_id _ _ _ =>
      if decide (call_id ∈ custom_tool_output_ids items) then None
      else Some (CustomToolCallOutput call_id None aborted None)
  | _ => None
  end.

(** [Vec::insert]. *)
Definition insert_at {A} (n : nat) (x : A) (l : list A) : list A := take n l ++ x :: drop n l.

Definition missing_outputs_to_insert items : list (nat * ResponseItem Leaf) :=
  omap id (imap (λ idx i, pair idx <$> missing_output items i) items).

(** The loop inserts in reverse index order. *)
Definition ensure_call_outputs_present items : list (ResponseItem Leaf) :=
  foldr (λ io items, insert_at (S io.1) io.2 items) items (missing_outputs_to_insert items).

Definition function_call_ids items : gset (list N) :=
  list_to_set (omap (λ i, match i with FunctionCall _ _ _ _ c _ => Some c | _ => None end) items).
Definition tool_search_call_ids items : gset (list N) :=
  list_to_set (omap (λ i, match i with ToolSearchCall _ c _ _ _ _ => c | _ => None end) items).
Definition local_shell_call_ids items : gset (list N) :=
  list_to_set (omap (λ i, match i with LocalShellCall _ c _ _ _ => c | _ => None end) items).
Definition custom_tool_call_ids items : gset (list N) :=
  list_to_set (omap (λ i, match i with CustomToolCall _ _ c _ _ _ => Some c | _ => None end) items).

Definition is_retained items i : bool :=
  match i with
  | FunctionCallOutput c _ _ =>
      bool_decide (c ∈ function_call_ids items) || bool_decide (c ∈ local_shell_call_ids items)
  | CustomToolCallOutput c _ _ _ => bool_decide (c ∈ custom_tool_call_ids items)
  | ToolSearchOutput c _ execution _ _ =>
      if execution == lit "server" then true
      else match c with
           | Some c => bool_decide (c ∈ tool_search_call_ids items)
           | None => true
           end
  | _ => true
  end.

Definition remove_orphan_outputs items : list (ResponseItem Leaf) :=
  List.filter (is_retained items) items.

Fixpoint remove_first_matching (p : ResponseItem Leaf → bool) items : list (ResponseItem Leaf) :=
  match items with
  | [] => []
  | i :: items => if p i then items else i :: remove_first_matching p items
  end.

Definition is_function_output (c : str) i : bool :=
  match i with FunctionCallOutput existing _ _ => existing == c | _ => false end.
Definition is_function_call (c : str) i : bool :=
  match i with FunctionCall _ _ _ _ existing _ => existing == c | _ => false end.
Definition is_local_shell_call (c : str) i : bool :=
  match i with LocalShellCall _ (Some existing) _ _ _ => existing == c | _ => false end.
Definition is_tool_search_output (c : str) i : bool :=
  match i with ToolSearchOutput (Some existing) _ _ _ _ => existing == c | _ => false end.
Definition is_tool_search_call (c : str) i : bool :=
  match i with ToolSearchCall _ (Some existing) _ _ _ _ => existing == c | _ => false end.
Definition is_custom_output (c : str) i : bool :=
  match i with CustomToolCallOutput existing _ _ _ => existing == c | _ => false end.
Definition is_custom_call (c : str) i : bool :=
  match i with CustomToolCall _ _ existing _ _ _ => existing == c | _ => false end.

Definition remove_corresponding_for items i : list (ResponseItem Leaf) :=
  match i with
  | FunctionCall _ _ _ _ c _ => remove_first_matching (is_function_output c) items
  | FunctionCallOutput c _ _ =>
      if any (is_function_call c) items then remove_first_matching (is_function_call c) items
      else if any (is_local_shell_call c) items
      then remove_first_matching (is_local_shell_call c) items
      else items
  | ToolSearchCall _ (Some c) _ _ _ _ => remove_first_matching (is_tool_search_output c) items
  | ToolSearchOutput (Some c) _ _ _ _ => remove_first_matching (is_tool_search_call c) items
  | CustomToolCall _ _ c _ _ _ => remove_first_matching (is_custom_output c) items
  | CustomToolCallOutput c _ _ _ => remove_first_matching (is_custom_call c) items
  | LocalShellCall _ (Some c) _ _ _ => remove_first_matching (is_function_output c) items
  | _ => items
  end.

Definition strip_content (c : ContentItem) : ContentItem :=
  match c with MsgInputImage _ _ => MsgInputText IMAGE_CONTENT_OMITTED_PLACEHOLDER | c => c end.
Definition strip_output_item (c : FunctionCallOutputContentItem) : FunctionCallOutputContentItem :=
  match c with InputImage _ _ => InputText IMAGE_CONTENT_OMITTED_PLACEHOLDER | c => c end.
Definition strip_payload (p : FunctionCallOutputPayload) : FunctionCallOutputPayload :=
  match body p with
  | ContentItems items => mkPayload (ContentItems (strip_output_item <$> items)) (success p)
  | Text _ => p
  end.
Definition strip_item i : ResponseItem Leaf :=
  match i with
  | Message id role content phase m => Message id role (strip_content <$> content) phase m
  | FunctionCallOutput c output m => FunctionCallOutput c (strip_payload output) m
  | CustomToolCallOutput c name output m => CustomToolCallOutput c name (strip_payload output) m
  | ImageGenerationCall id status prompt _ m => ImageGenerationCall id status prompt [] m
  | i => i
  end.

Definition supports_images (modalities : list InputModality) : bool :=
  any (λ m, match m with ModalityImage => true | ModalityText => false end) modalities.

Definition strip_images_when_unsupported (modalities : list InputModality) items
    : list (ResponseItem Leaf) :=
  if supports_images modalities then items else strip_item <$> items.

Definition normalize_history (modalities : list InputModality) items : list (ResponseItem Leaf) :=
  strip_images_when_unsupported modalities
    (remove_orphan_outputs (ensure_call_outputs_present items)).
End Normalize.

(** ** Calls and outputs *)

Inductive call_kind := FunctionKind | SearchKind | CustomKind.
#[export] Instance call_kind_eq_dec : EqDecision call_kind.
Proof. solve_decision. Defined.

Section Pairing.
Context {Leaf : Type}.
Implicit Types (items : list (ResponseItem Leaf)) (i j : ResponseItem Leaf).

(** The key under which a call and its output belong together; a local shell
    call is answered by a function output. *)
Definition call_key i : option (call_kind * str) :=
  match i with
  | FunctionCall _ _ _ _ c _ => Some (FunctionKind, c)
  | LocalShellCall _ (Some c) _ _ _ => Some (FunctionKind, c)
  | ToolSearchCall _ (Some c) _ _ _ _ => Some (SearchKind, c)
  | CustomToolCall _ _ c _ _ _ => Some (CustomKind, c)
  | _ => None
  end.
Definition output_key i : option (call_kind * str) :=
  match i with
  | FunctionCallOutput c _ _ => Some (FunctionKind, c)
  | ToolSearchOutput (Some c) _ _ _ _ => Some (SearchKind, c)
  | CustomToolCallOutput c _ _ _ => Some (CustomKind, c)
  | _ => None
  end.
(** Searches the server ran need no call. *)
Definition is_server_output i : bool :=
  match i with ToolSearchOutput _ _ execution _ _ => execution == lit "server" | _ => false end.

Definition has_call items (k : call_kind * str) : Prop := ∃ i, i ∈ items ∧ call_key i = Some k.
Definition has_output items (k : call_kind * str) : Prop := ∃ i, i ∈ items ∧ output_key i = Some k.

Definition paired items : Prop :=
  (∀ i k, i ∈ items → call_key i = Some k → has_output items k) ∧
  (∀ i k, i ∈ items → output_key i = Some k → is_server_output i = false → has_call items k).

(** The sets of the code, as keys. *)
Lemma elem_ids (f : ResponseItem Leaf → option str) items c :
  c ∈@{gset (list N)} list_to_set (omap f items) ↔ ∃ i, i ∈ items ∧ f i = Some c.
Proof. by rewrite elem_of_list_to_set, list_elem_of_omap. Qed.

Lemma function_output_ids_key items c :
  c ∈ function_output_ids items ↔ has_output items (FunctionKind, c).
Proof.
  unfold function_output_ids, has_output. rewrite elem_ids.
  split; intros (i & Hi & H); exists i; (split; [done|]); destruct i; cbn in *; try case_match; naive_solver.
Qed.
Lemma tool_search_output_ids_key items c :
  c ∈ tool_search_output_ids items ↔ has_output items (SearchKind, c).
Proof.
  unfold tool_search_output_ids, has_output. rewrite elem_ids.
  split; intros (i & Hi & H); exists i; (split; [done|]); destruct i; cbn in *; try case_match; naive_solver.
Qed.
Lemma custom_tool_output_ids_key items c :
  c ∈ custom_tool_output_ids items ↔ has_output items (CustomKind, c).
Proof.
  unfold custom_tool_output_ids, has_output. rewrite elem_ids.
  split; intros (i & Hi & H); exists i; (split; [done|]); destruct i; cbn in *; try case_match; naive_solver.
Qed.
Lemma function_call_ids_key items c :
  c ∈ function_call_ids items ∨ c ∈ local_shell_call_ids items ↔ has_call items (FunctionKind, c).
Proof.
  unfold function_call_ids, local_shell_call_ids, has_call. rewrite !elem_ids. split.
  - intros [(i & Hi & H)|(i & Hi & H)]; exists i; (split; [done|]); destruct i; cbn in *;
      try case_match; naive_solver.
  - intros (i & Hi & H). destruct i; try done; cbn in H; try case_match; simplify_eq;
      [right|left]; eexists; by split.
Qed.
Lemma tool_search_call_ids_key items c :
  c ∈ tool_search_call_ids items ↔ has_call items (SearchKind, c).
Proof.
  unfold tool_search_call_ids, has_call. rewrite elem_ids.
  split; intros (i & Hi & H); exists i; (split; [done|]); destruct i; cbn in *; try case_match; naive_solver.
Qed.
Lemma custom_tool_call_ids_key items c :
  c ∈ custom_tool_call_ids items ↔ has_call items (CustomKind, c).
Proof.
  unfold custom_tool_call_ids, has_call. rewrite elem_ids.
  split; intros (i & Hi & H); exists i; (split; [done|]); destruct i; cbn in *; try case_match; naive_solver.
Qed.

(** A synthetic output answers its call; one is made exactly for a call whose
    key no output has. *)
Lemma missing_output_spec items i :
  match missing_output items i with
  | Some o => ∃ k, call_key i = Some k ∧ output_key o = Some k ∧ call_key o = None ∧
                   is_server_output o = false ∧ ¬ has_output items k
  | None => ∀ k, call_key i = Some k → has_output items k
  end.
Proof.
  destruct i as [| | |? [c|]| |? [c|]| | | | | | | | | |]; cbn; try done;
    case_decide as E; rewrite ?function_output_ids_key, ?tool_search_output_ids_key,
      ?custom_tool_output_ids_key in E; try (eexists; by split_and!); by intros k [= <-].
Qed.

Lemma is_retained_spec items i :
  is_retained items i = true ↔
  (∀ k, output_key i = Some k → is_server_output i = false → has_call items k).
Proof.
  destruct i as [| | | | | |c o m| |c n o m|[c|] st ex tl m| | | | | |]; cbn;
    try (by split).
  - rewrite orb_true_iff, !bool_decide_eq_true, function_call_ids_key. naive_solver.
  - rewrite bool_decide_eq_true, custom_tool_call_ids_key. naive_solver.
  - destruct (ex == lit "server"); [naive_solver|].
    rewrite bool_decide_eq_true, tool_search_call_ids_key. naive_solver.
  - by destruct (ex == lit "server").
Qed.

(** ** Inserting the missing outputs *)

Definition with_missing items i : list (ResponseItem Leaf) :=
  i :: option_list (missing_output items i).

Lemma insert_at_app {A} (pre l : list A) n x :
  insert_at (length pre + n) x (pre ++ l) = pre ++ insert_at n x l.
Proof.
  unfold insert_at. rewrite take_app_add, drop_app_add, <-app_assoc. done.
Qed.

Lemma insert_missing_at (f : ResponseItem Leaf → option (ResponseItem Leaf)) items pre :
  foldr (λ io l, insert_at (S io.1) io.2 l) (pre ++ items)
    (omap id (imap (λ idx i, pair (length pre + idx) <$> f i) items))
  = pre ++ (items ≫= λ i, i :: option_list (f i)).
Proof.
  revert pre. induction items as [|i items IH]; intros pre; [done|]. cbn.
  assert (∀ (l : list (ResponseItem Leaf)),
    imap ((λ idx i0, pair (length pre + idx) <$> f i0) ∘ S) l
    = imap (λ idx i0, pair (length (pre ++ [i]) + idx) <$> f i0) l) as E.
  { intros l. apply imap_ext. intros n x _. cbn. rewrite length_app. cbn.
    by replace (length pre + S n)%nat with (length pre + 1 + n)%nat by lia. }
  specialize (IH (pre ++ [i])). rewrite <-app_assoc in IH. cbn [app] in IH.
  rewrite E. destruct (f i) as [o|] eqn:Ef; cbn.
  - rewrite IH, Nat.add_0_r, <-app_assoc. cbn [app].
    replace (S (length pre)) with (length pre + 1)%nat by lia. by rewrite insert_at_app.
  - by rewrite IH, <-app_assoc.
Qed.

Lemma ensure_spec items : ensure_call_outputs_present items = items ≫= with_missing items.
Proof. exact (insert_missing_at (missing_output items) items []). Qed.

Lemma ensure_elem items i :
  i ∈ ensure_call_outputs_present items ↔
  i ∈ items ∨ ∃ c, c ∈ items ∧ missing_output items c = Some i.
Proof.
  rewrite ensure_spec, list_elem_of_bind. unfold with_missing. split.
  - intros (c & Hi & Hc). apply elem_of_cons in Hi as [->|Hi]; [by left|].
    destruct (missing_output items c) eqn:E; cbn in Hi; [|by apply elem_of_nil in Hi].
    apply list_elem_of_singleton in Hi as ->. right. eauto.
  - intros [Hi|(c & Hc & Hm)]; [exists i; split; [by left|done]|].
    exists c. rewrite Hm. split; [right; by left|done].
Qed.

Lemma ensure_has_call items k : has_call (ensure_call_outputs_present items) k ↔ has_call items k.
Proof.
  unfold has_call. setoid_rewrite ensure_elem. split.
  - intros (i & [Hi|(c & Hc & Hm)] & Hk); [eauto|].
    pose proof (missing_output_spec items c) as Hs. rewrite Hm in Hs. naive_solver.
  - intros (i & Hi & Hk). eauto.
Qed.

Lemma ensure_outputs items i k :
  i ∈ ensure_call_outputs_present items → call_key i = Some k →
  has_output (ensure_call_outputs_present items) k.
Proof.
  intros Hi Hk. apply ensure_elem in Hi as [Hi|(c & Hc & Hm)].
  - pose proof (missing_output_spec items i) as Hs. destruct (missing_output items i) as [o|] eqn:Em.
    + destruct Hs as (k' & Hk' & Ho & _). exists o. split; [apply ensure_elem; right; eauto|congruence].
    + destruct (Hs k Hk) as (o & Ho & Hok). exists o. split; [apply ensure_elem; by left|done].
  - pose proof (missing_output_spec items c) as Hs. rewrite Hm in Hs. naive_solver.
Qed.

(** ** The reference normal form *)

(** The history without its orphan outputs, each call that lacks an output
    followed by a synthetic one. *)
Definition normal_form items : list (ResponseItem Leaf) :=
  List.filter (is_retained items) items ≫= with_missing items.

Lemma is_retained_ensure items i :
  is_retained (ensure_call_outputs_present items) i = is_retained items i.
Proof.
  apply eq_true_iff_eq. rewrite !is_retained_spec. by setoid_rewrite ensure_has_call.
Qed.

Lemma filter_bind_with_missing items l :
  (∀ i, i ∈ l → i ∈ items) →
  List.filter (is_retained items) (l ≫= with_missing items)
  = List.filter (is_retained items) l ≫= with_missing items.
Proof.
  induction l as [|i l IH]; intros Hl; [done|]. cbn.
  assert (List.filter (is_retained items) (l ≫= with_missing items)
    = List.filter (is_retained items) l ≫= with_missing items) as IH' by (apply IH; set_solver).
  rewrite List.filter_app, IH'.
  pose proof (missing_output_spec items i) as Hs. destruct (missing_output items i) as [o|] eqn:Em.
  - destruct Hs as (k & Hk & Ho & _ & Hso & _).
    assert (is_retained items i = true) as Hi.
    { apply is_retained_spec. intros k' Hk'. by destruct i; cbn in Hk, Hk'; simplify_eq. }
    assert (is_retained items o = true) as Hro.
    { apply is_retained_spec. intros k' Hk' _. exists i. split; [apply Hl; by left|congruence]. }
    unfold with_missing. rewrite Hi. cbn. by rewrite Em, Hro.
  - cbn. destruct (is_retained items i) eqn:Er; [|done]. cbn. unfold with_missing. by rewrite Em.
Qed.

Lemma orphans_removed items :
  remove_orphan_outputs (ensure_call_outputs_present items) = normal_form items.
Proof.
  unfold remove_orphan_outputs.
  rewrite (List.filter_ext _ (is_retained items)) by (intros; apply is_retained_ensure).
  rewrite ensure_spec. by apply filter_bind_with_missing.
Qed.

Lemma normal_form_paired items : paired (normal_form items).
Proof.
  rewrite <-orphans_removed. set (l := ensure_call_outputs_present items).
  assert (∀ i, i ∈ remove_orphan_outputs l ↔ i ∈ l ∧ is_retained l i = true) as El.
  { intros i. unfold remove_orphan_outputs. rewrite !list_elem_of_In. apply filter_In. }
  assert (∀ k, has_call (remove_orphan_outputs l) k ↔ has_call l k) as Hc.
  { intros k. unfold has_call. setoid_rewrite El. split; [naive_solver|].
    intros (i & Hi & Hk). exists i. split_and!; [done| |done]. apply is_retained_spec.
    intros k' Hk'. by destruct i; cbn in Hk, Hk'; simplify_eq. }
  split.
  - intros i k [Hi _]%El Hk. destruct (ensure_outputs items i k Hi Hk) as (o & Ho & Hok).
    exists o. split; [|done]. apply El. split; [done|]. apply is_retained_spec.
    intros k' Hk' _. simplify_eq. exists i. by split.
  - intros i k [Hi Hr]%El Hk Hs. apply Hc. by apply (proj1 (is_retained_spec l i) Hr).
Qed.

Lemma normal_form_id items : paired items → normal_form items = items.
Proof.
  intros [H1 H2]. unfold normal_form.
  assert (∀ l, (∀ i, i ∈ l → i ∈ items) →
    List.filter (is_retained items) l ≫= with_missing items = l) as H; [|by apply H].
  induction l as [|i l IH]; intros Hl; [done|]. cbn.
  rewrite (proj2 (is_retained_spec items i)); last first.
  { intros k Hk Hs. apply (H2 i k); [apply Hl; by left|done|done]. }
  pose proof (missing_output_spec items i) as Hs. cbn. unfold with_missing at 1.
  destruct (missing_output items i) as [o|]; cbn.
  - destruct Hs as (k & Hk & _ & _ & _ & Hn). destruct Hn. apply (H1 i k); [apply Hl; by left|done].
  - f_equal. apply IH. set_solver.
Qed.
End Pairing.

(** ** Images *)

Section Images.
Context {Leaf : Type}.
Implicit Types (items : list (ResponseItem Leaf)) (i : ResponseItem Leaf).

Definition content_has_image (c : ContentItem) : bool :=
  match c with MsgInputImage _ _ => true | _ => false end.
Definition output_has_image (c : FunctionCallOutputContentItem) : bool :=
  match c with InputImage _ _ => true | _ => false end.
Definition payload_has_image (p : FunctionCallOutputPayload) : bool :=
  match body p with ContentItems items => any output_has_image items | Text _ => false end.
Definition has_image i : bool :=
  match i with
  | Message _ _ content _ _ => any content_has_image content
  | FunctionCallOutput _ o _ | CustomToolCallOutput _ _ o _ => payload_has_image o
  | ImageGenerationCall _ _ _ result _ => negb (is_empty result)
  | _ => false
  end.

Lemma strip_contents_clean l : any content_has_image (strip_content <$> l) = false.
Proof. by induction l as [|[] l IH]. Qed.
Lemma strip_payload_clean p : payload_has_image (strip_payload p) = false.
Proof.
  unfold payload_has_image, strip_payload. destruct p as [[|items] s]; cbn; [done|].
  by induction items as [|[] l IH].
Qed.
Lemma strip_item_clean i : has_image (strip_item i) = false.
Proof. destruct i; cbn; auto using strip_contents_clean, strip_payload_clean. Qed.

Lemma strip_contents_id l : any content_has_image l = false → strip_content <$> l = l.
Proof. induction l as [|[] l IH]; cbn; [done|..|done|]; intros; f_equal; auto. Qed.
Lemma strip_payload_id p : payload_has_image p = false → strip_payload p = p.
Proof.
  unfold payload_has_image, strip_payload. destruct p as [[|items] s]; cbn; [done|].
  intros H. do 2 f_equal. induction items as [|[] l IH]; cbn in *; [done|..|done|]; f_equal; auto.
Qed.
(** Items without images are not touched. *)
Lemma strip_item_id i : has_image i = false → strip_item i = i.
Proof.
  destruct i; cbn; intros H; try done; f_equal; auto using strip_contents_id, strip_payload_id.
  by destruct result.
Qed.

Lemma strip_item_keys i :
  call_key (strip_item i) = call_key i ∧ output_key (strip_item i) = output_key i ∧
  is_server_output (strip_item i) = is_server_output i.
Proof. by destruct i. Qed.

Lemma strip_paired items : paired items → paired (strip_item <$> items).
Proof.
  assert (∀ k, has_call items k → has_call (strip_item <$> items) k) as Hc.
  { intros k (i & Hi & Hk). exists (strip_item i). split; [by apply list_elem_of_fmap_2|].
    by rewrite (proj1 (strip_item_keys i)). }
  assert (∀ k, has_output items k → has_output (strip_item <$> items) k) as Ho.
  { intros k (i & Hi & Hk). exists (strip_item i). split; [by apply list_elem_of_fmap_2|].
    by rewrite (proj1 (proj2 (strip_item_keys i))). }
  intros [H1 H2]. split.
  - intros ? k (i & -> & Hi)%list_elem_of_fmap Hk. rewrite (proj1 (strip_item_keys i)) in Hk. eauto.
  - intros ? k (i & -> & Hi)%list_elem_of_fmap Hk Hs. destruct (strip_item_keys i) as (_ & E1 & E2).
    rewrite E1 in Hk. rewrite E2 in Hs. eauto.
Qed.

(** C36: What is sent to the model is well formed: preparing any history for a prompt
    gives its items without the orphan outputs, in order, every call without an output
    directly followed by a synthetic one, so that every call that carries an id has an
    output, and every output that carries one has a call, except the outputs of tool
    searches the server ran, which need none; without image support no image is left and
    nothing else changes; and preparing it again changes nothing. *)
Theorem for_prompt_normal (modalities : list InputModality) items :
  let r := normalize_history modalities items in
  r = (if supports_images modalities then normal_form items else strip_item <$> normal_form items) ∧
  paired r ∧
  (supports_images modalities = false → Forall (λ i, has_image i = false) r) ∧
  (paired items → Forall (λ i, has_image i = false) items → r = items) ∧
  normalize_history modalities r = r.
Proof.
  cbn zeta.
  assert (∀ l : list (ResponseItem Leaf), normalize_history modalities l =
    if supports_images modalities then normal_form l else strip_item <$> normal_form l) as E.
  { intros l. unfold normalize_history, strip_images_when_unsupported. by rewrite orphans_removed. }
  assert (∀ l : list (ResponseItem Leaf),
    Forall (λ i, has_image i = false) l → strip_item <$> l = l) as Hid.
  { intros l Hl. induction Hl as [|i l Hi _ IH]; [done|]. cbn. by rewrite strip_item_id, IH. }
  assert (∀ l : list (ResponseItem Leaf), Forall (λ i, has_image i = false) (strip_item <$> l)) as Hcl.
  { intros l. apply Forall_fmap, Forall_true. intros i. apply strip_item_clean. }
  rewrite !E. pose proof (normal_form_paired items) as Hp.
  destruct (supports_images modalities).
  - split_and!; [done|done|done|by intros ? _; apply normal_form_id|by apply normal_form_id].
  - pose proof (strip_paired _ Hp). split_and!; [done|done|by intros _| |].
    + intros Hq Hi. rewrite normal_form_id by done. by apply Hid.
    + rewrite normal_form_id by done. by apply Hid.
Qed.
End Images.

(** A history that is in normal form already, and one that is not. *)
Definition answered_call : list (ResponseItem unit) :=
  [FunctionCall None (lit "f") None (lit "{}") (lit "c1") None;
   FunctionCallOutput (lit "c1") (from_text (lit "ok")) None].

Lemma answered_call_paired : paired answered_call.
Proof.
  assert (∀ i k, i ∈ answered_call →
     (call_key i = Some k ∨ output_key i = Some k) → k = (FunctionKind, lit "c1")) as Hk.
  { intros i k Hi H. apply elem_of_cons in Hi as [->|[->|Hi%elem_of_nil]%elem_of_cons]; [..|done];
      destruct H; by simplify_eq/=. }
  split.
  - intros i k Hi H. rewrite (Hk i k Hi (or_introl H)).
    eexists. split; [right; left|done].
  - intros i k Hi H _. rewrite (Hk i k Hi (or_intror H)). eexists. split; [left|done].
Qed.

Lemma for_prompt_normal_witness :
  normalize_history [ModalityText] answered_call = answered_call ∧
  normalize_history [ModalityText]
    (FunctionCall None (lit "g") None (lit "{}") (lit "c2") None :: answered_call)
  = FunctionCall None (lit "g") None (lit "{}") (lit "c2") None
    :: FunctionCallOutput (lit "c2") aborted None :: answered_call.
Proof.
  split; [|by_compute].
  destruct (for_prompt_normal [ModalityText] answered_call) as (_ & _ & _ & H & _).
  apply H; [exact answered_call_paired|by repeat constructor].
Defined.

(** ** Token usage (protocol/src/protocol.rs)

    The sums are on [i64] and wrap around in the release build. *)

Definition wrap_i64 (z : Z) : Z := ((z + 2 ^ 63) mod 2 ^ 64 - 2 ^ 63)%Z.
Definition sat_add_i64 (a b : Z) : Z := Z.max (- 2 ^ 63) (Z.min (a + b) I64_MAX).
Definition sat_sub_i64 (a b : Z) : Z := Z.max (- 2 ^ 63) (Z.min (a - b) I64_MAX).

Record TokenUsage := mkUsage {
  input_tokens : Z;
  cached_input_tokens : Z;
  output_tokens : Z;
  reasoning_output_tokens : Z;
  total_tokens : Z;
}.
Definition usage_default : TokenUsage := mkUsage 0 0 0 0 0.
Definition add_assign (a b : TokenUsage) : TokenUsage :=
  mkUsage (wrap_i64 (input_tokens a + input_tokens b))
    (wrap_i64 (cached_input_tokens a + cached_input_tokens b))
    (wrap_i64 (output_tokens a + output_tokens b))
    (wrap_i64 (reasoning_output_tokens a + reasoning_output_tokens b))
    (wrap_i64 (total_tokens a + total_tokens b)).

Record TokenUsageInfo := mkUsageInfo {
  total_token_usage : TokenUsage;
  last_token_usage : TokenUsage;
  model_context_window : option Z;
}.

Definition append_last_usage (last : TokenUsage) (info : TokenUsageInfo) : TokenUsageInfo :=
  mkUsageInfo (add_assign (total_token_usage info) last) last (model_context_window info).

Definition new_or_append (info : option TokenUsageInfo) (last : option TokenUsage)
    (window : option Z) : option TokenUsageInfo :=
  match info, last with
  | None, None => None
  | _, _ =>
      let info := default (mkUsageInfo usage_default usage_default window) info in
      let info := match last with Some last => append_last_usage last info | None => info end in
      Some (match window with
            | Some w => mkUsageInfo (total_token_usage info) (last_token_usage info) (Some w)
            | None => info
            end)
  end.

Definition fill_to_context_window (context_window : Z) (info : TokenUsageInfo) : TokenUsageInfo :=
  let delta := Z.max (wrap_i64 (context_window - total_tokens (total_token_usage info))) 0 in
  mkUsageInfo (mkUsage 0 0 0 0 context_window) (mkUsage 0 0 0 0 delta) (Some context_window).

Definition full_context_window (context_window : Z) : TokenUsageInfo :=
  fill_to_context_window context_window
    (mkUsageInfo usage_default usage_default (Some context_window)).

(** ** Classification (event_mapping.rs) *)

Definition CONTEXTUAL_DEVELOPER_PREFIXES : list str :=
  lit <$> ["<permissions instructions>"; "<model_switch>"; "<collaboration_mode>";
           "<realtime_conversation>"; "<skills_instructions>"; "<personality_spec>";
           "<token_budget>"]%string.

(** [text.get(..n)] compared without regard to ASCII case. *)
Definition get_prefix_ignore_case (prefix text : str) : bool :=
  match split_at_byte (byte_len prefix) text with
  | Some (candidate, _) => eq_ignore_ascii_case candidate prefix
  | None => false
  end.

Definition is_contextual_dev_fragment (c : ContentItem) : bool :=
  match c with
  | MsgInputText text =>
      any (λ prefix, get_prefix_ignore_case prefix (trim_start text)) CONTEXTUAL_DEVELOPER_PREFIXES
  | _ => false
  end.
Definition is_contextual_dev_message_content (message : list ContentItem) : bool :=
  any is_contextual_dev_fragment message.
Definition has_non_contextual_dev_message_content (message : list ContentItem) : bool :=
  any (λ c, negb (is_contextual_dev_fragment c)) message.

(** ** The manager *)

Record ContextManager (Leaf Turn : Type) := mkContext {
  items : list (ResponseItem Leaf);
  history_version : N;
  token_info : option TokenUsageInfo;
  reference_context_item : option Turn;
}.
Arguments mkContext {Leaf Turn}.
Arguments items {Leaf Turn}.
Arguments history_version {Leaf Turn}.
Arguments token_info {Leaf Turn}.
Arguments reference_context_item {Leaf Turn}.

(** [position] from the end: [rposition]. *)
Fixpoint rposition {A} (p : A → bool) (l : list A) : option nat :=
  match l with
  | [] => None
  | a :: l => match rposition p l with
              | Some n => Some (S n)
              | None => if p a then Some 0 else None
              end
  end.

Section Manager.
Context {Leaf Turn : Type}.
(** [is_contextual_user_fragment] and [InterAgentCommunication::is_message_content]. *)
Context (is_contextual_user_fragment : ContentItem → bool).
Context (is_inter_agent_instruction_content : list ContentItem → bool).
Local Abbreviation manager := (ContextManager Leaf Turn).
Implicit Types (m : manager) (i : ResponseItem Leaf).

Definition context_new : manager := mkContext [] 0 (new_or_append None None None) None.

Definition set_token_info (info : option TokenUsageInfo) m : manager :=
  mkContext (items m) (history_version m) info (reference_context_item m).
Definition set_reference_context_item (item : option Turn) m : manager :=
  mkContext (items m) (history_version m) (token_info m) item.
Definition set_token_usage_full (context_window : Z) m : manager :=
  set_token_info (Some match token_info m with
                       | Some info => fill_to_context_window context_window info
                       | None => full_context_window context_window
                       end) m.
Definition update_token_info (usage : TokenUsage) (window : option Z) m : manager :=
  set_token_info (new_or_append (token_info m) (Some usage) window) m.

Definition is_api_message i : bool :=
  match i with
  | Message _ role _ _ _ => negb (role == lit "system")
  | CompactionTrigger _ | Other => false
  | _ => true
  end.

Definition truncate_function_output_payload (o : FunctionCallOutputPayload)
    (p : TruncationPolicy) : option FunctionCallOutputPayload :=
  body ← match body o with
         | Text content => Text <$> truncate_text content p
         | ContentItems items => ContentItems <$> truncate_function_output_items_with_policy items p
         end;
  Some (mkPayload body (success o)).

Definition process_item i (p : TruncationPolicy) : option (ResponseItem Leaf) :=
  let p := policy_mul p f64_1_2 in
  match i with
  | FunctionCallOutput c o meta =>
      o ← truncate_function_output_payload o p; Some (FunctionCallOutput c o meta)
  | CustomToolCallOutput c n o meta =>
      o ← truncate_function_output_payload o p; Some (CustomToolCallOutput c n o meta)
  | i => Some i
  end.

(** [None] would be a panic of the truncation; [record_items_total] rules it
    out. *)
Fixpoint record_items (l : list (ResponseItem Leaf)) (p : TruncationPolicy) m : option manager :=
  match l with
  | [] => Some m
  | i :: l =>
      if negb (is_api_message i) then record_items l p m
      else
        processed ← process_item i p;
        record_items l p (mkContext (items m ++ [processed]) (history_version m) (token_info m)
                            (reference_context_item m))
  end.

Definition for_prompt (modalities : list InputModality) m : list (ResponseItem Leaf) :=
  normalize_history modalities (items m).

Definition remove_first_item m : manager :=
  match items m with
  | [] => m
  | removed :: rest =>
      mkContext (remove_corresponding_for rest removed) (history_version m) (token_info m)
        (reference_context_item m)
  end.

Definition replace (l : list (ResponseItem Leaf)) m : manager :=
  mkContext l (sat_add (history_version m) 1) (token_info m) (reference_context_item m).

Definition is_contextual_user_message_content (message : list ContentItem) : bool :=
  any is_contextual_user_fragment message.

Definition is_user_turn_boundary i : bool :=
  match i with
  | AgentMessage _ _ _ _ => true
  | Message _ role content _ _ =>
      ((role == lit "user") && negb (is_contextual_user_message_content content))
      || ((role == lit "assistant") && is_inter_agent_instruction_content content)
  | _ => false
  end.

Definition replace_images (placeholder : str) (l : list FunctionCallOutputContentItem)
    : list FunctionCallOutputContentItem :=
  (λ c, match c with InputImage _ _ => InputText placeholder | c => c end) <$> l.

Definition replace_last_turn_images (placeholder : str) m : manager * bool :=
  match rposition (λ i, match i with FunctionCallOutput _ _ _ => true | _ => is_user_turn_boundary i end)
          (items m) with
  | None => (m, false)
  | Some index =>
      match items m !! index with
      | Some (FunctionCallOutput c o meta) =>
          match body o with
          | Text _ => (m, false)
          | ContentItems l =>
              let replaced := any output_has_image l in
              let o := mkPayload (ContentItems (replace_images placeholder l)) (success o) in
              let l := <[index := FunctionCallOutput c o meta]> (items m) in
              (mkContext l (if replaced then sat_add (history_version m) 1 else history_version m)
                 (token_info m) (reference_context_item m), replaced)
          end
      | _ => (m, false)
      end
  end.

Definition user_message_positions (l : list (ResponseItem Leaf)) : list nat :=
  omap id (imap (λ idx i, if is_user_turn_boundary i then Some idx else None) l).

(** Whether an item is trimmed, and whether that invalidates the reference. *)
Definition trims i : option bool :=
  match i with
  | Message _ role content _ _ =>
      if (role == lit "developer") && is_contextual_dev_message_content content
      then Some (has_non_contextual_dev_message_content content)
      else if (role == lit "user") && is_contextual_user_message_content content
      then Some false
      else None
  | _ => None
  end.

(** The adjusted cut, and whether the reference context is cleared. *)
Fixpoint trim_pre_turn_context_updates (snapshot : list (ResponseItem Leaf)) (first cut : nat)
    (clear : bool) : nat * bool :=
  match cut with
  | 0 => (0, clear)
  | S cut' =>
      if Nat.ltb first cut then
        match snapshot !! cut' ≫= trims with
        | Some mixed => trim_pre_turn_context_updates snapshot first cut' (clear || mixed)
        | None => (cut, clear)
        end
      else (cut, clear)
  end.

Definition drop_last_n_user_turns (num_turns : nat) m : manager :=
  if Nat.eqb num_turns 0 then m
  else
    let snapshot := items m in
    let user_positions := user_message_positions snapshot in
    match user_positions with
    | [] => replace snapshot m
    | first :: _ =>
        let cut :=
          if Nat.leb (length user_positions) num_turns then first
          else default 0 (user_positions !! (length user_positions - num_turns)) in
        let '(cut, clear) := trim_pre_turn_context_updates snapshot first cut false in
        let m := if clear then set_reference_context_item None m else m in
        replace (take cut snapshot) m
    end.
End Manager.

(** ** Dropping the oldest item *)

Section RemoveFirst.
Context {Leaf : Type}.
Implicit Types (l : list (ResponseItem Leaf)) (i : ResponseItem Leaf).

(** [l'] is [l] without its only item of key [k]. *)
Definition removes l l' (f : ResponseItem Leaf → option (call_kind * str)) (k : call_kind * str) :=
  sublist l' l ∧ (∀ i, i ∈ l → f i ≠ Some k → i ∈ l') ∧ (∀ i, i ∈ l' → f i ≠ Some k).

Lemma remove_first_removes (p : ResponseItem Leaf → bool) l f k :
  (∀ i, p i = true → f i = Some k) → NoDup (omap f l) →
  ((∃ i, i ∈ l ∧ f i = Some k) → any p l = true) →
  removes l (remove_first_matching p l) f k.
Proof.
  intros Hp. induction l as [|i l IH]; intros Hd Ha; cbn [remove_first_matching].
  { split_and!; [done|done|]. intros i Hi. by apply elem_of_nil in Hi. }
  destruct (p i) eqn:Ei.
  - pose proof (Hp i Ei) as Hk. split_and!.
    + by apply sublist_cons.
    + intros j [->|Hj]%elem_of_cons Hj'; [done|done].
    + intros j Hj Hjk. cbn in Hd. rewrite Hk in Hd. apply NoDup_cons in Hd as [Hd _].
      apply Hd, list_elem_of_omap. eauto.
  - assert (f i ≠ Some k ∨ any p l = true) as Hi.
    { destruct (decide (f i = Some k)) as [Hk|]; [|by left]. right.
      specialize (Ha (ex_intro _ i (conj (list_elem_of_here _ _) Hk))). cbn in Ha.
      by rewrite Ei in Ha. }
    destruct IH as (H1 & H2 & H3).
    + cbn in Hd. destruct (f i); [by apply NoDup_cons in Hd as [_ ?]|done].
    + intros (j & Hj & Hjk). cbn in Ha. rewrite Ei in Ha. apply Ha. exists j. split; [by right|done].
    + split_and!; [by apply sublist_skip| |].
      * intros j [->|Hj]%elem_of_cons Hjk; [by left|right; auto].
      * intros j [->|Hj]%elem_of_cons; [|auto]. destruct Hi as [?|Hany]; [done|]. intros Hk.
        apply any_true in Hany as (j & Hj & Hpj). cbn in Hd. rewrite Hk in Hd.
        apply NoDup_cons in Hd as [Hd _]. apply Hd, list_elem_of_omap. eauto.
Qed.

Ltac by_key := intros i; destruct i as [| | |? [?|]| |? [?|]| | | |[?|]| | | | | |]; cbn;
  try done; rewrite ?str_eqb_true; intros; subst; congruence.

Lemma remove_corresponding_call l i k :
  call_key i = Some k → NoDup (omap output_key l) →
  removes l (remove_corresponding_for l i) output_key k.
Proof.
  intros Hk Hd.
  destruct i as [| | |? [c|]| c0 c1 c2 c3 c|? [c|]| |? ? c| | | | | | | |];
    cbn in Hk; simplify_eq; cbn [remove_corresponding_for].
  1,2: apply (remove_first_removes (is_function_output c)); [by_key|done|].
  3: apply (remove_first_removes (is_tool_search_output c)); [by_key|done|].
  4: apply (remove_first_removes (is_custom_output c)); [by_key|done|].
  all: intros (j & Hj & Hjk); apply any_true; exists j; split; [done|];
    destruct j as [| | | | | | | | |[?|]| | | | | |]; cbn in Hjk; simplify_eq; apply str_eqb_refl.
Qed.

Lemma remove_corresponding_output l i k :
  output_key i = Some k → NoDup (omap call_key l) →
  removes l (remove_corresponding_for l i) call_key k.
Proof.
  intros Hk Hd.
  destruct i as [| | | | | |c| |c|[c|]| | | | | |]; cbn in Hk; simplify_eq; cbn [remove_corresponding_for].
  - destruct (any (is_function_call c) l) eqn:Ef; [|destruct (any (is_local_shell_call c) l) eqn:Es].
    + apply remove_first_removes; [by_key|done|done].
    + apply remove_first_removes; [by_key|done|done].
    + split_and!; [done|done|]. intros j Hj Hjk. rewrite any_false in Ef, Es.
      specialize (Ef j Hj). specialize (Es j Hj).
      destruct j as [| | |? [?|]| |? [?|]| | | | | | | | | |]; cbn in *; simplify_eq;
        by rewrite str_eqb_refl in *.
  - apply remove_first_removes; [by_key|done|]. intros (j & Hj & Hjk). apply any_true. exists j.
    split; [done|]. destruct j as [| | |? [?|]| |? [?|]| | | | | | | | | |]; cbn in Hjk; simplify_eq.
    apply str_eqb_refl.
  - apply remove_first_removes; [by_key|done|]. intros (j & Hj & Hjk). apply any_true. exists j.
    split; [done|]. destruct j as [| | |? [?|]| |? [?|]| | | | | | | | | |]; cbn in Hjk; simplify_eq.
    apply str_eqb_refl.
Qed.

Lemma remove_corresponding_neither l i :
  call_key i = None → output_key i = None → remove_corresponding_for l i = l.
Proof. by destruct i as [| | |? [?|]| |? [?|]| | | |[?|]| | | | | |]. Qed.

Lemma omap_sublist {A B} (f : A → option B) (l k : list A) :
  sublist l k → sublist (omap f l) (omap f k).
Proof.
  induction 1 as [|x l k _ IH|x l k _ IH]; cbn; [done|..]; destruct (f x); try done;
    by constructor.
Qed.

Lemma not_both i k k' : call_key i = Some k → output_key i = Some k' → False.
Proof. by destruct i as [| | |? [?|]| |? [?|]| | | |[?|]| | | | | |]. Qed.

Lemma paired_without r l l' :
  paired (r :: l) → NoDup (omap call_key (r :: l)) → NoDup (omap output_key (r :: l)) →
  (match call_key r, output_key r with
   | Some k, _ => removes l l' output_key k
   | _, Some k => removes l l' call_key k
   | _, _ => l' = l
   end) → paired l'.
Proof.
  intros [H1 H2] Hc Ho Hl.
  assert (∀ (f : ResponseItem Leaf → option (call_kind * str)) k j,
    NoDup (omap f (r :: l)) → f r = Some k → j ∈ l → f j ≠ Some k) as Huniq.
  { intros f k j Hd Hk Hj Hjk. cbn in Hd. rewrite Hk in Hd. apply NoDup_cons in Hd as [Hd _].
    apply Hd, list_elem_of_omap. eauto. }
  assert (∀ j k, j ∈ l → call_key j = Some k → has_output (r :: l) k) as H1' by
    (intros; eapply H1; [by right|done]).
  destruct (call_key r) as [k|] eqn:Ek; [|destruct (output_key r) as [k|] eqn:Eo].
  - destruct Hl as (Hs & Hkeep & Hno). split.
    + intros j k' Hj Hjk. pose proof (elem_of_sublist _ _ _ Hj Hs) as Hjl.
      destruct (H1' j k' Hjl Hjk) as (o & Hol & Hok). exists o. split; [|done].
      apply elem_of_cons in Hol as [->|Hol]; [by destruct (not_both r k k')|].
      apply Hkeep; [done|]. rewrite Hok. intros [= ->]. by apply (Huniq call_key k j).
    + intros j k' Hj Hjk Hsv. pose proof (elem_of_sublist _ _ _ Hj Hs) as Hjl.
      destruct (H2 j k') as (c & Hcl & Hck); [by right|done|done|]. exists c. split; [|done].
      apply elem_of_cons in Hcl as [->|Hcl].
      * destruct (Hno j Hj). congruence.
      * apply Hkeep; [done|]. intros Hx. by destruct (not_both c k' k).
  - destruct Hl as (Hs & Hkeep & Hno). split.
    + intros j k' Hj Hjk. pose proof (elem_of_sublist _ _ _ Hj Hs) as Hjl.
      destruct (H1' j k' Hjl Hjk) as (o & Hol & Hok). exists o. split; [|done].
      apply elem_of_cons in Hol as [->|Hol].
      * destruct (Hno j Hj). congruence.
      * apply Hkeep; [done|]. intros Hx. by destruct (not_both o k k').
    + intros j k' Hj Hjk Hsv. pose proof (elem_of_sublist _ _ _ Hj Hs) as Hjl.
      destruct (H2 j k') as (c & Hcl & Hck); [by right|done|done|]. exists c. split; [|done].
      apply elem_of_cons in Hcl as [->|Hcl]; [congruence|].
      apply Hkeep; [done|]. rewrite Hck. intros [= ->]. by apply (Huniq output_key k j).
  - subst l'. split.
    + intros j k Hj Hjk. destruct (H1' j k Hj Hjk) as (o & [->|Hol]%elem_of_cons & Hok); [congruence|].
      by exists o.
    + intros j k Hj Hjk Hsv. destruct (H2 j k) as (c & [->|Hcl]%elem_of_cons & Hck);
        [by right|done|done|congruence|]. by exists c.
Qed.
End RemoveFirst.

Definition unique_ids {Leaf} (l : list (ResponseItem Leaf)) : Prop :=
  NoDup (omap call_key l) ∧ NoDup (omap output_key l).

(** Dropping the oldest item keeps the history well formed without a full
    normalisation: when every id is used by one call and one output, the item and
    its counterpart disappear together, everything else stays in order, and
    calls and outputs are still paired. *)
Theorem remove_first_item_paired {Leaf Turn} (m : ContextManager Leaf Turn) (r : ResponseItem Leaf)
    (rest : list (ResponseItem Leaf)) :
  items m = r :: rest → paired (items m) → unique_ids (items m) →
  let l := items (remove_first_item m) in
  paired l ∧ unique_ids l ∧ sublist l rest ∧
  ∀ i, i ∈ rest → (i ∈ l) ∨ (is_Some (call_key r) ∧ output_key i = call_key r) ∨
                  (is_Some (output_key r) ∧ call_key i = output_key r).
Proof.
  intros E Hp [Hc Ho]. unfold remove_first_item. rewrite E. cbn [items].
  rewrite E in Hp, Hc, Ho. set (l := remove_corresponding_for rest r).
  assert (match call_key r, output_key r with
   | Some k, _ => removes rest l output_key k
   | _, Some k => removes rest l call_key k
   | _, _ => l = rest
   end) as Hl.
  { destruct (call_key r) as [k|] eqn:Ek; [|destruct (output_key r) as [k|] eqn:Eo].
    - apply remove_corresponding_call; [done|]. cbn in Ho.
      destruct (output_key r); [by apply NoDup_cons in Ho as [_ ?]|done].
    - apply remove_corresponding_output; [done|]. cbn in Hc. by rewrite Ek in Hc.
    - by apply remove_corresponding_neither. }
  assert (sublist l rest) as Hs.
  { destruct (call_key r), (output_key r); [by destruct Hl..|by rewrite Hl]. }
  split_and!; [by eapply paired_without| |done|].
  - assert (sublist l (r :: rest)) as Hs' by (by apply sublist_cons).
    split; [exact (sublist_NoDup _ _ Hc (omap_sublist call_key _ _ Hs'))|].
    exact (sublist_NoDup _ _ Ho (omap_sublist output_key _ _ Hs')).
  - intros i Hi. destruct (call_key r) as [k|] eqn:Ek; [|destruct (output_key r) as [k|] eqn:Eo].
    + destruct Hl as (_ & Hkeep & _).
      destruct (decide (output_key i = Some k)); [right; left; by eauto|left; by apply Hkeep].
    + destruct Hl as (_ & Hkeep & _).
      destruct (decide (call_key i = Some k)); [right; right; by eauto|left; by apply Hkeep].
    + rewrite Hl. by left.
Qed.

Lemma remove_first_item_paired_witness :
  let m := mkContext (Turn := unit) answered_call 0 None None in
  items (remove_first_item m) = [] ∧ paired (items (remove_first_item m)).
Proof.
  cbn zeta. split; [by_compute|].
  eapply (remove_first_item_paired (mkContext (Turn := unit) answered_call 0 None None));
    [done|exact answered_call_paired|].
  split; apply NoDup_singleton.
Defined.

(** With an id that two outputs share, the pairing is lost. *)
Example repeated_output_loses_pairing :
  let o : ResponseItem unit := FunctionCallOutput (lit "c1") (from_text (lit "ok")) None in
  let m := mkContext (Turn := unit) (answered_call ++ [o]) 0 None None in
  paired (items m) ∧ ¬ paired (items (remove_first_item m)).
Proof.
  cbn zeta. split.
  - destruct answered_call_paired as [H1 H2]. split.
    + intros i k Hi Hk. apply elem_of_app in Hi as [Hi| ->%list_elem_of_singleton]; [|done].
      destruct (H1 i k Hi Hk) as (o & ? & ?). exists o. split; [|done]. apply elem_of_app. by left.
    + intros i k Hi Hk Hs. assert (has_call answered_call k) as (c & ? & ?).
      { apply elem_of_app in Hi as [Hi| ->%list_elem_of_singleton]; [by apply (H2 i k)|].
        simplify_eq/=. eexists. split; [left|done]. }
      exists c. split; [|done]. apply elem_of_app. by left.
  - intros [_ H2].
    destruct (H2 (FunctionCallOutput (lit "c1") (from_text (lit "ok")) None) (FunctionKind, lit "c1"))
      as (c & Hc & Hk); [vm_compute; left|done|done|].
    assert (c = FunctionCallOutput (lit "c1") (from_text (lit "ok")) None) as ->
      by (vm_compute in Hc; by apply list_elem_of_singleton in Hc). done.
Qed.

(** ** Rolling back turns *)

Section Rollback.
Context {Leaf Turn : Type}.
Context (user_fragment : ContentItem → bool) (instruction : list ContentItem → bool).
Implicit Types (m : ContextManager Leaf Turn) (l : list (ResponseItem Leaf)) (i : ResponseItem Leaf).

Local Abbreviation boundary := (is_user_turn_boundary (Leaf := Leaf) user_fragment instruction).
Local Abbreviation trimmable := (trims (Leaf := Leaf) user_fragment).
Local Abbreviation positions := (user_message_positions (Leaf := Leaf) user_fragment instruction).

Definition turns l : nat := length (List.filter boundary l).

Lemma turns_app l l' : turns (l ++ l') = turns l + turns l'.
Proof. unfold turns. by rewrite List.filter_app, length_app. Qed.

(** What is trimmed is no turn. *)
Lemma trimmable_no_turn i b : trimmable i = Some b → boundary i = false.
Proof.
  destruct i as [id role content ph me| | | | | | | | | | | | | | |]; cbn; try done.
  destruct (role == lit "developer") eqn:E; cbn.
  - apply str_eqb_true in E as ->. by destruct (is_contextual_dev_message_content content).
  - destruct (role == lit "user") eqn:E2; cbn; [|done]. apply str_eqb_true in E2 as ->.
    by destruct (is_contextual_user_message_content user_fragment content).
Qed.

Lemma indices_shift (b : ResponseItem Leaf → bool) (g : nat → nat) l :
  omap id (imap (λ n i, if b i then Some (S (g n)) else None) l)
  = S <$> omap id (imap (λ n i, if b i then Some (g n) else None) l).
Proof.
  revert g. induction l as [|i l IH]; intros g; [done|]. cbn.
  pose proof (IH (g ∘ S)) as IH'. unfold compose in IH' |- *. cbn in IH'.
  destruct (b i); cbn; by rewrite IH'.
Qed.

Lemma positions_cons i l :
  positions (i :: l) = (if boundary i then [0] else []) ++ (S <$> positions l).
Proof.
  pose proof (indices_shift boundary id l) as E. unfold user_message_positions, compose in *. cbn.
  unfold compose. cbn in E. rewrite <-E. by destruct (boundary i).
Qed.

Lemma positions_length l : length (positions l) = turns l.
Proof.
  induction l as [|i l IH]; [done|]. rewrite positions_cons, length_app, length_fmap, IH.
  unfold turns. cbn. by destruct (boundary i).
Qed.

(** The position number [q] splits the history before its turn number [q]. *)
Lemma positions_split l q pos :
  positions l !! q = Some pos →
  ∃ pre i post, l = pre ++ i :: post ∧ length pre = pos ∧ boundary i = true ∧ turns pre = q.
Proof.
  revert q pos. induction l as [|i l IH]; intros q pos; [done|]. rewrite positions_cons.
  destruct (boundary i) eqn:Ei; cbn [app].
  - destruct q as [|q]; [intros [= <-]; by exists [], i, l|].
    change ((0 :: (S <$> positions l)) !! S q) with ((S <$> positions l) !! q).
    rewrite list_lookup_fmap. destruct (positions l !! q) as [p|] eqn:E; [|done]. intros [= <-].
    destruct (IH q p E) as (pre & j & post & -> & <- & ? & <-). exists (i :: pre), j, post.
    unfold turns. cbn. by rewrite Ei.
  - rewrite list_lookup_fmap. destruct (positions l !! q) as [p|] eqn:E; [|done]. intros [= <-].
    destruct (IH q p E) as (pre & j & post & -> & <- & ? & <-). exists (i :: pre), j, post.
    unfold turns. cbn. by rewrite Ei.
Qed.

Lemma trim_spec l first cut clear :
  cut ≤ length l → first ≤ cut →
  ∃ cut' clear' trimmed,
    trim_pre_turn_context_updates user_fragment l first cut clear = (cut', clear') ∧
    first ≤ cut' ∧ take cut l = take cut' l ++ trimmed ∧
    Forall (λ i, is_Some (trimmable i)) trimmed ∧
    clear' = clear || any (λ i, bool_decide (trimmable i = Some true)) trimmed ∧
    (cut' = first ∨ ∃ i, last (take cut' l) = Some i ∧ trimmable i = None).
Proof.
  revert clear. induction cut as [|cut IH]; intros clear Hl Hf; cbn [trim_pre_turn_context_updates].
  { exists 0, clear, []. rewrite orb_false_r. split_and!; [done|lia|done|constructor|done|left; lia]. }
  destruct (Nat.ltb_spec first (S cut)) as [Hlt|Hge]; last first.
  { exists (S cut), clear, []. rewrite app_nil_r, orb_false_r.
    split_and!; [done|lia|done|constructor|done|left; lia]. }
  destruct (lookup_lt_is_Some_2 l cut) as [i Hi]; [lia|].
  assert (take (S cut) l = take cut l ++ [i]) as Et by (by apply take_S_r).
  rewrite Hi. cbn. destruct (trimmable i) as [b|] eqn:Eb.
  - destruct (IH (clear || b)) as (c' & cl' & tr & -> & H1 & H2 & H3 & -> & H4); [lia|lia|].
    exists c', (clear || b || any (λ i, bool_decide (trimmable i = Some true)) tr), (tr ++ [i]).
    split_and!; [done|done|by rewrite Et, H2, app_assoc| | |done].
    + apply Forall_app. split; [done|]. repeat constructor. by rewrite Eb.
    + unfold any. rewrite existsb_app. cbn. rewrite Eb, orb_false_r, <-!orb_assoc. f_equal.
      rewrite orb_comm. f_equal. by destruct b.
  - exists (S cut), clear, []. rewrite app_nil_r, orb_false_r.
    split_and!; [done|lia|done|constructor|done|]. right. exists i. split; [|done].
    by rewrite Et, last_snoc.
Qed.

(** Rolling back [n] turns cuts the history in one place: the dropped part
    begins with a turn and holds exactly the last [n] turns (or all there are);
    the context messages directly before it go with it; what was recorded before
    the first turn always stays; and the reference context is forgotten exactly
    when a trimmed message mixed context with other instructions. *)
Theorem rollback_exact m (n : nat) :
  0 < n → 0 < turns (items m) →
  let m' := drop_last_n_user_turns user_fragment instruction n m in
  ∃ trimmed turn dropped, items m = items m' ++ trimmed ++ turn :: dropped ∧
    boundary turn = true ∧ turns (turn :: dropped) = Nat.min n (turns (items m)) ∧
    turns (items m') = turns (items m) - n ∧
    Forall (λ i, is_Some (trimmable i)) trimmed ∧
    (turns (items m') = 0 ∨ ∃ i, last (items m') = Some i ∧ trimmable i = None) ∧
    reference_context_item m' =
      (if any (λ i, bool_decide (trimmable i = Some true)) trimmed then None
       else reference_context_item m) ∧
    history_version m' = sat_add (history_version m) 1 ∧ token_info m' = token_info m.
Proof.
  intros Hn Ht. unfold drop_last_n_user_turns.
  destruct (Nat.eqb_spec n 0); [lia|]. pose proof (positions_length (items m)) as Hlen.
  destruct (positions (items m)) as [|first ps] eqn:Ep; [cbn in Hlen; lia|].
  assert (positions (items m) !! 0 = Some first) as H0 by (by rewrite Ep).
  destruct (positions_split _ _ _ H0) as (pre0 & t0 & post0 & E0 & Hp0 & Hb0 & Hz).
  set (q := if Nat.leb (length (first :: ps)) n then 0 else length (first :: ps) - n).
  assert (∃ pos, (first :: ps) !! q = Some pos ∧
    (if Nat.leb (length (first :: ps)) n then first
     else default 0 ((first :: ps) !! (length (first :: ps) - n))) = pos) as (pos & Hq & ->).
  { unfold q. destruct (Nat.leb_spec (length (first :: ps)) n); [by exists first|].
    destruct (lookup_lt_is_Some_2 (first :: ps) (length (first :: ps) - n)) as [p Hp]; [cbn in *; lia|].
    exists p. by rewrite Hp. }
  assert (q = turns (items m) - n) as Eq.
  { unfold q. rewrite <-Hlen. destruct (Nat.leb_spec (length (first :: ps)) n); lia. }
  rewrite <-Ep in Hq. destruct (positions_split _ _ _ Hq) as (pre & turn & post & E & Hpos & Hb & Hqt).
  assert (first ≤ pos) as Hfp.
  { destruct (decide (q = 0)) as [Eq0|Hq0]; [rewrite Eq0, H0 in Hq; injection Hq; lia|].
    destruct (Nat.le_gt_cases (length pre0) (length pre)) as [|Hgt]; [lia|]. exfalso.
    assert (turns pre ≤ turns pre0) as Hle.
    { assert (pre = take (length pre) pre0) as ->.
      { transitivity (take (length pre) (items m)); [rewrite E; by rewrite take_app_length|].
        rewrite E0. by rewrite take_app_le by lia. }
      rewrite <-(take_drop (length pre) pre0) at 2. rewrite turns_app. lia. }
    lia. }
  assert (pos ≤ length (items m)) as Hle by (rewrite E, length_app; lia).
  destruct (trim_spec (items m) first pos false Hle Hfp)
    as (cut & clear & trimmed & -> & Hfc & Etake & Htr & -> & Hmax).
  assert (take pos (items m) = pre) as Epre by (rewrite E, <-Hpos; apply take_app_length).
  assert (turns trimmed = 0) as Ht0.
  { clear -Htr. induction Htr as [|i l [b Hb] _ IH]; [done|]. unfold turns in *. cbn.
    by rewrite (trimmable_no_turn i b Hb). }
  assert (turns (take cut (items m)) = q) as Hcut.
  { rewrite <-Hqt, <-Epre, Etake, turns_app. lia. }
  exists trimmed, turn, post.
  assert (∀ mm : ContextManager Leaf Turn, items (replace (take cut (items m)) mm) = take cut (items m)) as Hi
    by done.
  assert (turns (items m) = q + turns (turn :: post)) as Hsum by (rewrite E at 1; by rewrite turns_app, Hqt).
  split_and!; try done.
  - rewrite Hi, app_assoc, <-Etake, Epre. exact E.
  - lia.
  - rewrite Hi. lia.
  - rewrite Hi. destruct Hmax as [->|?]; [left|by right]. rewrite <-Hz, <-Hp0, E0.
    by rewrite take_app_length.
  - cbn [orb]. by destruct (any _ trimmed).
  - cbn [orb]. by destruct (any _ trimmed).
  - cbn [orb]. by destruct (any _ trimmed).
Qed.

(** Without a turn nothing is dropped, but the version advances all the same. *)
Lemma rollback_without_turns m n :
  0 < n → turns (items m) = 0 →
  drop_last_n_user_turns user_fragment instruction n m = replace (items m) m.
Proof.
  intros Hn Ht. unfold drop_last_n_user_turns. destruct (Nat.eqb_spec n 0); [lia|].
  rewrite <-positions_length in Ht. by destruct (positions (items m)).
Qed.
End Rollback.

Lemma rollback_exact_witness :
  let user t : ResponseItem unit := Message None (lit "user") [MsgInputText (lit t)] None None in
  let dev t : ResponseItem unit := Message None (lit "developer") [MsgInputText (lit t)] None None in
  let m := mkContext [dev "hello"; user "a"; dev "<model_switch> x"; user "b"] 0 None (Some tt) in
  let m' := drop_last_n_user_turns (λ _, false) (λ _, false) 1 m in
  items m' = [dev "hello"; user "a"] ∧
  turns (λ _, false) (λ _, false) (items m') = turns (λ _, false) (λ _, false) (items m) - 1.
Proof.
  cbn zeta. split; [by_compute|].
  edestruct (rollback_exact (Leaf := unit) (Turn := unit) (λ _, false) (λ _, false)
    (mkContext [Message None (lit "developer") [MsgInputText (lit "hello")] None None;
                Message None (lit "user") [MsgInputText (lit "a")] None None;
                Message None (lit "developer") [MsgInputText (lit "<model_switch> x")] None None;
                Message None (lit "user") [MsgInputText (lit "b")] None None] 0 None (Some tt)) 1)
    as (trimmed & turn & dropped & _ & _ & _ & H & _); [lia|vm_compute; lia|exact H].
Defined.

(** ** Recording *)

Section Recording.
Context {Leaf Turn : Type}.
Implicit Types (m : ContextManager Leaf Turn) (i : ResponseItem Leaf).

(** Every text of an output is shorter than [usize] counts. *)
Definition payload_fits (o : FunctionCallOutputPayload) : Prop :=
  match body o with
  | Text s => (byte_len s <= USIZE_MAX)%N
  | ContentItems l => ∀ t, t ∈ texts l → (byte_len t <= USIZE_MAX)%N
  end.
Definition item_fits i : Prop :=
  match i with
  | FunctionCallOutput _ o _ | CustomToolCallOutput _ _ o _ => payload_fits o
  | _ => True
  end.

Lemma truncate_payload_total o p :
  payload_fits o → is_Some (truncate_function_output_payload o p).
Proof.
  unfold payload_fits, truncate_function_output_payload. destruct (body o) as [s|l]; intros Ho.
  - destruct (truncate_text s p) eqn:E; [by eexists|]. exfalso.
    destruct p as [n|n]; cbn in E.
    + destruct (truncate_estimate_spec s n false Ho) as (x & Hx & _).
      unfold truncate_middle_chars in E. congruence.
    + unfold truncate_middle_with_token_budget in E. destruct (is_empty s); [done|].
      destruct ((0 <? n)%N && _); [done|].
      destruct (truncate_estimate_spec s (approx_bytes_for_tokens n) true Ho) as (x & Hx & _).
      by rewrite Hx in E.
  - unfold truncate_function_output_items_with_policy.
    destruct (truncate_items_spec p l [] (initial_budget p) Ho) as (r & b & k & cut & om & -> & _).
    by eexists.
Qed.

Lemma process_item_total i p :
  item_fits i → ∃ i', process_item i p = Some i' ∧
    call_key i' = call_key i ∧ output_key i' = output_key i ∧
    is_server_output i' = is_server_output i.
Proof.
  destruct i; intros Hi; try (by eexists); cbn in Hi |- *;
    destruct (truncate_payload_total _ (policy_mul p f64_1_2) Hi) as [o ->]; by eexists.
Qed.

(** Recording never fails: it appends the items the model is sent, in order, and
    leaves their call ids, so that a paired history extended by a call and its
    output stays paired. *)
Lemma record_items_total l p m :
  Forall item_fits l →
  ∃ l', record_items l p m
        = Some (mkContext (items m ++ l') (history_version m) (token_info m)
                  (reference_context_item m)) ∧
    omap call_key l' = omap call_key (List.filter is_api_message l) ∧
    omap output_key l' = omap output_key (List.filter is_api_message l) ∧
    length l' = length (List.filter is_api_message l).
Proof.
  intros Hl. revert m. induction Hl as [|i l Hi _ IH]; intros m; cbn [record_items List.filter].
  { exists []. rewrite app_nil_r. by destruct m. }
  destruct (is_api_message i); cbn [negb]; [|apply IH].
  destruct (process_item_total i p Hi) as (i' & -> & Hc & Ho & _). cbn [mbind option_bind].
  destruct (IH (mkContext (items m ++ [i']) (history_version m) (token_info m)
    (reference_context_item m))) as (l' & -> & H1 & H2 & H3).
  exists (i' :: l'). cbn [items history_version token_info reference_context_item].
  rewrite <-app_assoc. cbn. rewrite Hc, Ho, H1, H2, H3. done.
Qed.
End Recording.

(** ** Estimates *)

Section Estimates.
Context {Leaf Turn : Type}.
Context (is_contextual_user_fragment : ContentItem → bool).
Context (is_inter_agent_instruction_content : list ContentItem → bool).
(** The length of the JSON of an item ([None] when it cannot be serialised), and
    the estimate for a decodable image in original size. *)
Context (json_len : ResponseItem Leaf → option N) (original_image_bytes : str → option Z).
Implicit Types (m : ContextManager Leaf Turn) (i : ResponseItem Leaf).

Definition RESIZED_IMAGE_BYTES_ESTIMATE : Z := 7373.

(** [i64::try_from(n).unwrap_or(i64::MAX)]. *)
Definition to_i64 (n : N) : Z := Z.min (Z.of_N n) I64_MAX.

Definition estimate_reasoning_length (encoded_len : N) : N :=
  sat_sub (sat_mul encoded_len 3 / 4) 650.
Definition estimate_encrypted_function_output_length (encoded_len : N) : N :=
  ((sat_mul encoded_len 9 + 15) / 16)%N.

Definition parse_base64_image_data_url (url : str) : option str :=
  if negb (get_prefix_ignore_case (lit "data:") url) then None
  else
    '(metadata, payload) ← split_once (ch ",") url;
    metadata_without_scheme ← snd <$> split_at_byte 5 metadata;
    match split (ch ";") metadata_without_scheme with
    | [] => None
    | mime_type :: parts =>
        let has_base64_marker := any (λ part, eq_ignore_ascii_case part (lit "base64")) parts in
        if negb (get_prefix_ignore_case (lit "image/") mime_type) then None
        else if negb has_base64_marker then None
        else Some payload
    end.

Definition accumulate (acc : Z * Z) (image : str * option ImageDetail) : Z * Z :=
  let '(image_url, detail) := image in
  match parse_base64_image_data_url image_url with
  | Some payload =>
      (sat_add_i64 acc.1 (to_i64 (byte_len payload)),
       sat_add_i64 acc.2
         match detail with
         | Some Original => default RESIZED_IMAGE_BYTES_ESTIMATE (original_image_bytes image_url)
         | _ => RESIZED_IMAGE_BYTES_ESTIMATE
         end)
  | None => acc
  end.

Definition item_images i : list (str * option ImageDetail) :=
  match i with
  | Message _ _ content _ _ =>
      omap (λ c, match c with MsgInputImage u d => Some (u, d) | _ => None end) content
  | FunctionCallOutput _ o _ | CustomToolCallOutput _ _ o _ =>
      match body o with
      | ContentItems l => omap (λ c, match c with InputImage u d => Some (u, d) | _ => None end) l
      | Text _ => []
      end
  | _ => []
  end.

Definition image_data_url_estimate_adjustment i : Z * Z := foldl accumulate (0, 0)%Z (item_images i).

Definition encrypted_function_output_estimate_adjustment i : Z * Z :=
  match i with
  | FunctionCallOutput _ o _ =>
      match body o with
      | ContentItems l =>
          foldl (λ acc c, match c with
            | EncryptedContent e =>
                (sat_add_i64 acc.1 (to_i64 (byte_len e)),
                 sat_add_i64 acc.2 (to_i64 (estimate_encrypted_function_output_length (byte_len e))))
            | _ => acc
            end) (0, 0)%Z l
      | Text _ => (0, 0)%Z
      end
  | _ => (0, 0)%Z
  end.

Definition estimate_response_item_model_visible_bytes i : Z :=
  match i with
  | Reasoning _ _ _ (Some content) _ | Compaction content _ | ContextCompaction (Some content) _ =>
      to_i64 (estimate_reasoning_length (byte_len content))
  | i =>
      let raw := match json_len i with Some n => to_i64 n | None => 0%Z end in
      let '(image_payload, image_replacement) := image_data_url_estimate_adjustment i in
      let '(encrypted_payload, encrypted_replacement) :=
        encrypted_function_output_estimate_adjustment i in
      let raw := sat_add_i64 (sat_sub_i64 raw image_payload) image_replacement in
      sat_add_i64 (sat_sub_i64 raw encrypted_payload) encrypted_replacement
  end.

Definition estimate_item_token_count i : Z :=
  approx_tokens_from_byte_count_i64 (estimate_response_item_model_visible_bytes i).

Definition sum_estimates (l : list (ResponseItem Leaf)) : Z :=
  foldl sat_add_i64 0%Z (estimate_item_token_count <$> l).

Definition estimate_token_count_with_base_instructions (base_instructions : str) m : option Z :=
  Some (sat_add_i64 (to_i64 (approx_token_count base_instructions)) (sum_estimates (items m))).

Definition is_model_generated_item i : bool :=
  match i with
  | Message _ role _ _ _ => role == lit "assistant"
  | Reasoning _ _ _ _ _ | FunctionCall _ _ _ _ _ _ | ToolSearchCall _ _ _ _ _ _
  | WebSearchCall _ _ _ _ | ImageGenerationCall _ _ _ _ _ | CustomToolCall _ _ _ _ _ _
  | LocalShellCall _ _ _ _ _ | Compaction _ _ | ContextCompaction _ _ => true
  | _ => false
  end.

Definition items_after_last_model_generated_item m : list (ResponseItem Leaf) :=
  let start := match rposition is_model_generated_item (items m) with
               | Some index => S index
               | None => length (items m)
               end in
  drop start (items m).

Definition get_non_last_reasoning_items_tokens m : Z :=
  match rposition (is_user_turn_boundary is_contextual_user_fragment
                     is_inter_agent_instruction_content) (items m) with
  | None => 0%Z
  | Some last_user_index =>
      sum_estimates (List.filter
        (λ i, match i with Reasoning _ _ _ (Some _) _ => true | _ => false end)
        (take last_user_index (items m)))
  end.

Definition get_total_token_usage (server_reasoning_included : bool) m : Z :=
  let last_tokens := match token_info m with
                     | Some info => total_tokens (last_token_usage info)
                     | None => 0%Z
                     end in
  let after := sum_estimates (items_after_last_model_generated_item m) in
  if server_reasoning_included then sat_add_i64 last_tokens after
  else sat_add_i64 (sat_add_i64 last_tokens (get_non_last_reasoning_items_tokens m)) after.

(** ** Their bounds *)

Definition is_i64 (z : Z) : Prop := (- 2 ^ 63 <= z <= I64_MAX)%Z.

Lemma sat_add_i64_range a b : is_i64 (sat_add_i64 a b).
Proof. unfold is_i64, sat_add_i64, I64_MAX. lia. Qed.

Lemma estimate_item_range i : (0 <= estimate_item_token_count i <= I64_MAX)%Z.
Proof.
  unfold estimate_item_token_count, approx_tokens_from_byte_count_i64.
  destruct (Z.leb_spec (estimate_response_item_model_visible_bytes i) 0); unfold I64_MAX; lia.
Qed.

(** Saturating sums of estimates: the order of the items does not matter. *)
Lemma sum_estimates_saturates l :
  sum_estimates l = Z.min (foldr Z.add 0 (estimate_item_token_count <$> l))%Z I64_MAX.
Proof.
  unfold sum_estimates.
  assert (∀ acc, (0 <= acc <= I64_MAX)%Z →
    foldl sat_add_i64 acc (estimate_item_token_count <$> l)
    = Z.min (acc + foldr Z.add 0 (estimate_item_token_count <$> l)) I64_MAX)%Z as H.
  { assert (∀ k, (0 <= foldr Z.add 0 (estimate_item_token_count <$> k))%Z) as Hpos.
    { intros k. induction k as [|j k IHk]; [done|]. pose proof (estimate_item_range j). cbn in *. lia. }
    induction l as [|i l IH]; intros acc Hacc; cbn [fmap list_fmap foldl foldr]; [lia|].
    pose proof (estimate_item_range i). pose proof (Hpos l).
    rewrite IH; unfold sat_add_i64, I64_MAX in *; lia. }
  rewrite H by (unfold I64_MAX; lia). done.
Qed.
End Estimates.
