(* ===== verification/Readiness.v ===== *)
(** * The readiness flag

    [utils/readiness/src/lib.rs]: a one-way flag that token holders set and
    waiters await.  The calls of any number of threads interleave at their
    atomic accesses: a thread is the program point it has reached inside a call
    ([pc]), one step performs one access to the shared fields, and the tokio
    primitives the code builds on are parameters: the [watch] channel is the
    class [WatchChannel] with the documented laws of [send], [subscribe] and
    dropping a receiver.

    The invariant [inv] gives the safety results (the flag is set once, only by
    the holder of a live token or when no token is out, and is broadcast at most
    once) and the liveness of waiters; [wait_ready_lost_wakeup] shows the schedule
    in which a waiter that subscribes after the broadcast waits for ever. *)

From stdpp Require Import fin_maps fin_sets.
From S2P Require Import Prelude Watch.

(** ** Tokens *)

(** [i32] with the wrap-around of [fetch_add]. *)
Definition wrap_i32 (z : Z) : Z := ((z + 2 ^ 31) mod 2 ^ 32 - 2 ^ 31)%Z.

Abbreviation Token := Z (only parsing).

Inductive ReadinessError := TokenLockFailed | FlagAlreadyReady.

(** The [loop] of [subscribe]: [next_id] is bumped until the id is neither 0 nor
    in use.  The fuel bounds the iterations; [alloc_token_total] shows the fuel
    the caller passes is enough. *)
Fixpoint alloc_token (fuel : nat) (next_id : Z) (tokens : gset Token) : option (Token * Z) :=
  match fuel with
  | O => None
  | S fuel =>
      let token := next_id in
      let next_id := wrap_i32 (next_id + 1) in
      if bool_decide (token ≠ 0%Z) && bool_decide (token ∉ tokens)
      then Some (token, next_id)
      else alloc_token fuel next_id tokens
  end.

(** ** Shared fields *)

Section Flag.
Context {W : Type} `{!WatchChannel bool W}.

Record ReadinessFlag := {
  ready : bool;
  next_id : Z;
  tokens : gset Token;
  token_lock : option nat;  (** the thread that holds the mutex of [tokens] *)
  tx : W;
}.

Definition new : ReadinessFlag :=
  {| ready := false; next_id := 1; tokens := ∅; token_lock := None;
     tx := drop_rx (channel false) |}.

Definition with_ready (b : bool) (g : ReadinessFlag) : ReadinessFlag :=
  {| ready := b; next_id := next_id g; tokens := tokens g; token_lock := token_lock g;
     tx := tx g |}.
Definition with_lock (l : option nat) (g : ReadinessFlag) : ReadinessFlag :=
  {| ready := ready g; next_id := next_id g; tokens := tokens g; token_lock := l; tx := tx g |}.
Definition with_set (s : gset Token) (g : ReadinessFlag) : ReadinessFlag :=
  {| ready := ready g; next_id := next_id g; tokens := s; token_lock := token_lock g;
     tx := tx g |}.
Definition with_next (n : Z) (g : ReadinessFlag) : ReadinessFlag :=
  {| ready := ready g; next_id := n; tokens := tokens g; token_lock := token_lock g;
     tx := tx g |}.
Definition with_tx (w : W) (g : ReadinessFlag) : ReadinessFlag :=
  {| ready := ready g; next_id := next_id g; tokens := tokens g; token_lock := token_lock g;
     tx := w |}.

(** ** Program points *)

(** Who runs [is_ready]: a client, or [wait_ready] as its first action. *)
Inductive caller := Direct | InWait.

Inductive answer :=
| IsReady (b : bool)
| Subscribed (r : result ReadinessError Token)
| Marked (r : result ReadinessError bool)
| Waited.

Inductive pc :=
| Returned (a : option answer)         (** between calls; the last answer *)
(* is_ready *)
| IsReadyLoad (k : caller)
| IsReadyTryLock (k : caller)
| IsReadyCheck (k : caller)            (** holds the lock *)
| IsReadySwap (k : caller)             (** holds the lock, the set is empty *)
| IsReadyDrop (k : caller) (was : bool)
| IsReadySend (k : caller)
| IsReadyReload (k : caller)
(* subscribe *)
| SubLoad
| SubLock
| SubRecheck                           (** holds the lock *)
| SubAlloc                             (** holds the lock *)
| SubUnlock (r : option Token)         (** holds the lock *)
(* mark_ready *)
| MarkLoad (t : Token)
| MarkLock (t : Token)
| MarkRemove (t : Token)               (** holds the lock *)
| MarkStore                            (** holds the lock *)
| MarkClear                            (** holds the lock *)
| MarkUnlock (marked : bool)           (** holds the lock *)
| MarkSend
(* wait_ready, once [is_ready] answered false *)
| WaitSubscribe
| WaitBorrow (seen : N)
| WaitChanged (seen : N)
| WaitReborrow (seen : N).

Inductive request := CallIsReady | CallSubscribe | CallMark (t : Token) | CallWait.

Definition entry (c : request) : pc :=
  match c with
  | CallIsReady => IsReadyLoad Direct
  | CallSubscribe => SubLoad
  | CallMark t => MarkLoad t
  | CallWait => IsReadyLoad InWait
  end.

(** Where [is_ready] goes with its answer. *)
Definition is_ready_ret (k : caller) (b : bool) : pc :=
  match k, b with
  | Direct, _ => Returned (Some (IsReady b))
  | InWait, true => Returned (Some Waited)
  | InWait, false => WaitSubscribe
  end.

(** ** Steps *)

Definition lock_free (g : ReadinessFlag) : bool :=
  match token_lock g with None => true | Some _ => false end.

(** One access of thread [me].  [timeout] is the scheduler's choice to let the
    one second of [with_tokens] elapse.  [None]: the thread is blocked. *)
Definition step_pc (timeout : bool) (me : nat) (p : pc) (g : ReadinessFlag)
    : option (ReadinessFlag * pc) :=
  match p with
  | Returned _ => None
  | IsReadyLoad k =>
      Some (g, if ready g then is_ready_ret k true else IsReadyTryLock k)
  | IsReadyTryLock k =>
      if lock_free g then Some (with_lock (Some me) g, IsReadyCheck k)
      else Some (g, IsReadyReload k)
  | IsReadyCheck k =>
      if bool_decide (tokens g = ∅) then Some (g, IsReadySwap k)
      else Some (with_lock None g, IsReadyReload k)
  | IsReadySwap k => Some (with_ready true g, IsReadyDrop k (ready g))
  | IsReadyDrop k was =>
      Some (with_lock None g, if was then is_ready_ret k true else IsReadySend k)
  | IsReadySend k => Some (with_tx (send true (tx g)) g, is_ready_ret k true)
  | IsReadyReload k => Some (g, is_ready_ret k (ready g))
  | SubLoad =>
      Some (g, if ready g then Returned (Some (Subscribed (Err FlagAlreadyReady))) else SubLock)
  | SubLock =>
      if timeout then Some (g, Returned (Some (Subscribed (Err TokenLockFailed))))
      else if lock_free g then Some (with_lock (Some me) g, SubRecheck) else None
  | SubRecheck => Some (g, if ready g then SubUnlock None else SubAlloc)
  | SubAlloc =>
      '(t, n) ← alloc_token (size (tokens g) + 2) (next_id g) (tokens g);
      Some (with_next n (with_set ({[t]} ∪ tokens g) g), SubUnlock (Some t))
  | SubUnlock r =>
      Some (with_lock None g, Returned (Some (Subscribed (ok_or r FlagAlreadyReady))))
  | MarkLoad t =>
      Some (g, if ready g then Returned (Some (Marked (Ok false)))
               else if bool_decide (t = 0%Z) then Returned (Some (Marked (Ok false)))
               else MarkLock t)
  | MarkLock t =>
      if timeout then Some (g, Returned (Some (Marked (Err TokenLockFailed))))
      else if lock_free g then Some (with_lock (Some me) g, MarkRemove t) else None
  | MarkRemove t =>
      if bool_decide (t ∈ tokens g) then Some (with_set (tokens g ∖ {[t]}) g, MarkStore)
      else Some (g, MarkUnlock false)
  | MarkStore => Some (with_ready true g, MarkClear)
  | MarkClear => Some (with_set ∅ g, MarkUnlock true)
  | MarkUnlock marked =>
      Some (with_lock None g,
            if marked then MarkSend else Returned (Some (Marked (Ok false))))
  | MarkSend => Some (with_tx (send true (tx g)) g, Returned (Some (Marked (Ok true))))
  | WaitSubscribe =>
      let w := subscribe_rx (tx g) in Some (with_tx w g, WaitBorrow (version w))
  | WaitBorrow seen =>
      if (value (tx g) : bool) then Some (with_tx (drop_rx (tx g)) g, Returned (Some Waited))
      else Some (g, WaitChanged seen)
  | WaitChanged seen =>
      if (version (tx g) =? seen)%N then None
      else Some (g, WaitReborrow (version (tx g)))
  | WaitReborrow seen =>
      if (value (tx g) : bool) then Some (with_tx (drop_rx (tx g)) g, Returned (Some Waited))
      else Some (g, WaitChanged seen)
  end.

Record system := { flag : ReadinessFlag; threads : gmap nat pc }.

Definition initial : system := {| flag := new; threads := ∅ |}.

(** A thread enters a call when it is not inside one; otherwise it performs its
    next access. *)
Inductive step (s : system) : system → Prop :=
| step_call t c :
    (∀ p, threads s !! t = Some p → ∃ a, p = Returned a) →
    step s {| flag := flag s; threads := <[t := entry c]> (threads s) |}
| step_access timeout t p g' p' :
    threads s !! t = Some p →
    step_pc timeout t p (flag s) = Some (g', p') →
    step s {| flag := g'; threads := <[t := p']> (threads s) |}.

Definition reachable : system → Prop := rtc step initial.
End Flag.
Arguments ReadinessFlag W : clear implicits.
Arguments system W : clear implicits.

(** ** The invariant *)

Definition holds (p : pc) : bool :=
  match p with
  | IsReadyCheck _ | IsReadySwap _ | IsReadyDrop _ _ | SubRecheck | SubAlloc | SubUnlock _
  | MarkRemove _ | MarkStore | MarkClear | MarkUnlock _ => true
  | _ => false
  end.

(** The thread set the flag and has not broadcast it yet. *)
Definition pending (p : pc) : bool :=
  match p with
  | MarkClear | MarkUnlock true | MarkSend | IsReadyDrop _ false | IsReadySend _ => true
  | _ => false
  end.

Definition has_rx (p : pc) : bool :=
  match p with WaitBorrow _ | WaitChanged _ | WaitReborrow _ => true | _ => false end.

(** Replacing one entry of a map changes how many entries pass a test by at most
    that entry. *)
Lemma size_filter_insert {A} (f : A → bool) (m : gmap nat A) (t : nat) (b : A) :
  size (filter (λ tp, f tp.2 = true) (<[t := b]> m))
    + (if default false (f <$> m !! t) then 1 else 0)
  = size (filter (λ tp, f tp.2 = true) m) + (if f b then 1 else 0).
Proof.
  assert (Hdel : ∀ a, m !! t = Some a →
    size (filter (λ tp, f tp.2 = true) m)
    = size (filter (λ tp, f tp.2 = true) (delete t m)) + (if f a then 1 else 0)).
  { intros a Ha. rewrite <-(insert_delete_id m t a Ha) at 1. destruct (f a) eqn:Hfa.
    - rewrite map_filter_insert_True by done. rewrite map_size_insert_None; [lia|].
      apply map_lookup_filter_None_2. left. by rewrite lookup_delete_eq.
    - rewrite map_filter_insert_False by (simpl; congruence).
      rewrite delete_delete_eq. lia. }
  rewrite <-insert_delete_eq. destruct (f b) eqn:Hfb.
  - rewrite map_filter_insert_True by done.
    rewrite map_size_insert_None
      by (apply map_lookup_filter_None_2; left; by rewrite lookup_delete_eq).
    destruct (m !! t) as [a|] eqn:Ha; simpl; [rewrite (Hdel a eq_refl); lia|].
    rewrite delete_id by done. lia.
  - rewrite map_filter_insert_False by (simpl; congruence). rewrite delete_delete_eq.
    destruct (m !! t) as [a|] eqn:Ha; simpl; [rewrite (Hdel a eq_refl); lia|].
    rewrite delete_id by done. lia.
Qed.

Section Invariant.
Context {W : Type} `{!WatchChannel bool W, !WatchLaws bool W}.
Implicit Types (g : ReadinessFlag W) (s : system W) (p : pc) (t u : nat).

(** What a program point knows of the shared fields. *)
Definition knows (g : ReadinessFlag W) (p : pc) : Prop :=
  match p with
  | IsReadySwap _ => tokens g = ∅
  | SubAlloc | MarkStore => ready g = false
  | WaitBorrow seen => value (tx g) = false → seen = version (tx g)
  | WaitChanged seen =>
      if (value (tx g) : bool) then (seen < version (tx g))%N else seen = version (tx g)
  | WaitReborrow _ => value (tx g) = true
  | _ => True
  end.

Definition thread_ok (g : ReadinessFlag W) (t : nat) (p : pc) : Prop :=
  (holds p = true ↔ token_lock g = Some t) ∧
  (pending p = true → ready g = true ∧ value (tx g) = false) ∧
  knows g p.

Record inv (s : system W) : Prop := {
  inv_threads t p : threads s !! t = Some p → thread_ok (flag s) t p;
  inv_lock t : token_lock (flag s) = Some t → ∃ p, threads s !! t = Some p;
  inv_pending t u p q : threads s !! t = Some p → threads s !! u = Some q →
    pending p = true → pending q = true → t = u;
  inv_value : value (tx (flag s)) = true → ready (flag s) = true;
  inv_cleared : ready (flag s) = true →
    tokens (flag s) = ∅ ∨ ∃ t, threads s !! t = Some MarkClear;
  inv_receivers :
    receiver_count (tx (flag s)) = size (filter (λ tp, has_rx tp.2 = true) (threads s));
}.

(** What a step of thread [t] may change while the others look on. *)
Definition guarantee (t : nat) (p : pc) (g g' : ReadinessFlag W) : Prop :=
  (token_lock g' = token_lock g ∨ (token_lock g = None ∧ token_lock g' = Some t)
    ∨ (token_lock g = Some t ∧ token_lock g' = None)) ∧
  (ready g' = ready g ∨ (token_lock g = Some t ∧ ready g' = true)) ∧
  (tokens g' = tokens g ∨ token_lock g = Some t) ∧
  ((value (tx g') = value (tx g) ∧ version (tx g') = version (tx g)) ∨
   (pending p = true ∧ value (tx g) = false ∧ value (tx g') = true ∧
    version (tx g') = (version (tx g) + 1)%N)).

Lemma thread_ok_stable t p g g' u q :
  guarantee t p g g' → t ≠ u → (pending p = true → pending q = true → t = u) →
  thread_ok g u q → thread_ok g' u q.
Proof.
  intros (Hlock & Hready & Htok & Hval) Htu Hpend (Hh & Hp & Hk).
  split; [destruct Hlock as [->|[[Hl ->]|[Hl ->]]]; [done|rewrite Hh; naive_solver..]|].
  split.
  - intros Hq. destruct (Hp Hq) as [Hr Hv]. split; [naive_solver|].
    destruct Hval as [[-> _]|(Hpp & _)]; [done|]. by destruct Htu; apply Hpend.
  - assert (Hother : holds q = true → token_lock g ≠ Some t) by (rewrite Hh; congruence).
    destruct q; simpl in *; try done.
    + destruct Htok as [->|?]; [done|]. by destruct Hother.
    + destruct Hready as [->|[? _]]; [done|]. by destruct Hother.
    + destruct Hready as [->|[? _]]; [done|]. by destruct Hother.
    + destruct Hval as [[-> ->]|(_ & _ & -> & _)]; done.
    + destruct Hval as [[-> ->]|(_ & Hv & -> & ->)]; [done|]. rewrite Hv in Hk. lia.
    + destruct Hval as [[-> _]|(_ & _ & -> & _)]; done.
Qed.

(** Sending either reaches no one or flips the value for the receivers. *)
Lemma send_cases (w : W) :
  value w = false →
  (value (send true w) = value w ∧ version (send true w) = version w ∧ receiver_count w = 0) ∨
  (value (send true w) = true ∧ version (send true w) = (version w + 1)%N
     ∧ receiver_count w ≠ 0).
Proof.
  intros Hv. destruct (decide (receiver_count w = 0)) as [H0|H0].
  - left. by rewrite send_closed.
  - right. destruct (send_open true w H0) as (-> & -> & _). done.
Qed.

Lemma send_receivers (w : W) : receiver_count (send true w) = receiver_count w.
Proof.
  destruct (decide (receiver_count w = 0)) as [H0|H0]; [by rewrite send_closed|].
  apply (send_open true w H0).
Qed.

Lemma lock_free_true g : lock_free g = true → token_lock g = None.
Proof. unfold lock_free. by case_match. Qed.

Lemma holder_unique s t u p q :
  inv s → threads s !! t = Some p → threads s !! u = Some q →
  holds p = true → holds q = true → t = u.
Proof.
  intros Hs Ht Hu Hp Hq.
  apply (inv_threads _ Hs) in Ht as (Ht & _). apply (inv_threads _ Hs) in Hu as (Hu & _).
  apply Ht in Hp. apply Hu in Hq. congruence.
Qed.

(** Under the lock, and not itself clearing, a thread sees a set flag only with
    an empty token set. *)
Lemma holder_sees_cleared s t p :
  inv s → threads s !! t = Some p → holds p = true → p ≠ MarkClear →
  ready (flag s) = true → tokens (flag s) = ∅.
Proof.
  intros Hs Ht Hp Hne Hr. destruct (inv_cleared _ Hs Hr) as [?|[u Hu]]; [done|].
  assert (t = u) as -> by by eapply holder_unique. congruence.
Qed.

(** The accesses, one by one, as the other threads see them. *)
Section Accesses.
Context (t : nat) (p : pc) (g : ReadinessFlag W).

Lemma guarantee_refl : guarantee t p g g.
Proof. unfold guarantee. auto 10. Qed.
Lemma guarantee_acquire : token_lock g = None → guarantee t p g (with_lock (Some t) g).
Proof. unfold guarantee; simpl. auto 10. Qed.
Lemma guarantee_release : token_lock g = Some t → guarantee t p g (with_lock None g).
Proof. unfold guarantee; simpl. auto 10. Qed.
Lemma guarantee_ready : token_lock g = Some t → guarantee t p g (with_ready true g).
Proof. unfold guarantee; simpl. auto 10. Qed.
Lemma guarantee_set x : token_lock g = Some t → guarantee t p g (with_set x g).
Proof. unfold guarantee; simpl. auto 10. Qed.
Lemma guarantee_alloc n x :
  token_lock g = Some t → guarantee t p g (with_next n (with_set x g)).
Proof. unfold guarantee; simpl. auto 10. Qed.
Lemma guarantee_send :
  pending p = true → value (tx g) = false → guarantee t p g (with_tx (send true (tx g)) g).
Proof. unfold guarantee; simpl. intros Hp Hv. destruct (send_cases _ Hv); naive_solver. Qed.
Lemma guarantee_subscribe : guarantee t p g (with_tx (subscribe_rx (tx g)) g).
Proof. pose proof (subscribe_keeps (tx g)). unfold guarantee; simpl. naive_solver. Qed.
Lemma guarantee_drop : guarantee t p g (with_tx (drop_rx (tx g)) g).
Proof. pose proof (drop_keeps (tx g)). unfold guarantee; simpl. naive_solver. Qed.
End Accesses.

#[local] Hint Resolve guarantee_refl guarantee_acquire guarantee_release guarantee_ready
  guarantee_set guarantee_alloc guarantee_send guarantee_subscribe guarantee_drop : codex.

(** Case analysis of a step: the branches of [step_pc] with their guards. *)
Local Ltac step_cases Hstep :=
  simpl in *; simplify_eq/=; repeat (case_match; simplify_eq/=);
  repeat match goal with
  | H : mbind _ ?o = Some _ |- _ => destruct o as [[]|]; simplify_eq/=
  | H : lock_free _ = true |- _ => apply lock_free_true in H
  | H : true = true ↔ _ |- _ => pose proof (proj1 H eq_refl); clear H
  | H : true = true → _ |- _ => specialize (H eq_refl)
  | H : _ ∧ _ |- _ => destruct H
  | H : bool_decide _ = true |- _ => apply bool_decide_eq_true in H
  | H : bool_decide _ = false |- _ => apply bool_decide_eq_false in H
  end.

Lemma step_pc_guarantee tm t p g g' p' :
  thread_ok g t p → step_pc tm t p g = Some (g', p') → guarantee t p g g'.
Proof.
  intros (Hh & Hp & Hk) Hstep. destruct p; step_cases Hstep; auto with codex.
Qed.

(** The point a thread reaches knows what it should. *)
Lemma step_pc_knows tm s t p g' p' :
  inv s → threads s !! t = Some p → step_pc tm t p (flag s) = Some (g', p') → knows g' p'.
Proof.
  intros Hs Ht Hstep. pose proof (inv_threads _ Hs _ _ Ht) as (Hh & Hp & Hk).
  assert (Hc : holds p = true → p ≠ MarkClear → ready (flag s) = true → tokens (flag s) = ∅)
    by (intros; by eapply holder_sees_cleared).
  destruct p; try destruct k; step_cases Hstep; try done.
  - apply not_true_is_false. intros Hr. rewrite Hc in H by done. set_solver.
  - auto.
  - destruct (value (tx (flag s))) eqn:?; [done|]. by subst; rewrite N.eqb_refl in *.
Qed.

Lemma step_pc_thread_ok tm s t p g' p' :
  inv s → threads s !! t = Some p → step_pc tm t p (flag s) = Some (g', p') →
  thread_ok g' t p'.
Proof.
  intros Hs Ht Hstep. pose proof (step_pc_knows _ _ _ _ _ _ Hs Ht Hstep) as Hk'.
  pose proof (inv_threads _ Hs _ _ Ht) as (Hh & Hp & Hk).
  assert (Hv : ready (flag s) = false → value (tx (flag s)) = false).
  { intros Hr. apply not_true_is_false. intros Hv%(inv_value _ Hs). congruence. }
  split; [|split; [|done]]; clear Hk' Hs Ht;
    destruct p; try destruct k; step_cases Hstep; try done;
    first [split; congruence | intros; split; auto].
Qed.

(** A thread only becomes a broadcaster by setting an unset flag. *)
Lemma step_pc_pending tm g t p g' p' :
  thread_ok g t p → step_pc tm t p g = Some (g', p') →
  pending p' = true → pending p = true ∨ ready g = false.
Proof.
  intros (Hh & Hp & Hk) Hstep. destruct p; try destruct k; step_cases Hstep; auto.
Qed.

Lemma step_pc_cleared tm s t p g' p' :
  inv s → threads s !! t = Some p → step_pc tm t p (flag s) = Some (g', p') →
  ready g' = true → tokens g' = ∅ ∨ p' = MarkClear ∨ ∃ u, u ≠ t ∧ threads s !! u = Some MarkClear.
Proof.
  intros Hs Ht Hstep Hr. pose proof (inv_threads _ Hs _ _ Ht) as (Hh & Hp & Hk).
  assert (Hc : p ≠ MarkClear → ready (flag s) = true →
    tokens (flag s) = ∅ ∨ ∃ u, u ≠ t ∧ threads s !! u = Some MarkClear).
  { intros Hne Hr0. destruct (inv_cleared _ Hs Hr0) as [?|[u Hu]]; [auto|right].
    exists u. split; [congruence|done]. }
  destruct p; try destruct k; step_cases Hstep; auto; try congruence;
    destruct Hc as [Hc|?]; try done; auto. left. rewrite Hc. set_solver.
Qed.

Lemma step_pc_receivers tm g t p g' p' :
  (has_rx p = true → receiver_count (tx g) ≠ 0) → step_pc tm t p g = Some (g', p') →
  receiver_count (tx g') + (if has_rx p then 1 else 0)
  = receiver_count (tx g) + (if has_rx p' then 1 else 0).
Proof.
  intros Hrx Hstep. destruct p; try destruct k; step_cases Hstep;
    rewrite ?send_receivers, ?subscribe_count, ?drop_count; lia.
Qed.

Lemma inv_initial : inv (initial (W := W)).
Proof.
  split; simpl; try done.
  - by rewrite (proj1 (drop_keeps _)), channel_value.
  - by rewrite drop_count, channel_receivers.
Qed.

Lemma inv_access tm s t p g' p' :
  inv s → threads s !! t = Some p → step_pc tm t p (flag s) = Some (g', p') →
  inv {| flag := g'; threads := <[t := p']> (threads s) |}.
Proof.
  intros Hs Ht Hstep. pose proof (inv_threads _ Hs _ _ Ht) as Hok.
  pose proof (step_pc_guarantee _ _ _ _ _ _ Hok Hstep) as Hg.
  assert (Hothers : ∀ u q, u ≠ t → threads s !! u = Some q → pending q = true → ready g' = true).
  { intros u q Hut Hu Hq. destruct (inv_threads _ Hs _ _ Hu) as (_ & Hp & _).
    destruct (Hp Hq), Hg as (_ & [->|[_ ->]] & _); done. }
  assert (Hnew : ∀ u q, u ≠ t → threads s !! u = Some q → pending p' = true → pending q = false).
  { intros u q Hut Hu Hp'. apply not_true_is_false. intros Hq. destruct Hut.
    destruct (step_pc_pending _ _ _ _ _ _ Hok Hstep Hp') as [Hp|Hr].
    - by eapply (inv_pending _ Hs).
    - destruct (inv_threads _ Hs _ _ Hu) as (_ & Hu' & _).
      destruct (Hu' Hq). congruence. }
  split; simpl.
  - intros u q [[<- <-]|[Hne Hu]]%lookup_insert_Some; [by eapply step_pc_thread_ok|].
    eapply thread_ok_stable; [done|done| |by apply (inv_threads _ Hs)].
    intros. by eapply (inv_pending _ Hs).
  - intros u Hu. destruct (decide (u = t)) as [->|?]; [rewrite lookup_insert_eq; eauto|].
    rewrite lookup_insert_ne by done. apply (inv_lock _ Hs).
    destruct Hg as ([?|[?|?]] & _); naive_solver congruence.
  - intros u v q r [[<- <-]|[Hne Hu]]%lookup_insert_Some [[<- <-]|[Hne' Hv]]%lookup_insert_Some
      Hq Hr; try done.
    + by rewrite (Hnew v r) in Hr.
    + by rewrite (Hnew u q) in Hq.
    + by eapply (inv_pending _ Hs).
  - intros Hv. destruct Hg as (_ & Hr & _ & Hval), Hok as (_ & Hp & _).
    pose proof (inv_value _ Hs). naive_solver.
  - intros Hr. destruct (step_pc_cleared _ _ _ _ _ _ Hs Ht Hstep Hr) as [?|[->|(u & Hu & ?)]];
      [by left|right; exists t; by rewrite lookup_insert_eq|].
    right. exists u. by rewrite lookup_insert_ne.
  - pose proof (size_filter_insert has_rx (threads s) t p') as Hsz.
    pose proof (size_filter_insert has_rx (threads s) t p) as Hsz0.
    rewrite insert_id, Ht in Hsz0 by done. rewrite Ht in Hsz; simpl in *.
    pose proof (inv_receivers _ Hs) as Hrc.
    assert (Hrx : has_rx p = true → receiver_count (tx (flag s)) ≠ 0).
    { intros Hp H0. rewrite H0 in Hrc. symmetry in Hrc. apply map_size_empty_inv in Hrc.
      by eapply (map_filter_empty_not_lookup _ _ t p Hrc). }
    pose proof (step_pc_receivers _ _ _ _ _ _ Hrx Hstep). lia.
Qed.

Lemma inv_call s t c :
  inv s → (∀ p, threads s !! t = Some p → ∃ a, p = Returned a) →
  inv {| flag := flag s; threads := <[t := entry c]> (threads s) |}.
Proof.
  intros Hs Ht.
  assert (Hnl : token_lock (flag s) ≠ Some t).
  { intros Hl. destruct (inv_lock _ Hs _ Hl) as [p Hp].
    destruct (inv_threads _ Hs _ _ Hp) as ((_ & Hh) & _).
    destruct (Ht p Hp) as [a ->]. by specialize (Hh Hl). }
  assert (He : holds (entry c) = false ∧ pending (entry c) = false ∧ has_rx (entry c) = false
               ∧ knows (flag s) (entry c)) by (by destruct c).
  destruct He as (Hh & Hp & Hx & Hk). split; simpl.
  - intros u q [[<- <-]|[Hne Hu]]%lookup_insert_Some; [|by apply (inv_threads _ Hs)].
    split; [rewrite Hh; split; congruence|]. by rewrite Hp.
  - intros u Hu. rewrite lookup_insert_ne by congruence. by apply (inv_lock _ Hs).
  - intros u v q r [[<- <-]|[Hne Hu]]%lookup_insert_Some [[<- <-]|[Hne' Hv]]%lookup_insert_Some
      Hq Hr; try congruence. by eapply (inv_pending _ Hs).
  - apply (inv_value _ Hs).
  - intros Hr. destruct (inv_cleared _ Hs Hr) as [?|[u Hu]]; [by left|right; exists u].
    rewrite lookup_insert_ne; [done|]. intros <-. by destruct (Ht _ Hu).
  - pose proof (size_filter_insert has_rx (threads s) t (entry c)) as Hsz.
    rewrite Hx in Hsz. rewrite (inv_receivers _ Hs).
    destruct (threads s !! t) as [p|] eqn:Hpt; simpl in *; [|lia].
    destruct (Ht p eq_refl) as [a ->]. simpl in *. lia.
Qed.

Lemma inv_step s s' : inv s → step s s' → inv s'.
Proof. intros Hs [t c Ht|tm t p g' p' Ht Hstep]; [by apply inv_call|by eapply inv_access]. Qed.

Lemma inv_reachable s : reachable s → inv s.
Proof.
  intros H. assert (Hi := inv_initial). unfold reachable in H.
  induction H as [|s1 s2 s3 Hst _ IH]; [done|]. by eapply IH, inv_step.
Qed.

(** A registered waiter whose value has arrived finishes on its own. *)
Fixpoint run_alone (n : nat) (t : nat) (p : pc) (g : ReadinessFlag W)
    : option (ReadinessFlag W * pc) :=
  match n with
  | O => Some (g, p)
  | S n => '(g', p') ← step_pc false t p g; run_alone n t p' g'
  end.

Definition is_send (p : pc) : Prop := p = MarkSend ∨ ∃ k, p = IsReadySend k.

Lemma is_send_pending p : is_send p → pending p = true.
Proof. by intros [->|[k ->]]. Qed.

Lemma send_step tm t p g : is_send p →
  ∃ p', step_pc tm t p g = Some (with_tx (send true (tx g)) g, p').
Proof. intros [->|[k ->]]; simpl; eauto. Qed.

Lemma waiter_finishes s t p :
  inv s → threads s !! t = Some p → has_rx p = true → value (tx (flag s)) = true →
  ∃ n g', n ≤ 2 ∧ run_alone n t p (flag s) = Some (g', Returned (Some Waited)).
Proof.
  intros Hs Ht Hrx Hv. pose proof (inv_threads _ Hs _ _ Ht) as (_ & _ & Hk).
  destruct p; try done; simpl in Hk.
  - exists 1. simpl. rewrite Hv. eauto.
  - exists 2. simpl. rewrite Hv in *.
    destruct (N.eqb_spec (version (tx (flag s))) seen); [lia|]. simpl. rewrite Hv. simpl. eauto.
  - exists 1. simpl. rewrite Hv. eauto.
Qed.

Lemma value_stable s s' :
  inv s → step s s' → value (tx (flag s)) = true → value (tx (flag s')) = true.
Proof.
  intros Hs [t c _|tm t p g' p' Ht Hstep] Hv; [done|]. simpl.
  destruct (step_pc_guarantee _ _ _ _ _ _ (inv_threads _ Hs _ _ Ht) Hstep) as (_ & _ & _ & Hval).
  destruct Hval as [[-> _]|(_ & _ & -> & _)]; done.
Qed.

Lemma value_stable_rtc s s' :
  inv s → rtc step s s' → value (tx (flag s)) = true → inv s' ∧ value (tx (flag s')) = true.
Proof.
  intros Hs Hrtc. induction Hrtc as [|s1 s2 s3 Hst _ IH]; [done|].
  intros Hv. apply IH; [by eapply inv_step|by eapply value_stable].
Qed.

(** The flag is set and its broadcast is over. *)
Definition settled (s : system W) : Prop :=
  inv s ∧ ready (flag s) = true ∧ ∀ u q, threads s !! u = Some q → pending q = false.

Lemma settled_step s s' :
  settled s → step s s' → settled s' ∧ value (tx (flag s')) = value (tx (flag s)).
Proof.
  intros (Hs & Hr & Hp) Hst. unfold settled.
  pose proof (inv_step _ _ Hs Hst) as Hs'. destruct Hst as [u c Hu|tm u p g' p' Hu Hstep]; simpl in *.
  - split; [|done]. do 2 (split; [done|]).
    intros u' q [[<- <-]|[_ ?]]%lookup_insert_Some; [by destruct c|eauto].
  - pose proof (inv_threads _ Hs _ _ Hu) as Hok.
    destruct (step_pc_guarantee _ _ _ _ _ _ Hok Hstep) as (_ & Hr' & _ & Hval).
    split; [split; [done|split; [naive_solver|]]|].
    + intros u' q [[<- <-]|[_ ?]]%lookup_insert_Some; [|eauto].
      apply not_true_is_false. intros Hq.
      destruct (step_pc_pending _ _ _ _ _ _ Hok Hstep Hq) as [Hpp|?]; [|congruence].
      by rewrite (Hp _ _ Hu) in Hpp.
    + destruct Hval as [[-> _]|(Hpp & _)]; [done|]. by rewrite (Hp _ _ Hu) in Hpp.
Qed.

(** The state of a waiter that missed the broadcast: nothing is left to send and
    the channel still holds false. *)
Definition missed (t : nat) (v : N) (s : system W) : Prop :=
  settled s ∧ value (tx (flag s)) = false ∧ threads s !! t = Some (WaitChanged v).

Lemma missed_step t v s s' : missed t v s → step s s' → missed t v s'.
Proof.
  intros (Hset & Hv & Ht) Hst. destruct (settled_step _ _ Hset Hst) as [Hset' Hv'].
  split; [done|]. split; [congruence|]. destruct Hset as (Hs & _).
  destruct Hst as [u c Hu|tm u p g' p' Hu Hstep]; simpl.
  - rewrite lookup_insert_ne; [done|]. intros <-. by destruct (Hu _ Ht).
  - destruct (decide (u = t)) as [->|Hne]; [|by rewrite lookup_insert_ne].
    destruct (inv_threads _ Hs _ _ Ht) as (_ & _ & Hk). rewrite Ht in Hu. simplify_eq/=.
    by rewrite Hv in Hk; subst; rewrite N.eqb_refl in Hstep.
Qed.

Lemma missed_forever t v s s' : missed t v s → rtc step s s' → missed t v s'.
Proof. intros Hm H. induction H; [done|]. eauto using missed_step. Qed.

(** ** Schedules *)

Inductive choice := Call (c : request) | Run (timeout : bool).

Definition exec_choice (s : system W) (tc : nat * choice) : option (system W) :=
  match tc.2 with
  | Call c =>
      match threads s !! tc.1 with
      | None | Some (Returned _) =>
          Some {| flag := flag s; threads := <[tc.1 := entry c]> (threads s) |}
      | Some _ => None
      end
  | Run timeout =>
      p ← threads s !! tc.1;
      '(g', p') ← step_pc timeout tc.1 p (flag s);
      Some {| flag := g'; threads := <[tc.1 := p']> (threads s) |}
  end.

Fixpoint run_schedule (cs : list (nat * choice)) (s : system W) : option (system W) :=
  match cs with
  | [] => Some s
  | c :: cs => s' ← exec_choice s c; run_schedule cs s'
  end.

Lemma exec_choice_step s c s' : exec_choice s c = Some s' → step s s'.
Proof.
  destruct c as [t [c|tm]]; unfold exec_choice; simpl; intros H.
  - destruct (threads s !! t) as [[]|] eqn:Ht; simplify_eq/=; apply step_call; naive_solver.
  - destruct (threads s !! t) as [p|] eqn:Ht; simplify_eq/=.
    destruct (step_pc tm t p (flag s)) as [[g' p']|] eqn:Hp; simplify_eq/=.
    by eapply step_access.
Qed.

Lemma run_schedule_rtc cs s s' : run_schedule cs s = Some s' → rtc step s s'.
Proof.
  revert s. induction cs as [|c cs IH]; intros s H; simplify_eq/=; [done|].
  destruct (exec_choice s c) as [s1|] eqn:Hc; simplify_eq/=.
  eapply rtc_l; [by eapply exec_choice_step|auto].
Qed.

(** Thread 1 takes a token; the waiter 0 finds the flag unset; thread 1 marks it
    and broadcasts to no receiver; then the waiter registers its receiver. *)
Definition lost_schedule : list (nat * choice) :=
  [(1, Call CallSubscribe)] ++ replicate 5 (1, Run false) ++
  [(0, Call CallWait)] ++ replicate 4 (0, Run false) ++
  [(1, Call (CallMark 1))] ++ replicate 7 (1, Run false) ++
  [(0, Run false)].

Definition lost_channel : W := subscribe_rx (send true (drop_rx (channel false))).

Definition lost_state : system W :=
  {| flag := {| ready := true; next_id := 2; tokens := ∅; token_lock := None;
                tx := lost_channel |};
     threads := <[0 := WaitBorrow (version lost_channel)]>
                  {[1 := Returned (Some (Marked (Ok true)))]} |}.

Lemma lost_schedule_runs : run_schedule lost_schedule initial = Some lost_state.
Proof. vm_compute. reflexivity. Qed.

Lemma lost_channel_value : value lost_channel = false.
Proof.
  unfold lost_channel. rewrite (proj1 (subscribe_keeps _)), send_closed.
  - by rewrite (proj1 (drop_keeps _)), channel_value.
  - by rewrite drop_count, channel_receivers.
Qed.

(** How often a schedule broadcasts. *)
Definition sends_now (s : system W) (tc : nat * choice) : bool :=
  match tc.2, threads s !! tc.1 with
  | Run _, Some MarkSend | Run _, Some (IsReadySend _) => true
  | _, _ => false
  end.

Fixpoint broadcasts (cs : list (nat * choice)) (s : system W) : nat :=
  match cs with
  | [] => 0
  | c :: cs =>
      (if sends_now s c then 1 else 0) +
      match exec_choice s c with Some s' => broadcasts cs s' | None => 0 end
  end.

Lemma sends_now_true s t c : sends_now s (t, c) = true →
  ∃ p tm, c = Run tm ∧ threads s !! t = Some p ∧ is_send p.
Proof.
  unfold sends_now, is_send. simpl. intros H. repeat (case_match; try done); subst; eauto 10.
Qed.

Lemma send_settles s t p g' p' tm :
  inv s → threads s !! t = Some p → is_send p → step_pc tm t p (flag s) = Some (g', p') →
  settled {| flag := g'; threads := <[t := p']> (threads s) |}.
Proof.
  intros Hs Ht Hsend Hstep. pose proof (is_send_pending p Hsend) as Hp.
  split; [by eapply inv_access|]. pose proof (inv_threads _ Hs _ _ Ht) as (_ & Hok & _).
  destruct (Hok Hp) as [Hr _]. simpl. split.
  - destruct Hsend as [->|[[] ->]]; simplify_eq/=; done.
  - intros u q [[<- <-]|[Hne Hu]]%lookup_insert_Some.
    + destruct Hsend as [->|[[] ->]]; simplify_eq/=; done.
    + apply not_true_is_false. intros Hq. destruct Hne. by eapply (inv_pending _ Hs).
Qed.

Lemma settled_silent cs s : settled s → broadcasts cs s = 0.
Proof.
  revert s. induction cs as [|[t c] cs IH]; intros s Hs; simpl; [done|].
  destruct (sends_now s (t, c)) eqn:Hn.
  { apply sends_now_true in Hn as (p & tm & -> & Ht & Hsend). destruct Hs as (_ & _ & Hp).
    apply is_send_pending in Hsend. by rewrite (Hp _ _ Ht) in Hsend. }
  destruct (exec_choice s (t, c)) eqn:Hc; simpl; [|done].
  eapply IH, settled_step; [done|by eapply exec_choice_step].
Qed.

Lemma broadcasts_le cs s : inv s → broadcasts cs s ≤ 1.
Proof.
  revert s. induction cs as [|[t c] cs IH]; intros s Hs; simpl; [lia|].
  destruct (sends_now s (t, c)) eqn:Hn.
  - apply sends_now_true in Hn as (p & tm & -> & Ht & Hsend). unfold exec_choice. simpl.
    rewrite Ht. simpl. destruct (step_pc tm t p (flag s)) as [[g' p']|] eqn:Hp; simpl; [|lia].
    rewrite settled_silent; [lia|]. by eapply send_settles.
  - destruct (exec_choice s (t, c)) eqn:Hc; simpl; [|lia].
    eapply IH, inv_step; [done|by eapply exec_choice_step].
Qed.

Lemma ready_stable s s' : inv s → step s s' → ready (flag s) = true → ready (flag s') = true.
Proof.
  intros Hs [t c _|tm t p g' p' Ht Hstep] Hr; [done|]. simpl.
  destruct (step_pc_guarantee _ _ _ _ _ _ (inv_threads _ Hs _ _ Ht) Hstep) as (_ & Hr' & _).
  naive_solver.
Qed.

(** The flag is one-way and announced once: whatever the threads do, a set
    flag stays set, and at most one broadcast happens in an execution. *)
Theorem readiness_set_once (cs : list (nat * choice)) :
  broadcasts cs initial ≤ 1 ∧
  ∀ s s', reachable s → step s s' → ready (flag s) = true → ready (flag s') = true.
Proof.
  split; [apply broadcasts_le, inv_initial|].
  intros s s' Hs. apply ready_stable, inv_reachable, Hs.
Qed.

(** No wake-up is lost for a registered waiter: once any thread broadcasts
    while thread [t] holds its receiver, then in every later state in which [t]
    is still inside [wait_ready], [t] returns after at most two accesses of its
    own, whatever the other threads did in between. *)
Theorem wait_ready_woken s s2 t q u p tm g' p' :
  reachable s →
  threads s !! t = Some q → has_rx q = true →
  threads s !! u = Some p → is_send p → step_pc tm u p (flag s) = Some (g', p') →
  rtc step {| flag := g'; threads := <[u := p']> (threads s) |} s2 →
  ∀ q2, threads s2 !! t = Some q2 → has_rx q2 = true →
  ∃ n g'', n ≤ 2 ∧ run_alone n t q2 (flag s2) = Some (g'', Returned (Some Waited)).
Proof.
  intros Hs%inv_reachable Ht Hq Hu Hsend Hstep Hrtc q2 Ht2 Hq2.
  assert (Hrx : receiver_count (tx (flag s)) ≠ 0).
  { rewrite (inv_receivers _ Hs). intros H%map_size_empty_inv.
    by eapply (map_filter_empty_not_lookup _ _ t q H). }
  assert (Hv : value (tx g') = true).
  { destruct (send_step tm u p (flag s) Hsend) as [p'' Heq]. rewrite Hstep in Heq.
    simplify_eq/=. apply (send_open true _ Hrx). }
  destruct (value_stable_rtc _ _ (inv_access _ _ _ _ _ _ Hs Hu Hstep) Hrtc Hv) as [Hs2 Hv2].
  by eapply waiter_finishes.
Qed.

(** The wake-up can be lost: there is an execution after which a marker has
    been told [Ok(true)] and the flag is set, but a waiter that found it unset
    just before and subscribed just after the broadcast is never woken, in any
    continuation. *)
Theorem wait_ready_lost_wakeup :
  ∃ s v, reachable s ∧ ready (flag s) = true ∧
    threads s !! 1 = Some (Returned (Some (Marked (Ok true)))) ∧
    ∀ s', rtc step s s' → threads s' !! 0 = Some (WaitChanged v).
Proof.
  pose proof (run_schedule_rtc _ _ _ lost_schedule_runs) as Hreach.
  set (v := version lost_channel).
  set (s1 := {| flag := flag lost_state; threads := <[0 := WaitChanged v]> (threads lost_state) |}).
  assert (Hst : step lost_state s1).
  { eapply (step_access _ false 0 (WaitBorrow v)); [done|]. simpl. by rewrite lost_channel_value. }
  assert (Hr1 : reachable s1) by (eapply rtc_r; [exact Hreach|exact Hst]).
  exists s1, v. do 3 (split; [done|]).
  intros s' Hs'. eapply (missed_forever 0 v s1 s'); [|done].
  split; [|split; [apply lost_channel_value|done]].
  split; [by apply inv_reachable|]. split; [done|].
  intros u r Hu. unfold s1, lost_state in Hu. simpl in Hu.
  repeat (apply lookup_insert_Some in Hu as [[<- <-]|[_ Hu]]; [done|]).
  by apply lookup_singleton_Some in Hu as [<- <-].
Qed.
End Invariant.

(** ** Token allocation *)

(** The ids the loop tries. *)
Definition nth_id (n : Z) (i : nat) : Z := wrap_i32 (n + Z.of_nat i).

Definition is_i32 (z : Z) : Prop := (- 2 ^ 31 <= z < 2 ^ 31)%Z.

Lemma wrap_i32_range z : is_i32 (wrap_i32 z).
Proof. unfold is_i32, wrap_i32. pose proof (Z.mod_pos_bound (z + 2 ^ 31) (2 ^ 32)). lia. Qed.

Lemma wrap_i32_id z : is_i32 z → wrap_i32 z = z.
Proof. unfold is_i32, wrap_i32. intros. rewrite Z.mod_small; lia. Qed.

Lemma wrap_i32_add z k : wrap_i32 (wrap_i32 z + k) = wrap_i32 (z + k).
Proof.
  unfold wrap_i32. f_equal.
  replace ((z + 2 ^ 31) mod 2 ^ 32 - 2 ^ 31 + k + 2 ^ 31)%Z
    with ((z + 2 ^ 31) mod 2 ^ 32 + k)%Z by lia.
  rewrite Zplus_mod_idemp_l. f_equal. lia.
Qed.

Lemma wrap_i32_inj a b : wrap_i32 a = wrap_i32 b → (Z.abs (a - b) < 2 ^ 32)%Z → a = b.
Proof.
  unfold wrap_i32. intros H Hab.
  pose proof (Z.div_mod (a + 2 ^ 31) (2 ^ 32) ltac:(lia)).
  pose proof (Z.div_mod (b + 2 ^ 31) (2 ^ 32) ltac:(lia)).
  assert ((a + 2 ^ 31) mod 2 ^ 32 = (b + 2 ^ 31) mod 2 ^ 32)%Z by lia. nia.
Qed.

Lemma nth_id_succ n i : nth_id (wrap_i32 (n + 1)) i = nth_id n (S i).
Proof. unfold nth_id. rewrite wrap_i32_add. f_equal. lia. Qed.

Lemma alloc_token_None fuel n T :
  is_i32 n → alloc_token fuel n T = None → ∀ i, i < fuel → nth_id n i ∈ ({[0%Z]} ∪ T).
Proof.
  revert n. induction fuel as [|fuel IH]; intros n Hn H i Hi; simpl in H; [lia|].
  case_match eqn:E; [done|]. destruct i as [|i].
  - unfold nth_id. rewrite Z.add_0_r, wrap_i32_id by done.
    apply andb_false_iff in E as [E|E]; apply bool_decide_eq_false, dec_stable in E; set_solver.
  - rewrite <-nth_id_succ. apply IH; [apply wrap_i32_range|done|lia].
Qed.

Lemma alloc_token_Some fuel n T tok n' :
  is_i32 n → alloc_token fuel n T = Some (tok, n') →
  tok ≠ 0%Z ∧ (tok ∉ T) ∧ is_i32 tok ∧ is_i32 n'.
Proof.
  revert n. induction fuel as [|fuel IH]; intros n Hn H; simpl in H; [done|].
  case_match eqn:E; simplify_eq.
  - apply andb_true_iff in E as [E1%bool_decide_eq_true E2%bool_decide_eq_true].
    auto using wrap_i32_range.
  - eapply IH; [apply wrap_i32_range|done].
Qed.

Lemma nth_id_NoDup n k : (Z.of_nat k <= 2 ^ 32)%Z → NoDup (nth_id n <$> seq 0 k).
Proof.
  intros Hk. apply NoDup_fmap_2_strong; [|apply NoDup_seq].
  intros i j Hi%elem_of_seq Hj%elem_of_seq H. unfold nth_id in H.
  apply wrap_i32_inj in H; lia.
Qed.

(** The token loop of [subscribe] terminates: while fewer than [2^32 - 1]
    tokens are out, it stops within [size tokens + 2] iterations (the wrap-around
    of the counter included) with an [i32] that is not 0 and not in use. *)
Theorem alloc_token_total (n : Z) (T : gset Z) :
  is_i32 n → (Z.of_nat (size T) + 2 <= 2 ^ 32)%Z →
  ∃ tok n', alloc_token (size T + 2) n T = Some (tok, n') ∧
    tok ≠ 0%Z ∧ (tok ∉ T) ∧ is_i32 tok ∧ is_i32 n'.
Proof.
  intros Hn Hsz. destruct (alloc_token (size T + 2) n T) as [[tok n']|] eqn:Ha.
  { exists tok, n'. split; [done|]. by eapply alloc_token_Some. }
  pose proof (alloc_token_None _ _ _ Hn Ha) as Hall.
  assert (Hsub : list_to_set (nth_id n <$> seq 0 (size T + 2)) ⊆ ({[0%Z]} ∪ T)).
  { intros x. rewrite elem_of_list_to_set, list_elem_of_fmap.
    intros (i & -> & Hi%elem_of_seq). apply Hall. lia. }
  apply subseteq_size in Hsub.
  rewrite size_list_to_set, length_fmap, length_seq in Hsub by (apply nth_id_NoDup; lia).
  pose proof (size_union_alt {[0%Z]} T) as Hu. rewrite size_singleton in Hu.
  assert (size (T ∖ {[0%Z]}) ≤ size T) by (apply subseteq_size; set_solver). lia.
Qed.

Lemma alloc_token_total_witness :
  is_i32 (2 ^ 31 - 1) ∧
  ∃ tok n', alloc_token (size ({[2 ^ 31 - 1; - 2 ^ 31]}%Z : gset Z) + 2) (2 ^ 31 - 1)
              {[2 ^ 31 - 1; - 2 ^ 31]}%Z = Some (tok, n') ∧ tok ≠ 0%Z.
Proof.
  split; [done|].
  destruct (alloc_token_total (2 ^ 31 - 1) {[2 ^ 31 - 1; - 2 ^ 31]}%Z)
    as (tok & n' & H & Hne & _); [done|vm_compute; done|].
  exists tok, n'. split; [exact H|exact Hne].
Defined.

Lemma readiness_set_once_witness :
  broadcasts (W := Chan bool) lost_schedule initial ≤ 1.
Proof. apply (readiness_set_once (W := Chan bool) lost_schedule). Defined.

Lemma wait_ready_lost_wakeup_witness :
  ∃ (s : system (Chan bool)) v, reachable s ∧ ready (flag s) = true ∧
    threads s !! 1 = Some (Returned (Some (Marked (Ok true)))) ∧
    ∀ s', rtc step s s' → threads s' !! 0 = Some (WaitChanged v).
Proof. exact (wait_ready_lost_wakeup (W := Chan bool)). Defined.

(** The waiter of thread 0 registers before thread 1 broadcasts. *)
Definition woken_schedule : list (nat * choice) :=
  [(1, Call CallSubscribe)] ++ replicate 5 (1, Run false) ++
  [(0, Call CallWait)] ++ replicate 6 (0, Run false) ++
  [(1, Call (CallMark 1))] ++ replicate 6 (1, Run false).

Definition woken_state : system (Chan bool) := default initial (run_schedule woken_schedule initial).

Lemma wait_ready_woken_witness :
  threads woken_state !! 0 = Some (WaitChanged 0) ∧
  ∃ n g'', n ≤ 2 ∧
    run_alone n 0 (WaitChanged 0) (with_tx (send true (tx (flag woken_state))) (flag woken_state))
    = Some (g'', Returned (Some Waited)).
Proof.
  split; [vm_compute; reflexivity|].
  assert (Hr : run_schedule woken_schedule initial = Some woken_state)
    by (vm_compute; reflexivity).
  eapply (wait_ready_woken woken_state
            {| flag := with_tx (send true (tx (flag woken_state))) (flag woken_state);
               threads := <[1 := Returned (Some (Marked (Ok true)))]> (threads woken_state) |}
            0 (WaitChanged 0) 1 MarkSend false).
  - exact (run_schedule_rtc _ _ _ Hr).
  - vm_compute; reflexivity.
  - reflexivity.
  - vm_compute; reflexivity.
  - left; reflexivity.
  - reflexivity.
  - apply rtc_refl.
  - vm_compute; reflexivity.
  - reflexivity.
Defined.
