(* ===== verification/AgentRegistry.v ===== *)
(** * Paths and slots of sub-agents

    [protocol/src/agent_path.rs]: the paths of agents, and
    [core/src/agent/registry.rs]: the registry of a session, which limits the number
    of sub-agents, gives out nicknames and keeps one agent per path.

    The counter is an atomic and the tables are behind a lock; the operations are
    split at these accesses, so that the tasks of a session can be interleaved.  A
    reservation that is dropped without being committed gives its slot back. *)

From S2P Require Import Prelude RustStr.

Local Open Scope rstr_scope.

(** ** Agent paths (agent_path.rs) *)

Definition ROOT : str := lit "/root".
Definition MORPHEUS : str := lit "/morpheus".
Definition ROOT_SEGMENT : str := lit "root".
Definition slash : char := 47%N.

Definition is_name_char (c : char) : bool :=
  in_range 97 122 c || is_ascii_digit c || N.eqb c (ch "_").

Definition validate_agent_name (agent_name : str) : result str unit :=
  if is_empty agent_name then Err (lit "agent_name must not be empty")
  else if agent_name == ROOT_SEGMENT then Err (lit "agent_name `root` is reserved")
  else if (agent_name == lit ".") || (agent_name == lit "..")
  then Err (lit "agent_name `" ++ agent_name ++ lit "` is reserved")
  else if contains_char slash agent_name then Err (lit "agent_name must not contain `/`")
  else if negb (all is_name_char agent_name)
  then Err (lit "agent_name must use only lowercase letters, digits, and underscores")
  else Ok ().

Fixpoint validate_names (segments : list str) : result str unit :=
  match segments with
  | [] => Ok ()
  | segment :: segments => _ ← validate_agent_name segment; validate_names segments
  end.

Definition bad_root {A} : result str A :=
  Err (lit "absolute agent paths must start with `/root` or be `/morpheus`").

Definition validate_absolute_path (path : str) : result str unit :=
  if path == MORPHEUS then Ok ()
  else match strip_prefix [slash] path with
       | None => bad_root
       | Some stripped =>
           match split slash stripped with
           | [] => Err (lit "absolute agent path must not be empty")
           | root :: segments =>
               if negb (root == ROOT_SEGMENT) then bad_root
               else if ends_with [slash] stripped
               then Err (lit "absolute agent path must not end with `/`")
               else validate_names segments
           end
       end.

Definition validate_relative_reference (reference : str) : result str unit :=
  if ends_with [slash] reference then Err (lit "relative agent path must not end with `/`")
  else validate_names (split slash reference).

Definition from_string (path : str) : result str str :=
  _ ← validate_absolute_path path; Ok path.

Definition is_root (path : str) : bool := path == ROOT.

Definition name (path : str) : str :=
  if is_root path then ROOT_SEGMENT
  else default ROOT_SEGMENT
         (opt_filter (λ segment, negb (is_empty segment)) (last (split slash path))).

Definition join (self agent_name : str) : result str str :=
  _ ← validate_agent_name agent_name; from_string (self ++ slash :: agent_name).

Definition resolve (self reference : str) : result str str :=
  if is_empty reference then Err (lit "agent path must not be empty")
  else if reference == ROOT then Ok ROOT
  else if starts_with [slash] reference then from_string reference
  else
    _ ← validate_relative_reference reference;
    from_string (self ++ slash :: reference).

(** ** The registry (registry.rs) *)

Record AgentMetadata := mkAgent {
  agent_id : option N;
  agent_path : option str;
  agent_nickname : option str;
  agent_role : option str;
  last_task_message : option str;
}.
Definition agent_default : AgentMetadata := mkAgent None None None None None.

Record AgentRegistry := mkRegistry {
  agent_tree : gmap (list N) AgentMetadata;
  used_agent_nicknames : gset (list N);
  nickname_reset_count : N;
  total_count : N;
}.
Definition registry_default : AgentRegistry := mkRegistry ∅ ∅ 0 0.

Definition set_tree (f : gmap (list N) AgentMetadata → gmap (list N) AgentMetadata)
    (r : AgentRegistry) : AgentRegistry :=
  mkRegistry (f (agent_tree r)) (used_agent_nicknames r) (nickname_reset_count r) (total_count r).
Definition set_used (used : gset (list N)) (n : N) (r : AgentRegistry) : AgentRegistry :=
  mkRegistry (agent_tree r) used n (total_count r).

(** [fetch_add(1)] and [fetch_sub(1)] of an [AtomicUsize] wrap around. *)
Definition USIZE_RANGE : N := (2 ^ 64)%N.
Definition fetch_add (r : AgentRegistry) : AgentRegistry :=
  mkRegistry (agent_tree r) (used_agent_nicknames r) (nickname_reset_count r)
    ((total_count r + 1) mod USIZE_RANGE)%N.
Definition fetch_sub (r : AgentRegistry) : AgentRegistry :=
  mkRegistry (agent_tree r) (used_agent_nicknames r) (nickname_reset_count r)
    ((total_count r + (USIZE_RANGE - 1)) mod USIZE_RANGE)%N.

(** Nicknames. *)
Definition ordinal_suffix (value : N) : str :=
  if ((11 <=? value mod 100) && (value mod 100 <=? 13))%N then lit "th"
  else match (value mod 10)%N with
       | 1%N => lit "st"
       | 2%N => lit "nd"
       | 3%N => lit "rd"
       | _ => lit "th"
       end.
Definition format_agent_nickname (name : str) (nickname_reset_count : N) : str :=
  if (nickname_reset_count =? 0)%N then name
  else let value := (nickname_reset_count + 1)%N in
       name ++ lit " the " ++ lit (pretty value) ++ ordinal_suffix value.

(** [pick] is the index drawn by [choose], for a slice of the given length. *)
Definition choose {A} (pick : nat → nat) (l : list A) : option A :=
  if is_empty l then None else l !! (pick (length l) mod length l).

Definition reserve_agent_nickname (pick : nat → nat) (names : list str) (preferred : option str)
    (r : AgentRegistry) : AgentRegistry * option str :=
  let used := used_agent_nicknames r in
  let count := nickname_reset_count r in
  let take used count nickname := (set_used ({[nickname]} ∪ used) count r, Some nickname) in
  match preferred with
  | Some preferred => take used count preferred
  | None =>
      if is_empty names then (r, None)
      else
        let available := List.filter (λ n, negb (bool_decide (n ∈ used)))
                           ((λ n, format_agent_nickname n count) <$> names) in
        match choose pick available with
        | Some n => take used count n
        | None =>
            match choose pick names with
            | Some n => take ∅ (count + 1)%N (format_agent_nickname n (count + 1)%N)
            | None => (set_used ∅ (count + 1)%N r, None)
            end
        end
  end.

(** Paths of reservations. *)
Definition reserve_agent_path (path : str) (r : AgentRegistry) : AgentRegistry * result str unit :=
  match agent_tree r !! path with
  | Some _ => (r, Err (lit "agent path `" ++ path ++ lit "` already exists"))
  | None => (set_tree <[path := mkAgent None (Some path) None None None]> r, Ok ())
  end.

Definition release_reserved_agent_path (path : str) (r : AgentRegistry) : AgentRegistry :=
  match agent_tree r !! path with
  | Some metadata => if opt_is_some (agent_id metadata) then r else set_tree (delete path) r
  | None => r
  end.

Definition register_root_thread (thread_id : N) (r : AgentRegistry) : AgentRegistry :=
  match agent_tree r !! ROOT with
  | Some _ => r
  | None => set_tree <[ROOT := mkAgent (Some thread_id) (Some ROOT) None None None]> r
  end.

(** The thread an agent is waiting to be: not the root, and started. *)
Definition is_counted (m : AgentMetadata) : bool :=
  match agent_path m with Some p => negb (is_root p) | None => true end.

Section Registry.
(** [Display] of a thread id, and the order in which the tree is iterated. *)
Context (fmt_thread : N → str).
Context (tree_iter : gmap (list N) AgentMetadata → list (str * AgentMetadata)).

Definition tree_key (thread_id : N) (m : AgentMetadata) : str :=
  match agent_path m with
  | Some path => path
  | None => lit "thread:" ++ fmt_thread thread_id
  end.

Definition register_spawned_thread (m : AgentMetadata) (r : AgentRegistry) : AgentRegistry :=
  match agent_id m with
  | None => r
  | Some thread_id =>
      let r := match agent_nickname m with
               | Some n => set_used ({[n]} ∪ used_agent_nicknames r) (nickname_reset_count r) r
               | None => r
               end in
      set_tree <[tree_key thread_id m := m]> r
  end.

Definition entry_of_thread (thread_id : N) (r : AgentRegistry) : option (str * AgentMetadata) :=
  find (λ e, bool_decide (agent_id e.2 = Some thread_id)) (tree_iter (agent_tree r)).

(** The part of [release_spawned_thread] under the lock, and whether the slot is to
    be given back. *)
Definition remove_thread (thread_id : N) (r : AgentRegistry) : AgentRegistry * bool :=
  match fst <$> entry_of_thread thread_id r with
  | None => (r, false)
  | Some key =>
      (set_tree (delete key) r,
       match agent_tree r !! key with Some m => is_counted m | None => false end)
  end.
Definition release_spawned_thread (thread_id : N) (r : AgentRegistry) : AgentRegistry :=
  let '(r, counted) := remove_thread thread_id r in if counted then fetch_sub r else r.

Definition agent_id_for_path (path : str) (r : AgentRegistry) : option N :=
  m ← agent_tree r !! path; agent_id m.
Definition agent_metadata_for_thread (thread_id : N) (r : AgentRegistry) : option AgentMetadata :=
  snd <$> entry_of_thread thread_id r.
Definition live_agents (r : AgentRegistry) : list AgentMetadata :=
  List.filter (λ m, opt_is_some (agent_id m) && is_counted m) (snd <$> tree_iter (agent_tree r)).

Definition set_last_task_message (thread_id : N) (message : option str) (r : AgentRegistry)
    : AgentRegistry :=
  match entry_of_thread thread_id r with
  | Some (key, m) =>
      set_tree <[key := mkAgent (agent_id m) (agent_path m) (agent_nickname m) (agent_role m) message]> r
  | None => r
  end.
Definition update_last_task_message (thread_id : N) (message : str) : AgentRegistry → AgentRegistry :=
  set_last_task_message thread_id (Some message).
Definition clear_last_task_message (thread_id : N) : AgentRegistry → AgentRegistry :=
  set_last_task_message thread_id None.

(** ** Tasks *)

(** Where a task is: before a reservation, in the compare-and-exchange loop of
    [try_increment_spawned], holding a reservation (with the path it reserved), and
    before the [fetch_sub] of a dropped reservation or of a released thread. *)
Inductive Pc :=
| PIdle
| PReserve (max_threads : option N)
| PTry (max_threads current : N)
| PLimit (max_threads : N)
| PHeld (path : option str)
| PSub.

Definition knows_thread (thread_id : N) (r : AgentRegistry) : Prop :=
  ∃ k m, agent_tree r !! k = Some m ∧ agent_id m = Some thread_id.

(** One access of a task.  A reservation reserves at most one path, a valid one that is
    not the root, and is committed with that path and a thread that is not registered yet
    ([prepare_thread_spawn] and [spawn_agent_internal]). *)
Inductive pc_step : AgentRegistry → Pc → AgentRegistry → Pc → Prop :=
| step_reserve r max : pc_step r PIdle r (PReserve max)
| step_unlimited r : pc_step r (PReserve None) (fetch_add r) (PHeld None)
| step_load r max : pc_step r (PReserve (Some max)) r (PTry max (total_count r))
| step_limit r max current : (max <= current)%N → pc_step r (PTry max current) r (PLimit max)
| step_exchange r max current :
    (current < max)%N → total_count r = current → pc_step r (PTry max current) (fetch_add r) (PHeld None)
| step_exchange_failed r max current :
    (current < max)%N → pc_step r (PTry max current) r (PTry max (total_count r))
| step_path r path r' :
    path ≠ ROOT → is_ok (from_string path) = true → reserve_agent_path path r = (r', Ok ()) →
    pc_step r (PHeld None) r' (PHeld (Some path))
| step_path_taken r path r' e held :
    reserve_agent_path path r = (r', Err e) → pc_step r (PHeld held) r' (PHeld held)
| step_nickname r pick names preferred r' o held :
    reserve_agent_nickname pick names preferred r = (r', o) → pc_step r (PHeld held) r' (PHeld held)
| step_commit r held thread_id m :
    agent_id m = Some thread_id → agent_path m = held → ¬ knows_thread thread_id r →
    pc_step r (PHeld held) (register_spawned_thread m r) PIdle
| step_drop r held :
    pc_step r (PHeld held)
      (match held with Some path => release_reserved_agent_path path r | None => r end) PSub
| step_sub r : pc_step r PSub (fetch_sub r) PIdle
| step_release r thread_id r' counted :
    remove_thread thread_id r = (r', counted) → pc_step r PIdle r' (if counted then PSub else PIdle)
| step_root r thread_id :
    ¬ knows_thread thread_id r → pc_step r PIdle (register_root_thread thread_id r) PIdle
| step_message r thread_id message :
    pc_step r PIdle (set_last_task_message thread_id message r) PIdle.

Inductive agents_step : AgentRegistry * list Pc → AgentRegistry * list Pc → Prop :=
| agents_spawn r pcs : agents_step (r, pcs) (r, pcs ++ [PIdle])
| agents_task r pcs i pc r' pc' :
    pcs !! i = Some pc → pc_step r pc r' pc' → agents_step (r, pcs) (r', <[i := pc']> pcs).
End Registry.

(** ** Counting *)

(** A started agent other than the root. *)
Definition occupies (m : AgentMetadata) : bool := opt_is_some (agent_id m) && is_counted m.
Definition slots (tree : gmap (list N) AgentMetadata) : nat :=
  size (filter (λ e : list N * AgentMetadata, occupies e.2 = true) tree).
Definition holder (pc : Pc) : nat := match pc with PHeld _ | PSub => 1 | _ => 0 end.
Definition holders (pcs : list Pc) : nat := sum_list_with holder pcs.

Lemma slots_delete (tree : gmap (list N) AgentMetadata) k m :
  tree !! k = Some m → slots (delete k tree) + Nat.b2n (occupies m) = slots tree.
Proof.
  intros Hk. unfold slots. rewrite map_filter_delete, map_size_delete.
  set (P := λ e : list N * AgentMetadata, occupies e.2 = true).
  destruct (occupies m) eqn:E.
  - assert (filter P tree !! k = Some m) as Hf by (apply map_lookup_filter_Some; done).
    rewrite Hf. assert (size (filter P tree) ≠ 0); [|cbn; lia].
    apply (map_size_ne_0_lookup_2 _ k). by exists m.
  - assert (filter P tree !! k = None) as ->; [|cbn; lia].
    apply map_lookup_filter_None. right. intros m' Hm'. rewrite Hk in Hm'. injection Hm' as <-.
    unfold P. cbn. by rewrite E.
Qed.

Lemma slots_insert_new (tree : gmap (list N) AgentMetadata) k m :
  tree !! k = None → slots (<[k := m]> tree) = slots tree + Nat.b2n (occupies m).
Proof.
  intros Hk. rewrite <-(slots_delete (<[k := m]> tree) k m) by apply lookup_insert_eq.
  by rewrite delete_insert_id by done.
Qed.

Lemma slots_insert (tree : gmap (list N) AgentMetadata) k m0 m :
  tree !! k = Some m0 →
  slots (<[k := m]> tree) + Nat.b2n (occupies m0) = slots tree + Nat.b2n (occupies m).
Proof.
  intros Hk. rewrite <-insert_delete_eq, slots_insert_new by apply lookup_delete_eq.
  pose proof (slots_delete _ _ _ Hk). lia.
Qed.

Lemma holders_insert pcs i pc pc' :
  pcs !! i = Some pc → holders (<[i := pc']> pcs) + holder pc = holders pcs + holder pc'.
Proof.
  unfold holders. revert i.
  induction pcs as [|x pcs IH]; intros [|i] H; cbn [lookup list_lookup] in H; [done..| |];
    cbn [insert list_insert sum_list_with].
  - injection H as ->. lia.
  - assert (∀ a b c d e : nat, a + b = c + d → e + a + b = e + c + d) as Hadd by lia.
    apply Hadd, IH, H.
Qed.

Lemma holders_app pcs pcs' : holders (pcs ++ pcs') = holders pcs + holders pcs'.
Proof. apply sum_list_with_app. Qed.

(** ** The tree and the reservations agree *)

Section Invariant.
Context (fmt_thread : N → str) `{!Inj (=) (=) fmt_thread}.
Context (tree_iter : gmap (list N) AgentMetadata → list (str * AgentMetadata)).
Context (tree_iter_perm : ∀ m, tree_iter m ≡ₚ map_to_list m).

Implicit Types (pcs : list Pc) (i j : nat).
Definition valid_path (p : str) : Prop := is_ok (from_string p) = true.

Record tree_ok (r : AgentRegistry) (pcs : list Pc) : Prop := {
  (* A started agent is stored under its path or its thread. *)
  ok_started k m t : agent_tree r !! k = Some m → agent_id m = Some t → k = tree_key fmt_thread t m;
  (* Any other entry is the path of exactly one reservation. *)
  ok_reserved k m :
    agent_tree r !! k = Some m → agent_id m = None → ∃ i, pcs !! i = Some (PHeld (Some k));
  ok_held i p :
    pcs !! i = Some (PHeld (Some p)) →
    p ≠ ROOT ∧ valid_path p ∧ ∃ m, agent_tree r !! p = Some m ∧ agent_id m = None;
  ok_held_once i j p :
    pcs !! i = Some (PHeld (Some p)) → pcs !! j = Some (PHeld (Some p)) → i = j;
  ok_valid k m p : agent_tree r !! k = Some m → agent_path m = Some p → valid_path p;
  ok_threads k k' m m' t :
    agent_tree r !! k = Some m → agent_tree r !! k' = Some m' →
    agent_id m = Some t → agent_id m' = Some t → k = k';
}.

Lemma thread_key_invalid t : ¬ valid_path (lit "thread:" ++ fmt_thread t).
Proof.
  unfold valid_path, from_string, validate_absolute_path. intros H.
  destruct (str_eqb_reflect (lit "thread:" ++ fmt_thread t) MORPHEUS) as [E|_].
  - apply (f_equal head) in E. by vm_compute in E.
  - cbn in H. replace (lit "thread:") with (116%N :: lit "hread:") in H by by_compute. by cbn in H.
Qed.

Lemma entry_of_thread_Some t r k m :
  entry_of_thread tree_iter t r = Some (k, m) → agent_tree r !! k = Some m ∧ agent_id m = Some t.
Proof.
  intros [H1 H2]%find_Some. cbn in H2. apply bool_decide_eq_true in H2. split; [|done].
  rewrite tree_iter_perm in H1. by apply elem_of_map_to_list in H1.
Qed.

Lemma root_valid : valid_path ROOT.
Proof. by_compute. Qed.

(** The task that moves is the only one whose reservation changes. *)
Lemma lookup_moved (pcs : list Pc) i pc' j x :
  <[i := pc']> pcs !! j = Some x → (j = i ∧ x = pc' ∧ is_Some (pcs !! i)) ∨ (j ≠ i ∧ pcs !! j = Some x).
Proof.
  intros H. destruct (decide (i = j)) as [<-|Hne].
  - assert (i < length pcs) as Hl.
    { apply lookup_lt_Some in H. by rewrite length_insert in H. }
    rewrite list_lookup_insert_eq in H by done. left. injection H as <-.
    split; [done|]. split; [done|]. by apply lookup_lt_is_Some.
  - rewrite list_lookup_insert_ne in H by done. auto.
Qed.

Definition path_of (pc : Pc) : option str := match pc with PHeld p => p | _ => None end.

Lemma held_moved pcs i pc pc' j p :
  pcs !! i = Some pc → path_of pc = path_of pc' →
  <[i := pc']> pcs !! j = Some (PHeld (Some p)) → pcs !! j = Some (PHeld (Some p)).
Proof.
  intros Hi Hp [(-> & <- & _)|[_ Hj]]%lookup_moved; [|done]. cbn in Hp.
  destruct pc as [| | | |q|]; cbn in Hp; try done. by rewrite Hi, Hp.
Qed.

Lemma held_kept pcs i pc pc' j p :
  pcs !! i = Some pc → path_of pc = path_of pc' →
  pcs !! j = Some (PHeld (Some p)) → <[i := pc']> pcs !! j = Some (PHeld (Some p)).
Proof.
  intros Hi Hp Hj. destruct (decide (i = j)) as [<-|]; [|by rewrite list_lookup_insert_ne].
  rewrite Hi in Hj. injection Hj as ->. cbn in Hp.
  rewrite list_lookup_insert_eq by (by eapply lookup_lt_Some).
  destruct pc' as [| | | |q|]; cbn in Hp; try done. by rewrite <-Hp.
Qed.

(** An access that leaves the tree and the reserved path alone. *)
Lemma tree_ok_frame r r' pcs i pc pc' :
  tree_ok r pcs → pcs !! i = Some pc → agent_tree r' = agent_tree r → path_of pc = path_of pc' →
  tree_ok r' (<[i := pc']> pcs).
Proof.
  intros [H1 H2 H3 H4 H5 H6] Hi Ht Hp. split; rewrite ?Ht; try done.
  - intros k m Hk Hm. destruct (H2 k m Hk Hm) as [j Hj]. exists j. by eapply held_kept.
  - intros j p Hj. apply (H3 j). by eapply held_moved.
  - intros j j' p Hj Hj'. apply (H4 j j' p); by eapply held_moved.
Qed.

Lemma tree_ok_reserve r pcs i p :
  tree_ok r pcs → pcs !! i = Some (PHeld None) → p ≠ ROOT → valid_path p → agent_tree r !! p = None →
  tree_ok (set_tree <[p := mkAgent None (Some p) None None None]> r) (<[i := PHeld (Some p)]> pcs).
Proof.
  intros [H1 H2 H3 H4 H5 H6] Hi Hroot Hv Hp.
  assert (∀ j, pcs !! j ≠ Some (PHeld (Some p))) as Hfree.
  { intros j Hj. destruct (H3 _ _ Hj) as (_ & _ & m & Hm & _). congruence. }
  split; cbn [agent_tree set_tree].
  - intros k m t [[<- <-]|[_ Hk]]%lookup_insert_Some Ht; [done|by eapply H1].
  - intros k m [[<- <-]|[Hne Hk]]%lookup_insert_Some Ht.
    + exists i. apply list_lookup_insert_eq. by eapply lookup_lt_Some.
    + destruct (H2 k m Hk Ht) as [j Hj]. exists j.
      rewrite list_lookup_insert_ne; [done|]. intros ->. congruence.
  - intros j q [(-> & [= ->] & _)|[_ Hj]]%lookup_moved.
    + split; [done|]. split; [done|]. eexists. split; [apply lookup_insert_eq|done].
    + destruct (H3 _ _ Hj) as (Hq & Hqv & m & Hm & Hid). split; [done|]. split; [done|]. exists m.
      rewrite lookup_insert_ne; [done|]. intros ->. by apply (Hfree j).
  - intros j j' q [(-> & [= ->] & _)|[_ Hj]]%lookup_moved [(-> & E & _)|[_ Hj']]%lookup_moved.
    + done.
    + by destruct (Hfree j').
    + injection E as ->. by destruct (Hfree j).
    + by eapply H4.
  - intros k m q [[<- <-]|[_ Hk]]%lookup_insert_Some Hq; [cbn in Hq; congruence|by eapply H5].
  - intros k k' m m' t [[<- <-]|[_ Hk]]%lookup_insert_Some [[<- <-]|[_ Hk']]%lookup_insert_Some Ht Ht';
      [done..|]. by eapply H6.
Qed.

(** Removing an entry whose path no remaining reservation holds. *)
Lemma tree_ok_delete r pcs i pc' k0 :
  tree_ok r pcs → is_Some (pcs !! i) → path_of pc' = None →
  (∀ j, pcs !! j = Some (PHeld (Some k0)) → j = i) →
  (∀ p, pcs !! i = Some (PHeld (Some p)) → p = k0) →
  tree_ok (set_tree (delete k0) r) (<[i := pc']> pcs).
Proof.
  intros [H1 H2 H3 H4 H5 H6] Hi Hp Hk0 Hpi.
  assert (∀ j p, <[i := pc']> pcs !! j = Some (PHeld (Some p)) → j ≠ i ∧ pcs !! j = Some (PHeld (Some p)))
    as Hmoved.
  { intros j p [(-> & <- & _)|Hj]%lookup_moved; [done|done]. }
  split; cbn [agent_tree set_tree].
  - intros k m t [_ Hk]%lookup_delete_Some Ht. by eapply H1.
  - intros k m [Hne Hk]%lookup_delete_Some Ht. destruct (H2 k m Hk Ht) as [j Hj]. exists j.
    rewrite list_lookup_insert_ne; [done|]. intros <-. by specialize (Hpi _ Hj).
  - intros j p [Hne Hj]%Hmoved. destruct (H3 _ _ Hj) as (Hr & Hv & m & Hm & Hid).
    split; [done|]. split; [done|]. exists m. split; [|done]. apply lookup_delete_Some. split; [|done].
    intros <-. by apply Hne, Hk0.
  - intros j j' p [_ Hj]%Hmoved [_ Hj']%Hmoved. by eapply H4.
  - intros k m p [_ Hk]%lookup_delete_Some Hq. by eapply H5.
  - intros k k' m m' t [_ Hk]%lookup_delete_Some [_ Hk']%lookup_delete_Some Ht Ht'. by eapply H6.
Qed.

(** Storing a started agent under its key, over nothing or over the entry of the
    reservation that is given up. *)
Lemma tree_ok_start r pcs i pc' t m :
  tree_ok r pcs → is_Some (pcs !! i) → path_of pc' = None → agent_id m = Some t →
  (∀ p, agent_path m = Some p → valid_path p) →
  (∀ k' m', agent_tree r !! k' = Some m' → agent_id m' = Some t → k' = tree_key fmt_thread t m) →
  (∀ j, pcs !! j = Some (PHeld (Some (tree_key fmt_thread t m))) → j = i) →
  (∀ p, pcs !! i = Some (PHeld (Some p)) → p = tree_key fmt_thread t m) →
  tree_ok (set_tree <[tree_key fmt_thread t m := m]> r) (<[i := pc']> pcs).
Proof.
  intros [H1 H2 H3 H4 H5 H6] Hi Hp Hm Hv Hfresh Hk0 Hpi. set (k0 := tree_key fmt_thread t m) in *.
  assert (∀ j p, <[i := pc']> pcs !! j = Some (PHeld (Some p)) → j ≠ i ∧ pcs !! j = Some (PHeld (Some p)))
    as Hmoved.
  { intros j p [(-> & <- & _)|Hj]%lookup_moved; [done|done]. }
  split; cbn [agent_tree set_tree].
  - intros k m' t' [[<- <-]|[_ Hk]]%lookup_insert_Some Ht; [|by eapply H1].
    rewrite Hm in Ht. by injection Ht as <-.
  - intros k m' [[<- <-]|[Hne Hk]]%lookup_insert_Some Ht; [congruence|].
    destruct (H2 k m' Hk Ht) as [j Hj]. exists j. rewrite list_lookup_insert_ne; [done|].
    intros <-. specialize (Hpi _ Hj). congruence.
  - intros j p [Hne Hj]%Hmoved. destruct (H3 _ _ Hj) as (Hr & Hvp & m' & Hm' & Hid).
    split; [done|]. split; [done|]. exists m'. split; [|done]. rewrite lookup_insert_ne; [done|].
    intros <-. by apply Hne, Hk0.
  - intros j j' p [_ Hj]%Hmoved [_ Hj']%Hmoved. by eapply H4.
  - intros k m' p [[<- <-]|[_ Hk]]%lookup_insert_Some Hq; [by apply Hv|by eapply H5].
  - intros k k' m1 m2 t' [[<- <-]|[_ Hk]]%lookup_insert_Some [[<- <-]|[_ Hk']]%lookup_insert_Some Ht Ht'.
    + done.
    + rewrite Hm in Ht. injection Ht as <-. symmetry. by eapply Hfresh.
    + rewrite Hm in Ht'. injection Ht' as <-. by eapply Hfresh.
    + by eapply H6.
Qed.

(** What an access does to the counter and to the number of slot holders. *)
Inductive balance (r : AgentRegistry) (pc : Pc) (r' : AgentRegistry) (pc' : Pc) : Prop :=
| balance_same :
    total_count r' = total_count r →
    slots (agent_tree r') + holder pc' = slots (agent_tree r) + holder pc → balance r pc r' pc'
| balance_up :
    pc = PReserve None ∨ (∃ max, pc = PTry max (total_count r) ∧ (total_count r < max)%N) →
    r' = fetch_add r → holder pc' = S (holder pc) → balance r pc r' pc'
| balance_down :
    r' = fetch_sub r → S (holder pc') = holder pc → balance r pc r' pc'.

Definition step_ok r pc r' pc' pcs i : Prop :=
  tree_ok r' (<[i := pc']> pcs) ∧ balance r pc r' pc'.

Lemma commit_ok r pcs i held t m :
  tree_ok r pcs → pcs !! i = Some (PHeld held) → agent_id m = Some t → agent_path m = held →
  ¬ knows_thread t r → step_ok r (PHeld held) (register_spawned_thread fmt_thread m r) PIdle pcs i.
Proof.
  intros Hok Hi Hm Hpath Hnew. unfold register_spawned_thread. rewrite Hm.
  set (r0 := match agent_nickname m with Some n => set_used _ _ r | None => r end).
  assert (agent_tree r0 = agent_tree r ∧ total_count r0 = total_count r) as [E1 E2]
    by (unfold r0; by destruct (agent_nickname m)).
  assert (tree_ok r0 pcs) as Hok0.
  { destruct Hok; split; by rewrite ?E1. }
  assert (∀ k' m', agent_tree r !! k' = Some m' → agent_id m' ≠ Some t) as Hfresh.
  { intros k' m' Hk' Ht. apply Hnew. by exists k', m'. }
  destruct Hok as [H1 H2 H3 H4 H5 H6].
  assert (slots (agent_tree (set_tree <[tree_key fmt_thread t m := m]> r0)) = S (slots (agent_tree r)) ∧
    (∀ j, pcs !! j = Some (PHeld (Some (tree_key fmt_thread t m))) → j = i) ∧
    (∀ p, held = Some p → p = tree_key fmt_thread t m) ∧
    (∀ p, agent_path m = Some p → valid_path p)) as (Hs & Hh & Hk & Hv).
  { cbn [agent_tree set_tree]. rewrite E1. unfold tree_key. rewrite Hpath. destruct held as [p|].
    - destruct (H3 _ _ Hi) as (Hr & Hvp & m0 & Hm0 & Hid0).
      split; [|split; [|split]]; [|intros j Hj; by apply (H4 j i p)|by intros q [= ->]|by intros q [= ->]].
      pose proof (slots_insert _ _ m0 m Hm0) as E. unfold occupies in E. rewrite Hid0, Hm in E. cbn in E.
      unfold is_counted in E. rewrite Hpath in E. unfold is_root in E.
      rewrite (proj2 (str_eqb_false p ROOT) Hr) in E. cbn in E. lia.
    - split; [|split; [|done]].
      + rewrite slots_insert_new.
        { unfold occupies, is_counted. rewrite Hm, Hpath. cbn. lia. }
        destruct (agent_tree r !! _) as [m0|] eqn:E; [exfalso|done].
        destruct (agent_id m0) as [t0|] eqn:E0.
        * pose proof (H1 _ _ _ E E0) as Hkey. unfold tree_key in Hkey.
          destruct (agent_path m0) as [q|] eqn:Eq.
          -- apply (thread_key_invalid t). rewrite Hkey. by eapply H5.
          -- apply app_inv_head in Hkey. apply (Hfresh _ _ E). rewrite E0. f_equal. by apply (inj fmt_thread).
        * destruct (H2 _ _ E E0) as [j Hj]. destruct (H3 _ _ Hj) as (_ & Hv & _). by apply thread_key_invalid in Hv.
      + intros j Hj. destruct (H3 _ _ Hj) as (_ & Hv & _). by apply thread_key_invalid in Hv. }
  split.
  - apply tree_ok_start; [done|by eexists|done|done|done| |done|].
    + rewrite E1. intros k' m' Hk' Ht. by destruct (Hfresh k' m').
    + intros p Hp. apply Hk. rewrite Hi in Hp. by injection Hp.
  - apply balance_same; [done|]. rewrite Hs. cbn. lia.
Qed.

Lemma drop_ok r pcs i held :
  tree_ok r pcs → pcs !! i = Some (PHeld held) →
  step_ok r (PHeld held)
    (match held with Some path => release_reserved_agent_path path r | None => r end) PSub pcs i.
Proof.
  intros Hok Hi. destruct held as [p|]; [|split; [by eapply tree_ok_frame|by apply balance_same]].
  pose proof (ok_held _ _ Hok _ _ Hi) as (Hr & Hv & m & Hm & Hid).
  unfold release_reserved_agent_path. rewrite Hm, Hid. cbn [opt_is_some]. split.
  - apply tree_ok_delete; [done|by eexists|done| |].
    + intros j Hj. by apply (ok_held_once _ _ Hok j i p).
    + intros q Hq. rewrite Hi in Hq. by injection Hq.
  - apply balance_same; [done|]. cbn [agent_tree set_tree holder].
    pose proof (slots_delete _ _ _ Hm) as E. unfold occupies in E. rewrite Hid in E. cbn in E. lia.
Qed.

Lemma release_ok r pcs i t r' counted :
  tree_ok r pcs → pcs !! i = Some PIdle → remove_thread tree_iter t r = (r', counted) →
  step_ok r PIdle r' (if counted then PSub else PIdle) pcs i.
Proof.
  intros Hok Hi. unfold remove_thread.
  destruct (entry_of_thread tree_iter t r) as [[k m]|] eqn:E; cbn.
  2:{ intros [= <- <-]. split; [by eapply tree_ok_frame|by apply balance_same]. }
  apply entry_of_thread_Some in E as [Hk Hid]. rewrite Hk. intros [= <- <-]. split.
  - apply tree_ok_delete; [done|by eexists|by destruct (is_counted m)| |].
    + intros j Hj. destruct (ok_held _ _ Hok _ _ Hj) as (_ & _ & m' & Hm' & Hid'). congruence.
    + intros p Hp. congruence.
  - apply balance_same; [done|]. cbn [agent_tree set_tree].
    pose proof (slots_delete _ _ _ Hk) as E. unfold occupies in E. rewrite Hid in E. cbn in E.
    destruct (is_counted m); cbn in *; lia.
Qed.

Lemma root_ok r pcs i t :
  tree_ok r pcs → pcs !! i = Some PIdle → ¬ knows_thread t r →
  step_ok r PIdle (register_root_thread t r) PIdle pcs i.
Proof.
  intros Hok Hi Hnew. unfold register_root_thread. destruct (agent_tree r !! ROOT) eqn:E.
  { split; [by eapply tree_ok_frame|by apply balance_same]. }
  set (m := mkAgent (Some t) (Some ROOT) None None None). split.
  - change ROOT with (tree_key fmt_thread t m). apply tree_ok_start; [done|by eexists|done|done|..].
    + intros p [= <-]. apply root_valid.
    + intros k' m' Hk' Ht. destruct Hnew. by exists k', m'.
    + intros j Hj. by destruct (ok_held _ _ Hok _ _ Hj) as (Hr & _).
    + intros p Hp. congruence.
  - apply balance_same; [done|]. cbn [agent_tree set_tree]. rewrite slots_insert_new by done.
    unfold occupies, is_counted, m. cbn. unfold is_root. rewrite str_eqb_refl. cbn. lia.
Qed.

Lemma message_ok r pcs i t message :
  tree_ok r pcs → pcs !! i = Some PIdle →
  step_ok r PIdle (set_last_task_message tree_iter t message r) PIdle pcs i.
Proof.
  intros Hok Hi. unfold set_last_task_message.
  destruct (entry_of_thread tree_iter t r) as [[k m]|] eqn:E.
  2:{ split; [by eapply tree_ok_frame|by apply balance_same]. }
  apply entry_of_thread_Some in E as [Hk Hid].
  set (m' := mkAgent (agent_id m) (agent_path m) (agent_nickname m) (agent_role m) message). split.
  - assert (k = tree_key fmt_thread t m') as Hkey by (by apply (ok_started _ _ Hok) with (t := t) in Hk).
    rewrite Hkey. apply tree_ok_start; [done|by eexists|done|done|..]; rewrite <-?Hkey.
    + intros p Hp. by eapply (ok_valid _ _ Hok).
    + intros k' m1 Hk' Ht. by eapply (ok_threads _ _ Hok).
    + intros j Hj. destruct (ok_held _ _ Hok _ _ Hj) as (_ & _ & m1 & Hm1 & Hid1). congruence.
    + intros p Hp. congruence.
  - apply balance_same; [done|]. cbn [agent_tree set_tree]. pose proof (slots_insert _ _ m m' Hk) as E.
    unfold occupies, is_counted in E. cbn [agent_id agent_path m'] in E. lia.
Qed.

(** Every access keeps the tree and the reservations in agreement. *)
Lemma pc_step_ok r pc r' pc' pcs i :
  tree_ok r pcs → pcs !! i = Some pc → pc_step fmt_thread tree_iter r pc r' pc' →
  step_ok r pc r' pc' pcs i.
Proof.
  intros Hok Hi Hstep.
  assert (∀ r0 pc0, agent_tree r0 = agent_tree r → path_of pc = path_of pc0 → tree_ok r0 (<[i := pc0]> pcs))
    as Hframe by (intros; by eapply tree_ok_frame).
  destruct Hstep as [r max|r|r max|r max c ?|r max c Hlt E|r max c ?|r p r' Hr Hv E|r p r' e held E
    |r pick names pref r' o held E|r held t m Hm Hpath Hnew|r held|r|r t r' counted E|r t Hnew|r t msg].
  - split; [by apply Hframe|by apply balance_same].
  - split; [by apply Hframe|]. apply balance_up; [by left|done|done].
  - split; [by apply Hframe|by apply balance_same].
  - split; [by apply Hframe|by apply balance_same].
  - split; [by apply Hframe|]. apply balance_up; [right; exists max; by rewrite E|done|done].
  - split; [by apply Hframe|by apply balance_same].
  - unfold reserve_agent_path in E. destruct (agent_tree r !! p) eqn:Ep; [done|]. injection E as <-.
    split; [by apply tree_ok_reserve|]. apply balance_same; [done|]. cbn [agent_tree set_tree].
    rewrite slots_insert_new by done. cbn. lia.
  - unfold reserve_agent_path in E. destruct (agent_tree r !! p) eqn:Ep; [|done]. injection E as <- _.
    split; [by apply Hframe|by apply balance_same].
  - assert (agent_tree r' = agent_tree r ∧ total_count r' = total_count r) as [E1 E2].
    { unfold reserve_agent_nickname in E. repeat case_match; simplify_eq; done. }
    split; [by apply Hframe|]. apply balance_same; [done|by rewrite E1].
  - by apply commit_ok with t.
  - by apply drop_ok.
  - split; [by apply Hframe|by apply balance_down].
  - by eapply release_ok.
  - by apply root_ok.
  - by apply message_ok.
Qed.

(** ** The limit *)

Definition counter_ok (r : AgentRegistry) pcs : Prop :=
  total_count r = (N.of_nat (slots (agent_tree r) + holders pcs) mod USIZE_RANGE)%N.

Lemma range_pos : (0 < USIZE_RANGE)%N.
Proof. done. Qed.

Lemma counter_step r pc r' pc' pcs i :
  counter_ok r pcs → pcs !! i = Some pc → balance r pc r' pc' → counter_ok r' (<[i := pc']> pcs).
Proof.
  unfold counter_ok. intros Hc Hi Hb. pose proof (holders_insert pcs i pc pc' Hi) as Hh.
  destruct Hb as [Et Es|_ -> Eh| -> Eh].
  - rewrite Et, Hc. do 2 f_equal. lia.
  - cbn [total_count fetch_add agent_tree]. rewrite Hc, N.Div0.add_mod_idemp_l. f_equal. lia.
  - cbn [total_count fetch_sub agent_tree]. rewrite Hc, N.Div0.add_mod_idemp_l.
    replace (N.of_nat (slots (agent_tree r) + holders pcs))
      with (N.of_nat (slots (agent_tree r) + holders (<[i := pc']> pcs)) + 1)%N by lia.
    rewrite <-N.add_assoc. replace (1 + (USIZE_RANGE - 1))%N with (1 * USIZE_RANGE)%N by done.
    by rewrite N.Div0.mod_add.
Qed.

(** Every reservation asks for the same limit. *)
Definition asks (limit : N) (pc : Pc) : Prop :=
  match pc with PReserve m => m = Some limit | PTry m _ => m = limit | _ => True end.
Definition limited_step (limit : N) (x y : AgentRegistry * list Pc) : Prop :=
  agents_step fmt_thread tree_iter x y ∧ Forall (asks limit) y.2.

Definition within (limit : N) (r : AgentRegistry) pcs : Prop :=
  (N.of_nat (slots (agent_tree r) + holders pcs) <= limit)%N.

Lemma within_step limit r pc r' pc' pcs i :
  (limit < USIZE_RANGE)%N → counter_ok r pcs → within limit r pcs → asks limit pc →
  pcs !! i = Some pc → balance r pc r' pc' → within limit r' (<[i := pc']> pcs).
Proof.
  unfold counter_ok, within. intros Hl Hc Hw Ha Hi Hb.
  pose proof (holders_insert pcs i pc pc' Hi) as Hh. rewrite N.mod_small in Hc by lia.
  destruct Hb as [Et Es|Hup -> Eh| -> Eh]; cbn [agent_tree fetch_add fetch_sub] in *; [lia| |lia].
  destruct Hup as [->|(max & -> & Hlt)]; cbn in Ha; [done|]. subst max. lia.
Qed.

Lemma empty_ok : tree_ok registry_default [] ∧ counter_ok registry_default [] ∧
  ∀ limit, within limit registry_default [].
Proof.
  split; [split; cbn; intros; try (by rewrite lookup_empty in *); by rewrite lookup_nil in *|].
  split; [by_compute|]. intros limit. unfold within. replace (slots _ + holders []) with 0 by by_compute.
  lia.
Qed.

Lemma tree_ok_spawn r pcs : tree_ok r pcs → tree_ok r (pcs ++ [PIdle]).
Proof.
  assert (∀ j p, (pcs ++ [PIdle]) !! j = Some (PHeld (Some p)) → pcs !! j = Some (PHeld (Some p))) as Hl.
  { intros j p [H|[_ H]]%lookup_app_Some; [done|].
    by destruct (j - length pcs) as [|[|?]]; cbn in H. }
  intros [H1 H2 H3 H4 H5 H6]. split; try done.
  - intros k m Hk Hm. destruct (H2 k m Hk Hm) as [j Hj]. exists j. by apply lookup_app_l_Some.
  - intros j p Hj%Hl. by eapply H3.
  - intros j j' p Hj%Hl Hj'%Hl. by eapply H4.
Qed.

(** The limit on sub-agents holds under every interleaving: when every
    reservation asks for the same limit, the counter is exactly the number of started
    agents and of reservations that still hold a slot, which never exceeds the limit;
    and every path and every thread belongs to one agent or one reservation, so that
    dropped reservations leave neither a slot nor a path behind. *)
Theorem agent_limit_exact (limit : N) (r : AgentRegistry) (pcs : list Pc) :
  (limit < USIZE_RANGE)%N → rtc (limited_step limit) (registry_default, []) (r, pcs) →
  total_count r = N.of_nat (slots (agent_tree r) + holders pcs) ∧
  (N.of_nat (slots (agent_tree r) + holders pcs) <= limit)%N ∧ tree_ok r pcs.
Proof.
  intros Hlim Hr.
  assert (∀ x y, rtc (limited_step limit) x y →
    (tree_ok x.1 x.2 ∧ counter_ok x.1 x.2 ∧ within limit x.1 x.2 ∧ Forall (asks limit) x.2) →
    tree_ok y.1 y.2 ∧ counter_ok y.1 y.2 ∧ within limit y.1 y.2 ∧ Forall (asks limit) y.2) as Hinv.
  { clear r pcs Hr. induction 1 as [|x y z [Hs Hask] _ IH]; [done|]. intros (H1 & H2 & H3 & H4).
    apply IH. clear IH. destruct Hs as [r pcs|r pcs i pc r' pc' Hi Hs]; cbn [fst snd] in *.
    - unfold counter_ok, within in *. rewrite holders_app. cbn [holders sum_list_with holder].
      rewrite !Nat.add_0_r. split; [by apply tree_ok_spawn|done].
    - destruct (pc_step_ok _ _ _ _ _ _ H1 Hi Hs) as [Ht Hb]. split; [done|].
      split; [by eapply counter_step|]. split; [|done].
      eapply within_step; try done. by apply (Forall_lookup_1 _ _ _ _ H4 Hi). }
  destruct empty_ok as (E1 & E2 & E3).
  destruct (Hinv _ _ Hr) as (H1 & H2 & H3 & _); [split; [done|split; [done|split; [apply E3|constructor]]]|].
  cbn [fst snd] in *. unfold counter_ok, within in *. rewrite N.mod_small in H2 by lia. done.
Qed.

(** ** Finding a started agent *)

Lemma entry_found r pcs k m t :
  tree_ok r pcs → agent_tree r !! k = Some m → agent_id m = Some t →
  entry_of_thread tree_iter t r = Some (k, m).
Proof.
  intros Hok Hk Hid. destruct (entry_of_thread tree_iter t r) as [[k' m']|] eqn:E.
  - apply entry_of_thread_Some in E as [Hk' Hid'].
    assert (k' = k) as -> by (by eapply (ok_threads _ _ Hok)). congruence.
  - pose proof (proj1 (find_None _ _) E (k, m)) as Hf. cbn in Hf.
    rewrite bool_decide_true in Hf by done. discriminate Hf.
    rewrite tree_iter_perm. by apply elem_of_map_to_list.
Qed.

(** A committed reservation is found by its path and by its thread, with the
    metadata it was committed with, until its thread is released, and then by
    neither; no other entry is affected by the release. *)
Theorem committed_agent_found r pcs i path t m :
  tree_ok r pcs → pcs !! i = Some (PHeld (Some path)) →
  agent_id m = Some t → agent_path m = Some path → ¬ knows_thread t r →
  let r1 := register_spawned_thread fmt_thread m r in
  let r2 := release_spawned_thread tree_iter t r1 in
  agent_id_for_path path r1 = Some t ∧ agent_metadata_for_thread tree_iter t r1 = Some m ∧
  agent_id_for_path path r2 = None ∧ ¬ knows_thread t r2 ∧
  ∀ k, k ≠ path → agent_tree r2 !! k = agent_tree r !! k.
Proof.
  intros Hok Hi Hid Hpath Hnew r1 r2. subst r2.
  destruct (commit_ok r pcs i (Some path) t m Hok Hi Hid Hpath Hnew) as [Hok1 _]. fold r1 in Hok1.
  assert (agent_tree r1 = <[path := m]> (agent_tree r)) as E1.
  { unfold r1, register_spawned_thread, tree_key. rewrite Hid, Hpath. by destruct (agent_nickname m). }
  assert (agent_tree r1 !! path = Some m) as Hk by (rewrite E1; apply lookup_insert_eq).
  pose proof (entry_found r1 _ path m t Hok1 Hk Hid) as Hf.
  assert (agent_tree (release_spawned_thread tree_iter t r1) = delete path (agent_tree r)) as E2.
  { unfold release_spawned_thread, remove_thread. rewrite Hf. cbn [fmap option_fmap option_map fst].
    rewrite Hk. destruct (is_counted m); cbn [agent_tree fetch_sub set_tree]; rewrite E1; apply delete_insert_eq. }
  unfold agent_id_for_path, agent_metadata_for_thread. rewrite Hf, Hk, E2. cbn.
  split; [done|]. split; [done|]. split; [by rewrite lookup_delete_eq|]. split.
  - intros (k & m' & Hk' & Hid'). rewrite E2 in Hk'. apply lookup_delete_Some in Hk' as [_ Hk'].
    apply Hnew. by exists k, m'.
  - intros k Hne. by rewrite lookup_delete_ne.
Qed.
End Invariant.

(** ** Concrete runs *)

Definition unary (t : N) : str := [t].

Lemma unary_inj : Inj (=) (=) unary.
Proof. by intros ?? [= ->]. Qed.

(** One task reserves a slot and a path. *)
Definition worker : str := lit "/root/worker".
Definition reserved : AgentRegistry :=
  set_tree <[worker := mkAgent None (Some worker) None None None]> (fetch_add registry_default).

Lemma limited_task limit r i pc r' pc' pcs :
  pcs !! i = Some pc → pc_step unary map_to_list r pc r' pc' → Forall (asks limit) (<[i := pc']> pcs) →
  limited_step unary map_to_list limit (r, pcs) (r', <[i := pc']> pcs).
Proof. intros Hi Hs Ha. split; [by eapply agents_task|done]. Qed.

Lemma reserved_run :
  rtc (limited_step unary map_to_list 2) (registry_default, []) (reserved, [PHeld (Some worker)]).
Proof.
  assert (∀ pc, asks 2 pc → Forall (asks 2) [pc]) as Hone by (by repeat constructor).
  set (r1 := fetch_add registry_default).
  apply rtc_l with (registry_default, [PIdle]); [split; [apply (agents_spawn _ _ _ [])|by apply Hone]|].
  apply rtc_l with (registry_default, [PReserve (Some 2%N)]).
  { apply (limited_task 2 _ 0 PIdle _ _ [PIdle]); [done|constructor|by apply Hone]. }
  apply rtc_l with (registry_default, [PTry 2 0]).
  { apply (limited_task 2 _ 0 (PReserve (Some 2%N)) _ _ [PReserve (Some 2%N)]);
      [done|apply step_load|by apply Hone]. }
  apply rtc_l with (r1, [PHeld None]).
  { apply (limited_task 2 _ 0 (PTry 2 0) _ _ [PTry 2 0]); [done|by apply step_exchange|by apply Hone]. }
  apply rtc_once, (limited_task 2 _ 0 (PHeld None) _ _ [PHeld None]); [done| |by apply Hone].
  apply step_path; [by_compute|by_compute|].
  unfold reserve_agent_path, r1. cbn [agent_tree fetch_add registry_default]. by rewrite lookup_empty.
Qed.

Lemma agent_limit_exact_witness :
  total_count reserved = 1%N ∧
  total_count reserved = N.of_nat (slots (agent_tree reserved) + holders [PHeld (Some worker)]) ∧
  (N.of_nat (slots (agent_tree reserved) + holders [PHeld (Some worker)]) <= 2)%N.
Proof.
  destruct (agent_limit_exact unary (Inj0 := unary_inj) map_to_list (λ m, Permutation_refl _) 2 _ _
    eq_refl reserved_run) as (H1 & H2 & _).
  split; [reflexivity|]. split; [exact H1|exact H2].
Defined.

Lemma reserved_ok : tree_ok unary reserved [PHeld (Some worker)].
Proof.
  unfold reserved. apply (tree_ok_reserve unary (fetch_add registry_default) [PHeld None] 0).
  - destruct (empty_ok unary) as (H & _ & _). apply (tree_ok_spawn unary) in H.
    by apply (tree_ok_frame unary registry_default _ [PIdle] 0 PIdle (PHeld None)).
  - done.
  - by_compute.
  - by_compute.
  - cbn [agent_tree fetch_add registry_default]. apply lookup_empty.
Qed.

Lemma committed_agent_found_witness :
  let m := mkAgent (Some 7%N) (Some worker) (Some (lit "Ada")) None None in
  let r1 := register_spawned_thread unary m reserved in
  agent_id_for_path worker r1 = Some 7%N ∧
  agent_id_for_path worker (release_spawned_thread map_to_list 7 r1) = None.
Proof.
  intros m r1.
  destruct (committed_agent_found unary (Inj0 := unary_inj) map_to_list (λ m, Permutation_refl _)
    reserved [PHeld (Some worker)] 0 worker 7 m reserved_ok eq_refl eq_refl eq_refl) as (H1 & _ & H2 & _).
  - intros (k & m' & Hk & Hm). unfold reserved in Hk. cbn [agent_tree set_tree fetch_add registry_default] in Hk.
    apply lookup_insert_Some in Hk as [[_ <-]|[_ Hk]]; [done|by rewrite lookup_empty in Hk].
  - split; [exact H1|exact H2].
Defined.

(** ** The grammar of agent paths *)

Definition valid_name (n : str) : Prop :=
  n ≠ [] ∧ n ≠ ROOT_SEGMENT ∧ Forall (λ c, is_name_char c = true) n.

Definition child_path (names : list str) : str := ROOT ++ concat ((cons slash) <$> names).

Lemma name_no_slash n : Forall (λ c, is_name_char c = true) n → slash ∉ n.
Proof. rewrite Forall_forall. intros H Hs. specialize (H _ Hs). by vm_compute in H. Qed.

Lemma validate_agent_name_Ok n : validate_agent_name n = Ok () ↔ valid_name n.
Proof.
  unfold validate_agent_name, valid_name. destruct (is_empty n) eqn:E.
  { apply is_empty_true in E. naive_solver. }
  apply is_empty_false in E. destruct (str_eqb_reflect n ROOT_SEGMENT) as [E1|E1]; [naive_solver|].
  assert (Forall (λ c, is_name_char c = true) n → (n == lit ".") || (n == lit "..") = false) as Hdots.
  { intros Hn. apply orb_false_iff. rewrite !str_eqb_false.
    split; intros ->; rewrite Forall_forall in Hn; specialize (Hn 46%N);
      vm_compute in Hn; by discriminate Hn; constructor. }
  destruct ((n == lit ".") || (n == lit "..")) eqn:E2; [naive_solver|].
  destruct (contains_char slash n) eqn:E3.
  { apply contains_char_true in E3. split; [done|]. intros (_ & _ & Hn). by apply name_no_slash in Hn. }
  destruct (all is_name_char n) eqn:E4; cbn [negb].
  - split; [|done]. intros _. split; [done|]. split; [done|]. by apply Forall_forall, all_true.
  - split; [done|]. intros (_ & _ & Hn). rewrite Forall_forall in Hn.
    by rewrite (proj2 (all_true _ _) Hn) in E4.
Qed.

Lemma validate_names_Ok ns : validate_names ns = Ok () ↔ Forall valid_name ns.
Proof.
  induction ns as [|n ns IH]; cbn [validate_names]; [by split|]. rewrite Forall_cons, <-validate_agent_name_Ok, <-IH.
  destruct (validate_agent_name n) as [[]|e]; cbn; naive_solver.
Qed.

Lemma join_cons_concat (n : str) ns : RustStr.join [slash] (n :: ns) = n ++ concat (cons slash <$> ns).
Proof.
  revert n. induction ns as [|n' ns IH]; intros n; [by rewrite app_nil_r|].
  change (RustStr.join [slash] (n :: n' :: ns)) with (n ++ slash :: RustStr.join [slash] (n' :: ns)).
  by rewrite IH.
Qed.

Lemma split_child ns :
  Forall valid_name ns → split slash (ROOT_SEGMENT ++ concat (cons slash <$> ns)) = ROOT_SEGMENT :: ns.
Proof.
  intros Hns. rewrite <-join_cons_concat. apply split_join; [done|]. constructor.
  - apply contains_char_false. by_compute.
  - eapply Forall_impl; [exact Hns|]. intros n (_ & _ & Hn). by apply name_no_slash.
Qed.

Lemma root_slash : ROOT = slash :: ROOT_SEGMENT.
Proof. by_compute. Qed.

Lemma child_path_tail s ns :
  slash :: s = child_path ns ↔ s = ROOT_SEGMENT ++ concat (cons slash <$> ns).
Proof.
  unfold child_path. rewrite root_slash. generalize ROOT_SEGMENT. intros root.
  split; [by intros [= ->]|by intros ->].
Qed.

Lemma last_name_no_slash n ns :
  Forall valid_name ns → n ≠ [] → slash ∉ n → ends_with [slash] (n ++ concat (cons slash <$> ns)) = false.
Proof.
  revert n. induction ns as [|n' ns IH]; intros n Hns Hn Hs; cbn [fmap list_fmap concat].
  - rewrite app_nil_r. apply not_true_is_false. intros [r ->]%ends_with_true. set_solver.
  - apply Forall_cons in Hns as [(H1 & _ & H2) Hns]. apply not_true_is_false. intros H%ends_with_true.
    destruct H as [r Hr]. assert (ends_with [slash] (n' ++ concat (cons slash <$> ns)) = true) as Ht.
    { apply ends_with_true. destruct (exists_last (l := n' ++ concat (cons slash <$> ns))) as (l & x & E);
        [by destruct n'|]. cbn [app] in Hr. rewrite E in Hr.
      rewrite app_comm_cons, app_assoc in Hr. apply app_inj_tail in Hr as [_ ->]. by exists l. }
    rewrite IH in Ht; [done..|]. by apply name_no_slash.
Qed.

Lemma from_string_Ok path p :
  from_string path = Ok p ↔
  p = path ∧ (path = MORPHEUS ∨ ∃ names, Forall valid_name names ∧ path = child_path names).
Proof.
  unfold from_string, validate_absolute_path.
  destruct (str_eqb_reflect path MORPHEUS) as [->|Hm]; cbn [mbind result_bind].
  { naive_solver. }
  destruct (strip_prefix [slash] path) as [s|] eqn:Es.
  - apply strip_prefix_Some in Es as ->. cbn [app].
    pose proof (join_split slash s) as Ej. pose proof (split_no_sep slash s) as Hno.
    destruct (split slash s) as [|root ns] eqn:E; [by destruct (split_nonempty slash s)|].
    destruct (str_eqb_reflect root ROOT_SEGMENT) as [->|Hr]; cbn [negb].
    + rewrite join_cons_concat in Ej. setoid_rewrite child_path_tail. destruct (ends_with [slash] s) eqn:Ee.
      * cbn. split; [done|]. intros [_ [?|(ns' & Hns' & ->)]]; [done|].
        rewrite last_name_no_slash in Ee; [done..|]. apply contains_char_false. by_compute.
      * pose proof (validate_names_Ok ns) as Hv. split.
        -- destruct (validate_names ns) as [[]|e] eqn:En; cbn; [|done]. intros [= <-]. split; [done|]. right.
           exists ns. split; [by apply Hv|done].
        -- intros [-> [?|(ns' & Hns' & ->)]]; [done|].
           rewrite split_child in E by done. injection E as ->. by rewrite (proj2 Hv Hns').
    + cbn. split; [done|]. intros [_ [?|(ns' & Hns' & ->%child_path_tail)]]; [done|].
      rewrite split_child in E by done. by injection E.
  - cbn. split; [done|]. intros [_ [?|(ns & _ & ->)]]; [done|]. unfold child_path in Es.
    rewrite root_slash in Es. cbn [app strip_prefix] in Es. by rewrite N.eqb_refl in Es.
Qed.

Lemma child_path_app ns ns' : child_path (ns ++ ns') = child_path ns ++ concat (cons slash <$> ns').
Proof. unfold child_path. by rewrite fmap_app, concat_app, app_assoc. Qed.

Lemma child_path_join ns n ns' :
  child_path ns ++ slash :: RustStr.join [slash] (n :: ns') = child_path (ns ++ n :: ns').
Proof. by rewrite child_path_app, join_cons_concat. Qed.

Lemma child_path_valid ns : Forall valid_name ns → from_string (child_path ns) = Ok (child_path ns).
Proof. intros Hns. apply from_string_Ok. eauto. Qed.

Lemma child_path_root ns : child_path ns = ROOT ↔ ns = [].
Proof.
  unfold child_path. split; [|intros ->; apply app_nil_r]. intros H%(f_equal length).
  rewrite length_app in H. destruct ns; [done|]. cbn in H. lia.
Qed.

Lemma split_child_path ns : Forall valid_name ns → split slash (child_path ns) = [] :: ROOT_SEGMENT :: ns.
Proof.
  intros Hns. unfold child_path. rewrite root_slash. cbn [app].
  change (slash :: ?s) with ([] ++ slash :: s). rewrite split_prefix by apply not_elem_of_nil.
  by rewrite split_child.
Qed.

Lemma reference_head n ns :
  valid_name n →
  is_empty (RustStr.join [slash] (n :: ns)) = false ∧
  RustStr.join [slash] (n :: ns) ≠ ROOT ∧ starts_with [slash] (RustStr.join [slash] (n :: ns)) = false.
Proof.
  rewrite join_cons_concat. intros (Hn & _ & Hc%name_no_slash).
  assert (starts_with [slash] (n ++ concat (cons slash <$> ns)) = false) as Hs.
  { apply not_true_is_false. intros [s Hs]%starts_with_true. destruct n as [|c n]; [done|].
    injection Hs as -> _. set_solver. }
  split; [by destruct n|]. split; [|done]. intros E. by rewrite E in Hs.
Qed.

(** The grammar of agent paths: the paths accepted are `/morpheus` and `/root`
    followed by valid names; joining a name to a path below the root gives a path whose
    name is that name, distinct for distinct names, and which is not the root; a relative
    reference resolves to the path extended by its names and an absolute one to itself,
    whatever the current agent. *)
Theorem agent_path_roundtrip (names : list str) (n : str) (ns : list str) :
  Forall valid_name names → valid_name n → Forall valid_name ns →
  from_string (child_path names) = Ok (child_path names) ∧
  join (child_path names) n = Ok (child_path (names ++ [n])) ∧
  name (child_path (names ++ [n])) = n ∧ is_root (child_path (names ++ [n])) = false ∧
  resolve (child_path names) (RustStr.join [slash] (n :: ns)) = Ok (child_path (names ++ n :: ns)) ∧
  (∀ self, resolve self (child_path names) = Ok (child_path names)) ∧
  (∀ names', Forall valid_name names' → child_path names' = child_path names → names' = names).
Proof.
  intros Hnames Hn Hns. assert (Forall valid_name (names ++ [n])) as Hall by (by apply Forall_app_2; auto).
  assert (child_path (names ++ [n]) ≠ ROOT) as Hroot by (rewrite child_path_root; by destruct names).
  split; [by apply child_path_valid|]. split; [|split; [|split; [|split; [|split]]]].
  - unfold join. rewrite (proj2 (validate_agent_name_Ok n) Hn). cbn [mbind result_bind].
    rewrite (child_path_join names n [] : child_path names ++ slash :: n = _). by apply child_path_valid.
  - unfold name, is_root. rewrite (proj2 (str_eqb_false _ _) Hroot), split_child_path by done.
    rewrite !app_comm_cons, last_snoc. cbn. by destruct Hn as [Hn _], n.
  - unfold is_root. by apply str_eqb_false.
  - unfold resolve. destruct (reference_head n ns Hn) as (-> & Href & ->).
    rewrite (proj2 (str_eqb_false _ _) Href). unfold validate_relative_reference.
    replace (ends_with [slash] (RustStr.join [slash] (n :: ns))) with false.
    2:{ destruct Hn as (Hn1 & _ & Hn3). rewrite join_cons_concat, last_name_no_slash; [done..|].
        by apply name_no_slash. }
    rewrite split_join; [|done|].
    2:{ apply (Forall_impl valid_name); [by constructor|]. intros x (_ & _ & Hx). by apply name_no_slash. }
    rewrite (proj2 (validate_names_Ok (n :: ns))) by (by constructor). cbn [mbind result_bind].
    rewrite child_path_join. apply child_path_valid. apply Forall_app_2; [done|by constructor].
  - intros self. unfold resolve. replace (is_empty (child_path names)) with false by by_compute.
    destruct (str_eqb_reflect (child_path names) ROOT) as [->|_]; [done|].
    replace (starts_with [slash] (child_path names)) with true by by_compute. by apply child_path_valid.
  - intros names' Hn' E%(f_equal (split slash)). rewrite !split_child_path in E by done. by injection E.
Qed.

Lemma agent_path_roundtrip_witness :
  join ROOT (lit "worker") = Ok worker ∧ name worker = lit "worker" ∧
  resolve ROOT (lit "worker/tests_2") = Ok (lit "/root/worker/tests_2").
Proof.
  assert (∀ s, all is_name_char s = true → Forall (λ c, is_name_char c = true) s) as Hall.
  { intros s Hs. by apply Forall_forall, all_true. }
  destruct (agent_path_roundtrip [] (lit "worker") [lit "tests_2"]) as (_ & H1 & H2 & _ & H3 & _).
  - constructor.
  - split; [by vm_compute|]. split; [by vm_compute|]. apply Hall. reflexivity.
  - constructor; [|constructor]. split; [by vm_compute|]. split; [by vm_compute|]. apply Hall. reflexivity.
  - split; [exact H1|]. split; [exact H2|exact H3].
Defined.

(** ** Nicknames *)

Lemma choose_Some {A} pick (l : list A) a : choose pick l = Some a → a ∈ l.
Proof. unfold choose. destruct (is_empty l); [done|]. by intros ?%list_elem_of_lookup_2. Qed.

Lemma choose_None {A} pick (l : list A) : choose pick l = None → l = [].
Proof.
  unfold choose. destruct l as [|a l]; [done|]. cbn [is_empty].
  intros H%lookup_ge_None. pose proof (Nat.mod_upper_bound (pick (length (a :: l))) (length (a :: l))). cbn in *. lia.
Qed.

(** A nickname drawn from the pool is one of the pool's names, formatted with the
    current number of resets, that was not in use; only when all of them are in use is
    the pool reset, and the name then carries the next ordinal.  With a pool that is not
    empty there is always a nickname. *)
Theorem nickname_fresh pick names r :
  names ≠ [] →
  ∃ r' n, reserve_agent_nickname pick names None r = (r', Some n) ∧ n ∈ used_agent_nicknames r' ∧
    agent_tree r' = agent_tree r ∧ total_count r' = total_count r ∧
    let count := nickname_reset_count r in
    ((n ∉ used_agent_nicknames r) ∧ nickname_reset_count r' = count ∧
       used_agent_nicknames r ⊆ used_agent_nicknames r' ∧
       ∃ m, m ∈ names ∧ n = format_agent_nickname m count)
    ∨ ((∀ m, m ∈ names → format_agent_nickname m count ∈ used_agent_nicknames r) ∧
       nickname_reset_count r' = (count + 1)%N ∧ used_agent_nicknames r' = {[n]} ∧
       ∃ m, m ∈ names ∧ n = format_agent_nickname m (count + 1)).
Proof.
  intros Hne. unfold reserve_agent_nickname. rewrite (proj2 (is_empty_false names) Hne).
  set (avail := List.filter _ _).
  assert (∀ n, n ∈ avail ↔ (n ∉ used_agent_nicknames r) ∧
    ∃ m, m ∈ names ∧ n = format_agent_nickname m (nickname_reset_count r)) as Hav.
  { intros n. unfold avail. rewrite list_elem_of_In, filter_In, <-list_elem_of_In, list_elem_of_fmap.
    rewrite negb_true_iff, bool_decide_eq_false. naive_solver. }
  destruct (choose pick avail) as [n|] eqn:E.
  - apply choose_Some, Hav in E as [Hn Hm]. eexists _, n. cbn. split; [done|]. split; [set_solver|].
    split; [done|]. split; [done|]. left. split; [done|]. split; [done|]. split; [set_solver|done].
  - apply choose_None in E. destruct (choose pick names) as [n|] eqn:En; [|by apply choose_None in En].
    apply choose_Some in En. eexists _, _. cbn. split; [done|]. split; [set_solver|]. split; [done|].
    split; [done|]. right. split; [|split; [done|split; [set_solver|eauto]]].
    intros m Hm. destruct (decide (format_agent_nickname m (nickname_reset_count r) ∈ used_agent_nicknames r))
      as [|Hno]; [done|]. assert (format_agent_nickname m (nickname_reset_count r) ∈ avail) as Ha
      by (apply Hav; eauto). rewrite E in Ha. by apply not_elem_of_nil in Ha.
Qed.

Lemma nickname_fresh_witness :
  ∃ r' n, reserve_agent_nickname (λ _, 0) [lit "Ada"; lit "Alan"] None registry_default = (r', Some n).
Proof.
  destruct (nickname_fresh (λ _, 0) [lit "Ada"; lit "Alan"] registry_default) as (r' & n & H & _).
  - discriminate.
  - exists r', n. exact H.
Defined.
