(* ===== verification/AgentResidency.v ===== *)
(** * Resident sub-agents and running turns

    [core/src/agent/control/residency.rs]: how many sub-agents of the second version
    stay loaded, with the least recently used idle one unloaded to make room; and
    [core/src/agent/control/execution.rs]: how many of them run at a time.

    The residents are behind a lock that is not held while a candidate is examined and
    shut down, so the operations are split at the accesses; a lone task is also given
    as a function, [reserve_slot]. *)

From S2P Require Import Prelude RustStr.

(** ** Sessions and threads *)

Inductive MultiAgentVersion := Disabled | V1 | V2.

Inductive SubAgentSource :=
| Review
| Compact
| ThreadSpawn (parent_thread_id : N) (depth : Z) (agent_path agent_nickname agent_role : option str)
| SubMemoryConsolidation
| Other (label : str).

Inductive SessionSource :=
| Cli
| VSCode
| Exec
| Mcp
| Custom (label : str)
| Internal
| SubAgent (source : SubAgentSource)
| Unknown.

Inductive AgentStatus :=
| PendingInit
| Running
| Interrupted
| Completed (message : option str)
| Errored (message : str)
| Shutdown
| NotFound.

#[export] Instance MultiAgentVersion_eq_dec : EqDecision MultiAgentVersion.
Proof. solve_decision. Defined.

(** [i32] *)
Definition I32_MAX : Z := (2 ^ 31 - 1)%Z.

Definition session_depth (s : SessionSource) : Z :=
  match s with SubAgent (ThreadSpawn _ depth _ _ _) => depth | _ => 0 end.
Definition next_thread_spawn_depth (s : SessionSource) : Z := Z.min (session_depth s + 1) I32_MAX.
Definition exceeds_thread_spawn_depth_limit (depth max_depth : Z) : bool := (max_depth <? depth)%Z.

(** What the limits look at in a thread: its version and source, its status, whether
    a turn is active, whether mail is waiting, and whether it would shut down. *)
Record CodexThread := mkThread {
  multi_agent_version : option MultiAgentVersion;
  session_source : SessionSource;
  agent_status : AgentStatus;
  active_turn : bool;
  has_pending_mailbox_items : bool;
  shuts_down : bool;
}.

Definition is_v2_resident_session_source (s : SessionSource) : bool :=
  match s with SubAgent _ => true | _ => false end.

Definition is_resident_candidate (t : CodexThread) : bool :=
  bool_decide (multi_agent_version t = Some V2) && is_v2_resident_session_source (session_source t).

Definition is_idle (s : AgentStatus) : bool :=
  match s with Completed _ | Errored _ | Interrupted => true | _ => false end.

Definition is_unloadable (t : CodexThread) : bool :=
  is_idle (agent_status t) && negb (active_turn t) && negb (has_pending_mailbox_items t).

(** ** The residents (residency.rs) *)

Record V2ResidencyState := mkResidency {
  residents : list N;
  pending_slots : N;
}.
Definition residency_default : V2ResidencyState := mkResidency [] 0.

Definition on_residents (f : list N → list N) (s : V2ResidencyState) : V2ResidencyState :=
  mkResidency (f (residents s)) (pending_slots s).

Definition retain_other (thread_id : N) (q : list N) : list N :=
  List.filter (λ t, negb (t =? thread_id)%N) q.
Definition touch_resident (thread_id : N) (q : list N) : list N :=
  retain_other thread_id q ++ [thread_id].

Definition touch (thread_id : N) : V2ResidencyState → V2ResidencyState :=
  on_residents (touch_resident thread_id).
Definition remove (thread_id : N) : V2ResidencyState → V2ResidencyState :=
  on_residents (retain_other thread_id).

Definition try_reserve_pending_slot (capacity : N) (s : V2ResidencyState) : V2ResidencyState * bool :=
  if (capacity <=? sat_add (N.of_nat (length (residents s))) (pending_slots s))%N then (s, false)
  else (mkResidency (residents s) (pending_slots s + 1)%N, true).
Definition release_pending_slot (s : V2ResidencyState) : V2ResidencyState :=
  mkResidency (residents s) (sat_sub (pending_slots s) 1).
Definition commit_slot (thread_id : N) (s : V2ResidencyState) : V2ResidencyState :=
  mkResidency (touch_resident thread_id (residents s)) (sat_sub (pending_slots s) 1).

Fixpoint pop_front_unprotected (n : nat) (protected : option N) (q : list N) : list N * option N :=
  match n, q with
  | S n, c :: q =>
      if bool_decide (Some c = protected) then pop_front_unprotected n protected (q ++ [c])
      else (q, Some c)
  | _, _ => (q, None)
  end.
Definition pop_lru_candidate (protected : option N) (s : V2ResidencyState) : V2ResidencyState * option N :=
  let '(q, c) := pop_front_unprotected (length (residents s)) protected (residents s) in
  (mkResidency q (pending_slots s), c).

(** ** A task that is not interrupted *)

Fixpoint scan (n : nat) (protected : option N) (s : V2ResidencyState) (ts : gmap N CodexThread)
    : V2ResidencyState * gmap N CodexThread * bool :=
  match n with
  | 0 => (s, ts, false)
  | S n =>
      match pop_lru_candidate protected s with
      | (s, None) => (s, ts, false)
      | (s, Some c) =>
          match opt_filter is_resident_candidate (ts !! c) with
          | None => scan n protected s ts
          | Some t =>
              if negb (is_unloadable t) then scan n protected (touch c s) ts
              else if negb (shuts_down t) then scan n protected (touch c s) ts
              else (s, delete c ts, true)
          end
      end
  end.
Definition try_unload_one_resident (protected : option N) (s : V2ResidencyState) (ts : gmap N CodexThread) :=
  scan (length (residents s)) protected s ts.

(** [AgentLimitReached { max_threads }] is the error. *)
Fixpoint reserve_loop (fuel : nat) (capacity : N) (protected : option N) (s : V2ResidencyState)
    (ts : gmap N CodexThread) : option (V2ResidencyState * gmap N CodexThread * result N unit) :=
  match fuel with
  | 0 => None
  | S fuel =>
      match try_reserve_pending_slot capacity s with
      | (s, true) => Some (s, ts, Ok ())
      | (s, false) =>
          match try_unload_one_resident protected s ts with
          | (s, ts, true) => reserve_loop fuel capacity protected s ts
          | (s, ts, false) => Some (s, ts, Err capacity)
          end
      end
  end.

(** Every turn of the loop unloads a resident, so that the number of residents is
    enough. *)
Definition reserve_slot (capacity : N) (protected : option N) (s : V2ResidencyState)
    (ts : gmap N CodexThread) : option (V2ResidencyState * gmap N CodexThread * result N unit) :=
  reserve_loop (S (length (residents s))) capacity protected s ts.

(** ** Interleaved tasks *)

(** Where a task is: idle, in [reserve_slot] (before a try, before counting, before a
    scan of [n] more candidates, with a candidate taken out, having seen that it is a
    loaded candidate, that it is idle, that it has no turn, that it may be unloaded, that
    it was shut down), with a slot, or refused. *)
Inductive Pc :=
| RIdle
| RTry (capacity : N) (protected : option N)
| RCount (capacity : N) (protected : option N)
| RScan (n : nat) (capacity : N) (protected : option N)
| RPopped (n : nat) (capacity : N) (protected : option N) (c : N)
| RLoaded (n : nat) (capacity : N) (protected : option N) (c : N)
| RStatus (n : nat) (capacity : N) (protected : option N) (c : N)
| RTurn (n : nat) (capacity : N) (protected : option N) (c : N)
| RUnload (n : nat) (capacity : N) (protected : option N) (c : N)
| RDown (capacity : N) (protected : option N) (c : N)
| RSlot
| RLimit (capacity : N).

Definition popped_by (pc : Pc) : option N :=
  match pc with
  | RPopped _ _ _ c | RLoaded _ _ _ c | RStatus _ _ _ c | RTurn _ _ _ c | RUnload _ _ _ c => Some c
  | _ => None
  end.

(** The threads taken out of the residents that may be put back. *)
Definition popped (pcs : list Pc) : list N := omap popped_by pcs.

Record System := mkSystem {
  residency : V2ResidencyState;
  threads : gmap N CodexThread;
}.
Definition with_residency (s : V2ResidencyState) (x : System) : System := mkSystem s (threads x).
Definition on_residency (f : V2ResidencyState → V2ResidencyState) (x : System) : System :=
  mkSystem (f (residency x)) (threads x).

Inductive pc_step : System → Pc → System → Pc → Prop :=
| step_start x capacity protected : pc_step x RIdle x (RTry capacity protected)
| step_try x capacity protected s ok :
    try_reserve_pending_slot capacity (residency x) = (s, ok) →
    pc_step x (RTry capacity protected) (with_residency s x)
      (if ok then RSlot else RCount capacity protected)
| step_count x capacity protected :
    pc_step x (RCount capacity protected) x (RScan (length (residents (residency x))) capacity protected)
| step_scanned x capacity protected : pc_step x (RScan 0 capacity protected) x (RLimit capacity)
| step_pop x n capacity protected s c :
    pop_lru_candidate protected (residency x) = (s, Some c) →
    pc_step x (RScan (S n) capacity protected) (with_residency s x) (RPopped n capacity protected c)
| step_pop_none x n capacity protected s :
    pop_lru_candidate protected (residency x) = (s, None) →
    pc_step x (RScan (S n) capacity protected) (with_residency s x) (RLimit capacity)
| step_stale x n capacity protected c :
    opt_filter is_resident_candidate (threads x !! c) = None →
    pc_step x (RPopped n capacity protected c) x (RScan n capacity protected)
| step_loaded x n capacity protected c t :
    opt_filter is_resident_candidate (threads x !! c) = Some t →
    pc_step x (RPopped n capacity protected c) x (RLoaded n capacity protected c)
| step_status x n capacity protected c t :
    threads x !! c = Some t →
    pc_step x (RLoaded n capacity protected c)
      (if is_idle (agent_status t) then x else on_residency (touch c) x)
      (if is_idle (agent_status t) then RStatus n capacity protected c else RScan n capacity protected)
| step_turn x n capacity protected c t :
    threads x !! c = Some t →
    pc_step x (RStatus n capacity protected c)
      (if active_turn t then on_residency (touch c) x else x)
      (if active_turn t then RScan n capacity protected else RTurn n capacity protected c)
| step_mail x n capacity protected c t :
    threads x !! c = Some t →
    pc_step x (RTurn n capacity protected c)
      (if has_pending_mailbox_items t then on_residency (touch c) x else x)
      (if has_pending_mailbox_items t then RScan n capacity protected else RUnload n capacity protected c)
| step_shutdown x n capacity protected c t :
    threads x !! c = Some t →
    pc_step x (RUnload n capacity protected c)
      (if shuts_down t then x else on_residency (touch c) x)
      (if shuts_down t then RDown capacity protected c else RScan n capacity protected)
(* The thread of the handle was removed from the table meanwhile: any answer. *)
| step_gone x pc n capacity protected c pc' :
    threads x !! c = None → pc = RLoaded n capacity protected c ∨ pc = RStatus n capacity protected c ∨
    pc = RTurn n capacity protected c ∨ pc = RUnload n capacity protected c →
    pc' = RScan n capacity protected → pc_step x pc (on_residency (touch c) x) pc'
| step_gone_on x pc n capacity protected c pc' :
    threads x !! c = None →
    (pc = RLoaded n capacity protected c ∧ pc' = RStatus n capacity protected c) ∨
    (pc = RStatus n capacity protected c ∧ pc' = RTurn n capacity protected c) ∨
    (pc = RTurn n capacity protected c ∧ pc' = RUnload n capacity protected c) ∨
    (pc = RUnload n capacity protected c ∧ pc' = RDown capacity protected c) →
    pc_step x pc x pc'
| step_removed x capacity protected c :
    pc_step x (RDown capacity protected c) (mkSystem (residency x) (delete c (threads x)))
      (RTry capacity protected)
| step_commit x thread_id : pc_step x RSlot (on_residency (commit_slot thread_id) x) RIdle
| step_release x : pc_step x RSlot (on_residency release_pending_slot x) RIdle
| step_forget x thread_id : pc_step x RIdle (on_residency (remove thread_id) x) RIdle.

(** Tasks are started, threads change on their own, and a loaded thread is touched
    ([touch_loaded_v2_residency]) when [may_touch] permits. *)
Section System.
Context (may_touch : V2ResidencyState → list Pc → N → Prop).

Inductive sys_step : System * list Pc → System * list Pc → Prop :=
| sys_spawn x pcs : sys_step (x, pcs) (x, pcs ++ [RIdle])
| sys_threads x pcs ts : sys_step (x, pcs) (mkSystem (residency x) ts, pcs)
| sys_touch x pcs thread_id :
    is_Some (opt_filter is_resident_candidate (threads x !! thread_id)) →
    may_touch (residency x) pcs thread_id →
    sys_step (x, pcs) (on_residency (touch thread_id) x, pcs)
| sys_task x pcs i pc x' pc' :
    pcs !! i = Some pc → pc_step x pc x' pc' → sys_step (x, pcs) (x', <[i := pc']> pcs).
End System.

Definition initial : System * list Pc := (mkSystem residency_default ∅, []).

(** ** Turns that run (execution.rs) *)

Record AgentExecutionLimiter := mkLimiter {
  active : N;
  max_threads_cell : option N;
}.
Definition initialize (max_threads : N) (l : AgentExecutionLimiter) : AgentExecutionLimiter :=
  match max_threads_cell l with
  | Some _ => l
  | None => mkLimiter (active l) (Some max_threads)
  end.
Definition max_threads (l : AgentExecutionLimiter) : N := default USIZE_MAX (max_threads_cell l).
Definition has_capacity (l : AgentExecutionLimiter) : bool := (active l <? max_threads l)%N.
(** [fetch_add] and [fetch_sub] wrap around. *)
Definition guard (l : AgentExecutionLimiter) : AgentExecutionLimiter :=
  mkLimiter ((active l + 1) mod (USIZE_MAX + 1))%N (max_threads_cell l).
Definition drop_guard (l : AgentExecutionLimiter) : AgentExecutionLimiter :=
  mkLimiter ((active l + USIZE_MAX) mod (USIZE_MAX + 1))%N (max_threads_cell l).

Definition is_execution_limited (v : MultiAgentVersion) (s : SessionSource) : bool :=
  bool_decide (v = V2) && match s with SubAgent _ => true | _ => false end.

Definition ensure_execution_capacity (v : MultiAgentVersion) (s : SessionSource)
    (l : AgentExecutionLimiter) : result N unit :=
  if negb (is_execution_limited v s) then Ok ()
  else if has_capacity l then Ok () else Err (max_threads l).

(** A turn of a thread: asked for, admitted, running with or without a guard. *)
Inductive Turn :=
| TIdle
| TAdmitted
| TRunning (guarded : bool).

Inductive turn_step (v : MultiAgentVersion) (src : SessionSource)
    : AgentExecutionLimiter → Turn → AgentExecutionLimiter → Turn → Prop :=
| turn_admit l : ensure_execution_capacity v src l = Ok () → turn_step v src l TIdle l TAdmitted
| turn_start l :
    turn_step v src l TAdmitted (if is_execution_limited v src then guard l else l)
      (TRunning (is_execution_limited v src))
| turn_end l (guarded : bool) :
    turn_step v src l (TRunning guarded) (if guarded then drop_guard l else l) TIdle.

(** The threads of a session, each with its version and its source. *)
Inductive turns_step (kinds : list (MultiAgentVersion * SessionSource))
    : AgentExecutionLimiter * list Turn → AgentExecutionLimiter * list Turn → Prop :=
| turns_initialize l ts n : turns_step kinds (l, ts) (initialize n l, ts)
| turns_task l ts i v src t l' t' :
    kinds !! i = Some (v, src) → ts !! i = Some t → turn_step v src l t l' t' →
    turns_step kinds (l, ts) (l', <[i := t']> ts).

(** ** The queue of residents *)

Implicit Types (q : list N) (pcs : list Pc) (ts : gmap N CodexThread) (s : V2ResidencyState).

Lemma elem_of_retain_other t c q : t ∈ retain_other c q ↔ t ∈ q ∧ t ≠ c.
Proof.
  unfold retain_other. rewrite list_elem_of_In, filter_In, <-list_elem_of_In.
  by rewrite negb_true_iff, N.eqb_neq.
Qed.

Lemma NoDup_list_filter {A} (p : A → bool) l : NoDup l → NoDup (List.filter p l).
Proof. rewrite !NoDup_ListNoDup. apply List.NoDup_filter. Qed.

Lemma NoDup_touch c q : NoDup q → NoDup (touch_resident c q).
Proof.
  intros Hq. unfold touch_resident. apply NoDup_app. split; [by apply NoDup_list_filter|].
  split; [|apply NoDup_singleton]. intros t Ht%elem_of_retain_other Hc%list_elem_of_singleton. naive_solver.
Qed.

Lemma retain_other_new c q : c ∉ q → retain_other c q = q.
Proof.
  unfold retain_other. induction q as [|t q IH]; cbn; [done|]. intros [Hne Hq]%not_elem_of_cons.
  rewrite (proj2 (N.eqb_neq t c)) by done. cbn. by rewrite IH.
Qed.

Lemma touch_new c q : c ∉ q → touch_resident c q = q ++ [c].
Proof. intros Hc. unfold touch_resident. by rewrite retain_other_new. Qed.

Lemma pop_front_spec n protected q1 q2 q' o :
  length q1 = n → pop_front_unprotected n protected (q1 ++ q2) = (q', o) →
  match o with
  | Some c => ∃ pre post, q1 = pre ++ c :: post ∧ Forall (λ t, Some t = protected) pre ∧
                Some c ≠ protected ∧ q' = post ++ q2 ++ pre
  | None => Forall (λ t, Some t = protected) q1 ∧ q' = q2 ++ q1
  end.
Proof.
  revert q1 q2. induction n as [|n IH]; intros [|c q1] q2 Hn H; try discriminate Hn; cbn in H.
  { injection H as <- <-. rewrite app_nil_r. by split; [constructor|]. }
  case_bool_decide as Hc.
  - rewrite <-app_assoc in H. apply IH in H; [|by injection Hn]. destruct o as [c'|].
    + destruct H as (pre & post & -> & Hpre & Hc' & ->). exists (c :: pre), post.
      split; [done|]. split; [by constructor|]. split; [done|]. by rewrite <-!app_assoc.
    + destruct H as [Hq ->]. split; [by constructor|]. by rewrite <-app_assoc.
  - injection H as <- <-. exists [], q1. rewrite app_nil_r. by split.
Qed.

(** What a pop does, in the order of the queue. *)
Lemma pop_spec protected s s' o :
  pop_lru_candidate protected s = (s', o) →
  pending_slots s' = pending_slots s ∧
  match o with
  | Some c => ∃ pre post, residents s = pre ++ c :: post ∧ Forall (λ t, Some t = protected) pre ∧
                Some c ≠ protected ∧ residents s' = post ++ pre
  | None => Forall (λ t, Some t = protected) (residents s) ∧ residents s' = residents s
  end.
Proof.
  unfold pop_lru_candidate. destruct (pop_front_unprotected _ _ _) as [q o'] eqn:E. intros [= <- <-].
  split; [done|]. rewrite <-(app_nil_r (residents s)) in E at 2. by apply pop_front_spec in E.
Qed.

Lemma pop_perm protected s s' c :
  pop_lru_candidate protected s = (s', Some c) → residents s ≡ₚ c :: residents s'.
Proof. intros (_ & pre & post & -> & _ & _ & ->)%pop_spec. by rewrite <-Permutation_middle, Permutation_app_comm. Qed.

(** ** A lone reservation *)

Section Alone.
Context (protected : option N).

Definition stale ts (c : N) : bool :=
  negb (opt_is_some (opt_filter is_resident_candidate (ts !! c))).

(** What a scan may unload. *)
Definition evictable ts (c : N) : bool :=
  negb (bool_decide (Some c = protected)) &&
  match opt_filter is_resident_candidate (ts !! c) with
  | Some t => is_unloadable t && shuts_down t
  | None => false
  end.

Lemma evictable_protected ts l :
  Forall (λ t, Some t = protected) l → List.filter (evictable ts) l = [].
Proof.
  induction 1 as [|t l Ht _ IH]; [done|]. cbn. unfold evictable at 1. by rewrite bool_decide_true.
Qed.

Lemma filter_rotate ts pre c post :
  Forall (λ t, Some t = protected) pre →
  List.filter (evictable ts) (pre ++ c :: post) =
  List.filter (evictable ts) [c] ++ List.filter (evictable ts) (post ++ pre).
Proof.
  intros Hpre. rewrite !List.filter_app, (evictable_protected ts pre Hpre), app_nil_r. cbn.
  by destruct (evictable ts c).
Qed.

(** The part of the queue that is still to be scanned. *)
Lemma rotate_front ts front back pre c post n :
  front ++ back = pre ++ c :: post → length front ≤ S n →
  List.filter (evictable ts) back = [] → Forall (λ t, Some t = protected) pre →
  ∃ f b, post ++ pre = f ++ b ∧ length f ≤ n ∧ List.filter (evictable ts) b = [].
Proof.
  intros E Hn Hback Hpre. apply app_eq_inv in E as [(k & -> & E)|(k & -> & ->)].
  - destruct k as [|c' k]; cbn in E; [|injection E as <- ->].
    + exists [], (post ++ pre). cbn in E. subst back. split; [done|]. split; [cbn; lia|].
      rewrite List.filter_app, (evictable_protected ts pre Hpre), app_nil_r. cbn in Hback.
      by destruct (evictable ts c).
    + exists k, (back ++ pre). split; [by rewrite app_assoc|]. split.
      * rewrite length_app in Hn. cbn in Hn. lia.
      * by rewrite List.filter_app, Hback, (evictable_protected ts pre Hpre).
  - exists [], (post ++ front ++ k). split; [done|]. split; [cbn; lia|].
    rewrite List.filter_app, (evictable_protected ts _ Hpre), app_nil_r.
    rewrite List.filter_app in Hback. apply app_nil in Hback as [_ Hback]. cbn in Hback.
    by destruct (evictable ts c).
Qed.

Definition gone ts (c : N) : Prop := stale ts c = true ∧ Some c ≠ protected.

Definition scanned s ts s' ts' (b : bool) : Prop :=
  pending_slots s' = pending_slots s ∧ NoDup (residents s') ∧
  ∃ lost, Forall (gone ts) lost ∧
    if b then ∃ c, residents s ≡ₚ lost ++ c :: residents s' ∧ ts' = delete c ts ∧
                List.filter (evictable ts) (residents s) = c :: List.filter (evictable ts) (residents s')
    else residents s ≡ₚ lost ++ residents s' ∧ ts' = ts ∧
      List.filter (evictable ts) (residents s) = [] ∧ List.filter (evictable ts) (residents s') = [].

Lemma scanned_drop s s1 c ts s' ts' b :
  pending_slots s1 = pending_slots s → residents s ≡ₚ c :: residents s1 → gone ts c →
  List.filter (evictable ts) (residents s) = List.filter (evictable ts) (residents s1) →
  scanned s1 ts s' ts' b → scanned s ts s' ts' b.
Proof.
  intros Hp Hq Hc Hf (H1 & H2 & lost & H3 & H4). split; [congruence|]. split; [done|].
  exists (c :: lost). split; [by constructor|]. destruct b.
  - destruct H4 as (c' & H4 & H5 & H6). exists c'. rewrite Hf. split; [by rewrite Hq, H4|done].
  - destruct H4 as (H4 & H5 & H6 & H7). rewrite Hf. split; [by rewrite Hq, H4|done].
Qed.

Lemma scanned_perm s s1 ts s' ts' b :
  pending_slots s1 = pending_slots s → residents s ≡ₚ residents s1 →
  List.filter (evictable ts) (residents s) = List.filter (evictable ts) (residents s1) →
  scanned s1 ts s' ts' b → scanned s ts s' ts' b.
Proof.
  intros Hp Hq Hf (H1 & H2 & lost & H3 & H4). split; [congruence|]. split; [done|].
  exists lost. split; [done|]. destruct b.
  - destruct H4 as (c' & H4 & H5 & H6). exists c'. rewrite Hf. split; [by rewrite Hq|done].
  - destruct H4 as (H4 & H5 & H6 & H7). rewrite Hf. split; [by rewrite Hq|done].
Qed.

Lemma scan_spec n s ts front back s' ts' b :
  scan n protected s ts = (s', ts', b) → NoDup (residents s) → residents s = front ++ back →
  length front ≤ n → List.filter (evictable ts) back = [] → scanned s ts s' ts' b.
Proof.
  revert s front back. induction n as [|n IH]; intros s front back H Hnd Hq Hn Hback; cbn in H.
  { injection H as <- <- <-. destruct front; [|cbn in Hn; lia]. cbn in Hq. subst back.
    split; [done|]. split; [done|]. by exists []. }
  destruct (pop_lru_candidate protected s) as [s1 [c|]] eqn:Epop; pose proof (pop_spec _ _ _ _ Epop) as [Hp Hpop].
  2:{ injection H as <- <- <-. destruct Hpop as [Hall E]. split; [done|]. rewrite E. split; [done|].
      exists []. split; [constructor|]. split; [done|]. split; [done|].
      split; by apply evictable_protected. }
  pose proof (pop_perm _ _ _ _ Epop) as Hperm. destruct Hpop as (pre & post & Epre & Hpre & Hc & Es1).
  assert ((c ∉ residents s1) ∧ NoDup (residents s1)) as [Hnew Hnd1].
  { rewrite Hperm in Hnd. by apply NoDup_cons in Hnd. }
  pose proof (filter_rotate ts pre c post Hpre) as Hf. rewrite <-Epre, <-Es1 in Hf.
  rewrite Epre in Hq. symmetry in Hq. destruct (rotate_front ts _ _ _ _ _ n Hq Hn Hback Hpre) as (f & b' & Efb & Hlen & Hb').
  rewrite <-Es1 in Efb.
  destruct (opt_filter is_resident_candidate (ts !! c)) as [t|] eqn:Et.
  2:{ assert (evictable ts c = false) as Hev by (unfold evictable; by rewrite Et, andb_false_r).
      apply (scanned_drop s s1 c); [done|done|split; [unfold stale; by rewrite Et|done]| |by eapply IH].
      rewrite Hf. cbn. by rewrite Hev. }
  assert (evictable ts c = is_unloadable t && shuts_down t) as Hev.
  { unfold evictable. rewrite Et, bool_decide_false by done. done. }
  assert (is_unloadable t && shuts_down t = false → scan n protected (touch c s1) ts = (s', ts', b) →
    scanned s ts s' ts' b) as Htouch.
  { intros Hno Hscan. rewrite Hno in Hev. apply (scanned_perm s (touch c s1)); cbn [residents touch on_residents];
      rewrite ?(touch_new _ _ Hnew).
    - done.
    - rewrite Hperm. by rewrite Permutation_app_comm.
    - rewrite Hf, List.filter_app. cbn. rewrite Hev, app_nil_r. done.
    - apply (IH _ f (b' ++ [c]) Hscan); cbn [residents touch on_residents]; rewrite ?(touch_new _ _ Hnew).
      + rewrite Permutation_app_comm. by constructor.
      + by rewrite Efb, app_assoc.
      + done.
      + rewrite List.filter_app, Hb'. cbn. by rewrite Hev. }
  destruct (is_unloadable t); cbn [negb] in H; [|by apply Htouch].
  destruct (shuts_down t); cbn [negb] in H; [|by apply Htouch].
  injection H as <- <- <-. split; [done|]. split; [done|]. exists []. split; [constructor|].
  exists c. split; [done|]. split; [done|]. rewrite Hf. cbn. by rewrite Hev.
Qed.

Lemma evictable_delete ts c t : t ≠ c → evictable (delete c ts) t = evictable ts t.
Proof. intros Hne. unfold evictable. by rewrite lookup_delete_ne. Qed.

Lemma filter_residents_delete ts c l :
  c ∉ l → List.filter (evictable (delete c ts)) l = List.filter (evictable ts) l.
Proof.
  intros Hc. apply filter_ext_in. intros t Ht%list_elem_of_In. apply evictable_delete. by intros ->.
Qed.

Lemma try_reserve_spec capacity s :
  (capacity <= USIZE_MAX)%N →
  let n := (N.of_nat (length (residents s)) + pending_slots s)%N in
  ((n < capacity)%N ∧ try_reserve_pending_slot capacity s = (mkResidency (residents s) (pending_slots s + 1), true)) ∨
  ((capacity <= n)%N ∧ try_reserve_pending_slot capacity s = (s, false)).
Proof.
  intros Hcap n. unfold try_reserve_pending_slot, sat_add. fold n.
  destruct (N.leb_spec capacity (N.min n USIZE_MAX)); [right|left]; (split; [lia|done]).
Qed.

(** Unloadings of [out], one after the other: before each of them there was no room,
    and each took the first resident of the queue that could be unloaded, forgetting
    only residents that are no longer loaded. *)
Definition no_room capacity s : Prop :=
  (capacity <= N.of_nat (length (residents s)) + pending_slots s)%N.
Inductive unloadings (capacity : N) :
    V2ResidencyState → gmap N CodexThread → list N → V2ResidencyState → gmap N CodexThread → Prop :=
| unloadings_nil s ts : unloadings capacity s ts [] s ts
| unloadings_cons s ts c lost s1 out s' ts' :
    no_room capacity s → pending_slots s1 = pending_slots s → Forall (gone ts) lost →
    residents s ≡ₚ lost ++ c :: residents s1 →
    List.filter (evictable ts) (residents s) = c :: List.filter (evictable ts) (residents s1) →
    unloadings capacity s1 (delete c ts) out s' ts' →
    unloadings capacity s ts (c :: out) s' ts'.

(** What a reservation that is not interfered with has done: the unloadings of [out]
    lead to a state with room, where it takes a slot, or to one without, where a scan
    finds nothing to unload. *)
Definition reserved capacity s ts s' ts' (r : result N unit) : Prop :=
  ∃ lost out, (∃ s1, unloadings capacity s ts out s1 ts' ∧
      match r with
      | Ok _ => ¬ no_room capacity s1 ∧ s' = mkResidency (residents s1) (pending_slots s1 + 1)
      | Err _ => no_room capacity s1 ∧ scanned s1 ts' s' ts' false
      end) ∧
    residents s ≡ₚ lost ++ out ++ residents s' ∧ Forall (gone ts) lost ∧
    List.filter (evictable ts) (residents s) = out ++ List.filter (evictable ts) (residents s') ∧
    (∀ t, ts' !! t = if bool_decide (t ∈ out) then None else ts !! t) ∧
    match r with
    | Ok _ => pending_slots s' = (pending_slots s + 1)%N ∧
        (N.of_nat (length (residents s')) + pending_slots s' <= capacity)%N
    | Err e => e = capacity ∧ pending_slots s' = pending_slots s ∧
        List.filter (evictable ts) (residents s') = []
    end.

Lemma reserved_after_eviction capacity s ts s1 lost c s' ts' r :
  NoDup (residents s) → no_room capacity s → pending_slots s1 = pending_slots s → Forall (gone ts) lost →
  residents s ≡ₚ lost ++ c :: residents s1 →
  List.filter (evictable ts) (residents s) = c :: List.filter (evictable ts) (residents s1) →
  reserved capacity s1 (delete c ts) s' ts' r → reserved capacity s ts s' ts' r.
Proof.
  intros Hnd Hroom Hp Hlost Hq Hf (lost' & out & (s2 & Hun & Hs2) & H1 & H2 & H3 & H4 & H5).
  assert (c ∉ lost' ++ out ++ residents s') as Hc.
  { rewrite Hq, H1 in Hnd. apply NoDup_app in Hnd as (_ & _ & Hnd). by apply NoDup_cons in Hnd as [? _]. }
  rewrite !not_elem_of_app in Hc. destruct Hc as (Hc1 & Hc2 & Hc3).
  exists (lost ++ lost'), (c :: out). split; [exists s2; split; [by eapply unloadings_cons|done]|].
  split; [|split; [|split; [|split]]].
  - rewrite Hq, H1, <-app_assoc. f_equiv. apply (Permutation_middle lost').
  - apply Forall_app_2; [done|]. apply Forall_forall. intros t Ht. rewrite Forall_forall in H2.
    specialize (H2 t Ht). unfold gone, stale in *. by rewrite lookup_delete_ne in H2 by (by intros ->).
  - rewrite Hf. cbn. f_equal. rewrite <-(filter_residents_delete ts c (residents s')) by done. rewrite <-H3.
    symmetry. apply filter_residents_delete. rewrite H1. by rewrite !not_elem_of_app.
  - intros t. rewrite H4. destruct (decide (t = c)) as [->|Hne].
    + rewrite (bool_decide_true (c ∈ c :: out)) by (by left). rewrite lookup_delete_eq. by case_bool_decide.
    + rewrite lookup_delete_ne by done.
      assert (bool_decide (t ∈ c :: out) = bool_decide (t ∈ out)) as ->; [|done].
      apply bool_decide_ext. rewrite elem_of_cons. naive_solver.
  - rewrite Hp in H5. by rewrite filter_residents_delete in H5.
Qed.

Lemma reserve_loop_spec fuel capacity s ts :
  (capacity <= USIZE_MAX)%N → NoDup (residents s) → length (residents s) < fuel →
  ∃ s' ts' r, reserve_loop fuel capacity protected s ts = Some (s', ts', r) ∧
    NoDup (residents s') ∧ reserved capacity s ts s' ts' r.
Proof.
  intros Hcap. revert s ts. induction fuel as [|fuel IH]; intros s ts Hnd Hfuel; [lia|]. cbn.
  assert (∀ t, ts !! t = if bool_decide (t ∈ []) then None else ts !! t) as Hnil.
  { intros t. rewrite bool_decide_false; [done|]. apply not_elem_of_nil. }
  destruct (try_reserve_spec capacity s Hcap) as [[Hlt ->]|[Hge ->]].
  { eexists _, _, _. split; [done|]. split; [done|]. exists [], []. cbn.
    split; [exists s; split; [constructor|]; unfold no_room; split; [lia|done]|].
    split; [done|]. split; [constructor|]. split; [done|]. split; [done|]. split; [done|]. lia. }
  unfold try_unload_one_resident. destruct (scan _ _ _ _) as [[s1 ts1] b] eqn:Escan.
  apply (scan_spec _ _ _ (residents s) []) in Escan as (Hp & Hnd1 & lost & Hlost & H);
    [|done|by rewrite app_nil_r|done|done]. destruct b.
  - destruct H as (c & Hq & -> & Hf). destruct (IH s1 (delete c ts)) as (s' & ts' & r & E & Hnd' & Hr); [done| |].
    { apply Permutation_length in Hq. rewrite length_app in Hq. cbn in Hq. lia. }
    exists s', ts', r. split; [done|]. split; [done|]. by eapply reserved_after_eviction.
  - destruct H as (Hq & -> & Hf & Hf'). eexists _, _, _. split; [done|]. split; [done|].
    exists lost, []. rewrite Hf'. split; [|by split]. exists s. split; [constructor|]. split; [done|].
    split; [done|]. split; [done|]. by exists lost.
Qed.
End Alone.

(** C38: a reservation that is not interfered with terminates, for any capacity of
    machine size and a residents' queue without repetitions, and keeps the bound.  It
    unloads residents one after the other: before each unloading there was no room
    (residents and pending slots reached the capacity), and each takes the least
    recently used resident that is idle and not protected.  It succeeds in the first
    state with room, with residents and pending slots within the capacity, and fails
    only in a state without room in which no resident can be unloaded.  The only other
    residents to leave the queue are those no longer loaded; the protected one stays. *)
Theorem reserve_slot_exact capacity protected s ts :
  (capacity <= USIZE_MAX)%N → NoDup (residents s) →
  ∃ s' ts' r, reserve_slot capacity protected s ts = Some (s', ts', r) ∧
    NoDup (residents s') ∧ reserved protected capacity s ts s' ts' r.
Proof. intros Hcap Hnd. apply reserve_loop_spec; [done|done|lia]. Qed.

Definition idle_thread : CodexThread := mkThread (Some V2) (SubAgent Review) (Completed None) false false true.
Definition busy_thread : CodexThread := mkThread (Some V2) (SubAgent Review) Running true false true.

Lemma reserve_slot_exact_witness :
  ∃ s' ts', reserve_slot 2 None (mkResidency [1; 2]%N 0) {[1%N := busy_thread; 2%N := idle_thread]} =
    Some (s', ts', Ok ()) ∧ NoDup (residents s') ∧ residents s' = [1%N].
Proof.
  destruct (reserve_slot_exact 2 None (mkResidency [1; 2]%N 0) {[1%N := busy_thread; 2%N := idle_thread]})
    as (s' & ts' & r & H & Hnd & _).
  - by vm_compute.
  - by apply (bool_decide_unpack _).
  - exists s', ts'. vm_compute in H. injection H as <- <- <-.
    split; [reflexivity|]. split; [exact Hnd|reflexivity].
Defined.

(** A resident that is no longer loaded is forgotten by the scan, which makes room, but
    the reservation is refused all the same. *)
Example stale_resident_refused :
  reserve_slot 1 None (mkResidency [7%N] 0) ∅ = Some (mkResidency [] 0, ∅, Err 1%N).
Proof. reflexivity. Qed.

(** ** Interleaved reservations *)

Definition slot (pc : Pc) : nat := match pc with RSlot => 1 | _ => 0 end.
Definition slots_held pcs : nat := sum_list_with slot pcs.

Definition resident_set s : gset N := list_to_set (residents s).
Definition popped_set (pcs : list Pc) : gset N := list_to_set (popped pcs).
Definition known s pcs : gset N := resident_set s ∪ popped_set pcs.
Definition popped_one (pc : Pc) : gset N := popped_set [pc].

(** What an access does to the residents, the pending slots and the candidates taken
    out. *)
Inductive effect s (pc : Pc) s' (pc' : Pc) : Prop :=
| effect_move :
    pending_slots s' = pending_slots s → slot pc = 0 → slot pc' = 0 →
    resident_set s' ∪ popped_one pc' ⊆ resident_set s ∪ popped_one pc → effect s pc s' pc'
| effect_reserve capacity protected :
    pc = RTry capacity protected → pc' = RSlot → residents s' = residents s →
    pending_slots s' = (pending_slots s + 1)%N →
    (sat_add (N.of_nat (length (residents s))) (pending_slots s) < capacity)%N → effect s pc s' pc'
| effect_finish t :
    pc = RSlot → pc' = RIdle → pending_slots s' = sat_sub (pending_slots s) 1 →
    resident_set s' ⊆ {[t]} ∪ resident_set s → effect s pc s' pc'.

Lemma touch_set t s : resident_set (touch t s) = {[t]} ∪ resident_set s.
Proof.
  unfold resident_set. cbn. unfold touch_resident. apply leibniz_equiv. intros x.
  rewrite elem_of_union, elem_of_singleton, !elem_of_list_to_set, elem_of_app, elem_of_retain_other,
    list_elem_of_singleton. destruct (decide (x = t)); naive_solver.
Qed.

Lemma remove_set t s : resident_set (remove t s) ⊆ resident_set s.
Proof.
  unfold resident_set. cbn. intros x. rewrite !elem_of_list_to_set, elem_of_retain_other. naive_solver.
Qed.

Lemma popped_one_Some pc c : popped_by pc = Some c → popped_one pc = {[c]}.
Proof. intros H. unfold popped_one, popped_set, popped. cbn. rewrite H. cbn. set_solver. Qed.

Lemma popped_one_None pc : popped_by pc = None → popped_one pc = ∅.
Proof. intros H. unfold popped_one, popped_set, popped. cbn. by rewrite H. Qed.

(** A candidate that is put back, kept out or given up. *)
Lemma effect_back s pc pc' c :
  popped_by pc = Some c → popped_by pc' = None → slot pc = 0 → slot pc' = 0 → effect s pc (touch c s) pc'.
Proof.
  intros H1 H2 H3 H4. apply effect_move; [done..|]. rewrite touch_set, (popped_one_Some _ _ H1), (popped_one_None _ H2).
  set_solver.
Qed.

Lemma effect_keep s pc pc' :
  (popped_by pc' = popped_by pc ∨ popped_by pc' = None) → slot pc = 0 → slot pc' = 0 → effect s pc s pc'.
Proof.
  intros H1 H2 H3. apply effect_move; [done..|]. destruct (popped_by pc') as [c|] eqn:E.
  - destruct H1 as [H1|]; [|done]. by rewrite (popped_one_Some pc c), (popped_one_Some pc' c).
  - rewrite (popped_one_None pc' E). set_solver.
Qed.

Lemma pc_step_effect x pc x' pc' : pc_step x pc x' pc' → effect (residency x) pc (residency x') pc'.
Proof.
  destruct 1 as [x cap p|x cap p s ok H|x cap p|x cap p|x n cap p s c H|x n cap p s H|x n cap p c H
    |x n cap p c t H|x n cap p c t H|x n cap p c t H|x n cap p c t H|x n cap p c t H|x pc n cap p c pc' H Hpc ->
    |x pc n cap p c pc' H Hpc|x cap p c|x t|x|x t]; try (by apply effect_keep; cbn; auto).
  - unfold try_reserve_pending_slot in H. destruct (N.leb_spec cap (sat_add (N.of_nat (length (residents (residency x)))) (pending_slots (residency x))));
      injection H as <- <-; [by apply effect_keep; cbn; auto|]. by eapply effect_reserve.
  - pose proof (pop_perm _ _ _ _ H) as Hp. apply pop_spec in H as [Hs _]. apply effect_move; [done..|].
    cbn [residency with_residency]. unfold resident_set. rewrite Hp, list_to_set_cons.
    rewrite (popped_one_Some (RPopped n cap p c) c), popped_one_None by done. set_solver.
  - apply pop_spec in H as [Hs [_ Hr]]. apply effect_move; [done..|]. cbn [residency with_residency]. unfold resident_set. by rewrite Hr.
  - destruct (is_idle (agent_status t)); [by apply effect_keep; cbn; auto|by apply effect_back].
  - destruct (active_turn t); [by apply effect_back|by apply effect_keep; cbn; auto].
  - destruct (has_pending_mailbox_items t); [by apply effect_back|by apply effect_keep; cbn; auto].
  - destruct (shuts_down t); [by apply effect_keep; cbn; auto|by apply effect_back].
  - by destruct Hpc as [->|[->|[->| ->]]]; apply effect_back.
  - by destruct Hpc as [[-> ->]|[[-> ->]|[[-> ->]|[-> ->]]]]; apply effect_keep; cbn; auto.
  - apply effect_finish with t; [done..|]. cbn [residency on_residency commit_slot].
    pose proof (touch_set t (residency x)) as E. unfold resident_set in *. cbn [residents] in *. by rewrite <-E.
  - apply effect_finish with 0%N; [done..|]. unfold resident_set. cbn. set_solver.
  - apply effect_move; [done..|]. pose proof (remove_set t (residency x)). set_solver.
Qed.

Lemma pc_step_NoDup x pc x' pc' :
  pc_step x pc x' pc' → NoDup (residents (residency x)) → NoDup (residents (residency x')).
Proof.
  destruct 1; intros Hnd; cbn [residency with_residency on_residency]; try done;
    try (case_match; first [done|by apply NoDup_touch]); try (by apply NoDup_touch).
  - unfold try_reserve_pending_slot in *. by case_match; simplify_eq.
  - match goal with H : pop_lru_candidate _ _ = _ |- _ => apply pop_perm in H as Hp end.
    rewrite Hp in Hnd. by apply NoDup_cons in Hnd as [_ ?].
  - match goal with H : pop_lru_candidate _ _ = _ |- _ => apply pop_spec in H as [_ [_ ->]] end. done.
  - by apply NoDup_list_filter.
Qed.

Lemma task_split pcs i pc :
  pcs !! i = Some pc → ∃ rest, pcs ≡ₚ pc :: rest ∧ ∀ pc', <[i := pc']> pcs ≡ₚ pc' :: rest.
Proof.
  intros Hi. exists (take i pcs ++ drop (S i) pcs). split.
  - rewrite <-(take_drop_middle pcs i pc Hi) at 1. by rewrite Permutation_middle.
  - intros pc'. rewrite insert_take_drop by (by eapply lookup_lt_Some). by rewrite Permutation_middle.
Qed.

Lemma slots_held_perm pcs pcs' : pcs ≡ₚ pcs' → slots_held pcs = slots_held pcs'.
Proof. intros H. unfold slots_held. by rewrite H. Qed.

Lemma popped_set_perm pcs pcs' : pcs ≡ₚ pcs' → popped_set pcs = popped_set pcs'.
Proof. intros H. unfold popped_set, popped. by rewrite H. Qed.

Lemma popped_set_cons pc pcs : popped_set (pc :: pcs) = popped_one pc ∪ popped_set pcs.
Proof.
  unfold popped_one, popped_set, popped. cbn. destruct (popped_by pc); cbn; set_solver.
Qed.

Lemma popped_set_size pcs : size (popped_set pcs) ≤ length pcs.
Proof.
  induction pcs as [|pc pcs IH]; [by vm_compute|]. rewrite popped_set_cons. cbn [length].
  pose proof (size_union_alt (popped_one pc) (popped_set pcs)) as E.
  assert (size (popped_one pc) ≤ 1).
  { destruct (popped_by pc) as [c|] eqn:Ec; [rewrite (popped_one_Some _ _ Ec), size_singleton
      |rewrite (popped_one_None _ Ec), size_empty]; lia. }
  assert (size (popped_set pcs ∖ popped_one pc) ≤ size (popped_set pcs)) by (apply subseteq_size; set_solver).
  lia.
Qed.

Lemma size_resident_set s : NoDup (residents s) → size (resident_set s) = length (residents s).
Proof. apply size_list_to_set. Qed.

(** ** Slots and the bound *)

Definition exact (x : System) pcs : Prop :=
  NoDup (residents (residency x)) ∧ pending_slots (residency x) = N.of_nat (slots_held pcs).

Lemma exact_task x pcs i pc x' pc' :
  exact x pcs → pcs !! i = Some pc → pc_step x pc x' pc' → exact x' (<[i := pc']> pcs).
Proof.
  intros [Hnd Hp] Hi Hs. split; [by eapply pc_step_NoDup|].
  destruct (task_split pcs i pc Hi) as (rest & E & E'). rewrite (slots_held_perm _ _ E) in Hp.
  rewrite (slots_held_perm _ _ (E' pc')). unfold slots_held in *. cbn [sum_list_with] in *.
  destruct (pc_step_effect _ _ _ _ Hs) as [H1 H2 H3 _|cap p -> -> _ H1 _|t -> -> H1 _];
    cbn [slot] in *; unfold sat_sub in *; lia.
Qed.

Lemma exact_step may x pcs y pcs' : exact x pcs → sys_step may (x, pcs) (y, pcs') → exact y pcs'.
Proof.
  intros [Hnd Hp] Hs. inversion Hs as [? ? E1 E2|? ? ts E1 E2|? ? t H1 H2 E1 E2|? ? i pc ? pc' Hi Hstep E1 E2]; subst.
  - split; [done|]. unfold slots_held in *. rewrite sum_list_with_app. cbn. by rewrite Nat.add_0_r.
  - done.
  - split; [by apply NoDup_touch|done].
  - by eapply exact_task.
Qed.

Lemma exact_initial : exact initial.1 initial.2.
Proof. split; [constructor|done]. Qed.

(** Whatever the interleaving of reservations, scans, commits and touches, no agent is
    resident twice and the pending slots are exactly the reservations that were neither
    committed nor dropped. *)
Theorem pending_slots_exact may x pcs :
  rtc (sys_step may) initial (x, pcs) →
  NoDup (residents (residency x)) ∧ pending_slots (residency x) = N.of_nat (slots_held pcs).
Proof.
  intros Hr. apply (rtc_ind_r (λ y, exact y.1 y.2) initial exact_initial) in Hr; [done|].
  clear x pcs Hr. intros [x pcs] [z pcs'] _ Hs IH. by eapply exact_step.
Qed.

(** Touches of residents and of candidates taken out; reservations of one capacity. *)
Definition tracked s pcs (t : N) : Prop := t ∈ known s pcs.
Definition asks (capacity : N) (pc : Pc) : Prop :=
  match pc with RTry c _ => c = capacity | _ => True end.
Definition tracked_step (capacity : N) (x y : System * list Pc) : Prop :=
  sys_step tracked x y ∧ Forall (asks capacity) y.2.

Definition bounded (capacity : N) (x : System) pcs : Prop :=
  (N.of_nat (size (known (residency x) pcs)) + pending_slots (residency x)
     <= capacity + N.of_nat (pred (length pcs)))%N.

Lemma bounded_task capacity x pcs i pc x' pc' :
  (capacity <= USIZE_MAX)%N → exact x pcs → bounded capacity x pcs → asks capacity pc →
  pcs !! i = Some pc → pc_step x pc x' pc' → bounded capacity x' (<[i := pc']> pcs).
Proof.
  intros Hcap [Hnd Hp] Hb Ha Hi Hs. unfold bounded, known in *. rewrite length_insert.
  destruct (task_split pcs i pc Hi) as (rest & E & E').
  rewrite (slots_held_perm _ _ E) in Hp. rewrite (popped_set_perm _ _ E), popped_set_cons in Hb.
  rewrite (popped_set_perm _ _ (E' pc')), popped_set_cons.
  apply Permutation_length in E. cbn [length] in E. rewrite E in *. cbn [pred] in *.
  unfold slots_held in Hp. cbn [sum_list_with] in Hp.
  destruct (pc_step_effect _ _ _ _ Hs) as [H1 H2 H3 Hsub|cap p -> -> Er H1 Hlt|t -> -> H1 Hsub].
  - assert (size (resident_set (residency x') ∪ (popped_one pc' ∪ popped_set rest))
      ≤ size (resident_set (residency x) ∪ (popped_one pc ∪ popped_set rest))) by (apply subseteq_size; set_solver).
    lia.
  - cbn in Ha. subst cap. rewrite (popped_one_None RSlot) by done.
    assert (size (resident_set (residency x') ∪ (∅ ∪ popped_set rest)) ≤ length (residents (residency x)) + length rest).
    { rewrite union_empty_l_L, size_union_alt. unfold resident_set. rewrite Er, size_list_to_set by done.
      pose proof (popped_set_size rest).
      assert (size (popped_set rest ∖ list_to_set (residents (residency x))) ≤ size (popped_set rest))
        by (apply subseteq_size; set_solver). lia. }
    unfold sat_add in Hlt. lia.
  - cbn [slot] in Hp. rewrite (popped_one_None RIdle) by done. rewrite (popped_one_None RSlot) in Hb by done.
    assert (size (resident_set (residency x') ∪ (∅ ∪ popped_set rest))
      ≤ S (size (resident_set (residency x) ∪ (∅ ∪ popped_set rest)))).
    { transitivity (size ({[t]} ∪ (resident_set (residency x) ∪ (∅ ∪ popped_set rest))));
        [apply subseteq_size; set_solver|].
      rewrite size_union_alt, size_singleton.
      assert (size ((resident_set (residency x) ∪ (∅ ∪ popped_set rest)) ∖ {[t]}) ≤
        size (resident_set (residency x) ∪ (∅ ∪ popped_set rest))) by (apply subseteq_size; set_solver). lia. }
    unfold sat_sub in H1. lia.
Qed.

Lemma bounded_step capacity x pcs y pcs' :
  (capacity <= USIZE_MAX)%N → exact x pcs → bounded capacity x pcs → Forall (asks capacity) pcs →
  sys_step tracked (x, pcs) (y, pcs') → bounded capacity y pcs'.
Proof.
  intros Hcap He Hb Ha Hs.
  inversion Hs as [? ? E1 E2|? ? ts E1 E2|? ? t H1 H2 E1 E2|? ? i pc ? pc' Hi Hstep E1 E2]; subst.
  - unfold bounded, known in *. rewrite length_app.
    assert (popped_set (pcs ++ [RIdle]) = popped_set pcs) as ->; [|cbn [length]; lia].
    unfold popped_set, popped. by rewrite omap_app, app_nil_r.
  - done.
  - unfold bounded, known, tracked, known in *. cbn [residency on_residency pending_slots touch on_residents].
    change (mkResidency (touch_resident t (residents (residency x))) (pending_slots (residency x)))
      with (touch t (residency x)). rewrite touch_set.
    replace ({[t]} ∪ resident_set (residency x) ∪ popped_set pcs') with (resident_set (residency x) ∪ popped_set pcs')
      by set_solver. done.
  - eapply bounded_task; try done. by apply (Forall_lookup_1 _ _ _ _ Ha Hi).
Qed.

(** Concurrent reservations of one capacity exceed it by less than the number of
    tasks: the residents, the candidates taken out and the pending slots are at most the
    capacity plus the tasks that may be scanning meanwhile; a single task never exceeds
    it. *)
Theorem residency_bounded capacity x pcs :
  (capacity <= USIZE_MAX)%N → rtc (tracked_step capacity) initial (x, pcs) →
  (N.of_nat (length (residents (residency x))) + pending_slots (residency x)
     <= capacity + N.of_nat (pred (length pcs)))%N.
Proof.
  intros Hcap Hr.
  assert (exact (x, pcs).1 (x, pcs).2 ∧ bounded capacity (x, pcs).1 (x, pcs).2 ∧
    Forall (asks capacity) (x, pcs).2) as ([Hnd _] & Hb & _).
  { revert Hr. generalize (x, pcs). clear x pcs. intros y.
    apply (rtc_ind_r (λ y, exact y.1 y.2 ∧ bounded capacity y.1 y.2 ∧ Forall (asks capacity) y.2)).
    - split; [apply exact_initial|]. split; [|constructor]. unfold bounded, known. vm_compute size. cbn. lia.
    - clear y. intros [x pcs] [z pcs'] _ [Hs Ha'] (He & Hb & Ha). split; [by eapply exact_step|]. split; [by eapply bounded_step|done]. }
  unfold bounded, known in Hb. cbn [fst snd] in *.
  assert (size (resident_set (residency x)) ≤ size (resident_set (residency x) ∪ popped_set pcs))
    by (apply subseteq_size; set_solver).
  rewrite size_resident_set in * by done. lia.
Qed.

(** ** Concrete runs *)

Lemma run_task capacity x pcs i pc x' pc' z :
  pcs !! i = Some pc → pc_step x pc x' pc' → Forall (asks capacity) (<[i := pc']> pcs) →
  rtc (tracked_step capacity) (x', <[i := pc']> pcs) z → rtc (tracked_step capacity) (x, pcs) z.
Proof. intros Hi Hs Ha. apply rtc_l. split; [by eapply sys_task|done]. Qed.

Lemma run_spawn capacity x pcs z :
  Forall (asks capacity) (pcs ++ [RIdle]) → rtc (tracked_step capacity) (x, pcs ++ [RIdle]) z →
  rtc (tracked_step capacity) (x, pcs) z.
Proof. intros Ha. apply rtc_l. split; [apply sys_spawn|done]. Qed.

Lemma run_threads capacity x pcs ts z :
  Forall (asks capacity) pcs → rtc (tracked_step capacity) (mkSystem (residency x) ts, pcs) z →
  rtc (tracked_step capacity) (x, pcs) z.
Proof. intros Ha. apply rtc_l. split; [apply sys_threads|done]. Qed.

Ltac run_step i tac := eapply (run_task _ _ _ i); [reflexivity|tac; reflexivity|by repeat constructor|cbn].

Definition raced : System := mkSystem (mkResidency [1%N] 1) {[1%N := busy_thread]}.

(** Two tasks and a capacity of one: while the first examines the only resident, which it
    took out of the queue, the second gets the slot, and then the first puts the resident
    back. *)
Lemma raced_run : rtc (tracked_step 1) initial (raced, [RLimit 1; RSlot]).
Proof.
  unfold initial. apply run_spawn; [by repeat constructor|]. cbn. apply run_spawn; [by repeat constructor|]. cbn.
  eapply (run_task _ _ _ 0); [reflexivity|apply (step_start _ 1 None)|by repeat constructor|cbn].
  run_step 0 ltac:(eapply step_try). eapply (run_task _ _ _ 0); [reflexivity|apply (step_commit _ 1)|by repeat constructor|cbn].
  eapply (run_threads _ _ _ {[1%N := busy_thread]}); [by repeat constructor|]. cbn [residency].
  eapply (run_task _ _ _ 0); [reflexivity|apply (step_start _ 1 None)|by repeat constructor|cbn].
  run_step 0 ltac:(eapply step_try). eapply (run_task _ _ _ 0); [reflexivity|apply step_count|by repeat constructor|cbn].
  run_step 0 ltac:(eapply step_pop).
  eapply (run_task _ _ _ 1); [reflexivity|apply (step_start _ 1 None)|by repeat constructor|cbn].
  run_step 1 ltac:(eapply step_try). run_step 0 ltac:(eapply step_loaded). run_step 0 ltac:(eapply step_status).
  eapply (run_task _ _ _ 0); [reflexivity|apply step_scanned|by repeat constructor|cbn].
  apply rtc_refl.
Qed.

(** Concurrent reservations can exceed the capacity. *)
Example capacity_exceeded :
  (1 < N.of_nat (length (residents (residency raced))) + pending_slots (residency raced))%N.
Proof. reflexivity. Qed.

Lemma residency_bounded_witness :
  (N.of_nat (length (residents (residency raced))) + pending_slots (residency raced) <= 1 + 1)%N.
Proof. exact (residency_bounded 1 raced [RLimit 1; RSlot] ltac:(vm_compute; discriminate) raced_run). Defined.

Lemma pending_slots_exact_witness :
  NoDup (residents (residency raced)) ∧ pending_slots (residency raced) = N.of_nat (slots_held [RLimit 1; RSlot]).
Proof.
  apply (pending_slots_exact tracked). apply (rtc_subrel (tracked_step 1)); [by intros x y [H _]|exact raced_run].
Defined.

(** ** Running turns *)

Definition guarded (t : Turn) : nat := match t with TRunning true => 1 | _ => 0 end.
Definition guards (turns : list Turn) : nat := sum_list_with guarded turns.

Lemma guards_insert (turns : list Turn) i t t' :
  turns !! i = Some t → guards (<[i := t']> turns) + guarded t = guards turns + guarded t'.
Proof.
  intros Hi. unfold guards. rewrite insert_take_drop by (by eapply lookup_lt_Some).
  rewrite <-(take_drop_middle turns i t Hi) at 3. rewrite !sum_list_with_app. cbn. lia.
Qed.

(** The counter of running sub-agents is the number of turns that hold a guard,
    whatever the order in which turns are admitted, start and end; and a turn is only
    refused when as many sub-agents as permitted are running. *)
Theorem active_turns_exact kinds (turns : list Turn) l :
  (N.of_nat (length turns) <= USIZE_MAX)%N → Forall (λ t, t = TIdle) turns →
  ∀ l' turns', rtc (turns_step kinds) (mkLimiter 0 l, turns) (l', turns') →
  active l' = N.of_nat (guards turns') ∧
  ∀ v src e, ensure_execution_capacity v src l' = Err e →
    is_execution_limited v src = true ∧ e = max_threads l' ∧ (max_threads l' <= N.of_nat (guards turns'))%N.
Proof.
  intros Hlen Hidle l' turns' Hr.
  assert (active (l', turns').1 = N.of_nat (guards (l', turns').2) ∧ length (l', turns').2 = length turns) as [Hact _].
  { revert Hr. generalize (l', turns'). intros y.
    apply (rtc_ind_r (λ y, active y.1 = N.of_nat (guards y.2) ∧ length y.2 = length turns)).
    - split; [|done]. cbn [fst snd active]. clear Hlen. induction Hidle as [|t turns -> _ IH]; [done|]. exact IH.
    - clear y. intros [l1 turns1] [l2 turns2] _ Hs [H1 H2]. cbn [fst snd] in *.
      inversion Hs as [? ? n E1 E2|? ? i v src t ? t' Hk Hi Hst E1 E2]; subst; cbn [fst snd] in *.
      + split; [|done]. unfold initialize. by destruct (max_threads_cell l1).
      + rewrite length_insert. split; [|done]. pose proof (guards_insert _ _ _ t' Hi) as Hg.
        assert (guards turns1 ≤ length turns1 ∧ guards (<[i := t']> turns1) ≤ length turns1) as [Hb1 Hb2].
        { assert (∀ turns : list Turn, guards turns ≤ length turns) as Hle.
          { intros turns0; induction turns0 as [|t0 turns0 IH]; [done|]. unfold guards in *. cbn. destruct t0 as [| |[]]; cbn; lia. }
          split; [apply Hle|]. rewrite <-(length_insert turns1 i t'). apply Hle. }
        destruct Hst as [l0|l0|l0 [|]]; [|destruct (is_execution_limited v src)| |]; cbn [active guard drop_guard guarded] in *.
        * lia.
        * rewrite N.mod_small; lia.
        * lia.
        * rewrite H1. replace (N.of_nat (guards turns1) + USIZE_MAX)%N
            with (N.of_nat (guards (<[i := TIdle]> turns1)) + 1 * (USIZE_MAX + 1))%N by lia.
          rewrite N.Div0.mod_add, N.mod_small; lia.
        * lia. }
  split; [done|]. intros v src e. unfold ensure_execution_capacity.
  destruct (is_execution_limited v src); cbn [negb]; [|done].
  unfold has_capacity. cbn [fst snd] in Hact. rewrite Hact. destruct (N.ltb_spec (N.of_nat (guards turns')) (max_threads l')); [done|].
  by intros [= <-].
Qed.

Lemma run_turn kinds l (turns : list Turn) i v src t l' t' z :
  kinds !! i = Some (v, src) → turns !! i = Some t → turn_step v src l t l' t' →
  rtc (turns_step kinds) (l', <[i := t']> turns) z → rtc (turns_step kinds) (l, turns) z.
Proof. intros Hk Hi Hs. apply rtc_l. by eapply turns_task. Qed.

Definition two_agents : list (MultiAgentVersion * SessionSource) := [(V2, SubAgent Review); (V2, SubAgent Review)].

(** Both turns are admitted before either takes its guard, so that two run although one
    is permitted. *)
Lemma limiter_race :
  rtc (turns_step two_agents) (mkLimiter 0 (Some 1%N), [TIdle; TIdle])
    (mkLimiter 2 (Some 1%N), [TRunning true; TRunning true]).
Proof.
  apply (run_turn _ _ _ 0 V2 (SubAgent Review) TIdle (mkLimiter 0 (Some 1%N)) TAdmitted);
    [done|done|by apply turn_admit|cbn].
  apply (run_turn _ _ _ 1 V2 (SubAgent Review) TIdle (mkLimiter 0 (Some 1%N)) TAdmitted);
    [done|done|by apply turn_admit|cbn].
  apply (run_turn _ _ _ 0 V2 (SubAgent Review) TAdmitted (mkLimiter 1 (Some 1%N)) (TRunning true));
    [done|done|apply turn_start|cbn].
  apply (run_turn _ _ _ 1 V2 (SubAgent Review) TAdmitted (mkLimiter 2 (Some 1%N)) (TRunning true));
    [done|done|apply turn_start|cbn].
  apply rtc_refl.
Qed.

Lemma active_turns_exact_witness :
  active (mkLimiter 2 (Some 1%N)) = N.of_nat (guards [TRunning true; TRunning true]).
Proof.
  destruct (active_turns_exact two_agents [TIdle; TIdle] (Some 1%N) ltac:(vm_compute; discriminate)
    ltac:(repeat constructor) _ _ limiter_race) as [H _].
  exact H.
Defined.
