(* ===== verification/EnvManager.v ===== *)
(** * The environment registry (codex-rs/exec-server/src/environment.rs)

    [EnvironmentManager] is the state shared by all threads of a session: the
    registered environments, the metadata [env_switch] recorded, and the
    per-thread cursors.  The file models every constructor and operation of the
    manager, the concrete [Environment]s, and the default provider
    (environment_provider.rs).

    Hash maps are finite maps; the order in which a hash map yields its keys is
    not specified, so it is the parameter [hash_keys], any permutation of the
    keys.  Locks are taken for the duration of one operation, so an operation is
    one atomic step; a session is a sequence of such steps ([mstep]). *)

From S2P Require Import Prelude.
From S2P Require Import RustStr.
From S2P Require Import Launcher.

(** ** Environments *)

Record StdioExecServerCommand := {
  program : str;
  args : list str;
  env : gmap str str;
  cmd_cwd : option str }.

(** Connection parameters.  A noise provider and its identity are opaque
    handles. *)
Inductive ExecServerTransportParams :=
| WebSocketUrl (websocket_url : str) (connect_timeout initialize_timeout : N)
| NoiseRendezvous (provider identity : str)
| StdioCommand (command : StdioExecServerCommand) (initialize_timeout : N).

(** A [Duration] is its number of nanoseconds. *)
Definition from_secs (n : N) : N := n * 1000000000.
Definition DEFAULT_REMOTE_EXEC_SERVER_CONNECT_TIMEOUT : N := from_secs 10.
Definition DEFAULT_REMOTE_EXEC_SERVER_INITIALIZE_TIMEOUT : N := from_secs 10.
Definition PROVISIONED_STDIO_INITIALIZE_TIMEOUT : N := from_secs 30.

Definition websocket_url (url : str) : ExecServerTransportParams :=
  WebSocketUrl url DEFAULT_REMOTE_EXEC_SERVER_CONNECT_TIMEOUT
    DEFAULT_REMOTE_EXEC_SERVER_INITIALIZE_TIMEOUT.

Record ExecServerRuntimePaths := {
  codex_self_exe : str;
  codex_linux_sandbox_exe : option str }.

(** The backends of an environment (info provider, processes, file system, HTTP
    client) are determined by its transport and runtime paths. *)
Record Environment := {
  exec_server_url : option str;
  remote_transport : option ExecServerTransportParams;
  env_runtime_paths : option ExecServerRuntimePaths }.

Definition env_default_for_tests : Environment :=
  {| exec_server_url := None; remote_transport := None; env_runtime_paths := None |}.

Definition env_local (paths : ExecServerRuntimePaths) : Environment :=
  {| exec_server_url := None; remote_transport := None; env_runtime_paths := Some paths |}.

Definition remote_with_transport (t : ExecServerTransportParams)
    (paths : option ExecServerRuntimePaths) : Environment :=
  {| exec_server_url :=
       match t with
       | WebSocketUrl url _ _ => Some url
       | NoiseRendezvous _ _ => None
       | StdioCommand _ _ => None
       end;
     remote_transport := Some t;
     env_runtime_paths := paths |}.

Definition remote_inner (url : str) (paths : option ExecServerRuntimePaths) : Environment :=
  remote_with_transport (websocket_url url) paths.

Definition is_remote (e : Environment) : bool := opt_is_some (remote_transport e).

(** [normalize_exec_server_url]: the URL, and whether environments are disabled. *)
Definition normalize_exec_server_url (url : option str) : option str * bool :=
  match trim <$> url with
  | None => (None, false)
  | Some u =>
      if is_empty u then (None, false)
      else if eq_ignore_ascii_case u (lit "none") then (None, true)
      else (Some u, false)
  end.

(** [ExecServerError::Protocol(msg)] *)
Inductive ExecServerError := Protocol (msg : str).

Definition create_inner (url : option str) (paths : option ExecServerRuntimePaths)
    : result ExecServerError Environment :=
  let '(url, disabled) := normalize_exec_server_url url in
  if (disabled : bool) then Err (Protocol (lit "disabled mode does not create an Environment"))
  else Ok (match url with
           | Some url => remote_inner url paths
           | None => match paths with
                     | Some paths => env_local paths
                     | None => env_default_for_tests
                     end
           end).

(** ** The manager *)

Definition MAX_ENV_METADATA_ENTRIES : nat := 64.
Definition LOCAL_ENVIRONMENT_ID : str := lit "local".
Definition REMOTE_ENVIRONMENT_ID : str := lit "remote".

Record EnvironmentMetadata := {
  cwd : str;
  meta_shell : option str }.

Record EnvironmentSnapshot := {
  environment_id : str;
  snap_is_remote : bool;
  is_default_snapshot : bool;
  metadata : option EnvironmentMetadata }.

Record EnvironmentManager := mkManager {
  default_environment_id : option str;
  environments : gmap str Environment;
  local_environment : option Environment;
  local_runtime_paths : option ExecServerRuntimePaths;
  env_metadata : gmap str EnvironmentMetadata;
  thread_env_metadata : gmap str (gmap str EnvironmentMetadata);
  last_launcher : gmap str RemoteLauncher;
  last_environment_id : gmap str str;
  thread_environment_ids : gmap str (list str) }.

Definition fresh_manager (default : option str) (envs : gmap str Environment)
    (local : option Environment) (paths : option ExecServerRuntimePaths) : EnvironmentManager :=
  mkManager default envs local paths ∅ ∅ ∅ ∅ ∅.

Definition default_for_tests : EnvironmentManager :=
  fresh_manager (Some LOCAL_ENVIRONMENT_ID) {[LOCAL_ENVIRONMENT_ID := env_default_for_tests]}
    (Some env_default_for_tests) None.

Definition without_environments : EnvironmentManager := fresh_manager None ∅ None None.

(** Provider snapshots (environment_provider.rs). *)
Inductive EnvironmentDefault := Disabled | EnvironmentId (id : str).

Record EnvironmentProviderSnapshot := {
  snap_environments : list (str * Environment);
  snap_default : EnvironmentDefault;
  include_local : bool }.

(** [DefaultEnvironmentProvider::snapshot_inner] *)
Definition snapshot_inner (url : option str) : EnvironmentProviderSnapshot :=
  let '(url, disabled) := normalize_exec_server_url url in
  let envs := match url with
              | Some url => [(REMOTE_ENVIRONMENT_ID, remote_inner url None)]
              | None => []
              end in
  let has_remote := any (λ '(id, _), id == REMOTE_ENVIRONMENT_ID) envs in
  {| snap_environments := envs;
     snap_default :=
       if (disabled : bool) then Disabled
       else if has_remote then EnvironmentId REMOTE_ENVIRONMENT_ID
       else EnvironmentId LOCAL_ENVIRONMENT_ID;
     include_local := negb disabled && negb has_remote |}.

(** The loop of [from_snapshot] that adds the provider's environments. *)
Fixpoint add_environments (envs : list (str * Environment)) (m : gmap str Environment)
    : result ExecServerError (gmap str Environment) :=
  match envs with
  | [] => Ok m
  | (id, e) :: envs =>
      if is_empty id then Err (Protocol (lit "environment id cannot be empty"))
      else if id == LOCAL_ENVIRONMENT_ID then
        Err (Protocol (lit "environment id `" ++ LOCAL_ENVIRONMENT_ID
                       ++ lit "` is reserved for EnvironmentManager"))
      else if opt_is_some (m !! id) then
        Err (Protocol (lit "environment id `" ++ id ++ lit "` is duplicated"))
      else add_environments envs (<[id := e]> m)
  end.

(** The provider's default must name a registered environment. *)
Definition choose_default (d : EnvironmentDefault) (envs : gmap str Environment)
  : result ExecServerError (option str) :=
  match d with
  | Disabled => Ok None
  | EnvironmentId id =>
      if opt_is_some (envs !! id) then Ok (Some id)
      else Err (Protocol (lit "default environment `" ++ id ++ lit "` is not configured"))
  end.

Definition from_snapshot (snapshot : EnvironmentProviderSnapshot)
    (paths : option ExecServerRuntimePaths) : result ExecServerError EnvironmentManager :=
  '(local, m0) ←
    (if include_local snapshot then
       p ← ok_or paths (Protocol (lit "local environment requires configured runtime paths"));
       Ok (Some (env_local p), {[LOCAL_ENVIRONMENT_ID := env_local p]} : gmap str Environment)
     else Ok (None, ∅));
  m ← add_environments (snap_environments snapshot) m0;
  default ← choose_default (snap_default snapshot) m;
  Ok (fresh_manager default m local paths).

(** ** Lookups *)

Definition get_environment (m : EnvironmentManager) (id : str) : option Environment :=
  environments m !! id.

Definition default_environment (m : EnvironmentManager) : option Environment :=
  default_environment_id m ≫= get_environment m.

Definition try_local_environment (m : EnvironmentManager) : option Environment :=
  local_environment m.

Definition default_or_local_environment (m : EnvironmentManager) : option Environment :=
  opt_or (default_environment m) (try_local_environment m).

Definition get_environment_metadata (m : EnvironmentManager) (id : str) :=
  env_metadata m !! id.

Definition get_thread_environment_metadata_for_keys (m : EnvironmentManager)
    (thread_keys : list str) (id : str) : option EnvironmentMetadata :=
  find_map (λ k, thread_env_metadata m !! k ≫= λ entries, entries !! id) thread_keys.

Definition get_last_launcher (m : EnvironmentManager) (thread_key : str) :=
  last_launcher m !! thread_key.

Definition get_last_environment_id (m : EnvironmentManager) (thread_key : str) :=
  last_environment_id m !! thread_key.

Definition get_thread_environment_ids (m : EnvironmentManager) (thread_key : str) : list str :=
  default [] (thread_environment_ids m !! thread_key).

(** ** Iteration order and updates *)

Class HashOrder := hash_keys : ∀ {V}, gmap str V → list str.
Class HashOrderLaw `{HO : HashOrder} : Prop :=
  hash_keys_perm : ∀ {V} (m : gmap str V), hash_keys m ≡ₚ (map_to_list m).*1.

(** The canonical order; it shows the law can be met. *)
Definition canonical_order : HashOrder := λ V m, (map_to_list m).*1.
Lemma canonical_order_law : HashOrderLaw (HO := canonical_order).
Proof. by intros V m. Qed.

(** Field updates. *)
Definition with_environments f m := mkManager (default_environment_id m) (f (environments m))
  (local_environment m) (local_runtime_paths m) (env_metadata m) (thread_env_metadata m)
  (last_launcher m) (last_environment_id m) (thread_environment_ids m).
Definition with_env_metadata f m := mkManager (default_environment_id m) (environments m)
  (local_environment m) (local_runtime_paths m) (f (env_metadata m)) (thread_env_metadata m)
  (last_launcher m) (last_environment_id m) (thread_environment_ids m).
Definition with_thread_env_metadata f m := mkManager (default_environment_id m) (environments m)
  (local_environment m) (local_runtime_paths m) (env_metadata m) (f (thread_env_metadata m))
  (last_launcher m) (last_environment_id m) (thread_environment_ids m).
Definition with_last_launcher f m := mkManager (default_environment_id m) (environments m)
  (local_environment m) (local_runtime_paths m) (env_metadata m) (thread_env_metadata m)
  (f (last_launcher m)) (last_environment_id m) (thread_environment_ids m).
Definition with_last_environment_id f m := mkManager (default_environment_id m) (environments m)
  (local_environment m) (local_runtime_paths m) (env_metadata m) (thread_env_metadata m)
  (last_launcher m) (f (last_environment_id m)) (thread_environment_ids m).
Definition with_thread_environment_ids f m := mkManager (default_environment_id m) (environments m)
  (local_environment m) (local_runtime_paths m) (env_metadata m) (thread_env_metadata m)
  (last_launcher m) (last_environment_id m) (f (thread_environment_ids m)).

Section Updates.
Context `{HO : HashOrder}.

(** The eviction every capped map performs before an insertion: at the cap,
    and when the key is new, the first key of the iteration is removed. *)
Definition make_room {V} (k : str) (m : gmap str V) : gmap str V :=
  if (MAX_ENV_METADATA_ENTRIES <=? size m) && negb (opt_is_some (m !! k)) then
    match hash_keys m with
    | oldest_key :: _ => delete oldest_key m
    | [] => m
    end
  else m.

Definition set_environment_metadata (id : str) (md : EnvironmentMetadata)
    : EnvironmentManager → EnvironmentManager :=
  with_env_metadata (λ map, <[id := md]> (make_room id map)).

Definition set_thread_environment_metadata (thread_key id : str) (md : EnvironmentMetadata)
    : EnvironmentManager → EnvironmentManager :=
  with_thread_env_metadata (λ map,
    let map := make_room thread_key map in
    let entries := default ∅ (map !! thread_key) in
    <[thread_key := <[id := md]> (make_room id entries)]> map).

Definition set_last_launcher (thread_key : str) (l : RemoteLauncher)
    : EnvironmentManager → EnvironmentManager :=
  with_last_launcher (λ map, <[thread_key := l]> (make_room thread_key map)).

Definition clear_last_launcher (thread_key : str) : EnvironmentManager → EnvironmentManager :=
  with_last_launcher (delete thread_key).

Definition set_last_environment_id (thread_key id : str)
    : EnvironmentManager → EnvironmentManager :=
  with_last_environment_id (λ map, <[thread_key := id]> (make_room thread_key map)).

(** The list of ids of one thread: no duplicates, the first id is dropped at
    the cap. *)
Definition push_environment_id (id : str) (ids : list str) : list str :=
  if any (λ i, i == id) ids then ids
  else (if MAX_ENV_METADATA_ENTRIES <=? length ids then tail ids else ids) ++ [id].

Definition record_thread_environment_id (thread_key id : str)
    : EnvironmentManager → EnvironmentManager :=
  with_thread_environment_ids (λ map,
    let map := make_room thread_key map in
    <[thread_key := push_environment_id id (default [] (map !! thread_key))]> map).

(** [environments.write().insert(id, env)] behind the three upserts. *)
Definition register (id : str) (e : Environment) : EnvironmentManager → EnvironmentManager :=
  with_environments (insert id e).

Definition upsert_environment (id url : str) (m : EnvironmentManager)
    : result ExecServerError EnvironmentManager :=
  if is_empty id then Err (Protocol (lit "environment id cannot be empty"))
  else
    let '(url, disabled) := normalize_exec_server_url (Some url) in
    if (disabled : bool) then
      Err (Protocol (lit "remote environment cannot use disabled exec-server url"))
    else match url with
         | None => Err (Protocol (lit "remote environment requires an exec-server url"))
         | Some url => Ok (register id (remote_inner url (local_runtime_paths m)) m)
         end.

(** [identity] is the outcome of [NoiseChannelIdentity::generate()]. *)
Definition upsert_noise_environment (id provider : str) (identity : result str str)
    (m : EnvironmentManager) : result ExecServerError EnvironmentManager :=
  if is_empty id then Err (Protocol (lit "environment id cannot be empty"))
  else
    identity ← map_err (λ e, Protocol (lit "failed to generate Noise harness identity: " ++ e))
                 identity;
    Ok (register id (remote_with_transport (NoiseRendezvous provider identity)
                       (local_runtime_paths m)) m).

Definition upsert_stdio_environment (id program : str) (args : list str) (env : gmap str str)
    (cwd : option str) (m : EnvironmentManager) : result ExecServerError EnvironmentManager :=
  if is_empty id then Err (Protocol (lit "environment id cannot be empty"))
  else
    let command := {| program := program; args := args; env := env; cmd_cwd := cwd |} in
    let transport := StdioCommand command PROVISIONED_STDIO_INITIALIZE_TIMEOUT in
    Ok (register id (remote_with_transport transport (local_runtime_paths m)) m).

(** [default_environment_ids]: the default, then the others as the map yields
    them. *)
Definition default_environment_ids (m : EnvironmentManager) : list str :=
  match default_environment_id m with
  | None => []
  | Some d => d :: List.filter (λ id, negb (id == d)) (hash_keys (environments m))
  end.

(** The comparison of [environment_snapshots]. *)
Definition snapshot_cmp (d : option str) (l r : str) : comparison :=
  match bool_decide (d = Some l), bool_decide (d = Some r) with
  | true, false => Lt
  | false, true => Gt
  | _, _ => str_cmp l r
  end.
Definition snapshot_le (d : option str) (l r : str * bool) : Prop :=
  snapshot_cmp d l.1 r.1 ≠ Gt.
#[export] Instance snapshot_le_dec d : RelDecision (snapshot_le d).
Proof. intros l r. unfold snapshot_le. apply _. Defined.

Definition environment_snapshots (m : EnvironmentManager) : list EnvironmentSnapshot :=
  let d := default_environment_id m in
  let entries := omap (λ id, (λ e, (id, is_remote e)) <$> environments m !! id)
                   (hash_keys (environments m)) in
  (λ '(id, remote), {| environment_id := id; snap_is_remote := remote;
                       is_default_snapshot := bool_decide (d = Some id);
                       metadata := env_metadata m !! id |})
    <$> merge_sort (snapshot_le d) entries.
End Updates.

(** ** Eviction lemmas *)

Section MakeRoom.
Context `{HL : HashOrderLaw} {V : Type}.
Implicit Types m : gmap str V.

Lemma hash_keys_elem m k : k ∈ hash_keys m ↔ is_Some (m !! k).
Proof.
  rewrite hash_keys_perm, list_elem_of_fmap. split.
  - intros ([k' v] & -> & Hv%elem_of_map_to_list). eauto.
  - intros [v Hv]. exists (k, v). by rewrite elem_of_map_to_list.
Qed.

Lemma hash_keys_NoDup m : NoDup (hash_keys m).
Proof. rewrite hash_keys_perm. apply NoDup_fst_map_to_list. Qed.

(** The two outcomes of an eviction. *)
Lemma make_room_cases k m :
  make_room k m = m ∧ (size m < 64 ∨ is_Some (m !! k)) ∨
  ∃ k', k' ≠ k ∧ is_Some (m !! k') ∧ 64 ≤ size m ∧ m !! k = None ∧ make_room k m = delete k' m.
Proof.
  unfold make_room, MAX_ENV_METADATA_ENTRIES. destruct (Nat.leb_spec 64 (size m)); [|naive_solver].
  destruct (m !! k) as [v|] eqn:Hk; [naive_solver|]. cbn.
  right. destruct (hash_keys m) as [|k' ks] eqn:Hh.
  - assert (m = ∅) as ->; [|by rewrite map_size_empty in *; lia].
    apply map_empty. intros i. destruct (m !! i) as [v|] eqn:Hi; [|done].
    assert (i ∈ hash_keys m) as Hin by (apply hash_keys_elem; eauto).
    rewrite Hh in Hin. by apply not_elem_of_nil in Hin.
  - exists k'. assert (is_Some (m !! k')) as Hs.
    { apply hash_keys_elem. rewrite Hh. by left. }
    split; [intros ->; rewrite Hk in Hs; by destruct Hs|]. auto.
Qed.

Lemma make_room_lookup k m : make_room k m !! k = m !! k.
Proof.
  destruct (make_room_cases k m) as [[-> _]|(k' & Hne & _ & _ & Hk & ->)]; [done|].
  by rewrite lookup_delete_ne.
Qed.

Lemma make_room_insert_size k v m : size m ≤ 64 → size (<[k := v]> (make_room k m)) ≤ 64.
Proof.
  intros Hs. rewrite map_size_insert, make_room_lookup.
  destruct (make_room_cases k m) as [[-> [?|[? Hk]]]|(k' & _ & [? Hk'] & ? & Hk & ->)].
  - destruct (m !! k); simpl; lia.
  - by rewrite Hk.
  - rewrite Hk, map_size_delete, Hk'. simpl. lia.
Qed.

Lemma make_room_below k m : size m < 64 ∨ is_Some (m !! k) → make_room k m = m.
Proof.
  intros Hb. destruct (make_room_cases k m) as [[-> _]|(k' & _ & _ & ? & Hk & _)]; [done|].
  rewrite Hk in Hb. destruct Hb as [?|[]]; [lia|done].
Qed.

Lemma make_room_sub k m k' v : make_room k m !! k' = Some v → m !! k' = Some v.
Proof.
  destruct (make_room_cases k m) as [[-> _]|(k0 & _ & _ & _ & _ & ->)]; [done|].
  by rewrite lookup_delete_Some; intros [].
Qed.
End MakeRoom.

(** ** Well-formed managers *)

Record manager_wf (m : EnvironmentManager) : Prop := {
  wf_default d : default_environment_id m = Some d → is_Some (environments m !! d);
  wf_ids : environments m !! [] = None;
  wf_local e : local_environment m = Some e → is_remote e = false ∧ is_Some (environments m !! LOCAL_ENVIRONMENT_ID);
  wf_metadata : size (env_metadata m) ≤ 64;
  wf_thread_metadata : size (thread_env_metadata m) ≤ 64;
  wf_thread_entries t entries : thread_env_metadata m !! t = Some entries → size entries ≤ 64;
  wf_launchers : size (last_launcher m) ≤ 64;
  wf_cursors : size (last_environment_id m) ≤ 64;
  wf_thread_ids : size (thread_environment_ids m) ≤ 64;
  wf_id_lists t ids : thread_environment_ids m !! t = Some ids → NoDup ids ∧ length ids ≤ 64 }.

(** The ids a snapshot may add to [m0]. *)
Definition addable (m0 : gmap str Environment) (p : str * Environment) : Prop :=
  p.1 ≠ [] ∧ p.1 ≠ LOCAL_ENVIRONMENT_ID ∧ m0 !! p.1 = None.

Lemma addable_insert id e m0 envs :
  id ∉ envs.*1 → Forall (addable (<[id:=e]> m0)) envs ↔ Forall (addable m0) envs.
Proof.
  intros Hn. rewrite !Forall_forall. unfold addable.
  apply forall_proper; intros [id' e'].
  split; intros H Hin; destruct (H Hin) as (? & ? & Hl); repeat split; try done; simpl in *;
    (assert (id ≠ id') by (intros ->; apply Hn, list_elem_of_fmap; by exists (id', e')));
    [by rewrite lookup_insert_ne in Hl|by rewrite lookup_insert_ne].
Qed.

Lemma add_environments_Ok envs m0 m :
  add_environments envs m0 = Ok m ↔
    NoDup envs.*1 ∧ Forall (addable m0) envs ∧ m = list_to_map envs ∪ m0.
Proof.
  revert m0; induction envs as [|[id e] envs IH]; intros m0; csimpl.
  { rewrite (left_id_L ∅ (∪)). split; [intros [= ->]; auto using NoDup_nil_2|naive_solver]. }
  destruct (is_empty id) eqn:He.
  { apply is_empty_true in He as ->. split; [done|]. by intros (_ & [[? _] _]%Forall_cons & _). }
  case_str; [split; [done|]; by intros (_ & [(_ & ? & _) _]%Forall_cons & _)|].
  destruct (m0 !! id) as [e'|] eqn:Hid; simpl.
  { split; [done|]. intros (_ & [(_ & _ & Hl) _]%Forall_cons & _). simpl in Hl. congruence. }
  rewrite IH, NoDup_cons, Forall_cons. apply is_empty_false in He.
  split.
  - intros (Hnd & Hall & ->).
    assert (id ∉ envs.*1) as Hn.
    { intros ([id' ?] & -> & Hin)%list_elem_of_fmap. rewrite Forall_forall in Hall.
      destruct (Hall _ Hin) as (_ & _ & Hl). by rewrite lookup_insert_eq in Hl. }
    rewrite addable_insert in Hall by done. repeat split; try done.
    rewrite <-insert_union_r; [by rewrite insert_union_l|]. by apply not_elem_of_list_to_map.
  - intros ((Hn & Hnd) & (_ & Hall) & ->). rewrite addable_insert by done. repeat split; try done.
    rewrite <-insert_union_r; [by rewrite insert_union_l|]. by apply not_elem_of_list_to_map.
Qed.

Lemma from_snapshot_wf s paths m : from_snapshot s paths = Ok m → manager_wf m.
Proof.
  unfold from_snapshot. intros ([local m0] & Hl & H)%bind_Ok.
  apply bind_Ok in H as (envs & Hadd & H). apply bind_Ok in H as (d & Hd & [= <-]).
  apply add_environments_Ok in Hadd as (Hnd & Hall & ->).
  split; simpl; rewrite ?map_size_empty; try lia; try done.
  - intros d' ->. destruct (snap_default s) as [|id]; [done|].
    unfold choose_default in Hd. destruct (_ !! id) eqn:Hid; simplify_eq/=. eauto.
  - apply lookup_union_None. split.
    + apply not_elem_of_list_to_map. intros ([? ?] & Heq & Hin)%list_elem_of_fmap.
      rewrite Forall_forall in Hall. by destruct (Hall _ Hin) as [? _].
    + destruct (include_local s); [|by injection Hl as <- <-].
      apply bind_Ok in Hl as (p & _ & [= <- <-]). by rewrite lookup_singleton_ne by by_compute.
  - intros e ->. destruct (include_local s); [|done].
    apply bind_Ok in Hl as (p & _ & [= <- <-]). split; [done|].
    rewrite lookup_union_r; [rewrite lookup_singleton_eq; eauto|].
    apply not_elem_of_list_to_map. intros ([? ?] & Heq & Hin)%list_elem_of_fmap.
    rewrite Forall_forall in Hall. by destruct (Hall _ Hin) as (_ & ? & _).
Qed.

(** ** The manager as a state machine: one constructor per operation *)

Inductive mstep (m : EnvironmentManager) : EnvironmentManager → Prop :=
| step_upsert_environment id url m' :
    upsert_environment id url m = Ok m' → mstep m m'
| step_upsert_noise id provider identity m' :
    upsert_noise_environment id provider identity m = Ok m' → mstep m m'
| step_upsert_stdio id program args env cwd m' :
    upsert_stdio_environment id program args env cwd m = Ok m' → mstep m m'
| step_set_metadata `{HashOrderLaw} id md :
    mstep m (set_environment_metadata id md m)
| step_set_thread_metadata `{HashOrderLaw} t id md :
    mstep m (set_thread_environment_metadata t id md m)
| step_set_launcher `{HashOrderLaw} t l :
    mstep m (set_last_launcher t l m)
| step_clear_launcher t :
    mstep m (clear_last_launcher t m)
| step_set_cursor `{HashOrderLaw} t id :
    mstep m (set_last_environment_id t id m)
| step_record_id `{HashOrderLaw} t id :
    mstep m (record_thread_environment_id t id m).

Lemma register_wf id e m : id ≠ [] → manager_wf m → manager_wf (register id e m).
Proof.
  intros Hid []. split; simpl; try done.
  - intros d Hd. rewrite lookup_insert_is_Some. destruct (decide (id = d)); naive_solver.
  - by rewrite lookup_insert_ne.
  - intros e' He'. destruct (wf_local0 _ He') as [? Hl]. split; [done|].
    rewrite lookup_insert_is_Some. destruct (decide (id = LOCAL_ENVIRONMENT_ID)); naive_solver.
Qed.

(** The three upserts are guarded registrations. *)
Lemma upsert_environment_Ok id url m m' :
  upsert_environment id url m = Ok m' →
  id ≠ [] ∧ ∃ url', normalize_exec_server_url (Some url) = (Some url', false)
                    ∧ m' = register id (remote_inner url' (local_runtime_paths m)) m.
Proof.
  unfold upsert_environment. destruct (is_empty id) eqn:He; [done|]. apply is_empty_false in He.
  destruct (normalize_exec_server_url (Some url)) as [[url'|] []]; intros [= <-]; eauto.
Qed.

Lemma upsert_stdio_Ok id prog ar en cw m m' :
  upsert_stdio_environment id prog ar en cw m = Ok m' →
  id ≠ [] ∧ m' = register id (remote_with_transport
    (StdioCommand {| program := prog; args := ar; env := en; cmd_cwd := cw |}
       PROVISIONED_STDIO_INITIALIZE_TIMEOUT) (local_runtime_paths m)) m.
Proof.
  unfold upsert_stdio_environment. destruct (is_empty id) eqn:He; [done|].
  apply is_empty_false in He. by intros [= <-].
Qed.

Lemma upsert_noise_Ok id provider identity m m' :
  upsert_noise_environment id provider identity m = Ok m' →
  id ≠ [] ∧ ∃ i, m' = register id (remote_with_transport (NoiseRendezvous provider i)
                                      (local_runtime_paths m)) m.
Proof.
  unfold upsert_noise_environment. destruct (is_empty id) eqn:He; [done|].
  apply is_empty_false in He. intros (i & _ & [= <-])%bind_Ok. eauto.
Qed.

Lemma NoDup_snoc {A} (l : list A) x : x ∉ l → NoDup l → NoDup (l ++ [x]).
Proof.
  intros Hx Hl. apply NoDup_app. split; [done|]. split; [|apply NoDup_singleton].
  intros y Hy ->%list_elem_of_singleton. done.
Qed.

Lemma push_environment_id_elem id ids : id ∈ push_environment_id id ids.
Proof.
  unfold push_environment_id. destruct (any _ ids) eqn:Ha.
  - apply any_true in Ha as (i & Hin & Hi%str_eqb_true). by subst.
  - apply elem_of_app. right. by apply list_elem_of_singleton.
Qed.

Lemma push_environment_id_ok id ids :
  NoDup ids → length ids ≤ 64 →
  NoDup (push_environment_id id ids) ∧ length (push_environment_id id ids) ≤ 64.
Proof.
  intros Hnd Hlen. unfold push_environment_id. destruct (any _ ids) eqn:Ha; [done|].
  assert (id ∉ ids) as Hid.
  { intros Hin. rewrite any_false in Ha. specialize (Ha _ Hin). by rewrite str_eqb_refl in Ha. }
  destruct (Nat.leb_spec MAX_ENV_METADATA_ENTRIES (length ids)) as [_|Hlt].
  - destruct ids as [|i ids]; [split; [apply NoDup_singleton|cbn; lia]|].
    apply NoDup_cons in Hnd as [_ Hnd]. apply not_elem_of_cons in Hid as [_ Hid].
    cbn [tail length] in *. split; [by apply NoDup_snoc|]. rewrite length_app. cbn [length]. lia.
  - split; [by apply NoDup_snoc|]. rewrite length_app. cbn [length].
    unfold MAX_ENV_METADATA_ENTRIES in Hlt. lia.
Qed.

Section UpdatesWf.
Context `{HL : HashOrderLaw}.

Lemma set_thread_metadata_entries t id md m t' entries :
  (∀ t entries, thread_env_metadata m !! t = Some entries → size entries ≤ 64) →
  thread_env_metadata (set_thread_environment_metadata t id md m) !! t' = Some entries →
  size entries ≤ 64.
Proof.
  intros Hwf. cbn. rewrite make_room_lookup.
  intros [[<- <-]|[? Hs%make_room_sub]]%lookup_insert_Some; [|by eapply Hwf].
  apply make_room_insert_size. destruct (thread_env_metadata m !! t) eqn:Ht; simpl; [by eapply Hwf|].
  rewrite map_size_empty. lia.
Qed.

Lemma record_ids_ok t id m t' ids :
  (∀ t ids, thread_environment_ids m !! t = Some ids → NoDup ids ∧ length ids ≤ 64) →
  thread_environment_ids (record_thread_environment_id t id m) !! t' = Some ids →
  NoDup ids ∧ length ids ≤ 64.
Proof.
  intros Hwf. cbn. rewrite make_room_lookup.
  intros [[<- <-]|[? Hs%make_room_sub]]%lookup_insert_Some; [|by eapply Hwf].
  apply push_environment_id_ok;
    (destruct (thread_environment_ids m !! t) eqn:Ht; simpl; [by eapply Hwf|]);
    [constructor|lia].
Qed.
End UpdatesWf.

Lemma mstep_wf m m' : mstep m m' → manager_wf m → manager_wf m'.
Proof.
  intros Hstep Hwf. destruct Hstep as [id url m' H|id pr i m' H|id p a e c m' H|HO HL id md
    |HO HL t id md|HO HL t l|t|HO HL t id|HO HL t id].
  - apply upsert_environment_Ok in H as (? & ? & _ & ->). by apply register_wf.
  - apply upsert_noise_Ok in H as (? & ? & ->). by apply register_wf.
  - apply upsert_stdio_Ok in H as (? & ->). by apply register_wf.
  - destruct Hwf; split; try done. by apply make_room_insert_size.
  - destruct Hwf; split; try done; [by apply make_room_insert_size|].
    intros t' en. by apply set_thread_metadata_entries.
  - destruct Hwf; split; try done. by apply make_room_insert_size.
  - destruct Hwf; split; try done. cbn. rewrite map_size_delete. destruct (_ !! t); simpl; lia.
  - destruct Hwf; split; try done. by apply make_room_insert_size.
  - destruct Hwf; split; try done; [by apply make_room_insert_size|].
    intros t' ids. by apply record_ids_ok.
Qed.

(** ** The order of [environment_snapshots] *)

Section SnapshotOrder.
Context (d : option str).

Lemma snapshot_cmp_alt l r :
  snapshot_cmp d l r =
    if decide (d = Some l) then (if decide (d = Some r) then str_cmp l r else Lt)
    else if decide (d = Some r) then Gt else str_cmp l r.
Proof. unfold snapshot_cmp. by repeat case_decide; repeat case_bool_decide. Qed.

#[export] Instance snapshot_le_total : Total (snapshot_le d).
Proof.
  intros [l b] [r c]. unfold snapshot_le. rewrite !snapshot_cmp_alt; simpl.
  destruct (total str_le l r); repeat case_decide; auto.
Qed.

#[export] Instance snapshot_le_trans : Transitive (snapshot_le d).
Proof.
  intros [l b] [r c] [u e]. unfold snapshot_le. rewrite !snapshot_cmp_alt; simpl.
  repeat case_decide; simplify_eq; try done; apply (str_le_trans l r u).
Qed.

Lemma snapshot_le_antisym l r : snapshot_le d l r → snapshot_le d r l → l.1 = r.1.
Proof.
  destruct l as [l b], r as [r c]. unfold snapshot_le. rewrite !snapshot_cmp_alt; simpl.
  repeat case_decide; simplify_eq; try done. apply (str_le_antisym l r).
Qed.
End SnapshotOrder.

Section Snapshots.
Context `{HL : HashOrderLaw}.

Definition snapshot_entries (m : EnvironmentManager) : list (str * bool) :=
  omap (λ id, (λ e, (id, is_remote e)) <$> environments m !! id) (hash_keys (environments m)).

Lemma snapshot_entries_perm m :
  snapshot_entries m ≡ₚ (λ '(id, e), (id, is_remote e)) <$> map_to_list (environments m).
Proof.
  unfold snapshot_entries. rewrite hash_keys_perm. apply reflexive_eq.
  assert (∀ p, p ∈ map_to_list (environments m) → environments m !! p.1 = Some p.2) as Hl.
  { intros [id e]. by rewrite elem_of_map_to_list. }
  induction (map_to_list (environments m)) as [|[id e] l IH]; [done|].
  csimpl. assert (environments m !! id = Some e) as -> by (apply (Hl (id, e)); by left).
  csimpl. f_equal. apply IH. intros p Hp. apply Hl. by right.
Qed.

Lemma snapshot_ids m :
  environment_id <$> environment_snapshots m
  = fst <$> merge_sort (snapshot_le (default_environment_id m)) (snapshot_entries m).
Proof.
  unfold environment_snapshots. fold (snapshot_entries m). rewrite <-list_fmap_compose.
  apply list_fmap_ext. by intros i [id b] _.
Qed.
End Snapshots.

Lemma snapshots_deterministic (HO1 HO2 : HashOrder) m :
  HashOrderLaw (HO := HO1) → HashOrderLaw (HO := HO2) →
  environment_snapshots (HO := HO1) m = environment_snapshots (HO := HO2) m.
Proof.
  intros L1 L2. unfold environment_snapshots. f_equal.
  fold (snapshot_entries (HO := HO1) m) (snapshot_entries (HO := HO2) m).
  apply (StronglySorted_unique_strong (snapshot_le (default_environment_id m))).
  - intros [i1 b1] [i2 b2] H1 H2 H12 H21.
    pose proof (snapshot_le_antisym _ _ _ H12 H21) as Hi; simpl in Hi; subst i2.
    rewrite merge_sort_Permutation, (snapshot_entries_perm (HO := HO1)) in H1.
    rewrite merge_sort_Permutation, (snapshot_entries_perm (HO := HO2)) in H2.
    apply list_elem_of_fmap in H1 as ([? e1] & [= -> ->] & H1%elem_of_map_to_list).
    apply list_elem_of_fmap in H2 as ([? e2] & [= -> ->] & H2%elem_of_map_to_list).
    congruence.
  - apply StronglySorted_merge_sort; apply _.
  - apply StronglySorted_merge_sort; apply _.
  - by rewrite !merge_sort_Permutation, (snapshot_entries_perm (HO := HO1)),
      (snapshot_entries_perm (HO := HO2)).
Qed.

(** The head of a sorted list of ids is the default, when it is there. *)
Lemma snapshot_sorted_head d l :
  StronglySorted (snapshot_le (Some d)) l → d ∈ l.*1 → NoDup l.*1 →
  ∃ rest, l.*1 = d :: rest ∧ StronglySorted str_le rest.
Proof.
  intros Hs Hd Hnd. destruct l as [|[i b] l]; [by apply not_elem_of_nil in Hd|].
  csimpl in *. apply NoDup_cons in Hnd as [Hi Hnd]. apply StronglySorted_inv in Hs as [Hs Hh].
  assert (i = d) as ->.
  { apply elem_of_cons in Hd as [->|([j c] & -> & Hj)%list_elem_of_fmap]; [done|].
    rewrite Forall_forall in Hh. specialize (Hh _ Hj). unfold snapshot_le in Hh.
    rewrite snapshot_cmp_alt in Hh; simpl in *. repeat case_decide; by simplify_eq. }
  exists l.*1. split; [done|]. clear Hh Hd Hnd. revert Hi.
  induction Hs as [|[j c] l Hs IH Hh]; intros Hi; csimpl in *; [constructor|].
  apply not_elem_of_cons in Hi as [Hj Hi]. constructor; [auto|].
  apply Forall_fmap, Forall_forall. intros [k e] Hk. rewrite Forall_forall in Hh.
  specialize (Hh _ Hk). unfold snapshot_le in Hh. rewrite snapshot_cmp_alt in Hh; simpl in *.
  assert (d ≠ k) by (intros ->; apply Hi, list_elem_of_fmap; by exists (k, e)).
  repeat case_decide; by simplify_eq.
Qed.

(** Without a default the ids are in lexical order. *)
Lemma snapshot_sorted_plain l : StronglySorted (snapshot_le None) l → StronglySorted str_le l.*1.
Proof.
  induction 1 as [|[j c] l _ IH Hh]; csimpl; constructor; [done|].
  apply Forall_fmap. by eapply Forall_impl; [exact Hh|].
Qed.

Section SnapshotIds.
Context `{HL : HashOrderLaw}.

Lemma snapshot_entries_ids m : (snapshot_entries m).*1 ≡ₚ (map_to_list (environments m)).*1.
Proof.
  rewrite snapshot_entries_perm, <-list_fmap_compose. apply reflexive_eq, list_fmap_ext.
  by intros i [id e] _.
Qed.

Lemma snapshot_ids_NoDup m : NoDup (environment_id <$> environment_snapshots m).
Proof.
  rewrite snapshot_ids, merge_sort_Permutation, snapshot_entries_ids.
  apply NoDup_fst_map_to_list.
Qed.

Lemma snapshot_ids_order m :
  manager_wf m →
  ∃ rest, environment_id <$> environment_snapshots m = option_list (default_environment_id m) ++ rest
          ∧ StronglySorted str_le rest.
Proof.
  intros Hwf. pose proof (snapshot_ids_NoDup m) as Hnd. rewrite snapshot_ids in *.
  assert (StronglySorted (snapshot_le (default_environment_id m))
    (merge_sort (snapshot_le (default_environment_id m)) (snapshot_entries m))) as Hs
    by (apply StronglySorted_merge_sort; apply _).
  destruct (default_environment_id m) as [d|] eqn:Hd; [|eauto using snapshot_sorted_plain].
  apply snapshot_sorted_head; [done| |done].
  destruct (wf_default _ Hwf _ Hd) as [e He]. rewrite merge_sort_Permutation, snapshot_entries_ids.
  apply list_elem_of_fmap. exists (d, e). by rewrite elem_of_map_to_list.
Qed.

Lemma snapshot_elem m s :
  s ∈ environment_snapshots m ↔
    ∃ e, environments m !! environment_id s = Some e
         ∧ s = {| environment_id := environment_id s; snap_is_remote := is_remote e;
                  is_default_snapshot := bool_decide (default_environment_id m = Some (environment_id s));
                  metadata := get_environment_metadata m (environment_id s) |}.
Proof.
  unfold environment_snapshots. fold (snapshot_entries m). rewrite list_elem_of_fmap.
  setoid_rewrite merge_sort_Permutation. setoid_rewrite snapshot_entries_perm.
  setoid_rewrite list_elem_of_fmap. split.
  - intros ([id b] & -> & [? e] & [= -> ->] & He%elem_of_map_to_list). eauto.
  - intros (e & He & ->). exists (environment_id s, is_remote e). split; [done|].
    exists (environment_id s, e). by rewrite elem_of_map_to_list.
Qed.
End SnapshotIds.

(** ** What [from_snapshot] accepts *)

Lemma addable_iff m0 envs :
  (∀ id, id ≠ LOCAL_ENVIRONMENT_ID → m0 !! id = None) →
  Forall (addable m0) envs ↔ Forall (λ p, p.1 ≠ [] ∧ p.1 ≠ LOCAL_ENVIRONMENT_ID) envs.
Proof.
  intros H0. rewrite !Forall_forall. unfold addable.
  split; intros H p Hp; specialize (H p Hp); destruct H as (H1 & H2);
    [destruct H2|]; auto.
Qed.

Lemma choose_default_Ok d envs o :
  choose_default d envs = Ok o ↔
    match d with Disabled => o = None | EnvironmentId i => is_Some (envs !! i) ∧ o = Some i end.
Proof.
  destruct d as [|i]; simpl; [split; by intros; simplify_eq|].
  destruct (envs !! i) as [e|]; simpl; split.
  - intros [= <-]. by split; [eexists|].
  - by intros [_ ->].
  - done.
  - by intros [[? ?] _].
Qed.

Lemma add_then_default s m0 loc paths m :
  (∀ id, id ≠ LOCAL_ENVIRONMENT_ID → m0 !! id = None) →
  (x ← add_environments (snap_environments s) m0;
   default ← choose_default (snap_default s) x;
   Ok (fresh_manager default x loc paths)) = Ok m ↔
  NoDup (snap_environments s).*1
  ∧ Forall (λ p, p.1 ≠ [] ∧ p.1 ≠ LOCAL_ENVIRONMENT_ID) (snap_environments s)
  ∧ ∃ o, choose_default (snap_default s) (list_to_map (snap_environments s) ∪ m0) = Ok o
         ∧ m = fresh_manager o (list_to_map (snap_environments s) ∪ m0) loc paths.
Proof.
  intros H0. rewrite bind_Ok, <-(addable_iff m0 _ H0). setoid_rewrite add_environments_Ok.
  setoid_rewrite bind_Ok. split.
  - intros (x & (Hnd & Hall & ->) & o & Ho & [= <-]). eauto 6.
  - intros (Hnd & Hall & o & Ho & ->). eauto 8.
Qed.

Definition snapshot_local (s : EnvironmentProviderSnapshot) (paths : option ExecServerRuntimePaths)
    : option Environment :=
  if include_local s then env_local <$> paths else None.
Definition snapshot_envs (s : EnvironmentProviderSnapshot) (paths : option ExecServerRuntimePaths)
    : gmap str Environment :=
  list_to_map (snap_environments s)
  ∪ match snapshot_local s paths with Some e => {[LOCAL_ENVIRONMENT_ID := e]} | None => ∅ end.

Lemma from_snapshot_Ok s paths m :
  from_snapshot s paths = Ok m ↔
    (include_local s = true → is_Some paths)
    ∧ NoDup (snap_environments s).*1
    ∧ Forall (λ p, p.1 ≠ [] ∧ p.1 ≠ LOCAL_ENVIRONMENT_ID) (snap_environments s)
    ∧ ∃ o, choose_default (snap_default s) (snapshot_envs s paths) = Ok o
           ∧ m = fresh_manager o (snapshot_envs s paths) (snapshot_local s paths) paths.
Proof.
  unfold from_snapshot, snapshot_envs, snapshot_local.
  destruct (include_local s); cbn [mbind result_bind].
  - destruct paths as [p|]; cbn [ok_or mbind result_bind fmap option_fmap option_map].
    + rewrite <-add_then_default.
      * split; [|by intros []]. intros H. split; [by eexists|exact H].
      * intros id Hid. by apply lookup_singleton_ne.
    + split; [done|]. intros (H & _). by destruct (H eq_refl).
  - rewrite <-add_then_default; [|intros id _; apply lookup_empty].
    split; [|by intros []]. intros H. split; [done|exact H].
Qed.

(** A snapshot whose ids are distinct and unreserved and whose default is listed
    is accepted. *)
Lemma from_snapshot_total s paths :
  (include_local s = true → is_Some paths) →
  NoDup (snap_environments s).*1 →
  (∀ id, id ∈ (snap_environments s).*1 → id ≠ [] ∧ id ≠ LOCAL_ENVIRONMENT_ID) →
  (∀ d, snap_default s = EnvironmentId d →
     d ∈ (snap_environments s).*1 ∨ include_local s = true ∧ d = LOCAL_ENVIRONMENT_ID) →
  ∃ m, from_snapshot s paths = Ok m.
Proof.
  intros Hp Hnd Hids Hd.
  assert (∃ o, choose_default (snap_default s) (snapshot_envs s paths) = Ok o) as [o Ho].
  { destruct (snap_default s) as [|d]; [by eexists|]. exists (Some d).
    apply choose_default_Ok. split; [|done]. unfold snapshot_envs. destruct (Hd d eq_refl) as [Hin|[Hl ->]].
    - rewrite lookup_union_is_Some. left. apply not_eq_None_Some. by rewrite <-not_elem_of_list_to_map; intros [].
    - rewrite lookup_union_is_Some. right. destruct (Hp Hl) as [q ->]. unfold snapshot_local.
      rewrite Hl. cbn. rewrite lookup_singleton_eq. eauto. }
  eexists. apply from_snapshot_Ok. split; [done|]. split; [done|]. split; [|eauto].
  apply Forall_forall. intros q Hq. apply Hids. by apply list_elem_of_fmap_2.
Qed.

(** ** Properties *)

(** every manager a session can reach is well formed.  Starting from any
    snapshot [from_snapshot] accepts, and after any sequence of operations
    (upserts, metadata, cursors, recorded ids, under any hash iteration order),
    the configured default environment is registered, no environment has the empty
    id, the local environment is not remote and its id is registered, each of the
    five capped maps (and each thread's inner map and id list) has at most 64
    entries, and a thread's id list has no duplicates. *)
Theorem manager_reachable_wf s paths m0 m :
  from_snapshot s paths = Ok m0 → rtc mstep m0 m → manager_wf m.
Proof.
  intros H0 Hsteps. pose proof (from_snapshot_wf _ _ _ H0) as Hwf. clear H0.
  induction Hsteps as [|m0 m1 m2 H01 _ IH]; [done|]. apply IH. by eapply mstep_wf.
Qed.

Definition demo_paths : ExecServerRuntimePaths :=
  {| codex_self_exe := lit "/bin/codex"; codex_linux_sandbox_exe := None |}.
Definition demo_manager : EnvironmentManager :=
  fresh_manager (Some LOCAL_ENVIRONMENT_ID) {[LOCAL_ENVIRONMENT_ID := env_local demo_paths]}
    (Some (env_local demo_paths)) (Some demo_paths).

Lemma manager_reachable_wf_witness :
  manager_wf (record_thread_environment_id (HO := canonical_order) (lit "t1") (lit "ssh:h") demo_manager).
Proof.
  apply (manager_reachable_wf (snapshot_inner None) (Some demo_paths) demo_manager).
  - vm_compute. reflexivity.
  - apply rtc_once. apply (@step_record_id _ canonical_order canonical_order_law).
Defined.

(** [from_snapshot] accepts exactly the consistent snapshots and registers
    exactly what they list: runtime paths are there if the local environment is
    included, the provider's ids are non-empty, different from [local] and
    pairwise distinct, and the default, if any, is registered; the manager then
    holds the provider's environments plus the local one, and nothing else. *)
Theorem from_snapshot_exact s paths m :
  let local := snapshot_local s paths in
  let envs := snapshot_envs s paths in
  from_snapshot s paths = Ok m ↔
    (include_local s = true → is_Some paths)
    ∧ NoDup (snap_environments s).*1
    ∧ Forall (λ p, p.1 ≠ [] ∧ p.1 ≠ LOCAL_ENVIRONMENT_ID) (snap_environments s)
    ∧ ∃ o, match snap_default s with
           | Disabled => o = None
           | EnvironmentId d => is_Some (envs !! d) ∧ o = Some d
           end ∧ m = fresh_manager o envs local paths.
Proof.
  intros local envs. rewrite from_snapshot_Ok. by setoid_rewrite choose_default_Ok.
Qed.

(** [environment_snapshots] is a faithful and deterministic listing.  Under
    any two hash iteration orders it returns the same list; the list has one entry
    per registered environment, each with that environment's remoteness, default
    mark and process-wide metadata; the default environment comes first and the
    others follow in lexical order of their ids. *)
Theorem environment_snapshots_spec (HO1 HO2 : HashOrder)
    (L1 : HashOrderLaw (HO := HO1)) (L2 : HashOrderLaw (HO := HO2)) m :
  manager_wf m →
  environment_snapshots (HO := HO1) m = environment_snapshots (HO := HO2) m
  ∧ (∀ s, s ∈ environment_snapshots (HO := HO1) m ↔
       ∃ e, get_environment m (environment_id s) = Some e
            ∧ s = {| environment_id := environment_id s; snap_is_remote := is_remote e;
                     is_default_snapshot := bool_decide (default_environment_id m = Some (environment_id s));
                     metadata := get_environment_metadata m (environment_id s) |})
  ∧ NoDup (environment_id <$> environment_snapshots (HO := HO1) m)
  ∧ ∃ rest, environment_id <$> environment_snapshots (HO := HO1) m
            = option_list (default_environment_id m) ++ rest ∧ StronglySorted str_le rest.
Proof.
  intros Hwf. split; [by apply snapshots_deterministic|]. split; [apply snapshot_elem|].
  split; [apply snapshot_ids_NoDup|]. by apply snapshot_ids_order.
Qed.

Lemma environment_snapshots_spec_witness :
  ∃ rest, environment_id <$> environment_snapshots (HO := canonical_order)
            (register (lit "a") (remote_inner (lit "ws://x") None) demo_manager)
          = option_list (Some LOCAL_ENVIRONMENT_ID) ++ rest ∧ StronglySorted str_le rest.
Proof.
  apply (environment_snapshots_spec canonical_order canonical_order canonical_order_law
    canonical_order_law).
  apply register_wf; [by_compute|].
  apply (from_snapshot_wf (snapshot_inner None) (Some demo_paths)). vm_compute. reflexivity.
Defined.

(** a thread's cursor.  After [set_last_environment_id t id] thread [t] reads
    [id].  Every other thread keeps its cursor while fewer than 64 threads have one
    or [t] already had one; otherwise exactly one other thread's cursor is lost. *)
Theorem set_last_environment_id_spec `{HL : HashOrderLaw} t id m :
  let m' := set_last_environment_id t id m in
  get_last_environment_id m' t = Some id
  ∧ ((size (last_environment_id m) < 64 ∨ is_Some (get_last_environment_id m t))
       ∧ (∀ t', t' ≠ t → get_last_environment_id m' t' = get_last_environment_id m t')
     ∨ 64 ≤ size (last_environment_id m) ∧ get_last_environment_id m t = None
       ∧ ∃ victim, victim ≠ t ∧ is_Some (get_last_environment_id m victim)
           ∧ get_last_environment_id m' victim = None
           ∧ ∀ t', t' ≠ t → t' ≠ victim →
               get_last_environment_id m' t' = get_last_environment_id m t').
Proof.
  cbn. unfold get_last_environment_id; cbn. split; [by rewrite lookup_insert_eq|].
  destruct (make_room_cases t (last_environment_id m)) as [[-> Hb]|(v & Hv & Hs & Hsz & Ht & ->)].
  - left. split; [done|]. intros t' Hne. by rewrite lookup_insert_ne.
  - right. split; [done|]. split; [done|]. exists v. split; [done|]. split; [done|]. split.
    + by rewrite lookup_insert_ne, lookup_delete_eq.
    + intros t' Hne Hnv. by rewrite lookup_insert_ne, lookup_delete_ne.
Qed.

Lemma set_last_environment_id_spec_witness :
  get_last_environment_id
    (set_last_environment_id (HO := canonical_order) (lit "t") (lit "ssh:h") demo_manager) (lit "t")
  = Some (lit "ssh:h").
Proof.
  exact (proj1 (@set_last_environment_id_spec canonical_order canonical_order_law (lit "t")
    (lit "ssh:h") demo_manager)).
Defined.
