(* ===== verification/EnvConfig.v ===== *)
(** * Configured environments (codex-rs/exec-server/src/environment_toml.rs)

    The provider that reads [environments.toml]: validation of each entry,
    the resulting snapshot, and the start-up path [from_codex_home] that turns
    the file, or the legacy [CODEX_EXEC_SERVER_URL] variable when there is no
    file, into an [EnvironmentManager].

    Reading the file, the TOML parser and the WebSocket client's check of a URL
    are outside the repository; they are the parameters of [ConfigWorld]. *)

From S2P Require Import Prelude.
From S2P Require Import RustStr.
From S2P Require Import EnvManager.

Definition ENVIRONMENTS_TOML_FILE : str := lit "environments.toml".
Definition MAX_ENVIRONMENT_ID_LEN : nat := 64.

Record EnvironmentToml := {
  toml_id : str;
  toml_url : option str;
  toml_program : option str;
  toml_args : option (list str);
  toml_env : option (gmap str str);
  toml_cwd : option str;
  connect_timeout_sec : option N;
  initialize_timeout_sec : option N }.

Record EnvironmentsToml := {
  toml_default : option str;
  toml_include_local : option bool;
  toml_environments : list EnvironmentToml }.

Record TomlEnvironmentProvider := {
  provider_default : EnvironmentDefault;
  provider_include_local : bool;
  provider_environments : list (str * ExecServerTransportParams) }.

(** What the configuration code calls outside the repository: the metadata and
    contents of a file, [toml::from_str], [IntoClientRequest] on a URL, and one
    environment variable. *)
Class ConfigWorld := {
  try_exists : str → result str bool;
  read_to_string : str → result str str;
  toml_from_str : str → result str EnvironmentsToml;
  into_client_request : str → result str unit;
  exec_server_url_var : option str }.

Definition environment_id_char (c : char) : bool :=
  is_ascii_alphanumeric c || (c =? ch "-")%N || (c =? ch "_")%N.

Definition validate_environment_id (id : str) : result ExecServerError unit :=
  let trimmed_id := trim id in
  if is_empty trimmed_id then Err (Protocol (lit "environment id cannot be empty"))
  else if negb (trimmed_id == id) then
    Err (Protocol (lit "environment id `" ++ id ++ lit "` must not contain surrounding whitespace"))
  else if (id == LOCAL_ENVIRONMENT_ID) || eq_ignore_ascii_case id (lit "none") then
    Err (Protocol (lit "environment id `" ++ id ++ lit "` is reserved"))
  else if MAX_ENVIRONMENT_ID_LEN <? str_len id then
    Err (Protocol (lit "environment id `" ++ id ++ lit "` cannot be longer than "
                   ++ fmt_nat MAX_ENVIRONMENT_ID_LEN ++ lit " characters"))
  else if negb (all environment_id_char id) then
    Err (Protocol (lit "environment id `" ++ id
                   ++ lit "` must contain only ASCII letters, numbers, '-' or '_'"))
  else Ok tt.

Definition normalize_default_environment_id (default : option str) (include_local : bool)
    (ids : gset str) : result ExecServerError EnvironmentDefault :=
  match trim <$> default with
  | None => if include_local then Ok (EnvironmentId LOCAL_ENVIRONMENT_ID) else Ok Disabled
  | Some d =>
      if is_empty d then Err (Protocol (lit "default environment id cannot be empty"))
      else if negb (eq_ignore_ascii_case d (lit "none")) && negb (bool_decide (d ∈ ids)) then
        Err (Protocol (lit "default environment `" ++ d ++ lit "` is not configured"))
      else if eq_ignore_ascii_case d (lit "none") then Ok Disabled
      else Ok (EnvironmentId d)
  end.

Definition normalize_stdio_cwd (id : str) (cwd config_dir : option str)
    : result ExecServerError (option str) :=
  match cwd with
  | None => Ok None
  | Some cwd =>
      if path_is_absolute cwd then Ok (Some cwd)
      else match config_dir with
           | None => Err (Protocol (lit "environment `" ++ id ++ lit "` cwd must be absolute"))
           | Some dir => Ok (Some (path_join dir cwd))
           end
  end.

Section Config.
Context `{W : ConfigWorld}.

Definition validate_websocket_url (url : str) : result ExecServerError str :=
  let url := trim url in
  if is_empty url then Err (Protocol (lit "environment url cannot be empty"))
  else if negb (starts_with (lit "ws://") url) && negb (starts_with (lit "wss://") url) then
    Err (Protocol (lit "environment url `" ++ url ++ lit "` must use ws:// or wss://"))
  else
    _ ← map_err (λ e, Protocol (lit "environment url `" ++ url ++ lit "` is invalid: " ++ e))
          (into_client_request url);
    Ok url.

Definition parse_environment_toml (item : EnvironmentToml) (config_dir : option str)
    : result ExecServerError (str * ExecServerTransportParams) :=
  let id := toml_id item in
  _ ← validate_environment_id id;
  if negb (opt_is_some (toml_program item))
     && (opt_is_some (toml_args item) || opt_is_some (toml_env item)
         || opt_is_some (toml_cwd item)) then
    Err (Protocol (lit "environment `" ++ id ++ lit "` args, env, and cwd require program"))
  else if negb (opt_is_some (toml_url item)) && opt_is_some (connect_timeout_sec item) then
    Err (Protocol (lit "environment `" ++ id ++ lit "` connect_timeout_sec requires url"))
  else
    let connect_timeout :=
      default DEFAULT_REMOTE_EXEC_SERVER_CONNECT_TIMEOUT (connect_timeout_sec item) in
    let initialize_timeout :=
      default DEFAULT_REMOTE_EXEC_SERVER_INITIALIZE_TIMEOUT (initialize_timeout_sec item) in
    transport ←
      match toml_url item, toml_program item with
      | Some url, None =>
          url ← validate_websocket_url url;
          Ok (WebSocketUrl url connect_timeout initialize_timeout)
      | None, Some program =>
          let program := trim program in
          if is_empty program then
            Err (Protocol (lit "environment `" ++ id ++ lit "` program cannot be empty"))
          else
            cwd ← normalize_stdio_cwd id (toml_cwd item) config_dir;
            Ok (StdioCommand {| program := program; args := default [] (toml_args item);
                                env := default ∅ (toml_env item); cmd_cwd := cwd |}
                  initialize_timeout)
      | None, None | Some _, Some _ =>
          Err (Protocol (lit "environment `" ++ id
                         ++ lit "` must set exactly one of url or program"))
      end;
    Ok (id, transport).

(** The loop of [new_with_config_dir]: the ids seen so far are threaded
    through. *)
Fixpoint parse_environments (items : list EnvironmentToml) (config_dir : option str)
    (ids : gset str)
    : result ExecServerError (list (str * ExecServerTransportParams) * gset str) :=
  match items with
  | [] => Ok ([], ids)
  | item :: items =>
      '(id, transport) ← parse_environment_toml item config_dir;
      if bool_decide (id ∈ ids) then
        Err (Protocol (lit "environment id `" ++ id ++ lit "` is duplicated"))
      else
        '(parsed, ids) ← parse_environments items config_dir ({[id]} ∪ ids);
        Ok ((id, transport) :: parsed, ids)
  end.

Definition new_with_config_dir (config : EnvironmentsToml) (config_dir : option str)
    : result ExecServerError TomlEnvironmentProvider :=
  let include_local := default true (toml_include_local config) in
  let ids : gset str := if include_local then {[LOCAL_ENVIRONMENT_ID]} else ∅ in
  '(parsed, ids) ← parse_environments (toml_environments config) config_dir ids;
  default ← normalize_default_environment_id (toml_default config) include_local ids;
  Ok {| provider_default := default; provider_include_local := include_local;
        provider_environments := parsed |}.

(** [TomlEnvironmentProvider::snapshot] *)
Definition toml_snapshot (p : TomlEnvironmentProvider) : EnvironmentProviderSnapshot :=
  {| snap_environments :=
       (λ '(id, transport), (id, remote_with_transport transport None)) <$> provider_environments p;
     snap_default := provider_default p;
     include_local := provider_include_local p |}.

Definition load_environments_toml (path : str) : result ExecServerError EnvironmentsToml :=
  contents ← map_err (λ e, Protocol (lit "failed to read environment config `" ++ path
                                     ++ lit "`: " ++ e)) (read_to_string path);
  map_err (λ e, Protocol (lit "failed to parse environment config `" ++ path ++ lit "`: " ++ e))
    (toml_from_str contents).

(** The boxed provider is represented by the snapshot it yields. *)
Definition environment_provider_from_codex_home (codex_home : str)
    : result ExecServerError EnvironmentProviderSnapshot :=
  let path := path_join codex_home ENVIRONMENTS_TOML_FILE in
  ex ← map_err (λ e, Protocol (lit "failed to inspect environment config `" ++ path
                               ++ lit "`: " ++ e)) (try_exists path);
  if negb ex then Ok (snapshot_inner exec_server_url_var)
  else
    environments ← load_environments_toml path;
    p ← new_with_config_dir environments (Some codex_home);
    Ok (toml_snapshot p).

Definition from_codex_home (codex_home : str) (paths : option ExecServerRuntimePaths)
    : result ExecServerError EnvironmentManager :=
  provider ← environment_provider_from_codex_home codex_home;
  from_snapshot provider paths.

Definition from_env (paths : option ExecServerRuntimePaths)
    : result ExecServerError EnvironmentManager :=
  from_snapshot (snapshot_inner exec_server_url_var) paths.
End Config.

(** ** What the validators accept *)

Definition valid_environment_id (id : str) : Prop :=
  id ≠ [] ∧ id ≠ LOCAL_ENVIRONMENT_ID ∧ eq_ignore_ascii_case id (lit "none") = false
  ∧ str_len id ≤ 64 ∧ Forall (λ c, environment_id_char c = true) id.

(** The characters an id may contain are not white space. *)
Lemma environment_id_char_ws c : environment_id_char c = true → is_whitespace c = false.
Proof.
  unfold environment_id_char. rewrite !orb_true_iff, !N.eqb_eq.
  assert (ch "-" = 45%N ∧ ch "_" = 95%N) as [-> ->] by (split; vm_compute; reflexivity).
  unfold is_ascii_alphanumeric, is_ascii_alphabetic, is_ascii_digit, is_whitespace, in_range.
  intros H. rewrite !orb_true_iff, !andb_true_iff, !N.leb_le in H.
  apply not_true_is_false. intros Hw. rewrite !orb_true_iff, !andb_true_iff, !N.leb_le, ?N.eqb_eq in Hw.
  lia.
Qed.

Lemma environment_id_trimmed id : Forall (λ c, environment_id_char c = true) id → trim id = id.
Proof.
  intros Hid. rewrite Forall_forall in Hid. apply trim_id. split; intros c Hc.
  - apply environment_id_char_ws, Hid. destruct id; simplify_eq/=. by left.
  - apply environment_id_char_ws, Hid. by apply last_Some_elem_of.
Qed.

Lemma validate_environment_id_Ok id : validate_environment_id id = Ok tt ↔ valid_environment_id id.
Proof.
  unfold validate_environment_id, valid_environment_id, MAX_ENVIRONMENT_ID_LEN. split.
  - destruct (is_empty (trim id)) eqn:He; [done|]. case_str; [|done]. cbn [negb]. case_str; [done|].
    cbn [orb]. destruct (eq_ignore_ascii_case _ _) eqn:Hn; [done|].
    destruct (Nat.ltb_spec 64 (str_len id)); [done|].
    destruct (all environment_id_char id) eqn:Ha; [|done]. intros _. rewrite E in He.
    apply is_empty_false in He. repeat split; try done.
    apply Forall_forall. by apply all_true.
  - intros (Hne & Hl & Hn & Hlen & Hall). rewrite environment_id_trimmed by done.
    rewrite (proj2 (is_empty_false id)) by done. rewrite str_eqb_refl, Hn.
    rewrite (proj2 (str_eqb_false _ _)) by done. cbn [negb orb].
    destruct (Nat.ltb_spec 64 (str_len id)); [lia|].
    by rewrite (proj2 (all_true _ _)) by (by apply Forall_forall).
Qed.

Section Accepts.
Context `{W : ConfigWorld}.

Definition valid_websocket_url (url : str) : Prop :=
  (starts_with (lit "ws://") url = true ∨ starts_with (lit "wss://") url = true)
  ∧ into_client_request url = Ok tt.

Lemma validate_websocket_url_Ok url u :
  validate_websocket_url url = Ok u ↔ u = trim url ∧ valid_websocket_url u.
Proof.
  unfold validate_websocket_url, valid_websocket_url.
  destruct (is_empty (trim url)) eqn:He.
  { apply is_empty_true in He as Ht. rewrite Ht. split; [done|].
    intros [-> [[H|H] _]]; exfalso; by vm_compute in H. }
  destruct (starts_with (lit "ws://") _) eqn:H1, (starts_with (lit "wss://") _) eqn:H2; cbn [negb andb].
  4:{ split; [done|]. intros [-> [[|] _]]; congruence. }
  all: rewrite bind_Ok; setoid_rewrite map_err_Ok; split;
    [intros ([] & Hr & [= <-]); auto | intros [-> [_ Hr]]; eauto].
Qed.

(** Parsing keeps the id, and only accepts valid ones. *)
Lemma parse_environment_toml_id item dir p :
  parse_environment_toml item dir = Ok p → p.1 = toml_id item ∧ valid_environment_id p.1.
Proof.
  unfold parse_environment_toml. intros ([] & Hid & H)%bind_Ok.
  apply validate_environment_id_Ok in Hid. destruct (_ && _); [done|]. destruct (_ && _); [done|].
  apply bind_Ok in H as (t & _ & [= <-]). done.
Qed.

Lemma parse_environments_Ok items dir ids parsed ids' :
  parse_environments items dir ids = Ok (parsed, ids') →
  NoDup parsed.*1 ∧ (∀ id, id ∈ parsed.*1 → valid_environment_id id ∧ id ∉ ids)
  ∧ ids' = list_to_set parsed.*1 ∪ ids
  ∧ Forall2 (λ item p, parse_environment_toml item dir = Ok p) items parsed.
Proof.
  revert ids parsed ids'; induction items as [|item items IH]; intros ids parsed ids'; simpl.
  { intros [= <- <-]. csimpl. split; [constructor|]. split; [by intros ? ?%not_elem_of_nil|].
    split; [set_solver|done]. }
  intros ([id t] & Hp & H)%bind_Ok. case_bool_decide as Hin; [done|].
  apply bind_Ok in H as ([ps ids1] & Hps & [= <- <-]).
  apply IH in Hps as (Hnd & Hall & -> & Hf). csimpl.
  destruct (parse_environment_toml_id _ _ _ Hp) as [_ Hv]. simpl in Hv. split; [|split; [|split]].
  - constructor; [|done]. intros Hid. destruct (Hall _ Hid) as [_ Hn]. set_solver.
  - intros i [->|Hi]%elem_of_cons; [done|]. destruct (Hall _ Hi). set_solver.
  - set_solver.
  - by constructor.
Qed.

(** A default the provider accepts is one of its ids. *)
Lemma normalize_default_Ok d loc ids r :
  normalize_default_environment_id d loc ids = Ok r →
  r = Disabled ∨ ∃ id, r = EnvironmentId id ∧ (id ∈ ids ∨ loc = true ∧ id = LOCAL_ENVIRONMENT_ID).
Proof.
  unfold normalize_default_environment_id. destruct (trim <$> d) as [t|].
  - destruct (is_empty t); [done|]. destruct (eq_ignore_ascii_case t _); [intros [= <-]; by left|].
    case_bool_decide; cbn; intros [= <-]. right. eauto.
  - destruct loc; intros [= <-]; [right; eexists; split; [done|by right]|by left].
Qed.

Definition toml_ids (p : TomlEnvironmentProvider) : list str := (provider_environments p).*1.

Lemma toml_snapshot_ids p : (snap_environments (toml_snapshot p)).*1 = toml_ids p.
Proof.
  unfold toml_ids. cbn. rewrite <-list_fmap_compose. apply list_fmap_ext. by intros i [id t] _.
Qed.

Lemma new_with_config_dir_Ok config dir p :
  new_with_config_dir config dir = Ok p →
  NoDup (toml_ids p) ∧ (∀ id, id ∈ toml_ids p → valid_environment_id id)
  ∧ ∀ id, provider_default p = EnvironmentId id →
      id ∈ toml_ids p ∨ provider_include_local p = true ∧ id = LOCAL_ENVIRONMENT_ID.
Proof.
  unfold new_with_config_dir. intros ([ps ids] & Hps & H)%bind_Ok.
  apply bind_Ok in H as (d & Hd & [= <-]). unfold toml_ids; cbn.
  apply parse_environments_Ok in Hps as (Hnd & Hall & -> & _).
  split; [done|]. split; [by intros id [? _]%Hall|]. intros id ->.
  apply normalize_default_Ok in Hd as [?|(i & [= <-] & [Hi|[Hl ->]])]; [done| |by auto].
  apply elem_of_union in Hi as [Hi|Hi]; [left; by rewrite elem_of_list_to_set in Hi|].
  right. destruct (default true (toml_include_local config)); set_solver.
Qed.

(** A validated file yields a snapshot the manager accepts. *)
Lemma toml_from_snapshot config dir p paths :
  new_with_config_dir config dir = Ok p →
  (provider_include_local p = true → is_Some paths) →
  ∃ m, from_snapshot (toml_snapshot p) paths = Ok m.
Proof.
  intros (Hnd & Hv & Hd)%new_with_config_dir_Ok Hp.
  apply from_snapshot_total; rewrite ?toml_snapshot_ids; try done.
  intros id (? & ? & _)%Hv. done.
Qed.
End Accepts.

(** ** Properties *)

Section Properties.
Context `{W : ConfigWorld}.

Lemma snapshot_inner_total url p : ∃ m, from_snapshot (snapshot_inner url) (Some p) = Ok m.
Proof.
  apply from_snapshot_total; unfold snapshot_inner;
    destruct (normalize_exec_server_url url) as [[u|] []]; cbn; rewrite ?str_eqb_refl; cbn;
    try (by constructor); try (by apply NoDup_singleton); try done; try (by eexists).
  all: try (by intros ? ?%not_elem_of_nil).
  all: try (intros id ->%list_elem_of_singleton; split; by_compute).
  all: intros d [= <-]; first [by right | left; by left].
Qed.

Lemma provider_total home p s :
  environment_provider_from_codex_home home = Ok s →
  ∃ m, from_snapshot s (Some p) = Ok m.
Proof.
  unfold environment_provider_from_codex_home. intros (ex & _ & H)%bind_Ok.
  destruct ex; cbn [negb] in H; [|injection H as <-; apply snapshot_inner_total].
  apply bind_Ok in H as (c & _ & H). apply bind_Ok in H as (pr & Hp & [= <-]).
  eapply toml_from_snapshot; [done|by eexists].
Qed.

(** The two shapes of an accepted entry. *)
Definition url_entry (item : EnvironmentToml) (t : ExecServerTransportParams) : Prop :=
  ∃ url, toml_url item = Some url ∧ toml_program item = None ∧ toml_args item = None
    ∧ toml_env item = None ∧ toml_cwd item = None ∧ valid_websocket_url (trim url)
    ∧ t = WebSocketUrl (trim url)
            (default DEFAULT_REMOTE_EXEC_SERVER_CONNECT_TIMEOUT (connect_timeout_sec item))
            (default DEFAULT_REMOTE_EXEC_SERVER_INITIALIZE_TIMEOUT (initialize_timeout_sec item)).

Definition program_entry (item : EnvironmentToml) (dir : option str)
    (t : ExecServerTransportParams) : Prop :=
  ∃ prog cwd', toml_url item = None ∧ toml_program item = Some prog
    ∧ connect_timeout_sec item = None ∧ trim prog ≠ []
    ∧ match toml_cwd item with
      | None => cwd' = None
      | Some c => if path_is_absolute c then cwd' = Some c
                  else ∃ d, dir = Some d ∧ cwd' = Some (path_join d c)
      end
    ∧ t = StdioCommand {| program := trim prog; args := default [] (toml_args item);
                          env := default ∅ (toml_env item); cmd_cwd := cwd' |}
            (default DEFAULT_REMOTE_EXEC_SERVER_INITIALIZE_TIMEOUT (initialize_timeout_sec item)).

Lemma normalize_stdio_cwd_Ok id c dir c' :
  normalize_stdio_cwd id c dir = Ok c' ↔
    match c with
    | None => c' = None
    | Some c => if path_is_absolute c then c' = Some c
                else ∃ d, dir = Some d ∧ c' = Some (path_join d c)
    end.
Proof.
  unfold normalize_stdio_cwd. destruct c as [c|]; [|split; by intros; simplify_eq].
  destruct (path_is_absolute c); [split; by intros; simplify_eq|].
  destruct dir as [d|]; [|by split; [|intros (? & ? & _)]].
  split; [intros [= <-]; eauto|]. by intros (? & [= <-] & ->).
Qed.

(** validation of one [environments.toml] entry is exact.  An entry is
    accepted iff its id is non-empty, at most 64 bytes of ASCII letters, digits,
    [-] and [_], and neither [local] nor (in any case) [none]; and it is either a
    URL entry (a trimmed [ws://] or [wss://] URL the WebSocket client accepts, no
    program, args, env or cwd) or a program entry (a non-blank program, no URL, no
    connect timeout, a working directory that is absolute or resolved against the
    configuration directory).  The transport is determined by the entry. *)
Theorem parse_environment_toml_exact item dir id t :
  parse_environment_toml item dir = Ok (id, t) ↔
    id = toml_id item ∧ valid_environment_id id
    ∧ (url_entry item t ∨ program_entry item dir t).
Proof.
  unfold parse_environment_toml, url_entry, program_entry. rewrite bind_Ok. split.
  - intros ([] & Hid%validate_environment_id_Ok & H).
    destruct (toml_url item) as [url|], (toml_program item) as [prog|]; cbn [opt_is_some negb andb] in H.
    + by apply bind_Ok in H as (? & ? & _).
    + destruct (toml_args item), (toml_env item), (toml_cwd item); try done. cbn [orb opt_is_some] in H.
      apply bind_Ok in H as (t' & (u & [-> Hu]%validate_websocket_url_Ok & [= <-])%bind_Ok & [= <- <-]).
      eauto 15.
    + destruct (connect_timeout_sec item); [done|]. cbn [opt_is_some] in H.
      destruct (is_empty (trim prog)) eqn:He; [done|]. apply is_empty_false in He.
      apply bind_Ok in H as (t' & (c & Hc%normalize_stdio_cwd_Ok & [= <-])%bind_Ok & [= <- <-]).
      eauto 15.
    + destruct (_ || _); [done|]. destruct (opt_is_some _); [done|].
      by apply bind_Ok in H as (? & ? & _).
  - intros (-> & Hid & Hk). exists tt. split; [by apply validate_environment_id_Ok|].
    destruct Hk as [(url & -> & -> & -> & -> & -> & Hu & ->)|(prog & c & -> & -> & -> & Hp & Hc & ->)];
      cbn [opt_is_some negb andb orb].
    + rewrite (proj2 (validate_websocket_url_Ok url (trim url))) by done. done.
    + rewrite (proj2 (is_empty_false _)) by done.
      apply (normalize_stdio_cwd_Ok (toml_id item)) in Hc. by rewrite Hc.
Qed.

(** start-up never fails after validation.  Given runtime paths, building
    the manager from [CODEX_HOME] succeeds exactly when the provider does (the file
    is absent, or readable and valid): the manager's own consistency checks never
    reject what the provider accepted.  The manager is then well formed. *)
Theorem from_codex_home_total home p :
  ((∃ s, environment_provider_from_codex_home home = Ok s) ↔
   (∃ m, from_codex_home home (Some p) = Ok m))
  ∧ ∀ m, from_codex_home home (Some p) = Ok m → manager_wf m.
Proof.
  unfold from_codex_home. split; [split|].
  - intros [s Hs]. destruct (provider_total home p s Hs) as [m Hm]. exists m. by rewrite Hs.
  - intros (m & (s & Hs & _)%bind_Ok). by exists s.
  - intros m (s & _ & Hm)%bind_Ok. by eapply from_snapshot_wf.
Qed.
End Properties.

(** A world in which [/h/environments.toml] lists one SSH program. *)
Definition demo_toml : EnvironmentsToml :=
  {| toml_default := Some (lit " build "); toml_include_local := None;
     toml_environments := [{| toml_id := lit "build"; toml_url := None;
       toml_program := Some (lit "ssh"); toml_args := Some [lit "build-host"]; toml_env := None;
       toml_cwd := Some (lit "work"); connect_timeout_sec := None;
       initialize_timeout_sec := None |}] |}.
Definition demo_config_world : ConfigWorld :=
  {| try_exists := λ _, Ok true; read_to_string := λ _, Ok []; toml_from_str := λ _, Ok demo_toml;
     into_client_request := λ _, Ok tt; exec_server_url_var := None |}.

Lemma from_codex_home_total_witness :
  ∃ m, from_codex_home (W := demo_config_world) (lit "/h") (Some demo_paths) = Ok m
       ∧ default_environment_id m = Some (lit "build") ∧ manager_wf m.
Proof.
  pose proof (from_codex_home_total (W := demo_config_world) (lit "/h") demo_paths) as [_ Hwf].
  eexists. split; [vm_compute; reflexivity|]. split; [vm_compute; reflexivity|].
  apply Hwf. vm_compute. reflexivity.
Defined.
