(* ===== verification/EnvResolve.v ===== *)
(** * Which environment a tool call runs in

    codex-rs/core/src/tools/handlers/mod.rs (thread keys, visibility,
    [resolve_tool_environment], [environment_selections_with_default]),
    core/src/session/turn_context.rs ([TurnEnvironment]) and
    core/src/environment_selection.rs (a thread's environment snapshot).

    A turn freezes a list of environments; [env_switch] moves a per-thread cursor
    in the shared manager.  A tool call that names no environment follows the
    cursor of its thread, then of the parent thread, then the turn's primary
    environment.

    [PathUri] (codex-rs/utils/path-uri) is used through its two conversions only;
    the class [PathUris] states the documented law that a URI made from a host path
    converts back to it.  The future that snapshots a shell's state, carried by a
    [TurnEnvironment], does not influence resolution and is left out. *)

From S2P Require Import Prelude.
From S2P Require Import RustStr.
From S2P Require Import Launcher.
From S2P Require Import AbsPath.
From S2P Require Import HostShell.
From S2P Require Import Permissions.
From S2P Require Import EnvManager.

(** ** File URIs *)

Class PathUris := {
  PathUri : Type;
  PathUri_eq_dec : EqDecision PathUri;
  from_abs_path : str → PathUri;
  to_abs_path : PathUri → result str str }.
#[export] Existing Instance PathUri_eq_dec.

(** "Conversion should succeed when the URI was created from an
    [AbsolutePathBuf] on the current host" (path-uri/src/lib.rs). *)
Class PathUriLaws `{PU : PathUris} : Prop :=
  to_from_abs_path : ∀ p, to_abs_path (from_abs_path p) = Ok p.

(** ** Turn environments (turn_context.rs) *)

Section Turn.
Context `{PU : PathUris}.

Record TurnEnvironmentSelection := {
  sel_environment_id : str;
  sel_cwd : PathUri }.

Record TurnEnvironment := {
  te_environment_id : str;
  te_environment : Environment;
  te_cwd : str;
  te_cwd_uri : PathUri;
  te_shell : option Shell }.

(** [TurnEnvironment::new] *)
Definition turn_environment_new (id : str) (e : Environment) (cwd : str) (sh : option Shell)
    : TurnEnvironment :=
  {| te_environment_id := id; te_environment := e; te_cwd := cwd;
     te_cwd_uri := from_abs_path cwd; te_shell := sh |}.

Definition selection (te : TurnEnvironment) : TurnEnvironmentSelection :=
  {| sel_environment_id := te_environment_id te; sel_cwd := te_cwd_uri te |}.

(** [TurnEnvironmentSnapshot] is the list of a turn's environments. *)
Definition primary (envs : list TurnEnvironment) : option TurnEnvironment := head envs.

Definition snapshot_local_environment (envs : list TurnEnvironment) : option TurnEnvironment :=
  find (λ te, negb (is_remote (te_environment te))) envs.

Definition to_selections (envs : list TurnEnvironment) : list TurnEnvironmentSelection :=
  selection <$> envs.

Definition single_local_environment (envs : list TurnEnvironment) : option TurnEnvironment :=
  match envs with
  | [te] => if negb (is_remote (te_environment te)) then Some te else None
  | _ => None
  end.

Definition single_local_environment_cwd (envs : list TurnEnvironment) : option str :=
  te_cwd <$> single_local_environment envs.

(** The two representations of the working directory agree. *)
Definition turn_environment_wf (te : TurnEnvironment) : Prop :=
  te_cwd_uri te = from_abs_path (te_cwd te).

Record Session := {
  thread_id : str;
  environment_manager : EnvironmentManager }.

(** What the handlers read of a [TurnContext]. *)
Record TurnContext := {
  turn_environments : list TurnEnvironment;
  parent_thread_id : option str;
  turn_cwd : str;
  permission_profile : PermissionProfile;
  approval_policy : AskForApproval }.
End Turn.

Inductive FunctionCallError := RespondToModel (msg : str) | Fatal (msg : str).

(** ** Resolution (tools/handlers/mod.rs) *)

Section Resolve.
Context `{PU : PathUris} `{HW : HostWorld}.

Definition environment_thread_keys (session : Session) (turn : TurnContext) : list str :=
  thread_id session ::
    match parent_thread_id turn with
    | Some p => if negb (p == thread_id session) then [p] else []
    | None => []
    end.

Definition dynamic_environment_visible_to_thread (session : Session) (turn : TurnContext)
    (id : str) : bool :=
  any (λ k, any (λ i, i == id) (get_thread_environment_ids (environment_manager session) k))
    (environment_thread_keys session turn).

Definition last_env_switch_environment_id (session : Session) (turn : TurnContext) : option str :=
  find_map (get_last_environment_id (environment_manager session))
    (environment_thread_keys session turn).

Definition unknown_environment (id : str) : FunctionCallError :=
  RespondToModel (lit "unknown turn environment id `" ++ id ++ lit "`").

Definition turn_environment_from_env_switch_metadata (session : Session) (turn : TurnContext)
    (id : str) : result FunctionCallError TurnEnvironment :=
  let m := environment_manager session in
  match get_environment m id with
  | None => Err (unknown_environment id)
  | Some environment =>
      match get_thread_environment_metadata_for_keys m (environment_thread_keys session turn) id with
      | None =>
          Err (RespondToModel (lit "environment `" ++ id ++ lit
            "` is registered but missing cwd metadata; rerun env_switch for this target"))
      | Some meta =>
          cwd ← map_err (λ e, RespondToModel (lit "environment `" ++ id
                   ++ lit "` has invalid cwd metadata `" ++ cwd meta ++ lit "`: " ++ e))
                  (from_absolute_path_checked home_dir (cwd meta));
          Ok (turn_environment_new id environment cwd
                (get_shell_by_model_provided_path <$> meta_shell meta))
      end
  end.

Definition default_tool_environment_id (session : Session) (turn : TurnContext) : option str :=
  opt_or (last_env_switch_environment_id session turn)
         (te_environment_id <$> primary (turn_environments turn)).

(** The choice once the id is known; [implicit_from_env_switch] says the id is
    the thread's cursor. *)
Definition resolve_environment_id (session : Session) (turn : TurnContext) (id : str)
    (implicit_from_env_switch : bool) : result FunctionCallError (option TurnEnvironment) :=
  let in_turn := find (λ te, te_environment_id te == id) (turn_environments turn) in
  if id == LOCAL_ENVIRONMENT_ID then
    match find (λ te, te_environment_id te == LOCAL_ENVIRONMENT_ID) (turn_environments turn) with
    | Some found => Ok (Some found)
    | None =>
        match try_local_environment (environment_manager session) with
        | Some environment =>
            Ok (Some (turn_environment_new LOCAL_ENVIRONMENT_ID environment (turn_cwd turn) None))
        | None =>
            Err (RespondToModel (lit "local host environment is not registered in this session"))
        end
    end
  else if implicit_from_env_switch then
    te ← turn_environment_from_env_switch_metadata session turn id; Ok (Some te)
  else
    match in_turn with
    | Some found => Ok (Some found)
    | None =>
        if negb (dynamic_environment_visible_to_thread session turn id) then
          Err (unknown_environment id)
        else if opt_is_some (get_environment (environment_manager session) id) then
          te ← turn_environment_from_env_switch_metadata session turn id; Ok (Some te)
        else Err (unknown_environment id)
    end.

Definition resolve_tool_environment (session : Session) (turn : TurnContext)
    (environment_id : option str) : result FunctionCallError (option TurnEnvironment) :=
  match environment_id with
  | Some id => resolve_environment_id session turn id false
  | None =>
      match default_tool_environment_id session turn with
      | None => Ok None
      | Some id =>
          resolve_environment_id session turn id
            (bool_decide (last_env_switch_environment_id session turn = Some id))
      end
  end.

(** Metadata for a default selection: the thread's, else the process-wide one. *)
Definition default_selection_metadata (session : Session) (turn : TurnContext) (id : str)
    : option EnvironmentMetadata :=
  opt_or (get_thread_environment_metadata_for_keys (environment_manager session)
            (environment_thread_keys session turn) id)
         (get_environment_metadata (environment_manager session) id).

Definition metadata_cwd (md : option EnvironmentMetadata) : option str :=
  md ≫= λ md, match from_absolute_path_checked home_dir (cwd md) with
              | Ok c => Some c
              | Err _ => None
              end.

(** The directory of the default selection follows the metadata. *)
Definition refresh_default_selection (session : Session) (turn : TurnContext) (d : str)
    (sel : TurnEnvironmentSelection) : TurnEnvironmentSelection :=
  if negb (d == LOCAL_ENVIRONMENT_ID) then
    match metadata_cwd (default_selection_metadata session turn d) with
    | Some c => {| sel_environment_id := sel_environment_id sel; sel_cwd := from_abs_path c |}
    | None => sel
    end
  else sel.

(** [iter().position(p)] *)
Fixpoint position {A} (p : A → bool) (l : list A) : option nat :=
  match l with
  | [] => None
  | a :: l => if p a then Some 0 else S <$> position p l
  end.

Definition environment_selections_with_default (session : Session) (turn : TurnContext)
    : list TurnEnvironmentSelection :=
  let selections := to_selections (turn_environments turn) in
  let m := environment_manager session in
  match default_tool_environment_id session turn with
  | None => selections
  | Some d =>
      match position (λ s, sel_environment_id s == d) selections with
      | Some index =>
          match selections !! index with
          | Some sel => refresh_default_selection session turn d sel :: delete index selections
          | None => selections
          end
      | None =>
          let cwd :=
            if d == LOCAL_ENVIRONMENT_ID then
              (λ _, turn_cwd turn) <$> try_local_environment m
            else
              get_environment m d ≫= λ _,
              metadata_cwd (default_selection_metadata session turn d) in
          match cwd with
          | None => selections
          | Some c => {| sel_environment_id := d; sel_cwd := from_abs_path c |} :: selections
          end
      end
  end.
End Resolve.

(** ** Thread environments (environment_selection.rs) *)

Section ThreadEnvironments.
Context `{PU : PathUris} `{HW : HostWorld} `{HO : HashOrder}.
(** [Environment::info]: a request to the exec-server of the environment. *)
Context (environment_info : Environment → result str ShellInfo).

Definition default_thread_environment_selections (m : EnvironmentManager) (cwd : str)
    : list TurnEnvironmentSelection :=
  (λ id, {| sel_environment_id := id; sel_cwd := from_abs_path cwd |})
    <$> default_environment_ids m.

Inductive CodexErr := InvalidRequest (msg : str).

Definition ok {E A} (r : result E A) : option A :=
  match r with Ok a => Some a | Err _ => None end.

Definition resolve_selection (m : EnvironmentManager) (local_shell : Shell)
    (sel : TurnEnvironmentSelection) : result CodexErr TurnEnvironment :=
  let id := sel_environment_id sel in
  environment ← ok_or (get_environment m id)
    (InvalidRequest (lit "unknown turn environment id `" ++ id ++ lit "`"));
  let metadata_shell :=
    get_shell_by_model_provided_path
      <$> (get_environment_metadata m id ≫= meta_shell) in
  let shell :=
    if opt_is_some metadata_shell then metadata_shell
    else if is_remote environment then
      ok (environment_info environment) ≫= λ info, ok (from_environment_shell_info info)
    else Some local_shell in
  cwd ← map_err (λ e, InvalidRequest (lit "turn environment cwd is not valid on this host: " ++ e))
          (to_abs_path (sel_cwd sel));
  Ok (turn_environment_new id environment cwd shell).

(** One selection: an environment of the current snapshot with the same id and
    working directory is reused, an unresolvable one is skipped. *)
Definition resolve_one (m : EnvironmentManager) (local_shell : Shell)
    (current : list TurnEnvironment) (sel : TurnEnvironmentSelection) : option TurnEnvironment :=
  match find (λ te, (te_environment_id te == sel_environment_id sel)
                    && bool_decide (te_cwd_uri te = sel_cwd sel)) current with
  | Some te => Some te
  | None => ok (resolve_selection m local_shell sel)
  end.

Fixpoint resolve_snapshot_loop (m : EnvironmentManager) (local_shell : Shell)
    (current : list TurnEnvironment) (seen : gset str)
    (environments : list TurnEnvironmentSelection) : list TurnEnvironment :=
  match environments with
  | [] => []
  | sel :: environments =>
      if bool_decide (sel_environment_id sel ∈ seen)
      then resolve_snapshot_loop m local_shell current seen environments
      else
        option_list (resolve_one m local_shell current sel)
        ++ resolve_snapshot_loop m local_shell current ({[sel_environment_id sel]} ∪ seen) environments
  end.

Definition resolve_snapshot (m : EnvironmentManager) (local_shell : Shell)
    (current : list TurnEnvironment) (environments : list TurnEnvironmentSelection)
    : list TurnEnvironment :=
  resolve_snapshot_loop m local_shell current ∅ environments.

(** [update_selections]: the previous snapshot is used if its task has finished
    ([peek]); the new task computes the snapshot below. *)
Definition update_selections (m : EnvironmentManager) (local_shell : Shell)
    (finished : option (list TurnEnvironment)) (environments : list TurnEnvironmentSelection)
    : list TurnEnvironment :=
  resolve_snapshot m local_shell (default [] finished) environments.

(** *** Lemmas *)

Lemma resolve_one_id m sh cur sel te :
  resolve_one m sh cur sel = Some te → te_environment_id te = sel_environment_id sel.
Proof.
  unfold resolve_one. destruct (find _ cur) as [x|] eqn:Hf.
  - intros [= <-]. apply find_Some in Hf as [_ H%andb_true_iff].
    by destruct H as [H%str_eqb_true _].
  - destruct (resolve_selection m sh sel) as [x|] eqn:Hr; [|done]. intros [= <-].
    apply bind_Ok in Hr as (e & _ & Hr). by apply bind_Ok in Hr as (c & _ & [= <-]).
Qed.

Lemma resolve_loop_ids m sh cur seen envs te :
  te ∈ resolve_snapshot_loop m sh cur seen envs → te_environment_id te ∉ seen.
Proof.
  revert seen; induction envs as [|sel envs IH]; intros seen; simpl; [by intros ?%not_elem_of_nil|].
  case_bool_decide as Hs; [apply IH|]. intros [H|H]%elem_of_app.
  - destruct (resolve_one m sh cur sel) as [x|] eqn:Hx; [|by apply not_elem_of_nil in H].
    apply list_elem_of_singleton in H as ->. by rewrite (resolve_one_id _ _ _ _ _ Hx).
  - specialize (IH _ H). set_solver.
Qed.

Lemma resolve_loop_NoDup m sh cur seen envs :
  NoDup (te_environment_id <$> resolve_snapshot_loop m sh cur seen envs).
Proof.
  revert seen; induction envs as [|sel envs IH]; intros seen; simpl; [constructor|].
  case_bool_decide as Hs; [apply IH|].
  destruct (resolve_one m sh cur sel) as [x|] eqn:Hx; simpl; [|apply IH]. constructor; [|apply IH].
  intros (y & Hy & Hin)%list_elem_of_fmap. apply resolve_loop_ids in Hin.
  rewrite <-Hy, (resolve_one_id _ _ _ _ _ Hx) in Hin. set_solver.
Qed.

Lemma resolve_loop_elem m sh cur seen envs te :
  te ∈ resolve_snapshot_loop m sh cur seen envs →
  ∃ sel, sel ∈ envs ∧ resolve_one m sh cur sel = Some te.
Proof.
  revert seen; induction envs as [|sel envs IH]; intros seen; simpl; [by intros ?%not_elem_of_nil|].
  case_bool_decide as Hs; [intros (s & ? & ?)%IH; set_solver|]. intros [H|H]%elem_of_app.
  - destruct (resolve_one m sh cur sel) as [x|] eqn:Hx; [|by apply not_elem_of_nil in H].
    apply list_elem_of_singleton in H as ->. exists sel. split; [by left|done].
  - apply IH in H as (s & ? & ?). set_solver.
Qed.

(** A resolved environment is reused as long as its selection is unchanged. *)
Lemma resolve_one_current m sh cur te :
  te ∈ cur → NoDup (te_environment_id <$> cur) → resolve_one m sh cur (selection te) = Some te.
Proof.
  intros Hin Hnd. unfold resolve_one. destruct (find _ cur) as [x|] eqn:Hf.
  - apply find_Some in Hf as [Hx H%andb_true_iff]. destruct H as [H%str_eqb_true _]. simpl in H.
    f_equal. apply list_elem_of_lookup in Hin as [i Hi], Hx as [j Hj].
    assert (i = j) as ->; [|congruence]. eapply NoDup_lookup; [exact Hnd| |].
    + by rewrite list_lookup_fmap, Hi.
    + rewrite list_lookup_fmap, Hj. simpl. by rewrite H.
  - rewrite find_None in Hf. specialize (Hf _ Hin). simpl in Hf.
    by rewrite str_eqb_refl, bool_decide_true in Hf.
Qed.

Lemma resolve_loop_stable m sh cur seen l :
  (∀ te, te ∈ l → te ∈ cur ∧ te_environment_id te ∉ seen) →
  NoDup (te_environment_id <$> l) → NoDup (te_environment_id <$> cur) →
  resolve_snapshot_loop m sh cur seen (to_selections l) = l.
Proof.
  revert seen; induction l as [|te l IH]; intros seen Hl Hnd Hc; [done|].
  change (to_selections (te :: l)) with (selection te :: to_selections l).
  cbn [resolve_snapshot_loop sel_environment_id selection]. csimpl in Hnd. apply NoDup_cons in Hnd as [Hn Hnd].
  destruct (Hl te (list_elem_of_here _ _)) as [Hte Hs]. rewrite bool_decide_false by done.
  rewrite resolve_one_current by done. simpl. f_equal. apply IH; [|done|done].
  intros x Hx. destruct (Hl x (list_elem_of_further _ _ _ Hx)) as [? Hsx]. split; [done|].
  apply not_elem_of_union. split; [|done]. rewrite elem_of_singleton. intros Heq. apply Hn.
  rewrite <-Heq. by apply list_elem_of_fmap_2.
Qed.
End ThreadEnvironments.

(** ** Lemmas on resolution *)

Section ResolveLemmas.
Context `{PU : PathUris} `{HW : HostWorld}.
Implicit Types (s : Session) (turn : TurnContext).

Lemma visible_true s turn id :
  dynamic_environment_visible_to_thread s turn id = true ↔
    ∃ k, k ∈ environment_thread_keys s turn
         ∧ id ∈ get_thread_environment_ids (environment_manager s) k.
Proof.
  unfold dynamic_environment_visible_to_thread. rewrite any_true.
  setoid_rewrite any_true. setoid_rewrite str_eqb_true. naive_solver.
Qed.

(** What an environment synthesised from [env_switch] metadata is. *)
Lemma from_metadata_Ok s turn id te :
  turn_environment_from_env_switch_metadata s turn id = Ok te ↔
    ∃ e md c, get_environment (environment_manager s) id = Some e
      ∧ get_thread_environment_metadata_for_keys (environment_manager s)
          (environment_thread_keys s turn) id = Some md
      ∧ from_absolute_path_checked home_dir (cwd md) = Ok c
      ∧ te = turn_environment_new id e c (get_shell_by_model_provided_path <$> meta_shell md).
Proof.
  unfold turn_environment_from_env_switch_metadata.
  destruct (get_environment _ id) as [e|]; [|naive_solver].
  destruct (get_thread_environment_metadata_for_keys _ _ id) as [md|]; [|naive_solver].
  rewrite bind_Ok. setoid_rewrite map_err_Ok. naive_solver.
Qed.


(** The three origins of a resolved environment. *)
Definition from_turn turn (te : TurnEnvironment) : Prop := te ∈ turn_environments turn.

Definition from_local s turn (te : TurnEnvironment) : Prop :=
  ∃ e, try_local_environment (environment_manager s) = Some e
       ∧ te = turn_environment_new LOCAL_ENVIRONMENT_ID e (turn_cwd turn) None.

Definition from_env_switch s turn (te : TurnEnvironment) : Prop :=
  turn_environment_from_env_switch_metadata s turn (te_environment_id te) = Ok te
  ∧ (dynamic_environment_visible_to_thread s turn (te_environment_id te) = true
     ∨ last_env_switch_environment_id s turn = Some (te_environment_id te)).

Lemma resolve_id_Ok s turn id b r :
  resolve_environment_id s turn id b = Ok r →
  (b = true → last_env_switch_environment_id s turn = Some id) →
  ∃ te, r = Some te ∧ te_environment_id te = id
        ∧ (from_turn turn te ∨ from_local s turn te ∨ from_env_switch s turn te).
Proof.
  intros H Hb. unfold resolve_environment_id in H. destruct (str_eqb id _) eqn:Hl.
  - apply str_eqb_true in Hl as ->. destruct (find _ _) as [te|] eqn:Hf.
    { injection H as <-. apply find_Some in Hf as [? ?%str_eqb_true]. by exists te; auto. }
    destruct (try_local_environment _) as [e|] eqn:He; simplify_eq.
    eexists. split; [done|]. split; [done|]. right; left. by exists e.
  - assert (∀ te, turn_environment_from_env_switch_metadata s turn id = Ok te →
      te_environment_id te = id) as Hid.
    { intros te (e & md & c & _ & _ & _ & ->)%from_metadata_Ok. done. }
    destruct b.
    { apply bind_Ok in H as (te & Hte & [= <-]). pose proof (Hid _ Hte) as <-.
      exists te. split; [done|]. split; [done|]. right; right. split; auto. }
    destruct (find _ _) as [te|] eqn:Hf.
    { injection H as <-. apply find_Some in Hf as [? ?%str_eqb_true]. by exists te; auto. }
    destruct (dynamic_environment_visible_to_thread s turn id) eqn:Hv; [|done].
    destruct (opt_is_some _); [|done]. cbn in H.
    apply bind_Ok in H as (te & Hte & [= <-]). pose proof (Hid _ Hte) as <-.
    exists te. split; [done|]. split; [done|]. right; right. split; auto.
Qed.

Lemma resolve_Ok s turn oid te :
  resolve_tool_environment s turn oid = Ok (Some te) →
  default (te_environment_id te) oid = te_environment_id te
  ∧ (oid = None → default_tool_environment_id s turn = Some (te_environment_id te))
  ∧ (from_turn turn te ∨ from_local s turn te ∨ from_env_switch s turn te).
Proof.
  unfold resolve_tool_environment. destruct oid as [id|].
  - intros (te' & [= <-] & <- & H)%resolve_id_Ok; [|done]. done.
  - destruct (default_tool_environment_id s turn) as [id|] eqn:Hd; [|done].
    intros (te' & [= <-] & <- & H)%resolve_id_Ok; [done|]. apply bool_decide_eq_true.
Qed.
End ResolveLemmas.

(** ** Resolution reads the thread's own state only *)

Section Frame.
Context `{PU : PathUris} `{HW : HostWorld}.

(** Managers that agree on the environments and on the entries of [keys]. *)
Record agree_on (keys : list str) (m1 m2 : EnvironmentManager) : Prop := {
  agree_envs : environments m1 = environments m2;
  agree_local : local_environment m1 = local_environment m2;
  agree_metadata k : k ∈ keys → thread_env_metadata m1 !! k = thread_env_metadata m2 !! k;
  agree_cursor k : k ∈ keys → last_environment_id m1 !! k = last_environment_id m2 !! k;
  agree_ids k : k ∈ keys → thread_environment_ids m1 !! k = thread_environment_ids m2 !! k }.

Lemma find_map_ext {A B} (f g : A → option B) l :
  (∀ a, a ∈ l → f a = g a) → find_map f l = find_map g l.
Proof.
  induction l as [|a l IH]; intros H; simpl; [done|].
  rewrite (H a (list_elem_of_here _ _)). destruct (g a); [done|].
  apply IH. intros x Hx. apply H. by right.
Qed.

Lemma any_ext {A} (f g : A → bool) l : (∀ a, a ∈ l → f a = g a) → any f l = any g l.
Proof.
  induction l as [|a l IH]; intros H; simpl; [done|].
  rewrite (H a (list_elem_of_here _ _)). f_equal. apply IH. intros x Hx. apply H. by right.
Qed.

Context (tid : str) (m1 m2 : EnvironmentManager) (turn : TurnContext).
Let s1 := {| thread_id := tid; environment_manager := m1 |}.
Let s2 := {| thread_id := tid; environment_manager := m2 |}.
Hypothesis Hagree : agree_on (environment_thread_keys s1 turn) m1 m2.

Lemma frame_cursor : last_env_switch_environment_id s1 turn = last_env_switch_environment_id s2 turn.
Proof. apply find_map_ext. intros k Hk. by apply Hagree. Qed.

Lemma frame_visible id :
  dynamic_environment_visible_to_thread s1 turn id = dynamic_environment_visible_to_thread s2 turn id.
Proof.
  apply any_ext. intros k Hk. cbn. unfold get_thread_environment_ids.
  by rewrite (agree_ids _ _ _ Hagree k Hk).
Qed.

Lemma frame_metadata id :
  turn_environment_from_env_switch_metadata s1 turn id
  = turn_environment_from_env_switch_metadata s2 turn id.
Proof.
  unfold turn_environment_from_env_switch_metadata.
  change (environment_thread_keys s2 turn) with (environment_thread_keys s1 turn).
  assert (get_thread_environment_metadata_for_keys m1 (environment_thread_keys s1 turn) id
    = get_thread_environment_metadata_for_keys m2 (environment_thread_keys s1 turn) id) as Hm.
  { apply find_map_ext. intros k Hk. by rewrite (agree_metadata _ _ _ Hagree k Hk). }
  unfold get_environment. cbn [environment_manager s1 s2]. rewrite Hm.
  by rewrite (agree_envs _ _ _ Hagree).
Qed.

Lemma frame_resolve oid :
  resolve_tool_environment s1 turn oid = resolve_tool_environment s2 turn oid.
Proof.
  unfold resolve_tool_environment, default_tool_environment_id, resolve_environment_id.
  rewrite frame_cursor. unfold try_local_environment, get_environment.
  change (environment_manager s1) with m1. change (environment_manager s2) with m2.
  rewrite (agree_envs _ _ _ Hagree), (agree_local _ _ _ Hagree).
  destruct oid as [id|]; [by rewrite frame_visible, frame_metadata|].
  destruct (opt_or _ _) as [id|]; [by rewrite frame_visible, frame_metadata|done].
Qed.
End Frame.

(** ** The selections a turn hands on *)

Section Selections.
Context `{PU : PathUris} `{HW : HostWorld}.

Lemma position_find {A} (p : A → bool) l :
  match position p l with
  | Some i => ∃ a, l !! i = Some a ∧ find p l = Some a
  | None => find p l = None
  end.
Proof.
  induction l as [|a l IH]; simpl; [done|]. destruct (p a); [by exists a|].
  by destruct (position p l).
Qed.

Lemma find_selection id envs :
  find (λ s, sel_environment_id s == id) (to_selections envs)
  = selection <$> find (λ te, te_environment_id te == id) envs.
Proof. induction envs as [|te envs IH]; simpl; [done|]. by destruct (_ == _). Qed.

(** Deleting an element the filter rejects. *)
Lemma filter_delete {A} (p : A → bool) l i a :
  l !! i = Some a → p a = false → List.filter p (delete i l) = List.filter p l.
Proof.
  revert i; induction l as [|b l IH]; intros [|i] Hi Hp; simplify_eq/=; [by rewrite Hp|].
  by rewrite IH.
Qed.

Lemma refresh_id s turn d sel :
  sel_environment_id (refresh_default_selection s turn d sel) = sel_environment_id sel.
Proof. unfold refresh_default_selection. destruct (negb _); [|done]. by destruct (metadata_cwd _). Qed.

Lemma metadata_selection s turn id te :
  turn_environment_from_env_switch_metadata s turn id = Ok te →
  is_Some (get_environment (environment_manager s) id)
  ∧ metadata_cwd (default_selection_metadata s turn id) = Some (te_cwd te).
Proof.
  intros (e & md & c & He & Hmd & Hc & ->)%from_metadata_Ok. split; [by eexists|].
  unfold default_selection_metadata, metadata_cwd. rewrite Hmd. simpl. by rewrite Hc.
Qed.

Lemma resolve_default_cases s turn te :
  resolve_tool_environment s turn None = Ok (Some te) →
  let id := te_environment_id te in
  default_tool_environment_id s turn = Some id ∧
  (id = LOCAL_ENVIRONMENT_ID
     ∧ match find (λ te, te_environment_id te == id) (turn_environments turn) with
       | Some found => te = found
       | None => from_local s turn te
       end
   ∨ id ≠ LOCAL_ENVIRONMENT_ID ∧ turn_environment_from_env_switch_metadata s turn id = Ok te
   ∨ id ≠ LOCAL_ENVIRONMENT_ID ∧ last_env_switch_environment_id s turn = None
     ∧ find (λ te, te_environment_id te == id) (turn_environments turn) = Some te).
Proof.
  intros H id. destruct (resolve_Ok _ _ _ _ H) as (_ & Hd & _). specialize (Hd eq_refl). split; [done|].
  unfold resolve_tool_environment in H. rewrite Hd in H. fold id in H, Hd.
  unfold resolve_environment_id in H. case_str.
  - left. split; [done|]. rewrite E. destruct (find _ _) as [f|]; [by injection H|].
    destruct (try_local_environment _) as [e|] eqn:He; [|done]. injection H as <-. by exists e.
  - right. destruct (bool_decide _) eqn:Hb.
    { left. apply bind_Ok in H as (te' & Hte & [= <-]). done. }
    right. apply bool_decide_eq_false in Hb. unfold default_tool_environment_id in Hd.
    destruct (last_env_switch_environment_id s turn) as [l|] eqn:Hl; [by simplify_eq/=|].
    split; [done|]. split; [done|]. destruct (find _ _) as [f|] eqn:Hf; [by injection H as ->|].
    simpl in Hd. destruct (turn_environments turn) as [|p ps]; [done|]. injection Hd as Hp.
    simpl in Hf. by rewrite Hp, str_eqb_refl in Hf.
Qed.
End Selections.

(** ** Properties *)

Section Properties.
Context `{PU : PathUris} `{HW : HostWorld}.


(** thread isolation of resolution.  Two managers that agree on the
    registered environments and on what is stored under the keys of a thread (its own
    id and its parent's) resolve every tool call of that thread alike: cursors, ids
    and metadata of unrelated threads have no influence. *)
Theorem resolve_tool_environment_frame tid m1 m2 turn oid :
  agree_on (environment_thread_keys {| thread_id := tid; environment_manager := m1 |} turn) m1 m2 →
  resolve_tool_environment {| thread_id := tid; environment_manager := m1 |} turn oid
  = resolve_tool_environment {| thread_id := tid; environment_manager := m2 |} turn oid.
Proof. intros H. by apply frame_resolve. Qed.

(** the selections handed on agree with what tools resolve.  If a call
    without an environment id resolves to [te], the first selection has [te]'s id,
    the other selections keep their order, and the first one has [te]'s directory
    whenever the default came from [env_switch] or no metadata is recorded for it. *)
Theorem selections_follow_resolution s turn te :
  Forall turn_environment_wf (turn_environments turn) →
  resolve_tool_environment s turn None = Ok (Some te) →
  let id := te_environment_id te in
  let others := List.filter (λ x, negb (sel_environment_id x == id)) in
  ∃ sel rest, environment_selections_with_default s turn = sel :: rest
    ∧ sel_environment_id sel = id
    ∧ others rest = others (to_selections (turn_environments turn))
    ∧ (is_Some (last_env_switch_environment_id s turn)
       ∨ default_selection_metadata s turn id = None →
       sel_cwd sel = from_abs_path (te_cwd te)).
Proof.
  intros Hwf Hres id others. destruct (resolve_default_cases _ _ _ Hres) as [Hd Hcase].
  clear Hres. unfold environment_selections_with_default. rewrite Hd. fold id in Hcase |- *.
  pose proof (position_find (λ x, sel_environment_id x == id) (to_selections (turn_environments turn)))
    as Hpos. rewrite find_selection in Hpos.
  destruct (position _ _) as [i|].
  - destruct Hpos as (sel & Hi & Hsel). rewrite Hi.
    destruct (find _ (turn_environments turn)) as [f|] eqn:Hf; [|done]. injection Hsel as <-.
    apply find_Some in Hf as [Hin Hfid%str_eqb_true].
    rewrite Forall_forall in Hwf. pose proof (Hwf _ Hin) as Hu.
    eexists _, _. split; [done|]. split; [by rewrite refresh_id|]. split.
    { eapply filter_delete; [exact Hi|]. cbn. by rewrite Hfid, str_eqb_refl. }
    unfold refresh_default_selection. destruct Hcase as [[Hl ->]|[(Hl & Hm)|(Hl & Hn & Hf)]].
    + rewrite Hl, str_eqb_refl. by intros _.
    + rewrite (proj2 (str_eqb_false _ _)) by done. by apply metadata_selection in Hm as [_ ->].
    + injection Hf as ->. rewrite (proj2 (str_eqb_false _ _)) by done. rewrite Hn.
      intros [[? ?]|Hnone]; [done|]. by rewrite Hnone.
  - destruct (find _ (turn_environments turn)) as [f|] eqn:Hf; [done|].
    destruct Hcase as [[Hl (e & He & ->)]|[(Hl & Hm)|(_ & _ & ?)]]; [| |done].
    + rewrite str_eqb_refl, He. by eexists _, _.
    + rewrite (proj2 (str_eqb_false _ _)) by done. apply metadata_selection in Hm as [[e ->] Hc].
      cbn [mbind option_bind]. rewrite Hc. by eexists _, _.
Qed.
End Properties.

(** ** A concrete session *)

Definition demo_uris : PathUris :=
  {| PathUri := str; PathUri_eq_dec := _; from_abs_path := λ p, p; to_abs_path := λ u, Ok u |}.
Lemma demo_uris_laws : PathUriLaws (PU := demo_uris).
Proof. by intros p. Qed.

(** Thread [t1] has switched to [ssh:h] in [/srv]. *)
Definition demo_switched : EnvironmentManager :=
  record_thread_environment_id (HO := canonical_order) (lit "t1") (lit "ssh:h")
    (set_last_environment_id (HO := canonical_order) (lit "t1") (lit "ssh:h")
      (register (lit "ssh:h") (remote_inner (lit "ws://h") None)
        (set_thread_environment_metadata (HO := canonical_order) (lit "t1") (lit "ssh:h")
          {| cwd := lit "/srv"; meta_shell := None |} demo_manager))).
Definition demo_session : Session :=
  {| thread_id := lit "t1"; environment_manager := demo_switched |}.
Definition demo_turn : TurnContext (PU := demo_uris) :=
  {| turn_environments := [turn_environment_new (PU := demo_uris) LOCAL_ENVIRONMENT_ID
       (env_local demo_paths) (lit "/home/u") None];
     parent_thread_id := None; turn_cwd := lit "/home/u";
     permission_profile := ProfileDisabled; approval_policy := Never |}.
Definition demo_te : TurnEnvironment (PU := demo_uris) :=
  turn_environment_new (PU := demo_uris) (lit "ssh:h") (remote_inner (lit "ws://h") None)
    (lit "/srv") None.

Lemma demo_resolves :
  resolve_tool_environment (PU := demo_uris) (HW := demo_host) demo_session demo_turn None
  = Ok (Some demo_te).
Proof. vm_compute. reflexivity. Qed.


Lemma resolve_tool_environment_frame_witness :
  resolve_tool_environment (PU := demo_uris) (HW := demo_host) demo_session demo_turn None
  = resolve_tool_environment (PU := demo_uris) (HW := demo_host)
      {| thread_id := lit "t1";
         environment_manager := set_last_environment_id (HO := canonical_order) (lit "t2")
                                  (lit "local") demo_switched |} demo_turn None.
Proof.
  apply (resolve_tool_environment_frame (PU := demo_uris) (HW := demo_host)).
  split; try done. intros k Hk. apply list_elem_of_singleton in Hk as ->. vm_compute. reflexivity.
Defined.

Lemma selections_follow_resolution_witness :
  ∃ sel rest, environment_selections_with_default (PU := demo_uris) (HW := demo_host)
      demo_session demo_turn = sel :: rest ∧ sel_environment_id sel = lit "ssh:h".
Proof.
  destruct (selections_follow_resolution (PU := demo_uris) (HW := demo_host) demo_session demo_turn
    demo_te) as (sel & rest & H1 & H2 & _).
  - constructor; [reflexivity|constructor].
  - exact demo_resolves.
  - exists sel, rest. split; [exact H1|exact H2].
Defined.

Section SnapshotProperty.
Context `{PU : PathUris} `{HW : HostWorld} (environment_info : Environment → result str ShellInfo).

Lemma resolve_loop_sublist m sh cur seen envs :
  sublist (te_environment_id <$> resolve_snapshot_loop environment_info m sh cur seen envs)
    (sel_environment_id <$> envs).
Proof.
  revert seen; induction envs as [|sel envs IH]; intros seen; simpl; [constructor|].
  case_bool_decide; [by apply sublist_cons|].
  destruct (resolve_one environment_info m sh cur sel) as [te|] eqn:Ht; simpl; [|by apply sublist_cons].
  rewrite (resolve_one_id environment_info _ _ _ _ _ Ht). by apply sublist_skip.
Qed.

(** the environments of a thread.  Resolving a list of selections yields
    environments with pairwise distinct ids, in the order of the selections, each
    either reused from the current snapshot (same id and directory) or freshly
    resolved from the manager; and resolving the selections of a snapshot against
    itself changes nothing, whatever the manager has become. *)
Theorem resolve_snapshot_spec m sh cur envs :
  let r := resolve_snapshot environment_info m sh cur envs in
  NoDup (te_environment_id <$> r)
  ∧ sublist (te_environment_id <$> r) (sel_environment_id <$> envs)
  ∧ (∀ te, te ∈ r → ∃ sel, sel ∈ envs ∧
       (te ∈ cur ∧ te_cwd_uri te = sel_cwd sel
        ∨ resolve_selection environment_info m sh sel = Ok te))
  ∧ ∀ m' sh', resolve_snapshot environment_info m' sh' r (to_selections r) = r.
Proof.
  cbn zeta. split; [apply resolve_loop_NoDup|]. split; [apply resolve_loop_sublist|]. split.
  - intros te (sel & Hsel & Hone)%resolve_loop_elem. exists sel. split; [done|].
    unfold resolve_one in Hone. destruct (find _ cur) as [x|] eqn:Hf.
    + injection Hone as <-. apply find_Some in Hf as [Hin H%andb_true_iff].
      destruct H as [_ H%bool_decide_eq_true]. by left.
    + right. by destruct (resolve_selection _ m sh sel); simplify_eq/=.
  - intros m' sh'. apply resolve_loop_stable; try apply resolve_loop_NoDup.
    intros te Hte. split; [done|set_solver].
Qed.
End SnapshotProperty.
