(* ===== verification/EnvSwitch.v ===== *)
(** * The env_switch tool (codex-rs/core/src/tools/handlers/env_switch.rs)

    The handler validates the request, works out which launcher it names (absolute
    hops, one hop appended to a base, or the host), provisions the remote codex,
    resolves the remote working directory, and then moves the thread to the new
    environment: metadata first, registration, launcher, cursor, id list, badge.

    A call is a computation over [SwitchState]: the shared manager, the effects
    performed outside the process, and the badges emitted.  A failing call keeps the
    changes it made before it failed, as the Rust code does. *)

From S2P Require Import Prelude.
From S2P Require Import RustStr.
From S2P Require Import Launcher.
From S2P Require Import Provision.
From S2P Require Import AbsPath.
From S2P Require Import HostShell.
From S2P Require Import Permissions.
From S2P Require Import EnvManager.
From S2P Require Import EnvResolve.

Definition RUN_REMOTE_TIMEOUT_SECS : N := 20.
Definition ENV_SWITCH_TOOL_NAME : str := lit "env_switch".

Record HopArg := {
  hop_type : str;
  hop_host : option str;
  hop_container : option str }.

Record EnvSwitchArgs := {
  target : option str;
  container : option str;
  host : option str;
  args_cwd : option str;
  args_hops : option (list HopArg);
  base : option str;
  extend : option HopArg }.

Definition respond {A} (msg : str) : result FunctionCallError A := Err (RespondToModel msg).

(** ** Pure parts *)

Definition hop_from_arg (arg : HopArg) : result FunctionCallError Hop :=
  if hop_type arg == lit "ssh" then
    host ← ok_or (hop_host arg)
      (RespondToModel (lit "env_switch: each hop of type `ssh` requires a `host` field"));
    _ ← map_err (λ e, RespondToModel (lit "env_switch: invalid `host` value for ssh hop: " ++ e))
          (validate_hop_value host);
    Ok (Ssh host)
  else if hop_type arg == lit "docker" then
    container ← ok_or (hop_container arg)
      (RespondToModel (lit "env_switch: each hop of type `docker` requires a `container` field"));
    _ ← map_err (λ e, RespondToModel (lit "env_switch: invalid `container` value for docker hop: " ++ e))
          (validate_hop_value container);
    Ok (Docker container)
  else respond (lit "env_switch: unknown hop type `" ++ hop_type arg
                ++ lit "`; valid values are `ssh`, `docker`").

Definition validate_addressing_mode (args : EnvSwitchArgs) : result FunctionCallError unit :=
  let has_target := match target args with Some t => negb (is_empty t) | None => false end in
  let has_hops := opt_is_some (args_hops args) in
  let has_extend := opt_is_some (extend args) in
  let mode_count := length (List.filter Datatypes.id [has_target; has_hops; has_extend]) in
  let has_host := opt_is_some (host args) in
  let has_container := opt_is_some (container args) in
  let target_is t := bool_decide (target args = Some t) in
  if mode_count =? 0 then
    respond (lit "env_switch: specify exactly one addressing mode: `target`, `hops`, or `extend`")
  else if 1 <? mode_count then
    respond (lit "env_switch: `target`, `hops`, and `extend` are mutually exclusive addressing modes")
  else if opt_is_some (base args) && negb has_extend then
    respond (lit "env_switch: `base` is only valid with relative mode (`extend`)")
  else if has_extend && (has_host || has_container) then
    respond (lit "env_switch: top-level `host` and `container` are not valid with `extend`; put the value inside the `extend` object")
  else if has_hops && (has_host || has_container) then
    respond (lit "env_switch: top-level `host` and `container` are not valid with `hops`; put values inside each hop object")
  else if target_is (lit "local") && (has_host || has_container) then
    respond (lit "env_switch: `host` and `container` are not valid when target is `local`")
  else if target_is (lit "docker") && has_host then
    respond (lit "env_switch: `host` is not valid when target is `docker`")
  else if target_is (lit "ssh") && has_container then
    respond (lit "env_switch: `container` is not valid when target is `ssh`")
  else Ok tt.

Definition remote_cwd_shell_expr (cwd : str) : str :=
  if cwd == lit "~" then litq "^$HOME^"
  else match strip_prefix (lit "~/") cwd with
       | Some rest => litq "^$HOME^/" ++ posix_single_quote rest
       | None => posix_single_quote cwd
       end.

Definition resolve_remote_cwd_script (cwd : option str) : str :=
  let cwd_expr :=
    default (litq "^$HOME^")
      (remote_cwd_shell_expr <$> opt_filter (λ c, negb (is_empty c)) cwd) in
  lit "_codex_cwd=" ++ cwd_expr ++ [nl]
  ++ litq "mkdir -p -- ^$_codex_cwd^ && cd -P -- ^$_codex_cwd^ && printf '%s' ^$PWD^".

Section Switch.
Context `{PU : PathUris} `{HW : HostWorld} `{O : Outside} `{HO : HashOrder}.

Definition derive_exec_server_policy_flags (turn : TurnContext) : list str :=
  let sandbox_tag :=
    match permission_profile turn with
    | ProfileDisabled => lit "danger-full-access"
    | ProfileExternal _ => lit "workspace-write"
    | ProfileManaged _ _ =>
        if has_full_disk_write_access (file_system_sandbox_policy (permission_profile turn))
        then lit "danger-full-access" else lit "workspace-write"
    end in
  let approval_tag :=
    match approval_policy turn with Never => lit "never" | _ => lit "on-failure" end in
  [lit "-c"; lit "sandbox_mode=" ++ sandbox_tag; lit "-c"; lit "approval_policy=" ++ approval_tag].

Definition implicit_base_launcher (session : Session) (turn : TurnContext) : option RemoteLauncher :=
  let m := environment_manager session in
  let current_thread_key := thread_id session in
  match get_last_environment_id m current_thread_key with
  | Some current =>
      if current == LOCAL_ENVIRONMENT_ID then None else get_last_launcher m current_thread_key
  | None => find_map (get_last_launcher m) (drop 1 (environment_thread_keys session turn))
  end.

Definition base_environment_visible (session : Session) (turn : TurnContext) (id : str) : bool :=
  any (λ te, te_environment_id te == id) (turn_environments turn)
  || dynamic_environment_visible_to_thread session turn id.

(** ** Effects *)

Record SwitchState := {
  sw_manager : EnvironmentManager;
  sw_trace : trace;
  sw_badges : list (option str) }.

Definition switch (A : Type) : Type := SwitchState → result FunctionCallError A * SwitchState.

#[local] Instance switch_ret : MRet switch := λ A a st, (Ok a, st).
#[local] Instance switch_bind : MBind switch := λ A B f m st,
  match m st with
  | (Ok a, st) => f a st
  | (Err e, st) => (Err e, st)
  end.

Definition sw_lift {A} (r : result FunctionCallError A) : switch A := λ st, (r, st).
Definition sw_session (tid : str) : switch Session := λ st,
  (Ok {| thread_id := tid; environment_manager := sw_manager st |}, st).
Definition modify (f : EnvironmentManager → EnvironmentManager) : switch unit := λ st,
  (Ok tt, {| sw_manager := f (sw_manager st); sw_trace := sw_trace st; sw_badges := sw_badges st |}).
(** An update that may be refused. *)
Definition try_modify (f : EnvironmentManager → result FunctionCallError EnvironmentManager)
    : switch unit := λ st,
  match f (sw_manager st) with
  | Ok m => (Ok tt, {| sw_manager := m; sw_trace := sw_trace st; sw_badges := sw_badges st |})
  | Err e => (Err e, st)
  end.
Definition provision {A} (p : prov A) (wrap : ProvisionError → FunctionCallError) : switch A := λ st,
  let '(r, tr) := p (sw_trace st) in
  (map_err wrap r, {| sw_manager := sw_manager st; sw_trace := tr; sw_badges := sw_badges st |}).

(** [Session::emit_dynamic_environment_badge]: the event's
    [active_environment_id]. *)
Definition emit_dynamic_environment_badge (id : str) : switch unit := λ st,
  let active := if is_empty id || (id == LOCAL_ENVIRONMENT_ID) then None else Some id in
  (Ok tt, {| sw_manager := sw_manager st; sw_trace := sw_trace st;
             sw_badges := sw_badges st ++ [active] |}).

(** [run_remote]: [(success, stdout, stderr)]. *)
Definition run_remote (launcher : RemoteLauncher) (script : str) : switch (bool * str * str) := λ st,
  let argv := shell_argv launcher script in
  match argv with
  | [] => (Ok (false, [], lit "empty argv"), st)
  | _ :: _ =>
      let tr := sw_trace st ++ [EvRun argv] in
      let st := {| sw_manager := sw_manager st; sw_trace := tr; sw_badges := sw_badges st |} in
      match run_outcome tr argv with
      | Exited ok _ stdout stderr => (Ok (ok, stdout, trim stderr), st)
      | SpawnFailed e => (Ok (false, [], e), st)
      | TimedOut =>
          (Ok (false, [], lit "timed out after " ++ fmt_nat (N.to_nat RUN_REMOTE_TIMEOUT_SECS)
                          ++ lit "s"), st)
      end
  end.

(** ** The handler *)

Definition handle_local_switch (tid : str) (explicit_cwd : option str) : switch str :=
  if match explicit_cwd with Some c => negb (is_empty c) | None => false end then
    sw_lift (respond (lit "env_switch: `cwd` is only valid for remote targets; omit `cwd` when target is `local`"))
  else
    session ← sw_session tid;
    if negb (opt_is_some (try_local_environment (environment_manager session))) then
      sw_lift (respond (lit "env_switch: the local host environment is not registered in this session; use the default execution environment or start Codex with local environment support."))
    else
      _ ← modify (clear_last_launcher tid);
      _ ← modify (set_last_environment_id tid LOCAL_ENVIRONMENT_ID);
      _ ← modify (record_thread_environment_id tid LOCAL_ENVIRONMENT_ID);
      _ ← emit_dynamic_environment_badge LOCAL_ENVIRONMENT_ID;
      mret (lit "env_switch complete: the local host environment is available (id: `"
            ++ LOCAL_ENVIRONMENT_ID ++ lit "`). It is now the default execution environment for compatible exec_command / apply_patch / view_image calls that omit `environment_id`. Pass another `environment_id` explicitly to target a different registered environment for one call.").

(** Step 2: the remote working directory. *)
Definition resolve_remote_cwd (launcher : RemoteLauncher) (explicit_cwd : option str) : switch str :=
  '(ok, cwd_out, err) ← run_remote launcher (resolve_remote_cwd_script explicit_cwd);
  if negb ok then
    sw_lift (respond (lit "env_switch: could not resolve remote cwd `"
                      ++ default (lit "$HOME") explicit_cwd ++ lit "`: " ++ err))
  else if is_empty cwd_out then
    sw_lift (respond (lit "env_switch: remote cwd resolver returned empty output"))
  else mret cwd_out.

(** Step 5: the command of the exec-server and its registration. *)
Definition exec_server_inner (codex_path : str) (turn : TurnContext) : list str :=
  [codex_path; lit "exec-server"; lit "--listen"; lit "stdio"] ++ derive_exec_server_policy_flags turn.

Definition register_remote (launcher : RemoteLauncher) (id codex_path : str) (turn : TurnContext)
    : switch unit :=
  match exec_argv launcher (exec_server_inner codex_path turn) with
  | [] => sw_lift (respond (lit "env_switch: internal error: empty argv"))
  | program :: args =>
      try_modify (λ m, map_err (λ '(Protocol e), RespondToModel
        (lit "env_switch: failed to register remote environment `" ++ id ++ lit "`: " ++ e))
        (upsert_stdio_environment id program args ∅ None m))
  end.

Definition complete_message (id codex_path version remote_cwd : str) (warning : option str) : str :=
  lit "env_switch complete: environment `" ++ id ++ lit "` is ready (codex " ++ version ++ lit " at "
  ++ codex_path ++ lit ", cwd=" ++ remote_cwd ++ lit "). It is now the default execution environment for compatible exec_command / apply_patch / view_image calls that omit `environment_id`. Pass `"
  ++ litq "^environment_id^: ^" ++ id ++ litq "^" ++ lit "` explicitly only when you need to override another default or be extra explicit. You usually do not need to call env_switch again for the same target unless you want to refresh provisioning, change cwd, or recover a broken connection."
  ++ match warning with Some w => [nl] ++ lit "WARNING: " ++ w | None => [] end.

Definition handle_remote_switch (tid : str) (turn : TurnContext) (launcher : RemoteLauncher)
    (explicit_cwd : option str) : switch str :=
  match permission_profile turn with
  | ProfileExternal _ =>
      sw_lift (respond (lit "env_switch: remote environment switching is unavailable under an external sandbox because the remote exec-server cannot inherit that sandbox enforcement"))
  | _ =>
      provisioned ← provision (ensure_remote_codex launcher HostVersion)
        (λ e, RespondToModel (lit "env_switch: failed to provision remote codex: "
                              ++ provision_error_display e));
      remote_cwd ← resolve_remote_cwd launcher explicit_cwd;
      let environment_id := id launcher in
      _ ← sw_lift (map_err (λ e, RespondToModel (lit "env_switch: remote cwd `" ++ remote_cwd
                              ++ lit "` is not an absolute path: " ++ e))
                     (from_absolute_path_checked home_dir remote_cwd));
      let metadata := {| cwd := remote_cwd; meta_shell := shell provisioned |} in
      _ ← modify (set_environment_metadata environment_id metadata);
      _ ← modify (set_thread_environment_metadata tid environment_id metadata);
      _ ← register_remote launcher environment_id (codex_path provisioned) turn;
      _ ← modify (set_last_launcher tid launcher);
      _ ← modify (set_last_environment_id tid environment_id);
      _ ← modify (record_thread_environment_id tid environment_id);
      _ ← emit_dynamic_environment_badge environment_id;
      mret (complete_message environment_id (codex_path provisioned) (version provisioned)
              remote_cwd (warning provisioned))
  end.

(** Priority 1 of [handle_env_switch]: the base of a relative request. *)
Definition base_launcher (session : Session) (turn : TurnContext) (base : option str)
    : result FunctionCallError RemoteLauncher :=
  match base with
  | Some base_id =>
      if negb (base_environment_visible session turn base_id) then
        respond (lit "env_switch: `base` environment id `" ++ base_id ++ lit "` is not visible to this thread; run env_status to list available environment ids")
      else map_err (λ e, RespondToModel (lit "env_switch: invalid `base` environment id `" ++ base_id
                                         ++ lit "`: " ++ e)) (from_id base_id)
  | None =>
      ok_or (implicit_base_launcher session turn)
        (RespondToModel (lit "env_switch: relative mode requires a `base` or a previously-activated remote environment on this thread or its parent thread, but none was found. Provide an explicit `base` environment_id."))
  end.

Definition checked_value (what : str) (v : option str) (missing : str) : result FunctionCallError str :=
  v ← ok_or v (RespondToModel missing);
  _ ← map_err (λ e, RespondToModel (lit "env_switch: invalid `" ++ what ++ lit "` value: " ++ e))
        (validate_hop_value v);
  Ok v.

Definition handle_env_switch (tid : str) (turn : TurnContext) (args : EnvSwitchArgs) : switch str :=
  _ ← sw_lift (validate_addressing_mode args);
  match extend args with
  | Some extend_arg =>
      extend_hop ← sw_lift (hop_from_arg extend_arg);
      session ← sw_session tid;
      bl ← sw_lift (base_launcher session turn (base args));
      handle_remote_switch tid turn (with_appended_hop bl extend_hop) (args_cwd args)
  | None =>
      match args_hops args with
      | Some hop_args =>
          if is_empty hop_args then
            sw_lift (respond (lit "env_switch: `hops` must not be empty when provided"))
          else
            hs ← sw_lift (collect_map hop_from_arg hop_args);
            handle_remote_switch tid turn (layered hs) (args_cwd args)
      | None =>
          let target := default [] (target args) in
          if target == lit "local" then handle_local_switch tid (args_cwd args)
          else if target == lit "docker" then
            c ← sw_lift (checked_value (lit "container") (container args)
                  (lit "env_switch: `container` is required when target is `docker`"));
            handle_remote_switch tid turn (docker c) (args_cwd args)
          else if target == lit "ssh" then
            h ← sw_lift (checked_value (lit "host") (host args)
                  (lit "env_switch: `host` is required when target is `ssh`"));
            handle_remote_switch tid turn (ssh h) (args_cwd args)
          else sw_lift (respond (lit "env_switch: unsupported target `" ++ target
                ++ lit "`; valid values are `local`, `docker`, `ssh`, or provide a `hops` array for multi-hop routing, or provide an `extend` object for relative mode"))
      end
  end.

(** [handle_call]; [parse_arguments] decodes the JSON arguments. *)
Inductive ToolPayload := Function (arguments : str) | OtherPayload.

Definition handle_call (parse_arguments : str → result FunctionCallError EnvSwitchArgs)
    (tid : str) (turn : TurnContext) (payload : ToolPayload) : switch str :=
  match payload with
  | Function arguments =>
      args ← sw_lift (parse_arguments arguments);
      handle_env_switch tid turn args
  | OtherPayload =>
      sw_lift (respond (ENV_SWITCH_TOOL_NAME ++ lit " handler received unsupported payload"))
  end.
End Switch.

(** ** What a request asks for *)

(** The documented request, read independently of the handler: a hop object of
    type [ssh] names its [host], one of type [docker] its [container]. *)
Inductive hop_requested : HopArg → Hop → Prop :=
| ssh_requested h c :
    hop_requested {| hop_type := lit "ssh"; hop_host := Some h; hop_container := c |} (Ssh h)
| docker_requested h c :
    hop_requested {| hop_type := lit "docker"; hop_host := h; hop_container := Some c |} (Docker c).

(** The target of a request: [None] for the host, otherwise the hops of a remote.
    A relative request appends its hop to the environment whose id is [base], or to the
    remote the thread is in. *)
Inductive asks_for `{PU : PathUris} (session : Session) (turn : TurnContext) (a : EnvSwitchArgs)
    : option RemoteLauncher → Prop :=
| asks_local :
    extend a = None → args_hops a = None → target a = Some (lit "local") →
    asks_for session turn a None
| asks_docker c :
    extend a = None → args_hops a = None → target a = Some (lit "docker") → container a = Some c →
    asks_for session turn a (Some {| hops := [Docker c] |})
| asks_ssh h :
    extend a = None → args_hops a = None → target a = Some (lit "ssh") → host a = Some h →
    asks_for session turn a (Some {| hops := [Ssh h] |})
| asks_hops has hs :
    extend a = None → args_hops a = Some has → Forall2 hop_requested has hs →
    asks_for session turn a (Some {| hops := hs |})
| asks_extend_base ea h bl :
    extend a = Some ea → hop_requested ea h → base a = Some (id bl) → launcher_ok bl →
    base_environment_visible session turn (id bl) = true →
    asks_for session turn a (Some {| hops := hops bl ++ [h] |})
| asks_extend ea h bl :
    extend a = Some ea → hop_requested ea h → base a = None →
    implicit_base_launcher session turn = Some bl →
    asks_for session turn a (Some {| hops := hops bl ++ [h] |}).



Lemma hop_from_arg_requested arg h : hop_from_arg arg = Ok h → hop_requested arg h.
Proof.
  destruct arg as [ty ho co]. unfold hop_from_arg. cbn. case_str; [|case_str; [|done]].
  all: intros (v & Hv%ok_or_Ok & H)%bind_Ok; apply bind_Ok in H as ([] & _ & [= <-]); subst; constructor.
Qed.

Lemma hop_from_arg_ok arg h : hop_from_arg arg = Ok h → hop_ok h.
Proof.
  unfold hop_from_arg. case_str; [|case_str; [|done]].
  all: intros (v & _ & H)%bind_Ok; apply bind_Ok in H as ([] & Hv & [= <-]);
    apply map_err_Ok in Hv; by apply validate_hop_value_ok_iff in Hv.
Qed.

Lemma checked_value_ok what v missing x :
  checked_value what v missing = Ok x → v = Some x ∧ hop_value_ok x.
Proof.
  intros (y & Hy%ok_or_Ok & H)%bind_Ok. apply bind_Ok in H as ([] & Hv & [= <-]).
  apply map_err_Ok in Hv. by apply validate_hop_value_ok_iff in Hv.
Qed.

Section SwitchLemmas.
Context `{PU : PathUris} `{HW : HostWorld} `{O : Outside} `{HO : HashOrder}.

#[local] Existing Instance switch_ret.
#[local] Existing Instance switch_bind.

Lemma sw_bind_inv {A B} (m : switch A) (f : A → switch B) st r st' :
  (m ≫= f) st = (r, st') →
  (∃ e, m st = (Err e, st') ∧ r = Err e) ∨ ∃ a st1, m st = (Ok a, st1) ∧ f a st1 = (r, st').
Proof.
  unfold mbind, switch_bind. destruct (m st) as [[a|e] st1] eqn:Hm; [by eauto|].
  intros [= <- <-]. eauto.
Qed.

(** The manager after a remote switch. *)
Definition remote_env (turn : TurnContext) (l : RemoteLauncher) (p : ProvisionedCodex)
    (m : EnvironmentManager) : Environment :=
  let argv := exec_argv l (exec_server_inner (codex_path p) turn) in
  remote_with_transport
    (StdioCommand {| program := default [] (head argv); args := tail argv; env := ∅; cmd_cwd := None |}
       PROVISIONED_STDIO_INITIALIZE_TIMEOUT) (local_runtime_paths m).

Definition switched (tid : str) (turn : TurnContext) (l : RemoteLauncher) (p : ProvisionedCodex)
    (rc : str) (m : EnvironmentManager) : EnvironmentManager :=
  let md := {| cwd := rc; meta_shell := shell p |} in
  record_thread_environment_id tid (id l)
    (set_last_environment_id tid (id l)
      (set_last_launcher tid l
        (register (id l) (remote_env turn l p m)
          (set_thread_environment_metadata tid (id l) md
            (set_environment_metadata (id l) md m))))).

Definition switched_local (tid : str) (m : EnvironmentManager) : EnvironmentManager :=
  record_thread_environment_id tid LOCAL_ENVIRONMENT_ID
    (set_last_environment_id tid LOCAL_ENVIRONMENT_ID (clear_last_launcher tid m)).

Lemma id_not_local l : hops l ≠ [] → id l ≠ LOCAL_ENVIRONMENT_ID.
Proof.
  intros Hne Heq. assert (ch ":" ∈ id l) as Hin.
  { unfold id. destruct (hops l) as [|h hs]; [done|]. simpl. destruct hs; simpl;
      (apply elem_of_app; left) || idtac; destruct h; unfold id_segment;
      apply elem_of_app; left; apply contains_char_true; by vm_compute. }
  rewrite Heq in Hin. apply contains_char_true in Hin. by vm_compute in Hin.
Qed.

(** The remote, asked for the directory [c] (its home directory when the request names
    none), entered it and printed [out]. *)
Definition remote_printed (l : RemoteLauncher) (c : option str) (out : str) : Prop :=
  ∃ tr code err, run_outcome tr (shell_argv l (resolve_remote_cwd_script c)) = Exited true code out err.

Lemma resolve_remote_cwd_state l c st r st' :
  resolve_remote_cwd l c st = (r, st') →
  sw_manager st' = sw_manager st ∧ sw_badges st' = sw_badges st ∧ (∀ x, r = Ok x → remote_printed l c x).
Proof.
  unfold resolve_remote_cwd. intros H.
  assert (∀ q st1, run_remote l (resolve_remote_cwd_script c) st = (q, st1) →
    sw_manager st1 = sw_manager st ∧ sw_badges st1 = sw_badges st
    ∧ ∀ out err, q = Ok (true, out, err) → remote_printed l c out) as Hrun.
  { intros q st1. unfold run_remote, remote_printed. destruct (shell_argv l _) as [|a al]; [by intros [= <- <-]|].
    destruct (run_outcome _ _) eqn:Ho; intros [= <- <-]; (split; [done|]); (split; [done|]);
      intros out' err'; try done; intros [= -> <- _]; eauto. }
  apply sw_bind_inv in H as [(e & Hr & ->)|([[ok out] err] & st1 & Hr & H)].
  - by destruct (Hrun _ _ Hr) as (? & ? & _).
  - destruct (Hrun _ _ Hr) as (Hm & Hb & Hp). destruct ok; simpl in H; [|by injection H as <- <-].
    destruct (is_empty out) eqn:He; injection H as <- <-; [done|]. split; [done|]. split; [done|].
    intros x [= <-]. by eapply Hp.
Qed.

Lemma register_remote_ok l cp turn st :
  hops l ≠ [] →
  register_remote l (id l) cp turn st
  = (Ok tt, {| sw_manager :=
        register (id l)
          (remote_with_transport
             (StdioCommand {| program := default [] (head (exec_argv l (exec_server_inner cp turn)));
                              args := tail (exec_argv l (exec_server_inner cp turn));
                              env := ∅; cmd_cwd := None |}
                PROVISIONED_STDIO_INITIALIZE_TIMEOUT) (local_runtime_paths (sw_manager st)))
          (sw_manager st);
       sw_trace := sw_trace st; sw_badges := sw_badges st |}).
Proof.
  intros Hne. unfold register_remote, exec_argv.
  destruct (fold_hops (hops l) _) as [|prog args] eqn:Ha; [by apply fold_hops_nonempty in Ha|].
  unfold try_modify, upsert_stdio_environment. rewrite (proj2 (is_empty_false (id l))); [done|].
  by apply id_nonempty.
Qed.

(** A remote switch either fails and leaves the manager alone, or completes. *)
Lemma remote_switch_cases tid turn l c st r st' :
  hops l ≠ [] → handle_remote_switch tid turn l c st = (r, st') →
  (∃ e, r = Err e ∧ sw_manager st' = sw_manager st ∧ sw_badges st' = sw_badges st)
  ∨ ∃ p rc q tr tr' msg, r = Ok msg
      ∧ (∀ n, permission_profile turn ≠ ProfileExternal n)
      ∧ ensure_remote_codex l HostVersion tr = (Ok p, tr')
      ∧ remote_printed l c rc
      ∧ from_absolute_path_checked home_dir rc = Ok q
      ∧ sw_manager st' = switched tid turn l p rc (sw_manager st)
      ∧ sw_badges st' = sw_badges st ++ [Some (id l)].
Proof.
  intros Hne H. unfold handle_remote_switch in H.
  destruct (permission_profile turn) eqn:Hp; [| |left; injection H as <- <-; eauto].
  all: apply sw_bind_inv in H as [(e & Hpr & ->)|(p & st1 & Hpr & H)];
    unfold provision in Hpr; destruct (ensure_remote_codex l HostVersion (sw_trace st)) as [pr tr] eqn:He;
    [left; injection Hpr as _ <-; eauto|];
    destruct pr as [p'|]; simplify_eq/=.
  all: apply sw_bind_inv in H as [(e & Hc & ->)|(rc & st2 & Hc & H)];
    apply resolve_remote_cwd_state in Hc as (Hm & Hb & Hpr'); simpl in Hm, Hb; [left; eauto|].
  all: apply sw_bind_inv in H as [(e & Hq & ->)|(q & st3 & Hq & H)];
    unfold sw_lift in Hq; injection Hq as Hq <-; [left; eauto|]; apply map_err_Ok in Hq.
  all: right; exists p, rc, q, (sw_trace st), tr.
  all: unfold mbind, switch_bind, modify in H; cbn [sw_manager sw_trace sw_badges] in H;
    rewrite register_remote_ok in H by done; cbn [sw_manager sw_trace sw_badges] in H;
    unfold emit_dynamic_environment_badge in H; cbn [sw_manager sw_trace sw_badges] in H;
    rewrite (proj2 (is_empty_false (id l))) in H by (by apply id_nonempty);
    rewrite (proj2 (str_eqb_false (id l) _)) in H by (by apply id_not_local);
    cbn [orb] in H; injection H as <- <-; cbn [sw_manager sw_badges]; rewrite Hm, Hb; eauto 12.
Qed.

(** Every launcher the manager remembers was validated. *)
Definition launchers_ok (m : EnvironmentManager) : Prop :=
  ∀ t l, last_launcher m !! t = Some l → launcher_ok l.

Lemma base_launcher_requested session turn b l :
  base_launcher session turn b = Ok l →
  match b with
  | Some b => b = id l ∧ launcher_ok l ∧ base_environment_visible session turn b = true
  | None => implicit_base_launcher session turn = Some l
  end.
Proof.
  unfold base_launcher. destruct b as [b|]; [|by intros ?%ok_or_Ok].
  destruct (base_environment_visible _ _ _); [|done]. by intros [<- ?]%map_err_Ok%from_id_inv.
Qed.

Lemma base_launcher_ok tid m turn b l :
  launchers_ok m → base_launcher {| thread_id := tid; environment_manager := m |} turn b = Ok l →
  launcher_ok l.
Proof.
  intros Hm. unfold base_launcher. destruct b as [b|].
  - destruct (negb _); [done|]. intros Hf%map_err_Ok. by apply from_id_inv in Hf as [_ ?].
  - intros Hi%ok_or_Ok. unfold implicit_base_launcher in Hi.
    destruct (get_last_environment_id _ _); [case_str; [done|by apply Hm in Hi]|].
    apply find_map_Some in Hi as (k & _ & Hk). by apply Hm in Hk.
Qed.

Lemma local_switch_cases tid c st r st' :
  handle_local_switch tid c st = (r, st') →
  (∃ e, r = Err e ∧ st' = st)
  ∨ ∃ e msg, r = Ok msg ∧ try_local_environment (sw_manager st) = Some e
      ∧ sw_manager st' = switched_local tid (sw_manager st)
      ∧ sw_badges st' = sw_badges st ++ [None].
Proof.
  unfold handle_local_switch.
  destruct (match c with Some c => negb (is_empty c) | None => false end).
  { intros [= <- <-]. left. eauto. }
  intros [(e & H & _)|(s & st1 & [= <- <-] & H)]%sw_bind_inv; [by injection H|].
  cbn [environment_manager] in H. destruct (try_local_environment _) as [e|] eqn:He; simpl in H.
  - right. injection H as <- <-. cbn [sw_manager sw_badges]. exists e. eexists. eauto.
  - left. injection H as <- <-. eauto.
Qed.

(** The outcome of a successful switch. *)
Definition remote_outcome (tid : str) (turn : TurnContext) (l : RemoteLauncher) (c : option str)
    (st st' : SwitchState) : Prop :=
  ∃ p rc q tr tr',
    (∀ n, permission_profile turn ≠ ProfileExternal n)
    ∧ ensure_remote_codex l HostVersion tr = (Ok p, tr')
    ∧ remote_printed l c rc
    ∧ from_absolute_path_checked home_dir rc = Ok q
    ∧ sw_manager st' = switched tid turn l p rc (sw_manager st)
    ∧ sw_badges st' = sw_badges st ++ [Some (id l)].

Definition local_outcome (tid : str) (st st' : SwitchState) : Prop :=
  is_Some (try_local_environment (sw_manager st))
  ∧ sw_manager st' = switched_local tid (sw_manager st)
  ∧ sw_badges st' = sw_badges st ++ [None].

(** The session a call of thread [tid] sees. *)
Definition session_of (tid : str) (st : SwitchState) : Session :=
  {| thread_id := tid; environment_manager := sw_manager st |}.

Definition switch_outcome (tid : str) (turn : TurnContext) (args : EnvSwitchArgs)
    (r : result FunctionCallError str) (st st' : SwitchState) : Prop :=
  (∃ e, r = Err e ∧ sw_manager st' = sw_manager st ∧ sw_badges st' = sw_badges st)
  ∨ (∃ msg, r = Ok msg ∧ asks_for (session_of tid st) turn args None ∧ local_outcome tid st st')
  ∨ ∃ l msg, r = Ok msg ∧ asks_for (session_of tid st) turn args (Some l)
             ∧ hops l ≠ [] ∧ (launchers_ok (sw_manager st) → launcher_ok l)
             ∧ remote_outcome tid turn l (args_cwd args) st st'.

Lemma switch_failed tid turn args e st : switch_outcome tid turn args (Err e) st st.
Proof. left. eauto. Qed.

Lemma remote_switch_outcome tid turn args l st r st' :
  hops l ≠ [] → (launchers_ok (sw_manager st) → launcher_ok l) →
  asks_for (session_of tid st) turn args (Some l) →
  handle_remote_switch tid turn l (args_cwd args) st = (r, st') →
  switch_outcome tid turn args r st st'.
Proof.
  intros Hne Hok Hasks [?|(p & rc & q & tr & tr' & msg & -> & ?)]%remote_switch_cases; [by left| |done].
  right; right. exists l, msg. repeat (split; [done|]). exists p, rc, q, tr, tr'. done.
Qed.

Lemma env_switch_outcome tid turn args st r st' :
  handle_env_switch tid turn args st = (r, st') → switch_outcome tid turn args r st st'.
Proof.
  unfold handle_env_switch.
  intros [(e & [= Hv <-] & ->)|([] & st1 & [= Hv <-] & H)]%sw_bind_inv; [apply switch_failed|].
  destruct (extend args) as [ea|] eqn:Hext.
  { apply sw_bind_inv in H as [(e & [= He <-] & ->)|(h & st1 & [= Hh <-] & H)]; [apply switch_failed|].
    apply sw_bind_inv in H as [(e & H1 & ->)|(s & st1 & [= <- <-] & H)]; [by injection H1|].
    apply sw_bind_inv in H as [(e & [= He <-] & ->)|(b & st1 & [= Hb <-] & H)]; [apply switch_failed|].
    pose proof (hop_from_arg_requested _ _ Hh) as Hreq.
    eapply remote_switch_outcome; [|intros Hm| |exact H]; unfold with_appended_hop; simpl.
    - by destruct (hops b).
    - apply base_launcher_ok in Hb as [_ Hb]; [|done]. apply hop_from_arg_ok in Hh.
      split; [by destruct (hops b)|]. apply Forall_app. auto.
    - apply base_launcher_requested in Hb. destruct (base args) as [bi|] eqn:Hbase.
      + destruct Hb as (-> & ? & ?). by eapply asks_extend_base.
      + by eapply asks_extend. }
  destruct (args_hops args) as [hs|] eqn:Hhops.
  { destruct hs as [|ha hs]; [injection H as <- <-; apply switch_failed|]. cbn [is_empty] in H.
    apply sw_bind_inv in H as [(e & [= He <-] & ->)|(hl & st1 & [= Hl <-] & H)]; [apply switch_failed|].
    change (collect_map hop_from_arg (ha :: hs) = Ok hl) in Hl. apply collect_map_Ok in Hl.
    assert (launcher_ok (layered hl)) as Hok.
    { split; [by inversion Hl|]. simpl. clear H Hhops. induction Hl as [|a b l l' Hab _ IH]; [constructor|].
      constructor; [by apply hop_from_arg_ok in Hab|done]. }
    eapply remote_switch_outcome; [apply Hok|done| |exact H].
    eapply asks_hops; [done..|]. eapply Forall2_impl; [exact Hl|apply hop_from_arg_requested]. }
  assert (∀ t, default [] (target args) = t → t ≠ [] → target args = Some t) as Htarget.
  { intros t. by destruct (target args); simpl; [intros ->|intros <-]. }
  case_str.
  { apply local_switch_cases in H as [(e & -> & ->)|(e & msg & -> & He & ?)]; [apply switch_failed|].
    right; left. exists msg. split; [done|]. split; [by apply asks_local; auto|]. split; [by eexists|done]. }
  case_str; [|case_str; [|injection H as <- <-; apply switch_failed]].
  all: apply sw_bind_inv in H as [(e & [= He <-] & ->)|(v & st1 & [= Hv' <-] & H)]; [apply switch_failed|];
    apply checked_value_ok in Hv' as [Hsome Hv'];
    (eapply remote_switch_outcome; [..|exact H]; [done|intros _|]);
    [(split; [done|]); (constructor; [exact Hv'|constructor])|].
  - apply asks_docker; auto.
  - apply asks_ssh; auto.
Qed.
End SwitchLemmas.

(** ** After a switch *)

Section AfterSwitch.
Context `{PU : PathUris} `{HW : HostWorld} `{O : Outside} `{HO : HashOrder}.


End AfterSwitch.

(** ** The invariant of a session's switches *)

Record switch_inv (m : EnvironmentManager) : Prop := {
  si_wf : manager_wf m;
  si_launchers : launchers_ok m;
  si_cursor t l i :
    last_launcher m !! t = Some l → last_environment_id m !! t = Some i → i = id l }.

Section Invariant.
Context `{PU : PathUris} `{HW : HostWorld} `{O : Outside}.
Context (HO : HashOrder) (HL : HashOrderLaw).

Lemma switched_inv tid turn l p rc m :
  hops l ≠ [] → launcher_ok l → switch_inv m → switch_inv (switched tid turn l p rc m).
Proof.
  intros Hne Hok [Hwf Hl Hc]. split.
  - unfold switched.
    eapply mstep_wf; [apply (@step_record_id _ HO HL)|]. eapply mstep_wf; [apply (@step_set_cursor _ HO HL)|].
    eapply mstep_wf; [apply (@step_set_launcher _ HO HL)|]. apply register_wf; [by apply id_nonempty|].
    eapply mstep_wf; [apply (@step_set_thread_metadata _ HO HL)|].
    eapply mstep_wf; [apply (@step_set_metadata _ HO HL)|]. done.
  - intros t l'. cbn. intros [[_ <-]|[_ H%make_room_sub]]%lookup_insert_Some; [done|]. by eapply Hl.
  - intros t l' i. cbn.
    intros [[<- <-]|[Hne' H1%make_room_sub]]%lookup_insert_Some
           [[? <-]|[? H2%make_room_sub]]%lookup_insert_Some; try done. by eapply Hc.
Qed.

Lemma switched_local_inv tid m : switch_inv m → switch_inv (switched_local tid m).
Proof.
  intros [Hwf Hl Hc]. split.
  - unfold switched_local.
    eapply mstep_wf; [apply (@step_record_id _ HO HL)|]. eapply mstep_wf; [apply (@step_set_cursor _ HO HL)|].
    eapply mstep_wf; [apply step_clear_launcher|]. done.
  - intros t l'. cbn. intros [_ H]%lookup_delete_Some. by eapply Hl.
  - intros t l' i. cbn. intros [Hne H1]%lookup_delete_Some.
    intros [[? _]|[_ H2%make_room_sub]]%lookup_insert_Some; [done|]. by eapply Hc.
Qed.
End Invariant.

(** ** Properties *)

Definition no_target (args : EnvSwitchArgs) : Prop := target args = None ∨ target args = Some [].

(** the addressing modes are exclusive and complete.  A request passes
    validation iff it is exactly one of: relative ([extend], any [base]); multi-hop
    ([hops], no [base]); or a non-empty single [target] (no [base], no [hops] or
    [extend]).  Top-level [host] and [container] are rejected in the first two modes
    and for [local]; [docker] rejects [host], [ssh] rejects [container]. *)
Theorem validate_addressing_mode_exact args :
  validate_addressing_mode args = Ok tt ↔
    (is_Some (extend args) ∧ args_hops args = None ∧ no_target args
     ∧ host args = None ∧ container args = None)
    ∨ (extend args = None ∧ is_Some (args_hops args) ∧ no_target args ∧ base args = None
       ∧ host args = None ∧ container args = None)
    ∨ (extend args = None ∧ args_hops args = None ∧ base args = None
       ∧ ∃ t, target args = Some t ∧ t ≠ []
           ∧ (t = lit "local" → host args = None ∧ container args = None)
           ∧ (t = lit "docker" → host args = None)
           ∧ (t = lit "ssh" → container args = None)).
Proof.
  destruct args as [tg c h cw hs b e]. unfold validate_addressing_mode, no_target. cbn.
  assert (bool_decide (Some [] = Some (lit "local")) = false
    ∧ bool_decide (Some [] = Some (lit "docker")) = false
    ∧ bool_decide (Some [] = Some (lit "ssh")) = false) as (Hl & Hd & Hs) by (by vm_compute).
  assert (∀ t, bool_decide (None = Some (t : str)) = false) as Hn by done.
  assert (∀ {A} (x : option A), opt_is_some x = false ↔ x = None) as Ho by (by intros ? []).
  split.
  - destruct tg as [[|x tg]|], hs as [hs|], e as [e|]; cbn; rewrite ?Hl, ?Hd, ?Hs, ?Hn; cbn; try done;
      destruct b as [b|]; cbn; try done.
    1-3,5-7: destruct h, c; cbn; try done; intros _;
      first [left; by eauto 10 | right; left; by eauto 10].
    intros H. right; right. split; [done|]. split; [done|]. split; [done|]. exists (x :: tg).
    split; [done|]. split; [done|]. split; [|split]; intros Ht; rewrite Ht in H;
      vm_compute in H; by destruct h, c.
  - intros [([e' ->] & -> & Ht & -> & ->)|[(-> & [hs' ->] & Ht & -> & -> & ->)|(-> & -> & -> & t & -> & Hne & Ht)]].
    + by destruct Ht as [-> | ->]; cbn; destruct b; cbn; rewrite ?Hl, ?Hd, ?Hs, ?Hn.
    + by destruct Ht as [-> | ->]; cbn; rewrite ?Hl, ?Hd, ?Hs, ?Hn.
    + destruct t as [|x t]; [done|]. destruct Ht as (H1 & H2 & H3).
      destruct (decide (x :: t = lit "local")) as [E|N1]; [rewrite E; destruct (H1 E) as [-> ->]; by vm_compute|].
      destruct (decide (x :: t = lit "docker")) as [E|N2]; [rewrite E, (H2 E); by vm_compute|].
      destruct (decide (x :: t = lit "ssh")) as [E|N3]; [rewrite E, (H3 E); by vm_compute|].
      cbn. by rewrite !bool_decide_false by congruence.
Qed.

Section SwitchProperties.
Context `{PU : PathUris} `{HW : HostWorld} `{O : Outside}.

(** C2: a failed switch changes nothing.  Whatever step fails (validation, the
    base, provisioning, the remote directory, registration), the shared manager and
    the badges are exactly as before: no half-registered environment, no moved
    cursor. *)
Theorem env_switch_failure_atomic (HO : HashOrder) tid turn args st e st' :
  handle_env_switch tid turn args st = (Err e, st') →
  sw_manager st' = sw_manager st ∧ sw_badges st' = sw_badges st.
Proof.
  intros [(e' & _ & ?)|[(msg & ? & _)|(l & msg & ? & _)]]%env_switch_outcome; done.
Qed.


(** One [env_switch] call of any thread, under any hash iteration order. *)
Inductive sstep : SwitchState → SwitchState → Prop :=
| sstep_call (HO : HashOrder) (HL : HashOrderLaw) tid turn args r st st' :
    handle_env_switch tid turn args st = (r, st') → sstep st st'.

Lemma sstep_inv st st' : sstep st st' → switch_inv (sw_manager st) → switch_inv (sw_manager st').
Proof.
  intros [HO HL tid turn args r st0 st1 H] Hinv.
  apply env_switch_outcome in H as [(e & _ & -> & _)|[(m & _ & _ & _ & -> & _)|(l & m & _ & _ & Hne & Hok & Hr)]];
    [done|by apply switched_local_inv|].
  destruct Hr as (p & rc & q & tr & tr' & _ & _ & _ & _ & -> & _).
  apply switched_inv; [done|done|apply Hok, Hinv|done].
Qed.

(** C3: the manager stays consistent under any interleaving of switches.
    Starting from any accepted snapshot and after any sequence of [env_switch] calls of
    any threads, successful or not, the manager is well formed, every remembered
    launcher has only validated hop values (so its id parses back and its argv
    delivers), and a thread's cursor always names its remembered launcher. *)
Theorem env_switch_reachable_inv s paths m0 st st' :
  from_snapshot s paths = Ok m0 → sw_manager st = m0 → rtc sstep st st' →
  switch_inv (sw_manager st').
Proof.
  intros H0 <- Hsteps.
  assert (switch_inv (sw_manager st)) as Hinv.
  { pose proof (from_snapshot_wf _ _ _ H0) as Hwf. apply from_snapshot_Ok in H0 as (_ & _ & _ & o & _ & Hm).
    rewrite Hm in Hwf |- *. split; [done| |]; intros ? ?; simpl; by rewrite lookup_empty. }
  clear H0. induction Hsteps as [|st1 st2 st3 H12 _ IH]; [done|]. apply IH. by eapply sstep_inv.
Qed.

(** C40: the policy flags of the remote exec-server.  Under an external sandbox a
    remote switch is refused before any effect.  Otherwise [danger-full-access] is
    passed only when the host session itself may write the path at hand, whichever it
    is (for a policy whose entries are well formed, a host on which [/tmp] is a
    directory, an absolute working directory and a path that resolves); every other
    host policy, a read-only one included, becomes [workspace-write].  [never] ask is
    passed exactly when the host never asks, and every other approval policy becomes
    [on-failure].  So the full-access and never-ask flags are never invented; the two
    intermediate ones may be looser than the host's own policy. *)
Theorem remote_policy_flags `{L : PermWorldLaws} (HO : HashOrder) tid turn l c st path wd :
  let flags := derive_exec_server_policy_flags turn in
  (∀ n, permission_profile turn = ProfileExternal n →
     ∃ e, handle_remote_switch tid turn l c st = (Err e, st))
  ∧ (lit "sandbox_mode=danger-full-access" ∈ flags →
     policy_wf (file_system_sandbox_policy (permission_profile turn)) →
     is_dir (lit "/tmp") = true → is_Some (absolute_path wd) → is_Some (resolve_candidate_path path wd) →
     can_write_path_with_cwd (file_system_sandbox_policy (permission_profile turn)) path wd = true)
  ∧ (lit "sandbox_mode=danger-full-access" ∉ flags ↔ lit "sandbox_mode=workspace-write" ∈ flags)
  ∧ (lit "approval_policy=never" ∈ flags ↔ approval_policy turn = Never)
  ∧ (lit "approval_policy=on-failure" ∈ flags ↔ approval_policy turn ≠ Never).
Proof.
  set (full := match permission_profile turn with
               | ProfileDisabled => true
               | ProfileExternal _ => false
               | ProfileManaged _ _ =>
                   has_full_disk_write_access (file_system_sandbox_policy (permission_profile turn))
               end).
  set (never := match approval_policy turn with Never => true | _ => false end).
  assert (never = true ↔ approval_policy turn = Never) as Hnever
    by (unfold never; by destruct (approval_policy turn)).
  assert (derive_exec_server_policy_flags turn
    = [lit "-c"; if full then lit "sandbox_mode=danger-full-access" else lit "sandbox_mode=workspace-write";
       lit "-c"; if never then lit "approval_policy=never"
                 else lit "approval_policy=on-failure"]) as Hflags.
  { unfold derive_exec_server_policy_flags, full, never.
    destruct (permission_profile turn); [destruct (has_full_disk_write_access _)|..];
      by destruct (approval_policy turn). }
  assert (∀ x, x ∈ derive_exec_server_policy_flags turn
            ↔ bool_decide (x ∈ derive_exec_server_policy_flags turn) = true)
    as Hmem by (intros x; symmetry; apply bool_decide_eq_true).
  cbn zeta. split; [|split; [|split; [|split]]].
  - intros n Hn. unfold handle_remote_switch. rewrite Hn. by eexists.
  - intros Hin Hwf Htmp [cw Hcw] [tg Htg].
    assert (full = true) as Hfull.
    { rewrite Hmem, Hflags in Hin. destruct full; [done|].
      by destruct never; vm_compute in Hin. }
    assert (has_full_disk_write_access (file_system_sandbox_policy (permission_profile turn)) = true) as Hacc
      by (unfold full in Hfull; by destruct (permission_profile turn)).
    destruct (kind (file_system_sandbox_policy (permission_profile turn))) eqn:Hk;
      [by eapply full_disk_write_writes|..];
      unfold can_write_path_with_cwd, resolve_access_with_cwd; by rewrite Hk, Hacc.
  - rewrite (Hmem (lit "sandbox_mode=danger-full-access")), (Hmem (lit "sandbox_mode=workspace-write")), Hflags.
    destruct full, never; vm_compute; intuition congruence.
  - rewrite Hmem, Hflags, <- Hnever. clear.
    destruct full, never; vm_compute; intuition congruence.
  - rewrite Hmem, Hflags, <- Hnever. clear.
    destruct full, never; vm_compute; intuition congruence.
Qed.

(** Room for a thread in a capped map. *)
Definition has_room {V} (m : gmap str V) (t : str) : Prop := size m < 64 ∨ is_Some (m !! t).

Lemma insert_room_other `{HL : HashOrderLaw} {V} (m : gmap str V) t k v :
  has_room m t → k ≠ t → <[t := v]> (make_room t m) !! k = m !! k.
Proof. intros Hr Hk. rewrite make_room_below by done. by rewrite lookup_insert_ne. Qed.

(** switches of one thread do not disturb another.  As long as the capped
    maps have room for the switching thread, a switch (failed or not) leaves every
    other thread's cursor, launcher, id list and metadata as they were, and the only
    registered environment it can change is the one whose id it switched to. *)
Theorem env_switch_other_threads (HO : HashOrder) (HL : HashOrderLaw) tid turn args st r st' k :
  handle_env_switch tid turn args st = (r, st') → k ≠ tid →
  let m := sw_manager st in
  let m' := sw_manager st' in
  has_room (last_environment_id m) tid → has_room (last_launcher m) tid →
  has_room (thread_environment_ids m) tid → has_room (thread_env_metadata m) tid →
  get_last_environment_id m' k = get_last_environment_id m k
  ∧ get_last_launcher m' k = get_last_launcher m k
  ∧ thread_environment_ids m' !! k = thread_environment_ids m !! k
  ∧ thread_env_metadata m' !! k = thread_env_metadata m !! k
  ∧ ∀ i, get_last_environment_id m' tid ≠ Some i → get_environment m' i = get_environment m i.
Proof.
  intros H Hk m m' R1 R2 R3 R4. unfold m, m' in *.
  apply env_switch_outcome in H as [(e & _ & -> & _)|[(msg & _ & _ & _ & -> & _)|(l & msg & _ & _ & Hne & _ & Hr)]].
  - done.
  - unfold get_last_environment_id, get_last_launcher. cbn.
    by rewrite !insert_room_other, lookup_delete_ne by done.
  - destruct Hr as (p & rc & q & tr & tr' & _ & _ & _ & _ & -> & _).
    unfold get_last_environment_id, get_last_launcher, get_environment. cbn.
    rewrite !insert_room_other by done. repeat (split; [done|]). intros i Hi.
    rewrite lookup_insert_ne; [done|]. intros <-. apply Hi. by rewrite lookup_insert_eq.
Qed.
End SwitchProperties.

(** ** A concrete switch to [ssh:box] *)

Module DemoSwitch.
#[export] Instance outside : Outside := {|
  run_outcome := λ tr argv,
    if bool_decide (argv = shell_argv DemoWorld.box (resolve_remote_cwd_script None))
    then Exited true (Some 0%Z) (lit "/home/u") []
    else run_outcome (Outside := DemoWorld.outside) tr argv;
  http_response := http_response (Outside := DemoWorld.outside);
  http_client := http_client (Outside := DemoWorld.outside);
  env_var := env_var (Outside := DemoWorld.outside);
  tag_name_of_json := tag_name_of_json (Outside := DemoWorld.outside);
  from_utf8 := from_utf8 (Outside := DemoWorld.outside);
  utf8_text := utf8_text (Outside := DemoWorld.outside);
  unicode_lower := unicode_lower (Outside := DemoWorld.outside);
  debug_str := debug_str (Outside := DemoWorld.outside);
  status_error := status_error (Outside := DemoWorld.outside);
  sha256 := sha256 (Outside := DemoWorld.outside);
  temp_file := temp_file (Outside := DemoWorld.outside);
  spawn := spawn (Outside := DemoWorld.outside);
  write_stdin := write_stdin (Outside := DemoWorld.outside);
  wait_outcome := wait_outcome (Outside := DemoWorld.outside);
  install_cut := install_cut (Outside := DemoWorld.outside);
  cargo_pkg_version := cargo_pkg_version (Outside := DemoWorld.outside) |}.

Definition start : SwitchState :=
  {| sw_manager := demo_manager; sw_trace := []; sw_badges := [] |}.
Definition to_box : EnvSwitchArgs :=
  {| target := Some (lit "ssh"); container := None; host := Some (lit "box"); args_cwd := None;
     args_hops := None; base := None; extend := None |}.
Definition run (args : EnvSwitchArgs) : result FunctionCallError str * SwitchState :=
  handle_env_switch (PU := demo_uris) (HW := demo_host) (O := outside) (HO := canonical_order)
    (lit "t1") demo_turn args start.
End DemoSwitch.

Lemma env_switch_failure_atomic_witness :
  sw_manager (DemoSwitch.run {| target := None; container := None; host := None; args_cwd := None;
       args_hops := Some []; base := None; extend := None |}).2 = demo_manager.
Proof.
  apply (env_switch_failure_atomic (PU := demo_uris) (HW := demo_host) (O := DemoSwitch.outside)
    canonical_order (lit "t1") demo_turn {| target := None; container := None; host := None;
      args_cwd := None; args_hops := Some []; base := None; extend := None |} DemoSwitch.start
    (RespondToModel (lit "env_switch: `hops` must not be empty when provided"))).
  vm_compute. reflexivity.
Defined.

Definition ok_message (r : result FunctionCallError str) : str :=
  match r with Ok m => m | Err _ => [] end.

Lemma demo_switch_ok :
  DemoSwitch.run DemoSwitch.to_box
  = (Ok (ok_message (DemoSwitch.run DemoSwitch.to_box).1), (DemoSwitch.run DemoSwitch.to_box).2).
Proof. vm_compute. reflexivity. Qed.


Lemma env_switch_reachable_inv_witness :
  switch_inv (sw_manager (DemoSwitch.run DemoSwitch.to_box).2).
Proof.
  apply (env_switch_reachable_inv (PU := demo_uris) (HW := demo_host) (O := DemoSwitch.outside)
    (snapshot_inner None) (Some demo_paths) demo_manager DemoSwitch.start).
  - vm_compute. reflexivity.
  - reflexivity.
  - apply rtc_once. exact (sstep_call canonical_order canonical_order_law (lit "t1") demo_turn DemoSwitch.to_box _
      DemoSwitch.start _ demo_switch_ok).
Defined.

Lemma remote_policy_flags_witness :
  can_write_path_with_cwd (W := demo_perm_world)
    (file_system_sandbox_policy (permission_profile (PU := demo_uris) demo_turn))
    (lit "/etc/hosts") (lit "/work") = true.
Proof.
  apply (proj1 (proj2 (remote_policy_flags (PU := demo_uris) (HW := demo_host)
    (O := DemoSwitch.outside) (L := demo_perm_laws) canonical_order (lit "t1") demo_turn
    DemoWorld.box None DemoSwitch.start (lit "/etc/hosts") (lit "/work")))).
  - apply list_elem_of_In. vm_compute. auto.
  - constructor.
  - vm_compute. reflexivity.
  - eexists. vm_compute. reflexivity.
  - eexists. vm_compute. reflexivity.
Defined.

(** A read-only host that asks before every command gets a remote that writes its
    workspace and asks only after failures. *)
Example read_only_host_loosened :
  derive_exec_server_policy_flags (PU := demo_uris)
    {| turn_environments := []; parent_thread_id := None; turn_cwd := lit "/home/u";
       permission_profile := ProfileManaged (ManagedRestricted (entries read_only) None) NetRestricted;
       approval_policy := UnlessTrusted |}
  = [lit "-c"; lit "sandbox_mode=workspace-write"; lit "-c"; lit "approval_policy=on-failure"].
Proof. vm_compute. reflexivity. Qed.

Lemma env_switch_other_threads_witness :
  get_last_environment_id (sw_manager (DemoSwitch.run DemoSwitch.to_box).2) (lit "t2")
  = get_last_environment_id demo_manager (lit "t2").
Proof.
  apply (env_switch_other_threads (PU := demo_uris) (HW := demo_host) (O := DemoSwitch.outside)
    canonical_order canonical_order_law (lit "t1") demo_turn DemoSwitch.to_box DemoSwitch.start
    _ _ (lit "t2") demo_switch_ok); first [vm_compute; congruence | left; vm_compute; lia].
Defined.
