(* ===== verification/EnvStatus.v ===== *)
(** * env_status and env_list (codex-rs/core/src/tools/handlers/env_status.rs)

    The read-only listing of the environments a thread may use: the frozen turn
    environments, the ids recorded for the thread and its parent, and the cursor,
    joined with the manager's snapshots and sorted for display. *)

From S2P Require Import Prelude.
From S2P Require Import RustStr.
From S2P Require Import Launcher.
From S2P Require Import AbsPath.
From S2P Require Import HostShell.
From S2P Require Import EnvManager.
From S2P Require Import EnvResolve.

Record TurnEnvironmentStatus := {
  st_cwd : str;
  st_shell : option str;
  selected_for_turn : bool }.

Record EnvironmentStatusEntry := {
  entry_environment_id : str;
  entry_kind : str;
  is_manager_default : bool;
  is_default_execution_environment : bool;
  is_selected_for_turn : bool;
  is_last_env_switch : bool;
  entry_cwd : option str;
  cwd_source : str;
  entry_shell : option str }.

Record EnvStatusOutput := {
  out_default_execution_environment_id : option str;
  out_last_env_switch_environment_id : option str;
  out_environments : list EnvironmentStatusEntry;
  note : str }.

Definition STATUS_NOTE : str := lit "This is read-only status. Compatible environment-aware tool calls that omit environment_id use default_execution_environment_id for this thread; pass a listed environment_id explicitly to target a different registered environment.".

Definition environment_status_sort_priority (e : EnvironmentStatusEntry) : nat :=
  if is_default_execution_environment e then 0
  else if is_last_env_switch e then 1
  else 2.

(** The comparison of the final sort: priority, then id. *)
Definition status_le (l r : EnvironmentStatusEntry) : Prop :=
  match environment_status_sort_priority l ?= environment_status_sort_priority r with
  | Lt => True
  | Eq => str_le (entry_environment_id l) (entry_environment_id r)
  | Gt => False
  end.
#[export] Instance status_le_dec : RelDecision status_le.
Proof. intros l r. unfold status_le. destruct (_ ?= _); apply _. Defined.

Definition opt_eqb (o : option str) (s : str) : bool := bool_decide (o = Some s).

Section FromParts.
Context (turn_environments : gmap str TurnEnvironmentStatus).
Context (default_id last_id : option str).

(** The closure that turns a snapshot into an entry. *)
Definition status_entry (s : EnvironmentSnapshot) : EnvironmentStatusEntry :=
  let id := environment_id s in
  let turn_environment := turn_environments !! id in
  let md := metadata s in
  let is_default := opt_eqb default_id id in
  let is_last := opt_eqb last_id id in
  let prefer := (is_default || is_last) && opt_is_some md in
  let from_metadata :=
    match md with
    | Some md => (Some (cwd md), lit "env_switch_metadata")
    | None => (None, lit "unavailable")
    end in
  let '(c, source) :=
    match turn_environment with
    | Some te => if negb prefer then (Some (st_cwd te), lit "turn") else from_metadata
    | None => from_metadata
    end in
  let shell :=
    if prefer
    then opt_or (md ≫= meta_shell) (turn_environment ≫= st_shell)
    else opt_or (turn_environment ≫= st_shell) (md ≫= meta_shell) in
  {| entry_environment_id := id;
     entry_kind := if snap_is_remote s then lit "remote" else lit "local";
     is_manager_default := is_default_snapshot s;
     is_default_execution_environment := is_default;
     is_selected_for_turn :=
       match turn_environment with Some te => selected_for_turn te | None => false end;
     is_last_env_switch := is_last;
     entry_cwd := c;
     cwd_source := source;
     entry_shell := shell |}.

Definition build_env_status_output_from_parts (snapshots : list EnvironmentSnapshot)
    : EnvStatusOutput :=
  {| out_default_execution_environment_id := default_id;
     out_last_env_switch_environment_id := last_id;
     out_environments := merge_sort status_le (status_entry <$> snapshots);
     note := STATUS_NOTE |}.
End FromParts.

Section Status.
Context `{PU : PathUris} `{HO : HashOrder}.

(** The map collected from the turn list: a later entry with the same id wins. *)
Definition turn_status_map (turn : TurnContext) : gmap str TurnEnvironmentStatus :=
  fold_left (λ m te,
    <[te_environment_id te :=
        {| st_cwd := te_cwd te; st_shell := shell_path <$> te_shell te; selected_for_turn := true |}]> m)
    (turn_environments turn) ∅.

Definition visible_environment_ids (session : Session) (turn : TurnContext) : gset str :=
  let keys := environment_thread_keys session turn in
  let last := last_env_switch_environment_id session turn in
  dom (turn_status_map turn)
  ∪ list_to_set (keys ≫= get_thread_environment_ids (environment_manager session))
  ∪ list_to_set (option_list last).

(** The map with the local fallback. *)
Definition status_turn_environments (session : Session) (turn : TurnContext)
    : gmap str TurnEnvironmentStatus :=
  let te := turn_status_map turn in
  if bool_decide (LOCAL_ENVIRONMENT_ID ∈ visible_environment_ids session turn)
     && negb (opt_is_some (te !! LOCAL_ENVIRONMENT_ID))
     && opt_is_some (try_local_environment (environment_manager session))
  then <[LOCAL_ENVIRONMENT_ID :=
           {| st_cwd := turn_cwd turn; st_shell := None; selected_for_turn := false |}]> te
  else te.

(** Thread metadata takes precedence over the process-wide one. *)
Definition with_thread_metadata (session : Session) (turn : TurnContext) (s : EnvironmentSnapshot)
    : EnvironmentSnapshot :=
  match get_thread_environment_metadata_for_keys (environment_manager session)
          (environment_thread_keys session turn) (environment_id s) with
  | Some md => {| environment_id := environment_id s; snap_is_remote := snap_is_remote s;
                  is_default_snapshot := is_default_snapshot s; metadata := Some md |}
  | None => s
  end.

Definition build_env_status_output (session : Session) (turn : TurnContext) : EnvStatusOutput :=
  let visible := visible_environment_ids session turn in
  let snapshots :=
    with_thread_metadata session turn
      <$> List.filter (λ s, bool_decide (environment_id s ∈ visible))
            (environment_snapshots (environment_manager session)) in
  build_env_status_output_from_parts (status_turn_environments session turn)
    (default_tool_environment_id session turn) (last_env_switch_environment_id session turn)
    snapshots.

(** [handle_environment_status]; [to_json] serialises the output. *)
Definition handle_environment_status (to_json : EnvStatusOutput → result str str)
    (tool_name : str) (function_payload : bool) (session : Session) (turn : TurnContext)
    : result FunctionCallError str :=
  if negb function_payload then
    Err (RespondToModel (tool_name ++ lit " handler received unsupported payload"))
  else map_err (λ e, RespondToModel (tool_name ++ lit ": failed to serialize environment status: " ++ e))
         (to_json (build_env_status_output session turn)).
End Status.

(** ** The order of the listing *)

#[export] Instance status_le_total : Total status_le.
Proof.
  intros l r. unfold status_le. rewrite (Nat.compare_antisym (environment_status_sort_priority l)).
  destruct (_ ?= _); simpl; auto. apply (total str_le).
Qed.

#[export] Instance status_le_trans : Transitive status_le.
Proof.
  intros a b c. unfold status_le.
  destruct (Nat.compare_spec (environment_status_sort_priority a) (environment_status_sort_priority b)),
    (Nat.compare_spec (environment_status_sort_priority b) (environment_status_sort_priority c)); try done;
    destruct (Nat.compare_spec (environment_status_sort_priority a) (environment_status_sort_priority c));
    try done; try lia. apply str_le_trans.
Qed.

Section StatusLemmas.
Context `{PU : PathUris}.

Lemma turn_status_elem turn id :
  is_Some (turn_status_map turn !! id) ↔ ∃ te, te ∈ turn_environments turn ∧ te_environment_id te = id.
Proof.
  unfold turn_status_map.
  assert (∀ (l : list TurnEnvironment) (m : gmap str TurnEnvironmentStatus),
    is_Some (fold_left (λ m te, <[te_environment_id te :=
      {| st_cwd := te_cwd te; st_shell := shell_path <$> te_shell te; selected_for_turn := true |}]> m) l m !! id)
    ↔ is_Some (m !! id) ∨ ∃ te, te ∈ l ∧ te_environment_id te = id) as Hf.
  { induction l as [|te l IH]; intros m; simpl; [set_solver|]. rewrite IH, lookup_insert_is_Some.
    setoid_rewrite elem_of_cons. destruct (decide (te_environment_id te = id)); naive_solver. }
  rewrite Hf, lookup_empty. split; [intros [[? ?]|?]; done|auto].
Qed.

(** What a thread may see. *)
Lemma visible_ids_elem s turn id :
  id ∈ visible_environment_ids s turn ↔
    (∃ te, te ∈ turn_environments turn ∧ te_environment_id te = id)
    ∨ dynamic_environment_visible_to_thread s turn id = true
    ∨ last_env_switch_environment_id s turn = Some id.
Proof.
  unfold visible_environment_ids. rewrite !elem_of_union, elem_of_dom, turn_status_elem.
  rewrite !elem_of_list_to_set, list_elem_of_bind, visible_true.
  assert (id ∈ option_list (last_env_switch_environment_id s turn)
    ↔ last_env_switch_environment_id s turn = Some id) as ->.
  { destruct (last_env_switch_environment_id s turn); simpl;
      [rewrite list_elem_of_singleton|rewrite elem_of_nil]; naive_solver. }
  naive_solver.
Qed.

Context `{HL : HashOrderLaw}.

Lemma status_ids s turn :
  entry_environment_id <$> out_environments (build_env_status_output s turn)
  ≡ₚ List.filter (λ i, bool_decide (i ∈ visible_environment_ids s turn))
       (environment_id <$> environment_snapshots (environment_manager s)).
Proof.
  unfold build_env_status_output, build_env_status_output_from_parts. cbn [out_environments].
  rewrite merge_sort_Permutation. apply reflexive_eq. rewrite <-!list_fmap_compose.
  assert (∀ (l : list EnvironmentSnapshot), environment_id <$>
      List.filter (λ x, bool_decide (environment_id x ∈ visible_environment_ids s turn)) l
    = List.filter (λ i, bool_decide (i ∈ visible_environment_ids s turn)) (environment_id <$> l)) as Hf.
  { induction l as [|x l IH]; csimpl; [done|]. case_bool_decide; csimpl; by rewrite IH. }
  rewrite <-Hf. apply list_fmap_ext. intros i x _. unfold compose, status_entry, with_thread_metadata.
  destruct (get_thread_environment_metadata_for_keys _ _ _); cbn;
    repeat match goal with |- context [match ?o with _ => _ end] => destruct o end; done.
Qed.

Lemma status_ids_NoDup s turn :
  NoDup (entry_environment_id <$> out_environments (build_env_status_output s turn)).
Proof.
  rewrite status_ids. apply NoDup_ListNoDup, List.NoDup_filter, NoDup_ListNoDup. apply snapshot_ids_NoDup.
Qed.

Lemma status_ids_elem s turn id :
  id ∈ (entry_environment_id <$> out_environments (build_env_status_output s turn)) ↔
    is_Some (get_environment (environment_manager s) id) ∧ id ∈ visible_environment_ids s turn.
Proof.
  rewrite status_ids, list_elem_of_In, filter_In, <-list_elem_of_In, bool_decide_eq_true.
  assert (id ∈ (environment_id <$> environment_snapshots (environment_manager s))
    ↔ is_Some (get_environment (environment_manager s) id)) as ->; [|done].
  rewrite list_elem_of_fmap. setoid_rewrite snapshot_elem. split.
  - intros (x & -> & e & He & _). by exists e.
  - intros [e He]. eexists {| environment_id := id |}. split; [done|]. exists e. split; [done|].
    cbn. reflexivity.
Qed.
End StatusLemmas.

Section StatusProperty.
Context `{PU : PathUris}.

(** The entry of an environment whose thread metadata is recorded. *)
Lemma status_entry_metadata tm d l s turn sn md :
  get_thread_environment_metadata_for_keys (environment_manager s)
    (environment_thread_keys s turn) (environment_id sn) = Some md →
  opt_eqb d (environment_id sn) = true →
  let e := status_entry tm d l (with_thread_metadata s turn sn) in
  entry_cwd e = Some (cwd md) ∧ cwd_source e = lit "env_switch_metadata".
Proof.
  intros Hmd Hd. unfold status_entry, with_thread_metadata. rewrite Hmd. cbn. rewrite Hd. cbn.
  by destruct (tm !! environment_id sn).
Qed.

Lemma status_entry_flags tm d l s turn sn :
  let e := status_entry tm d l (with_thread_metadata s turn sn) in
  entry_environment_id e = environment_id sn
  ∧ is_default_execution_environment e = opt_eqb d (environment_id sn).
Proof.
  unfold status_entry, with_thread_metadata.
  destruct (get_thread_environment_metadata_for_keys _ _ _); cbn;
    repeat match goal with |- context [match ?o with _ => _ end] => destruct o end; done.
Qed.

(** In a sorted listing with distinct ids the default comes first. *)
Lemma default_first es e d :
  StronglySorted status_le es → NoDup (entry_environment_id <$> es) →
  (∀ x, x ∈ es → is_default_execution_environment x = opt_eqb (Some d) (entry_environment_id x)) →
  e ∈ es → entry_environment_id e = d → ∃ rest, es = e :: rest.
Proof.
  intros Hs Hnd Hdef He Hid. destruct es as [|h rest]; [by apply not_elem_of_nil in He|].
  exists rest. f_equal. apply elem_of_cons in He as [->|He]; [done|].
  apply StronglySorted_inv in Hs as [_ Hh]. rewrite Forall_forall in Hh. specialize (Hh _ He).
  assert (environment_status_sort_priority e = 0) as He0.
  { unfold environment_status_sort_priority. rewrite (Hdef e) by (by right).
    unfold opt_eqb. by rewrite Hid, bool_decide_true. }
  unfold status_le in Hh. rewrite He0 in Hh.
  assert (entry_environment_id h = d) as Hhd.
  { pose proof (Hdef h (list_elem_of_here _ _)) as Hd. unfold environment_status_sort_priority in Hh.
    destruct (is_default_execution_environment h); [|by destruct (is_last_env_switch h)].
    symmetry in Hd. apply bool_decide_eq_true in Hd. by injection Hd. }
  csimpl in Hnd. apply NoDup_cons in Hnd as [Hn _]. exfalso. apply Hn.
  rewrite Hhd, <-Hid. by apply list_elem_of_fmap_2.
Qed.

(** [env_status] lists what the thread can use.  The listing does not depend
    on hash iteration order and has one entry per registered environment that is in the
    turn, recorded for the thread or its parent, or the cursor, and no other (an
    environment only other threads know is not shown).  It is sorted by priority and
    id; the environment tool calls use by default comes first when it is registered,
    with the directory [env_switch] recorded for the thread if there is one. *)
Theorem env_status_listing (HO1 HO2 : HashOrder)
    (L1 : HashOrderLaw (HO := HO1)) (L2 : HashOrderLaw (HO := HO2)) s turn :
  let out := build_env_status_output (HO := HO1) s turn in
  let m := environment_manager s in
  out = build_env_status_output (HO := HO2) s turn
  ∧ NoDup (entry_environment_id <$> out_environments out)
  ∧ (∀ i, i ∈ (entry_environment_id <$> out_environments out) ↔
       is_Some (get_environment m i)
       ∧ ((∃ te, te ∈ turn_environments turn ∧ te_environment_id te = i)
          ∨ dynamic_environment_visible_to_thread s turn i = true
          ∨ last_env_switch_environment_id s turn = Some i))
  ∧ StronglySorted status_le (out_environments out)
  ∧ ∀ d, default_tool_environment_id s turn = Some d → is_Some (get_environment m d) →
      ∃ e rest, out_environments out = e :: rest ∧ entry_environment_id e = d
        ∧ ∀ md, get_thread_environment_metadata_for_keys m (environment_thread_keys s turn) d = Some md →
            entry_cwd e = Some (cwd md) ∧ cwd_source e = lit "env_switch_metadata".
Proof.
  cbn zeta.
  assert (StronglySorted status_le (out_environments (build_env_status_output (HO := HO1) s turn))) as Hs
    by (apply StronglySorted_merge_sort; apply _).
  assert (∀ d, default_tool_environment_id s turn = Some d → d ∈ visible_environment_ids s turn) as Hvis.
  { intros d Hd. apply visible_ids_elem. unfold default_tool_environment_id in Hd.
    destruct (last_env_switch_environment_id s turn); simplify_eq/=; [by auto|]. left.
    destruct (turn_environments turn) as [|te l]; simplify_eq/=. exists te. split; [by left|done]. }
  split; [|split; [|split; [|split]]].
  - unfold build_env_status_output. by rewrite (snapshots_deterministic HO1 HO2).
  - apply status_ids_NoDup.
  - intros i. by rewrite status_ids_elem, visible_ids_elem.
  - done.
  - intros d Hd Hreg.
    assert (d ∈ (entry_environment_id <$> out_environments (build_env_status_output (HO := HO1) s turn)))
      as Hin by (apply status_ids_elem; auto).
    apply list_elem_of_fmap in Hin as (e & -> & He).
    assert (∀ x, x ∈ out_environments (build_env_status_output (HO := HO1) s turn) →
      ∃ sn, x = status_entry (status_turn_environments s turn) (default_tool_environment_id s turn)
                  (last_env_switch_environment_id s turn) (with_thread_metadata s turn sn)) as Hsn.
    { intros x. unfold build_env_status_output, build_env_status_output_from_parts. cbn [out_environments].
      rewrite merge_sort_Permutation. intros (y & -> & (sn & -> & _)%list_elem_of_fmap)%list_elem_of_fmap. eauto. }
    destruct (default_first _ e (entry_environment_id e) Hs (status_ids_NoDup s turn)) as [rest Hrest];
      [|done|done|].
    { intros x (sn & ->)%Hsn. rewrite Hd.
      destruct (status_entry_flags (status_turn_environments s turn) (Some (entry_environment_id e))
        (last_env_switch_environment_id s turn) s turn sn) as [-> ->]. done. }
    exists e, rest. split; [done|]. split; [done|]. intros md Hmd.
    destruct (Hsn e He) as [sn Heq].
    destruct (status_entry_flags (status_turn_environments s turn) (default_tool_environment_id s turn)
        (last_env_switch_environment_id s turn) s turn sn) as [Hi _]. rewrite <-Heq in Hi.
    rewrite Heq. apply status_entry_metadata; [by rewrite <-Hi|].
    unfold opt_eqb. rewrite Hd, Hi. by rewrite bool_decide_true.
Qed.
End StatusProperty.

Lemma env_status_listing_witness :
  NoDup (entry_environment_id <$> out_environments
    (build_env_status_output (PU := demo_uris) (HO := canonical_order) demo_session demo_turn)).
Proof.
  exact (proj1 (proj2 (env_status_listing (PU := demo_uris) canonical_order canonical_order
    canonical_order_law canonical_order_law demo_session demo_turn))).
Defined.
