(* ===== verification/Advisory.v ===== *)
(** * The raw-remote advisory (codex-rs/core/src/tools/handlers/remote_command_advisory.rs)

    When a shell command reaches another machine with plain [ssh] or [docker exec]
    (or creates a container with [docker run]), the tool output carries a hint to use
    [env_switch].  The bash parser (tree-sitter) and [shlex] are parameters. *)

From S2P Require Import Prelude.
From S2P Require Import RustStr.

Inductive RemoteCommandKind := RawRemote | DockerRun.

Definition RAW_REMOTE_ADVISORY : str := lit "Advisory: this command used raw SSH/Docker to reach another execution target. If the task continues on that host or inside that container, call env_switch before the next substantive command so compatible tools use that target as the default environment instead of repeating ssh/docker wrappers. For nested SSH-to-Docker work, env_switch can register an id like `ssh:hostname>docker:container-name`; if env_switch cannot register the target, report that fallback reason before continuing with raw ssh/docker. To return to the original local environment, call env_switch with target=`local`, or use env_status and pass a different environment_id explicitly for one call.".
Definition DOCKER_RUN_ADVISORY : str := lit "Advisory: docker run is appropriate for creating a container. If the task continues inside that container, call env_switch before the next substantive command so compatible tools use the container as the default execution environment instead of repeating docker exec wrappers. For a container on an SSH host, register the nested target as `ssh:hostname>docker:container-name`; if env_switch cannot register the target, report that fallback reason before continuing with raw docker exec. To return to the original local environment, call env_switch with target=`local`, or use env_status and pass a different environment_id explicitly for one call.".

Definition is_env_assignment (word : str) : bool :=
  match split_once (ch "=") word with
  | None => false
  | Some (name, _) =>
      match name with
      | [] => false
      | first :: _ =>
          ((first =? ch "_")%N || is_ascii_alphabetic first)
          && all (λ c, (c =? ch "_")%N || is_ascii_alphanumeric c) name
      end
  end.

(** [command_index]: the first word that is not an assignment. *)
Fixpoint command_index (words : list str) : option nat :=
  match words with
  | [] => None
  | w :: ws => if is_env_assignment w then S <$> command_index ws else Some 0
  end.

Definition is_path_sep (c : char) : bool := (c =? ch "/")%N || (c =? ch "\")%N.

(** [command.rsplit(['/', '\\']).next()] *)
Definition after_last_sep (s : str) : str :=
  match split_once_by is_path_sep (reverse s) with
  | Some (last, _) => reverse last
  | None => s
  end.

Definition command_basename (command : str) : str :=
  default command (opt_filter (λ n, negb (is_empty n)) (Some (after_last_sep command))).

Definition detect_remote_command_words (words : list str) : option RemoteCommandKind :=
  i ← command_index words;
  cmd ← words !! i;
  let name := command_basename cmd in
  if name == lit "ssh" then Some RawRemote
  else if name == lit "docker" then
    match words !! S i with
    | Some w => if w == lit "exec" then Some RawRemote
                else if w == lit "run" then Some DockerRun else None
    | None => None
    end
  else None.

Definition is_connector (t : str) : bool := any (λ c, t == c) [lit "&&"; lit "||"; lit ";"; lit "|"].

(** [tokens.split(pred)] on a slice. *)
Fixpoint slice_split (p : str → bool) (tokens : list str) : list (list str) :=
  match tokens with
  | [] => [[]]
  | t :: ts =>
      if p t then [] :: slice_split p ts
      else match slice_split p ts with
           | g :: gs => (t :: g) :: gs
           | [] => [[t]]
           end
  end.

Definition split_words_on_connectors (tokens : list str) : list (list str) :=
  List.filter (λ g, negb (is_empty g)) (slice_split is_connector tokens).

Section Advisory.
(** [try_parse_shell] followed by [try_parse_word_only_commands_sequence], and
    [shlex::split]. *)
Context (parse_word_only_commands : str → option (list (list str))).
Context (shlex_split : str → option (list str)).

Definition shell_words (command : str) : list (list str) :=
  match parse_word_only_commands command with
  | Some commands => commands
  | None => default [] (split_words_on_connectors <$> shlex_split command)
  end.

Definition detect_remote_command (command : str) : option RemoteCommandKind :=
  find_map detect_remote_command_words (shell_words command).

Definition remote_command_advisory (command : str) (env_switch_enabled : bool) : option str :=
  if negb env_switch_enabled then None
  else (λ k, match k with RawRemote => RAW_REMOTE_ADVISORY | DockerRun => DOCKER_RUN_ADVISORY end)
         <$> detect_remote_command command.
End Advisory.

(** ** What is detected *)

Lemma command_index_spec words i :
  command_index words = Some i ↔
    ∃ pre w post, words = pre ++ w :: post ∧ length pre = i
      ∧ Forall (λ x, is_env_assignment x = true) pre ∧ is_env_assignment w = false.
Proof.
  revert i; induction words as [|w ws IH]; intros i; simpl.
  { split; [done|]. intros (pre & w & post & H & _). by destruct pre. }
  destruct (is_env_assignment w) eqn:Hw.
  - rewrite fmap_Some. setoid_rewrite IH. split.
    + intros (j & (pre & x & post & -> & <- & Hp & Hx) & ->). exists (w :: pre), x, post. auto.
    + intros (pre & x & post & Heq & <- & Hp & Hx). destruct pre as [|y pre]; simplify_eq/=; [congruence|].
      apply Forall_cons in Hp as [_ Hp]. exists (length pre). split; [|done]. eauto 10.
  - split.
    + intros [= <-]. exists [], w, ws. auto.
    + intros (pre & x & post & Heq & <- & Hp & Hx). destruct pre as [|y pre]; simplify_eq/=; [done|].
      apply Forall_cons in Hp as [Hp _]. congruence.
Qed.

(** A base name: no separator, or the whole of a command that ends in one. *)
Definition base_name (command name : str) : Prop :=
  (name ≠ [] ∧ Forall (λ c, is_path_sep c = false) name
   ∧ (command = name ∨ ∃ dir c, is_path_sep c = true ∧ command = dir ++ c :: name))
  ∨ name = command ∧ (command = [] ∨ ∃ dir c, is_path_sep c = true ∧ command = dir ++ [c]).

Lemma split_once_by_None (f : char → bool) s :
  split_once_by f s = None → Forall (λ c, f c = false) s.
Proof.
  induction s as [|c s IH]; simpl; [constructor|]. destruct (f c) eqn:Hc; [done|].
  intros H%fmap_None. auto.
Qed.

Lemma command_basename_spec command : base_name command (command_basename command).
Proof.
  unfold command_basename, after_last_sep, base_name.
  destruct (split_once_by is_path_sep (reverse command)) as [[a b]|] eqn:Hs.
  - apply split_once_by_Some in Hs as (c & Hr & Hc & Ha).
    assert (command = reverse b ++ c :: reverse a) as Hcmd.
    { rewrite <-(reverse_involutive command), Hr, reverse_app, reverse_cons, <-app_assoc. done. }
    simpl. destruct (is_empty (reverse a)) eqn:He; simpl.
    + right. split; [done|]. right. apply is_empty_true in He. rewrite He in Hcmd. eauto.
    + left. apply is_empty_false in He. split; [done|]. split; [by apply Forall_reverse|]. right. eauto.
  - apply split_once_by_None in Hs. simpl. destruct (is_empty command) eqn:He; simpl.
    + right. split; [done|]. left. by apply is_empty_true.
    + left. apply is_empty_false in He. split; [done|]. split; [|by left].
      apply Forall_reverse in Hs. by rewrite reverse_involutive in Hs.
Qed.

(** A simple command that reaches another target. *)
Definition runs_remote (words : list str) (k : RemoteCommandKind) : Prop :=
  ∃ pre cmd post, words = pre ++ cmd :: post
    ∧ Forall (λ w, is_env_assignment w = true) pre ∧ is_env_assignment cmd = false
    ∧ (k = RawRemote ∧ (command_basename cmd = lit "ssh"
                        ∨ command_basename cmd = lit "docker" ∧ head post = Some (lit "exec"))
       ∨ k = DockerRun ∧ command_basename cmd = lit "docker" ∧ head post = Some (lit "run")).

Lemma lookup_at_middle {A} (pre : list A) x post : (pre ++ x :: post) !! length pre = Some x.
Proof. by apply list_lookup_middle. Qed.

Lemma lookup_after_middle {A} (pre : list A) x post :
  (pre ++ x :: post) !! S (length pre) = head post.
Proof. rewrite lookup_app_r by lia. replace (S _ - _) with 1 by lia. by destruct post. Qed.

Lemma detect_words_iff words k : detect_remote_command_words words = Some k ↔ runs_remote words k.
Proof.
  unfold detect_remote_command_words, runs_remote. split.
  - intros (i & (pre & cmd & post & -> & <- & Hp & Hc)%command_index_spec & Hk)%bind_Some.
    rewrite lookup_at_middle, lookup_after_middle in Hk. cbn [mbind option_bind] in Hk.
    exists pre, cmd, post. do 3 (split; [done|]).
    case_str; [injection Hk as <-; auto|]. case_str; [|done].
    destruct (head post) as [w|]; [|done].
    case_str; [subst w; injection Hk as <-; auto|]. case_str; [|done]. subst w. injection Hk as <-. auto.
  - intros (pre & cmd & post & -> & Hp & Hc & Hk).
    rewrite (proj2 (command_index_spec _ (length pre))) by (by exists pre, cmd, post).
    cbn [mbind option_bind]. rewrite lookup_at_middle, lookup_after_middle. cbn [mbind option_bind].
    destruct Hk as [[-> [-> |[-> ->]]]|(-> & -> & ->)]; by vm_compute.
Qed.

Lemma find_map_first {A B} (f : A → option B) l b :
  find_map f l = Some b ↔
    ∃ l1 a l2, l = l1 ++ a :: l2 ∧ f a = Some b ∧ Forall (λ x, f x = None) l1.
Proof.
  induction l as [|x l IH]; simpl.
  { split; [done|]. intros (l1 & ? & ? & H & _). by destruct l1. }
  destruct (f x) as [y|] eqn:Hx.
  - split; [intros [= <-]; by exists [], x, l|].
    intros (l1 & a & l2 & H & Ha & Hn). destruct l1 as [|z l1]; injection H as <- ->; [congruence|].
    apply Forall_cons in Hn as [Hn _]. congruence.
  - rewrite IH. split.
    + intros (l1 & a & l2 & -> & Ha & Hn). exists (x :: l1), a, l2. auto.
    + intros (l1 & a & l2 & H & Ha & Hn). destruct l1 as [|z l1]; injection H as <- ->; [congruence|].
      apply Forall_cons in Hn as [_ Hn]. by exists l1, a, l2.
Qed.

(** ** Properties *)

(** when the advisory is given.  It is given iff the feature is on and some
    simple command of the line, after its variable assignments, runs [ssh],
    [docker exec] or [docker run] by base name; the first such command decides the text.
    The base name is the part after the last separator (the whole command when that part
    is empty). *)
Theorem remote_command_advisory_spec parse shlex command enabled adv :
  (remote_command_advisory parse shlex command enabled = Some adv ↔
     enabled = true
     ∧ ∃ before words after k,
         shell_words parse shlex command = before ++ words :: after
         ∧ Forall (λ ws, ∀ k, ¬ runs_remote ws k) before
         ∧ runs_remote words k
         ∧ adv = match k with RawRemote => RAW_REMOTE_ADVISORY | DockerRun => DOCKER_RUN_ADVISORY end)
  ∧ ∀ cmd, base_name cmd (command_basename cmd).
Proof.
  split; [|apply command_basename_spec].
  unfold remote_command_advisory. destruct enabled; cbn [negb]; [|by split; [|intros [? _]]].
  unfold detect_remote_command. rewrite fmap_Some. setoid_rewrite find_map_first.
  assert (∀ ws, detect_remote_command_words ws = None ↔ ∀ k, ¬ runs_remote ws k) as Hnone.
  { intros ws. setoid_rewrite <-detect_words_iff. destruct (detect_remote_command_words ws); naive_solver. }
  setoid_rewrite detect_words_iff. setoid_rewrite Hnone. naive_solver.
Qed.
