(* ===== verification/SeekSequence.v ===== *)
(** * Locating context lines

    [apply-patch/src/seek_sequence.rs]: the search for the lines a hunk of a
    patch replaces, in four passes of decreasing strictness.  The passes are
    the values of [pass]; each compares two lines through a key. *)

From S2P Require Import Prelude RustStr.

Open Scope rstr_scope.

(** [normalise]: typographic dashes, quotes and spaces to ASCII. *)
Definition normalise_char (c : char) : char :=
  if in_range 8208 8213 c || (c =? 8722)%N then 45%N
  else if in_range 8216 8219 c then 39%N
  else if in_range 8220 8223 c then 34%N
  else if (c =? 160)%N || in_range 8194 8202 c || (c =? 8239)%N || (c =? 8287)%N
          || (c =? 12288)%N then 32%N
  else c.
Definition normalise (s : str) : str := normalise_char <$> trim s.

(** The four loops, by the key through which they compare two lines. *)
Inductive pass := Exact | Rstrip | Trim | Normalise.

Definition line_key (p : pass) : str → str :=
  match p with
  | Exact => id
  | Rstrip => trim_end
  | Trim => trim
  | Normalise => normalise
  end.

(** The body of a loop: the lines from [i] on are, line by line, the
    pattern.  [lines[i + p_idx]] past the end would panic; see [match_at_spec]. *)
Fixpoint lines_match (p : pass) (ls pattern : list str) {struct pattern} : bool :=
  match pattern with
  | [] => true
  | pat :: pattern' =>
      match ls with
      | [] => false
      | l :: ls' => (line_key p l == line_key p pat) && lines_match p ls' pattern'
      end
  end.
Definition match_at (p : pass) (ls pattern : list str) (i : nat) : bool :=
  lines_match p (drop i ls) pattern.

(** [for i in search_start..=lines.len().saturating_sub(pattern.len())]. *)
Definition search_range (ls pattern : list str) (search_start : nat) : list nat :=
  seq search_start (S (length ls - length pattern) - search_start).

Definition run_pass (ls pattern : list str) (search_start : nat) (p : pass) : option nat :=
  find (match_at p ls pattern) (search_range ls pattern search_start).

Definition search_start_of (ls pattern : list str) (start : nat) (eof : bool) : nat :=
  if eof && (length pattern <=? length ls) then length ls - length pattern else start.

Definition seek_sequence (ls pattern : list str) (start : nat) (eof : bool) : option nat :=
  if is_empty pattern then Some start
  else if length ls <? length pattern then None
  else find_map (run_pass ls pattern (search_start_of ls pattern start eof))
                [Exact; Rstrip; Trim; Normalise].

(** ** The passes are nested *)

Section Keys.
Implicit Types s t : str.

(** Trimming the two ends commutes. *)
Lemma drop_while_app_all (p : char → bool) s k :
  Forall (λ c, p c = true) s → drop_while p (s ++ k) = drop_while p k.
Proof. induction 1 as [|c s Hc _ IH]; simpl; [done|]. by rewrite Hc. Qed.

Lemma drop_while_app_some (p : char → bool) s k :
  drop_while p s ≠ [] → drop_while p (s ++ k) = drop_while p s ++ k.
Proof. induction s as [|c s IH]; simpl; [done|]. destruct (p c); auto. Qed.

Lemma drop_while_nil (p : char → bool) s :
  drop_while p s = [] ↔ Forall (λ c, p c = true) s.
Proof.
  induction s as [|c s IH]; simpl; [done|]. rewrite Forall_cons.
  destruct (p c); naive_solver.
Qed.

Lemma trim_end_app s k : Forall (λ c, is_whitespace c = true) k → trim_end (s ++ k) = trim_end s.
Proof.
  intros Hk. unfold trim_end. rewrite reverse_app.
  rewrite drop_while_app_all; [done|]. by apply Forall_reverse.
Qed.

Lemma trim_end_nil s : Forall (λ c, is_whitespace c = true) s → trim_end s = [].
Proof. intros H. by rewrite <-(app_nil_l s), trim_end_app. Qed.

(** [trim] only depends on [trim_end]. *)
Lemma trim_trim_end s : trim (trim_end s) = trim s.
Proof.
  destruct (trim_end_prefix s) as (k & Hs & Hk). unfold trim, trim_start.
  rewrite Hs at 2.
  destruct (drop_while is_whitespace (trim_end s)) as [|c l] eqn:E.
  - apply drop_while_nil in E. rewrite drop_while_app_all by done.
    rewrite (trim_end_nil (drop_while _ k)); [done|].
    by rewrite (proj2 (drop_while_nil _ _)).
  - rewrite drop_while_app_some by congruence. rewrite E. by rewrite trim_end_app.
Qed.

Lemma exact_rstrip s t : line_key Exact s = line_key Exact t → line_key Rstrip s = line_key Rstrip t.
Proof. cbn. by intros ->. Qed.
Lemma rstrip_trim s t : line_key Rstrip s = line_key Rstrip t → line_key Trim s = line_key Trim t.
Proof. cbn. intros H. by rewrite <-(trim_trim_end s), H, trim_trim_end. Qed.
Lemma trim_normalise s t : line_key Trim s = line_key Trim t → line_key Normalise s = line_key Normalise t.
Proof. cbn. unfold normalise. by intros ->. Qed.
End Keys.

(** [q] accepts whatever [p] accepts. *)
Definition pass_rank (p : pass) : nat :=
  match p with Exact => 0 | Rstrip => 1 | Trim => 2 | Normalise => 3 end.
Definition stricter (q p : pass) : Prop := pass_rank q < pass_rank p.

Lemma line_key_weaken q p s t :
  pass_rank q ≤ pass_rank p → line_key q s = line_key q t → line_key p s = line_key p t.
Proof.
  pose proof (exact_rstrip s t); pose proof (rstrip_trim s t); pose proof (trim_normalise s t).
  destruct q, p; cbn [pass_rank]; intros; solve [auto|lia].
Qed.

(** ** One pass *)

(** The reference notion: the [length pattern] lines from [i] on agree with
    the pattern under [p]. *)
Definition agrees (p : pass) (ls pattern : list str) (i : nat) : Prop :=
  Forall2 (λ l pat, line_key p l = line_key p pat)
          (take (length pattern) (drop i ls)) pattern.

#[export] Instance agrees_dec p ls pattern i : Decision (agrees p ls pattern i).
Proof. unfold agrees. apply _. Defined.

Lemma lines_match_spec p ls pattern :
  lines_match p ls pattern = true ↔
    Forall2 (λ l pat, line_key p l = line_key p pat) (take (length pattern) ls) pattern.
Proof.
  revert ls; induction pattern as [|pat pattern IH]; intros ls; cbn [lines_match length].
  { rewrite take_0. split; [intros _; by apply Forall2_nil|done]. }
  destruct ls as [|l ls]; cbn [take].
  { split; [done|]. by intros ?%Forall2_length. }
  by rewrite andb_true_iff, IH, str_eqb_true, Forall2_cons.
Qed.

Lemma match_at_spec p ls pattern i : match_at p ls pattern i = true ↔ agrees p ls pattern i.
Proof. apply lines_match_spec. Qed.

Lemma agrees_weaken q p ls pattern i :
  pass_rank q ≤ pass_rank p → agrees q ls pattern i → agrees p ls pattern i.
Proof. intros Hqp H. eapply Forall2_impl; [exact H|]. intros. by eapply line_key_weaken. Qed.

Lemma agrees_exact ls pattern i :
  agrees Exact ls pattern i ↔ take (length pattern) (drop i ls) = pattern.
Proof.
  unfold agrees; cbn. split.
  - intros H. apply list_eq_Forall2. exact H.
  - intros H. apply list_eq_Forall2. exact H.
Qed.

(** The positions a search inspects. *)
Definition in_window (ls pattern : list str) (s i : nat) : Prop :=
  s ≤ i ∧ i + length pattern ≤ length ls.

Lemma search_range_elem ls pattern s i :
  length pattern ≤ length ls → i ∈ search_range ls pattern s ↔ in_window ls pattern s i.
Proof. intros ?. unfold search_range, in_window. rewrite elem_of_seq. lia. Qed.

Lemma find_seq_Some (f : nat → bool) s n i :
  find f (seq s n) = Some i ↔
    s ≤ i < s + n ∧ f i = true ∧ ∀ j, s ≤ j < i → f j = false.
Proof.
  revert s; induction n as [|n IH]; intros s; cbn [seq find].
  { split; [done|]. lia. }
  destruct (f s) eqn:Hs.
  - split; [intros [= <-]; repeat split; auto with lia|].
    intros (Hi & Hf & Hlt). f_equal. destruct (decide (s = i)) as [?|?]; [done|].
    rewrite Hlt in Hs by lia. done.
  - rewrite IH. split; intros (Hi & Hf & Hlt); (split; [|split; [done|]]).
    + lia.
    + intros j Hj. destruct (decide (j = s)) as [->|?]; [done|]. apply Hlt; lia.
    + destruct (decide (s = i)) as [->|?]; [congruence|lia].
    + intros j Hj. apply Hlt; lia.
Qed.

Lemma run_pass_Some ls pattern s p i :
  length pattern ≤ length ls →
  run_pass ls pattern s p = Some i ↔
    in_window ls pattern s i ∧ agrees p ls pattern i ∧
    ∀ j, s ≤ j < i → ¬ agrees p ls pattern j.
Proof.
  intros Hle. unfold run_pass, search_range. rewrite find_seq_Some, match_at_spec.
  unfold in_window. setoid_rewrite <-not_true_iff_false. setoid_rewrite match_at_spec.
  split; intros (? & ? & ?); (split; [lia|split; done]).
Qed.

Lemma run_pass_None ls pattern s p :
  length pattern ≤ length ls →
  run_pass ls pattern s p = None ↔ ∀ i, in_window ls pattern s i → ¬ agrees p ls pattern i.
Proof.
  intros Hle. unfold run_pass. rewrite find_None.
  setoid_rewrite search_range_elem; [|done].
  by setoid_rewrite <-not_true_iff_false; setoid_rewrite match_at_spec.
Qed.

(** ** The search *)

Lemma seek_sequence_unfold ls pattern start eof :
  pattern ≠ [] → length pattern ≤ length ls →
  seek_sequence ls pattern start eof =
    find_map (run_pass ls pattern (search_start_of ls pattern start eof))
             [Exact; Rstrip; Trim; Normalise].
Proof.
  intros Hp Hle. unfold seek_sequence.
  rewrite (proj2 (is_empty_false _)) by done.
  by rewrite (proj2 (Nat.ltb_ge _ _)) by done.
Qed.

(** A match lies inside the lines: the slice [lines[i..i + pattern.len()]]
    never panics and the caller may replace that many lines. *)
Lemma seek_sequence_window ls pattern start eof i :
  pattern ≠ [] → seek_sequence ls pattern start eof = Some i →
  in_window ls pattern (search_start_of ls pattern start eof) i ∧
  agrees Normalise ls pattern i.
Proof.
  intros Hp H. destruct (decide (length pattern ≤ length ls)) as [Hle|Hlt]; last first.
  { unfold seek_sequence in H. rewrite (proj2 (is_empty_false _)) in H by done.
    by rewrite (proj2 (Nat.ltb_lt _ _)) in H by lia. }
  rewrite seek_sequence_unfold in H by done.
  apply find_map_Some in H as (p & _ & Hi). apply run_pass_Some in Hi as (Hw & Ha & _); [|done].
  split; [done|]. eapply agrees_weaken; [|done]. destruct p; cbn; lia.
Qed.

Lemma find_map_passes ls pattern s i :
  length pattern ≤ length ls →
  find_map (run_pass ls pattern s) [Exact; Rstrip; Trim; Normalise] = Some i ↔
  ∃ p, in_window ls pattern s i ∧ agrees p ls pattern i ∧
       (∀ j, s ≤ j < i → ¬ agrees p ls pattern j) ∧
       (∀ q j, stricter q p → in_window ls pattern s j → ¬ agrees q ls pattern j).
Proof.
  intros Hle. pose proof (λ q, run_pass_None ls pattern s q Hle) as HN.
  pose proof (λ q i, run_pass_Some ls pattern s q i Hle) as HS. unfold stricter. split.
  - cbn. intros H.
    destruct (run_pass ls pattern s Exact) as [x|] eqn:E1; simplify_eq.
    { apply HS in E1 as (?&?&?). exists Exact. do 3 (split; [done|]). intros q j Hq; cbn in Hq; lia. }
    destruct (run_pass ls pattern s Rstrip) as [x|] eqn:E2; simplify_eq.
    { apply HS in E2 as (?&?&?). exists Rstrip. do 3 (split; [done|]).
      intros [] j Hq; cbn in Hq; try lia. revert j. by apply HN. }
    destruct (run_pass ls pattern s Trim) as [x|] eqn:E3; simplify_eq.
    { apply HS in E3 as (?&?&?). exists Trim. do 3 (split; [done|]).
      intros [] j Hq; cbn in Hq; try lia; revert j; by apply HN. }
    destruct (run_pass ls pattern s Normalise) as [x|] eqn:E4; simplify_eq.
    apply HS in E4 as (?&?&?). exists Normalise. do 3 (split; [done|]).
    intros [] j Hq; cbn in Hq; try lia; revert j; by apply HN.
  - intros (p & Hw & Ha & Hf & Hq).
    assert (run_pass ls pattern s p = Some i) as Hp by (apply HS; auto).
    assert (∀ q, pass_rank q < pass_rank p → run_pass ls pattern s q = None) as Hn.
    { intros q Hlt. apply HN. intros j Hj. by eapply Hq. }
    destruct p; cbn in Hn |- *;
      rewrite ?(Hn Exact), ?(Hn Rstrip), ?(Hn Trim) by (cbn; lia); by rewrite Hp.
Qed.

(** what [seek_sequence] finds for a pattern that is not empty.  It
    answers [Some i] exactly when some pass matches at [i] within the window
    (at or after [start], or at the very end of the file for an [eof] hunk, and
    never past the last line), [i] is the first position that pass accepts and
    no stricter pass accepts any position of the window; it answers [None]
    exactly when even the most lenient comparison fails everywhere in the
    window. *)
Theorem seek_sequence_spec (ls pattern : list str) (start : nat) (eof : bool)
    (Hne : pattern ≠ []) :
  let s := search_start_of ls pattern start eof in
  (∀ i, seek_sequence ls pattern start eof = Some i ↔
    ∃ p, in_window ls pattern s i ∧ agrees p ls pattern i ∧
         (∀ j, s ≤ j < i → ¬ agrees p ls pattern j) ∧
         (∀ q j, stricter q p → in_window ls pattern s j → ¬ agrees q ls pattern j)) ∧
  (seek_sequence ls pattern start eof = None ↔
    ∀ i, in_window ls pattern s i → ¬ agrees Normalise ls pattern i).
Proof.
  intros s. destruct (decide (length pattern ≤ length ls)) as [Hle|Hlt]; last first.
  { assert (seek_sequence ls pattern start eof = None) as ->.
    { unfold seek_sequence. rewrite (proj2 (is_empty_false _)) by done.
      by rewrite (proj2 (Nat.ltb_lt _ _)) by lia. }
    unfold in_window. split; [|split; [intros _ i|]; by auto with lia].
    intros i. split; [done|]. intros (_ & ? & _). lia. }
  rewrite seek_sequence_unfold by done. split.
  { intros i. by apply find_map_passes. }
  rewrite find_map_None. split.
  - intros H. apply run_pass_None; [done|]. apply H. set_solver.
  - intros H q _. apply run_pass_None; [done|]. intros i Hw Ha.
    eapply H; [done|]. eapply agrees_weaken; [|done]. destruct q; cbn; lia.
Qed.

Lemma seek_sequence_spec_witness :
  let ls := [lit "  foo"; lit "foo "; lit "foo"] in
  [lit "foo"] ≠ ([] : list str) ∧
  (seek_sequence ls [lit "foo"] 0 false = None ↔
    ∀ i, in_window ls [lit "foo"] (search_start_of ls [lit "foo"] 0 false) i →
         ¬ agrees Normalise ls [lit "foo"] i) ∧
  seek_sequence ls [lit "foo"] 0 false = Some 2.
Proof.
  split; [done|]. split; [|by_compute].
  apply (seek_sequence_spec [lit "  foo"; lit "foo "; lit "foo"] [lit "foo"] 0 false). done.
Defined.

(** An [eof] hunk is only looked for at the end of the file: the documented
    second search from [start] does not happen. *)
Example seek_eof_has_no_fallback :
  seek_sequence [lit "a"; lit "b"] [lit "a"] 0 true = None ∧
  seek_sequence [lit "a"; lit "b"] [lit "a"] 0 false = Some 0.
Proof. split; by_compute. Qed.

(** The position an exact occurrence gives when it is the first one. *)
Lemma seek_sequence_exact ls pattern start i :
  pattern ≠ [] → in_window ls pattern start i → agrees Exact ls pattern i →
  (∀ j, start ≤ j < i → ¬ agrees Exact ls pattern j) →
  seek_sequence ls pattern start false = Some i.
Proof.
  intros Hne Hw Ha Hf. rewrite seek_sequence_unfold; [|done|destruct Hw; lia].
  apply find_map_passes; [destruct Hw; lia|]. exists Exact. do 3 (split; [done|]).
  intros q j Hq. unfold stricter in Hq; cbn in Hq; lia.
Qed.
