(* ===== verification/PatchParser.v ===== *)
(** * Parsing patches

    [apply-patch/src/parser.rs] and [apply-patch/src/streaming_parser.rs]: the
    line-oriented, incremental parser of the apply_patch format and the batch
    entry point [parse_patch].  The parser mutates itself and returns
    [Result]s, so its methods are computations of the state-and-error monad
    [st_err]. *)

From S2P Require Import Prelude RustStr.

Open Scope rstr_scope.

(** ** Markers, hunks, errors *)

Definition BEGIN_PATCH_MARKER : str := lit "*** Begin Patch".
Definition END_PATCH_MARKER : str := lit "*** End Patch".
Definition ADD_FILE_MARKER : str := lit "*** Add File: ".
Definition DELETE_FILE_MARKER : str := lit "*** Delete File: ".
Definition UPDATE_FILE_MARKER : str := lit "*** Update File: ".
Definition MOVE_TO_MARKER : str := lit "*** Move to: ".
Definition EOF_MARKER : str := lit "*** End of File".
Definition CHANGE_CONTEXT_MARKER : str := lit "@@ ".
Definition EMPTY_CHANGE_CONTEXT_MARKER : str := lit "@@".
Definition ENVIRONMENT_ID_MARKER : str := lit "*** Environment ID:".

Inductive ParseError :=
| InvalidPatchError (message : str)
| InvalidHunkError (message : str) (line_number : nat).

Record UpdateFileChunk := mkChunk {
  change_context : option str;
  old_lines : list str;
  new_lines : list str;
  is_end_of_file : bool;
}.

Inductive Hunk :=
| AddFile (path : str) (contents : str)
| DeleteFile (path : str)
| UpdateFile (path : str) (move_path : option str) (chunks : list UpdateFileChunk).

#[export] Instance ParseError_eq_dec : EqDecision ParseError.
Proof. solve_decision. Defined.
#[export] Instance UpdateFileChunk_eq_dec : EqDecision UpdateFileChunk.
Proof. solve_decision. Defined.
#[export] Instance Hunk_eq_dec : EqDecision Hunk.
Proof. solve_decision. Defined.

(** [Hunk::path]: the destination of a rename. *)
Definition hunk_path (h : Hunk) : str :=
  match h with
  | AddFile path _ => path
  | DeleteFile path => path
  | UpdateFile _ (Some path) _ => path
  | UpdateFile path None _ => path
  end.

(** ** The parser's state *)

Inductive StreamingParserMode :=
| NotStarted
| StartedPatch
| AddFileMode
| DeleteFileMode
| UpdateFileMode (hunk_line_number : nat)
| EndedPatch.

Record StreamingParserState := mkState {
  mode : StreamingParserMode;
  hunks : list Hunk;
  environment_id : option str;
}.

Record StreamingPatchParser := mkParser {
  line_buffer : str;
  state : StreamingParserState;
  line_number : nat;
}.

Definition parser_default : StreamingPatchParser :=
  mkParser [] (mkState NotStarted [] None) 0.

(** ** Assignments *)

Abbreviation parser_m := (st_err StreamingPatchParser ParseError).

Definition put_line_buffer (b : str) : parser_m unit :=
  modify (λ p, mkParser b (state p) (line_number p)).
Definition bump_line_number : parser_m unit :=
  modify (λ p, mkParser (line_buffer p) (state p) (S (line_number p))).
Definition put_state (s : StreamingParserState) : parser_m unit :=
  modify (λ p, mkParser (line_buffer p) s (line_number p)).

Definition set_mode (m : StreamingParserMode) : parser_m unit :=
  p ← get; put_state (mkState m (hunks (state p)) (environment_id (state p))).
Definition set_hunks (hs : list Hunk) : parser_m unit :=
  p ← get; put_state (mkState (mode (state p)) hs (environment_id (state p))).
Definition set_environment_id (id : str) : parser_m unit :=
  p ← get; put_state (mkState (mode (state p)) (hunks (state p)) (Some id)).
Definition push_hunk (h : Hunk) : parser_m unit :=
  p ← get; set_hunks (hunks (state p) ++ [h]).

(** [*v.last_mut() = f(v.last())] on a vector. *)
Fixpoint map_last {A} (f : A → A) (l : list A) : list A :=
  match l with
  | [] => []
  | [a] => [f a]
  | a :: l' => a :: map_last f l'
  end.

(** ** Messages *)

Definition no_lines_message : str := lit "Update hunk does not contain any lines".
Definition unexpected_line_message (line : str) : str :=
  lit "Unexpected line found in update hunk: '" ++ line ++
  lit "'. Every line should start with ' ' (context line), '+' (added line), or '-' (removed line)".
Definition invalid_header_message (trimmed : str) : str :=
  lit "'" ++ trimmed ++
  lit "' is not a valid hunk header. Valid hunk headers: '*** Add File: {path}', '*** Delete File: {path}', '*** Update File: {path}'".
Definition expected_context_message (line : str) : str :=
  lit "Expected update hunk to start with a @@ context marker, got: '" ++ line ++ lit "'".
Definition first_line_error : ParseError :=
  InvalidPatchError (lit "The first line of the patch must be '*** Begin Patch'").
Definition last_line_error : ParseError :=
  InvalidPatchError (lit "The last line of the patch must be '*** End Patch'").

(** ** Headers *)

Definition chunk_is_empty (c : UpdateFileChunk) : bool :=
  is_empty (old_lines c) && is_empty (new_lines c).
Definition last_chunk_is_empty (chunks : list UpdateFileChunk) : bool :=
  match last chunks with Some c => chunk_is_empty c | None => false end.
Definition last_chunk_is_eof (chunks : list UpdateFileChunk) : bool :=
  match last chunks with Some c => is_end_of_file c | None => false end.

Definition ensure_update_hunk_is_not_empty (line : str) : parser_m unit :=
  p ← get;
  match last (hunks (state p)) with
  | Some (UpdateFile path _ chunks) =>
      match is_empty chunks, mode (state p) with
      | true, UpdateFileMode hunk_line_number =>
          throw (InvalidHunkError
                  (lit "Update file hunk for path '" ++ path ++ lit "' is empty") hunk_line_number)
      | _, _ =>
          if last_chunk_is_empty chunks then
            if line == END_PATCH_MARKER
            then throw (InvalidHunkError no_lines_message (line_number p))
            else throw (InvalidHunkError (unexpected_line_message line) (line_number p))
          else mret ()
      end
  | _ => mret ()
  end.

Definition is_started (m : StreamingParserMode) : bool :=
  match m with StartedPatch => true | _ => false end.

(** The tail of [handle_hunk_headers_and_end_patch], after the environment
    line. *)
Definition handle_hunk_headers (trimmed : str) : parser_m bool :=
  if trimmed == END_PATCH_MARKER then
    ensure_update_hunk_is_not_empty trimmed ;;
    set_mode EndedPatch ;; mret true
  else match strip_prefix ADD_FILE_MARKER trimmed with
  | Some path =>
      ensure_update_hunk_is_not_empty trimmed ;;
      push_hunk (AddFile path []) ;; set_mode AddFileMode ;; mret true
  | None =>
  match strip_prefix DELETE_FILE_MARKER trimmed with
  | Some path =>
      ensure_update_hunk_is_not_empty trimmed ;;
      push_hunk (DeleteFile path) ;; set_mode DeleteFileMode ;; mret true
  | None =>
  match strip_prefix UPDATE_FILE_MARKER trimmed with
  | Some path =>
      ensure_update_hunk_is_not_empty trimmed ;;
      push_hunk (UpdateFile path None []) ;;
      p ← get; set_mode (UpdateFileMode (line_number p)) ;; mret true
  | None => mret false
  end end end.

Definition handle_hunk_headers_and_end_patch (trimmed : str) : parser_m bool :=
  p ← get;
  match is_started (mode (state p)), strip_prefix ENVIRONMENT_ID_MARKER trimmed with
  | true, Some id =>
      if opt_is_some (environment_id (state p)) then
        throw (InvalidPatchError (lit "apply_patch environment_id cannot be specified more than once"))
      else if is_empty (trim id) then
        throw (InvalidPatchError (lit "apply_patch environment_id cannot be empty"))
      else set_environment_id (trim id) ;; mret true
  | _, _ => handle_hunk_headers trimmed
  end.

(** ** Lines of an update hunk *)

Definition empty_chunk (context : option str) : UpdateFileChunk := mkChunk context [] [] false.

(** [if chunks.is_empty() { push }; if let Some(chunk) = chunks.last_mut() { .. }]. *)
Definition edit_last_chunk (f : UpdateFileChunk → UpdateFileChunk)
    (chunks : list UpdateFileChunk) : list UpdateFileChunk :=
  map_last f (if is_empty chunks then [empty_chunk None] else chunks).

Definition push_old_line (l : str) (c : UpdateFileChunk) : UpdateFileChunk :=
  mkChunk (change_context c) (old_lines c ++ [l]) (new_lines c) (is_end_of_file c).
Definition push_new_line (l : str) (c : UpdateFileChunk) : UpdateFileChunk :=
  mkChunk (change_context c) (old_lines c) (new_lines c ++ [l]) (is_end_of_file c).
Definition mark_end_of_file (c : UpdateFileChunk) : UpdateFileChunk :=
  mkChunk (change_context c) (old_lines c) (new_lines c) true.

(** The hunk's [move_path] and [chunks] are the borrowed fields of the last
    hunk; the result is their new value. *)
Definition update_line_step (line : str) (n : nat) (move_path : option str)
    (chunks : list UpdateFileChunk) :
    result ParseError (option str * list UpdateFileChunk) :=
  let update_line := trim_end line in
  let is_context := (update_line == EMPTY_CHANGE_CONTEXT_MARKER)
                    || starts_with CHANGE_CONTEXT_MARKER update_line in
  if last_chunk_is_eof chunks && is_empty update_line then Ok (move_path, chunks)
  else if last_chunk_is_eof chunks && negb is_context then
    Err (InvalidHunkError (expected_context_message line) n)
  else match (if is_empty chunks && negb (opt_is_some move_path)
              then strip_prefix MOVE_TO_MARKER update_line else None) with
  | Some move_to_path => Ok (Some move_to_path, chunks)
  | None =>
  if is_context && last_chunk_is_empty chunks then
    Err (InvalidHunkError (unexpected_line_message line) n)
  else if update_line == EMPTY_CHANGE_CONTEXT_MARKER then
    Ok (move_path, chunks ++ [empty_chunk None])
  else match strip_prefix CHANGE_CONTEXT_MARKER update_line with
  | Some context => Ok (move_path, chunks ++ [empty_chunk (Some context)])
  | None =>
  if update_line == EOF_MARKER then
    if last_chunk_is_empty chunks then Err (InvalidHunkError no_lines_message n)
    else Ok (move_path, map_last mark_end_of_file chunks)
  else if is_empty line then
    Ok (move_path, edit_last_chunk (push_new_line [] ∘ push_old_line []) chunks)
  else match line with
  | 32%N :: l => Ok (move_path, edit_last_chunk (push_new_line l ∘ push_old_line l) chunks)
  | 43%N :: l => Ok (move_path, edit_last_chunk (push_new_line l) chunks)
  | 45%N :: l => Ok (move_path, edit_last_chunk (push_old_line l) chunks)
  | _ =>
      match last chunks with
      | Some c =>
          if chunk_is_empty c
          then Err (InvalidHunkError (unexpected_line_message line) n)
          else Err (InvalidHunkError (expected_context_message line) n)
      | None => Err (InvalidHunkError (unexpected_line_message line) n)
      end
  end end end.

(** ** [process_line] *)

Definition process_header_line (line : str) : parser_m unit :=
  b ← handle_hunk_headers_and_end_patch (trim line);
  if (b : bool) then mret ()
  else p ← get; throw (InvalidHunkError (invalid_header_message (trim line)) (line_number p)).

Definition process_add_line (line : str) : parser_m unit :=
  b ← handle_hunk_headers_and_end_patch (trim line);
  if (b : bool) then mret ()
  else
    p ← get;
    match strip_prefix (lit "+") line, last (hunks (state p)) with
    | Some line_to_add, Some (AddFile path contents) =>
        set_hunks (map_last (λ _, AddFile path (contents ++ line_to_add ++ [nl])) (hunks (state p)))
    | _, _ => throw (InvalidHunkError (invalid_header_message (trim line)) (line_number p))
    end.

Definition process_update_line (line : str) (hunk_line_number : nat) : parser_m unit :=
  b ← handle_hunk_headers_and_end_patch (trim_end line);
  if (b : bool) then mret ()
  else
    p ← get;
    match last (hunks (state p)) with
    | Some (UpdateFile path move_path chunks) =>
        match update_line_step line (line_number p) move_path chunks with
        | Ok (move_path', chunks') =>
            set_hunks (map_last (λ _, UpdateFile path move_path' chunks') (hunks (state p))) ;;
            set_mode (UpdateFileMode hunk_line_number)
        | Err e => throw e
        end
    | _ => throw (InvalidHunkError (unexpected_line_message line) (line_number p))
    end.

Definition process_line (line : str) : parser_m unit :=
  p ← get;
  match mode (state p) with
  | NotStarted =>
      if trim line == BEGIN_PATCH_MARKER then set_mode StartedPatch else throw first_line_error
  | StartedPatch | DeleteFileMode => process_header_line line
  | AddFileMode => process_add_line line
  | UpdateFileMode hunk_line_number => process_update_line line hunk_line_number
  | EndedPatch => if is_empty (trim line) then mret () else throw last_line_error
  end.

(** ** [push_delta] and [finish] *)

Definition push_char (c : char) : parser_m unit :=
  p ← get;
  if (c =? nl)%N then
    let line := line_buffer p in
    put_line_buffer [] ;; bump_line_number ;; process_line (strip_cr line)
  else put_line_buffer (line_buffer p ++ [c]).

Fixpoint push_chars (delta : str) : parser_m unit :=
  match delta with
  | [] => mret ()
  | c :: delta' => push_char c ;; push_chars delta'
  end.

Definition push_delta (delta : str) : parser_m (list Hunk) :=
  push_chars delta ;; p ← get; mret (hunks (state p)).

Definition finish_buffer : parser_m unit :=
  p ← get;
  let line := line_buffer p in
  if is_empty line then mret ()
  else
    put_line_buffer [] ;; bump_line_number ;;
    if trim line == END_PATCH_MARKER
    then ensure_update_hunk_is_not_empty (trim line) ;; set_mode EndedPatch
    else process_line line.

Definition finish : parser_m (list Hunk) :=
  finish_buffer ;;
  p ← get;
  match mode (state p) with
  | EndedPatch => mret (hunks (state p))
  | _ => throw last_line_error
  end.

(** ** [parse_patch] *)

Record ApplyPatchArgs := mkArgs {
  patch : str;
  args_hunks : list Hunk;
  workdir : option str;
  args_environment_id : option str;
}.

Inductive ParseMode := Strict | Lenient.
Definition PARSE_IN_STRICT_MODE : bool := false.

Definition check_start_and_end_lines_strict (first_line last_line : option str) :
    result ParseError unit :=
  match trim <$> first_line, trim <$> last_line with
  | Some first, Some last =>
      if (first == BEGIN_PATCH_MARKER) && (last == END_PATCH_MARKER) then Ok ()
      else if first == BEGIN_PATCH_MARKER then Err last_line_error
      else Err first_line_error
  | Some first, None =>
      if first == BEGIN_PATCH_MARKER then Err last_line_error else Err first_line_error
  | None, _ => Err last_line_error
  end.

Definition check_patch_boundaries_strict (ls : list str) : result ParseError (list str) :=
  check_start_and_end_lines_strict (head ls) (last ls) ≫= λ _, Ok ls.

Definition is_heredoc_start (first : str) : bool :=
  (first == lit "<<EOF") || (first == lit "<<'EOF'") || (first == litq "<<^EOF^").

Definition check_patch_boundaries_lenient (original_lines : list str) :
    result ParseError (list str) :=
  match check_patch_boundaries_strict original_lines with
  | Ok ls => Ok ls
  | Err original_parse_error =>
      match original_lines, last original_lines with
      | first :: _ :: _, Some last_line =>
          if is_heredoc_start first && ends_with (lit "EOF") last_line
             && (4 <=? length original_lines)
          then check_patch_boundaries_strict
                 (take (length original_lines - 2) (drop 1 original_lines))
          else Err original_parse_error
      | _, _ => Err original_parse_error
      end
  end.

(** [push_delta(&patch)?; finish()?] on a fresh parser. *)
Definition parse_stream (text : str) : result ParseError (list Hunk * option str) :=
  let m := push_delta text ;; finish in
  match m parser_default with
  | (p, Ok hs) => Ok (hs, environment_id (state p))
  | (_, Err e) => Err e
  end.

Definition parse_patch_text (text : str) (m : ParseMode) : result ParseError ApplyPatchArgs :=
  let ls := lines (trim text) in
  patch_lines ← match m with
                | Strict => check_patch_boundaries_strict ls
                | Lenient => check_patch_boundaries_lenient ls
                end;
  let patch := join [nl] patch_lines in
  '(hs, id) ← parse_stream patch;
  Ok (mkArgs patch hs None id).

Definition parse_patch (text : str) : result ParseError ApplyPatchArgs :=
  parse_patch_text text (if PARSE_IN_STRICT_MODE then Strict else Lenient).

(** ** Streaming is batch *)

Lemma push_chars_app a b p : push_chars (a ++ b) p = (push_chars a ;; push_chars b) p.
Proof.
  revert p; induction a as [|c a IH]; intros p; [done|].
  cbn [push_chars app]. rewrite st_bind_assoc. apply st_bind_eq; [done|]. auto.
Qed.

(** The deltas one after the other, as the caller of the streaming parser
    feeds them; the reported hunks are dropped. *)
Fixpoint push_deltas (ds : list str) : parser_m unit :=
  match ds with
  | [] => mret ()
  | d :: ds' => push_delta d ;; push_deltas ds'
  end.

Lemma push_deltas_concat ds p : push_deltas ds p = push_chars (concat ds) p.
Proof.
  revert p; induction ds as [|d ds IH]; intros p; [done|].
  cbn [push_deltas concat]. rewrite push_chars_app. unfold push_delta.
  rewrite !st_bind_assoc. apply st_bind_eq; [done|]. intros [] q. apply IH.
Qed.

(** ** What a parsed hunk promises *)

Definition chunk_ok (c : UpdateFileChunk) : Prop := chunk_is_empty c = false.

Definition hunk_ok (h : Hunk) : Prop :=
  match h with
  | AddFile path contents => path ≠ [] ∧ (contents = [] ∨ last contents = Some nl)
  | DeleteFile path => path ≠ []
  | UpdateFile path move_path chunks =>
      path ≠ [] ∧ move_path ≠ Some [] ∧ chunks ≠ [] ∧ Forall chunk_ok chunks
  end.

(** The chunks of the hunk that is being read: only the last may still be
    without lines. *)
Definition chunks_open (cs : list UpdateFileChunk) : Prop :=
  ∀ pre c, cs = pre ++ [c] → Forall chunk_ok pre.

(** The environment line, once read, is a trimmed name. *)
Definition environment_id_ok (id : option str) : Prop :=
  ∀ s, id = Some s → s ≠ [] ∧ trimmed s.

Definition hunks_inv (m : StreamingParserMode) (hs : list Hunk) : Prop :=
  match m with
  | UpdateFileMode _ =>
      ∃ pre path move_path chunks,
        hs = pre ++ [UpdateFile path move_path chunks] ∧ Forall hunk_ok pre ∧
        path ≠ [] ∧ move_path ≠ Some [] ∧ chunks_open chunks
  | _ => Forall hunk_ok hs
  end.

Definition parser_inv (p : StreamingPatchParser) : Prop :=
  hunks_inv (mode (state p)) (hunks (state p)) ∧ environment_id_ok (environment_id (state p)).

(** Evaluate the primitive steps of a computation. *)
Ltac run :=
  cbv beta iota delta [mbind st_err_bind mret st_err_ret get modify throw set_mode set_hunks
    set_environment_id push_hunk put_state put_line_buffer bump_line_number];
  cbn [state mode hunks environment_id line_buffer line_number].
Ltac run_in H :=
  cbv beta iota delta [mbind st_err_bind mret st_err_ret get modify throw set_mode set_hunks
    set_environment_id push_hunk put_state put_line_buffer bump_line_number] in H;
  cbn [state mode hunks environment_id line_buffer line_number] in H.

Lemma map_last_snoc {A} (f : A → A) l a : map_last f (l ++ [a]) = l ++ [f a].
Proof.
  induction l as [|b l IH]; [done|]. cbn [app map_last].
  destruct (l ++ [a]) eqn:E; [by destruct l|]. by rewrite IH.
Qed.

Lemma list_snoc_case {A} (l : list A) : l = [] ∨ ∃ l' a, l = l' ++ [a].
Proof. destruct l as [|a l' _] using rev_ind; eauto. Qed.

Lemma chunks_open_nil : chunks_open [].
Proof. intros pre c H. by destruct pre. Qed.

Lemma chunks_open_snoc cs c : chunks_open (cs ++ [c]) ↔ Forall chunk_ok cs.
Proof.
  split; [by intros H; eapply H|]. intros H pre c' Heq. by apply app_inj_tail in Heq as [<- _].
Qed.

Lemma chunks_open_full cs :
  chunks_open cs → last_chunk_is_empty cs = false → Forall chunk_ok cs.
Proof.
  destruct (list_snoc_case cs) as [->|(pre & c & ->)]; [done|].
  rewrite chunks_open_snoc. unfold last_chunk_is_empty. rewrite last_snoc. intros H Hc.
  apply Forall_app. auto.
Qed.

(** ** Headers keep the invariant *)

(** The emptiness check changes nothing, and when it passes the current hunk
    is complete. *)
Lemma ensure_frame line p :
  (ensure_update_hunk_is_not_empty line p).1 = p.
Proof. unfold ensure_update_hunk_is_not_empty. run. by repeat case_match. Qed.

Lemma ensure_Ok line p :
  parser_inv p → (ensure_update_hunk_is_not_empty line p).2 = Ok () →
  Forall hunk_ok (hunks (state p)).
Proof.
  intros [Hinv _]. unfold ensure_update_hunk_is_not_empty. run.
  destruct (mode (state p)) eqn:Hm; cbn in Hinv; try done.
  destruct Hinv as (pre & path & mp & cs & -> & Hpre & Hpath & Hmp & Hcs).
  rewrite last_snoc. destruct (is_empty cs) eqn:He; [done|].
  destruct (last_chunk_is_empty cs) eqn:Hl; [by case_match|].
  intros _. apply Forall_app. split; [done|]. apply Forall_singleton. cbn.
  apply is_empty_false in He. auto using chunks_open_full.
Qed.

Lemma ensure_hunk_cases line p :
  ensure_update_hunk_is_not_empty line p = (p, Ok ()) ∨
  ∃ e, ensure_update_hunk_is_not_empty line p = (p, Err e).
Proof.
  pose proof (ensure_frame line p).
  destruct (ensure_update_hunk_is_not_empty line p) as [q [[]|e]]; cbn in *; subst; eauto.
Qed.

(** A marker that ends in a space leaves a name when the line is trimmed at
    its end. *)
Lemma marker_name (m s path : str) :
  (∀ c, last s = Some c → is_whitespace c = false) →
  last m = Some 32%N → strip_prefix m s = Some path → path ≠ [].
Proof.
  intros Hs Hm ->%strip_prefix_Some ->. rewrite app_nil_r in Hs.
  specialize (Hs _ Hm). done.
Qed.

Definition end_trimmed (s : str) : Prop := ∀ c, last s = Some c → is_whitespace c = false.

Lemma handle_hunk_headers_inv t p :
  parser_inv p → end_trimmed t →
  parser_inv (handle_hunk_headers t p).1 ∧
  ((handle_hunk_headers t p).2 = Ok false → (handle_hunk_headers t p).1 = p).
Proof.
  intros Hinv Ht. unfold handle_hunk_headers.
  pose proof (ensure_Ok t p Hinv) as Hok.
  destruct (ensure_hunk_cases t p) as [He|[e He]].
  - rewrite He in Hok. specialize (Hok eq_refl). pose proof Hinv as [_ Hid].
    case_str; [|destruct (strip_prefix ADD_FILE_MARKER t) eqn:?;
      [|destruct (strip_prefix DELETE_FILE_MARKER t) eqn:?;
      [|destruct (strip_prefix UPDATE_FILE_MARKER t) eqn:?; [|done]]]];
      rewrite (st_bind_step _ _ _ _ _ He); run; (split; [|done]); split; try done; cbn.
    + apply Forall_app. split; [done|]. apply Forall_singleton. split; [|by left].
      eapply marker_name; [done| |done]. by_compute.
    + apply Forall_app. split; [done|]. apply Forall_singleton.
      eapply marker_name; [done| |done]. by_compute.
    + eexists _, _, None, []. split; [done|]. split; [done|].
      split; [|split; [done|apply chunks_open_nil]].
      eapply marker_name; [done| |done]. by_compute.
  - case_str; [|destruct (strip_prefix ADD_FILE_MARKER t);
      [|destruct (strip_prefix DELETE_FILE_MARKER t);
      [|destruct (strip_prefix UPDATE_FILE_MARKER t); [|done]]]];
      rewrite (st_bind_fail _ _ _ _ _ He); done.
Qed.

Lemma handle_headers_inv t p :
  parser_inv p → end_trimmed t →
  parser_inv (handle_hunk_headers_and_end_patch t p).1 ∧
  ((handle_hunk_headers_and_end_patch t p).2 = Ok false →
   (handle_hunk_headers_and_end_patch t p).1 = p).
Proof.
  intros Hinv Ht. unfold handle_hunk_headers_and_end_patch. run.
  pose proof (handle_hunk_headers_inv t p Hinv Ht) as Hh.
  destruct (is_started (mode (state p))) eqn:Hm; [|done].
  destruct (strip_prefix ENVIRONMENT_ID_MARKER t) as [id|]; [|done].
  destruct (environment_id (state p)) eqn:He; cbn [opt_is_some]; [done|].
  destruct (is_empty (trim id)) eqn:Hid; [done|]. split; [|done].
  apply is_empty_false in Hid. split; cbn; [apply Hinv|].
  intros s [= <-]. auto using trim_trimmed.
Qed.

(** ** Lines keep the invariant *)

Lemma chunks_open_map_last f cs : chunks_open cs → chunks_open (map_last f cs).
Proof.
  destruct (list_snoc_case cs) as [->|(pre & c & ->)]; [done|].
  by rewrite map_last_snoc, !chunks_open_snoc.
Qed.

Lemma chunks_open_edit f cs : chunks_open cs → chunks_open (edit_last_chunk f cs).
Proof.
  unfold edit_last_chunk. intros H. apply chunks_open_map_last.
  destruct cs; cbn [is_empty]; [|done]. by apply (chunks_open_snoc [] _).
Qed.

Lemma chunks_open_push cs c :
  chunks_open cs → last_chunk_is_empty cs = false → chunks_open (cs ++ [c]).
Proof. intros. apply chunks_open_snoc. auto using chunks_open_full. Qed.

Lemma trim_end_end_trimmed s : end_trimmed (trim_end s).
Proof. intros c. apply trim_end_last. Qed.
Lemma trim_end_trimmed s : end_trimmed (trim s).
Proof. exact (proj2 (trim_trimmed s)). Qed.
#[export] Hint Resolve trim_end_end_trimmed trim_end_trimmed : codex.
#[export] Hint Resolve chunks_open_map_last chunks_open_edit chunks_open_push : codex.

Lemma update_line_step_inv line n mp cs mp' cs' :
  mp ≠ Some [] → chunks_open cs →
  update_line_step line n mp cs = Ok (mp', cs') → mp' ≠ Some [] ∧ chunks_open cs'.
Proof.
  intros Hmp Hcs. unfold update_line_step.
  destruct (last_chunk_is_eof cs && is_empty (trim_end line)); [by intros [= <- <-]|].
  destruct (last_chunk_is_eof cs && _); [done|].
  destruct (if is_empty cs && negb (opt_is_some mp)
            then strip_prefix MOVE_TO_MARKER (trim_end line) else None) as [to|] eqn:Hto.
  { intros [= <- <-]. split; [|done]. intros [= ->].
    destruct (is_empty cs && _); [|done]. eapply marker_name; [| |exact Hto|done].
    - apply trim_end_end_trimmed.
    - by_compute. }
  destruct (last_chunk_is_empty cs) eqn:Hl.
  - rewrite andb_true_r.
    destruct ((trim_end line == EMPTY_CHANGE_CONTEXT_MARKER)
              || starts_with CHANGE_CONTEXT_MARKER (trim_end line)) eqn:Hctx; [done|].
    apply orb_false_iff in Hctx as [-> Hctx]. unfold starts_with in Hctx.
    destruct (strip_prefix CHANGE_CONTEXT_MARKER (trim_end line)); [done|].
    crush; intros; simplify_eq; auto with codex.
  - rewrite andb_false_r. crush; intros; simplify_eq; auto with codex.
Qed.

Lemma hunks_inv_other m hs : Forall hunk_ok hs →
  (∀ n, m ≠ UpdateFileMode n) → hunks_inv m hs.
Proof. destruct m; cbn; naive_solver. Qed.

Lemma process_header_line_inv line p :
  parser_inv p → parser_inv (process_header_line line p).1.
Proof.
  intros Hinv. unfold process_header_line. run.
  pose proof (handle_headers_inv (trim line) p Hinv (trim_end_trimmed _)) as [Hh _].
  by destruct (handle_hunk_headers_and_end_patch (trim line) p) as [q [[]|e]].
Qed.

Lemma process_add_line_inv line p :
  mode (state p) = AddFileMode →
  parser_inv p → parser_inv (process_add_line line p).1.
Proof.
  intros Hm Hinv. unfold process_add_line. run.
  pose proof (handle_headers_inv (trim line) p Hinv (trim_end_trimmed _)) as [Hh Hf].
  destruct (handle_hunk_headers_and_end_patch (trim line) p) as [q [[]|e]]; [done| |done].
  specialize (Hf eq_refl). cbn in Hf, Hh; subst q.
  destruct (strip_prefix (lit "+") line) as [l|]; [|done].
  destruct (last (hunks (state p))) as [[path contents| |]|] eqn:Hl; try done.
  destruct Hinv as [Hi Hid]. rewrite Hm in Hi. cbn in Hi. split; cbn; [|done]. rewrite Hm; cbn.
  destruct (list_snoc_case (hunks (state p))) as [E|(pre & h & E)]; rewrite E in *; [done|].
  rewrite last_snoc in Hl. injection Hl as ->. rewrite map_last_snoc.
  apply Forall_app in Hi as [Hpre [Hh' _]%Forall_singleton].
  apply Forall_app. split; [done|]. apply Forall_singleton. split; [done|].
  right. by rewrite app_assoc, last_snoc.
Qed.

Lemma process_update_line_inv line n p :
  mode (state p) = UpdateFileMode n →
  parser_inv p → parser_inv (process_update_line line n p).1.
Proof.
  intros Hm Hinv. unfold process_update_line. run.
  pose proof (handle_headers_inv (trim_end line) p Hinv (trim_end_end_trimmed _)) as [Hh Hf].
  destruct (handle_hunk_headers_and_end_patch (trim_end line) p) as [q [[]|e]]; [done| |done].
  specialize (Hf eq_refl). cbn in Hf, Hh; subst q.
  pose proof Hinv as [Hi Hid]. rewrite Hm in Hi.
  destruct Hi as (pre & path & mp & cs & E & Hpre & Hpath & Hmp & Hcs).
  rewrite E, last_snoc.
  destruct (update_line_step line (line_number p) mp cs) as [[mp' cs']|] eqn:Hu; [|done].
  apply update_line_step_inv in Hu as [? ?]; [|done..].
  split; cbn; [|done]. rewrite map_last_snoc. by eexists _, _, _, _.
Qed.

Lemma process_line_inv line p : parser_inv p → parser_inv (process_line line p).1.
Proof.
  intros Hinv. unfold process_line. run. destruct (mode (state p)) eqn:Hm.
  - case_str; [|done]. destruct Hinv as [Hi Hid]. rewrite Hm in Hi. by split.
  - by apply process_header_line_inv.
  - by apply process_add_line_inv.
  - by apply process_header_line_inv.
  - by apply process_update_line_inv.
  - by destruct (is_empty (trim line)).
Qed.

Lemma push_chars_inv s p : parser_inv p → parser_inv (push_chars s p).1.
Proof.
  revert p; induction s as [|c s IH]; intros p Hinv; [done|].
  assert (parser_inv (push_char c p).1) as Hc.
  { unfold push_char. run. destruct (c =? nl)%N; [|done]. by apply process_line_inv. }
  cbn [push_chars]. unfold mbind, st_err_bind.
  destruct (push_char c p) as [q [[]|e]]; [by apply IH|done].
Qed.

Lemma finish_buffer_inv p : parser_inv p → parser_inv (finish_buffer p).1.
Proof.
  intros Hinv. unfold finish_buffer. run.
  destruct (is_empty (line_buffer p)); [done|].
  set (q := mkParser [] (state p) (S (line_number p))).
  assert (parser_inv q) as Hq by done.
  case_str; [|by apply process_line_inv].
  pose proof (ensure_Ok (trim (line_buffer p)) q Hq) as Hok.
  destruct (ensure_hunk_cases (trim (line_buffer p)) q) as [He|[e He]]; rewrite He in *; [|done].
  split; cbn; [by apply Hok|apply Hq].
Qed.

Lemma finish_inv p q hs :
  parser_inv p → finish p = (q, Ok hs) →
  Forall hunk_ok hs ∧ environment_id_ok (environment_id (state q)).
Proof.
  intros Hinv. unfold finish. unfold mbind, st_err_bind.
  pose proof (finish_buffer_inv p Hinv) as Hf.
  destruct (finish_buffer p) as [r [[]|e]]; [|done]. run. destruct Hf as [Hi Hid]; cbn in Hi, Hid.
  destruct (mode (state r)); try done. intros [= <- <-]. split; [exact Hi|exact Hid].
Qed.

Lemma parser_default_inv : parser_inv parser_default.
Proof. split; [by constructor|]. by intros ?. Qed.

Lemma parse_stream_ok text hs id :
  parse_stream text = Ok (hs, id) → Forall hunk_ok hs ∧ environment_id_ok id.
Proof.
  unfold parse_stream. destruct ((push_delta text ;; finish) parser_default) as [p [hs'|e]] eqn:E;
    [|done]. intros [= <- <-].
  apply st_bind_Ok in E as (q & h & Hq & Hf). unfold push_delta in Hq.
  apply st_bind_Ok in Hq as (r & [] & Hr & Hg). run_in Hg. injection Hg as <- <-.
  eapply finish_inv; [|done].
  pose proof (push_chars_inv text parser_default parser_default_inv) as Hp. by rewrite Hr in Hp.
Qed.

(** ** Reported hunks are stable *)

(** All hunks but the one being read stay as they were reported. *)
Definition settled (hs : list Hunk) : list Hunk := take (length hs - 1) hs.
Definition grows (hs hs' : list Hunk) : Prop :=
  length hs ≤ length hs' ∧ settled hs `prefix_of` hs'.

Lemma settled_snoc hs h : settled (hs ++ [h]) = hs.
Proof. unfold settled. rewrite length_app; cbn. by rewrite Nat.add_sub, take_app_length. Qed.

Lemma settled_prefix hs : settled hs `prefix_of` hs.
Proof. exists (drop (length hs - 1) hs). symmetry. apply take_drop. Qed.

#[export] Instance grows_refl : Reflexive grows.
Proof. intros hs. split; [done|apply settled_prefix]. Qed.

#[export] Instance grows_trans : Transitive grows.
Proof.
  intros hs1 hs2 hs3 [L1 P1] [L2 P2]. split; [lia|].
  destruct (list_snoc_case hs2) as [->|(pre & h & ->)].
  { cbn in L1. destruct hs1; cbn in *; [apply prefix_nil|lia]. }
  rewrite settled_snoc in P2. etrans; [|exact P2].
  destruct P1 as [k P1]. exists (take (length pre - length (settled hs1)) k).
  assert (length (settled hs1) ≤ length pre) as Hl.
  { unfold settled. rewrite length_take. rewrite length_app in L1. cbn in L1. lia. }
  rewrite <-(take_app_length pre [h]) at 1. rewrite P1. by rewrite take_app_ge.
Qed.

Lemma grows_push hs h : grows hs (hs ++ [h]).
Proof.
  split; [rewrite length_app; lia|]. etrans; [apply settled_prefix|]. by apply prefix_app_r.
Qed.

Lemma grows_map_last f hs : grows hs (map_last f hs).
Proof.
  destruct (list_snoc_case hs) as [->|(pre & h & ->)]; [done|].
  rewrite map_last_snoc. split; [by rewrite !length_app|].
  rewrite settled_snoc. by apply prefix_app_r.
Qed.
#[export] Hint Resolve grows_push grows_map_last : codex.

Lemma handle_hunk_headers_grows t p :
  grows (hunks (state p)) (hunks (state (handle_hunk_headers t p).1)).
Proof.
  unfold handle_hunk_headers.
  destruct (ensure_hunk_cases t p) as [He|[e He]]; repeat (case_match; try done);
    rewrite ?(st_bind_step _ _ _ _ _ He), ?(st_bind_fail _ _ _ _ _ He);
    run; cbn [fst state hunks]; auto with codex; done.
Qed.

Lemma handle_headers_grows t p :
  grows (hunks (state p)) (hunks (state (handle_hunk_headers_and_end_patch t p).1)).
Proof.
  unfold handle_hunk_headers_and_end_patch. run.
  repeat (case_match; try done); apply handle_hunk_headers_grows.
Qed.

Lemma process_line_grows line p :
  grows (hunks (state p)) (hunks (state (process_line line p).1)).
Proof.
  unfold process_line. run.
  destruct (mode (state p)); try (case_match; done);
    unfold process_header_line, process_add_line, process_update_line; run;
    match goal with |- context [handle_hunk_headers_and_end_patch ?t p] =>
      pose proof (handle_headers_grows t p) as Hg;
      destruct (handle_hunk_headers_and_end_patch t p) as [q [[]|e]]; try done
    end;
    cbn in Hg; etrans; try exact Hg; clear Hg;
    repeat (case_match; try done); cbn; auto with codex.
Qed.

Lemma push_chars_grows s p : grows (hunks (state p)) (hunks (state (push_chars s p).1)).
Proof.
  revert p; induction s as [|c s IH]; intros p; [done|].
  assert (grows (hunks (state p)) (hunks (state (push_char c p).1))) as Hc.
  { unfold push_char. run. destruct (c =? nl)%N; [|done]. apply (process_line_grows _ (mkParser [] (state p) (S (line_number p)))). }
  cbn [push_chars]. unfold mbind, st_err_bind.
  destruct (push_char c p) as [q [[]|e]]; [|done]. etrans; [exact Hc|apply IH].
Qed.

(** ** The properties of the parser *)

(** how the text is cut into deltas does not matter.  From any state,
    feeding the deltas one by one and finishing ends in the same state with the
    same hunks or the same error as feeding their concatenation at once; and
    along the way every hunk a caller was shown before the last one stays as it
    was. *)
Theorem streaming_is_batch (ds : list str) (p : StreamingPatchParser) :
  (push_deltas ds ;; finish) p = (push_delta (concat ds) ;; finish) p ∧
  ∀ d, grows (hunks (state p)) (hunks (state (push_delta d p).1)).
Proof.
  split.
  - unfold push_delta. rewrite st_bind_assoc.
    apply st_bind_eq; [apply push_deltas_concat|done].
  - intros d. pose proof (push_chars_grows d p) as Hg. unfold push_delta, mbind, st_err_bind.
    by destruct (push_chars d p) as [q [[]|e]].
Qed.

Lemma parse_patch_stream text args :
  parse_patch text = Ok args →
  parse_stream (patch args) = Ok (args_hunks args, args_environment_id args).
Proof.
  unfold parse_patch, parse_patch_text. intros (ls & _ & H)%bind_Ok.
  apply bind_Ok in H as ([hs id] & Hs & [= <-]). done.
Qed.

(** C39: every patch that parses is well formed.  No hunk has an empty path or
    an empty rename target, an added file's contents are empty or end in a
    newline, an update hunk has at least one chunk and every chunk has at
    least one line; an environment id is a non-empty trimmed name. *)
Theorem parse_patch_wf (text : str) (args : ApplyPatchArgs)
    (Hparse : parse_patch text = Ok args) :
  Forall hunk_ok (args_hunks args) ∧ environment_id_ok (args_environment_id args).
Proof. by eapply parse_stream_ok, parse_patch_stream. Qed.

Definition sample_patch : str := join [nl]
  [lit "*** Begin Patch"; lit "*** Environment ID: box"; lit "*** Add File: a.txt"; lit "+x";
   lit "*** Update File: b.txt"; lit "*** Move to: c.txt"; lit "@@ fn"; lit "-old"; lit "+new";
   lit " ctx"; lit "*** End of File"; lit "*** Delete File: d.txt"; lit "*** End Patch"].
Definition sample_hunks : list Hunk :=
  [AddFile (lit "a.txt") (lit "x" ++ [nl]);
   UpdateFile (lit "b.txt") (Some (lit "c.txt"))
     [mkChunk (Some (lit "fn")) [lit "old"; lit "ctx"] [lit "new"; lit "ctx"] true];
   DeleteFile (lit "d.txt")].

Lemma parse_patch_wf_witness :
  let args := mkArgs sample_patch sample_hunks None (Some (lit "box")) in
  parse_patch sample_patch = Ok args ∧ Forall hunk_ok sample_hunks.
Proof.
  assert (parse_patch sample_patch =
          Ok (mkArgs sample_patch sample_hunks None (Some (lit "box")))) as H by by_compute.
  split; [exact H|]. exact (proj1 (parse_patch_wf _ _ H)).
Defined.

(** The grammar of the format makes the changes of an update hunk optional;
    the parser does not, so a file cannot be renamed unchanged. *)
Example rename_without_changes_is_rejected :
  parse_patch (join [nl] [lit "*** Begin Patch"; lit "*** Update File: a"; lit "*** Move to: b";
                          lit "*** End Patch"])
  = Err (InvalidHunkError (lit "Update file hunk for path 'a' is empty") 2).
Proof. by_compute. Qed.
