(* ===== verification/PatchGrammar.v ===== *)
(** * The patch grammar

    The grammar in the header of [apply-patch/src/parser.rs] as a syntax tree
    with its rendering to text, and the proof that [parse_patch] reads every
    rendered tree back.  The tree is the reference; the parser is the one of
    PatchParser.v.  Two shapes of the written grammar have no tree, because the
    parser refuses them ([grammar_shapes_refused]): an update without a change,
    and a change without lines. *)

From S2P Require Import Prelude RustStr PatchParser.

Open Scope rstr_scope.

(** ** Syntax *)

(** [change_line]; a line without a sign is an empty context line. *)
Inductive change_line :=
| Context (l : str)
| Added (l : str)
| Removed (l : str)
| Blank.

(** [change_context] followed by its lines and the optional [eof_line]. *)
Record change := mkChange {
  context : option str;
  body : list change_line;
  eof_line : bool;
}.

(** The first change of an update may be [bare]: its lines come without a
    [change_context] before them. *)
Inductive hunk_syntax :=
| add_hunk (path : str) (ls : list str)
| delete_hunk (path : str)
| update_hunk (path : str) (move_to : option str) (bare : bool) (changes : list change).

Record patch_syntax := mkPatch {
  patch_environment : option str;
  patch_hunks : list hunk_syntax;
}.

(** ** Rendering *)

Definition render_line (c : change_line) : str :=
  match c with
  | Context l => 32%N :: l
  | Added l => 43%N :: l
  | Removed l => 45%N :: l
  | Blank => []
  end.

Definition render_bare (c : change) : list str :=
  map render_line (body c) ++ (if eof_line c then [EOF_MARKER] else []).

Definition render_change (c : change) : list str :=
  match context c with
  | None => [EMPTY_CHANGE_CONTEXT_MARKER]
  | Some x => [CHANGE_CONTEXT_MARKER ++ x]
  end ++ render_bare c.

Definition render_changes (bare : bool) (chs : list change) : list str :=
  match bare, chs with
  | true, c :: chs => render_bare c ++ concat (map render_change chs)
  | _, _ => concat (map render_change chs)
  end.

Definition render_hunk (h : hunk_syntax) : list str :=
  match h with
  | add_hunk path ls => (ADD_FILE_MARKER ++ path) :: map (λ l, 43%N :: l) ls
  | delete_hunk path => [DELETE_FILE_MARKER ++ path]
  | update_hunk path move_to bare changes =>
      (UPDATE_FILE_MARKER ++ path)
      :: match move_to with Some to => [MOVE_TO_MARKER ++ to] | None => [] end
      ++ render_changes bare changes
  end.

Definition render_inner (p : patch_syntax) : list str :=
  [BEGIN_PATCH_MARKER]
  ++ match patch_environment p with
     | Some id => [ENVIRONMENT_ID_MARKER ++ [32%N] ++ id]
     | None => []
     end
  ++ concat (map render_hunk (patch_hunks p)).

Definition render (p : patch_syntax) : str :=
  join [nl] (render_inner p ++ [END_PATCH_MARKER]).

(** ** Meaning *)

Definition old_line (c : change_line) : option str :=
  match c with Context l | Removed l => Some l | Blank => Some [] | Added _ => None end.
Definition new_line (c : change_line) : option str :=
  match c with Context l | Added l => Some l | Blank => Some [] | Removed _ => None end.

Definition chunk_of (c : change) : UpdateFileChunk :=
  mkChunk (context c) (omap old_line (body c)) (omap new_line (body c)) (eof_line c).

Definition hunk_of (h : hunk_syntax) : Hunk :=
  match h with
  | add_hunk path ls => AddFile path (concat (map (λ l, l ++ [nl]) ls))
  | delete_hunk path => DeleteFile path
  | update_hunk path move_to _ changes => UpdateFile path move_to (map chunk_of changes)
  end.

(** ** Well-formed trees *)

(** A [filename]: not empty, on one line, without trailing white space. *)
Definition name_ok (s : str) : Prop := s ≠ [] ∧ (nl ∉ s) ∧ end_trimmed s.
(** The text of a line: on one line, not ending in a carriage return. *)
Definition text_ok (s : str) : Prop := (nl ∉ s) ∧ last s ≠ Some cr.

Definition change_line_ok (c : change_line) : Prop :=
  match c with Context l | Added l | Removed l => text_ok l | Blank => True end.
Definition change_ok (c : change) : Prop :=
  (∀ x, context c = Some x → name_ok x) ∧ body c ≠ [] ∧ Forall change_line_ok (body c).
Definition hunk_syntax_ok (h : hunk_syntax) : Prop :=
  match h with
  | add_hunk path ls => name_ok path ∧ Forall text_ok ls
  | delete_hunk path => name_ok path
  | update_hunk path move_to bare changes =>
      name_ok path ∧ (∀ to, move_to = Some to → name_ok to) ∧
      changes ≠ [] ∧ Forall change_ok changes ∧
      (bare = true → ∀ c, head changes = Some c → context c = None)
  end.
Definition patch_syntax_ok (p : patch_syntax) : Prop :=
  (∀ id, patch_environment p = Some id → id ≠ [] ∧ (nl ∉ id) ∧ trimmed id) ∧
  Forall hunk_syntax_ok (patch_hunks p).

(** ** Line by line *)

Fixpoint process_lines (ls : list str) : parser_m unit :=
  match ls with
  | [] => mret ()
  | l :: ls' => bump_line_number ;; process_line l ;; process_lines ls'
  end.

(** The parser between two lines. *)
Definition between (m : StreamingParserMode) (hs : list Hunk) (id : option str) (n : nat) :=
  mkParser [] (mkState m hs id) n.

Lemma process_lines_app a b p :
  process_lines (a ++ b) p = (process_lines a ;; process_lines b) p.
Proof.
  revert p; induction a as [|l a IH]; intros p; [done|].
  cbn [process_lines app]. rewrite !st_bind_assoc. apply st_bind_eq; [done|].
  intros _ q. rewrite st_bind_assoc. apply st_bind_eq; [done|]. auto.
Qed.

Lemma process_line_buffer l p : line_buffer (process_line l p).1 = line_buffer p.
Proof.
  assert (∀ t, line_buffer (handle_hunk_headers_and_end_patch t p).1 = line_buffer p) as Hh.
  { assert (∀ t, line_buffer (handle_hunk_headers t p).1 = line_buffer p) as Hh.
    - intros t. unfold handle_hunk_headers.
      destruct (ensure_hunk_cases t p) as [He|[e He]]; repeat (case_match; try done);
        by rewrite ?(st_bind_step _ _ _ _ _ He), ?(st_bind_fail _ _ _ _ _ He).
    - intros t. unfold handle_hunk_headers_and_end_patch. run. by repeat (case_match; try done). }
  unfold process_line. run. destruct (mode (state p)); try (case_match; done);
    unfold process_header_line, process_add_line, process_update_line; run;
    match goal with |- context [handle_hunk_headers_and_end_patch ?t p] =>
      specialize (Hh t);
      destruct (handle_hunk_headers_and_end_patch t p) as [q [[]|e]]; try done
    end; cbn in Hh; rewrite <-Hh; repeat (case_match; try done).
Qed.

Lemma strip_cr_id s : last s ≠ Some cr → strip_cr s = s.
Proof.
  intros H. unfold strip_cr. destruct (strip_suffix [cr] s) as [r|] eqn:E; [|done].
  apply strip_suffix_Some in E as ->. by rewrite last_snoc in H.
Qed.

Lemma push_chars_text s p :
  nl ∉ s → push_chars s p = (mkParser (line_buffer p ++ s) (state p) (line_number p), Ok ()).
Proof.
  revert p; induction s as [|c s IH]; intros p Hs; [destruct p; by rewrite app_nil_r|].
  apply not_elem_of_cons in Hs as [Hc Hs].
  cbn [push_chars]. unfold push_char. run.
  rewrite (proj2 (N.eqb_neq c nl)) by done. run. rewrite IH by done. cbn. by rewrite <-app_assoc.
Qed.

Lemma push_line l p :
  text_ok l → line_buffer p = [] →
  push_chars (l ++ [nl]) p = (bump_line_number ;; process_line l) p.
Proof.
  intros [Hnl Hcr] Hb. rewrite push_chars_app.
  rewrite (st_bind_step _ _ _ _ _ (push_chars_text l p Hnl)).
  cbn [push_chars]. unfold push_char. run. rewrite N.eqb_refl. run.
  rewrite Hb. cbn [app]. rewrite strip_cr_id by done. by destruct (process_line _ _) as [q [[]|]].
Qed.

Lemma push_lines ls p :
  Forall text_ok ls → line_buffer p = [] →
  push_chars (concat (map (λ l, l ++ [nl]) ls)) p = process_lines ls p.
Proof.
  intros Hls; revert p; induction Hls as [|l ls Hl _ IH]; intros p Hb; [done|].
  cbn [map concat process_lines]. rewrite push_chars_app. unfold mbind at 1, st_err_bind at 1.
  rewrite push_line by done. run.
  set (q := mkParser (line_buffer p) (state p) (S (line_number p))).
  pose proof (process_line_buffer l q) as Hq.
  destruct (process_line l q) as [r [[]|e]]; [|done]. apply IH. cbn in Hq. by rewrite Hq.
Qed.

(** ** Headers *)

(** Ready for a header: inside the patch, with the current hunk complete. *)
Definition ready (p : StreamingPatchParser) : Prop :=
  (∀ t, ensure_update_hunk_is_not_empty t p = (p, Ok ())) ∧
  match mode (state p) with NotStarted | EndedPatch => False | _ => True end.

Lemma trim_end_name m s : name_ok s → trim_end (m ++ s) = m ++ s.
Proof.
  intros (Hs & _ & Ht). apply trim_end_id. intros c. rewrite last_app.
  destruct (last s) eqn:E; [intros [= ->]; by apply Ht|]. by apply last_None in E.
Qed.

Lemma trim_name m s c :
  head m = Some c → is_whitespace c = false → name_ok s → trim (m ++ s) = m ++ s.
Proof.
  intros Hm Hc Hs. unfold trim, trim_start.
  rewrite drop_while_id; [by apply trim_end_name|].
  destruct m; [done|]. cbn in *. intros ? [= <-]. by injection Hm as ->.
Qed.

(** What a header line does in any mode where it may occur. *)
Lemma header_step (line : str) p q :
  ready p → trim line = line → trim_end line = line →
  strip_prefix ENVIRONMENT_ID_MARKER line = None →
  (ensure_update_hunk_is_not_empty line p = (p, Ok ()) →
   handle_hunk_headers line p = (q, Ok true)) →
  process_line line p = (q, Ok ()).
Proof.
  intros [He Hm] Ht Hte Henv Hh. specialize (Hh (He line)).
  assert (handle_hunk_headers_and_end_patch line p = (q, Ok true)) as H.
  { unfold handle_hunk_headers_and_end_patch. run. rewrite Henv. by destruct (is_started _). }
  unfold process_line. run. destruct (mode (state p)); try done;
    unfold process_header_line, process_add_line, process_update_line;
    by rewrite ?Ht, ?Hte, (st_bind_step _ _ _ _ _ H).
Qed.

Lemma ready_line p n : ready p → ready (mkParser (line_buffer p) (state p) n).
Proof.
  intros [He Hm]. split; [|done]. intros t. specialize (He t). revert He.
  unfold ensure_update_hunk_is_not_empty. run.
  destruct (last (hunks (state p))) as [[| |path mp cs]|]; try done.
  destruct (is_empty cs), (mode (state p)), (last_chunk_is_empty cs); try done; by case_match.
Qed.

Section Headers.
Context (p : StreamingPatchParser) (Hp : ready p).

Lemma process_add_header path :
  name_ok path →
  process_line (ADD_FILE_MARKER ++ path) p =
    (mkParser (line_buffer p)
       (mkState AddFileMode (hunks (state p) ++ [AddFile path []]) (environment_id (state p)))
       (line_number p), Ok ()).
Proof.
  intros Hpath. apply header_step; [done| | |by_compute|].
  - by apply (trim_name _ _ 42%N).
  - by apply trim_end_name.
  - intros He. unfold handle_hunk_headers.
    replace (_ == END_PATCH_MARKER) with false by by_compute.
    rewrite strip_prefix_app. by rewrite (st_bind_step _ _ _ _ _ He).
Qed.

Lemma process_delete_header path :
  name_ok path →
  process_line (DELETE_FILE_MARKER ++ path) p =
    (mkParser (line_buffer p)
       (mkState DeleteFileMode (hunks (state p) ++ [DeleteFile path]) (environment_id (state p)))
       (line_number p), Ok ()).
Proof.
  intros Hpath. apply header_step; [done| | |by_compute|].
  - by apply (trim_name _ _ 42%N).
  - by apply trim_end_name.
  - intros He. unfold handle_hunk_headers.
    replace (_ == END_PATCH_MARKER) with false by by_compute.
    replace (strip_prefix ADD_FILE_MARKER _) with (@None str) by by_compute.
    rewrite strip_prefix_app. by rewrite (st_bind_step _ _ _ _ _ He).
Qed.

Lemma process_update_header path :
  name_ok path →
  process_line (UPDATE_FILE_MARKER ++ path) p =
    (mkParser (line_buffer p)
       (mkState (UpdateFileMode (line_number p)) (hunks (state p) ++ [UpdateFile path None []])
                (environment_id (state p)))
       (line_number p), Ok ()).
Proof.
  intros Hpath. apply header_step; [done| | |by_compute|].
  - by apply (trim_name _ _ 42%N).
  - by apply trim_end_name.
  - intros He. unfold handle_hunk_headers.
    replace (_ == END_PATCH_MARKER) with false by by_compute.
    replace (strip_prefix ADD_FILE_MARKER _) with (@None str) by by_compute.
    replace (strip_prefix DELETE_FILE_MARKER _) with (@None str) by by_compute.
    rewrite strip_prefix_app. by rewrite (st_bind_step _ _ _ _ _ He).
Qed.
End Headers.

(** ** Lines that are not headers *)

Definition not_header (s : str) : Prop :=
  (s == END_PATCH_MARKER) = false ∧ strip_prefix ADD_FILE_MARKER s = None ∧
  strip_prefix DELETE_FILE_MARKER s = None ∧ strip_prefix UPDATE_FILE_MARKER s = None.

Lemma strip_prefix_head (m s : str) c :
  head m = Some c → head s ≠ Some c → strip_prefix m s = None.
Proof.
  destruct m as [|d m]; [done|]. intros [= ->] Hs. destruct s as [|d s]; [done|]. cbn.
  destruct (N.eqb_spec c d) as [->|]; [by destruct Hs|done].
Qed.

Lemma str_eqb_head (m s : str) c : head m = Some c → head s ≠ Some c → (s == m) = false.
Proof. intros Hm Hs. apply str_eqb_false. by intros ->. Qed.

Lemma not_header_head s : head s ≠ Some 42%N → not_header s.
Proof.
  intros Hs. split; [by apply (str_eqb_head _ _ 42%N)|].
  split; [|split]; by apply (strip_prefix_head _ _ 42%N).
Qed.

Lemma not_header_headers s p :
  not_header s → is_started (mode (state p)) = false →
  handle_hunk_headers_and_end_patch s p = (p, Ok false).
Proof.
  intros (H1 & H2 & H3 & H4) Hm. unfold handle_hunk_headers_and_end_patch. run. rewrite Hm.
  unfold handle_hunk_headers. by rewrite H1, H2, H3, H4.
Qed.

Lemma trim_end_head c s : trim_end (c :: s) = [] ∨ head (trim_end (c :: s)) = Some c.
Proof.
  destruct (trim_end_prefix (c :: s)) as (k & Hk & _).
  destruct (trim_end (c :: s)) as [|d r]; [by left|]. right. by injection Hk as <-.
Qed.

Lemma trim_end_head_neq c d s : c ≠ d → head (trim_end (c :: s)) ≠ Some d.
Proof. destruct (trim_end_head c s) as [-> | ->]; [done|]. congruence. Qed.

(** A line of an update hunk acts on the hunk as [update_line_step] says. *)
Lemma process_update_body line pre path mp cs mp' cs' id hn n :
  not_header (trim_end line) →
  update_line_step line n mp cs = Ok (mp', cs') →
  process_line line (between (UpdateFileMode hn) (pre ++ [UpdateFile path mp cs]) id n) =
    (between (UpdateFileMode hn) (pre ++ [UpdateFile path mp' cs']) id n, Ok ()).
Proof.
  intros Hh Hu. unfold process_line. run. cbn [mode state between].
  unfold process_update_line.
  pose proof (not_header_headers _
    (between (UpdateFileMode hn) (pre ++ [UpdateFile path mp cs]) id n) Hh eq_refl) as Hf.
  rewrite (st_bind_step _ _ _ _ _ Hf).
  run. cbn [mode state hunks environment_id line_number line_buffer between].
  by rewrite last_snoc, Hu, map_last_snoc.
Qed.

Section Body.
Context (n : nat) (mp : option str).

(** The chunk being read: its lines may still be empty. *)
Lemma last_open_eof cs x o w : last_chunk_is_eof (cs ++ [mkChunk x o w false]) = false.
Proof. unfold last_chunk_is_eof. by rewrite last_snoc. Qed.

Lemma body_step cs x o w c :
  update_line_step (render_line c) n mp (cs ++ [mkChunk x o w false]) =
    Ok (mp, cs ++ [mkChunk x (o ++ option_list (old_line c)) (w ++ option_list (new_line c)) false]).
Proof.
  unfold update_line_step. rewrite last_open_eof. cbn [andb].
  assert (is_empty (cs ++ [mkChunk x o w false]) = false) as Hne
    by (apply is_empty_false; by destruct cs).
  unfold edit_last_chunk. rewrite Hne. cbn [andb].
  assert (head (trim_end (render_line c)) ≠ Some 64%N ∧
          head (trim_end (render_line c)) ≠ Some 42%N) as [H64 H42].
  { destruct c; cbn [render_line]; [split; by apply trim_end_head_neq..|done]. }
  rewrite (str_eqb_head EMPTY_CHANGE_CONTEXT_MARKER _ 64%N) by done.
  unfold starts_with. rewrite (strip_prefix_head CHANGE_CONTEXT_MARKER _ 64%N) by done.
  rewrite (str_eqb_head EOF_MARKER _ 42%N) by done.
  destruct c; cbn; rewrite map_last_snoc; cbn; by rewrite ?app_nil_r.
Qed.

(** A line before any [change_context] opens a chunk of its own. *)
Lemma bare_step c :
  update_line_step (render_line c) n mp [] =
    Ok (mp, [mkChunk None (option_list (old_line c)) (option_list (new_line c)) false]).
Proof.
  assert (head (trim_end (render_line c)) ≠ Some 64%N ∧
          head (trim_end (render_line c)) ≠ Some 42%N) as [H64 H42].
  { destruct c; cbn [render_line]; [split; by apply trim_end_head_neq..|done]. }
  unfold update_line_step, edit_last_chunk. cbn [last_chunk_is_eof last_chunk_is_empty last is_empty andb].
  rewrite (strip_prefix_head MOVE_TO_MARKER _ 42%N) by done.
  rewrite (str_eqb_head EMPTY_CHANGE_CONTEXT_MARKER _ 64%N) by done.
  unfold starts_with. rewrite (strip_prefix_head CHANGE_CONTEXT_MARKER _ 64%N) by done.
  rewrite (str_eqb_head EOF_MARKER _ 42%N) by done.
  by destruct (negb (opt_is_some mp)); destruct c.
Qed.

Lemma context_step cs c :
  last_chunk_is_empty cs = false → (∀ x, context c = Some x → name_ok x) →
  update_line_step (match context c with
                    | None => EMPTY_CHANGE_CONTEXT_MARKER
                    | Some x => CHANGE_CONTEXT_MARKER ++ x end) n mp cs =
    Ok (mp, cs ++ [mkChunk (context c) [] [] false]).
Proof.
  intros Hl Hc. unfold update_line_step. rewrite Hl, andb_false_r.
  destruct (context c) as [x|].
  - rewrite trim_end_name by auto. unfold starts_with. rewrite strip_prefix_app.
    cbn [opt_is_some]. rewrite orb_true_r. cbn [negb]. rewrite andb_false_r.
    replace (is_empty (CHANGE_CONTEXT_MARKER ++ x)) with false by by_compute.
    rewrite andb_false_r.
    replace (strip_prefix MOVE_TO_MARKER (CHANGE_CONTEXT_MARKER ++ x)) with (@None str)
      by by_compute.
    replace (CHANGE_CONTEXT_MARKER ++ x == EMPTY_CHANGE_CONTEXT_MARKER) with false by by_compute.
    by destruct (is_empty cs && _).
  - replace (trim_end EMPTY_CHANGE_CONTEXT_MARKER) with EMPTY_CHANGE_CONTEXT_MARKER by by_compute.
    replace (is_empty EMPTY_CHANGE_CONTEXT_MARKER) with false by by_compute.
    replace (strip_prefix MOVE_TO_MARKER EMPTY_CHANGE_CONTEXT_MARKER) with (@None str)
      by by_compute.
    rewrite str_eqb_refl. cbn [orb negb]. rewrite !andb_false_r. by destruct (is_empty cs && _).
Qed.

Lemma eof_step cs x o w :
  chunk_is_empty (mkChunk x o w false) = false →
  update_line_step EOF_MARKER n mp (cs ++ [mkChunk x o w false]) =
    Ok (mp, cs ++ [mkChunk x o w true]).
Proof.
  intros Hc. unfold update_line_step. rewrite last_open_eof. cbn [andb].
  assert (is_empty (cs ++ [mkChunk x o w false]) = false) as ->
    by (apply is_empty_false; by destruct cs).
  cbn [andb]. unfold last_chunk_is_empty. rewrite last_snoc, Hc, andb_false_r.
  replace (trim_end EOF_MARKER) with EOF_MARKER by by_compute.
  replace (EOF_MARKER == EMPTY_CHANGE_CONTEXT_MARKER) with false by by_compute.
  replace (strip_prefix CHANGE_CONTEXT_MARKER EOF_MARKER) with (@None str) by by_compute.
  rewrite str_eqb_refl. by rewrite map_last_snoc.
Qed.
End Body.

(** ** Hunks *)

Lemma process_lines_cons l ls m hs id n q :
  process_line l (between m hs id (S n)) = (q, Ok ()) →
  process_lines (l :: ls) (between m hs id n) = process_lines ls q.
Proof.
  intros H. cbn [process_lines].
  rewrite (st_bind_step _ _ _ (between m hs id (S n)) ()) by done.
  by rewrite (st_bind_step _ _ _ _ _ H).
Qed.

Lemma process_lines_seq a b p q :
  process_lines a p = (q, Ok ()) → process_lines (a ++ b) p = process_lines b q.
Proof. intros H. rewrite process_lines_app. by rewrite (st_bind_step _ _ _ _ _ H). Qed.

Lemma not_header_line c : not_header (trim_end (render_line c)).
Proof.
  apply not_header_head. destruct c; cbn [render_line]; [by apply trim_end_head_neq..|done].
Qed.

Section UpdateHunk.
Context (pre : list Hunk) (path : str) (mp : option str) (id : option str) (hn : nat).

(** The parser inside this update hunk. *)
Definition inside (cs : list UpdateFileChunk) (n : nat) : StreamingPatchParser :=
  between (UpdateFileMode hn) (pre ++ [UpdateFile path mp cs]) id n.

Lemma process_body cs x o w b n :
  process_lines (map render_line b) (inside (cs ++ [mkChunk x o w false]) n) =
    (inside (cs ++ [mkChunk x (o ++ omap old_line b) (w ++ omap new_line b) false])
            (n + length b), Ok ()).
Proof.
  revert o w n; induction b as [|c b IH]; intros o w n.
  { cbn. by rewrite !app_nil_r, Nat.add_0_r. }
  cbn [map]. unfold inside at 1.
  erewrite process_lines_cons; last first.
  { apply process_update_body; [apply not_header_line|apply body_step]. }
  fold (inside (cs ++ [mkChunk x (o ++ option_list (old_line c)) (w ++ option_list (new_line c)) false]) (S n)).
  rewrite IH. rewrite <-!app_assoc. cbn [length]. rewrite Nat.add_succ_r.
  by destruct c.
Qed.

Lemma chunk_of_nonempty c : body c ≠ [] → chunk_is_empty (chunk_of c) = false.
Proof.
  destruct c as [x [|b bs] e]; [done|]. intros _. unfold chunk_is_empty, chunk_of.
  destruct b; cbn; by rewrite ?andb_false_r.
Qed.

(** The lines of a change, once its chunk is open. *)
Lemma process_eof cs c n :
  chunk_is_empty (chunk_of c) = false →
  process_lines (if eof_line c then [EOF_MARKER] else [])
    (inside (cs ++ [mkChunk (context c) (omap old_line (body c)) (omap new_line (body c)) false]) n) =
    (inside (cs ++ [chunk_of c]) (n + length (if eof_line c then [EOF_MARKER] else [])), Ok ()).
Proof.
  intros Hne. destruct c as [x b [|]]; cbn [context body eof_line chunk_of length] in *.
  - unfold inside at 1. erewrite process_lines_cons; last first.
    { apply process_update_body; [|by apply eof_step]. repeat split; by_compute. }
    by rewrite Nat.add_1_r.
  - by rewrite Nat.add_0_r.
Qed.

Lemma process_change cs c n :
  change_ok c → last_chunk_is_empty cs = false →
  process_lines (render_change c) (inside cs n) =
    (inside (cs ++ [chunk_of c]) (n + length (render_change c)), Ok ()).
Proof.
  intros (Hx & Hb & Hls) Hl. unfold render_change.
  set (header := match context c with
                 | None => EMPTY_CHANGE_CONTEXT_MARKER
                 | Some x => CHANGE_CONTEXT_MARKER ++ x end).
  assert (∀ (k : list str), match context c with
            | None => [EMPTY_CHANGE_CONTEXT_MARKER]
            | Some x => [CHANGE_CONTEXT_MARKER ++ x] end ++ k = header :: k) as ->
    by (unfold header; by destruct (context c)).
  unfold inside at 1. erewrite process_lines_cons; last first.
  { apply process_update_body; [|by apply context_step].
    apply not_header_head. unfold header. destruct (context c) as [x|].
    - rewrite trim_end_name by auto. by_compute.
    - by_compute. }
  fold (inside (cs ++ [mkChunk (context c) [] [] false]) (S n)). unfold render_bare.
  rewrite (process_lines_seq _ _ _ _ (process_body _ _ _ _ _ _)). cbn [app].
  rewrite process_eof by (by apply chunk_of_nonempty).
  cbn [length]. rewrite length_app, length_map. f_equal. f_equal. lia.
Qed.

Lemma process_bare c n :
  change_ok c → context c = None →
  process_lines (render_bare c) (inside [] n) = (inside [chunk_of c] (n + length (render_bare c)), Ok ()).
Proof.
  intros (_ & Hb & Hls) Hx. unfold render_bare.
  destruct (body c) as [|l b] eqn:Eb; [done|]. cbn [map app].
  unfold inside at 1. erewrite process_lines_cons; last first.
  { apply process_update_body; [apply not_header_line|apply bare_step]. }
  pose proof (process_body [] None (option_list (old_line l)) (option_list (new_line l)) b (S n)) as Hbody.
  unfold inside at 1 in Hbody. cbn [app] in Hbody. rewrite (process_lines_seq _ _ _ _ Hbody).
  pose proof (process_eof [] c (S n + length b)) as He. rewrite Hx, Eb in He.
  assert (∀ f : change_line → option str, option_list (f l) ++ omap f b = omap f (l :: b)) as Ho
    by (intros f; cbn; by destruct (f l)).
  rewrite !Ho. cbn [app] in He |- *. rewrite He by (apply chunk_of_nonempty; by rewrite Eb).
  cbn [length]. rewrite length_app, length_map. f_equal. f_equal. lia.
Qed.

Lemma process_changes chs : ∀ cs n,
  Forall change_ok chs → last_chunk_is_empty cs = false →
  process_lines (concat (map render_change chs)) (inside cs n) =
    (inside (cs ++ map chunk_of chs) (n + length (concat (map render_change chs))), Ok ()).
Proof.
  induction chs as [|c chs IH]; intros cs n Hok Hl.
  { cbn. by rewrite app_nil_r, Nat.add_0_r. }
  apply Forall_cons in Hok as [Hc Hok]. cbn [map concat].
  rewrite (process_lines_seq _ _ _ _ (process_change _ _ _ Hc Hl)).
  rewrite IH; [|done|].
  - rewrite <-app_assoc, length_app. cbn [app]. by rewrite Nat.add_assoc.
  - unfold last_chunk_is_empty. rewrite last_snoc. apply chunk_of_nonempty, Hc.
Qed.

Lemma process_render_changes bare chs n :
  Forall change_ok chs → (bare = true → ∀ c, head chs = Some c → context c = None) →
  process_lines (render_changes bare chs) (inside [] n) =
    (inside (map chunk_of chs) (n + length (render_changes bare chs)), Ok ()).
Proof.
  intros Hok Hbare. destruct bare, chs as [|c chs]; try by apply process_changes.
  cbn [render_changes]. apply Forall_cons in Hok as [Hc Hok].
  rewrite (process_lines_seq _ _ _ _ (process_bare c n Hc (Hbare eq_refl c eq_refl))).
  rewrite process_changes; [|done|].
  - rewrite length_app. cbn [map app]. by rewrite Nat.add_assoc.
  - unfold last_chunk_is_empty. cbn [last]. apply chunk_of_nonempty, Hc.
Qed.

Lemma inside_ready cs n : cs ≠ [] → last_chunk_is_empty cs = false → ready (inside cs n).
Proof.
  intros Hne Hl. split; [|done]. intros t. unfold ensure_update_hunk_is_not_empty, inside.
  run. cbn [state hunks between]. rewrite last_snoc.
  rewrite (proj2 (is_empty_false _)) by done. by rewrite Hl.
Qed.
End UpdateHunk.

Lemma process_move path pre hn to id n :
  name_ok to →
  process_line (MOVE_TO_MARKER ++ to) (inside pre path None id hn [] n) =
    (inside pre path (Some to) id hn [] n, Ok ()).
Proof.
  intros Hto. apply process_update_body; rewrite ?trim_end_name by done.
  { repeat split; by_compute. }
  unfold update_line_step. rewrite trim_end_name by done. cbn [last_chunk_is_eof last andb is_empty].
  cbn [opt_is_some negb]. by rewrite strip_prefix_app.
Qed.

Lemma process_add_body pre path contents id l n :
  process_line (43%N :: l) (between AddFileMode (pre ++ [AddFile path contents]) id n) =
    (between AddFileMode (pre ++ [AddFile path (contents ++ l ++ [nl])]) id n, Ok ()).
Proof.
  assert (not_header (trim (43%N :: l))) as Hh.
  { apply not_header_head. unfold trim, trim_start. cbn. by apply trim_end_head_neq. }
  pose proof (not_header_headers _
    (between AddFileMode (pre ++ [AddFile path contents]) id n) Hh eq_refl) as Hf.
  unfold process_line. run. cbn [mode state between]. unfold process_add_line.
  rewrite (st_bind_step _ _ _ _ _ Hf).
  run. cbn [state hunks mode environment_id line_buffer line_number between].
  rewrite last_snoc. replace (strip_prefix (lit "+") (43%N :: l)) with (Some l) by by_compute.
  cbn. by rewrite map_last_snoc.
Qed.

Lemma process_add_lines pre path contents id ls n :
  process_lines (map (λ l, 43%N :: l) ls)
      (between AddFileMode (pre ++ [AddFile path contents]) id n) =
    (between AddFileMode (pre ++ [AddFile path (contents ++ concat (map (λ l, l ++ [nl]) ls))]) id
       (n + length ls), Ok ()).
Proof.
  revert contents n; induction ls as [|l ls IH]; intros contents n.
  { cbn. by rewrite app_nil_r, Nat.add_0_r. }
  cbn [map]. rewrite (process_lines_cons _ _ _ _ _ _ _ (process_add_body _ _ _ _ _ _)).
  rewrite IH. cbn [map concat length]. by rewrite <-!app_assoc, Nat.add_succ_r.
Qed.

Definition ready_between (m : StreamingParserMode) (hs : list Hunk) (id : option str) : Prop :=
  ∀ n, ready (between m hs id n).

Lemma process_update_hunk pre path mp bare chs id n :
  name_ok path → (∀ to, mp = Some to → name_ok to) → chs ≠ [] → Forall change_ok chs →
  (bare = true → ∀ c, head chs = Some c → context c = None) →
  ∀ m, ready_between m pre id →
  ∃ m' n',
    process_lines (render_hunk (update_hunk path mp bare chs)) (between m pre id n) =
      (between m' (pre ++ [UpdateFile path mp (map chunk_of chs)]) id n', Ok ()) ∧
    ready_between m' (pre ++ [UpdateFile path mp (map chunk_of chs)]) id.
Proof.
  intros Hpath Hto Hne Hok Hbare m Hready.
  assert (last_chunk_is_empty (map chunk_of chs) = false) as Hl.
  { destruct (list_snoc_case chs) as [->|(l & c & ->)]; [done|].
    rewrite map_app. unfold last_chunk_is_empty; cbn [map]. rewrite last_snoc.
    apply Forall_app in Hok as [_ Hc]. apply chunk_of_nonempty. by apply (proj1 (Forall_singleton _ _) Hc). }
  assert (ready_between (UpdateFileMode (S n)) (pre ++ [UpdateFile path mp (map chunk_of chs)]) id).
  { intros k. apply inside_ready; [by destruct chs|done]. }
  exists (UpdateFileMode (S n)). cbn [render_hunk].
  rewrite (process_lines_cons _ _ _ _ _ _ _ (process_update_header _ (Hready (S n)) _ Hpath)).
  cbn [between hunks state environment_id line_buffer line_number].
  fold (between (UpdateFileMode (S n)) (pre ++ [UpdateFile path None []]) id (S n)).
  fold (inside pre path None id (S n) [] (S n)).
  destruct mp as [to|]; cbn [app].
  - unfold inside at 1.
    rewrite (process_lines_cons _ _ _ _ _ _ _ (process_move _ _ _ _ _ _ (Hto _ eq_refl))).
    rewrite (process_render_changes _ _ _ _ _ _ _ _ Hok Hbare). eauto.
  - rewrite (process_render_changes _ _ _ _ _ _ _ _ Hok Hbare). eauto.
Qed.

Lemma process_hunk h m pre id n :
  hunk_syntax_ok h → ready_between m pre id →
  ∃ m' n', process_lines (render_hunk h) (between m pre id n) =
             (between m' (pre ++ [hunk_of h]) id n', Ok ()) ∧
           ready_between m' (pre ++ [hunk_of h]) id.
Proof.
  assert (∀ h m hs n, (∀ p c s, h ≠ UpdateFile p c s) → m = AddFileMode ∨ m = DeleteFileMode →
    ready (between m (hs ++ [h]) id n)) as Hr.
  { intros h' m' hs n' Hh [-> | ->]; (split; [|done]); intros t;
      unfold ensure_update_hunk_is_not_empty; run; cbn [state hunks between];
      rewrite last_snoc; destruct h'; try done; by edestruct Hh. }
  destruct h as [path ls|path|path mp bare chs]; cbn [hunk_syntax_ok hunk_of].
  - intros [Hpath Hls] Hready. exists AddFileMode.
    cbn [render_hunk].
    rewrite (process_lines_cons _ _ _ _ _ _ _ (process_add_header _ (Hready (S n)) _ Hpath)).
    eexists. split; [exact (process_add_lines pre path [] id ls (S n))|].
    intros k. apply Hr; auto.
  - intros Hpath Hready. exists DeleteFileMode. cbn [render_hunk].
    rewrite (process_lines_cons _ _ _ _ _ _ _ (process_delete_header _ (Hready (S n)) _ Hpath)).
    eexists. split; [done|]. intros k. apply Hr; auto.
  - intros (Hpath & Hto & Hne & Hok & Hbare) Hready. by apply process_update_hunk.
Qed.

Lemma process_hunks hs : ∀ m pre id n,
  Forall hunk_syntax_ok hs → ready_between m pre id →
  ∃ m' n', process_lines (concat (map render_hunk hs)) (between m pre id n) =
             (between m' (pre ++ map hunk_of hs) id n', Ok ()) ∧
           ready_between m' (pre ++ map hunk_of hs) id.
Proof.
  induction hs as [|h hs IH]; intros m pre id n Hok Hready.
  { exists m, n. cbn. by rewrite app_nil_r. }
  apply Forall_cons in Hok as [Hh Hok].
  destruct (process_hunk h m pre id n Hh Hready) as (m1 & n1 & H1 & Hr1).
  destruct (IH m1 _ id n1 Hok Hr1) as (m2 & n2 & H2 & Hr2).
  exists m2, n2. cbn [map concat]. rewrite (process_lines_seq _ _ _ _ H1), H2.
  rewrite <-app_assoc in *. done.
Qed.

(** ** Whole patches *)

Lemma process_begin n :
  process_line BEGIN_PATCH_MARKER (between NotStarted [] None n) =
    (between StartedPatch [] None n, Ok ()).
Proof. by_compute. Qed.

Lemma process_environment id n :
  id ≠ [] → nl ∉ id → trimmed id →
  process_line (ENVIRONMENT_ID_MARKER ++ [32%N] ++ id) (between StartedPatch [] None n) =
    (between StartedPatch [] (Some id) n, Ok ()).
Proof.
  intros Hne Hnl Ht.
  assert (trim (ENVIRONMENT_ID_MARKER ++ [32%N] ++ id) = ENVIRONMENT_ID_MARKER ++ [32%N] ++ id) as E.
  { rewrite app_assoc. apply (trim_name _ _ 42%N); [by_compute|done|].
    split; [done|]. split; [done|exact (proj2 Ht)]. }
  unfold process_line. run. cbn [mode state between]. unfold process_header_line.
  rewrite E. unfold handle_hunk_headers_and_end_patch. run. cbn [mode state between is_started].
  rewrite strip_prefix_app. cbn [environment_id state between opt_is_some].
  assert (trim ([32%N] ++ id) = id) as -> by (by apply (trim_id id)).
  by rewrite (proj2 (is_empty_false _)).
Qed.

Lemma process_inner p :
  patch_syntax_ok p →
  ∃ m n, process_lines (render_inner p) parser_default =
           (between m (map hunk_of (patch_hunks p)) (patch_environment p) n, Ok ()) ∧
         ready_between m (map hunk_of (patch_hunks p)) (patch_environment p).
Proof.
  intros [Hid Hok]. unfold render_inner.
  change parser_default with (between NotStarted [] None 0). cbn [app].
  rewrite (process_lines_cons _ _ _ _ _ _ _ (process_begin 1)).
  assert (∀ e, ready_between StartedPatch [] e) as Hr by done.
  destruct (patch_environment p) as [id|]; cbn [app].
  - destruct (Hid id eq_refl) as (Hne & Hnl & Ht).
    rewrite (process_lines_cons _ _ _ _ _ _ _ (process_environment id 2 Hne Hnl Ht)).
    apply (process_hunks _ StartedPatch [] (Some id) 2); auto.
  - apply (process_hunks _ StartedPatch [] None 1); auto.
Qed.

Lemma text_ok_name m s : text_ok m → name_ok s → text_ok (m ++ s).
Proof.
  intros [Hm _] (Hne & Hnl & Ht). split; [by rewrite elem_of_app; intros [?|?]|].
  rewrite last_app. destruct (last s) eqn:E; [|by apply last_None in E].
  intros [= ->]. by specialize (Ht _ E).
Qed.

Lemma text_ok_cons (c : char) s : c ≠ nl → c ≠ cr → text_ok s → text_ok (c :: s).
Proof.
  intros Hc Hr [Hnl Hcr]. split; [by rewrite elem_of_cons; intros [?|?]|].
  destruct s as [|d s]; [by intros [=]|]. by rewrite last_cons_cons.
Qed.

(** A closed line: neither a newline nor a carriage return in it. *)
Ltac text_marker :=
  split; [apply contains_char_false; by_compute|by_compute].

Lemma render_bare_text c : change_ok c → Forall text_ok (render_bare c).
Proof.
  intros (_ & _ & Hb). apply Forall_app. split.
  - apply Forall_map. eapply Forall_impl; [exact Hb|].
    intros [l|l|l|]; cbn [change_line_ok render_line compose];
      [intros; by apply text_ok_cons..|intros _; text_marker].
  - destruct (eof_line c); [apply Forall_singleton; text_marker|by constructor].
Qed.

Lemma render_change_text c : change_ok c → Forall text_ok (render_change c).
Proof.
  intros Hc. unfold render_change. apply Forall_app. split; [|by apply render_bare_text].
  destruct Hc as (Hx & _ & _). destruct (context c); apply Forall_singleton; [|text_marker].
  apply text_ok_name; [text_marker|auto].
Qed.

Lemma render_hunk_text h : hunk_syntax_ok h → Forall text_ok (render_hunk h).
Proof.
  destruct h as [path ls|path|path mp bare chs]; cbn [hunk_syntax_ok render_hunk].
  - intros [Hp Hls]. constructor; [apply text_ok_name; [text_marker|done]|].
    apply Forall_map. eapply Forall_impl; [exact Hls|]. intros l Hl. by apply text_ok_cons.
  - intros Hp. apply Forall_singleton, text_ok_name; [text_marker|done].
  - intros (Hp & Hto & _ & Hch & _). constructor; [apply text_ok_name; [text_marker|done]|].
    apply Forall_app. split.
    + destruct mp; [|by constructor]. apply Forall_singleton, text_ok_name; [text_marker|auto].
    + assert (Forall text_ok (concat (map render_change chs))) as Hall.
      { apply Forall_concat, Forall_map. eapply Forall_impl; [exact Hch|].
        intros c. apply render_change_text. }
      destruct bare, chs as [|c chs]; try exact Hall. cbn [render_changes].
      apply Forall_cons in Hch as [Hc Hch]. apply Forall_app. split; [by apply render_bare_text|].
      apply Forall_concat, Forall_map. eapply Forall_impl; [exact Hch|]. intros c'. apply render_change_text.
Qed.

Lemma render_inner_text p : patch_syntax_ok p → Forall text_ok (render_inner p).
Proof.
  intros [Hid Hok]. unfold render_inner. constructor; [text_marker|].
  apply Forall_app. split.
  - destruct (patch_environment p) as [id|]; [|by constructor].
    destruct (Hid id eq_refl) as (Hne & Hnl & Ht).
    apply Forall_singleton. rewrite app_assoc. apply text_ok_name; [text_marker|].
    split; [done|]. split; [done|exact (proj2 Ht)].
  - apply Forall_concat, Forall_map. eapply Forall_impl; [exact Hok|].
    intros h. apply render_hunk_text.
Qed.

Lemma join_snoc ls (e : str) :
  join [nl] (ls ++ [e]) = concat (map (λ l, l ++ [nl]) ls) ++ e.
Proof.
  induction ls as [|l ls IH]; [done|]. cbn [app map concat]. rewrite <-!app_assoc, <-IH.
  by destruct ls.
Qed.

Lemma lines_of_text ls (e : str) :
  Forall text_ok ls → e ≠ [] → nl ∉ e → lines (join [nl] (ls ++ [e])) = ls ++ [e].
Proof.
  intros Hls He Hnl. unfold lines. rewrite split_join; [|by destruct ls|].
  - induction Hls as [|l ls [Hl Hcr] _ IH]; [by destruct e|]. cbn [app].
    destruct (ls ++ [e]) as [|x k] eqn:E; [by destruct ls|].
    change (strip_cr l :: lines_of_parts (x :: k) = l :: x :: k).
    by rewrite IH, (strip_cr_id l).
  - apply Forall_app. split; [|by apply Forall_singleton].
    eapply Forall_impl; [exact Hls|]. by intros ? [??].
Qed.

Lemma render_trim p : trim (render p) = render p.
Proof.
  apply trim_id. split; intros c; unfold render.
  - rewrite join_snoc. unfold render_inner. cbn [app map concat].
    intros H. assert (Some c = Some 42%N) as [= ->]; [|done].
    rewrite <-H. by_compute.
  - rewrite join_snoc, last_app.
    replace (last END_PATCH_MARKER) with (Some 104%N) by by_compute. by intros [= <-].
Qed.

Lemma finish_end m hs id n :
  ready_between m hs id →
  finish (mkParser END_PATCH_MARKER (mkState m hs id) n) =
    (between EndedPatch hs id (S n), Ok hs).
Proof.
  intros Hr. unfold finish, finish_buffer. run.
  replace (is_empty END_PATCH_MARKER) with false by by_compute. cbn [line_number].
  replace (trim END_PATCH_MARKER == END_PATCH_MARKER) with true by by_compute.
  change (mkParser [] (mkState m hs id) (S n)) with (between m hs id (S n)).
  by rewrite (proj1 (Hr (S n))).
Qed.

Lemma parse_stream_render p :
  patch_syntax_ok p →
  parse_stream (render p) = Ok (map hunk_of (patch_hunks p), patch_environment p).
Proof.
  intros Hp. destruct (process_inner p Hp) as (m & n & Hi & Hr).
  unfold parse_stream, push_delta. rewrite st_bind_assoc.
  unfold render. rewrite join_snoc.
  assert (push_chars (concat (map (λ l, l ++ [nl]) (render_inner p)) ++ END_PATCH_MARKER) parser_default
    = (mkParser END_PATCH_MARKER (mkState m (map hunk_of (patch_hunks p)) (patch_environment p)) n,
       Ok ())) as Hc.
  { rewrite push_chars_app. erewrite st_bind_step; last first.
    - rewrite push_lines; [exact Hi|by apply render_inner_text|done].
    - by rewrite push_chars_text by (apply contains_char_false; by_compute). }
  rewrite (st_bind_step _ _ _ _ _ Hc). run.
  by rewrite finish_end.
Qed.

(** C9: the parser accepts the grammar.  Rendering any well-formed patch (an
    optional environment line; added, deleted and updated files, renamed or not; at
    least one change per update, the first one with or without a context line and the
    others with one; changes made of one or more context, added, removed and blank
    lines, at the end of the file or not; names on one line without trailing blanks,
    and lines that do not end in a carriage return) and parsing the text gives back
    exactly its hunks and its environment id.  Two shapes the written grammar also
    derives are not covered, because the parser refuses them: an update without any
    change, and a context line without lines after it. *)
Theorem parse_patch_render (p : patch_syntax) (Hp : patch_syntax_ok p) :
  parse_patch (render p) =
    Ok (mkArgs (render p) (map hunk_of (patch_hunks p)) None (patch_environment p)).
Proof.
  unfold parse_patch, parse_patch_text, PARSE_IN_STRICT_MODE. rewrite render_trim.
  assert (lines (render p) = render_inner p ++ [END_PATCH_MARKER]) as ->.
  { apply lines_of_text; [by apply render_inner_text|by_compute|].
    apply contains_char_false. by_compute. }
  assert (check_patch_boundaries_strict (render_inner p ++ [END_PATCH_MARKER]) =
          Ok (render_inner p ++ [END_PATCH_MARKER])) as Hs.
  { unfold check_patch_boundaries_strict. rewrite last_snoc. unfold render_inner.
    cbn [head app]. by replace (check_start_and_end_lines_strict (Some BEGIN_PATCH_MARKER)
      (Some END_PATCH_MARKER)) with (@Ok ParseError unit ()) by by_compute. }
  unfold check_patch_boundaries_lenient. rewrite Hs. cbn [mbind result_bind].
  fold (render p). by rewrite parse_stream_render.
Qed.

Definition sample_syntax : patch_syntax :=
  mkPatch (Some (lit "box"))
    [add_hunk (lit "a.txt") [lit "x"];
     update_hunk (lit "b.txt") (Some (lit "c.txt")) false
       [mkChange (Some (lit "fn")) [Removed (lit "old"); Added (lit "new"); Context (lit "ctx")] true];
     delete_hunk (lit "d.txt")].

Lemma sample_syntax_ok : patch_syntax_ok sample_syntax.
Proof.
  assert (∀ s, contains_char nl s = false → is_empty s = false →
    match last s with Some c => is_whitespace c | None => false end = false → name_ok s) as Hn.
  { intros s Hnl Hne Hl. split; [by apply is_empty_false|].
    split; [by apply contains_char_false|]. intros c Hc. by rewrite Hc in Hl. }
  assert (∀ s, contains_char nl s = false → bool_decide (last s = Some cr) = false → text_ok s) as Ht.
  { intros s Hnl Hl. split; [by apply contains_char_false|by apply bool_decide_eq_false in Hl]. }
  split.
  - intros id [= <-]. split; [by_compute|]. split; [apply contains_char_false; by_compute|].
    split; intros c H; vm_compute in H; by injection H as <-.
  - unfold sample_syntax. cbn [patch_hunks]. rewrite !Forall_cons. split_and!; [| | |done].
    + split; [apply Hn; by_compute|]. apply Forall_singleton, Ht; by_compute.
    + split; [apply Hn; by_compute|]. split; [intros ? [= <-]; apply Hn; by_compute|].
      split; [done|]. split; [|done]. apply Forall_singleton. split; [intros ? [= <-]; apply Hn; by_compute|].
      split; [done|]. cbn [body]. rewrite !Forall_cons.
      split_and!; [apply Ht; by_compute..|done].
    + apply Hn; by_compute.
Qed.

Lemma parse_patch_render_witness :
  patch_syntax_ok sample_syntax ∧ render sample_syntax = sample_patch ∧
  parse_patch sample_patch = Ok (mkArgs sample_patch sample_hunks None (Some (lit "box"))).
Proof.
  split; [exact sample_syntax_ok|]. split; [by_compute|].
  assert (render sample_syntax = sample_patch) as E by by_compute.
  rewrite <-E. rewrite (parse_patch_render sample_syntax sample_syntax_ok). by_compute.
Defined.

(** The two shapes of the written grammar that the parser refuses: a file that is only
    renamed, and a context line without lines. *)
Definition only_renamed : str :=
  join [nl] (lit <$> ["*** Begin Patch"; "*** Update File: a"; "*** Move to: b"; "*** End Patch"]%string).
Definition context_only : str :=
  join [nl] (lit <$> ["*** Begin Patch"; "*** Update File: a"; "@@ f"; "*** End Patch"]%string).
Example grammar_shapes_refused :
  match parse_patch only_renamed, parse_patch context_only with Err _, Err _ => True | _, _ => False end.
Proof. by_compute. Qed.

(** A first change without a context line. *)
Definition bare_syntax : patch_syntax :=
  mkPatch None [update_hunk (lit "a") None true [mkChange None [Removed (lit "x"); Added (lit "y")] false]].
Example bare_change_parsed :
  render bare_syntax
    = join [nl] (lit <$> ["*** Begin Patch"; "*** Update File: a"; "-x"; "+y"; "*** End Patch"]%string) ∧
  parse_patch (render bare_syntax)
    = Ok (mkArgs (render bare_syntax) [UpdateFile (lit "a") None [mkChunk None [lit "x"] [lit "y"] false]] None None).
Proof. split; by_compute. Qed.
