(* ===== verification/PatchApply.v ===== *)
(** * Applying chunks to a file's text

    [apply-patch/src/lib.rs]: [compute_replacements], [apply_replacements] and
    the text part of [derive_new_contents_from_chunks].  [Vec::insert] past the
    end panics, so [apply_replacements] returns an option; the theorems show
    that it never does. *)

From S2P Require Import Prelude RustStr SeekSequence PatchParser.

Open Scope rstr_scope.

(** ** Errors *)

Inductive io_error_kind := NotFound | PermissionDenied | InvalidInput | InvalidData | OtherKind.
Record io_error := mkIoError { kind : io_error_kind; io_message : str }.

Inductive ApplyPatchError :=
| ApplyParseError (e : ParseError)
| IoError (context : str) (source : io_error)
| ComputeReplacements (message : str)
| ImplicitInvocation
| EnvironmentIdInShellInvocation.

#[export] Instance io_error_kind_eq_dec : EqDecision io_error_kind.
Proof. solve_decision. Defined.
#[export] Instance io_error_eq_dec : EqDecision io_error.
Proof. solve_decision. Defined.
#[export] Instance ApplyPatchError_eq_dec : EqDecision ApplyPatchError.
Proof. solve_decision. Defined.

(** ** Replacements *)

(** [(start_index, old_len, new_lines)]. *)
Record replacement := mkReplacement {
  start_idx : nat;
  old_len : nat;
  new_segment : list str;
}.

(** [last().is_some_and(String::is_empty)]. *)
Definition last_is_blank (ls : list str) : bool :=
  match last ls with Some l => is_empty l | None => false end.

Definition context_error (ctx path : str) : ApplyPatchError :=
  ComputeReplacements (lit "Failed to find context '" ++ ctx ++ lit "' in " ++ path).
Definition expected_lines_error (path : str) (chunk : UpdateFileChunk) : ApplyPatchError :=
  ComputeReplacements (lit "Failed to find expected lines in " ++ path ++ lit ":" ++ [nl]
                       ++ join [nl] (old_lines chunk)).

(** The [change_context] of a chunk moves [line_index] past the line found. *)
Definition seek_context (ls : list str) (path : str) (chunk : UpdateFileChunk) (line_index : nat) :
    result ApplyPatchError nat :=
  match change_context chunk with
  | None => Ok line_index
  | Some ctx_line =>
      match seek_sequence ls [ctx_line] line_index false with
      | Some idx => Ok (S idx)
      | None => Err (context_error ctx_line path)
      end
  end.

(** The search for [old_lines], retried without a trailing empty line. *)
Definition locate_old_lines (ls : list str) (chunk : UpdateFileChunk) (line_index : nat) :
    option replacement :=
  let pattern := old_lines chunk in
  let new_slice := new_lines chunk in
  match seek_sequence ls pattern line_index (is_end_of_file chunk) with
  | Some start => Some (mkReplacement start (length pattern) new_slice)
  | None =>
      if last_is_blank pattern then
        let pattern := removelast pattern in
        let new_slice := if last_is_blank new_slice then removelast new_slice else new_slice in
        match seek_sequence ls pattern line_index (is_end_of_file chunk) with
        | Some start => Some (mkReplacement start (length pattern) new_slice)
        | None => None
        end
      else None
  end.

Definition insertion_idx (ls : list str) : nat :=
  if last_is_blank ls then length ls - 1 else length ls.

(** One iteration of the loop: the replacement pushed and the new
    [line_index]. *)
Definition chunk_replacement (ls : list str) (path : str) (chunk : UpdateFileChunk)
    (line_index : nat) : result ApplyPatchError (replacement * nat) :=
  line_index ← seek_context ls path chunk line_index;
  if is_empty (old_lines chunk) then
    Ok (mkReplacement (insertion_idx ls) 0 (new_lines chunk), line_index)
  else match locate_old_lines ls chunk line_index with
       | Some r => Ok (r, start_idx r + old_len r)
       | None => Err (expected_lines_error path chunk)
       end.

Fixpoint collect_replacements (ls : list str) (path : str) (chunks : list UpdateFileChunk)
    (line_index : nat) : result ApplyPatchError (list replacement) :=
  match chunks with
  | [] => Ok []
  | chunk :: chunks' =>
      '(r, line_index') ← chunk_replacement ls path chunk line_index;
      rs ← collect_replacements ls path chunks' line_index';
      Ok (r :: rs)
  end.

(** [sort_by_key(|(index, _, _)| *index)], a stable sort. *)
Fixpoint insert_by_start (r : replacement) (rs : list replacement) : list replacement :=
  match rs with
  | [] => [r]
  | r' :: rs' => if start_idx r <=? start_idx r' then r :: rs else r' :: insert_by_start r rs'
  end.
Definition sort_by_start (rs : list replacement) : list replacement :=
  foldr insert_by_start [] rs.

Definition compute_replacements (ls : list str) (path : str) (chunks : list UpdateFileChunk) :
    result ApplyPatchError (list replacement) :=
  sort_by_start <$> collect_replacements ls path chunks 0.

(** [for _ in 0..old_len { if start < lines.len() { lines.remove(start) } }]. *)
Fixpoint remove_lines (n start : nat) (ls : list str) : list str :=
  match n with
  | 0 => ls
  | S n' => remove_lines n' start (if start <? length ls then delete start ls else ls)
  end.

(** [lines.insert(i, l)]: panics when [i > lines.len()]. *)
Definition vec_insert (i : nat) (l : str) (ls : list str) : option (list str) :=
  if i <=? length ls then Some (take i ls ++ l :: drop i ls) else None.

Fixpoint insert_lines (i : nat) (seg ls : list str) : option (list str) :=
  match seg with
  | [] => Some ls
  | l :: seg' => vec_insert i l ls ≫= insert_lines (S i) seg'
  end.

Definition apply_replacement (r : replacement) (ls : list str) : option (list str) :=
  insert_lines (start_idx r) (new_segment r) (remove_lines (old_len r) (start_idx r) ls).

(** [for .. in replacements.iter().rev()]. *)
Definition apply_replacements (ls : list str) (rs : list replacement) : option (list str) :=
  foldr (λ r acc, acc ≫= apply_replacement r) (Some ls) rs.

(** ** The new contents of a file *)

Definition original_lines_of (contents : str) : list str :=
  let ls := split nl contents in
  if last_is_blank ls then removelast ls else ls.

Definition contents_of_lines (ls : list str) : str :=
  join [nl] (if last_is_blank ls then ls else ls ++ [[]]).

Record AppliedPatch := mkApplied { original_contents : str; new_contents : str }.

(** [derive_new_contents_from_chunks] after the file was read; [None] would be
    the panic. *)
Definition derive_new_contents (path original : str) (chunks : list UpdateFileChunk) :
    result ApplyPatchError (option AppliedPatch) :=
  let ls := original_lines_of original in
  rs ← compute_replacements ls path chunks;
  Ok (mkApplied original ∘ contents_of_lines <$> apply_replacements ls rs).

(** ** Insertion and removal *)

Lemma remove_lines_spec n start ls :
  start ≤ length ls → remove_lines n start ls = take start ls ++ drop (start + n) ls.
Proof.
  revert ls; induction n as [|n IH]; intros ls Hs; cbn [remove_lines].
  { by rewrite Nat.add_0_r, take_drop. }
  destruct (Nat.ltb_spec start (length ls)) as [Hlt|Hge].
  - rewrite IH by (rewrite length_delete; [lia|by apply lookup_lt_is_Some_2]).
    rewrite delete_take_drop. rewrite take_app_le by (rewrite length_take; lia).
    rewrite take_take, Nat.min_id. f_equal.
    rewrite drop_app_ge by (rewrite length_take; lia). rewrite drop_drop, length_take.
    f_equal. lia.
  - rewrite IH by done. rewrite !drop_ge by lia. done.
Qed.

Lemma insert_lines_spec seg : ∀ i ls,
  i ≤ length ls → insert_lines i seg ls = Some (take i ls ++ seg ++ drop i ls).
Proof.
  induction seg as [|l seg IH]; intros i ls Hi; cbn [insert_lines].
  { cbn [app]. by rewrite take_drop. }
  unfold vec_insert. rewrite (proj2 (Nat.leb_le _ _) Hi). cbn [mbind option_bind].
  assert (length (take i ls) = i) as Hl by (rewrite length_take; lia).
  assert (take i ls ++ l :: drop i ls = (take i ls ++ [l]) ++ drop i ls) as ->
    by (by rewrite <-app_assoc).
  rewrite IH by (rewrite !length_app, Hl; cbn; lia).
  assert (S i = length (take i ls ++ [l])) as -> by (rewrite length_app, Hl; cbn; lia).
  rewrite take_app_length, drop_app_length. by rewrite <-!app_assoc.
Qed.

Lemma apply_replacement_spec r ls :
  start_idx r ≤ length ls →
  apply_replacement r ls =
    Some (take (start_idx r) ls ++ new_segment r ++ drop (start_idx r + old_len r) ls).
Proof.
  intros Hs. unfold apply_replacement. rewrite remove_lines_spec by done.
  assert (length (take (start_idx r) ls) = start_idx r) as Hl by (rewrite length_take; lia).
  rewrite insert_lines_spec by (rewrite length_app, Hl; lia).
  rewrite take_app_le, take_take, Nat.min_id by (rewrite Hl; lia).
  by rewrite drop_app_ge, Hl, Nat.sub_diag, drop_0 by (rewrite Hl; lia).
Qed.

(** ** Splicing: the reference *)

(** The lines from position [pos] on, with the replaced segments swapped in
    from left to right; [ls] is what remains of the original from [pos]. *)
Fixpoint splice (pos : nat) (ls : list str) (rs : list replacement) : list str :=
  match rs with
  | [] => ls
  | r :: rs' =>
      take (start_idx r - pos) ls ++ new_segment r
      ++ splice (start_idx r + old_len r) (drop (start_idx r + old_len r - pos) ls) rs'
  end.

(** In order, from [pos] on, without overlap, inside [n] lines. *)
Fixpoint disjoint_from (pos n : nat) (rs : list replacement) : Prop :=
  match rs with
  | [] => True
  | r :: rs' =>
      pos ≤ start_idx r ∧ start_idx r + old_len r ≤ n ∧
      disjoint_from (start_idx r + old_len r) n rs'
  end.

#[export] Instance disjoint_from_dec pos n rs : Decision (disjoint_from pos n rs).
Proof. revert pos; induction rs as [|r rs IH]; intros pos; cbn; apply _. Defined.

Definition start_le (r r' : replacement) : Prop := start_idx r ≤ start_idx r'.

(** Whatever the replacements, as long as they are sorted and start inside
    the file, applying them does not panic and leaves the lines before the first
    of them alone. *)
Lemma apply_replacements_total ls rs :
  StronglySorted start_le rs → Forall (λ r, start_idx r ≤ length ls) rs →
  ∃ ls', apply_replacements ls rs = Some ls' ∧
         ∀ k, k ≤ length ls → Forall (λ r, k ≤ start_idx r) rs →
              k ≤ length ls' ∧ take k ls' = take k ls.
Proof.
  intros Hs; induction Hs as [|r rs Hs IH Hr]; intros Hb; [by exists ls|].
  apply Forall_cons in Hb as [Hb Hbs]. destruct (IH Hbs) as (ls' & Ha & Hk).
  destruct (Hk (start_idx r) Hb) as [Hlen _].
  { eapply Forall_impl; [exact Hr|]. done. }
  eexists. split.
  - unfold apply_replacements in *. cbn [foldr]. rewrite Ha. cbn.
    by apply apply_replacement_spec.
  - intros k Hkl [Hk0 Hks]%Forall_cons. destruct (Hk k Hkl Hks) as [? Htake].
    rewrite !length_app, length_take. split; [lia|].
    rewrite take_app_le, take_take, Nat.min_l by (rewrite ?length_take; lia). done.
Qed.

Lemma disjoint_sorted pos n rs :
  disjoint_from pos n rs → StronglySorted start_le rs ∧ Forall (λ r, pos ≤ start_idx r ≤ n) rs.
Proof.
  revert pos; induction rs as [|r rs IH]; intros pos; cbn.
  { intros _. split; constructor. }
  intros (Hp & Hn & Hd). destruct (IH _ Hd) as [Hs Hf]. split.
  - constructor; [done|]. eapply Forall_impl; [exact Hf|]. unfold start_le. cbn. lia.
  - constructor; [lia|]. eapply Forall_impl; [exact Hf|]. cbn. lia.
Qed.

Lemma apply_replacements_splice_at ls rs pos :
  pos ≤ length ls → disjoint_from pos (length ls) rs →
  apply_replacements ls rs = Some (take pos ls ++ splice pos (drop pos ls) rs).
Proof.
  revert pos; induction rs as [|r rs IH]; intros pos Hpos Hd; cbn [splice].
  { by rewrite take_drop. }
  destruct Hd as (Hp & Hn & Hd).
  unfold apply_replacements in *. cbn [foldr]. rewrite (IH _ Hn Hd). cbn.
  set (e := start_idx r + old_len r) in *.
  assert (length (take e ls) = e) as He by (rewrite length_take; lia).
  rewrite apply_replacement_spec by (rewrite length_app, He; lia). f_equal.
  fold e. rewrite drop_app_ge, He, Nat.sub_diag, drop_0 by (rewrite He; lia).
  rewrite take_app_le by (rewrite He; lia). rewrite take_take, Nat.min_l by lia.
  rewrite drop_drop. replace (pos + (e - pos)) with e by lia.
  rewrite !app_assoc. do 2 f_equal.
  rewrite <-(take_drop pos (take (start_idx r) ls)), take_take, Nat.min_l by lia.
  f_equal. by rewrite skipn_firstn_comm.
Qed.

(** applying replacements from the last to the first, by removing and
    inserting lines in place, is splicing.  For replacements in order that do
    not overlap and lie inside the file, [apply_replacements] does not panic
    and yields the file with exactly the replaced segments swapped. *)
Theorem apply_replacements_splice (ls : list str) (rs : list replacement)
    (Hd : disjoint_from 0 (length ls) rs) :
  apply_replacements ls rs = Some (splice 0 ls rs).
Proof. rewrite (apply_replacements_splice_at ls rs 0) by (done || lia). by rewrite drop_0. Qed.

Lemma apply_replacements_splice_witness :
  let ls := [lit "a"; lit "b"; lit "c"; lit "d"] in
  let rs := [mkReplacement 0 1 []; mkReplacement 1 2 [lit "x"]; mkReplacement 4 0 [lit "y"]] in
  disjoint_from 0 (length ls) rs ∧
  apply_replacements ls rs = Some [lit "x"; lit "d"; lit "y"].
Proof.
  split; [cbn; lia|].
  rewrite (apply_replacements_splice [lit "a"; lit "b"; lit "c"; lit "d"]
    [mkReplacement 0 1 []; mkReplacement 1 2 [lit "x"]; mkReplacement 4 0 [lit "y"]]);
    [reflexivity|cbn; lia].
Defined.

(** ** What the chunks ask for *)

(** [r] is what chunk [c] asks of the file [ls]: an insertion before the
    final blank line, or the replacement of lines that agree with the chunk's
    old lines, possibly without their trailing blank one. *)
Definition replaces (ls : list str) (c : UpdateFileChunk) (r : replacement) : Prop :=
  start_idx r + old_len r ≤ length ls ∧
  ((old_lines c = [] ∧ r = mkReplacement (insertion_idx ls) 0 (new_lines c)) ∨
   (old_lines c ≠ [] ∧ agrees Normalise ls (old_lines c) (start_idx r) ∧
    old_len r = length (old_lines c) ∧ new_segment r = new_lines c) ∨
   (last_is_blank (old_lines c) = true ∧
    agrees Normalise ls (removelast (old_lines c)) (start_idx r) ∧
    old_len r = length (removelast (old_lines c)) ∧
    new_segment r =
      if last_is_blank (new_lines c) then removelast (new_lines c) else new_lines c)).

Lemma insertion_idx_le ls : insertion_idx ls ≤ length ls.
Proof. unfold insertion_idx. case_match; lia. Qed.

Lemma agrees_nil p ls i : agrees p ls [] i.
Proof. unfold agrees. cbn. rewrite take_0. by apply Forall2_nil. Qed.

(** Where a successful search for any pattern ends up. *)
Lemma seek_bounds ls pat i eof s :
  i ≤ length ls → seek_sequence ls pat i eof = Some s →
  s + length pat ≤ length ls ∧ agrees Normalise ls pat s ∧ (eof = false → i ≤ s).
Proof.
  intros Hi H. destruct (decide (pat = [])) as [->|Hne].
  { cbn in *. injection H as <-. split; [lia|]. split; [apply agrees_nil|done]. }
  apply seek_sequence_window in H as [[Hw1 Hw2] Ha]; [|done].
  split; [done|]. split; [done|]. by intros ->.
Qed.

Lemma locate_spec ls c i r :
  i ≤ length ls → old_lines c ≠ [] → locate_old_lines ls c i = Some r →
  replaces ls c r ∧ (is_end_of_file c = false → i ≤ start_idx r).
Proof.
  intros Hi Hne. unfold locate_old_lines, replaces.
  destruct (seek_sequence ls (old_lines c) i (is_end_of_file c)) as [s|] eqn:E.
  { intros [= <-]. apply seek_bounds in E as (? & ? & ?); [|done]. cbn.
    split; [|done]. split; [done|]. right; left. done. }
  destruct (last_is_blank (old_lines c)) eqn:Hb; [|done].
  destruct (seek_sequence ls (removelast (old_lines c)) i (is_end_of_file c)) as [s|] eqn:E';
    [|done].
  intros [= <-]. apply seek_bounds in E' as (? & ? & ?); [|done]. cbn.
  split; [|done]. split; [done|]. right; right. done.
Qed.

Lemma seek_context_bounds ls path c i i' :
  i ≤ length ls → seek_context ls path c i = Ok i' → i ≤ i' ≤ length ls.
Proof.
  intros Hi. unfold seek_context. destruct (change_context c) as [ctx|]; [|intros [= <-]; lia].
  destruct (seek_sequence ls [ctx] i false) as [s|] eqn:E; [|done]. intros [= <-].
  apply seek_bounds in E as (Hs & _ & Hle); [|done]. specialize (Hle eq_refl). cbn in Hs. lia.
Qed.

(** The chunks for which the in-place edits cannot collide: not anchored at
    the end of the file, and no insertion before a final blank line. *)
Definition anchored_in_order (ls : list str) (c : UpdateFileChunk) : Prop :=
  is_end_of_file c = false ∧ (old_lines c = [] → last_is_blank ls = false).

Lemma chunk_replacement_spec ls path c i r i' :
  i ≤ length ls → chunk_replacement ls path c i = Ok (r, i') →
  replaces ls c r ∧ i' ≤ length ls ∧
  (anchored_in_order ls c → i ≤ i' ∧
     ((start_idx r = length ls ∧ old_len r = 0) ∨
      (i ≤ start_idx r ∧ i' = start_idx r + old_len r))).
Proof.
  intros Hi (k & Hk & H)%bind_Ok. apply seek_context_bounds in Hk as [Hik Hk]; [|done].
  destruct (is_empty (old_lines c)) eqn:He.
  - apply is_empty_true in He. injection H as <- <-. pose proof (insertion_idx_le ls).
    split; [split; cbn; [lia|by left]|]. split; [done|]. intros [_ Hb]. split; [done|]. left.
    unfold insertion_idx. cbn. by rewrite Hb.
  - apply is_empty_false in He. destruct (locate_old_lines ls c k) as [r'|] eqn:El; [|done].
    injection H as <- <-. apply locate_spec in El as [Hr Hle]; [|done..].
    split; [done|]. split; [apply Hr|]. intros [Heof _]. specialize (Hle Heof).
    split; [lia|]. right. lia.
Qed.

Lemma collect_replaces ls path cs i rs :
  i ≤ length ls → collect_replacements ls path cs i = Ok rs → Forall2 (replaces ls) cs rs.
Proof.
  revert i rs; induction cs as [|c cs IH]; intros i rs Hi; cbn [collect_replacements].
  { intros [= <-]. constructor. }
  intros ([r i'] & Hc & (rs' & Hrs & [= <-])%bind_Ok)%bind_Ok.
  apply chunk_replacement_spec in Hc as (Hr & Hi' & _); [|done]. constructor; eauto.
Qed.

(** ** Sorting *)

Lemma insert_by_start_perm r rs : insert_by_start r rs ≡ₚ r :: rs.
Proof.
  induction rs as [|r' rs IH]; cbn; [done|]. case_match; [done|]. rewrite IH. apply perm_swap.
Qed.

Lemma sort_by_start_perm rs : sort_by_start rs ≡ₚ rs.
Proof. induction rs as [|r rs IH]; cbn; [done|]. by rewrite insert_by_start_perm, IH. Qed.

Lemma insert_by_start_sorted r rs :
  StronglySorted start_le rs → StronglySorted start_le (insert_by_start r rs).
Proof.
  induction 1 as [|r' rs Hs IH Hr]; cbn; [by repeat constructor|].
  destruct (Nat.leb_spec (start_idx r) (start_idx r')) as [Hle|Hlt].
  - constructor; [by constructor|]. constructor; [done|].
    eapply Forall_impl; [exact Hr|]. unfold start_le. lia.
  - constructor; [done|]. rewrite insert_by_start_perm.
    constructor; [unfold start_le; lia|done].
Qed.

Lemma sort_by_start_sorted rs : StronglySorted start_le (sort_by_start rs).
Proof. induction rs; cbn; [constructor|by apply insert_by_start_sorted]. Qed.

Lemma disjoint_weaken pos pos' n rs :
  pos' ≤ pos → disjoint_from pos n rs → disjoint_from pos' n rs.
Proof. destruct rs; cbn; [done|]. intuition lia. Qed.

Lemma insert_front r rs n :
  disjoint_from (start_idx r + old_len r) n rs → insert_by_start r rs = r :: rs.
Proof.
  destruct rs as [|r' rs]; cbn; [done|]. intros (H & _).
  by rewrite (proj2 (Nat.leb_le _ _)) by lia.
Qed.

Lemma insert_at_end r rs pos n :
  start_idx r = n → old_len r = 0 → pos ≤ n → disjoint_from pos n rs →
  disjoint_from pos n (insert_by_start r rs).
Proof.
  intros Hr H0. revert pos; induction rs as [|r' rs IH]; intros pos Hp; cbn.
  { intros _. lia. }
  intros (H1 & H2 & H3). destruct (Nat.leb_spec (start_idx r) (start_idx r')) as [Hle|Hlt]; cbn.
  - split; [lia|]. split; [lia|]. split; [lia|]. split; [lia|done].
  - split; [lia|]. split; [lia|]. apply IH; [lia|done].
Qed.

Lemma collect_disjoint ls path cs i rs :
  i ≤ length ls → Forall (anchored_in_order ls) cs →
  collect_replacements ls path cs i = Ok rs → disjoint_from i (length ls) (sort_by_start rs).
Proof.
  intros Hi Hcs; revert i rs Hi; induction Hcs as [|c cs Hc _ IH]; intros i rs Hi;
    cbn [collect_replacements].
  { by intros [= <-]. }
  intros ([r i'] & Hr & (rs' & Hrs & [= <-])%bind_Ok)%bind_Ok.
  apply chunk_replacement_spec in Hr as ((Hb & _) & Hi' & Ho); [|done].
  destruct (Ho Hc) as [Hii [[Hs H0]|[Hs ->]]]; specialize (IH _ _ Hi' Hrs); cbn.
  - apply insert_at_end; [done|done|lia|]. by eapply disjoint_weaken.
  - change (foldr insert_by_start [] rs') with (sort_by_start rs').
    rewrite (insert_front _ _ (length ls)) by done. done.
Qed.

Lemma replaces_bounded ls cs rs :
  Forall2 (replaces ls) cs rs → Forall (λ r, start_idx r ≤ length ls) rs.
Proof. induction 1 as [|c r cs rs [Hb _] _ IH]; constructor; [lia|done]. Qed.

Lemma compute_replacements_Ok ls path cs rs :
  compute_replacements ls path cs = Ok rs ↔
  ∃ rs0, collect_replacements ls path cs 0 = Ok rs0 ∧ rs = sort_by_start rs0.
Proof.
  unfold compute_replacements. destruct (collect_replacements ls path cs 0); naive_solver.
Qed.

(** In-place editing never panics, whatever the chunks. *)
Lemma compute_replacements_applies ls path cs rs :
  compute_replacements ls path cs = Ok rs → is_Some (apply_replacements ls rs).
Proof.
  intros (rs0 & Hc & ->)%compute_replacements_Ok.
  destruct (apply_replacements_total ls (sort_by_start rs0)) as (ls' & -> & _); [| |done].
  - apply sort_by_start_sorted.
  - rewrite sort_by_start_perm. by eapply replaces_bounded, collect_replaces; [|exact Hc]; lia.
Qed.

Lemma derive_no_panic path original cs : derive_new_contents path original cs ≠ Ok None.
Proof.
  intros (rs & Hrs%compute_replacements_applies & H)%bind_Ok.
  destruct Hrs as [ls' E]. by rewrite E in H.
Qed.

(** the replacements computed from a patch's chunks.  When every chunk is
    located, each chunk gets one replacement, inside the file, of lines that
    agree with its old lines (or an insertion when it has none); applying them
    in place never panics; and unless a chunk is anchored at the end of the file
    or inserts before a final blank line, the result is the splice of all of
    them. *)
Theorem compute_replacements_sound (ls : list str) (path : str)
    (chunks : list UpdateFileChunk) (rs : list replacement)
    (Hc : compute_replacements ls path chunks = Ok rs) :
  (∃ rs0, rs ≡ₚ rs0 ∧ Forall2 (replaces ls) chunks rs0) ∧
  is_Some (apply_replacements ls rs) ∧
  (Forall (anchored_in_order ls) chunks →
   apply_replacements ls rs = Some (splice 0 ls rs)).
Proof.
  pose proof (compute_replacements_applies _ _ _ _ Hc) as Ha.
  apply compute_replacements_Ok in Hc as (rs0 & Hc & ->).
  split; [|split; [done|]].
  - exists rs0. split; [apply sort_by_start_perm|]. by eapply collect_replaces; [|exact Hc]; lia.
  - intros Ho. rewrite (apply_replacements_splice_at ls _ 0); [by rewrite drop_0|lia|].
    by eapply collect_disjoint; [lia| |].
Qed.

Definition sample_file : list str := [lit "fn a"; lit "old"; lit "keep"; lit "tail"].
Definition sample_chunks : list UpdateFileChunk :=
  [mkChunk (Some (lit "fn a")) [lit "old"] [lit "new"; lit "new2"] false;
   mkChunk None [lit "tail"; []] [lit "end"; []] false;
   mkChunk None [] [lit "appended"] false].

Lemma compute_replacements_sound_witness :
  let rs := [mkReplacement 1 1 [lit "new"; lit "new2"]; mkReplacement 3 1 [lit "end"];
             mkReplacement 4 0 [lit "appended"]] in
  compute_replacements sample_file (lit "f") sample_chunks = Ok rs ∧
  apply_replacements sample_file rs
  = Some [lit "fn a"; lit "new"; lit "new2"; lit "keep"; lit "end"; lit "appended"].
Proof.
  assert (compute_replacements sample_file (lit "f") sample_chunks =
    Ok [mkReplacement 1 1 [lit "new"; lit "new2"]; mkReplacement 3 1 [lit "end"];
        mkReplacement 4 0 [lit "appended"]]) as H by by_compute.
  split; [exact H|].
  destruct (compute_replacements_sound _ _ _ _ H) as (_ & _ & Hs).
  rewrite Hs; [reflexivity|]. repeat constructor; by_compute.
Defined.

(** Edits that do collide.  An insertion before a final blank line is lost
    when an earlier chunk also replaces that line, and a chunk anchored at the
    end of the file is lost when an earlier chunk covers its lines. *)
Example insertion_before_blank_line_is_lost :
  derive_new_contents (lit "f") (lit "a" ++ [nl; nl])
    [mkChunk None [lit "a"; []] [lit "b"] false; mkChunk None [] [lit "added"] false]
  = Ok (Some (mkApplied (lit "a" ++ [nl; nl]) (lit "b" ++ [nl]))).
Proof. by_compute. Qed.

Example overlapping_end_of_file_chunk_is_lost :
  let file := join [nl] [lit "a"; lit "b"; lit "c"; []] in
  derive_new_contents (lit "f") file
    [mkChunk None [lit "b"; lit "c"] [lit "x"] false; mkChunk None [lit "c"] [lit "y"] true]
  = Ok (Some (mkApplied file (join [nl] [lit "a"; lit "x"; []]))).
Proof. by_compute. Qed.
