(* ===== verification/PatchFs.v ===== *)
(** * Applying hunks to a file system

    [apply-patch/src/lib.rs]: [apply_hunks_to_files] with its helpers,
    [apply_hunks], [apply_patch] and [print_summary].  The file system is the
    trait [ExecutorFileSystem] (file-system/src/lib.rs): a class of operations on
    an abstract world, with what the code relies on as a class of laws.
    The sandbox context is handed through unchanged and is part of the
    operations; the two output streams are in-memory buffers. *)

From S2P Require Import Prelude RustStr AbsPath SeekSequence PatchParser PatchApply.

Open Scope rstr_scope.

(** ** The file-system interface *)

Record FileMetadata := mkMetadata {
  is_directory : bool;
  is_file : bool;
  is_symlink : bool;
}.

Class ExecutorFileSystem (W : Type) := {
  read_file_text : W → str → result io_error str;
  get_metadata : W → str → result io_error FileMetadata;
  write_file : str → str → W → W * result io_error unit;
  create_directory : str → W → W * result io_error unit;
  remove : str → W → W * result io_error unit;
}.

(** ** What was committed *)

Inductive AppliedPatchFileChange :=
| ChangeAdd (content : str) (overwritten_content : option str)
| ChangeDelete (content : str)
| ChangeUpdate (move_path : option str) (old_content : str)
    (overwritten_move_content : option str) (new_content : str).

Record AppliedPatchChange := mkPatchChange {
  change_path : str;
  file_change : AppliedPatchFileChange;
}.

Record AppliedPatchDelta := mkDelta { delta_changes : list AppliedPatchChange; exact : bool }.
Definition delta_empty : AppliedPatchDelta := mkDelta [] true.
Definition delta_append (d other : AppliedPatchDelta) : AppliedPatchDelta :=
  mkDelta (delta_changes d ++ delta_changes other) (exact d && exact other).

Record AffectedPaths := mkAffected {
  added : list str;
  modified : list str;
  deleted : list str;
}.

(** [anyhow::Error]: a message, an I/O error with its context, or a typed
    error. *)
Inductive anyhow_error :=
| Bail (message : str)
| WithContext (context : str) (source : io_error)
| Typed (e : ApplyPatchError).

Section Apply.
Context {W : Type} `{!ExecutorFileSystem W}.
(** [dirs::home_dir()] *)
Context (home_dir : option str).

(** The world, the delta and the affected paths, all mutated in place. *)
Record apply_state := mkApplyState {
  world : W;
  delta : AppliedPatchDelta;
  affected : AffectedPaths;
}.

Abbreviation apply_m := (st_err apply_state anyhow_error).

Definition set_world (w : W) : apply_m unit :=
  modify (λ s, mkApplyState w (delta s) (affected s)).
(** [delta.exact &= b]. *)
Definition and_exact (b : bool) : apply_m unit :=
  modify (λ s, mkApplyState (world s)
                 (mkDelta (delta_changes (delta s)) (exact (delta s) && b)) (affected s)).
Definition push_change (path : str) (c : AppliedPatchFileChange) : apply_m unit :=
  modify (λ s, mkApplyState (world s)
                 (mkDelta (delta_changes (delta s) ++ [mkPatchChange path c]) (exact (delta s)))
                 (affected s)).
(** [delta.changes[i] = c]; an index out of range would panic. *)
Definition set_change (i : nat) (path : str) (c : AppliedPatchFileChange) : apply_m unit :=
  modify (λ s, mkApplyState (world s)
                 (mkDelta (<[i := mkPatchChange path c]> (delta_changes (delta s)))
                          (exact (delta s)))
                 (affected s)).
Definition push_added (p : str) : apply_m unit :=
  modify (λ s, mkApplyState (world s) (delta s)
    (mkAffected (added (affected s) ++ [p]) (modified (affected s)) (deleted (affected s)))).
Definition push_modified (p : str) : apply_m unit :=
  modify (λ s, mkApplyState (world s) (delta s)
    (mkAffected (added (affected s)) (modified (affected s) ++ [p]) (deleted (affected s)))).
Definition push_deleted (p : str) : apply_m unit :=
  modify (λ s, mkApplyState (world s) (delta s)
    (mkAffected (added (affected s)) (modified (affected s)) (deleted (affected s) ++ [p]))).

(** A call of the file system that changes the world. *)
Definition call {A} (op : W → W * result io_error A) : apply_m (result io_error A) :=
  s ← get;
  let '(w, r) := op (world s) in
  set_world w ;; mret r.

Definition hunk_source_path (h : Hunk) : str :=
  match h with
  | UpdateFile path _ _ => path
  | AddFile _ _ | DeleteFile _ => hunk_path h
  end.
(** [Hunk::resolve_path]. *)
Definition resolve_path (h : Hunk) (cwd : str) : str :=
  resolve_path_against_base home_dir (hunk_source_path h) cwd.

(** [AbsolutePathBuf::parent]. *)
Definition abs_parent (p : str) : option str :=
  match reverse (components p) with
  | [] | RootDir :: _ => None
  | _ :: rest => Some (buf_string rest)
  end.

Definition is_not_found (e : io_error) : bool := bool_decide (kind e = NotFound).

(** *** Helpers *)

Definition note_existing_path_delta_support (path : str) : apply_m unit :=
  s ← get;
  match get_metadata (world s) path with
  | Ok metadata => and_exact (is_file metadata && negb (is_symlink metadata))
  | Err source => and_exact (is_not_found source)
  end.

Definition read_optional_file_text_for_delta (path : str) : apply_m (option str) :=
  note_existing_path_delta_support path ;;
  s ← get;
  match read_file_text (world s) path with
  | Ok content => mret (Some content)
  | Err source => and_exact (is_not_found source) ;; mret None
  end.

Definition ensure_not_directory (w : W) (path : str) : result io_error unit :=
  metadata ← get_metadata w path;
  if is_directory metadata
  then Err (mkIoError InvalidInput (lit "path is a directory")) else Ok ().

Definition remove_failure_was_side_effect_free (w : W) (path : str)
    (expected_content : option str) : bool :=
  match expected_content with
  | Some expected =>
      match read_file_text w path with Ok content => content == expected | Err _ => false end
  | None => false
  end.

Definition failed_to (what path : str) : str := lit "Failed to " ++ what ++ lit " " ++ path.

(** The result is the error [try_write!] sees. *)
Definition write_file_with_missing_parent_retry (path contents : str) :
    apply_m (result anyhow_error unit) :=
  let write_error e := WithContext (failed_to (lit "write file") path) e in
  r ← call (write_file path contents);
  match r with
  | Ok _ => mret (Ok ())
  | Err err =>
      if is_not_found err then
        created ← match abs_parent path with
                  | Some parent => call (create_directory parent)
                  | None => mret (Ok ())
                  end;
        match created with
        | Err e =>
            mret (Err (WithContext
                         (failed_to (lit "create parent directories for") path) e))
        | Ok _ =>
            r ← call (write_file path contents);
            mret (map_err write_error r)
        end
      else mret (Err (write_error err))
  end.

(** [try_write!]. *)
Definition try_write {A} (m : apply_m (result anyhow_error A)) : apply_m A :=
  r ← m;
  match r with
  | Ok value => mret value
  | Err error => and_exact false ;; throw error
  end.

Definition derive_new_contents_from_chunks (w : W) (path : str)
    (chunks : list UpdateFileChunk) : result ApplyPatchError (option AppliedPatch) :=
  original ← map_err (IoError (failed_to (lit "read file to update") path))
               (read_file_text w path);
  derive_new_contents path original chunks.

(** [remove] of a file that is not a directory, with the bookkeeping of a
    failure. *)
Definition remove_checked (path : str) (context : str) (expected : option str) : apply_m unit :=
  s ← get;
  lift (map_err (WithContext context) (ensure_not_directory (world s) path)) ;;
  r ← call (remove path);
  match r with
  | Ok _ => mret ()
  | Err error =>
      s ← get;
      and_exact (remove_failure_was_side_effect_free (world s) path expected) ;;
      throw (WithContext context error)
  end.

(** *** One hunk *)

Definition apply_add_file (path_abs affected_path contents : str) : apply_m unit :=
  overwritten_content ← read_optional_file_text_for_delta path_abs;
  try_write (write_file_with_missing_parent_retry path_abs contents) ;;
  push_change path_abs (ChangeAdd contents overwritten_content) ;;
  push_added affected_path.

Definition apply_delete_file (path_abs affected_path : str) : apply_m unit :=
  note_existing_path_delta_support path_abs ;;
  s ← get;
  let deleted_content := match read_file_text (world s) path_abs with
                         | Ok content => Some content
                         | Err _ => None
                         end in
  and_exact (opt_is_some deleted_content) ;;
  remove_checked path_abs (failed_to (lit "delete file") path_abs) deleted_content ;;
  match deleted_content with
  | Some content => push_change path_abs (ChangeDelete content)
  | None => mret ()
  end ;;
  push_deleted affected_path.

Definition apply_move (path_abs dest_abs affected_path : str) (p : AppliedPatch) : apply_m unit :=
  overwritten ← read_optional_file_text_for_delta dest_abs;
  try_write (write_file_with_missing_parent_retry dest_abs (new_contents p)) ;;
  s ← get;
  let dest_write_change_index := length (delta_changes (delta s)) in
  push_change dest_abs (ChangeAdd (new_contents p) overwritten) ;;
  remove_checked path_abs (failed_to (lit "remove original") path_abs)
    (Some (original_contents p)) ;;
  set_change dest_write_change_index path_abs
    (ChangeUpdate (Some dest_abs) (original_contents p) overwritten (new_contents p)) ;;
  push_modified affected_path.

Definition apply_update_in_place (path_abs affected_path : str) (p : AppliedPatch) :
    apply_m unit :=
  try_write (r ← call (write_file path_abs (new_contents p));
             mret (map_err (WithContext (failed_to (lit "write file") path_abs)) r)) ;;
  push_change path_abs (ChangeUpdate None (original_contents p) None (new_contents p)) ;;
  push_modified affected_path.

Definition apply_update_file (path_abs affected_path : str) (dest_abs : option str)
    (chunks : list UpdateFileChunk) : apply_m unit :=
  note_existing_path_delta_support path_abs ;;
  s ← get;
  match derive_new_contents_from_chunks (world s) path_abs chunks with
  | Err e => throw (Typed e)
  | Ok None => throw (Bail (lit "panic"))
  | Ok (Some p) =>
      match dest_abs with
      | Some dest => apply_move path_abs dest affected_path p
      | None => apply_update_in_place path_abs affected_path p
      end
  end.

Definition apply_hunk (cwd : str) (h : Hunk) : apply_m unit :=
  match h with
  | AddFile _ contents => apply_add_file (resolve_path h cwd) (hunk_path h) contents
  | DeleteFile _ => apply_delete_file (resolve_path h cwd) (hunk_path h)
  | UpdateFile _ move_path chunks =>
      apply_update_file (resolve_path h cwd) (hunk_path h)
        ((λ dest, resolve_path_against_base home_dir dest cwd) <$> move_path) chunks
  end.

Fixpoint apply_each (cwd : str) (hs : list Hunk) : apply_m unit :=
  match hs with
  | [] => mret ()
  | h :: hs' => apply_hunk cwd h ;; apply_each cwd hs'
  end.

Definition apply_hunks_to_files (cwd : str) (hs : list Hunk) : apply_m AffectedPaths :=
  if is_empty hs then throw (Bail (lit "No files were modified."))
  else apply_each cwd hs ;; s ← get; mret (affected s).

(** *** The entry points *)

Definition parse_error_display (e : ParseError) : str :=
  match e with
  | InvalidPatchError m => lit "invalid patch: " ++ m
  | InvalidHunkError m n => lit "invalid hunk at line " ++ fmt_nat n ++ lit ", " ++ m
  end.
Definition apply_patch_error_display (e : ApplyPatchError) : str :=
  match e with
  | ApplyParseError e => parse_error_display e
  | IoError context source => context ++ lit ": " ++ io_message source
  | ComputeReplacements m => m
  | ImplicitInvocation =>
      litq "patch detected without explicit call to apply_patch. Rerun as [^apply_patch^, ^<patch>^]"
  | EnvironmentIdInShellInvocation =>
      lit "environment_id is only supported by the apply_patch tool invocation"
  end.
Definition anyhow_display (e : anyhow_error) : str :=
  match e with
  | Bail m => m
  | WithContext context _ => context
  | Typed e => apply_patch_error_display e
  end.

Definition writeln (s : str) : str := s ++ [nl].
Definition print_summary (a : AffectedPaths) : str :=
  writeln (lit "Success. Updated the following files:")
  ++ concat (map (λ p, writeln (lit "A " ++ p)) (added a))
  ++ concat (map (λ p, writeln (lit "M " ++ p)) (modified a))
  ++ concat (map (λ p, writeln (lit "D " ++ p)) (deleted a)).

(** [ApplyPatchFailure]. *)
Record ApplyPatchFailure := mkFailure {
  failure_error : ApplyPatchError;
  failure_delta : AppliedPatchDelta;
}.

(** What a run leaves: the world, the two outputs and the result. *)
Record outcome := mkOutcome {
  out_world : W;
  stdout : str;
  stderr : str;
  out_result : result ApplyPatchFailure AppliedPatchDelta;
}.

Definition apply_hunks (hs : list Hunk) (cwd : str) (w : W) : outcome :=
  match apply_hunks_to_files cwd hs (mkApplyState w delta_empty (mkAffected [] [] [])) with
  | (s, Ok affected_paths) => mkOutcome (world s) (print_summary affected_paths) [] (Ok (delta s))
  | (s, Err error) =>
      let msg := anyhow_display error in
      let error := match error with
                   | WithContext _ io => IoError (lit "I/O error") io
                   | _ => IoError msg (mkIoError OtherKind msg)
                   end in
      mkOutcome (world s) [] (writeln msg) (Err (mkFailure error (delta s)))
  end.

Definition apply_patch (text cwd : str) (w : W) : outcome :=
  match parse_patch text with
  | Ok source => apply_hunks (args_hunks source) cwd w
  | Err e =>
      let line := match e with
                  | InvalidPatchError m => lit "Invalid patch: " ++ m
                  | InvalidHunkError m n =>
                      lit "Invalid patch hunk on line " ++ fmt_nat n ++ lit ": " ++ m
                  end in
      mkOutcome w [] (writeln line) (Err (mkFailure (ApplyParseError e) delta_empty))
  end.
End Apply.

(** ** What the code relies on *)

Section Laws.
Context {W : Type} `{!ExecutorFileSystem W}.

(** A regular file, not a symbolic link. *)
Definition regular (w : W) (p : str) : Prop :=
  ∃ m, get_metadata w p = Ok m ∧ is_file m = true ∧ is_symlink m = false.
Definition missing (w : W) (p : str) : Prop :=
  ∃ e, get_metadata w p = Err e ∧ kind e = NotFound.
Definition plain_path (w : W) (p : str) : Prop := regular w p ∨ missing w p.
End Laws.

(** The text files of a world by their paths, and how the operations act on
    them.  Two paths name two files: no hard links, no case folding. *)
Class FileSystemLaws (W : Type) `{!ExecutorFileSystem W} := {
  files : W → gmap (list N) (list N);
  law_regular w p : regular w p →
    (∀ s, read_file_text w p = Ok s → files w !! p = Some s) ∧
    (∀ e, read_file_text w p = Err e → kind e ≠ NotFound);
  law_missing w p : missing w p →
    files w !! p = None ∧ (∀ s, read_file_text w p ≠ Ok s);
  law_write_ok p c w w' : write_file p c w = (w', Ok ()) → plain_path w p →
    files w' = <[p := c]> (files w) ∧ (∀ q, regular w q → regular w' q);
  law_write_not_found p c w w' e : write_file p c w = (w', Err e) → kind e = NotFound →
    files w' = files w ∧ (plain_path w p → plain_path w' p) ∧ (∀ q, regular w q → regular w' q);
  law_create_directory d w w' : create_directory d w = (w', Ok ()) →
    files w' = files w ∧ (∀ q, regular w q → regular w' q) ∧
    (∀ p, abs_parent p = Some d → plain_path w p → plain_path w' p);
  law_remove_ok p w w' : remove p w = (w', Ok ()) → regular w p →
    files w' = delete p (files w);
  law_remove_err p w w' e s : remove p w = (w', Err e) → regular w p →
    files w !! p = Some s → read_file_text w' p = Ok s → files w' = files w;
}.

(** ** Replaying and undoing a delta *)

Definition replay_change (c : AppliedPatchChange) (m : gmap (list N) (list N)) :=
  match file_change c with
  | ChangeAdd content _ => <[change_path c := content]> m
  | ChangeDelete _ => delete (change_path c) m
  | ChangeUpdate None _ _ new => <[change_path c := new]> m
  | ChangeUpdate (Some dest) _ _ new => <[dest := new]> (delete (change_path c) m)
  end.

Definition restore (p : str) (o : option str) (m : gmap (list N) (list N)) :=
  match o with Some s => <[p := s]> m | None => delete p m end.

Definition undo_change (c : AppliedPatchChange) (m : gmap (list N) (list N)) :=
  match file_change c with
  | ChangeAdd _ overwritten => restore (change_path c) overwritten m
  | ChangeDelete content => <[change_path c := content]> m
  | ChangeUpdate None old _ _ => <[change_path c := old]> m
  | ChangeUpdate (Some dest) old overwritten _ =>
      <[change_path c := old]> (restore dest overwritten m)
  end.

Definition replay (cs : list AppliedPatchChange) (m : gmap (list N) (list N)) :=
  fold_left (λ m c, replay_change c m) cs m.
Definition undo (cs : list AppliedPatchChange) (m : gmap (list N) (list N)) :=
  foldr undo_change m cs.

(** Every change undoes on the files it was made to: what it says it replaced is
    what was there. *)
Fixpoint honest (cs : list AppliedPatchChange) (m : gmap (list N) (list N)) : Prop :=
  match cs with
  | [] => True
  | c :: cs => undo_change c (replay_change c m) = m ∧ honest cs (replay_change c m)
  end.

Lemma replay_snoc cs c m : replay (cs ++ [c]) m = replay_change c (replay cs m).
Proof. unfold replay. by rewrite fold_left_app. Qed.
Lemma undo_snoc cs c m : undo (cs ++ [c]) m = undo cs (undo_change c m).
Proof. unfold undo. by rewrite foldr_app. Qed.

Lemma honest_snoc cs c m :
  honest cs m → undo_change c (replay_change c (replay cs m)) = replay cs m → honest (cs ++ [c]) m.
Proof.
  revert m. induction cs as [|c' cs IH]; intros m; cbn; [by intros _ ?|].
  intros [? ?] ?. split; [done|]. by apply IH.
Qed.
Lemma honest_undo cs m : honest cs m → undo cs (replay cs m) = m.
Proof.
  revert m. induction cs as [|c cs IH]; intros m; [done|]. intros [Hc Hh].
  change (undo_change c (undo cs (replay cs (replay_change c m))) = m). by rewrite IH.
Qed.

Lemma restore_lookup (p : str) (c : str) (m : gmap (list N) (list N)) :
  restore p (m !! p) (<[p := c]> m) = m.
Proof.
  unfold restore. destruct (m !! p) eqn:E.
  - rewrite insert_insert_eq. by rewrite insert_id.
  - by rewrite delete_insert_id.
Qed.

(** Evaluate the primitive steps of a computation. *)
Ltac eval_m :=
  cbv beta iota delta [mbind st_err_bind mret st_err_ret get modify throw lift call set_world
    and_exact push_change set_change push_added push_modified push_deleted];
  cbn [fst snd world delta affected delta_changes exact].

Section Exactness.
Context {W : Type} `{!ExecutorFileSystem W} `{!FileSystemLaws W}.
Context (home_dir : option str).
Implicit Types (s : apply_state (W := W)) (w : W) (p : str).

(** Only [exact] may have changed, and only downwards, to a value that
    vouches for [P]. *)
Definition noted s s' (P : Prop) : Prop :=
  world s' = world s ∧ delta_changes (delta s') = delta_changes (delta s) ∧
  (exact (delta s') = true → exact (delta s) = true ∧ P).

Lemma plain_of_metadata w p :
  match get_metadata w p with
  | Ok m => is_file m && negb (is_symlink m)
  | Err e => is_not_found e
  end = true → plain_path w p.
Proof.
  destruct (get_metadata w p) as [m|e] eqn:E; intros H.
  - left. exists m. apply andb_true_iff in H as [? ?%negb_true_iff]. done.
  - right. exists e. split; [done|]. by apply bool_decide_eq_true in H.
Qed.

Lemma note_spec p s :
  ∃ s', note_existing_path_delta_support p s = (s', Ok ()) ∧ noted s s' (plain_path (world s) p).
Proof.
  pose proof (plain_of_metadata (world s) p) as Hp.
  unfold note_existing_path_delta_support, and_exact, get, modify, mbind, st_err_bind.
  destruct (get_metadata (world s) p); eexists; (split; [done|]); (split; [done|]);
    (split; [done|]); cbn; intros [? ?]%andb_true_iff; auto.
Qed.

(** Text that can be read at a plain path is the file's text. *)
Lemma plain_read w p t :
  plain_path w p → read_file_text w p = Ok t → regular w p ∧ files w !! p = Some t.
Proof.
  intros [Hr|Hm] Hread; [|by apply law_missing in Hm as [_ []%(λ H, H t)]].
  split; [done|]. by apply law_regular in Hr as [Hr _]; apply Hr.
Qed.

Lemma read_optional_spec p s :
  ∃ s' o, read_optional_file_text_for_delta p s = (s', Ok o) ∧
          noted s s' (plain_path (world s) p ∧ files (world s) !! p = o).
Proof.
  destruct (note_spec p s) as (s1 & Hn & Hw & Hc & He).
  unfold read_optional_file_text_for_delta. rewrite (st_bind_step _ _ _ _ _ Hn).
  unfold get, mbind, st_err_bind. rewrite Hw.
  destruct (read_file_text (world s) p) as [t|e] eqn:Hr.
  - exists s1, (Some t). split; [done|]. split; [done|]. split; [done|].
    intros [? Hp]%He. split; [done|]. split; [done|]. by apply plain_read.
  - unfold and_exact, modify. eexists _, None. split; [done|]. split; [by cbn|].
    split; [by cbn|]. cbn. intros [[? Hp]%He Hnf]%andb_true_iff. split; [done|].
    split; [done|]. apply bool_decide_eq_true in Hnf. destruct Hp as [Hp|Hp].
    + apply law_regular in Hp as [_ Hp]. by apply Hp in Hr.
    + by apply law_missing in Hp as [Hp _].
Qed.

(** A write that succeeds at a plain path, retried or not. *)
Lemma write_retry_spec p c s :
  ∃ s' r, write_file_with_missing_parent_retry p c s = (s', Ok r) ∧
    delta s' = delta s ∧
    (r = Ok () → plain_path (world s) p →
     files (world s') = <[p := c]> (files (world s)) ∧
     ∀ q, regular (world s) q → regular (world s') q).
Proof.
  unfold write_file_with_missing_parent_retry. eval_m.
  destruct (write_file p c (world s)) as [w1 [[]|e1]] eqn:H1; cbn.
  { eexists _, _. split; [done|]. split; [done|]. cbn. intros _ Hp. by eapply law_write_ok. }
  destruct (is_not_found e1) eqn:Hnf.
  2:{ eexists _, _. split; [done|]. split; [done|]. done. }
  apply bool_decide_eq_true in Hnf.
  destruct (law_write_not_found _ _ _ _ _ H1 Hnf) as (Hf1 & Hp1 & Hr1).
  destruct (abs_parent p) as [d|] eqn:Hd; cbn.
  - destruct (create_directory d w1) as [w2 [[]|e2]] eqn:H2; cbn.
    2:{ eexists _, _. split; [done|]. split; [done|]. done. }
    destruct (law_create_directory _ _ _ H2) as (Hf2 & Hr2 & Hp2).
    destruct (write_file p c w2) as [w3 [[]|e3]] eqn:H3; cbn;
      (eexists _, _; split; [done|]); (split; [done|]); [|done]. cbn.
    intros _ Hp. destruct (law_write_ok _ _ _ _ H3) as [-> Hr3]; [auto|].
    rewrite Hf2, Hf1. auto.
  - destruct (write_file p c w1) as [w3 [[]|e3]] eqn:H3; cbn;
      (eexists _, _; split; [done|]); (split; [done|]); [|done]. cbn.
    intros _ Hp. destruct (law_write_ok _ _ _ _ H3) as [-> Hr3]; [auto|].
    rewrite Hf1. auto.
Qed.

(** Removing a file: success, or a failure that keeps [exact] only when the
    text is still there. *)
Lemma remove_checked_spec p ctx t s :
  regular (world s) p → files (world s) !! p = Some t →
  let '(s', r) := remove_checked p ctx (Some t) s in
  delta_changes (delta s') = delta_changes (delta s) ∧
  (exact (delta s') = true → exact (delta s) = true) ∧
  (exact (delta s') = true →
   files (world s') = match r with
                      | Ok _ => delete p (files (world s))
                      | Err _ => files (world s)
                      end).
Proof.
  intros Hreg Hf. unfold remove_checked. eval_m.
  destruct (ensure_not_directory (world s) p) as [[]|e]; cbn; [|done].
  destruct (remove p (world s)) as [w' [[]|e]] eqn:Hr; cbn.
  { split; [done|]. split; [done|]. intros _. by eapply law_remove_ok. }
  split; [done|]. split; [by intros [? _]%andb_true_iff|]. intros [_ H]%andb_true_iff.
  destruct (read_file_text w' p) as [t'|] eqn:Hrd; [|done].
  apply str_eqb_true in H as ->. by eapply law_remove_err.
Qed.

(** ** The delta follows the files *)

Definition tracks (F0 : gmap (list N) (list N)) s : Prop :=
  exact (delta s) = true →
  replay (delta_changes (delta s)) F0 = files (world s) ∧ honest (delta_changes (delta s)) F0.

Lemma tracks_noted F0 s s' P : noted s s' P → tracks F0 s → tracks F0 s'.
Proof. intros (Hw & Hc & He) Ht [? _]%He. rewrite Hw, Hc. auto. Qed.

Lemma tracks_inexact F0 s : exact (delta s) = false → tracks F0 s.
Proof. unfold tracks. by intros ->. Qed.

Lemma tracks_push F0 s s' c :
  tracks F0 s → delta_changes (delta s') = delta_changes (delta s) ++ [c] →
  (exact (delta s') = true →
   exact (delta s) = true ∧ replay_change c (files (world s)) = files (world s') ∧
   undo_change c (files (world s')) = files (world s)) →
  tracks F0 s'.
Proof.
  intros Ht Hc He (Hs & Hr & Hu)%He. destruct (Ht Hs) as [Hr0 Hh].
  rewrite Hc, replay_snoc, Hr0. split; [done|]. apply honest_snoc; [done|]. by rewrite Hr0, Hr.
Qed.

Lemma try_write_Ok {A} (m : st_err (apply_state (W := W)) anyhow_error (result anyhow_error A))
    s s' a :
  m s = (s', Ok (Ok a)) → try_write m s = (s', Ok a).
Proof. intros H. unfold try_write. by rewrite (st_bind_step _ _ _ _ _ H). Qed.

(** A failed write is reported as inexact. *)
Lemma try_write_Err {A} (m : st_err (apply_state (W := W)) anyhow_error (result anyhow_error A))
    s s' e :
  m s = (s', Ok (Err e)) →
  ∃ s2, try_write m s = (s2, Err e) ∧ exact (delta s2) = false.
Proof.
  intros H. unfold try_write. rewrite (st_bind_step _ _ _ _ _ H).
  unfold and_exact, modify, throw, mbind, st_err_bind. eexists. split; [done|].
  cbn. apply andb_false_r.
Qed.

Lemma apply_add_file_tracks F0 p ap c s :
  tracks F0 s → tracks F0 (apply_add_file p ap c s).1.
Proof.
  intros Ht. unfold apply_add_file.
  destruct (read_optional_spec p s) as (s1 & o & H1 & Hn).
  rewrite (st_bind_step _ _ _ _ _ H1). pose proof Hn as (Hw & Hc & He).
  destruct (write_retry_spec p c s1) as (s2 & [[]|e] & H2 & Hd & Hf); last first.
  { destruct (try_write_Err _ _ _ _ H2) as (s3 & H3 & He3).
    rewrite (st_bind_fail _ _ _ _ _ H3). by apply tracks_inexact. }
  rewrite (st_bind_step _ _ _ _ _ (try_write_Ok _ _ _ _ H2)).
  eapply (tracks_push _ s1); [by eapply tracks_noted|eval_m; by rewrite Hd|].
  eval_m. rewrite Hd. intros Hex. split; [done|]. apply He in Hex as [_ [Hp Ho]].
  rewrite <-Hw in Hp, Ho. destruct (Hf eq_refl Hp) as [-> _]. cbn.
  split; [done|]. subst o. apply restore_lookup.
Qed.

Lemma apply_delete_file_tracks F0 p ap s :
  tracks F0 s → tracks F0 (apply_delete_file p ap s).1.
Proof.
  intros Ht. unfold apply_delete_file.
  destruct (note_spec p s) as (s1 & H1 & Hn). rewrite (st_bind_step _ _ _ _ _ H1).
  pose proof (tracks_noted _ _ _ _ Hn Ht) as Ht1. destruct Hn as (Hw & Hc & He).
  erewrite st_bind_step; [|done].
  destruct (read_file_text (world s1) p) as [t|e] eqn:Hr; cbn [opt_is_some].
  2:{ erewrite st_bind_step; [|done]. apply tracks_inexact.
      unfold remove_checked. eval_m.
      repeat case_match; simplify_eq/=; by rewrite ?andb_false_r. }
  erewrite st_bind_step; [|done].
  set (s2 := mkApplyState (world s1) _ (affected s1)).
  destruct (exact (delta s1)) eqn:Hex; last first.
  { apply tracks_inexact. subst s2.
    unfold remove_checked. eval_m.
    repeat case_match; simplify_eq/=; by rewrite ?Hex, ?andb_false_l. }
  destruct (He eq_refl) as [_ Hp]. rewrite <-Hw in Hp.
  destruct (plain_read _ _ _ Hp Hr) as [Hreg Hf].
  pose proof (remove_checked_spec p (failed_to (lit "delete file") p) t s2 Hreg Hf) as Hrm.
  unfold mbind at 1, st_err_bind at 1.
  destruct (remove_checked _ _ _ s2) as [s3 [[]|e]]; destruct Hrm as (Hc3 & He3 & Hf3); cbn in *.
  - eapply (tracks_push _ s1); [done|eval_m; by rewrite Hc3|]. eval_m. intros Hx.
    split; [done|]. rewrite (Hf3 Hx). cbn. split; [done|]. by rewrite insert_delete_id.
  - intros Hx. rewrite (Hf3 Hx), Hc3. by apply Ht1.
Qed.

Lemma remove_checked_inexact p ctx o s :
  exact (delta s) = false → exact (delta (remove_checked p ctx o s).1) = false.
Proof.
  intros He. unfold remove_checked. eval_m.
  repeat (case_match; simplify_eq/=); by rewrite ?He, ?andb_false_l.
Qed.

Lemma undo_move (F : gmap (list N) (list N)) (p dest old new : list N) :
  dest ≠ p → F !! p = Some old →
  <[p := old]> (restore dest (F !! dest) (delete p (<[dest := new]> F))) = F.
Proof.
  intros Hne Hp. rewrite delete_insert_ne by done.
  replace (F !! dest) with (delete p F !! dest) by (by rewrite lookup_delete_ne).
  rewrite restore_lookup. by rewrite insert_delete_id.
Qed.

Lemma apply_move_tracks F0 p dest ap pt s :
  dest ≠ p → tracks F0 s →
  (exact (delta s) = true →
   regular (world s) p ∧ files (world s) !! p = Some (original_contents pt)) →
  tracks F0 (apply_move p dest ap pt s).1.
Proof.
  intros Hne Ht Hsrc. unfold apply_move.
  destruct (read_optional_spec dest s) as (s1 & o & H1 & Hn).
  rewrite (st_bind_step _ _ _ _ _ H1). pose proof (tracks_noted _ _ _ _ Hn Ht) as Ht1.
  destruct Hn as (Hw & Hc & He).
  destruct (write_retry_spec dest (new_contents pt) s1) as (s2 & [[]|e] & H2 & Hd & Hf); last first.
  { destruct (try_write_Err _ _ _ _ H2) as (s3 & H3 & He3).
    rewrite (st_bind_fail _ _ _ _ _ H3). by apply tracks_inexact. }
  rewrite (st_bind_step _ _ _ _ _ (try_write_Ok _ _ _ _ H2)).
  erewrite st_bind_step; [|done]. erewrite st_bind_step; [|done].
  set (s3 := mkApplyState (world s2) _ (affected s2)).
  destruct (exact (delta s1)) eqn:Hex; last first.
  { apply tracks_inexact. unfold mbind at 1, st_err_bind at 1.
    pose proof (remove_checked_inexact p (failed_to (lit "remove original") p)
      (Some (original_contents pt)) s3) as Hi. cbn in Hi. rewrite Hd in Hi. specialize (Hi Hex).
    destruct (remove_checked _ _ _ s3) as [s4 [[]|e]]; done. }
  destruct (He eq_refl) as (Hs & Hp & Ho). destruct (Hsrc Hs) as [Hreg Hold].
  rewrite <-Hw in Hp, Ho, Hreg, Hold. destruct (Hf eq_refl Hp) as [Hf2 Hr2].
  assert (tracks F0 s3) as Ht3.
  { eapply (tracks_push _ s1); [done|cbn; by rewrite Hd|]. intros _. cbn. split; [done|].
    rewrite Hf2. split; [done|]. rewrite <-Ho. apply restore_lookup. }
  pose proof (remove_checked_spec p (failed_to (lit "remove original") p) (original_contents pt) s3)
    as Hrm. cbn in Hrm.
  assert (files (world s2) !! p = Some (original_contents pt)) as Hold2
    by (by rewrite Hf2, lookup_insert_ne).
  specialize (Hrm (Hr2 _ Hreg) Hold2). unfold mbind at 1, st_err_bind at 1.
  destruct (remove_checked _ _ _ s3) as [s4 [[]|e]]; destruct Hrm as (Hc4 & He4 & Hf4).
  - eapply (tracks_push _ s1); [done| |]; eval_m.
    + rewrite Hc4, Hd. by rewrite insert_app_r_alt, Nat.sub_diag.
    + intros Hx. split; [done|]. rewrite (Hf4 Hx), Hf2. cbn. split.
      * by rewrite delete_insert_ne.
      * rewrite <-Ho. by apply undo_move.
  - cbn. intros Hx. rewrite (Hf4 Hx), Hc4. by apply Ht3; apply He4.
Qed.

Lemma apply_update_in_place_tracks F0 p ap pt s :
  tracks F0 s →
  (exact (delta s) = true →
   regular (world s) p ∧ files (world s) !! p = Some (original_contents pt)) →
  tracks F0 (apply_update_in_place p ap pt s).1.
Proof.
  intros Ht Hsrc. unfold apply_update_in_place, try_write. eval_m.
  destruct (write_file p (new_contents pt) (world s)) as [w' [[]|e]] eqn:Hwr; cbn.
  2:{ apply tracks_inexact. cbn. apply andb_false_r. }
  eapply (tracks_push _ s); [done|done|]. cbn. intros Hx. split; [done|].
  destruct (Hsrc Hx) as [Hreg Hold].
  destruct (law_write_ok _ _ _ _ Hwr (or_introl Hreg)) as [-> _]. cbn. split; [done|].
  by rewrite insert_insert_eq, insert_id.
Qed.

Lemma derive_original w p cs pt :
  derive_new_contents_from_chunks w p cs = Ok (Some pt) →
  read_file_text w p = Ok (original_contents pt).
Proof.
  intros (t & Ht%map_err_Ok & (rs & _ & H)%bind_Ok)%bind_Ok.
  destruct (apply_replacements _ rs); simplify_eq/=. done.
Qed.

Lemma apply_update_file_tracks F0 p ap dest cs s :
  dest ≠ Some p → tracks F0 s → tracks F0 (apply_update_file p ap dest cs s).1.
Proof.
  intros Hne Ht. unfold apply_update_file.
  destruct (note_spec p s) as (s1 & H1 & Hn). rewrite (st_bind_step _ _ _ _ _ H1).
  pose proof (tracks_noted _ _ _ _ Hn Ht) as Ht1. destruct Hn as (Hw & Hc & He).
  erewrite st_bind_step; [|done].
  destruct (derive_new_contents_from_chunks (world s1) p cs) as [[pt|]|e] eqn:Hd; [|done..].
  assert (exact (delta s1) = true → regular (world s1) p ∧
          files (world s1) !! p = Some (original_contents pt)) as Hsrc.
  { intros [_ Hp]%He. rewrite <-Hw in Hp. by apply plain_read, derive_original with cs. }
  destruct dest as [dest|]; [apply apply_move_tracks; [congruence|done|done]|].
  by apply apply_update_in_place_tracks.
Qed.

(** A rename whose target is another file. *)
Definition renames_away (cwd : str) (h : Hunk) : Prop :=
  match h with
  | UpdateFile path (Some dest) _ =>
      resolve_path_against_base home_dir dest cwd ≠ resolve_path_against_base home_dir path cwd
  | _ => True
  end.

Lemma apply_each_tracks F0 cwd hs s :
  Forall (renames_away cwd) hs → tracks F0 s → tracks F0 (apply_each home_dir cwd hs s).1.
Proof.
  intros Hhs; revert s; induction Hhs as [|h hs Hh _ IH]; intros s Ht; [done|].
  assert (tracks F0 (apply_hunk home_dir cwd h s).1) as Ht1.
  { destruct h as [path c|path|path mp cs]; cbn [apply_hunk].
    - by apply apply_add_file_tracks.
    - by apply apply_delete_file_tracks.
    - apply apply_update_file_tracks; [|done]. destruct mp as [d|]; [|done]. intros E. by injection E. }
  cbn [apply_each]. unfold mbind, st_err_bind.
  destruct (apply_hunk home_dir cwd h s) as [s' [[]|e]]; [by apply IH|done].
Qed.
End Exactness.

(** ** The in-memory file system

    Files by path; every directory exists.  It satisfies the laws, and runs
    the examples below. *)

Abbreviation mem := (gmap (list N) (list N)).

Definition not_found : io_error := mkIoError NotFound (lit "not found").

#[export] Instance mem_fs : ExecutorFileSystem mem := {|
  read_file_text w p := ok_or (w !! p) not_found;
  get_metadata w p := match w !! p with
                      | Some _ => Ok (mkMetadata false true false)
                      | None => Err not_found
                      end;
  write_file p c w := (<[p := c]> w, Ok ());
  create_directory _ w := (w, Ok ());
  remove p w := match w !! p with
                | Some _ => (delete p w, Ok ())
                | None => (w, Err not_found)
                end;
|}.

Lemma mem_regular (w : mem) (p : list N) : regular w p ↔ is_Some (w !! p).
Proof.
  unfold regular; cbn. destruct (w !! p); naive_solver.
Qed.
Lemma mem_missing (w : mem) (p : list N) : missing w p ↔ w !! p = None.
Proof. unfold missing; cbn. destruct (w !! p); naive_solver. Qed.

#[export] Instance mem_laws : FileSystemLaws mem.
Proof.
  refine {| files := λ w : mem, w |}.
  - intros w p [t Ht]%mem_regular. cbn. rewrite Ht. cbn. naive_solver.
  - intros w p Hp%mem_missing. cbn. by rewrite Hp.
  - intros p c w w' [= <-] _. split; [done|]. intros q. rewrite !mem_regular.
    intros Hq. destruct (decide (p = q)) as [->|?]; [by rewrite lookup_insert_eq|].
    by rewrite lookup_insert_ne.
  - by intros p c w w' e [=].
  - by intros d w w' [= <-].
  - intros p w w' Hr Hp%mem_regular. cbn in Hr. destruct Hp as [t Ht]. rewrite Ht in Hr.
    by injection Hr as <-.
  - intros p w w' e s Hr Hp%mem_regular. cbn in Hr. destruct Hp as [t Ht]. by rewrite Ht in Hr.
Defined.

Definition outcome_delta {W} (o : outcome (W := W)) : AppliedPatchDelta :=
  match out_result o with Ok d => d | Err f => failure_delta f end.

Lemma apply_patch_tracks {W : Type} `{!ExecutorFileSystem W} `{!FileSystemLaws W}
    (home_dir : option str) (text cwd : str) (w : W) :
  (∀ args, parse_patch text = Ok args → Forall (renames_away home_dir cwd) (args_hunks args)) →
  let o := apply_patch home_dir text cwd w in
  let d := outcome_delta o in
  exact d = true →
  replay (delta_changes d) (files w) = files (out_world o) ∧ honest (delta_changes d) (files w).
Proof.
  cbn zeta. intros Haway. unfold apply_patch. destruct (parse_patch text) as [args|e]; [|done].
  specialize (Haway args eq_refl). unfold apply_hunks, apply_hunks_to_files.
  destruct (is_empty (args_hunks args)); [done|].
  set (s0 := mkApplyState w delta_empty (mkAffected [] [] [])).
  assert (tracks (files w) s0) as Ht by done.
  apply (apply_each_tracks home_dir _ cwd _ _ Haway) in Ht.
  unfold mbind, st_err_bind.
  destruct (apply_each home_dir cwd (args_hunks args) s0) as [s [[]|e]]; exact Ht.
Qed.

(** C6: the reported delta tells the truth.  Applying a patch none of whose hunks renames
    a file onto itself, to any file system that obeys the laws, with hunks that may fail
    anywhere (a file that cannot be read, lines that are not found, a write or a removal
    that fails), leaves a world in which, whenever the delta that comes with the result or
    with the error is marked exact, replaying it on the files before gives the files after,
    and undoing it on the files after gives the files before.  A hunk that renames a file
    onto itself is excepted because the code then removes the file it has just written and
    still calls the delta exact ([self_rename_loses_the_file]). *)
Theorem apply_patch_delta_exact {W : Type} `{!ExecutorFileSystem W} `{!FileSystemLaws W}
    (home_dir : option str) (text cwd : str) (w : W)
    (Haway : ∀ args, parse_patch text = Ok args →
                     Forall (renames_away home_dir cwd) (args_hunks args)) :
  let o := apply_patch home_dir text cwd w in
  let d := outcome_delta o in
  exact d = true →
  replay (delta_changes d) (files w) = files (out_world o) ∧
  undo (delta_changes d) (files (out_world o)) = files w.
Proof.
  cbn zeta. intros He. destruct (apply_patch_tracks home_dir text cwd w Haway He) as [<- Hh].
  split; [done|]. by apply honest_undo.
Qed.

(** A run that fails after two files were changed; its delta is exact. *)
Definition partial_patch : str := join [nl]
  [lit "*** Begin Patch"; lit "*** Add File: new.txt"; lit "+hello";
   lit "*** Update File: a.txt"; lit "*** Move to: b.txt"; lit "@@"; lit "-one"; lit "+two";
   lit "*** Update File: absent.txt"; lit "@@"; lit "-x"; lit "*** End Patch"].
Definition partial_world : mem := {[ lit "/w/a.txt" := lit "one" ++ [nl] ]}.

Lemma apply_patch_delta_exact_witness :
  let o := apply_patch None partial_patch (lit "/w") partial_world in
  is_ok (out_result o) = false ∧ exact (outcome_delta o) = true ∧
  undo (delta_changes (outcome_delta o)) (files (out_world o)) = files partial_world.
Proof.
  cbn zeta. split; [by_compute|]. split; [by_compute|].
  refine (proj2 (apply_patch_delta_exact (W := mem) None partial_patch (lit "/w") partial_world _ _)).
  - intros args H.
    assert (args_hunks args =
      [AddFile (lit "new.txt") (lit "hello" ++ [nl]);
       UpdateFile (lit "a.txt") (Some (lit "b.txt")) [mkChunk None [lit "one"] [lit "two"] false];
       UpdateFile (lit "absent.txt") None [mkChunk None [lit "x"] [] false]]) as ->.
    { transitivity (match parse_patch partial_patch with Ok a => args_hunks a | Err _ => [] end);
        [by rewrite H|by_compute]. }
    repeat constructor. by_compute.
  - by_compute.
Defined.

(** A rename onto the file itself writes it and then removes it: the file is
    gone although the run succeeds, and the delta, still marked exact, says that
    it holds the new text. *)
Example self_rename_loses_the_file :
  let patch := join [nl]
    [lit "*** Begin Patch"; lit "*** Update File: a.txt"; lit "*** Move to: ./a.txt";
     lit "@@"; lit "-one"; lit "+two"; lit "*** End Patch"] in
  let o := apply_patch None patch (lit "/w") partial_world in
  is_ok (out_result o) = true ∧ out_world o !! lit "/w/a.txt" = None ∧
  exact (outcome_delta o) = true ∧
  replay (delta_changes (outcome_delta o)) partial_world !! lit "/w/a.txt" = Some (lit "two" ++ [nl]).
Proof. repeat split; by_compute. Qed.
