(* ===== verification/TurnDiff.v ===== *)
(** * The net diff of a turn (codex-rs/core/src/turn_diff_tracker.rs)

    [TurnDiffTracker] folds the deltas of the patches of a turn into the net
    change of every file and renders it, reusing what was rendered before.  The
    part of [emit_patch_end] (core/src/tools/events.rs) that updates it and
    decides whether an event is sent is here too.

    The digest and the line diff are parameters (sha1, similar), and so is the
    order in which a [HashMap] is iterated.  The line diff runs under a limit of
    100 ms ([DIFF_TIMEOUT]), after which it settles for a coarser diff; as a
    function of the two texts it is modelled for inputs that stay within it.  The paths of a delta are normalised
    absolute paths, on which [Path] equality is equality of strings.  Contents
    that are tracked get a [u64] revision, with its wrap-around. *)

From S2P Require Import Prelude RustStr AbsPath PatchParser PatchApply PatchFs Utf8Stream.

Local Open Scope rstr_scope.

Definition ZERO_OID : str := lit "0000000000000000000000000000000000000000".
Definition DEV_NULL : str := lit "/dev/null".
Definition REGULAR_FILE_MODE : str := lit "100644".

Record TrackedContent := mkContent { content : str; revision : N }.

Record TrackedPath := mkTracked { environment_id : str; path : str }.
#[export] Instance TrackedPath_eq_dec : EqDecision TrackedPath.
Proof. solve_decision. Defined.
#[export] Program Instance TrackedPath_countable : Countable TrackedPath :=
  inj_countable' (λ p, (environment_id p, path p)) (λ x, mkTracked x.1 x.2) _.
Next Obligation. by intros []. Qed.

Record DiffCacheKey := mkKey {
  left_path : TrackedPath;
  left_revision : option N;
  right_path : TrackedPath;
  right_revision : option N;
}.
#[export] Instance DiffCacheKey_eq_dec : EqDecision DiffCacheKey.
Proof. solve_decision. Defined.
#[export] Program Instance DiffCacheKey_countable : Countable DiffCacheKey :=
  inj_countable' (λ k, (left_path k, left_revision k, right_path k, right_revision k))
    (λ x, mkKey x.1.1.1 x.1.1.2 x.1.2 x.2) _.
Next Obligation. by intros []. Qed.

Record TurnDiffTracker := mkTracker {
  valid : bool;
  display_roots_by_environment : gmap (list N) str;
  baseline_by_path : gmap TrackedPath TrackedContent;
  current_by_path : gmap TrackedPath TrackedContent;
  origin_by_current_path : gmap TrackedPath TrackedPath;
  next_revision : N;
  rendered_diffs : gmap DiffCacheKey (option str);
  unified_diff : option str;
}.

Definition tracker_default : TurnDiffTracker := mkTracker true ∅ ∅ ∅ ∅ 0 ∅ None.

(** Later pairs replace earlier ones with the same environment id. *)
Definition with_environment_display_roots (display_roots : list (str * str)) : TurnDiffTracker :=
  mkTracker true (foldl (λ m kv, <[kv.1 := kv.2]> m) ∅ display_roots) ∅ ∅ ∅ 0 ∅ None.

(** Field updates. *)
Definition with_baseline f t := mkTracker (valid t) (display_roots_by_environment t)
  (f (baseline_by_path t)) (current_by_path t) (origin_by_current_path t) (next_revision t)
  (rendered_diffs t) (unified_diff t).
Definition with_current f t := mkTracker (valid t) (display_roots_by_environment t)
  (baseline_by_path t) (f (current_by_path t)) (origin_by_current_path t) (next_revision t)
  (rendered_diffs t) (unified_diff t).
Definition with_origin f t := mkTracker (valid t) (display_roots_by_environment t)
  (baseline_by_path t) (current_by_path t) (f (origin_by_current_path t)) (next_revision t)
  (rendered_diffs t) (unified_diff t).
Definition with_revision n t := mkTracker (valid t) (display_roots_by_environment t)
  (baseline_by_path t) (current_by_path t) (origin_by_current_path t) n
  (rendered_diffs t) (unified_diff t).
Definition with_rendered v r u t := mkTracker v (display_roots_by_environment t)
  (baseline_by_path t) (current_by_path t) (origin_by_current_path t) (next_revision t) r u.

(** ** Folding a delta *)

Definition U64_SIZE : N := 2 ^ 64.

Definition tracked_content (s : str) (t : TurnDiffTracker) : TrackedContent * TurnDiffTracker :=
  (mkContent s (next_revision t), with_revision ((next_revision t + 1) mod U64_SIZE)%N t).

Definition is_tracked (p : TrackedPath) (t : TurnDiffTracker) : bool :=
  opt_is_some (current_by_path t !! p) || opt_is_some (baseline_by_path t !! p).

(** The contents a path had before the turn, noted when the path is first seen. *)
Definition note_baseline (p : TrackedPath) (old : option str) (t : TurnDiffTracker)
    : TurnDiffTracker :=
  match old with
  | Some old =>
      if negb (is_tracked p t) then
        let '(c, t) := tracked_content old t in with_baseline <[p := c]> t
      else t
  | None => t
  end.

Definition set_current (p : TrackedPath) (s : str) (t : TurnDiffTracker) : TurnDiffTracker :=
  let '(c, t) := tracked_content s t in with_current <[p := c]> t.

Definition apply_add (p : TrackedPath) (s : str) (overwritten : option str)
    (t : TurnDiffTracker) : TurnDiffTracker :=
  set_current p s (note_baseline p overwritten (with_origin (delete p) t)).

Definition apply_delete (p : TrackedPath) (s : str) (t : TurnDiffTracker) : TurnDiffTracker :=
  let removed := current_by_path t !! p in
  let t := with_current (delete p) t in
  let t := match removed with None => note_baseline p (Some s) t | Some _ => t end in
  with_origin (delete p) t.

Definition apply_update (source : TrackedPath) (move_path : option TrackedPath) (old : str)
    (overwritten_move : option str) (new : str) (t : TurnDiffTracker) : TurnDiffTracker :=
  let t := note_baseline source (Some old) t in
  match move_path with
  | Some dest =>
      let t := note_baseline dest overwritten_move t in
      let origin := default source (origin_by_current_path t !! source) in
      let t := with_origin (delete source) t in
      let t := with_current (delete source) t in
      let t := set_current dest new t in
      let t := with_origin (delete dest) t in
      if decide (dest = origin) then t else with_origin <[dest := origin]> t
  | None => set_current source new t
  end.

Definition apply_change (env : str) (t : TurnDiffTracker) (c : AppliedPatchChange)
    : TurnDiffTracker :=
  let source := mkTracked env (change_path c) in
  match file_change c with
  | ChangeAdd s overwritten => apply_add source s overwritten t
  | ChangeDelete s => apply_delete source s t
  | ChangeUpdate move_path old overwritten_move new =>
      apply_update source (mkTracked env <$> move_path) old overwritten_move new t
  end.

(** ** Rendering *)

(** The order in which [iter] visits a map. *)
Class HashIter := hash_iter : ∀ {V}, gmap TrackedPath V → list (TrackedPath * V).
Class HashIterLaw `{HI : HashIter} : Prop :=
  hash_iter_perm : ∀ {V} (m : gmap TrackedPath V), hash_iter m ≡ₚ map_to_list m.

Definition display_path (roots : gmap (list N) str) (p : TrackedPath) : str :=
  let display :=
    match root ← roots !! environment_id p; path_strip_prefix root (path p) with
    | Some rest => buf_string (reverse rest)
    | None => path p
    end in
  let display := replace_char (ch "\") (lit "/") display in
  if Nat.ltb 1 (size roots) && negb (is_empty (environment_id p))
  then environment_id p ++ lit "/" ++ display
  else display.

Definition display_le (roots : gmap (list N) str) (p q : TrackedPath) : Prop :=
  str_le (display_path roots p) (display_path roots q).
#[export] Instance display_le_dec roots : RelDecision (display_le roots).
Proof. intros p q. unfold display_le. apply _. Defined.

(** [Vec::dedup]: of equal neighbours the first is kept. *)
Fixpoint dedup (l : list TrackedPath) : list TrackedPath :=
  match l with
  | p :: (q :: _) as l' => if decide (p = q) then dedup l' else p :: dedup l'
  | _ => l
  end.

Section Rendering.
Context {HI : HashIter}.
(** The hexadecimal SHA-1 of bytes, and the unified diff of two texts by lines
    with three lines of context under the given headers. *)
Context (sha1_hex : list N → str).
Context (unified : str → str → str → str → str).

Definition git_blob_oid (data : str) : str :=
  sha1_hex (encode (lit "blob " ++ fmt_nat (length (encode data)) ++ [0%N]) ++ encode data).

Definition oid (c : option str) : str :=
  match c with Some c => git_blob_oid c | None => ZERO_OID end.

Definition render_diff (roots : gmap (list N) str) (lp : TrackedPath) (lc : option str)
    (rp : TrackedPath) (rc : option str) : option str :=
  if bool_decide (lc = rc) then None
  else
    let left_display := display_path roots lp in
    let right_display := display_path roots rp in
    let mode :=
      match lc, rc with
      | None, Some _ => Some (lit "new file mode " ++ REGULAR_FILE_MODE ++ [nl])
      | Some _, None => Some (lit "deleted file mode " ++ REGULAR_FILE_MODE ++ [nl])
      | Some _, Some _ => Some []
      | None, None => None
      end in
    mode ← mode;
    let old_header := match lc with Some _ => lit "a/" ++ left_display | None => DEV_NULL end in
    let new_header := match rc with Some _ => lit "b/" ++ right_display | None => DEV_NULL end in
    Some (lit "diff --git a/" ++ left_display ++ lit " b/" ++ right_display ++ [nl]
          ++ mode
          ++ lit "index " ++ oid lc ++ lit ".." ++ oid rc ++ [nl]
          ++ unified (default [] lc) (default [] rc) old_header new_header).

Definition rename_pair (t : TurnDiffTracker) (x : TrackedPath * TrackedPath)
    : option (TrackedPath * TrackedPath) :=
  let '(dest, origin) := x in
  if bool_decide (dest = origin)
     || opt_is_some (current_by_path t !! origin)
     || negb (opt_is_some (current_by_path t !! dest))
     || negb (opt_is_some (baseline_by_path t !! origin))
     || opt_is_some (baseline_by_path t !! dest)
  then None
  else Some (origin, dest).

(** Collected into a map: of two pairs with the same origin the one iterated
    later stays. *)
Definition rename_pairs (t : TurnDiffTracker) : gmap TrackedPath TrackedPath :=
  foldl (λ m od, <[od.1 := od.2]> m) ∅
    (omap (rename_pair t) (hash_iter (origin_by_current_path t))).

Definition sorted_paths (t : TurnDiffTracker) : list TrackedPath :=
  dedup (merge_sort (display_le (display_roots_by_environment t))
    ((hash_iter (baseline_by_path t)).*1 ++ (hash_iter (current_by_path t)).*1)).

Definition push_diff (aggregated : str) (rendered : option str) : str :=
  match rendered with
  | Some diff =>
      let aggregated := aggregated ++ diff in
      if ends_with [nl] aggregated then aggregated else aggregated ++ [nl]
  | None => aggregated
  end.

(** The variables of the loop of [refresh_unified_diff]. *)
Record refresh_state := mkRefresh {
  handled : gset TrackedPath;
  previous_diffs : gmap DiffCacheKey (option str);
  new_diffs : gmap DiffCacheKey (option str);
  aggregated : str;
}.

Definition refresh_path (t : TurnDiffTracker) (pairs : gmap TrackedPath TrackedPath)
    (paired_destinations : gset TrackedPath) (st : refresh_state) (p : TrackedPath)
    : refresh_state :=
  if decide (p ∈ handled st) then st
  else
    let handled := {[p]} ∪ handled st in
    if decide (p ∈ paired_destinations)
    then mkRefresh handled (previous_diffs st) (new_diffs st) (aggregated st)
    else
      let '(dest, handled) :=
        match pairs !! p with
        | Some dest => (dest, {[dest]} ∪ handled)
        | None => (p, handled)
        end in
      let left_content := baseline_by_path t !! p in
      let right_content := current_by_path t !! dest in
      let key := mkKey p (revision <$> left_content) dest (revision <$> right_content) in
      let rendered :=
        match previous_diffs st !! key with
        | Some rendered => rendered
        | None => render_diff (display_roots_by_environment t)
                    p (content <$> left_content) dest (content <$> right_content)
        end in
      mkRefresh handled (delete key (previous_diffs st)) (<[key := rendered]> (new_diffs st))
        (push_diff (aggregated st) rendered).

Definition refresh_unified_diff (t : TurnDiffTracker) : TurnDiffTracker :=
  let pairs := rename_pairs t in
  let st := foldl (refresh_path t pairs (list_to_set (map_to_list pairs).*2))
              (mkRefresh ∅ (rendered_diffs t) ∅ []) (sorted_paths t) in
  with_rendered (valid t) (new_diffs st)
    (if is_empty (aggregated st) then None else Some (aggregated st)) t.

Definition invalidate (t : TurnDiffTracker) : TurnDiffTracker := with_rendered false ∅ None t.

Definition track_delta (env : str) (d : AppliedPatchDelta) (t : TurnDiffTracker)
    : TurnDiffTracker :=
  if negb (valid t) then t
  else if negb (exact d) then invalidate t
  else refresh_unified_diff (foldl (apply_change env) t (delta_changes d)).

(** ** The update of [emit_patch_end] *)

Inductive TurnDiffTrackerUpdate :=
| Track (env : option str) (d : AppliedPatchDelta)
| Invalidate
| NoUpdate.

(** The tracker after the update, and the text of the event when one is sent. *)
Definition emit_turn_diff (u : TurnDiffTrackerUpdate) (t : TurnDiffTracker)
    : TurnDiffTracker * option str :=
  let had_unified_diff := opt_is_some (unified_diff t) in
  let '(t, tracker_changed) :=
    match u with
    | Track env d => (track_delta (default [] env) d t, true)
    | Invalidate => (invalidate t, true)
    | NoUpdate => (t, false)
    end in
  let should_emit := tracker_changed && (had_unified_diff || opt_is_some (unified_diff t)) in
  (t, if should_emit then Some (default [] (unified_diff t)) else None).
End Rendering.

(** ** What a tracker says of the files *)

Definition baseline_of (t : TurnDiffTracker) (q : TrackedPath) : option str :=
  content <$> baseline_by_path t !! q.
Definition current_of (t : TurnDiffTracker) (q : TrackedPath) : option str :=
  content <$> current_by_path t !! q.

(** The files of all environments, by tracked path. *)
Definition view (M : str → gmap (list N) (list N)) (q : TrackedPath) : option str :=
  M (environment_id q) !! path q.

(** A tracked path had its baseline before and has its current contents now; an
    untracked one has not changed. *)
Definition represents (t : TurnDiffTracker) (F0 F : TrackedPath → option str) : Prop :=
  ∀ q, if is_tracked q t then F0 q = baseline_of t q ∧ F q = current_of t q else F0 q = F q.

(** The tracker after path [p], which held [old], was given the contents [v]. *)
Definition updates (t t' : TurnDiffTracker) (p : TrackedPath) (v old : option str) : Prop :=
  (∀ q, q ≠ p → baseline_of t' q = baseline_of t q ∧ current_of t' q = current_of t q) ∧
  current_of t' p = v ∧
  baseline_of t' p = (if is_tracked p t then baseline_of t p else old).

Lemma is_tracked_of t q :
  is_tracked q t = opt_is_some (current_of t q) || opt_is_some (baseline_of t q).
Proof.
  unfold is_tracked, current_of, baseline_of.
  by destruct (current_by_path t !! q), (baseline_by_path t !! q).
Qed.

Lemma represents_updates t t' p v old F0 F :
  represents t F0 F → F p = old → updates t t' p v old →
  represents t' F0 (λ q, if decide (q = p) then v else F q).
Proof.
  intros Hr Ho (Hq & Hv & Hb) q. destruct (decide (q = p)) as [->|Hne].
  - specialize (Hr p). rewrite Hv, Hb, is_tracked_of, Hv, Hb.
    destruct (is_tracked p t) eqn:Et.
    + destruct Hr as [Hr _]. rewrite Hr. destruct v, (baseline_of t p); done.
    + rewrite Hr, Ho. by destruct v, old.
  - specialize (Hr q). destruct (Hq q Hne) as [E1 E2].
    by rewrite is_tracked_of, E1, E2, <-is_tracked_of.
Qed.

Lemma note_baseline_of t p old :
  (∀ q, current_of (note_baseline p old t) q = current_of t q) ∧
  (∀ q, q ≠ p → baseline_of (note_baseline p old t) q = baseline_of t q) ∧
  baseline_of (note_baseline p old t) p = if is_tracked p t then baseline_of t p else old.
Proof.
  unfold note_baseline. destruct old as [old|]; [destruct (is_tracked p t) eqn:E|]; cbn -[is_tracked].
  - done.
  - unfold baseline_of. cbn. split_and!; [done| |by rewrite lookup_insert_eq].
    intros q Hq. by rewrite lookup_insert_ne.
  - split_and!; [done|done|]. destruct (is_tracked p t) eqn:E; [done|].
    unfold is_tracked in E. apply orb_false_iff in E as [_ E]. unfold baseline_of.
    by destruct (baseline_by_path t !! p).
Qed.

Lemma set_current_of t p s q :
  current_of (set_current p s t) q = (if decide (q = p) then Some s else current_of t q) ∧
  baseline_of (set_current p s t) q = baseline_of t q.
Proof.
  split; [|done]. unfold current_of, set_current. cbn. case_decide as E.
  - by rewrite E, lookup_insert_eq.
  - by rewrite lookup_insert_ne.
Qed.

Lemma unset_current_of t p q :
  current_of (with_current (delete p) t) q = (if decide (q = p) then None else current_of t q) ∧
  baseline_of (with_current (delete p) t) q = baseline_of t q.
Proof.
  split; [|done]. unfold current_of. cbn. case_decide as E.
  - by rewrite E, lookup_delete_eq.
  - by rewrite lookup_delete_ne.
Qed.

Lemma noted_then_set t p s old : updates t (set_current p s (note_baseline p old t)) p (Some s) old.
Proof.
  destruct (note_baseline_of t p old) as (Hc & Hb & Hp).
  split_and!.
  - intros q Hq. destruct (set_current_of (note_baseline p old t) p s q) as [-> ->].
    by rewrite decide_False, Hc, Hb by done.
  - rewrite (proj1 (set_current_of _ _ _ _)). by rewrite decide_True.
  - by rewrite (proj2 (set_current_of _ _ _ _)).
Qed.

Lemma noted_then_unset t p old :
  updates t (with_current (delete p) (note_baseline p old t)) p None old.
Proof.
  destruct (note_baseline_of t p old) as (Hc & Hb & Hp).
  split_and!.
  - intros q Hq. destruct (unset_current_of (note_baseline p old t) p q) as [-> ->].
    by rewrite decide_False, Hc, Hb by done.
  - rewrite (proj1 (unset_current_of _ _ _)). by rewrite decide_True.
  - by rewrite (proj2 (unset_current_of _ _ _)).
Qed.

Lemma apply_add_updates t p s old : updates t (apply_add p s old t) p (Some s) old.
Proof. exact (noted_then_set (with_origin (delete p) t) p s old). Qed.

Lemma apply_delete_updates t p s : updates t (apply_delete p s t) p None (Some s).
Proof.
  unfold apply_delete. destruct (current_by_path t !! p) as [c|] eqn:Ec.
  - split_and!.
    + intros q Hq. change (baseline_of t q = baseline_of t q ∧
        current_of (with_current (delete p) t) q = current_of t q).
      by rewrite (proj1 (unset_current_of _ _ _)), decide_False.
    + change (current_of (with_current (delete p) t) p = None).
      by rewrite (proj1 (unset_current_of _ _ _)), decide_True.
    + unfold is_tracked. by rewrite Ec.
  - assert (current_by_path (with_current (delete p) t) = current_by_path t) as E
      by (cbn; by apply delete_id).
    destruct (note_baseline_of (with_current (delete p) t) p (Some s)) as (Hc & Hb & Hp).
    split_and!.
    + intros q Hq. split; [exact (Hb q Hq)|]. etrans; [exact (Hc q)|].
      unfold current_of. by rewrite E.
    + etrans; [exact (Hc p)|]. unfold current_of. by rewrite E, Ec.
    + etrans; [exact Hp|]. unfold is_tracked. by rewrite E.
Qed.

Lemma apply_update_updates t p old ow new :
  updates t (apply_update p None old ow new t) p (Some new) (Some old).
Proof. apply noted_then_set. Qed.

(** The final state of a move, up to the map of origins. *)
Lemma apply_update_move t p dest old ow new :
  let t' := apply_update p (Some dest) old ow new t in
  let t'' := set_current dest new (with_current (delete p)
               (note_baseline dest ow (note_baseline p (Some old) t))) in
  (∀ q, baseline_of t' q = baseline_of t'' q) ∧ (∀ q, current_of t' q = current_of t'' q).
Proof. cbn zeta. unfold apply_update. by case_decide. Qed.

Lemma note_baseline_unset t p q old :
  q ≠ p →
  (∀ r, baseline_of (with_current (delete p) (note_baseline q old t)) r
        = baseline_of (note_baseline q old (with_current (delete p) t)) r) ∧
  (∀ r, current_of (with_current (delete p) (note_baseline q old t)) r
        = current_of (note_baseline q old (with_current (delete p) t)) r).
Proof.
  intros Hq. assert (is_tracked q (with_current (delete p) t) = is_tracked q t) as E.
  { unfold is_tracked. cbn. by rewrite lookup_delete_ne by done. }
  unfold note_baseline. rewrite E. by destruct old, (is_tracked q t).
Qed.

(** [represents] only reads the contents, and files only pointwise. *)
Lemma represents_ext t t' F0 F F' :
  represents t F0 F →
  (∀ q, baseline_of t' q = baseline_of t q) → (∀ q, current_of t' q = current_of t q) →
  (∀ q, F' q = F q) → represents t' F0 F'.
Proof. intros Hr Hb Hc HF q. rewrite is_tracked_of, Hb, Hc, HF, <-is_tracked_of. apply Hr. Qed.

Definition fn_insert {V} (e : str) (v : V) (M : str → V) : str → V :=
  λ e', if decide (e' = e) then v else M e'.

Lemma fn_insert_twice {V} e (v w : V) M e' : fn_insert e w (fn_insert e v M) e' = fn_insert e w M e'.
Proof. unfold fn_insert. by case_decide. Qed.

Lemma view_insert M e (p : str) v q :
  view (fn_insert e (restore p v (M e)) M) q
  = if decide (q = mkTracked e p) then v else view M q.
Proof.
  destruct q as [e' p']. unfold view, fn_insert, restore. cbn. destruct (decide (e' = e)) as [->|He].
  - destruct (decide (p' = p)) as [->|Hp].
    + rewrite decide_True by done. destruct v; [by rewrite lookup_insert_eq|by rewrite lookup_delete_eq].
    + rewrite decide_False by congruence. destruct v; [by rewrite lookup_insert_ne|by rewrite lookup_delete_ne].
  - by rewrite decide_False by congruence.
Qed.

Lemma represents_set t t' M e (p : str) v old F0 :
  represents t F0 (view M) → M e !! p = old → updates t t' (mkTracked e p) v old →
  represents t' F0 (view (fn_insert e (restore p v (M e)) M)).
Proof.
  intros Hr Ho Hu. eapply represents_ext; [exact (represents_updates _ _ (mkTracked e p) _ _ _ _ Hr Ho Hu)|done|done|].
  intros q. apply view_insert.
Qed.

(** What an honest change says it replaced is what was there. *)
Lemma honest_replaced (c : AppliedPatchChange) (m : gmap (list N) (list N)) :
  undo_change c (replay_change c m) = m →
  match file_change c with
  | ChangeAdd _ overwritten => m !! change_path c = overwritten
  | ChangeDelete s => m !! change_path c = Some s
  | ChangeUpdate None old _ _ => m !! change_path c = Some old
  | ChangeUpdate (Some dest) old overwritten _ =>
      m !! change_path c = Some old ∧ (dest ≠ change_path c → m !! dest = overwritten)
  end.
Proof.
  destruct c as [p [s ow|s|[dest|] old ow new]]; unfold undo_change, replay_change; cbn;
    intros Hm.
  - rewrite <-Hm at 1. destruct ow; [apply lookup_insert_eq|apply lookup_delete_eq].
  - rewrite <-Hm at 1. apply lookup_insert_eq.
  - split; [rewrite <-Hm at 1; apply lookup_insert_eq|]. intros Hne.
    rewrite <-Hm at 1. rewrite lookup_insert_ne by done.
    destruct ow; [apply lookup_insert_eq|apply lookup_delete_eq].
  - rewrite <-Hm at 1. apply lookup_insert_eq.
Qed.

Lemma apply_move_represents t M e (p dest : str) old ow new F0 :
  dest ≠ p → represents t F0 (view M) → M e !! p = Some old → M e !! dest = ow →
  represents (apply_update (mkTracked e p) (Some (mkTracked e dest)) old ow new t) F0
    (view (fn_insert e (<[dest := new]> (delete p (M e))) M)).
Proof.
  intros Hne Hr Hp Hd. assert (mkTracked e dest ≠ mkTracked e p) as Hne' by congruence.
  set (t1 := with_current (delete (mkTracked e p)) (note_baseline (mkTracked e p) (Some old) t)).
  set (M1 := fn_insert e (delete p (M e)) M).
  assert (represents t1 F0 (view M1)) as H1
    by exact (represents_set t t1 M e p None _ F0 Hr Hp (noted_then_unset _ _ _)).
  assert (M1 e = delete p (M e)) as HM1 by (unfold M1, fn_insert; by rewrite decide_True).
  assert (M1 e !! dest = ow) as Hd1 by (rewrite HM1, lookup_delete_ne by congruence; exact Hd).
  pose proof (represents_set t1 _ M1 e dest (Some new) ow F0 H1 Hd1 (noted_then_set _ _ _ _)) as H2.
  destruct (apply_update_move t (mkTracked e p) (mkTracked e dest) old ow new) as [Eb Ec].
  destruct (note_baseline_unset (note_baseline (mkTracked e p) (Some old) t) _ _ ow Hne') as [Ub Uc].
  eapply represents_ext; [exact H2| | |].
  - intros q. rewrite Eb, !(proj2 (set_current_of _ _ _ _)). apply Ub.
  - intros q. rewrite Ec, !(proj1 (set_current_of _ _ _ _)). case_decide; [done|]. apply Uc.
  - intros q. unfold view. rewrite HM1. unfold M1. by rewrite fn_insert_twice.
Qed.

Lemma apply_change_represents t M e (c : AppliedPatchChange) F0 :
  represents t F0 (view M) → undo_change c (replay_change c (M e)) = M e →
  represents (apply_change e t c) F0 (view (fn_insert e (replay_change c (M e)) M)).
Proof.
  intros Hr Hh%honest_replaced. destruct c as [p [s ow|s|[dest|] old ow new]]; cbn in *.
  - exact (represents_set _ _ M e p (Some s) _ F0 Hr Hh (apply_add_updates _ _ _ _)).
  - exact (represents_set _ _ M e p None _ F0 Hr Hh (apply_delete_updates _ _ _)).
  - destruct Hh as [Hp Hd]. destruct (decide (dest = p)) as [->|Hne]; [|by apply apply_move_represents; auto].
    pose proof (represents_set _ _ M e p (Some new) _ F0 Hr Hp (noted_then_set _ _ _ _)) as H1.
    destruct (apply_update_move t (mkTracked e p) (mkTracked e p) old ow new) as [Eb Ec].
    set (t1 := note_baseline (mkTracked e p) (Some old) t) in *.
    assert (is_tracked (mkTracked e p) t1 = true) as Htr.
    { rewrite is_tracked_of. destruct (note_baseline_of t (mkTracked e p) (Some old)) as (C1 & _ & C2).
      fold t1 in C1, C2. rewrite C1, C2. destruct (is_tracked (mkTracked e p) t) eqn:E; [|apply orb_true_r].
      by rewrite is_tracked_of in E. }
    assert (note_baseline (mkTracked e p) ow t1 = t1) as En.
    { unfold note_baseline. by destruct ow; rewrite ?Htr. }
    rewrite En in Eb, Ec.
    eapply represents_ext; [exact H1| | |].
    + intros q. by rewrite Eb, !(proj2 (set_current_of _ _ _ _)).
    + intros q. rewrite Ec, !(proj1 (set_current_of _ _ _ _)). case_decide; [done|].
      by rewrite (proj1 (unset_current_of _ _ _)), decide_False.
    + intros q. unfold view, fn_insert. case_decide; [|done]. cbn. by rewrite insert_delete_eq.
  - exact (represents_set _ _ M e p (Some new) _ F0 Hr Hh (apply_update_updates _ _ _ ow _)).
Qed.

Lemma apply_changes_represents t M e cs F0 :
  represents t F0 (view M) → honest cs (M e) →
  represents (foldl (apply_change e) t cs) F0 (view (fn_insert e (replay cs (M e)) M)).
Proof.
  revert t M. induction cs as [|c cs IH]; intros t M Hr Hh; cbn [foldl].
  - eapply represents_ext; [exact Hr|done|done|]. intros q. unfold view, fn_insert.
    case_decide as E; [|done]. cbn. by rewrite E.
  - destruct Hh as [Hc Hh]. pose proof (apply_change_represents _ _ _ _ _ Hr Hc) as H1.
    set (M1 := fn_insert e (replay_change c (M e)) M) in *.
    assert (M1 e = replay_change c (M e)) as E by (unfold M1, fn_insert; by rewrite decide_True).
    specialize (IH _ M1 H1). rewrite E in IH. specialize (IH Hh).
    eapply represents_ext; [exact IH|done|done|]. intros q. unfold view, M1.
    by rewrite fn_insert_twice.
Qed.

(** ** The cache of rendered diffs *)

Section Cache.
Context {HI : HashIter} {HL : HashIterLaw}.
Context (sha1_hex : list N → str) (unified : str → str → str → str → str).

(** [G] gives the contents of every revision ever handed out. *)
Definition rev_content (G : gmap N str) (r : option N) (c : option str) : Prop :=
  match r, c with
  | None, None => True
  | Some r, Some c => G !! r = Some c
  | _, _ => False
  end.

Definition tracked_in (G : gmap N str) (m : gmap TrackedPath TrackedContent) : Prop :=
  map_Forall (λ _ c, G !! revision c = Some (content c)) m.

Definition cached_in (G : gmap N str) (roots : gmap (list N) str) (k : DiffCacheKey)
    (v : option str) : Prop :=
  ∃ lc rc, rev_content G (left_revision k) lc ∧ rev_content G (right_revision k) rc ∧
    v = render_diff sha1_hex unified roots (left_path k) lc (right_path k) rc.

Definition cache_in (G : gmap N str) (roots : gmap (list N) str)
    (m : gmap DiffCacheKey (option str)) : Prop := map_Forall (cached_in G roots) m.

(** At most [n] revisions were handed out, and the cache holds what rendering
    the contents of its revisions gives. *)
Definition cache_ok (n : N) (t : TurnDiffTracker) : Prop :=
  (next_revision t <= n)%N ∧ ∃ G : gmap N str,
    (∀ r s, G !! r = Some s → (r < next_revision t)%N) ∧
    tracked_in G (baseline_by_path t) ∧ tracked_in G (current_by_path t) ∧
    cache_in G (display_roots_by_environment t) (rendered_diffs t).

Lemma rev_content_fresh G r s ro c :
  G !! r = None → rev_content G ro c → rev_content (<[r := s]> G) ro c.
Proof.
  intros Hr. destruct ro as [ro|], c as [c|]; cbn; try done. intros H.
  rewrite lookup_insert_ne; [done|congruence].
Qed.

Lemma tracked_in_fresh G r s m : G !! r = None → tracked_in G m → tracked_in (<[r := s]> G) m.
Proof.
  intros Hr Hm q c Hc. specialize (Hm q c Hc). cbn in Hm.
  rewrite lookup_insert_ne; [done|congruence].
Qed.

Lemma cache_in_fresh G r s roots m :
  G !! r = None → cache_in G roots m → cache_in (<[r := s]> G) roots m.
Proof.
  intros Hr Hm k v Hk. destruct (Hm k v Hk) as (lc & rc & ? & ? & ?).
  exists lc, rc. split_and!; [by apply rev_content_fresh..|done].
Qed.

Lemma fresh_revision t (G : gmap N str) :
  (∀ r s, G !! r = Some s → (r < next_revision t)%N) → G !! next_revision t = None.
Proof. intros H. apply eq_None_ne_Some. intros s E%H. lia. Qed.

(** Handing out a revision for contents that go to one of the two maps. *)
Lemma cache_ok_track n t s p (g : bool) :
  cache_ok n t → (n + 1 < U64_SIZE)%N →
  let '(c, t') := tracked_content s t in
  cache_ok (n + 1) (if g then with_baseline <[p := c]> t' else with_current <[p := c]> t').
Proof.
  intros (Hn & G & Hlt & Hb & Hc & Hd) Hw. cbn.
  pose proof (fresh_revision t G Hlt) as Hf.
  assert (((next_revision t + 1) mod U64_SIZE = next_revision t + 1)%N) as Em by (apply N.mod_small; lia).
  split; [destruct g; cbn; lia|].
  exists (<[next_revision t := s]> G). split_and!.
  - intros r s' [[<- _]|[_ ?%Hlt]]%lookup_insert_Some; destruct g; cbn; lia.
  - destruct g; [|by apply tracked_in_fresh]. apply map_Forall_insert_2; [apply lookup_insert_eq|].
    by apply tracked_in_fresh.
  - destruct g; [by apply tracked_in_fresh|]. apply map_Forall_insert_2; [apply lookup_insert_eq|].
    by apply tracked_in_fresh.
  - destruct g; by apply cache_in_fresh.
Qed.

Lemma cache_ok_weaken n m t : cache_ok n t → (n <= m)%N → cache_ok m t.
Proof. intros (? & ?) ?. split; [lia|done]. Qed.

Lemma cache_ok_note n t p old :
  cache_ok n t → (n + 1 < U64_SIZE)%N → cache_ok (n + 1) (note_baseline p old t).
Proof.
  intros Ht Hn. unfold note_baseline. destruct old as [old|]; [destruct (negb _)|].
  - exact (cache_ok_track n t old p true Ht Hn).
  - apply (cache_ok_weaken n); [done|lia].
  - apply (cache_ok_weaken n); [done|lia].
Qed.

Lemma cache_ok_set n t p s :
  cache_ok n t → (n + 1 < U64_SIZE)%N → cache_ok (n + 1) (set_current p s t).
Proof. exact (cache_ok_track n t s p false). Qed.

Lemma cache_ok_unset n t p : cache_ok n t → cache_ok n (with_current (delete p) t).
Proof.
  intros (? & G & ? & ? & Hc & ?). split; [done|]. exists G. split_and!; try done.
  by apply map_Forall_delete.
Qed.

Lemma cache_ok_origin n t f : cache_ok n t → cache_ok n (with_origin f t).
Proof. done. Qed.

(** A change hands out at most three revisions. *)
Lemma cache_ok_change n t e c :
  cache_ok n t → (n + 3 < U64_SIZE)%N → cache_ok (n + 3) (apply_change e t c).
Proof.
  intros Ht Hn. destruct c as [p [s ow|s|[dest|] old ow new]]; cbn [apply_change file_change].
  - apply (cache_ok_weaken (n + 1 + 1)); [|lia].
    apply cache_ok_set; [apply cache_ok_note; [done|lia]|lia].
  - apply (cache_ok_weaken (n + 1)); [|lia]. unfold apply_delete. apply cache_ok_origin.
    apply (cache_ok_unset _ _ (mkTracked e p)) in Ht.
    destruct (current_by_path t !! _); [apply (cache_ok_weaken n); [done|lia]|].
    apply cache_ok_note; [done|lia].
  - apply (cache_ok_weaken (n + 1 + 1 + 1)); [|lia].
    change (mkTracked e <$> Some dest) with (Some (mkTracked e dest)).
    set (q := mkTracked e p). set (d := mkTracked e dest).
    assert (cache_ok (n + 1 + 1 + 1) (set_current d new (with_current (delete q)
      (with_origin (delete q) (note_baseline d ow (note_baseline q (Some old) t)))))) as H.
    { apply cache_ok_set; [|lia]. apply cache_ok_unset, cache_ok_origin, cache_ok_note; [|lia].
      apply cache_ok_note; [done|lia]. }
    unfold apply_update. case_decide; exact H.
  - apply (cache_ok_weaken (n + 1 + 1)); [|lia].
    apply cache_ok_set; [apply cache_ok_note; [done|lia]|lia].
Qed.

Lemma cache_ok_changes n t e cs :
  cache_ok n t → (n + 3 * N.of_nat (length cs) < U64_SIZE)%N →
  cache_ok (n + 3 * N.of_nat (length cs)) (foldl (apply_change e) t cs).
Proof.
  revert n t. induction cs as [|c cs IH]; intros n t Ht Hn; cbn [length foldl] in *.
  - apply (cache_ok_weaken n); [done|lia].
  - apply (cache_ok_weaken (n + 3 + 3 * N.of_nat (length cs))); [|lia].
    apply IH; [apply cache_ok_change; [done|lia]|lia].
Qed.
End Cache.

(** ** The entries of the diff *)

(** The first occurrences of the elements of a list. *)
Fixpoint firsts (seen : gset TrackedPath) (l : list TrackedPath) : list TrackedPath :=
  match l with
  | [] => []
  | p :: l => if decide (p ∈ seen) then firsts seen l else p :: firsts ({[p]} ∪ seen) l
  end.

Lemma firsts_elem seen l p : p ∈ firsts seen l ↔ p ∈ l ∧ (p ∉ seen).
Proof.
  revert seen. induction l as [|q l IH]; intros seen; cbn [firsts]; [set_solver|].
  case_decide as Hq; [rewrite IH; set_solver|].
  rewrite elem_of_cons, IH. destruct (decide (p = q)) as [->|]; set_solver.
Qed.

Lemma firsts_NoDup seen l : NoDup (firsts seen l).
Proof.
  revert seen. induction l as [|q l IH]; intros seen; cbn [firsts]; [constructor|].
  case_decide; [done|]. constructor; [|done]. rewrite firsts_elem. set_solver.
Qed.

Lemma dedup_elem l p : p ∈ dedup l ↔ p ∈ l.
Proof.
  induction l as [|q [|r l] IH]; [done|done|]. cbn [dedup] in *. case_decide as E.
  - rewrite IH. subst. set_solver.
  - rewrite elem_of_cons, IH. set_solver.
Qed.

Definition destinations (pairs : gmap TrackedPath TrackedPath) : gset TrackedPath :=
  list_to_set (map_to_list pairs).*2.

Lemma destinations_elem pairs d : d ∈ destinations pairs ↔ ∃ o, pairs !! o = Some d.
Proof.
  unfold destinations. rewrite elem_of_list_to_set, list_elem_of_fmap. split.
  - intros ([o d'] & -> & H%elem_of_map_to_list). eauto.
  - intros [o H]. exists (o, d). split; [done|]. by apply elem_of_map_to_list.
Qed.

Section Entries.
Context {HI : HashIter} {HL : HashIterLaw}.
Context (sha1_hex : list N → str) (unified : str → str → str → str → str).

Definition entries_from (pairs : gmap TrackedPath TrackedPath) (seen : gset TrackedPath)
    (l : list TrackedPath) : list (TrackedPath * TrackedPath) :=
  (λ p, (p, default p (pairs !! p))) <$> filter (λ p, p ∉ destinations pairs) (firsts seen l).

(** The pairs of paths a diff is rendered for: each tracked path with itself,
    but a renamed file with its destination. *)
Definition diff_entries (t : TurnDiffTracker) : list (TrackedPath * TrackedPath) :=
  entries_from (rename_pairs t) ∅ (sorted_paths t).

Definition render_entry (t : TurnDiffTracker) (e : TrackedPath * TrackedPath) : option str :=
  render_diff sha1_hex unified (display_roots_by_environment t)
    e.1 (baseline_of t e.1) e.2 (current_of t e.2).

Definition diff_text (t : TurnDiffTracker) : str :=
  foldl push_diff [] (render_entry t <$> diff_entries t).

Lemma cached_render G t p r v :
  tracked_in G (baseline_by_path t) → tracked_in G (current_by_path t) →
  cached_in sha1_hex unified G (display_roots_by_environment t)
    (mkKey p (revision <$> baseline_by_path t !! p) r (revision <$> current_by_path t !! r)) v →
  v = render_entry t (p, r).
Proof.
  intros Hb Hc (lc & rc & Hl & Hr & ->). cbn in *.
  unfold render_entry, baseline_of, current_of. cbn.
  f_equal.
  - destruct (baseline_by_path t !! p) as [c|] eqn:E, lc as [lc|]; cbn in *; try done.
    rewrite (Hb _ _ E) in Hl. congruence.
  - destruct (current_by_path t !! r) as [c|] eqn:E, rc as [rc|]; cbn in *; try done.
    rewrite (Hc _ _ E) in Hr. congruence.
Qed.

Lemma fresh_render G t p r :
  tracked_in G (baseline_by_path t) → tracked_in G (current_by_path t) →
  cached_in sha1_hex unified G (display_roots_by_environment t)
    (mkKey p (revision <$> baseline_by_path t !! p) r (revision <$> current_by_path t !! r))
    (render_entry t (p, r)).
Proof.
  intros Hb Hc. exists (baseline_of t p), (current_of t r).
  unfold baseline_of, current_of. split_and!; [| |done].
  - cbn. destruct (baseline_by_path t !! p) as [c|] eqn:E; [|done]. exact (Hb _ _ E).
  - cbn. destruct (current_by_path t !! r) as [c|] eqn:E; [|done]. exact (Hc _ _ E).
Qed.

(** One path of the loop: what is shown and cached is a fresh rendering. *)
Lemma refresh_path_spec G t pairs st p r :
  tracked_in G (baseline_by_path t) → tracked_in G (current_by_path t) →
  cache_in sha1_hex unified G (display_roots_by_environment t) (previous_diffs st) →
  (p ∉ handled st) → (p ∉ destinations pairs) → default p (pairs !! p) = r →
  ∃ h key, refresh_path sha1_hex unified t pairs (destinations pairs) st p
    = mkRefresh h (delete key (previous_diffs st)) (<[key := render_entry t (p, r)]> (new_diffs st))
        (push_diff (aggregated st) (render_entry t (p, r))) ∧
    {[p]} ∪ handled st ⊆ h ∧ h ⊆ {[p]} ∪ handled st ∪ destinations pairs ∧
    cached_in sha1_hex unified G (display_roots_by_environment t) key (render_entry t (p, r)).
Proof.
  intros Hb Hc Hp Hh Hd Hr. unfold refresh_path. rewrite (decide_False _ _ Hh), (decide_False _ _ Hd).
  set (key := mkKey p (revision <$> baseline_by_path t !! p) r
                (revision <$> current_by_path t !! r)).
  assert ((match previous_diffs st !! key with
           | Some rendered => rendered
           | None => render_diff sha1_hex unified (display_roots_by_environment t)
                       p (baseline_of t p) r (current_of t r)
           end) = render_entry t (p, r)) as E.
  { destruct (previous_diffs st !! key) as [v|] eqn:Ek; [|done].
    apply (cached_render G t); [done|done|]. exact (Hp key v Ek). }
  pose proof (fresh_render G t p r Hb Hc) as Hf.
  destruct (pairs !! p) as [d|] eqn:Ep; cbn in Hr; subst r; fold key;
    fold (baseline_of t p).
  - exists ({[d]} ∪ ({[p]} ∪ handled st)), key. fold (current_of t d). rewrite E. split_and!; [done|set_solver| |done].
    assert (d ∈ destinations pairs) by (apply destinations_elem; eauto). set_solver.
  - exists ({[p]} ∪ handled st), key. fold (current_of t p). rewrite E. split_and!; [done|set_solver|set_solver|done].
Qed.

Lemma entries_from_cons pairs seen p l :
  entries_from pairs seen (p :: l)
  = (if decide (p ∈ seen) then [] else
     if decide (p ∈ destinations pairs) then [] else [(p, default p (pairs !! p))])
    ++ entries_from pairs ({[p]} ∪ seen) l.
Proof.
  unfold entries_from. cbn [firsts]. destruct (decide (p ∈ seen)) as [Hp|Hp].
  - by replace ({[p]} ∪ seen) with seen by set_solver.
  - rewrite filter_cons. destruct (decide (p ∈ destinations pairs)) as [Hd|Hd].
    + by rewrite decide_False by (intros ?; done).
    + by rewrite decide_True by done.
Qed.

Lemma refresh_loop G t pairs l : ∀ st seen,
  tracked_in G (baseline_by_path t) → tracked_in G (current_by_path t) →
  cache_in sha1_hex unified G (display_roots_by_environment t) (previous_diffs st) →
  cache_in sha1_hex unified G (display_roots_by_environment t) (new_diffs st) →
  seen ⊆ handled st → handled st ⊆ seen ∪ destinations pairs →
  let st' := foldl (refresh_path sha1_hex unified t pairs (destinations pairs)) st l in
  aggregated st' = foldl push_diff (aggregated st) (render_entry t <$> entries_from pairs seen l) ∧
  cache_in sha1_hex unified G (display_roots_by_environment t) (new_diffs st').
Proof.
  induction l as [|p l IH]; intros st seen Hb Hc Hp Hn H1 H2; [done|].
  cbn [foldl]. rewrite entries_from_cons, fmap_app, foldl_app.
  destruct (decide (p ∈ handled st)) as [Hh|Hh].
  { assert (refresh_path sha1_hex unified t pairs (destinations pairs) st p = st) as ->
      by (unfold refresh_path; by rewrite (decide_True _ _ Hh)).
    destruct (IH st ({[p]} ∪ seen) Hb Hc Hp Hn) as [-> ?]; [set_solver|set_solver|].
    split; [|done]. destruct (decide (p ∈ seen)); [done|]. by rewrite decide_True by set_solver. }
  rewrite (decide_False (P := p ∈ seen)) by set_solver.
  destruct (decide (p ∈ destinations pairs)) as [Hd|Hd].
  { assert (refresh_path sha1_hex unified t pairs (destinations pairs) st p
      = mkRefresh ({[p]} ∪ handled st) (previous_diffs st) (new_diffs st) (aggregated st)) as ->
      by (unfold refresh_path; by rewrite (decide_False _ _ Hh), (decide_True _ _ Hd)).
    apply (IH (mkRefresh _ _ _ _) ({[p]} ∪ seen)); cbn; [done..|set_solver|set_solver]. }
  destruct (refresh_path_spec G t pairs st p _ Hb Hc Hp Hh Hd eq_refl) as (h & key & -> & Hh1 & Hh2 & Hk).
  assert ({[p]} ∪ seen ⊆ h) by (clear -H1 Hh1; set_solver).
  assert (h ⊆ {[p]} ∪ seen ∪ destinations pairs) by (clear -H2 Hh2; set_solver).
  apply (IH (mkRefresh _ _ _ _) ({[p]} ∪ seen)); cbn; [done|done| | |done|done].
  - by apply map_Forall_delete.
  - apply map_Forall_insert_2; [exact Hk|exact Hn].
Qed.

(** The incremental refresh shows what rendering every entry afresh would show,
    and leaves a coherent cache. *)
Lemma refresh_is_fresh n t :
  cache_ok sha1_hex unified n t →
  unified_diff (refresh_unified_diff sha1_hex unified t)
  = (if is_empty (diff_text t) then None else Some (diff_text t)) ∧
  cache_ok sha1_hex unified n (refresh_unified_diff sha1_hex unified t).
Proof.
  intros (Hn & G & Hlt & Hb & Hc & Hd).
  destruct (refresh_loop G t (rename_pairs t) (sorted_paths t)
    (mkRefresh ∅ (rendered_diffs t) ∅ []) ∅) as [Ha Hr]; cbn; try done.
  unfold refresh_unified_diff. fold (destinations (rename_pairs t)). cbn.
  rewrite Ha. split; [done|]. split; [done|]. exists G. split_and!; done.
Qed.

(** ** Renames *)

Lemma foldl_insert_Some (l : list (TrackedPath * TrackedPath)) m o d :
  foldl (λ (m : gmap TrackedPath TrackedPath) od, <[od.1 := od.2]> m) m l !! o = Some d →
  m !! o = Some d ∨ (o, d) ∈ l.
Proof.
  revert m. induction l as [|[o' d'] l IH]; intros m H; cbn in *; [by left|].
  apply IH in H as [[[-> ->]|[_ ?]]%lookup_insert_Some|?]; set_solver.
Qed.

(** Only the destination of a rename is there now, and only its origin was there
    before. *)
Lemma rename_pairs_spec t o d :
  rename_pairs t !! o = Some d →
  d ≠ o ∧ origin_by_current_path t !! d = Some o ∧
  current_of t o = None ∧ is_Some (current_of t d) ∧
  is_Some (baseline_of t o) ∧ baseline_of t d = None.
Proof.
  intros [?|H]%foldl_insert_Some; [done|].
  apply list_elem_of_omap in H as ([d' o'] & Hi & H). rewrite hash_iter_perm in Hi.
  apply elem_of_map_to_list in Hi. unfold rename_pair in H.
  destruct (bool_decide_reflect (d' = o')); [done|]. unfold current_of, baseline_of.
  destruct (current_by_path t !! o') eqn:E1; [done|]. destruct (current_by_path t !! d') eqn:E2; [|done].
  destruct (baseline_by_path t !! o') eqn:E3; [|done]. destruct (baseline_by_path t !! d') eqn:E4; [done|].
  cbn in H. simplify_eq. rewrite E1, E2, E3, E4. cbn. split_and!; try done; eauto.
Qed.

Lemma sorted_paths_elem t q : q ∈ sorted_paths t ↔ is_tracked q t = true.
Proof.
  unfold sorted_paths. rewrite dedup_elem, merge_sort_Permutation, elem_of_app.
  rewrite !hash_iter_perm, !list_elem_of_fmap. unfold is_tracked.
  assert (∀ m : gmap TrackedPath TrackedContent,
    (∃ y, q = y.1 ∧ y ∈ map_to_list m) ↔ opt_is_some (m !! q) = true) as E.
  { intros m. split.
    - intros ([q' c] & -> & H%elem_of_map_to_list). cbn. by rewrite H.
    - destruct (m !! q) as [c|] eqn:Em; [|done]. intros _. exists (q, c).
      split; [done|]. by apply elem_of_map_to_list. }
  rewrite !E, orb_true_iff. tauto.
Qed.

(** What applying a rendered entry does to the files. *)
Definition apply_entry (t : TurnDiffTracker) (F : TrackedPath → option str)
    (e : TrackedPath * TrackedPath) : TrackedPath → option str :=
  λ q, if decide (q = e.2) then current_of t e.2 else if decide (q = e.1) then None else F q.

Definition touches (q : TrackedPath) (e : TrackedPath * TrackedPath) : bool :=
  bool_decide (q = e.1) || bool_decide (q = e.2).

Lemma diff_entries_elem t e :
  e ∈ diff_entries t ↔
  is_tracked e.1 t = true ∧ (e.1 ∉ destinations (rename_pairs t)) ∧
  e.2 = default e.1 (rename_pairs t !! e.1).
Proof.
  unfold diff_entries, entries_from. rewrite list_elem_of_fmap. setoid_rewrite list_elem_of_filter.
  setoid_rewrite firsts_elem. setoid_rewrite sorted_paths_elem. split.
  - intros (p & -> & ? & ? & ?). done.
  - destruct e as [p r]; cbn. intros (? & ? & ->). exists p. split_and!; set_solver.
Qed.

Lemma apply_entries_at t es F q :
  (∀ e, e ∈ es → e ∈ diff_entries t) →
  foldl (apply_entry t) F es q = if any (touches q) es then current_of t q else F q.
Proof.
  revert F. induction es as [|e es IH]; intros F He; [done|]. cbn [foldl any existsb].
  rewrite IH by set_solver. fold (any (touches q) es). destruct (any (touches q) es); [by rewrite orb_true_r|].
  rewrite orb_false_r. specialize (He e (list_elem_of_here _ _)).
  apply diff_entries_elem in He as (_ & _ & He2). unfold apply_entry, touches.
  destruct (decide (q = e.2)) as [->|H2].
  { by rewrite (bool_decide_true (e.2 = e.2)), orb_true_r. }
  rewrite (bool_decide_false (q = e.2)), orb_false_r by done.
  destruct (decide (q = e.1)) as [->|H1]; [|by rewrite bool_decide_false].
  rewrite bool_decide_true by done. destruct (rename_pairs t !! e.1) as [d|] eqn:Ed; cbn in He2; [|done].
  by apply rename_pairs_spec in Ed as (_ & _ & -> & _).
Qed.

(** The entries turn the files before the turn into the files now. *)
Lemma diff_entries_exact t F0 F q :
  represents t F0 F → foldl (apply_entry t) F0 (diff_entries t) q = F q.
Proof.
  intros Hr. rewrite apply_entries_at by done. specialize (Hr q).
  destruct (any (touches q) (diff_entries t)) eqn:Ea.
  - apply any_true in Ea as (e & He & Ht). apply diff_entries_elem in He as (H1 & _ & H2).
    assert (is_tracked q t = true) as Hq; [|by rewrite Hq in Hr; destruct Hr].
    apply orb_true_iff in Ht as [->%bool_decide_eq_true| ->%bool_decide_eq_true]; [done|].
    destruct (rename_pairs t !! e.1) as [d|] eqn:Ed; cbn in H2; rewrite H2; [|done].
    apply rename_pairs_spec in Ed as (_ & _ & _ & [c Hc] & _). by rewrite is_tracked_of, Hc.
  - destruct (is_tracked q t) eqn:Eq; [|done]. exfalso.
    destruct (decide (q ∈ destinations (rename_pairs t))) as [[o Ho]%destinations_elem|Hd].
    + assert ((o, q) ∈ diff_entries t) as Hi.
      { apply diff_entries_elem; cbn. rewrite Ho.
        destruct (rename_pairs_spec _ _ _ Ho) as (_ & _ & Hc & _ & [b Hb] & _).
        split_and!; [by rewrite is_tracked_of, Hb, orb_true_r| |done].
        intros [o' [_ (_ & _ & [? ?] & _)]%rename_pairs_spec]%destinations_elem. congruence. }
      rewrite any_false in Ea. specialize (Ea _ Hi). unfold touches in Ea. cbn in Ea.
      by rewrite (bool_decide_true (q = q)), orb_true_r in Ea.
    + assert ((q, default q (rename_pairs t !! q)) ∈ diff_entries t) as Hi by (by apply diff_entries_elem).
      rewrite any_false in Ea. specialize (Ea _ Hi). unfold touches in Ea. cbn in Ea.
      by rewrite (bool_decide_true (q = q)) in Ea.
Qed.

Lemma diff_entries_NoDup t : NoDup (diff_entries t).*1.
Proof.
  unfold diff_entries, entries_from. rewrite <-list_fmap_compose.
  rewrite (list_fmap_ext _ id) by done. rewrite list_fmap_id. apply NoDup_filter, firsts_NoDup.
Qed.
End Entries.

(** ** A turn *)

Section Turn.
Context {W : Type} `{!ExecutorFileSystem W} `{!FileSystemLaws W}.
Context (home_dir : option str).
Context {HI : HashIter} {HL : HashIterLaw}.
Context (sha1_hex : list N → str) (unified : str → str → str → str → str).

Local Abbreviation text t := (diff_text sha1_hex unified t).

Lemma push_diff_nil a r : push_diff a r = [] ↔ a = [] ∧ r = None.
Proof.
  split; [|by intros [-> ->]]. destruct r as [d|]; cbn; [|done].
  destruct (ends_with [nl] (a ++ d)) eqn:E; [|by intros [_ ?]%app_nil].
  intros H. by rewrite H in E.
Qed.

Lemma push_diffs_nil a l : foldl push_diff a l = [] ↔ a = [] ∧ ∀ r, r ∈ l → r = None.
Proof.
  revert a. induction l as [|r l IH]; intros a; cbn [foldl]; [set_solver|].
  rewrite IH, push_diff_nil. set_solver.
Qed.

Lemma render_diff_None roots lp lc rp rc :
  render_diff sha1_hex unified roots lp lc rp rc = None ↔ lc = rc.
Proof.
  unfold render_diff. case_bool_decide as E; [done|]. split; [|done].
  by destruct lc, rc.
Qed.

Lemma text_nil t :
  text t = [] ↔ ∀ e, e ∈ diff_entries t → baseline_of t e.1 = current_of t e.2.
Proof.
  unfold diff_text. rewrite push_diffs_nil. split.
  - intros [_ H] e He.
    apply (proj1 (render_diff_None (display_roots_by_environment t) e.1 _ e.2 _)), H.
    apply list_elem_of_fmap. by exists e.
  - intros H. split; [done|]. intros r (e & -> & He)%list_elem_of_fmap.
    apply render_diff_None. by apply H.
Qed.

(** ** Tracking the deltas of a turn *)

Definition track_all (ds : list (str * AppliedPatchDelta)) (t : TurnDiffTracker)
    : TurnDiffTracker := foldl (λ t ed, track_delta sha1_hex unified ed.1 ed.2 t) t ds.

Definition changes_in (ds : list (str * AppliedPatchDelta)) : N :=
  N.of_nat (sum_list_with (λ ed, length (delta_changes ed.2)) ds).

(** Either the tracker was invalidated and shows nothing, or it represents the
    files and shows exactly its entries. *)
Definition tracker_inv (n : N) (F0 F : TrackedPath → option str) (t : TurnDiffTracker) : Prop :=
  if valid t then
    cache_ok sha1_hex unified n t ∧ represents t F0 F ∧
    unified_diff t = if is_empty (text t) then None else Some (text t)
  else unified_diff t = None.

Lemma track_delta_inv n e d t F0 M :
  tracker_inv n F0 (view M) t →
  (n + 3 * N.of_nat (length (delta_changes d)) < U64_SIZE)%N →
  (exact d = true → honest (delta_changes d) (M e)) →
  valid (track_delta sha1_hex unified e d t) = valid t && exact d ∧
  tracker_inv (n + 3 * N.of_nat (length (delta_changes d))) F0
    (view (fn_insert e (replay (delta_changes d) (M e)) M)) (track_delta sha1_hex unified e d t).
Proof.
  unfold track_delta, tracker_inv. destruct (valid t) eqn:Hv; cbn [negb andb]; [|by rewrite Hv].
  intros (Hc & Hr & Hu) Hn Hh. destruct (exact d); cbn [negb]; [|done].
  set (t1 := foldl (apply_change e) t (delta_changes d)).
  assert (valid t1 = true) as Hv1.
  { unfold t1. generalize (delta_changes d). intros cs. clear -Hv. revert t Hv.
    induction cs as [|c cs IH]; intros t Hv; [done|]. apply IH.
    destruct c as [p [s ow|s|[dest|] old ow new]];
      unfold apply_change, apply_add, apply_delete, apply_update, set_current, note_baseline; cbn;
      repeat (case_match; cbn); done. }
  destruct (refresh_is_fresh sha1_hex unified _ t1
    (cache_ok_changes sha1_hex unified _ _ e _ Hc Hn)) as [Ht Hc1].
  split; [done|]. cbn [refresh_unified_diff with_rendered valid]. rewrite Hv1.
  split_and!; [done| |exact Ht].
  apply (apply_changes_represents _ _ e _ _ Hr). by apply Hh.
Qed.

(** The patches of a turn: environment, text and working directory of each. *)
Fixpoint run_turn (ps : list (str * str * str)) (ws : str → W)
    : (str → W) * list (str * AppliedPatchDelta) :=
  match ps with
  | [] => (ws, [])
  | (env, patch, cwd) :: ps =>
      let o := apply_patch home_dir patch cwd (ws env) in
      let '(ws', ds) := run_turn ps (fn_insert env (out_world o) ws) in
      (ws', (env, outcome_delta o) :: ds)
  end.

Definition patch_ok (p : str * str * str) : Prop :=
  ∀ args, parse_patch p.1.2 = Ok args → Forall (renames_away home_dir p.2) (args_hunks args).

Definition files_of (ws : str → W) : TrackedPath → option str := view (λ e, files (ws e)).

Lemma run_turn_inv ps : ∀ n ws F0 t,
  Forall patch_ok ps → tracker_inv n F0 (files_of ws) t →
  let '(ws', ds) := run_turn ps ws in
  (n + 3 * changes_in ds < U64_SIZE)%N →
  valid (track_all ds t) = valid t && all (λ ed, exact ed.2) ds ∧
  tracker_inv (n + 3 * changes_in ds) F0 (files_of ws') (track_all ds t).
Proof.
  induction ps as [|[[env patch] cwd] ps IH]; intros n ws F0 t Hok Hinv; cbn [run_turn].
  { intros _. unfold changes_in. cbn. by rewrite andb_true_r, N.add_0_r. }
  apply Forall_cons in Hok as [Hp Hok]. set (o := apply_patch home_dir patch cwd (ws env)).
  pose proof (apply_patch_tracks home_dir patch cwd (ws env) Hp) as Htr. cbn zeta in Htr.
  fold o in Htr. set (d := outcome_delta o) in *.
  specialize (IH (n + 3 * N.of_nat (length (delta_changes d)))%N (fn_insert env (out_world o) ws) F0
    (track_delta sha1_hex unified env d t) Hok).
  destruct (run_turn ps (fn_insert env (out_world o) ws)) as [ws' ds]. intros Hn.
  assert (changes_in ((env, d) :: ds) = N.of_nat (length (delta_changes d)) + changes_in ds)%N as Ec
    by (unfold changes_in; cbn; lia).
  rewrite Ec in Hn |- *.
  destruct (track_delta_inv n env d t F0 (λ e, files (ws e)) Hinv) as [Hv Ht]; [lia|by intros ?; apply Htr|].
  assert (tracker_inv (n + 3 * N.of_nat (length (delta_changes d))) F0
    (files_of (fn_insert env (out_world o) ws)) (track_delta sha1_hex unified env d t)) as Ht'.
  { unfold tracker_inv in Ht |- *. destruct (valid (track_delta sha1_hex unified env d t)) eqn:Ev; [|done].
    destruct Ht as (? & Hr & ?). split_and!; [done| |done].
    eapply represents_ext; [exact Hr|done|done|]. intros q. unfold files_of, view, fn_insert.
    case_decide as E; [|done]. symmetry in Hv. apply andb_true_iff in Hv as [_ Hx].
    by rewrite (proj1 (Htr Hx)). }
  destruct (IH Ht') as [Hv2 Hi2]; [lia|]. split.
  - unfold track_all in *. cbn [foldl fst snd]. rewrite Hv2, Hv, <-andb_assoc. done.
  - unfold track_all in *. cbn [foldl fst snd].
    replace (n + 3 * (N.of_nat (length (delta_changes d)) + changes_in ds))%N
      with (n + 3 * N.of_nat (length (delta_changes d)) + 3 * changes_in ds)%N by lia. done.
Qed.

Lemma start_inv roots ws :
  tracker_inv 0 (files_of ws) (files_of ws) (with_environment_display_roots roots).
Proof.
  unfold tracker_inv. cbn [valid with_environment_display_roots]. split_and!; [|done|].
  - split; [done|]. exists ∅. split_and!; done.
  - assert (text (with_environment_display_roots roots) = []) as ->; [|done].
    apply text_nil. intros e [H _]%diff_entries_elem. unfold is_tracked in H. cbn in H.
    by rewrite !lookup_empty in H.
Qed.

(** C33: The diff shown for a turn is the net change of the files.  After any patches of
    the turn none of whose hunks renames a file onto itself, in any environments whose file
    systems obey the laws, failing anywhere, with fewer than 2^64 / 3 changes in all: the tracker is valid exactly when
    every reported delta is exact, and an invalid one shows nothing; a valid one shows the
    text of its entries, rendered as if nothing had been cached, no path being listed twice,
    and applying the entries to the files before the turn gives the files after it.  The
    line diff is a function of the two texts, which it is as long as it stays within its
    time limit of 100 ms.  After a rename onto itself the file is gone, although the delta
    is exact and the diff shows the new text. *)
Theorem turn_diff_exact (roots : list (str * str)) (ps : list (str * str * str)) (ws : str → W) :
  Forall patch_ok ps →
  let '(ws', ds) := run_turn ps ws in
  (3 * changes_in ds < U64_SIZE)%N →
  let t := track_all ds (with_environment_display_roots roots) in
  valid t = all (λ ed, exact ed.2) ds ∧
  (valid t = false → unified_diff t = None) ∧
  (valid t = true →
     NoDup (diff_entries t).*1 ∧
     (∀ q, foldl (apply_entry t) (files_of ws) (diff_entries t) q = files_of ws' q) ∧
     unified_diff t = (if is_empty (text t) then None else Some (text t)) ∧
     (unified_diff t = None ↔
        ∀ e, e ∈ diff_entries t → baseline_of t e.1 = current_of t e.2)).
Proof.
  intros Hok. pose proof (run_turn_inv ps 0 ws _ _ Hok (start_inv roots ws)) as H.
  destruct (run_turn ps ws) as [ws' ds]. intros Hn. rewrite N.add_0_l in H.
  destruct (H Hn) as [Hv Hi]. cbn zeta. set (t := track_all ds _) in *.
  unfold tracker_inv in Hi. split; [exact Hv|].
  destruct (valid t); [split; [done|]|done]. intros _. destruct Hi as (_ & Hr & Hu).
  split_and!; [apply diff_entries_NoDup|by intros q; apply diff_entries_exact|done|].
  rewrite <-text_nil, Hu. destruct (text t); [done|]. by split.
Qed.

(** The event: a patch without an exact delta withdraws the diff shown before. *)
Lemma emit_turn_diff_withdraws env d t :
  valid t = true → exact d = false → is_Some (unified_diff t) →
  emit_turn_diff sha1_hex unified (Track env d) t = (invalidate t, Some []).
Proof.
  intros Hv Hd [s Hs]. unfold emit_turn_diff, track_delta. rewrite Hv, Hd, Hs. done.
Qed.
End Turn.

(** ** Examples *)

Definition canonical_iter : HashIter := λ V m, map_to_list m.
Lemma canonical_iter_law : HashIterLaw (HI := canonical_iter).
Proof. by intros V m. Qed.
Definition reversed_iter : HashIter := λ V m, reverse (map_to_list m).
Lemma reversed_iter_law : HashIterLaw (HI := reversed_iter).
Proof. intros V m. apply reverse_Permutation. Qed.

Definition turn_patches : list (str * str * str) :=
  [(lit "local", partial_patch, lit "/w");
   (lit "local", join [nl]
      [lit "*** Begin Patch"; lit "*** Delete File: new.txt"; lit "*** End Patch"], lit "/w")].

(** The patches of the example rename a file, fail, and delete the file the
    first one added: one entry remains. *)
Lemma turn_diff_exact_witness :
  let '(ws', ds) := run_turn (W := mem) None turn_patches (λ _, partial_world) in
  let t := track_all (HI := canonical_iter) (λ _, []) (λ _ _ _ _, []) ds
             (with_environment_display_roots [(lit "local", lit "/w")]) in
  valid t = true ∧
  diff_entries (HI := canonical_iter) t
  = [(mkTracked (lit "local") (lit "/w/a.txt"), mkTracked (lit "local") (lit "/w/b.txt"))] ∧
  ∀ q, foldl (apply_entry t) (files_of (λ _, partial_world)) (diff_entries (HI := canonical_iter) t) q
       = files_of ws' q.
Proof.
  pose proof (turn_diff_exact (W := mem) None (HI := canonical_iter) (HL := canonical_iter_law)
    (λ _, []) (λ _ _ _ _, []) [(lit "local", lit "/w")] turn_patches (λ _, partial_world)) as H.
  assert (Forall (patch_ok None) turn_patches) as Hok.
  { repeat constructor; intros args Ha; cbn [fst snd] in Ha.
    - assert (args_hunks args =
        [AddFile (lit "new.txt") (lit "hello" ++ [nl]);
         UpdateFile (lit "a.txt") (Some (lit "b.txt")) [mkChunk None [lit "one"] [lit "two"] false];
         UpdateFile (lit "absent.txt") None [mkChunk None [lit "x"] [] false]]) as ->.
      { transitivity (match parse_patch partial_patch with Ok a => args_hunks a | Err _ => [] end);
          [by rewrite Ha|by_compute]. }
      repeat constructor. by_compute.
    - assert (args_hunks args = [DeleteFile (lit "new.txt")]) as ->; [|by repeat constructor].
      transitivity (match parse_patch (join [nl]
        [lit "*** Begin Patch"; lit "*** Delete File: new.txt"; lit "*** End Patch"])
        with Ok a => args_hunks a | Err _ => [] end); [by rewrite Ha|by_compute]. }
  specialize (H Hok).
  destruct (run_turn (W := mem) None turn_patches (λ _, partial_world)) as [ws' ds] eqn:E.
  assert (ds = (run_turn (W := mem) None turn_patches (λ _, partial_world)).2) as Ed by (by rewrite E).
  destruct H as (_ & _ & H); [rewrite Ed; by_compute|].
  split_and!; [rewrite Ed; by_compute|rewrite Ed; by_compute|].
  apply H. rewrite Ed. by_compute.
Defined.

(** Two files with the same origin: which of them is shown as the rename depends
    on the iteration order of the map, and so does the text. *)
Example rename_depends_on_iteration_order :
  let p x := mkTracked [] (lit x) in
  let t := foldl (λ t c, apply_change [] t c) tracker_default
    [mkPatchChange (lit "/a") (ChangeUpdate (Some (lit "/b")) (lit "1") None (lit "2"));
     mkPatchChange (lit "/a") (ChangeAdd (lit "3") None);
     mkPatchChange (lit "/a") (ChangeUpdate (Some (lit "/c")) (lit "3") None (lit "4"))] in
  diff_entries (HI := canonical_iter) t ≠ diff_entries (HI := reversed_iter) t.
Proof. by_compute. Qed.
