(* ===== verification/ExecProcess.v ===== *)
(** * Processes of the exec server: events and their log

    [exec-server/src/process.rs] and the messages of [exec-server/src/protocol.rs]:
    the events of a process, and the log that replays a bounded history to a new
    subscriber before it follows the live channel.

    tokio's [broadcast] channel is a parameter with its documented behaviour as laws,
    and an executable instance.  The two bounded queues of the exec server (the replay
    history and the retained output of [local_process.rs]) evict from the front while
    they are over their limits; [evict_fitting] says once what is left: the longest
    suffix within the limits. *)

From S2P Require Import Prelude RustStr.

(** ** Messages *)

Inductive ExecOutputStream := Stdout | Stderr | Pty.

Record ProcessOutputChunk := mkChunk {
  chunk_seq : N;
  chunk_stream : ExecOutputStream;
  chunk_bytes : list N;
}.

Inductive ExecProcessEvent :=
| EvOutput (chunk : ProcessOutputChunk)
| EvExited (seq : N) (exit_code : Z)
| EvClosed (seq : N)
| EvFailed (message : str).

#[export] Instance ExecOutputStream_eq_dec : EqDecision ExecOutputStream.
Proof. solve_decision. Defined.
#[export] Instance ProcessOutputChunk_eq_dec : EqDecision ProcessOutputChunk.
Proof. solve_decision. Defined.
#[export] Instance ExecProcessEvent_eq_dec : EqDecision ExecProcessEvent.
Proof. solve_decision. Defined.

Record ReadResponse := mkReadResponse {
  chunks : list ProcessOutputChunk;
  next_seq : N;
  exited : bool;
  exit_code : option Z;
  closed : bool;
  failure : option str;
}.

Inductive WriteStatus := Accepted | UnknownProcess | StdinClosed | Starting.

Definition event_seq (e : ExecProcessEvent) : option N :=
  match e with
  | EvOutput c => Some (chunk_seq c)
  | EvExited seq _ | EvClosed seq => Some seq
  | EvFailed _ => None
  end.

Definition byte_count (l : list N) : N := N.of_nat (length l).
Definition chunk_len (c : ProcessOutputChunk) : N := byte_count (chunk_bytes c).

Definition retained_len (e : ExecProcessEvent) : N :=
  match e with
  | EvOutput c => chunk_len c
  | EvFailed message => N.of_nat (str_len message)
  | EvExited _ _ | EvClosed _ => 0
  end.

(** ** Queues that evict from the front *)

(** [while over(len, bytes) { let Some(e) = pop_front() else break; bytes -= size(e) }],
    with the subtraction saturating. *)
Fixpoint evict {A} (size : A → N) (over : N → N → bool) (q : list A) (bytes : N) : list A * N :=
  match q with
  | [] => ([], bytes)
  | e :: q' =>
      if over (N.of_nat (length q)) bytes then evict size over q' (sat_sub bytes (size e))
      else (q, bytes)
  end.

Definition total_size {A} (size : A → N) (q : list A) : N := foldr (λ e n, size e + n)%N 0%N q.

(** The longest suffix that is not over the limits. *)
Fixpoint fitting {A} (size : A → N) (over : N → N → bool) (q : list A) : list A :=
  match q with
  | [] => []
  | _ :: q' =>
      if over (N.of_nat (length q)) (total_size size q) then fitting size over q' else q
  end.

(** The limits of the code: a count and a number of bytes. *)
Definition over_limits (count bytes : N) (n b : N) : bool := (count <? n)%N || (bytes <? b)%N.
Definition over_bytes (bytes : N) (n b : N) : bool := (bytes <? b)%N.

Class Limit (over : N → N → bool) : Prop := {
  over_zero : over 0%N 0%N = false;
  over_mono n b n' b' : (n <= n')%N → (b <= b')%N → over n b = true → over n' b' = true;
}.

#[export] Instance over_limits_limit c b : Limit (over_limits c b).
Proof.
  split; unfold over_limits.
  - apply orb_false_iff. split; apply N.ltb_ge; lia.
  - intros ???? Hn Hb. rewrite !orb_true_iff, !N.ltb_lt. lia.
Qed.
#[export] Instance over_bytes_limit b : Limit (over_bytes b).
Proof.
  split; unfold over_bytes.
  - apply N.ltb_ge. lia.
  - intros ???? _ Hb. rewrite !N.ltb_lt. lia.
Qed.

Section Evict.
Context {A : Type} (size : A → N) (over : N → N → bool) `{!Limit over}.

Lemma total_size_app q q' : total_size size (q ++ q') = (total_size size q + total_size size q')%N.
Proof. induction q as [| e q IH]; cbn [total_size foldr app]; [done|]. fold (total_size size (q ++ q')).
  rewrite IH. fold (total_size size q). lia. Qed.

Lemma evict_fitting q :
  evict size over q (total_size size q) = (fitting size over q, total_size size (fitting size over q)).
Proof.
  induction q as [| e q IH]; cbn [evict fitting]; [done|].
  destruct (over _ _); [|done]. rewrite <-IH. f_equal.
  unfold sat_sub. cbn [total_size foldr]. fold (total_size size q). lia.
Qed.

Lemma fitting_suffix q : ∃ old, q = old ++ fitting size over q.
Proof.
  induction q as [| e q [old IH]]; cbn [fitting]; [by exists []|].
  destruct (over _ _); [| by exists []]. exists (e :: old). cbn. by rewrite <-IH.
Qed.

Lemma fitting_fits q :
  over (N.of_nat (length (fitting size over q))) (total_size size (fitting size over q)) = false.
Proof.
  induction q as [| e q IH]; cbn [fitting]; [apply over_zero|].
  destruct (over (N.of_nat (length (e :: q))) (total_size size (e :: q))) eqn:E; [exact IH | exact E].
Qed.

Lemma fitting_id q :
  over (N.of_nat (length q)) (total_size size q) = false → fitting size over q = q.
Proof. destruct q; cbn [fitting]; [done|]. by intros ->. Qed.

(** No longer suffix is within the limits. *)
Lemma fitting_longest q old s :
  q = old ++ s → over (N.of_nat (length s)) (total_size size s) = false →
  ∃ mid, fitting size over q = mid ++ s.
Proof.
  revert q. induction old as [| e old IH]; intros q -> Hs; cbn [app].
  - exists []. by apply fitting_id.
  - cbn [fitting]. destruct (over (N.of_nat (length (e :: old ++ s))) _); [by apply IH|]. by exists (e :: old).
Qed.

(** What was evicted does not matter later. *)
Lemma fitting_push q e : fitting size over (fitting size over q ++ [e]) = fitting size over (q ++ [e]).
Proof.
  induction q as [| x q IH]; [done|]. cbn [fitting app].
  destruct (over (N.of_nat (length (x :: q))) _) eqn:Hx; [|].
  - rewrite IH. erewrite over_mono; [done| | | exact Hx]; cbn [length]; rewrite ?length_app; [lia|].
    cbn [total_size foldr]. fold (total_size size (q ++ [e])) (total_size size q).
    rewrite total_size_app. lia.
  - done.
Qed.

Lemma evict_push q e :
  evict size over (fitting size over q ++ [e]) (total_size size (fitting size over q) + size e)
  = (fitting size over (q ++ [e]), total_size size (fitting size over (q ++ [e]))).
Proof.
  rewrite <-fitting_push, <-evict_fitting. f_equal. rewrite total_size_app. cbn. lia.
Qed.

End Evict.

(** ** tokio's [broadcast] channel *)

Inductive RecvError := Lagged (n : N) | RecvClosed.

(** [bc_receiver c r]: [r] receives from [c].  [bc_pending] is what a receiver has yet to receive; the values themselves are
    only kept up to [bc_capacity]. *)
Class Broadcast (A C R : Type) := {
  bc_channel : N → C;
  bc_capacity : C → N;
  bc_send : A → C → C;
  bc_subscribe : C → R;
  bc_recv : C → R → option (result RecvError A) * R;
  bc_receiver : C → R → Prop;
  bc_pending : C → R → list A;
}.

(** The documented behaviour: a receiver gets the values sent after it subscribed,
    in order; one that falls behind by more than the capacity is told so, and goes on
    with the oldest value still kept; one with nothing to receive waits.  The channel
    is only closed when its senders are dropped. *)
Class BroadcastLaws (A C R : Type) `{!Broadcast A C R} : Prop := {
  bc_channel_capacity n : (n <= bc_capacity (bc_channel n))%N;
  bc_send_capacity a c : bc_capacity (bc_send a c) = bc_capacity c;
  bc_subscribe_receiver c : bc_receiver c (bc_subscribe c);
  bc_send_receiver a c r : bc_receiver c r → bc_receiver (bc_send a c) r;
  bc_recv_receiver c r : bc_receiver c r → bc_receiver c (bc_recv c r).2;
  bc_subscribe_pending c : bc_pending c (bc_subscribe c) = [];
  bc_send_pending a c r : bc_receiver c r → bc_pending (bc_send a c) r = bc_pending c r ++ [a];
  bc_recv_wait c r : bc_pending c r = [] → bc_recv c r = (None, r);
  bc_recv_value c r a rest : bc_pending c r = a :: rest →
    (N.of_nat (length (bc_pending c r)) <= bc_capacity c)%N →
    (bc_recv c r).1 = Some (Ok a) ∧ bc_pending c (bc_recv c r).2 = rest;
  bc_recv_lagged c r : (bc_capacity c < N.of_nat (length (bc_pending c r)))%N →
    ∃ n, (0 < n <= N.of_nat (length (bc_pending c r)))%N ∧ (bc_recv c r).1 = Some (Err (Lagged n)) ∧
      bc_pending c (bc_recv c r).2 = drop (N.to_nat n) (bc_pending c r) ∧
      (N.of_nat (length (bc_pending c (bc_recv c r).2)) <= bc_capacity c)%N;
}.

(** ** The event log *)

Record ExecProcessEventHistory := mkHistory {
  events : list ExecProcessEvent;
  retained_bytes : N;
}.

Record ExecProcessEventLog (C : Type) := mkLog {
  history : ExecProcessEventHistory;
  live_tx : C;
  event_capacity : N;
  byte_capacity : N;
}.
Arguments mkLog {C} _ _ _ _.
Arguments history {C} _.
Arguments live_tx {C} _.
Arguments event_capacity {C} _.
Arguments byte_capacity {C} _.

Record ExecProcessEventReceiver (R : Type) := mkReceiver {
  replay : list ExecProcessEvent;
  live_rx : R;
}.
Arguments mkReceiver {R} _ _.
Arguments replay {R} _.
Arguments live_rx {R} _.

Section Log.
Context {C R : Type} `{!Broadcast ExecProcessEvent C R}.

Definition log_new (event_capacity byte_capacity : N) : ExecProcessEventLog C :=
  mkLog (mkHistory [] 0) (bc_channel event_capacity) event_capacity byte_capacity.

Definition publish (event : ExecProcessEvent) (l : ExecProcessEventLog C) : ExecProcessEventLog C :=
  let h := history l in
  let '(q, b) := evict retained_len (over_limits (event_capacity l) (byte_capacity l))
                   (events h ++ [event]) (retained_bytes h + retained_len event) in
  mkLog (mkHistory q b) (bc_send event (live_tx l)) (event_capacity l) (byte_capacity l).

Definition subscribe (l : ExecProcessEventLog C) : ExecProcessEventReceiver R :=
  mkReceiver (events (history l)) (bc_subscribe (live_tx l)).

Definition empty_receiver : ExecProcessEventReceiver R :=
  mkReceiver [] (bc_subscribe (bc_channel 1)).

(** [recv]; [None] is a receiver that waits. *)
Definition recv (l : ExecProcessEventLog C) (r : ExecProcessEventReceiver R)
    : option (result RecvError ExecProcessEvent) * ExecProcessEventReceiver R :=
  match replay r with
  | event :: rest => (Some (Ok event), mkReceiver rest (live_rx r))
  | [] => let '(v, rx) := bc_recv (live_tx l) (live_rx r) in (v, mkReceiver [] rx)
  end.

Definition publish_all (es : list ExecProcessEvent) (l : ExecProcessEventLog C) : ExecProcessEventLog C :=
  fold_left (λ l e, publish e l) es l.

(** What a subscriber does: events are published while it receives. *)
Inductive LogOp := Published (e : ExecProcessEvent) | Received.

Fixpoint follow (ops : list LogOp) (l : ExecProcessEventLog C) (r : ExecProcessEventReceiver R)
    : ExecProcessEventLog C * ExecProcessEventReceiver R * list (result RecvError ExecProcessEvent) :=
  match ops with
  | [] => (l, r, [])
  | Published e :: ops => follow ops (publish e l) r
  | Received :: ops =>
      let '(v, r1) := recv l r in
      let '(l2, r2, vs) := follow ops l r1 in
      (l2, r2, match v with Some x => x :: vs | None => vs end)
  end.

Definition published (ops : list LogOp) : list ExecProcessEvent :=
  omap (λ op, match op with Published e => Some e | Received => None end) ops.

(** The events a new subscriber can still get. *)
Definition replayable (ec bc : N) (es : list ExecProcessEvent) : list ExecProcessEvent :=
  fitting retained_len (over_limits ec bc) es.

(** *** Lemmas *)

Record holds (l : ExecProcessEventLog C) (es : list ExecProcessEvent) : Prop := {
  holds_events : events (history l) = replayable (event_capacity l) (byte_capacity l) es;
  holds_bytes : retained_bytes (history l) = total_size retained_len (events (history l));
}.

Lemma holds_new ec bc : holds (log_new ec bc) [].
Proof. by split. Qed.

Lemma holds_publish l es e : holds l es → holds (publish e l) (es ++ [e]).
Proof.
  intros [H1 H2]. unfold publish. rewrite H2, H1. unfold replayable.
  rewrite evict_push by apply _. by split.
Qed.

Lemma publish_limits e l :
  event_capacity (publish e l) = event_capacity l ∧ byte_capacity (publish e l) = byte_capacity l.
Proof. unfold publish. by destruct (evict _ _ _ _). Qed.

Lemma publish_live e l : live_tx (publish e l) = bc_send e (live_tx l).
Proof. unfold publish. by destruct (evict _ _ _ _). Qed.

Lemma holds_publish_all l es es' :
  holds l es →
  holds (publish_all es' l) (es ++ es') ∧ event_capacity (publish_all es' l) = event_capacity l ∧
  byte_capacity (publish_all es' l) = byte_capacity l.
Proof.
  unfold publish_all. revert l es. induction es' as [| e es' IH]; intros l es H; cbn [fold_left].
  - by rewrite app_nil_r.
  - destruct (publish_limits e l) as [Hc Hb].
    destruct (IH (publish e l) (es ++ [e]) (holds_publish _ _ _ H)) as (H1 & H2 & H3).
    rewrite <-app_assoc in H1. by rewrite H2, H3.
Qed.

Context `{!BroadcastLaws ExecProcessEvent C R}.

(** What the subscriber has yet to get. *)
Definition unread (l : ExecProcessEventLog C) (r : ExecProcessEventReceiver R) : list ExecProcessEvent :=
  replay r ++ bc_pending (live_tx l) (live_rx r).

Lemma unread_subscribe l : unread l (subscribe l) = events (history l).
Proof. unfold unread, subscribe. cbn. by rewrite bc_subscribe_pending, app_nil_r. Qed.

Lemma unread_publish l r e :
  bc_receiver (live_tx l) (live_rx r) → unread (publish e l) r = unread l r ++ [e].
Proof. intros H. unfold unread. by rewrite publish_live, bc_send_pending, app_assoc by done. Qed.

Lemma recv_receiver l r :
  bc_receiver (live_tx l) (live_rx r) → bc_receiver (live_tx l) (live_rx (recv l r).2).
Proof.
  intros H. unfold recv. destruct (replay r); [|done].
  pose proof (bc_recv_receiver _ _ H) as H'. by destruct (bc_recv _ _).
Qed.

(** One [recv]: the next unread event, or a gap that the receiver is told about. *)
Lemma recv_unread l r :
  let '(v, r') := recv l r in
  match v with
  | None => unread l r = [] ∧ r' = r
  | Some (Ok e) => unread l r = e :: unread l r'
  | Some (Err (Lagged n)) =>
      (0 < n <= N.of_nat (length (unread l r)))%N ∧ unread l r' = drop (N.to_nat n) (unread l r)
  | Some (Err RecvClosed) => False
  end.
Proof.
  destruct r as [rp rx]. unfold recv, unread. cbn. destruct rp as [| e rp]; [|done]. cbn.
  destruct (bc_pending (live_tx l) rx) as [| e rest] eqn:Hp.
  { rewrite bc_recv_wait by done. done. }
  destruct (decide (N.of_nat (length (bc_pending (live_tx l) rx)) <= bc_capacity (live_tx l))%N) as [Hle | Hgt].
  - destruct (bc_recv_value _ _ _ _ Hp Hle) as [H1 H2].
    destruct (bc_recv (live_tx l) rx) as [v rx']. cbn in *. by rewrite H1, H2.
  - destruct (bc_recv_lagged (live_tx l) rx) as (n & Hn & H1 & H2 & _); [lia|].
    rewrite Hp in Hn, H2. destruct (bc_recv (live_tx l) rx) as [v rx']. cbn [fst snd] in *. subst v. by cbn [app].
Qed.

(** The received events with the gaps filled in, then the unread ones, are the events
    to deliver. *)
Fixpoint delivered (vs : list (result RecvError ExecProcessEvent)) (todo rest : list ExecProcessEvent) : Prop :=
  match vs with
  | [] => todo = rest
  | Ok e :: vs => ∃ todo', todo = e :: todo' ∧ delivered vs todo' rest
  | Err (Lagged n) :: vs =>
      (0 < n <= N.of_nat (length todo))%N ∧ delivered vs (drop (N.to_nat n) todo) rest
  | Err RecvClosed :: _ => False
  end.

Definition no_lag (vs : list (result RecvError ExecProcessEvent)) : Prop := Forall (λ v, is_ok v = true) vs.

Definition oks (vs : list (result RecvError ExecProcessEvent)) : list ExecProcessEvent :=
  omap (λ v, match v with Ok e => Some e | Err _ => None end) vs.

Lemma delivered_no_lag vs todo rest : no_lag vs → delivered vs todo rest → todo = oks vs ++ rest.
Proof.
  revert todo. induction vs as [| [e | err] vs IH]; intros todo Hn H; [done| |].
  - destruct H as (todo' & -> & H). inversion Hn; subst. cbn. f_equal. by apply IH.
  - by inversion Hn.
Qed.

Lemma delivered_sublist vs todo rest : delivered vs todo rest → oks vs ++ rest `sublist_of` todo.
Proof.
  revert todo. induction vs as [| [e | [n |]] vs IH]; intros todo H; [by rewrite H| | |done].
  - destruct H as (todo' & -> & H). cbn. by apply sublist_skip, IH.
  - destruct H as (_ & H). cbn. etrans; [apply IH, H|]. apply sublist_drop.
Qed.

(** Whatever is published while the subscriber receives, it gets the replayable events
    and then the new ones, in order, each once, with a gap only where it was told. *)
Lemma follow_delivers ops l r l' r' vs :
  bc_receiver (live_tx l) (live_rx r) → follow ops l r = (l', r', vs) →
  delivered vs (unread l r ++ published ops) (unread l' r').
Proof.
  revert l r vs. induction ops as [| [e |] ops IH]; intros l r vs Hv; cbn [follow].
  - intros [= <- <- <-]. by rewrite app_nil_r.
  - intros H. apply IH in H; [| rewrite publish_live; by apply bc_send_receiver].
    rewrite unread_publish, <-app_assoc in H by done. exact H.
  - pose proof (recv_unread l r) as Hr. pose proof (recv_receiver l r Hv) as Hv'.
    destruct (recv l r) as [v r1]. cbn in Hv'.
    destruct (follow ops l r1) as [[l2 r2] vs2] eqn:Hf. intros [= <- <- <-].
    specialize (IH _ _ _ Hv' Hf). destruct v as [[e | [n |]] |]; [| | done |]; cbn [delivered].
    + rewrite Hr. by eexists.
    + destruct Hr as [Hn Hr]. rewrite Hr in IH. split; [rewrite length_app; lia|].
      by rewrite drop_app_le by lia.
    + destruct Hr as [_ ->]. exact IH.
Qed.

End Log.

(** ** A concrete channel *)

Record ListChannel := mkListChannel { lc_cap : N; lc_sent : list ExecProcessEvent }.

Definition lc_left (c : ListChannel) (r : nat) : list ExecProcessEvent := drop r (lc_sent c).

#[export] Instance list_broadcast : Broadcast ExecProcessEvent ListChannel nat := {
  bc_channel n := mkListChannel n [];
  bc_capacity := lc_cap;
  bc_send a c := mkListChannel (lc_cap c) (lc_sent c ++ [a]);
  bc_subscribe c := length (lc_sent c);
  bc_recv c r :=
    match lc_left c r with
    | [] => (None, r)
    | a :: _ =>
        let behind := N.of_nat (length (lc_left c r)) in
        if (lc_cap c <? behind)%N
        then (Some (Err (Lagged (behind - lc_cap c))), r + N.to_nat (behind - lc_cap c))
        else (Some (Ok a), S r)
    end;
  bc_receiver c r := r ≤ length (lc_sent c);
  bc_pending := lc_left;
}.

#[export] Instance list_broadcast_laws : BroadcastLaws ExecProcessEvent ListChannel nat.
Proof.
  split; cbn -[N.of_nat].
  - done.
  - done.
  - done.
  - intros a c r Hr. rewrite length_app. lia.
  - intros c r Hr. destruct (lc_left c r) as [| a rest] eqn:E; [done|]. cbn -[N.of_nat].
    assert (Hl : length (lc_left c r) = length (lc_sent c) - r) by (unfold lc_left; apply length_drop).
    rewrite E in Hl. cbn in Hl. destruct (_ <? _)%N eqn:Hlt; cbn -[N.of_nat] in *; [|lia].
    apply N.ltb_lt in Hlt. lia.
  - intros c. unfold lc_left. by rewrite drop_all.
  - intros a c r Hr. unfold lc_left. cbn. by rewrite drop_app_le.
  - by intros c r ->.
  - intros c r a rest E Hle. rewrite E in *. apply N.ltb_ge in Hle. rewrite Hle. cbn.
    split; [done|]. unfold lc_left in *. rewrite <-Nat.add_1_r, <-drop_drop, E. done.
  - intros c r Hlt. pose proof (proj2 (N.ltb_lt _ _) Hlt) as Hb.
    destruct (lc_left c r) as [| a rest] eqn:E; [cbn in Hlt; lia|]. rewrite Hb. cbn [fst snd].
    eexists. split; [split|split; [done|]]; [lia | lia |]. unfold lc_left in *. rewrite <-drop_drop, E.
    split; [done|]. rewrite length_drop. lia.
Qed.

(** ** Theorems *)

Section Theorems.
Context {C R : Type} `{!Broadcast ExecProcessEvent C R, !BroadcastLaws ExecProcessEvent C R}.

(** A subscriber of a process gets the longest replayable suffix of the events published
    before it subscribed, then every later event, in order and each once, whatever is
    published while it receives: a gap occurs only where [recv] reports [Lagged], and
    covers that many events. *)
Theorem subscriber_exact ec bc es ops l' r' vs :
  let l : ExecProcessEventLog C := publish_all es (log_new ec bc) in
  follow ops l (subscribe l) = (l', r', vs) →
  delivered vs (replayable ec bc es ++ published ops) (unread l' r') ∧
  (no_lag vs → replayable ec bc es ++ published ops = oks vs ++ unread l' r').
Proof.
  cbn zeta. intros H. destruct (holds_publish_all _ [] es (holds_new (C := C) ec bc)) as (Hh & Hc & Hb).
  cbn in Hh, Hc, Hb.
  apply follow_delivers in H; [| apply bc_subscribe_receiver].
  rewrite unread_subscribe, (holds_events _ _ Hh), Hc, Hb in H.
  split; [exact H|]. intros Hn. by apply delivered_no_lag.
Qed.

End Theorems.

