(* ===== verification/ShellEnv.v ===== *)
(** * The environment of a child process

    [protocol/src/shell_environment.rs] on Unix: the variables a spawned command gets,
    from those of the parent and the policy of the configuration.  The wildcard matcher
    ([wildmatch]) is a parameter. *)

From S2P Require Import Prelude RustStr.

Inductive ShellEnvironmentPolicyInherit := InheritCore | InheritAll | InheritNone.

(** A pattern of the [wildmatch] crate, with its case sensitivity. *)
Record EnvironmentVariablePattern := mkPattern {
  pattern_text : str;
  case_insensitive : bool;
}.

Definition new_case_insensitive (pattern : str) : EnvironmentVariablePattern := mkPattern pattern true.

Record ShellEnvironmentPolicy := mkEnvPolicy {
  inherit : ShellEnvironmentPolicyInherit;
  ignore_default_excludes : bool;
  exclude : list EnvironmentVariablePattern;
  set_vars : gmap str str;
  include_only : list EnvironmentVariablePattern;
  use_profile : bool;
}.

Definition default_env_policy : ShellEnvironmentPolicy := mkEnvPolicy InheritAll true [] ∅ [] false.

Definition CODEX_THREAD_ID_ENV_VAR : str := lit "CODEX_THREAD_ID".

Definition UNIX_CORE_ENV_VARS : list str :=
  lit <$> ["PATH"; "SHELL"; "TMPDIR"; "TEMP"; "TMP"; "HOME"; "LANG"; "LC_ALL"; "LC_CTYPE";
           "LOGNAME"; "USER"]%string.

Definition default_excludes : list EnvironmentVariablePattern :=
  new_case_insensitive ∘ lit <$> ["*KEY*"; "*SECRET*"; "*TOKEN*"]%string.

Definition eq_ignore_ascii_case (s t : str) : bool :=
  (to_ascii_lowercase <$> s) == (to_ascii_lowercase <$> t).

Definition is_core_var (k : str) : bool := any (λ allowed, eq_ignore_ascii_case allowed k) UNIX_CORE_ENV_VARS.

(** [vars.into_iter().collect()]: the last value of a name stays. *)
Definition collect_vars (vars : list (str * str)) : gmap str str :=
  fold_left (λ m kv, <[kv.1 := kv.2]> m) vars ∅.

(** [HashMap::retain] by key. *)
Definition retain (p : str → bool) (m : gmap str str) : gmap str str := filter (λ kv, p kv.1 = true) m.

Section Matcher.
Context (matches : EnvironmentVariablePattern → str → bool).

Definition matches_any (name : str) (patterns : list EnvironmentVariablePattern) : bool :=
  any (λ pattern, matches pattern name) patterns.

Definition populate_env (vars : list (str * str)) (policy : ShellEnvironmentPolicy)
    (thread_id : option str) : gmap str str :=
  let env_map :=
    match inherit policy with
    | InheritAll => collect_vars vars
    | InheritNone => ∅
    | InheritCore => collect_vars (List.filter (λ kv, is_core_var kv.1) vars)
    end in
  let env_map :=
    if ignore_default_excludes policy then env_map
    else retain (λ k, negb (matches_any k default_excludes)) env_map in
  let env_map :=
    if is_empty (exclude policy) then env_map
    else retain (λ k, negb (matches_any k (exclude policy))) env_map in
  let env_map := map_fold (λ k v m, <[k := v]> m) env_map (set_vars policy) in
  let env_map :=
    if is_empty (include_only policy) then env_map
    else retain (λ k, matches_any k (include_only policy)) env_map in
  match thread_id with
  | Some thread_id => <[CODEX_THREAD_ID_ENV_VAR := thread_id]> env_map
  | None => env_map
  end.

(** [create_env_from_vars] outside Windows. *)
Definition create_env_from_vars (vars : list (str * str)) (policy : ShellEnvironmentPolicy)
    (thread_id : option str) : gmap str str := populate_env vars policy thread_id.

(** ** What the child sees *)

(** The last value of a name among the parent's variables. *)
Definition last_value (vars : list (str * str)) (k : str) : option str :=
  snd <$> last (List.filter (λ kv, kv.1 == k) vars).

Definition inherited (vars : list (str * str)) (policy : ShellEnvironmentPolicy) (k : str) : option str :=
  let allowed := match inherit policy with
                 | InheritAll => true | InheritNone => false | InheritCore => is_core_var k
                 end in
  let excluded := negb (ignore_default_excludes policy) && matches_any k default_excludes
                  || matches_any k (exclude policy) in
  if allowed && negb excluded then last_value vars k else None.

Definition visible (vars : list (str * str)) (policy : ShellEnvironmentPolicy)
    (thread_id : option str) (k : str) : option str :=
  if (k == CODEX_THREAD_ID_ENV_VAR) && opt_is_some thread_id then thread_id
  else if negb (is_empty (include_only policy)) && negb (matches_any k (include_only policy)) then None
  else opt_or (set_vars policy !! k) (inherited vars policy k).

Lemma lookup_retain p m k : retain p m !! k = if p k then m !! k else None.
Proof.
  unfold retain. destruct (p k) eqn:E.
  - destruct (m !! k) as [v|] eqn:Hm.
    + by apply map_lookup_filter_Some_2.
    + apply map_lookup_filter_None. by left.
  - apply map_lookup_filter_None. right. intros v _. cbn. by rewrite E.
Qed.

Lemma lookup_retain_if (c : bool) p m k :
  (if c then m else retain p m) !! k = if c || p k then m !! k else None.
Proof. destruct c; [done|]. apply lookup_retain. Qed.

Lemma lookup_collect_vars vars k : collect_vars vars !! k = last_value vars k.
Proof.
  unfold collect_vars, last_value. induction vars as [| [k' v] vars IH] using rev_ind.
  - apply lookup_empty.
  - rewrite fold_left_app, List.filter_app. cbn [fold_left List.filter fst snd].
    destruct (str_eqb_reflect k' k) as [-> | Hne].
    + rewrite lookup_insert_eq, last_snoc. done.
    + by rewrite lookup_insert_ne, app_nil_r by done.
Qed.

Lemma last_value_filter p vars k :
  last_value (List.filter (λ kv, p kv.1) vars) k = if p k then last_value vars k else None.
Proof.
  assert (H : List.filter (λ kv, kv.1 == k) (List.filter (λ kv, p kv.1) vars)
              = if p k then List.filter (λ kv, kv.1 == k) vars else []).
  { induction vars as [| [k' v] vars IH]; cbn [List.filter fst]; [by destruct (p k)|].
    destruct (str_eqb_reflect k' k) as [-> | Hne].
    - destruct (p k); cbn [List.filter fst]; rewrite ?str_eqb_refl; by rewrite IH.
    - destruct (p k'); cbn [List.filter fst]; [| exact IH].
      destruct (str_eqb_reflect k' k); [done|]. exact IH. }
  unfold last_value. rewrite H. by destruct (p k).
Qed.

Lemma set_union (m s : gmap str str) : map_fold (λ k v m, <[k := v]> m) m s = s ∪ m.
Proof.
  induction s as [| k v s Hk IH] using map_ind.
  - by rewrite map_fold_empty, (left_id_L ∅ (∪)).
  - rewrite map_fold_insert_L; [| | done].
    + by rewrite IH, insert_union_l.
    + intros j1 j2 z1 z2 y Hne _ _. by apply insert_insert_ne.
Qed.

(** The environment of a child, name by name: the thread id, else nothing that
    [include_only] leaves out, else what the policy sets, else the parent's value unless
    the inheritance or an exclusion drops it.  An exclusion never removes a variable the
    policy sets. *)
Theorem populate_env_exact vars policy thread_id k :
  populate_env vars policy thread_id !! k = visible vars policy thread_id k.
Proof.
  assert (Hinh : match inherit policy with
    | InheritAll => collect_vars vars | InheritNone => ∅
    | InheritCore => collect_vars (List.filter (λ kv, is_core_var kv.1) vars) end !! k
    = if match inherit policy with InheritAll => true | InheritNone => false | InheritCore => is_core_var k end
      then last_value vars k else None).
  { destruct (inherit policy); rewrite ?lookup_collect_vars, ?last_value_filter, ?lookup_empty; done. }
  assert (Hany : ∀ l, is_empty l = true → matches_any k l = false) by (by intros []).
  unfold populate_env, visible, inherited. rewrite set_union.
  set (base := match inherit policy with InheritCore => _ | _ => _ end) in *.
  set (allowed := match inherit policy with InheritCore => is_core_var k | _ => _ end) in *.
  assert (Hrest : ∀ m : gmap str str, thread_id = None ∨ k ≠ CODEX_THREAD_ID_ENV_VAR →
    match thread_id with Some t => <[CODEX_THREAD_ID_ENV_VAR := t]> m | None => m end !! k = m !! k).
  { intros m [-> | Hne]; [done|]. destruct thread_id; [| done]. by rewrite lookup_insert_ne. }
  destruct (decide (thread_id = None ∨ k ≠ CODEX_THREAD_ID_ENV_VAR)) as [Hno | Hyes].
  - rewrite Hrest by done. rewrite !lookup_retain_if, lookup_union, !lookup_retain_if, Hinh.
    replace ((k == CODEX_THREAD_ID_ENV_VAR) && opt_is_some thread_id) with false.
    2:{ destruct Hno as [-> | Hne]; [by rewrite andb_false_r|]. by apply str_eqb_false in Hne as ->. }
    destruct (is_empty (exclude policy)) eqn:E2; [rewrite (Hany _ E2)|];
    destruct (is_empty (include_only policy)), (matches_any k (include_only policy)),
      (ignore_default_excludes policy), allowed, (matches_any k default_excludes);
      cbn; try destruct (matches_any k (exclude policy)); cbn;
      by destruct (set_vars policy !! k), (last_value vars k).
  - destruct thread_id as [t|]; [| by destruct Hyes; left].
    destruct (decide (k = CODEX_THREAD_ID_ENV_VAR)) as [-> |]; [| by destruct Hyes; right].
    by rewrite lookup_insert_eq, str_eqb_refl.
Qed.

End Matcher.
