(* ===== verification/LocalProcess.v ===== *)
(** * Processes on the exec server

    [exec-server/src/local_process.rs]: the table of processes, the tasks that follow a
    process (one per output stream and one for its exit), reads, writes, signals and
    termination.

    The table is behind a lock that is held for each access, and the requests and tasks
    run concurrently, so a [System] is the shared state with the requests and tasks at
    the points where they wait for the lock, a channel, a timer or the operating system;
    a [choice] lets one of them go on to its next such point.  A request may also be
    dropped there (the connection handler abandons it when the transport closes).

    What the operating system does is given with the request that starts a process: how
    the spawn ends, the chunks each stream delivers and the exit status.  [emitted] and
    the [origin] of a process are history variables that no code reads. *)

From S2P Require Import Prelude RustStr Watch ExecProcess ShellEnv.

(** ** Parameters of the requests *)

Record JSONRPCErrorError := mkError { code : Z; message : str }.

Definition invalid_request (message : str) : JSONRPCErrorError := mkError (-32600) message.
Definition method_not_found (message : str) : JSONRPCErrorError := mkError (-32601) message.
Definition invalid_params (message : str) : JSONRPCErrorError := mkError (-32602) message.
Definition internal_error (message : str) : JSONRPCErrorError := mkError (-32603) message.

Record ExecEnvPolicy := mkExecEnvPolicy {
  ep_inherit : ShellEnvironmentPolicyInherit;
  ep_ignore_default_excludes : bool;
  ep_exclude : list str;
  ep_set : gmap str str;
  ep_include_only : list str;
}.

Record ExecParams := mkExecParams {
  process_id : str;
  argv : list str;
  cwd : str;
  env_policy : option ExecEnvPolicy;
  env : gmap str str;
  tty : bool;
  pipe_stdin : bool;
  arg0 : option str;
}.

(** The notifications to the client. *)
Inductive Notification :=
| OutputDelta (process_id : str) (chunk : ProcessOutputChunk)
| ExitedNote (process_id : str) (seq : N) (exit_code : Z)
| ClosedNote (process_id : str) (seq : N).

(** ** The table of processes *)

Definition RETAINED_OUTPUT_BYTES_PER_PROCESS : N := 1024 * 1024.
Definition PROCESS_EVENT_CHANNEL_CAPACITY : N := 256.

(** [handle] stands for the shared objects of the process: its wake channel and its
    event log, which the [LocalExecProcess] of the caller holds too. *)
Record RunningProcess := mkProcess {
  session : N;
  p_tty : bool;
  p_pipe_stdin : bool;
  output : list ProcessOutputChunk;
  p_retained_bytes : N;
  p_next_seq : N;
  p_exit_code : option Z;
  handle : N;
  open_streams : N;
  p_closed : bool;
}.

Inductive ProcessEntry := StartingEntry | RunningEntry (p : RunningProcess).

(** What the operating system is asked to do. *)
Inductive SpawnMode := SpawnPty | SpawnPipe | SpawnPipeNoStdin.
Inductive PtyCall :=
| PtySpawn (mode : SpawnMode) (program : str) (args : list str) (cwd : str) (env : gmap str str)
    (arg0 : option str)
| PtyTerminate (session : N)
| PtySignal (session : N)
| PtyWrite (session : N) (bytes : list N).

(** How a spawn ends: an error, or a session with what its streams deliver and its exit
    status ([None] when the sender is dropped). *)
Inductive SpawnOutcome :=
| SpawnFailed (err : str)
| SpawnedProcess (session : N) (stdout stderr : list (list N)) (exit : option Z).

Section LocalProcess.
Context {W C R : Type} `{!WatchChannel N W, !Broadcast ExecProcessEvent C R}.
Context (to_abs_path : str → result str str).
Context (host_vars : list (str * str)).
Context (matches : EnvironmentVariablePattern → str → bool).

Record Shared := mkShared { wake_tx : W; log : ExecProcessEventLog C }.

Record Inner := mkInner {
  notifications : option N;
  processes : gmap str ProcessEntry;
  handles : gmap N Shared;
  next_handle : N;
  now : N;
  pty_calls : list PtyCall;
  wire : list (N * Notification);
  emitted : list (str * N * ExecProcessEvent);
}.

Definition set_processes (ps : gmap str ProcessEntry) (w : Inner) : Inner :=
  mkInner (notifications w) ps (handles w) (next_handle w) (now w) (pty_calls w) (wire w) (emitted w).
Definition set_handles (hs : gmap N Shared) (w : Inner) : Inner :=
  mkInner (notifications w) (processes w) hs (next_handle w) (now w) (pty_calls w) (wire w) (emitted w).
Definition pty_call (c : PtyCall) (w : Inner) : Inner :=
  mkInner (notifications w) (processes w) (handles w) (next_handle w) (now w) (pty_calls w ++ [c])
    (wire w) (emitted w).
Definition outgoing (conn : N) (n : Notification) (w : Inner) : Inner :=
  mkInner (notifications w) (processes w) (handles w) (next_handle w) (now w) (pty_calls w)
    (wire w ++ [(conn, n)]) (emitted w).
Definition set_notification_sender (c : option N) (w : Inner) : Inner :=
  mkInner c (processes w) (handles w) (next_handle w) (now w) (pty_calls w) (wire w) (emitted w).
Definition tick (ms : N) (w : Inner) : Inner :=
  mkInner (notifications w) (processes w) (handles w) (next_handle w) (now w + ms) (pty_calls w)
    (wire w) (emitted w).

Definition set_process (pid : str) (p : RunningProcess) (w : Inner) : Inner :=
  set_processes (<[pid := RunningEntry p]> (processes w)) w.

Definition running (pid : str) (w : Inner) : option RunningProcess :=
  match processes w !! pid with Some (RunningEntry p) => Some p | _ => None end.

(** [wake_tx.send(seq)] and [events.publish(event)] on the shared objects. *)
Definition announce (pid : str) (h seq : N) (e : ExecProcessEvent) (w : Inner) : Inner :=
  mkInner (notifications w) (processes w)
    (alter (λ s, mkShared (send seq (wake_tx s)) (publish e (log s))) h (handles w))
    (next_handle w) (now w) (pty_calls w) (wire w) (emitted w ++ [(pid, h, e)]).

(** ** The tasks of a process *)

(** The accesses of [stream_output], [watch_exit], [finish_output_stream] and
    [maybe_emit_closed] to the table, each under its lock. *)

Definition push_output (stream : ExecOutputStream) (chunk : list N) (p : RunningProcess) : RunningProcess :=
  let '(q, b) := evict chunk_len (over_bytes RETAINED_OUTPUT_BYTES_PER_PROCESS)
                   (output p ++ [mkChunk (p_next_seq p) stream chunk])
                   (p_retained_bytes p + byte_count chunk) in
  mkProcess (session p) (p_tty p) (p_pipe_stdin p) q b (p_next_seq p + 1) (p_exit_code p) (handle p)
    (open_streams p) (p_closed p).

(** [None]: the loop breaks. *)
Definition append_output (pid : str) (stream : ExecOutputStream) (chunk : list N) (w : Inner)
    : option (Inner * Notification) :=
  p ← running pid w;
  let c := mkChunk (p_next_seq p) stream chunk in
  Some (announce pid (handle p) (p_next_seq p) (EvOutput c) (set_process pid (push_output stream chunk p) w),
        OutputDelta pid c).

Definition set_exit (exit_code : Z) (p : RunningProcess) : RunningProcess :=
  mkProcess (session p) (p_tty p) (p_pipe_stdin p) (output p) (p_retained_bytes p) (p_next_seq p + 1)
    (Some exit_code) (handle p) (open_streams p) (p_closed p).

Definition record_exit (pid : str) (exit_code : Z) (w : Inner) : Inner * option Notification :=
  match running pid w with
  | Some p =>
      let seq := p_next_seq p in
      (announce pid (handle p) seq (EvExited seq exit_code) (set_process pid (set_exit exit_code p) w),
       Some (ExitedNote pid seq exit_code))
  | None => (w, None)
  end.

Definition end_stream (p : RunningProcess) : RunningProcess :=
  mkProcess (session p) (p_tty p) (p_pipe_stdin p) (output p) (p_retained_bytes p) (p_next_seq p)
    (p_exit_code p) (handle p) (if (0 <? open_streams p)%N then (open_streams p - 1)%N else open_streams p)
    (p_closed p).

(** [None]: [finish_output_stream] returns. *)
Definition close_stream (pid : str) (w : Inner) : option Inner :=
  p ← running pid w; Some (set_process pid (end_stream p) w).

Definition set_closed (p : RunningProcess) : RunningProcess :=
  mkProcess (session p) (p_tty p) (p_pipe_stdin p) (output p) (p_retained_bytes p) (p_next_seq p + 1)
    (p_exit_code p) (handle p) (open_streams p) true.

(** [None]: [maybe_emit_closed] returns. *)
Definition emit_closed (pid : str) (w : Inner) : option (Inner * Notification) :=
  p ← running pid w;
  if p_closed p || negb (open_streams p =? 0)%N || negb (opt_is_some (p_exit_code p)) then None
  else let seq := p_next_seq p in
       Some (announce pid (handle p) seq (EvClosed seq) (set_process pid (set_closed p) w), ClosedNote pid seq).

(** The task spawned by [maybe_emit_closed], after its sleep. *)
Definition evict_closed (pid : str) (w : Inner) : Inner :=
  match running pid w with
  | Some p => if p_closed p then set_processes (delete pid (processes w)) w else w
  | None => w
  end.

(** Where a task is.  [Notify] is about to read the notification sender, [Sending] to
    send on the channel of a connection; both then go on. *)
Inductive TaskState :=
| Streaming (queue : list (list N))
| Finishing
| Exiting
| Notify (n : Notification) (next : TaskState)
| Sending (n : Notification) (conn : N) (next : TaskState)
| Closing
| Finished.

(** One access of a task; the last component is the process whose clean-up it spawns.
    [stream] and [exit_code] are the arguments of the task. *)
Definition run_task (pid : str) (stream : ExecOutputStream) (exit_code : Z) (t : TaskState) (w : Inner)
    : option (Inner * TaskState * option str) :=
  match t with
  | Streaming (chunk :: queue) =>
      match append_output pid stream chunk w with
      | Some (w, n) => Some (w, Notify n (Streaming queue), None)
      | None => Some (w, Finishing, None)
      end
  | Streaming [] => Some (w, Finishing, None)
  | Finishing =>
      match close_stream pid w with
      | Some w => Some (w, Closing, None)
      | None => Some (w, Finished, None)
      end
  | Exiting =>
      match record_exit pid exit_code w with
      | (w, Some n) => Some (w, Notify n Closing, None)
      | (w, None) => Some (w, Closing, None)
      end
  | Notify n next =>
      match notifications w with
      | Some conn => Some (w, Sending n conn next, None)
      | None => Some (w, next, None)
      end
  | Sending n conn next => Some (outgoing conn n w, next, None)
  | Closing =>
      match emit_closed pid w with
      | Some (w, n) => Some (w, Notify n Finished, Some pid)
      | None => Some (w, Finished, None)
      end
  | Finished => None
  end.

(** ** Requests *)

Definition shell_environment_policy (env_policy : ExecEnvPolicy) : ShellEnvironmentPolicy :=
  mkEnvPolicy (ep_inherit env_policy) (ep_ignore_default_excludes env_policy)
    (new_case_insensitive <$> ep_exclude env_policy) (ep_set env_policy)
    (new_case_insensitive <$> ep_include_only env_policy) false.

Definition child_env (params : ExecParams) : gmap str str :=
  match env_policy params with
  | None => env params
  | Some env_policy =>
      env params ∪ create_env_from_vars matches host_vars (shell_environment_policy env_policy) None
  end.

Definition spawn_mode (params : ExecParams) : SpawnMode :=
  if tty params then SpawnPty else if pipe_stdin params then SpawnPipe else SpawnPipeNoStdin.

(** The first block of [start_process]: the program, its arguments and the directory,
    with the entry claimed. *)
Definition claim_entry (params : ExecParams) (w : Inner)
    : Inner * result JSONRPCErrorError (str * list str * str) :=
  match argv params with
  | [] => (w, Err (invalid_params (lit "argv must not be empty")))
  | program :: args =>
      match to_abs_path (cwd params) with
      | Err err =>
          (w, Err (invalid_params (lit "cwd URI `" ++ cwd params ++
                                   lit "` is not valid on this exec-server host: " ++ err)))
      | Ok native_cwd =>
          match processes w !! process_id params with
          | Some _ =>
              (w, Err (invalid_request (lit "process " ++ process_id params ++ lit " already exists")))
          | None =>
              (set_processes (<[process_id params := StartingEntry]> (processes w)) w,
               Ok (program, args, native_cwd))
          end
      end
  end.

Definition release_entry (pid : str) (w : Inner) : Inner :=
  match processes w !! pid with
  | Some StartingEntry => set_processes (delete pid (processes w)) w
  | _ => w
  end.

(** The last block: the shared objects are created and the entry becomes a running
    process.  The result is the handle. *)
Definition install_process (params : ExecParams) (session : N) (w : Inner) : Inner * N :=
  let h := next_handle w in
  let shared := mkShared (channel 0%N)
    (log_new PROCESS_EVENT_CHANNEL_CAPACITY RETAINED_OUTPUT_BYTES_PER_PROCESS) in
  let p := mkProcess session (tty params) (pipe_stdin params) [] 0 1 None h 2 false in
  (mkInner (notifications w) (<[process_id params := RunningEntry p]> (processes w))
     (<[h := shared]> (handles w)) (h + 1) (now w) (pty_calls w) (wire w) (emitted w), h).

(** The loop over the retained chunks of [exec_read]. *)
Fixpoint collect_chunks (max_bytes : N) (retained : list ProcessOutputChunk)
    (chunks : list ProcessOutputChunk) (total_bytes next_seq : N) : list ProcessOutputChunk * N :=
  match retained with
  | [] => (chunks, next_seq)
  | c :: retained =>
      if negb (is_empty chunks) && (max_bytes <? total_bytes + chunk_len c)%N then (chunks, next_seq)
      else
        let total_bytes := (total_bytes + chunk_len c)%N in
        if (max_bytes <=? total_bytes)%N then (chunks ++ [c], chunk_seq c + 1)%N
        else collect_chunks max_bytes retained (chunks ++ [c]) total_bytes (chunk_seq c + 1)
  end.

Definition read_response (after_seq max_bytes : N) (p : RunningProcess) : ReadResponse :=
  let '(cs, next) := collect_chunks max_bytes
    (List.filter (λ c, (after_seq <? chunk_seq c)%N) (output p)) [] 0 (p_next_seq p) in
  mkReadResponse cs next (opt_is_some (p_exit_code p)) (p_exit_code p) (p_closed p) None.

Record ReadParams := mkReadParams {
  r_process_id : str;
  r_after_seq : option N;
  r_max_bytes : option N;
  r_wait_ms : option N;
}.

Definition after_seq_of (params : ReadParams) : N := default 0%N (r_after_seq params).
Definition max_bytes_of (params : ReadParams) : N := default USIZE_MAX (r_max_bytes params).

Definition has_news (params : ReadParams) (response : ReadResponse) : bool :=
  negb (is_empty (chunks response)) || closed response
  || (exited response && (after_seq_of params <? sat_sub (next_seq response) 1)%N).

(** One round of the loop of [exec_read]: [None] is to wait for more. *)
Definition read_round (params : ReadParams) (deadline : N) (w : Inner)
    : option (result JSONRPCErrorError ReadResponse) :=
  match processes w !! r_process_id params with
  | None => Some (Err (invalid_request (lit "unknown process id " ++ r_process_id params)))
  | Some StartingEntry =>
      Some (Err (invalid_request (lit "process id " ++ r_process_id params ++ lit " is starting")))
  | Some (RunningEntry p) =>
      let response := read_response (after_seq_of params) (max_bytes_of params) p in
      if has_news params response || (deadline <=? now w)%N then Some (Ok response) else None
  end.

(** The lookup of [exec_write]: an answer, or the session to write to. *)
Definition write_target (pid : str) (w : Inner) : WriteStatus + N :=
  match processes w !! pid with
  | None => inl UnknownProcess
  | Some StartingEntry => inl Starting
  | Some (RunningEntry p) =>
      if negb (p_tty p) && negb (p_pipe_stdin p) then inl StdinClosed else inr (session p)
  end.

(** [outcome] is the answer of the operating system. *)
Definition signal_process (pid : str) (outcome : result str unit) (w : Inner)
    : Inner * result JSONRPCErrorError unit :=
  match processes w !! pid with
  | Some (RunningEntry p) =>
      if opt_is_some (p_exit_code p) then (w, Ok ())
      else (pty_call (PtySignal (session p)) w,
            map_err (λ err, internal_error (lit "failed to signal process: " ++ err)) outcome)
  | Some StartingEntry | None => (w, Ok ())
  end.

Definition terminate_process (pid : str) (w : Inner) : Inner * bool :=
  match processes w !! pid with
  | Some (RunningEntry p) =>
      if opt_is_some (p_exit_code p) then (w, false)
      else (pty_call (PtyTerminate (session p)) w, true)
  | Some StartingEntry | None => (w, false)
  end.

(** The table is drained in the order [order] gives its entries. *)
Definition shutdown (order : gmap str ProcessEntry → list (str * ProcessEntry)) (w : Inner) : Inner :=
  let remaining := omap (λ kv, match kv.2 with StartingEntry => None | RunningEntry p => Some p end)
                     (order (processes w)) in
  fold_left (λ w p, pty_call (PtyTerminate (session p)) w) remaining (set_processes ∅ w).

Inductive Request :=
| ReqExec (params : ExecParams) (outcome : SpawnOutcome)
| ReqRead (params : ReadParams)
| ReqWrite (pid : str) (chunk : list N) (accepted : bool)
| ReqSignal (pid : str) (outcome : result str unit)
| ReqTerminate (pid : str)
| ReqSetSender (conn : option N)
| ReqShutdown (order : gmap str ProcessEntry → list (str * ProcessEntry)).

Inductive Reply :=
| ExecReply (r : result JSONRPCErrorError (str * N))
| ReadReply (r : result JSONRPCErrorError ReadResponse)
| WriteReply (r : result JSONRPCErrorError WriteStatus)
| SignalReply (r : result JSONRPCErrorError unit)
| TerminateReply (r : result JSONRPCErrorError bool)
| UnitReply
| Dropped.

(** Where a request is. *)
Inductive RequestState :=
| Arrived (r : Request)
| StartSpawn (params : ExecParams) (outcome : SpawnOutcome) (program : str) (args : list str) (native_cwd : str)
| StartFailed (pid : str) (err : str)
| StartInstall (params : ExecParams) (session : N) (stdout stderr : list (list N)) (exit : option Z)
| StartReturn (pid : str) (h : N)
| ReadLoop (params : ReadParams) (deadline : N)
| WriteSend (session : N) (chunk : list N) (accepted : bool)
| Replied (r : Reply).

(** The tasks of a running process, with what the system will deliver ([origin]). *)
Record Origin := mkOrigin {
  o_pid : str;
  o_tty : bool;
  o_stdout : list (list N);
  o_stderr : list (list N);
  o_exit : option Z;
}.

Record ProcessTasks := mkTasks {
  origin : Origin;
  out_task : TaskState;
  err_task : TaskState;
  exit_task : TaskState;
}.

(** [tokio::spawn] of the three tasks of [start_process]. *)
Definition spawn_tasks (o : Origin) : ProcessTasks :=
  mkTasks o (Streaming (o_stdout o)) (Streaming (o_stderr o)) Exiting.

(** One access of a request; the last component is the process whose tasks it spawns. *)
Definition run_request (r : RequestState) (w : Inner)
    : option (Inner * RequestState * option (N * ProcessTasks)) :=
  match r with
  | Arrived (ReqExec params outcome) =>
      match claim_entry params w with
      | (w, Err err) => Some (w, Replied (ExecReply (Err err)), None)
      | (w, Ok (program, args, native_cwd)) =>
          Some (w, StartSpawn params outcome program args native_cwd, None)
      end
  | StartSpawn params outcome program args native_cwd =>
      let w := pty_call (PtySpawn (spawn_mode params) program args native_cwd (child_env params)
                           (arg0 params)) w in
      match outcome with
      | SpawnFailed err => Some (w, StartFailed (process_id params) err, None)
      | SpawnedProcess session stdout stderr exit =>
          Some (w, StartInstall params session stdout stderr exit, None)
      end
  | StartFailed pid err => Some (release_entry pid w, Replied (ExecReply (Err (internal_error err))), None)
  | StartInstall params session stdout stderr exit =>
      let '(w, h) := install_process params session w in
      Some (w, StartReturn (process_id params) h,
            Some (h, spawn_tasks (mkOrigin (process_id params) (tty params) stdout stderr exit)))
  | StartReturn pid h =>
      (* the receiver of the wake channel is dropped on return *)
      Some (set_handles (alter (λ s, mkShared (drop_rx (wake_tx s)) (log s)) h (handles w)) w,
            Replied (ExecReply (Ok (pid, h))), None)
  | Arrived (ReqRead params) =>
      Some (w, ReadLoop params (now w + default 0%N (r_wait_ms params))%N, None)
  | ReadLoop params deadline =>
      match read_round params deadline w with
      | Some reply => Some (w, Replied (ReadReply reply), None)
      | None => Some (w, ReadLoop params deadline, None)
      end
  | Arrived (ReqWrite pid chunk accepted) =>
      match write_target pid w with
      | inl status => Some (w, Replied (WriteReply (Ok status)), None)
      | inr session => Some (w, WriteSend session chunk accepted, None)
      end
  | WriteSend session chunk accepted =>
      if accepted then Some (pty_call (PtyWrite session chunk) w, Replied (WriteReply (Ok Accepted)), None)
      else Some (w, Replied (WriteReply (Err (internal_error (lit "failed to write to process stdin")))), None)
  | Arrived (ReqSignal pid outcome) =>
      let '(w, reply) := signal_process pid outcome w in Some (w, Replied (SignalReply reply), None)
  | Arrived (ReqTerminate pid) =>
      let '(w, running) := terminate_process pid w in Some (w, Replied (TerminateReply (Ok running)), None)
  | Arrived (ReqSetSender conn) => Some (set_notification_sender conn w, Replied UnitReply, None)
  | Arrived (ReqShutdown order) => Some (shutdown order w, Replied UnitReply, None)
  | Replied _ => None
  end.

(** ** The system *)

Record System := mkSystem {
  inner : Inner;
  procs : gmap N ProcessTasks;
  cleanups : list str;
  requests : list RequestState;
}.

Definition fresh_inner (conn : option N) : Inner := mkInner conn ∅ ∅ 0 0 [] [] [].
Definition fresh_system (conn : option N) : System := mkSystem (fresh_inner conn) ∅ [] [].

Inductive Slot := OutSlot | ErrSlot | ExitSlot.

Definition slot_task (s : Slot) (t : ProcessTasks) : TaskState :=
  match s with OutSlot => out_task t | ErrSlot => err_task t | ExitSlot => exit_task t end.
Definition set_slot (s : Slot) (x : TaskState) (t : ProcessTasks) : ProcessTasks :=
  match s with
  | OutSlot => mkTasks (origin t) x (err_task t) (exit_task t)
  | ErrSlot => mkTasks (origin t) (out_task t) x (exit_task t)
  | ExitSlot => mkTasks (origin t) (out_task t) (err_task t) x
  end.

(** The stream a task was spawned for; [exit_rx.await.unwrap_or(-1)]. *)
Definition slot_stream (s : Slot) (o : Origin) : ExecOutputStream :=
  if o_tty o then Pty else match s with OutSlot => Stdout | _ => Stderr end.
Definition exit_status (o : Origin) : Z := default (-1)%Z (o_exit o).

Inductive choice :=
| RunTask (h : N) (s : Slot)
| RunCleanup (i : nat)
| RunRequest (i : nat)
| Arrive (r : Request)
| Drop (i : nat)
| Tick (ms : N).

Definition run_choice (c : choice) (s : System) : option System :=
  match c with
  | RunTask h slot =>
      t ← procs s !! h;
      let o := origin t in
      '(w, x, spawned) ← run_task (o_pid o) (slot_stream slot o) (exit_status o) (slot_task slot t) (inner s);
      Some (mkSystem w (<[h := set_slot slot x t]> (procs s))
              (match spawned with Some pid => cleanups s ++ [pid] | None => cleanups s end) (requests s))
  | RunCleanup i =>
      pid ← cleanups s !! i;
      Some (mkSystem (evict_closed pid (inner s)) (procs s) (delete i (cleanups s)) (requests s))
  | RunRequest i =>
      r ← requests s !! i;
      '(w, r', spawned) ← run_request r (inner s);
      Some (mkSystem w (match spawned with Some (h, t) => <[h := t]> (procs s) | None => procs s end)
              (cleanups s) (<[i := r']> (requests s)))
  | Arrive r => Some (mkSystem (inner s) (procs s) (cleanups s) (requests s ++ [Arrived r]))
  | Drop i =>
      r ← requests s !! i;
      match r with
      | Replied _ | StartReturn _ _ => None
      | _ => Some (mkSystem (inner s) (procs s) (cleanups s) (<[i := Replied Dropped]> (requests s)))
      end
  | Tick ms => Some (mkSystem (tick ms (inner s)) (procs s) (cleanups s) (requests s))
  end.

Definition step (s s' : System) : Prop := ∃ c, run_choice c s = Some s'.

Fixpoint run_choices (cs : list choice) (s : System) : option System :=
  match cs with [] => Some s | c :: cs => s ← run_choice c s; run_choices cs s end.

(** Until the server is shut down. *)
Definition serving (c : choice) : Prop := match c with Arrive (ReqShutdown _) => False | _ => True end.
Definition serve (s s' : System) : Prop := ∃ c, serving c ∧ run_choice c s = Some s'.

(** ** What the tasks have done *)

Definition events_of (h : N) (w : Inner) : list ExecProcessEvent :=
  omap (λ phe, if (phe.1.2 =? h)%N then Some phe.2 else None) (emitted w).

Definition outputs (es : list ExecProcessEvent) : list ProcessOutputChunk :=
  omap (λ e, match e with EvOutput c => Some c | _ => None end) es.
Definition exits (es : list ExecProcessEvent) : list Z :=
  omap (λ e, match e with EvExited _ code => Some code | _ => None end) es.
Definition is_closed (e : ExecProcessEvent) : bool := match e with EvClosed _ => true | _ => false end.

(** The events carry the numbers 1, 2, ... in the order they were emitted. *)
Definition sequenced (es : list ExecProcessEvent) : Prop :=
  ∀ i e, es !! i = Some e → event_seq e = Some (N.of_nat i + 1)%N.

(** [l] is made of [l1] and [l2], each in its order. *)
Inductive interleaved {A} : list A → list A → list A → Prop :=
| interleaved_nil : interleaved [] [] []
| interleaved_left a l1 l2 l : interleaved l1 l2 l → interleaved (l1 ++ [a]) l2 (l ++ [a])
| interleaved_right a l1 l2 l : interleaved l1 l2 l → interleaved l1 (l2 ++ [a]) (l ++ [a]).

Definition payload (c : ProcessOutputChunk) : ExecOutputStream * list N := (chunk_stream c, chunk_bytes c).

(** What a task has still to do, beyond the notification in flight. *)
Fixpoint task_left (t : TaskState) : list (list N) :=
  match t with Streaming q => q | Notify _ t | Sending _ _ t => task_left t | _ => [] end.
Fixpoint task_open (t : TaskState) : bool :=
  match t with Streaming _ | Finishing => true | Notify _ t | Sending _ _ t => task_open t | _ => false end.
Fixpoint task_waits (t : TaskState) : bool :=
  match t with Exiting => true | Notify _ t | Sending _ _ t => task_waits t | _ => false end.
Fixpoint task_notes (t : TaskState) : list Notification :=
  match t with Notify n t | Sending n _ t => n :: task_notes t | _ => [] end.

Record View := mkView {
  v_origin : Origin;
  v_out : list (list N) * bool;
  v_err : list (list N) * bool;
  v_waits : bool;
}.

Definition view (t : ProcessTasks) : View :=
  mkView (origin t) (task_left (out_task t), task_open (out_task t))
    (task_left (err_task t), task_open (err_task t)) (task_waits (exit_task t)).

Definition busy (v : View) : bool := (v_out v).2 || (v_err v).2 || v_waits v.

Record trace_ok (v : View) (es : list ExecProcessEvent) : Prop := {
  trace_sequenced : sequenced es;
  trace_output : ∃ out err,
    o_stdout (v_origin v) = out ++ (v_out v).1 ∧ o_stderr (v_origin v) = err ++ (v_err v).1 ∧
    interleaved (pair (slot_stream OutSlot (v_origin v)) <$> out)
      (pair (slot_stream ErrSlot (v_origin v)) <$> err) (payload <$> outputs es);
  trace_exits : exits es = if v_waits v then [] else [exit_status (v_origin v)];
  trace_closed : any is_closed es = true →
    busy v = false ∧ ∃ es0 seq, es = es0 ++ [EvClosed seq] ∧ any is_closed es0 = false;
}.

Record entry_ok (v : View) (p : RunningProcess) (es : list ExecProcessEvent) : Prop := {
  entry_seq : p_next_seq p = (N.of_nat (length es) + 1)%N;
  entry_output : output p = fitting chunk_len (over_bytes RETAINED_OUTPUT_BYTES_PER_PROCESS) (outputs es);
  entry_bytes : p_retained_bytes p = total_size chunk_len (output p);
  entry_exit : p_exit_code p = if v_waits v then None else Some (exit_status (v_origin v));
  entry_open : open_streams p = ((if (v_out v).2 then 1 else 0) + (if (v_err v).2 then 1 else 0))%N;
  entry_closed : p_closed p = any is_closed es;
}.

Fixpoint stream_shape (t : TaskState) : Prop :=
  match t with Exiting => False | Notify _ t | Sending _ _ t => stream_shape t | _ => True end.
Fixpoint exit_shape (t : TaskState) : Prop :=
  match t with
  | Streaming _ | Finishing => False
  | Notify _ t | Sending _ _ t => exit_shape t
  | _ => True
  end.
Definition shaped (t : ProcessTasks) : Prop :=
  stream_shape (out_task t) ∧ stream_shape (err_task t) ∧ exit_shape (exit_task t).

(** The entry a request in flight has claimed. *)
Definition claims (r : RequestState) : option str :=
  match r with
  | StartSpawn params _ _ _ _ | StartInstall params _ _ _ _ => Some (process_id params)
  | StartFailed pid _ => Some pid
  | _ => None
  end.

Record Inv (s : System) : Prop := {
  inv_procs h t : procs s !! h = Some t →
    shaped t ∧ trace_ok (view t) (events_of h (inner s)) ∧
    (busy (view t) = true → ∃ p, running (o_pid (origin t)) (inner s) = Some p ∧ handle p = h);
  inv_entries pid p : running pid (inner s) = Some p →
    ∃ t, procs s !! handle p = Some t ∧ o_pid (origin t) = pid ∧
      entry_ok (view t) p (events_of (handle p) (inner s));
  inv_fresh h : (next_handle (inner s) <= h)%N → procs s !! h = None ∧ events_of h (inner s) = [];
  inv_cleanups pid : pid ∈ cleanups s → ∃ p, running pid (inner s) = Some p ∧ p_closed p = true;
  inv_cleanups_once : NoDup (cleanups s);
  inv_claims pid : pid ∈ omap claims (requests s) → processes (inner s) !! pid = Some StartingEntry;
  inv_claims_once : NoDup (omap claims (requests s));
  inv_serving order : Arrived (ReqShutdown order) ∉ requests s;
}.

(** ** The invariant is kept *)

Lemma task_left_open t : task_open t = false → task_left t = [].
Proof. induction t; cbn; done. Qed.

Lemma events_of_announce h pid h' seq e w :
  events_of h (announce pid h' seq e w) = events_of h w ++ (if (h' =? h)%N then [e] else []).
Proof. unfold events_of, announce. cbn. rewrite omap_app. cbn. by destruct (h' =? h)%N. Qed.

Lemma running_Some pid w p : running pid w = Some p ↔ processes w !! pid = Some (RunningEntry p).
Proof. unfold running. destruct (processes w !! pid) as [[|]|]; split; congruence. Qed.

Lemma running_insert pid pid' p w w' :
  processes w' = <[pid := RunningEntry p]> (processes w) →
  running pid' w' = if decide (pid' = pid) then Some p else running pid' w.
Proof.
  intros H. unfold running. rewrite H. destruct (decide (pid' = pid)) as [-> | Hne].
  - by rewrite lookup_insert_eq.
  - by rewrite lookup_insert_ne.
Qed.

Lemma outputs_snoc es e :
  outputs (es ++ [e]) = outputs es ++ (match e with EvOutput c => [c] | _ => [] end).
Proof. unfold outputs. rewrite omap_app. by destruct e. Qed.

Lemma exits_snoc es e : exits (es ++ [e]) = exits es ++ (match e with EvExited _ c => [c] | _ => [] end).
Proof. unfold exits. rewrite omap_app. by destruct e. Qed.

Lemma any_app {A} (p : A → bool) l l' : any p (l ++ l') = any p l || any p l'.
Proof. apply existsb_app. Qed.

Lemma sequenced_snoc es e :
  sequenced es → event_seq e = Some (N.of_nat (length es) + 1)%N → sequenced (es ++ [e]).
Proof.
  intros H He i e' Hi. apply lookup_snoc_Some in Hi as [[_ Hi] | [-> <-]]; [by apply H | done].
Qed.

(** Tasks that moved without touching the table. *)
Lemma inv_tasks s w' m' :
  Inv s → processes w' = processes (inner s) → next_handle w' = next_handle (inner s) →
  emitted w' = emitted (inner s) →
  (∀ h t', m' !! h = Some t' → ∃ t, procs s !! h = Some t ∧ shaped t' ∧ view t' = view t) →
  (∀ h t, procs s !! h = Some t → is_Some (m' !! h)) →
  Inv (mkSystem w' m' (cleanups s) (requests s)).
Proof.
  intros I Hp Hn He Hm Hdom.
  assert (Hr : ∀ pid, running pid w' = running pid (inner s)) by (intros; unfold running; by rewrite Hp).
  assert (Hev : ∀ h, events_of h w' = events_of h (inner s)) by (intros; unfold events_of; by rewrite He).
  split; cbn [inner procs cleanups requests].
  - intros h t' Ht'. destruct (Hm _ _ Ht') as (t & Ht & Hsh & Hv).
    destruct (inv_procs _ I _ _ Ht) as (_ & Htr & Hb). rewrite Hv, Hev, Hr. split; [done|]. split; [done|].
    intros Hbusy. apply Hb in Hbusy. by replace (origin t') with (origin t) by apply (f_equal v_origin (eq_sym Hv)).
  - intros pid p. rewrite Hr. intros Hpid. destruct (inv_entries _ I _ _ Hpid) as (t & Ht & Ho & Hok).
    destruct (Hdom _ _ Ht) as [t' Ht']. destruct (Hm _ _ Ht') as (t2 & Ht2 & _ & Hv).
    assert (t2 = t) as -> by congruence. exists t'. rewrite Hev, Hv. split; [done|].
    by replace (origin t') with (origin t) by apply (f_equal v_origin (eq_sym Hv)).
  - intros h. rewrite Hn, Hev. intros Hh. destruct (inv_fresh _ I _ Hh) as [Hnone ?]. split; [|done].
    destruct (m' !! h) as [t'|] eqn:E; [| done]. destruct (Hm _ _ E) as (t & Ht & _). congruence.
  - intros pid. rewrite Hr. apply (inv_cleanups _ I).
  - apply (inv_cleanups_once _ I).
  - rewrite Hp. apply (inv_claims _ I).
  - apply (inv_claims_once _ I).
  - apply (inv_serving _ I).
Qed.

(** A task that changed the entry [pid], whose process is [p], and emitted [es] for it. *)
Lemma inv_update s w' m' cl' pid p p' es :
  Inv s → running pid (inner s) = Some p → handle p' = handle p →
  processes w' = <[pid := RunningEntry p']> (processes (inner s)) →
  next_handle w' = next_handle (inner s) →
  (∀ h, events_of h w' = events_of h (inner s) ++ (if (handle p =? h)%N then es else [])) →
  (∀ h t', m' !! h = Some t' → ∃ t, procs s !! h = Some t ∧ shaped t' ∧ origin t' = origin t ∧
    (h ≠ handle p → view t' = view t)) →
  (∀ t', m' !! handle p = Some t' →
    trace_ok (view t') (events_of (handle p) (inner s) ++ es) ∧
    entry_ok (view t') p' (events_of (handle p) (inner s) ++ es)) →
  (∀ h t, procs s !! h = Some t → is_Some (m' !! h)) →
  (p_closed p' = p_closed p ∧ cl' = cleanups s ∨
   p_closed p = false ∧ p_closed p' = true ∧ cl' = cleanups s ++ [pid]) →
  Inv (mkSystem w' m' cl' (requests s)).
Proof.
  intros I Hpid Hh Hp Hn Hev Hm Hok Hdom Hcl.
  pose proof (λ pid', running_insert pid pid' p' _ _ Hp) as Hr.
  destruct (inv_entries _ I _ _ Hpid) as (t0 & Ht0 & Ho0 & Hok0).
  split; cbn [inner procs cleanups requests].
  - intros h t' Ht'. destruct (Hm _ _ Ht') as (t & Ht & Hsh & Ho & Hv).
    destruct (inv_procs _ I _ _ Ht) as (_ & Htr & Hb). split; [done|].
    destruct (decide (h = handle p)) as [-> | Hne].
    + rewrite Hev, N.eqb_refl. split; [by apply Hok|]. intros _. exists p'.
      rewrite Hr, Ho, decide_True; [done|]. congruence.
    + rewrite Hev, Hv, (proj2 (N.eqb_neq _ _)), app_nil_r by done. split; [done|].
      intros Hbusy. destruct (Hb Hbusy) as (p0 & Hp0 & Hh0). exists p0. rewrite Hr, Ho, decide_False; [done|].
      intros E. rewrite E in Hp0. congruence.
  - intros pid' p1. rewrite Hr. destruct (decide (pid' = pid)) as [-> | Hne].
    + intros [= <-]. rewrite Hh. destruct (Hdom _ _ Ht0) as [t' Ht']. exists t'.
      destruct (Hm _ _ Ht') as (t & Ht & _ & Ho & _). assert (t = t0) as -> by congruence.
      rewrite Hev, N.eqb_refl, Ho. split; [done|]. split; [done|]. by apply Hok.
    + intros Hp1. destruct (inv_entries _ I _ _ Hp1) as (t & Ht & Ho & Hok1).
      destruct (Hdom _ _ Ht) as [t' Ht']. destruct (Hm _ _ Ht') as (t2 & Ht2 & _ & Ho2 & Hv2).
      assert (t2 = t) as -> by congruence.
      assert (Hneq : handle p1 ≠ handle p).
      { intros E. rewrite E in Ht. assert (t = t0) as -> by congruence. congruence. }
      exists t'. rewrite Hev, (proj2 (N.eqb_neq _ _)), app_nil_r, Ho2, Hv2 by done. done.
  - intros h. rewrite Hn, Hev. intros Hle. destruct (inv_fresh _ I _ Hle) as [Hnone Hnil]. split.
    + destruct (m' !! h) as [t'|] eqn:E; [| done]. destruct (Hm _ _ E) as (t & Ht & _). congruence.
    + rewrite Hnil. destruct (N.eqb_spec (handle p) h) as [<- |]; [congruence | done].
  - intros pid' Hin. rewrite Hr. destruct Hcl as [[Hc ->] | (Hc & Hc' & ->)].
    + destruct (inv_cleanups _ I _ Hin) as (p1 & Hp1 & Hc1).
      destruct (decide (pid' = pid)) as [-> |]; [| by exists p1]. exists p'. split; [done|]. congruence.
    + apply elem_of_app in Hin as [Hin | Hin%list_elem_of_singleton].
      * destruct (inv_cleanups _ I _ Hin) as (p1 & Hp1 & Hc1).
        destruct (decide (pid' = pid)) as [-> |]; [by exists p' | by exists p1].
      * subst pid'. rewrite decide_True by done. by exists p'.
  - destruct Hcl as [[Hc ->] | (Hc & Hc' & ->)]; [apply (inv_cleanups_once _ I)|].
    apply NoDup_app. split; [apply (inv_cleanups_once _ I)|]. split; [| apply NoDup_singleton].
    intros pid' Hin ->%list_elem_of_singleton. destruct (inv_cleanups _ I _ Hin) as (p1 & Hp1 & Hc1). congruence.
  - intros pid' Hin. rewrite Hp. rewrite lookup_insert_ne; [by apply (inv_claims _ I)|].
    intros <-. apply (inv_claims _ I) in Hin. apply running_Some in Hpid. congruence.
  - apply (inv_claims_once _ I).
  - apply (inv_serving _ I).
Qed.

(** What each event does to the record of a process. *)

Definition set_out (x : list (list N) * bool) (v : View) : View :=
  mkView (v_origin v) x (v_err v) (v_waits v).
Definition set_err (x : list (list N) * bool) (v : View) : View :=
  mkView (v_origin v) (v_out v) x (v_waits v).
Definition set_exited (v : View) : View := mkView (v_origin v) (v_out v) (v_err v) false.

Lemma open_not_closed v es : trace_ok v es → busy v = true → any is_closed es = false.
Proof.
  intros T Hb. destruct (any is_closed es) eqn:E; [|done].
  destruct (trace_closed _ _ T E) as [Hb' _]. congruence.
Qed.

Lemma any_closed_snoc es e : is_closed e = false → any is_closed (es ++ [e]) = any is_closed es.
Proof. intros He. rewrite any_app. cbn. by rewrite He, !orb_false_r. Qed.

Lemma trace_chunk (slot : Slot) v es chunk q b :
  trace_ok v es → slot ≠ ExitSlot →
  (match slot with OutSlot => v_out v | _ => v_err v end) = (chunk :: q, true) →
  b = true →
  trace_ok (match slot with OutSlot => set_out (q, b) v | _ => set_err (q, b) v end)
    (es ++ [EvOutput (mkChunk (N.of_nat (length es) + 1) (slot_stream slot (v_origin v)) chunk)]).
Proof.
  intros T Hs Hv ->.
  assert (Hb : busy v = true).
  { unfold busy. destruct slot; [| |done]; rewrite Hv; cbn; by rewrite ?orb_true_r. }
  pose proof (open_not_closed _ _ T Hb) as Hc.
  destruct (trace_output _ _ T) as (out & err & Ho & He & Hi).
  split.
  - apply sequenced_snoc; [apply (trace_sequenced _ _ T) | done].
  - rewrite outputs_snoc, fmap_app. destruct slot; [| |done]; rewrite Hv in *; cbn [set_out set_err v_origin v_out v_err fst] in *.
    + exists (out ++ [chunk]), err. rewrite <-app_assoc. split; [done|]. split; [done|].
      rewrite fmap_app. by constructor.
    + exists out, (err ++ [chunk]). rewrite <-app_assoc. split; [done|]. split; [done|].
      rewrite fmap_app. by constructor.
  - rewrite exits_snoc, app_nil_r, (trace_exits _ _ T). by destruct slot.
  - rewrite any_closed_snoc, Hc by done. done.
Qed.

Lemma entry_chunk v v' p es stream chunk :
  entry_ok v p es → v_origin v' = v_origin v → (v_out v').2 = (v_out v).2 → (v_err v').2 = (v_err v).2 →
  v_waits v' = v_waits v →
  entry_ok v' (push_output stream chunk p)
    (es ++ [EvOutput (mkChunk (N.of_nat (length es) + 1) stream chunk)]).
Proof.
  intros H Ho H1 H2 H3. unfold push_output. rewrite (entry_bytes _ _ _ H), (entry_output _ _ _ H), (entry_seq _ _ _ H).
  pose proof (evict_push chunk_len (over_bytes RETAINED_OUTPUT_BYTES_PER_PROCESS) (outputs es)
                (mkChunk (N.of_nat (length es) + 1) stream chunk)) as Hev.
  change (chunk_len (mkChunk _ _ _)) with (byte_count chunk) in Hev. rewrite Hev. split; cbn.
  - rewrite length_app. cbn. lia.
  - by rewrite outputs_snoc.
  - done.
  - rewrite H3, Ho. apply (entry_exit _ _ _ H).
  - rewrite H1, H2. apply (entry_open _ _ _ H).
  - rewrite any_closed_snoc by done. apply (entry_closed _ _ _ H).
Qed.

Lemma trace_exit v es :
  trace_ok v es → v_waits v = true →
  trace_ok (set_exited v) (es ++ [EvExited (N.of_nat (length es) + 1) (exit_status (v_origin v))]).
Proof.
  intros T Hw. assert (Hb : busy v = true) by (unfold busy; by rewrite Hw, !orb_true_r).
  pose proof (open_not_closed _ _ T Hb) as Hc. split.
  - apply sequenced_snoc; [apply (trace_sequenced _ _ T) | done].
  - rewrite outputs_snoc, app_nil_r. exact (trace_output _ _ T).
  - rewrite exits_snoc, (trace_exits _ _ T), Hw. done.
  - rewrite any_closed_snoc, Hc by done. done.
Qed.

Lemma entry_exited v p es :
  entry_ok v p es →
  entry_ok (set_exited v) (set_exit (exit_status (v_origin v)) p)
    (es ++ [EvExited (N.of_nat (length es) + 1) (exit_status (v_origin v))]).
Proof.
  intros H. split; cbn.
  - rewrite (entry_seq _ _ _ H), length_app. cbn. lia.
  - rewrite outputs_snoc, app_nil_r. apply (entry_output _ _ _ H).
  - apply (entry_bytes _ _ _ H).
  - done.
  - apply (entry_open _ _ _ H).
  - rewrite any_closed_snoc by done. apply (entry_closed _ _ _ H).
Qed.

Lemma trace_ended (slot : Slot) v es :
  trace_ok v es → slot ≠ ExitSlot →
  (match slot with OutSlot => v_out v | _ => v_err v end) = ([], true) →
  trace_ok (match slot with OutSlot => set_out ([], false) v | _ => set_err ([], false) v end) es.
Proof.
  intros T Hs Hv.
  assert (Hb : busy v = true).
  { unfold busy. destruct slot; [| |done]; rewrite Hv; cbn; by rewrite ?orb_true_r. }
  pose proof (open_not_closed _ _ T Hb) as Hc.
  destruct (trace_output _ _ T) as (out & err & Ho & He & Hi).
  split.
  - apply (trace_sequenced _ _ T).
  - exists out, err. destruct slot; [| |done]; rewrite Hv in *; done.
  - rewrite (trace_exits _ _ T). by destruct slot.
  - by rewrite Hc.
Qed.

Lemma entry_ended (slot : Slot) v p es :
  entry_ok v p es → slot ≠ ExitSlot →
  (match slot with OutSlot => v_out v | _ => v_err v end) = ([], true) →
  entry_ok (match slot with OutSlot => set_out ([], false) v | _ => set_err ([], false) v end)
    (end_stream p) es.
Proof.
  intros H Hs Hv. pose proof (entry_open _ _ _ H) as Ho.
  split; cbn; try apply H; [by destruct slot; apply (entry_exit _ _ _ H)|].
  destruct slot; [| |done]; rewrite Hv in Ho; cbn in *; rewrite Ho.
  - by destruct (v_err v).2.
  - by destruct (v_out v).2.
Qed.

Lemma trace_close v es :
  trace_ok v es → busy v = false → any is_closed es = false →
  trace_ok v (es ++ [EvClosed (N.of_nat (length es) + 1)]).
Proof.
  intros T Hb Hc. split.
  - apply sequenced_snoc; [apply (trace_sequenced _ _ T) | done].
  - rewrite outputs_snoc, app_nil_r. exact (trace_output _ _ T).
  - rewrite exits_snoc, app_nil_r. apply (trace_exits _ _ T).
  - intros _. split; [done|]. by eexists _, _.
Qed.

Lemma entry_close v p es :
  entry_ok v p es → entry_ok v (set_closed p) (es ++ [EvClosed (N.of_nat (length es) + 1)]).
Proof.
  intros H. split; cbn; try apply H.
  - rewrite (entry_seq _ _ _ H), length_app. cbn. lia.
  - rewrite outputs_snoc, app_nil_r. apply (entry_output _ _ _ H).
  - rewrite any_app. cbn. by rewrite orb_true_r.
Qed.

Lemma entry_idle v p es :
  entry_ok v p es → open_streams p = 0%N → opt_is_some (p_exit_code p) = true → busy v = false.
Proof.
  intros H Ho Hx. rewrite (entry_open _ _ _ H) in Ho. rewrite (entry_exit _ _ _ H) in Hx.
  unfold busy. destruct (v_out v).2, (v_err v).2, (v_waits v); cbn in *; first [lia | done].
Qed.

(** *** The tasks *)

Definition slot_shape (slot : Slot) (x : TaskState) : Prop :=
  match slot with ExitSlot => exit_shape x | _ => stream_shape x end.

Definition same_work (x y : TaskState) : Prop :=
  task_left x = task_left y ∧ task_open x = task_open y ∧ task_waits x = task_waits y.

Lemma shaped_slot t slot : shaped t → slot_shape slot (slot_task slot t).
Proof. intros (?&?&?). by destruct slot. Qed.
Lemma shaped_set t slot x : shaped t → slot_shape slot x → shaped (set_slot slot x t).
Proof. intros (? & ? & ?) Hx. by destruct slot. Qed.
Lemma view_set_same t slot x : same_work x (slot_task slot t) → view (set_slot slot x t) = view t.
Proof. intros (H1 & H2 & H3). unfold view. destruct slot; cbn in *; congruence. Qed.
Lemma origin_set t slot x : origin (set_slot slot x t) = origin t.
Proof. by destruct slot. Qed.

Lemma lookup_task_moved {A} (m : gmap N A) h t0 t1 h0 t' :
  m !! h = Some t0 → <[h := t1]> m !! h0 = Some t' → h0 = h ∧ t' = t1 ∨ h0 ≠ h ∧ m !! h0 = Some t'.
Proof.
  intros Hh. destruct (decide (h0 = h)) as [-> | Hne].
  - rewrite lookup_insert_eq. intros [= <-]. by left.
  - rewrite lookup_insert_ne by done. by right.
Qed.
Lemma moved_dom {A} (m : gmap N A) h t1 h0 t0 : m !! h0 = Some t0 → is_Some (<[h := t1]> m !! h0).
Proof. intros H. apply lookup_insert_is_Some'. right. by eexists. Qed.

(** A task that only moved. *)
Lemma inv_moved s h slot t x w' :
  Inv s → procs s !! h = Some t → same_work x (slot_task slot t) → slot_shape slot x →
  processes w' = processes (inner s) → next_handle w' = next_handle (inner s) →
  emitted w' = emitted (inner s) →
  Inv (mkSystem w' (<[h := set_slot slot x t]> (procs s)) (cleanups s) (requests s)).
Proof.
  intros I Ht Hw Hx Hp Hn He. apply inv_tasks; [done..| | intros; by eapply moved_dom].
  intros h0 t' Ht'. destruct (lookup_task_moved _ _ _ _ _ _ Ht Ht') as [[-> ->] | [Hne H0]].
  - exists t. destruct (inv_procs _ I _ _ Ht) as (Hsh & _).
    split; [done|]. split; [by apply shaped_set | by apply view_set_same].
  - exists t'. destruct (inv_procs _ I _ _ H0) as (Hsh & _). done.
Qed.

(** A task that changed an entry: [own] when it is the entry of its own process. *)
Lemma inv_changed s h slot t x pid p p' es w' cl' :
  Inv s → procs s !! h = Some t → slot_shape slot x → running pid (inner s) = Some p →
  handle p' = handle p →
  (handle p = h ∨ same_work x (slot_task slot t)) →
  processes w' = <[pid := RunningEntry p']> (processes (inner s)) →
  next_handle w' = next_handle (inner s) →
  (∀ h, events_of h w' = events_of h (inner s) ++ (if (handle p =? h)%N then es else [])) →
  (∀ t0 : ProcessTasks,
    let v := if (handle p =? h)%N then view (set_slot slot x t) else view t0 in
    procs s !! handle p = Some t0 →
    trace_ok v (events_of (handle p) (inner s) ++ es) ∧ entry_ok v p' (events_of (handle p) (inner s) ++ es)) →
  (p_closed p' = p_closed p ∧ cl' = cleanups s ∨
   p_closed p = false ∧ p_closed p' = true ∧ cl' = cleanups s ++ [pid]) →
  Inv (mkSystem w' (<[h := set_slot slot x t]> (procs s)) cl' (requests s)).
Proof.
  intros I Ht Hx Hpid Hh Hown Hp Hn Hev Hok Hcl.
  eapply (inv_update s w' _ cl' pid p p' es); [done..| | | intros; by eapply moved_dom | done].
  - intros h0 t' Ht'. destruct (lookup_task_moved _ _ _ _ _ _ Ht Ht') as [[-> ->] | [Hne H0]].
    + exists t. destruct (inv_procs _ I _ _ Ht) as (Hsh & _).
      split; [done|]. split; [by apply shaped_set|]. split; [apply origin_set|].
      intros Hne. destruct Hown as [Hown | Hw]; [congruence|]. by apply view_set_same.
    + exists t'. destruct (inv_procs _ I _ _ H0) as (Hsh & _). done.
  - intros t' Ht'. destruct (lookup_task_moved _ _ _ _ _ _ Ht Ht') as [[Heq ->] | [Hne H0]].
    + specialize (Hok t). cbn zeta in Hok. rewrite (proj2 (N.eqb_eq _ _) Heq) in Hok.
      apply Hok. by rewrite Heq.
    + specialize (Hok t'). cbn zeta in Hok. rewrite (proj2 (N.eqb_neq _ _) Hne) in Hok. by apply Hok.
Qed.

Lemma busy_entry s h t :
  Inv s → procs s !! h = Some t → busy (view t) = true →
  ∃ p, running (o_pid (origin t)) (inner s) = Some p ∧ handle p = h ∧
    trace_ok (view t) (events_of h (inner s)) ∧ entry_ok (view t) p (events_of h (inner s)).
Proof.
  intros I Ht Hb. destruct (inv_procs _ I _ _ Ht) as (_ & T & Hrun). destruct (Hrun Hb) as (p & Hp & Hh).
  exists p. split; [done|]. split; [done|]. split; [done|].
  destruct (inv_entries _ I _ _ Hp) as (t' & Ht' & _ & Hok). rewrite Hh in *. congruence.
Qed.

Lemma inv_stream_chunk s h slot t chunk q w' n :
  Inv s → procs s !! h = Some t → slot_task slot t = Streaming (chunk :: q) →
  append_output (o_pid (origin t)) (slot_stream slot (origin t)) chunk (inner s) = Some (w', n) →
  Inv (mkSystem w' (<[h := set_slot slot (Notify n (Streaming q)) t]> (procs s)) (cleanups s) (requests s)).
Proof.
  intros I Ht Hs Ha.
  destruct (inv_procs _ I _ _ Ht) as (Hsh & _). pose proof (shaped_slot _ slot Hsh) as Hx. rewrite Hs in Hx.
  assert (Hne : slot ≠ ExitSlot) by (by intros ->).
  assert (Hb : busy (view t) = true).
  { unfold busy, view. destruct slot; [| |done]; cbn in *; rewrite Hs; cbn; by rewrite ?orb_true_r. }
  destruct (busy_entry _ _ _ I Ht Hb) as (p & Hp & Hh & T & Hok).
  unfold append_output in Ha. rewrite Hp in Ha. injection Ha as <- <-.
  eapply (inv_changed s h slot t _ _ p (push_output (slot_stream slot (origin t)) chunk p));
    [done | done | by destruct slot | done | | by left | done | done | | | left; split; [|done]].
  - unfold push_output. by destruct (evict _ _ _ _).
  - intros h'. rewrite events_of_announce. done.
  - intros t0. cbn zeta. rewrite Hh, N.eqb_refl. intros Ht0. rewrite (entry_seq _ _ _ Hok).
    assert (Hv : view (set_slot slot (Notify (OutputDelta (o_pid (origin t))
        (mkChunk (N.of_nat (length (events_of h (inner s))) + 1) (slot_stream slot (origin t)) chunk)) (Streaming q)) t)
      = match slot with OutSlot => set_out (q, true) (view t) | _ => set_err (q, true) (view t) end)
      by (destruct slot; [| |done]; reflexivity).
    rewrite Hv. split.
    + apply (trace_chunk slot (view t)); [done | done | | done].
      destruct slot; [| |done]; cbn in *; by rewrite Hs.
    + apply (entry_chunk (view t)); [done | | | |]; destruct slot; [| |done| | |done| | |done| | |done];
        cbn in *; rewrite ?Hs; done.
  - unfold push_output. by destruct (evict _ _ _ _).
Qed.

Lemma inv_stream_end s h slot t w' :
  Inv s → procs s !! h = Some t → slot_task slot t = Finishing →
  close_stream (o_pid (origin t)) (inner s) = Some w' →
  Inv (mkSystem w' (<[h := set_slot slot Closing t]> (procs s)) (cleanups s) (requests s)).
Proof.
  intros I Ht Hs Ha.
  destruct (inv_procs _ I _ _ Ht) as (Hsh & _). pose proof (shaped_slot _ slot Hsh) as Hx. rewrite Hs in Hx.
  assert (Hne : slot ≠ ExitSlot) by (by intros ->).
  assert (Hb : busy (view t) = true).
  { unfold busy, view. destruct slot; [| |done]; cbn in *; rewrite Hs; cbn; by rewrite ?orb_true_r. }
  destruct (busy_entry _ _ _ I Ht Hb) as (p & Hp & Hh & T & Hok).
  unfold close_stream in Ha. rewrite Hp in Ha. injection Ha as <-.
  eapply (inv_changed s h slot t _ _ p (end_stream p) []);
    [done | done | by destruct slot | done | done | by left | done | done | | | by left].
  - intros h'. by destruct (handle p =? h')%N; rewrite app_nil_r.
  - intros t0. cbn zeta. rewrite Hh, N.eqb_refl, app_nil_r. intros Ht0.
    assert (Hv : view (set_slot slot Closing t)
      = match slot with OutSlot => set_out ([], false) (view t) | _ => set_err ([], false) (view t) end)
      by (destruct slot; [| |done]; reflexivity).
    rewrite Hv. assert (Hslot : match slot with OutSlot => v_out (view t) | _ => v_err (view t) end = ([], true))
      by (destruct slot; [| |done]; cbn in *; by rewrite Hs).
    split; [by apply trace_ended | by apply entry_ended].
Qed.

Lemma inv_exit s h slot t w' n :
  Inv s → procs s !! h = Some t → slot_task slot t = Exiting →
  record_exit (o_pid (origin t)) (exit_status (origin t)) (inner s) = (w', n) →
  ∃ n', n = Some n' ∧
  Inv (mkSystem w' (<[h := set_slot slot (Notify n' Closing) t]> (procs s)) (cleanups s) (requests s)).
Proof.
  intros I Ht Hs Ha.
  destruct (inv_procs _ I _ _ Ht) as (Hsh & _). pose proof (shaped_slot _ slot Hsh) as Hx. rewrite Hs in Hx.
  destruct slot; [done | done |]. cbn in Hs.
  assert (Hb : busy (view t) = true) by (unfold busy, view; cbn; rewrite Hs; cbn; by rewrite !orb_true_r).
  destruct (busy_entry _ _ _ I Ht Hb) as (p & Hp & Hh & T & Hok).
  unfold record_exit in Ha. rewrite Hp in Ha. injection Ha as <- <-. eexists. split; [done|].
  eapply (inv_changed s h ExitSlot t _ _ p (set_exit (exit_status (origin t)) p));
    [done | done | done | done | done | by left | done | done | | | by left].
  - intros h'. by rewrite events_of_announce.
  - intros t0. cbn zeta. rewrite Hh, N.eqb_refl. intros Ht0. rewrite (entry_seq _ _ _ Hok). split.
    + apply (trace_exit (view t)); [done|]. cbn. by rewrite Hs.
    + by apply (entry_exited (view t)).
Qed.

Lemma inv_close s h slot t w' n :
  Inv s → procs s !! h = Some t → slot_task slot t = Closing →
  emit_closed (o_pid (origin t)) (inner s) = Some (w', n) →
  Inv (mkSystem w' (<[h := set_slot slot (Notify n Finished) t]> (procs s))
         (cleanups s ++ [o_pid (origin t)]) (requests s)).
Proof.
  intros I Ht Hs Ha. unfold emit_closed in Ha.
  destruct (running (o_pid (origin t)) (inner s)) as [p|] eqn:Hp; [|done]. cbn in Ha.
  destruct (p_closed p) eqn:Hc; [done|]. cbn in Ha.
  destruct (N.eqb_spec (open_streams p) 0) as [Ho|]; [|done]. cbn in Ha.
  destruct (opt_is_some (p_exit_code p)) eqn:Hx; [|done]. injection Ha as <- <-.
  destruct (inv_entries _ I _ _ Hp) as (tp & Htp & Hpid & Hok).
  destruct (inv_procs _ I _ _ Htp) as (_ & T & _).
  assert (Hsame : ∀ n, same_work (Notify n Finished) (slot_task slot t)) by (intros; rewrite Hs; done).
  eapply (inv_changed s h slot t _ _ p (set_closed p));
    [done | done | by destruct slot | done | done | by right | done | done | | | by right].
  - intros h'. by rewrite events_of_announce.
  - intros t0. cbn zeta. intros Ht0. assert (t0 = tp) as -> by congruence.
    assert (Hv : (if (handle p =? h)%N then view (set_slot slot (Notify (ClosedNote (o_pid (origin t)) (p_next_seq p)) Finished) t)
                  else view tp) = view tp).
    { destruct (N.eqb_spec (handle p) h) as [E|]; [|done]. rewrite E in Htp. rewrite view_set_same by done. congruence. }
    rewrite Hv, (entry_seq _ _ _ Hok). split; [| by apply entry_close].
    apply trace_close; [done | by eapply entry_idle |]. rewrite <-(entry_closed _ _ _ Hok). done.
Qed.

Lemma inv_run_task s h slot t w' x spawned :
  Inv s → procs s !! h = Some t →
  run_task (o_pid (origin t)) (slot_stream slot (origin t)) (exit_status (origin t)) (slot_task slot t)
    (inner s) = Some (w', x, spawned) →
  Inv (mkSystem w' (<[h := set_slot slot x t]> (procs s))
         (match spawned with Some pid => cleanups s ++ [pid] | None => cleanups s end) (requests s)).
Proof.
  intros I Ht. destruct (inv_procs _ I _ _ Ht) as (Hsh & _). pose proof (shaped_slot _ slot Hsh) as Hx.
  destruct (slot_task slot t) as [[| chunk q] | | | n next | n conn next | |] eqn:Hs; cbn [run_task].
  - intros [= <- <- <-]. apply inv_moved; [done | done | by rewrite Hs | by destruct slot | done..].
  - destruct (append_output _ _ _ _) as [[w1 n]|] eqn:Ha.
    + intros [= <- <- <-]. by eapply inv_stream_chunk.
    + exfalso. assert (Hb : busy (view t) = true).
      { unfold busy, view. destruct slot; [| |done]; cbn in *; rewrite Hs; cbn; by rewrite ?orb_true_r. }
      destruct (busy_entry _ _ _ I Ht Hb) as (p & Hp & _). unfold append_output in Ha. by rewrite Hp in Ha.
  - destruct (close_stream _ _) as [w1|] eqn:Ha.
    + intros [= <- <- <-]. by apply inv_stream_end.
    + exfalso. assert (Hb : busy (view t) = true).
      { unfold busy, view. destruct slot; [| |done]; cbn in *; rewrite Hs; cbn; by rewrite ?orb_true_r. }
      destruct (busy_entry _ _ _ I Ht Hb) as (p & Hp & _). unfold close_stream in Ha. by rewrite Hp in Ha.
  - destruct (record_exit _ _ _) as [w1 n] eqn:Ha.
    destruct (inv_exit _ _ _ _ _ _ I Ht Hs Ha) as (n' & -> & I'). by intros [= <- <- <-].
  - assert (Hn : slot_shape slot next) by (by destruct slot).
    destruct (notifications (inner s)); intros [= <- <- <-];
      (apply inv_moved; [done | done | by rewrite Hs | by destruct slot | done..]).
  - intros [= <- <- <-]. apply inv_moved; [done | done | by rewrite Hs | by destruct slot | done..].
  - destruct (emit_closed _ _) as [[w1 n]|] eqn:Ha.
    + intros [= <- <- <-]. by apply inv_close.
    + intros [= <- <- <-]. apply inv_moved; [done | done | by rewrite Hs | by destruct slot | done..].
  - done.
Qed.

(** *** Clean-up and requests *)

Lemma elem_of_delete_NoDup {A} (l : list A) i x y :
  NoDup l → l !! i = Some x → y ∈ delete i l → y ∈ l ∧ y ≠ x.
Proof.
  intros Hnd Hi Hy. rewrite <-(take_drop_middle l i x Hi) in Hnd |- *.
  rewrite delete_take_drop in Hy. apply NoDup_app in Hnd as (_ & Hd & Hnd). apply NoDup_cons in Hnd as [Hx _].
  apply elem_of_app in Hy as [Hy | Hy].
  - split; [by apply elem_of_app; left|]. intros ->. apply (Hd x Hy). by left.
  - split; [apply elem_of_app; right; by right|]. congruence.
Qed.

Lemma inv_cleanup s i pid :
  Inv s → cleanups s !! i = Some pid →
  Inv (mkSystem (evict_closed pid (inner s)) (procs s) (delete i (cleanups s)) (requests s)).
Proof.
  intros I Hi. destruct (inv_cleanups _ I pid) as (p & Hp & Hc); [by eapply list_elem_of_lookup_2|].
  assert (Hw : evict_closed pid (inner s) = set_processes (delete pid (processes (inner s))) (inner s)).
  { unfold evict_closed. by rewrite Hp, Hc. }
  rewrite Hw.
  assert (Hr : ∀ pid', pid' ≠ pid → running pid' (set_processes (delete pid (processes (inner s))) (inner s))
                        = running pid' (inner s)).
  { intros pid' Hne. unfold running. cbn. by rewrite lookup_delete_ne. }
  assert (Hr0 : running pid (set_processes (delete pid (processes (inner s))) (inner s)) = None).
  { unfold running. cbn. by rewrite lookup_delete_eq. }
  split; cbn [inner procs cleanups requests].
  - intros h t Ht. destruct (inv_procs _ I _ _ Ht) as (Hsh & T & Hb). split; [done|]. split; [done|].
    intros Hbusy. destruct (Hb Hbusy) as (p1 & Hp1 & Hh). exists p1. split; [|done].
    rewrite Hr; [done|]. intros E. rewrite E in Hp1. assert (p1 = p) as -> by congruence.
    destruct (inv_entries _ I _ _ Hp) as (t1 & Ht1 & _ & Hok). rewrite Hh in *.
    assert (t1 = t) as -> by congruence. rewrite (entry_closed _ _ _ Hok) in Hc.
    destruct (trace_closed _ _ T Hc) as [? _]. congruence.
  - intros pid' p1 Hp1. destruct (decide (pid' = pid)) as [-> | Hne]; [congruence|].
    rewrite Hr in Hp1 by done. by apply (inv_entries _ I).
  - apply (inv_fresh _ I).
  - intros pid' Hin. apply (elem_of_delete_NoDup _ _ _ _ (inv_cleanups_once _ I) Hi) in Hin as [Hin Hne].
    rewrite Hr by done. by apply (inv_cleanups _ I).
  - eapply sublist_NoDup; [apply (inv_cleanups_once _ I) | apply sublist_delete].
  - intros pid' Hin. cbn. pose proof (inv_claims _ I _ Hin) as Hst.
    rewrite lookup_delete_ne; [done|]. intros <-. apply running_Some in Hp. congruence.
  - apply (inv_claims_once _ I).
  - apply (inv_serving _ I).
Qed.

(** A request that leaves the running processes as they are. *)
Lemma inv_request s w' rs' :
  Inv s → (∀ pid, running pid w' = running pid (inner s)) → next_handle w' = next_handle (inner s) →
  emitted w' = emitted (inner s) →
  (∀ pid, pid ∈ omap claims rs' → processes w' !! pid = Some StartingEntry) → NoDup (omap claims rs') →
  (∀ order, Arrived (ReqShutdown order) ∉ rs') →
  Inv (mkSystem w' (procs s) (cleanups s) rs').
Proof.
  intros I Hr Hn He Hc Hnd Hs.
  assert (Hev : ∀ h, events_of h w' = events_of h (inner s)) by (intros; unfold events_of; by rewrite He).
  split; cbn [inner procs cleanups requests].
  - intros h t Ht. destruct (inv_procs _ I _ _ Ht) as (Hsh & T & Hb). rewrite Hev, Hr. done.
  - intros pid p. rewrite Hr. intros Hp. rewrite Hev. by apply (inv_entries _ I).
  - intros h. rewrite Hn, Hev. apply (inv_fresh _ I).
  - intros pid. rewrite Hr. apply (inv_cleanups _ I).
  - apply (inv_cleanups_once _ I).
  - done.
  - done.
  - done.
Qed.

Lemma omap_insert_perm (rs : list RequestState) i r r' :
  rs !! i = Some r → ∃ l, omap claims rs ≡ₚ option_list (claims r) ++ l ∧
    omap claims (<[i := r']> rs) ≡ₚ option_list (claims r') ++ l.
Proof.
  intros Hi. pose proof (take_drop_middle rs i r Hi) as Hrs.
  exists (omap claims (take i rs) ++ omap claims (drop (S i) rs)). split.
  - rewrite <-Hrs at 1. rewrite omap_app. cbn. destruct (claims r); cbn; [| done].
    by rewrite <-Permutation_middle.
  - rewrite insert_take_drop by by eapply lookup_lt_Some. rewrite omap_app. cbn.
    destruct (claims r'); cbn; [| done]. by rewrite <-Permutation_middle.
Qed.

(** A request that moved on without a new claim. *)
Lemma claims_kept s i r r' w' :
  Inv s → requests s !! i = Some r → (claims r' = claims r ∨ claims r' = None) →
  (∀ pid, claims r ≠ Some pid ∨ claims r' = claims r → processes (inner s) !! pid = Some StartingEntry →
     processes w' !! pid = Some StartingEntry) →
  (∀ pid, pid ∈ omap claims (<[i := r']> (requests s)) → processes w' !! pid = Some StartingEntry) ∧
  NoDup (omap claims (<[i := r']> (requests s))).
Proof.
  intros I Hi Hr Hw. destruct (omap_insert_perm (requests s) i r r' Hi) as (l & H1 & H2).
  pose proof (inv_claims_once _ I) as Hnd. rewrite H1 in Hnd.
  assert (Hin : ∀ pid, pid ∈ option_list (claims r) ++ l → processes (inner s) !! pid = Some StartingEntry).
  { intros pid Hpid. apply (inv_claims _ I). by rewrite H1. }
  destruct Hr as [E | E]; rewrite E in H2.
  - split; [| by rewrite H2]. intros pid Hpid. rewrite H2 in Hpid. apply Hw; [by right | by apply Hin].
  - cbn in H2. split; [| rewrite H2; by apply NoDup_app in Hnd as (_ & _ & ?)].
    intros pid Hpid. rewrite H2 in Hpid. apply Hw; [| apply Hin, elem_of_app; by right].
    left. intros Hc. rewrite Hc in Hnd. cbn in Hnd. by apply NoDup_cons in Hnd as [? _].
Qed.

Lemma serving_insert s i r' order :
  Inv s → r' ≠ Arrived (ReqShutdown order) → Arrived (ReqShutdown order) ∉ <[i := r']> (requests s).
Proof.
  intros I Hr [j Hj]%list_elem_of_lookup_1. destruct (decide (i = j)) as [<- | Hne].
  - assert (Hlt : i < length (requests s)) by (apply lookup_lt_Some in Hj; by rewrite length_insert in Hj).
    rewrite list_lookup_insert_eq in Hj by done. congruence.
  - rewrite list_lookup_insert_ne in Hj by done. apply (inv_serving _ I order). by eapply list_elem_of_lookup_2.
Qed.

(** A request that leaves the table alone. *)
Lemma inv_request_quiet s i r r' w' :
  Inv s → requests s !! i = Some r → (claims r' = claims r ∨ claims r' = None) →
  (∀ order, r' ≠ Arrived (ReqShutdown order)) →
  processes w' = processes (inner s) → next_handle w' = next_handle (inner s) →
  emitted w' = emitted (inner s) →
  Inv (mkSystem w' (procs s) (cleanups s) (<[i := r']> (requests s))).
Proof.
  intros I Hi Hr Hs Hp Hn He.
  destruct (claims_kept s i r r' w' I Hi Hr) as [H1 H2]; [by rewrite Hp|].
  apply inv_request; [done | | done | done | done | done | intros; by apply serving_insert].
  intros pid. unfold running. by rewrite Hp.
Qed.

Lemma inv_claim s i params outcome w' program args cwd' :
  Inv s → requests s !! i = Some (Arrived (ReqExec params outcome)) →
  claim_entry params (inner s) = (w', Ok (program, args, cwd')) →
  Inv (mkSystem w' (procs s) (cleanups s) (<[i := StartSpawn params outcome program args cwd']> (requests s))).
Proof.
  intros I Hi Hc. unfold claim_entry in Hc.
  destruct (argv params) as [| prog rest]; [done|]. destruct (to_abs_path _); [|done].
  destruct (processes (inner s) !! process_id params) eqn:Hnone; [done|]. injection Hc as <- _ _ _.
  destruct (omap_insert_perm _ i _ (StartSpawn params outcome program args cwd') Hi) as (l & H1 & H2).
  cbn in H1, H2.
  assert (Hl : ∀ pid, pid ∈ l → processes (inner s) !! pid = Some StartingEntry).
  { intros pid Hpid. apply (inv_claims _ I). by rewrite H1. }
  apply inv_request; [done | | done | done | | | intros; by apply serving_insert].
  - intros pid. unfold running. cbn. destruct (decide (pid = process_id params)) as [-> | Hne].
    + by rewrite lookup_insert_eq, Hnone.
    + by rewrite lookup_insert_ne.
  - intros pid. rewrite H2, elem_of_cons. cbn. intros [-> | Hpid]; [by rewrite lookup_insert_eq|].
    rewrite lookup_insert_ne; [by apply Hl|]. intros <-. apply Hl in Hpid. congruence.
  - rewrite H2. apply NoDup_cons. split.
    + intros Hpid. apply Hl in Hpid. congruence.
    + rewrite <-H1. apply (inv_claims_once _ I).
Qed.

Lemma inv_release s i pid err :
  Inv s → requests s !! i = Some (StartFailed pid err) →
  Inv (mkSystem (release_entry pid (inner s)) (procs s) (cleanups s)
         (<[i := Replied (ExecReply (Err (internal_error err)))]> (requests s))).
Proof.
  intros I Hi.
  assert (Hst : processes (inner s) !! pid = Some StartingEntry).
  { apply (inv_claims _ I), list_elem_of_omap. exists (StartFailed pid err).
    split; [by eapply list_elem_of_lookup_2 | done]. }
  unfold release_entry. rewrite Hst.
  destruct (claims_kept s i _ (Replied (ExecReply (Err (internal_error err))))
              (set_processes (delete pid (processes (inner s))) (inner s)) I Hi) as [H1 H2]; [by right | |].
  { intros pid' [Hne | Hne]; [| done]. cbn in *. intros ?. by rewrite lookup_delete_ne by congruence. }
  apply inv_request; [done | | done | done | done | done | intros; by apply serving_insert].
  intros pid'. unfold running. cbn. destruct (decide (pid' = pid)) as [-> | Hne].
  - by rewrite lookup_delete_eq, Hst.
  - by rewrite lookup_delete_ne.
Qed.

Lemma fresh_view o : trace_ok (view (spawn_tasks o)) [].
Proof.
  split; [done | | done | done]. exists [], []. split; [done|]. split; [done|]. constructor.
Qed.

Lemma inv_install s i params session stdout stderr exit w' h :
  Inv s → requests s !! i = Some (StartInstall params session stdout stderr exit) →
  install_process params session (inner s) = (w', h) →
  Inv (mkSystem w' (<[h := spawn_tasks (mkOrigin (process_id params) (tty params) stdout stderr exit)]> (procs s))
         (cleanups s) (<[i := StartReturn (process_id params) h]> (requests s))).
Proof.
  intros I Hi Hw. injection Hw as <- <-. set (h := next_handle (inner s)).
  set (o := mkOrigin _ _ _ _ _).
  assert (Hst : processes (inner s) !! process_id params = Some StartingEntry).
  { apply (inv_claims _ I), list_elem_of_omap. eexists.
    split; [by eapply list_elem_of_lookup_2 | done]. }
  destruct (inv_fresh _ I h) as [Hnone Hnil]; [unfold h; lia|].
  match goal with |- Inv (mkSystem ?w _ _ _) => set (w' := w) end.
  destruct (claims_kept s i _ (StartReturn (process_id params) h) w' I Hi) as [H1 H2]; [by right | |].
  { intros pid' [Hne | Hne]; [| done]. cbn in *. intros ?. by rewrite lookup_insert_ne by congruence. }
  assert (Hr : ∀ pid, pid ≠ process_id params → running pid w' = running pid (inner s)).
  { intros pid Hne. unfold running. cbn. by rewrite lookup_insert_ne. }
  assert (Hne : ∀ pid p, running pid (inner s) = Some p → pid ≠ process_id params ∧ handle p ≠ h).
  { intros pid p Hp. split.
    - intros ->. apply running_Some in Hp. congruence.
    - intros E. destruct (inv_entries _ I _ _ Hp) as (t & Ht & _). rewrite E in Ht. congruence. }
  split; cbn [inner procs cleanups requests].
  - intros h' t. destruct (decide (h' = h)) as [-> | Hh].
    + rewrite lookup_insert_eq. intros [= <-]. change (events_of h w') with (events_of h (inner s)).
      rewrite Hnil. split; [done|]. split; [apply fresh_view|]. intros _. eexists.
      unfold running. cbn. by rewrite lookup_insert_eq.
    + rewrite lookup_insert_ne by done. intros Ht. destruct (inv_procs _ I _ _ Ht) as (Hsh & T & Hb).
      split; [done|]. split; [done|]. intros Hbusy. destruct (Hb Hbusy) as (p & Hp & Hhp).
      exists p. rewrite Hr; [done|]. by apply (Hne _ p).
  - intros pid p. destruct (decide (pid = process_id params)) as [-> | Hpid].
    + unfold running. cbn. rewrite lookup_insert_eq. intros [= <-]. cbn.
      eexists. rewrite lookup_insert_eq. split; [done|]. split; [done|].
      match goal with |- entry_ok _ _ ?es => assert (Hes : es = []) by exact Hnil; rewrite Hes end. split; done.
    + rewrite Hr by done. intros Hp. destruct (inv_entries _ I _ _ Hp) as (t & Ht & Hrest).
      exists t. rewrite lookup_insert_ne; [done|]. apply not_eq_sym. by apply (Hne pid).
  - intros h' Hle. cbn in Hle. destruct (inv_fresh _ I h') as [? ?]; [unfold h in *; lia|].
    rewrite lookup_insert_ne; [done|]. unfold h. lia.
  - intros pid Hin. destruct (inv_cleanups _ I _ Hin) as (p & Hp & Hc). exists p.
    rewrite Hr; [done|]. by apply (Hne pid p).
  - apply (inv_cleanups_once _ I).
  - done.
  - done.
  - intros order. by apply serving_insert.
Qed.

Lemma inv_run_request s i r w' r' spawned :
  Inv s → requests s !! i = Some r → run_request r (inner s) = Some (w', r', spawned) →
  Inv (mkSystem w' (match spawned with Some (h, t) => <[h := t]> (procs s) | None => procs s end)
         (cleanups s) (<[i := r']> (requests s))).
Proof.
  intros I Hi. destruct r as [q | params outcome program args cwd' | pid err | params session stdout stderr exit
                             | pid h | params deadline | session chunk accepted | reply]; cbn [run_request].
  - destruct q as [params outcome | params | pid chunk accepted | pid outcome | pid | conn | order].
    + destruct (claim_entry params (inner s)) as [w1 [[[program args] cwd'] | err]] eqn:Hc; intros [= <- <- <-].
      * by apply (inv_claim _ _ _ _ _ _ _ _ I Hi).
      * apply (inv_request_quiet _ _ _ _ _ I Hi); [by right | done | ..];
          unfold claim_entry in Hc; repeat case_match; simplify_eq; done.
    + intros [= <- <- <-]. by apply (inv_request_quiet _ _ _ _ _ I Hi); [right | ..].
    + destruct (write_target pid (inner s)); intros [= <- <- <-];
        by apply (inv_request_quiet _ _ _ _ _ I Hi); [right | ..].
    + unfold signal_process. repeat case_match; intros; simplify_eq;
        by apply (inv_request_quiet _ _ _ _ _ I Hi); [right | ..].
    + unfold terminate_process. repeat case_match; intros; simplify_eq;
        by apply (inv_request_quiet _ _ _ _ _ I Hi); [right | ..].
    + intros [= <- <- <-]. by apply (inv_request_quiet _ _ _ _ _ I Hi); [right | ..].
    + exfalso. apply (inv_serving _ I order). by eapply list_elem_of_lookup_2.
  - destruct outcome; intros [= <- <- <-];
      by apply (inv_request_quiet _ _ _ _ _ I Hi); [left | ..].
  - intros [= <- <- <-]. by apply inv_release.
  - destruct (install_process params session (inner s)) as [w1 h] eqn:Hw. intros [= <- <- <-].
    by eapply inv_install.
  - intros [= <- <- <-]. by apply (inv_request_quiet _ _ _ _ _ I Hi); [left | ..].
  - destruct (read_round params deadline (inner s)); intros [= <- <- <-];
      by apply (inv_request_quiet _ _ _ _ _ I Hi); [left | ..].
  - destruct accepted; intros [= <- <- <-]; by apply (inv_request_quiet _ _ _ _ _ I Hi); [left | ..].
  - done.
Qed.

Lemma inv_serve s s' : Inv s → serve s s' → Inv s'.
Proof.
  intros I (c & Hc & H). destruct c as [h slot | i | i | r | i | ms]; cbn in H.
  - destruct (procs s !! h) as [t|] eqn:Ht; [|done]. cbn in H.
    destruct (run_task _ _ _ _ _) as [[[w x] spawned]|] eqn:Hr; [|done]. injection H as <-.
    by eapply inv_run_task.
  - destruct (cleanups s !! i) as [pid|] eqn:Hi; [|done]. injection H as <-. by apply inv_cleanup.
  - destruct (requests s !! i) as [r|] eqn:Hi; [|done]. cbn in H.
    destruct (run_request r (inner s)) as [[[w r'] spawned]|] eqn:Hr; [|done]. injection H as <-.
    by eapply inv_run_request.
  - injection H as <-. apply inv_request; [done | done | done | done | | |].
    + rewrite omap_app. cbn. rewrite app_nil_r. apply (inv_claims _ I).
    + rewrite omap_app. cbn. rewrite app_nil_r. apply (inv_claims_once _ I).
    + intros order. rewrite elem_of_app, list_elem_of_singleton. intros [Hin | E].
      * by apply (inv_serving _ I order).
      * by injection E as <-.
  - destruct (requests s !! i) as [r|] eqn:Hi; [|done]. cbn in H.
    destruct r; try done; injection H as <-; by apply (inv_request_quiet _ _ _ _ _ I Hi); [right | ..].
  - injection H as <-. apply inv_request; try done; apply I.
Qed.

Lemma inv_fresh_system conn : Inv (fresh_system conn).
Proof.
  split; cbn.
  - intros h t. by rewrite lookup_empty.
  - intros pid p. unfold running. cbn. by rewrite lookup_empty.
  - intros h _. by rewrite lookup_empty.
  - intros pid Hin. by apply elem_of_nil in Hin.
  - constructor.
  - intros pid Hin. by apply elem_of_nil in Hin.
  - constructor.
  - intros order Hin. by apply elem_of_nil in Hin.
Qed.

Lemma served_inv conn s : rtc serve (fresh_system conn) s → Inv s.
Proof.
  apply (rtc_ind_r Inv); [apply inv_fresh_system|]. intros s1 s2 _ H I. by eapply inv_serve.
Qed.

(** ** Reading *)

(** The chunks a reader has not seen. *)
Definition unseen (after_seq : N) (p : RunningProcess) : list ProcessOutputChunk :=
  List.filter (λ c, (after_seq <? chunk_seq c)%N) (output p).

Definition in_order (cs : list ProcessOutputChunk) : Prop :=
  StronglySorted (λ c d, chunk_seq c < chunk_seq d)%N cs.

Lemma in_order_app cs ds :
  in_order (cs ++ ds) → in_order cs ∧ in_order ds ∧ ∀ c d, c ∈ cs → d ∈ ds → (chunk_seq c < chunk_seq d)%N.
Proof.
  unfold in_order. induction cs as [| c cs IH]; cbn.
  - intros H. split; [constructor|]. split; [done|]. intros c d Hc. by apply elem_of_nil in Hc.
  - intros H. inversion H as [| ? ? Hs Hf]; subst. apply Forall_app in Hf as [Hf1 Hf2].
    destruct (IH Hs) as (H1 & H2 & H3). split; [by constructor|]. split; [done|].
    intros c' d [-> | Hc]%elem_of_cons Hd; [by eapply Forall_forall in Hf2 | by apply H3].
Qed.

Lemma in_order_snoc cs c :
  in_order cs → (∀ d, d ∈ cs → (chunk_seq d < chunk_seq c)%N) → in_order (cs ++ [c]).
Proof.
  unfold in_order. induction 1 as [| d cs Hs IH Hf]; cbn; intros H; [by repeat constructor|].
  constructor; [apply IH; intros x Hx; apply H; by right|].
  apply Forall_app. split; [done|]. constructor; [apply H; by left | done].
Qed.

Lemma filter_after_order n cs : in_order cs → in_order (List.filter (λ c, (n <? chunk_seq c)%N) cs).
Proof.
  unfold in_order. induction 1 as [| c cs Hs IH Hf]; cbn; [constructor|].
  destruct (n <? chunk_seq c)%N; [| exact IH]. constructor; [exact IH|].
  apply Forall_forall. intros d Hd. apply list_elem_of_In, List.filter_In in Hd as [Hd%list_elem_of_In _].
  by eapply Forall_forall in Hf.
Qed.

Lemma filter_all {A} (f : A → bool) l : (∀ x, x ∈ l → f x = true) → List.filter f l = l.
Proof.
  induction l as [| x l IH]; cbn; intros H; [done|].
  rewrite (H x) by by left. rewrite IH; [done|]. intros y Hy. apply H. by right.
Qed.
Lemma filter_none {A} (f : A → bool) l : (∀ x, x ∈ l → f x = false) → List.filter f l = [].
Proof.
  induction l as [| x l IH]; cbn; intros H; [done|].
  rewrite (H x) by by left. apply IH. intros y Hy. apply H. by right.
Qed.

Lemma filter_filter_after n m cs :
  (n <= m)%N →
  List.filter (λ c, (m <? chunk_seq c)%N) (List.filter (λ c, (n <? chunk_seq c)%N) cs)
  = List.filter (λ c, (m <? chunk_seq c)%N) cs.
Proof.
  intros Hle. induction cs as [| c cs IH]; cbn; [done|].
  destruct (N.ltb_spec n (chunk_seq c)); cbn; [by rewrite IH|].
  destruct (N.ltb_spec m (chunk_seq c)); [lia | exact IH].
Qed.

(** The loop takes a prefix, and never an empty one of a non-empty list. *)
Lemma collect_prefix max cs : ∀ acc total next,
  ∃ took left, cs = took ++ left ∧
    collect_chunks max cs acc total next
    = (acc ++ took, default next ((λ c, chunk_seq c + 1)%N <$> last took)) ∧
    (took = [] → cs = [] ∨ acc ≠ []).
Proof.
  induction cs as [| c cs IH]; intros acc total next; cbn [collect_chunks].
  - exists [], []. split; [done|]. split; [by rewrite app_nil_r|]. by left.
  - destruct (negb (is_empty acc) && (max <? total + chunk_len c)%N) eqn:E.
    + exists [], (c :: cs). split; [done|]. split; [by rewrite app_nil_r|]. intros _. right. by intros ->.
    + destruct (max <=? total + chunk_len c)%N.
      * exists [c], cs. done.
      * destruct (IH (acc ++ [c]) (total + chunk_len c)%N (chunk_seq c + 1)%N) as (took & left & H1 & H2 & H3).
        exists (c :: took), left. rewrite H2, H1, <-app_assoc. split; [done|]. split; [| done]. f_equal.
        destruct took as [| d took]; [done|]. cbn [last]. by destruct (last (d :: took)) eqn:E'; [| by apply last_None in E'].
Qed.

(** A page is a prefix of the unseen chunks, not empty unless they are all seen; the
    next page, after [next_seq - 1], is what follows it. *)
Lemma read_response_page after max p :
  in_order (output p) → (∀ c, c ∈ output p → (chunk_seq c < p_next_seq p)%N) → (after < p_next_seq p)%N →
  let r := read_response after max p in
  (chunks r = [] ↔ unseen after p = []) ∧
  unseen after p = chunks r ++ unseen (next_seq r - 1) p ∧
  (after <= next_seq r - 1)%N ∧ (next_seq r <= p_next_seq p)%N.
Proof.
  intros Ho Hb Ha. unfold read_response, unseen. cbn zeta.
  set (us := List.filter (λ c, (after <? chunk_seq c)%N) (output p)).
  assert (Hus : in_order us) by by apply filter_after_order.
  assert (Hin : ∀ c, c ∈ us → (after < chunk_seq c < p_next_seq p)%N).
  { intros c [Hc%list_elem_of_In Hlt%N.ltb_lt]%list_elem_of_In%List.filter_In. split; [done|]. by apply Hb. }
  destruct (collect_prefix max us [] 0 (p_next_seq p)) as (took & rest & E & -> & Hne).
  cbn [chunks next_seq app]. split; [split; [intros ->; by destruct (Hne eq_refl)|]|].
  { intros H. rewrite H in E. by destruct took. }
  rewrite E in Hus, Hin. destruct (in_order_app _ _ Hus) as (Ht & Hr & Hlt).
  destruct took as [| c0 took' _] using rev_ind.
  - cbn. assert (rest = []) as -> by (destruct (Hne eq_refl) as [H |]; [by rewrite H in E | done]).
    split; [| lia]. rewrite E. cbn. symmetry. apply filter_none. intros c Hc. apply N.ltb_ge.
    specialize (Hb c Hc). lia.
  - rewrite last_snoc. cbn. specialize (Hin c0) as Hc0.
    assert (Hc0' : (after < chunk_seq c0 < p_next_seq p)%N) by (apply Hc0; set_solver).
    split; [| lia]. rewrite <-(filter_filter_after after (chunk_seq c0 + 1 - 1)) by lia. fold us. rewrite E.
    f_equal. rewrite List.filter_app, filter_none, filter_all; [done | |].
    + intros d Hd. apply N.ltb_lt. assert (chunk_seq c0 < chunk_seq d)%N by (apply Hlt; set_solver). lia.
    + intros d Hd. apply N.ltb_ge. apply elem_of_app in Hd as [Hd | ->%list_elem_of_singleton]; [| lia].
      apply in_order_app in Ht as (_ & _ & Hlt'). assert (chunk_seq d < chunk_seq c0)%N by (apply Hlt'; set_solver). lia.
Qed.

Lemma sequenced_app es es' : sequenced (es ++ es') → sequenced es.
Proof. intros H i e Hi. apply H. by apply lookup_app_l_Some. Qed.

Lemma outputs_order es :
  sequenced es →
  in_order (outputs es) ∧ ∀ c, c ∈ outputs es → (chunk_seq c <= N.of_nat (length es))%N.
Proof.
  induction es as [| e es IH] using rev_ind; intros H; [by split; [constructor | intros c Hc; by apply elem_of_nil in Hc]|].
  destruct (IH (sequenced_app _ _ H)) as [H1 H2]. rewrite outputs_snoc, length_app. cbn [length].
  destruct e as [c | | |]; rewrite ?app_nil_r; [| split; [done | intros c Hc; apply H2 in Hc; lia] ..].
  assert (Hc : chunk_seq c = (N.of_nat (length es) + 1)%N).
  { specialize (H (length es) (EvOutput c)). rewrite lookup_app_r, Nat.sub_diag in H by done.
    specialize (H eq_refl). cbn in H. congruence. }
  split.
  - apply in_order_snoc; [done|]. intros d Hd. apply H2 in Hd. lia.
  - intros d [Hd | ->%list_elem_of_singleton]%elem_of_app; [apply H2 in Hd; lia | lia].
Qed.

(** ** Notifications *)

Definition note_pid (n : Notification) : str :=
  match n with OutputDelta pid _ | ExitedNote pid _ _ | ClosedNote pid _ => pid end.

(** The event the client makes of a notification. *)
Definition note_event (n : Notification) : ExecProcessEvent :=
  match n with
  | OutputDelta _ c => EvOutput c
  | ExitedNote _ seq exit_code => EvExited seq exit_code
  | ClosedNote _ seq => EvClosed seq
  end.

Definition note_parts (n : Notification) : str * ExecProcessEvent := (note_pid n, note_event n).

Definition tasks_notes (t : ProcessTasks) : list Notification :=
  task_notes (out_task t) ++ task_notes (err_task t) ++ task_notes (exit_task t).

(** The notifications the tasks have still to send. *)
Definition flying (m : gmap N ProcessTasks) : list Notification :=
  map_to_list m ≫= λ ht, tasks_notes ht.2.

Lemma flying_insert m h t t' :
  m !! h = Some t →
  ∃ rest, flying m ≡ₚ tasks_notes t ++ rest ∧ flying (<[h := t']> m) ≡ₚ tasks_notes t' ++ rest.
Proof.
  intros Ht. exists (flying (delete h m)). unfold flying. split.
  - rewrite <-(insert_delete_id m h t Ht) at 1. by rewrite map_to_list_insert by apply lookup_delete_eq.
  - rewrite <-insert_delete_eq. by rewrite map_to_list_insert by apply lookup_delete_eq.
Qed.

Lemma flying_slot m h t slot x :
  m !! h = Some t →
  ∃ rest, flying m ≡ₚ task_notes (slot_task slot t) ++ rest ∧
    flying (<[h := set_slot slot x t]> m) ≡ₚ task_notes x ++ rest.
Proof.
  intros Ht. destruct (flying_insert m h t (set_slot slot x t) Ht) as (rest & H1 & H2).
  destruct slot; unfold tasks_notes in *; cbn in *.
  - exists (task_notes (err_task t) ++ task_notes (exit_task t) ++ rest). rewrite H1, H2, !app_assoc. done.
  - exists (task_notes (out_task t) ++ task_notes (exit_task t) ++ rest). rewrite H1, H2.
    by split; rewrite !app_assoc, (Permutation_app_comm (task_notes (out_task t))), <-!app_assoc.
  - exists (task_notes (out_task t) ++ task_notes (err_task t) ++ rest). rewrite H1, H2.
    by split; rewrite (app_assoc (task_notes (out_task t))), (Permutation_app_comm (_ ++ _) (task_notes _)), <-!app_assoc.
Qed.

Lemma flying_fresh m h t : m !! h = None → tasks_notes t = [] → flying (<[h := t]> m) ≡ₚ flying m.
Proof. intros Hh Ht. unfold flying. rewrite map_to_list_insert by done. cbn. by rewrite Ht. Qed.

(** While one connection is attached. *)
Definition steady (c : choice) : Prop :=
  serving c ∧ match c with Arrive (ReqSetSender _) => False | _ => True end.
Definition serve_one (s s' : System) : Prop := ∃ c, steady c ∧ run_choice c s = Some s'.

Fixpoint sends_to (conn : N) (t : TaskState) : Prop :=
  match t with
  | Sending _ c t => c = conn ∧ sends_to conn t
  | Notify _ t => sends_to conn t
  | _ => True
  end.

Record Wired (conn : N) (s : System) : Prop := {
  wired_sender : notifications (inner s) = Some conn;
  wired_conn : Forall (λ cn, cn.1 = conn) (wire (inner s));
  wired_sending h t slot : procs s !! h = Some t → sends_to conn (slot_task slot t);
  wired_notes : note_parts <$> ((wire (inner s)).*2 ++ flying (procs s))
                ≡ₚ (λ phe, (phe.1.1, phe.2)) <$> emitted (inner s);
  wired_steady c : Arrived (ReqSetSender c) ∉ requests s;
  wired_emitted pid h e : (pid, h, e) ∈ emitted (inner s) → ∃ t, procs s !! h = Some t ∧ o_pid (origin t) = pid;
}.

Lemma sends_set conn slot slot' x t :
  sends_to conn x → (∀ slot, sends_to conn (slot_task slot t)) → sends_to conn (slot_task slot' (set_slot slot x t)).
Proof. intros Hx Ht. destruct slot, slot'; try exact Hx; try apply (Ht OutSlot); try apply (Ht ErrSlot); apply (Ht ExitSlot). Qed.

(** What one access of a task does to the notifications. *)
Lemma run_task_notes conn pid stream exit_code t w w' x spawned :
  run_task pid stream exit_code t w = Some (w', x, spawned) →
  notifications w = Some conn → sends_to conn t →
  notifications w' = Some conn ∧ sends_to conn x ∧
  ∃ ws es, wire w' = wire w ++ ws ∧ Forall (λ cn, cn.1 = conn) ws ∧ emitted w' = emitted w ++ es ∧
    note_parts <$> (ws.*2 ++ task_notes x)
    ≡ₚ (note_parts <$> task_notes t) ++ ((λ phe, (phe.1.1, phe.2)) <$> es) ∧
    (∀ pid' h e, (pid', h, e) ∈ es → ∃ p, running pid' w = Some p ∧ handle p = h).
Proof.
  assert (Hnone : ∀ pid' h e, (pid', h, e) ∈ ([] : list (str * N * ExecProcessEvent)) →
    ∃ p, running pid' w = Some p ∧ handle p = h) by (intros ??? Hin; by apply elem_of_nil in Hin).
  assert (Hone : ∀ p (e : ExecProcessEvent) pid' h e', running pid w = Some p → (pid', h, e') ∈ [(pid, handle p, e)] →
    ∃ p, running pid' w = Some p ∧ handle p = h).
  { intros p e pid' h e' Hp [= -> -> ->]%list_elem_of_singleton. by exists p. }
  intros H Hs Ht. destruct t as [[| chunk q] | | | n next | n c next | |]; cbn in H.
  - injection H as <- <- <-. split; [done|]. split; [done|]. exists [], []. by rewrite !app_nil_r.
  - unfold append_output in H. destruct (running pid w) as [p|] eqn:Hp; cbn in H; injection H as <- <- <-.
    + split; [done|]. split; [done|]. exists [], [(pid, handle p, EvOutput (mkChunk (p_next_seq p) stream chunk))].
      rewrite app_nil_r. split; [done|]. split; [done|]. split; [done|]. split; [done|]. intros ??? Hin. by eapply Hone.
    + split; [done|]. split; [done|]. exists [], []. by rewrite !app_nil_r.
  - unfold close_stream in H. destruct (running pid w) as [p|]; cbn in H; injection H as <- <- <-;
      (split; [done|]; split; [done|]; exists [], []; by rewrite !app_nil_r).
  - unfold record_exit in H. destruct (running pid w) as [p|] eqn:Hp; cbn in H; injection H as <- <- <-.
    + split; [done|]. split; [done|]. exists [], [(pid, handle p, EvExited (p_next_seq p) exit_code)].
      rewrite app_nil_r. split; [done|]. split; [done|]. split; [done|]. split; [done|]. intros ??? Hin. by eapply Hone.
    + split; [done|]. split; [done|]. exists [], []. by rewrite !app_nil_r.
  - rewrite Hs in H. injection H as <- <- <-. split; [done|]. split; [done|]. exists [], []. by rewrite !app_nil_r.
  - destruct Ht as [-> Ht]. injection H as <- <- <-. split; [done|]. split; [done|].
    exists [(conn, n)], []. rewrite !app_nil_r. split; [done|]. split; [by repeat constructor|]. done.
  - unfold emit_closed in H. destruct (running pid w) as [p|] eqn:Hp; cbn in H.
    + destruct (p_closed p || negb (open_streams p =? 0)%N || negb (opt_is_some (p_exit_code p)));
        injection H as <- <- <-.
      * split; [done|]. split; [done|]. exists [], []. by rewrite !app_nil_r.
      * split; [done|]. split; [done|]. exists [], [(pid, handle p, EvClosed (p_next_seq p))]. rewrite app_nil_r.
        split; [done|]. split; [done|]. split; [done|]. split; [done|]. intros ??? Hin. by eapply Hone.
    + injection H as <- <- <-. split; [done|]. split; [done|]. exists [], []. by rewrite !app_nil_r.
  - done.
Qed.

Lemma run_request_notes r w w' r' spawned :
  run_request r w = Some (w', r', spawned) →
  (∀ c, r ≠ Arrived (ReqSetSender c)) → (∀ order, r ≠ Arrived (ReqShutdown order)) →
  notifications w' = notifications w ∧ wire w' = wire w ∧ emitted w' = emitted w ∧
  (∀ c, r' ≠ Arrived (ReqSetSender c)) ∧
  match spawned with
  | Some (h, t) => h = next_handle w ∧ tasks_notes t = [] ∧ ∀ conn slot, sends_to conn (slot_task slot t)
  | None => True
  end.
Proof.
  intros H Hc Ho. destruct r as [q | ? ? ? ? ? | | ? ? ? ? ? | | | ? ? [] |]; [destruct q |..]; cbn in H;
    try (exfalso; eapply Hc; reflexivity); try (exfalso; eapply Ho; reflexivity);
    unfold claim_entry, release_entry, signal_process, terminate_process in H;
    repeat (case_match; simplify_eq/=); try done;
    (split; [done|]; split; [done|]; split; [done|]; split; [done|]; split; [done|]; split; [done|]; by intros ? []).
Qed.

Lemma wired_serve conn s s' : Inv s → Wired conn s → serve_one s s' → Wired conn s'.
Proof.
  intros I Hw (c & [Hsv Hst] & H). destruct c as [h slot | i | i | r | i | ms]; cbn in H.
  - destruct (procs s !! h) as [t|] eqn:Ht; [|done]. cbn in H.
    destruct (run_task _ _ _ _ _) as [[[w x] spawned]|] eqn:Hr; [|done]. injection H as <-.
    destruct (run_task_notes conn _ _ _ _ _ _ _ _ Hr (wired_sender _ _ Hw) (wired_sending _ _ Hw _ _ slot Ht))
      as (H1 & H2 & ws & es & Hws & Hf & Hes & Hp & Hem).
    split; cbn [inner procs requests].
    + done.
    + rewrite Hws. apply Forall_app. split; [apply (wired_conn _ _ Hw) | done].
    + intros h' t' slot' Ht'. destruct (lookup_task_moved _ _ _ _ _ _ Ht Ht') as [[-> ->] | [Hne H0]].
      * apply sends_set; [done|]. intros. by apply (wired_sending _ _ Hw h).
      * by apply (wired_sending _ _ Hw h').
    + destruct (flying_slot _ h t slot x Ht) as (rest & F1 & F2).
      pose proof (wired_notes _ _ Hw) as Hn. rewrite F1 in Hn. rewrite F2, Hws, Hes.
      rewrite !fmap_app in *. rewrite <-Hn, <-!app_assoc. f_equiv. rewrite app_assoc, Hp, <-!app_assoc. f_equiv.
      apply Permutation_app_comm.
    + apply (wired_steady _ _ Hw).
    + intros pid' h' e Hin. rewrite Hes, elem_of_app in Hin.
      assert (Hold : ∃ t', procs s !! h' = Some t' ∧ o_pid (origin t') = pid').
      { destruct Hin as [Hin | Hin]; [by apply (wired_emitted _ _ Hw) in Hin|].
        destruct (Hem _ _ _ Hin) as (p & Hp' & <-). destruct (inv_entries _ I _ _ Hp') as (t' & ? & ? & _). by exists t'. }
      destruct Hold as (t' & Ht' & Ho). destruct (decide (h' = h)) as [-> | Hne].
      * eexists. rewrite lookup_insert_eq. split; [done|]. rewrite origin_set. congruence.
      * exists t'. by rewrite lookup_insert_ne.
  - destruct (cleanups s !! i) as [pid|] eqn:Hi; [|done]. injection H as <-.
    assert (He : ∀ pid, notifications (evict_closed pid (inner s)) = notifications (inner s) ∧
      wire (evict_closed pid (inner s)) = wire (inner s) ∧ emitted (evict_closed pid (inner s)) = emitted (inner s)).
    { intros ?. unfold evict_closed. repeat case_match; done. }
    destruct (He pid) as (E1 & E2 & E3). split; cbn; rewrite ?E1, ?E2, ?E3; apply Hw.
  - destruct (requests s !! i) as [r|] eqn:Hi; [|done]. cbn in H.
    destruct (run_request r (inner s)) as [[[w r'] spawned]|] eqn:Hr; [|done]. injection H as <-.
    destruct (run_request_notes _ _ _ _ _ Hr) as (E1 & E2 & E3 & Hr' & Hsp).
    { intros c ->. apply (wired_steady _ _ Hw c). by eapply list_elem_of_lookup_2. }
    { intros order ->. apply (inv_serving _ I order). by eapply list_elem_of_lookup_2. }
    assert (Hproc : ∀ h t, spawned = Some (h, t) → procs s !! h = None).
    { intros h t ->. destruct Hsp as (-> & _). apply (inv_fresh _ I). lia. }
    split; cbn [inner procs requests]; rewrite ?E1, ?E2, ?E3; try apply Hw.
    + intros h' t' slot'. destruct spawned as [[h t]|]; [| apply (wired_sending _ _ Hw)].
      destruct (decide (h' = h)) as [-> | Hne].
      * rewrite lookup_insert_eq. intros [= <-]. apply Hsp.
      * rewrite lookup_insert_ne by done. apply (wired_sending _ _ Hw).
    + destruct spawned as [[h t]|]; [| apply Hw]. rewrite flying_fresh; [apply Hw | by eapply Hproc | apply Hsp].
    + intros c [j Hj]%list_elem_of_lookup_1. destruct (decide (i = j)) as [<- | Hne].
      * rewrite list_lookup_insert_eq in Hj by (by eapply lookup_lt_Some). by injection Hj as ->; eapply Hr'.
      * rewrite list_lookup_insert_ne in Hj by done. apply (wired_steady _ _ Hw c). by eapply list_elem_of_lookup_2.
    + intros pid h' e Hin. destruct (wired_emitted _ _ Hw _ _ _ Hin) as (t' & Ht' & Ho). exists t'. split; [|done].
      destruct spawned as [[h t]|]; [| done]. rewrite lookup_insert_ne; [done|]. intros <-.
      rewrite (Hproc h t) in Ht' by done. done.
  - injection H as <-. split; cbn; try apply Hw.
    intros c. rewrite elem_of_app, list_elem_of_singleton. intros [Hin | E].
    + by apply (wired_steady _ _ Hw c).
    + by injection E as <-.
  - destruct (requests s !! i) as [r|] eqn:Hi; [|done]. cbn in H.
    assert (Hin : ∀ c, Arrived (ReqSetSender c) ∉ <[i := Replied Dropped]> (requests s)).
    { intros c [j Hj]%list_elem_of_lookup_1. destruct (decide (i = j)) as [<- | Hne].
      * rewrite list_lookup_insert_eq in Hj by (by eapply lookup_lt_Some). done.
      * rewrite list_lookup_insert_ne in Hj by done. apply (wired_steady _ _ Hw c). by eapply list_elem_of_lookup_2. }
    destruct r; try done; injection H as <-; split; cbn; try apply Hw; apply Hin.
  - injection H as <-. split; cbn; apply Hw.
Qed.

Lemma wired_reachable conn s : rtc serve_one (fresh_system (Some conn)) s → Inv s ∧ Wired conn s.
Proof.
  apply (rtc_ind_r (λ s, Inv s ∧ Wired conn s)).
  - split; [apply inv_fresh_system|]. split; cbn; [done | constructor | | done | |].
    + intros h t slot. by rewrite lookup_empty.
    + intros c Hin. by apply elem_of_nil in Hin.
    + intros pid h e Hin. by apply elem_of_nil in Hin.
  - intros s1 s2 _ H [I Hw]. split; [| by eapply wired_serve].
    destruct H as (c & [Hc _] & H). eapply inv_serve; [done|]. by exists c.
Qed.

(** ** Theorems *)

(** C25: The events of a process, under every interleaving of its tasks, the requests, the
    clean-ups and dropped requests, until the server shuts down: they carry the numbers
    1, 2, ... without a gap; the output is what the two streams delivered so far, each
    in its order; the exit status is reported at most once; and [Closed] comes last,
    after the exit and after all the output of both streams. *)
Theorem process_events_exact conn s h t :
  rtc serve (fresh_system conn) s → procs s !! h = Some t →
  let o := origin t in
  let es := events_of h (inner s) in
  sequenced es ∧
  (∃ out err, out `prefix_of` o_stdout o ∧ err `prefix_of` o_stderr o ∧
     interleaved (pair (slot_stream OutSlot o) <$> out) (pair (slot_stream ErrSlot o) <$> err)
       (payload <$> outputs es)) ∧
  (exits es = [] ∨ exits es = [exit_status o]) ∧
  (any is_closed es = true →
     (∃ es0 seq, es = es0 ++ [EvClosed seq] ∧ any is_closed es0 = false) ∧
     exits es = [exit_status o] ∧
     interleaved (pair (slot_stream OutSlot o) <$> o_stdout o) (pair (slot_stream ErrSlot o) <$> o_stderr o)
       (payload <$> outputs es)).
Proof.
  intros Hr Ht. pose proof (served_inv _ _ Hr) as I. destruct (inv_procs _ I _ _ Ht) as (_ & T & _).
  destruct (trace_output _ _ T) as (out & err & Ho & He & Hi). pose proof (trace_exits _ _ T) as Hx.
  cbn zeta. split; [apply T|]. split; [| split].
  - exists out, err. split; [by eexists|]. split; [by eexists | done].
  - destruct (v_waits (view t)); [by left | by right].
  - intros Hc. destruct (trace_closed _ _ T Hc) as [Hb Hlast]. split; [done|].
    unfold busy in Hb. apply orb_false_iff in Hb as [[H1 H2]%orb_false_iff H3]. cbn in *.
    rewrite H3 in Hx. split; [done|]. rewrite (task_left_open _ H1), app_nil_r in Ho.
    rewrite (task_left_open _ H2), app_nil_r in He. by rewrite Ho, He.
Qed.

(** What a read can return is the longest suffix of the output within 1 MiB, with its
    size kept exactly. *)
Theorem retained_output_exact conn s pid p :
  rtc serve (fresh_system conn) s → running pid (inner s) = Some p →
  let all := outputs (events_of (handle p) (inner s)) in
  output p = fitting chunk_len (over_bytes RETAINED_OUTPUT_BYTES_PER_PROCESS) all ∧
  p_retained_bytes p = total_size chunk_len (output p) ∧
  (p_retained_bytes p <= RETAINED_OUTPUT_BYTES_PER_PROCESS)%N ∧
  (∀ old longer, all = old ++ longer → (total_size chunk_len longer <= RETAINED_OUTPUT_BYTES_PER_PROCESS)%N →
     ∃ more, output p = more ++ longer).
Proof.
  intros Hr Hp. pose proof (served_inv _ _ Hr) as I.
  destruct (inv_entries _ I _ _ Hp) as (t & _ & _ & Hok). cbn zeta.
  split; [apply Hok|]. split; [apply Hok|]. split.
  - rewrite (entry_bytes _ _ _ Hok), (entry_output _ _ _ Hok).
    match goal with |- (total_size _ (fitting _ _ ?all) <= _)%N =>
      pose proof (fitting_fits chunk_len (over_bytes RETAINED_OUTPUT_BYTES_PER_PROCESS) all) as Hf end.
    by apply N.ltb_ge in Hf.
  - intros old longer Hall Hle. rewrite (entry_output _ _ _ Hok).
    apply (fitting_longest _ _ _ old longer Hall). unfold over_bytes. by apply N.ltb_ge.
Qed.

(** Every event is notified exactly once to the connection: what was put on the wire and
    what the tasks are about to put there are the events, in some order. *)
Theorem notifications_exact conn s :
  rtc serve_one (fresh_system (Some conn)) s →
  Forall (λ cn, cn.1 = conn) (wire (inner s)) ∧
  note_parts <$> ((wire (inner s)).*2 ++ flying (procs s))
  ≡ₚ (λ phe, (phe.1.1, phe.2)) <$> emitted (inner s).
Proof. intros Hr. destruct (wired_reachable _ _ Hr) as [_ Hw]. split; apply Hw. Qed.

End LocalProcess.

(** ** A run *)

Definition demo_params : ExecParams :=
  mkExecParams (lit "p") [lit "echo"; lit "hi"] (lit "file:///tmp") None ∅ false false None.

Definition demo_choices : list choice :=
  [Arrive (ReqExec demo_params (SpawnedProcess 7 [lit "hi"] [lit "oops"] (Some 3%Z)))]
  ++ replicate 4 (RunRequest 0)
  ++ [RunTask 0 ErrSlot; RunTask 0 OutSlot; RunTask 0 ExitSlot]
  ++ replicate 8 (RunTask 0 ExitSlot) ++ replicate 10 (RunTask 0 OutSlot) ++ replicate 10 (RunTask 0 ErrSlot).

(** Choices that are not possible are skipped. *)
Definition demo_run (cs : list choice) : System (W := Chan N) (C := ListChannel) :=
  fold_left (λ s c, default s (run_choice (λ p, Ok p) [] (λ _ _, false) c s)) cs (fresh_system (Some 5%N)).

Lemma demo_reachable cs : Forall steady cs → rtc (serve_one (λ p, Ok p) [] (λ _ _, false)) (fresh_system (Some 5%N)) (demo_run cs).
Proof.
  unfold demo_run. generalize (fresh_system (W := Chan N) (C := ListChannel) (Some 5%N)) as s.
  induction cs as [| c cs IH]; intros s Hf; cbn [fold_left]; [done|]. inversion Hf; subst.
  destruct (run_choice _ _ _ c s) as [s'|] eqn:E; cbn; [| by apply IH].
  eapply rtc_l; [by exists c | by apply IH].
Qed.

Lemma demo_steady : Forall steady demo_choices.
Proof. by repeat constructor. Qed.

Definition demo_system : System (W := Chan N) (C := ListChannel) := demo_run demo_choices.

Example demo_events :
  events_of 0 (inner demo_system) =
    [EvOutput (mkChunk 1 Stderr (lit "oops")); EvOutput (mkChunk 2 Stdout (lit "hi")); EvExited 3 3; EvClosed 4]
  ∧ note_event <$> (wire (inner demo_system)).*2
    = [EvExited 3 3; EvOutput (mkChunk 2 Stdout (lit "hi")); EvOutput (mkChunk 1 Stderr (lit "oops")); EvClosed 4].
Proof. vm_compute. split; reflexivity. Qed.

Lemma demo_served cs :
  Forall steady cs → rtc (serve (λ p, Ok p) [] (λ _ _, false)) (fresh_system (Some 5%N)) (demo_run cs).
Proof.
  intros H. eapply rtc_subrel; [| by apply demo_reachable]. intros s s' (c & [Hc _] & Hr). by exists c.
Qed.

Definition demo_tasks : ProcessTasks :=
  mkTasks (mkOrigin (lit "p") false [lit "hi"] [lit "oops"] (Some 3%Z)) Finished Finished Finished.
Lemma demo_tasks_eq : procs demo_system !! 0%N = Some demo_tasks.
Proof. vm_compute. reflexivity. Qed.

Lemma process_events_exact_witness :
  any is_closed (events_of 0 (inner demo_system)) = true ∧
  interleaved [(Stdout, lit "hi")] [(Stderr, lit "oops")] (payload <$> outputs (events_of 0 (inner demo_system))).
Proof.
  assert (Hc : any is_closed (events_of 0 (inner demo_system)) = true) by (vm_compute; reflexivity).
  split; [exact Hc|].
  destruct (process_events_exact (λ p, Ok p) [] (λ _ _, false) (Some 5%N) demo_system 0 demo_tasks
              (demo_served _ demo_steady) demo_tasks_eq) as (_ & _ & _ & H).
  destruct (H Hc) as (_ & _ & Hi). exact Hi.
Defined.

Lemma notifications_exact_witness :
  note_parts <$> ((wire (inner demo_system)).*2 ++ flying (procs demo_system))
  ≡ₚ (λ phe, (phe.1.1, phe.2)) <$> emitted (inner demo_system).
Proof.
  apply (notifications_exact (λ p, Ok p) [] (λ _ _, false) 5 demo_system), demo_reachable, demo_steady.
Defined.

(** The process before it closes. *)
Definition demo_open : System (W := Chan N) (C := ListChannel) := demo_run (take 7 demo_choices).
Definition demo_process : RunningProcess :=
  mkProcess 7 false false [mkChunk 1 Stderr (lit "oops"); mkChunk 2 Stdout (lit "hi")] 6 3 None 0 2 false.

Lemma retained_output_exact_witness :
  running (lit "p") (inner demo_open) = Some demo_process ∧
  (p_retained_bytes demo_process <= RETAINED_OUTPUT_BYTES_PER_PROCESS)%N.
Proof.
  assert (Hp : running (lit "p") (inner demo_open) = Some demo_process) by (vm_compute; reflexivity).
  split; [exact Hp|].
  apply (retained_output_exact (λ p, Ok p) [] (λ _ _, false) (Some 5%N) demo_open (lit "p") demo_process);
    [| exact Hp].
  apply demo_served. by repeat constructor.
Defined.

(** A start that is dropped after it has claimed its entry, as the connection handler
    does when the transport closes, leaves the entry claimed: a connection that resumes
    the session can neither start a process with that id nor read it. *)
Example dropped_start_blocks :
  let s := demo_run
    [Arrive (ReqExec demo_params (SpawnedProcess 7 [] [] None)); RunRequest 0; RunRequest 0; Drop 0;
     Arrive (ReqExec demo_params (SpawnedProcess 8 [] [] None)); RunRequest 1;
     Arrive (ReqRead (mkReadParams (lit "p") None None None)); RunRequest 2; RunRequest 2] in
  requests s =
    [Replied Dropped;
     Replied (ExecReply (Err (invalid_request (lit "process p already exists"))));
     Replied (ReadReply (Err (invalid_request (lit "process id p is starting"))))]
  ∧ procs s = ∅.
Proof. vm_compute. split; reflexivity. Qed.
