(* ===== verification/RemoteSession.v ===== *)
(** * Sessions of a remote process

    [exec-server/src/client.rs]: the client side of a process that runs on an exec
    server.  One reader task receives the notifications of every process of the
    connection; the three tasks of a process send theirs concurrently
    ([LocalProcess]), so they can arrive out of order, and a session publishes an event
    only when all the earlier ones have been published.

    Sessions are shared objects: the table maps a process to the handle of its state,
    which the caller's [Session] keeps after the route is removed.  [published] is a
    history variable. *)

From S2P Require Import Prelude RustStr Watch ExecProcess ShellEnv LocalProcess.

Record OrderedSessionEvents := mkOrdered {
  last_published_seq : N;
  pending : gmap N ExecProcessEvent;
}.

(** The loop of [publish_ordered_event]; the fuel is the number of pending events, each
    iteration removes one. *)
Fixpoint drain_ready (fuel : nat) (o : OrderedSessionEvents) (ready : list ExecProcessEvent)
    : OrderedSessionEvents * list ExecProcessEvent :=
  match fuel with
  | O => (o, ready)
  | S fuel =>
      let next_seq := (last_published_seq o + 1)%N in
      match pending o !! next_seq with
      | Some event => drain_ready fuel (mkOrdered next_seq (delete next_seq (pending o))) (ready ++ [event])
      | None => (o, ready)
      end
  end.

(** The critical section of [publish_ordered_event]: the events that are now ready. *)
Definition order_event (seq : N) (event : ExecProcessEvent) (o : OrderedSessionEvents)
    : OrderedSessionEvents * list ExecProcessEvent :=
  if (seq <=? last_published_seq o)%N then (o, [])
  else
    let pending' := match pending o !! seq with
                    | Some _ => pending o
                    | None => <[seq := event]> (pending o)
                    end in
    drain_ready (size pending') (mkOrdered (last_published_seq o) pending') [].

(** ** Reordering *)

(** After the events [arrived], some of those of [es], came in any order: the first
    [last_published_seq] events are published, and the others that came are pending. *)
Record Ordering (es arrived : list ExecProcessEvent) (o : OrderedSessionEvents)
    (out : list ExecProcessEvent) : Prop := {
  ord_published : out = take (N.to_nat (last_published_seq o)) es;
  ord_length : N.to_nat (last_published_seq o) ≤ length es;
  ord_pending seq e : pending o !! seq = Some e ↔
    (last_published_seq o < seq)%N ∧ e ∈ arrived ∧ event_seq e = Some seq;
  ord_arrived e : e ∈ out → e ∈ arrived;
}.

Lemma sequenced_lookup es e seq :
  sequenced es → e ∈ es → event_seq e = Some seq → (0 < seq)%N ∧ es !! N.to_nat (seq - 1) = Some e.
Proof.
  intros Hs [i Hi]%list_elem_of_lookup_1 He. specialize (Hs i e Hi). rewrite He in Hs. injection Hs as ->.
  split; [lia|]. by replace (N.to_nat (N.of_nat i + 1 - 1)) with i by lia.
Qed.

Lemma sequenced_unique es e e' seq :
  sequenced es → e ∈ es → e' ∈ es → event_seq e = Some seq → event_seq e' = Some seq → e = e'.
Proof.
  intros Hs H1 H2 E1 E2. destruct (sequenced_lookup _ _ _ Hs H1 E1) as [_ L1].
  destruct (sequenced_lookup _ _ _ Hs H2 E2) as [_ L2]. congruence.
Qed.

Lemma drain_ready_ok es arrived fuel : ∀ o out ready,
  sequenced es → (∀ e, e ∈ arrived → e ∈ es) → size (pending o) ≤ fuel → Ordering es arrived o out →
  ∃ o' new, drain_ready fuel o ready = (o', ready ++ new) ∧ Ordering es arrived o' (out ++ new) ∧
    pending o' !! (last_published_seq o' + 1)%N = None.
Proof.
  induction fuel as [| fuel IH]; intros o out ready Hs Ha Hf Ho; cbn [drain_ready].
  - exists o, []. rewrite !app_nil_r. split; [done|]. split; [done|].
    assert (pending o = ∅) as -> by (apply map_size_empty_inv; lia). apply lookup_empty.
  - destruct (pending o !! (last_published_seq o + 1)%N) as [e|] eqn:Hp.
    2:{ exists o, []. by rewrite !app_nil_r. }
    pose proof (proj1 (ord_pending _ _ _ _ Ho _ _) Hp) as (_ & Hin & Hseq).
    destruct (sequenced_lookup _ _ _ Hs (Ha _ Hin) Hseq) as [_ Hlk].
    replace (N.to_nat (last_published_seq o + 1 - 1)) with (N.to_nat (last_published_seq o)) in Hlk by lia.
    destruct (IH (mkOrdered (last_published_seq o + 1) (delete (last_published_seq o + 1)%N (pending o)))
                (out ++ [e]) (ready ++ [e])) as (o' & new & H1 & H2 & H3); [done | done | | |].
    + cbn. rewrite map_size_delete, Hp. lia.
    + split; cbn.
      * rewrite (ord_published _ _ _ _ Ho).
        replace (N.to_nat (last_published_seq o + 1)) with (S (N.to_nat (last_published_seq o))) by lia.
        by rewrite (take_S_r _ _ _ Hlk).
      * apply lookup_lt_Some in Hlk. lia.
      * intros seq e'. rewrite lookup_delete_Some, (ord_pending _ _ _ _ Ho). split.
        -- intros (Hne & Hlt & ? & ?). split; [lia | done].
        -- intros (Hlt & ? & ?). split; [lia|]. split; [lia | done].
      * intros e' [He | ->%list_elem_of_singleton]%elem_of_app; [by apply (ord_arrived _ _ _ _ Ho) | done].
    + exists o', (e :: new). rewrite <-!app_assoc in H1, H2. done.
Qed.

Lemma order_event_ok es arrived o out e seq :
  sequenced es → (∀ e, e ∈ arrived → e ∈ es) → e ∈ es → event_seq e = Some seq →
  Ordering es arrived o out → pending o !! (last_published_seq o + 1)%N = None →
  ∃ o' new, order_event seq e o = (o', new) ∧ Ordering es (arrived ++ [e]) o' (out ++ new) ∧
    pending o' !! (last_published_seq o' + 1)%N = None.
Proof.
  intros Hs Ha He Hseq Ho Hgap. unfold order_event.
  destruct (sequenced_lookup _ _ _ Hs He Hseq) as [Hpos Hlk].
  assert (Ha' : ∀ e', e' ∈ arrived ++ [e] → e' ∈ es).
  { intros e' [? | ->%list_elem_of_singleton]%elem_of_app; [by apply Ha | done]. }
  destruct (N.leb_spec seq (last_published_seq o)) as [Hle | Hlt].
  - exists o, []. rewrite app_nil_r. split; [done|]. split; [| done]. split; try apply Ho.
    + intros seq' e'. rewrite (ord_pending _ _ _ _ Ho), elem_of_app, list_elem_of_singleton.
      split; [naive_solver|]. intros (Hlt & [? | ->] & Hs'); [done|]. assert (seq' = seq) by congruence. lia.
    + intros e' He'. apply elem_of_app. left. by apply (ord_arrived _ _ _ _ Ho).
  - set (p' := match pending o !! seq with Some _ => pending o | None => <[seq := e]> (pending o) end).
    destruct (drain_ready_ok es (arrived ++ [e]) (size p') (mkOrdered (last_published_seq o) p') out [])
      as (o' & new & H1 & H2 & H3); [done | done | done | | by exists o', new].
    split; cbn; try apply Ho.
    + intros seq' e'. rewrite elem_of_app, list_elem_of_singleton. unfold p'.
      destruct (pending o !! seq) as [e0|] eqn:Hp.
      * rewrite (ord_pending _ _ _ _ Ho). split; [naive_solver|].
        intros (Hlt' & [? | ->] & Hs'); [done|]. assert (seq' = seq) as -> by congruence.
        pose proof (proj1 (ord_pending _ _ _ _ Ho _ _) Hp) as (_ & Hin0 & Hs0).
        assert (e0 = e) as -> by (eapply sequenced_unique; eauto). done.
      * rewrite lookup_insert_Some, (ord_pending _ _ _ _ Ho). split.
        -- intros [[-> ->] | (Hne & ? & ? & ?)]; [split; [lia|]; by split; [right|] | naive_solver].
        -- intros (Hlt' & [Hin | ->] & Hs'); [| left; split; congruence].
           destruct (decide (seq = seq')) as [-> |]; [| by right].
           left. split; [done|]. eapply sequenced_unique; eauto.
    + intros e' He'. apply elem_of_app. left. by apply (ord_arrived _ _ _ _ Ho).
Qed.

(** What is published is the longest prefix that has arrived. *)
Lemma ordering_longest es arrived o out k :
  sequenced es → Ordering es arrived o out → pending o !! (last_published_seq o + 1)%N = None →
  k ≤ length es → (∀ e, e ∈ take k es → e ∈ arrived) → take k es `prefix_of` out.
Proof.
  intros Hs Ho Hgap Hk Harr. rewrite (ord_published _ _ _ _ Ho).
  destruct (decide (k ≤ N.to_nat (last_published_seq o))) as [Hle | Hgt].
  - exists (drop k (take (N.to_nat (last_published_seq o)) es)).
    rewrite <-(take_drop k (take _ es)) at 1. by rewrite take_take, Nat.min_l.
  - exfalso. destruct (lookup_lt_is_Some_2 es (N.to_nat (last_published_seq o))) as [e He]; [lia|].
    assert (Hin : e ∈ take k es).
    { apply list_elem_of_lookup. exists (N.to_nat (last_published_seq o)). by rewrite lookup_take_lt by lia. }
    pose proof (Hs _ _ He) as Hseq.
    assert (pending o !! (last_published_seq o + 1)%N = Some e); [| congruence].
    apply (ord_pending _ _ _ _ Ho). split; [lia|]. split; [by apply Harr|]. rewrite Hseq. f_equal. lia.
Qed.

(** The payloads other than the messages compared here are rendered as text. *)
Inductive ExecServerError :=
| Spawn (error : str)
| WebSocketConnectTimeout (url : str) (timeout : N)
| WebSocketConnect (url : str) (source : str)
| InitializeTimedOut (timeout : N)
| Closed
| Disconnected (message : str)
| Json (message : str)
| HttpRequest (message : str)
| Protocol (message : str)
| Server (code : Z) (message : str)
| EnvironmentRegistryHttp (status : N) (code : option str) (message : str)
| EnvironmentRegistryConfig (message : str)
| EnvironmentRegistryAuth (message : str)
| EnvironmentRegistryRequest (error : str).

Definition disconnected_message (reason : option str) : str :=
  match reason with
  | Some reason => lit "exec-server transport disconnected: " ++ reason
  | None => lit "exec-server transport disconnected"
  end.

Definition is_transport_closed_error (e : ExecServerError) : bool :=
  match e with
  | Closed | Disconnected _ => true
  | Server code message => (code =? -32000)%Z && (message == lit "JSON-RPC transport closed")
  | _ => false
  end.

Section Client.
Context {W C R : Type} `{!WatchChannel N W, !Broadcast ExecProcessEvent C R}.

Record SessionState := mkSession {
  s_wake_tx : W;
  s_events : ExecProcessEventLog C;
  ordered_events : OrderedSessionEvents;
  s_failure : option str;
}.

Definition PROCESS_EVENT_RETAINED_BYTES : N := 1024 * 1024.

(** [SessionState::new]: the receiver of the wake channel is dropped on return. *)
Definition session_new : SessionState :=
  mkSession (drop_rx (channel 0%N)) (log_new PROCESS_EVENT_CHANNEL_CAPACITY PROCESS_EVENT_RETAINED_BYTES)
    (mkOrdered 0 ∅) None.

Definition note_change (seq : N) (s : SessionState) : SessionState :=
  mkSession (send (N.max (value (s_wake_tx s)) seq) (s_wake_tx s)) (s_events s) (ordered_events s) (s_failure s).

(** The state, the events published and whether [Closed] is one of them. *)
Definition publish_ordered_event (event : ExecProcessEvent) (s : SessionState)
    : SessionState * list ExecProcessEvent * bool :=
  match event_seq event with
  | None =>
      (mkSession (s_wake_tx s) (publish event (s_events s)) (ordered_events s) (s_failure s), [event], false)
  | Some seq =>
      let '(o, ready) := order_event seq event (ordered_events s) in
      (mkSession (s_wake_tx s) (publish_all ready (s_events s)) o (s_failure s), ready, any is_closed ready)
  end.

(** The state and the events published. *)
Definition set_failure (message : str) (s : SessionState) : SessionState * list ExecProcessEvent :=
  let should_publish := negb (opt_is_some (s_failure s)) in
  let s := mkSession (s_wake_tx s) (s_events s) (ordered_events s)
             (if should_publish then Some message else s_failure s) in
  let s := mkSession (send (sat_add (value (s_wake_tx s)) 1) (s_wake_tx s)) (s_events s)
             (ordered_events s) (s_failure s) in
  if should_publish then (publish_ordered_event (EvFailed message) s).1 else (s, []).

Definition synthesized_failure (message : str) (s : SessionState) : ReadResponse :=
  mkReadResponse [] (sat_add (value (s_wake_tx s)) 1) true None true (Some message).

Definition failed_response (s : SessionState) : option ReadResponse :=
  match s_failure s with Some message => Some (synthesized_failure message s) | None => None end.

(** ** The table of sessions *)

Record ClientInner := mkClient {
  sessions : gmap str N;
  states : gmap N SessionState;
  next_state : N;
  disconnected : option str;
  published : list (N * ExecProcessEvent);
}.

Definition client_new : ClientInner := mkClient ∅ ∅ 0 None [].

Definition set_state (k : N) (s : SessionState) (es : list ExecProcessEvent) (c : ClientInner) : ClientInner :=
  mkClient (sessions c) (<[k := s]> (states c)) (next_state c) (disconnected c)
    (published c ++ (pair k <$> es)).

Definition disconnected_error (c : ClientInner) : option ExecServerError := Disconnected <$> disconnected c.

(** The first message stays. *)
Definition record_disconnected (message : str) (c : ClientInner) : ClientInner * str :=
  match disconnected c with
  | Some first => (c, first)
  | None => (mkClient (sessions c) (states c) (next_state c) (Some message) (published c), message)
  end.

Definition get_session (pid : str) (c : ClientInner) : option N := sessions c !! pid.

(** [register_session]: the handle of the new state. *)
Definition register_session (pid : str) (c : ClientInner) : ClientInner * result ExecServerError N :=
  match disconnected_error c with
  | Some e => (c, Err e)
  | None =>
      match sessions c !! pid with
      | Some _ => (c, Err (Protocol (lit "session already registered for process " ++ pid)))
      | None =>
          let k := next_state c in
          (mkClient (<[pid := k]> (sessions c)) (<[k := session_new]> (states c)) (k + 1)%N (disconnected c)
             (published c), Ok k)
      end
  end.

Definition remove_session (pid : str) (c : ClientInner) : ClientInner :=
  mkClient (delete pid (sessions c)) (states c) (next_state c) (disconnected c) (published c).

Definition fail_session (message : str) (c : ClientInner) (k : N) : ClientInner :=
  match states c !! k with
  | Some s => let '(s, es) := set_failure message s in set_state k s es c
  | None => c
  end.

(** [take_all_sessions], then each session fails, in the order [order] gives the table. *)
Definition fail_all_sessions (order : gmap str N → list (str * N)) (message : str) (c : ClientInner)
    : ClientInner :=
  let drained := order (sessions c) in
  fold_left (fail_session message) drained.*2
    (mkClient ∅ (states c) (next_state c) (disconnected c) (published c)).

(** The process notifications of [handle_server_notification]. *)
Definition handle_server_notification (n : Notification) (c : ClientInner) : ClientInner :=
  match get_session (note_pid n) c with
  | None => c
  | Some k =>
      match states c !! k with
      | None => c
      | Some s =>
          let event := note_event n in
          let s := note_change (default 0%N (event_seq event)) s in
          let '(s, es, published_closed) := publish_ordered_event event s in
          let c := set_state k s es c in
          if published_closed then remove_session (note_pid n) c else c
      end
  end.

Definition handle_notifications (ns : list Notification) (c : ClientInner) : ClientInner :=
  fold_left (λ c n, handle_server_notification n c) ns c.

(** The reader task, on [Disconnected]. *)
Definition handle_disconnected (order : gmap str N → list (str * N)) (reason : option str) (c : ClientInner)
    : ClientInner :=
  let '(c, message) := record_disconnected (disconnected_message reason) c in
  fail_all_sessions order message c.

(** [ExecServerClient::call]; [answer] is what the transport gives back. *)
Definition client_call {A} (answer : result ExecServerError A) (c : ClientInner)
    : ClientInner * result ExecServerError A :=
  match disconnected_error c with
  | Some e => (c, Err e)
  | None =>
      match answer with
      | Ok r => (c, Ok r)
      | Err e =>
          if is_transport_closed_error e
          then let '(c, message) := record_disconnected (disconnected_message None) c in
               (c, Err (Disconnected message))
          else (c, Err e)
      end
  end.

(** [Session::read]. *)
Definition session_read (k : N) (answer : result ExecServerError ReadResponse) (c : ClientInner)
    : ClientInner * result ExecServerError ReadResponse :=
  match states c !! k with
  | None => (c, Err Closed)
  | Some s =>
      match failed_response s with
      | Some response => (c, Ok response)
      | None =>
          match client_call answer c with
          | (c, Ok response) => (c, Ok response)
          | (c, Err e) =>
              if is_transport_closed_error e then
                let message := disconnected_message None in
                let c := fail_session message c k in
                (c, match states c !! k with
                    | Some s => Ok (synthesized_failure message s)
                    | None => Err Closed
                    end)
              else (c, Err e)
          end
      end
  end.

Definition published_on (k : N) (c : ClientInner) : list ExecProcessEvent :=
  omap (λ ke, if (ke.1 =? k)%N then Some ke.2 else None) (published c).

(** ** A session follows its process *)

(** [Closed], if there, is the last event. *)
Definition closed_last (es : list ExecProcessEvent) : Prop :=
  any is_closed es = true → ∃ es0 seq, es = es0 ++ [EvClosed seq] ∧ any is_closed es0 = false.

Record Following (pid : str) (k : N) (es arrived : list ExecProcessEvent) (c : ClientInner) : Prop := {
  follows_only pid' : sessions c !! pid' = Some k → pid' = pid;
  follows_state :
    (∃ s, sessions c !! pid = Some k ∧ states c !! k = Some s ∧
       Ordering es arrived (ordered_events s) (published_on k c) ∧
       pending (ordered_events s) !! (last_published_seq (ordered_events s) + 1)%N = None ∧
       any is_closed (published_on k c) = false) ∨
    (sessions c !! pid = None ∧ published_on k c = es ∧ any is_closed es = true);
}.

Lemma published_set_state k k' s es c :
  published_on k (set_state k' s es c) = published_on k c ++ (if (k' =? k)%N then es else []).
Proof.
  unfold published_on, set_state. cbn. rewrite omap_app. f_equal.
  induction es as [| e es IH]; cbn; [by destruct (k' =? k)%N|].
  destruct (k' =? k)%N eqn:E; [by rewrite IH | exact IH].
Qed.

Lemma note_event_seq n : ∃ seq, event_seq (note_event n) = Some seq.
Proof. destruct n; by eexists. Qed.

Lemma publish_note n s :
  ∃ seq o ready, event_seq (note_event n) = Some seq ∧ order_event seq (note_event n) (ordered_events s) = (o, ready) ∧
    publish_ordered_event (note_event n) s
    = (mkSession (s_wake_tx s) (publish_all ready (s_events s)) o (s_failure s), ready, any is_closed ready).
Proof.
  destruct (note_event_seq n) as [seq Hseq].
  destruct (order_event seq (note_event n) (ordered_events s)) as [o ready] eqn:Ho.
  exists seq, o, ready. unfold publish_ordered_event. by rewrite Hseq, Ho.
Qed.

(** Closed was published, so everything was. *)
Lemma closed_take es n :
  closed_last es → any is_closed (take n es) = true → take n es = es ∧ any is_closed es = true.
Proof.
  intros Hl Hc.
  assert (Hes : any is_closed es = true) by (rewrite <-(take_drop n es), any_app, Hc; done).
  split; [|done]. destruct (Hl Hes) as (es0 & seq & -> & H0). apply take_ge. rewrite length_app. cbn.
  destruct (decide (n ≤ length es0)) as [Hle |]; [| lia]. rewrite take_app_le in Hc by done.
  assert (any is_closed es0 = true) by (rewrite <-(take_drop n es0), any_app, Hc; done). congruence.
Qed.

Lemma follow_note pid k es arrived c n :
  sequenced es → closed_last es → (∀ e, e ∈ arrived → e ∈ es) →
  (note_pid n = pid → note_event n ∈ es) → Following pid k es arrived c →
  Following pid k es (if note_pid n == pid then arrived ++ [note_event n] else arrived)
    (handle_server_notification n c).
Proof.
  intros Hs Hl Ha Hn F. unfold handle_server_notification, get_session.
  destruct (str_eqb_reflect (note_pid n) pid) as [Hp | Hp].
  - rewrite Hp. destruct (follows_state _ _ _ _ _ F) as [(s & H1 & H2 & Ho & Hg & Hc) | (H1 & H2 & H3)].
    2:{ rewrite H1. split; [apply F | by right]. }
    rewrite H1, H2.
    destruct (publish_note n (note_change (default 0%N (event_seq (note_event n))) s)) as (seq & o & ready & Hseq & Hor & Hpub).
    cbn [note_change ordered_events] in Hor.
    destruct (order_event_ok es arrived _ _ (note_event n) seq Hs Ha (Hn Hp) Hseq Ho Hg) as (o' & new & Hor' & Ho' & Hg').
    rewrite Hor in Hor'. injection Hor' as <- <-. rewrite Hpub.
    set (s' := mkSession _ _ o _).
    assert (Hpo : published_on k (set_state k s' ready c) = published_on k c ++ ready).
    { rewrite published_set_state. by rewrite N.eqb_refl. }
    destruct (any is_closed ready) eqn:Hcl.
    + split.
      * intros pid' Hpid'. cbn in Hpid'. apply lookup_delete_Some in Hpid' as [_ Hpid']. by apply (follows_only _ _ _ _ _ F).
      * right. split; [apply lookup_delete_eq|].
        assert (Hout : published_on k (remove_session pid (set_state k s' ready c)) = published_on k c ++ ready) by exact Hpo.
        rewrite Hout, (ord_published _ _ _ _ Ho'). apply closed_take; [done|].
        rewrite <-(ord_published _ _ _ _ Ho'), any_app, Hcl. apply orb_true_r.
    + split; [apply F|]. left. exists s'. rewrite Hpo.
      split; [exact H1|]. split; [by cbn; rewrite lookup_insert_eq|]. split; [done|]. split; [done|]. by rewrite any_app, Hc.
  - destruct (sessions c !! note_pid n) as [k'|] eqn:Hk; [|done].
    assert (Hne : k' ≠ k) by (intros ->; by apply Hp, (follows_only _ _ _ _ _ F)).
    destruct (states c !! k') as [s|] eqn:Hst; [|done].
    destruct (publish_note n (note_change (default 0%N (event_seq (note_event n))) s)) as (seq & o & ready & _ & _ & ->).
    set (s' := mkSession _ _ o _).
    assert (Hpo : published_on k (set_state k' s' ready c) = published_on k c).
    { rewrite published_set_state, (proj2 (N.eqb_neq _ _) Hne). apply app_nil_r. }
    assert (F' : Following pid k es arrived (set_state k' s' ready c)).
    { split; [apply F|]. destruct (follows_state _ _ _ _ _ F) as [(s0 & H1 & H2 & Hrest) | (H1 & H2 & H3)].
      - left. exists s0. rewrite Hpo. cbn. by rewrite lookup_insert_ne.
      - right. by rewrite Hpo. }
    destruct (any is_closed ready); [|done].
    split.
    + intros pid' Hpid'. cbn in Hpid'. apply lookup_delete_Some in Hpid' as [_ Hpid']. by apply (follows_only _ _ _ _ _ F).
    + destruct (follows_state _ _ _ _ _ F') as [(s0 & H1 & H2 & Hrest) | (H1 & H2 & H3)].
      * left. exists s0. cbn in *. by rewrite lookup_delete_ne.
      * right. cbn in *. by rewrite lookup_delete_ne.
Qed.

Definition notes_of (pid : str) (ns : list Notification) : list ExecProcessEvent :=
  omap (λ n, if note_pid n == pid then Some (note_event n) else None) ns.

Lemma follow_notes pid k es ns : ∀ arrived c,
  sequenced es → closed_last es → (∀ e, e ∈ arrived → e ∈ es) → (∀ e, e ∈ notes_of pid ns → e ∈ es) →
  Following pid k es arrived c →
  Following pid k es (arrived ++ notes_of pid ns) (handle_notifications ns c).
Proof.
  unfold handle_notifications. induction ns as [| n ns IH]; intros arrived c Hs Hl Ha Hns F; cbn [fold_left].
  - by rewrite app_nil_r.
  - assert (Hn : note_pid n = pid → note_event n ∈ es).
    { intros Hp. apply Hns. cbn. rewrite Hp, str_eqb_refl. by left. }
    pose proof (follow_note pid k es arrived c n Hs Hl Ha Hn F) as F'.
    assert (Hns' : ∀ e, e ∈ notes_of pid ns → e ∈ es).
    { intros e He. apply Hns. cbn. destruct (note_pid n == pid); [by right | done]. }
    cbn [notes_of omap list_omap]. fold (notes_of pid ns).
    destruct (str_eqb_reflect (note_pid n) pid) as [Hp | Hp].
    + specialize (IH (arrived ++ [note_event n]) (handle_server_notification n c) Hs Hl).
      rewrite <-app_assoc in IH. apply IH; [| done | done].
      intros e [He | ->%list_elem_of_singleton]%elem_of_app; [by apply Ha | by apply Hn].
    + by apply IH.
Qed.

(** What a session has published after some notifications: the longest prefix of the
    events whose notifications are among them. *)
Lemma following_exact pid k es arrived c :
  sequenced es → Following pid k es arrived c →
  published_on k c `prefix_of` es ∧
  (∀ n, n ≤ length es → (∀ e, e ∈ take n es → e ∈ arrived) → take n es `prefix_of` published_on k c).
Proof.
  intros Hs F. destruct (follows_state _ _ _ _ _ F) as [(s & _ & _ & Ho & Hg & _) | (_ & H2 & _)].
  - split; [| intros n Hn Harr; by eapply ordering_longest].
    rewrite (ord_published _ _ _ _ Ho). by eexists (drop _ es); rewrite take_drop.
  - rewrite H2. split; [done|]. intros n _ _. by exists (drop n es); rewrite take_drop.
Qed.

End Client.

(** ** The server and the client together *)

Section Remote.
Context {W C R : Type} `{!WatchChannel N W, !Broadcast ExecProcessEvent C R}.
Context (to_abs_path : str → result str str).
Context (host_vars : list (str * str)).
Context (matches : EnvironmentVariablePattern → str → bool).

(** Handles are allocated in order. *)
Definition client_wf (c : ClientInner (W := W) (C := C)) : Prop :=
  (∀ pid k, sessions c !! pid = Some k → (k < next_state c)%N) ∧
  (∀ k e, (k, e) ∈ published c → (k < next_state c)%N).

Lemma elem_of_events_of h (w : Inner (W := W) (C := C)) e : e ∈ events_of h w ↔ ∃ pid, (pid, h, e) ∈ emitted w.
Proof.
  unfold events_of. rewrite list_elem_of_omap. split.
  - intros ([[pid h'] e'] & Hin & He). cbn in He. destruct (N.eqb_spec h' h); [| done].
    injection He as ->. subst h'. by exists pid.
  - intros [pid Hin]. exists (pid, h, e). split; [done|]. cbn. by rewrite N.eqb_refl.
Qed.

Lemma elem_of_notes_of pid ns e : e ∈ notes_of pid ns ↔ (pid, e) ∈ note_parts <$> ns.
Proof.
  unfold notes_of, note_parts. rewrite list_elem_of_omap, list_elem_of_fmap. split.
  - intros (n & Hin & He). exists n. destruct (str_eqb_reflect (note_pid n) pid) as [<- |]; [| done].
    injection He as <-. done.
  - intros (n & [= -> ->] & Hin). exists n. by rewrite str_eqb_refl.
Qed.

Lemma wire_notes_sound conn (s : System (W := W) (C := C)) h t ns e :
  Wired conn s → procs s !! h = Some t →
  (∀ h' t', procs s !! h' = Some t' → o_pid (origin t') = o_pid (origin t) → h' = h) →
  ns `prefix_of` (wire (inner s)).*2 →
  e ∈ notes_of (o_pid (origin t)) ns → e ∈ events_of h (inner s).
Proof.
  intros Hw Ht Hone [rest Hns] He%elem_of_notes_of.
  assert (Hin : (o_pid (origin t), e) ∈ (λ phe, (phe.1.1, phe.2)) <$> emitted (inner s)).
  { rewrite <-(wired_notes _ _ Hw), Hns, !fmap_app, !elem_of_app. by left; left. }
  apply list_elem_of_fmap in Hin as ([[pid' h'] e'] & Heq & Hin). cbn in Heq. injection Heq as <- <-.
  destruct (wired_emitted _ _ Hw _ _ _ Hin) as (t' & Ht' & Ho). rewrite (Hone h' t' Ht' Ho) in Hin.
  apply elem_of_events_of. by eexists.
Qed.

Lemma wire_notes_complete conn (s : System (W := W) (C := C)) h t e :
  Wired conn s → procs s !! h = Some t →
  (∀ n, n ∈ flying (procs s) → note_pid n ≠ o_pid (origin t)) →
  e ∈ events_of h (inner s) → e ∈ notes_of (o_pid (origin t)) (wire (inner s)).*2.
Proof.
  intros Hw Ht Hfly [pid' He]%elem_of_events_of. apply elem_of_notes_of.
  destruct (wired_emitted _ _ Hw _ _ _ He) as (t' & Ht' & Ho). assert (t' = t) as -> by congruence. subst pid'.
  assert (Hin : (o_pid (origin t), e) ∈ note_parts <$> ((wire (inner s)).*2 ++ flying (procs s))).
  { rewrite (wired_notes _ _ Hw). apply list_elem_of_fmap. by eexists (_, _, _). }
  rewrite fmap_app, elem_of_app in Hin. destruct Hin as [Hin | Hin]; [done|].
  apply list_elem_of_fmap in Hin as (n & Hn & Hin). apply Hfly in Hin. injection Hn as Hn _. congruence.
Qed.

Lemma following_start pid c c' k es :
  client_wf c → register_session pid c = (c', Ok k) → Following pid k es [] c'.
Proof.
  intros [Hw1 Hw2] Hr. unfold register_session in Hr.
  destruct (disconnected_error c); [done|]. destruct (sessions c !! pid) eqn:Hp; [done|].
  injection Hr as <- <-.
  assert (Hpub : ∀ c0 : ClientInner (W := W) (C := C), published c0 = published c → published_on (next_state c) c0 = []).
  { intros c0 Hc0. unfold published_on. rewrite Hc0.
    assert (Hlt : ∀ l : list (N * ExecProcessEvent), (∀ k e, (k, e) ∈ l → (k < next_state c)%N) →
      omap (λ ke, if (ke.1 =? next_state c)%N then Some ke.2 else None) l = []).
    { induction l as [| [k e] l IH]; intros Hl; cbn; [done|].
      assert (k < next_state c)%N by (apply (Hl k e); by left).
      destruct (N.eqb_spec k (next_state c)); [lia|]. apply IH. intros k' e' Hin. apply (Hl k' e'). by right. }
    by apply Hlt. }
  split.
  - intros pid' Hpid'. cbn in Hpid'. destruct (decide (pid' = pid)); [done|].
    rewrite lookup_insert_ne in Hpid' by done. apply Hw1 in Hpid'. lia.
  - left. exists session_new. rewrite Hpub by done. cbn [sessions states]. rewrite !lookup_insert_eq.
    split; [done|]. split; [done|].
    split; [| split; [apply lookup_empty | done]]. split; cbn; [done | lia | |].
    + intros seq e. rewrite lookup_empty. split; [done|]. intros (_ & Hin & _). by apply elem_of_nil in Hin.
    + intros e Hin. by apply elem_of_nil in Hin.
Qed.

(** C24: A remote process as its caller sees it.  The server runs its tasks in any
    interleaving, the notifications reach the client in the order the tasks sent them,
    and a session registered before the start publishes a prefix of the events of the
    process, in order and without duplicates: the longest one whose notifications have
    arrived.  Once everything sent has arrived it has published exactly the events of
    the process. *)
Theorem remote_events_exact conn (s : System (W := W) (C := C)) h t c c' k ns :
  rtc (serve_one to_abs_path host_vars matches) (fresh_system (Some conn)) s →
  procs s !! h = Some t →
  (∀ h' t', procs s !! h' = Some t' → o_pid (origin t') = o_pid (origin t) → h' = h) →
  client_wf c → register_session (o_pid (origin t)) c = (c', Ok k) →
  ns `prefix_of` (wire (inner s)).*2 →
  let pid := o_pid (origin t) in
  let es := events_of h (inner s) in
  let out := published_on k (handle_notifications ns c') in
  out `prefix_of` es ∧
  (∀ n, n ≤ length es → (∀ e, e ∈ take n es → e ∈ notes_of pid ns) → take n es `prefix_of` out) ∧
  (ns = (wire (inner s)).*2 → (∀ n, n ∈ flying (procs s) → note_pid n ≠ pid) → out = es).
Proof.
  intros Hr Ht Hone Hwf Hreg Hns. cbn zeta. destruct (wired_reachable _ _ _ _ _ Hr) as [I Hw].
  destruct (inv_procs _ I _ _ Ht) as (_ & T & _).
  assert (Hs : sequenced (events_of h (inner s))) by apply T.
  assert (Hl : closed_last (events_of h (inner s))).
  { intros Hc. by destruct (trace_closed _ _ T Hc) as [_ Hlast]. }
  pose proof (following_start _ _ _ _ (events_of h (inner s)) Hwf Hreg) as F.
  eapply (follow_notes _ _ _ ns) in F; [| done | done | |].
  2:{ intros e He. by apply elem_of_nil in He. }
  2:{ intros e He. by eapply wire_notes_sound. }
  cbn [app] in F. destruct (following_exact _ _ _ _ _ Hs F) as [Hp Hlong].
  split; [done|]. split; [done|]. intros -> Hfly.
  specialize (Hlong (length (events_of h (inner s)))). rewrite firstn_all in Hlong.
  apply (anti_symm prefix); [done|]. apply Hlong; [done|].
  intros e He. by eapply wire_notes_complete.
Qed.

End Remote.

(** *** A run *)

Definition demo_client : ClientInner (W := Chan N) (C := ListChannel) := (register_session (lit "p") client_new).1.

Lemma demo_procs : procs demo_system = {[0%N := demo_tasks]}.
Proof. vm_compute. reflexivity. Qed.

Lemma remote_events_exact_witness :
  published_on 0 (handle_notifications (wire (inner demo_system)).*2 demo_client) = events_of 0 (inner demo_system).
Proof.
  apply (remote_events_exact (λ p, Ok p) [] (λ _ _, false) 5 demo_system 0 demo_tasks client_new demo_client 0
           (wire (inner demo_system)).*2).
  - apply demo_reachable, demo_steady.
  - exact demo_tasks_eq.
  - intros h' t'. rewrite demo_procs. intros [-> _]%lookup_singleton_Some. reflexivity.
  - split; [intros pid k; cbn; by rewrite lookup_empty | intros k e Hin; by apply elem_of_nil in Hin].
  - reflexivity.
  - done.
  - done.
  - rewrite demo_procs. intros n Hin. unfold flying in Hin. rewrite map_to_list_singleton in Hin.
    by apply elem_of_nil in Hin.
Defined.

(** ** Failures *)

Section Failure.
Context {W C R : Type} `{!WatchChannel N W, !Broadcast ExecProcessEvent C R}.

(** Whatever happens to a client. *)
Inductive ClientOp :=
| OpRegister (pid : str)
| OpUnregister (pid : str)
| OpNote (n : Notification)
| OpDisconnected (order : gmap str N → list (str * N)) (reason : option str)
| OpCall (answer : result ExecServerError unit)
| OpRead (k : N) (answer : result ExecServerError ReadResponse).

Definition run_op (op : ClientOp) (c : ClientInner (W := W) (C := C)) : ClientInner :=
  match op with
  | OpRegister pid => (register_session pid c).1
  | OpUnregister pid => remove_session pid c
  | OpNote n => handle_server_notification n c
  | OpDisconnected order reason => handle_disconnected order reason c
  | OpCall answer => (client_call answer c).1
  | OpRead k answer => (session_read k answer c).1
  end.

Definition run_ops (ops : list ClientOp) (c : ClientInner) : ClientInner := fold_left (λ c op, run_op op c) ops c.

Definition failures (es : list ExecProcessEvent) : list str :=
  omap (λ e, match e with EvFailed m => Some m | _ => None end) es.

(** A session and its events agree about the failure, and nothing that waits is one. *)
Record session_ok (es : list ExecProcessEvent) (s : SessionState (W := W) (C := C)) : Prop := {
  ok_failures : failures es = option_list (s_failure s);
  ok_pending seq e : pending (ordered_events s) !! seq = Some e → event_seq e ≠ None;
}.

Record client_ok (c : ClientInner (W := W) (C := C)) : Prop := {
  ok_states k s : states c !! k = Some s → session_ok (published_on k c) s;
  ok_fresh k : (next_state c <= k)%N → states c !! k = None ∧ published_on k c = [];
}.

Lemma failures_app es es' : failures (es ++ es') = failures es ++ failures es'.
Proof. apply omap_app. Qed.

Lemma failures_none es : (∀ e, e ∈ es → event_seq e ≠ None) → failures es = [].
Proof.
  induction es as [| e es IH]; intros H; [done|].
  assert (Hes : failures es = []) by (apply IH; intros e' He'; apply H; by right).
  destruct e; [exact Hes.. | by destruct (H (EvFailed message)); [left|]].
Qed.

Lemma drain_ready_seq fuel : ∀ o ready,
  (∀ seq e, pending o !! seq = Some e → event_seq e ≠ None) → (∀ e, e ∈ ready → event_seq e ≠ None) →
  let '(o', ready') := drain_ready fuel o ready in
  (∀ seq e, pending o' !! seq = Some e → event_seq e ≠ None) ∧ (∀ e, e ∈ ready' → event_seq e ≠ None).
Proof.
  induction fuel as [| fuel IH]; intros o ready Ho Hr; cbn [drain_ready]; [done|].
  destruct (pending o !! _) as [e|] eqn:Hp; [| done]. apply IH; cbn.
  - intros seq e' [_ He']%lookup_delete_Some. by eapply Ho.
  - intros e' [He | ->%list_elem_of_singleton]%elem_of_app; [by apply Hr | by eapply Ho].
Qed.

Lemma publish_note_ok n s es :
  session_ok es s →
  let '(s', new, _) := publish_ordered_event (note_event n) s in
  session_ok (es ++ new) s' ∧ s_failure s' = s_failure s.
Proof.
  intros [H1 H2]. destruct (publish_note n s) as (seq & o & ready & Hseq & Hor & ->). split; [|done].
  assert (Hok : (∀ seq e, pending o !! seq = Some e → event_seq e ≠ None) ∧ ∀ e, e ∈ ready → event_seq e ≠ None).
  { unfold order_event in Hor. destruct (seq <=? _)%N.
    - injection Hor as <- <-. split; [done|]. intros e He. by apply elem_of_nil in He.
    - match type of Hor with drain_ready ?f ?o0 [] = _ => pose proof (drain_ready_seq f o0 []) as Hd end.
      rewrite Hor in Hd. apply Hd; [| intros e He; by apply elem_of_nil in He]. cbn. intros seq' e.
      destruct (pending (ordered_events s) !! seq); [apply H2|].
      intros [[_ <-] | [_ He]]%lookup_insert_Some; [by rewrite Hseq | by eapply H2]. }
  split; cbn; [| apply Hok]. rewrite failures_app, (failures_none ready), app_nil_r; [done | apply Hok].
Qed.

Lemma set_failure_ok m s es :
  session_ok es s →
  let '(s', new) := set_failure m s in
  session_ok (es ++ new) s' ∧ s_failure s' = Some (default m (s_failure s)).
Proof.
  intros [H1 H2]. unfold set_failure. destruct (s_failure s) as [m0|] eqn:Hf; cbn.
  - rewrite app_nil_r. split; [split|]; cbn; done.
  - split; [split|]; cbn; [| done | done]. by rewrite failures_app, H1.
Qed.

Lemma set_state_ok k s' es c :
  client_ok c → (k < next_state c)%N → session_ok (published_on k c ++ es) s' → client_ok (set_state k s' es c).
Proof.
  intros [H1 H2] Hk Hs. split; cbn [states next_state set_state].
  - intros k' s. rewrite published_set_state. destruct (decide (k' = k)) as [-> | Hne].
    + rewrite lookup_insert_eq, N.eqb_refl. by intros [= <-].
    + rewrite lookup_insert_ne, (proj2 (N.eqb_neq _ _)), app_nil_r by done. apply H1.
  - intros k' Hk'. rewrite published_set_state, lookup_insert_ne, (proj2 (N.eqb_neq _ _)), app_nil_r by lia.
    by apply H2.
Qed.

Lemma state_lt c k s : client_ok c → states c !! k = Some s → (k < next_state c)%N.
Proof.
  intros Hc Hk. destruct (N.lt_ge_cases k (next_state c)) as [|Hge]; [done|].
  destruct (ok_fresh _ Hc k Hge). congruence.
Qed.

(** The failure of a session, once there, stays the first one. *)
Definition failed_with (k : N) (m : str) (c : ClientInner (W := W) (C := C)) : Prop :=
  ∃ s, states c !! k = Some s ∧ s_failure s = Some m.

Lemma fail_session_ok m c k : client_ok c → client_ok (fail_session m c k) ∧
  next_state (fail_session m c k) = next_state c ∧
  (∀ k' m', failed_with k' m' c → failed_with k' m' (fail_session m c k)).
Proof.
  intros Hc. unfold fail_session. destruct (states c !! k) as [s|] eqn:Hk; [| done].
  pose proof (set_failure_ok m s _ (ok_states _ Hc _ _ Hk)) as Hs.
  destruct (set_failure m s) as [s' es]. destruct Hs as [Hs Hf].
  split; [apply set_state_ok; [done | by eapply state_lt | done]|]. split; [done|].
  intros k' m' (s0 & Hs0 & Hm). destruct (decide (k' = k)) as [-> | Hne].
  - exists s'. cbn. rewrite lookup_insert_eq. split; [done|]. assert (s0 = s) as -> by congruence. by rewrite Hf, Hm.
  - exists s0. cbn. by rewrite lookup_insert_ne.
Qed.

(** What every operation keeps. *)
Definition keeps (c c' : ClientInner (W := W) (C := C)) : Prop :=
  client_ok c → client_ok c' ∧ ∀ k m, failed_with k m c → failed_with k m c'.

Lemma keeps_refl c : keeps c c.
Proof. done. Qed.
Lemma keeps_trans c1 c2 c3 : keeps c1 c2 → keeps c2 c3 → keeps c1 c3.
Proof. intros H1 H2 H. destruct (H1 H) as [Ha Hb]. destruct (H2 Ha) as [Hc Hd]. split; [done|]. eauto. Qed.

(** Only the table or the latch changed. *)
Lemma keeps_table c t d : keeps c (mkClient t (states c) (next_state c) d (published c)).
Proof. intros [H1 H2]. split; [by split | done]. Qed.

Lemma keeps_fail m c k : keeps c (fail_session m c k).
Proof. intros Hc. destruct (fail_session_ok m c k Hc) as (? & _ & ?). done. Qed.

Lemma keeps_fail_all m ks : ∀ c, keeps c (fold_left (fail_session m) ks c).
Proof.
  induction ks as [| k ks IH]; intros c; cbn [fold_left]; [apply keeps_refl|].
  eapply keeps_trans; [apply keeps_fail | apply IH].
Qed.

Lemma keeps_record m c : keeps c (record_disconnected m c).1.
Proof. unfold record_disconnected. destruct (disconnected c); [apply keeps_refl | apply keeps_table]. Qed.

Lemma keeps_register pid c : keeps c (register_session pid c).1.
Proof.
  unfold register_session. destruct (disconnected_error c); [apply keeps_refl|].
  destruct (sessions c !! pid); [apply keeps_refl|]. cbn. intros Hc.
  destruct (ok_fresh _ Hc (next_state c)) as [Hn Hp]; [lia|]. split.
  - split; cbn [states next_state].
    + intros k s. change (published_on k _) with (published_on k c). destruct (decide (k = next_state c)) as [-> | Hne].
      * rewrite lookup_insert_eq, Hp. intros [= <-]. split; [done|]. cbn. intros seq e. by rewrite lookup_empty.
      * rewrite lookup_insert_ne by done. apply (ok_states _ Hc).
    + intros k Hk. change (published_on k _) with (published_on k c).
      rewrite lookup_insert_ne by lia. apply (ok_fresh _ Hc). lia.
  - intros k m (s & Hs & Hm). exists s. cbn. rewrite lookup_insert_ne; [done|]. congruence.
Qed.

Lemma keeps_note n c : keeps c (handle_server_notification n c).
Proof.
  unfold handle_server_notification. destruct (get_session (note_pid n) c) as [k|]; [| apply keeps_refl].
  destruct (states c !! k) as [s|] eqn:Hk; [| apply keeps_refl]. intros Hc.
  assert (Hs : session_ok (published_on k c) (note_change (default 0%N (event_seq (note_event n))) s))
    by (destruct (ok_states _ Hc _ _ Hk); by split).
  pose proof (publish_note_ok n _ _ Hs) as Hp.
  destruct (publish_ordered_event (note_event n) _) as [[s' es] b]. destruct Hp as [Hok Hf]. cbn in Hf.
  assert (Hset : client_ok (set_state k s' es c)) by (apply set_state_ok; [done | by eapply state_lt | done]).
  assert (Hfail : ∀ k' m, failed_with k' m c → failed_with k' m (set_state k s' es c)).
  { intros k' m (s0 & Hs0 & Hm). destruct (decide (k' = k)) as [-> | Hne].
    - exists s'. cbn. rewrite lookup_insert_eq. split; [done|]. congruence.
    - exists s0. cbn. by rewrite lookup_insert_ne. }
  destruct b; [| done]. destruct (keeps_table _ (delete (note_pid n) (sessions (set_state k s' es c)))
    (disconnected (set_state k s' es c)) Hset) as [H1 H2]. split; [exact H1 | eauto].
Qed.

Lemma keeps_call {A} (answer : result ExecServerError A) c : keeps c (client_call answer c).1.
Proof.
  unfold client_call. destruct (disconnected_error c); [apply keeps_refl|]. destruct answer as [r | e]; [apply keeps_refl|].
  destruct (is_transport_closed_error e); [| apply keeps_refl].
  pose proof (keeps_record (disconnected_message None) c) as H. by destruct (record_disconnected _ c).
Qed.

Lemma keeps_read k answer c : keeps c (session_read k answer c).1.
Proof.
  unfold session_read. destruct (states c !! k); [| apply keeps_refl]. destruct (failed_response _); [apply keeps_refl|].
  pose proof (keeps_call answer c) as Hc. destruct (client_call answer c) as [c1 [r | e]]; [exact Hc|].
  destruct (is_transport_closed_error e); [| exact Hc]. cbn. eapply keeps_trans; [exact Hc | apply keeps_fail].
Qed.

Lemma keeps_op op c : keeps c (run_op op c).
Proof.
  destruct op as [pid | pid | n | order reason | answer | k answer]; cbn [run_op].
  - apply keeps_register.
  - apply keeps_table.
  - apply keeps_note.
  - unfold handle_disconnected. pose proof (keeps_record (disconnected_message reason) c) as H.
    destruct (record_disconnected _ c) as [c1 m]. eapply keeps_trans; [exact H|]. unfold fail_all_sessions.
    eapply keeps_trans; [apply (keeps_table _ ∅ (disconnected c1)) | apply keeps_fail_all].
  - apply keeps_call.
  - apply keeps_read.
Qed.

Lemma keeps_ops ops : ∀ c, keeps c (run_ops ops c).
Proof.
  unfold run_ops. induction ops as [| op ops IH]; intros c; cbn [fold_left]; [apply keeps_refl|].
  eapply keeps_trans; [apply keeps_op | apply IH].
Qed.

Lemma client_new_ok : client_ok client_new.
Proof. split; cbn; [intros k s; by rewrite lookup_empty | done]. Qed.

(** Whatever happens to a connection, in whatever order: a session publishes at most one
    failure, the one it records; and once it has failed, every read is answered, without
    asking the server, as closed with that same message. *)
Theorem failure_final ops ops' k s :
  states (run_ops ops client_new) !! k = Some s →
  let c := run_ops ops client_new in
  failures (published_on k c) = option_list (s_failure s) ∧
  ∀ m answer, s_failure s = Some m →
    let c' := run_ops ops' c in
    ∃ r, session_read k answer c' = (c', Ok r) ∧ closed r = true ∧ exited r = true ∧ chunks r = [] ∧
      failure r = Some m.
Proof.
  intros Hs. cbn zeta. destruct (keeps_ops ops client_new client_new_ok) as [Hc _].
  split; [apply (ok_states _ Hc _ _ Hs)|]. intros m answer Hm.
  destruct (keeps_ops ops' _ Hc) as [_ Hf]. destruct (Hf k m) as (s' & Hs' & Hm'); [by exists s|].
  unfold session_read. rewrite Hs'. unfold failed_response. rewrite Hm'. by eexists.
Qed.

End Failure.

Definition failing_ops : list ClientOp :=
  [OpRegister (lit "p"); OpNote (ClosedNote (lit "p") 2); OpDisconnected map_to_list (Some (lit "eof"));
   OpRead 0 (Err Closed)].
Definition failed_client : ClientInner (W := Chan N) (C := ListChannel) := run_ops failing_ops client_new.
Definition failed_state : SessionState (W := Chan N) (C := ListChannel) :=
  default session_new (states failed_client !! 0%N).

Lemma failure_final_witness :
  s_failure failed_state = Some (lit "exec-server transport disconnected: eof") ∧
  failures (published_on 0 failed_client) = [lit "exec-server transport disconnected: eof"].
Proof.
  assert (Hf : s_failure failed_state = Some (lit "exec-server transport disconnected: eof")) by (vm_compute; reflexivity).
  split; [exact Hf|].
  destruct (failure_final (W := Chan N) (C := ListChannel) failing_ops [] 0 failed_state) as [H _].
  - vm_compute. reflexivity.
  - rewrite Hf in H. exact H.
Defined.
