(* ===== verification/SessionRegistry.v ===== *)
(** * Sessions of the exec server

    [exec-server/src/server/session_registry.rs]: a session outlives its connection for
    [DETACHED_SESSION_TTL], so that another connection can resume it.

    The table of sessions is behind an asynchronous lock that [attach] holds from the
    lookup to the attachment; the attachment of a session is behind a lock of its own,
    which [detach] takes without the first one.  A [Registry] therefore has the calls in
    progress at each access ([Call]), and a [choice] lets one go on.  Of the process
    handler of a session only the notification sender and the shutdown are seen. *)

From S2P Require Import Prelude RustStr LocalProcess.

Definition DETACHED_SESSION_TTL : N := 10000.

Record AttachmentState := mkAttachment {
  current_connection_id : option N;
  detached_connection_id : option N;
  detached_expires_at : option N;
}.

Record SessionEntry := mkEntry {
  session_id : str;
  attachment : AttachmentState;
  sender : option N;
  shut_down : bool;
}.

(** ** One access to an entry *)

Definition entry_new (session_id : str) (conn : N) : SessionEntry :=
  mkEntry session_id (mkAttachment (Some conn) None None) (Some conn) false.

Definition entry_attach (conn : N) (e : SessionEntry) : SessionEntry :=
  mkEntry (session_id e) (mkAttachment (Some conn) None None) (sender e) (shut_down e).

Definition is_attached_to (conn : N) (e : SessionEntry) : bool :=
  bool_decide (current_connection_id (attachment e) = Some conn).

(** [None]: the connection is not the current one. *)
Definition entry_detach (now conn : N) (e : SessionEntry) : option SessionEntry :=
  if is_attached_to conn e
  then Some (mkEntry (session_id e) (mkAttachment None (Some conn) (Some (now + DETACHED_SESSION_TTL)%N))
               (sender e) (shut_down e))
  else None.

Definition has_active_connection (e : SessionEntry) : bool := opt_is_some (current_connection_id (attachment e)).

Definition is_expired (now : N) (e : SessionEntry) : bool :=
  match detached_expires_at (attachment e) with Some deadline => (deadline <=? now)%N | None => false end.

Definition is_detached_connection_expired (conn now : N) (e : SessionEntry) : bool :=
  negb (has_active_connection e)
  && bool_decide (detached_connection_id (attachment e) = Some conn)
  && is_expired now e.

Definition set_sender (s : option N) (e : SessionEntry) : SessionEntry :=
  mkEntry (session_id e) (attachment e) s (shut_down e).
Definition shutdown_entry (e : SessionEntry) : SessionEntry :=
  mkEntry (session_id e) (attachment e) (sender e) true.

(** ** The calls in progress *)

Definition unknown_session (sid : str) : JSONRPCErrorError :=
  invalid_request (lit "unknown session id " ++ sid).
Definition already_attached (sid : str) : JSONRPCErrorError :=
  invalid_request (lit "session " ++ sid ++ lit " is already attached to another connection").

(** Where a call of [attach] (with the id of its connection), [SessionHandle::detach] or
    [expire_if_detached] (after its sleep, until [wake]) is. *)
Inductive Call :=
| AttachWait (resume_session_id : option str) (conn : N)
| AttachExpired (sid : str) (e conn : N)
| AttachActive (sid : str) (e conn : N)
| AttachSender (e conn : N)
| AttachSet (e conn : N)
| AttachShutdown (sid : str) (e : N)
| Attached (e conn : N)
| AttachFailed (err : JSONRPCErrorError)
| DetachEntry (e conn : N)
| DetachSender (e conn : N)
| ExpireWait (sid : str) (conn wake : N)
| ExpireShutdown (e : N)
| Done.

#[export] Instance JSONRPCErrorError_eq_dec : EqDecision JSONRPCErrorError.
Proof. solve_decision. Defined.
#[export] Instance Call_eq_dec : EqDecision Call.
Proof. solve_decision. Defined.

Record Registry := mkRegistry {
  table : gmap str N;
  entries : gmap N SessionEntry;
  next_entry : N;
  next_conn : N;
  now : N;
  holder : option nat;
  calls : list Call;
}.

Definition fresh_registry : Registry := mkRegistry ∅ ∅ 0 0 0 None [].

Definition put_entry (e : N) (x : SessionEntry) (r : Registry) : Registry :=
  mkRegistry (table r) (<[e := x]> (entries r)) (next_entry r) (next_conn r) (now r) (holder r) (calls r).
Definition set_table (t : gmap str N) (r : Registry) : Registry :=
  mkRegistry t (entries r) (next_entry r) (next_conn r) (now r) (holder r) (calls r).
Definition set_holder (h : option nat) (r : Registry) : Registry :=
  mkRegistry (table r) (entries r) (next_entry r) (next_conn r) (now r) h (calls r).
Definition set_call (i : nat) (c : Call) (r : Registry) : Registry :=
  mkRegistry (table r) (entries r) (next_entry r) (next_conn r) (now r) (holder r) (<[i := c]> (calls r)).
Definition add_call (c : Call) (r : Registry) : Registry :=
  mkRegistry (table r) (entries r) (next_entry r) (next_conn r) (now r) (holder r) (calls r ++ [c]).

(** The lock of the table is released and the call goes on. *)
Definition release (i : nat) (c : Call) (r : Registry) : Registry := set_call i c (set_holder None r).

Section Registry.

(** [Uuid::new_v4]: the id of the session a connection creates.  Ids do not repeat. *)
Context (uuid : N → str) `{!Inj (=) (=) uuid}.

Definition create_session (e conn : N) (r : Registry) : Registry :=
  mkRegistry (<[uuid conn := e]> (table r)) (<[e := entry_new (uuid conn) conn]> (entries r)) (e + 1)%N
    (next_conn r) (now r) (holder r) (calls r).

(** The next access of call [i]; [None] when it cannot go on. *)
Definition run_call (i : nat) (c : Call) (r : Registry) : option Registry :=
  match c with
  | AttachWait resume_session_id conn =>
      match holder r, resume_session_id with
      | Some _, _ => None
      | None, Some sid =>
          match table r !! sid with
          | None => Some (set_call i (AttachFailed (unknown_session sid)) r)
          | Some e => Some (set_call i (AttachExpired sid e conn) (set_holder (Some i) r))
          end
      | None, None =>
          let e := next_entry r in Some (set_call i (Attached e conn) (create_session e conn r))
      end
  | AttachExpired sid e conn =>
      x ← entries r !! e;
      if is_expired (now r) x
      then Some (release i (AttachShutdown sid e) (set_table (delete sid (table r)) r))
      else Some (set_call i (AttachActive sid e conn) r)
  | AttachActive sid e conn =>
      x ← entries r !! e;
      if has_active_connection x
      then Some (release i (AttachFailed (already_attached sid)) r)
      else Some (set_call i (AttachSender e conn) r)
  | AttachSender e conn =>
      x ← entries r !! e; Some (set_call i (AttachSet e conn) (put_entry e (set_sender (Some conn) x) r))
  | AttachSet e conn =>
      x ← entries r !! e; Some (release i (Attached e conn) (put_entry e (entry_attach conn x) r))
  | AttachShutdown sid e =>
      x ← entries r !! e;
      Some (set_call i (AttachFailed (unknown_session sid)) (put_entry e (shutdown_entry x) r))
  | DetachEntry e conn =>
      x ← entries r !! e;
      match entry_detach (now r) conn x with
      | None => Some (set_call i Done r)
      | Some x => Some (set_call i (DetachSender e conn) (put_entry e x r))
      end
  | DetachSender e conn =>
      x ← entries r !! e;
      Some (add_call (ExpireWait (session_id x) conn (now r + DETACHED_SESSION_TTL)%N)
              (set_call i Done (put_entry e (set_sender None x) r)))
  | ExpireWait sid conn wake =>
      if (wake <=? now r)%N then
        match holder r with
        | Some _ => None
        | None =>
            match table r !! sid with
            | None => Some (set_call i Done r)
            | Some e =>
                x ← entries r !! e;
                if is_detached_connection_expired conn (now r) x
                then Some (set_call i (ExpireShutdown e) (set_table (delete sid (table r)) r))
                else Some (set_call i Done r)
            end
        end
      else None
  | ExpireShutdown e =>
      x ← entries r !! e; Some (set_call i Done (put_entry e (shutdown_entry x) r))
  | Attached _ _ | AttachFailed _ | Done => None
  end.

Inductive choice :=
| RunCall (i : nat)
| NewAttach (resume_session_id : option str)
| NewDetach (e conn : N)
| DropAttach (i : nat)
| Tick (ms : N).

(** A connection gets a new id; only a connection that was attached has a handle to
    detach.  [attach] can be dropped where it waits, for the lock of the table or for the
    shutdown of an expired session. *)
Definition run_choice (c : choice) (r : Registry) : option Registry :=
  match c with
  | RunCall i => c ← calls r !! i; run_call i c r
  | NewAttach resume =>
      Some (mkRegistry (table r) (entries r) (next_entry r) (next_conn r + 1)%N (now r) (holder r)
              (calls r ++ [AttachWait resume (next_conn r)]))
  | NewDetach e conn =>
      if bool_decide (Attached e conn ∈ calls r) then Some (add_call (DetachEntry e conn) r) else None
  | DropAttach i =>
      c ← calls r !! i;
      match c with AttachWait _ _ | AttachShutdown _ _ => Some (set_call i Done r) | _ => None end
  | Tick ms =>
      Some (mkRegistry (table r) (entries r) (next_entry r) (next_conn r) (now r + ms)%N (holder r) (calls r))
  end.

Definition step (r r' : Registry) : Prop := ∃ c, run_choice c r = Some r'.

Definition run_choices (cs : list choice) (r : Registry) : Registry :=
  fold_left (λ r c, default r (run_choice c r)) cs r.

Lemma run_choices_reachable cs r : rtc step r (run_choices cs r).
Proof.
  revert r. induction cs as [| c cs IH]; intros r; cbn; [done|].
  destruct (run_choice c r) as [r'|] eqn:E; cbn; [| apply IH]. eapply rtc_l; [by exists c | apply IH].
Qed.

(** ** The invariant *)

(** The calls that hold the lock of the table. *)
Definition holds_table (c : Call) : bool :=
  match c with
  | AttachExpired _ _ _ | AttachActive _ _ _ | AttachSender _ _ | AttachSet _ _ => true
  | _ => false
  end.

Definition idle (x : SessionEntry) : Prop := current_connection_id (attachment x) = None.
Definition listed (e : N) (r : Registry) : Prop := ∃ sid, table r !! sid = Some e.

Definition attachment_ok (x : SessionEntry) : Prop :=
  match current_connection_id (attachment x) with
  | Some _ => detached_connection_id (attachment x) = None ∧ detached_expires_at (attachment x) = None
  | None => is_Some (detached_connection_id (attachment x)) ∧ is_Some (detached_expires_at (attachment x))
  end.

(** What a call in progress relies on. *)
Definition call_ok (c : Call) (r : Registry) : Prop :=
  match c with
  | AttachWait _ conn => (conn < next_conn r)%N ∧ table r !! uuid conn = None
  | AttachExpired sid e _ | AttachActive sid e _ => table r !! sid = Some e
  | AttachSender e _ | AttachSet e _ => listed e r ∧ ∃ x, entries r !! e = Some x ∧ idle x
  | AttachShutdown _ e | ExpireShutdown e => ¬ listed e r ∧ ∃ x, entries r !! e = Some x ∧ idle x
  | Attached e _ | DetachEntry e _ | DetachSender e _ => is_Some (entries r !! e)
  | _ => True
  end.

(** Somebody will see to a session without a connection. *)
Definition attended (sid : str) (e : N) (x : SessionEntry) (r : Registry) : Prop :=
  ∃ conn deadline, detached_connection_id (attachment x) = Some conn ∧
    detached_expires_at (attachment x) = Some deadline ∧
    (DetachSender e conn ∈ calls r ∧ (deadline <= now r + DETACHED_SESSION_TTL)%N ∨
     ∃ wake, (deadline <= wake)%N ∧ ExpireWait sid conn wake ∈ calls r).

Record Inv (r : Registry) : Prop := {
  inv_table sid e : table r !! sid = Some e →
    (∃ x, entries r !! e = Some x ∧ session_id x = sid ∧ shut_down x = false ∧
       (idle x → attended sid e x r)) ∧
    (∃ conn, (conn < next_conn r)%N ∧ sid = uuid conn);
  inv_entries e x : entries r !! e = Some x →
    attachment_ok x ∧ (e < next_entry r)%N ∧ (¬ listed e r → idle x);
  inv_calls i c : calls r !! i = Some c → call_ok c r;
  inv_holder i c : calls r !! i = Some c → (holds_table c = true ↔ holder r = Some i);
  inv_holds i : holder r = Some i → is_Some (calls r !! i);
  inv_conns i j resume resume' conn : calls r !! i = Some (AttachWait resume conn) →
    calls r !! j = Some (AttachWait resume' conn) → i = j;
}.

(** What a step of call [i], from [c] to [c'], has to show; [new] is the call it spawns. *)
Lemma inv_intro r i c r' c' new :
  Inv r → calls r !! i = Some c → calls r' = <[i := c']> (calls r) ++ new →
  (new = [] ∨ ∃ sid conn wake, new = [ExpireWait sid conn wake]) →
  (∀ resume conn, c' ≠ AttachWait resume conn) →
  holder r' = (if holds_table c' then Some i else if holds_table c then None else holder r) →
  (holds_table c' = true → holds_table c = true ∨ holder r = None) →
  call_ok c' r' →
  (∀ j cj, j ≠ i → calls r !! j = Some cj → (holds_table cj = true → holder r = Some j ∧ holds_table c = false) →
     call_ok cj r → call_ok cj r') →
  (∀ sid e, table r' !! sid = Some e →
    (∃ x, entries r' !! e = Some x ∧ session_id x = sid ∧ shut_down x = false ∧ (idle x → attended sid e x r')) ∧
    (∃ conn, (conn < next_conn r')%N ∧ sid = uuid conn)) →
  (∀ e x, entries r' !! e = Some x → attachment_ok x ∧ (e < next_entry r')%N ∧ (¬ listed e r' → idle x)) →
  Inv r'.
Proof.
  intros I Hi Hcalls Hnew Hc' Hh Hlock Hok Hst HT HE.
  assert (Hlen : i < length (calls r)) by by eapply lookup_lt_Some.
  assert (Hlk : ∀ j cj, calls r' !! j = Some cj →
    j = i ∧ cj = c' ∨ j ≠ i ∧ calls r !! j = Some cj ∨
    length (calls r) ≤ j ∧ ∃ sid conn wake, cj = ExpireWait sid conn wake).
  { intros j cj. rewrite Hcalls. intros Hj. destruct (decide (j < length (calls r))) as [Hlt | Hge].
    - rewrite lookup_app_l in Hj by (by rewrite length_insert). destruct (decide (j = i)) as [-> | Hne].
      + rewrite list_lookup_insert_eq in Hj by done. left. split; congruence.
      + rewrite list_lookup_insert_ne in Hj by done. by right; left.
    - right; right. split; [lia|]. rewrite lookup_app_r in Hj by (rewrite length_insert; lia).
      destruct Hnew as [-> | (sid & conn & wake & ->)]; [done|].
      apply list_lookup_singleton_Some in Hj as [_ <-]. by do 3 eexists. }
  split; [exact HT | exact HE | | | |].
  - intros j cj Hj. destruct (Hlk _ _ Hj) as [[-> ->] | [[Hne Hj'] | (_ & sid & conn & wake & ->)]]; [done | | done].
    apply (Hst j); [done | done | | by apply (inv_calls _ I j)]. intros Hhold.
    pose proof (proj1 (inv_holder _ I _ _ Hj') Hhold) as Hr. split; [done|].
    destruct (holds_table c) eqn:Ec; [| done]. apply (inv_holder _ I _ _ Hi) in Ec. congruence.
  - intros j cj Hj. rewrite Hh. destruct (Hlk _ _ Hj) as [[-> ->] | [[Hne Hj'] | (Hge & sid & conn & wake & ->)]].
    + destruct (holds_table c') eqn:E'; [done|]. destruct (holds_table c) eqn:Ec; [done|].
      split; [done|]. intros Hr. apply (inv_holder _ I _ _ Hi) in Hr. congruence.
    + pose proof (inv_holder _ I _ _ Hj') as Hj2. destruct (holds_table c') eqn:E'.
      * split; [| intros [= <-]; done]. intros Hcj. apply Hj2 in Hcj.
        destruct (Hlock eq_refl) as [Hc | Hc]; [| congruence]. apply (inv_holder _ I _ _ Hi) in Hc. congruence.
      * destruct (holds_table c) eqn:Ec; [| done]. split; [| done]. intros Hcj. apply Hj2 in Hcj.
        apply (inv_holder _ I _ _ Hi) in Ec. congruence.
    + split; [done|]. destruct (holds_table c') eqn:E'; [intros [= <-]; lia|].
      destruct (holds_table c); [done|]. intros Hr. apply (inv_holds _ I) in Hr as [cj Hr].
      apply lookup_lt_Some in Hr. lia.
  - intros j. rewrite Hh, Hcalls. intros Hj. apply lookup_lt_is_Some_2. rewrite length_app, length_insert.
    assert (j < length (calls r)); [| lia].
    destruct (holds_table c'); [by injection Hj as <-|]. destruct (holds_table c); [done|].
    apply (inv_holds _ I) in Hj as [cj Hj]. by eapply lookup_lt_Some.
  - intros j1 j2 resume resume' conn Hj1 Hj2.
    destruct (Hlk _ _ Hj1) as [[-> E] | [[Hne Hj1'] | (_ & sid & cn & wake & E)]]; [by symmetry in E; apply Hc' in E | | done].
    destruct (Hlk _ _ Hj2) as [[-> E] | [[Hne2 Hj2'] | (_ & sid & cn & wake & E)]]; [by symmetry in E; apply Hc' in E | | done].
    by eapply (inv_conns _ I).
Qed.

(** A session stays attended while its watcher is not the call that moves. *)
Lemma attended_kept r r' i c c' new sid e x :
  calls r !! i = Some c → calls r' = <[i := c']> (calls r) ++ new → (now r <= now r')%N →
  (∀ conn, c = DetachSender e conn → detached_connection_id (attachment x) ≠ Some conn) →
  (∀ conn wake, c = ExpireWait sid conn wake → detached_connection_id (attachment x) ≠ Some conn) →
  attended sid e x r → attended sid e x r'.
Proof.
  intros Hi Hcalls Hnow Hd He (conn & deadline & H1 & H2 & Hw). exists conn, deadline.
  split; [done|]. split; [done|].
  assert (Hin : ∀ cj, cj ∈ calls r → cj ≠ c → cj ∈ calls r').
  { intros cj [j Hj]%list_elem_of_lookup_1 Hne. rewrite Hcalls. apply elem_of_app. left.
    apply list_elem_of_lookup. exists j. rewrite list_lookup_insert_ne; [done|]. intros ->. congruence. }
  destruct Hw as [[Hw Hle] | (wake & Hle & Hw)].
  - left. split; [| lia]. apply Hin; [done|]. intros <-. by apply (Hd conn).
  - right. exists wake. split; [done|]. apply Hin; [done|]. intros <-. by apply (He conn wake).
Qed.

(** A step that keeps the table and does not attach anybody. *)
Lemma inv_quiet r i c r' c' new :
  Inv r → calls r !! i = Some c → calls r' = <[i := c']> (calls r) ++ new →
  (new = [] ∨ ∃ sid conn wake, new = [ExpireWait sid conn wake]) →
  (∀ resume conn, c' ≠ AttachWait resume conn) →
  holder r' = (if holds_table c' then Some i else if holds_table c then None else holder r) →
  (holds_table c' = true → holds_table c = true ∨ holder r = None) →
  table r' = table r → next_entry r' = next_entry r → next_conn r' = next_conn r → now r' = now r →
  (∀ e x', entries r' !! e = Some x' → ∃ x, entries r !! e = Some x ∧ attachment_ok x' ∧
     (idle x → idle x')) →
  (∀ e x, entries r !! e = Some x → ∃ x', entries r' !! e = Some x' ∧ session_id x' = session_id x ∧
     (listed e r → shut_down x = false → shut_down x' = false) ∧
     (idle x → idle x') ∧
     (listed e r → idle x' → attended (session_id x) e x' r')) →
  call_ok c' r' → Inv r'.
Proof.
  intros I Hi Hcalls Hnew Hc' Hh Hlock Ht Hne Hnc Hnow HE1 HE2 Hok.
  assert (Hl : ∀ e, listed e r' ↔ listed e r) by (intros e; unfold listed; by rewrite Ht).
  apply (inv_intro r i c r' c' new); try done.
  - intros j cj _ Hj _ Hcj. destruct cj; cbn in *; rewrite ?Ht, ?Hnc, ?Hl; try done.
    + destruct Hcj as [? (x & Hx & Hidle)]. split; [done|]. destruct (HE2 _ _ Hx) as (x' & Hx' & _ & _ & Hid & _). eauto.
    + destruct Hcj as [? (x & Hx & Hidle)]. split; [done|]. destruct (HE2 _ _ Hx) as (x' & Hx' & _ & _ & Hid & _). eauto.
    + destruct Hcj as [? (x & Hx & Hidle)]. split; [done|]. destruct (HE2 _ _ Hx) as (x' & Hx' & _ & _ & Hid & _). eauto.
    + destruct Hcj as [x Hx]. destruct (HE2 _ _ Hx) as (x' & Hx' & _). by exists x'.
    + destruct Hcj as [x Hx]. destruct (HE2 _ _ Hx) as (x' & Hx' & _). by exists x'.
    + destruct Hcj as [x Hx]. destruct (HE2 _ _ Hx) as (x' & Hx' & _). by exists x'.
    + destruct Hcj as [? (x & Hx & Hidle)]. split; [done|]. destruct (HE2 _ _ Hx) as (x' & Hx' & _ & _ & Hid & _). eauto.
  - intros sid e. rewrite Ht, Hnc. intros He. destruct (inv_table _ I _ _ He) as [(x & Hx & Hsid & Hsd & Hatt) Hc].
    split; [| done]. destruct (HE2 _ _ Hx) as (x' & Hx' & Hs' & Hsd' & _ & Hatt').
    exists x'. split; [done|]. split; [congruence|]. split; [apply Hsd'; [by exists sid | done]|].
    intros Hid. rewrite <-Hsid. apply Hatt'; [by exists sid | done].
  - intros e x' Hx'. destruct (HE1 _ _ Hx') as (x & Hx & Hao & Hid). rewrite Hne, Hl.
    destruct (inv_entries _ I _ _ Hx) as (_ & Hlt & Hun). split; [done|]. split; [done|]. auto.
Qed.

(** Entries with the same attachment; only an unlisted one may have been shut down. *)
Definition same_attachments (r r' : Registry) : Prop :=
  ∀ e, match entries r !! e, entries r' !! e with
       | Some x, Some x' =>
           attachment x' = attachment x ∧ session_id x' = session_id x ∧
           (listed e r → shut_down x' = shut_down x)
       | None, None => True
       | _, _ => False
       end.

Lemma same_refl r r' : entries r' = entries r → same_attachments r r'.
Proof. intros H e. rewrite H. by destruct (entries r !! e). Qed.

Lemma same_put r r' e x x' :
  entries r !! e = Some x → entries r' = <[e := x']> (entries r) →
  attachment x' = attachment x → session_id x' = session_id x → (listed e r → shut_down x' = shut_down x) →
  same_attachments r r'.
Proof.
  intros Hx He Ha Hs Hd e0. rewrite He. destruct (decide (e0 = e)) as [-> | Hne].
  - by rewrite Hx, lookup_insert_eq.
  - rewrite lookup_insert_ne by done. by destruct (entries r !! e0).
Qed.

Lemma inv_same r i c r' c' new :
  Inv r → calls r !! i = Some c → calls r' = <[i := c']> (calls r) ++ new →
  (new = [] ∨ ∃ sid conn wake, new = [ExpireWait sid conn wake]) →
  (∀ resume conn, c' ≠ AttachWait resume conn) →
  holder r' = (if holds_table c' then Some i else if holds_table c then None else holder r) →
  (holds_table c' = true → holds_table c = true ∨ holder r = None) →
  table r' = table r → next_entry r' = next_entry r → next_conn r' = next_conn r → now r' = now r →
  same_attachments r r' →
  (∀ e x, entries r !! e = Some x → table r !! session_id x = Some e → idle x →
     attended (session_id x) e x r → attended (session_id x) e x r') →
  call_ok c' r' → Inv r'.
Proof.
  intros I Hi Hcalls Hnew Hc' Hh Hlock Ht Hne Hnc Hnow Hs Hatt Hok.
  eapply (inv_quiet r i c r' c' new); try done.
  - intros e x' Hx'. specialize (Hs e). rewrite Hx' in Hs. destruct (entries r !! e) as [x|] eqn:Hx; [|done].
    destruct Hs as (Ha & _ & _). exists x. split; [done|]. destruct (inv_entries _ I _ _ Hx) as (Hao & _).
    unfold attachment_ok, idle in *. by rewrite Ha.
  - intros e x Hx. specialize (Hs e). rewrite Hx in Hs. destruct (entries r' !! e) as [x'|] eqn:Hx'; [|done].
    destruct Hs as (Ha & Hsid & Hsd). exists x'. split; [done|]. split; [done|]. split; [intros Hl <-; auto|].
    unfold idle. rewrite Ha. split; [done|]. intros Hl Hid.
    destruct Hl as [sid Hl]. destruct (inv_table _ I _ _ Hl) as [(x0 & Hx0 & Hs0 & _ & Hat) _].
    assert (x0 = x) as -> by congruence. rewrite <-Hs0 in Hl.
    destruct (Hatt e x Hx Hl Hid) as (conn & deadline & H1 & H2 & Hw); [rewrite <-Hs0 in Hat; by apply Hat|].
    exists conn, deadline. by rewrite Ha.
Qed.

(** The common case: the call that moves watches over nothing. *)
Lemma inv_move r i c r' c' :
  Inv r → calls r !! i = Some c → calls r' = <[i := c']> (calls r) →
  (∀ resume conn, c' ≠ AttachWait resume conn) →
  holder r' = (if holds_table c' then Some i else if holds_table c then None else holder r) →
  (holds_table c' = true → holds_table c = true ∨ holder r = None) →
  table r' = table r → next_entry r' = next_entry r → next_conn r' = next_conn r → now r' = now r →
  same_attachments r r' →
  (∀ e conn, c ≠ DetachSender e conn) → (∀ sid conn wake, c ≠ ExpireWait sid conn wake) →
  call_ok c' r' → Inv r'.
Proof.
  intros I Hi Hcalls Hc' Hh Hlock Ht Hne Hnc Hnow Hs Hd He Hok.
  eapply (inv_same r i c r' c' []); try done; [by rewrite app_nil_r | by left |].
  intros e x Hx Hl Hid Hatt.
  eapply (attended_kept r r' i c c' []); [done | by rewrite app_nil_r | lia | | | done].
  - intros conn ->. by destruct (Hd e conn).
  - intros conn wake ->. by destruct (He (session_id x) conn wake).
Qed.

(** A session taken out of the table. *)
Lemma inv_unlist r i c r' c' sid e x :
  Inv r → calls r !! i = Some c → calls r' = <[i := c']> (calls r) →
  (∀ resume conn, c' ≠ AttachWait resume conn) → holds_table c' = false →
  holder r' = None → (holds_table c = true ∨ holder r = None) →
  table r !! sid = Some e → table r' = delete sid (table r) → entries r !! e = Some x → idle x →
  entries r' = entries r → next_entry r' = next_entry r → next_conn r' = next_conn r → now r' = now r →
  (∀ e' conn, c ≠ DetachSender e' conn) →
  (∀ sid' conn wake, c = ExpireWait sid' conn wake → sid' = sid) →
  (¬ listed e r' → call_ok c' r') → Inv r'.
Proof.
  intros I Hi Hcalls Hc' Hht Hh Hlock Hsid Ht Hx Hid He Hne Hnc Hnow Hd2 Hw Hok.
  assert (Hone : ∀ sid', table r !! sid' = Some e → sid' = sid).
  { intros sid' Hs'. destruct (inv_table _ I _ _ Hs') as [(x1 & Hx1 & <- & _) _].
    destruct (inv_table _ I _ _ Hsid) as [(x2 & Hx2 & <- & _) _]. congruence. }
  assert (Hl : ∀ e', listed e' r' ↔ listed e' r ∧ e' ≠ e).
  { intros e'. unfold listed. rewrite Ht. split.
    - intros [sid' Hs']. apply lookup_delete_Some in Hs' as [Hn Hs']. split; [by exists sid'|].
      intros ->. by apply Hone in Hs'.
    - intros [[sid' Hs'] Hn]. exists sid'. rewrite lookup_delete_ne; [done|]. intros <-. congruence. }
  apply (inv_intro r i c r' c' []); try done.
  - by rewrite app_nil_r.
  - by left.
  - rewrite Hht, Hh. destruct (holds_table c); [done|]. by destruct Hlock.
  - apply Hok. rewrite Hl. by intros [_ ?].
  - intros j cj Hj Hcj Hhold Hcok.
    assert (Hnh : holds_table cj = false).
    { destruct (holds_table cj) eqn:E; [| done]. destruct (Hhold eq_refl) as [H1 H2]. destruct Hlock; congruence. }
    destruct cj; cbn in *; rewrite ?Ht, ?Hnc, ?He, ?Hl; try done.
    + destruct Hcok as [? Hnone]. split; [done|]. apply lookup_delete_None. by right.
    + destruct Hcok as [Hnl Hx']. split; [| done]. by intros [? _].
    + destruct Hcok as [Hnl Hx']. split; [| done]. by intros [? _].
  - intros sid' e' Hs'. rewrite Ht in Hs'. apply lookup_delete_Some in Hs' as [Hn Hs'].
    destruct (inv_table _ I _ _ Hs') as [(x' & Hx' & Hsx & Hsd & Hatt) Hc]. rewrite He, Hnc.
    split; [| done]. exists x'. split; [done|]. split; [done|]. split; [done|]. intros Hidle.
    eapply (attended_kept r r' i c c' []); [done | by rewrite app_nil_r | lia | | | by apply Hatt].
    + intros conn ->. by destruct (Hd2 e' conn).
    + intros conn wake ->. by destruct Hn; symmetry; apply (Hw _ _ _ eq_refl).
  - intros e' x'. rewrite He, Hne, Hl. intros Hx'. destruct (inv_entries _ I _ _ Hx') as (Hao & Hlt & Hun).
    split; [done|]. split; [done|]. intros Hnl. destruct (decide (e' = e)) as [-> | Hn]; [congruence|].
    apply Hun. intros Hli. by apply Hnl.
Qed.

Lemma listed_entry r e : Inv r → listed e r → ∃ x, entries r !! e = Some x ∧ shut_down x = false ∧
  table r !! session_id x = Some e ∧ (idle x → attended (session_id x) e x r).
Proof.
  intros I [sid Hs]. destruct (inv_table _ I _ _ Hs) as [(x & Hx & <- & Hsd & Hatt) _]. eauto.
Qed.

Lemma inv_create r i conn resume :
  Inv r → calls r !! i = Some (AttachWait resume conn) → holder r = None →
  Inv (set_call i (Attached (next_entry r) conn) (create_session (next_entry r) conn r)).
Proof.
  intros I Hi Hfree. set (e := next_entry r).
  destruct (inv_calls _ I _ _ Hi) as [Hconn Hnone].
  assert (Hfresh : entries r !! e = None).
  { destruct (entries r !! e) as [x|] eqn:Hx; [| done]. destruct (inv_entries _ I _ _ Hx) as (_ & Hlt & _). unfold e in *. lia. }
  assert (Hnl : ¬ listed e r).
  { intros Hl. destruct (listed_entry _ _ I Hl) as (x & Hx & _). congruence. }
  assert (Hl : ∀ e', listed e' (set_call i (Attached e conn) (create_session e conn r)) ↔ listed e' r ∨ e' = e).
  { intros e'. unfold listed. cbn. split.
    - intros [sid Hs]. apply lookup_insert_Some in Hs as [[_ <-] | [_ Hs]]; [by right | left; by exists sid].
    - intros [[sid Hs] | ->]; [| exists (uuid conn); by rewrite lookup_insert_eq].
      exists sid. rewrite lookup_insert_ne; [done|]. intros <-. congruence. }
  eapply (inv_intro r i _ _ (Attached e conn) [] I Hi); cbn [calls set_call create_session holds_table holder].
  - by rewrite app_nil_r.
  - by left.
  - done.
  - done.
  - done.
  - cbn. rewrite lookup_insert_eq. by eexists.
  - intros j cj Hj Hcj Hhold Hcok.
    assert (Hnh : holds_table cj = false).
    { destruct (holds_table cj) eqn:E; [| done]. destruct (Hhold eq_refl) as [H1 _]. congruence. }
    assert (Hkeep : ∀ e', is_Some (entries r !! e') → entries (set_call i (Attached e conn) (create_session e conn r)) !! e' = entries r !! e').
    { intros e' [x' Hx']. cbn. rewrite lookup_insert_ne; [done|]. intros <-. congruence. }
    destruct cj; cbn [call_ok] in *; try done.
    + destruct Hcok as [Hlt Hn]. split; [done|]. cbn. rewrite lookup_insert_ne; [done|].
      intros Heq%(inj uuid). subst. by apply Hj, (inv_conns _ I _ _ _ _ _ Hcj Hi).
    + destruct Hcok as [Hn (x' & Hx' & Hid)]. rewrite Hl, Hkeep by by eexists.
      split; [| by exists x']. intros [? | ->]; [done | congruence].
    + rewrite Hkeep; done.
    + rewrite Hkeep; done.
    + rewrite Hkeep; done.
    + destruct Hcok as [Hn (x' & Hx' & Hid)]. rewrite Hl, Hkeep by by eexists.
      split; [| by exists x']. intros [? | ->]; [done | congruence].
  - intros sid e'. cbn. intros [[<- <-] | [Hne Hs]]%lookup_insert_Some.
    + rewrite lookup_insert_eq. split; [| by exists conn]. by eexists.
    + destruct (inv_table _ I _ _ Hs) as [(x & Hx & Hsid & Hsd & Hatt) Hc]. split; [| done].
      exists x. rewrite lookup_insert_ne by congruence. split; [done|]. split; [done|]. split; [done|]. intros Hid.
      eapply (attended_kept r _ i _ (Attached e conn) []); [done | by rewrite app_nil_r | done | done | done | by apply Hatt].
  - intros e' x'. cbn. rewrite Hl. intros [[<- <-] | [Hne Hx]]%lookup_insert_Some.
    + split; [done|]. split; [lia|]. intros Hn. by destruct Hn; right.
    + destruct (inv_entries _ I _ _ Hx) as (Hao & Hlt & Hun). split; [done|]. split; [unfold e; lia|].
      intros Hn. apply Hun. intros ?. by destruct Hn; left.
Qed.

Lemma inv_attach_set r i e conn x :
  Inv r → calls r !! i = Some (AttachSet e conn) → entries r !! e = Some x →
  Inv (release i (Attached e conn) (put_entry e (entry_attach conn x) r)).
Proof.
  intros I Hi Hx. destruct (inv_calls _ I _ _ Hi) as [Hl _].
  assert (Hh : holder r = Some i) by by apply (inv_holder _ I _ _ Hi).
  set (r' := release _ _ _). assert (Hls : ∀ e', listed e' r' ↔ listed e' r) by done.
  eapply (inv_intro r i _ r' (Attached e conn) [] I Hi); cbn [r' release set_call calls holds_table holder set_holder put_entry].
  - by rewrite app_nil_r.
  - by left.
  - done.
  - done.
  - done.
  - cbn. rewrite lookup_insert_eq. by eexists.
  - intros j cj Hj Hcj Hhold Hcok.
    assert (Hnh : holds_table cj = false).
    { destruct (holds_table cj) eqn:E; [| done]. destruct (Hhold eq_refl) as [_ H2]. done. }
    assert (Hkeep : ∀ e', e' ≠ e → entries r' !! e' = entries r !! e') by (intros e' Hne; cbn; by rewrite lookup_insert_ne).
    assert (Hsome : ∀ e', is_Some (entries r !! e') → is_Some (entries r' !! e')).
    { intros e' Hs. cbn. apply lookup_insert_is_Some'. by right. }
    destruct cj; cbn [call_ok] in *; try done; try (by apply Hsome).
    + destruct Hcok as [Hn Hx']. rewrite Hls. split; [done|]. rewrite Hkeep; [done|]. by intros ->.
    + destruct Hcok as [Hn Hx']. rewrite Hls. split; [done|]. rewrite Hkeep; [done|]. by intros ->.
  - intros sid e' Hs. destruct (inv_table _ I _ _ Hs) as [(x1 & Hx1 & Hsid & Hsd & Hatt) Hc]. split; [| done]. cbn.
    destruct (decide (e' = e)) as [-> | Hne].
    + rewrite lookup_insert_eq. assert (x1 = x) as -> by congruence. eexists. split; [done|]. split; [done|]. split; [done|].
      by intros ?.
    + rewrite lookup_insert_ne by done. exists x1. split; [done|]. split; [done|]. split; [done|]. intros Hid.
      eapply (attended_kept r r' i _ (Attached e conn) []); [done | by rewrite app_nil_r | done | done | done | by apply Hatt].
  - intros e' x'. rewrite Hls. cbn. intros [[<- <-] | [Hne Hx']]%lookup_insert_Some.
    + destruct (inv_entries _ I _ _ Hx) as (_ & Hlt & _). split; [done|]. split; [done|]. done.
    + apply (inv_entries _ I _ _ Hx').
Qed.

Lemma inv_detach r i e conn x x' :
  Inv r → calls r !! i = Some (DetachEntry e conn) → entries r !! e = Some x →
  entry_detach (now r) conn x = Some x' →
  Inv (set_call i (DetachSender e conn) (put_entry e x' r)).
Proof.
  intros I Hi Hx Hd. unfold entry_detach in Hd. destruct (is_attached_to conn x) eqn:Hat; [| done]. injection Hd as <-.
  set (x' := mkEntry _ _ _ _). set (r' := set_call _ _ _).
  assert (Hlen : i < length (calls r)) by by eapply lookup_lt_Some.
  eapply (inv_quiet r i _ r' (DetachSender e conn) [] I Hi); try done.
  - cbn. by rewrite app_nil_r.
  - by left.
  - intros e' x1. cbn. intros [[<- <-] | [Hne Hx']]%lookup_insert_Some.
    + exists x. split; [done|]. split; [by split; eexists | done].
    + exists x1. split; [done|]. split; [by apply (inv_entries _ I _ _ Hx') | done].
  - intros e' x1 Hx1. cbn. destruct (decide (e' = e)) as [-> | Hne].
    + assert (x1 = x) as -> by congruence. rewrite lookup_insert_eq. exists x'. split; [done|]. split; [done|].
      split; [done|]. split; [done|]. intros _ _. exists conn, (now r + DETACHED_SESSION_TTL)%N.
      split; [done|]. split; [done|]. left. split; [| cbn; lia]. apply list_elem_of_lookup. exists i.
      cbn. by rewrite list_lookup_insert_eq.
    + rewrite lookup_insert_ne by done. exists x1. split; [done|]. split; [done|]. split; [done|]. split; [done|].
      intros Hl Hid. destruct (listed_entry _ _ I Hl) as (x2 & Hx2 & _ & Ht & Hatt).
      assert (x2 = x1) as -> by congruence.
      eapply (attended_kept r r' i _ (DetachSender e conn) []); [done | by cbn; rewrite app_nil_r | done | done | done | by apply Hatt].
  - cbn. rewrite lookup_insert_eq. by eexists.
Qed.

Lemma inv_detach_sender r i e conn x :
  Inv r → calls r !! i = Some (DetachSender e conn) → entries r !! e = Some x →
  Inv (add_call (ExpireWait (session_id x) conn (now r + DETACHED_SESSION_TTL)%N)
         (set_call i Done (put_entry e (set_sender None x) r))).
Proof.
  intros I Hi Hx. set (r' := add_call _ _).
  set (new := [ExpireWait (session_id x) conn (now r + DETACHED_SESSION_TTL)%N]).
  eapply (inv_same r i _ r' Done new I Hi); try done.
  - right. by do 3 eexists.
  - by eapply same_put.
  - intros e' x' Hx' Hl Hid (conn' & deadline & H1 & H2 & Hw).
    destruct (decide (e' = e ∧ conn' = conn)) as [[-> ->] | Hne].
    + assert (x' = x) as -> by congruence. exists conn, deadline. split; [done|]. split; [done|]. right.
      destruct Hw as [[_ Hle] | (wake & Hle & Hw)].
      * exists (now r + DETACHED_SESSION_TTL)%N. split; [done|]. cbn. apply elem_of_app. right. by left.
      * exists wake. split; [done|]. cbn. apply elem_of_app. left.
        apply list_elem_of_lookup_1 in Hw as [j Hj]. apply list_elem_of_lookup. exists j.
        rewrite list_lookup_insert_ne; [done|]. intros <-. congruence.
    + eapply (attended_kept r r' i _ Done new); [done | done | done | | done | by exists conn', deadline].
      intros c [= <- <-]. intros Hd. apply Hne. split; [done|]. congruence.
Qed.

Lemma inv_run_call r i c r' : Inv r → calls r !! i = Some c → run_call i c r = Some r' → Inv r'.
Proof.
  intros I Hi H. pose proof (inv_calls _ I _ _ Hi) as Hok.
  pose proof (inv_holder _ I _ _ Hi) as Hh.
  destruct c as [resume conn | sid e conn | sid e conn | e conn | e conn | sid e | e conn | err
                | e conn | e conn | sid conn wake | e |]; cbn [run_call] in H; try done.
  - destruct (holder r) eqn:Hfree; [done|]. destruct resume as [sid|].
    + destruct (table r !! sid) as [e|] eqn:Ht; injection H as <-.
      * eapply (inv_move r i _ _ (AttachExpired sid e conn) I Hi); try done; [by right | by apply same_refl].
      * eapply (inv_move r i _ _ (AttachFailed (unknown_session sid)) I Hi); try done. by apply same_refl.
    + injection H as <-. by eapply inv_create.
  - cbn in Hok, Hh. assert (holder r = Some i) by by apply Hh.
    destruct (entries r !! e) as [x|] eqn:Hx; [| done]. cbn in H.
    destruct (inv_entries _ I _ _ Hx) as (Hao & _). destruct (is_expired (now r) x) eqn:Hexp; injection H as <-.
    + assert (Hid : idle x).
      { unfold is_expired, attachment_ok, idle in *. destruct (current_connection_id (attachment x)); [| done].
        destruct Hao as [_ Hao]. by rewrite Hao in Hexp. }
      eapply (inv_unlist r i _ _ (AttachShutdown sid e) sid e x I Hi); try done; [by left|].
      intros Hnl. split; [done|]. by exists x.
    + eapply (inv_move r i _ _ (AttachActive sid e conn) I Hi); try done; [by left | by apply same_refl].
  - cbn in Hok, Hh. destruct (entries r !! e) as [x|] eqn:Hx; [| done]. cbn in H.
    destruct (has_active_connection x) eqn:Hact; injection H as <-.
    + eapply (inv_move r i _ _ (AttachFailed (already_attached sid)) I Hi); try done. by apply same_refl.
    + eapply (inv_move r i _ _ (AttachSender e conn) I Hi); try done.
      * cbn. by apply Hh.
      * by left.
      * by apply same_refl.
      * split; [by exists sid|]. exists x. split; [done|]. unfold has_active_connection, idle in *.
        by destruct (current_connection_id (attachment x)).
  - cbn in Hok, Hh. destruct Hok as (Hl & x0 & Hx0 & Hid). rewrite Hx0 in H. cbn in H. injection H as <-.
    eapply (inv_move r i _ _ (AttachSet e conn) I Hi); try done.
    + cbn. by apply Hh.
    + by left.
    + by eapply same_put.
    + split; [done|]. exists (set_sender (Some conn) x0). cbn. by rewrite lookup_insert_eq.
  - destruct (entries r !! e) as [x|] eqn:Hx; [| done]. cbn in H. injection H as <-. by apply inv_attach_set.
  - cbn in Hok. destruct Hok as (Hnl & x & Hx & Hid). rewrite Hx in H. cbn in H. injection H as <-.
    eapply (inv_move r i _ _ (AttachFailed (unknown_session sid)) I Hi); try done. by eapply same_put.
  - destruct (entries r !! e) as [x|] eqn:Hx; [| done]. cbn in H.
    destruct (entry_detach (now r) conn x) as [x'|] eqn:Hd; injection H as <-.
    + by eapply inv_detach.
    + eapply (inv_move r i _ _ Done I Hi); try done. by apply same_refl.
  - destruct (entries r !! e) as [x|] eqn:Hx; [| done]. cbn in H. injection H as <-. by apply inv_detach_sender.
  - destruct (N.leb_spec wake (now r)) as [Hle |]; [| done]. destruct (holder r) eqn:Hfree; [done|].
    assert (Hdone : (∀ e x, entries r !! e = Some x → table r !! sid = Some e → idle x →
                       (∃ deadline, detached_expires_at (attachment x) = Some deadline ∧ (deadline <= now r)%N) →
                       detached_connection_id (attachment x) ≠ Some conn) → Inv (set_call i Done r)).
    { intros Hno. eapply (inv_same r i _ _ Done [] I Hi); try done; [cbn; by rewrite app_nil_r | by left | by apply same_refl |].
      intros e x Hx Hl Hid Hatt. pose proof Hatt as (conn' & deadline & H1 & H2 & Hw).
      destruct (decide (sid = session_id x ∧ conn' = conn)) as [[-> ->] | Hne].
      - exists conn, deadline. split; [done|]. split; [done|]. destruct Hw as [[Hw ?] | (wake' & Hle' & Hw)].
        + left. split; [| done]. apply list_elem_of_lookup_1 in Hw as [j Hj]. apply list_elem_of_lookup. exists j.
          cbn. rewrite list_lookup_insert_ne; [done|]. intros <-. congruence.
        + right. exists wake'. split; [done|]. apply list_elem_of_lookup_1 in Hw as [j Hj]. apply list_elem_of_lookup.
          exists j. cbn. rewrite list_lookup_insert_ne; [done|]. intros <-.
          assert (wake' = wake) as -> by congruence.
          apply (Hno e x Hx Hl Hid); [| done]. exists deadline. split; [done|]. lia.
      - eapply (attended_kept r _ i _ Done []); [done | by cbn; rewrite app_nil_r | done | done | | done].
        intros conn2 wake2 [= -> <- _]. intros Hd. apply Hne. split; [done|]. congruence. }
    destruct (table r !! sid) as [e|] eqn:Ht.
    2:{ injection H as <-. apply Hdone. intros; congruence. }
    destruct (inv_table _ I _ _ Ht) as [(x & Hx & Hsid & Hsd & Hatt) _]. rewrite Hx in H. cbn in H.
    destruct (is_detached_connection_expired conn (now r) x) eqn:Hexp; injection H as <-.
    + unfold is_detached_connection_expired in Hexp. apply andb_true_iff in Hexp as [[Hact _]%andb_true_iff _].
      assert (Hid : idle x).
      { unfold has_active_connection, idle in *. by destruct (current_connection_id (attachment x)). }
      eapply (inv_unlist r i _ _ (ExpireShutdown e) sid e x I Hi); try done.
      * by right.
      * congruence.
      * intros Hnl. split; [done|]. by exists x.
    + apply Hdone. intros e' x' Hx' He' Hid (deadline & Hdl & Hle') Hd. assert (e' = e) as -> by congruence.
      assert (x' = x) as -> by congruence. unfold is_detached_connection_expired, has_active_connection, is_expired in Hexp.
      rewrite Hid, Hd, Hdl in Hexp. cbn in Hexp. rewrite bool_decide_true in Hexp by done.
      by apply N.leb_le in Hle' as Hb; rewrite Hb in Hexp.
  - cbn in Hok. destruct Hok as (Hnl & x & Hx & Hid). rewrite Hx in H. cbn in H. injection H as <-.
    eapply (inv_move r i _ _ Done I Hi); try done. by eapply same_put.
Qed.

(** A call that arrives, or time that passes. *)
Lemma inv_arrive r r' new :
  Inv r → table r' = table r → entries r' = entries r → next_entry r' = next_entry r → holder r' = holder r →
  (next_conn r <= next_conn r')%N → (now r <= now r')%N → calls r' = calls r ++ new →
  (∀ c, c ∈ new → holds_table c = false ∧ call_ok c r') →
  (new = [] ∨ ∃ c, new = [c] ∧ ∀ resume conn, c = AttachWait resume conn → conn = next_conn r) →
  Inv r'.
Proof.
  intros I Ht He Hne Hh Hnc Hnow Hcalls Hnew Hone.
  assert (Hl : ∀ e, listed e r' ↔ listed e r) by (intros e; unfold listed; by rewrite Ht).
  assert (Hlk : ∀ j cj, calls r' !! j = Some cj → calls r !! j = Some cj ∨ length (calls r) ≤ j ∧ cj ∈ new).
  { intros j cj. rewrite Hcalls. intros [Hj | [Hge Hj]]%lookup_app_Some; [by left|]. right. split; [done|].
    by eapply list_elem_of_lookup_2. }
  split.
  - intros sid e. rewrite Ht, He. intros Hs. destruct (inv_table _ I _ _ Hs) as [(x & Hx & Hsid & Hsd & Hatt) (conn & Hc & Hu)].
    split; [| exists conn; split; [lia | done]]. exists x. split; [done|]. split; [done|]. split; [done|].
    intros Hid. destruct (Hatt Hid) as (cn & deadline & H1 & H2 & Hw). exists cn, deadline. split; [done|]. split; [done|].
    rewrite Hcalls. destruct Hw as [[Hw Hle] | (wake & Hle & Hw)].
    + left. split; [apply elem_of_app; by left | lia].
    + right. exists wake. split; [done|]. apply elem_of_app. by left.
  - intros e x. rewrite He, Hne, Hl. apply (inv_entries _ I).
  - intros j cj Hj. destruct (Hlk _ _ Hj) as [Hj' | [_ Hin]]; [| by apply Hnew].
    pose proof (inv_calls _ I _ _ Hj') as Hok. destruct cj; cbn in *; rewrite ?Ht, ?He, ?Hl; try done.
    destruct Hok. split; [lia | done].
  - intros j cj Hj. rewrite Hh. destruct (Hlk _ _ Hj) as [Hj' | [Hge Hin]]; [by apply (inv_holder _ I)|].
    destruct (Hnew _ Hin) as [-> _]. split; [done|]. intros [c' Hc']%(inv_holds _ I).
    apply lookup_lt_Some in Hc'. lia.
  - intros j. rewrite Hh, Hcalls. intros [c' Hc']%(inv_holds _ I). exists c'. by apply lookup_app_l_Some.
  - assert (Hfresh : ∀ j resume conn, calls r !! j = Some (AttachWait resume conn) → (conn < next_conn r)%N).
    { intros j resume conn Hj. apply (inv_calls _ I _ _ Hj). }
    intros j1 j2 resume resume' conn. rewrite Hcalls.
    intros [Hj1 | [Hge1 Hj1]]%lookup_app_Some [Hj2 | [Hge2 Hj2]]%lookup_app_Some.
    + by eapply (inv_conns _ I).
    + destruct Hone as [-> | (c & -> & Hc)]; [done|]. apply list_lookup_singleton_Some in Hj2 as [_ ->].
      rewrite (Hc _ _ eq_refl) in Hj1. apply Hfresh in Hj1. lia.
    + destruct Hone as [-> | (c & -> & Hc)]; [done|]. apply list_lookup_singleton_Some in Hj1 as [_ ->].
      rewrite (Hc _ _ eq_refl) in Hj2. apply Hfresh in Hj2. lia.
    + destruct Hone as [-> | (c & -> & Hc)]; [done|]. apply list_lookup_singleton_Some in Hj1 as [? _].
      apply list_lookup_singleton_Some in Hj2 as [? _]. lia.
Qed.

Lemma inv_registry_step r r' : Inv r → step r r' → Inv r'.
Proof.
  intros I (c & H). destruct c as [i | resume | e conn | i | ms]; cbn in H.
  - destruct (calls r !! i) as [c|] eqn:Hi; [| done]. by eapply inv_run_call.
  - injection H as <-. eapply (inv_arrive r _ [_] I); try done; cbn; [lia | |].
    + intros c ->%list_elem_of_singleton. split; [done|]. cbn. split; [lia|].
      destruct (table r !! uuid (next_conn r)) as [e|] eqn:Ht; [| done].
      destruct (inv_table _ I _ _ Ht) as [_ (conn & Hc & Hu%(inj uuid))]. subst. lia.
    + right. eexists. split; [done|]. by intros ? ? [= _ <-].
  - case_bool_decide as Hin; [| done]. injection H as <-. eapply (inv_arrive r _ [_] I); try done.
    + intros c ->%list_elem_of_singleton. split; [done|]. apply list_elem_of_lookup_1 in Hin as [j Hj].
      exact (inv_calls _ I _ _ Hj).
    + right. eexists. split; [done|]. done.
  - destruct (calls r !! i) as [c|] eqn:Hi; [| done]. cbn in H.
    destruct c; try done; injection H as <-; eapply (inv_move r i _ _ Done I Hi); try done; by apply same_refl.
  - injection H as <-. eapply (inv_arrive r _ [] I); try done; cbn; [lia | by rewrite app_nil_r | | by left].
    intros c Hin. by apply elem_of_nil in Hin.
Qed.

Lemma registry_inv r : rtc step fresh_registry r → Inv r.
Proof.
  apply (rtc_ind_r Inv).
  - split; cbn; try (intros *; by rewrite lookup_empty); try done.
  - intros r1 r2 _ H I. by eapply inv_registry_step.
Qed.

(** An attached session is in the table. *)
Lemma attached_listed r e x conn :
  Inv r → entries r !! e = Some x → is_attached_to conn x = true →
  table r !! session_id x = Some e ∧ shut_down x = false ∧ listed e r ∧ ¬ idle x.
Proof.
  intros I Hx Hat.
  assert (Hnid : ¬ idle x).
  { unfold is_attached_to, idle in *. apply bool_decide_eq_true in Hat. congruence. }
  assert (Hl : listed e r).
  { destruct (inv_entries _ I _ _ Hx) as (_ & _ & Hun). destruct (decide (Exists (λ se, se.2 = e) (map_to_list (table r)))) as [Hd | Hd].
    - apply Exists_exists in Hd as ([sid e'] & Hin & Heq). cbn in Heq. subst. exists sid. by apply elem_of_map_to_list.
    - exfalso. apply Hnid, Hun. intros [sid Hs]. apply Hd, Exists_exists. exists (sid, e). split; [by apply elem_of_map_to_list | done]. }
  destruct (listed_entry _ _ I Hl) as (x' & Hx' & Hsd & Ht & _). assert (x' = x) as -> by congruence.
  done.
Qed.

(** ** Theorems *)

(** Whatever the calls of the connections and the timers interleave to: the session of
    an attached connection is in the table and has not been shut down, nor will a
    clean-up in progress shut it down.  A timer of an earlier connection cannot take a
    session away from the connection that resumed it. *)
Theorem attached_session_lives r e x conn :
  rtc step fresh_registry r → entries r !! e = Some x → is_attached_to conn x = true →
  table r !! session_id x = Some e ∧ shut_down x = false ∧
  (∀ sid, AttachShutdown sid e ∉ calls r) ∧ ExpireShutdown e ∉ calls r.
Proof.
  intros Hr Hx Hat. pose proof (registry_inv _ Hr) as I.
  destruct (attached_listed _ _ _ _ I Hx Hat) as (Ht & Hsd & Hl & Hnid).
  split; [done|]. split; [done|]. split.
  - intros sid [j Hj]%list_elem_of_lookup_1. by destruct (inv_calls _ I _ _ Hj).
  - intros [j Hj]%list_elem_of_lookup_1. by destruct (inv_calls _ I _ _ Hj).
Qed.

(** No session is left behind: when every call has gone as far as it can and the timers
    are over, every session of the table has a connection. *)
Theorem detached_sessions_expire r :
  rtc step fresh_registry r →
  (∀ i, run_choice (RunCall i) r = None) →
  (∀ sid conn wake, ExpireWait sid conn wake ∈ calls r → (wake <= now r)%N) →
  ∀ sid e, table r !! sid = Some e →
  ∃ x conn, entries r !! e = Some x ∧ session_id x = sid ∧ is_attached_to conn x = true.
Proof.
  intros Hr Hstuck Htime sid e Hs. pose proof (registry_inv _ Hr) as I.
  assert (Hrun : ∀ i c, calls r !! i = Some c → run_call i c r = None).
  { intros i c Hi. specialize (Hstuck i). cbn in Hstuck. by rewrite Hi in Hstuck. }
  assert (Hent : ∀ e, listed e r → is_Some (entries r !! e)).
  { intros e' Hl. destruct (listed_entry _ _ I Hl) as (x & Hx & _). by exists x. }
  assert (Hfree : holder r = None).
  { destruct (holder r) as [i|] eqn:Hh; [| done]. destruct (inv_holds _ I _ Hh) as [c Hi].
    pose proof (proj2 (inv_holder _ I _ _ Hi) Hh) as Hc. pose proof (inv_calls _ I _ _ Hi) as Hok.
    specialize (Hrun _ _ Hi). destruct c; try done; cbn in Hok, Hrun.
    - destruct (Hent e0) as [x Hx]; [by eexists|]. rewrite Hx in Hrun. cbn in Hrun. by destruct (is_expired _ _).
    - destruct (Hent e0) as [x Hx]; [by eexists|]. rewrite Hx in Hrun. cbn in Hrun. by destruct (has_active_connection _).
    - destruct Hok as (_ & x & Hx & _). by rewrite Hx in Hrun.
    - destruct Hok as (_ & x & Hx & _). by rewrite Hx in Hrun. }
  destruct (inv_table _ I _ _ Hs) as [(x & Hx & Hsid & _ & Hatt) _].
  destruct (current_connection_id (attachment x)) as [conn|] eqn:Hc.
  { exists x, conn. split; [done|]. split; [done|]. unfold is_attached_to. by apply bool_decide_eq_true. }
  exfalso. destruct (Hatt Hc) as (conn & deadline & H1 & H2 & [[Hw _] | (wake & Hle & Hw)]).
  - apply list_elem_of_lookup_1 in Hw as [j Hj]. specialize (Hrun _ _ Hj). cbn in Hrun. by rewrite Hx in Hrun.
  - pose proof (Htime _ _ _ Hw) as Hwake. apply list_elem_of_lookup_1 in Hw as [j Hj]. specialize (Hrun _ _ Hj).
    cbn in Hrun. apply N.leb_le in Hwake. rewrite Hwake, Hfree, Hs, Hx in Hrun. cbn in Hrun.
    by destruct (is_detached_connection_expired _ _ _).
Qed.

End Registry.

(** ** Runs *)

Definition demo_uuid (n : N) : str := [n].
#[export] Instance demo_uuid_inj : Inj (=) (=) demo_uuid.
Proof. by intros ? ? [= ->]. Qed.

(** A connection creates a session and leaves; another resumes it before the timer of
    the first, which then finds nothing to do. *)
Definition resumed : Registry :=
  run_choices demo_uuid
    ([NewAttach None; RunCall 0; NewDetach 0 0; RunCall 1; RunCall 1; NewAttach (Some [0%N])]
     ++ replicate 5 (RunCall 3) ++ [Tick 10000; RunCall 2]) fresh_registry.

Definition resumed_entry : SessionEntry := mkEntry [0%N] (mkAttachment (Some 1%N) None None) (Some 1%N) false.

Lemma attached_session_lives_witness :
  entries resumed !! 0%N = Some resumed_entry ∧ table resumed !! [0%N] = Some 0%N.
Proof.
  assert (Hx : entries resumed !! 0%N = Some resumed_entry) by (vm_compute; reflexivity).
  split; [exact Hx|].
  apply (attached_session_lives demo_uuid resumed 0 resumed_entry 1); [apply run_choices_reachable | exact Hx | reflexivity].
Defined.

Lemma detached_sessions_expire_witness :
  ∃ x conn, entries resumed !! 0%N = Some x ∧ session_id x = [0%N] ∧ is_attached_to conn x = true.
Proof.
  apply (detached_sessions_expire demo_uuid resumed); [apply run_choices_reachable | | | vm_compute; reflexivity].
  - intros i. do 4 (destruct i as [| i]; [vm_compute; reflexivity|]). reflexivity.
  - intros sid conn wake. assert (Hc : calls resumed = [Attached 0 0; Done; Done; Attached 0 1]) by (vm_compute; reflexivity).
    rewrite Hc, !elem_of_cons, elem_of_nil. intros [E | [E | [E | [E | []]]]]; discriminate E.
Defined.

(** [detach] clears the sender after it has released the attachment: a connection that
    resumes the session in between stays attached without one, and its client is sent
    no output, no exit and no closing of its processes. *)
Example detach_clears_resumed_sender :
  let r := run_choices demo_uuid
    ([NewAttach None; RunCall 0; NewDetach 0 0; RunCall 1; NewAttach (Some [0%N])]
     ++ replicate 5 (RunCall 2) ++ [RunCall 1]) fresh_registry in
  calls r !! 2 = Some (Attached 0 1) ∧
  entries r !! 0%N = Some (mkEntry [0%N] (mkAttachment (Some 1%N) None None) None false).
Proof. vm_compute. split; reflexivity. Qed.
