(* ===== verification/RpcCalls.v ===== *)
(** * Calls over a JSON-RPC connection

    [RpcClient] of [exec-server/src/rpc.rs] with the part of
    [exec-server/src/connection.rs] that reports the end of the transport.  Calls are
    made concurrently; one reader task takes the events of the transport off a queue,
    resolves the pending calls and, at the end of the connection, fails the rest.

    An [Rpc] is the shared state with the calls, the reader and the transport at the
    points where they wait for the lock of the pending calls or a channel, and a
    [choice] lets one of them go on or lets the environment act.  A caller may drop its
    call at such a point.  JSON values are a parameter. *)

From S2P Require Import Prelude RustStr LocalProcess.

Inductive RequestId := IdString (s : str) | IdInteger (n : Z).

#[export] Instance RequestId_eq_dec : EqDecision RequestId.
Proof. solve_decision. Defined.
#[export] Instance RequestId_countable : Countable RequestId.
Proof.
  refine (inj_countable' (λ i, match i with IdString s => inl s | IdInteger n => inr n end)
            (λ x, match x with inl s => IdString s | inr n => IdInteger n end) _).
  by intros [].
Defined.

(** [AtomicI64::fetch_add] wraps around. *)
Definition i64_wrap (n : Z) : Z := ((n + 2 ^ 63) mod 2 ^ 64 - 2 ^ 63)%Z.

Section Client.
(** [decode] is [serde_json::from_value] at the result type of a call. *)
Context {Value T : Type} (decode : Value → result str T).

Inductive JSONRPCMessage :=
| MsgRequest (id : RequestId) (method : str) (params : option Value)
| MsgNotification (method : str) (params : option Value)
| MsgResponse (id : RequestId) (result : Value)
| MsgError (id : RequestId) (error : JSONRPCErrorError).

Inductive JsonRpcConnectionEvent :=
| EvMessage (message : JSONRPCMessage)
| EvMalformed (reason : str)
| EvDisconnected (reason : option str).

Inductive RpcClientEvent :=
| ClientNotification (method : str) (params : option Value)
| ClientDisconnected (reason : option str).

Inductive RpcCallError :=
| CallClosed
| CallJson (error : str)
| CallServer (error : JSONRPCErrorError).

(** Where the reader task is: at its loop, in [handle_server_message] with a message, at
    the event it sends when the loop is over, at [drain_pending], at the termination of
    the transport. *)
Inductive Reader :=
| ReaderLoop
| ReaderHandle (message : JSONRPCMessage)
| ReaderReport (reason : option str)
| ReaderDrain
| ReaderTerminate
| ReaderDone.

(** Where a call is.  [Failed] has returned before its request was sent, [Answered]
    after; [Abandoned] was dropped. *)
Inductive CallStage :=
| CallRegister (id : RequestId)
| CallSend (id : RequestId) (params : Value)
| CallRemove (id : RequestId) (error : RpcCallError)
| CallWait (id : RequestId)
| Failed (error : RpcCallError)
| Answered (id : RequestId) (answer : result RpcCallError T)
| Abandoned.

(** [serialized] is what becomes of the parameters, [writable] whether the outgoing
    channel takes the request. *)
Record Call := mkCall {
  method : str;
  serialized : result str Value;
  writable : bool;
  stage : CallStage;
}.

Definition set_stage (g : CallStage) (c : Call) : Call := mkCall (method c) (serialized c) (writable c) g.

(** [pending] maps an id to the call that holds the other end of its channel, [answers]
    is what these channels have carried, [tails] the calls of [send_disconnected] between
    the flag and the event.  [handled] is a history variable. *)
Record Rpc := mkRpc {
  pending : gmap RequestId nat;
  answers : gmap nat (result RpcCallError Value);
  next_request_id : Z;
  disconnected : bool;
  incoming : list JsonRpcConnectionEvent;
  senders_open : bool;
  tails : list (option str);
  reader : Reader;
  calls : list Call;
  written : list JSONRPCMessage;
  events : list RpcClientEvent;
  terminated : bool;
  handled : list JsonRpcConnectionEvent;
}.

Definition rpc_new : Rpc := mkRpc ∅ ∅ 1 false [] true [] ReaderLoop [] [] [] false [].

(** ** The reader *)

(** The other end of a pending call gets its answer. *)
Definition resolve (id : RequestId) (r : result RpcCallError Value) (s : Rpc) : Rpc :=
  match pending s !! id with
  | Some i =>
      mkRpc (delete id (pending s)) (<[i := r]> (answers s)) (next_request_id s) (disconnected s) (incoming s)
        (senders_open s) (tails s) (reader s) (calls s) (written s) (events s) (terminated s) (handled s)
  | None => s
  end.

Definition emit (e : RpcClientEvent) (s : Rpc) : Rpc :=
  mkRpc (pending s) (answers s) (next_request_id s) (disconnected s) (incoming s) (senders_open s) (tails s)
    (reader s) (calls s) (written s) (events s ++ [e]) (terminated s) (handled s).

(** A request of the server is refused before, in the loop. *)
Definition handle_server_message (m : JSONRPCMessage) (s : Rpc) : Rpc :=
  match m with
  | MsgResponse id result => resolve id (Ok result) s
  | MsgError id error => resolve id (Err (CallServer error)) s
  | MsgNotification method params => emit (ClientNotification method params) s
  | MsgRequest _ _ _ => s
  end.

(** Every pending call is answered; the map is left empty. *)
Definition drain_pending (s : Rpc) : Rpc :=
  mkRpc ∅ (map_fold (λ _ i m, <[i := Err CallClosed]> m) (answers s) (pending s)) (next_request_id s)
    (disconnected s) (incoming s) (senders_open s) (tails s) (reader s) (calls s) (written s) (events s)
    (terminated s) (handled s).

Definition set_reader (r : Reader) (s : Rpc) : Rpc :=
  mkRpc (pending s) (answers s) (next_request_id s) (disconnected s) (incoming s) (senders_open s) (tails s) r
    (calls s) (written s) (events s) (terminated s) (handled s).
Definition set_incoming (q : list JsonRpcConnectionEvent) (s : Rpc) : Rpc :=
  mkRpc (pending s) (answers s) (next_request_id s) (disconnected s) q (senders_open s) (tails s) (reader s)
    (calls s) (written s) (events s) (terminated s) (handled s).
Definition note_handled (e : JsonRpcConnectionEvent) (s : Rpc) : Rpc :=
  mkRpc (pending s) (answers s) (next_request_id s) (disconnected s) (incoming s) (senders_open s) (tails s)
    (reader s) (calls s) (written s) (events s) (terminated s) (handled s ++ [e]).
Definition terminate (s : Rpc) : Rpc :=
  mkRpc (pending s) (answers s) (next_request_id s) (disconnected s) (incoming s) (senders_open s) (tails s)
    (reader s) (calls s) (written s) (events s) true (handled s).

Definition run_reader (s : Rpc) : option Rpc :=
  match reader s with
  | ReaderLoop =>
      match incoming s with
      | [] => if senders_open s then None else Some (set_reader (ReaderReport None) s)
      | e :: q =>
          let s := set_incoming q s in
          match e with
          | EvMessage (MsgRequest _ _ _) | EvMalformed _ =>
              Some (set_reader (ReaderReport None) (note_handled e s))
          | EvMessage m => Some (set_reader (ReaderHandle m) s)
          | EvDisconnected reason => Some (set_reader (ReaderReport reason) (note_handled e s))
          end
      end
  | ReaderHandle m =>
      Some (set_reader ReaderLoop (note_handled (EvMessage m) (handle_server_message m s)))
  | ReaderReport reason => Some (set_reader ReaderDrain (emit (ClientDisconnected reason) s))
  | ReaderDrain => Some (set_reader ReaderTerminate (drain_pending s))
  | ReaderTerminate => Some (set_reader ReaderDone (terminate s))
  | ReaderDone => None
  end.

(** ** A call *)

Definition set_call (i : nat) (c : Call) (s : Rpc) : Rpc :=
  mkRpc (pending s) (answers s) (next_request_id s) (disconnected s) (incoming s) (senders_open s) (tails s)
    (reader s) (<[i := c]> (calls s)) (written s) (events s) (terminated s) (handled s).
Definition set_pending (p : gmap RequestId nat) (s : Rpc) : Rpc :=
  mkRpc p (answers s) (next_request_id s) (disconnected s) (incoming s) (senders_open s) (tails s)
    (reader s) (calls s) (written s) (events s) (terminated s) (handled s).
Definition write (m : JSONRPCMessage) (s : Rpc) : Rpc :=
  mkRpc (pending s) (answers s) (next_request_id s) (disconnected s) (incoming s) (senders_open s) (tails s)
    (reader s) (calls s) (written s ++ [m]) (events s) (terminated s) (handled s).

(** [RpcClient::call] up to the lock. *)
Definition new_call (method : str) (serialized : result str Value) (writable : bool) (s : Rpc) : Rpc :=
  mkRpc (pending s) (answers s) (i64_wrap (next_request_id s + 1)) (disconnected s) (incoming s)
    (senders_open s) (tails s) (reader s)
    (calls s ++ [mkCall method serialized writable (CallRegister (IdInteger (next_request_id s)))])
    (written s) (events s) (terminated s) (handled s).

Definition decode_answer (a : result RpcCallError Value) : result RpcCallError T :=
  match a with Ok v => map_err CallJson (decode v) | Err e => Err e end.

(** The next step of call [i]; [None] while it waits for its answer. *)
Definition run_call (i : nat) (c : Call) (s : Rpc) : option Rpc :=
  match stage c with
  | CallRegister id =>
      if disconnected s then Some (set_call i (set_stage (Failed CallClosed) c) s)
      else
        let s := set_pending (<[id := i]> (pending s)) s in
        match serialized c with
        | Ok params => Some (set_call i (set_stage (CallSend id params) c) s)
        | Err err => Some (set_call i (set_stage (CallRemove id (CallJson err)) c) s)
        end
  | CallSend id params =>
      if writable c
      then Some (set_call i (set_stage (CallWait id) c) (write (MsgRequest id (method c) (Some params)) s))
      else Some (set_call i (set_stage (CallRemove id CallClosed) c) s)
  | CallRemove id err =>
      Some (set_call i (set_stage (Failed err) c) (set_pending (delete id (pending s)) s))
  | CallWait id =>
      a ← answers s !! i; Some (set_call i (set_stage (Answered id (decode_answer a)) c) s)
  | Failed _ | Answered _ _ | Abandoned => None
  end.

(** ** The transport *)

(** [incoming_tx.send]: an error once the reader is gone. *)
Definition enqueue (e : JsonRpcConnectionEvent) (s : Rpc) : Rpc :=
  match reader s with ReaderDone => s | _ => set_incoming (incoming s ++ [e]) s end.

Definition set_tails (t : list (option str)) (s : Rpc) : Rpc :=
  mkRpc (pending s) (answers s) (next_request_id s) (disconnected s) (incoming s) (senders_open s) t
    (reader s) (calls s) (written s) (events s) (terminated s) (handled s).

(** [send_disconnected], first the flag, then the event. *)
Definition flag_disconnected (reason : option str) (s : Rpc) : Rpc :=
  mkRpc (pending s) (answers s) (next_request_id s) true (incoming s) (senders_open s) (tails s ++ [reason])
    (reader s) (calls s) (written s) (events s) (terminated s) (handled s).

Definition close_senders (s : Rpc) : Rpc :=
  mkRpc (pending s) (answers s) (next_request_id s) (disconnected s) (incoming s) false (tails s)
    (reader s) (calls s) (written s) (events s) (terminated s) (handled s).

(** [RunCall], [RunReader] and [RunTail] are the program, the others its environment. *)
Inductive choice :=
| RunCall (i : nat)
| RunReader
| RunTail (i : nat)
| NewCall (method : str) (serialized : result str Value) (writable : bool)
| DropCall (i : nat)
| Arrives (e : JsonRpcConnectionEvent)
| TransportEnds (reason : option str)
| SendersEnd.

Definition run_choice (c : choice) (s : Rpc) : option Rpc :=
  match c with
  | RunCall i => c ← calls s !! i; run_call i c s
  | RunReader => run_reader s
  | RunTail i => reason ← tails s !! i; Some (enqueue (EvDisconnected reason) (set_tails (delete i (tails s)) s))
  | NewCall method serialized writable => Some (new_call method serialized writable s)
  | DropCall i =>
      c ← calls s !! i;
      match stage c with
      | Failed _ | Answered _ _ | Abandoned => None
      | _ => Some (set_call i (set_stage Abandoned c) s)
      end
  | Arrives e =>
      match e with EvDisconnected _ => None | _ => if senders_open s then Some (enqueue e s) else None end
  | TransportEnds reason => if senders_open s then Some (flag_disconnected reason s) else None
  | SendersEnd => if is_empty (tails s) then Some (close_senders s) else None
  end.

Definition internal (c : choice) : bool :=
  match c with RunCall _ | RunReader | RunTail _ => true | _ => false end.

Definition step (s s' : Rpc) : Prop := ∃ c, run_choice c s = Some s'.
Definition internal_step (s s' : Rpc) : Prop := ∃ c, internal c = true ∧ run_choice c s = Some s'.

(** ** What a call should return *)

Definition event_reply (id : RequestId) (e : JsonRpcConnectionEvent) : option (result RpcCallError Value) :=
  match e with
  | EvMessage (MsgResponse id' result) => if decide (id' = id) then Some (Ok result) else None
  | EvMessage (MsgError id' error) => if decide (id' = id) then Some (Err (CallServer error)) else None
  | _ => None
  end.

(** The first reply to a request. *)
Definition reply (id : RequestId) (es : list JsonRpcConnectionEvent) : option (result RpcCallError Value) :=
  head (omap (event_reply id) es).

Definition is_disconnect (e : JsonRpcConnectionEvent) : bool :=
  match e with EvDisconnected _ => true | _ => false end.

Fixpoint before_disconnect (es : list JsonRpcConnectionEvent) : list JsonRpcConnectionEvent :=
  match es with [] => [] | e :: es => if is_disconnect e then [] else e :: before_disconnect es end.

(** The events the transport put on the queue, in their order. *)
Definition inflight (s : Rpc) : list JsonRpcConnectionEvent :=
  match reader s with ReaderHandle m => [EvMessage m] | _ => [] end.
Definition received (s : Rpc) : list JsonRpcConnectionEvent := handled s ++ inflight s ++ incoming s.

(** The reply that came before the end of the connection, else that it is closed. *)
Definition verdict (id : RequestId) (es : list JsonRpcConnectionEvent) : result RpcCallError T :=
  decode_answer (default (Err CallClosed) (reply id (before_disconnect es))).

Definition requested (id : RequestId) (s : Rpc) : Prop :=
  ∃ method params, MsgRequest id method params ∈ written s.

(** A server that keeps to the protocol: it sends no malformed message and no request,
    and replies to requests it was sent.  The counter of ids does not overflow, and the
    tasks of the transport end after they have reported the end. *)
Definition orderly (s : Rpc) (c : choice) : Prop :=
  match c with
  | NewCall _ _ _ => (next_request_id s < 2 ^ 63 - 1)%Z
  | Arrives (EvMalformed _) | Arrives (EvMessage (MsgRequest _ _ _)) => False
  | Arrives (EvMessage (MsgResponse id _)) | Arrives (EvMessage (MsgError id _)) => requested id s
  | SendersEnd => disconnected s = true
  | _ => True
  end.

Definition orderly_step (s s' : Rpc) : Prop := ∃ c, orderly s c ∧ run_choice c s = Some s'.

(** ** Invariants *)

Definition call_id (i : nat) : RequestId := IdInteger (Z.of_nat i + 1).

Definition stopped (r : Reader) : bool := match r with ReaderLoop | ReaderHandle _ => false | _ => true end.
Definition drained (r : Reader) : bool := match r with ReaderTerminate | ReaderDone => true | _ => false end.

Definition harmless (e : JsonRpcConnectionEvent) : Prop :=
  match e with EvMalformed _ | EvMessage (MsgRequest _ _ _) => False | _ => True end.

Record Transport (s : Rpc) : Prop := {
  flag_iff : disconnected s = true ↔ tails s ≠ [] ∨ any is_disconnect (incoming s) = true ∨ stopped (reader s) = true;
  senders_gone : senders_open s = false → disconnected s = true ∧ tails s = [];
  queue_harmless : Forall harmless (incoming s);
  inflight_harmless : Forall harmless (inflight s) ∧ any is_disconnect (inflight s) = false;
  handled_to_end : if stopped (reader s)
    then ∃ pre reason, handled s = pre ++ [EvDisconnected reason] ∧ any is_disconnect pre = false
    else any is_disconnect (handled s) = false;
}.

(** What the channel of a registered call has carried. *)
Definition carried (id : RequestId) (s : Rpc) : option (result RpcCallError Value) :=
  match reply id (handled s) with
  | Some r => Some r
  | None => if drained (reader s) then Some (Err CallClosed) else None
  end.

Definition consistent (i : nat) (s : Rpc) : Prop :=
  answers s !! i = carried (call_id i) s ∧
  pending s !! call_id i = match carried (call_id i) s with None => Some i | Some _ => None end.

Definition call_inv (i : nat) (c : Call) (s : Rpc) : Prop :=
  match stage c with
  | CallRegister id =>
      id = call_id i ∧ answers s !! i = None ∧ pending s !! call_id i = None ∧ ¬ requested (call_id i) s
  | CallSend id _ | CallRemove id _ => id = call_id i ∧ consistent i s ∧ ¬ requested (call_id i) s
  | CallWait id => id = call_id i ∧ consistent i s
  | Answered id r => id = call_id i ∧ consistent i s ∧ decode_answer <$> answers s !! i = Some r
  | Failed _ | Abandoned => True
  end.

Record Inv (s : Rpc) : Prop := {
  inv_transport : Transport s;
  inv_next : next_request_id s = (Z.of_nat (length (calls s)) + 1)%Z ∧ (next_request_id s < 2 ^ 63)%Z;
  inv_pending id i : pending s !! id = Some i → id = call_id i ∧ i < length (calls s);
  inv_answers i : length (calls s) ≤ i → answers s !! i = None;
  inv_requested i : length (calls s) ≤ i → ¬ requested (call_id i) s;
  inv_replies id : is_Some (reply id (received s)) → requested id s;
  inv_drained : drained (reader s) = true → pending s = ∅;
  inv_calls i c : calls s !! i = Some c → call_inv i c s;
}.

(** *** Replies *)

Lemma call_id_inj i j : call_id i = call_id j → i = j.
Proof. unfold call_id. intros [= H]. lia. Qed.

Lemma reply_app id es es' :
  reply id (es ++ es') = match reply id es with Some r => Some r | None => reply id es' end.
Proof. unfold reply. rewrite omap_app. by destruct (omap (event_reply id) es). Qed.

Lemma reply_snoc_other id es e : event_reply id e = None → reply id (es ++ [e]) = reply id es.
Proof. intros H. rewrite reply_app. unfold reply at 2. cbn. rewrite H. by destruct (reply id es). Qed.

Lemma reply_snoc_same id es e r :
  event_reply id e = Some r → reply id (es ++ [e]) = Some (default r (reply id es)).
Proof. intros H. rewrite reply_app. unfold reply at 2. cbn. rewrite H. by destruct (reply id es). Qed.

Lemma reply_one id e es : is_Some (event_reply id e) → e ∈ es → is_Some (reply id es).
Proof.
  intros [r Hr] He. unfold reply. destruct (omap (event_reply id) es) eqn:E; [| by eexists].
  exfalso. assert (Hin : r ∈ omap (event_reply id) es) by (apply list_elem_of_omap; by exists e).
  rewrite E in Hin. by apply elem_of_nil in Hin.
Qed.

Lemma before_disconnect_app pre reason rest :
  any is_disconnect pre = false → before_disconnect (pre ++ EvDisconnected reason :: rest) = pre.
Proof.
  induction pre as [| e pre IH]; cbn; [done|]. intros [He Hp]%orb_false_iff. rewrite He. f_equal. by apply IH.
Qed.

(** *** The transport *)

Lemma transport_same s s' :
  disconnected s' = disconnected s → tails s' = tails s → incoming s' = incoming s → reader s' = reader s →
  senders_open s' = senders_open s → handled s' = handled s → Transport s → Transport s'.
Proof.
  intros H1 H2 H3 H4 H5 H6 [Ha Hb Hc Hd He]. split; unfold inflight in *; rewrite ?H1, ?H2, ?H3, ?H4, ?H5, ?H6; done.
Qed.

Lemma any_snoc {A} (p : A → bool) l x : any p (l ++ [x]) = any p l || p x.
Proof. rewrite any_app. cbn. by rewrite orb_false_r. Qed.

Lemma transport_enqueue e s :
  harmless e → (is_disconnect e = true → disconnected s = true) → Transport s → Transport (enqueue e s).
Proof.
  intros He Hd [Ha Hb Hc Hf Hg]. unfold enqueue.
  assert (Hq : Forall harmless (incoming s ++ [e])) by (apply Forall_app_2; [done | by constructor]).
  destruct (reader s) eqn:Er; try (split; cbn; unfold inflight in *; cbn in *; rewrite ?Er in *; try done;
    rewrite any_snoc, orb_true_iff; rewrite Ha in *; split; [naive_solver|]; intros [? | [[? | ?] | ?]]; naive_solver).
  split; unfold inflight in *; rewrite ?Er in *; done.
Qed.

Lemma transport_reader s s' : Transport s → run_reader s = Some s' → Transport s'.
Proof.
  intros [Ha Hb Hc [Hd Hd'] He]. unfold run_reader. destruct (reader s) as [| m | reason | | |] eqn:Er; cbn [stopped] in *.
  - destruct (incoming s) as [| e q] eqn:Ei.
    + destruct (senders_open s); [done|]. destruct (Hb eq_refl) as [H1 H2].
      exfalso. apply Ha in H1. rewrite H2 in H1. cbn in H1. naive_solver.
    + apply Forall_cons in Hc as [He1 Hc].
      assert (Hkeep : is_disconnect e = false → disconnected s = true ↔ tails s ≠ [] ∨ any is_disconnect q = true ∨ false = true).
      { intros Hne. rewrite Ha. cbn. rewrite Hne. done. }
      destruct e as [[] | |]; cbn in He1; try done; intros [= <-]; split; unfold inflight; cbn; try done;
        try (split; [by repeat constructor | done]); try (by apply Hkeep).
      * split; [by right; right|]. intros _. apply Ha. right. by left.
      * by exists (handled s), reason.
  - intros [= <-]. assert (Hh : is_disconnect (EvMessage m) = false) by done.
    assert (Hkey : Transport (set_reader ReaderLoop (note_handled (EvMessage m) s))).
    { split; unfold inflight; cbn; try done. by rewrite any_snoc, He. }
    revert Hkey. destruct m as [| | id v | id e]; cbn [handle_server_message]; [done | by apply transport_same | |];
      unfold resolve; destruct (pending s !! id); [by apply transport_same | done | by apply transport_same | done].
  - intros [= <-]. split; unfold inflight; cbn; done.
  - intros [= <-]. split; unfold inflight; cbn; done.
  - intros [= <-]. split; unfold inflight; cbn; done.
  - done.
Qed.

Lemma transport_step c s s' : Transport s → orderly s c → run_choice c s = Some s' → Transport s'.
Proof.
  intros H Ho. destruct c as [i | | i | | i | e | reason |]; cbn [run_choice].
  - destruct (calls s !! i) as [c|]; [cbn | done]. unfold run_call.
    destruct (stage c); repeat case_match; try destruct (answers s !! i); try done; intros [= <-]; by apply (transport_same s).
  - by apply transport_reader.
  - destruct (tails s !! i) as [reason|] eqn:Et; [cbn | done]. intros [= <-].
    assert (Hd : disconnected s = true).
    { apply (flag_iff _ H). left. intros E. by rewrite E in Et. }
    assert (Hs : senders_open s = true).
    { destruct (senders_open s) eqn:Es; [done|]. destruct (senders_gone _ H Es) as [_ E]. by rewrite E in Et. }
    unfold enqueue. cbn. destruct H as [Ha Hb Hc Hf Hg].
    assert (Hq : Forall harmless (incoming s ++ [EvDisconnected reason])) by (apply Forall_app_2; [done | by constructor]).
    destruct (reader s) eqn:Er; split; unfold inflight in *; cbn in *; rewrite ?Er in *; try done;
      try (by rewrite Hs); rewrite Hd; split; try done; intros _; auto; right; left; by rewrite any_snoc, orb_true_r.
  - intros [= <-]. by apply (transport_same s).
  - destruct (calls s !! i) as [c|]; [cbn | done]. destruct (stage c); try done; intros [= <-]; by apply (transport_same s).
  - destruct e as [m | |]; try done. destruct (senders_open s); [| done]. intros [= <-].
    apply transport_enqueue; [by destruct m | done | done].
  - destruct (senders_open s) eqn:Es; [| done]. intros [= <-]. destruct H as [Ha Hb Hc Hf Hg]. split; cbn; try done.
    + split; [| done]. intros _. left. by destruct (tails s).
    + by rewrite Es.
  - destruct (is_empty (tails s)) eqn:Et; [| done]. intros [= <-]. destruct H as [Ha Hb Hc Hf Hg]. split; cbn; try done.
    intros _. split; [done|]. by destruct (tails s).
Qed.

(** *** The calls *)

Lemma consistent_ext i s s' :
  answers s' !! i = answers s !! i → pending s' !! call_id i = pending s !! call_id i →
  reply (call_id i) (handled s') = reply (call_id i) (handled s) → drained (reader s') = drained (reader s) →
  consistent i s → consistent i s'.
Proof. intros H1 H2 H3 H4. unfold consistent, carried. by rewrite H1, H2, H3, H4. Qed.

Lemma call_inv_ext i c s s' :
  answers s' !! i = answers s !! i → pending s' !! call_id i = pending s !! call_id i →
  reply (call_id i) (handled s') = reply (call_id i) (handled s) → drained (reader s') = drained (reader s) →
  (requested (call_id i) s' → requested (call_id i) s) → call_inv i c s → call_inv i c s'.
Proof.
  intros H1 H2 H3 H4 H5. unfold call_inv. pose proof (consistent_ext i s s' H1 H2 H3 H4) as Hc.
  destruct (stage c); rewrite ?H1, ?H2; naive_solver.
Qed.

(** A step of call [i], which changes its own entry and request only. *)
Lemma calls_inv_moved s s' i c' :
  Inv s → i < length (calls s) → calls s' = <[i := c']> (calls s) → next_request_id s' = next_request_id s →
  answers s' = answers s → reader s' = reader s → handled s' = handled s → received s' = received s → Transport s' →
  (∀ id, id ≠ call_id i → pending s' !! id = pending s !! id) →
  (pending s' !! call_id i = None ∨ pending s' !! call_id i = Some i ∧ drained (reader s) = false) →
  (∀ id, requested id s' → requested id s ∨ id = call_id i) → (∀ id, requested id s → requested id s') →
  call_inv i c' s' → Inv s'.
Proof.
  intros I Hi Hc Hn Ha Hr Hh Hrec Ht Hp Hpi Hreq Hreq' Hci.
  assert (Hlen : length (calls s') = length (calls s)) by (by rewrite Hc, length_insert).
  split; rewrite ?Hlen, ?Ha, ?Hn, ?Hr; try apply I; try done.
  - intros id j Hj. destruct (decide (id = call_id i)) as [-> | Hne].
    + destruct Hpi as [E | [E _]]; rewrite E in Hj; [done|]. by injection Hj as <-.
    + rewrite Hp in Hj by done. by apply I.
  - intros j Hj Hq. destruct (Hreq _ Hq) as [Hq' | E]; [by apply (inv_requested _ I j)|].
    apply call_id_inj in E. lia.
  - intros id. rewrite Hrec. intros Hs. by apply Hreq', (inv_replies _ I).
  - intros Hd. apply map_empty. intros id. destruct (decide (id = call_id i)) as [-> | Hne].
    + destruct Hpi as [E | [_ E]]; [done | congruence].
    + rewrite Hp by done. by rewrite (inv_drained _ I Hd), lookup_empty.
  - intros j cj Hj. rewrite Hc in Hj. destruct (decide (j = i)) as [-> | Hne].
    + rewrite list_lookup_insert_eq in Hj by done. by injection Hj as <-.
    + rewrite list_lookup_insert_ne in Hj by done.
      assert (Hid : call_id j ≠ call_id i) by (intros E; by apply call_id_inj in E).
      apply (call_inv_ext j cj s); [by rewrite Ha | by apply Hp | by rewrite Hh | by rewrite Hr | | by apply I].
      intros Hq. by destruct (Hreq _ Hq).
Qed.

Lemma not_stopped s : Transport s → disconnected s = false → stopped (reader s) = false ∧ drained (reader s) = false.
Proof.
  intros H Hd. assert (Hs : stopped (reader s) = false).
  { destruct (stopped (reader s)) eqn:E; [| done]. assert (disconnected s = true) by (apply (flag_iff _ H); auto). congruence. }
  split; [done|]. by destruct (reader s).
Qed.

Lemma reply_unrequested i s : Inv s → ¬ requested (call_id i) s → reply (call_id i) (handled s) = None.
Proof.
  intros I Hn. destruct (reply (call_id i) (handled s)) eqn:E; [| done]. exfalso. apply Hn, (inv_replies _ I).
  unfold received. rewrite reply_app, E. by eexists.
Qed.

(** The channel of a consistent call agrees with the map. *)
Lemma consistent_pending i s : Inv s → consistent i s →
  pending s !! call_id i = None ∨ pending s !! call_id i = Some i ∧ drained (reader s) = false.
Proof.
  intros I [_ Hp]. rewrite Hp. unfold carried. destruct (reply (call_id i) (handled s)); [by left|].
  destruct (drained (reader s)); [by left | by right].
Qed.

Lemma calls_inv_call i c s s' : Inv s → calls s !! i = Some c → run_call i c s = Some s' → Inv s'.
Proof.
  intros I Hi Hrun. pose proof (inv_calls _ I i c Hi) as Hc. unfold call_inv in Hc.
  assert (Hlt : i < length (calls s)) by by eapply lookup_lt_Some.
  assert (Ht : Transport s').
  { apply (transport_step (RunCall i) s); [apply I | done |]. cbn. by rewrite Hi. }
  unfold run_call in Hrun. destruct (stage c) as [id | id params | id err | id | err | id r |] eqn:Es; try done.
  - destruct Hc as (-> & Hans & Hpend & Hnr). destruct (disconnected s) eqn:Hd.
    + injection Hrun as <-. eapply (calls_inv_moved s _ i _ I Hlt); try done; cbn; auto.
    + destruct (not_stopped s (inv_transport _ I) Hd) as [_ Hdr].
      assert (Hcons : ∀ c', consistent i (set_call i c' (set_pending (<[call_id i := i]> (pending s)) s))).
      { intros c'. unfold consistent, carried. cbn. rewrite (reply_unrequested _ _ I Hnr), Hdr, lookup_insert_eq. done. }
      assert (Hpi : ∀ id, id ≠ call_id i → (<[call_id i := i]> (pending s)) !! id = pending s !! id).
      { intros id Hne. by rewrite lookup_insert_ne. }
      destruct (serialized c); injection Hrun as <-; eapply (calls_inv_moved s _ i _ I Hlt); try done; cbn; auto;
        right; by rewrite lookup_insert_eq.
  - destruct Hc as (-> & Hcons & Hnr). destruct (writable c); injection Hrun as <-.
    + eapply (calls_inv_moved s _ i _ I Hlt); try done; cbn; [by apply consistent_pending | |].
      * intros id (me & pa & Hin). cbn in Hin. apply elem_of_app in Hin as [Hin | Hin]; [left; by exists me, pa|].
        apply list_elem_of_singleton in Hin. injection Hin as ->. by right.
      * intros id (me & pa & Hin). exists me, pa. cbn. apply elem_of_app. by left.
    + eapply (calls_inv_moved s _ i _ I Hlt); try done; cbn; auto. by apply consistent_pending.
  - destruct Hc as (-> & Hcons & Hnr). injection Hrun as <-. eapply (calls_inv_moved s _ i _ I Hlt); try done; cbn; auto.
    + intros id Hne. by rewrite lookup_delete_ne.
    + left. apply lookup_delete_eq.
  - destruct Hc as (-> & Hcons). destruct (answers s !! i) as [a|] eqn:Ea; [| done]. injection Hrun as <-.
    eapply (calls_inv_moved s _ i _ I Hlt); try done; cbn; auto; [by apply consistent_pending|].
    split; [done|]. split; [done|]. cbn. by rewrite Ea.
Qed.

(** *** The environment *)

(** Nothing but the transport changed. *)
Lemma calls_inv_quiet s s' :
  Inv s → Transport s' → calls s' = calls s → next_request_id s' = next_request_id s → answers s' = answers s →
  pending s' = pending s → written s' = written s → handled s' = handled s →
  drained (reader s') = drained (reader s) →
  (∀ id, is_Some (reply id (received s')) → requested id s) → Inv s'.
Proof.
  intros I Ht Hc Hn Ha Hp Hw Hh Hr Hrep.
  assert (Hreq : ∀ id, requested id s' ↔ requested id s) by (intros id; unfold requested; by rewrite Hw).
  split; rewrite ?Hc, ?Hn, ?Ha, ?Hp, ?Hr; try apply I; try done.
  - intros i Hi. rewrite Hreq. by apply I.
  - intros id Hs. apply Hreq. by apply Hrep.
  - intros i c Hi. apply (call_inv_ext i c s); [by rewrite Ha | by rewrite Hp | by rewrite Hh | done | by apply Hreq | by apply I].
Qed.

Lemma received_enqueue e s s0 :
  reader s0 = reader s → handled s0 = handled s → incoming s0 = incoming s →
  received (enqueue e s0) = received s ∨ received (enqueue e s0) = received s ++ [e].
Proof.
  intros H1 H2 H3. unfold received, inflight, enqueue. rewrite H1.
  destruct (reader s) eqn:E; cbn; rewrite ?H1, ?E, ?H2, ?H3, <-?app_assoc; cbn; rewrite <-?app_assoc; auto.
Qed.

Lemma enqueue_fields e s :
  calls (enqueue e s) = calls s ∧ next_request_id (enqueue e s) = next_request_id s ∧ answers (enqueue e s) = answers s ∧
  pending (enqueue e s) = pending s ∧ written (enqueue e s) = written s ∧ handled (enqueue e s) = handled s ∧
  reader (enqueue e s) = reader s.
Proof. unfold enqueue. destruct (reader s) eqn:E; cbn; rewrite ?E; repeat split; done. Qed.

Lemma inv_enqueue e s s0 :
  Inv s → Transport (enqueue e s0) →
  calls s0 = calls s → next_request_id s0 = next_request_id s → answers s0 = answers s → pending s0 = pending s →
  written s0 = written s → handled s0 = handled s → reader s0 = reader s → incoming s0 = incoming s →
  (∀ id, is_Some (event_reply id e) → requested id s) → Inv (enqueue e s0).
Proof.
  intros I Ht H1 H2 H3 H4 H5 H6 H7 H8 He. destruct (enqueue_fields e s0) as (E1 & E2 & E3 & E4 & E5 & E6 & E7).
  apply (calls_inv_quiet s); [done | done | congruence | congruence | congruence | congruence | congruence | congruence | congruence |].
  intros id. destruct (received_enqueue e s s0 H7 H6 H8) as [-> | ->]; [apply I|]. rewrite reply_app.
  destruct (reply id (received s)) eqn:Er; [intros _; apply I; by rewrite Er|].
  unfold reply. cbn. destruct (event_reply id e) eqn:Ee; [intros _; apply He; by rewrite Ee | by intros []].
Qed.

Lemma inv_new_call m p w s : Inv s → (next_request_id s < 2 ^ 63 - 1)%Z → Inv (new_call m p w s).
Proof.
  intros I Hb. destruct (inv_next _ I) as [Hn _].
  assert (Hl : length (calls (new_call m p w s)) = S (length (calls s))) by (cbn; rewrite length_app; cbn; lia).
  assert (Hpend : ∀ i, length (calls s) ≤ i → pending s !! call_id i = None).
  { intros i Hi. destruct (pending s !! call_id i) eqn:E; [| done]. apply (inv_pending _ I) in E as [E1%call_id_inj E2]. lia. }
  split; try rewrite Hl; try apply I.
  - by apply (transport_same s); try apply I.
  - cbn. unfold i64_wrap. rewrite Z.mod_small by lia. lia.
  - intros id i Hi. apply (inv_pending _ I) in Hi as [? ?]. split; [done | lia].
  - intros i Hi. apply (inv_answers _ I). lia.
  - intros i Hi. apply (inv_requested _ I). lia.
  - intros i c Hi. cbn in Hi. apply lookup_snoc_Some in Hi as [[_ Hi] | [-> <-]].
    + by apply (call_inv_ext i c s); try apply I.
    + cbn. unfold call_inv. cbn. split; [unfold call_id; f_equal; lia|].
      split; [by apply (inv_answers _ I)|]. split; [by apply Hpend | by apply (inv_requested _ I)].
Qed.

(** *** The reader *)

(** The reader has handled one more message. *)
Lemma inv_message s s' :
  Inv s → Transport s' → calls s' = calls s → next_request_id s' = next_request_id s → written s' = written s →
  drained (reader s') = false → received s' = received s →
  (∀ id i, pending s' !! id = Some i → pending s !! id = Some i) →
  (∀ i, length (calls s) ≤ i → answers s' !! i = None) →
  (∀ i c, calls s !! i = Some c → call_inv i c s') → Inv s'.
Proof.
  intros I Ht Hc Hn Hw Hd Hrec Hp Ha Hci.
  assert (Hreq : ∀ id, requested id s' ↔ requested id s) by (intros id; unfold requested; by rewrite Hw).
  split; rewrite ?Hc, ?Hn, ?Hrec, ?Hd; try apply I; try done.
  - intros id i Hi. by apply (inv_pending _ I), Hp.
  - intros i Hi. rewrite Hreq. by apply I.
  - intros id Hs. by apply Hreq, (inv_replies _ I).
Qed.

Lemma inv_reply m id r s :
  Inv s → reader s = ReaderHandle m → event_reply id (EvMessage m) = Some r →
  (∀ id', id' ≠ id → event_reply id' (EvMessage m) = None) →
  Transport (set_reader ReaderLoop (note_handled (EvMessage m) (resolve id r s))) →
  Inv (set_reader ReaderLoop (note_handled (EvMessage m) (resolve id r s))).
Proof.
  intros I Hr He Hother Ht.
  assert (Hreq : requested id s).
  { apply (inv_replies _ I), (reply_one id (EvMessage m)); [by rewrite He|].
    unfold received, inflight. rewrite Hr. apply elem_of_app. right. by left. }
  assert (Hnd : drained (reader s) = false) by by rewrite Hr.
  apply (inv_message s); try done; unfold resolve; destruct (pending s !! id) as [i|] eqn:Hp; try done; cbn.
  - unfold received, inflight. cbn. by rewrite Hr, <-app_assoc.
  - unfold received, inflight. cbn. by rewrite Hr, <-app_assoc.
  - intros id' j Hj. by apply lookup_delete_Some in Hj as [_ ?].
  - intros j Hj. destruct (inv_pending _ I _ _ Hp) as [_ Hi]. rewrite lookup_insert_ne by lia. by apply I.
  - intros j Hj. by apply I.
  - intros j c Hj. pose proof (inv_calls _ I j c Hj) as Hcj. destruct (inv_pending _ I _ _ Hp) as [-> Hi].
    destruct (decide (j = i)) as [-> | Hne].
    + assert (Hcons : consistent i s → consistent i
        (set_reader ReaderLoop (note_handled (EvMessage m)
           (mkRpc (delete (call_id i) (pending s)) (<[i := r]> (answers s)) (next_request_id s) (disconnected s)
              (incoming s) (senders_open s) (tails s) (reader s) (calls s) (written s) (events s) (terminated s)
              (handled s))))).
      { intros [H1 H2]. unfold consistent, carried in *. cbn. rewrite Hp, Hnd in H2.
        destruct (reply (call_id i) (handled s)) eqn:Erep; [done|].
        rewrite (reply_snoc_same _ _ _ _ He), Erep, lookup_insert_eq, lookup_delete_eq. done. }
      unfold call_inv in *. destruct (stage c); try done; try (by destruct Hcj as (_ & _ & []));
        try (by destruct Hcj as (_ & _ & _ & [])).
      * destruct Hcj as (-> & Hc). split; [done | by apply Hcons].
      * destruct Hcj as (-> & [Hc1 Hc2] & Hc3). exfalso. rewrite <-Hc1 in Hc2. rewrite Hp in Hc2.
        by destruct (answers s !! i).
    + assert (Hid : call_id j ≠ call_id i) by (intros E; by apply call_id_inj in E).
      apply (call_inv_ext j c s); try done; cbn.
      * by rewrite lookup_insert_ne.
      * by rewrite lookup_delete_ne.
      * by apply reply_snoc_other, Hother.
  - intros j c Hj. pose proof (inv_calls _ I j c Hj) as Hcj. destruct (decide (call_id j = id)) as [<- | Hne].
    + assert (Hcons : consistent j s → consistent j (set_reader ReaderLoop (note_handled (EvMessage m) s))).
      { intros [H1 H2]. unfold consistent, carried in *. cbn. rewrite Hp, Hnd in H2. rewrite Hnd in H1.
        rewrite (reply_snoc_same _ _ _ _ He). destruct (reply (call_id j) (handled s)) eqn:Erep; done. }
      unfold call_inv in *. destruct (stage c); naive_solver.
    + apply (call_inv_ext j c s); try done; cbn. by apply reply_snoc_other, Hother.
Qed.

Lemma drain_lookup (p : gmap RequestId nat) (a : gmap nat (result RpcCallError Value)) j :
  (∀ id i, p !! id = Some i → id = call_id i) →
  map_fold (λ _ i m, <[i := Err CallClosed]> m) a p !! j
  = match p !! call_id j with Some _ => Some (Err CallClosed) | None => a !! j end.
Proof.
  induction p as [| id i p Hid IH] using map_ind; intros Hp; [by rewrite map_fold_empty, lookup_empty|].
  rewrite map_fold_insert_L; [| | done].
  2:{ intros j1 j2 z1 z2 y Hne _ _. destruct (decide (z1 = z2)) as [-> | ?]; [by rewrite !insert_insert_eq | by apply insert_insert_ne]. }
  assert (id = call_id i) as -> by (apply Hp; apply lookup_insert_eq).
  destruct (decide (i = j)) as [-> | Hne]; [by rewrite !lookup_insert_eq|].
  rewrite !lookup_insert_ne; [| intros E%call_id_inj; done | done]. apply IH. intros id' i' Hi'.
  apply Hp. rewrite lookup_insert_ne; [done|]. intros <-. congruence.
Qed.

Lemma inv_drain s :
  Inv s → reader s = ReaderDrain → Transport (set_reader ReaderTerminate (drain_pending s)) →
  Inv (set_reader ReaderTerminate (drain_pending s)).
Proof.
  intros I Hr Ht. assert (Hids : ∀ id i, pending s !! id = Some i → id = call_id i) by (intros id i Hi; by apply I).
  split; try apply I; try done.
  - intros i Hi. cbn. rewrite drain_lookup by done. destruct (pending s !! call_id i) eqn:E; [| by apply I].
    apply (inv_pending _ I) in E as [E1%call_id_inj E2]. cbn in Hi. lia.
  - intros id. unfold received, inflight. cbn. pose proof (inv_replies _ I id) as Hrep. unfold received, inflight in Hrep.
    by rewrite Hr in Hrep.
  - intros j c Hj. pose proof (inv_calls _ I j c Hj) as Hcj.
    assert (Hcons : consistent j s → consistent j (set_reader ReaderTerminate (drain_pending s))).
    { intros [H1 H2]. unfold consistent, carried in *. cbn. rewrite drain_lookup by done. rewrite H2, lookup_empty, H1, Hr.
      cbn. by destruct (reply (call_id j) (handled s)). }
    unfold call_inv in *. destruct (stage c); try naive_solver; cbn.
    + destruct Hcj as (-> & H1 & H2 & H3). rewrite drain_lookup, H2, lookup_empty by done. done.
    + destruct Hcj as (-> & [H1 H2] & H3). split; [done|]. split; [by apply Hcons|].
      rewrite drain_lookup by done. rewrite <-H1 in H2. by rewrite H2; destruct (answers s !! j).
Qed.

Lemma inv_reader s s' : Inv s → run_reader s = Some s' → Inv s'.
Proof.
  intros I Hrun. pose proof (transport_reader _ _ (inv_transport _ I) Hrun) as Ht.
  pose proof (inflight_harmless _ (inv_transport _ I)) as [Hf _]. unfold inflight in Hf.
  unfold run_reader in Hrun. destruct (reader s) as [| m | reason | | |] eqn:Er; try done.
  - assert (Hrec : ∀ e q s', incoming s = e :: q →
      (s' = set_reader (ReaderReport None) (note_handled e (set_incoming q s)) ∨
       (∃ m, e = EvMessage m ∧ s' = set_reader (ReaderHandle m) (set_incoming q s)) ∨
       ∃ reason, e = EvDisconnected reason ∧ s' = set_reader (ReaderReport reason) (note_handled e (set_incoming q s))) →
      received s' = received s).
    { intros e q s0 Hi Hs. unfold received, inflight. rewrite Er, Hi.
      destruct Hs as [-> | [(m & -> & ->) | (reason & -> & ->)]]; cbn; by rewrite <-?app_assoc. }
    pose proof (queue_harmless _ (inv_transport _ I)) as Hq.
    destruct (incoming s) as [| e q] eqn:Ei.
    + destruct (senders_open s); [done|]. injection Hrun as <-. apply (calls_inv_quiet s); try done; [by rewrite Er|].
      intros id. unfold received, inflight. cbn. pose proof (inv_replies _ I id) as Hrep. unfold received, inflight in Hrep.
      by rewrite Er in Hrep.
    + apply Forall_cons in Hq as [Hq _]. destruct e as [m | |]; cbn in Hq; [| done |].
      * assert (s' = set_reader (ReaderHandle m) (set_incoming q s)) as -> by (destruct m; [done | congruence ..]).
        apply (calls_inv_quiet s); try done; [by rewrite Er|].
        intros id. rewrite (Hrec _ _ _ eq_refl); [apply I|]. right. left. by exists m.
      * injection Hrun as <-.
        apply (inv_message s); try done; [| by apply I |].
        -- apply (Hrec _ _ _ eq_refl). right. right. by exists reason.
        -- intros i c Hi. apply (call_inv_ext i c s); try done; [by apply reply_snoc_other | by rewrite Er | by apply I].
  - injection Hrun as <-. apply Forall_cons in Hf as [Hf _].
    destruct m as [id me pa | me pa | id v | id err]; cbn in Hf; [done | | |]; cbn [handle_server_message].
    + apply (inv_message s); try done; [| by apply I |].
      * unfold received, inflight. cbn. by rewrite Er, <-app_assoc.
      * intros i c Hi. apply (call_inv_ext i c s); try done; [by apply reply_snoc_other | by rewrite Er | by apply I].
    + apply inv_reply; [done | done | cbn; by rewrite decide_True | | done]. intros id' Hne. cbn. by rewrite decide_False.
    + apply inv_reply; [done | done | cbn; by rewrite decide_True | | done]. intros id' Hne. cbn. by rewrite decide_False.
  - injection Hrun as <-. apply (calls_inv_quiet s); try done; [by rewrite Er|].
    intros id. unfold received, inflight. cbn. pose proof (inv_replies _ I id) as Hrep. unfold received, inflight in Hrep.
    by rewrite Er in Hrep.
  - injection Hrun as <-. by apply inv_drain.
  - injection Hrun as <-. apply (calls_inv_quiet s); try done; [by rewrite Er|].
    intros id. unfold received, inflight. cbn. pose proof (inv_replies _ I id) as Hrep. unfold received, inflight in Hrep.
    by rewrite Er in Hrep.
Qed.

Lemma inv_orderly s s' : Inv s → orderly_step s s' → Inv s'.
Proof.
  intros I (c & Ho & Hrun). pose proof (transport_step c s s' (inv_transport _ I) Ho Hrun) as Ht.
  destruct c as [i | | i | m p w | i | e | reason |]; cbn [run_choice] in Hrun.
  - destruct (calls s !! i) as [c|] eqn:Hc; [| done]. by eapply calls_inv_call.
  - by eapply inv_reader.
  - destruct (tails s !! i) as [reason|]; [| done]. injection Hrun as <-. apply (inv_enqueue _ s); try done. by intros id [].
  - injection Hrun as <-. by apply inv_new_call.
  - destruct (calls s !! i) as [c|] eqn:Hc; [cbn in Hrun | done].
    assert (Hlt : i < length (calls s)) by by eapply lookup_lt_Some.
    assert (s' = set_call i (set_stage Abandoned c) s) as -> by (destruct (stage c); congruence).
    assert (Hp : pending s !! call_id i = None ∨ pending s !! call_id i = Some i ∧ drained (reader s) = false).
    { destruct (pending s !! call_id i) as [j|] eqn:E; [right | by left].
      destruct (inv_pending _ I _ _ E) as [<-%call_id_inj _]. split; [done|].
      destruct (drained (reader s)) eqn:Ed; [| done]. by rewrite (inv_drained _ I Ed), lookup_empty in E. }
    eapply (calls_inv_moved s _ i _ I Hlt); try done; cbn; auto.
  - destruct e as [m | |]; try done. destruct (senders_open s); [| done]. injection Hrun as <-.
    apply (inv_enqueue _ s); try done. intros id. destruct m as [| | id' v | id' err]; cbn in *; try (by intros []);
      (case_decide; [by subst | by intros []]).
  - destruct (senders_open s); [| done]. injection Hrun as <-. apply (calls_inv_quiet s); try done. apply I.
  - destruct (is_empty (tails s)); [| done]. injection Hrun as <-. apply (calls_inv_quiet s); try done. apply I.
Qed.

Lemma rpc_inv s : rtc orderly_step rpc_new s → Inv s.
Proof.
  apply (rtc_ind_r Inv); [| intros ??; eauto using inv_orderly].
  split; cbn; try done; try (intros *; by rewrite lookup_empty).
  - split; cbn; try done. split; [done|]. naive_solver.
  - by intros i _ (m & p & Hin%elem_of_nil).
Qed.

(** *** Every schedule of the program ends *)

Definition stage_rank (g : CallStage) : nat :=
  match g with CallRegister _ => 3 | CallSend _ _ => 2 | CallRemove _ _ | CallWait _ => 1 | _ => 0 end.
Definition reader_rank (r : Reader) : nat :=
  match r with
  | ReaderLoop => 4 | ReaderHandle _ => 5 | ReaderReport _ => 3 | ReaderDrain => 2 | ReaderTerminate => 1
  | ReaderDone => 0
  end.
Definition calls_rank (cs : list Call) : nat := sum_list_with (λ c, stage_rank (stage c)) cs.
#[local] Arguments calls_rank : simpl never.
Definition rank (s : Rpc) : nat :=
  calls_rank (calls s) + 2 * length (incoming s) + reader_rank (reader s) + 3 * length (tails s).

Lemma calls_rank_insert cs i c c' :
  cs !! i = Some c → stage_rank (stage c') < stage_rank (stage c) → calls_rank (<[i := c']> cs) < calls_rank cs.
Proof.
  revert i. induction cs as [| c0 cs IH]; intros [| i] Hi Hlt; try done.
  - injection Hi as ->. change (stage_rank (stage c') + calls_rank cs < stage_rank (stage c) + calls_rank cs). lia.
  - specialize (IH i Hi Hlt).
    change (stage_rank (stage c0) + calls_rank (<[i := c']> cs) < stage_rank (stage c0) + calls_rank cs). lia.
Qed.

Lemma rank_decreases s s' : internal_step s s' → rank s' < rank s.
Proof.
  intros (c & Hc & Hrun). destruct c as [i | | i | | | | |]; cbn [run_choice] in Hrun; try done.
  - destruct (calls s !! i) as [c|] eqn:Hi; [cbn in Hrun | done].
    assert (Hset : ∀ g, stage_rank g < stage_rank (stage c) → calls_rank (<[i := set_stage g c]> (calls s)) < calls_rank (calls s)).
    { intros g Hg. by apply (calls_rank_insert _ _ c). }
    unfold run_call in Hrun. destruct (stage c) as [| | | id | | |]; try done.
    4: destruct (answers s !! i); [| done].
    all: repeat case_match; injection Hrun as <-;
      unfold rank; cbn [set_call set_pending write calls incoming reader tails];
      match goal with |- context [set_stage ?g _] => specialize (Hset g); cbn [stage_rank] in Hset; lia end.
  - unfold run_reader in Hrun. destruct (reader s) as [| m | | | |] eqn:Er; try done.
    + destruct (incoming s) as [| e q] eqn:Ei.
      * destruct (senders_open s); [done|]. injection Hrun as <-. unfold rank. cbn. rewrite Er, Ei. cbn. lia.
      * destruct e as [[] | |]; injection Hrun as <-; unfold rank; cbn; rewrite Er, Ei; cbn; lia.
    + injection Hrun as <-. unfold rank. rewrite Er. destruct m; cbn; try lia; unfold resolve; case_match; cbn; lia.
    + injection Hrun as <-. unfold rank. cbn. rewrite Er. cbn. lia.
    + injection Hrun as <-. unfold rank. cbn. rewrite Er. cbn. lia.
    + injection Hrun as <-. unfold rank. cbn. rewrite Er. cbn. lia.
  - destruct (tails s !! i) as [reason|] eqn:Hi; [| done]. injection Hrun as <-.
    assert (Hl : length (tails s) = S (length (delete i (tails s)))).
    { rewrite length_delete by by eexists. apply lookup_lt_Some in Hi. lia. }
    unfold rank, enqueue. cbn [set_tails reader]. destruct (reader s) eqn:Er; cbn; rewrite ?Er, ?length_app; cbn; lia.
Qed.

Lemma internal_bounded n s s' : nsteps internal_step n s s' → n ≤ rank s.
Proof. induction 1 as [| n s1 s2 s3 H1 _ IH]; [lia|]. apply rank_decreases in H1. lia. Qed.

Definition settled (c : Call) : bool := match stage c with Failed _ | Answered _ _ | Abandoned => true | _ => false end.

Lemma settled_stuck s :
  reader s = ReaderDone → tails s = [] → forallb settled (calls s) = true → ∀ s', ¬ internal_step s s'.
Proof.
  intros Hr Ht Hc s' (c & Hi & Hrun). rewrite forallb_forall in Hc.
  destruct c as [i | | i | | | | |]; cbn [internal] in Hi; try discriminate Hi; cbn [run_choice] in Hrun.
  - destruct (calls s !! i) as [c|] eqn:E; [| discriminate Hrun].
    assert (Hin : c ∈ calls s) by (by eapply list_elem_of_lookup_2). apply list_elem_of_In, Hc in Hin.
    unfold settled in Hin. cbn in Hrun. unfold run_call in Hrun. by destruct (stage c).
  - unfold run_reader in Hrun. by rewrite Hr in Hrun.
  - by rewrite Ht in Hrun.
Qed.

(** A state of the program that cannot go on, once the transport has ended. *)
Lemma stuck_done s :
  Inv s → disconnected s = true → (∀ s', ¬ internal_step s s') → reader s = ReaderDone.
Proof.
  intros I Hd Hs.
  assert (Hr : run_reader s = None).
  { destruct (run_reader s) as [s'|] eqn:E; [| done]. exfalso. apply (Hs s'). by exists RunReader. }
  assert (Ht : tails s = []).
  { destruct (tails s) as [| t ts] eqn:E; [done|]. exfalso.
    eapply Hs. exists (RunTail 0). split; [done|]. cbn. by rewrite E. }
  unfold run_reader in Hr. destruct (reader s) eqn:Er; try done.
  destruct (incoming s) as [| e q] eqn:Ei; [| by destruct e as [[] | |]].
  pose proof (proj1 (flag_iff _ (inv_transport _ I)) Hd) as Hf. rewrite Ht, Ei, Er in Hf. cbn in Hf. naive_solver.
Qed.

Lemma verdict_done id s :
  Inv s → reader s = ReaderDone → decode_answer <$> carried id s = Some (verdict id (received s)).
Proof.
  intros I Hr. pose proof (handled_to_end _ (inv_transport _ I)) as He. rewrite Hr in He.
  destruct He as (pre & reason & Hh & Hpre). unfold carried, verdict, received, inflight. rewrite Hr, Hh. cbn [app].
  rewrite <-app_assoc. cbn [app]. rewrite before_disconnect_app by done. rewrite reply_snoc_other by done.
  by destruct (reply id pre).
Qed.

(** ** Theorem *)

(** C27: No call waits for ever.  Whatever the interleaving of calls, the reader and the
    transport, with a server that keeps to the protocol: a run of the program alone is
    finite, and when it cannot go on after the transport has ended, every call has
    returned.  A call whose request was sent returns the first reply to its own id that
    the transport delivered before it reported its end, and otherwise that the
    connection is closed. *)
Theorem calls_answered s :
  rtc orderly_step rpc_new s →
  (∀ n s', nsteps internal_step n s s' → n ≤ rank s) ∧
  (disconnected s = true → (∀ s', ¬ internal_step s s') →
   ∀ i c, calls s !! i = Some c →
     match stage c with
     | Answered id r => id = call_id i ∧ r = verdict id (received s)
     | Failed _ | Abandoned => True
     | _ => False
     end).
Proof.
  intros Hreach. pose proof (rpc_inv _ Hreach) as I. split; [intros n s'; apply internal_bounded|].
  intros Hd Hs i c Hi. pose proof (stuck_done _ I Hd Hs) as Hr.
  pose proof (inv_calls _ I i c Hi) as Hc. unfold call_inv in Hc.
  assert (Hrun : run_call i c s = None).
  { destruct (run_call i c s) as [s'|] eqn:E; [| done]. exfalso. apply (Hs s'). exists (RunCall i). split; [done|].
    cbn. by rewrite Hi. }
  unfold run_call in Hrun. destruct (stage c) as [| | | id | | id r |]; try done; try (by repeat case_match).
  - destruct Hc as (-> & [Ha _]). pose proof (verdict_done (call_id i) s I Hr) as Hv. rewrite <-Ha in Hv.
    by destruct (answers s !! i).
  - destruct Hc as (-> & [Ha _] & Hdec). split; [done|]. pose proof (verdict_done (call_id i) s I Hr) as Hv.
    rewrite <-Ha, Hdec in Hv. by injection Hv.
Qed.

End Client.

(** ** A run *)

Definition run_choices (cs : list (choice (Value := N))) (s : Rpc (T := N)) : Rpc :=
  fold_left (λ s c, default s (run_choice (λ v, Ok v) c s)) cs s.

Definition orderlyb (s : Rpc (Value := N) (T := N)) (c : choice (Value := N)) : bool :=
  match c with
  | NewCall _ _ _ => (next_request_id s <? 2 ^ 63 - 1)%Z
  | Arrives (EvMalformed _) | Arrives (EvMessage (MsgRequest _ _ _)) => false
  | Arrives (EvMessage (MsgResponse id _)) | Arrives (EvMessage (MsgError id _)) =>
      any (λ m, match m with MsgRequest id' _ _ => bool_decide (id' = id) | _ => false end) (written s)
  | SendersEnd => disconnected s
  | _ => true
  end.

Lemma requested_any id (s : Rpc (Value := N) (T := N)) :
  any (λ m, match m with MsgRequest id' _ _ => bool_decide (id' = id) | _ => false end) (written s) = true → requested id s.
Proof.
  intros (m & Hin & Hm)%existsb_exists. destruct m as [id' me pa | | |]; try done.
  apply bool_decide_eq_true in Hm as ->. exists me, pa. by apply list_elem_of_In.
Qed.

Lemma orderlyb_ok s c : orderlyb s c = true → orderly s c.
Proof.
  destruct c as [| | | | | [[] | |] | |]; cbn; try done; try apply requested_any. intros H. by apply Z.ltb_lt.
Qed.

Fixpoint run_orderly (cs : list (choice (Value := N))) (s : Rpc (T := N)) : option Rpc :=
  match cs with
  | [] => Some s
  | c :: cs => if orderlyb s c then s' ← run_choice (λ v, Ok v) c s; run_orderly cs s' else None
  end.

Lemma run_orderly_ok cs : ∀ s s', run_orderly cs s = Some s' → rtc (orderly_step (λ v, Ok v)) s s'.
Proof.
  induction cs as [| c cs IH]; intros s s' Hr; cbn in Hr; [by injection Hr as ->|].
  destruct (orderlyb s c) eqn:Ho; [| done]. destruct (run_choice (λ v, Ok v) c s) as [s1|] eqn:E; [| done].
  eapply rtc_l; [exists c; split; [by apply orderlyb_ok | exact E] | by apply IH].
Qed.

(** Two calls; the second is answered, then the transport ends. *)
Definition demo_choices : list (choice (Value := N)) :=
  [NewCall (lit "a") (Ok 1%N) true; NewCall (lit "b") (Ok 2%N) true; RunCall 0; RunCall 0; RunCall 1; RunCall 1;
   Arrives (EvMessage (MsgResponse (IdInteger 2) 7%N)); TransportEnds None; RunTail 0;
   RunReader; RunReader; RunReader; RunReader; RunReader; RunReader; RunCall 0; RunCall 1].
Definition demo_rpc : Rpc (T := N) := run_choices demo_choices rpc_new.

Lemma calls_answered_witness :
  disconnected demo_rpc = true ∧
  calls demo_rpc = [mkCall (lit "a") (Ok 1%N) true (Answered (IdInteger 1) (Err CallClosed));
                    mkCall (lit "b") (Ok 2%N) true (Answered (IdInteger 2) (Ok 7%N))] ∧
  Err CallClosed = verdict (λ v, Ok v) (IdInteger 1) (received demo_rpc) ∧
  Ok 7%N = verdict (λ v, Ok v) (IdInteger 2) (received demo_rpc).
Proof.
  assert (Hreach : rtc (orderly_step (λ v, Ok v)) rpc_new demo_rpc).
  { apply (run_orderly_ok demo_choices). vm_compute. reflexivity. }
  destruct (calls_answered (λ v, Ok v) demo_rpc Hreach) as [_ H].
  assert (Hd : disconnected demo_rpc = true) by (vm_compute; reflexivity).
  assert (Hc : calls demo_rpc = [mkCall (lit "a") (Ok 1%N) true (Answered (IdInteger 1) (Err CallClosed));
                    mkCall (lit "b") (Ok 2%N) true (Answered (IdInteger 2) (Ok 7%N))]) by (vm_compute; reflexivity).
  assert (Hr : reader demo_rpc = ReaderDone) by (vm_compute; reflexivity).
  assert (Ht : tails demo_rpc = []) by (vm_compute; reflexivity).
  assert (Hs : ∀ s', ¬ internal_step (λ v, Ok v) demo_rpc s').
  { apply settled_stuck; [exact Hr | exact Ht | rewrite Hc; vm_compute; reflexivity]. }
  split; [exact Hd|]. split; [exact Hc|]. split.
  - destruct (H Hd Hs 0 _ ltac:(rewrite Hc; reflexivity)) as [_ E]. exact E.
  - destruct (H Hd Hs 1 _ ltac:(rewrite Hc; reflexivity)) as [_ E]. exact E.
Defined.

(** The comment in [call] says that no call can register after the drain.  The drain also
    follows a malformed message, and then the flag is not set: a call that registers
    afterwards is sent and waits for ever, also when the transport ends later. *)
Example late_call_waits :
  let s := run_choices
    [NewCall (lit "a") (Ok 1%N) true; Arrives (EvMalformed []); RunReader; RunReader; RunReader; RunReader;
     RunCall 0; RunCall 0; Arrives (EvMessage (MsgResponse (IdInteger 1) 7%N)); TransportEnds None; RunTail 0] rpc_new in
  reader s = ReaderDone ∧ disconnected s = true ∧ tails s = [] ∧
  calls s = [mkCall (lit "a") (Ok 1%N) true (CallWait (IdInteger 1))] ∧
  run_choice (λ v, Ok v) (RunCall 0) s = None.
Proof. vm_compute. repeat split. Qed.
