(* ===== verification/Connection.v ===== *)
(** * Connections of the exec server

    [run_connection] of [exec-server/src/server/processor.rs] and the guards of
    [ExecServerHandler] in [exec-server/src/server/handler.rs]: a connection handles its
    messages one after the other, attaches to a session with [initialize], may use it
    after [initialized], and detaches when its loop ends.

    A [Server] is the session registry with the connections at the points where they wait
    for a message, for [attach], for a request or for nothing more.  The requests behind
    the guard (processes, files, HTTP, environment) are seen only as the use of a
    session. *)

From S2P Require Import Prelude RustStr LocalProcess SessionRegistry.

(** The session is the entry in the registry with the id of this connection. *)
Record Handler := mkHandler {
  initialize_requested : bool;
  initialized : bool;
  h_session : option (N * N);
}.

Definition handler_new : Handler := mkHandler false false None.

(** What a client sends. *)
Inductive Inbound :=
| InInitialize (resume_session_id : option str)
| InInitialized
| InRequest (family : str) (read : bool)
| InUnknownRequest (method : str)
| InMalformed (reason : str)
| InUnexpected
| InDisconnected.

Inductive Reply :=
| InitializeReply (r : result JSONRPCErrorError str)
| RequestReply (r : result JSONRPCErrorError unit)
| ErrorReply (e : JSONRPCErrorError).

(** Where the loop of a connection is: at its next message, in [attach] (the call of the
    registry and the id of the connection), in a request ([read] is checked again when it
    is over), before [ExecServerHandler::shutdown], after it. *)
Inductive Phase :=
| Receiving
| Attaching (call : nat) (conn : N)
| Serving (read : bool)
| Leaving
| Gone.

Record Conn := mkConn { handler : Handler; phase : Phase; replies : list Reply }.

(** [used] is a history variable: which connection has used which session. *)
Record Server := mkServer { reg : Registry; conns : list Conn; used : list (nat * N) }.

Definition server_new : Server := mkServer fresh_registry [] [].

(** ** Guards *)

Definition resumed_by_another : JSONRPCErrorError :=
  invalid_request (lit "session has been resumed by another connection").

Definition is_attached (r : Registry) (session : N * N) : bool :=
  match entries r !! session.1 with Some x => is_attached_to session.2 x | None => false end.

Definition is_session_attached (r : Registry) (h : Handler) : bool :=
  match h_session h with Some session => is_attached r session | None => true end.

Definition require_session_attached (r : Registry) (h : Handler) : result JSONRPCErrorError (N * N) :=
  match h_session h with
  | None => Err (invalid_request (lit "client must call initialize before using methods"))
  | Some session => if is_attached r session then Ok session else Err resumed_by_another
  end.

Definition require_initialized_for (family : str) (r : Registry) (h : Handler)
    : result JSONRPCErrorError (N * N) :=
  if negb (initialize_requested h) then
    Err (invalid_request (lit "client must call initialize before using " ++ family ++ lit " methods"))
  else
    session ← require_session_attached r h;
    if negb (initialized h) then
      Err (invalid_request (lit "client must send initialized before using " ++ family ++ lit " methods"))
    else Ok session.

(** [ExecServerHandler::initialized]. *)
Definition handle_initialized (r : Registry) (h : Handler) : result str Handler :=
  if negb (initialize_requested h) then Err (lit "received `initialized` notification before `initialize`")
  else
    match require_session_attached r h with
    | Err e => Err (message e)
    | Ok _ => Ok (mkHandler (initialize_requested h) true (h_session h))
    end.

(** ** One message *)

Section Server.
Context (uuid : N → str).

(** The connection after a message, the registry and the session it begins to use. *)
Definition receive (ev : Inbound) (r : Registry) (c : Conn) : Registry * Conn * option N :=
  let h := handler c in
  if negb (is_session_attached r h) then (r, mkConn h Leaving (replies c), None)
  else
    match ev with
    | InInitialize resume =>
        if initialize_requested h then
          (r, mkConn h Receiving
                (replies c ++ [InitializeReply (Err (invalid_request (lit "initialize may only be sent once per connection")))]),
           None)
        else
          let conn := next_conn r in
          match run_choice uuid (NewAttach resume) r with
          | Some r' =>
              (r', mkConn (mkHandler true (initialized h) (h_session h)) (Attaching (length (calls r)) conn) (replies c), None)
          | None => (r, c, None)
          end
    | InInitialized =>
        match handle_initialized r h with
        | Ok h => (r, mkConn h Receiving (replies c), None)
        | Err _ => (r, mkConn h Leaving (replies c), None)
        end
    | InRequest family read =>
        match require_initialized_for family r h with
        | Ok session => (r, mkConn h (Serving read) (replies c), Some session.1)
        | Err e => (r, mkConn h Receiving (replies c ++ [RequestReply (Err e)]), None)
        end
    | InUnknownRequest method =>
        (r, mkConn h Receiving
              (replies c ++ [ErrorReply (method_not_found (lit "exec-server stub does not implement `" ++ method ++ lit "` yet"))]),
         None)
    | InMalformed reason => (r, mkConn h Receiving (replies c ++ [ErrorReply (invalid_request reason)]), None)
    | InUnexpected | InDisconnected => (r, mkConn h Leaving (replies c), None)
    end.

(** [initialize] after [attach] has returned; [None] while it has not. *)
Definition finish_attach (call : nat) (r : Registry) (c : Conn) : option Conn :=
  let h := handler c in
  match calls r !! call with
  | Some (Attached e conn) =>
      x ← entries r !! e;
      Some (mkConn (mkHandler (initialize_requested h) (initialized h) (Some (e, conn))) Receiving
              (replies c ++ [InitializeReply (Ok (session_id x))]))
  | Some (AttachFailed err) =>
      Some (mkConn (mkHandler false (initialized h) (h_session h)) Receiving (replies c ++ [InitializeReply (Err err)]))
  | _ => None
  end.

(** The end of a request. *)
Definition finish_request (read : bool) (r : Registry) (c : Conn) : Conn :=
  let outcome := if read then (λ _, ()) <$> require_session_attached r (handler c) else Ok () in
  mkConn (handler c) Receiving (replies c ++ [RequestReply outcome]).

(** [ExecServerHandler::shutdown]. *)
Definition shut_down_handler (r : Registry) (c : Conn) : Registry * Conn :=
  let c' := mkConn (handler c) Gone (replies c) in
  match h_session (handler c) with
  | Some (e, conn) => (default r (run_choice uuid (NewDetach e conn) r), c')
  | None => (r, c')
  end.

(** [Break] is a transport that ends while the connection handles a message, which drops
    what it was doing, or a reply that cannot be sent. *)
Inductive server_choice :=
| Accept
| Receive (i : nat) (ev : Inbound)
| FinishAttach (i : nat)
| FinishRequest (i : nat)
| Break (i : nat)
| Leave (i : nat)
| RunRegistry (call : nat)
| Wait (ms : N).

Definition set_conn (i : nat) (c : Conn) (s : Server) : Server := mkServer (reg s) (<[i := c]> (conns s)) (used s).
Definition set_reg (r : Registry) (s : Server) : Server := mkServer r (conns s) (used s).

Definition run_server (ch : server_choice) (s : Server) : option Server :=
  match ch with
  | Accept => Some (mkServer (reg s) (conns s ++ [mkConn handler_new Receiving []]) (used s))
  | Receive i ev =>
      c ← conns s !! i;
      match phase c with
      | Receiving =>
          let '(r, c', u) := receive ev (reg s) c in
          Some (mkServer r (<[i := c']> (conns s)) (used s ++ match u with Some e => [(i, e)] | None => [] end))
      | _ => None
      end
  | FinishAttach i =>
      c ← conns s !! i;
      match phase c with
      | Attaching call _ => c' ← finish_attach call (reg s) c; Some (set_conn i c' s)
      | _ => None
      end
  | FinishRequest i =>
      c ← conns s !! i;
      match phase c with Serving read => Some (set_conn i (finish_request read (reg s) c) s) | _ => None end
  | Break i =>
      c ← conns s !! i;
      let c' := mkConn (handler c) Leaving (replies c) in
      match phase c with
      | Receiving | Serving _ => Some (set_conn i c' s)
      | Attaching call _ => r ← run_choice uuid (DropAttach call) (reg s); Some (set_conn i c' (set_reg r s))
      | Leaving | Gone => None
      end
  | Leave i =>
      c ← conns s !! i;
      match phase c with
      | Leaving => let '(r, c') := shut_down_handler (reg s) c in Some (set_conn i c' (set_reg r s))
      | _ => None
      end
  | RunRegistry call => r ← run_choice uuid (RunCall call) (reg s); Some (set_reg r s)
  | Wait ms => r ← run_choice uuid (Tick ms) (reg s); Some (set_reg r s)
  end.

Definition server_step (s s' : Server) : Prop := ∃ c, run_server c s = Some s'.

(** ** The registry seen by a connection *)

Definition attached (e conn : N) (r : Registry) : Prop :=
  ∃ x, entries r !! e = Some x ∧ current_connection_id (attachment x) = Some conn.

Lemma attached_is e conn r : attached e conn r ↔ is_attached r (e, conn) = true.
Proof.
  unfold attached, is_attached, is_attached_to. cbn. destruct (entries r !! e) as [x|]; [| naive_solver].
  rewrite bool_decide_eq_true. naive_solver.
Qed.

(** How far an [attach] for connection [conn] has come. *)
Definition attach_progress (conn : N) (r : Registry) (c : Call) : Prop :=
  match c with
  | AttachWait _ conn' | AttachExpired _ _ conn' | AttachActive _ _ conn' | AttachSender _ conn' | AttachSet _ conn' =>
      conn' = conn
  | Attached e conn' => conn' = conn ∧ attached e conn r
  | AttachShutdown _ _ | AttachFailed _ => True
  | _ => False
  end.

Context `{!Inj (=) (=) uuid}.

(** An attachment lasts until its connection detaches. *)
Lemma attached_kept r r' j c e conn :
  Inv uuid r → calls r !! j = Some c → run_call uuid j c r = Some r' → c ≠ DetachEntry e conn →
  attached e conn r → attached e conn r'.
Proof.
  intros I Hj Hrun Hne (x & Hx & Hcur).
  assert (Hsame : entries r' = entries r → attached e conn r') by (intros E; exists x; by rewrite E).
  assert (Hput : ∀ e' x' y, entries r !! e' = Some x' → entries r' = <[e' := y]> (entries r) →
    (e' = e → current_connection_id (attachment x') = Some conn → current_connection_id (attachment y) = Some conn) → attached e conn r').
  { intros e' x' y Hx' E Hy. unfold attached. rewrite E. destruct (decide (e' = e)) as [-> | Hn].
    - exists y. rewrite lookup_insert_eq. split; [done|]. apply Hy; congruence.
    - exists x. by rewrite lookup_insert_ne. }
  pose proof (inv_calls _ _ I _ _ Hj) as Hok.
  destruct c as [resume cn | sid e' cn | sid e' cn | e' cn | e' cn | sid e' | e' cn | err
                | e' cn | e' cn | sid cn wake | e' |]; cbn [run_call call_ok] in Hrun, Hok; try done.
  - destruct (holder r); [done|]. destruct resume as [sid|].
    + destruct (table r !! sid); injection Hrun as <-; by apply Hsame.
    + injection Hrun as <-. exists x. cbn. rewrite lookup_insert_ne; [done|].
      destruct (inv_entries _ _ I _ _ Hx) as (_ & Hlt & _). lia.
  - destruct (entries r !! e') as [y|] eqn:Hy; [cbn in Hrun | done].
    destruct (is_expired (now r) y); injection Hrun as <-; by apply Hsame.
  - destruct (entries r !! e') as [y|] eqn:Hy; [cbn in Hrun | done].
    destruct (has_active_connection y); injection Hrun as <-; by apply Hsame.
  - destruct (entries r !! e') as [y|] eqn:Hy; [cbn in Hrun | done]. injection Hrun as <-. by apply (Hput e' y (set_sender (Some cn) y)).
  - destruct Hok as (_ & y & Hy & Hidle). rewrite Hy in Hrun. injection Hrun as <-.
    apply (Hput e' y (entry_attach cn y)); [done | done |]. intros _ Hc. unfold idle in Hidle. congruence.
  - destruct (entries r !! e') as [y|] eqn:Hy; [cbn in Hrun | done]. injection Hrun as <-. by apply (Hput e' y (shutdown_entry y)).
  - destruct (entries r !! e') as [y|] eqn:Hy; [cbn in Hrun | done]. unfold entry_detach, is_attached_to in Hrun.
    case_bool_decide as Hat; injection Hrun as <-; [| by apply Hsame].
    eapply (Hput e' y); [done | done |]. intros -> Hc. exfalso. apply Hne. congruence.
  - destruct (entries r !! e') as [y|] eqn:Hy; [cbn in Hrun | done]. injection Hrun as <-. by apply (Hput e' y (set_sender None y)).
  - destruct (wake <=? now r)%N; [| done]. destruct (holder r); [done|]. destruct (table r !! sid) as [e'|]; [| injection Hrun as <-; by apply Hsame].
    destruct (entries r !! e') as [y|] eqn:Hy; [cbn in Hrun | done].
    destruct (is_detached_connection_expired cn (now r) y); injection Hrun as <-; by apply Hsame.
  - destruct (entries r !! e') as [y|] eqn:Hy; [cbn in Hrun | done]. injection Hrun as <-. by apply (Hput e' y (shutdown_entry y)).
Qed.

(** What a step of the registry does to its calls. *)
Lemma run_call_calls r r' j c :
  run_call uuid j c r = Some r' →
  ∃ c' new, calls r' = <[j := c']> (calls r) ++ new ∧ next_conn r' = next_conn r ∧
    (∀ e conn, c' ≠ DetachEntry e conn) ∧ (∀ x, x ∈ new → ∃ sid conn wake, x = ExpireWait sid conn wake).
Proof.
  intros Hrun.
  assert (Hd : ∀ c', calls r' = <[j := c']> (calls r) → next_conn r' = next_conn r → (∀ e conn, c' ≠ DetachEntry e conn) →
    ∃ c' new, calls r' = <[j := c']> (calls r) ++ new ∧ next_conn r' = next_conn r ∧
    (∀ e conn, c' ≠ DetachEntry e conn) ∧ (∀ x, x ∈ new → ∃ sid conn wake, x = ExpireWait sid conn wake)).
  { intros c' H1 H2 H3. exists c', []. rewrite app_nil_r. split; [done|]. split; [done|]. split; [done|].
    intros x Hx. by apply elem_of_nil in Hx. }
  destruct c; cbn in Hrun; try done;
    repeat (match type of Hrun with context [match ?m with _ => _ end] => destruct m end; try done);
    try destruct (entries r !! _) eqn:?; cbn in Hrun; try done;
    repeat (match type of Hrun with context [if ?b then _ else _] => destruct b
            | context [match entry_detach ?a ?b ?c with _ => _ end] => destruct (entry_detach a b c) end; try done);
    injection Hrun as <-; try (eapply Hd; done).
  eexists Done, [_]. split; [done|]. split; [done|]. split; [done|]. intros x ->%list_elem_of_singleton. by do 3 eexists.
Qed.

(** ** The invariant *)

Definition conn_id (c : Conn) : option N :=
  match phase c with Attaching _ conn => Some conn | _ => snd <$> h_session (handler c) end.

Record conn_ok (r : Registry) (c : Conn) : Prop := {
  ok_next conn : conn_id c = Some conn → (conn < next_conn r)%N;
  ok_fresh : initialize_requested (handler c) = false ∨ (∃ k conn, phase c = Attaching k conn) →
    h_session (handler c) = None;
  ok_attaching k conn : phase c = Attaching k conn → ∃ a, calls r !! k = Some a ∧ attach_progress conn r a;
  ok_session e conn : phase c ≠ Gone → h_session (handler c) = Some (e, conn) →
    attached e conn r ∧ Attached e conn ∈ calls r;
  ok_replies : RequestReply (Err resumed_by_another) ∉ replies c;
  ok_requested k conn : phase c = Attaching k conn → initialize_requested (handler c) = true;
}.

Record SInv (s : Server) : Prop := {
  si_reg : Inv uuid (reg s);
  si_conns i c : conns s !! i = Some c → conn_ok (reg s) c;
  si_ids i j ci cj conn : conns s !! i = Some ci → conns s !! j = Some cj →
    conn_id ci = Some conn → conn_id cj = Some conn → i = j;
  si_calls i j ci cj k conn conn' : conns s !! i = Some ci → conns s !! j = Some cj →
    phase ci = Attaching k conn → phase cj = Attaching k conn' → i = j;
  si_detach e conn : DetachEntry e conn ∈ calls (reg s) →
    ∃ i c, conns s !! i = Some c ∧ phase c = Gone ∧ conn_id c = Some conn;
  si_used i e : (i, e) ∈ used s → ∃ c conn, conns s !! i = Some c ∧ h_session (handler c) = Some (e, conn) ∧
    initialized (handler c) = true;
}.

(** The registry moved under a connection. *)
Lemma conn_ok_mono r r' c :
  (next_conn r <= next_conn r')%N →
  (∀ k conn a, phase c = Attaching k conn → calls r !! k = Some a → attach_progress conn r a →
     ∃ a', calls r' !! k = Some a' ∧ attach_progress conn r' a') →
  (∀ e conn, phase c ≠ Gone → h_session (handler c) = Some (e, conn) → attached e conn r → attached e conn r') →
  (∀ e conn, Attached e conn ∈ calls r → Attached e conn ∈ calls r') →
  conn_ok r c → conn_ok r' c.
Proof.
  intros Hn Hk He Ha [O1 O2 O3 O4 O5 O6]. split; try done.
  - intros conn Hc. apply O1 in Hc. lia.
  - intros k conn Hp. destruct (O3 k conn Hp) as (a & H1 & H2). by eapply Hk.
  - intros e conn Hg Hs. destruct (O4 e conn Hg Hs). auto.
Qed.

Lemma conn_ok_append r r' c new :
  (next_conn r <= next_conn r')%N → entries r' = entries r → calls r' = calls r ++ new → conn_ok r c → conn_ok r' c.
Proof.
  intros Hn He Hc. assert (Hat : ∀ e conn, attached e conn r → attached e conn r').
  { intros e conn (x & Hx & Hcur). exists x. by rewrite He. }
  apply conn_ok_mono; [done | | auto | intros e conn Hin; rewrite Hc; apply elem_of_app; by left].
  intros k conn a _ Hk Hp. exists a. split; [rewrite Hc; by apply lookup_app_l_Some|].
  destruct a; try done. destruct Hp as [-> Hp]. split; [done | auto].
Qed.

Lemma attach_progress_step r r' j c conn :
  Inv uuid r → calls r !! j = Some c → run_call uuid j c r = Some r' → attach_progress conn r c →
  ∃ a, calls r' !! j = Some a ∧ attach_progress conn r' a.
Proof.
  intros I Hj Hrun Hp. assert (Hlt : j < length (calls r)) by by eapply lookup_lt_Some.
  assert (Hset : ∀ a r0, calls r0 = calls r → attach_progress conn (set_call j a r0) a →
    ∃ a', calls (set_call j a r0) !! j = Some a' ∧ attach_progress conn (set_call j a r0) a').
  { intros a r0 H0 Ha. exists a. cbn. rewrite H0. by rewrite list_lookup_insert_eq. }
  destruct c as [resume cn | sid e' cn | sid e' cn | e' cn | e' cn | sid e' | e' cn | err
                | e' cn | e' cn | sid cn wake | e' |]; cbn [run_call attach_progress] in Hrun, Hp; try done.
  - subst cn. destruct (holder r); [done|]. destruct resume as [sid|].
    + destruct (table r !! sid); injection Hrun as <-; by apply Hset.
    + injection Hrun as <-. apply Hset; [done|]. split; [done|]. eexists. cbn. by rewrite lookup_insert_eq.
  - subst cn. destruct (entries r !! e') as [y|]; [cbn in Hrun | done].
    destruct (is_expired (now r) y); injection Hrun as <-; by apply Hset.
  - subst cn. destruct (entries r !! e') as [y|]; [cbn in Hrun | done].
    destruct (has_active_connection y); injection Hrun as <-; by apply Hset.
  - subst cn. destruct (entries r !! e') as [y|]; [cbn in Hrun | done]. injection Hrun as <-. by apply Hset.
  - subst cn. destruct (entries r !! e') as [y|]; [cbn in Hrun | done]. injection Hrun as <-. apply Hset; [done|].
    split; [done|]. eexists. cbn. by rewrite lookup_insert_eq.
  - destruct (entries r !! e') as [y|]; [cbn in Hrun | done]. injection Hrun as <-. by apply Hset.
Qed.

Lemma sinv_registry s j r' : SInv s → run_choice uuid (RunCall j) (reg s) = Some r' → SInv (set_reg r' s).
Proof.
  intros S Hrun. pose proof (si_reg _ S) as I. assert (I' : Inv uuid r') by (apply (inv_registry_step uuid (reg s)); [done | by exists (RunCall j)]).
  cbn in Hrun. destruct (calls (reg s) !! j) as [c0|] eqn:Hj; [cbn in Hrun | done].
  destruct (run_call_calls _ _ _ _ Hrun) as (c' & new & Hcalls & Hnext & Hnd & Hnew).
  assert (Hlt : j < length (calls (reg s))) by by eapply lookup_lt_Some.
  assert (Hother : ∀ k a, k ≠ j → calls (reg s) !! k = Some a → calls r' !! k = Some a).
  { intros k a Hk Ha. rewrite Hcalls. apply lookup_app_l_Some. by rewrite list_lookup_insert_ne. }
  split; cbn; [done | | apply S | apply S | | apply S].
  - intros i c Hi. pose proof (si_conns _ S i c Hi) as O. apply (conn_ok_mono (reg s)); [by rewrite Hnext | | | | exact O].
    + intros k conn a Hp Ha Hprog. destruct (decide (k = j)) as [-> | Hne].
      * rewrite Hj in Ha. injection Ha as ->. by apply (attach_progress_step (reg s) r' j a conn).
      * exists a. split; [by apply Hother|]. destruct a; try done. destruct Hprog as [-> Hat]. split; [done|].
        eapply attached_kept; [exact I | exact Hj | exact Hrun | | done]. intros ->.
        destruct (si_detach _ S e conn) as (i' & ci & Hi' & Hg & Hid); [by eapply list_elem_of_lookup_2|].
        assert (i = i') as <-; [| congruence]. eapply (si_ids _ S i i'); [done | done | | done]. unfold conn_id. by rewrite Hp.
    + intros e conn Hg Hs Hat. eapply attached_kept; [exact I | exact Hj | exact Hrun | | done]. intros ->.
      destruct (si_detach _ S e conn) as (i' & ci & Hi' & Hg' & Hid); [by eapply list_elem_of_lookup_2|].
      assert (i = i') as <-; [| congruence]. eapply (si_ids _ S i i'); [done | done | | done].
      unfold conn_id. rewrite Hs. destruct (phase c) eqn:Hp; try done. rewrite (ok_fresh _ _ O) in Hs; [done|]. right. by do 2 eexists.
    + intros e conn [k Hk]%list_elem_of_lookup_1. destruct (decide (k = j)) as [-> | Hne].
      * rewrite Hj in Hk. injection Hk as ->. done.
      * eapply list_elem_of_lookup_2. by apply Hother.
  - intros e conn Hin. rewrite Hcalls in Hin. apply elem_of_app in Hin as [Hin | Hin].
    + apply list_elem_of_lookup_1 in Hin as [k Hk]. destruct (decide (k = j)) as [-> | Hne].
      * rewrite list_lookup_insert_eq in Hk by done. injection Hk as ->. by destruct (Hnd e conn).
      * rewrite list_lookup_insert_ne in Hk by done. apply (si_detach _ S e conn). by eapply list_elem_of_lookup_2.
    + destruct (Hnew _ Hin) as (? & ? & ? & ?). done.
Qed.

(** One connection moved, the registry with it. *)
Lemma sinv_update s i c c' r' u :
  SInv s → conns s !! i = Some c → phase c ≠ Gone → Inv uuid r' →
  (∀ j cj, j ≠ i → conns s !! j = Some cj → conn_ok (reg s) cj → conn_ok r' cj) → conn_ok r' c' →
  (conn_id c' = None ∨ conn_id c' = conn_id c ∨ conn_id c' = Some (next_conn (reg s))) →
  (∀ k conn, phase c' = Attaching k conn → k = length (calls (reg s))) →
  (∀ e conn, DetachEntry e conn ∈ calls r' →
     DetachEntry e conn ∈ calls (reg s) ∨ phase c' = Gone ∧ conn_id c' = Some conn) →
  (∀ e conn, h_session (handler c) = Some (e, conn) → initialized (handler c) = true →
     h_session (handler c') = Some (e, conn) ∧ initialized (handler c') = true) →
  (∀ x, x ∈ u → ∃ e conn, x = (i, e) ∧ h_session (handler c') = Some (e, conn) ∧ initialized (handler c') = true) →
  SInv (mkServer r' (<[i := c']> (conns s)) (used s ++ u)).
Proof.
  intros S Hi Hg I' Hothers Hc' Hid Hk Hdet Hkeep Hu.
  assert (Hlt : i < length (conns s)) by by eapply lookup_lt_Some.
  assert (Hlk : ∀ j cj, (<[i := c']> (conns s)) !! j = Some cj → j = i ∧ cj = c' ∨ j ≠ i ∧ conns s !! j = Some cj).
  { intros j cj Hj. destruct (decide (j = i)) as [-> | Hne].
    - rewrite list_lookup_insert_eq in Hj by done. left. split; congruence.
    - rewrite list_lookup_insert_ne in Hj by done. by right. }
  assert (Hfresh : ∀ j cj conn, j ≠ i → conns s !! j = Some cj → conn_id cj = Some conn → conn_id c' ≠ Some conn).
  { intros j cj conn Hne Hj Hcj Hc0. destruct Hid as [E | [E | E]]; rewrite E in Hc0; [done | |].
    - by apply Hne, (si_ids _ S j i cj c conn).
    - injection Hc0 as <-. apply (ok_next _ _ (si_conns _ S j cj Hj)) in Hcj. lia. }
  assert (Hkfresh : ∀ j cj k conn conn', j ≠ i → conns s !! j = Some cj → phase cj = Attaching k conn → phase c' ≠ Attaching k conn').
  { intros j cj k conn conn' Hne Hj Hcj Hc0. apply Hk in Hc0 as ->.
    destruct (ok_attaching _ _ (si_conns _ S j cj Hj) _ _ Hcj) as (a & Ha%lookup_lt_Some & _). lia. }
  split; cbn; [done | | | | |].
  - intros j cj Hj. destruct (Hlk _ _ Hj) as [[-> ->] | [Hne Hj']]; [done|]. apply (Hothers j); [done.. | by apply (si_conns _ S j)].
  - intros j1 j2 c1 c2 conn H1 H2 E1 E2.
    destruct (Hlk _ _ H1) as [[-> ->] | [Hn1 H1']], (Hlk _ _ H2) as [[-> ->] | [Hn2 H2']]; [done | | |].
    + by destruct (Hfresh j2 c2 conn Hn2 H2' E2).
    + by destruct (Hfresh j1 c1 conn Hn1 H1' E1).
    + by apply (si_ids _ S j1 j2 c1 c2 conn).
  - intros j1 j2 c1 c2 k conn conn' H1 H2 E1 E2.
    destruct (Hlk _ _ H1) as [[-> ->] | [Hn1 H1']], (Hlk _ _ H2) as [[-> ->] | [Hn2 H2']]; [done | | |].
    + by destruct (Hkfresh j2 c2 k conn' conn Hn2 H2' E2).
    + by destruct (Hkfresh j1 c1 k conn conn' Hn1 H1' E1).
    + by apply (si_calls _ S j1 j2 c1 c2 k conn conn').
  - intros e conn Hin. destruct (Hdet e conn Hin) as [Hin' | Hg'].
    + destruct (si_detach _ S e conn Hin') as (j & cj & Hj & Hgj & Hidj). exists j, cj.
      rewrite list_lookup_insert_ne; [done|]. intros ->. congruence.
    + exists i, c'. by rewrite list_lookup_insert_eq.
  - intros j e [Hin | Hin]%elem_of_app.
    + destruct (si_used _ S j e Hin) as (cj & conn & Hj & Hs & Hin'). destruct (decide (j = i)) as [-> | Hne].
      * assert (cj = c) as -> by congruence. destruct (Hkeep e conn Hs Hin'). exists c', conn.
        by rewrite list_lookup_insert_eq.
      * exists cj, conn. by rewrite list_lookup_insert_ne.
    + destruct (Hu _ Hin) as (e' & conn & [= -> ->] & H1 & H2). exists c', conn. by rewrite list_lookup_insert_eq.
Qed.

(** The common case: the registry is as it was. *)
Lemma sinv_conn s i c c' u :
  SInv s → conns s !! i = Some c → phase c ≠ Gone → conn_ok (reg s) c' → phase c' ≠ Gone →
  (∀ k conn, phase c' ≠ Attaching k conn) →
  (conn_id c' = None ∨ conn_id c' = conn_id c) →
  (∀ e conn, h_session (handler c) = Some (e, conn) → initialized (handler c) = true →
     h_session (handler c') = Some (e, conn) ∧ initialized (handler c') = true) →
  (∀ x, x ∈ u → ∃ e conn, x = (i, e) ∧ h_session (handler c') = Some (e, conn) ∧ initialized (handler c') = true) →
  SInv (mkServer (reg s) (<[i := c']> (conns s)) (used s ++ u)).
Proof.
  intros S Hi Hg Hc' Hg' Hna Hid Hkeep Hu.
  apply (sinv_update s i c); try done; [apply S | naive_solver | intros k conn E; by destruct (Hna k conn) | auto].
Qed.

(** A connection that keeps its handler and answers. *)
Lemma conn_ok_same r c p rs :
  conn_ok r c → (∀ k conn, phase c ≠ Attaching k conn) → phase c ≠ Gone → (∀ k conn, p ≠ Attaching k conn) →
  RequestReply (Err resumed_by_another) ∉ rs → conn_ok r (mkConn (handler c) p (replies c ++ rs)) ∧
  conn_id (mkConn (handler c) p (replies c ++ rs)) = conn_id c.
Proof.
  intros [O1 O2 O3 O4 O5 O6] Hna Hg Hp Hrs.
  assert (Hid : conn_id (mkConn (handler c) p (replies c ++ rs)) = conn_id c).
  { unfold conn_id. cbn. destruct p; try (by destruct (Hp call conn)); destruct (phase c); try done; by destruct (Hna call conn). }
  split; [| done]. split; cbn.
  - intros conn. rewrite Hid. apply O1.
  - intros [H | (k & conn & H)]; [apply O2; by left | by destruct (Hp k conn)].
  - intros k conn H. by destruct (Hp k conn).
  - intros e conn _. by apply O4.
  - intros [?|?]%elem_of_app; done.
  - intros k conn H. by destruct (Hp k conn).
Qed.

Lemma session_attached r c :
  conn_ok r c → phase c ≠ Gone →
  is_session_attached r (handler c) = true ∧
  (∀ e, require_session_attached r (handler c) = Err e → e ≠ resumed_by_another).
Proof.
  intros O Hg. unfold is_session_attached, require_session_attached.
  destruct (h_session (handler c)) as [[e conn]|] eqn:Hs.
  - destruct (ok_session _ _ O e conn Hg Hs) as [Hat%attached_is _]. by rewrite Hat.
  - split; [done|]. intros err [= <-] H. apply (f_equal (λ e, head (message e))) in H. vm_compute in H. discriminate H.
Qed.

Lemma require_initialized_error family r c e :
  conn_ok r c → phase c ≠ Gone → require_initialized_for family r (handler c) = Err e → e ≠ resumed_by_another.
Proof.
  intros O Hg. destruct (session_attached r c O Hg) as [_ Hr]. unfold require_initialized_for.
  assert (Hc : ∀ s, invalid_request (lit "client must" ++ s) ≠ resumed_by_another).
  { intros s H. apply (f_equal (λ e, head (message e))) in H. vm_compute in H. discriminate H. }
  destruct (negb (initialize_requested (handler c))).
  - intros [= <-]. apply (Hc (lit " call initialize before using " ++ family ++ lit " methods")).
  - destruct (require_session_attached r (handler c)) as [session | err] eqn:Hs; cbn.
    + destruct (negb (initialized (handler c))); [| done]. intros [= <-].
      apply (Hc (lit " send initialized before using " ++ family ++ lit " methods")).
    + intros [= <-]. by apply Hr.
Qed.

Lemma require_initialized_ok family r h session :
  require_initialized_for family r h = Ok session → h_session h = Some session ∧ initialized h = true.
Proof.
  unfold require_initialized_for, require_session_attached. destruct (negb (initialize_requested h)); [done|].
  destruct (h_session h) as [s|]; [| done]. destruct (is_attached r s); [cbn | done].
  destruct (initialized h); [| done]. by intros [= <-].
Qed.

Lemma sinv_receive s i c ev r' c' u :
  SInv s → conns s !! i = Some c → phase c = Receiving → receive ev (reg s) c = (r', c', u) →
  SInv (mkServer r' (<[i := c']> (conns s)) (used s ++ match u with Some e => [(i, e)] | None => [] end)).
Proof.
  intros S Hi Hp Hrec. pose proof (si_conns _ S i c Hi) as O.
  assert (Hg : phase c ≠ Gone) by congruence. assert (Hna : ∀ k conn, phase c ≠ Attaching k conn) by congruence.
  destruct (session_attached _ _ O Hg) as [Hat Hreq].
  assert (Hreply : ∀ p rs, (∀ k conn, p ≠ Attaching k conn) → p ≠ Gone → RequestReply (Err resumed_by_another) ∉ rs →
    SInv (mkServer (reg s) (<[i := mkConn (handler c) p (replies c ++ rs)]> (conns s)) (used s ++ []))).
  { intros p rs Hpa Hpg Hrs. destruct (conn_ok_same (reg s) c p rs O Hna Hg Hpa Hrs) as [O' Hid].
    apply (sinv_conn s i c); [exact S | exact Hi | done | done | done | done | by right | auto |]. intros x Hx. by apply elem_of_nil in Hx. }
  assert (Hone : ∀ rp, rp ≠ RequestReply (Err resumed_by_another) → RequestReply (Err resumed_by_another) ∉ [rp]).
  { intros rp Hne Hin%list_elem_of_singleton. by apply Hne. }
  assert (Hnil : RequestReply (Err resumed_by_another) ∉ []) by apply not_elem_of_nil.
  assert (Hleave : SInv (mkServer (reg s) (<[i := mkConn (handler c) Leaving (replies c)]> (conns s)) (used s ++ []))).
  { specialize (Hreply Leaving []). rewrite (app_nil_r (replies c)) in Hreply. by apply Hreply. }
  unfold receive in Hrec. rewrite Hat in Hrec. cbn [negb] in Hrec.
  destruct ev as [resume | | family read | method | reason | |].
  - destruct (initialize_requested (handler c)) eqn:Hir.
    + injection Hrec as <- <- <-. apply Hreply; [done | done | by apply Hone].
    + cbn in Hrec. injection Hrec as <- <- <-. assert (Hns : h_session (handler c) = None) by (apply (ok_fresh _ _ O); by left).
      set (r' := mkRegistry _ _ _ _ _ _ _). assert (I' : Inv uuid r').
      { apply (inv_registry_step uuid (reg s)); [apply S | by exists (NewAttach resume)]. }
      apply (sinv_update s i c); try done.
      * intros j cj _ _. apply (conn_ok_append _ _ _ [AttachWait resume (next_conn (reg s))]); [cbn; lia | done | done].
      * split; cbn; [intros conn [= <-]; cbn; lia | done | | congruence | apply O | done].
        intros k conn [= <- <-]. exists (AttachWait resume (next_conn (reg s))). split; [| done].
        by rewrite lookup_app_r, Nat.sub_diag by lia.
      * right. by right.
      * by intros k conn [= <- _].
      * intros e conn. cbn. rewrite elem_of_app, list_elem_of_singleton. intros [? | ?]; [by left | done].
      * intros x Hx. by apply elem_of_nil in Hx.
  - unfold handle_initialized in Hrec. destruct (negb (initialize_requested (handler c))) eqn:Hir; [by injection Hrec as <- <- <-|].
    destruct (require_session_attached (reg s) (handler c)) eqn:Hrs; injection Hrec as <- <- <-; [| done].
    apply (sinv_conn s i c); try done.
    + destruct O as [O1 O2 O3 O4 O5 O6]. split; cbn; try done.
      * unfold conn_id in O1. by rewrite Hp in O1.
      * intros [H | (k & conn & H)]; [apply O2; by left | done].
      * intros e conn _. by apply O4.
    + right. unfold conn_id. cbn. by rewrite Hp.
    + intros x Hx. by apply elem_of_nil in Hx.
  - destruct (require_initialized_for family (reg s) (handler c)) as [session | err] eqn:Hreq'; injection Hrec as <- <- <-.
    + destruct (require_initialized_ok _ _ _ _ Hreq') as [Hs Hin].
      destruct (conn_ok_same (reg s) c (Serving read) [] O Hna Hg) as [O' Hid]; [done | done |]. rewrite app_nil_r in O', Hid.
      apply (sinv_conn s i c); [exact S | exact Hi | done | done | done | done | by right | auto |].
      intros x ->%list_elem_of_singleton. exists session.1, session.2. split; [done|]. cbn. by destruct session.
    + apply Hreply; [done | done |]. apply Hone. intros [= H]. by apply (require_initialized_error family (reg s) c err).
  - injection Hrec as <- <- <-. apply Hreply; [done | done | by apply Hone].
  - injection Hrec as <- <- <-. apply Hreply; [done | done | by apply Hone].
  - by injection Hrec as <- <- <-.
  - by injection Hrec as <- <- <-.
Qed.

Lemma sinv_finish_attach s i c k cn c' :
  SInv s → conns s !! i = Some c → phase c = Attaching k cn → finish_attach k (reg s) c = Some c' →
  SInv (mkServer (reg s) (<[i := c']> (conns s)) (used s ++ [])).
Proof.
  intros S Hi Hp Hf. pose proof (si_conns _ S i c Hi) as O. assert (Hg : phase c ≠ Gone) by congruence.
  assert (Hns : h_session (handler c) = None) by (apply (ok_fresh _ _ O); right; by do 2 eexists).
  assert (Hnext : (cn < next_conn (reg s))%N) by (apply (ok_next _ _ O); unfold conn_id; by rewrite Hp).
  destruct (ok_attaching _ _ O k cn Hp) as (a & Ha & Hprog). unfold finish_attach in Hf. rewrite Ha in Hf.
  assert (Hrep : ∀ rp, (∀ r, rp ≠ RequestReply r) → RequestReply (Err resumed_by_another) ∉ replies c ++ [rp]).
  { intros rp Hne [Hin | Hin%list_elem_of_singleton]%elem_of_app; [by apply (ok_replies _ _ O)|]. by eapply Hne. }
  destruct a as [| | | | | | e conn | err | | | | |]; try done.
  - destruct Hprog as [-> Hat]. destruct (entries (reg s) !! e) as [x|]; [cbn in Hf | done]. injection Hf as <-.
    apply (sinv_conn s i c); try done; [| right; unfold conn_id; by rewrite Hp | congruence | by intros x0 ?%elem_of_nil].
    split; cbn; try done.
    + by intros conn [= <-].
    + intros [H | (k' & conn & H)]; [| done]. exfalso. by rewrite (ok_requested _ _ O k cn Hp) in H.
    + intros e' conn' _ [= <- <-]. split; [done|]. by eapply list_elem_of_lookup_2.
    + by apply Hrep.
  - injection Hf as <-.
    apply (sinv_conn s i c); try done; [| left; unfold conn_id; cbn; by rewrite Hns | by intros x0 ?%elem_of_nil].
    split; cbn; try done.
    + unfold conn_id. cbn. by rewrite Hns.
    + congruence.
    + by apply Hrep.
Qed.

Lemma sinv_accept s :
  SInv s → SInv (mkServer (reg s) (conns s ++ [mkConn handler_new Receiving []]) (used s)).
Proof.
  intros S.
  assert (Hlk : ∀ j cj, (conns s ++ [mkConn handler_new Receiving []]) !! j = Some cj →
    conns s !! j = Some cj ∨ cj = mkConn handler_new Receiving []).
  { intros j cj [[_ ?] | [_ <-]]%lookup_snoc_Some; auto. }
  split; cbn; [apply S | | | | |].
  - intros i c Hi. destruct (Hlk i c Hi) as [? | ->]; [by apply (si_conns _ S i)|]. split; try done. apply not_elem_of_nil.
  - intros i j ci cj conn Hi Hj Ei Ej. destruct (Hlk i ci Hi) as [Hi' | ->]; [| done]. destruct (Hlk j cj Hj) as [Hj' | ->]; [| done].
    by apply (si_ids _ S i j ci cj conn).
  - intros i j ci cj k conn conn' Hi Hj Ei Ej. destruct (Hlk i ci Hi) as [Hi' | ->]; [| done]. destruct (Hlk j cj Hj) as [Hj' | ->]; [| done].
    by apply (si_calls _ S i j ci cj k conn conn').
  - intros e conn Hin. destruct (si_detach _ S e conn Hin) as (i & c & Hi & H). exists i, c. split; [| done]. by apply lookup_app_l_Some.
  - intros i e Hin. destruct (si_used _ S i e Hin) as (c & conn & Hi & H). exists c, conn. split; [| done]. by apply lookup_app_l_Some.
Qed.

Lemma sinv_finish_request s i c read :
  SInv s → conns s !! i = Some c → phase c = Serving read → SInv (set_conn i (finish_request read (reg s) c) s).
Proof.
  intros S Hi Hp. pose proof (si_conns _ S i c Hi) as O. assert (Hg : phase c ≠ Gone) by congruence.
  destruct (session_attached _ _ O Hg) as [_ Hreq].
  unfold set_conn, finish_request. rewrite <-(app_nil_r (used s)).
  match goal with |- context [replies c ++ ?rs] => destruct (conn_ok_same (reg s) c Receiving rs O) as [O' Hid] end;
    [congruence | done | done | |].
  - intros Hin%list_elem_of_singleton. destruct read; [| done].
    destruct (require_session_attached (reg s) (handler c)) as [x | e] eqn:E; [done|]. injection Hin as <-.
    by apply (Hreq resumed_by_another).
  - apply (sinv_conn s i c); [exact S | exact Hi | done | done | done | done | by right | auto | by intros x ?%elem_of_nil].
Qed.

Lemma sinv_break s i c :
  SInv s → conns s !! i = Some c → (∀ k cn, phase c ≠ Attaching k cn) → phase c ≠ Gone →
  SInv (set_conn i (mkConn (handler c) Leaving (replies c)) s).
Proof.
  intros S Hi Hna Hg. pose proof (si_conns _ S i c Hi) as O.
  destruct (conn_ok_same (reg s) c Leaving [] O) as [O' Hid]; [done | done | done | apply not_elem_of_nil |].
  rewrite app_nil_r in O', Hid. unfold set_conn. rewrite <-(app_nil_r (used s)).
  apply (sinv_conn s i c); [exact S | exact Hi | done | done | done | done | by right | auto | by intros x ?%elem_of_nil].
Qed.

Lemma sinv_drop s s' i c k cn a :
  SInv s → conns s !! i = Some c → phase c = Attaching k cn → calls (reg s) !! k = Some a →
  match a with AttachWait _ _ | AttachShutdown _ _ => Some (set_call k Done (reg s)) | _ => None end
    ≫= (λ r, Some (set_conn i (mkConn (handler c) Leaving (replies c)) (set_reg r s))) = Some s' →
  SInv s'.
Proof.
  intros S Hi Hp Ha Hrun. pose proof (si_conns _ S i c Hi) as O. assert (Hg : phase c ≠ Gone) by congruence.
  assert (Hns : h_session (handler c) = None) by (apply (ok_fresh _ _ O); right; by do 2 eexists).
  assert (Hlt : k < length (calls (reg s))) by by eapply lookup_lt_Some.
  assert (I' : match a with AttachWait _ _ | AttachShutdown _ _ => true | _ => false end = true → Inv uuid (set_call k Done (reg s))).
  { intros Hw. apply (inv_registry_step uuid (reg s)); [apply S|]. exists (DropAttach k). cbn. rewrite Ha. by destruct a. }
  assert (Hw : match a with AttachWait _ _ | AttachShutdown _ _ => true | _ => false end = true) by by destruct a.
  assert (s' = set_conn i (mkConn (handler c) Leaving (replies c)) (set_reg (set_call k Done (reg s)) s)) as -> by (destruct a; cbn in Hrun; congruence).
  unfold set_conn, set_reg. cbn. rewrite <-(app_nil_r (used s)).
  assert (Hin : ∀ e conn, Attached e conn ∈ calls (reg s) → Attached e conn ∈ <[k := Done]> (calls (reg s))).
  { intros e conn [j Hj]%list_elem_of_lookup_1. apply list_elem_of_lookup. exists j. rewrite list_lookup_insert_ne; [done|].
    intros ->. rewrite Ha in Hj. injection Hj as ->. done. }
  apply (sinv_update s i c); [exact S | exact Hi | done | by apply I' | | | | done | | congruence | by intros x ?%elem_of_nil].
  - intros j cj Hne Hj. apply conn_ok_mono; [done | | done | exact Hin].
    intros k' conn a' Hp' Ha' Hprog. destruct (decide (k' = k)) as [-> | Hk]; [| exists a'; cbn; by rewrite list_lookup_insert_ne].
    by destruct Hne; apply (si_calls _ S j i cj c k conn cn).
  - split; cbn; try done; [by unfold conn_id; cbn; rewrite Hns | congruence | apply O].
  - left. unfold conn_id. cbn. by rewrite Hns.
  - intros e conn Hd. left. cbn in Hd. apply list_elem_of_lookup_1 in Hd as [j Hj]. apply list_elem_of_lookup. exists j.
    destruct (decide (j = k)) as [-> | Hne]; [by rewrite list_lookup_insert_eq in Hj by done|]. by rewrite list_lookup_insert_ne in Hj.
Qed.

Lemma sinv_leave s s' i c :
  SInv s → conns s !! i = Some c → phase c = Leaving →
  (let '(r, c') := shut_down_handler (reg s) c in Some (set_conn i c' (set_reg r s))) = Some s' → SInv s'.
Proof.
  intros S Hi Hp Hrun. pose proof (si_conns _ S i c Hi) as O. assert (Hg : phase c ≠ Gone) by congruence.
  set (c' := mkConn (handler c) Gone (replies c)).
  assert (Hid : conn_id c' = conn_id c) by (unfold conn_id; cbn; by rewrite Hp).
  unfold shut_down_handler in Hrun. destruct (h_session (handler c)) as [[e conn]|] eqn:Hs; injection Hrun as <-;
    unfold set_conn, set_reg; cbn [reg conns used]; rewrite <-(app_nil_r (used s)).
  - destruct (ok_session _ _ O e conn Hg Hs) as [Hat Hin].
    assert (Hd : run_choice uuid (NewDetach e conn) (reg s) = Some (add_call (DetachEntry e conn) (reg s))).
    { cbn. by rewrite bool_decide_true. }
    rewrite bool_decide_true by done. cbn [default].
    assert (Happ : ∀ cj, conn_ok (reg s) cj → conn_ok (add_call (DetachEntry e conn) (reg s)) cj).
    { intros cj. by apply (conn_ok_append _ _ _ [DetachEntry e conn]). }
    apply (sinv_update s i c); [exact S | exact Hi | done | | auto | | by right; left | done | | auto | by intros x ?%elem_of_nil].
    + apply (inv_registry_step uuid (reg s)); [apply S | by exists (NewDetach e conn)].
    + destruct (Happ c O) as [O1 O2 O3 O4 O5 O6]. split; cbn; try done; [intros cn Hcn; apply O1; by rewrite <-Hid|].
      intros [H | (k & cn & H)]; [apply O2; by left | done].
    + intros e' conn'. cbn. rewrite elem_of_app, list_elem_of_singleton. intros [? | [= -> ->]]; [by left|]. right.
      split; [done|]. unfold conn_id. cbn. by rewrite Hs.
  - apply (sinv_update s i c); [exact S | exact Hi | done | apply S | auto | | by right; left | done | auto | auto | by intros x ?%elem_of_nil].
    destruct O as [O1 O2 O3 O4 O5 O6]. split; cbn; try done. intros cn Hcn. apply O1. by rewrite <-Hid.
Qed.

Lemma sinv_wait s ms :
  SInv s → SInv (set_reg (mkRegistry (table (reg s)) (entries (reg s)) (next_entry (reg s)) (next_conn (reg s)) (now (reg s) + ms)%N
                            (holder (reg s)) (calls (reg s))) s).
Proof.
  intros S. split; cbn; [| | apply S | apply S | apply S | apply S].
  - apply (inv_registry_step uuid (reg s)); [apply S | by exists (Tick ms)].
  - intros i c Hi. apply (conn_ok_append (reg s) _ _ []); [done | done | by rewrite app_nil_r | by apply (si_conns _ S i)].
Qed.

Lemma sinv_step s s' : SInv s → server_step s s' → SInv s'.
Proof.
  intros S (ch & Hrun). destruct ch as [| i ev | i | i | i | i | j | ms]; cbn [run_server] in Hrun.
  - injection Hrun as <-. apply sinv_accept. done.
  - destruct (conns s !! i) as [c|] eqn:Hi; [cbn in Hrun | done]. destruct (phase c) eqn:Hp; try done.
    destruct (receive ev (reg s) c) as [[r' c'] u] eqn:Hrec. injection Hrun as <-. by eapply sinv_receive.
  - destruct (conns s !! i) as [c|] eqn:Hi; [cbn in Hrun | done]. destruct (phase c) as [| k cn | | |] eqn:Hp; try done.
    destruct (finish_attach k (reg s) c) as [c'|] eqn:Hf; [| done]. injection Hrun as <-.
    unfold set_conn. rewrite <-(app_nil_r (used s)). by eapply sinv_finish_attach.
  - destruct (conns s !! i) as [c|] eqn:Hi; [cbn in Hrun | done]. destruct (phase c) as [| | read | |] eqn:Hp; try done.
    injection Hrun as <-. by eapply sinv_finish_request.
  - destruct (conns s !! i) as [c|] eqn:Hi; [cbn in Hrun | done]. destruct (phase c) as [| k cn | read | |] eqn:Hp; try done.
    + injection Hrun as <-. eapply sinv_break; [done | done | congruence | congruence].
    + destruct (calls (reg s) !! k) as [a|] eqn:Ha; [cbn in Hrun | done]. by eapply sinv_drop.
    + injection Hrun as <-. eapply sinv_break; [done | done | congruence | congruence].
  - destruct (conns s !! i) as [c|] eqn:Hi; [cbn in Hrun | done]. destruct (phase c) eqn:Hp; try done.
    by eapply sinv_leave.
  - destruct (run_choice uuid (RunCall j) (reg s)) as [r'|] eqn:E; [| done]. injection Hrun as <-. by eapply sinv_registry.
  - injection Hrun as <-. by apply sinv_wait.
Qed.

Lemma server_inv s : rtc server_step server_new s → SInv s.
Proof.
  apply (rtc_ind_r SInv); [| intros s1 s2 _ H S; by eapply sinv_step].
  split; cbn; try done.
  - by intros e conn ?%elem_of_nil.
  - by intros i e ?%elem_of_nil.
Qed.

(** ** Theorem *)

(** C26: A session belongs to one connection at a time, from [initialize] until the connection
    itself leaves: its entry stays in the table, attached and not shut down, whatever
    other connections resume, expire or drop meanwhile; no two open connections have the
    same session; a request uses the session of its own connection, after [initialized];
    and no request is ever answered that the session was resumed by another connection. *)
Theorem session_exclusive s :
  rtc server_step server_new s →
  (∀ i c e conn, conns s !! i = Some c → phase c ≠ Gone → h_session (handler c) = Some (e, conn) →
     ∃ x, entries (reg s) !! e = Some x ∧ is_attached_to conn x = true ∧ shut_down x = false ∧
       table (reg s) !! session_id x = Some e) ∧
  (∀ i j ci cj e conn conn', conns s !! i = Some ci → conns s !! j = Some cj → phase ci ≠ Gone → phase cj ≠ Gone →
     h_session (handler ci) = Some (e, conn) → h_session (handler cj) = Some (e, conn') → i = j) ∧
  (∀ i e, (i, e) ∈ used s → ∃ c conn, conns s !! i = Some c ∧ h_session (handler c) = Some (e, conn) ∧
     initialized (handler c) = true) ∧
  (∀ i c, conns s !! i = Some c → RequestReply (Err resumed_by_another) ∉ replies c).
Proof.
  intros Hr. pose proof (server_inv _ Hr) as S.
  assert (Hid : ∀ i c e conn, conns s !! i = Some c → h_session (handler c) = Some (e, conn) → conn_id c = Some conn).
  { intros i c e conn Hi Hs. pose proof (si_conns _ S i c Hi) as O. unfold conn_id. rewrite Hs.
    destruct (phase c) eqn:Hp; try done. rewrite (ok_fresh _ _ O) in Hs; [done|]. right. by do 2 eexists. }
  split; [| split; [| split]].
  - intros i c e conn Hi Hg Hs. destruct (ok_session _ _ (si_conns _ S i c Hi) e conn Hg Hs) as [(x & Hx & Hcur) _].
    assert (Hat : is_attached_to conn x = true) by (by apply bool_decide_eq_true).
    destruct (attached_listed uuid _ _ _ _ (si_reg _ S) Hx Hat) as (Ht & Hsd & _). by exists x.
  - intros i j ci cj e conn conn' Hi Hj Hgi Hgj Hsi Hsj.
    destruct (ok_session _ _ (si_conns _ S i ci Hi) e conn Hgi Hsi) as [(x & Hx & Hc) _].
    destruct (ok_session _ _ (si_conns _ S j cj Hj) e conn' Hgj Hsj) as [(x' & Hx' & Hc') _].
    assert (conn' = conn) as -> by congruence.
    eapply (si_ids _ S i j ci cj conn); [done | done | by eapply Hid | by eapply Hid].
  - apply S.
  - intros i c Hi. apply (si_conns _ S i c Hi).
Qed.

End Server.

(** ** A run *)

Fixpoint run_all (cs : list server_choice) (s : Server) : option Server :=
  match cs with [] => Some s | c :: cs => s' ← run_server demo_uuid c s; run_all cs s' end.

Lemma run_all_reachable cs : ∀ s s', run_all cs s = Some s' → rtc (server_step demo_uuid) s s'.
Proof.
  induction cs as [| c cs IH]; intros s s' H; cbn in H; [by injection H as ->|].
  destruct (run_server demo_uuid c s) as [s1|] eqn:E; [| done]. eapply rtc_l; [by exists c | by apply IH].
Qed.

(** A connection creates a session and uses it; a second fails to resume it, waits until
    the first has left, resumes it and uses it in turn. *)
Definition handover : list server_choice :=
  [Accept; Receive 0 (InInitialize None); RunRegistry 0; FinishAttach 0; Receive 0 InInitialized;
   Receive 0 (InRequest (lit "exec") true); FinishRequest 0;
   Accept; Receive 1 (InInitialize (Some [0%N])); RunRegistry 1; RunRegistry 1; RunRegistry 1; FinishAttach 1;
   Receive 0 InDisconnected; Leave 0; RunRegistry 2; RunRegistry 2;
   Receive 1 (InInitialize (Some [0%N])); RunRegistry 4; RunRegistry 4; RunRegistry 4; RunRegistry 4; RunRegistry 4; FinishAttach 1;
   Receive 1 InInitialized; Wait 10000; RunRegistry 3; Receive 1 (InRequest (lit "exec") true)].

Definition handed_over : Server := default server_new (run_all handover server_new).

Lemma session_exclusive_witness :
  used handed_over = [(0, 0%N); (1, 0%N)] ∧
  ∃ x, entries (reg handed_over) !! 0%N = Some x ∧ is_attached_to 2 x = true ∧ shut_down x = false ∧
    table (reg handed_over) !! session_id x = Some 0%N.
Proof.
  assert (Hr : run_all handover server_new = Some handed_over) by (vm_compute; reflexivity).
  assert (Hc : ∃ c, conns handed_over !! 1 = Some c ∧ phase c = Serving true ∧ h_session (handler c) = Some (0%N, 2%N)).
  { eexists. split; [vm_compute; reflexivity|]. split; reflexivity. }
  split; [vm_compute; reflexivity|]. destruct Hc as (c & Hc & Hp & Hs).
  destruct (session_exclusive demo_uuid handed_over (run_all_reachable _ _ _ Hr)) as [H _].
  apply (H 1 c 0%N 2%N); [exact Hc | rewrite Hp; discriminate | exact Hs].
Defined.
