(* ===== verification/ExecStream.v ===== *)
(** * Streaming the output of a unified exec process

    [core/src/unified_exec/async_watcher.rs] with [process_state.rs]: the task that
    receives the output of a process, keeps a transcript and sends output events, and the
    event that ends the call.

    The task waits for a chunk, for the cancellation that the exit causes, or for the end
    of a grace period after it; what comes next is an [Input].  The session that takes the
    events is seen through the list of events it was sent. *)

From S2P Require Import Prelude RustStr Utf8Stream HeadTail.

(** ** Cutting at UTF-8 boundaries *)

Definition UNIFIED_EXEC_OUTPUT_DELTA_MAX_BYTES : nat := N.to_nat 8192.
Definition MAX_EXEC_OUTPUT_DELTAS_PER_CALL : nat := N.to_nat 10000.

(** The loop of [split_valid_utf8_prefix_with_max], from [split] down. *)
Fixpoint find_split (buffer : list N) (max_len split : nat) : option nat :=
  match split with
  | O => None
  | S split' =>
      if is_ok (from_utf8 (take split buffer)) then Some split
      else if Nat.ltb 4 (max_len - split) then None
      else find_split buffer max_len split'
  end.

(** The prefix and what stays in the buffer. *)
Definition split_valid_utf8_prefix_with_max (buffer : list N) (max_bytes : nat) : option (list N * list N) :=
  match buffer with
  | [] => None
  | _ =>
      let max_len := Nat.min (length buffer) max_bytes in
      match find_split buffer max_len max_len with
      | Some split => Some (take split buffer, drop split buffer)
      | None => Some (take 1 buffer, drop 1 buffer)
      end
  end.

Definition split_valid_utf8_prefix (buffer : list N) : option (list N * list N) :=
  split_valid_utf8_prefix_with_max buffer UNIFIED_EXEC_OUTPUT_DELTA_MAX_BYTES.

(** ** The streaming task *)

Inductive Input := Cancelled | GraceOver | Chunk (chunk : list N) | LaggedBy (n : N) | ChannelClosed.

(** [pieces] is a history variable: what was added to the transcript. *)
Record Streamer := mkStreamer {
  pending : list N;
  transcript : HeadTailBuffer;
  deltas : list (list N);
  grace : bool;
  output_drained : bool;
  pieces : list (list N);
}.

Definition streamer_new : Streamer := mkStreamer [] default_buffer [] false false [].

(** The loop of [process_chunk]; the fuel is the length of the buffer, each iteration
    takes a byte at least. *)
Fixpoint process_pending (fuel : nat) (s : Streamer) : Streamer :=
  match fuel with
  | O => s
  | S fuel =>
      match split_valid_utf8_prefix (pending s) with
      | None => s
      | Some (prefix, rest) =>
          let deltas' := if Nat.leb MAX_EXEC_OUTPUT_DELTAS_PER_CALL (length (deltas s)) then deltas s
                         else deltas s ++ [prefix] in
          process_pending fuel
            (mkStreamer rest (push_chunk prefix (transcript s)) deltas' (grace s) (output_drained s)
               (pieces s ++ [prefix]))
      end
  end.

Definition process_chunk (chunk : list N) (s : Streamer) : Streamer :=
  let buffer := pending s ++ chunk in
  process_pending (length buffer)
    (mkStreamer buffer (transcript s) (deltas s) (grace s) (output_drained s) (pieces s)).

(** One turn of the loop of [start_streaming_output]; [None] when the branch is disabled
    or the loop is over. *)
Definition streamer_step (i : Input) (s : Streamer) : option Streamer :=
  if output_drained s then None
  else
    let finish := mkStreamer (pending s) (transcript s) (deltas s) (grace s) true (pieces s) in
    match i with
    | Cancelled =>
        if grace s then None
        else Some (mkStreamer (pending s) (transcript s) (deltas s) true (output_drained s) (pieces s))
    | GraceOver => if grace s then Some finish else None
    | Chunk chunk => Some (process_chunk chunk s)
    | LaggedBy _ => Some s
    | ChannelClosed => Some finish
    end.

Definition run_streamer (inputs : list Input) (s : Streamer) : Streamer :=
  fold_left (λ s i, default s (streamer_step i s)) inputs s.

(** The chunks the task takes before its loop is over. *)
Fixpoint taken (inputs : list Input) (grace : bool) : list (list N) :=
  match inputs with
  | [] => []
  | Cancelled :: inputs => taken inputs true
  | GraceOver :: inputs => if grace then [] else taken inputs grace
  | Chunk chunk :: inputs => chunk :: taken inputs grace
  | LaggedBy _ :: inputs => taken inputs grace
  | ChannelClosed :: _ => []
  end.

(** ** The end of the call *)

(** [String::from_utf8_lossy]: each maximal invalid sequence is replaced by U+FFFD. *)
Fixpoint utf8_lossy (fuel : nat) (bs : list N) : str :=
  match fuel with
  | O => []
  | S fuel =>
      match decode bs with
      | (t, _, Complete) => t
      | (t, _, NeedMore) => t ++ [65533%N]
      | (t, rest, Bad n) => t ++ 65533%N :: utf8_lossy fuel (drop (N.to_nat n) rest)
      end
  end.

Definition from_utf8_lossy (bs : list N) : str := utf8_lossy (S (length bs)) bs.

Record ProcessState := mkState { has_exited : bool; exit_code : option Z; failure_message : option str }.

Definition default_state : ProcessState := mkState false None None.
Definition exited (code : option Z) (s : ProcessState) : ProcessState := mkState true code (failure_message s).
Definition failed (message : str) (s : ProcessState) : ProcessState := mkState true (exit_code s) (Some message).

Record ExecToolCallOutput := mkOutput {
  out_exit_code : Z;
  out_stdout : str;
  out_stderr : str;
  aggregated_output : str;
}.

Inductive ExecEnd := EndSuccess (output : ExecToolCallOutput) | EndFailure (output : ExecToolCallOutput).

Definition resolve_aggregated_output (transcript : HeadTailBuffer) (fallback : str) : str :=
  if (retained_bytes transcript =? 0)%N then fallback else from_utf8_lossy (to_bytes transcript).

Definition emit_exec_end_for_unified_exec (transcript : HeadTailBuffer) (fallback_output : str) (code : Z) : ExecEnd :=
  let aggregated := resolve_aggregated_output transcript fallback_output in
  EndSuccess (mkOutput code aggregated [] aggregated).

Definition emit_failed_exec_end_for_unified_exec (transcript : HeadTailBuffer) (fallback_output message : str) : ExecEnd :=
  let stdout := if is_empty fallback_output then resolve_aggregated_output transcript fallback_output
                else fallback_output in
  let aggregated := if is_empty stdout then message else stdout ++ 10%N :: message in
  EndFailure (mkOutput (-1) stdout message aggregated).

(** [spawn_exit_watcher], once the process is cancelled and its output drained. *)
Definition exit_event (s : Streamer) (state : ProcessState) : ExecEnd :=
  match failure_message state with
  | Some message => emit_failed_exec_end_for_unified_exec (transcript s) [] message
  | None => emit_exec_end_for_unified_exec (transcript s) [] (default (-1)%Z (exit_code state))
  end.

(** ** Lemmas *)

Definition valid_utf8 (bs : list N) : Prop := ∃ s, from_utf8 bs = Ok s.

Lemma is_ok_valid bs : is_ok (from_utf8 bs) = true ↔ valid_utf8 bs.
Proof.
  unfold valid_utf8. destruct (from_utf8 bs); cbn; split; [intros _; by eexists | done | done | intros [s Hs]; done].
Qed.

(** A piece of a valid text that begins at a boundary leaves a valid text. *)
Lemma valid_drop n bs : valid_utf8 bs → valid_utf8 (take n bs) → valid_utf8 (drop n bs).
Proof.
  intros [s Hs%from_utf8_Ok] [t Ht%from_utf8_Ok]. pose proof (decode_app (take n bs) (drop n bs)) as H.
  rewrite Ht, take_drop, Hs in H. cbn in H. destruct (decode (drop n bs)) as [[t2 r2] s2] eqn:E.
  injection H as -> <- <-. exists t2. by apply from_utf8_Ok.
Qed.

(** An incomplete code point has at most three bytes. *)
Lemma need_more_length bs : decode bs = ([], bs, NeedMore) → length bs ≤ 3.
Proof.
  destruct bs as [| b0 [| b1 [| b2 [| b3 r]]]]; cbn [length]; try lia. intros H. exfalso. cbn [decode] in H.
  repeat first
    [ discriminate H
    | match type of H with cons_char _ ?r = _ => destruct r as [[? ?] ?]; discriminate H end
    | match type of H with (if ?b then _ else _) = _ => destruct b end ].
Qed.

(** Within four bytes before any place of a valid text there is a boundary. *)
Lemma boundary_near n bs :
  valid_utf8 bs → n ≤ length bs → ∃ k, k ≤ 3 ∧ k ≤ n ∧ valid_utf8 (take (n - k) bs).
Proof.
  intros [s Hs%from_utf8_Ok] Hn. pose proof (decode_app (take n bs) (drop n bs)) as H. rewrite take_drop, Hs in H.
  pose proof (decode_split (take n bs)) as Hsp. pose proof (decode_rest (take n bs)) as Hrest.
  destruct (decode (take n bs)) as [[t rest] st] eqn:E.
  destruct Hsp as (pre & Hpre & Hd & _ & Hc).
  assert (Hlen : length rest ≤ 3).
  { destruct st; [rewrite (Hc eq_refl); cbn; lia | by apply need_more_length, Hrest | discriminate H]. }
  assert (Htot : n = length pre + length rest).
  { rewrite <-length_app, <-Hpre, length_take. lia. }
  exists (length rest). split; [done|]. split; [lia|].
  assert (take (n - length rest) bs = pre) as ->.
  { replace (n - length rest) with (length pre) by lia.
    assert (take (length pre) bs = take (length pre) (take n bs)) as -> by (rewrite take_take; f_equal; lia).
    rewrite Hpre. by rewrite take_app_length. }
  exists t. by apply from_utf8_Ok.
Qed.

Lemma find_split_Some buffer max_len split k :
  find_split buffer max_len split = Some k → 0 < k ≤ split ∧ valid_utf8 (take k buffer).
Proof.
  induction split as [| split IH]; cbn [find_split]; [done|].
  destruct (is_ok (from_utf8 (take (S split) buffer))) eqn:E.
  - intros [= <-]. split; [lia | by apply is_ok_valid].
  - destruct (Nat.ltb 4 (max_len - S split)); [done|]. intros H. destruct (IH H) as [? ?]. split; [lia | done].
Qed.

Lemma find_split_finds buffer max_len split k :
  split ≤ max_len → max_len - split ≤ 4 → k ≤ split → max_len - k ≤ 4 → 0 < k → valid_utf8 (take k buffer) →
  is_Some (find_split buffer max_len split).
Proof.
  intros Hs Hd Hk Hk4 Hpos Hv. induction split as [| split IH]; [lia|]. cbn [find_split].
  destruct (is_ok (from_utf8 (take (S split) buffer))) eqn:E; [by eexists|].
  assert (k ≠ S split) by (intros ->; apply is_ok_valid in Hv; congruence).
  destruct (Nat.ltb_spec 4 (max_len - S split)); [lia|]. apply IH; lia.
Qed.

Section Split.
Context (max_bytes : nat) (Hmax : 4 ≤ max_bytes).

Lemma split_spec buffer prefix rest :
  split_valid_utf8_prefix_with_max buffer max_bytes = Some (prefix, rest) →
  buffer = prefix ++ rest ∧ prefix ≠ [] ∧ length prefix ≤ max_bytes ∧ (valid_utf8 prefix ∨ length prefix = 1).
Proof.
  unfold split_valid_utf8_prefix_with_max. destruct buffer as [| b buffer]; [done|].
  set (bs := b :: buffer). set (max_len := Nat.min (length bs) max_bytes).
  destruct (find_split bs max_len max_len) as [k|] eqn:E.
  - intros [= <- <-]. apply find_split_Some in E as [Hk Hv]. split; [by rewrite take_drop|].
    assert (Hl : length (take k bs) = k) by (rewrite length_take; lia).
    split; [| split; [lia | by left]]. intros H. rewrite H in Hl. cbn in Hl. lia.
  - intros [= <- <-]. split; [done|]. split; [done|]. cbn. rewrite take_0. cbn. split; [lia | by right].
Qed.

Lemma split_valid buffer prefix rest :
  valid_utf8 buffer → split_valid_utf8_prefix_with_max buffer max_bytes = Some (prefix, rest) →
  valid_utf8 prefix ∧ valid_utf8 rest.
Proof.
  intros Hv. unfold split_valid_utf8_prefix_with_max. destruct buffer as [| b buffer]; [done|].
  set (bs := b :: buffer) in *. set (max_len := Nat.min (length bs) max_bytes).
  assert (Hlen : 0 < length bs) by apply Nat.lt_0_succ. clearbody bs.
  assert (Hsome : is_Some (find_split bs max_len max_len)).
  { destruct (boundary_near max_len bs Hv) as (k & Hk & Hkn & Hvk); [lia|].
    destruct (decide (length bs ≤ max_bytes)) as [Hle | Hgt].
    - apply (find_split_finds _ _ _ max_len); try lia.
      unfold max_len. rewrite Nat.min_l by done. by rewrite take_ge by lia.
    - apply (find_split_finds _ _ _ (max_len - k)); try lia. done. }
  destruct Hsome as [k E]. rewrite E. intros [= <- <-]. apply find_split_Some in E as [_ Hvk].
  split; [done | by apply valid_drop].
Qed.

End Split.

(** ** The streaming task *)

(** What the state is after the chunks that make up [stream]. *)
Record Streamed (s : Streamer) (stream : list N) : Prop := {
  str_pending : pending s = [];
  str_pieces : concat (pieces s) = stream;
  str_transcript : represents UNIFIED_EXEC_OUTPUT_MAX_BYTES (transcript s) stream;
  str_deltas : deltas s = take MAX_EXEC_OUTPUT_DELTAS_PER_CALL (pieces s);
  str_bounds : Forall (λ p, p ≠ [] ∧ length p ≤ UNIFIED_EXEC_OUTPUT_DELTA_MAX_BYTES ∧
                            (valid_utf8 p ∨ length p = 1)) (pieces s);
}.

Lemma delta_max : 4 ≤ UNIFIED_EXEC_OUTPUT_DELTA_MAX_BYTES.
Proof. apply Nat.leb_le. vm_compute. reflexivity. Qed.

Lemma take_snoc {A} n (l : list A) x : take n (l ++ [x]) = if Nat.leb n (length (take n l)) then take n l else take n l ++ [x].
Proof.
  rewrite length_take. destruct (Nat.leb_spec n (Nat.min n (length l))).
  - by rewrite take_app_le by lia.
  - rewrite take_ge by (rewrite length_app; cbn; lia). by rewrite take_ge by lia.
Qed.

(** The loop empties the buffer and moves it, cut in pieces, to the transcript. *)
Lemma process_pending_spec fuel : ∀ s stream,
  length (pending s) ≤ fuel → concat (pieces s) = stream →
  represents UNIFIED_EXEC_OUTPUT_MAX_BYTES (transcript s) stream →
  deltas s = take MAX_EXEC_OUTPUT_DELTAS_PER_CALL (pieces s) →
  ∃ new, let s' := process_pending fuel s in
    pieces s' = pieces s ++ new ∧ concat new = pending s ∧ pending s' = [] ∧
    represents UNIFIED_EXEC_OUTPUT_MAX_BYTES (transcript s') (stream ++ pending s) ∧
    deltas s' = take MAX_EXEC_OUTPUT_DELTAS_PER_CALL (pieces s') ∧
    grace s' = grace s ∧ output_drained s' = output_drained s ∧
    Forall (λ p, p ≠ [] ∧ length p ≤ UNIFIED_EXEC_OUTPUT_DELTA_MAX_BYTES ∧ (valid_utf8 p ∨ length p = 1)) new ∧
    (valid_utf8 (pending s) → Forall valid_utf8 new).
Proof.
  induction fuel as [| fuel IH]; intros s stream Hf Hc Hr Hd; cbn [process_pending].
  - assert (Hp : pending s = []) by (destruct (pending s); [done | cbn in Hf; lia]).
    exists []. cbn zeta. rewrite Hp, !app_nil_r. split_and!; try done; constructor.
  - unfold split_valid_utf8_prefix.
    destruct (split_valid_utf8_prefix_with_max (pending s) UNIFIED_EXEC_OUTPUT_DELTA_MAX_BYTES) as [[prefix rest]|] eqn:E.
    + destruct (split_spec _ delta_max _ _ _ E) as (Hp & Hne & Hmax & Hv).
      set (s1 := mkStreamer rest _ _ _ _ _). destruct (IH s1 (stream ++ prefix)) as (new & H1 & H2 & H3 & H4 & H5 & H6 & H7 & H8 & H9).
      * cbn. rewrite Hp, length_app in Hf. destruct prefix; [done|]. cbn in Hf. lia.
      * cbn. rewrite concat_app, Hc. cbn. by rewrite app_nil_r.
      * cbn. apply push_represents; [vm_compute; discriminate | done].
      * cbn. rewrite take_snoc, Hd. done.
      * exists (prefix :: new). cbn zeta. rewrite H1. cbn [pieces s1]. rewrite <-app_assoc.
        split; [done|]. split; [cbn; rewrite H2, Hp; done|]. split; [done|].
        split; [rewrite Hp, app_assoc; exact H4|]. split; [rewrite H5, H1; cbn [pieces s1]; by rewrite <-app_assoc|].
        split; [done|]. split; [done|]. split; [by constructor|]. intros Hvp.
        destruct (split_valid _ delta_max _ _ _ Hvp E) as [? ?]. constructor; auto.
    + assert (Hp : pending s = []).
      { unfold split_valid_utf8_prefix_with_max in E. destruct (pending s); [done|]. by destruct (find_split _ _ _). }
      exists []. cbn zeta. rewrite Hp, !app_nil_r. split_and!; try done; constructor.
Qed.

Lemma process_chunk_spec chunk s stream :
  Streamed s stream →
  Streamed (process_chunk chunk s) (stream ++ chunk) ∧ grace (process_chunk chunk s) = grace s ∧
  output_drained (process_chunk chunk s) = output_drained s ∧
  (valid_utf8 chunk → Forall valid_utf8 (pieces s) → Forall valid_utf8 (pieces (process_chunk chunk s))).
Proof.
  intros [H1 H2 H3 H4 H5]. unfold process_chunk. rewrite H1. cbn [app].
  destruct (process_pending_spec (length chunk) (mkStreamer chunk (transcript s) (deltas s) (grace s) (output_drained s) (pieces s)) stream)
    as (new & E1 & E2 & E3 & E4 & E5 & E6 & E7 & E8 & E9); [done.. |]. cbn [pieces pending grace output_drained] in *.
  split; [| split; [done | split; [done|]]].
  - split; [done | by rewrite E1, concat_app, H2, E2 | done | done|]. rewrite E1. by apply Forall_app.
  - intros Hv Hall. rewrite E1. apply Forall_app. auto.
Qed.

Lemma streamed_flags s stream g d :
  Streamed s stream → Streamed (mkStreamer (pending s) (transcript s) (deltas s) g d (pieces s)) stream.
Proof. by intros [? ? ? ? ?]. Qed.

Lemma run_drained inputs s : output_drained s = true → run_streamer inputs s = s.
Proof.
  intros Hd. unfold run_streamer. induction inputs as [| i inputs IH]; cbn; [done|].
  unfold streamer_step at 2. by rewrite Hd.
Qed.

Lemma run_streamer_spec inputs : ∀ s stream,
  Streamed s stream → output_drained s = false →
  Streamed (run_streamer inputs s) (stream ++ concat (taken inputs (grace s))) ∧
  (Forall valid_utf8 (taken inputs (grace s)) → Forall valid_utf8 (pieces s) → Forall valid_utf8 (pieces (run_streamer inputs s))).
Proof.
  induction inputs as [| i inputs IH]; intros s stream Hs Hd; [cbn; by rewrite app_nil_r|].
  cbn [run_streamer fold_left]. change (fold_left _ inputs ?x) with (run_streamer inputs x).
  unfold streamer_step. rewrite Hd. destruct i as [| | chunk | n |]; cbn [taken].
  - destruct (grace s) eqn:Hg; cbn [default].
    + specialize (IH s stream Hs Hd). by rewrite Hg in IH.
    + apply (IH (mkStreamer _ _ _ true false _) stream); [by apply streamed_flags | done].
  - destruct (grace s) eqn:Hg; cbn [default].
    + rewrite run_drained by done. cbn. rewrite app_nil_r. split; [by apply streamed_flags | auto].
    + specialize (IH s stream Hs Hd). by rewrite Hg in IH.
  - destruct (process_chunk_spec chunk s stream Hs) as (H1 & H2 & H3 & H4). cbn [default].
    destruct (IH (process_chunk chunk s) (stream ++ chunk) H1) as [I1 I2]; [by rewrite H3|]. rewrite H2 in I1, I2.
    cbn [concat]. rewrite app_assoc. split; [done|]. intros [Hv Hall]%Forall_cons Hp. auto.
  - by apply IH.
  - cbn [default]. rewrite run_drained by done. cbn. rewrite app_nil_r. split; [by apply streamed_flags | auto].
Qed.

Lemma streamer_new_ok : Streamed streamer_new [].
Proof. by split. Qed.

(** A stream within the limit is kept whole. *)
Lemma transcript_whole b stream :
  represents UNIFIED_EXEC_OUTPUT_MAX_BYTES b stream → (len stream <= UNIFIED_EXEC_OUTPUT_MAX_BYTES)%N →
  to_bytes b = stream ∧ retained_bytes b = len stream.
Proof.
  intros R Hl. destruct R as [_ _ _ R1 R2 R3 R4 _].
  assert (Hb : to_bytes b = stream).
  { unfold to_bytes. rewrite R1, R2. unfold kept_head, kept_tail.
    rewrite lastn_all; [apply take_drop|]. rewrite len_drop. change (UNIFIED_EXEC_OUTPUT_MAX_BYTES / 2)%N with 524288%N.
    unfold UNIFIED_EXEC_OUTPUT_MAX_BYTES in *. lia. }
  split; [done|]. unfold retained_bytes. rewrite R3, R4. unfold sat_add. rewrite <-len_app.
  change (concat (head b) ++ concat (tail b)) with (to_bytes b). rewrite Hb.
  unfold UNIFIED_EXEC_OUTPUT_MAX_BYTES, USIZE_MAX in *. lia.
Qed.

Lemma from_utf8_lossy_valid bs s : from_utf8 bs = Ok s → from_utf8_lossy bs = s.
Proof. intros H%from_utf8_Ok. unfold from_utf8_lossy. cbn. by rewrite H. Qed.

(** ** Theorem *)

(** C35: The output a call reports.  Whatever chunks the process writes, however often the
    receiver lags and whenever the exit is noticed: the transcript keeps the head and the
    tail of the chunks received before the loop ended, within 1 MiB; the events carry
    exactly those bytes in order, each at most 8192 bytes and valid UTF-8 or a single
    byte, up to 10000 of them; chunks that are valid UTF-8 by themselves make only valid
    events; and text within 1 MiB ends the call as it is, with the exit code. *)
Theorem streamed_output_exact inputs :
  let s := run_streamer inputs streamer_new in
  let bytes := concat (taken inputs false) in
  to_bytes (transcript s) = kept_head UNIFIED_EXEC_OUTPUT_MAX_BYTES bytes ++ kept_tail UNIFIED_EXEC_OUTPUT_MAX_BYTES bytes ∧
  concat (pieces s) = bytes ∧ deltas s = take MAX_EXEC_OUTPUT_DELTAS_PER_CALL (pieces s) ∧
  Forall (λ p, p ≠ [] ∧ length p ≤ UNIFIED_EXEC_OUTPUT_DELTA_MAX_BYTES ∧ (valid_utf8 p ∨ length p = 1)) (deltas s) ∧
  (Forall valid_utf8 (taken inputs false) → Forall valid_utf8 (deltas s)) ∧
  (∀ text state, from_utf8 bytes = Ok text → (len bytes <= UNIFIED_EXEC_OUTPUT_MAX_BYTES)%N → failure_message state = None →
     exit_event s state = EndSuccess (mkOutput (default (-1)%Z (exit_code state)) text [] text)).
Proof.
  destruct (run_streamer_spec inputs streamer_new [] streamer_new_ok eq_refl) as [Hs Hv].
  cbn [app grace streamer_new] in Hs, Hv. cbn zeta.
  set (s := run_streamer inputs streamer_new) in *. set (bytes := concat (taken inputs false)) in *.
  assert (Hb : to_bytes (transcript s) = kept_head UNIFIED_EXEC_OUTPUT_MAX_BYTES bytes ++ kept_tail UNIFIED_EXEC_OUTPUT_MAX_BYTES bytes).
  { destruct (str_transcript _ _ Hs). unfold to_bytes. congruence. }
  split; [done|]. split; [apply Hs|]. split; [apply Hs|]. split; [| split].
  - rewrite (str_deltas _ _ Hs). apply Forall_take, Hs.
  - intros Hall. rewrite (str_deltas _ _ Hs). apply Forall_take, Hv; [done | constructor].
  - intros text state Ht Hl Hf. unfold exit_event. rewrite Hf. unfold emit_exec_end_for_unified_exec.
    assert (resolve_aggregated_output (transcript s) [] = text) as ->; [| done].
    destruct (transcript_whole _ _ (str_transcript _ _ Hs) Hl) as [Hw Hret].
    unfold resolve_aggregated_output. rewrite Hret, Hw, (from_utf8_lossy_valid _ _ Ht).
    destruct (N.eqb_spec (len bytes) 0) as [E | E]; [| done].
    assert (bytes = []) as Hnil by (destruct bytes; [done | discriminate E]). rewrite Hnil in Ht. by injection Ht.
Qed.

(** A character cut between two chunks: the documentation says that events are sent on
    UTF-8 boundaries, but nothing is kept for the next chunk. *)
Example character_cut_between_chunks :
  let s := run_streamer [Chunk [97; 195]%N; Chunk [169]%N] streamer_new in
  deltas s = [[97]; [195]; [169]]%N ∧ is_ok (from_utf8 [195]%N) = false ∧
  from_utf8 (to_bytes (transcript s)) = Ok [97; 233]%N.
Proof. vm_compute. repeat split. Qed.

Lemma streamed_output_exact_witness :
  let inputs := [Chunk [104; 195; 169]%N; LaggedBy 3; Cancelled; Chunk [33]%N; GraceOver; Chunk [63]%N] in
  let s := run_streamer inputs streamer_new in
  from_utf8 (concat (taken inputs false)) = Ok [104; 233; 33]%N ∧
  exit_event s (exited (Some 3%Z) default_state) = EndSuccess (mkOutput 3 [104; 233; 33]%N [] [104; 233; 33]%N).
Proof.
  intros inputs s. assert (Ht : from_utf8 (concat (taken inputs false)) = Ok [104; 233; 33]%N) by reflexivity.
  split; [exact Ht|].
  destruct (streamed_output_exact inputs) as (_ & _ & _ & _ & _ & H).
  apply (H [104; 233; 33]%N (exited (Some 3%Z) default_state) Ht); [vm_compute; discriminate | reflexivity].
Defined.
