(* ===== verification/PatchInvocation.v ===== *)
(** * Recognising and verifying a patch

    [apply-patch/src/invocation.rs]: which commands are calls of apply_patch, and what
    the patch of such a call would change.  The verified action is what the user is shown
    and what the approval is about; the patch that runs afterwards is parsed again from
    the text the action carries (core/src/tools/runtimes/apply_patch.rs).  The theorems
    relate the two: the paths of the action are those the run touches, and the contents of
    the action are those the run leaves.

    The Bash grammar (tree-sitter with the query of [extract_apply_patch_from_bash]) and
    the renderer of unified diffs (the crate [similar]) are parameters.  Unix paths. *)

From S2P Require Import Prelude RustStr AbsPath HostShell SeekSequence PatchParser PatchGrammar PatchApply PatchFs.

Open Scope rstr_scope.

(** ** Data *)

Definition APPLY_PATCH_COMMANDS : list str := lit <$> ["apply_patch"; "applypatch"].

Inductive ApplyPatchShell := PatchUnix | PatchPowerShell | PatchCmd.

(** The payloads are errors of tree-sitter and of UTF-8 decoding, by their text. *)
Inductive ExtractHeredocError :=
| CommandDidNotStartWithApplyPatch
| FailedToLoadBashGrammar (e : str)
| HeredocNotUtf8 (e : str)
| FailedToParsePatchIntoAst
| FailedToFindHeredocBody.

Inductive MaybeApplyPatch :=
| PatchBody (args : ApplyPatchArgs)
| PatchShellParseError (e : ExtractHeredocError)
| PatchParseError (e : ParseError)
| PatchNotApplyPatch.

Inductive ApplyPatchFileChange :=
| FileAdd (content : str)
| FileDelete (content : str)
| FileUpdate (unified_diff : str) (move_path : option str) (new_content : str).

(** The keys are absolute and normalised, so that equal [PathBuf]s are equal strings. *)
Record ApplyPatchAction := mkAction {
  changes : gmap (list N) ApplyPatchFileChange;
  action_patch : str;
  action_cwd : str;
}.

Inductive MaybeApplyPatchVerified :=
| VerifiedBody (action : ApplyPatchAction)
| VerifiedShellParseError (e : ExtractHeredocError)
| VerifiedCorrectnessError (e : ApplyPatchError)
| VerifiedNotApplyPatch.

Record ApplyPatchFileUpdate := mkFileUpdate {
  update_diff : str;
  update_original_content : str;
  update_content : str;
}.

(** ** The shell around a patch *)

Definition classify_shell_name (shell : str) : option str :=
  name ← file_stem shell; Some (to_ascii_lowercase <$> (name : str)).

Definition classify_shell (shell flag : str) : option ApplyPatchShell :=
  name ← classify_shell_name shell;
  if ((name == lit "bash") || (name == lit "zsh") || (name == lit "sh"))
     && ((flag == lit "-lc") || (flag == lit "-c")) then Some PatchUnix
  else if ((name == lit "pwsh") || (name == lit "powershell"))
          && eq_ignore_ascii_case flag (lit "-command") then Some PatchPowerShell
  else if (name == lit "cmd") && eq_ignore_ascii_case flag (lit "/c") then Some PatchCmd
  else None.

Definition can_skip_flag (shell flag : str) : bool :=
  match classify_shell_name shell with
  | Some name =>
      ((name == lit "pwsh") || (name == lit "powershell")) && eq_ignore_ascii_case flag (lit "-noprofile")
  | None => false
  end.

Definition parse_shell_script (argv : list str) : option (ApplyPatchShell * str) :=
  match argv with
  | [shell; flag; script] => (λ t, (t, script)) <$> classify_shell shell flag
  | [shell; skip_flag; flag; script] =>
      if can_skip_flag shell skip_flag then (λ t, (t, script)) <$> classify_shell shell flag else None
  | _ => None
  end.

(** What tree-sitter answers: whether the grammar loads, and for a script the matches of
    the query, each a list of captures, a name with the text of its node; [None] if the
    script is not parsed. *)
Record BashQuery := mkBashQuery {
  set_language : result str unit;
  query_matches : str → option (list (list (str * result str str)));
}.

Section Invocation.
Context (bash : BashQuery).

(** The captures of one match: the heredoc and the directory of [cd]. *)
Fixpoint read_captures (captures : list (str * result str str)) (heredoc cd_path : option str) :
    result ExtractHeredocError (option str * option str) :=
  match captures with
  | [] => Ok (heredoc, cd_path)
  | (name, text) :: captures =>
      if name == lit "heredoc" then
        text ← map_err HeredocNotUtf8 text;
        read_captures captures (Some (trim_end_char nl text)) cd_path
      else if name == lit "cd_path" then
        text ← map_err HeredocNotUtf8 text;
        read_captures captures heredoc (Some text)
      else if name == lit "cd_raw_string" then
        raw ← map_err HeredocNotUtf8 text;
        let trimmed := default raw (s ← strip_prefix (lit "'") raw; strip_suffix (lit "'") s) in
        read_captures captures heredoc (Some trimmed)
      else read_captures captures heredoc cd_path
  end.

Fixpoint first_heredoc (ms : list (list (str * result str str))) :
    result ExtractHeredocError (str * option str) :=
  match ms with
  | [] => Err CommandDidNotStartWithApplyPatch
  | m :: ms =>
      '(heredoc_text, cd_path) ← read_captures m None None;
      match heredoc_text with
      | Some heredoc => Ok (heredoc, cd_path)
      | None => first_heredoc ms
      end
  end.

Definition extract_apply_patch_from_bash (src : str) : result ExtractHeredocError (str * option str) :=
  _ ← map_err FailedToLoadBashGrammar (set_language bash);
  ms ← ok_or (query_matches bash src) FailedToParsePatchIntoAst;
  first_heredoc ms.

Definition extract_apply_patch_from_shell (shell : ApplyPatchShell) (script : str) :=
  match shell with
  | PatchUnix | PatchPowerShell | PatchCmd => extract_apply_patch_from_bash script
  end.

Definition is_apply_patch_command (cmd : str) : bool := any (str_eqb cmd) APPLY_PATCH_COMMANDS.

Definition with_workdir (dir : option str) (args : ApplyPatchArgs) : ApplyPatchArgs :=
  mkArgs (patch args) (args_hunks args) dir (args_environment_id args).

(** The second arm of [maybe_parse_apply_patch]. *)
Definition parse_shell_patch (argv : list str) : MaybeApplyPatch :=
  match parse_shell_script argv with
  | Some (shell, script) =>
      match extract_apply_patch_from_shell shell script with
      | Ok (body, dir) =>
          match parse_patch body with
          | Ok source => PatchBody (with_workdir dir source)
          | Err e => PatchParseError e
          end
      | Err CommandDidNotStartWithApplyPatch => PatchNotApplyPatch
      | Err e => PatchShellParseError e
      end
  | None => PatchNotApplyPatch
  end.

Definition maybe_parse_apply_patch (argv : list str) : MaybeApplyPatch :=
  match argv with
  | [cmd; body] =>
      if is_apply_patch_command cmd then
        match parse_patch body with
        | Ok source => PatchBody source
        | Err e => PatchParseError e
        end
      else parse_shell_patch argv
  | _ => parse_shell_patch argv
  end.

(** ** Verification against the file system *)

Context {W : Type} `{!ExecutorFileSystem W}.
(** [dirs::home_dir()] and [TextDiff::from_lines(..).unified_diff()] with its context. *)
Context (home_dir : option str) (unified_diff : nat → str → str → str).

(** A panic of [derive_new_contents_from_chunks] cannot happen ([derive_no_panic]). *)
Definition unified_diff_from_chunks_with_context (w : W) (path_abs : str) (chunks : list UpdateFileChunk)
    (context : nat) : result ApplyPatchError ApplyPatchFileUpdate :=
  o ← derive_new_contents_from_chunks w path_abs chunks;
  match o with
  | Some p =>
      Ok (mkFileUpdate (unified_diff context (original_contents p) (new_contents p))
            (original_contents p) (new_contents p))
  | None => Err (ComputeReplacements (lit "panic"))
  end.

Definition unified_diff_from_chunks (w : W) (path_abs : str) (chunks : list UpdateFileChunk) :=
  unified_diff_from_chunks_with_context w path_abs chunks 1.

(** One turn of the loop: the change of a hunk. *)
Definition verify_hunk (w : W) (cwd : str) (h : Hunk) : result ApplyPatchError ApplyPatchFileChange :=
  let path := resolve_path home_dir h cwd in
  match h with
  | AddFile _ contents => Ok (FileAdd contents)
  | DeleteFile _ =>
      content ← map_err (IoError (failed_to (lit "read") path)) (read_file_text w path);
      Ok (FileDelete content)
  | UpdateFile _ move_path chunks =>
      u ← unified_diff_from_chunks w path chunks;
      Ok (FileUpdate (update_diff u) (abs_join home_dir cwd <$> move_path) (update_content u))
  end.

Fixpoint verify_hunks (w : W) (cwd : str) (hs : list Hunk) (acc : gmap (list N) ApplyPatchFileChange) :
    result ApplyPatchError (gmap (list N) ApplyPatchFileChange) :=
  match hs with
  | [] => Ok acc
  | h :: hs =>
      c ← verify_hunk w cwd h;
      verify_hunks w cwd hs (<[resolve_path home_dir h cwd := c]> acc)
  end.

Definition effective_cwd (args : ApplyPatchArgs) (cwd : str) : str :=
  match workdir args with Some dir => abs_join home_dir cwd dir | None => cwd end.

Definition verify_apply_patch_args (args : ApplyPatchArgs) (cwd : str) (w : W) : MaybeApplyPatchVerified :=
  match verify_hunks w (effective_cwd args cwd) (args_hunks args) ∅ with
  | Ok cs => VerifiedBody (mkAction cs (patch args) (effective_cwd args cwd))
  | Err e => VerifiedCorrectnessError e
  end.

(** A patch that is not the argument of an explicit call. *)
Definition implicit_invocation (argv : list str) : bool :=
  match argv with [body] => is_ok (parse_patch body) | _ => false end
  || match parse_shell_script argv with
     | Some (_, script) => is_ok (parse_patch script)
     | None => false
     end.

Definition maybe_parse_apply_patch_verified (argv : list str) (cwd : str) (w : W) : MaybeApplyPatchVerified :=
  if implicit_invocation argv then VerifiedCorrectnessError ImplicitInvocation
  else match maybe_parse_apply_patch argv with
       | PatchBody args =>
           if opt_is_some (args_environment_id args)
           then VerifiedCorrectnessError EnvironmentIdInShellInvocation
           else verify_apply_patch_args args cwd w
       | PatchShellParseError e => VerifiedShellParseError e
       | PatchParseError e => VerifiedCorrectnessError (ApplyParseError e)
       | PatchNotApplyPatch => VerifiedNotApplyPatch
       end.
End Invocation.

(** ** The text of an action parses to the hunks that were verified *)

Lemma trim_end_app_stop s t : trim_end t ≠ [] → trim_end (s ++ t) = s ++ trim_end t.
Proof.
  unfold trim_end. intros Hne. rewrite reverse_app, drop_while_app_some.
  - by rewrite reverse_app, reverse_involutive.
  - intros H. by rewrite H in Hne.
Qed.

Lemma trim_of_trim_start s : trim (trim_start s) = trim s.
Proof.
  unfold trim. f_equal. apply drop_while_id. intros c Hc.
  unfold trim_start in Hc. destruct (drop_while is_whitespace s) as [| d l] eqn:E; [done|].
  injection Hc as ->. by eapply drop_while_head.
Qed.
Lemma trim_start_nonempty s : trim s ≠ [] → trim_start s ≠ [].
Proof. unfold trim. intros H E. rewrite E in H. done. Qed.
Lemma trim_end_nonempty s : trim s ≠ [] → trim_end s ≠ [].
Proof. rewrite <- trim_trim_end. intros H E. by rewrite E in H. Qed.

(** A patch between its two markers, in lines. *)
Definition framed (first : str) (mid : list str) (e : str) : list str := first :: mid ++ [e].

Lemma trim_framed first mid e :
  trim first ≠ [] → trim e ≠ [] →
  trim (join [nl] (framed first mid e)) = join [nl] (framed (trim_start first) mid (trim_end e)).
Proof.
  intros Hf%trim_start_nonempty He%trim_end_nonempty. unfold framed.
  rewrite !app_comm_cons, !join_snoc. cbn [map concat]. rewrite <- !app_assoc.
  unfold trim, trim_start in *. rewrite drop_while_app_some by done.
  rewrite (app_assoc [nl]), (app_assoc (drop_while is_whitespace first)). rewrite trim_end_app_stop by done. by rewrite <- !app_assoc.
Qed.

(** The parser reads neither the white space before the first marker nor that after the
    last. *)
Lemma parse_stream_framed first mid e :
  Forall text_ok (first :: mid) → nl ∉ e → trim e = END_PATCH_MARKER →
  parse_stream (join [nl] (framed first mid e)) =
  match process_lines (first :: mid) parser_default with
  | (p, Ok _) =>
      match finish (mkParser END_PATCH_MARKER (state p) (line_number p)) with
      | (q, Ok hs) => Ok (hs, environment_id (state q))
      | (_, Err err) => Err err
      end
  | (_, Err err) => Err err
  end.
Proof.
  intros Hls Hnl He. unfold parse_stream, push_delta, framed. rewrite st_bind_assoc.
  rewrite app_comm_cons, join_snoc. unfold mbind, st_err_bind. rewrite push_chars_app.
  unfold mbind, st_err_bind. rewrite push_lines by done.
  assert (Hb : line_buffer (process_lines (first :: mid) parser_default).1 = []).
  { clear. generalize (first :: mid). intros ls.
    assert (H : ∀ p, line_buffer p = [] → line_buffer (process_lines ls p).1 = []); [| by apply H].
    induction ls as [| l ls IH]; intros p Hp; [done|]. cbn [process_lines]. run.
    set (q := mkParser (line_buffer p) (state p) (S (line_number p))).
    pose proof (process_line_buffer l q) as Hq. destruct (process_line l q) as [r [[]|err]]; cbn in Hq |- *.
    - apply IH. by rewrite Hq.
    - by rewrite Hq. }
  destruct (process_lines (first :: mid) parser_default) as [p [[]|err]]; [| done]. cbn [fst] in Hb.
  rewrite push_chars_text by done. unfold get, mret, st_err_ret. rewrite Hb. cbn [app].
  unfold finish, finish_buffer. run.
  assert (He' : is_empty e = false) by (destruct e; [by vm_compute in He | done]).
  rewrite He', He. replace (is_empty END_PATCH_MARKER) with false by by_compute.
  by replace (trim END_PATCH_MARKER) with END_PATCH_MARKER by by_compute.
Qed.

Lemma lines_no_nl s l : l ∈ lines s → nl ∉ l.
Proof.
  unfold lines. intros Hl. assert (H : ∃ p, p ∈ split nl s ∧ (l = p ∨ l = strip_cr p)).
  { revert Hl. generalize (split nl s). intros ps. induction ps as [| p ps IH]; [by intros ?%elem_of_nil|].
    cbn [lines_of_parts]. destruct ps as [| p' ps].
    - destruct (is_empty p); [by intros ?%elem_of_nil|]. intros ->%list_elem_of_singleton.
      exists p. rewrite list_elem_of_singleton. auto.
    - intros [-> | Hl]%elem_of_cons.
      + exists p. rewrite elem_of_cons. auto.
      + destruct (IH Hl) as (q & Hq & Hor). exists q. rewrite elem_of_cons. auto. }
  destruct H as (p & Hp%split_no_sep & [-> | ->]); [done|].
  unfold strip_cr. destruct (strip_suffix [cr] p) as [r|] eqn:E; [| done]. apply strip_suffix_Some in E as ->.
  intros Hin. apply Hp, elem_of_app. by left.
Qed.

Lemma strict_framed ls ls' :
  check_patch_boundaries_strict ls = Ok ls' →
  ls' = ls ∧ ∃ first mid e, ls = framed first mid e ∧ trim first = BEGIN_PATCH_MARKER ∧ trim e = END_PATCH_MARKER.
Proof.
  unfold check_patch_boundaries_strict. intros ([] & Hc & [= <-])%bind_Ok. split; [done|].
  destruct ls as [| first ls]; [done|]. cbn [head] in Hc.
  destruct (list_snoc_case ls) as [-> | (mid & e & ->)].
  - exfalso. cbn in Hc. destruct (trim first == BEGIN_PATCH_MARKER) eqn:E; [| done].
    apply str_eqb_true in E. rewrite E in Hc. by vm_compute in Hc.
  - rewrite app_comm_cons, last_snoc in Hc. exists first, mid, e. split; [done|].
    unfold check_start_and_end_lines_strict in Hc. cbn [fmap option_fmap option_map] in Hc.
    destruct (trim first == BEGIN_PATCH_MARKER) eqn:E; [| done].
    destruct (trim e == END_PATCH_MARKER) eqn:E'; [| done]. by apply str_eqb_true in E, E'.
Qed.

Lemma strict_accepts first mid e :
  trim first = BEGIN_PATCH_MARKER → trim e = END_PATCH_MARKER →
  check_patch_boundaries_strict (framed first mid e) = Ok (framed first mid e).
Proof.
  intros Hf He. unfold check_patch_boundaries_strict, framed. rewrite app_comm_cons, last_snoc.
  unfold check_start_and_end_lines_strict. cbn [app head fmap option_fmap option_map].
  by rewrite Hf, He, !str_eqb_refl.
Qed.

Lemma lenient_framed ls ls' :
  check_patch_boundaries_lenient ls = Ok ls' →
  (∀ l, l ∈ ls' → l ∈ ls) ∧
  ∃ first mid e, ls' = framed first mid e ∧ trim first = BEGIN_PATCH_MARKER ∧ trim e = END_PATCH_MARKER.
Proof.
  unfold check_patch_boundaries_lenient. destruct (check_patch_boundaries_strict ls) as [k|err] eqn:Hs.
  { intros [= ->]. apply strict_framed in Hs as [-> H]. done. }
  destruct ls as [| a [| b ls]]; [done..|]. destruct (last _) as [z|]; [| done].
  destruct (is_heredoc_start a && _ && _); [| done]. intros [-> H]%strict_framed. split; [| done].
  intros l Hl. apply elem_of_take in Hl as (i & Hi & _). rewrite lookup_drop in Hi. by eapply list_elem_of_lookup_2.
Qed.

(** No line of a text ends in a carriage return. *)
Definition no_trailing_cr (text : str) : Prop := Forall (λ l, last l ≠ Some cr) (split nl text).

(** The text is what the parser makes of it: a patch that was parsed carries a text that
    parses again, to the same hunks and environment, if no line of it still ends in a
    carriage return. *)
Lemma reparse_same text args :
  parse_patch text = Ok args → no_trailing_cr (patch args) →
  ∃ args', parse_patch (patch args) = Ok args' ∧ args_hunks args' = args_hunks args ∧
           args_environment_id args' = args_environment_id args.
Proof.
  unfold parse_patch, parse_patch_text, PARSE_IN_STRICT_MODE.
  intros (ls & Hls & ((hs & id) & Hp & [= <-])%bind_Ok)%bind_Ok Hcr. cbn [patch args_hunks args_environment_id].
  apply lenient_framed in Hls as (Hsub & first & mid & e & -> & Hf & He).
  assert (Hno : Forall (λ l, nl ∉ l) (framed first mid e)).
  { apply Forall_forall. intros l Hl%Hsub. by eapply lines_no_nl. }
  cbn [patch] in Hcr. unfold no_trailing_cr in Hcr. rewrite split_join in Hcr by done.
  assert (Ht : ∀ l, l ∈ framed first mid e → text_ok l).
  { intros l Hl. rewrite Forall_forall in Hno, Hcr. split; auto. }
  assert (Hbn : BEGIN_PATCH_MARKER ≠ []) by done. assert (Hen : END_PATCH_MARKER ≠ []) by done.
  assert (Hne : trim_end e ≠ []) by (apply trim_end_nonempty; by rewrite He).
  pose proof (trim_trim_end e) as Hte.
  assert (Hm : Forall text_ok (first :: mid)).
  { apply Forall_forall. intros l Hl. apply Ht. unfold framed. rewrite app_comm_cons. apply elem_of_app. by left. }
  assert (Hfs : text_ok (trim_start first)).
  { apply Forall_cons in Hm as [[Hn Hc] _]. destruct (drop_while_suffix is_whitespace first) as (k & Hk & _).
    fold (trim_start first) in Hk. split; [intros Hin; apply Hn; rewrite Hk; apply elem_of_app; by right|].
    intros Hl. apply Hc. rewrite Hk, last_app. by rewrite Hl. }
  assert (Hnl : nl ∉ e) by (apply Ht; unfold framed; rewrite app_comm_cons; apply elem_of_app; right; by apply list_elem_of_singleton).
  assert (Hnl' : nl ∉ trim_end e).
  { destruct (trim_end_prefix e) as (k & Hk & _). intros Hin. apply Hnl. rewrite Hk. apply elem_of_app. by left. }
  assert (Hm' : Forall text_ok (trim_start first :: mid)) by (apply Forall_cons in Hm as [_ Hm]; by constructor).
  rewrite trim_framed by (by rewrite ?Hf, ?He).
  unfold framed at 1. rewrite app_comm_cons, lines_of_text by done. rewrite <- app_comm_cons.
  unfold check_patch_boundaries_lenient. fold (framed (trim_start first) mid (trim_end e)).
  rewrite strict_accepts; [| by rewrite trim_of_trim_start | by rewrite Hte]. cbn [mbind result_bind].
  rewrite parse_stream_framed in Hp |- *; [| done..| by rewrite Hte].
  replace (process_lines (trim_start first :: mid) parser_default) with (process_lines (first :: mid) parser_default).
  - rewrite Hp. eexists. split; [done|]. done.
  - cbn [process_lines]. run. unfold process_line. run. by rewrite trim_of_trim_start.
Qed.

#[export] Instance no_trailing_cr_dec text : Decision (no_trailing_cr text).
Proof. unfold no_trailing_cr. apply _. Defined.

(** The condition is needed: [lines] and the parser each take one carriage return off a
    line, so that a third one is part of the file that is verified and not of the file that
    is written. *)
Example carriage_return_lost :
  let cr3 := [cr; cr; cr] in
  let text := join [nl] [lit "*** Begin Patch"; lit "*** Add File: a"; lit "+x" ++ cr3; lit "*** End Patch"] in
  match parse_patch text with
  | Ok args => args_hunks args = [AddFile (lit "a") (lit "x" ++ [cr; nl])] ∧
               args_hunks <$> parse_patch (patch args) = Ok [AddFile (lit "a") (lit "x" ++ [nl])]
  | Err _ => False
  end.
Proof. by_compute. Qed.

(** ** Where a run may write

    The worlds reached by writing and removing files of [P], and by creating the parent
    directories of such files, whether the calls succeed or fail. *)

Inductive confined {W} `{!ExecutorFileSystem W} (P : str → Prop) : W → W → Prop :=
| confined_refl w : confined P w w
| confined_write p c w w1 r w2 :
    P p → write_file p c w = (w1, r) → confined P w1 w2 → confined P w w2
| confined_remove p w w1 r w2 :
    P p → remove p w = (w1, r) → confined P w1 w2 → confined P w w2
| confined_parent p d w w1 r w2 :
    P p → abs_parent p = Some d → create_directory d w = (w1, r) → confined P w1 w2 → confined P w w2.

Create HintDb confine discriminated.

Section Confined.
Context {W : Type} `{!ExecutorFileSystem W}.
Implicit Types (P : str → Prop) (w : W).

Lemma confined_trans P w1 w2 w3 : confined P w1 w2 → confined P w2 w3 → confined P w1 w3.
Proof. intros H. revert w3. induction H; intros w3 H3; eauto using confined. Qed.

Lemma confined_mono P P' w1 w2 : (∀ p, P p → P' p) → confined P w1 w2 → confined P' w1 w2.
Proof. intros HP H. induction H; eauto using confined. Qed.

(** The computations of [apply_hunks_to_files] whose states are related by [R]. *)
Definition relates (R : relation (apply_state (W := W))) {A}
    (m : st_err (apply_state (W := W)) anyhow_error A) : Prop := ∀ s, R s (m s).1.

Section Relates.
Context (R : relation (apply_state (W := W))) `{!PreOrder R}.

Lemma relates_bind {A B} (m : st_err (apply_state (W := W)) anyhow_error A)
    (f : A → st_err (apply_state (W := W)) anyhow_error B) :
  relates R m → (∀ a, relates R (f a)) → relates R (m ≫= f).
Proof.
  intros Hm Hf s. specialize (Hm s). unfold mbind, st_err_bind.
  destruct (m s) as [s1 [a|e]]; [| done]. etransitivity; [exact Hm|]. apply Hf.
Qed.
Lemma relates_ret {A} (a : A) : relates R (mret a).
Proof. intros s. reflexivity. Qed.
Lemma relates_throw {A} e : relates R (throw e : st_err _ _ A).
Proof. intros s. reflexivity. Qed.
Lemma relates_lift {A} (r : result anyhow_error A) : relates R (lift r).
Proof. intros s. unfold lift. reflexivity. Qed.
Lemma relates_get : relates R get.
Proof. intros s. reflexivity. Qed.
Lemma relates_modify f : (∀ s, R s (f s)) → relates R (modify f).
Proof. intros Hf s. apply Hf. Qed.
Lemma relates_call {A} (op : W → W * result io_error A) :
  (∀ s, R s (mkApplyState (op (world s)).1 (delta s) (affected s))) → relates R (call op).
Proof.
  intros Ho s. specialize (Ho s). unfold call, set_world, mbind, st_err_bind, get, modify.
  by destruct (op (world s)) as [w1 r].
Qed.
End Relates.

(** The file system stays within [P]. *)
Definition within P (s s' : apply_state (W := W)) : Prop := confined P (world s) (world s').
#[export] Instance within_preorder P : PreOrder (within P).
Proof. split; [intros s; constructor | intros s1 s2 s3; apply confined_trans]. Qed.
Abbreviation confines P := (relates (within P)).

Lemma within_same P s s' : world s' = world s → within P s s'.
Proof. unfold within. intros ->. constructor. Qed.
Lemma confines_write P p c : P p → confines P (call (write_file p c)).
Proof.
  intros Hp. apply relates_call. intros s. unfold within. cbn [world].
  destruct (write_file p c (world s)) as [w1 r] eqn:E. cbn [fst]. eauto using confined.
Qed.
Lemma confines_remove P p : P p → confines P (call (remove p)).
Proof.
  intros Hp. apply relates_call. intros s. unfold within. cbn [world].
  destruct (remove p (world s)) as [w1 r] eqn:E. cbn [fst]. eauto using confined.
Qed.
Lemma confines_create_parent P p d : P p → abs_parent p = Some d → confines P (call (create_directory d)).
Proof.
  intros Hp Hd. apply relates_call. intros s. unfold within. cbn [world].
  destruct (create_directory d (world s)) as [w1 r] eqn:E. cbn [fst]. eauto using confined.
Qed.

(** The delta is not declared exact again. *)
Definition vouched (s s' : apply_state (W := W)) : Prop := exact (delta s') = true → exact (delta s) = true.
#[export] Instance vouched_preorder : PreOrder vouched.
Proof. unfold vouched. split; [intros s; auto | intros s1 s2 s3; auto]. Qed.
Lemma vouched_and s s' b : exact (delta s') = exact (delta s) && b → vouched s s'.
Proof. unfold vouched. intros ->. by intros [? _]%andb_true_iff. Qed.
Lemma vouched_same s s' : exact (delta s') = exact (delta s) → vouched s s'.
Proof. unfold vouched. by intros ->. Qed.
End Confined.

Abbreviation confines P := (relates (within P)).

#[export] Hint Resolve relates_ret relates_throw relates_lift relates_get within_preorder vouched_preorder
  confines_write confines_remove confines_create_parent : confine.
#[export] Hint Extern 2 (relates (within _) (modify _)) => apply relates_modify; intros ?; by apply within_same : confine.
#[export] Hint Extern 2 (relates vouched (modify _)) =>
  apply relates_modify; intros ?; first [by apply vouched_same | by eapply vouched_and] : confine.
#[export] Hint Extern 2 (relates vouched (call _)) =>
  apply relates_call; intros ?; by apply vouched_same : confine.

(** Follow the text of a computation. *)
Ltac confine :=
  repeat first
    [ solve [eauto 4 with confine]
    | apply relates_bind; [apply _ | | intros ?]
    | case_match ].

Section ConfinedRun.
Context {W : Type} `{!ExecutorFileSystem W} (home_dir : option str).
Implicit Types (P : str → Prop) (w : W).

(** One relation for the whole run. *)
Section Run.
Context (R : relation (apply_state (W := W))) `{!PreOrder R}.
Context (Hexact : ∀ b, relates R (and_exact b)) (Hpush : ∀ p c, relates R (push_change p c)).
Context (Hset : ∀ i p c, relates R (set_change i p c)).
Context (Hadded : ∀ p, relates R (push_added p)) (Hmodified : ∀ p, relates R (push_modified p)).
Context (Hdeleted : ∀ p, relates R (push_deleted p)).
#[local] Hint Resolve Hexact Hpush Hset Hadded Hmodified Hdeleted : confine.

(** What the calls on [p] do. *)
Definition handles (p : str) : Prop :=
  (∀ c, relates R (call (write_file p c))) ∧ relates R (call (remove p)) ∧
  (∀ d, abs_parent p = Some d → relates R (call (create_directory d))).

Lemma relates_note p : relates R (note_existing_path_delta_support p).
Proof. unfold note_existing_path_delta_support. confine. Qed.
#[local] Hint Resolve relates_note : confine.
Lemma relates_read_optional p : relates R (read_optional_file_text_for_delta p).
Proof. unfold read_optional_file_text_for_delta. confine. Qed.
Lemma relates_write_retry p c : handles p → relates R (write_file_with_missing_parent_retry p c).
Proof. intros (Hw & _ & Hd). unfold write_file_with_missing_parent_retry. confine. Qed.
Lemma relates_try {A} (m : st_err (apply_state (W := W)) anyhow_error (result anyhow_error A)) :
  relates R m → relates R (try_write m).
Proof. intros Hm. unfold try_write. confine. Qed.
Lemma relates_remove_checked p ctx o : handles p → relates R (remove_checked p ctx o).
Proof. intros (_ & Hr & _). unfold remove_checked. confine. Qed.
#[local] Hint Resolve relates_read_optional relates_write_retry relates_try relates_remove_checked : confine.

Lemma relates_add p ap c : handles p → relates R (apply_add_file p ap c).
Proof. intros Hp. unfold apply_add_file. confine. Qed.
Lemma relates_delete p ap : handles p → relates R (apply_delete_file p ap).
Proof. intros Hp. unfold apply_delete_file. confine. Qed.
Lemma relates_update p ap dest cs :
  handles p → (∀ d, dest = Some d → handles d) → relates R (apply_update_file p ap dest cs).
Proof.
  intros Hp Hd. pose proof (proj1 Hp) as Hw. unfold apply_update_file, apply_move, apply_update_in_place.
  destruct dest as [d|]; [specialize (Hd d eq_refl)|]; confine.
Qed.
End Run.

(** The paths of a hunk: its source and the target of its rename. *)
Definition hunk_paths (cwd : str) (h : Hunk) : list str :=
  resolve_path home_dir h cwd ::
  match h with
  | UpdateFile _ (Some dest) _ => [resolve_path_against_base home_dir dest cwd]
  | _ => []
  end.

Lemma handles_within P p : P p → handles (within P) p.
Proof. intros Hp. split; [|split]; intros; eauto with confine. Qed.
Lemma handles_vouched p : handles vouched p.
Proof. split; [|split]; intros; eauto with confine. Qed.

(** The case analysis over the hunks, once for both relations. *)
Lemma relates_hunk R `{!PreOrder R} cwd h :
  (∀ b, relates R (and_exact b)) → (∀ p c, relates R (push_change p c)) →
  (∀ i p c, relates R (set_change i p c)) → (∀ p, relates R (push_added p)) →
  (∀ p, relates R (push_modified p)) → (∀ p, relates R (push_deleted p)) →
  (∀ p, p ∈ hunk_paths cwd h → handles R p) → relates R (apply_hunk home_dir cwd h).
Proof.
  intros He Hc Hs Ha Hm Hd HP.
  assert (Hp : handles R (resolve_path home_dir h cwd)) by (apply HP, elem_of_cons; by left).
  destruct h as [path c | path | path mp cs]; cbn [apply_hunk];
    [by apply relates_add | by apply relates_delete |].
  apply relates_update; [done..|]. intros d E. destruct mp as [m|]; [| done]. injection E as <-.
  apply HP. cbn [hunk_paths]. set_solver.
Qed.

Lemma confines_hunk P cwd h :
  (∀ p, p ∈ hunk_paths cwd h → P p) → confines P (apply_hunk (W := W) home_dir cwd h).
Proof.
  intros HP. apply relates_hunk; try apply _; intros;
    unfold and_exact, push_change, set_change, push_added, push_modified, push_deleted;
    eauto using handles_within with confine.
Qed.
Lemma vouched_hunk cwd h : relates vouched (apply_hunk (W := W) home_dir cwd h).
Proof.
  apply relates_hunk; try apply _; intros;
    unfold and_exact, push_change, set_change, push_added, push_modified, push_deleted;
    eauto using handles_vouched with confine.
Qed.

Lemma confines_each P cwd hs :
  (∀ h p, h ∈ hs → p ∈ hunk_paths cwd h → P p) → confines P (apply_each (W := W) home_dir cwd hs).
Proof.
  induction hs as [| h hs IH]; intros HP; cbn [apply_each]; [apply relates_ret, _|].
  apply relates_bind; [apply _ | | intros _].
  - apply confines_hunk. intros p. apply HP. set_solver.
  - apply IH. intros h' p Hh'. apply HP. set_solver.
Qed.
Lemma vouched_each cwd hs : relates vouched (apply_each (W := W) home_dir cwd hs).
Proof.
  induction hs as [| h hs IH]; cbn [apply_each]; [apply relates_ret, _|].
  apply relates_bind; [apply _ | apply vouched_hunk | intros _; apply IH].
Qed.

(** A run of the hunks touches the paths of the hunks only. *)
Lemma apply_hunks_confined P cwd hs w :
  (∀ h p, h ∈ hs → p ∈ hunk_paths cwd h → P p) →
  confined P w (out_world (apply_hunks home_dir hs cwd w)).
Proof.
  intros HP. unfold apply_hunks, apply_hunks_to_files.
  set (s0 := mkApplyState w delta_empty (mkAffected [] [] [])). change w with (world s0) at 1.
  destruct (is_empty hs); [constructor|].
  pose proof (confines_each P cwd hs HP s0) as H. unfold mbind, st_err_bind.
  by destruct (apply_each home_dir cwd hs s0) as [s [[]|e]].
Qed.
End ConfinedRun.

(** ** The action and the hunks *)

Definition change_move (c : ApplyPatchFileChange) : option str :=
  match c with FileUpdate _ move_path _ => move_path | _ => None end.
Definition hunk_moves (h : Hunk) : bool :=
  match h with UpdateFile _ (Some _) _ => true | _ => false end.

(** A path the action names. *)
Definition action_touches (action : ApplyPatchAction) (p : str) : Prop :=
  ∃ k c, changes action !! k = Some c ∧ (p = k ∨ change_move c = Some p).

Section Verified.
Context {W : Type} `{!ExecutorFileSystem W} (home_dir : option str) (unified_diff : nat → str → str → str).
Implicit Types (w : W).
Abbreviation source cwd := (λ h, resolve_path home_dir h cwd).

(** The map of changes has one entry for a path, that of the last hunk; the rename of an
    earlier hunk must not be forgotten. *)
Definition moves_kept (cwd : str) (hs : list Hunk) : Prop :=
  ∀ before h after, hs = before ++ h :: after → hunk_moves h = true →
    ∀ h', h' ∈ after → source cwd h' ≠ source cwd h.

Lemma verify_hunks_other w cwd hs acc m k :
  verify_hunks home_dir unified_diff w cwd hs acc = Ok m → (∀ h, h ∈ hs → source cwd h ≠ k) →
  m !! k = acc !! k.
Proof.
  revert acc. induction hs as [| h hs IH]; intros acc; cbn [verify_hunks]; [by intros [= ->]|].
  intros (c & _ & Hv)%bind_Ok Hk. rewrite (IH _ Hv); [| set_solver].
  apply lookup_insert_ne. apply Hk. set_solver.
Qed.

Lemma verify_hunks_app w cwd a b acc m :
  verify_hunks home_dir unified_diff w cwd (a ++ b) acc = Ok m ↔
  ∃ m', verify_hunks home_dir unified_diff w cwd a acc = Ok m' ∧
        verify_hunks home_dir unified_diff w cwd b m' = Ok m.
Proof.
  revert acc. induction a as [| h a IH]; intros acc; cbn [app verify_hunks]; [naive_solver|].
  destruct (verify_hunk _ _ w cwd h) as [c|e]; cbn [mbind result_bind]; [apply IH | naive_solver].
Qed.

(** The last hunk of a path gives the change of that path. *)
Lemma verify_hunks_at w cwd a h b acc m :
  verify_hunks home_dir unified_diff w cwd (a ++ h :: b) acc = Ok m →
  (∀ h', h' ∈ b → source cwd h' ≠ source cwd h) →
  ∃ c, verify_hunk home_dir unified_diff w cwd h = Ok c ∧ m !! source cwd h = Some c.
Proof.
  intros (m' & _ & Hv)%verify_hunks_app Hb. cbn [verify_hunks] in Hv. apply bind_Ok in Hv as (c & Hc & Hv).
  exists c. split; [done|]. rewrite (verify_hunks_other _ _ _ _ _ _ Hv Hb). apply lookup_insert_eq.
Qed.

Lemma last_of_path cwd hs k :
  Exists (λ h, source cwd h = k) hs →
  ∃ a h b, hs = a ++ h :: b ∧ source cwd h = k ∧ ∀ h', h' ∈ b → source cwd h' ≠ k.
Proof.
  induction hs as [| x hs IH]; intros Hex; [by apply Exists_nil in Hex|].
  destruct (decide (Exists (λ h, source cwd h = k) hs)) as [Hin | Hno].
  - destruct (IH Hin) as (a & h & b & -> & H). by exists (x :: a), h, b.
  - apply Exists_cons in Hex as [Hx | Hex]; [| done]. exists [], x, hs. split; [done|]. split; [done|].
    intros h' Hh' E. apply Hno, Exists_exists. eauto.
Qed.

(** What [verify_hunk] says of the paths of a hunk. *)
Lemma verify_hunk_paths w cwd h c p :
  verify_hunk home_dir unified_diff w cwd h = Ok c → p ∈ hunk_paths home_dir cwd h →
  p = source cwd h ∨ hunk_moves h = true ∧ change_move c = Some p.
Proof.
  intros Hc [-> | Hp]%elem_of_cons; [by left|]. right.
  destruct h as [? ? | ? | path [d|] cs]; try (by apply elem_of_nil in Hp).
  apply list_elem_of_singleton in Hp as ->. split; [done|].
  cbn [verify_hunk] in Hc. by apply bind_Ok in Hc as (u & _ & [= <-]).
Qed.

(** The action names every path of every hunk. *)
Lemma hunks_in_action args cwd w action h p :
  verify_apply_patch_args home_dir unified_diff args cwd w = VerifiedBody action →
  moves_kept (action_cwd action) (args_hunks args) →
  h ∈ args_hunks args → p ∈ hunk_paths home_dir (action_cwd action) h → action_touches action p.
Proof.
  unfold verify_apply_patch_args.
  destruct (verify_hunks _ _ _ _ _ _) as [cs|e] eqn:Hv; [| done]. intros [= <-] Hkept Hh Hp.
  cbn [action_cwd changes] in *. set (dir := effective_cwd home_dir args cwd) in *.
  assert (Hsrc : action_touches (mkAction cs (patch args) dir) (source dir h)).
  { destruct (last_of_path dir (args_hunks args) (source dir h)) as (a & h' & b & Heq & Hs & Hb);
      [apply Exists_exists; eauto|]. rewrite Heq in Hv.
    destruct (verify_hunks_at _ _ _ _ _ _ _ Hv) as (c & _ & Hc); [intros h2 Hh2; rewrite Hs; by apply Hb|].
    exists (source dir h'), c. split; [done|]. by left. }
  apply list_elem_of_split in Hh as (a & b & Heq).
  destruct (decide (hunk_moves h = true)) as [Hm | Hm].
  - rewrite Heq in Hv. destruct (verify_hunks_at _ _ _ _ _ _ _ Hv) as (c & Hc & Hl); [by apply (Hkept a h b)|].
    destruct (verify_hunk_paths _ _ _ _ _ Hc Hp) as [-> | [_ Hd]]; [done|].
    exists (source dir h), c. auto.
  - apply elem_of_cons in Hp as [-> | Hp]; [done|].
    destruct h as [? ? | ? | path [d|] chunks]; [by apply elem_of_nil in Hp.. | done | by apply elem_of_nil in Hp].
Qed.
End Verified.

(** ** What the action says the files will be *)

Definition moved_to (p : str) (kc : list N * ApplyPatchFileChange) : option str :=
  match kc.2 with
  | FileUpdate _ (Some d) new => if d == p then Some new else None
  | _ => None
  end.

(** The file at [p] after the changes, from the files before. *)
Definition previewed (cs : gmap (list N) ApplyPatchFileChange) (F : gmap (list N) (list N)) (p : str) : option str :=
  match cs !! p with
  | Some (FileAdd content) => Some content
  | Some (FileDelete _) | Some (FileUpdate _ (Some _) _) => None
  | Some (FileUpdate _ None new) => Some new
  | None =>
      match find_map (moved_to p) (map_to_list cs) with
      | Some new => Some new
      | None => F !! p
      end
  end.

Section Preview.
Context {W : Type} `{!ExecutorFileSystem W} `{!FileSystemLaws W}.
Context (home_dir : option str) (unified_diff : nat → str → str → str).
Implicit Types (w : W).
Abbreviation source cwd := (λ h, resolve_path home_dir h cwd).
Abbreviation dest cwd := (λ d, resolve_path_against_base home_dir d cwd).

(** The record of a hunk in the delta of a run. *)
Definition records (cwd : str) (h : Hunk) (c : AppliedPatchChange) : Prop :=
  change_path c = source cwd h ∧
  match h, file_change c with
  | AddFile _ contents, ChangeAdd content _ => content = contents
  | DeleteFile _, ChangeDelete _ => True
  | UpdateFile _ move_path chunks, ChangeUpdate d old _ new =>
      d = dest cwd <$> move_path ∧ derive_new_contents (source cwd h) old chunks = Ok (Some (mkApplied old new))
  | _, _ => False
  end.

Lemma remove_checked_changes p ctx o (s s' : apply_state (W := W)) :
  remove_checked p ctx o s = (s', Ok ()) → delta_changes (delta s') = delta_changes (delta s).
Proof.
  unfold remove_checked. eval_m. destruct (ensure_not_directory _ _); cbn; [| done].
  destruct (remove p (world s)) as [w' [[]|e]]; cbn; [by intros [= <-] | done].
Qed.

Lemma try_write_inv {A} (m : st_err (apply_state (W := W)) anyhow_error (result anyhow_error A)) s s' a :
  try_write m s = (s', Ok a) → m s = (s', Ok (Ok a)).
Proof.
  unfold try_write, mbind, st_err_bind. destruct (m s) as [s1 [[x|e]|e]]; cbn; [by intros [= -> ->] | done..].
Qed.

Lemma add_records p ap c (s s' : apply_state (W := W)) :
  apply_add_file p ap c s = (s', Ok ()) →
  ∃ o, delta_changes (delta s') = delta_changes (delta s) ++ [mkPatchChange p (ChangeAdd c o)].
Proof.
  unfold apply_add_file. destruct (read_optional_spec p s) as (s1 & o & H1 & _ & Hc & _).
  rewrite (st_bind_step _ _ _ _ _ H1). unfold mbind at 1, st_err_bind at 1.
  destruct (try_write _ s1) as [s2 [[]|e]] eqn:H2; [| done]. apply try_write_inv in H2.
  destruct (write_retry_spec p c s1) as (s2' & r & H2' & Hd & _). rewrite H2 in H2'. injection H2' as <- <-.
  eval_m. intros [= <-]. exists o. cbn. by rewrite Hd, Hc.
Qed.

Lemma delete_records p ap (s s' : apply_state (W := W)) :
  apply_delete_file p ap s = (s', Ok ()) → exact (delta s') = true →
  ∃ t, delta_changes (delta s') = delta_changes (delta s) ++ [mkPatchChange p (ChangeDelete t)].
Proof.
  intros Hrun Hex. unfold apply_delete_file in Hrun. destruct (note_spec p s) as (s1 & H1 & _ & Hc & _).
  rewrite (st_bind_step _ _ _ _ _ H1) in Hrun. erewrite st_bind_step in Hrun; [| done].
  erewrite st_bind_step in Hrun; [| done]. unfold mbind at 1, st_err_bind at 1 in Hrun.
  destruct (read_file_text (world s1) p) as [t|e]; cbn [opt_is_some] in Hrun.
  - destruct (remove_checked _ _ _ _) as [s2 [[]|e]] eqn:H2; [| done].
    apply remove_checked_changes in H2. revert Hrun. eval_m. intros [= <-]. exists t. cbn in H2 |- *. by rewrite H2, Hc.
  - exfalso. match type of Hrun with context [remove_checked ?p ?c ?o ?s] =>
      pose proof (remove_checked_inexact p c o s) as Hi; destruct (remove_checked p c o s) as [s2 [[]|e']] end; [| done].
    revert Hrun. eval_m. intros [= <-]. cbn in Hex, Hi. rewrite Hi in Hex; [done|]. apply andb_false_r.
Qed.

Lemma update_records p ap d cs (s s' : apply_state (W := W)) :
  apply_update_file p ap d cs s = (s', Ok ()) →
  ∃ old o new, delta_changes (delta s') = delta_changes (delta s) ++ [mkPatchChange p (ChangeUpdate d old o new)] ∧
               derive_new_contents p old cs = Ok (Some (mkApplied old new)).
Proof.
  unfold apply_update_file. destruct (note_spec p s) as (s1 & H1 & _ & Hc & _).
  rewrite (st_bind_step _ _ _ _ _ H1). erewrite st_bind_step; [| done].
  destruct (derive_new_contents_from_chunks (world s1) p cs) as [[[old new]|]|e] eqn:Hd; [| done..].
  assert (Hder : derive_new_contents p old cs = Ok (Some (mkApplied old new))).
  { pose proof (derive_original _ _ _ _ Hd) as Hr. cbn in Hr. unfold derive_new_contents_from_chunks in Hd.
    by rewrite Hr in Hd. }
  destruct d as [d|].
  - unfold apply_move. destruct (read_optional_spec d s1) as (s2 & o & H2 & _ & Hc2 & _).
    rewrite (st_bind_step _ _ _ _ _ H2). unfold mbind at 1, st_err_bind at 1.
    destruct (try_write _ s2) as [s3 [[]|e]] eqn:H3; [| done]. apply try_write_inv in H3.
    destruct (write_retry_spec d new s2) as (s3' & r & H3' & Hd3 & _). cbn [new_contents] in H3.
    rewrite H3 in H3'. injection H3' as <- <-. erewrite st_bind_step; [| done]. erewrite st_bind_step; [| done].
    unfold mbind at 1, st_err_bind at 1. destruct (remove_checked _ _ _ _) as [s4 [[]|e]] eqn:H4; [| done].
    apply remove_checked_changes in H4. cbn in H4. eval_m. intros [= <-]. exists old, o, new. split; [| done].
    cbn. by rewrite H4, insert_app_r_alt, Nat.sub_diag, Hd3, Hc2, Hc.
  - unfold apply_update_in_place, try_write. eval_m. cbn [new_contents original_contents]. destruct (write_file p new (world s1)) as [w' [[]|e]]; cbn; [| done].
    intros [= <-]. exists old, None, new. split; [| done]. cbn. by rewrite Hc.
Qed.

(** A run that succeeds and vouches for its delta records every hunk, in order. *)
Lemma run_records cwd hs (s s' : apply_state (W := W)) :
  apply_each home_dir cwd hs s = (s', Ok ()) → exact (delta s') = true →
  ∃ cs, delta_changes (delta s') = delta_changes (delta s) ++ cs ∧ Forall2 (records cwd) hs cs.
Proof.
  revert s. induction hs as [| h hs IH]; intros s; cbn [apply_each].
  { intros [= <-] _. exists []. by rewrite app_nil_r. }
  unfold mbind, st_err_bind. destruct (apply_hunk home_dir cwd h s) as [s1 [[]|e]] eqn:Hh; [| done].
  intros Hrun Hex. destruct (IH _ Hrun Hex) as (cs & Hcs & Hall).
  assert (Hex1 : exact (delta s1) = true).
  { pose proof (vouched_each (W := W) home_dir cwd hs s1) as Hv. rewrite Hrun in Hv. by apply Hv. }
  assert (Hr : ∃ c, delta_changes (delta s1) = delta_changes (delta s) ++ [c] ∧ records cwd h c).
  { destruct h as [path contents | path | path mp chunks]; cbn [apply_hunk] in Hh.
    - apply add_records in Hh as (o & Hd). by eexists.
    - apply delete_records in Hh as (t & Hd); [| done]. by eexists.
    - apply update_records in Hh as (old & o & new & Hd & Hder). eexists. split; [exact Hd|]. by repeat split. }
  destruct Hr as (c & Hc & Hrec). exists (c :: cs). split; [| by constructor]. by rewrite Hcs, Hc, <- app_assoc.
Qed.

(** All the paths of the hunks. *)
Definition touched (cwd : str) (hs : list Hunk) : list str := concat (map (hunk_paths home_dir cwd) hs).

Lemma elem_of_touched cwd hs p : p ∈ touched cwd hs ↔ ∃ h, h ∈ hs ∧ p ∈ hunk_paths home_dir cwd h.
Proof.
  unfold touched. rewrite list_elem_of_In, in_concat. setoid_rewrite in_map_iff. setoid_rewrite <- list_elem_of_In.
  naive_solver.
Qed.

(** Distinct paths tell the hunks apart. *)
Lemma touched_index cwd hs i j h h' p :
  NoDup (touched cwd hs) → hs !! i = Some h → hs !! j = Some h' →
  p ∈ hunk_paths home_dir cwd h → p ∈ hunk_paths home_dir cwd h' → i = j.
Proof.
  revert i j. induction hs as [| x hs IH]; intros i j Hnd Hi Hj Hp Hp'; [done|].
  unfold touched in Hnd. cbn [map concat] in Hnd. apply NoDup_app in Hnd as (_ & Hdis & Hnd).
  assert (Hin : ∀ k y, hs !! k = Some y → p ∈ hunk_paths home_dir cwd y → p ∈ touched cwd hs).
  { intros k y Hk Hy. apply elem_of_touched. exists y. split; [by eapply list_elem_of_lookup_2 | done]. }
  destruct i as [| i], j as [| j]; cbn in Hi, Hj; simplify_eq.
  - done.
  - destruct (Hdis p Hp). by eapply Hin.
  - destruct (Hdis p Hp'). by eapply Hin.
  - f_equal. by eapply IH.
Qed.

Lemma NoDup_touched_hunk cwd hs i h :
  NoDup (touched cwd hs) → hs !! i = Some h → NoDup (hunk_paths home_dir cwd h).
Proof.
  revert i. induction hs as [| x hs IH]; intros i Hnd Hi; [done|]. unfold touched in Hnd. cbn [map concat] in Hnd.
  apply NoDup_app in Hnd as (Hx & _ & Hnd). destruct i as [| i]; cbn in Hi; [by injection Hi as -> | by eapply IH].
Qed.

Lemma verified_dest w cwd h v d :
  verify_hunk home_dir unified_diff w cwd h = Ok v → change_move v = Some d → d ∈ hunk_paths home_dir cwd h.
Proof.
  destruct h as [? ? | ? | path mp chunks]; cbn [verify_hunk].
  - by intros [= <-].
  - intros (t & _ & [= <-])%bind_Ok. done.
  - intros (u & _ & [= <-])%bind_Ok. cbn [change_move]. destruct mp as [t|]; [| done]. intros [= <-].
    unfold hunk_paths, abs_join. set_solver.
Qed.

Lemma replay_change_other cwd h c m p :
  records cwd h c → p ∉ hunk_paths home_dir cwd h → replay_change c m !! p = m !! p.
Proof.
  intros [Hs Hr] Hp. apply not_elem_of_cons in Hp as [Hne Hd]. unfold replay_change. rewrite Hs.
  destruct h as [path contents | path | path mp chunks], (file_change c) as [x ?|?|d ? ? ?]; try done.
  - by apply lookup_insert_ne.
  - by apply lookup_delete_ne.
  - destruct Hr as [-> _]. destruct mp as [t|]; cbn [fmap option_fmap option_map].
    + apply not_elem_of_cons in Hd as [Hd _]. rewrite lookup_insert_ne by done. by apply lookup_delete_ne.
    + by apply lookup_insert_ne.
Qed.

Lemma replay_other cwd hs cs m p :
  Forall2 (records cwd) hs cs → p ∉ touched cwd hs → replay cs m !! p = m !! p.
Proof.
  intros Hall; revert m; induction Hall as [| h c hs cs Hc Hall IH]; intros m Hp; [done|].
  unfold touched in Hp. cbn [map concat] in Hp. apply not_elem_of_app in Hp as [Hp Hps].
  change (replay (c :: cs) m) with (replay cs (replay_change c m)).
  rewrite IH by done. by eapply replay_change_other.
Qed.

Lemma replay_app cs cs' m : replay (cs ++ cs') m = replay cs' (replay cs m).
Proof. unfold replay. apply fold_left_app. Qed.
Lemma honest_app cs cs' m : honest (cs ++ cs') m → honest cs' (replay cs m).
Proof. revert m. induction cs as [| c cs IH]; intros m; [done|]. intros [_ H]. by apply IH. Qed.

(** What a verified hunk leaves at its source. *)
Definition left_at_source (v : ApplyPatchFileChange) : option str :=
  match v with
  | FileAdd content => Some content
  | FileDelete _ | FileUpdate _ (Some _) _ => None
  | FileUpdate _ None new => Some new
  end.

Lemma verified_update w cwd path mp chunks v old new :
  let p := resolve_path_against_base home_dir path cwd in
  verify_hunk home_dir unified_diff w cwd (UpdateFile path mp chunks) = Ok v →
  plain_path w p → files w !! p = Some old → derive_new_contents p old chunks = Ok (Some (mkApplied old new)) →
  ∃ diff, v = FileUpdate diff (dest cwd <$> mp) new.
Proof.
  cbn zeta. cbn [verify_hunk]. intros (u & Hu & [= <-])%bind_Ok Hp Hf Hd.
  unfold unified_diff_from_chunks, unified_diff_from_chunks_with_context in Hu.
  apply bind_Ok in Hu as ([pt|] & Hder & Hu); [| done]. injection Hu as <-. cbn [update_content update_diff].
  pose proof (derive_original _ _ _ _ Hder) as Hr. pose proof Hr as Hr'.
  apply (plain_read _ _ _ Hp) in Hr' as [_ Hr']. cbn in Hr, Hr', Hp. rewrite Hf in Hr'. injection Hr' as Ho.
  unfold derive_new_contents_from_chunks in Hder. rewrite Hr, <- Ho in Hder.
  cbn [map_err mbind result_bind] in Hder. unfold resolve_path, hunk_source_path in Hder.
  rewrite Hd in Hder. injection Hder as <-. by eexists.
Qed.

Lemma hunk_outcome w cwd h c v m :
  records cwd h c → verify_hunk home_dir unified_diff w cwd h = Ok v → NoDup (hunk_paths home_dir cwd h) →
  plain_path w (source cwd h) → files w !! source cwd h = m !! source cwd h →
  undo_change c (replay_change c m) = m →
  replay_change c m !! source cwd h = left_at_source v ∧
  ∀ d, change_move v = Some d → ∃ diff new, v = FileUpdate diff (Some d) new ∧ replay_change c m !! d = Some new.
Proof.
  intros [Hs Hr] Hv Hnd Hp Hf Hu. destruct c as [k fc]. cbn [change_path file_change] in *. subst k.
  destruct h as [path contents | path | path mp chunks]; destruct fc as [x ?|?|dd old ov new]; try done;
    unfold replay_change, undo_change in *; cbn [change_path file_change] in *.
  - subst. injection Hv as <-. split; [apply lookup_insert_eq | done].
  - cbn [verify_hunk] in Hv. apply bind_Ok in Hv as (t & _ & [= <-]). split; [apply lookup_delete_eq | done].
  - destruct Hr as [-> Hder]. cbn [resolve_path hunk_source_path] in *.
    assert (Hold : m !! resolve_path_against_base home_dir path cwd = Some old).
    { destruct mp as [t|]; cbn [fmap option_fmap option_map] in Hu; rewrite <- Hu; apply lookup_insert_eq. }
    destruct (verified_update w cwd path mp chunks v old new Hv Hp) as (diff & ->); [exact (eq_trans Hf Hold) | done |].
    destruct mp as [t|]; cbn [fmap option_fmap option_map left_at_source change_move].
    + unfold hunk_paths in Hnd. apply NoDup_cons in Hnd as [Hne _]. rewrite list_elem_of_singleton in Hne.
      split; [rewrite lookup_insert_ne by (intros E; by apply Hne); apply lookup_delete_eq|].
      intros d [= <-]. eexists _, _. split; [done|]. apply lookup_insert_eq.
    + split; [apply lookup_insert_eq | done].
Qed.

Lemma verified_at w cwd hs cs i h :
  verify_hunks home_dir unified_diff w cwd hs ∅ = Ok cs → NoDup (touched cwd hs) → hs !! i = Some h →
  ∃ v, verify_hunk home_dir unified_diff w cwd h = Ok v ∧ cs !! source cwd h = Some v.
Proof.
  intros Hv Hnd Hi. rewrite <- (take_drop_middle hs i h Hi) in Hv. eapply verify_hunks_at; [exact Hv|].
  intros h' Hh' E. apply list_elem_of_lookup in Hh' as [j Hj]. rewrite lookup_drop in Hj.
  assert (i = S i + j); [| lia]. eapply (touched_index cwd hs _ _ _ _ (source cwd h) Hnd Hi Hj); [set_solver|].
  rewrite <- E. set_solver.
Qed.

Lemma verified_key w cwd hs cs k v :
  verify_hunks home_dir unified_diff w cwd hs ∅ = Ok cs → cs !! k = Some v →
  ∃ i h, hs !! i = Some h ∧ source cwd h = k.
Proof.
  intros Hv Hk. destruct (decide (Exists (λ h, source cwd h = k) hs)) as [Hex | Hno].
  - apply Exists_exists in Hex as (h & [i Hi]%list_elem_of_lookup & Hh). eauto.
  - rewrite (verify_hunks_other _ _ _ _ _ _ _ k Hv) in Hk; [by rewrite lookup_empty in Hk|].
    intros h Hh E. apply Hno, Exists_exists. eauto.
Qed.

Lemma moved_to_Some p k v new : moved_to p (k, v) = Some new ↔ ∃ diff, v = FileUpdate diff (Some p) new.
Proof.
  unfold moved_to. cbn [snd]. destruct v as [?|?|diff [d|] n]; try naive_solver.
  destruct (str_eqb_reflect d p) as [-> | Hne]; naive_solver.
Qed.

(** Nothing before or after a hunk touches its paths. *)
Lemma touched_elsewhere cwd hs i h q :
  NoDup (touched cwd hs) → hs !! i = Some h → q ∈ hunk_paths home_dir cwd h →
  (q ∉ touched cwd (take i hs)) ∧ (q ∉ touched cwd (drop (S i) hs)).
Proof.
  intros Hnd Hi Hq. split; intros (h' & [j Hj]%list_elem_of_lookup & Hq')%elem_of_touched.
  - apply lookup_take_Some in Hj as [Hj Hlt]. assert (i = j) by (by eapply touched_index). lia.
  - rewrite lookup_drop in Hj. assert (i = S i + j) by (by eapply touched_index). lia.
Qed.

(** What one hunk of a run leaves at its paths in the end. *)
Lemma record_outcome w cwd hs m i h v :
  NoDup (touched cwd hs) → plain_path w (source cwd h) → Forall2 (records cwd) hs m → honest m (files w) →
  hs !! i = Some h → verify_hunk home_dir unified_diff w cwd h = Ok v →
  replay m (files w) !! source cwd h = left_at_source v ∧
  ∀ d, change_move v = Some d → ∃ diff new, v = FileUpdate diff (Some d) new ∧ replay m (files w) !! d = Some new.
Proof.
  intros Hnd Hplain Hrec Hhon Hi Hvh. destruct (Forall2_lookup_l _ _ _ _ _ Hrec Hi) as (c & Hc & Hch).
  pose proof (λ q, touched_elsewhere cwd hs i h q Hnd Hi) as Hout.
  pose proof (Forall2_take _ _ _ i Hrec) as Hr1. pose proof (Forall2_drop _ _ _ (S i) Hrec) as Hr2.
  rewrite <- (take_drop_middle m i c Hc) in Hhon |- *. rewrite replay_app. cbn [app].
  set (mi := replay (take i m) (files w)) in *.
  change (replay (c :: drop (S i) m) mi) with (replay (drop (S i) m) (replay_change c mi)).
  apply honest_app in Hhon as [Hu _]. fold mi in Hu.
  assert (Hsrc : source cwd h ∈ hunk_paths home_dir cwd h) by (apply elem_of_cons; by left).
  destruct (hunk_outcome w cwd h c v mi Hch Hvh) as [Ho Hd]; [| done | | done |].
  - apply (NoDup_touched_hunk cwd hs i h Hnd Hi).
  - unfold mi. by rewrite (replay_other cwd _ _ _ _ Hr1) by (by apply Hout).
  - split; [by rewrite (replay_other cwd _ _ _ _ Hr2) by (by apply Hout)|].
    intros d Hm. destruct (Hd d Hm) as (diff & new & -> & Hn). exists diff, new. split; [done|].
    rewrite (replay_other cwd _ _ _ _ Hr2); [done|]. apply Hout. by eapply verified_dest.
Qed.

(** The files after the recorded changes are those the verified changes announce. *)
Lemma preview_of_records w cwd hs cs m :
  verify_hunks home_dir unified_diff w cwd hs ∅ = Ok cs → NoDup (touched cwd hs) →
  (∀ h, h ∈ hs → plain_path w (source cwd h)) →
  Forall2 (records cwd) hs m → honest m (files w) →
  ∀ p, replay m (files w) !! p = previewed cs (files w) p.
Proof.
  intros Hv Hnd Hplain Hrec Hhon p.
  assert (Hat : ∀ i h v, hs !! i = Some h → verify_hunk home_dir unified_diff w cwd h = Ok v →
            replay m (files w) !! source cwd h = left_at_source v ∧
            ∀ d, change_move v = Some d →
              ∃ diff new, v = FileUpdate diff (Some d) new ∧ replay m (files w) !! d = Some new).
  { intros i h v Hi. apply (record_outcome w cwd hs m i h v); try done. apply Hplain. by eapply list_elem_of_lookup_2. }
  unfold previewed. destruct (cs !! p) as [v|] eqn:Hp.
  - destruct (verified_key _ _ _ _ _ _ Hv Hp) as (i & h & Hi & <-).
    destruct (verified_at _ _ _ _ _ _ Hv Hnd Hi) as (v' & Hvh & Hv'). rewrite Hp in Hv'. injection Hv' as <-.
    destruct (Hat _ _ _ Hi Hvh) as [-> _]. destruct v as [?|?|? [?|] ?]; done.
  - destruct (find_map (moved_to p) (map_to_list cs)) as [new|] eqn:Hf.
    + apply find_map_Some in Hf as ([k v] & Hkv%elem_of_map_to_list & Hmv). apply moved_to_Some in Hmv as (diff & ->).
      destruct (verified_key _ _ _ _ _ _ Hv Hkv) as (i & h & Hi & <-).
      destruct (verified_at _ _ _ _ _ _ Hv Hnd Hi) as (v' & Hvh & Hv'). rewrite Hkv in Hv'. injection Hv' as <-.
      destruct (Hat _ _ _ Hi Hvh) as [_ Hd]. destruct (Hd p eq_refl) as (? & ? & [= <- <-] & ->). done.
    + apply (replay_other cwd hs); [done|]. intros (h & [i Hi]%list_elem_of_lookup & Hin)%elem_of_touched.
      destruct (verified_at _ _ _ _ _ _ Hv Hnd Hi) as (v & Hvh & Hk).
      destruct (verify_hunk_paths _ _ _ _ _ _ _ Hvh Hin) as [-> | [_ Hm]]; [by rewrite Hp in Hk|].
      destruct (Hat _ _ _ Hi Hvh) as [_ Hd]. destruct (Hd p Hm) as (diff & new & -> & _).
      rewrite find_map_None in Hf. specialize (Hf (source cwd h, FileUpdate diff (Some p) new)).
      rewrite elem_of_map_to_list in Hf. specialize (Hf Hk).
      assert (moved_to p (source cwd h, FileUpdate diff (Some p) new) = Some new) as E by (apply moved_to_Some; eauto).
      by rewrite E in Hf.
Qed.

(** The files a successful run leaves. *)
Lemma run_previewed w cwd hs cs d :
  verify_hunks home_dir unified_diff w cwd hs ∅ = Ok cs → NoDup (touched cwd hs) →
  (∀ h, h ∈ hs → plain_path w (source cwd h)) →
  let o := apply_hunks home_dir hs cwd w in
  out_result o = Ok d → exact d = true → ∀ p, files (out_world o) !! p = previewed cs (files w) p.
Proof.
  intros Hv Hnd Hplain. cbn zeta. unfold apply_hunks, apply_hunks_to_files.
  destruct (is_empty hs); [done|]. set (s0 := mkApplyState w delta_empty (mkAffected [] [] [])).
  unfold mbind, st_err_bind. destruct (apply_each home_dir cwd hs s0) as [s [[]|e]] eqn:Hrun; [| done].
  cbn [out_result out_world get mret st_err_ret]. intros [= <-] Hex p.
  assert (Haway : Forall (renames_away home_dir cwd) hs).
  { apply Forall_forall. intros h [i Hi]%list_elem_of_lookup. pose proof (NoDup_touched_hunk _ _ _ _ Hnd Hi) as Hh.
    destruct h as [? ? | ? | path [t|] chunks]; cbn [renames_away]; try done.
    apply NoDup_cons in Hh as [Hh _]. intros E. apply Hh. rewrite list_elem_of_singleton. by symmetry. }
  assert (Ht : tracks (files w) s0) by done. apply (apply_each_tracks home_dir _ cwd _ _ Haway) in Ht.
  rewrite Hrun in Ht. cbn [fst] in Ht. destruct (Ht Hex) as [<- Hhon].
  destruct (run_records _ _ _ _ Hrun Hex) as (m & Hm & Hrec). cbn in Hm. rewrite Hm in Hhon |- *.
  by eapply preview_of_records.
Qed.
End Preview.

(** ** The verified patch and its run *)

(** The run of a verified action: its text is parsed again. *)
Lemma apply_action {W} `{!ExecutorFileSystem W} home_dir unified_diff text args dir cwd (w w' : W) action :
  parse_patch text = Ok args → no_trailing_cr (patch args) →
  verify_apply_patch_args home_dir unified_diff (with_workdir dir args) cwd w = VerifiedBody action →
  verify_hunks home_dir unified_diff w (action_cwd action) (args_hunks args) ∅ = Ok (changes action) ∧
  apply_patch home_dir (action_patch action) (action_cwd action) w' =
    apply_hunks home_dir (args_hunks args) (action_cwd action) w'.
Proof.
  intros Hp Hcr Hv. unfold verify_apply_patch_args in Hv.
  destruct (verify_hunks _ _ _ _ _ _) as [cs|e] eqn:Hh; [| done]. injection Hv as <-.
  cbn [with_workdir args_hunks patch action_cwd action_patch changes] in *. split; [done|].
  destruct (reparse_same _ _ Hp Hcr) as (args' & Hp' & Heq & _). unfold apply_patch. by rewrite Hp', Heq.
Qed.

(** a verified patch stays within its action.  The run of the action's text, in any
    later state of the file system and whatever fails in it, writes and removes only
    files the action names, as the path of a change or the target of a rename, and creates
    only their parent directories; provided that no path is used again after it was renamed
    away. *)
Theorem verified_run_confined {W} `{!ExecutorFileSystem W} home_dir unified_diff text args dir cwd
    (w w' : W) action :
  parse_patch text = Ok args → no_trailing_cr (patch args) →
  verify_apply_patch_args home_dir unified_diff (with_workdir dir args) cwd w = VerifiedBody action →
  moves_kept home_dir (action_cwd action) (args_hunks args) →
  confined (action_touches action) w'
    (out_world (apply_patch home_dir (action_patch action) (action_cwd action) w')).
Proof.
  intros Hp Hcr Hv Hkept. destruct (apply_action _ _ _ _ _ _ _ w' _ Hp Hcr Hv) as [_ ->].
  apply apply_hunks_confined. intros h p Hh Hin. by eapply (hunks_in_action _ _ (with_workdir dir args)).
Qed.

(** C8: what the user is shown is what happens.  When a patch was verified against a file
    system that obeys the laws and is run on the files in that same state, no line of its text ends in a carriage
    return, its paths are distinct, its sources are plain paths, and the run succeeds with an
    exact delta, every file then has the content the verified changes announce: the new
    content at the paths added, updated and renamed to, nothing at the paths deleted and
    renamed from, and what was there before everywhere else.  A line that ends in a carriage
    return loses it when the text is parsed again for the run ([carriage_return_lost]). *)
Theorem patch_preview_exact {W} `{!ExecutorFileSystem W} `{!FileSystemLaws W} home_dir unified_diff
    text args dir cwd (w : W) action d :
  parse_patch text = Ok args → no_trailing_cr (patch args) →
  verify_apply_patch_args home_dir unified_diff (with_workdir dir args) cwd w = VerifiedBody action →
  NoDup (touched home_dir (action_cwd action) (args_hunks args)) →
  (∀ h, h ∈ args_hunks args → plain_path w (resolve_path home_dir h (action_cwd action))) →
  let o := apply_patch home_dir (action_patch action) (action_cwd action) w in
  out_result o = Ok d → exact d = true →
  ∀ p, files (out_world o) !! p = previewed (changes action) (files w) p.
Proof.
  intros Hp Hcr Hv Hnd Hplain. destruct (apply_action _ _ _ _ _ _ _ w _ Hp Hcr Hv) as [Hh ->].
  cbn zeta. by apply run_previewed with unified_diff.
Qed.

(** ** Explicit calls *)

Lemma parse_shell_patch_body bash argv args :
  parse_shell_patch bash argv = PatchBody args →
  ∃ shell script body dir args0, parse_shell_script argv = Some (shell, script) ∧
    extract_apply_patch_from_bash bash script = Ok (body, dir) ∧
    parse_patch body = Ok args0 ∧ args = with_workdir dir args0.
Proof.
  unfold parse_shell_patch. destruct (parse_shell_script argv) as [[shell script]|]; [| done].
  assert (Hs : extract_apply_patch_from_shell bash shell script = extract_apply_patch_from_bash bash script)
    by (by destruct shell).
  rewrite Hs. destruct (extract_apply_patch_from_bash bash script) as [[body dir]|[]] eqn:He; try done.
  destruct (parse_patch body) as [args0|] eqn:Hp; [| done]. intros [= <-]. eauto 10.
Qed.

Lemma parsed_workdir text args : parse_patch text = Ok args → with_workdir None args = args.
Proof.
  unfold parse_patch, parse_patch_text. intros (ls & _ & Hp)%bind_Ok.
  by apply bind_Ok in Hp as ((hs & id) & _ & [= <-]).
Qed.

(** only explicit calls are taken for patches.  A command is turned into an action only if
    it is [apply_patch] or [applypatch] with the patch as its argument, or a shell script in
    which the grammar finds such a call with a here-document; the patch names no environment,
    and neither the command nor the script is itself a patch. *)
Theorem verified_calls_explicit {W} `{!ExecutorFileSystem W} bash home_dir unified_diff argv cwd (w : W) action :
  maybe_parse_apply_patch_verified bash home_dir unified_diff argv cwd w = VerifiedBody action →
  ∃ body args dir,
    parse_patch body = Ok args ∧ args_environment_id args = None ∧
    verify_apply_patch_args home_dir unified_diff (with_workdir dir args) cwd w = VerifiedBody action ∧
    ((∃ cmd, argv = [cmd; body] ∧ cmd ∈ APPLY_PATCH_COMMANDS ∧ dir = None) ∨
     (∃ shell script, parse_shell_script argv = Some (shell, script) ∧
        extract_apply_patch_from_bash bash script = Ok (body, dir) ∧ is_ok (parse_patch script) = false)).
Proof.
  unfold maybe_parse_apply_patch_verified. destruct (implicit_invocation argv) eqn:Himp; [done|].
  apply orb_false_iff in Himp as [_ Himp].
  destruct (maybe_parse_apply_patch bash argv) as [args|e|e|] eqn:Hm; [| done..].
  destruct (opt_is_some (args_environment_id args)) eqn:Hid; [done|]. intros Hv.
  assert (Hshell : parse_shell_patch bash argv = PatchBody args →
    ∃ body args0 dir, parse_patch body = Ok args0 ∧ args_environment_id args0 = None ∧
      verify_apply_patch_args home_dir unified_diff (with_workdir dir args0) cwd w = VerifiedBody action ∧
      ∃ shell script, parse_shell_script argv = Some (shell, script) ∧
        extract_apply_patch_from_bash bash script = Ok (body, dir) ∧ is_ok (parse_patch script) = false).
  { intros (shell & script & body & dir & args0 & Hs & He & Hp & ->)%parse_shell_patch_body.
    rewrite Hs in Himp. cbn [with_workdir args_environment_id] in Hid.
    exists body, args0, dir. split; [done|]. split; [by destruct (args_environment_id args0)|]. eauto 8. }
  assert (Hor : parse_shell_patch bash argv = PatchBody args ∨
    ∃ cmd body, argv = [cmd; body] ∧ is_apply_patch_command cmd = true ∧ parse_patch body = Ok args).
  { destruct argv as [| cmd [| body [| ? ?]]]; cbn [maybe_parse_apply_patch] in Hm; try (by left).
    destruct (is_apply_patch_command cmd) eqn:Hc; [| by left]. right.
    destruct (parse_patch body) as [args'|] eqn:Hp; [| done]. injection Hm as ->. eauto. }
  destruct Hor as [Hs | (cmd & body & -> & Hc & Hp)].
  { destruct (Hshell Hs) as (body & args0 & dir & Hp & Hi & Hv' & Hsc). exists body, args0, dir. eauto. }
  exists body, args, None. split; [done|]. split; [by destruct (args_environment_id args)|].
  rewrite (parsed_workdir _ _ Hp). split; [done|]. left. exists cmd. split; [done|]. split; [| done].
  apply any_true in Hc as (c & Hc & ->%str_eqb_true). done.
Qed.

(** ** An example *)

Lemma moves_kept_nodup home_dir cwd hs :
  NoDup (map (λ h, resolve_path home_dir h cwd) hs) → moves_kept home_dir cwd hs.
Proof.
  intros Hnd a h b -> _ h' Hh' E. rewrite map_app in Hnd. cbn [map] in Hnd.
  apply NoDup_app in Hnd as (_ & _ & [Hno _]%NoDup_cons). apply Hno. rewrite <- E.
  apply list_elem_of_In, (in_map (λ h, resolve_path home_dir h cwd)), list_elem_of_In, Hh'.
Qed.

(** The renderer of diffs of the examples: the new text. *)
Definition demo_diff (_ : nat) (_ new : str) : str := new.

Definition demo_patch : str := join [nl]
  [lit "*** Begin Patch"; lit "*** Add File: new.txt"; lit "+hello";
   lit "*** Update File: a.txt"; lit "*** Move to: b.txt"; lit "@@"; lit "-one"; lit "+two";
   lit "*** Delete File: c.txt"; lit "*** End Patch"].
Definition demo_patch_args : ApplyPatchArgs :=
  mkArgs demo_patch
    [AddFile (lit "new.txt") (lit "hello" ++ [nl]);
     UpdateFile (lit "a.txt") (Some (lit "b.txt")) [mkChunk None [lit "one"] [lit "two"] false];
     DeleteFile (lit "c.txt")] None None.
Definition demo_patch_world : mem :=
  {[ lit "/w/a.txt" := lit "one" ++ [nl]; lit "/w/c.txt" := lit "gone"; lit "/w/d.txt" := lit "kept" ]}.
Definition demo_action : ApplyPatchAction :=
  mkAction
    (<[lit "/w/c.txt" := FileDelete (lit "gone")]>
       (<[lit "/w/a.txt" := FileUpdate (lit "two" ++ [nl]) (Some (lit "/w/b.txt")) (lit "two" ++ [nl])]>
          (<[lit "/w/new.txt" := FileAdd (lit "hello" ++ [nl])]> ∅)))
    demo_patch (lit "/w").

Lemma demo_parsed : parse_patch demo_patch = Ok demo_patch_args.
Proof. by_compute. Qed.
Lemma demo_no_cr : no_trailing_cr demo_patch.
Proof. apply (bool_decide_unpack _). by_compute. Qed.
Lemma demo_verified :
  verify_apply_patch_args None demo_diff (with_workdir None demo_patch_args) (lit "/w") demo_patch_world
  = VerifiedBody demo_action.
Proof. by_compute. Qed.

Lemma verified_run_confined_witness :
  confined (action_touches demo_action) (∅ : mem)
    (out_world (apply_patch None demo_patch (lit "/w") (∅ : mem))).
Proof.
  apply (verified_run_confined (W := mem) None demo_diff demo_patch demo_patch_args None (lit "/w") demo_patch_world
    ∅ demo_action demo_parsed demo_no_cr demo_verified).
  apply moves_kept_nodup. apply (bool_decide_unpack _). by_compute.
Defined.

Lemma patch_preview_exact_witness :
  let o := apply_patch None demo_patch (lit "/w") demo_patch_world in
  previewed (changes demo_action) demo_patch_world (lit "/w/b.txt") = Some (lit "two" ++ [nl]) ∧
  ∀ p, files (out_world o) !! p = previewed (changes demo_action) (files demo_patch_world) p.
Proof.
  cbn zeta. split; [by_compute|].
  apply (patch_preview_exact (W := mem) None demo_diff demo_patch demo_patch_args None (lit "/w") demo_patch_world
    demo_action (outcome_delta (apply_patch None demo_patch (lit "/w") demo_patch_world))
    demo_parsed demo_no_cr demo_verified).
  - apply (bool_decide_unpack _). by_compute.
  - intros h Hh. apply (@list_elem_of_In Hunk) in Hh. cbn [demo_patch_args args_hunks In] in Hh.
    destruct Hh as [<- | [<- | [<- | []]]].
    + right. apply mem_missing. by_compute.
    + left. apply mem_regular. eexists. by_compute.
    + left. apply mem_regular. eexists. by_compute.
  - by_compute.
  - by_compute.
Defined.

Lemma verified_calls_explicit_witness :
  let bash := mkBashQuery (Ok ()) (λ src, Some [[(lit "heredoc", Ok (demo_patch ++ [nl])); (lit "cd_path", Ok (lit "/w"))]]) in
  ∃ body args dir, parse_patch body = Ok args ∧
    verify_apply_patch_args None demo_diff (with_workdir dir args) (lit "/") demo_patch_world = VerifiedBody demo_action.
Proof.
  cbn zeta.
  destruct (verified_calls_explicit (W := mem)
    (mkBashQuery (Ok ()) (λ src, Some [[(lit "heredoc", Ok (demo_patch ++ [nl])); (lit "cd_path", Ok (lit "/w"))]]))
    None demo_diff [lit "/bin/bash"; lit "-lc"; lit "cd /w && apply_patch <<EOF .. EOF"] (lit "/") demo_patch_world
    demo_action) as (body & args & dir & Hp & _ & Hv & _); [by_compute|]. eauto.
Defined.

(** A rename can be missing from the action.  The second hunk of [a.txt] replaces the first
    in the map of changes, and with it the rename out of the working directory: the action
    only adds [a.txt], and the run writes [/etc/x] as well. *)
Definition hidden_rename_patch : str := join [nl]
  [lit "*** Begin Patch"; lit "*** Update File: a.txt"; lit "*** Move to: ../etc/x"; lit "@@"; lit "-one"; lit "+two";
   lit "*** Add File: a.txt"; lit "+one"; lit "*** End Patch"].

Example rename_hidden :
  let w : mem := {[ lit "/w/a.txt" := lit "one" ++ [nl] ]} in
  let o := apply_patch None hidden_rename_patch (lit "/w") w in
  match parse_patch hidden_rename_patch with
  | Ok args =>
      verify_apply_patch_args None demo_diff args (lit "/w") w
      = VerifiedBody (mkAction {[ lit "/w/a.txt" := FileAdd (lit "one" ++ [nl]) ]} hidden_rename_patch (lit "/w"))
  | Err _ => False
  end ∧
  is_ok (out_result o) = true ∧ exact (outcome_delta o) = true ∧
  out_world o !! lit "/etc/x" = Some (lit "two" ++ [nl]).
Proof. cbn zeta. split; [by_compute|]. split; [by_compute|]. split; by_compute. Qed.
