(* ===== verification/PatchSafety.v ===== *)
(** * Deciding whether a patch may run

    [core/src/safety.rs] assesses a verified patch against the sandbox policy of the turn;
    [core/src/apply_patch.rs] turns the verdict into an approval requirement;
    [core/src/tools/handlers/apply_patch.rs] computes the permissions a patch needs, the
    paths the user is asked about and the request that the orchestrator runs
    (Orchestrator), and [core/src/tools/runtimes/apply_patch.rs] runs it.  The theorems
    follow a patch through all of them: what runs without a question writes only where the
    policy allows it, and what the user's earlier answers cover is what was asked then.

    The environment of the call is resolved in EnvResolve.  Unix hosts. *)

From S2P Require Import Prelude RustStr AbsPath HostShell Permissions ReadDeny PolicyTransforms CommandSafety EnvResolve.
From S2P Require Import ExecPolicy ExecApproval NetworkPolicy NetworkProxy Interact NetworkApproval Orchestrator.
From S2P Require Import SeekSequence PatchParser PatchGrammar PatchApply PatchFs PatchInvocation.

Open Scope rstr_scope.

(** A [HashMap] is iterated in some order. *)
Record HashOrder := mkHashOrder {
  iteration : gmap (list N) ApplyPatchFileChange → list (list N * ApplyPatchFileChange);
  iteration_perm m : iteration m ≡ₚ map_to_list m;
}.

(** ** core/src/safety.rs *)

Definition PATCH_REJECTED_OUTSIDE_PROJECT_REASON : str :=
  lit "writing outside of the project; rejected by user approval settings".
Definition PATCH_REJECTED_READ_ONLY_REASON : str :=
  lit "writing is blocked by read-only sandbox; rejected by user approval settings".

Inductive SafetyCheck :=
| AutoApprove (sandbox_type : SandboxType) (user_explicitly_approved : bool)
| AskUser
| Reject (reason : str).

Section Safety.
Context (os : TargetOs) (order : HashOrder) `{PW : PermWorld}.

(** [util::resolve_path]. *)
Definition util_resolve_path (base path : str) : str :=
  if path_is_absolute path then path else path_join base path.

(** The local [normalize]. *)
Definition normalize (path : str) : str := buf_string (fold_left normalize_step (components path) []).

Definition is_path_writable (policy : FileSystemSandboxPolicy) (cwd p : str) : bool :=
  can_write_path_with_cwd policy (normalize (util_resolve_path cwd p)) cwd.

Definition is_write_patch_constrained_to_writable_paths (action : ApplyPatchAction)
    (policy : FileSystemSandboxPolicy) (cwd : str) : bool :=
  all (λ '(path, change),
         match change with
         | FileAdd _ | FileDelete _ => is_path_writable policy cwd path
         | FileUpdate _ move_path _ =>
             is_path_writable policy cwd path &&
             match move_path with Some dest => is_path_writable policy cwd dest | None => true end
         end) (iteration order (changes action)).

(** [get_writable_roots_with_cwd(cwd).is_empty()]: the entries that become roots; removing
    duplicates and adding carve-outs keeps the list empty or not. *)
Definition writable_roots_is_empty (policy : FileSystemSandboxPolicy) (cwd : str) : bool :=
  has_full_disk_write_access policy
  || is_empty (List.filter (λ e, can_write (resolved_access e) && can_write_path_with_cwd policy (resolved_path e) cwd)
                 (resolved_entries_with_cwd policy cwd)).

Definition patch_rejection_reason (profile : PermissionProfile) (policy : FileSystemSandboxPolicy) (cwd : str) : str :=
  match profile with
  | ProfileManaged _ _ =>
      if negb (has_full_disk_write_access policy) && writable_roots_is_empty policy cwd
      then PATCH_REJECTED_READ_ONLY_REASON else PATCH_REJECTED_OUTSIDE_PROJECT_REASON
  | ProfileDisabled | ProfileExternal _ => PATCH_REJECTED_OUTSIDE_PROJECT_REASON
  end.

Definition rejects_sandbox_approval (policy : AskForApproval) : bool :=
  match policy with
  | Never => true
  | Granular sandbox_approval _ _ _ _ => negb sandbox_approval
  | _ => false
  end.

Definition assess_patch_safety (action : ApplyPatchAction) (policy : AskForApproval) (profile : PermissionProfile)
    (fs_policy : FileSystemSandboxPolicy) (cwd : str) (windows_level : WindowsSandboxLevel) : SafetyCheck :=
  if bool_decide (changes action = ∅) then Reject (lit "empty patch")
  else
    let decline := if rejects_sandbox_approval policy
                   then Reject (patch_rejection_reason profile fs_policy cwd) else AskUser in
    match policy with
    | UnlessTrusted => AskUser
    | _ =>
        if is_write_patch_constrained_to_writable_paths action fs_policy cwd
           || match policy with OnFailure => true | _ => false end
        then
          match profile with
          | ProfileDisabled | ProfileExternal _ => AutoApprove SandboxNone false
          | ProfileManaged _ _ =>
              match get_platform_sandbox os (negb (bool_decide (windows_level = WinDisabled))) with
              | Some sandbox_type => AutoApprove sandbox_type false
              | None => decline
              end
          end
        else decline
    end.

(** ** core/src/apply_patch.rs *)

Record ApplyPatchRuntimeInvocation := mkInvocation {
  inv_action : ApplyPatchAction;
  auto_approved : bool;
  inv_requirement : ExecApprovalRequirement;
}.
Inductive InternalApplyPatchInvocation :=
| Output (r : result EnvResolve.FunctionCallError str)
| DelegateToRuntime (apply : ApplyPatchRuntimeInvocation).

Definition core_apply_patch (t : ToolTurn) (fs_policy : FileSystemSandboxPolicy) (action : ApplyPatchAction) :
    InternalApplyPatchInvocation :=
  match assess_patch_safety action (turn_approval_policy (turn t)) (turn_profile (turn t)) fs_policy
          (action_cwd action) (windows_sandbox_level t) with
  | AutoApprove _ user_explicitly_approved =>
      DelegateToRuntime (mkInvocation action (negb user_explicitly_approved) (Skip false None))
  | AskUser => DelegateToRuntime (mkInvocation action false (NeedsApproval None None))
  | Reject reason => Output (Err (RespondToModel (lit "patch rejected: " ++ reason)))
  end.

(** [FileChange] (protocol/src/protocol.rs). *)
Inductive FileChange :=
| ProtoAdd (content : str)
| ProtoDelete (content : str)
| ProtoUpdate (unified_diff : str) (move_path : option str).

Definition convert_change (c : ApplyPatchFileChange) : FileChange :=
  match c with
  | FileAdd content => ProtoAdd content
  | FileDelete content => ProtoDelete content
  | FileUpdate unified_diff move_path _ => ProtoUpdate unified_diff move_path
  end.
Definition convert_apply_patch_to_protocol (action : ApplyPatchAction) : gmap (list N) FileChange :=
  convert_change <$> changes action.

(** ** The paths of a patch (tools/handlers/apply_patch.rs) *)

Definition to_abs_path (cwd path : str) : option str := Some (resolve_path_against_base perm_home path cwd).

Definition push_key (key : option str) (keys : list str) : list str :=
  match key with Some k => keys ++ [k] | None => keys end.

Definition file_paths_for_action (action : ApplyPatchAction) : list str :=
  let cwd := action_cwd action in
  fold_left (λ keys '(path, change),
    let keys := push_key (to_abs_path cwd path) keys in
    match change with
    | FileUpdate _ (Some dest) _ => push_key (to_abs_path cwd dest) keys
    | _ => keys
    end) (iteration order (changes action)) [].

Definition file_paths_for_hunks (cwd : str) (hs : list Hunk) : list str :=
  fold_left (λ keys h,
    let keys := push_key (to_abs_path cwd (PatchFs.hunk_source_path h)) keys in
    match h with
    | UpdateFile _ (Some dest) _ => push_key (to_abs_path cwd dest) keys
    | _ => keys
    end) hs [].
End Safety.

(** ** The permissions of a patch (tools/handlers/apply_patch.rs, tools/handlers/mod.rs) *)

(** [Path]s are ordered by their components. *)
Definition component_cmp (c d : Component) : comparison :=
  match c, d with
  | RootDir, RootDir | CurDir, CurDir | ParentDir, ParentDir => Eq
  | RootDir, _ => Lt
  | _, RootDir => Gt
  | CurDir, _ => Lt
  | _, CurDir => Gt
  | ParentDir, _ => Lt
  | _, ParentDir => Gt
  | Normal s, Normal t => str_cmp s t
  end.
Fixpoint components_cmp (cs ds : list Component) : comparison :=
  match cs, ds with
  | [], [] => Eq
  | [], _ :: _ => Lt
  | _ :: _, [] => Gt
  | c :: cs, d :: ds => match component_cmp c d with Eq => components_cmp cs ds | o => o end
  end.

(** [collect::<BTreeSet<_>>()]. *)
Fixpoint btree_insert (p : str) (l : list str) : list str :=
  match l with
  | [] => [p]
  | q :: l' => match components_cmp (components p) (components q) with
               | Lt => p :: l
               | Eq => l
               | Gt => q :: btree_insert p l'
               end
  end.
Definition btree_set (ps : list str) : list str := fold_left (λ l p, btree_insert p l) ps [].

(** [FileSystemPermissions::from_read_write_roots] (protocol/src/models.rs). *)
Definition from_read_write_roots (read write : option (list str)) : FileSystemPermissions :=
  mkFsPerms
    (match read with Some ps => (λ p, Permissions.mkEntry (Path p) Permissions.Read) <$> ps | None => [] end ++
     match write with Some ps => (λ p, Permissions.mkEntry (Path p) Permissions.Write) <$> ps | None => [] end) None.

Definition result_ok {E A} (r : result E A) : option A := match r with Ok a => Some a | Err _ => None end.

(** What the handlers read of the session: the permissions granted to it and, while a turn
    is active, to the turn, by environment; and the approvals of tools. *)
Record PatchSession := mkPatchSession {
  session_grants : gmap (list N) AdditionalPermissionProfile;
  turn_grants : option (gmap (list N) AdditionalPermissionProfile);
  tool_approvals : gmap (list N) ReviewDecision;
}.
Definition granted_session_permissions (s : PatchSession) (environment_id : str) : option AdditionalPermissionProfile :=
  session_grants s !! environment_id.
Definition granted_turn_permissions (s : PatchSession) (environment_id : str) : option AdditionalPermissionProfile :=
  ts ← turn_grants s; ts !! environment_id.

(** [record_granted_permissions] of the session and of the turn. *)
Definition record_granted_permissions (environment_id : str) (permissions : AdditionalPermissionProfile)
    (grants : gmap (list N) AdditionalPermissionProfile) : gmap (list N) AdditionalPermissionProfile :=
  match merge_permission_profiles (grants !! environment_id) (Some permissions) with
  | Some granted => <[environment_id := granted]> grants
  | None => grants
  end.

Record EffectiveAdditionalPermissions := mkEffective {
  eff_sandbox_permissions : SandboxPermissions;
  eff_additional_permissions : option AdditionalPermissionProfile;
  eff_permissions_preapproved : bool;
}.

Definition entries_eq (l r : list FileSystemSandboxEntry) : bool :=
  (length l =? length r) && all (λ '(x, y), entry_eq x y) (zip l r).
Definition fs_permissions_eq (l r : option FileSystemPermissions) : bool :=
  match l, r with
  | None, None => true
  | Some l, Some r => entries_eq (fs_entries l) (fs_entries r) && bool_decide (fs_depth l = fs_depth r)
  | _, _ => false
  end.
Definition additional_eq (l r : AdditionalPermissionProfile) : bool :=
  bool_decide (ap_network l = ap_network r) && fs_permissions_eq (ap_file_system l) (ap_file_system r).

Section PatchPermissions.
Context (os : TargetOs) (order : HashOrder) `{PW : PermWorld} `{FW : FsWorld}.
Context (to_json : ApprovalKey → option str).

Definition parent_or_self (p : str) : str := default p (abs_parent p).

Definition write_permissions_for_paths (file_paths : list str) (policy : FileSystemSandboxPolicy) (cwd : str) :
    option AdditionalPermissionProfile :=
  write_paths ← mapM absolute_path
    (btree_set (List.filter (λ p, negb (can_write_path_with_cwd policy p cwd)) (parent_or_self <$> file_paths)));
  if is_empty write_paths then None
  else result_ok (normalize_additional_permissions
         (mkAdditional None (Some (from_read_write_roots (Some []) (Some write_paths))))).

Definition verification_permissions_for_approved_paths (file_paths : list str) : option AdditionalPermissionProfile :=
  result_ok (normalize_additional_permissions
    (mkAdditional None (Some (from_read_write_roots (Some file_paths)
                                (Some (btree_set (parent_or_self <$> file_paths))))))).

Definition granted_patch_permissions (s : PatchSession) (environment_id : str) : option AdditionalPermissionProfile :=
  merge_permission_profiles (granted_session_permissions s environment_id) (granted_turn_permissions s environment_id).

Definition approved_session_patch_permissions (s : PatchSession) (environment_id : str) (file_paths : list str) :
    option AdditionalPermissionProfile :=
  if is_empty file_paths then None
  else if all (λ path, is_approved_for_session
                  (store_get to_json (tool_approvals s) (PatchKey environment_id path))) file_paths
  then verification_permissions_for_approved_paths file_paths else None.

Definition patch_verification_permissions (s : PatchSession) (environment_id : str) (file_paths : list str) :
    option AdditionalPermissionProfile :=
  merge_permission_profiles (granted_patch_permissions s environment_id)
    (approved_session_patch_permissions s environment_id file_paths).

Definition permissions_are_preapproved (effective granted : AdditionalPermissionProfile) (cwd : str) : bool :=
  additional_eq (intersect_permission_profiles effective granted cwd)
    (intersect_permission_profiles effective effective cwd).

Definition uses_additional_permissions (s : SandboxPermissions) : bool :=
  match s with WithAdditionalPermissions => true | _ => false end.

Definition apply_granted_turn_permissions (s : PatchSession) (environment_id cwd : str)
    (sandbox_permissions : SandboxPermissions) (additional : option AdditionalPermissionProfile) :
    EffectiveAdditionalPermissions :=
  match sandbox_permissions with
  | RequireEscalated => mkEffective sandbox_permissions additional false
  | _ =>
      let granted := merge_permission_profiles (granted_session_permissions s environment_id)
                       (granted_turn_permissions s environment_id) in
      let effective := merge_permission_profiles additional granted in
      mkEffective
        (if opt_is_some effective && negb (uses_additional_permissions sandbox_permissions)
         then WithAdditionalPermissions else sandbox_permissions)
        effective
        (match effective, granted with
         | Some effective, Some granted => permissions_are_preapproved effective granted cwd
         | _, _ => false
         end)
  end.

Definition effective_patch_permissions (s : PatchSession) (t : ToolTurn) (environment_id : str)
    (action : ApplyPatchAction) (cwd : str) :
    list str * EffectiveAdditionalPermissions * FileSystemSandboxPolicy :=
  let file_paths := file_paths_for_action order action in
  let approved := approved_session_patch_permissions s environment_id file_paths in
  let granted := merge_permission_profiles (granted_patch_permissions s environment_id) approved in
  let policy := effective_file_system_sandbox_policy (turn_fs t) granted in
  let requested := merge_permission_profiles (write_permissions_for_paths file_paths policy cwd) approved in
  (file_paths, apply_granted_turn_permissions s environment_id cwd UseDefault requested, policy).

(** [FileSystemSandboxContext]: what a file-system call runs under. *)
Record FileSystemSandboxContext := mkSandboxContext {
  sc_permissions : PermissionProfile;
  sc_cwd : option str;
  sc_windows_sandbox_level : WindowsSandboxLevel;
  sc_private_desktop : bool;
  sc_use_legacy_landlock : bool;
}.

(** [TurnContext::file_system_sandbox_context]. *)
Definition file_system_sandbox_context (t : ToolTurn) (additional : option AdditionalPermissionProfile) (cwd : str) :
    FileSystemSandboxContext :=
  let '(fs, net) := to_runtime_permissions (turn_profile (turn t)) in
  mkSandboxContext
    (from_runtime_permissions_with_enforcement (enforcement (turn_profile (turn t)))
       (effective_file_system_sandbox_policy fs additional) (effective_network_sandbox_policy net additional))
    (Some cwd) (windows_sandbox_level t) (windows_sandbox_private_desktop t) (use_legacy_landlock t).

Definition patch_verification_sandbox (s : PatchSession) (t : ToolTurn) (environment_id cwd : str)
    (file_paths : list str) : option FileSystemSandboxContext :=
  if opt_is_some (approved_session_patch_permissions s environment_id file_paths) then None
  else Some (file_system_sandbox_context t (patch_verification_permissions s environment_id file_paths) cwd).

(** ** The handlers *)

Context {W : Type} (fs : option FileSystemSandboxContext → ExecutorFileSystem W).
Context (bash : BashQuery) (unified_diff : nat → str → str → str).

(** What a handler comes to: an answer to the model, a request the orchestrator runs, or, for
    a shell command, that it is no patch. *)
Inductive PatchOutcome :=
| Answer (r : result EnvResolve.FunctionCallError str)
| RunPatch (req : ApplyPatchRequest) (changes : gmap (list N) FileChange) (auto : bool)
| NotAPatch.

Definition require_environment_id (parsed : option str) (allow : bool) : result EnvResolve.FunctionCallError (option str) :=
  match parsed with
  | Some id =>
      if allow then Ok (Some id)
      else Err (RespondToModel (lit "apply_patch environment selection is unavailable for this turn"))
  | None => Ok None
  end.

Definition verification_failed (message : str) : PatchOutcome :=
  Answer (Err (RespondToModel (lit "apply_patch verification failed: " ++ message))).

(** The arm [Body] of both handlers. *)
Definition submit_action (s : PatchSession) (t : ToolTurn) (environment_id cwd : str) (action : ApplyPatchAction) :
    PatchOutcome :=
  let '(file_paths, eff, policy) := effective_patch_permissions s t environment_id action cwd in
  match core_apply_patch os order t policy action with
  | Output item => Answer item
  | DelegateToRuntime apply =>
      RunPatch
        (mkPatchRequest environment_id (action_patch (inv_action apply)) (action_cwd (inv_action apply)) file_paths
           (inv_requirement apply) (eff_additional_permissions eff) (eff_permissions_preapproved eff))
        (convert_apply_patch_to_protocol (inv_action apply)) (auto_approved apply)
  end.

(** [handle_call] once the patch is parsed and the environment resolved. *)
Definition handle_parsed (s : PatchSession) (t : ToolTurn) (environment_id cwd : str) (args : ApplyPatchArgs) (w : W) :
    PatchOutcome :=
  let sandbox := patch_verification_sandbox s t environment_id cwd (file_paths_for_hunks cwd (args_hunks args)) in
  match verify_apply_patch_args (ExecutorFileSystem0 := fs sandbox) perm_home unified_diff args cwd w with
  | VerifiedBody action => submit_action s t environment_id cwd action
  | VerifiedCorrectnessError e => verification_failed (apply_patch_error_display e)
  | VerifiedShellParseError _ => Answer (Err (RespondToModel (lit "apply_patch handler received invalid patch input")))
  | VerifiedNotApplyPatch => Answer (Err (RespondToModel (lit "apply_patch handler received non-apply_patch input")))
  end.

(** The payload is the text of a custom call, if it is one; [resolve] is
    [resolve_tool_environment]: the id and the working directory. *)
Definition handle_call (multi_environment : bool)
    (resolve : option str → result EnvResolve.FunctionCallError (option (str * str)))
    (s : PatchSession) (t : ToolTurn) (payload : option str) (w : W) : PatchOutcome :=
  match payload with
  | None => Answer (Err (RespondToModel (lit "apply_patch handler received unsupported payload")))
  | Some patch_input =>
      match parse_patch patch_input with
      | Err e => verification_failed (parse_error_display e)
      | Ok args =>
          match require_environment_id (args_environment_id args) multi_environment ≫= resolve with
          | Err e => Answer (Err e)
          | Ok None => Answer (Err (RespondToModel (lit "apply_patch is unavailable in this session")))
          | Ok (Some (environment_id, cwd)) => handle_parsed s t environment_id cwd args w
          end
      end
  end.

Definition intercept_apply_patch (s : PatchSession) (t : ToolTurn) (environment_id cwd : str) (command : list str) (w : W) :
    PatchOutcome :=
  let sandbox := patch_verification_sandbox s t environment_id cwd [] in
  match maybe_parse_apply_patch_verified (ExecutorFileSystem0 := fs sandbox) bash perm_home unified_diff command cwd w with
  | VerifiedBody action => submit_action s t environment_id cwd action
  | VerifiedCorrectnessError e => verification_failed (apply_patch_error_display e)
  | VerifiedShellParseError _ | VerifiedNotApplyPatch => NotAPatch
  end.

(** ** The runtime (tools/runtimes/apply_patch.rs) *)

Definition file_system_sandbox_context_for_attempt (req : ApplyPatchRequest) (attempt : SandboxAttempt) :
    option FileSystemSandboxContext :=
  if bool_decide (sandbox attempt = SandboxNone) then None
  else Some (mkSandboxContext (effective_permission_profile (at_permissions attempt) (ap_additional_permissions req))
               (Some (at_sandbox_cwd attempt)) (at_windows_sandbox_level attempt) (at_private_desktop attempt)
               (at_use_legacy_landlock attempt)).

(** One attempt: the world it leaves, the delta committed so far, and its result.  Durations
    are not recorded; the UTF-8 output is kept as text. *)
Definition runtime_run (lower : char → str) (req : ApplyPatchRequest) (attempt : SandboxAttempt)
    (committed : AppliedPatchDelta) (w : W) :
    W * AppliedPatchDelta * result ToolError NetworkApproval.ExecToolCallOutput :=
  let o := PatchFs.apply_patch (ExecutorFileSystem0 := fs (file_system_sandbox_context_for_attempt req attempt)) perm_home
             (ap_patch req) (ap_cwd req) w in
  let failed := negb (is_ok (out_result o)) in
  let committed := delta_append committed (outcome_delta o) in
  let output := mkExecOutput (if failed then 1 else 0)%Z (stdout o) (stderr o) (stdout o ++ stderr o) 0 false in
  (out_world o, committed,
   if failed && is_likely_sandbox_denied lower (sandbox attempt) output
   then Err (Codex (CodexSandbox (SandboxDenied output None)))
   else Ok output).
End PatchPermissions.

(** ** Paths *)

Lemma abs_normal_normalize p : abs_normal p → normalize p = p.
Proof.
  intros (stack & Hst & ->). assert (H : normalize_path (abs_string stack) = abs_string stack).
  { rewrite normalize_path_abs by apply abs_string_absolute. by rewrite walk_abs_string. }
  unfold normalize_path in H. fold (normalize (abs_string stack)) in H.
  destruct (is_empty (normalize (abs_string stack))) eqn:E; [| done].
  exfalso. pose proof (abs_string_absolute stack) as Ha. rewrite <- H in Ha. by vm_compute in Ha.
Qed.

Lemma abs_normal_resolve home p base : abs_normal p → resolve_path_against_base home p base = p.
Proof.
  intros (stack & Hst & ->). unfold resolve_path_against_base.
  rewrite expand_no_tilde by (by vm_compute).
  unfold absolutize_from, path_with_base. rewrite abs_string_absolute, normalize_path_abs by apply abs_string_absolute.
  by rewrite walk_abs_string.
Qed.

Lemma resolve_normal home p base : path_is_absolute base = true → abs_normal (resolve_path_against_base home p base).
Proof. apply absolutize_from_normal. Qed.

Lemma hunk_paths_normal home cwd h p :
  path_is_absolute cwd = true → p ∈ hunk_paths home cwd h → abs_normal p.
Proof.
  intros Hc [-> | Hp]%elem_of_cons; [by apply resolve_normal|].
  destruct h as [? ? | ? | ? [d|] ?]; try (by apply elem_of_nil in Hp).
  apply list_elem_of_singleton in Hp as ->. by apply resolve_normal.
Qed.

(** The changes of an action come from its hunks. *)
Lemma verify_hunks_inv {W} `{!ExecutorFileSystem W} home diff (w : W) cwd hs acc m k c :
  verify_hunks home diff w cwd hs acc = Ok m → m !! k = Some c →
  acc !! k = Some c ∨ ∃ h, h ∈ hs ∧ k = PatchFs.resolve_path home h cwd ∧ verify_hunk home diff w cwd h = Ok c.
Proof.
  revert acc. induction hs as [| h hs IH]; intros acc; cbn [verify_hunks]; [intros [= ->]; by left|].
  intros (v & Hv & Hrest)%bind_Ok Hk. destruct (IH _ Hrest Hk) as [Hacc | (h' & Hh' & H)].
  - destruct (decide (k = PatchFs.resolve_path home h cwd)) as [-> | Hne].
    + rewrite lookup_insert_eq in Hacc. injection Hacc as ->. right. exists h. split; [set_solver | done].
    + rewrite lookup_insert_ne in Hacc by done. by left.
  - right. exists h'. split; [set_solver | done].
Qed.

Lemma action_touches_normal {W} `{!ExecutorFileSystem W} home diff args cwd (w : W) action p :
  path_is_absolute cwd = true → verify_apply_patch_args home diff args cwd w = VerifiedBody action →
  action_touches action p → abs_normal p.
Proof.
  unfold verify_apply_patch_args. intros Hc Hv (k & c & Hk & Hp).
  destruct (verify_hunks _ _ _ _ _ _) as [cs|e] eqn:Hh; [| done]. injection Hv as <-. cbn [changes] in Hk.
  assert (Hd : path_is_absolute (effective_cwd home args cwd) = true).
  { unfold effective_cwd. destruct (workdir args) as [dir|]; [| done].
    destruct (resolve_normal home dir cwd Hc) as (st & _ & E). unfold abs_join. rewrite E. apply abs_string_absolute. }
  destruct (verify_hunks_inv _ _ _ _ _ _ _ _ _ Hh Hk) as [He | (h & _ & -> & Hvh)]; [by rewrite lookup_empty in He|].
  apply (hunk_paths_normal home (effective_cwd home args cwd) h); [done|].
  destruct Hp as [-> | Hm]; [apply elem_of_cons; by left | by eapply verified_dest].
Qed.

Lemma elem_of_iteration order m k c : (k, c) ∈ iteration order m ↔ m !! k = Some c.
Proof. rewrite iteration_perm. apply elem_of_map_to_list. Qed.

Section Paths.
Context (order : HashOrder) `{PW : PermWorld}.

(** The check covers every path of the action. *)
Lemma constrained_touches action policy cwd p :
  is_write_patch_constrained_to_writable_paths order action policy cwd = true →
  action_touches action p → is_path_writable policy cwd p = true.
Proof.
  unfold is_write_patch_constrained_to_writable_paths. rewrite all_true.
  intros Hall (k & c & Hk%(elem_of_iteration order) & Hp). specialize (Hall _ Hk). cbn in Hall.
  destruct c as [?|?|? [d|] ?]; destruct Hp as [-> | [= ->]]; try done; by apply andb_true_iff in Hall as [? ?].
Qed.

(** So does the list the user is asked about. *)
Lemma file_paths_touches action p :
  action_touches action p → resolve_path_against_base perm_home p (action_cwd action) ∈ file_paths_for_action order action.
Proof.
  intros (k & c & Hk%(elem_of_iteration order) & Hp). unfold file_paths_for_action, to_abs_path. cbn [push_key].
  set (step := λ (keys : list str) '(path, change), _).
  assert (Hkeep : ∀ l keys q, q ∈ keys → q ∈ fold_left step l keys).
  { induction l as [| [k' c'] l IH]; intros keys q Hq; [done|]. cbn [fold_left]. apply IH. unfold step.
    destruct c' as [?|?|? [?|] ?]; rewrite ?elem_of_app; auto. }
  generalize (@nil str). induction (iteration order (changes action)) as [| [k' c'] l IH]; intros keys;
    [by apply elem_of_nil in Hk|].
  apply elem_of_cons in Hk as [[= <- <-] | Hk]; cbn [fold_left]; [| by apply IH].
  apply Hkeep. unfold step. destruct c as [?|?|? [d|] ?]; destruct Hp as [-> | Hp]; try done;
    rewrite ?elem_of_app, ?list_elem_of_singleton; auto. injection Hp as ->. auto.
Qed.

Lemma writable_normal policy cwd p :
  abs_normal p → is_path_writable policy cwd p = can_write_path_with_cwd policy p cwd.
Proof.
  intros Hn. unfold is_path_writable, util_resolve_path.
  assert (path_is_absolute p = true) as -> by (destruct Hn as (st & _ & ->); apply abs_string_absolute).
  by rewrite abs_normal_normalize.
Qed.
End Paths.

(** ** From the call to the run *)

Section EndToEnd.
Context (os : TargetOs) (order : HashOrder) `{PW : PermWorld} `{FW : FsWorld}.
Context (to_json : ApprovalKey → option str).
Context {W : Type} (fs : option FileSystemSandboxContext → ExecutorFileSystem W).
Context (bash : BashQuery) (unified_diff : nat → str → str → str).

(** A request that a handler hands to the orchestrator: of the tool itself, or of a shell
    command that is intercepted. *)
Definition patch_requested (s : PatchSession) (t : ToolTurn) (w : W) (req : ApplyPatchRequest)
    (chs : gmap (list N) FileChange) (auto : bool) : Prop :=
  (∃ multi_environment resolve payload,
     (∀ o environment_id cwd, resolve o = Ok (Some (environment_id, cwd)) → path_is_absolute cwd = true) ∧
     handle_call os order to_json fs unified_diff multi_environment resolve s t payload w = RunPatch req chs auto) ∨
  (∃ environment_id cwd command,
     path_is_absolute cwd = true ∧
     intercept_apply_patch os order to_json fs bash unified_diff s t environment_id cwd command w
     = RunPatch req chs auto).

(** The text of a request can be run as it was verified. *)
Definition runs_as_verified (req : ApplyPatchRequest) : Prop :=
  no_trailing_cr (ap_patch req) ∧
  ∀ args, parse_patch (ap_patch req) = Ok args → moves_kept perm_home (ap_cwd req) (args_hunks args).

Lemma requested_action s t w req chs auto :
  patch_requested s t w req chs auto →
  ∃ sandbox text args dir cwd action,
    path_is_absolute cwd = true ∧ parse_patch text = Ok args ∧
    verify_apply_patch_args (ExecutorFileSystem0 := fs sandbox) perm_home unified_diff (with_workdir dir args) cwd w
    = VerifiedBody action ∧
    submit_action os order to_json s t (ap_environment_id req) cwd action = RunPatch req chs auto.
Proof.
  assert (Henv : ∀ environment_id cwd action,
    submit_action os order to_json s t environment_id cwd action = RunPatch req chs auto → environment_id = ap_environment_id req).
  { intros environment_id cwd action. unfold submit_action.
    destruct (effective_patch_permissions _ _ _ _ _ _ _) as [[paths eff] policy].
    destruct (core_apply_patch _ _ _ _ _) as [|apply]; [done|]. by intros [= <- _ _]. }
  intros [(multi & resolve & [text|] & Habs & Hrun) | (environment_id & cwd & command & Hc & Hrun)].
  - unfold handle_call in Hrun. destruct (parse_patch text) as [args|] eqn:Hp; [| done].
    destruct (require_environment_id _ _ ≫= resolve) as [[[environment_id cwd]|]|] eqn:Hr; [| done..].
    unfold handle_parsed in Hrun. destruct (verify_apply_patch_args _ _ _ _ _) as [action|?|?|] eqn:Hv; [| done..].
    apply bind_Ok in Hr as (o & _ & Hr). apply Habs in Hr.
    eexists _, text, args, None, cwd, action. split; [done|]. split; [done|]. rewrite (parsed_workdir _ _ Hp).
    split; [exact Hv|]. by rewrite <- (Henv _ _ _ Hrun).
  - done.
  - unfold intercept_apply_patch in Hrun.
    destruct (maybe_parse_apply_patch_verified _ _ _ _ _ _) as [action|?|?|] eqn:Hv; [| done..].
    apply verified_calls_explicit in Hv as (body & args & dir & Hp & _ & Hv & _).
    eexists _, body, args, dir, cwd, action. split; [done|]. split; [done|]. split; [exact Hv|].
    by rewrite <- (Henv _ _ _ Hrun).
Qed.

Lemma submit_fields s t environment_id cwd action req chs auto :
  submit_action os order to_json s t environment_id cwd action = RunPatch req chs auto →
  ap_patch req = action_patch action ∧ ap_cwd req = action_cwd action ∧
  ap_file_paths req = file_paths_for_action order action ∧
  (auto = true → ∃ sandbox_type,
     assess_patch_safety os order action (turn_approval_policy (turn t)) (turn_profile (turn t))
       (effective_file_system_sandbox_policy (turn_fs t)
          (merge_permission_profiles (granted_patch_permissions s environment_id)
             (approved_session_patch_permissions to_json s environment_id (ap_file_paths req))))
       (action_cwd action) (windows_sandbox_level t) = AutoApprove sandbox_type false).
Proof.
  unfold submit_action, effective_patch_permissions, core_apply_patch.
  destruct (assess_patch_safety _ _ _ _ _ _ _ _) as [st u| |] eqn:Ha; intros H; simplify_eq/=; [| done].
  split; [done|]. split; [done|]. split; [done|]. intros Hu. destruct u; [done|]. eauto.
Qed.

(** Every file a request may write is on the list it carries. *)
Lemma request_covers s t w req chs auto lower attempt committed w' :
  patch_requested s t w req chs auto → runs_as_verified req →
  ∃ action,
    (∀ p, action_touches action p → abs_normal p ∧ p ∈ ap_file_paths req) ∧
    (∃ cwd, submit_action os order to_json s t (ap_environment_id req) cwd action = RunPatch req chs auto) ∧
    confined (ExecutorFileSystem0 := fs (file_system_sandbox_context_for_attempt req attempt)) (action_touches action)
      w' (runtime_run fs lower req attempt committed w').1.1.
Proof.
  intros Hreq [Hcr Hkept]. destruct (requested_action _ _ _ _ _ _ Hreq) as (sb & text & args & dir & cwd & action & Hc & Hp & Hv & Hs).
  exists action. destruct (submit_fields _ _ _ _ _ _ _ _ Hs) as (Hpatch & Hcwd & Hpaths & _).
  assert (Hpa : action_patch action = patch args ∧ action_cwd action = effective_cwd perm_home (with_workdir dir args) cwd).
  { unfold verify_apply_patch_args in Hv. destruct (verify_hunks _ _ _ _ _ _); [| done]. by injection Hv as <-. }
  destruct Hpa as [Hpa Hca]. rewrite Hpatch, Hpa in Hcr, Hkept. rewrite Hcwd in Hkept.
  destruct (reparse_same _ _ Hp Hcr) as (args' & Hp' & Heq & _). specialize (Hkept _ Hp'). rewrite Heq in Hkept.
  split; [|split].
  - intros p Hin. assert (Hn : abs_normal p) by (exact (action_touches_normal (ExecutorFileSystem0 := fs sb) _ _ _ _ _ _ _ Hc Hv Hin)). split; [done|].
    rewrite Hpaths. apply (file_paths_touches order) in Hin. by rewrite abs_normal_resolve in Hin.
  - eauto.
  - unfold runtime_run. cbn [fst]. rewrite Hpatch, Hpa, Hcwd. unfold PatchFs.apply_patch. rewrite Hp', Heq.
    apply apply_hunks_confined. intros h p Hh Hin.
    exact (hunks_in_action (ExecutorFileSystem0 := fs sb) perm_home unified_diff (with_workdir dir args) _ _ _ _ _ Hv Hkept Hh Hin).
Qed.

(** The policy the request was assessed under. *)
Definition assessed_policy (s : PatchSession) (t : ToolTurn) (req : ApplyPatchRequest) : FileSystemSandboxPolicy :=
  effective_file_system_sandbox_policy (turn_fs t)
    (merge_permission_profiles (granted_patch_permissions s (ap_environment_id req))
       (approved_session_patch_permissions to_json s (ap_environment_id req) (ap_file_paths req))).

Lemma auto_constrained action policy profile fs_policy cwd level st u :
  policy ≠ OnFailure → assess_patch_safety os order action policy profile fs_policy cwd level = AutoApprove st u →
  is_write_patch_constrained_to_writable_paths order action fs_policy cwd = true.
Proof.
  intros Hp. unfold assess_patch_safety. destruct (bool_decide _); [done|].
  destruct (is_write_patch_constrained_to_writable_paths order action fs_policy cwd) eqn:E; [done|].
  destruct policy as [| | |sa ? ? ? ?|]; cbn [orb rejects_sandbox_approval]; try done. by destruct sa.
Qed.

(** C7: a patch that is approved without a question stays where the policy allows writing.
    When a handler approves a patch by itself, in an environment whose working directory is
    absolute, the approval policy is not to ask only after a failure, and the text of the
    request can be run as it was verified, every attempt to run it, in whatever state the file system is by then, with or without a sandbox, succeeding
    or failing, writes and removes only files that the turn's policy, with the permissions
    granted so far, lets the agent write.  The text can be run as it was verified when no
    line of it still ends in a carriage return, and no hunk that renames a file is followed
    by another hunk for that file: such a rename is missing from what was assessed, and
    [hidden_rename_approved] shows it approved and writing outside the policy. *)
Theorem auto_approved_patch_confined s t w req chs lower attempt committed w' :
  patch_requested s t w req chs true → turn_approval_policy (turn t) ≠ OnFailure → runs_as_verified req →
  confined (ExecutorFileSystem0 := fs (file_system_sandbox_context_for_attempt req attempt))
    (λ p, can_write_path_with_cwd (assessed_policy s t req) p (ap_cwd req) = true)
    w' (runtime_run fs lower req attempt committed w').1.1.
Proof.
  intros Hreq Hpol Hrun.
  destruct (request_covers _ _ _ _ _ _ lower attempt committed w' Hreq Hrun) as (action & Htouch & (cwd & Hs) & Hconf).
  eapply confined_mono; [| exact Hconf]. intros p Hp. destruct (Htouch p Hp) as [Hn _].
  destruct (submit_fields _ _ _ _ _ _ _ _ Hs) as (_ & -> & _ & Hauto). destruct (Hauto eq_refl) as (st & Ha).
  apply auto_constrained in Ha; [| done]. apply (constrained_touches order _ _ _ _ Ha) in Hp.
  by rewrite writable_normal in Hp.
Qed.

(** C16: what the user agreed to earlier is what runs later.  When a patch that is not
    covered by permissions approved beforehand gets its approval from the answers the session
    remembers, without a question, and its text can be run as it was verified (no line of it
    ends in a carriage return, and no hunk that renames a file is followed by another hunk
    for that file), every attempt to run it writes and removes only files that the user
    approved, for the session and for this environment, in answer to an earlier question;
    provided that different approval keys have different JSON texts and the environment's
    working directory is absolute. *)
Theorem remembered_patch_confined (to_json_inj : ∀ k k' j, to_json k = Some j → to_json k' = Some j → k = k')
    rqs s t w req chs auto ctx reviewed prompted store d lower attempt committed w' :
  patch_requested s t w req chs auto → runs_as_verified req → ap_permissions_preapproved req = false →
  start_patch_approval to_json req ctx reviewed prompted (serve_requests to_json rqs).1 = (store, d, false) →
  confined (ExecutorFileSystem0 := fs (file_system_sandbox_context_for_attempt req attempt))
    (λ p, approved_before (serve_requests to_json rqs).2 (PatchKey (ap_environment_id req) p))
    w' (runtime_run fs lower req attempt committed w').1.1.
Proof.
  intros Hreq Hrun Hpre Hstart.
  destruct (request_covers _ _ _ _ _ _ lower attempt committed w' Hreq Hrun) as (action & Htouch & _ & Hconf).
  eapply confined_mono; [| exact Hconf]. intros p Hp. destruct (Htouch p Hp) as [_ Hin].
  unfold start_patch_approval in Hstart. rewrite Hpre in Hstart. cbn [andb] in Hstart.
  destruct (guardian_review_id ctx); [done|]. destruct (retry_reason ctx); [done|].
  pose proof (session_cache_exact to_json to_json_inj rqs (patch_approval_keys req) (default ReviewDenied prompted)) as Hc.
  destruct (serve_requests to_json rqs) as [st hist]. cbn [fst snd] in *. rewrite Hstart in Hc.
  destruct Hc as [[Hc _] _]. destruct (Hc eq_refl) as [_ Hall]. apply Hall.
  unfold patch_approval_keys. apply list_elem_of_fmap. eauto.
Qed.
End EndToEnd.

(** ** Examples *)

Definition demo_order : HashOrder := mkHashOrder map_to_list (λ m, reflexivity _).
(** Read everything, write [/w]. *)
Definition demo_patch_turn : ToolTurn :=
  demo_tool_turn [Permissions.mkEntry (Special Root) Permissions.Read; Permissions.mkEntry (Path (lit "/w")) Permissions.Write]
    OnRequest.
Definition demo_session : PatchSession := mkPatchSession ∅ None ∅.
(** The key of a file in the environment [local]. *)
Definition demo_patch_json (k : ApprovalKey) : option str :=
  match k with PatchKey e path => if e == lit "local" then Some path else None | _ => None end.
Lemma demo_patch_json_inj k k' j : demo_patch_json k = Some j → demo_patch_json k' = Some j → k = k'.
Proof.
  destruct k as [| |e p], k' as [| |e' p']; cbn; try done.
  destruct (str_eqb_reflect e (lit "local")) as [-> |], (str_eqb_reflect e' (lit "local")) as [-> |]; congruence.
Qed.
Definition demo_bash : BashQuery := mkBashQuery (Ok ()) (λ _, Some []).
Definition demo_resolve (_ : option str) : result EnvResolve.FunctionCallError (option (str * str)) :=
  Ok (Some (lit "local", lit "/w")).

#[local] Existing Instance demo_perm_world.
#[local] Existing Instance demo_fs_world.

(** The tool call with a patch, in the in-memory file system. *)
Definition demo_call (text : str) (w : mem) : PatchOutcome :=
  handle_call Linux demo_order demo_patch_json (λ _, mem_fs) demo_diff false demo_resolve demo_session demo_patch_turn (Some text) w.
Definition request_of (o : PatchOutcome) : ApplyPatchRequest :=
  match o with RunPatch req _ _ => req | _ => mkPatchRequest [] [] [] [] (ForbiddenReq []) None false end.
Definition changes_of (o : PatchOutcome) : gmap (list N) FileChange :=
  match o with RunPatch _ chs _ => chs | _ => ∅ end.
Definition demo_attempt : SandboxAttempt :=
  mkAttempt SandboxNone ProfileDisabled false (lit "/w") [] None false WinDisabled false None.

Lemma demo_requested text w :
  match demo_call text w with RunPatch _ _ auto => auto | _ => false end = true →
  patch_requested Linux demo_order demo_patch_json (λ _, mem_fs) demo_bash demo_diff demo_session demo_patch_turn w
    (request_of (demo_call text w)) (changes_of (demo_call text w)) true.
Proof.
  intros H. left. exists false, demo_resolve, (Some text). split.
  - intros o e c [= <- <-]. by_compute.
  - fold (demo_call text w). destruct (demo_call text w) as [r|req chs auto|]; [done| |done]. cbn in H. by subst auto.
Qed.

Lemma demo_runs_as_verified : runs_as_verified (request_of (demo_call demo_patch demo_patch_world)).
Proof.
  assert (Hp : ap_patch (request_of (demo_call demo_patch demo_patch_world)) = demo_patch) by by_compute.
  assert (Hc : ap_cwd (request_of (demo_call demo_patch demo_patch_world)) = lit "/w") by by_compute.
  split; rewrite Hp; [exact demo_no_cr|]. rewrite demo_parsed, Hc. intros args [= <-].
  apply moves_kept_nodup. apply (bool_decide_unpack _). by_compute.
Qed.

Lemma auto_approved_patch_confined_witness :
  let req := request_of (demo_call demo_patch demo_patch_world) in
  confined (W := mem)
    (λ p, can_write_path_with_cwd (assessed_policy demo_patch_json demo_session demo_patch_turn req) p (ap_cwd req) = true)
    demo_patch_world
    (runtime_run (λ _, mem_fs) (λ c, [c]) req demo_attempt delta_empty demo_patch_world).1.1.
Proof.
  intros req. refine (auto_approved_patch_confined Linux demo_order demo_patch_json (λ _, mem_fs) demo_bash demo_diff
    demo_session demo_patch_turn demo_patch_world req (changes_of (demo_call demo_patch demo_patch_world)) (λ c, [c])
    demo_attempt delta_empty demo_patch_world _ _ demo_runs_as_verified).
  - apply demo_requested. by_compute.
  - done.
Defined.

(** The user approved the four files of the patch for the session, in two questions. *)
Definition demo_questions : list (list ApprovalKey * ReviewDecision) :=
  [(PatchKey (lit "local") <$> [lit "/w/a.txt"; lit "/w/b.txt"], ApprovedForSession);
   (PatchKey (lit "local") <$> [lit "/w/new.txt"; lit "/w/c.txt"], ApprovedForSession)].

Lemma remembered_patch_confined_witness :
  let req := request_of (demo_call demo_patch demo_patch_world) in
  confined (W := mem)
    (λ p, approved_before (serve_requests demo_patch_json demo_questions).2 (PatchKey (ap_environment_id req) p))
    demo_patch_world
    (runtime_run (λ _, mem_fs) (λ c, [c]) req demo_attempt delta_empty demo_patch_world).1.1.
Proof.
  intros req. refine (remembered_patch_confined Linux demo_order demo_patch_json (λ _, mem_fs) demo_bash demo_diff
    demo_patch_json_inj demo_questions demo_session demo_patch_turn demo_patch_world req
    (changes_of (demo_call demo_patch demo_patch_world)) true (mkApprovalCtx (lit "call") None None None) ReviewDenied None
    (serve_requests demo_patch_json demo_questions).1 ApprovedForSession (λ c, [c])
    demo_attempt delta_empty demo_patch_world _ demo_runs_as_verified _ _).
  - apply demo_requested. by_compute.
  - by_compute.
  - by_compute.
Defined.

(** A rename hidden behind a second hunk is approved without a question: the request lists
    [a.txt] only, which the policy lets the agent write, and its run writes [/etc/x], which
    the policy does not. *)
Example hidden_rename_approved :
  let w : mem := {[ lit "/w/a.txt" := lit "one" ++ [nl] ]} in
  let o := demo_call hidden_rename_patch w in
  let req := request_of o in
  match o with RunPatch _ _ auto => auto | _ => false end = true ∧
  ap_requirement req = Skip false None ∧ ap_file_paths req = [lit "/w/a.txt"] ∧
  can_write_path_with_cwd (assessed_policy demo_patch_json demo_session demo_patch_turn req) (lit "/etc/x") (ap_cwd req) = false ∧
  (runtime_run (λ _, mem_fs) (λ c, [c]) req demo_attempt delta_empty w).1.1 !! lit "/etc/x" = Some (lit "two" ++ [nl]).
Proof. cbn zeta. split; [by_compute|]. split; [by_compute|]. split; [by_compute|]. split; by_compute. Qed.
