(* ===== verification/PatchProgress.v ===== *)
(** * Showing a patch while it is written

    [ApplyPatchArgumentDiffConsumer] (core/src/tools/handlers/apply_patch.rs): the text of a
    patch arrives in pieces, each is given to the streaming parser (PatchParser), and the
    changes parsed so far are reported, at most every half second.  Time is a number of
    milliseconds read from a clock. *)

From S2P Require Import Prelude RustStr AbsPath HostShell Permissions ReadDeny PolicyTransforms CommandSafety EnvResolve.
From S2P Require Import ExecPolicy ExecApproval NetworkPolicy NetworkProxy Interact NetworkApproval Orchestrator.
From S2P Require Import SeekSequence PatchParser PatchGrammar PatchApply PatchFs PatchInvocation PatchSafety.

Open Scope rstr_scope.

(** ** Events *)

Definition progress_line (prefix : str) (line : str) : str := prefix ++ line ++ [nl].

Definition format_chunk_for_progress (c : UpdateFileChunk) : str :=
  match change_context c with
  | Some context => lit "@@ " ++ context ++ [nl]
  | None => lit "@@" ++ [nl]
  end
  ++ concat (map (progress_line (lit "-")) (old_lines c))
  ++ concat (map (progress_line (lit "+")) (new_lines c))
  ++ (if is_end_of_file c then lit "*** End of File" ++ [nl] else []).
Definition format_update_chunks_for_progress (chunks : list UpdateFileChunk) : str :=
  concat (map format_chunk_for_progress chunks).

Definition convert_hunk (h : Hunk) : str * FileChange :=
  (PatchFs.hunk_source_path h,
   match h with
   | AddFile _ contents => ProtoAdd contents
   | DeleteFile _ => ProtoDelete []
   | UpdateFile _ move_path chunks => ProtoUpdate (format_update_chunks_for_progress chunks) move_path
   end).
(** [collect::<HashMap<_, _>>()]: the last hunk of a path stays. *)
Definition convert_apply_patch_hunks_to_protocol (hs : list Hunk) : gmap (list N) FileChange :=
  fold_left (λ m h, <[(convert_hunk h).1 := (convert_hunk h).2]> m) hs ∅.

Record PatchApplyUpdatedEvent := mkUpdatedEvent {
  ev_call_id : str;
  ev_changes : gmap (list N) FileChange;
}.

(** ** The consumer *)

Definition APPLY_PATCH_ARGUMENT_DIFF_BUFFER_INTERVAL : N := 500.

Record DiffConsumer := mkConsumer {
  consumer_parser : StreamingPatchParser;
  last_sent_at : option N;
  pending_event : option PatchApplyUpdatedEvent;
}.
Definition consumer_default : DiffConsumer := mkConsumer parser_default None None.

Definition consumer_push_delta (now : N) (call_id delta : str) (c : DiffConsumer) :
    DiffConsumer * option PatchApplyUpdatedEvent :=
  match push_delta delta (consumer_parser c) with
  | (p, Err _) => (mkConsumer p (last_sent_at c) (pending_event c), None)
  | (p, Ok hs) =>
      if is_empty hs then (mkConsumer p (last_sent_at c) (pending_event c), None)
      else
        let event := mkUpdatedEvent call_id (convert_apply_patch_hunks_to_protocol hs) in
        match last_sent_at c with
        | Some at_ =>
            if (now - at_ <? APPLY_PATCH_ARGUMENT_DIFF_BUFFER_INTERVAL)%N
            then (mkConsumer p (last_sent_at c) (Some event), None)
            else (mkConsumer p (Some now) None, Some event)
        | None => (mkConsumer p (Some now) None, Some event)
        end
  end.

(** [consume_diff]: the feature may be off. *)
Definition consume_diff (enabled : bool) (now : N) (call_id delta : str) (c : DiffConsumer) :=
  if enabled then consumer_push_delta now call_id delta c else (c, None).

Definition finish_update_on_complete (now : N) (c : DiffConsumer) :
    DiffConsumer * result EnvResolve.FunctionCallError (option PatchApplyUpdatedEvent) :=
  match finish (consumer_parser c) with
  | (p, Err e) =>
      (mkConsumer p (last_sent_at c) (pending_event c),
       Err (RespondToModel (lit "failed to parse apply_patch: " ++ parse_error_display e)))
  | (p, Ok _) =>
      (mkConsumer p (if opt_is_some (pending_event c) then Some now else last_sent_at c) None,
       Ok (pending_event c))
  end.

(** The pieces of one call, each with the time of its arrival, and the events they cause. *)
Fixpoint consume_all (call_id : str) (ds : list (N * str)) (c : DiffConsumer) :
    DiffConsumer * list PatchApplyUpdatedEvent :=
  match ds with
  | [] => (c, [])
  | (now, d) :: ds =>
      let '(c, e) := consume_diff true now call_id d c in
      let '(c, es) := consume_all call_id ds c in
      (c, option_list e ++ es)
  end.

(** ** The last event *)

Lemma set_mode_run m p :
  set_mode m p = (mkParser (line_buffer p) (mkState m (hunks (state p)) (environment_id (state p))) (line_number p), Ok ()).
Proof. done. Qed.

(** Only the end marker ends a patch. *)
Lemma headers_end t p q :
  t ≠ END_PATCH_MARKER → mode (state p) ≠ EndedPatch → handle_hunk_headers_and_end_patch t p = (q, Ok true) →
  mode (state q) ≠ EndedPatch.
Proof.
  intros Ht Hm. assert (Hh : handle_hunk_headers t p = (q, Ok true) → mode (state q) ≠ EndedPatch).
  { unfold handle_hunk_headers. rewrite (proj2 (str_eqb_false t END_PATCH_MARKER) Ht).
    destruct (ensure_hunk_cases t p) as [He | [e He]];
      repeat (case_match; rewrite ?(st_bind_step _ _ _ _ _ He), ?(st_bind_fail _ _ _ _ _ He));
      run; intros [= <-]; done. }
  unfold handle_hunk_headers_and_end_patch. run.
  destruct (is_started (mode (state p))) eqn:Hs; [| done].
  destruct (strip_prefix ENVIRONMENT_ID_MARKER t); [| done]. repeat case_match; try done. by intros [= <-].
Qed.

(** A line that ends the patch or follows its end leaves the hunks alone. *)
Lemma process_line_ended line p q :
  trim line ≠ END_PATCH_MARKER → process_line line p = (q, Ok ()) → mode (state q) = EndedPatch →
  hunks (state q) = hunks (state p).
Proof.
  intros Ht. assert (Hte : trim_end line ≠ END_PATCH_MARKER).
  { intros E. apply Ht. rewrite <- trim_trim_end, E. by_compute. }
  assert (Hother : ∀ t, t ≠ END_PATCH_MARKER → mode (state p) ≠ EndedPatch →
    ∀ r, handle_hunk_headers_and_end_patch t p = (r, Ok true) → mode (state r) ≠ EndedPatch)
    by (intros t H1 H2 r; by apply headers_end).
  assert (Hsame : ∀ t r, handle_hunk_headers_and_end_patch t p = (r, Ok false) → r = p).
  { intros t r. unfold handle_hunk_headers_and_end_patch, handle_hunk_headers. run.
    destruct (ensure_hunk_cases t p) as [He | [e He]];
      repeat (case_match; rewrite ?(st_bind_step _ _ _ _ _ He), ?(st_bind_fail _ _ _ _ _ He));
      run; try done; by intros [= <-]. }
  unfold process_line. run. destruct (mode (state p)) eqn:Hm.
  - case_match; [| done]. intros [= <-] Hq. done.
  - unfold process_header_line. unfold mbind, st_err_bind.
    destruct (handle_hunk_headers_and_end_patch (trim line) p) as [r [[]|e]] eqn:Hh; [| | done].
    + intros [= <-] Hq. by destruct (Hother _ Ht ltac:(done) _ Hh).
    + done.
  - unfold process_add_line. unfold mbind, st_err_bind.
    destruct (handle_hunk_headers_and_end_patch (trim line) p) as [r [[]|e]] eqn:Hh; [| | done].
    + intros [= <-] Hq. by destruct (Hother _ Ht ltac:(done) _ Hh).
    + apply Hsame in Hh as ->. unfold get. repeat case_match; try done. run. intros [= <-] Hq. cbn in Hq. by rewrite Hm in Hq.
  - unfold process_header_line. unfold mbind, st_err_bind.
    destruct (handle_hunk_headers_and_end_patch (trim line) p) as [r [[]|e]] eqn:Hh; [| | done].
    + intros [= <-] Hq. by destruct (Hother _ Ht ltac:(done) _ Hh).
    + done.
  - unfold process_update_line. unfold mbind, st_err_bind.
    destruct (handle_hunk_headers_and_end_patch (trim_end line) p) as [r [[]|e]] eqn:Hh; [| | done].
    + intros [= <-] Hq. by destruct (Hother _ Hte ltac:(done) _ Hh).
    + apply Hsame in Hh as ->. unfold get. repeat case_match; try done; run; intros [= <-] Hq; done.
  - case_match; [| done]. by intros [= <-].
Qed.

(** [finish] adds no hunk. *)
Lemma finish_hunks p q hs : finish p = (q, Ok hs) → hs = hunks (state p).
Proof.
  intros H. assert (Hq : hs = hunks (state q) ∧ mode (state q) = EndedPatch ∧ ∃ p1, finish_buffer p = (p1, Ok ()) ∧ q = p1).
  { unfold finish, mbind, st_err_bind in H. destruct (finish_buffer p) as [p1 [[]|e]]; [| done]. unfold get in H.
    destruct (mode (state p1)) eqn:Hm; try done. injection H as <- <-. eauto. }
  destruct Hq as (-> & Hm & p1 & Hb & ->). unfold finish_buffer in Hb. run_in Hb.
  destruct (is_empty (line_buffer p)); [by injection Hb as <-|].
  destruct (trim (line_buffer p) == END_PATCH_MARKER) eqn:E.
  - destruct (ensure_hunk_cases (trim (line_buffer p)) (mkParser [] (state p) (S (line_number p)))) as [He | [e He]];
      rewrite He in Hb; [by injection Hb as <- | done].
  - apply str_eqb_false in E. by apply process_line_ended in Hb.
Qed.

(** What the consumer has said or holds back after pieces that all parse. *)
Lemma consume_all_last call_id ds c p :
  push_deltas (map snd ds) (consumer_parser c) = (p, Ok ()) → hunks (state p) ≠ [] →
  (ds = [] → last (option_list (pending_event c)) = Some (mkUpdatedEvent call_id (convert_apply_patch_hunks_to_protocol (hunks (state p))))) →
  let '(c', es) := consume_all call_id ds c in
  consumer_parser c' = p ∧
  last (es ++ option_list (pending_event c')) =
    Some (mkUpdatedEvent call_id (convert_apply_patch_hunks_to_protocol (hunks (state p)))).
Proof.
  revert c. induction ds as [| [now d] ds IH]; intros c Hpush Hne Hlast; cbn [consume_all map snd push_deltas] in *.
  { injection Hpush as <-. split; [done|]. by apply Hlast. }
  unfold mbind, st_err_bind in Hpush. unfold consume_diff.
  destruct (consumer_push_delta now call_id d c) as [c1 e1] eqn:Hc1. unfold consumer_push_delta in Hc1.
  destruct (push_delta d (consumer_parser c)) as [p1 [hs|e]] eqn:Hd; [| done].
  assert (Hhs : hs = hunks (state p1)).
  { unfold push_delta, mbind, st_err_bind in Hd. destruct (push_chars d (consumer_parser c)) as [r [[]|e]]; [| done].
    by injection Hd as <- <-. }
  subst hs.
  assert (Hp1 : consumer_parser c1 = p1) by (repeat case_match; by injection Hc1 as <- <-).
  specialize (IH c1). rewrite Hp1 in IH. specialize (IH Hpush Hne).
  assert (Hpre : ds = [] → last (option_list e1 ++ option_list (pending_event c1)) =
            Some (mkUpdatedEvent call_id (convert_apply_patch_hunks_to_protocol (hunks (state p))))).
  { intros ->. cbn in Hpush. injection Hpush as <-. rewrite (proj2 (is_empty_false (hunks (state p1))) Hne) in Hc1.
    repeat case_match; injection Hc1 as <- <-; done. }
  destruct (consume_all call_id ds c1) as [c2 es] eqn:Hc2.
  destruct ds as [| x ds].
  - cbn in Hc2. injection Hc2 as <- <-. split; [cbn in Hpush; injection Hpush as <-; done|].
    rewrite app_nil_r. by apply Hpre.
  - destruct IH as [Hp2 Hl]; [done|]. split; [done|]. rewrite <- app_assoc, last_app. by rewrite Hl.
Qed.

(** the user sees the whole patch before it runs.  However the text of a patch is cut
    into pieces and whenever they arrive, if the parser accepts it and it has a hunk, the
    last event that is sent, with the last piece or when the text is complete, reports all
    its hunks. *)
Theorem progress_complete call_id ds now hs id :
  parse_stream (concat (map snd ds)) = Ok (hs, id) → hs ≠ [] →
  let '(c, es) := consume_all call_id ds consumer_default in
  match finish_update_on_complete now c with
  | (c', Ok e) =>
      pending_event c' = None ∧
      last (es ++ option_list e) = Some (mkUpdatedEvent call_id (convert_apply_patch_hunks_to_protocol hs))
  | (_, Err _) => False
  end.
Proof.
  unfold parse_stream, push_delta. rewrite st_bind_assoc. unfold mbind, st_err_bind.
  rewrite <- push_deltas_concat. intros Hp Hne.
  destruct (push_deltas (map snd ds) parser_default) as [p [[]|e]] eqn:Hd; [| done]. unfold get, mret, st_err_ret in Hp.
  destruct (finish p) as [q [hs'|e]] eqn:Hf; [| done]. injection Hp as -> _.
  pose proof (finish_hunks _ _ _ Hf) as ->.
  pose proof (consume_all_last call_id ds consumer_default p Hd Hne) as Hl.
  destruct (consume_all call_id ds consumer_default) as [c es]. destruct Hl as [Hc Hl].
  { intros ->. cbn in Hd. injection Hd as <-. by vm_compute in Hf. }
  unfold finish_update_on_complete. rewrite Hc, Hf. done.
Qed.

Lemma progress_complete_witness :
  let ds := [(0%N, take 20 demo_patch); (100%N, take 40 (drop 20 demo_patch)); (200%N, drop 60 demo_patch)] in
  let '(c, es) := consume_all (lit "call") ds consumer_default in
  length es = 1 ∧
  match finish_update_on_complete 300 c with
  | (c', Ok e) =>
      pending_event c' = None ∧
      last (es ++ option_list e) =
        Some (mkUpdatedEvent (lit "call") (convert_apply_patch_hunks_to_protocol (args_hunks demo_patch_args)))
  | (_, Err _) => False
  end.
Proof.
  intros ds. pose proof (progress_complete (lit "call") ds 300 (args_hunks demo_patch_args) None) as H.
  assert (Hlen : length (consume_all (lit "call") ds consumer_default).2 = 1) by by_compute.
  destruct (consume_all (lit "call") ds consumer_default) as [c es]. split; [exact Hlen|].
  apply H; [by_compute | done].
Defined.
