(* ===== verification/ConfigLayers.v ===== *)
(** * Configuration layers (codex-rs/config/src)

    The configuration of a session is merged from layers of TOML: system, managed, user,
    project and command line, from the lowest to the highest precedence ([state.rs]), with
    the merge of two layers in [merge.rs], the renaming of legacy keys in [key_aliases.rs],
    dotted overrides in [overrides.rs], the origin of every setting in [fingerprint.rs] and
    values with constraints in [constraint.rs].

    TOML values (the crate toml, with insertion-ordered tables) are a tree whose tables
    are association lists without duplicate keys.  The conversion to
    JSON and the SHA-256 of a fingerprint and the requirements that travel with a stack
    are parameters. *)

From S2P Require Import Prelude RustStr AbsPath Permissions PatchApply PatchFs IpAddress NetworkPolicy Provision EnvResolve ContextHistory.

Open Scope rstr_scope.

(** ** TOML values *)

(** Floats by their bits, date-times by their text. *)
Inductive TomlScalar :=
| TomlString (s : str) | TomlInteger (i : Z) | TomlFloat (bits : Z) | TomlBoolean (b : bool) | TomlDatetime (t : str).

#[local] Set Warnings "-register-all".
Inductive TomlValue :=
| Scalar (s : TomlScalar)
| Array (items : list TomlValue)
| Table (entries : list (str * TomlValue)).

(** [toml::map::Map]: insertion keeps the place of an existing key. *)
Fixpoint tbl_get (k : str) (t : list (str * TomlValue)) : option TomlValue :=
  match t with
  | [] => None
  | (k', v) :: t => if k' == k then Some v else tbl_get k t
  end.
Fixpoint tbl_insert (k : str) (v : TomlValue) (t : list (str * TomlValue)) : list (str * TomlValue) :=
  match t with
  | [] => [(k, v)]
  | (k', v') :: t => if k' == k then (k', v) :: t else (k', v') :: tbl_insert k v t
  end.
Fixpoint tbl_remove (k : str) (t : list (str * TomlValue)) : list (str * TomlValue) :=
  match t with
  | [] => []
  | (k', v) :: t => if k' == k then t else (k', v) :: tbl_remove k t
  end.

(** ** Legacy keys (key_aliases.rs) *)

Record ConfigKeyAlias := mkAlias { table_path : list str; legacy_key : str; canonical_key : str }.
Definition CONFIG_KEY_ALIASES : list ConfigKeyAlias :=
  [mkAlias [lit "memories"] (lit "no_memories_if_mcp_or_web_search") (lit "disable_on_external_context")].

Definition apply_alias (path : list str) (t : list (str * TomlValue)) (a : ConfigKeyAlias) :
    list (str * TomlValue) :=
  if bool_decide (path = table_path a) then
    match tbl_get (legacy_key a) t with
    | Some value =>
        let t := tbl_remove (legacy_key a) t in
        if opt_is_some (tbl_get (canonical_key a) t) then t else tbl_insert (canonical_key a) value t
    | None => t
    end
  else t.
Definition normalize_key_aliases (path : list str) (t : list (str * TomlValue)) : list (str * TomlValue) :=
  fold_left (apply_alias path) CONFIG_KEY_ALIASES t.

Fixpoint normalized_with_key_aliases (value : TomlValue) (path : list str) : TomlValue :=
  match value with
  | Table t =>
      let normalized :=
        fold_left (λ m '(key, child), tbl_insert key (normalized_with_key_aliases child (path ++ [key])) m) t [] in
      Table (normalize_key_aliases path normalized)
  | Array items => Array (map (λ item, normalized_with_key_aliases item path) items)
  | Scalar _ => value
  end.

(** ** Merging (merge.rs) *)

Definition is_permission_network_domains_path (path : list str) : bool :=
  match path with
  | [permissions; _; network; domains] =>
      (permissions == lit "permissions") && (network == lit "network") && (domains == lit "domains")
  | _ => false
  end.

Definition normalize_network_domain_keys (t : list (str * TomlValue)) : list (str * TomlValue) :=
  fold_left (λ t '(pattern, value), tbl_insert (normalize_host pattern) value t) t [].

(** The depth of nested tables. *)
Fixpoint toml_depth (v : TomlValue) : nat :=
  match v with
  | Table t => S (fold_left (λ n '(_, c), Nat.max n (toml_depth c)) t 0)
  | _ => 0
  end.

(** The tables of a level after normalisation. *)
Definition level_keys (path : list str) (t : list (str * TomlValue)) : list (str * TomlValue) :=
  let t := normalize_key_aliases path t in
  if is_permission_network_domains_path path then normalize_network_domain_keys t else t.

(** The overlay is cloned and its keys renamed before the recursion: [fuel] is the depth
    of the overlay. *)
Fixpoint merge_toml_values_at_path (fuel : nat) (base overlay : TomlValue) (path : list str) : TomlValue :=
  match overlay, base, fuel with
  | Table overlay_table, Table base_table, S fuel =>
      Table (fold_left (λ t '(key, value),
               match tbl_get key t with
               | Some existing => tbl_insert key (merge_toml_values_at_path fuel existing value (path ++ [key])) t
               | None => tbl_insert key (normalized_with_key_aliases value (path ++ [key])) t
               end) (level_keys path overlay_table) (level_keys path base_table))
  | _, _, _ => normalized_with_key_aliases overlay path
  end.

Definition merge_toml_values (base overlay : TomlValue) : TomlValue :=
  merge_toml_values_at_path (toml_depth overlay) base overlay [].

(** ** Overrides (overrides.rs) *)

Definition default_empty_table : TomlValue := Table [].

(** The loop over the segments of a dotted path. *)
Fixpoint apply_toml_override_segments (current : TomlValue) (segments : list str) (value : TomlValue) : TomlValue :=
  match segments with
  | [] => current
  | [segment] =>
      match current with
      | Table t => Table (tbl_insert segment value t)
      | _ => Table [(segment, value)]
      end
  | segment :: segments =>
      let t := match current with Table t => t | _ => [] end in
      Table (tbl_insert segment
               (apply_toml_override_segments (default (Table []) (tbl_get segment t)) segments value) t)
  end.
Definition apply_toml_override (root : TomlValue) (path : str) (value : TomlValue) : TomlValue :=
  apply_toml_override_segments root (split (ch ".") path) value.
Definition build_cli_overrides_layer (cli_overrides : list (str * TomlValue)) : TomlValue :=
  fold_left (λ root '(path, value), apply_toml_override root path value) cli_overrides default_empty_table.

(** ** Layers (app-server-protocol/src/protocol/v2/config.rs, state.rs) *)

Inductive ConfigLayerSource :=
| Mdm (domain key : str)
| System (file : str)
| EnterpriseManaged (id name : str)
| User (file : str) (profile : option str)
| Project (dot_codex_folder : str)
| SessionFlags
| LegacyManagedConfigTomlFromFile (file : str)
| LegacyManagedConfigTomlFromMdm.
#[export] Instance ConfigLayerSource_eq_dec : EqDecision ConfigLayerSource.
Proof. solve_decision. Defined.

Definition precedence (s : ConfigLayerSource) : Z :=
  match s with
  | Mdm _ _ => 0
  | System _ => 10
  | EnterpriseManaged _ _ => 15
  | User _ profile => if opt_is_some profile then 21 else 20
  | Project _ => 25
  | SessionFlags => 30
  | LegacyManagedConfigTomlFromFile _ => 40
  | LegacyManagedConfigTomlFromMdm => 50
  end.

Record RawTomlLayer := mkRaw { contents : str; base_dir : str }.
Record ConfigLayerEntry := mkLayer {
  name : ConfigLayerSource;
  config : TomlValue;
  version : str;
  disabled_reason : option str;
  raw_toml : option RawTomlLayer;
  hooks_config_folder_override : option str;
}.
Definition is_disabled (l : ConfigLayerEntry) : bool := opt_is_some (disabled_reason l).
Record ConfigLayerMetadata := mkMeta { meta_name : ConfigLayerSource; meta_version : str }.
Definition metadata (l : ConfigLayerEntry) : ConfigLayerMetadata := mkMeta (name l) (version l).

Definition config_folder (l : ConfigLayerEntry) : option str :=
  match name l with
  | System file | User file _ => abs_parent file
  | Project dot_codex_folder => Some dot_codex_folder
  | _ => None
  end.
Definition hooks_config_folder (l : ConfigLayerEntry) : option str :=
  opt_or (hooks_config_folder_override l) (config_folder l).

Definition get_raw_toml (l : ConfigLayerEntry) : option str := contents <$> raw_toml l.
Definition raw_toml_base_dir (l : ConfigLayerEntry) : option str := base_dir <$> raw_toml l.
Definition with_hooks_config_folder_override (l : ConfigLayerEntry) (o : option str) : ConfigLayerEntry :=
  mkLayer (name l) (config l) (version l) (disabled_reason l) (raw_toml l) o.

(** [ProfileV2Name::from_str]; a byte outside ASCII is refused with its character. *)
Definition profile_from_str (value : str) : result str str :=
  if is_empty value || negb (forallb (λ c, is_ascii_alphanumeric c || (c =? ch "_")%N || (c =? ch "-")%N) value)
  then Err value else Ok value.

Inductive ConfigLayerStackOrdering := LowestPrecedenceFirst | HighestPrecedenceFirst.

Definition is_user (l : ConfigLayerEntry) : bool := match name l with User _ _ => true | _ => false end.

Inductive OrderingError :=
| NotInPrecedenceOrder | ProjectLayerHasNoParent | ProjectLayersNotFromRootToCwd.

(** [Path::ancestors], the path first. *)
Fixpoint ancestors_up (n : nat) (p : str) : list str :=
  p :: match n with
       | 0 => []
       | S n => match path_parent p with Some q => ancestors_up n q | None => [] end
       end.
Definition path_ancestors (p : str) : list str := ancestors_up (length (components p)) p.

(** [is_sorted] of the sources, which compare by precedence. *)
Fixpoint layers_sorted (layers : list ConfigLayerEntry) : bool :=
  match layers with
  | a :: (b :: _) as rest => (precedence (name a) <=? precedence (name b))%Z && layers_sorted rest
  | _ => true
  end.

(** The loop of [verify_layer_ordering] from layer [index]. *)
Fixpoint verify_layers_from (index : nat) (user_layer_index : option nat) (previous : option str)
    (layers : list ConfigLayerEntry) : result OrderingError (option nat) :=
  match layers with
  | [] => Ok user_layer_index
  | layer :: layers =>
      let user_layer_index := if is_user layer then Some index else user_layer_index in
      match name layer with
      | Project current =>
          match previous with
          | Some prev =>
              match path_parent prev with
              | None => Err ProjectLayerHasNoParent
              | Some parent =>
                  if path_eq prev current || negb (existsb (λ a, path_eq a parent) (path_ancestors current))
                  then Err ProjectLayersNotFromRootToCwd
                  else verify_layers_from (S index) user_layer_index (Some current) layers
              end
          | None => verify_layers_from (S index) user_layer_index (Some current) layers
          end
      | _ => verify_layers_from (S index) user_layer_index previous layers
      end
  end.
Definition verify_layer_ordering (layers : list ConfigLayerEntry) : result OrderingError (option nat) :=
  if negb (layers_sorted layers) then Err NotInPrecedenceOrder else verify_layers_from 0 None None layers.

(** ** Origins (fingerprint.rs) *)

(** The index of an array item counts in [i32]; arrays are shorter than that. *)
Fixpoint record_origins (value : TomlValue) (meta : ConfigLayerMetadata) (path : list str)
    (origins : gmap str ConfigLayerMetadata) : gmap str ConfigLayerMetadata :=
  match value with
  | Table t => fold_left (λ o '(key, val), record_origins val meta (path ++ [key]) o) t origins
  | Array items =>
      (fold_left (λ '(idx, o) item, (S idx, record_origins item meta (path ++ [fmt_nat idx]) o)) items (0, origins)).2
  | Scalar _ => if is_empty path then origins else <[join (lit ".") path := meta]> origins
  end.

(** [serde_json::Value]; a number is its text. *)
Inductive JsonValue :=
| JsonNull | JsonBool (b : bool) | JsonNumber (n : str) | JsonString (s : str)
| JsonArray (items : list JsonValue) | JsonObject (entries : list (str * JsonValue)).

Definition key_le (a b : str * JsonValue) : Prop := str_le a.1 b.1.
#[export] Instance key_le_dec : RelDecision key_le.
Proof. intros a b. unfold key_le. apply _. Defined.

(** The keys of every object in order. *)
Fixpoint canonical_json (v : JsonValue) : JsonValue :=
  match v with
  | JsonObject m => JsonObject (merge_sort key_le (map (λ '(key, val), (key, canonical_json val)) m))
  | JsonArray items => JsonArray (map canonical_json items)
  | _ => v
  end.

(** serde_json and sha2. *)
Class Fingerprints := {
  to_json : TomlValue → option JsonValue;
  json_to_vec : JsonValue → option (list N);
  sha256 : list N → list N }.

Definition version_for_toml `{Fingerprints} (v : TomlValue) : str :=
  let json := default JsonNull (to_json v) in
  let serialized := default [] (json_to_vec (canonical_json json)) in
  lit "sha256:" ++ finalize_sha256_hex (sha256 serialized).

(** ** The stack (state.rs) *)

Section Stack.
Context {ConfigRequirements ConfigRequirementsToml : Type}.
Context `{F : Fingerprints}.

Record ConfigLayerStack := mkStack {
  layers : list ConfigLayerEntry;
  user_layer_index : option nat;
  requirements : ConfigRequirements;
  requirements_toml : ConfigRequirementsToml;
  ignore_user_and_project_exec_policy_rules : bool;
  startup_warnings : option (list str);
}.

Definition layer_new (name : ConfigLayerSource) (config : TomlValue) : ConfigLayerEntry :=
  mkLayer name config (version_for_toml config) None None None.
Definition layer_new_with_raw_toml (name : ConfigLayerSource) (config : TomlValue) (raw_toml base_dir : str) :
    ConfigLayerEntry :=
  mkLayer name config (version_for_toml config) None (Some (mkRaw raw_toml base_dir)) None.
Definition layer_new_disabled (name : ConfigLayerSource) (config : TomlValue) (disabled_reason : str) :
    ConfigLayerEntry :=
  mkLayer name config (version_for_toml config) (Some disabled_reason) None None.

Definition stack_new (layers : list ConfigLayerEntry) (requirements : ConfigRequirements)
    (requirements_toml : ConfigRequirementsToml) : result OrderingError ConfigLayerStack :=
  index ← verify_layer_ordering layers;
  Ok (mkStack layers index requirements requirements_toml false None).
Definition with_user_and_project_exec_policy_rules_ignored (s : ConfigLayerStack) (b : bool) : ConfigLayerStack :=
  mkStack (layers s) (user_layer_index s) (requirements s) (requirements_toml s) b (startup_warnings s).
Definition with_startup_warnings (s : ConfigLayerStack) (ws : list str) : ConfigLayerStack :=
  mkStack (layers s) (user_layer_index s) (requirements s) (requirements_toml s)
    (ignore_user_and_project_exec_policy_rules s) (Some ws).

Definition get_layers (s : ConfigLayerStack) (ordering : ConfigLayerStackOrdering) (include_disabled : bool) :
    list ConfigLayerEntry :=
  let ls := List.filter (λ l, include_disabled || negb (is_disabled l)) (layers s) in
  match ordering with HighestPrecedenceFirst => reverse ls | LowestPrecedenceFirst => ls end.
Definition layers_high_to_low (s : ConfigLayerStack) : list ConfigLayerEntry :=
  get_layers s HighestPrecedenceFirst false.
Definition get_active_user_layer (s : ConfigLayerStack) : option ConfigLayerEntry :=
  index ← user_layer_index s; layers s !! index.
Definition get_user_config_file (s : ConfigLayerStack) : option str :=
  layer ← get_active_user_layer s;
  match name layer with User file _ => Some file | _ => None end.
Definition get_user_layers (s : ConfigLayerStack) (ordering : ConfigLayerStackOrdering) (include_disabled : bool) :
    list ConfigLayerEntry :=
  List.filter is_user (get_layers s ordering include_disabled).

Definition merge_layers (ls : list ConfigLayerEntry) : TomlValue :=
  fold_left (λ merged l, merge_toml_values merged (config l)) ls (Table []).
Definition effective_user_config (s : ConfigLayerStack) : option TomlValue :=
  let user_layers := get_user_layers s LowestPrecedenceFirst false in
  if is_empty user_layers then None else Some (merge_layers user_layers).
Definition effective_config (s : ConfigLayerStack) : TomlValue :=
  merge_layers (get_layers s LowestPrecedenceFirst false).

Definition origins (s : ConfigLayerStack) : gmap str ConfigLayerMetadata :=
  fold_left (λ o l, record_origins (normalized_with_key_aliases (config l) []) (metadata l) [] o)
    (get_layers s LowestPrecedenceFirst false) ∅.

(** [position] of the first layer of a higher precedence, and [insert] or [push]. *)
Definition insert_layer (user_layer : ConfigLayerEntry) (ls : list ConfigLayerEntry) : list ConfigLayerEntry :=
  match position (λ l, (precedence (name user_layer) <? precedence (name l))%Z) ls with
  | Some index => insert_at index user_layer ls
  | None => ls ++ [user_layer]
  end.
Definition is_user_file (config_toml : str) (l : ConfigLayerEntry) : bool :=
  match name l with User file _ => path_eq file config_toml | _ => false end.

Definition with_user_config_profile (s : ConfigLayerStack) (config_toml : str) (profile : option str)
    (user_config : TomlValue) : ConfigLayerStack :=
  let user_layer := layer_new (User config_toml profile) user_config in
  let ls := match position (is_user_file config_toml) (layers s) with
            | Some index => delete index (layers s)
            | None => layers s
            end in
  let ls := insert_layer user_layer ls in
  mkStack ls (rposition is_user ls) (requirements s) (requirements_toml s)
    (ignore_user_and_project_exec_policy_rules s) (startup_warnings s).
Definition with_user_config (s : ConfigLayerStack) (config_toml : str) (user_config : TomlValue) : ConfigLayerStack :=
  let profile :=
    find_map (λ l, match name l with
                   | User file profile =>
                       if path_eq file config_toml then
                         p ← profile; match profile_from_str p with Ok p => Some p | Err _ => None end
                       else None
                   | _ => None
                   end) (layers s) in
  with_user_config_profile s config_toml profile user_config.

Definition with_user_layer_from (s other : ConfigLayerStack) : ConfigLayerStack :=
  let user_layers := List.filter is_user (layers other) in
  let ls := List.filter (λ l, negb (is_user l)) (layers s) in
  let ls := fold_left (λ ls l, insert_layer l ls) user_layers ls in
  mkStack ls (rposition is_user ls) (requirements s) (requirements_toml s)
    (ignore_user_and_project_exec_policy_rules s) (startup_warnings s).

End Stack.

Arguments ConfigLayerStack : clear implicits.

(** ** Constrained values (constraint.rs) *)

Section Constrained.
Context {T ConstraintError : Type}.

Record Constrained := mkConstrained {
  value : T;
  validator : T → result ConstraintError unit;
  normalizer : option (T → T);
}.

Definition constrained_new (initial_value : T) (validator : T → result ConstraintError unit) :
    result ConstraintError Constrained :=
  validator initial_value ;; Ok (mkConstrained initial_value validator None).
Definition constrained_normalized (initial_value : T) (normalizer : T → T) : result ConstraintError Constrained :=
  let validator := λ _, Ok tt in
  let normalized := normalizer initial_value in
  validator normalized ;; Ok (mkConstrained normalized validator (Some normalizer)).
Definition allow_any (initial_value : T) : Constrained := mkConstrained initial_value (λ _, Ok tt) None.
(** [invalid] is the error for a candidate, which names it and the allowed value. *)
Definition allow_only `{!EqDecision T} (invalid : T → T → ConstraintError) (only_value : T) : Constrained :=
  mkConstrained only_value
    (λ candidate, if bool_decide (candidate = only_value) then Ok tt else Err (invalid candidate only_value)) None.
Definition can_set (c : Constrained) (candidate : T) : result ConstraintError unit := validator c candidate.
(** An operation on [&mut self] returns the constraint it leaves. *)
Definition add_validator (c : Constrained) (added : T → result ConstraintError unit) :
    Constrained * result ConstraintError unit :=
  let combined := λ candidate, validator c candidate ;; added candidate in
  match combined (value c) with
  | Ok _ => (mkConstrained (value c) combined (normalizer c), Ok tt)
  | Err e => (c, Err e)
  end.
Definition set (c : Constrained) (v : T) : Constrained * result ConstraintError unit :=
  let v := match normalizer c with Some normalizer => normalizer v | None => v end in
  match validator c v with
  | Ok _ => (mkConstrained v (validator c) (normalizer c), Ok tt)
  | Err e => (c, Err e)
  end.

End Constrained.
Arguments Constrained : clear implicits.

(** ** Values at a path *)

(** The value at a path of table keys. *)
Fixpoint get_at (v : TomlValue) (p : list str) : option TomlValue :=
  match p, v with
  | [], _ => Some v
  | k :: p, Table t => match tbl_get k t with Some c => get_at c p | None => None end
  | _ :: _, _ => None
  end.
(** A value that is not a table lies on the way to the path. *)
Fixpoint blocked (v : TomlValue) (p : list str) : bool :=
  match p, v with
  | [], _ => false
  | k :: p, Table t => match tbl_get k t with Some c => blocked c p | None => false end
  | _ :: _, _ => true
  end.
(** The setting at a path: a scalar or an array. *)
Definition setting_at (v : TomlValue) (p : list str) : option TomlValue :=
  match get_at v p with Some (Table _) => None | r => r end.

(** Tables without duplicate keys, as the TOML parser builds them. *)
Fixpoint toml_wf (v : TomlValue) : bool :=
  match v with
  | Table t => bool_decide (NoDup t.*1) && forallb (λ '(_, c), toml_wf c) t
  | Array items => forallb toml_wf items
  | Scalar _ => true
  end.

Fixpoint TomlValue_nested_ind (P : TomlValue → Prop) (Hs : ∀ s, P (Scalar s))
    (Ha : ∀ items, Forall P items → P (Array items))
    (Ht : ∀ t, Forall (λ e, P e.2) t → P (Table t)) (v : TomlValue) : P v :=
  let rec := TomlValue_nested_ind P Hs Ha Ht in
  match v with
  | Scalar s => Hs s
  | Array items =>
      Ha items ((fix go l : Forall P l :=
                   match l with [] => Forall_nil_2 P | x :: l => Forall_cons_2 P x l (rec x) (go l) end) items)
  | Table t =>
      Ht t ((fix go l : Forall (λ e, P e.2) l :=
               match l with [] => Forall_nil_2 _ | x :: l => Forall_cons_2 _ x l (rec x.2) (go l) end) t)
  end.

(** ** Tables *)

Lemma toml_wf_Table t :
  toml_wf (Table t) = true ↔ NoDup t.*1 ∧ Forall (λ e, toml_wf e.2 = true) t.
Proof.
  simpl. rewrite andb_true_iff, bool_decide_eq_true, forallb_forall, List.Forall_forall.
  split; intros [H1 H2]; (split; [done|]); intros [k c] Hin; apply (H2 (k, c) Hin).
Qed.

Lemma tbl_get_cons k k' v t : tbl_get k ((k', v) :: t) = if decide (k' = k) then Some v else tbl_get k t.
Proof. cbn [tbl_get]. unfold str_eqb. case_bool_decide; by case_decide. Qed.

Lemma tbl_get_None k t : tbl_get k t = None ↔ k ∉ t.*1.
Proof.
  induction t as [|[k' v] t IH]; [set_solver|]. rewrite tbl_get_cons. simpl.
  case_decide as E; set_solver.
Qed.

Lemma tbl_get_elem k t v : tbl_get k t = Some v → (k, v) ∈ t.
Proof.
  induction t as [|[k' w] t IH]; [done|]. rewrite tbl_get_cons. case_decide as E; intros; simplify_eq; set_solver.
Qed.

Lemma tbl_get_map (f : str → TomlValue → TomlValue) t k :
  tbl_get k (map (λ '(k, c), (k, f k c)) t) = f k <$> tbl_get k t.
Proof.
  induction t as [|[k' w] t IH]; [done|]. simpl map. rewrite !tbl_get_cons. case_decide as E; [by subst|apply IH].
Qed.

Lemma tbl_get_insert k k' v t : tbl_get k (tbl_insert k' v t) = if decide (k' = k) then Some v else tbl_get k t.
Proof.
  induction t as [|[k1 w] t IH]; simpl tbl_insert; [apply tbl_get_cons|].
  unfold str_eqb. case_bool_decide as E; rewrite !tbl_get_cons; repeat case_decide; try congruence.
Qed.

Lemma insert_fresh k v t : k ∉ t.*1 → tbl_insert k v t = t ++ [(k, v)].
Proof.
  induction t as [|[k1 w] t IH]; intros Hk; simpl; [done|].
  unfold str_eqb. rewrite bool_decide_false by set_solver. f_equal. apply IH. set_solver.
Qed.

(** Copying a table entry by entry maps its values. *)
Lemma copy_table (f : str → TomlValue → TomlValue) t acc :
  NoDup (acc.*1 ++ t.*1) →
  fold_left (λ m '(k, c), tbl_insert k (f k c) m) t acc = acc ++ map (λ '(k, c), (k, f k c)) t.
Proof.
  revert acc. induction t as [|[k c] t IH]; intros acc Hnd; simpl; [by rewrite app_nil_r|].
  simpl in Hnd. assert (k ∉ acc.*1) by (apply NoDup_app in Hnd as (_ & H & _); set_solver).
  rewrite insert_fresh by done. rewrite IH; [by rewrite <-app_assoc|].
  rewrite fmap_app. simpl. by rewrite <-app_assoc.
Qed.

Lemma tbl_remove_sublist k t : sublist (tbl_remove k t) t.
Proof.
  induction t as [|[k1 w] t IH]; simpl; [done|]. destruct (k1 == k); [by apply sublist_cons|by apply sublist_skip].
Qed.
Lemma tbl_get_remove k k' t :
  NoDup t.*1 → tbl_get k (tbl_remove k' t) = if decide (k' = k) then None else tbl_get k t.
Proof.
  induction t as [|[k1 w] t IH]; intros Hnd; simpl tbl_remove; [by case_decide|].
  apply NoDup_cons in Hnd as [Hk1 Hnd]. unfold str_eqb. case_bool_decide as E.
  - subst. rewrite tbl_get_cons. case_decide as E; [|done]. subst. by apply tbl_get_None.
  - rewrite !tbl_get_cons, IH by done. repeat case_decide; congruence.
Qed.

(** ** Renamed keys *)

Definition memories : str := lit "memories".
Definition legacy : str := lit "no_memories_if_mcp_or_web_search".
Definition canonical : str := lit "disable_on_external_context".

Lemma aliases_elsewhere path t : path ≠ [memories] → normalize_key_aliases path t = t.
Proof. intros Hp. cbn. unfold apply_alias. by rewrite bool_decide_false. Qed.

Lemma aliases_memories t :
  normalize_key_aliases [memories] t =
    match tbl_get legacy t with
    | Some v =>
        if opt_is_some (tbl_get canonical (tbl_remove legacy t)) then tbl_remove legacy t
        else tbl_insert canonical v (tbl_remove legacy t)
    | None => t
    end.
Proof. reflexivity. Qed.

Lemma aliases_clean path t : (path = [memories] → tbl_get legacy t = None) → normalize_key_aliases path t = t.
Proof.
  intros Hc. destruct (decide (path = [memories])) as [->|Hp]; [|by apply aliases_elsewhere].
  by rewrite aliases_memories, Hc.
Qed.

(** The legacy key is gone, and gives its value to the canonical key where that is absent. *)
Lemma aliases_get t k :
  NoDup t.*1 →
  tbl_get k (normalize_key_aliases [memories] t) =
    if decide (k = legacy) then None
    else if decide (k = canonical) then opt_or (tbl_get canonical t) (tbl_get legacy t)
    else tbl_get k t.
Proof.
  intros Hnd. assert (Hne : canonical ≠ legacy) by done. rewrite aliases_memories.
  destruct (tbl_get legacy t) as [v|] eqn:Hl.
  - rewrite (tbl_get_remove canonical) by done. rewrite decide_False by done.
    destruct (tbl_get canonical t) as [w|] eqn:Hc; cbn [opt_is_some opt_or];
      rewrite ?tbl_get_insert, tbl_get_remove by done; repeat case_decide; congruence.
  - repeat case_decide; subst; [done| |done]. by destruct (tbl_get canonical t).
Qed.

Lemma aliases_wf path t :
  NoDup t.*1 →
  NoDup (normalize_key_aliases path t).*1 ∧
  ∀ k c, (k, c) ∈ normalize_key_aliases path t → ∃ k', (k', c) ∈ t ∧ (k = k' ∨ k = canonical).
Proof.
  intros Hnd. destruct (decide (path = [memories])) as [->|Hp]; [|rewrite aliases_elsewhere by done; eauto 6].
  rewrite aliases_memories. pose proof (tbl_remove_sublist legacy t) as Hsub.
  assert (Hin : ∀ k c, (k, c) ∈ tbl_remove legacy t → (k, c) ∈ t) by (intros; by eapply elem_of_sublist).
  assert (Hnd' : NoDup (tbl_remove legacy t).*1) by (eapply sublist_NoDup; [done|by apply fmap_sublist]).
  destruct (tbl_get legacy t) as [v|] eqn:Hl; [|eauto 6].
  destruct (tbl_get canonical (tbl_remove legacy t)) eqn:Hc; cbn [opt_is_some]; [eauto 6|].
  apply tbl_get_None in Hc. rewrite insert_fresh by done. apply tbl_get_elem in Hl. split.
  - rewrite fmap_app. apply NoDup_app. simpl. split_and!; [done|set_solver|apply NoDup_singleton].
  - intros k c [?|?%list_elem_of_singleton]%elem_of_app; simplify_eq; eauto 6.
Qed.
Arguments normalize_key_aliases : simpl never.

(** Elsewhere than at [memories], normalisation copies a value. *)
Lemma normalized_elsewhere v path :
  toml_wf v = true → (∀ q, path ++ q ≠ [memories]) → normalized_with_key_aliases v path = v.
Proof.
  revert path. induction v as [s|items IH|t IH] using TomlValue_nested_ind; intros path Hwf Hp; [done| |].
  - simpl in *. f_equal. rewrite forallb_forall in Hwf. induction IH as [|x items Hx _ IH]; [done|].
    simpl in *. f_equal; auto.
  - apply toml_wf_Table in Hwf as [Hnd Hwf]. cbn [normalized_with_key_aliases].
    rewrite aliases_elsewhere by (specialize (Hp []); by rewrite app_nil_r in Hp).
    rewrite (copy_table (λ k c, normalized_with_key_aliases c (path ++ [k]))) by done.
    f_equal. simpl. clear Hnd. induction IH as [|[k c] t Hx _ IH]; [done|]. inv Hwf. simpl in *.
    rewrite Hx; [|done|intros q; rewrite <-app_assoc; apply Hp]. f_equal. auto.
Qed.

(** The entries of a normalised table are the normalised entries of its renamed keys. *)
Lemma normalized_get t path k :
  toml_wf (Table t) = true →
  ∃ t', normalized_with_key_aliases (Table t) path = Table t' ∧
        tbl_get k t' = (λ c, normalized_with_key_aliases c (path ++ [k])) <$> tbl_get k (normalize_key_aliases path t).
Proof.
  intros [Hnd Hwf]%toml_wf_Table. cbn [normalized_with_key_aliases].
  rewrite (copy_table (λ k c, normalized_with_key_aliases c (path ++ [k]))) by done.
  eexists; split; [done|]. rewrite app_nil_l.
  destruct (decide (path = [memories])) as [->|Hp]; [|rewrite !aliases_elsewhere by done; apply tbl_get_map].
  rewrite !aliases_get, !tbl_get_map; [|done|].
  - repeat case_decide; [done| |done]. subst k.
    destruct (tbl_get canonical t) as [c|]; [done|]. simpl.
    destruct (tbl_get legacy t) as [c|] eqn:Hl; [|done]. simpl. f_equal.
    rewrite Forall_forall in Hwf. specialize (Hwf _ (tbl_get_elem _ _ _ Hl)).
    rewrite !normalized_elsewhere; done.
  - rewrite <-list_fmap_compose. erewrite list_fmap_ext; [exact Hnd|]. by intros ? [].
Qed.

(** ** One merge *)

(** No legacy key below [path]. *)
Definition clean (path : list str) (v : TomlValue) : Prop :=
  ∀ q, path ++ q = [memories; legacy] → get_at v q = None.
(** The path, read from [path] on, does not enter a table of network domains. *)
Definition avoids_domains (path p : list str) : Prop :=
  ∀ p1 k p2, p = p1 ++ k :: p2 → is_permission_network_domains_path (path ++ p1) = false.
Definition outside_domains (p : list str) : bool :=
  (length p <=? 4) || negb (is_permission_network_domains_path (take 4 p)).

(** [r] holds at [p] what [o] says, and what [b] says where [o] is silent. *)
Definition overlaid (o b r : TomlValue) (p : list str) : Prop :=
  match get_at o p with
  | Some (Table _) => ∃ t, get_at r p = Some (Table t)
  | Some v => get_at r p = Some v
  | None => get_at r p = if blocked o p then None else get_at b p
  end.

Lemma outside_avoids p : outside_domains p = true → avoids_domains [] p.
Proof.
  intros Ho p1 k p2 ->. simpl. unfold outside_domains in Ho.
  destruct (is_permission_network_domains_path p1) eqn:Hd; [|done].
  destruct p1 as [|a [|b [|c [|d [|]]]]]; try done.
  apply orb_true_iff in Ho as [Ho|Ho]; [done|].
  change (take 4 _) with [a; b; c; d] in Ho. by rewrite Hd in Ho.
Qed.

Lemma avoids_cons path k p : avoids_domains path (k :: p) → avoids_domains (path ++ [k]) p.
Proof. intros Ha p1 k' p2 ->. rewrite <-app_assoc. by apply (Ha (k :: p1) k' p2). Qed.

Lemma clean_child path t k c : clean path (Table t) → tbl_get k t = Some c → clean (path ++ [k]) c.
Proof.
  intros Hc Hk q Hq. rewrite <-app_assoc in Hq. specialize (Hc _ Hq). simpl in Hc. by rewrite Hk in Hc.
Qed.

Lemma level_keys_overlay path t k p : avoids_domains path (k :: p) → level_keys path t = normalize_key_aliases path t.
Proof. intros Ha. unfold level_keys. specialize (Ha [] k p eq_refl). rewrite app_nil_r in Ha. by rewrite Ha. Qed.

Lemma level_keys_base path t k p : avoids_domains path (k :: p) → clean path (Table t) → level_keys path t = t.
Proof.
  intros Ha Hc. erewrite level_keys_overlay by done. apply aliases_clean. intros ->.
  specialize (Hc [legacy] eq_refl). simpl in Hc. by destruct (tbl_get legacy t).
Qed.

Lemma depth_member t k c : (k, c) ∈ t → S (toml_depth c) ≤ toml_depth (Table t).
Proof.
  cbn [toml_depth]. enough (∀ n, (n ≤ fold_left (λ n '(_, c), Nat.max n (toml_depth c)) t n) ∧
    ((k, c) ∈ t → toml_depth c ≤ fold_left (λ n '(_, c), Nat.max n (toml_depth c)) t n)) as H.
  { intros Hin. by apply le_n_S, H. }
  induction t as [|[k' c'] t IH]; intros n; simpl; [split; [done|set_solver]|].
  destruct (IH (n `max` toml_depth c')) as [H1 H2]. split; [lia|].
  intros [?|?]%elem_of_cons; simplify_eq; [lia|by apply H2].
Qed.

(** The loop over the overlay visits a key once. *)
Lemma overlay_loop (merge norm : str → TomlValue → TomlValue → TomlValue) es t k :
  NoDup es.*1 →
  tbl_get k (fold_left (λ t '(key, value),
      match tbl_get key t with
      | Some existing => tbl_insert key (merge key existing value) t
      | None => tbl_insert key (norm key value value) t
      end) es t) =
  match tbl_get k es with
  | Some value => Some match tbl_get k t with Some e => merge k e value | None => norm k value value end
  | None => tbl_get k t
  end.
Proof.
  revert t. induction es as [|[k' v] es IH]; intros t Hnd; [done|].
  apply NoDup_cons in Hnd as [Hk' Hnd]. cbn [fold_left fst] in *. rewrite IH by done. rewrite tbl_get_cons.
  case_decide as E; [subst k'; apply tbl_get_None in Hk'; rewrite Hk'|];
    destruct (tbl_get _ t) eqn:Hg; rewrite tbl_get_insert; case_decide; simplify_eq; try done; by rewrite ?Hg.
Qed.

Lemma overlaid_replaced o b p : (get_at b p = None ∨ p = []) → overlaid o b o p.
Proof.
  unfold overlaid. intros Hb. destruct (get_at o p) as [[]|] eqn:Hg; eauto.
  destruct (blocked o p); [done|]. destruct Hb as [->| ->]; [done|]. by destruct o.
Qed.

Lemma overlaid_cons k p to tb tr :
  match tbl_get k to with
  | Some o => ∃ r, tbl_get k tr = Some r ∧
                match tbl_get k tb with Some b => overlaid o b r p | None => r = o end
  | None => tbl_get k tr = tbl_get k tb
  end → overlaid (Table to) (Table tb) (Table tr) (k :: p).
Proof.
  unfold overlaid. cbn [get_at blocked]. destruct (tbl_get k to) as [o|]; [|by intros ->].
  intros (r & -> & H). destruct (tbl_get k tb) as [b|]; [done|]. subst r.
  destruct (get_at o p) as [[]|]; eauto. by destruct (blocked o p).
Qed.

Lemma merge_at fuel b o path p :
  toml_depth o ≤ fuel → toml_wf o = true → clean path b → avoids_domains path p →
  overlaid (normalized_with_key_aliases o path) b (merge_toml_values_at_path fuel b o path) p.
Proof.
  revert fuel b o path. induction p as [|k p IH]; intros fuel b o path Hd Hwf Hc Ha.
  - destruct o as [s|items|t], b as [s'|items'|t'], fuel; try (by apply overlaid_replaced; right).
    unfold overlaid. cbn [get_at normalized_with_key_aliases merge_toml_values_at_path]. eauto.
  - destruct o as [s|items|t]; [by destruct b, fuel|by destruct b, fuel|].
    destruct b as [s'|items'|t']; [by destruct fuel; apply overlaid_replaced; left..|].
    destruct fuel as [|fuel]; [cbn in Hd; lia|].
    destruct (normalized_get t path k Hwf) as (tn & -> & Hk).
    apply toml_wf_Table in Hwf as [Hnd Hwf]. destruct (aliases_wf path t Hnd) as [Hnd' Hsub].
    cbn [merge_toml_values_at_path]. erewrite (level_keys_base _ t'), level_keys_overlay by done.
    apply overlaid_cons.
    rewrite (overlay_loop (λ k e v, merge_toml_values_at_path fuel e v (path ++ [k]))
                          (λ k v _, normalized_with_key_aliases v (path ++ [k]))) by done.
    rewrite Hk. destruct (tbl_get k (normalize_key_aliases path t)) as [v|] eqn:Hv; [|done].
    eexists; split; [done|]. destruct (tbl_get k t') as [e|] eqn:He; [|done].
    apply tbl_get_elem, Hsub in Hv as (k' & Hin & _). rewrite Forall_forall in Hwf.
    apply IH; [|by apply (Hwf _ Hin)|by eapply clean_child|by apply avoids_cons].
    apply depth_member in Hin. lia.
Qed.

(** ** The setting in effect *)

Definition normalized_config (l : ConfigLayerEntry) : TomlValue := normalized_with_key_aliases (config l) [].

(** The layer that decides a path, from the highest precedence: the first with a value
    there, or with a value in the way. *)
Fixpoint resolve (ls : list ConfigLayerEntry) (p : list str) : option (ConfigLayerEntry * TomlValue) :=
  match ls with
  | [] => None
  | l :: ls =>
      match get_at (normalized_config l) p with
      | Some (Table _) => None
      | Some v => Some (l, v)
      | None => if blocked (normalized_config l) p then None else resolve ls p
      end
  end.

Definition well_formed (l : ConfigLayerEntry) : bool := toml_wf (config l).

Lemma normalized_clean v : toml_wf v = true → get_at (normalized_with_key_aliases v []) [memories; legacy] = None.
Proof.
  intros Hwf. destruct v as [s|items|t]; [done..|].
  destruct (normalized_get t [] memories Hwf) as (t' & -> & Hm). cbn [get_at]. rewrite Hm.
  rewrite aliases_elsewhere by done. destruct (tbl_get memories t) as [c|] eqn:Hc; [|done]. cbn [fmap option_fmap option_map].
  apply toml_wf_Table in Hwf as [_ Hwf]. rewrite Forall_forall in Hwf.
  specialize (Hwf _ (tbl_get_elem _ _ _ Hc)). destruct c as [s|items|tm]; [done..|].
  destruct (normalized_get tm ([] ++ [memories]) legacy Hwf) as (t'' & -> & Hl). rewrite Hl.
  apply toml_wf_Table in Hwf as [Hnd _]. rewrite aliases_get by done. by rewrite decide_True.
Qed.

Lemma merge_top b o p :
  toml_wf o = true → clean [] b → outside_domains p = true →
  overlaid (normalized_with_key_aliases o []) b (merge_toml_values b o) p.
Proof. intros. apply merge_at; [done..|by apply outside_avoids]. Qed.

Lemma merge_clean b o : toml_wf o = true → clean [] b → clean [] (merge_toml_values b o).
Proof.
  intros Hwf Hc q Hq. simpl in Hq. subst q. pose proof (merge_top b o [memories; legacy] Hwf Hc eq_refl) as H.
  unfold overlaid in H. rewrite normalized_clean in H by done. rewrite H. destruct (blocked _ _); [done|]. by apply Hc.
Qed.

Lemma merge_setting b o p :
  toml_wf o = true → clean [] b → outside_domains p = true →
  setting_at (merge_toml_values b o) p =
    match get_at (normalized_with_key_aliases o []) p with
    | Some (Table _) => None
    | Some v => Some v
    | None => if blocked (normalized_with_key_aliases o []) p then None else setting_at b p
    end.
Proof.
  intros Hwf Hc Hp. pose proof (merge_top b o p Hwf Hc Hp) as H. unfold overlaid in H. unfold setting_at.
  destruct (get_at (normalized_with_key_aliases o []) p) as [[]|]; [by rewrite H..| |].
  - by destruct H as [t ->].
  - rewrite H. by destruct (blocked _ _).
Qed.

Lemma merge_layers_snoc ls l : merge_layers (ls ++ [l]) = merge_toml_values (merge_layers ls) (config l).
Proof. unfold merge_layers. by rewrite fold_left_app. Qed.

Lemma merge_layers_clean ls : Forall (λ l, well_formed l = true) ls → clean [] (merge_layers ls).
Proof.
  induction ls as [|l ls IH] using rev_ind; [by intros _ q Hq; simpl in Hq; subst|].
  intros [Hls [Hl _]%Forall_cons]%Forall_app. rewrite merge_layers_snoc. apply merge_clean; [exact Hl|auto].
Qed.

Lemma merge_layers_setting ls p :
  Forall (λ l, well_formed l = true) ls → p ≠ [] → outside_domains p = true →
  setting_at (merge_layers ls) p = snd <$> resolve (reverse ls) p.
Proof.
  intros Hls Hne Hp. induction ls as [|l ls IH] using rev_ind; [by destruct p|].
  apply Forall_app in Hls as [Hls [Hl _]%Forall_cons].
  rewrite merge_layers_snoc, merge_setting, reverse_snoc by (done || by apply merge_layers_clean).
  cbn [resolve]. fold (normalized_config l). destruct (get_at (normalized_config l) p) as [[]|]; [done..|].
  destruct (blocked _ _); [done|]. by apply IH.
Qed.

(** ** Origins *)

(** The paths of the scalars of a value, through tables and arrays. *)
Fixpoint leaves (v : TomlValue) : list (list str) :=
  match v with
  | Scalar _ => [[]]
  | Array items =>
      (fix go i l := match l with [] => [] | x :: l => (cons (fmt_nat i) <$> leaves x) ++ go (S i) l end) 0 items
  | Table t => concat (map (λ '(k, c), cons k <$> leaves c) t)
  end.
Definition dot : char := ch ".".
(** No key contains a dot. *)
Fixpoint plain_keys (v : TomlValue) : bool :=
  match v with
  | Table t => forallb (λ '(k, c), bool_decide (dot ∉ k) && plain_keys c) t
  | Array items => forallb plain_keys items
  | Scalar _ => true
  end.

Definition put_all (meta : ConfigLayerMetadata) (qs : list (list str)) (o : gmap str ConfigLayerMetadata) :=
  fold_left (λ o q, if is_empty q then o else <[join (lit ".") q := meta]> o) qs o.

Lemma put_all_app meta q1 q2 o : put_all meta (q1 ++ q2) o = put_all meta q2 (put_all meta q1 o).
Proof. apply fold_left_app. Qed.
Lemma put_all_out meta qs o K :
  (∀ q, q ∈ qs → q ≠ [] → join (lit ".") q ≠ K) → put_all meta qs o !! K = o !! K.
Proof.
  revert o. induction qs as [|q qs IH]; intros o H; [done|]. simpl. rewrite IH by set_solver.
  destruct q as [|k q]; [done|]. cbn [is_empty]. apply lookup_insert_ne, H; [set_solver|done].
Qed.
Lemma put_all_in meta qs o q :
  q ∈ qs → q ≠ [] → put_all meta qs o !! join (lit ".") q = Some meta.
Proof.
  intros Hin Hq. revert o. induction qs as [|q' qs IH] using rev_ind; intros o; [set_solver|].
  rewrite put_all_app. apply elem_of_app in Hin. simpl.
  destruct (is_empty q') eqn:Hq'; [|destruct (decide (join (lit ".") q' = join (lit ".") q)) as [->|?]].
  - apply IH. destruct q'; [|done]. set_solver.
  - by rewrite lookup_insert_eq.
  - rewrite lookup_insert_ne by done. apply IH. set_solver.
Qed.

Lemma record_origins_leaves v meta path o :
  record_origins v meta path o = put_all meta (app path <$> leaves v) o.
Proof.
  revert path o. induction v as [s|items IH|t IH] using TomlValue_nested_ind; intros path o.
  - cbn. by rewrite app_nil_r.
  - cbn [record_origins leaves]. generalize 0. revert o.
    induction IH as [|x items Hx _ IH]; intros o i; [done|]. cbn [fold_left]. rewrite IH, Hx.
    rewrite fmap_app, put_all_app. do 2 f_equal. rewrite <-list_fmap_compose. apply list_fmap_ext.
    intros ? q ?. simpl. by rewrite <-app_assoc.
  - cbn [record_origins leaves]. revert o. induction IH as [|[k c] t Hx _ IH]; intros o; [done|].
    cbn [fold_left map concat]. rewrite IH, fmap_app, put_all_app. simpl in Hx. rewrite Hx. do 2 f_equal.
    rewrite <-list_fmap_compose. apply list_fmap_ext. intros ? q ?. simpl. by rewrite <-app_assoc.
Qed.

Lemma elem_of_leaves_Table t p : p ∈ leaves (Table t) ↔ ∃ k c q, p = k :: q ∧ (k, c) ∈ t ∧ q ∈ leaves c.
Proof.
  simpl. rewrite list_elem_of_In, in_concat. split.
  - intros (l & Hl & Hp). apply in_map_iff in Hl as ([k c] & <- & Hin).
    apply list_elem_of_In, list_elem_of_fmap in Hp as (q & -> & Hq). apply list_elem_of_In in Hin. eauto 8.
  - intros (k & c & q & -> & Hin & Hq). exists (cons k <$> leaves c). split.
    + apply in_map_iff. exists (k, c). split; [done|]. by apply list_elem_of_In.
    + apply list_elem_of_In, list_elem_of_fmap. eauto.
Qed.

Lemma elem_of_leaves_Array items p :
  p ∈ leaves (Array items) → ∃ i c q, p = fmt_nat i :: q ∧ c ∈ items ∧ q ∈ leaves c.
Proof.
  cbn [leaves]. generalize 0. induction items as [|x items IH]; intros i; [set_solver|].
  intros [(q & -> & Hq)%list_elem_of_fmap|Hp]%elem_of_app; [exists i, x, q; set_solver|].
  destruct (IH _ Hp) as (j & c & q & ? & ? & ?). exists j, c, q. set_solver.
Qed.

Lemma leaf_of_scalar v p x : get_at v p = Some (Scalar x) → p ∈ leaves v.
Proof.
  revert v. induction p as [|k p IH]; intros v; simpl; [intros; simplify_eq; simpl; set_solver|].
  destruct v as [| |t]; [done..|]. destruct (tbl_get k t) as [c|] eqn:Hk; [|done]. intros Hp.
  apply elem_of_leaves_Table. exists k, c, p. split_and!; [done|by apply tbl_get_elem|by apply IH].
Qed.

Lemma tbl_get_member k c t : NoDup t.*1 → (k, c) ∈ t → tbl_get k t = Some c.
Proof.
  induction t as [|[k' c'] t IH]; [set_solver|]. intros [Hk Hnd]%NoDup_cons Hin. rewrite tbl_get_cons.
  case_decide as E; apply elem_of_cons in Hin as [?|Hin]; simplify_eq; [done| |by apply IH].
  exfalso. apply Hk. apply list_elem_of_fmap. by exists (k, c).
Qed.

(** A scalar is at its path, or inside an array. *)
Lemma leaf_seen v p : toml_wf v = true → p ∈ leaves v → is_Some (get_at v p) ∨ blocked v p = true.
Proof.
  revert v. induction p as [|k p IH]; intros v Hwf Hp; [left; eauto|].
  destruct v as [s|items|t]; [by right..|]. apply toml_wf_Table in Hwf as [Hnd Hwf].
  apply elem_of_leaves_Table in Hp as (k' & c & q & ? & Hin & Hq). simplify_eq. simpl.
  rewrite (tbl_get_member k' c) by done. apply IH; [|done]. rewrite Forall_forall in Hwf. by apply (Hwf _ Hin).
Qed.

Lemma plain_keys_Table t : plain_keys (Table t) = true ↔ Forall (λ e, (dot ∉ e.1) ∧ plain_keys e.2 = true) t.
Proof.
  simpl. rewrite forallb_forall, List.Forall_forall.
  split; intros H [k c] Hin; specialize (H _ Hin); simpl in *; by rewrite andb_true_iff, bool_decide_eq_true in *.
Qed.

Lemma leaves_plain v q : plain_keys v = true → q ∈ leaves v → Forall (λ k, dot ∉ k) q.
Proof.
  revert q. induction v as [s|items IH|t IH] using TomlValue_nested_ind; intros q Hv Hq.
  - apply list_elem_of_singleton in Hq as ->. done.
  - apply elem_of_leaves_Array in Hq as (i & c & q' & -> & Hc & Hq). rewrite Forall_forall in IH.
    simpl in Hv. rewrite forallb_forall in Hv. constructor; [|by eapply IH, Hq; [|apply Hv, list_elem_of_In]].
    intros Hd%pretty_digits. done.
  - apply elem_of_leaves_Table in Hq as (k & c & q' & -> & Hc & Hq). rewrite Forall_forall in IH.
    apply plain_keys_Table in Hv. rewrite Forall_forall in Hv. destruct (Hv _ Hc) as [Hk Hp].
    constructor; [done|]. by apply (IH _ Hc).
Qed.

Lemma normalized_entries t path :
  NoDup t.*1 →
  ∃ t', normalized_with_key_aliases (Table t) path = Table t' ∧ NoDup t'.*1 ∧
        ∀ k c, (k, c) ∈ t' → ∃ k' c', (k', c') ∈ t ∧ c = normalized_with_key_aliases c' (path ++ [k']) ∧
                                      (k = k' ∨ k = canonical).
Proof.
  intros Hnd. cbn [normalized_with_key_aliases].
  rewrite (copy_table (λ k c, normalized_with_key_aliases c (path ++ [k]))) by done. rewrite app_nil_l.
  eexists; split; [done|].
  destruct (aliases_wf path (map (λ '(k, c), (k, normalized_with_key_aliases c (path ++ [k]))) t)) as [Hnd' Hin].
  { rewrite <-list_fmap_compose. erewrite list_fmap_ext; [exact Hnd|]. by intros ? []. }
  split; [done|]. intros k c (k' & Hk' & Hk)%Hin.
  apply list_elem_of_In, in_map_iff in Hk' as ([k1 c1] & ? & Hin'%list_elem_of_In). simplify_eq. eauto 6.
Qed.

Lemma normalized_wf v path : toml_wf v = true → toml_wf (normalized_with_key_aliases v path) = true.
Proof.
  revert path. induction v as [s|items IH|t IH] using TomlValue_nested_ind; intros path Hwf; [done| |].
  - simpl in *. rewrite forallb_forall in *. rewrite Forall_forall in IH.
    intros y (x & <- & Hx)%in_map_iff. apply IH; [by apply list_elem_of_In|auto].
  - apply toml_wf_Table in Hwf as [Hnd Hwf]. destruct (normalized_entries t path Hnd) as (t' & -> & Hnd' & Hin).
    apply toml_wf_Table. split; [done|]. rewrite Forall_forall in *.
    intros [k c] (k' & c' & Hc & -> & _)%Hin. by apply (IH _ Hc), (Hwf _ Hc).
Qed.

Lemma normalized_plain v path :
  toml_wf v = true → plain_keys v = true → plain_keys (normalized_with_key_aliases v path) = true.
Proof.
  revert path. induction v as [s|items IH|t IH] using TomlValue_nested_ind; intros path Hwf Hv; [done| |].
  - simpl in *. rewrite forallb_forall in *. rewrite Forall_forall in IH.
    intros y (x & <- & Hx)%in_map_iff. apply IH; [by apply list_elem_of_In|auto..].
  - apply toml_wf_Table in Hwf as [Hnd Hwf]. destruct (normalized_entries t path Hnd) as (t' & -> & _ & Hin).
    rewrite plain_keys_Table in *. rewrite Forall_forall in *.
    intros [k c] (k' & c' & Hc & -> & Hk)%Hin. destruct (Hv _ Hc). simpl in *. split.
    + destruct Hk as [->| ->]; [done|]. exact (bool_decide_eq_true_1 (dot ∉ canonical) eq_refl).
    + by apply (IH _ Hc), (Hv _ Hc); apply (Hwf _ Hc).
Qed.

Lemma join_dot_inj p q :
  p ≠ [] → q ≠ [] → Forall (λ k, dot ∉ k) p → Forall (λ k, dot ∉ k) q → join (lit ".") p = join (lit ".") q → p = q.
Proof.
  intros ? ? ? ? E. change (lit ".") with [dot] in E. by rewrite <-(split_join dot p), E, split_join.
Qed.

(** A layer names itself for its scalars, and changes no path it says nothing about. *)
Lemma record_scalar v meta o p x :
  get_at v p = Some (Scalar x) → p ≠ [] → record_origins v meta [] o !! join (lit ".") p = Some meta.
Proof.
  intros Hp%leaf_of_scalar Hne. rewrite record_origins_leaves. apply put_all_in; [|done].
  apply list_elem_of_fmap. by exists p.
Qed.
Lemma record_silent v meta o p :
  toml_wf v = true → plain_keys v = true → p ≠ [] → Forall (λ k, dot ∉ k) p →
  get_at v p = None → blocked v p = false →
  record_origins v meta [] o !! join (lit ".") p = o !! join (lit ".") p.
Proof.
  intros Hwf Hv Hne Hp Hg Hb. rewrite record_origins_leaves. apply put_all_out.
  intros q (q' & -> & Hq)%list_elem_of_fmap Hq'. simpl in *. intros E.
  apply join_dot_inj in E as ->; [|done..|by eapply leaves_plain|done].
  destruct (leaf_seen v p Hwf Hq) as [[? ?]|?]; congruence.
Qed.

Definition readable (l : ConfigLayerEntry) : bool := well_formed l && plain_keys (config l).

Lemma readable_spec l : readable l = true → well_formed l = true ∧ toml_wf (normalized_config l) = true ∧ plain_keys (normalized_config l) = true.
Proof.
  intros [Hwf Hv]%andb_true_iff. split_and!; [done|by apply normalized_wf|by apply normalized_plain].
Qed.

Definition origins_of (ls : list ConfigLayerEntry) : gmap str ConfigLayerMetadata :=
  fold_left (λ o l, record_origins (normalized_config l) (metadata l) [] o) ls ∅.

Lemma origins_resolved ls p l x :
  Forall (λ l, readable l = true) ls → p ≠ [] → resolve (reverse ls) p = Some (l, Scalar x) →
  origins_of ls !! join (lit ".") p = Some (metadata l).
Proof.
  intros Hls Hne Hr.
  assert (Hp : Forall (λ k, dot ∉ k) p).
  { clear -Hls Hr. induction ls as [|l' ls IH] using rev_ind; [done|].
    apply Forall_app in Hls as [Hls [Hl _]%Forall_cons]. apply readable_spec in Hl as (_ & _ & Hl).
    rewrite reverse_snoc in Hr. simpl in Hr. destruct (get_at _ _) as [[]|] eqn:Hg; simplify_eq.
    - by eapply leaves_plain, leaf_of_scalar.
    - destruct (blocked _ _); [done|]. auto. }
  induction ls as [|l' ls IH] using rev_ind; [done|].
  apply Forall_app in Hls as [Hls [Hl _]%Forall_cons]. apply readable_spec in Hl as (_ & Hwf & Hl).
  unfold origins_of. rewrite fold_left_app. simpl.
  rewrite reverse_snoc in Hr. simpl in Hr. destruct (get_at _ _) as [[]|] eqn:Hg; simplify_eq.
  - by eapply record_scalar.
  - destruct (blocked _ _) eqn:Hb; [done|]. rewrite record_silent by done. by apply IH.
Qed.

(** ** Order of the layers *)

Definition layer_le (a b : ConfigLayerEntry) : Prop := (precedence (name a) ≤ precedence (name b))%Z.

Lemma layers_sorted_spec ls : layers_sorted ls = true ↔ StronglySorted layer_le ls.
Proof.
  assert (Htr : Transitive layer_le) by (intros a b c; unfold layer_le; lia).
  split.
  - intros H. apply Sorted_StronglySorted; [exact Htr|]. induction ls as [|a ls IH]; [constructor|].
    destruct ls as [|b ls]; [by repeat constructor|]. simpl in H. apply andb_true_iff in H as [H1%Z.leb_le H2].
    constructor; [by apply IH|by constructor].
  - induction 1 as [|a ls Hs IH Ha]; [done|]. destruct ls as [|b ls]; [done|].
    apply Forall_cons in Ha as [Ha _]. cbn [layers_sorted]. apply andb_true_iff. split; [by apply Z.leb_le|done].
Qed.

Lemma position_split {A} (f : A → bool) l :
  match position f l with
  | Some i => Forall (λ y, f y = false) (take i l) ∧ ∃ x rest, drop i l = x :: rest ∧ f x = true
  | None => Forall (λ y, f y = false) l
  end.
Proof.
  induction l as [|a l IH]; simpl; [done|]. destruct (f a) eqn:Ha; [by eauto 6|].
  destruct (position f l) as [i|]; simpl; [|by constructor].
  destruct IH as [Hl Hx]. split; [by constructor|done].
Qed.

Lemma sorted_app (l1 l2 : list ConfigLayerEntry) :
  StronglySorted layer_le (l1 ++ l2) ↔
  StronglySorted layer_le l1 ∧ StronglySorted layer_le l2 ∧ Forall (λ a, Forall (layer_le a) l2) l1.
Proof.
  induction l1 as [|a l1 IH]; simpl.
  - split; [intros; split_and!; [constructor|done|constructor]|by intros (_ & ? & _)].
  - split.
    + intros [H1 H2]%StronglySorted_inv. apply IH in H1 as (? & ? & ?). apply Forall_app in H2 as [? ?].
      split_and!; [by constructor|done|by constructor].
    + intros ([? ?]%StronglySorted_inv & ? & [? ?]%Forall_cons). constructor; [by apply IH|by apply Forall_app].
Qed.

Lemma insert_layer_sorted l ls : StronglySorted layer_le ls → StronglySorted layer_le (insert_layer l ls).
Proof.
  intros Hs. unfold insert_layer, insert_at.
  pose proof (position_split (λ l', (precedence (name l) <? precedence (name l'))%Z) ls) as Hp.
  assert (Hle : ∀ y, (precedence (name l) <? precedence (name y))%Z = false → Forall (layer_le y) [l])
    by (intros y ?%Z.ltb_ge; by constructor).
  destruct (position _ _) as [i|].
  - destruct Hp as (Hlow & x & rest & E & Hx%Z.ltb_lt). rewrite <-(take_drop i ls), E in Hs.
    apply sorted_app in Hs as (H1 & H2 & H12). rewrite E. apply sorted_app.
    pose proof H2 as [_ Hrest]%StronglySorted_inv. split_and!; [done| |].
    + constructor; [done|]. constructor; [unfold layer_le; lia|].
      eapply Forall_impl; [exact Hrest|]. unfold layer_le. lia.
    + rewrite Forall_forall in *. intros y Hy. constructor; [|by apply H12].
      apply Hlow, Hle in Hy. by inv Hy.
  - apply sorted_app. split_and!; [done|by repeat constructor|]. by eapply Forall_impl.
Qed.

Lemma filter_sorted f ls : StronglySorted layer_le ls → StronglySorted layer_le (List.filter f ls).
Proof.
  induction 1 as [|a ls Hs IH Ha]; simpl; [constructor|]. destruct (f a); [|done]. constructor; [done|].
  rewrite List.Forall_forall in *. intros x [Hx _]%filter_In. auto.
Qed.
Lemma delete_sorted i ls : StronglySorted layer_le ls → StronglySorted layer_le (delete i ls).
Proof.
  intros Hs. rewrite <-(take_drop i ls) in Hs. rewrite delete_take_drop. apply sorted_app in Hs as (H1 & H2 & H12).
  change (S i) with (1 + i). rewrite Nat.add_comm, <-drop_drop. apply sorted_app. destruct (drop i ls) as [|a rest]; [done|].
  apply StronglySorted_inv in H2 as [H2 _]. split_and!; [done|done|].
  eapply Forall_impl; [exact H12|]. by intros y [_ ?]%Forall_cons.
Qed.

Lemma rposition_last {A} (f : A → bool) l : (n ← rposition f l; l !! n) = last (List.filter f l).
Proof.
  enough (match rposition f l with
          | Some n => l !! n = last (List.filter f l) ∧ List.filter f l ≠ []
          | None => List.filter f l = []
          end) as H.
  { destruct (rposition f l); simpl; [by destruct H|by rewrite H]. }
  induction l as [|a l IH]; simpl; [done|]. destruct (rposition f l) as [n|]; simpl in *.
  - destruct IH as [IH Hne]. destruct (f a); [|done]. split; [|done].
    destruct (List.filter f l); [done|exact IH].
  - rewrite IH. by destruct (f a).
Qed.

Lemma verify_layers_index i u prev ls r :
  verify_layers_from i u prev ls = Ok r →
  r = match rposition is_user ls with Some n => Some (i + n) | None => u end.
Proof.
  revert i u prev. induction ls as [|l ls IH]; intros i u prev; cbn [verify_layers_from rposition]; [by intros [= ->]|].
  assert (Hstep : ∀ prev', verify_layers_from (S i) (if is_user l then Some i else u) prev' ls = Ok r →
    r = match match rposition is_user ls with Some n => Some (S n) | None => if is_user l then Some 0 else None end with
        | Some n => Some (i + n) | None => u end).
  { intros prev' ->%IH. destruct (rposition is_user ls) as [n|]; [f_equal; lia|].
    destruct (is_user l); [f_equal; lia|done]. }
  destruct (name l); eauto. destruct prev as [prev|]; [|eauto].
  destruct (path_parent prev); [|done]. destruct (_ || _); [done|eauto].
Qed.

Section StackProperties.
Context {ConfigRequirements ConfigRequirementsToml : Type}.
Implicit Types s : ConfigLayerStack ConfigRequirements ConfigRequirementsToml.

Lemma enabled_all (P : ConfigLayerEntry → bool) s :
  forallb P (layers s) = true → Forall (λ l, P l = true) (get_layers s LowestPrecedenceFirst false).
Proof.
  rewrite forallb_forall. intros H. apply List.Forall_forall. intros l [Hl _]%filter_In. by apply H.
Qed.

(** Stacks as the loader and the editors of user configuration build them. *)
Inductive built `{F : Fingerprints} : ConfigLayerStack ConfigRequirements ConfigRequirementsToml → Prop :=
| built_new ls r rt s : stack_new ls r rt = Ok s → built s
| built_user_config s file c : built s → built (with_user_config s file c)
| built_user_config_profile s file profile c : built s → built (with_user_config_profile s file profile c)
| built_user_layer_from s other : built s → built other → built (with_user_layer_from s other)
| built_rules_ignored s b : built s → built (with_user_and_project_exec_policy_rules_ignored s b)
| built_warnings s ws : built s → built (with_startup_warnings s ws).

Definition stack_ok s : Prop :=
  StronglySorted layer_le (layers s) ∧ user_layer_index s = rposition is_user (layers s).

Lemma stack_new_ok ls (r : ConfigRequirements) (rt : ConfigRequirementsToml) s : stack_new ls r rt = Ok s → stack_ok s.
Proof.
  unfold stack_new, verify_layer_ordering. destruct (layers_sorted ls) eqn:Hs; [|done].
  destruct (verify_layers_from 0 None None ls) as [index|e] eqn:Hv; intros [= <-]. split; [by apply layers_sorted_spec|].
  apply verify_layers_index in Hv. simpl. by destruct (rposition is_user ls).
Qed.

Lemma with_user_config_profile_ok `{F : Fingerprints} s file profile c :
  stack_ok s → stack_ok (with_user_config_profile s file profile c).
Proof.
  intros [Hs _]. split; [|done]. apply insert_layer_sorted.
  destruct (position _ _); [by apply delete_sorted|done].
Qed.

Lemma with_user_layer_from_ok s other : stack_ok s → stack_ok (with_user_layer_from s other).
Proof.
  intros [Hs _]. split; [|done]. simpl. generalize (filter_sorted (λ l, negb (is_user l)) _ Hs).
  generalize (List.filter (λ l, negb (is_user l)) (layers s)).
  induction (List.filter is_user (layers other)) as [|u us IH]; intros ls Hls; [done|].
  by apply IH, insert_layer_sorted.
Qed.

(** However a stack is built and edited, its layers are in the order of precedence, and the
    active user layer is the user layer of the highest precedence. *)
Theorem stack_in_order `{F : Fingerprints} s :
  built s →
  StronglySorted layer_le (layers s) ∧ get_active_user_layer s = last (List.filter is_user (layers s)).
Proof.
  intros Hb. enough (stack_ok s) as [Hs Hi].
  { split; [done|]. unfold get_active_user_layer. rewrite Hi. apply rposition_last. }
  induction Hb; eauto using stack_new_ok, with_user_layer_from_ok; apply with_user_config_profile_ok; done.
Qed.

(** C31: The setting of the merged configuration at a non-empty path outside the tables of
    network domains ([permissions.*.network.domains.*], whose keys are compared as host
    names) is that of the enabled layer of the highest precedence that has a value there,
    with legacy keys read under their current name: a layer that is silent about the path
    defers to the lower ones, and a layer with a scalar or array on the way, or a table in
    its place, hides what they say.  No table of a layer has a key twice, as TOML
    requires. *)
Theorem config_precedence s p :
  forallb well_formed (layers s) = true → p ≠ [] → outside_domains p = true →
  setting_at (effective_config s) p = snd <$> resolve (layers_high_to_low s) p.
Proof. intros Hwf%enabled_all ? ?. by apply merge_layers_setting. Qed.

(** For every scalar of the merged configuration whose keys have no dots, [origins] names
    the layer that decides it. *)
Theorem origins_exact s p x :
  forallb readable (layers s) = true → p ≠ [] → outside_domains p = true →
  setting_at (effective_config s) p = Some (Scalar x) →
  ∃ l, resolve (layers_high_to_low s) p = Some (l, Scalar x) ∧
       origins s !! join (lit ".") p = Some (metadata l).
Proof.
  intros Hr%enabled_all Hne Hp Hs.
  assert (Hwf : Forall (λ l, well_formed l = true) (get_layers s LowestPrecedenceFirst false)).
  { eapply Forall_impl; [exact Hr|]. by intros l [? _]%readable_spec. }
  unfold effective_config in Hs. rewrite merge_layers_setting in Hs by done.
  apply fmap_Some in Hs as ([l v] & Hl & E). simpl in E. subst v. exists l. split; [exact Hl|].
  by eapply (origins_resolved (get_layers s LowestPrecedenceFirst false)).
Qed.

End StackProperties.

(** ** Overrides and constraints *)

Lemma override_segments_get root segments v :
  segments ≠ [] → get_at (apply_toml_override_segments root segments v) segments = Some v.
Proof.
  revert root. induction segments as [|k [|k' ks] IH]; intros root Hne; [done| |].
  - destruct root; cbn; unfold str_eqb; rewrite ?bool_decide_true by done; try done.
    change (match tbl_get k (tbl_insert k v entries) with Some c => Some c | None => None end = Some v).
    rewrite tbl_get_insert, decide_True by done. done.
  - cbn [apply_toml_override_segments get_at]. rewrite tbl_get_insert, decide_True by done. by apply IH.
Qed.
(** The last override of a path holds. *)
Lemma override_holds root path v : get_at (apply_toml_override root path v) (split (ch ".") path) = Some v.
Proof. apply override_segments_get, split_nonempty. Qed.

Section ConstrainedProperties.
Context {T ConstraintError : Type}.
Implicit Types c : Constrained T ConstraintError.

Definition satisfied c : Prop := validator c (value c) = Ok tt.

(** Every way to make or change a constrained value leaves one its validator accepts. *)
Lemma constrained_new_satisfied v f c : constrained_new v f = Ok c → satisfied c.
Proof. unfold constrained_new. destruct (f v) as [[]|] eqn:E; intros [= <-]. done. Qed.
Lemma set_satisfied c v : satisfied c → satisfied (set c v).1.
Proof. intros Hc. unfold set. destruct (validator c _) as [[]|] eqn:E; [exact E|done]. Qed.
Lemma set_fails_unchanged c v e : (set c v).2 = Err e → (set c v).1 = c.
Proof. unfold set. by destruct (validator c _). Qed.
Lemma add_validator_satisfied c f : satisfied c → satisfied (add_validator c f).1.
Proof.
  intros Hc. unfold add_validator. destruct (validator c (value c) ;; f (value c)) as [[]|] eqn:E; [exact E|done].
Qed.
(** An added validator narrows what can be set. *)
Lemma add_validator_narrows c f v :
  (add_validator c f).2 = Ok tt → can_set (add_validator c f).1 v = Ok tt → can_set c v = Ok tt ∧ f v = Ok tt.
Proof.
  unfold add_validator, can_set. destruct (validator c (value c) ;; f (value c)) as [[]|] eqn:E; [|done].
  intros _. simpl. by destruct (validator c v) as [[]|].
Qed.

End ConstrainedProperties.

(** ** Examples *)

Definition txt (s : string) : TomlValue := Scalar (TomlString (lit s)).
#[local] Instance demo_fingerprints : Fingerprints := {
  to_json _ := Some JsonNull; json_to_vec _ := Some []; sha256 _ := [0%N] }.
Definition demo_layers : list ConfigLayerEntry :=
  [ layer_new (System (lit "/etc/codex/config.toml"))
      (Table [(lit "model", txt "base"); (lit "memories", Table [(legacy, Scalar (TomlBoolean true))])]);
    layer_new (User (lit "/home/u/.codex/config.toml") None)
      (Table [(lit "model", txt "mine"); (lit "tui", Table [(lit "theme", txt "dark")])]);
    layer_new_disabled (Project (lit "/w/.codex")) (Table [(lit "model", txt "theirs")]) (lit "untrusted");
    layer_new SessionFlags (build_cli_overrides_layer [(lit "memories.generate", Scalar (TomlBoolean false))]) ].
Definition demo_stack : ConfigLayerStack unit unit := mkStack demo_layers (Some 1) tt tt false None.

Example demo_stack_new : stack_new demo_layers tt tt = Ok demo_stack.
Proof. reflexivity. Qed.

(** The system layer's renamed setting survives a higher table; the untrusted project has no say. *)
Lemma config_precedence_witness :
  setting_at (effective_config demo_stack) [memories; canonical] = Some (Scalar (TomlBoolean true)) ∧
  setting_at (effective_config demo_stack) [lit "model"] = Some (txt "mine").
Proof.
  split.
  - rewrite (config_precedence demo_stack [memories; canonical]); [by vm_compute|by vm_compute|done|done].
  - rewrite (config_precedence demo_stack [lit "model"]); [by vm_compute|by vm_compute|done|done].
Defined.

Lemma origins_exact_witness :
  ∃ l, resolve (layers_high_to_low demo_stack) [memories; canonical] = Some (l, Scalar (TomlBoolean true)) ∧
       origins demo_stack !! join (lit ".") [memories; canonical] = Some (metadata l).
Proof. apply (origins_exact demo_stack [memories; canonical]); [by vm_compute|done|done|by vm_compute]. Defined.

Lemma stack_in_order_witness :
  let s := with_user_config demo_stack (lit "/home/u/.codex/config.toml") (Table []) in
  StronglySorted layer_le (layers s) ∧ get_active_user_layer s = last (List.filter is_user (layers s)).
Proof.
  apply (stack_in_order (F := demo_fingerprints)). apply built_user_config.
  apply (built_new demo_layers tt tt). apply demo_stack_new.
Defined.

(** [origins] keeps a setting that a higher layer replaced by a value that is not a table. *)
Example origin_of_replaced_setting :
  let s := mkStack [layer_new (User (lit "/c.toml") None) (Table [(lit "a", Table [(lit "x", txt "1")])]);
                    layer_new SessionFlags (Table [(lit "a", txt "off")])] None tt tt false None in
  get_at (effective_config s) [lit "a"; lit "x"] = None ∧
  meta_name <$> origins s !! lit "a.x" = Some (User (lit "/c.toml") None).
Proof. by split; vm_compute. Qed.
