(* ===== verification/InputQueue.v ===== *)
(** * The input of a session's turns (core/src/session/input_queue.rs)

    A session runs one turn at a time.  Input reaches it as prompts that steer the running
    turn, as items that other parts inject and as mail from other agents, which waits in
    the mailbox of the session until a turn takes it.  This file models the queue
    (input_queue.rs), the turn state it works on (state/turn.rs), the life of a turn
    (tasks/mod.rs, tasks/regular.rs and the loop of session/turn.rs) and the ways in
    (session/inject.rs, steer_input of session/mod.rs, the handler of mail).

    Every function is a [prog] whose events are the sections under one lock; the pool at
    the end interleaves them.  What hooks, the model and the compaction answer is the
    script of a turn and the answers of [Ask] events.  The tables of pending answers of a
    turn, which the queue only clears, events to clients and telemetry are left out. *)

From S2P Require Import Prelude RustStr Interact.

Section InputQueue.
(** One item of user input, one item of the model's protocol and the metadata of mail. *)
Context {UserItem ResponseItem Metadata : Set}.

(** ** Data *)

Record InterAgentCommunication : Set := mkMail {
  author : str;
  recipient : str;
  other_recipients : list str;
  content : str;
  encrypted_content : option str;
  metadata : option Metadata;
  trigger_turn : bool;
}.

Inductive TurnInput : Set :=
| UserInput (content : list UserItem) (client_id : option str)
| ResponseInput (item : ResponseItem)
| MailInput (mail : InterAgentCommunication).

Inductive InputQueueActivity : Set := Mailbox | Steer.

Inductive MailboxDeliveryPhase : Set := CurrentTurn | NextTurn.
Record TurnState : Set := mkTurnState {
  pending_input : list TurnInput;
  mailbox_delivery_phase : MailboxDeliveryPhase;
}.
Definition turn_state_default : TurnState := mkTurnState [] CurrentTurn.
Definition accepts_mailbox_delivery_for_current_turn (t : TurnState) : bool :=
  match mailbox_delivery_phase t with CurrentTurn => true | NextTurn => false end.
Definition set_mailbox_delivery_phase (phase : MailboxDeliveryPhase) (t : TurnState) : TurnState :=
  mkTurnState (pending_input t) phase.
Definition accept_mailbox_delivery (t : TurnState) : TurnState := set_mailbox_delivery_phase CurrentTurn t.
Definition extend_pending (input : list TurnInput) (t : TurnState) : TurnState :=
  mkTurnState (pending_input t ++ input) (mailbox_delivery_phase t).
Definition no_pending (t : TurnState) : TurnState := mkTurnState [] (mailbox_delivery_phase t).
Definition has_user_input (t : TurnState) : bool :=
  existsb (λ i, match i with UserInput _ _ => true | _ => false end) (pending_input t).

Inductive TaskKind : Set := Regular | Review | Compact.
(** A running task: the handle of its tokio task and what the queue reads of its context. *)
Record RunningTask : Set := mkTask { handle : nat; kind : TaskKind; sub_id : str }.
(** [turn_state] is an [Arc]: an index into the states of the session. *)
Record ActiveTurn : Set := mkActive { task : option RunningTask; turn_state : nat }.

(** The state the tasks share.  Turn states are never reused; the state of a turn that has
    ended stays in the list, so that what it left behind can be told.  The program drops
    the [Arc] of such a state, and that input with it, once the last task that holds it is
    gone; the theorems keep [left_behind] apart from what still waits ([waiting]).  The fields from [accepted] on
    are a ledger of what happened to the input: accepted by the session, recorded in the
    history, refused by a hook, cleared by an abort, or set aside (given to a turn that
    failed before it recorded it, or to a review or compaction, which use it themselves). *)
Record Session : Set := mkSession {
  active_turn : option ActiveTurn;
  turn_states : list TurnState;
  mailbox_pending_mails : list InterAgentCommunication;
  activity : InputQueueActivity * N;
  next_handle : nat;
  cancelled : list nat;
  aborted : list nat;
  accepted : list TurnInput;
  recorded : list TurnInput;
  refused : list TurnInput;
  cleared : list TurnInput;
  set_aside : list TurnInput;
  enqueued : list InterAgentCommunication;
  drained : list InterAgentCommunication;
}.

Definition session_new : Session := mkSession None [] [] (Mailbox, 0%N) 0 [] [] [] [] [] [] [] [] [].

Definition with_active (a : option ActiveTurn) (s : Session) : Session :=
  mkSession a (turn_states s) (mailbox_pending_mails s) (activity s) (next_handle s) (cancelled s) (aborted s)
    (accepted s) (recorded s) (refused s) (cleared s) (set_aside s) (enqueued s) (drained s).
Definition with_states (ts : list TurnState) (s : Session) : Session :=
  mkSession (active_turn s) ts (mailbox_pending_mails s) (activity s) (next_handle s) (cancelled s) (aborted s)
    (accepted s) (recorded s) (refused s) (cleared s) (set_aside s) (enqueued s) (drained s).
Definition with_mail (ms enq dr : list InterAgentCommunication) (s : Session) : Session :=
  mkSession (active_turn s) (turn_states s) ms (activity s) (next_handle s) (cancelled s) (aborted s)
    (accepted s) (recorded s) (refused s) (cleared s) (set_aside s) enq dr.
Definition with_activity (a : InputQueueActivity * N) (s : Session) : Session :=
  mkSession (active_turn s) (turn_states s) (mailbox_pending_mails s) a (next_handle s) (cancelled s) (aborted s)
    (accepted s) (recorded s) (refused s) (cleared s) (set_aside s) (enqueued s) (drained s).
Definition with_handles (next : nat) (canc ab : list nat) (s : Session) : Session :=
  mkSession (active_turn s) (turn_states s) (mailbox_pending_mails s) (activity s) next canc ab
    (accepted s) (recorded s) (refused s) (cleared s) (set_aside s) (enqueued s) (drained s).
Definition with_ledger (acc re rf cl sa : list TurnInput) (s : Session) : Session :=
  mkSession (active_turn s) (turn_states s) (mailbox_pending_mails s) (activity s) (next_handle s) (cancelled s)
    (aborted s) acc re rf cl sa (enqueued s) (drained s).
Definition note_accepted (l : list TurnInput) (s : Session) : Session :=
  with_ledger (accepted s ++ l) (recorded s) (refused s) (cleared s) (set_aside s) s.
Definition note_cleared (l : list TurnInput) (s : Session) : Session :=
  with_ledger (accepted s) (recorded s) (refused s) (cleared s ++ l) (set_aside s) s.
Definition note_set_aside (l : list TurnInput) (s : Session) : Session :=
  with_ledger (accepted s) (recorded s) (refused s) (cleared s) (set_aside s ++ l) s.

(** ** Sections under a lock *)

Inductive SteerInputError : Set :=
| NoActiveTurn (input : list UserItem)
| ExpectedTurnMismatch (expected actual : str)
| ActiveTurnNotSteerable (turn_kind : TaskKind)
| EmptyInput.

(** What the model, the hooks and the compaction do in one run of [run_turn]. *)
Inductive StreamItem : Set := Completed (defers_mailbox_delivery : bool) | ToolCall.
Inductive Sampling : Set :=
| Sampled (items : list StreamItem)
    (model_needs_follow_up started_new_context_window token_limit_reached compact_ok stop_hook_continues : bool)
| ImagesReplaced
| SamplingFailed.
Record TurnScript : Set := mkScript { start_ok : bool; samples : list Sampling }.

Inductive Ev : Set → Type :=
| PushMail (m : InterAgentCommunication) : Ev unit
| Notify (a : InputQueueActivity) : Ev unit
| HasMail : Ev bool
| HasTriggerMail : Ev bool
| DrainMail : Ev (list InterAgentCommunication)
| TurnStateFor (id : str) : Ev (option nat)
| ClearPending (t : nat) : Ev unit
| DeferMail (t : nat) : Ev unit
| AcceptMail (t : nat) : Ev unit
| Extend (t : nat) (input : list TurnInput) : Ev unit
| TakePending (t : nat) : Ev (list TurnInput)
| TakeActiveInput : Ev (list TurnInput * bool)
| PeekActiveInput : Ev (bool * bool)
| Subscribe : Ev N
| HasUserInput (t : nat) : Ev bool
| Changed (seen : N) : Ev InputQueueActivity
| SteerTurn (context : list ResponseItem) (input : list UserItem) (expected : option str) (client_id : option str)
  : Ev (result SteerInputError str)
| Inject (items : list ResponseItem) : Ev (result (list ResponseItem) unit)
| ReserveIfIdle : Ev (option nat)
| StillReserved (t : nat) : Ev bool
| ClearReserved (t : nat) : Ev bool
| EnsureTurn : Ev nat
| InstallTask (id : str) (k : TaskKind) (input : list TurnInput) (script : list TurnScript) : Ev unit
| TakeTask : Ev (option nat)
| TakeActive : Ev (option ActiveTurn)
| TakeActiveIf (id : str) : Ev (option ActiveTurn)
| IsCancelled (h : nat) : Ev bool
| Cancel (h : nat) : Ev unit
| AbortHandle (h : nat) : Ev unit
| Accept (input : list TurnInput) : Ev unit
| RecordItem (i : TurnInput) : Ev unit
| Refuse (i : TurnInput) : Ev unit
| Drop (input : list TurnInput) : Ev unit
| AskScript : Ev (list TurnScript)
| AskBool : Ev bool
| AskId : Ev str
| Never : Ev Empty_set.

(** [lock().await] of a turn state. *)
Definition on_state {X : Set} (t : nat) (f : TurnState → TurnState * X) (s : Session) : option (Session * X) :=
  st ← turn_states s !! t;
  let '(st', x) := f st in Some (with_states (<[t := st']> (turn_states s)) s, x).

(** [get_or_insert_with(ActiveTurn::default)]. *)
Definition ensure_active (s : Session) : Session * ActiveTurn :=
  match active_turn s with
  | Some a => (s, a)
  | None =>
      let a := mkActive None (length (turn_states s)) in
      (with_active (Some a) (with_states (turn_states s ++ [turn_state_default]) s), a)
  end.

Definition is_reserved (t : nat) (s : Session) : bool :=
  match active_turn s with Some (mkActive None t') => Nat.eqb t' t | _ => false end.

Definition active_sub_id (s : Session) : option str := a ← active_turn s; t ← task a; Some (sub_id t).

(** [steer_input] under the lock of the active turn, up to the notification. *)
Definition steer_check (input : list UserItem) (expected : option str) (s : Session) :
    result SteerInputError (RunningTask * nat) :=
  match active_turn s with
  | None | Some (mkActive None _) => Err (NoActiveTurn input)
  | Some (mkActive (Some t) ts) =>
      if match expected with Some e => negb (bool_decide (e = sub_id t)) | None => false end then
        Err (ExpectedTurnMismatch (default [] expected) (sub_id t))
      else
        match kind t with
        | Regular => if is_empty input then Err EmptyInput else Ok (t, ts)
        | k => Err (ActiveTurnNotSteerable k)
        end
  end.
Definition steer_items (context : list ResponseItem) (input : list UserItem) (client_id : option str) : list TurnInput :=
  map ResponseInput context ++ [UserInput input client_id].

Definition act {X : Set} (e : Ev X) : Session → option (Session * X) :=
  match e with
  | PushMail m => λ s,
      Some (note_accepted [MailInput m]
              (with_mail (mailbox_pending_mails s ++ [m]) (enqueued s ++ [m]) (drained s) s), tt)
  | Notify a => λ s, Some (with_activity (a, (activity s).2 + 1)%N s, tt)
  | HasMail => λ s, Some (s, negb (is_empty (mailbox_pending_mails s)))
  | HasTriggerMail => λ s, Some (s, existsb trigger_turn (mailbox_pending_mails s))
  | DrainMail => λ s,
      Some (with_mail [] (enqueued s) (drained s ++ mailbox_pending_mails s) s, mailbox_pending_mails s)
  | TurnStateFor id => λ s,
      Some (s, a ← active_turn s;
               t ← task a; if bool_decide (sub_id t = id) then Some (turn_state a) else None)
  | ClearPending t => λ s,
      '(s', l) ← on_state t (λ st, (no_pending st, pending_input st)) s; Some (note_cleared l s', tt)
  | DeferMail t =>
      on_state t (λ st, (if is_empty (pending_input st) then set_mailbox_delivery_phase NextTurn st else st, tt))
  | AcceptMail t => on_state t (λ st, (accept_mailbox_delivery st, tt))
  | Extend t input => on_state t (λ st, (extend_pending input st, tt))
  | TakePending t => on_state t (λ st, (no_pending st, pending_input st))
  | TakeActiveInput => λ s,
      match active_turn s with
      | Some a => on_state (turn_state a)
                    (λ st, (no_pending st, (pending_input st, accepts_mailbox_delivery_for_current_turn st))) s
      | None => Some (s, ([], true))
      end
  | PeekActiveInput => λ s,
      match active_turn s with
      | Some a => on_state (turn_state a)
                    (λ st, (st, (negb (is_empty (pending_input st)), accepts_mailbox_delivery_for_current_turn st))) s
      | None => Some (s, (false, true))
      end
  | Subscribe => λ s, Some (s, (activity s).2)
  | HasUserInput t => on_state t (λ st, (st, has_user_input st))
  | Changed seen => λ s, if (seen =? (activity s).2)%N then None else Some (s, (activity s).1)
  | SteerTurn context input expected client_id => λ s,
      match steer_check input expected s with
      | Err e => Some (s, Err e)
      | Ok (t, ts) =>
          let items := steer_items context input client_id in
          '(s', _) ← on_state ts (λ st, (accept_mailbox_delivery (extend_pending items st), tt)) s;
          Some (note_accepted items s', Ok (sub_id t))
      end
  | Inject items => λ s,
      match active_turn s with
      | Some a =>
          '(s', _) ← on_state (turn_state a) (λ st, (extend_pending (map ResponseInput items) st, tt)) s;
          Some (note_accepted (map ResponseInput items) s', Ok tt)
      | None => Some (s, Err items)
      end
  | ReserveIfIdle => λ s,
      match active_turn s with
      | Some _ => Some (s, None)
      | None => let '(s', a) := ensure_active s in Some (s', Some (turn_state a))
      end
  | StillReserved t => λ s, Some (s, is_reserved t s)
  | ClearReserved t => λ s, Some (if is_reserved t s then (with_active None s, true) else (s, false))
  | EnsureTurn => λ s, let '(s', a) := ensure_active s in Some (s', turn_state a)
  | InstallTask id k input script => λ s,
      let '(s', a) := ensure_active s in
      let ab := match task a with Some t => aborted s ++ [handle t] | None => aborted s end in
      Some (with_handles (S (next_handle s)) (cancelled s) ab
              (with_active (Some (mkActive (Some (mkTask (next_handle s) k id)) (turn_state a))) s'), tt)
  | TakeTask => λ s,
      Some match active_turn s with
           | Some (mkActive (Some _) ts) => (with_active (Some (mkActive None ts)) s, Some ts)
           | _ => (s, None)
           end
  | TakeActive => λ s, Some (with_active None s, active_turn s)
  | TakeActiveIf id => λ s,
      Some (if bool_decide (active_sub_id s = Some id) then (with_active None s, active_turn s) else (s, None))
  | IsCancelled h => λ s, Some (s, existsb (Nat.eqb h) (cancelled s))
  | Cancel h => λ s, Some (with_handles (next_handle s) (cancelled s ++ [h]) (aborted s) s, tt)
  | AbortHandle h => λ s, Some (with_handles (next_handle s) (cancelled s) (aborted s ++ [h]) s, tt)
  | Accept input => λ s, Some (note_accepted input s, tt)
  | RecordItem i => λ s, Some (with_ledger (accepted s) (recorded s ++ [i]) (refused s) (cleared s) (set_aside s) s, tt)
  | Refuse i => λ s, Some (with_ledger (accepted s) (recorded s) (refused s ++ [i]) (cleared s) (set_aside s) s, tt)
  | Drop input => λ s, Some (note_set_aside input s, tt)
  | AskScript | AskBool | AskId | Never => λ _, None
  end.

(** ** The queue *)

Abbreviation task_m := (prog Ev).

Definition enqueue_mailbox_communication (m : InterAgentCommunication) : task_m unit :=
  call (PushMail m) ;; call (Notify Mailbox).

Definition get_pending_input : task_m (list TurnInput) :=
  '(pending_input, accepts_mailbox_delivery) ← call TakeActiveInput;
  if negb accepts_mailbox_delivery then mret pending_input
  else
    mailbox_items ← call DrainMail;
    mret (pending_input ++ map MailInput mailbox_items).

Definition has_pending_input : task_m bool :=
  '(has_turn_pending_input, accepts_mailbox_delivery) ← call PeekActiveInput;
  if has_turn_pending_input : bool then mret true
  else if negb accepts_mailbox_delivery then mret false
  else call HasMail.

Definition defer_mailbox_delivery_to_next_turn (id : str) : task_m unit :=
  t ← call (TurnStateFor id);
  match t with Some t => call (DeferMail t) | None => mret tt end.
Definition accept_mailbox_delivery_for_current_turn (id : str) : task_m unit :=
  t ← call (TurnStateFor id);
  match t with Some t => call (AcceptMail t) | None => mret tt end.

Definition subscribe_activity (t : option nat) : task_m (N * option InputQueueActivity) :=
  seen ← call Subscribe;
  has_pending_steer ← match t with Some t => call (HasUserInput t) | None => mret false end;
  if has_pending_steer : bool then mret (seen, Some Steer)
  else
    has_mail ← call HasMail;
    mret (seen, if has_mail : bool then Some Mailbox else None).

(** The tools that wait for input ([sleep], [wait_agent]), without their time limit. *)
Definition wait_for_activity (seen : N) (pending_activity : option InputQueueActivity) : task_m InputQueueActivity :=
  match pending_activity with
  | Some a => mret a
  | None => call (Changed seen)
  end.
Definition wait_agent (id : str) : task_m unit :=
  t ← call (TurnStateFor id);
  '(seen, pending) ← subscribe_activity t;
  _ ← wait_for_activity seen pending;
  mret tt.

(** ** Turns *)

Definition start_task (id : str) (k : TaskKind) (input : list TurnInput) (script : list TurnScript) : task_m unit :=
  pending_items ← get_pending_input;
  t ← call EnsureTurn;
  call (Extend t pending_items) ;;
  call (InstallTask id k input script).

Definition maybe_start_turn_for_pending_work_with_sub_id (id : str) : task_m unit :=
  has_trigger ← call HasTriggerMail;
  if negb has_trigger then mret tt
  else
    reserved ← call ReserveIfIdle;
    match reserved with
    | None => mret tt
    | Some _ => script ← call AskScript; start_task id Regular [] script
    end.
Definition maybe_start_turn_for_pending_work : task_m unit :=
  id ← call AskId; maybe_start_turn_for_pending_work_with_sub_id id.

Definition inter_agent_communication (id : str) (m : InterAgentCommunication) : task_m unit :=
  enqueue_mailbox_communication m ;;
  if trigger_turn m then maybe_start_turn_for_pending_work_with_sub_id id else mret tt.

(** [handle.abort()] stops the task at its next [.await], and so does dropping the handle. *)
Definition handle_task_abort (t : RunningTask) : task_m unit :=
  c ← call (IsCancelled (handle t));
  if c : bool then call (AbortHandle (handle t))
  else call (Cancel (handle t)) ;; call (AbortHandle (handle t)).

Inductive TurnAbortReason : Set := Interrupted | Replaced | ReviewEnded | BudgetLimited.
Definition abort_all_tasks (reason : TurnAbortReason) : task_m unit :=
  active ← call TakeActive;
  match active with
  | Some (mkActive (Some t) ts) =>
      handle_task_abort t ;;
      call (ClearPending ts) ;;
      match reason with Interrupted => maybe_start_turn_for_pending_work | _ => mret tt end
  | _ => mret tt
  end.
Definition abort_turn_if_active (id : str) (reason : TurnAbortReason) : task_m bool :=
  active ← call (TakeActiveIf id);
  match active with
  | None => mret false
  | Some a =>
      match task a with Some t => handle_task_abort t | None => mret tt end ;;
      call (ClearPending (turn_state a)) ;;
      match reason with Interrupted => maybe_start_turn_for_pending_work | _ => mret tt end ;;
      mret true
  end.
Definition spawn_task (id : str) (k : TaskKind) (input : list TurnInput) (script : list TurnScript) : task_m unit :=
  call (Accept input) ;;
  abort_all_tasks Replaced ;;
  start_task id k input script.

(** A hook decides about user input only. *)
Definition inspect_pending_input (i : TurnInput) : task_m bool :=
  match i with UserInput _ _ => call AskBool | _ => mret false end.

Fixpoint record_inputs (blocked_input accepted_user_input : bool) (input : list TurnInput) : task_m bool :=
  match input with
  | [] => mret (blocked_input && negb accepted_user_input)
  | i :: input =>
      should_stop ← inspect_pending_input i;
      if should_stop : bool then call (Refuse i) ;; record_inputs true accepted_user_input input
      else
        call (RecordItem i) ;;
        record_inputs blocked_input
          (accepted_user_input || match i with UserInput c _ => negb (is_empty c) | _ => false end) input
  end.
Definition run_hooks_and_record_inputs (input : list TurnInput) : task_m bool := record_inputs false false input.

Fixpoint handle_stream (id : str) (items : list StreamItem) : task_m unit :=
  match items with
  | [] => mret tt
  | Completed defers :: items =>
      (if defers then defer_mailbox_delivery_to_next_turn id else mret tt) ;; handle_stream id items
  | ToolCall :: items => accept_mailbox_delivery_for_current_turn id ;; handle_stream id items
  end.

(** The loop of [run_turn]; a script that ends leaves the turn where it is. *)
Fixpoint turn_loop (id : str) (samples : list Sampling) (can_drain_pending_input : bool) : task_m unit :=
  match samples with
  | [] => e ← call Never; match e : Empty_set with end
  | sample :: samples =>
      pending_input ← (if can_drain_pending_input then get_pending_input else mret []);
      stop ← run_hooks_and_record_inputs pending_input;
      if stop : bool then mret tt
      else
        match sample with
        | SamplingFailed => mret tt
        | ImagesReplaced => turn_loop id samples can_drain_pending_input
        | Sampled items model_needs_follow_up new_window limit compact_ok stop_hook_continues =>
            handle_stream id items ;;
            has_pending ← has_pending_input;
            let needs_follow_up := model_needs_follow_up || has_pending in
            if new_window && needs_follow_up then turn_loop id samples (negb model_needs_follow_up)
            else if limit && needs_follow_up then
              if compact_ok : bool then turn_loop id samples (negb model_needs_follow_up) else mret tt
            else if negb needs_follow_up then
              if stop_hook_continues : bool then turn_loop id samples true else mret tt
            else turn_loop id samples true
        end
  end.
(** Before it records its input a turn may fail to compact or be stopped by a hook. *)
Definition run_turn (id : str) (input : list TurnInput) (script : TurnScript) : task_m unit :=
  if negb (start_ok script) then call (Drop input)
  else
    stop ← run_hooks_and_record_inputs input;
    if stop : bool then mret tt else turn_loop id (samples script) (is_empty input).

Fixpoint regular_run (id : str) (input : list TurnInput) (scripts : list TurnScript) : task_m unit :=
  match scripts with
  | [] => e ← call Never; match e : Empty_set with end
  | script :: scripts =>
      run_turn id input script ;;
      has_pending ← has_pending_input;
      if has_pending : bool then regular_run id [] scripts else mret tt
  end.

Fixpoint record_pending (input : list TurnInput) : task_m unit :=
  match input with
  | [] => mret tt
  | i :: input =>
      should_stop ← inspect_pending_input i;
      (if should_stop : bool then call (Refuse i) else call (RecordItem i)) ;; record_pending input
  end.
Definition on_task_finished : task_m unit :=
  t ← call TakeTask;
  match t with
  | None => mret tt
  | Some t =>
      pending_input ← call (TakePending t);
      record_pending pending_input ;;
      _ ← call (ClearReserved t);
      mret tt
  end.

(** The tokio task of a turn.  Reviews and compactions do not use the queue. *)
Definition run_task (h : nat) (id : str) (k : TaskKind) (input : list TurnInput) (script : list TurnScript) :
    task_m unit :=
  match k with Regular => regular_run id input script | _ => call (Drop input) end ;;
  c ← call (IsCancelled h);
  if c : bool then mret tt else on_task_finished.

(** ** The ways in *)

Definition steer_input (context : list ResponseItem) (input : list UserItem) (expected client_id : option str) :
    task_m (result SteerInputError str) :=
  r ← call (SteerTurn context input expected client_id);
  match r with
  | Ok id => call (Notify Steer) ;; mret (Ok id)
  | Err e => mret (Err e)
  end.

Definition inject_if_running (items : list ResponseItem) : task_m (result (list ResponseItem) unit) :=
  call (Inject items).
Definition inject_no_new_turn (items : list ResponseItem) : task_m unit :=
  r ← inject_if_running items;
  match r with
  | Ok _ => mret tt
  | Err items =>
      let input := map ResponseInput items in
      call (Accept input) ;; record_pending input
  end.

Inductive TryStartTurnIfIdleRejectionReason : Set := PendingTriggerTurn | PlanMode | Busy.
Definition reject_reserved (t : nat) (r : TryStartTurnIfIdleRejectionReason) :
    task_m (result TryStartTurnIfIdleRejectionReason unit) :=
  call (ClearReserved t) ;; maybe_start_turn_for_pending_work ;; mret (Err r).
Definition try_start_turn_if_idle (input : list ResponseItem) :
    task_m (result TryStartTurnIfIdleRejectionReason unit) :=
  if is_empty input then mret (Ok tt)
  else
    trigger ← call HasTriggerMail;
    if trigger : bool then mret (Err PendingTriggerTurn)
    else
      plan_mode ← call AskBool;
      if plan_mode : bool then mret (Err PlanMode)
      else
        reserved ← call ReserveIfIdle;
        match reserved with
        | None => mret (Err Busy)
        | Some t =>
            trigger ← call HasTriggerMail;
            if trigger : bool then reject_reserved t PendingTriggerTurn
            else
              id ← call AskId;
              plan_mode ← call AskBool;
              if plan_mode : bool then reject_reserved t PlanMode
              else
                trigger ← call HasTriggerMail;
                if trigger : bool then reject_reserved t PendingTriggerTurn
                else
                  still_reserved ← call (StillReserved t);
                  if negb still_reserved then call (ClearReserved t) ;; mret (Err Busy)
                  else
                    script ← call AskScript;
                    call (Accept (map ResponseInput input)) ;;
                    call (Extend t (map ResponseInput input)) ;;
                    start_task id Regular [] script ;;
                    mret (Ok tt)
        end.

(** ** The pool of tasks *)

(** A task may wait for an answer from outside. *)
Definition asks {X : Set} (e : Ev X) : bool :=
  match e with AskScript | AskBool | AskId => true | _ => false end.
Definition estep {X : Set} (e : Ev X) (s : Session) (x : X) (s' : Session) : Prop :=
  act e s = Some (s', x) ∨ (asks e = true ∧ s' = s).

(** Installing a task spawns it and drops the handle it replaces; an aborted task ends. *)
Definition forked {X : Set} (e : Ev X) (s : Session) : list (task_m unit) :=
  match e with
  | InstallTask id k input script => [run_task (next_handle s) id k input script]
  | _ => []
  end.
Definition killed {X : Set} (e : Ev X) (s : Session) : list nat :=
  match e with
  | AbortHandle h => [h]
  | InstallTask _ _ _ _ => match active_turn s with Some (mkActive (Some t) _) => [handle t] | _ => [] end
  | _ => []
  end.

(** The turn that a task runs. *)
Definition running (s : Session) : option nat :=
  match active_turn s with Some (mkActive (Some _) t) => Some t | _ => None end.
Definition pending_of (s : Session) (t : nat) : list TurnInput :=
  match turn_states s !! t with Some st => pending_input st | None => [] end.

(** The tasks of turns have a handle, their index in [workers]; the others do not.
    [attended t] is a ledger: how many of the items that are pending in turn [t] were
    pending there while a task ran the turn.  They are the first ones, since a turn's input
    only grows at the end until it is taken as a whole. *)
Record Pool := mkPool {
  sess : Session;
  ops : list (task_m unit);
  workers : list (task_m unit);
  attended : nat → nat;
}.
Definition attend (s : Session) (att : nat → nat) (t : nat) : nat :=
  if bool_decide (running s = Some t) then length (pending_of s t)
  else Nat.min (att t) (length (pending_of s t)).

Definition kill (js : list nat) (ts : list (task_m unit)) : list (task_m unit) :=
  foldr (λ j ts, <[j := Ret tt]> ts) ts js.

Inductive pool_step : Pool → Pool → Prop :=
| pool_op s os ws att i (X : Set) (e : Ev X) k x s' :
    os !! i = Some (Vis e k) → estep e s x s' →
    pool_step (mkPool s os ws att)
      (mkPool s' (<[i := k x]> os) (kill (killed e s) ws ++ forked e s) (attend s' att))
| pool_worker s os ws att i (X : Set) (e : Ev X) k x s' :
    ws !! i = Some (Vis e k) → estep e s x s' →
    pool_step (mkPool s os ws att)
      (mkPool s' os (kill (killed e s) (<[i := k x]> ws) ++ forked e s) (attend s' att)).

Inductive Op :=
| OpMail (id : str) (m : InterAgentCommunication)
| OpSteer (context : list ResponseItem) (input : list UserItem) (expected client_id : option str)
| OpInject (items : list ResponseItem)
| OpInjectNoNewTurn (items : list ResponseItem)
| OpTryStart (items : list ResponseItem)
| OpSpawn (id : str) (k : TaskKind) (input : list TurnInput) (script : list TurnScript)
| OpAbortAll (reason : TurnAbortReason)
| OpAbortTurn (id : str) (reason : TurnAbortReason)
| OpWait (id : str).
Definition op_task (o : Op) : task_m unit :=
  match o with
  | OpMail id m => inter_agent_communication id m
  | OpSteer context input expected client_id => steer_input context input expected client_id ;; mret tt
  | OpInject items => inject_if_running items ;; mret tt
  | OpInjectNoNewTurn items => inject_no_new_turn items
  | OpTryStart items => try_start_turn_if_idle items ;; mret tt
  | OpSpawn id k input script => spawn_task id k input script
  | OpAbortAll reason => abort_all_tasks reason
  | OpAbortTurn id reason => abort_turn_if_active id reason ;; mret tt
  | OpWait id => wait_agent id
  end.
Definition arrive (o : Op) (σ : Pool) : Pool := mkPool (sess σ) (ops σ ++ [op_task o]) (workers σ) (attended σ).

Inductive any_step : Pool → Pool → Prop :=
| any_pool σ σ' : pool_step σ σ' → any_step σ σ'
| any_arrive o σ : any_step σ (arrive o σ).
Definition pool_new : Pool := mkPool session_new [] [] (λ _, 0).
Definition reachable (σ : Pool) : Prop := rtc any_step pool_new σ.

(** ** Input is conserved *)

Definition weigh (f : TurnInput → nat) (l : list TurnInput) : nat := sum_list_with f l.
(** What the session holds of the input, and what became of the rest. *)
Definition stock (f : TurnInput → nat) (s : Session) : nat :=
  weigh f (recorded s) + weigh f (refused s) + weigh f (cleared s) + weigh f (set_aside s)
  + weigh f (map MailInput (mailbox_pending_mails s))
  + sum_list_with (λ t, weigh f (pending_input t)) (turn_states s).
Definition forked_hand {X : Set} (e : Ev X) : list TurnInput :=
  match e with InstallTask _ _ input _ => input | _ => [] end.
Definition balanced {X : Set} (e : Ev X) (s : Session) (h : list TurnInput) (s' : Session) (h' : list TurnInput) :=
  ∀ f, stock f s' + weigh f h' + weigh f (forked_hand e) + weigh f (accepted s)
       = stock f s + weigh f h + weigh f (accepted s').

(** A task that has the items [h] in hand keeps account of them to its end. *)
Fixpoint carries {A} (h : list TurnInput) (p : task_m A) (Q : list TurnInput → A → Prop) : Prop :=
  match p with
  | Ret a => Q h a
  | Vis e k => ∀ s x s', estep e s x s' → ∃ h', balanced e s h s' h' ∧ carries h' (k x) Q
  end.

Lemma weigh_app f l1 l2 : weigh f (l1 ++ l2) = weigh f l1 + weigh f l2.
Proof. apply sum_list_with_app. Qed.

Lemma carries_bind {A B} h (p : task_m A) (g : A → task_m B) Q :
  carries h p (λ h' a, carries h' (g a) Q) → carries h (p ≫= g) Q.
Proof.
  revert h. induction p as [a|X e k IH]; intros h H; [exact H|].
  intros s x s' Hs. destruct (H s x s' Hs) as (h' & Hb & Hk). exists h'. split; [done|]. by apply IH.
Qed.
Lemma carries_mono {A} h (p : task_m A) (Q Q' : list TurnInput → A → Prop) :
  (∀ h' a, Q h' a → Q' h' a) → carries h p Q → carries h p Q'.
Proof.
  intros HQ. revert h. induction p as [a|X e k IH]; intros h H; [by apply HQ|].
  intros s x s' Hs. destruct (H s x s' Hs) as (h' & Hb & Hk). eauto.
Qed.
Lemma carries_call {X : Set} (e : Ev X) h (Q : list TurnInput → X → Prop) :
  (∀ s x s', estep e s x s' → ∃ h', balanced e s h s' h' ∧ Q h' x) → carries h (call e) Q.
Proof. intros H s x s' Hs. by apply H. Qed.

Lemma pending_insert f t st st' (ts : list TurnState) :
  ts !! t = Some st →
  sum_list_with (λ t, weigh f (pending_input t)) (<[t := st']> ts) + weigh f (pending_input st)
  = sum_list_with (λ t, weigh f (pending_input t)) ts + weigh f (pending_input st').
Proof.
  intros Ht. rewrite insert_take_drop by (by eapply lookup_lt_Some).
  rewrite <-(take_drop_middle ts t st Ht) at 3. rewrite !sum_list_with_app. simpl. lia.
Qed.

(** What leaves the hands of a task with an event, and what comes into them. *)
Definition gives {X : Set} (e : Ev X) : list TurnInput :=
  match e with
  | Extend _ input | Drop input | InstallTask _ _ input _ => input
  | RecordItem i | Refuse i => [i]
  | _ => []
  end.
Definition takes {X : Set} (e : Ev X) : X → list TurnInput :=
  match e with
  | DrainMail => λ ms, map MailInput ms
  | TakePending _ => λ l, l
  | TakeActiveInput => λ '(l, _), l
  | Accept input => λ _, input
  | _ => λ _, []
  end.

Lemma on_state_Some {X : Set} t (f : TurnState → TurnState * X) s s' x :
  on_state t f s = Some (s', x) →
  ∃ st, turn_states s !! t = Some st ∧ x = (f st).2 ∧ s' = with_states (<[t := (f st).1]> (turn_states s)) s.
Proof.
  unfold on_state. destruct (turn_states s !! t) as [st|]; [|done]. simpl. destruct (f st) as [st' x'] eqn:E.
  intros [= <- <-]. exists st. by rewrite E.
Qed.

Lemma stock_on_state {X : Set} t (g : TurnState → TurnState * X) s s' x f :
  on_state t g s = Some (s', x) →
  ∃ st, x = (g st).2 ∧ accepted s' = accepted s ∧
        stock f s' + weigh f (pending_input st) = stock f s + weigh f (pending_input (g st).1).
Proof.
  intros (st & Ht & -> & ->)%on_state_Some. exists st. split_and!; [done..|]. unfold stock. simpl.
  pose proof (pending_insert f t st (g st).1 _ Ht). lia.
Qed.

Lemma stock_ensure f s : stock f (ensure_active s).1 = stock f s ∧ accepted (ensure_active s).1 = accepted s.
Proof.
  unfold ensure_active, stock. destruct (active_turn s); [done|]. simpl. rewrite sum_list_with_app. simpl. split; [lia|done].
Qed.

Definition conserves {X : Set} (e : Ev X) (s : Session) (x : X) (s' : Session) : Prop :=
  ∀ f, stock f s' + weigh f (takes e x) + weigh f (forked_hand e) + weigh f (accepted s)
       = stock f s + weigh f (gives e) + weigh f (accepted s').

Lemma stock_cleared f l s : stock f (note_cleared l s) = stock f s + weigh f l.
Proof. unfold stock. simpl. rewrite weigh_app. lia. Qed.
Lemma stock_accepted f l s : stock f (note_accepted l s) = stock f s.
Proof. done. Qed.
Lemma weigh_nil f : weigh f [] = 0.
Proof. done. Qed.

Ltac ledger := unfold stock; cbn; rewrite ?map_app, ?weigh_app; cbn; unfold weigh; cbn; lia.
(** An event on one turn state. *)
Ltac state_event f H :=
  let st := fresh "st" in let Ha := fresh "Ha" in let Hs := fresh "Hs" in
  destruct (stock_on_state _ _ _ _ _ f H) as (st & ? & Ha & Hs); clear H; simplify_eq; cbn -[stock weigh] in *;
  rewrite ?stock_cleared, ?stock_accepted; cbn -[stock weigh]; rewrite ?Ha, ?weigh_app, ?weigh_nil in *;
  repeat case_match; cbn -[stock weigh] in *; rewrite ?weigh_app, ?weigh_nil in *; try lia.

Lemma event_conserves {X : Set} (e : Ev X) s x s' : estep e s x s' → conserves e s x s'.
Proof.
  intros [H|[Ha ->]] f; [|by destruct e; try done; cbn; lia].
  destruct e; cbn -[stock weigh ensure_active] in *; try (simplify_eq; ledger).
  - destruct (on_state _ _ _) as [[s1 l]|] eqn:Ho; [|done]. simplify_eq/=. state_event f Ho.
  - state_event f H.
  - state_event f H.
  - state_event f H.
  - state_event f H.
  - destruct (active_turn s); [|simplify_eq; ledger]. state_event f H.
  - destruct (active_turn s); [|simplify_eq; ledger]. state_event f H.
  - state_event f H.
  - destruct (_ =? _)%N; simplify_eq. ledger.
  - destruct (steer_check _ _ _) as [[t ts]|]; [|simplify_eq; ledger].
    destruct (on_state _ _ _) as [[s1 l]|] eqn:Ho; [|done]. simplify_eq/=. state_event f Ho.
  - destruct (active_turn s); [|simplify_eq; ledger].
    destruct (on_state _ _ _) as [[s1 l]|] eqn:Ho; [|done]. simplify_eq/=. state_event f Ho.
  - destruct (active_turn s); [simplify_eq; ledger|]. destruct (ensure_active s) as [s1 a] eqn:He.
    pose proof (stock_ensure f s) as [Hs Ha]. rewrite He in *. simplify_eq/=. rewrite Ha. simpl. lia.
  - destruct (is_reserved _ _); simplify_eq; ledger.
  - destruct (ensure_active s) as [s1 a] eqn:He.
    pose proof (stock_ensure f s) as [Hs Ha]. rewrite He in *. simplify_eq/=. rewrite Ha. simpl. lia.
  - destruct (ensure_active s) as [s1 a] eqn:He.
    pose proof (stock_ensure f s) as [Hs Ha]. rewrite He in *. simplify_eq/=. rewrite Ha.
    rewrite <-Hs. ledger.
  - destruct (active_turn s) as [[[]]|]; simplify_eq; ledger.
  - case_bool_decide; simplify_eq; ledger.
Qed.

(** A program that returns [a] with the items [k a] in hand. *)
Definition holding {A} (k : A → list TurnInput) : list TurnInput → A → Prop := λ h a, h ≡ₚ k a.

#[local] Instance weigh_perm f : Proper ((≡ₚ) ==> (=)) (weigh f).
Proof. intros l1 l2 H. unfold weigh. induction H; simpl; lia. Qed.

Lemma carries_perm {A} h1 h2 (p : task_m A) k :
  h1 ≡ₚ h2 → carries h1 p (holding k) → carries h2 p (holding k).
Proof.
  intros Hp. destruct p as [a|X e c]; intros H; [exact (transitivity (symmetry Hp) H)|].
  intros s x s' Hs. destruct (H s x s' Hs) as (h' & Hb & Hc). exists h'. split; [|done].
  intros f. specialize (Hb f). by rewrite <-Hp.
Qed.
Lemma carries_ret {A} h (a : A) k : h ≡ₚ k a → carries h (mret a) (holding k).
Proof. done. Qed.

(** One rule for every event, with any other items in hand. *)
Lemma carries_event {X : Set} (e : Ev X) h h0 :
  h ≡ₚ gives e ++ h0 → carries h (call e) (holding (λ x, takes e x ++ h0)).
Proof.
  intros Hh. apply carries_call. intros s x s' Hs. exists (takes e x ++ h0). split; [|by unfold holding].
  intros f. pose proof (event_conserves e s x s' Hs f). rewrite Hh, !weigh_app. lia.
Qed.
(** Composition of programs that return with a known hand. *)
Lemma carries_seq {A B} h (p : task_m A) (g : A → task_m B) k k' :
  carries h p (holding k) → (∀ a, carries (k a) (g a) (holding k')) → carries h (p ≫= g) (holding k').
Proof.
  intros Hp Hg. apply carries_bind. eapply carries_mono; [|exact Hp].
  intros h' a Ha. by eapply carries_perm; [symmetry; exact Ha|].
Qed.
Lemma carries_then {X : Set} {B} (e : Ev X) h0 h (g : X → task_m B) k :
  h ≡ₚ gives e ++ h0 → (∀ x, carries (takes e x ++ h0) (g x) (holding k)) → carries h (call e ≫= g) (holding k).
Proof. intros Hh H. eapply carries_seq; [by apply carries_event|done]. Qed.

(** An event that moves no items. *)
Lemma carries_quiet {X : Set} {B} (e : Ev X) h (g : X → task_m B) k :
  gives e = [] → (∀ x, takes e x = []) → (∀ x, carries h (g x) (holding k)) → carries h (call e ≫= g) (holding k).
Proof. intros Hg Ht H. apply (carries_then e h); [by rewrite Hg|]. intros x. rewrite Ht. apply H. Qed.
Lemma carries_quiet_call {X : Set} (e : Ev X) h :
  gives e = [] → (∀ x, takes e x = []) → carries h (call e) (holding (λ _, h)).
Proof.
  intros Hg Ht. eapply carries_mono; [|apply (carries_event e h h); by rewrite Hg].
  intros h' x. unfold holding. by rewrite Ht.
Qed.

(** Walks through events without items and the branches between them. *)
Ltac quiet_step :=
  first [ progress intros
        | apply carries_ret; reflexivity
        | apply carries_quiet; [reflexivity | reflexivity |]
        | apply carries_quiet_call; reflexivity
        | case_match ].
Ltac quiet := repeat quiet_step.

Lemma carries_get_pending h : carries h get_pending_input (holding (λ x, x ++ h)).
Proof.
  unfold get_pending_input. apply (carries_then TakeActiveInput h); [done|]. intros [l acc].
  destruct acc; cbn [negb]; [|by apply carries_ret].
  apply (carries_then DrainMail (l ++ h)); [done|]. intros ms. apply carries_ret. cbn.
  by rewrite <-app_assoc, (Permutation_app_swap_app l).
Qed.
Lemma carries_has_pending h : carries h has_pending_input (holding (λ _, h)).
Proof. unfold has_pending_input. quiet. Qed.
Lemma carries_defer h id : carries h (defer_mailbox_delivery_to_next_turn id) (holding (λ _, h)).
Proof. unfold defer_mailbox_delivery_to_next_turn. quiet. Qed.
Lemma carries_accept h id : carries h (accept_mailbox_delivery_for_current_turn id) (holding (λ _, h)).
Proof. unfold accept_mailbox_delivery_for_current_turn. quiet. Qed.
Lemma carries_start_task h id k input script :
  carries (input ++ h) (start_task id k input script) (holding (λ _, h)).
Proof.
  unfold start_task. eapply carries_seq; [apply carries_get_pending|]. intros pending. cbn beta.
  apply carries_quiet; [done..|]. intros t. apply (carries_then (Extend t pending) (input ++ h)); [done|].
  intros ?. apply (carries_event (InstallTask id k input script) _ h). done.
Qed.
Lemma carries_maybe_start h id : carries h (maybe_start_turn_for_pending_work_with_sub_id id) (holding (λ _, h)).
Proof. unfold maybe_start_turn_for_pending_work_with_sub_id. quiet. apply (carries_start_task h _ _ []). Qed.
Lemma carries_maybe_start_fresh h : carries h maybe_start_turn_for_pending_work (holding (λ _, h)).
Proof. unfold maybe_start_turn_for_pending_work. apply carries_quiet; [done..|]. intros id. apply carries_maybe_start. Qed.
Lemma carries_mail h id m : carries h (inter_agent_communication id m) (holding (λ _, h)).
Proof.
  unfold inter_agent_communication. eapply (carries_seq _ _ _ (λ _, h)).
  - unfold enqueue_mailbox_communication. quiet.
  - intros ?. destruct (trigger_turn m); [apply carries_maybe_start|by apply carries_ret].
Qed.
Lemma carries_task_abort h t : carries h (handle_task_abort t) (holding (λ _, h)).
Proof. unfold handle_task_abort. quiet. Qed.
Lemma carries_restart h reason :
  carries h match reason with Interrupted => maybe_start_turn_for_pending_work | _ => mret tt end (holding (λ _, h)).
Proof. destruct reason; [apply carries_maybe_start_fresh|by apply carries_ret..]. Qed.
Lemma carries_abort_all h reason : carries h (abort_all_tasks reason) (holding (λ _, h)).
Proof.
  unfold abort_all_tasks. apply carries_quiet; [done..|]. intros [[[t|] ts]|]; [|by apply carries_ret..].
  eapply carries_seq; [apply carries_task_abort|]. intros ?. apply carries_quiet; [done..|]. intros ?.
  apply carries_restart.
Qed.
Lemma carries_abort_turn h id reason : carries h (abort_turn_if_active id reason) (holding (λ _, h)).
Proof.
  unfold abort_turn_if_active. apply carries_quiet; [done..|]. intros [a|]; [|by apply carries_ret].
  eapply (carries_seq _ _ _ (λ _, h)).
  { destruct (task a); [apply carries_task_abort|by apply carries_ret]. }
  intros ?. apply carries_quiet; [done..|]. intros ?. eapply carries_seq; [apply carries_restart|].
  intros ?. by apply carries_ret.
Qed.
Lemma carries_spawn h id k input script : carries h (spawn_task id k input script) (holding (λ _, h)).
Proof.
  unfold spawn_task. apply (carries_then (Accept input) h); [done|]. intros ?. cbn [takes].
  eapply carries_seq; [apply carries_abort_all|]. intros ?. apply carries_start_task.
Qed.

Lemma carries_inspect h i : carries h (inspect_pending_input i) (holding (λ _, h)).
Proof. unfold inspect_pending_input. quiet. Qed.
Lemma carries_record h blocked acc input :
  carries (input ++ h) (record_inputs blocked acc input) (holding (λ _, h)).
Proof.
  revert blocked acc. induction input as [|i input IH]; intros blocked acc; [by apply carries_ret|].
  cbn [record_inputs]. eapply carries_seq; [apply carries_inspect|]. intros stop. cbn beta.
  destruct stop.
  - apply (carries_then (Refuse i) (input ++ h)); [done|]. intros ?. apply IH.
  - apply (carries_then (RecordItem i) (input ++ h)); [done|]. intros ?. apply IH.
Qed.
Lemma carries_record_pending h input : carries (input ++ h) (record_pending input) (holding (λ _, h)).
Proof.
  induction input as [|i input IH]; [by apply carries_ret|].
  cbn [record_pending]. eapply carries_seq; [apply carries_inspect|]. intros stop. cbn beta.
  destruct stop.
  - apply (carries_then (Refuse i) (input ++ h)); [done|]. intros ?. apply IH.
  - apply (carries_then (RecordItem i) (input ++ h)); [done|]. intros ?. apply IH.
Qed.
Lemma carries_stream h id items : carries h (handle_stream id items) (holding (λ _, h)).
Proof.
  induction items as [|[defers|] items IH]; [by apply carries_ret|..]; cbn [handle_stream].
  - eapply (carries_seq _ _ _ (λ _, h)); [destruct defers; [apply carries_defer|by apply carries_ret]|]. by intros ?.
  - eapply carries_seq; [apply carries_accept|]. by intros ?.
Qed.
Lemma carries_turn_loop h id samples can_drain : carries h (turn_loop id samples can_drain) (holding (λ _, h)).
Proof.
  revert can_drain. induction samples as [|sample samples IH]; intros can_drain; cbn [turn_loop].
  { apply carries_quiet; [done..|]. intros []. }
  eapply (carries_seq _ _ _ (λ x, x ++ h)); [destruct can_drain; [apply carries_get_pending|by apply carries_ret]|].
  intros pending. eapply carries_seq; [apply carries_record|]. intros stop. destruct stop; [by apply carries_ret|].
  destruct sample as [items follow win limit compact_ok cont| |]; [|apply IH|by apply carries_ret].
  eapply carries_seq; [apply carries_stream|]. intros ?. eapply carries_seq; [apply carries_has_pending|].
  intros hp. cbn beta. repeat case_match; first [apply IH | by apply carries_ret].
Qed.
Lemma carries_run_turn h id input script : carries (input ++ h) (run_turn id input script) (holding (λ _, h)).
Proof.
  unfold run_turn. destruct (start_ok script); cbn [negb].
  - eapply carries_seq; [apply carries_record|]. intros stop. destruct stop; [by apply carries_ret|apply carries_turn_loop].
  - apply (carries_event (Drop input) _ h). done.
Qed.
Lemma carries_regular h id input scripts : carries (input ++ h) (regular_run id input scripts) (holding (λ _, h)).
Proof.
  revert input. induction scripts as [|script scripts IH]; intros input; cbn [regular_run].
  { apply carries_quiet; [done..|]. intros []. }
  eapply carries_seq; [apply carries_run_turn|]. intros ?. eapply carries_seq; [apply carries_has_pending|].
  intros hp. destruct hp; [apply (IH [])|by apply carries_ret].
Qed.
Lemma carries_finished h : carries h on_task_finished (holding (λ _, h)).
Proof.
  unfold on_task_finished. apply carries_quiet; [done..|]. intros [t|]; [|by apply carries_ret].
  apply (carries_then (TakePending t) h); [done|]. intros l. eapply carries_seq; [apply carries_record_pending|].
  intros ?. quiet.
Qed.
Lemma carries_run_task h hd id k input script : carries (input ++ h) (run_task hd id k input script) (holding (λ _, h)).
Proof.
  unfold run_task. eapply (carries_seq _ _ _ (λ _, h)).
  - destruct k; [apply carries_regular|by apply (carries_event (Drop input) _ h)..].
  - intros ?. apply carries_quiet; [done..|]. intros c. destruct c; [by apply carries_ret|apply carries_finished].
Qed.

Lemma carries_try_start h items : carries h (try_start_turn_if_idle items) (holding (λ _, h)).
Proof.
  assert (Hrej : ∀ t r, carries h (reject_reserved t r) (holding (λ _, h))).
  { intros t r. unfold reject_reserved. apply carries_quiet; [done..|]. intros ?.
    eapply carries_seq; [apply carries_maybe_start_fresh|]. intros ?. by apply carries_ret. }
  unfold try_start_turn_if_idle. repeat first [apply Hrej | quiet_step].
  apply (carries_then (Accept _) h); [done|]. intros ?. apply (carries_then (Extend _ _) h); [done|]. intros ?.
  eapply carries_seq; [apply (carries_start_task h _ _ [])|]. intros ?. by apply carries_ret.
Qed.

(** Every operation starts and ends with empty hands. *)
Lemma carries_op o : carries [] (op_task o) (holding (λ _, [])).
Proof.
  destruct o; cbn [op_task];
    eauto using carries_mail, carries_spawn, carries_abort_all.
  - unfold steer_input. quiet.
  - unfold inject_if_running. quiet.
  - unfold inject_no_new_turn, inject_if_running. apply carries_quiet; [done..|].
    intros [?|r]; [by apply carries_ret|]. apply (carries_then (Accept _) []); [done|]. intros ?. cbn [takes].
    apply carries_record_pending.
  - eapply carries_seq; [apply carries_try_start|]. intros ?. by apply carries_ret.
  - eapply carries_seq; [apply carries_abort_turn|]. intros ?. by apply carries_ret.
  - unfold wait_agent, subscribe_activity, wait_for_activity. quiet.
Qed.

(** *** The pool *)

Definition settled (h : list TurnInput) (p : task_m unit) : Prop := carries h p (holding (λ _, [])).

Lemma settled_done : settled [] (Ret tt).
Proof. exact (Permutation_refl []). Qed.

(** Events that touch turns only. *)
Definition on_turns {X : Set} (e : Ev X) : bool :=
  match e with
  | PushMail _ | Notify _ | DrainMail | InstallTask _ _ _ _ | AbortHandle _ => false
  | _ => true
  end.
Definition same_queue (s s' : Session) : Prop :=
  (mailbox_pending_mails s', activity s', enqueued s', drained s', next_handle s', aborted s')
  = (mailbox_pending_mails s, activity s, enqueued s, drained s, next_handle s, aborted s).

Lemma on_state_same {X : Set} t (g : TurnState → TurnState * X) s s' x : on_state t g s = Some (s', x) → same_queue s s'.
Proof. by intros (st & _ & _ & ->)%on_state_Some. Qed.

Lemma act_same {X : Set} (e : Ev X) s x s' : estep e s x s' → on_turns e = true → same_queue s s'.
Proof.
  intros [H|[Ha ->]] Ht; [|done].
  destruct e; try done; cbn -[on_state ensure_active] in *; unfold ensure_active in *;
    repeat (case_match; simplify_eq/=); simplify_eq/=; try done; try (by eapply on_state_same);
    match goal with H : context [on_state ?t ?g ?s] |- _ => destruct (on_state t g s) as [[s1 l]|] eqn:Hs end;
    try done; simplify_eq/=; by apply on_state_same in Hs.
Qed.

(** Handles are indices of tasks, and every task that is stopped is noted. *)
Lemma act_handles {X : Set} (e : Ev X) s x s' :
  estep e s x s' → next_handle s' = next_handle s + length (forked e s) ∧ aborted s' = aborted s ++ killed e s.
Proof.
  intros He. destruct (on_turns e) eqn:Ht.
  - pose proof (act_same e s x s' He Ht) as [=]. destruct e; try done; cbn; by rewrite app_nil_r, Nat.add_0_r.
  - destruct He as [H|[Ha ->]]; [|by destruct e]. destruct e; try done; cbn in H; simplify_eq/=;
      rewrite ?app_nil_r, ?Nat.add_0_r; try done.
    unfold ensure_active in *. destruct (active_turn s) as [[[t|] ts]|]; simplify_eq/=; rewrite ?app_nil_r; split; (done || lia).
Qed.

Lemma hands_insert f i h h' (hs : list (list TurnInput)) :
  hs !! i = Some h →
  sum_list_with (weigh f) (<[i := h']> hs) + weigh f h = sum_list_with (weigh f) hs + weigh f h'.
Proof.
  intros Hi. rewrite insert_take_drop by (by eapply lookup_lt_Some).
  rewrite <-(take_drop_middle hs i h Hi) at 3. rewrite !sum_list_with_app. simpl. lia.
Qed.

(** A stopped task loses what it has in hand. *)
Lemma kill_settled js hs ts :
  Forall2 settled hs ts →
  ∃ hs' lost, Forall2 settled hs' (kill js ts) ∧ (js = [] → lost = []) ∧
    ∀ f, sum_list_with (weigh f) hs = sum_list_with (weigh f) hs' + weigh f lost.
Proof.
  intros Hts. induction js as [|j js IH]; [exists hs, []; split_and!; [done..|intros f; cbn; lia]|].
  destruct IH as (hs' & lost & Hk & _ & Hsum). cbn [kill foldr]. fold (kill js ts).
  destruct (hs' !! j) as [h|] eqn:Hj.
  - exists (<[j := []]> hs'), (lost ++ h). split_and!; [apply Forall2_insert; [done|apply settled_done]|done|].
    intros f. pose proof (hands_insert f j h [] hs' Hj) as Hi. rewrite weigh_app, Hsum, weigh_nil in *. lia.
  - exists hs', lost. split_and!; [|done|done].
    rewrite list_insert_ge; [done|]. apply lookup_ge_None in Hj. by rewrite <-(Forall2_length _ _ _ Hk).
Qed.

Record PInv (σ : Pool) (ho hw : list (list TurnInput)) (lost : list TurnInput) : Prop := {
  pinv_ops : Forall2 settled ho (ops σ);
  pinv_workers : Forall2 settled hw (workers σ);
  pinv_handles : next_handle (sess σ) = length (workers σ);
  pinv_lost : aborted (sess σ) = [] → lost = [];
  pinv_sum : ∀ f, weigh f (accepted (sess σ))
                  = stock f (sess σ) + sum_list_with (weigh f) (ho ++ hw) + weigh f lost;
}.

Lemma kill_length js ts : length (kill js ts) = length ts.
Proof. induction js as [|j js IH]; [done|]. cbn [kill foldr]. by rewrite length_insert. Qed.

(** The effect of an event on the workers, whoever causes it. *)
Lemma workers_step {X : Set} (e : Ev X) s x s' ws hw :
  estep e s x s' → Forall2 settled hw ws → next_handle s = length ws →
  ∃ hw' lost,
    Forall2 settled hw' (kill (killed e s) ws ++ forked e s) ∧
    next_handle s' = length (kill (killed e s) ws ++ forked e s) ∧
    (aborted s' = [] → aborted s = [] ∧ lost = []) ∧
    ∀ f, sum_list_with (weigh f) hw + weigh f (forked_hand e) = sum_list_with (weigh f) hw' + weigh f lost.
Proof.
  intros He Hw Hh. destruct (kill_settled (killed e s) hw ws Hw) as (hw1 & lost & Hk & Hkl & Hsum).
  destruct (act_handles e s x s' He) as [Hnext Hab].
  assert (Hfork : ∃ hf, Forall2 settled hf (forked e s) ∧ ∀ f, sum_list_with (weigh f) hf = weigh f (forked_hand e)).
  { destruct e; try (exists []; by split; [constructor|]). exists [input]. split; [|intros f; apply Nat.add_0_r]. constructor; [|constructor].
    unfold settled. rewrite <-(app_nil_r input) at 1. apply carries_run_task. }
  destruct Hfork as (hf & Hf & Hff). exists (hw1 ++ hf), lost. split_and!.
  - by apply Forall2_app.
  - by rewrite Hnext, Hh, length_app, kill_length.
  - intros [Ha Hk0]%(eq_trans (eq_sym Hab))%app_eq_nil. auto.
  - intros f. rewrite sum_list_with_app, Hff, Hsum. lia.
Qed.

Lemma session_step_PInv σ σ' ho hw lost : PInv σ ho hw lost → pool_step σ σ' → ∃ ho' hw' lost', PInv σ' ho' hw' lost'.
Proof.
  intros [Hos Hws Hh Hl Hsum] Hstep. destruct Hstep as [s os ws att i X e k x s' Hi He|s os ws att i X e k x s' Hi He];
    cbn [sess ops workers] in *.
  - destruct (Forall2_lookup_r _ _ _ _ _ Hos Hi) as (h & Hhi & Hc). destruct (Hc s x s' He) as (h' & Hb & Hk).
    destruct (workers_step e s x s' ws hw He Hws Hh) as (hw' & lost' & Hw' & Hn & Hab & Hs').
    exists (<[i := h']> ho), hw', (lost ++ lost'). split; cbn [sess ops workers]; [by apply Forall2_insert|done..| |].
    + intros [? ->]%Hab. by rewrite Hl.
    + intros f. specialize (Hb f). specialize (Hsum f). specialize (Hs' f).
      pose proof (hands_insert f i h h' ho Hhi). rewrite ?sum_list_with_app, ?weigh_app in *. lia.
  - destruct (Forall2_lookup_r _ _ _ _ _ Hws Hi) as (h & Hhi & Hc). destruct (Hc s x s' He) as (h' & Hb & Hk).
    destruct (workers_step e s x s' (<[i := k x]> ws) (<[i := h']> hw)) as (hw' & lost' & Hw' & Hn & Hab & Hs');
      [done|by apply Forall2_insert|by rewrite length_insert|].
    exists ho, hw', (lost ++ lost'). split; cbn [sess ops workers]; [done..| |].
    + intros [? ->]%Hab. by rewrite Hl.
    + intros f. specialize (Hb f). specialize (Hsum f). specialize (Hs' f).
      pose proof (hands_insert f i h h' hw Hhi). rewrite ?sum_list_with_app, ?weigh_app in *. lia.
Qed.

Lemma arrive_PInv o σ ho hw lost : PInv σ ho hw lost → PInv (arrive o σ) (ho ++ [[]]) hw lost.
Proof.
  intros [Hos Hws Hh Hl Hsum]. split; cbn [arrive sess ops workers]; [|done..|].
  - apply Forall2_app; [done|]. constructor; [apply carries_op|done].
  - intros f. rewrite Hsum, <-app_assoc, !sum_list_with_app. simpl. lia.
Qed.

Lemma reachable_PInv σ : reachable σ → ∃ ho hw lost, PInv σ ho hw lost.
Proof.
  unfold reachable. intros H. remember pool_new as σ0 eqn:E.
  assert (H0 : ∃ ho hw lost, PInv σ0 ho hw lost) by (subst; exists [], [], []; split; [constructor|constructor|done..]).
  clear E. induction H as [|σ0 σ1 σ2 H1 _ IH]; [done|]. apply IH.
  destruct H0 as (ho & hw & lost & HP). destruct H1; [by eapply session_step_PInv|eauto using arrive_PInv].
Qed.

Definition finished (p : task_m unit) : bool := match p with Ret _ => true | Vis _ _ => false end.

Lemma settled_finished h p : settled h p → finished p = true → h = [].
Proof. destruct p as [a|]; [|done]. intros H _. by apply Permutation_nil, Permutation_sym. Qed.

(** ** Mail arrives in order and wakes those who wait *)

Definition version (s : Session) : N := (activity s).2.

(** What an event does to the mailbox and the channel. *)
Lemma act_mail {X : Set} (e : Ev X) s x s' :
  estep e s x s' →
  version s' = (version s + match e with Notify _ => 1 | _ => 0 end)%N ∧
  match e with
  | PushMail m => mailbox_pending_mails s' = mailbox_pending_mails s ++ [m] ∧
                  enqueued s' = enqueued s ++ [m] ∧ drained s' = drained s
  | DrainMail => mailbox_pending_mails s' = [] ∧
                 enqueued s' = enqueued s ∧ drained s' = drained s ++ mailbox_pending_mails s
  | _ => mailbox_pending_mails s' = mailbox_pending_mails s ∧ enqueued s' = enqueued s ∧ drained s' = drained s
  end.
Proof.
  unfold version. intros He. destruct (on_turns e) eqn:Ht.
  - pose proof (act_same e s x s' He Ht) as [=]. destruct e; try done; rewrite N.add_0_r; by split; [congruence|].
  - destruct He as [H|[Ha ->]]; [|by destruct e]. destruct e; try done; cbn in H; rewrite ?N.add_0_r; simplify_eq/=; try done.
    unfold ensure_active in *. by destruct (active_turn s); simplify_eq/=.
Qed.

(** Mail leaves the mailbox in the order in which it came. *)
Lemma mail_in_order σ :
  reachable σ → enqueued (sess σ) = drained (sess σ) ++ mailbox_pending_mails (sess σ).
Proof.
  unfold reachable. intros H. remember pool_new as σ0 eqn:E.
  assert (H0 : enqueued (sess σ0) = drained (sess σ0) ++ mailbox_pending_mails (sess σ0)) by (by subst).
  clear E. induction H as [|σ0 σ1 σ2 H1 _ IH]; [done|]. apply IH. destruct H1 as [σ0 σ1 Hs|]; [|done].
  assert (Hact : ∀ (X : Set) (e : Ev X) s x s', estep e s x s' →
    enqueued s = drained s ++ mailbox_pending_mails s → enqueued s' = drained s' ++ mailbox_pending_mails s').
  { intros X e s x s' [_ He]%act_mail Hs'. destruct e; destruct He as (-> & -> & ->);
      rewrite Hs'; by rewrite ?app_nil_r, <-?app_assoc. }
  destruct Hs; cbn [sess] in *; by eapply Hact.
Qed.

(** Programs whose events all satisfy [P]. *)
Fixpoint all_events {A} (P : ∀ X : Set, Ev X → Prop) (p : task_m A) : Prop :=
  match p with
  | Ret _ => True
  | Vis e k => P _ e ∧ ∀ x, all_events P (k x)
  end.
(** Everything but the handler of mail and the tools that wait. *)
Definition tame_event (X : Set) (e : Ev X) : Prop :=
  match e with PushMail _ | Changed _ => False | _ => True end.
Definition tame {A} (p : task_m A) : Prop := all_events tame_event p.

Lemma tame_bind {A B} (p : task_m A) (g : A → task_m B) : tame p → (∀ a, tame (g a)) → tame (p ≫= g).
Proof.
  intros Hp Hg. induction p as [a|X e k IH]; [apply Hg|]. destruct Hp as [He Hk]. split; [done|]. intros x. by apply IH, Hk.
Qed.
Lemma tame_call {X : Set} (e : Ev X) : tame_event X e → tame (call e).
Proof. by split. Qed.
Lemma tame_ret {A} (a : A) : tame (mret a).
Proof. done. Qed.

Create HintDb tame.
Ltac tame := repeat first
  [ progress intros | solve [auto with tame nocore] | apply tame_ret | apply tame_call; exact I | apply tame_bind | case_match ].

Lemma tame_get_pending : tame get_pending_input.
Proof. unfold get_pending_input. tame. Qed.
Lemma tame_has_pending : tame has_pending_input.
Proof. unfold has_pending_input. tame. Qed.
#[local] Hint Resolve tame_get_pending tame_has_pending : tame.
Lemma tame_start_task id k input script : tame (start_task id k input script).
Proof. unfold start_task. tame. Qed.
#[local] Hint Resolve tame_start_task : tame.
Lemma tame_maybe_start id : tame (maybe_start_turn_for_pending_work_with_sub_id id).
Proof. unfold maybe_start_turn_for_pending_work_with_sub_id. tame. Qed.
#[local] Hint Resolve tame_maybe_start : tame.
Lemma tame_abort_all reason : tame (abort_all_tasks reason).
Proof. unfold abort_all_tasks, handle_task_abort, maybe_start_turn_for_pending_work. tame. Qed.
#[local] Hint Resolve tame_abort_all : tame.
Lemma tame_record blocked acc input : tame (record_inputs blocked acc input).
Proof.
  revert blocked acc. induction input as [|i input IH]; intros blocked acc; [done|]. cbn [record_inputs].
  unfold inspect_pending_input. tame; apply IH.
Qed.
Lemma tame_record_pending input : tame (record_pending input).
Proof.
  induction input as [|i input IH]; [done|]. cbn [record_pending]. unfold inspect_pending_input. tame; apply IH.
Qed.
Lemma tame_stream id items : tame (handle_stream id items).
Proof.
  induction items as [|[] items IH]; [done|..]; cbn [handle_stream];
    unfold defer_mailbox_delivery_to_next_turn, accept_mailbox_delivery_for_current_turn; tame; apply IH.
Qed.
#[local] Hint Resolve tame_record tame_record_pending tame_stream : tame.
Lemma tame_turn_loop id samples can_drain : tame (turn_loop id samples can_drain).
Proof.
  revert can_drain. induction samples as [|sample samples IH]; intros can_drain; cbn [turn_loop];
    unfold run_hooks_and_record_inputs; tame; apply IH.
Qed.
#[local] Hint Resolve tame_turn_loop : tame.
Lemma tame_regular id input scripts : tame (regular_run id input scripts).
Proof.
  revert input. induction scripts as [|script scripts IH]; intros input; cbn [regular_run];
    unfold run_turn, run_hooks_and_record_inputs; tame; apply IH.
Qed.
#[local] Hint Resolve tame_regular : tame.
Lemma tame_run_task h id k input script : tame (run_task h id k input script).
Proof. unfold run_task, on_task_finished. tame. Qed.

(** After mail is pushed the next event announces it. *)
Definition after {X : Set} (b : bool) (e : Ev X) : option bool :=
  match e with
  | Notify Mailbox => Some false
  | PushMail _ => if b then None else Some true
  | _ => if b then None else Some false
  end.
Fixpoint announces {A} (b : bool) (p : task_m A) : Prop :=
  match p with
  | Ret _ => b = false
  | Vis e k => ∃ b', after b e = Some b' ∧ ∀ x, announces b' (k x)
  end.

(** How far a task that waits has come: subscribed, and then seen that there is no mail. *)
Inductive vstate := Away | Subscribed (v : N) | Checked (v : N).
Definition vnext {X : Set} (g : vstate) (e : Ev X) : X → option vstate :=
  match e with
  | Subscribe => λ v, Some (Subscribed v)
  | HasMail => λ has_mail, Some match g, has_mail with Subscribed v, false => Checked v | _, _ => Away end
  | Changed v => λ _, match g with Checked v' => if (v =? v')%N then Some Away else None | _ => None end
  | _ => λ _, Some g
  end.
Fixpoint vigil {A} (g : vstate) (p : task_m A) : Prop :=
  match p with
  | Ret _ => True
  | Vis e k => ∀ x, ∃ g', vnext g e x = Some g' ∧ vigil g' (k x)
  end.

Lemma announces_bind {A B} b (p : task_m A) (g : A → task_m B) :
  announces b p → (∀ a, announces false (g a)) → announces b (p ≫= g).
Proof.
  intros Hp Hg. revert b Hp. induction p as [a|X e k IH]; intros b; [intros ->; apply Hg|].
  intros (b' & Hb & Hk). exists b'. split; [done|]. intros x. by apply IH.
Qed.

Lemma tame_announces {A} (p : task_m A) : tame p → announces false p.
Proof.
  induction p as [a|X e k IH]; [done|]. intros [He Hk]. exists false.
  split; [by destruct e; try done; cbn; case_match|]. intros x. by apply IH, Hk.
Qed.
Lemma tame_vigil {A} g (p : task_m A) : tame p → vigil g p.
Proof.
  revert g. induction p as [a|X e k IH]; intros g; [done|]. intros [He Hk] x.
  assert (∃ g', vnext g e x = Some g') as [g' Hg] by (destruct e; try done; cbn; eauto).
  exists g'. split; [done|]. by apply IH, Hk.
Qed.

Definition attends (bg : bool * vstate) (p : task_m unit) : Prop := announces bg.1 p ∧ vigil bg.2 p.

Lemma op_attends o : attends (false, Away) (op_task o).
Proof.
  assert (Ht : ∀ p : task_m unit, tame p → attends (false, Away) p)
    by (intros p Hp; split; [by apply tame_announces|by apply tame_vigil]).
  destruct o; cbn [op_task].
  - split; [|unfold inter_agent_communication, enqueue_mailbox_communication].
    + unfold inter_agent_communication. apply announces_bind.
      * exists true. split; [done|]. intros x. exists false. by split.
      * intros ?. apply tame_announces. tame.
    + intros x. eexists; split; [done|]. intros y. eexists; split; [done|].
      change (vigil Away (if trigger_turn m then maybe_start_turn_for_pending_work_with_sub_id id else mret tt)).
      apply tame_vigil. tame.
  - apply Ht. unfold steer_input. tame.
  - apply Ht. unfold inject_if_running. tame.
  - apply Ht. unfold inject_no_new_turn, inject_if_running. tame.
  - apply Ht. unfold try_start_turn_if_idle, reject_reserved, maybe_start_turn_for_pending_work. tame.
  - apply Ht. unfold spawn_task. tame.
  - apply Ht. tame.
  - apply Ht. unfold abort_turn_if_active, handle_task_abort, maybe_start_turn_for_pending_work. tame.
  - unfold wait_agent, subscribe_activity, wait_for_activity. split; cbn.
    + repeat first [done | progress intros | exists false; split; [reflexivity|]; cbn | case_match; cbn].
    + assert (Hmail : ∀ v, vigil (Subscribed v) (has_mail ← call HasMail;
        match (if has_mail : bool then Some Mailbox else None) with
        | Some a => mret a | None => call (Changed v) end ≫= λ _, mret tt)).
      { intros v [|]; eexists; (split; [reflexivity|]); [done|]. intros a. exists Away. cbn. by rewrite N.eqb_refl. }
      intros t. eexists; split; [reflexivity|]. cbn. intros v. eexists; split; [reflexivity|].
      destruct t as [t|]; cbn; [|apply (Hmail v)].
      intros steer. eexists; split; [reflexivity|]. destruct steer; [done|apply (Hmail v)].
Qed.

(** *** The pool *)

(** What a task that waits may rely on. *)
Definition heard (s : Session) (gs : list (bool * vstate)) (g : vstate) : Prop :=
  match g with
  | Away => True
  | Subscribed v => (v ≤ version s)%N
  | Checked v => (v ≤ version s)%N ∧
                 (version s = v → mailbox_pending_mails s = [] ∨ ∃ j g', gs !! j = Some (true, g'))
  end.
Record WInv (σ : Pool) (gs : list (bool * vstate)) : Prop := {
  winv_ops : Forall2 attends gs (ops σ);
  winv_workers : Forall tame (workers σ);
  winv_heard : ∀ i b g, gs !! i = Some (b, g) → heard (sess σ) gs g;
}.

Definition pushes {X : Set} (e : Ev X) : bool := match e with PushMail _ => true | _ => false end.
Definition notifies {X : Set} (e : Ev X) : bool := match e with Notify _ => true | _ => false end.

(** A waiter keeps what it relies on, if a push is announced and an announcement is made. *)
Lemma heard_kept {X : Set} (e : Ev X) s x s' gs gs' g :
  estep e s x s' → heard s gs g →
  (pushes e = true → ∃ j g', gs' !! j = Some (true, g')) →
  (notifies e = false → ∀ j g', gs !! j = Some (true, g') → ∃ g'', gs' !! j = Some (true, g'')) →
  heard s' gs' g.
Proof.
  intros [Hv Hm]%act_mail Hh Hpush Hkeep. destruct g as [|v|v]; cbn in *; [done|destruct e; lia|].
  destruct Hh as [Hle Hh]. split; [destruct e; lia|]. intros Hv'.
  destruct (notifies e) eqn:Hn; [destruct e; try done; lia|].
  destruct Hh as [Hnil|(j & g' & Hj)]; [destruct e; try done; lia| |].
  - destruct (pushes e) eqn:Hp; [by right; apply Hpush|]. left. destruct e; try done; by destruct Hm as [-> _].
  - right. destruct (Hkeep eq_refl j g' Hj) as [g'' ?]. eauto.
Qed.

Lemma workers_tame {X : Set} (e : Ev X) s ws : Forall tame ws → Forall tame (kill (killed e s) ws ++ forked e s).
Proof.
  intros Hw. apply Forall_app. split.
  - induction (killed e s) as [|j js IH]; [done|]. cbn [kill foldr]. by apply Forall_insert.
  - destruct e; repeat constructor. apply tame_run_task.
Qed.

(** What a waiter learns from its own event. *)
Lemma heard_own {X : Set} (e : Ev X) s x s' gs gs' g g' :
  estep e s x s' → vnext g e x = Some g' → heard s gs g → heard s' gs' g → heard s' gs' g'.
Proof.
  intros He Hn Hs Hs'. destruct e; cbn in Hn; simplify_eq; try done.
  - destruct He as [He|[]]; [|done]. cbn in He. simplify_eq.
    destruct g as [|v|v], (mailbox_pending_mails s') eqn:Hm; try done; cbn in *.
    split; [done|]. by left.
  - destruct He as [He|[]]; [|done]. cbn in He. simplify_eq. cbn. unfold version. lia.
  - destruct g as [| |v']; try done. by destruct (seen =? v')%N; simplify_eq.
Qed.

Lemma session_step_WInv σ σ' gs : WInv σ gs → pool_step σ σ' → ∃ gs', WInv σ' gs'.
Proof.
  intros [Hos Hws Hh] Hstep. destruct Hstep as [s os ws att i X e k x s' Hi He|s os ws att i X e k x s' Hi He];
    cbn [sess ops workers] in *.
  - destruct (Forall2_lookup_r _ _ _ _ _ Hos Hi) as ([b g] & Hgi & [Hb Hg]).
    destruct Hb as (b' & Hb & Hk). destruct (Hg x) as (g' & Hn & Hv). cbn in Hb, Hk, Hn, Hv.
    assert (Hlt : i < length gs) by (by eapply lookup_lt_Some).
    assert (Hkept : ∀ g, heard s gs g → heard s' (<[i := (b', g')]> gs) g).
    { intros g0 Hg0. eapply heard_kept; [done..| |].
      - intros Hp. exists i, g'. rewrite list_lookup_insert_eq by done. by destruct e, b; simplify_eq/=.
      - intros Hnt j g1 Hj. destruct (decide (i = j)) as [<-|?]; [|rewrite list_lookup_insert_ne by done; eauto].
        exfalso. rewrite Hgi in Hj. simplify_eq. by destruct e. }
    exists (<[i := (b', g')]> gs). split; cbn [sess ops workers].
    + apply Forall2_insert; [done|]. split; [apply Hk|done].
    + by apply workers_tame.
    + intros j b0 g0 Hj. destruct (decide (i = j)) as [<-|?].
      * rewrite list_lookup_insert_eq in Hj by done. simplify_eq. by eapply (heard_own e s x s' gs); eauto.
      * rewrite list_lookup_insert_ne in Hj by done. eauto.
  - pose proof (Forall_lookup_1 _ _ _ _ Hws Hi) as [Ht Hk]. exists gs. split; cbn [sess ops workers]; [done| |].
    + apply workers_tame, Forall_insert; [done|apply Hk].
    + intros j b g Hj. eapply heard_kept; [done|by eapply Hh| |eauto]. by destruct e.
Qed.

Lemma reachable_WInv σ : reachable σ → ∃ gs, WInv σ gs.
Proof.
  unfold reachable. intros H. remember pool_new as σ0 eqn:E.
  assert (H0 : ∃ gs, WInv σ0 gs) by (subst; exists []; split; [constructor|constructor|done]).
  clear E. induction H as [|σ0 σ1 σ2 H1 _ IH]; [done|]. apply IH.
  destruct H0 as (gs & HW). destruct H1 as [|o σ0]; [by eapply session_step_WInv|].
  destruct HW as [Hos Hws Hh]. exists (gs ++ [(false, Away)]). split; [|done|].
  - apply Forall2_app; [done|]. constructor; [apply op_attends|done].
  - intros i b g [Hi|[_ Hi]]%lookup_app_Some.
    + specialize (Hh i b g Hi). destruct g; try done. destruct Hh as [? Hh]. split; [done|]. intros Hv.
      destruct (Hh Hv) as [?|(j & g' & Hj)]; [by left|]. right. exists j, g'. by apply lookup_app_l_Some.
    + apply list_lookup_singleton_Some in Hi as [_ ?]. by simplify_eq.
Qed.

(** No mail is missed: while a tool waits that has not been woken, mail can only be in the
    mailbox when the task that put it there is about to announce it. *)
Theorem waiter_woken σ i seen k :
  reachable σ → ops σ !! i = Some (Vis (Changed seen) k) → version (sess σ) = seen →
  mailbox_pending_mails (sess σ) ≠ [] →
  ∃ j k', ops σ !! j = Some (Vis (Notify Mailbox) k').
Proof.
  intros (gs & [Hos _ Hh])%reachable_WInv Hi Hv Hm.
  destruct (Forall2_lookup_r _ _ _ _ _ Hos Hi) as ([b g] & Hgi & [_ Hg]).
  destruct (Hg Mailbox) as (g' & Hn & _). cbn in Hn. destruct g as [| |v]; [done..|].
  destruct (N.eqb_spec seen v) as [<-|]; [|done].
  destruct (Hh _ _ _ Hgi) as [_ Hmail]. destruct (Hmail Hv) as [?|(j & g1 & Hj)]; [done|].
  destruct (Forall2_lookup_l _ _ _ _ _ Hos Hj) as (p & Hp & [Ha _]). exists j.
  destruct p as [|X e k']; [done|]. destruct Ha as (b' & Hb & _). destruct e; try done. destruct a; [|done]. eauto.
Qed.

(** ** A turn's task leaves nothing behind

    As long as no task is aborted, every task of a turn takes its turn back when it ends
    and then records what is pending there.  A task of the pool is followed through the
    events that matter for this. *)

(** An operation: nothing special, committed to abort a task it took, free to do anything
    once it has. *)
Inductive ophase := Idle | Aborting | Free.
#[local] Instance ophase_eq_dec : EqDecision ophase.
Proof. solve_decision. Defined.
Definition onext {X : Set} (o : ophase) (e : Ev X) : X → option ophase :=
  match o, e with
  | Idle, TakeActive => λ a, Some match a with Some (mkActive (Some _) _) => Aborting | _ => Idle end
  | Idle, TakeActiveIf _ => λ a, Some match a with Some (mkActive (Some _) _) => Aborting | _ => Idle end
  | Idle, (TakeTask | ClearPending _ | Cancel _ | AbortHandle _) => λ _, None
  | Idle, _ => λ _, Some Idle
  | Aborting, (IsCancelled _ | Cancel _) => λ _, Some Aborting
  | Aborting, AbortHandle _ => λ _, Some Free
  | Aborting, _ => λ _, None
  | Free, _ => λ _, Some Free
  end.
Fixpoint op_phase {A} (o : ophase) (p : task_m A) : Prop :=
  o = Free ∨
  match p with
  | Ret _ => o = Idle
  | Vis e k => ∀ s x s', estep e s x s' → ∃ o', onext o e x = Some o' ∧ op_phase o' (k x)
  end.

(** The task of a turn: before it takes a turn back, having taken turn [t] back, after it
    has taken the input left in it. *)
Inductive wphase := Before | Got (t : nat) | After.
#[local] Instance wphase_eq_dec : EqDecision wphase.
Proof. solve_decision. Defined.
Definition wnext {X : Set} (g : wphase) (e : Ev X) : X → option wphase :=
  match e with
  | TakeTask => λ r, match g with Before => Some (match r with Some t => Got t | None => After end) | _ => None end
  | TakePending t => λ _, Some match g with Got t' => if bool_decide (t' = t) then After else g | _ => g end
  | IsCancelled _ => λ c, Some match g with Before => if c then After else Before | _ => g end
  | TakeActive | TakeActiveIf _ | Cancel _ | AbortHandle _ | ClearPending _ | InstallTask _ _ _ _ => λ _, None
  | _ => λ _, Some g
  end.
Fixpoint worker_phase {A} (g : wphase) (p : task_m A) : Prop :=
  match p with
  | Ret _ => g = After
  | Vis e k => ∀ x, ∃ g', wnext g e x = Some g' ∧ worker_phase g' (k x)
  end.

(** Programs without any of these events. *)
Definition plain_event (X : Set) (e : Ev X) : Prop :=
  match e with
  | TakeActive | TakeActiveIf _ | TakeTask | ClearPending _ | Cancel _ | AbortHandle _ | InstallTask _ _ _ _
  | IsCancelled _ | TakePending _ => False
  | _ => True
  end.
Definition plain {A} (p : task_m A) : Prop := all_events plain_event p.

Lemma plain_bind {A B} (p : task_m A) (g : A → task_m B) : plain p → (∀ a, plain (g a)) → plain (p ≫= g).
Proof.
  intros Hp Hg. induction p as [a|X e k IH]; [apply Hg|]. destruct Hp as [He Hk]. split; [done|]. intros x. by apply IH, Hk.
Qed.
Lemma plain_call {X : Set} (e : Ev X) : plain_event X e → plain (call e).
Proof. by split. Qed.

Lemma worker_plain {A B} g (p : task_m A) (q : A → task_m B) :
  plain p → (∀ a, worker_phase g (q a)) → worker_phase g (p ≫= q).
Proof.
  intros Hp Hq. induction p as [a|X e k IH]; [apply Hq|]. destruct Hp as [He Hk]. intros x. exists g.
  split; [by destruct e|]. by apply IH, Hk.
Qed.
Lemma op_plain_event {X : Set} (e : Ev X) x : plain_event X e → onext Idle e x = Some Idle.
Proof. by destruct e. Qed.

Lemma op_free {A} (p : task_m A) : op_phase Free p.
Proof. destruct p; by left. Qed.
Lemma op_bind {A B} (p : task_m A) (q : A → task_m B) o :
  op_phase o p → (∀ a, op_phase Idle (q a)) → op_phase o (p ≫= q).
Proof.
  intros Hp Hq. revert o Hp. induction p as [a|X e k IH]; intros o [->|Hp]; try apply op_free.
  - rewrite Hp. apply Hq.
  - right. intros s x s' He. destruct (Hp s x s' He) as (o' & Ho & Hk). exists o'. split; [done|]. by apply IH.
Qed.
(** A program that aborts may be followed by anything. *)
Lemma op_aborting {A B} (p : task_m A) (q : A → task_m B) : op_phase Aborting p → op_phase Aborting (p ≫= q).
Proof.
  assert (∀ o, o ≠ Idle → op_phase o p → op_phase o (p ≫= q)) as H; [|by apply H].
  induction p as [a|X e k IH]; intros o Hne [->|Hp]; try apply op_free; [done|].
  right. intros s x s' He. destruct (Hp s x s' He) as (o' & Ho & Hk). exists o'. split; [done|].
  apply IH; [|done]. destruct o; [done|by destruct e; simplify_eq/=|by simplify_eq/=].
Qed.
Lemma op_ret {A} (a : A) : op_phase Idle (mret a).
Proof. by right. Qed.
Lemma op_event {X : Set} {B} (e : Ev X) (q : X → task_m B) :
  (∀ x, onext Idle e x = Some Idle) → (∀ x, op_phase Idle (q x)) → op_phase Idle (call e ≫= q).
Proof. intros He Hq. right. intros s x s' _. exists Idle. split; [apply He|apply Hq]. Qed.
Lemma op_call {X : Set} (e : Ev X) : (∀ x, onext Idle e x = Some Idle) → op_phase Idle (call e).
Proof. intros He. right. intros s x s' _. exists Idle. split; [apply He|by right]. Qed.

Create HintDb phases.
Ltac plain := repeat first
  [ progress intros | solve [auto with phases nocore] | exact I | apply plain_call; exact I | apply plain_bind | case_match ].
Ltac idle := repeat first
  [ progress intros | solve [auto with phases nocore] | apply op_ret | apply op_call; reflexivity
  | apply op_event; [reflexivity|] | apply op_bind | case_match ].

Lemma plain_get_pending : plain get_pending_input.
Proof. unfold get_pending_input. plain. Qed.
Lemma plain_has_pending : plain has_pending_input.
Proof. unfold has_pending_input. plain. Qed.
Lemma plain_record blocked acc input : plain (record_inputs blocked acc input).
Proof.
  revert blocked acc. induction input as [|i input IH]; intros blocked acc; [done|]. cbn [record_inputs].
  unfold inspect_pending_input. plain; apply IH.
Qed.
Lemma plain_record_pending input : plain (record_pending input).
Proof.
  induction input as [|i input IH]; [done|]. cbn [record_pending]. unfold inspect_pending_input. plain; apply IH.
Qed.
Lemma plain_stream id items : plain (handle_stream id items).
Proof.
  induction items as [|[] items IH]; [done|..]; cbn [handle_stream];
    unfold defer_mailbox_delivery_to_next_turn, accept_mailbox_delivery_for_current_turn; plain; apply IH.
Qed.
#[local] Hint Resolve plain_get_pending plain_has_pending plain_record plain_record_pending plain_stream : phases.
Lemma plain_turn_loop id samples can_drain : plain (turn_loop id samples can_drain).
Proof.
  revert can_drain. induction samples as [|sample samples IH]; intros can_drain; cbn [turn_loop];
    unfold run_hooks_and_record_inputs; plain; apply IH.
Qed.
#[local] Hint Resolve plain_turn_loop : phases.
Lemma plain_regular id input scripts : plain (regular_run id input scripts).
Proof.
  revert input. induction scripts as [|script scripts IH]; intros input; cbn [regular_run];
    unfold run_turn, run_hooks_and_record_inputs; plain; apply IH.
Qed.
#[local] Hint Resolve plain_regular : phases.

Lemma worker_finished : worker_phase Before on_task_finished.
Proof.
  unfold on_task_finished. intros [t|]; eexists; (split; [reflexivity|]); [|done].
  intros l. exists After. split; [cbn; by rewrite bool_decide_true|].
  apply (worker_plain After (record_pending l)); [plain|]. intros ?. intros b. by exists After.
Qed.
Lemma worker_run_task h id k input script : worker_phase Before (run_task h id k input script).
Proof.
  unfold run_task. apply worker_plain; [plain|]. intros ? c. destruct c; eexists; (split; [reflexivity|]);
    [done|apply worker_finished].
Qed.

Lemma idle_plain {A} (p : task_m A) : plain p → op_phase Idle p.
Proof.
  induction p as [a|X e k IH]; [by right|]. intros [He Hk]. right. intros s x s' _. exists Idle.
  split; [by apply op_plain_event|]. by apply IH, Hk.
Qed.
Lemma idle_get_pending : op_phase Idle get_pending_input.
Proof. apply idle_plain. plain. Qed.
Lemma idle_record_pending input : op_phase Idle (record_pending input).
Proof. apply idle_plain. plain. Qed.
#[local] Hint Resolve idle_get_pending idle_record_pending : phases.
Lemma idle_start_task id k input script : op_phase Idle (start_task id k input script).
Proof. unfold start_task. idle. Qed.
#[local] Hint Resolve idle_start_task : phases.
Lemma idle_maybe_start id : op_phase Idle (maybe_start_turn_for_pending_work_with_sub_id id).
Proof. unfold maybe_start_turn_for_pending_work_with_sub_id. idle. Qed.
Lemma idle_maybe_start_fresh : op_phase Idle maybe_start_turn_for_pending_work.
Proof. unfold maybe_start_turn_for_pending_work. apply op_event; [done|]. intros id. apply idle_maybe_start. Qed.
#[local] Hint Resolve idle_maybe_start idle_maybe_start_fresh : phases.
Lemma aborting_task t : op_phase Aborting (handle_task_abort t).
Proof.
  right. intros s c s' _. exists Aborting. split; [done|]. destruct c; right; intros ? ? ? _.
  - exists Free. split; [done|apply op_free].
  - exists Aborting. split; [done|]. right. intros ? ? ? _. exists Free. split; [done|apply op_free].
Qed.

Lemma active_if_task id s a s' : estep (TakeActiveIf id) s (Some a) s' → is_Some (task a).
Proof.
  intros [H|[]]; [|done]. cbn in H. case_bool_decide as Hid; [|done]. injection H as _ Ha.
  unfold active_sub_id in Hid. rewrite Ha in Hid. cbn in Hid. by destruct (task a).
Qed.

Lemma idle_abort_all reason : op_phase Idle (abort_all_tasks reason).
Proof.
  right. intros s [[[t|] ts]|] s' _; eexists; (split; [reflexivity|]); [|by right..].
  apply op_aborting, aborting_task.
Qed.
Lemma idle_abort_turn id reason : op_phase Idle (abort_turn_if_active id reason).
Proof.
  right. intros s [[[t|] ts]|] s' He; eexists; (split; [reflexivity|]); [apply op_aborting, aborting_task| |by right].
  by destruct (active_if_task _ _ _ _ He).
Qed.
#[local] Hint Resolve idle_abort_all idle_abort_turn : phases.

Lemma idle_op o : op_phase Idle (op_task o).
Proof.
  destruct o; cbn [op_task]; unfold inter_agent_communication, enqueue_mailbox_communication, steer_input,
    inject_no_new_turn, inject_if_running, try_start_turn_if_idle, reject_reserved, spawn_task, wait_agent,
    subscribe_activity, wait_for_activity; idle.
Qed.

(** *** The pool *)

Lemma running_states ts s : running (with_states ts s) = running s.
Proof. done. Qed.
Lemma running_on_state {X : Set} t (g : TurnState → TurnState * X) s s' x :
  on_state t g s = Some (s', x) → running s' = running s.
Proof. by intros (st & _ & _ & ->)%on_state_Some. Qed.

(** What an event does to the turn that runs, and to the ledger of cleared input. *)
Lemma act_running {X : Set} (e : Ev X) s x s' :
  estep e s x s' →
  match e with
  | InstallTask _ _ _ _ => True
  | TakeTask | TakeActive | TakeActiveIf _ => running s' = None ∨ running s' = running s
  | _ => running s' = running s
  end.
Proof.
  intros [H|[Ha ->]]; [|by destruct e].
  destruct e; try done; cbn -[on_state ensure_active running] in *; unfold ensure_active, is_reserved in *;
    try (simplify_eq; done); try (by eapply running_on_state).
  all: repeat (case_match; simplify_eq/=); simplify_eq/=; try done; try (by eapply running_on_state); auto.
  all: try (unfold running; cbn; by auto).
  all: try match goal with H : context [on_state ?t ?g ?s] |- _ =>
    destruct (on_state t g s) as [[s1 l]|] eqn:Hs; try done; simplify_eq/=; by apply running_on_state in Hs end.
  all: match goal with H : active_turn ?s = _ |- _ => unfold running; cbn; by rewrite H end.
Qed.

Lemma on_state_ledger {X : Set} t (g : TurnState → TurnState * X) s s' x :
  on_state t g s = Some (s', x) → cleared s' = cleared s ∧ cancelled s' = cancelled s.
Proof. by intros (st & _ & _ & ->)%on_state_Some. Qed.
Lemma act_ledger {X : Set} (e : Ev X) s x s' :
  estep e s x s' →
  match e with ClearPending _ => True | _ => cleared s' = cleared s end ∧
  match e with Cancel _ => True | _ => cancelled s' = cancelled s end.
Proof.
  intros [H|[Ha ->]]; [|by destruct e].
  destruct e; cbn -[on_state ensure_active] in *; unfold ensure_active in *;
    try (simplify_eq; done); try (by apply on_state_ledger in H).
  all: repeat (case_match; simplify_eq/=); simplify_eq/=; try done; try (by apply on_state_ledger in H).
  all: match goal with H : context [on_state ?t ?g ?s] |- _ =>
    destruct (on_state t g s) as [[s1 l]|] eqn:Hs; try done; simplify_eq/=;
    apply on_state_ledger in Hs as [??]; by split end.
Qed.

Lemma install_running id k input script s x s' :
  estep (InstallTask id k input script) s x s' → is_Some (running s').
Proof.
  intros [H|[]]; [|done]. cbn in H. unfold ensure_active in H.
  destruct (active_turn s) as [a|]; simplify_eq/=; unfold running; cbn; eauto.
Qed.
Lemma install_free id k input script s :
  killed (InstallTask id k input script) s = [] → running s = None.
Proof. cbn. unfold running. by destruct (active_turn s) as [[[t|] ts]|]. Qed.
Lemma take_task_running s x s' : estep TakeTask s x s' → running s' = None ∧ x = running s.
Proof. intros [H|[]]; [|done]. cbn in H. unfold running. destruct (active_turn s) as [[[t|] ts]|] eqn:E; simplify_eq/=; by rewrite ?E. Qed.
Lemma take_pending_empty t s x s' : estep (TakePending t) s x s' → pending_of s' t = [].
Proof.
  intros [H|[]]; [|done]. cbn in H. apply on_state_Some in H as (st & Ht & _ & ->).
  unfold pending_of. cbn. rewrite list_lookup_insert_eq by (by eapply lookup_lt_Some). done.
Qed.
(** An operation that takes the active turn and stays idle took no task. *)
Lemma idle_running {X : Set} (e : Ev X) s x s' :
  estep e s x s' → onext Idle e x = Some Idle → killed e s = [] →
  (running s' = running s) ∨ (∃ id k input script, forked e s = [run_task (next_handle s) id k input script] ∧
     running s = None).
Proof.
  intros He Ho Hk. pose proof (act_running e s x s' He) as Hr. destruct e; try done; try (by left).
  - right. do 4 eexists. split; [reflexivity|]. by eapply install_free.
  - left. destruct He as [He|[]]; [|done]. cbn in He. injection He as <- <-. unfold running. cbn.
    by destruct (active_turn s) as [[[t|] ts]|].
  - left. destruct He as [He|[]]; [|done]. cbn in He. case_bool_decide as Hid; simplify_eq/=; [|done].
    unfold active_sub_id in Hid. unfold running. cbn. by destruct (active_turn s) as [[[t|] ts]|].
Qed.

Lemma attend_pos s att t : 0 < attend s att t → running s = Some t ∨ (0 < att t ∧ pending_of s t ≠ []).
Proof.
  unfold attend. case_bool_decide as Hr; [by left|]. intros H. right. split; [lia|].
  intros Hp. rewrite Hp in H. cbn in H. lia.
Qed.

(** While no task is aborted nothing was cleared, and either some operation is about to
    abort a task, or every turn that has attended input, or a task, has a task of the pool
    that will look after it. *)
Definition looked_after (s : Session) (gs : list wphase) (att : nat → nat) : Prop :=
  cancelled s = [] ∧
  (∀ t, running s = Some t → Before ∈ gs) ∧
  (∀ t, 0 < att t → running s = Some t ∨ Got t ∈ gs).
Record GInv (σ : Pool) (os : list ophase) (gs : list wphase) : Prop := {
  ginv_ops : Forall2 op_phase os (ops σ);
  ginv_workers : Forall2 worker_phase gs (workers σ);
  ginv_free : Free ∉ os;
  ginv_cleared : cleared (sess σ) = [];
  ginv_attended : Aborting ∈ os ∨ looked_after (sess σ) gs (attended σ);
}.

Lemma forked_phases {X : Set} (e : Ev X) s :
  ∃ gs, Forall2 worker_phase gs (forked e s) ∧ Forall (λ g, g = Before) gs ∧ (forked e s ≠ [] → Before ∈ gs).
Proof.
  destruct e; try (exists []; by split_and!; [constructor|constructor|]).
  exists [Before]. split_and!; [|by constructor|by intros _; left]. constructor; [apply worker_run_task|constructor].
Qed.

(** What an event does to turns looked after, apart from the phases of its own task. *)
Lemma looked_after_step {X : Set} (e : Ev X) s x s' gs gs' att :
  estep e s x s' → match e with Cancel _ => False | _ => True end →
  looked_after s gs att →
  (∀ t, running s = Some t → running s' = Some t ∨ Got t ∈ gs') →
  (∀ t, running s' = Some t → Before ∈ gs') →
  (∀ t, Got t ∈ gs → Got t ∈ gs' ∨ pending_of s' t = []) →
  looked_after s' gs' (attend s' att).
Proof.
  intros He Hc (Hcanc & Hrun & Hatt) H1 H2 H3.
  destruct (act_ledger e s x s' He) as [_ Hl]. split_and!.
  - by destruct e; rewrite ?Hl.
  - done.
  - intros t [Hr|[Hpos Hne]]%attend_pos; [by left|]. destruct (Hatt t Hpos) as [Hr|Hg]; [by apply H1|].
    right. by destruct (H3 t Hg).
Qed.

Lemma no_kill js (ts : list (task_m unit)) : js = [] → kill js ts = ts.
Proof. by intros ->. Qed.

Lemma op_step_GInv s os ws att i (X : Set) (e : Ev X) k x s' ps gs :
  GInv (mkPool s os ws att) ps gs → os !! i = Some (Vis e k) → estep e s x s' → aborted s' = [] →
  ∃ ps' gs', GInv (mkPool s' (<[i := k x]> os) (kill (killed e s) ws ++ forked e s) (attend s' att)) ps' gs'.
Proof.
  intros [Hos Hws Hfree Hclr Hatt] Hi He Hab. cbn [sess ops workers attended] in *.
  destruct (act_handles e s x s' He) as [_ Habs]. rewrite Hab in Habs. symmetry in Habs.
  apply app_eq_nil in Habs as [_ Hk]. rewrite (no_kill _ _ Hk).
  destruct (Forall2_lookup_r _ _ _ _ _ Hos Hi) as (o & Hoi & [->|Hp]).
  { destruct Hfree. by eapply list_elem_of_lookup_2. }
  assert (o ≠ Free) as Hon by (intros ->; apply Hfree; by eapply list_elem_of_lookup_2).
  destruct (Hp s x s' He) as (o' & Hn & Hk').
  destruct (forked_phases e s) as (gf & Hgf & Hgb & Hgi).
  assert (Hlt : i < length ps) by (by eapply lookup_lt_Some).
  assert (o' ≠ Free) as Hof.
  { intros ->. destruct o; [by destruct e; try done; cbn in Hn; repeat case_match|by destruct e|done]. }
  exists (<[i := o']> ps), (gs ++ gf). split; cbn [sess ops workers attended].
  - by apply Forall2_insert.
  - by apply Forall2_app.
  - intros [j Hj]%list_elem_of_lookup_1. apply list_lookup_insert_Some in Hj as [(_ & ? & _)|[_ Hj]]; [done|].
    apply Hfree. by eapply list_elem_of_lookup_2.
  - destruct (act_ledger e s x s' He) as [Hl _]. destruct e; try (by rewrite Hl). destruct o; by cbn in Hn.
  - destruct (decide (o' = Aborting)) as [->|Hna].
    { left. eapply list_elem_of_lookup_2. by apply list_lookup_insert_eq. }
    destruct Hatt as [[j Hj]%list_elem_of_lookup_1|Hla].
    { left. destruct (decide (i = j)) as [<-|Hne]; [|eapply list_elem_of_lookup_2; by rewrite list_lookup_insert_ne].
      exfalso. rewrite Hoi in Hj. injection Hj as ->. by destruct e; simplify_eq/=. }
    destruct o; [|by destruct e; simplify_eq/=|done].
    destruct o'; [|done..]. right.
    destruct (idle_running e s x s' He Hn Hk) as [Hr|(id & kd & input & script & Hf & Hr)].
    + eapply looked_after_step; [done|by destruct e|done|..].
      * intros t Ht. left. by rewrite Hr.
      * intros t Ht. rewrite Hr in Ht. destruct Hla as (_ & H2 & _). apply elem_of_app. left. by eapply H2.
      * intros t Ht. left. apply elem_of_app. by left.
    + eapply looked_after_step; [done|by destruct e|done|..].
      * intros t Ht. by rewrite Hr in Ht.
      * intros t Ht. apply elem_of_app. right. apply Hgi. by rewrite Hf.
      * intros t Ht. left. apply elem_of_app. by left.
Qed.

Lemma worker_step_GInv s os ws att i (X : Set) (e : Ev X) k x s' ps gs :
  GInv (mkPool s os ws att) ps gs → ws !! i = Some (Vis e k) → estep e s x s' → aborted s' = [] →
  ∃ ps' gs', GInv (mkPool s' os (kill (killed e s) (<[i := k x]> ws) ++ forked e s) (attend s' att)) ps' gs'.
Proof.
  intros [Hos Hws Hfree Hclr Hatt] Hi He Hab. cbn [sess ops workers attended] in *.
  destruct (Forall2_lookup_r _ _ _ _ _ Hws Hi) as (g & Hgi & Hg).
  destruct (Hg x) as (g' & Hn & Hg').
  assert (killed e s = [] ∧ forked e s = []) as [-> ->] by (by destruct e).
  rewrite app_nil_r. cbn [kill foldr].
  assert (Hlt : i < length gs) by (by eapply lookup_lt_Some).
  assert (Hin : ∀ h, h ∈ gs → h ≠ g → h ∈ <[i := g']> gs).
  { intros h [j Hj]%list_elem_of_lookup_1 Hne. destruct (decide (i = j)) as [<-|Hij].
    - congruence.
    - eapply list_elem_of_lookup_2. by rewrite list_lookup_insert_ne. }
  assert (Hnew : g' ∈ <[i := g']> gs) by (eapply list_elem_of_lookup_2; by apply list_lookup_insert_eq).
  exists ps, (<[i := g']> gs). split; cbn [sess ops workers attended]; [done|by apply Forall2_insert|done|..].
  - destruct (act_ledger e s x s' He) as [Hl _]. destruct e; try (by rewrite Hl); done.
  - destruct Hatt as [Ha|Hla]; [by left|]. right. pose proof Hla as (Hcanc & Hrun & Hat).
    pose proof (act_running e s x s' He) as Hr.
    assert (Hback : ∀ t, running s = Some t → running s' = Some t ∨ Got t ∈ <[i := g']> gs).
    { intros t Ht. destruct e; try done; try (left; congruence).
      destruct (take_task_running _ _ _ He) as [_ ->]. right. cbn in Hn. destruct g; [|done..].
      injection Hn as <-. by rewrite Ht in Hnew |- *. }
    eapply looked_after_step; [done|by destruct e|done|done|..].
    + intros t Ht. destruct (decide (Before = g)) as [<-|Hne].
      * destruct e; try done; cbn in Hn; try (by injection Hn as <-).
        -- destruct (take_task_running _ _ _ He) as [Hn' _]. by rewrite Hn' in Ht.
        -- destruct He as [He|[]]; [|done]. cbn in He. rewrite Hcanc in He. injection He as <- <-.
           by injection Hn as <-.
      * apply Hin; [|done]. destruct e; try done; try (by eapply Hrun; rewrite <-Hr).
        destruct (take_task_running _ _ _ He) as [Hn' _]. by rewrite Hn' in Ht.
    + intros t Ht. destruct (decide (Got t = g)) as [<-|Hne]; [|left; by apply Hin].
      destruct e; try done; cbn in Hn; try (injection Hn as <-; by left).
      case_bool_decide as Heq; injection Hn as <-; [|by left]. subst t0. right. by eapply take_pending_empty.
Qed.

Lemma reachable_GInv σ : reachable σ → aborted (sess σ) = [] → ∃ ps gs, GInv σ ps gs.
Proof.
  unfold reachable. intros H. remember pool_new as σ0 eqn:E.
  assert (H0 : aborted (sess σ0) = [] → ∃ ps gs, GInv σ0 ps gs).
  { subst. intros _. exists [], []. split; [constructor|constructor|by apply not_elem_of_nil|done|].
    right. split_and!; [done|done|]. cbn. lia. }
  clear E. induction H as [|σ0 σ1 σ2 H1 _ IH]; [done|]. apply IH. clear IH. intros Hab.
  destruct H1 as [σ0 σ1 Hs|o σ0].
  - assert (∀ (X : Set) (e : Ev X) s x s', estep e s x s' → aborted s' = [] → aborted s = []) as Hmono.
    { intros X e s x s' He Ha. destruct (act_handles e s x s' He) as [_ Hb]. rewrite Ha in Hb.
      symmetry in Hb. by apply app_eq_nil in Hb as [? _]. }
    destruct Hs as [s os ws att i X e k x s' Hi He|s os ws att i X e k x s' Hi He]; cbn [sess] in *;
      destruct (H0 (Hmono _ _ _ _ _ He Hab)) as (ps & gs & HG); [by eapply op_step_GInv|by eapply worker_step_GInv].
  - destruct (H0 Hab) as (ps & gs & [Hos Hws Hf Hc Ha]). exists (ps ++ [Idle]), gs.
    split; cbn [arrive sess ops workers attended]; [|done| |done|].
    + apply Forall2_app; [done|]. constructor; [apply idle_op|constructor].
    + rewrite elem_of_app, list_elem_of_singleton. by intros [?|?].
    + destruct Ha as [Ha|Ha]; [left; apply elem_of_app; by left|by right].
Qed.

(** When all tasks are finished and none was aborted, no input is left that was pending
    while a task ran its turn. *)
Lemma nothing_neglected σ t :
  reachable σ → forallb finished (ops σ ++ workers σ) = true → aborted (sess σ) = [] → attended σ t = 0.
Proof.
  intros Hr Hfin Hab. destruct (reachable_GInv σ Hr Hab) as (ps & gs & [Hos Hws Hfree _ Hatt]).
  rewrite forallb_app in Hfin. apply andb_true_iff in Hfin as [Ho Hw].
  rewrite forallb_forall in Ho, Hw. setoid_rewrite <-list_elem_of_In in Ho. setoid_rewrite <-list_elem_of_In in Hw.
  destruct Hatt as [[j Hj]%list_elem_of_lookup_1|(_ & Hrun & Hat)].
  { destruct (Forall2_lookup_l _ _ _ _ _ Hos Hj) as (p & Hp & Hph).
    specialize (Ho p (list_elem_of_lookup_2 _ _ _ Hp)). destruct p; [|done]. by destruct Hph as [?|?]. }
  assert (∀ g, g ∈ gs → g = After) as Hafter.
  { intros g [j Hj]%list_elem_of_lookup_1. destruct (Forall2_lookup_l _ _ _ _ _ Hws Hj) as (p & Hp & Hph).
    specialize (Hw p (list_elem_of_lookup_2 _ _ _ Hp)). by destruct p. }
  destruct (attended σ t) as [|n] eqn:Hn; [done|]. exfalso.
  destruct (Hat t) as [Ht|Ht]; [lia| |]; [apply Hrun in Ht|]; by apply Hafter in Ht.
Qed.

Context `{!EqDecision UserItem, !EqDecision ResponseItem, !EqDecision Metadata}.

#[local] Instance mail_eq_dec : EqDecision InterAgentCommunication.
Proof. solve_decision. Defined.
#[local] Instance input_eq_dec : EqDecision TurnInput.
Proof. solve_decision. Defined.

(** Lists that weigh the same are the same up to order. *)
Lemma weigh_Permutation (l1 l2 : list TurnInput) : (∀ f, weigh f l1 = weigh f l2) → l1 ≡ₚ l2.
Proof.
  intros H. apply (Permutation_count_occ input_eq_dec). intros x.
  assert (Hc : ∀ l, weigh (λ y, if decide (y = x) then 1 else 0) l = count_occ input_eq_dec l x).
  { unfold weigh. induction l as [|y l IH]; [done|]. cbn [sum_list_with count_occ]. rewrite IH.
    by destruct (decide (y = x)), (input_eq_dec y x). }
  by rewrite <-!Hc.
Qed.

Lemma stock_weigh f s :
  stock f s = weigh f (recorded s ++ refused s ++ cleared s ++ set_aside s ++ map MailInput (mailbox_pending_mails s)
                       ++ concat (pending_input <$> turn_states s)).
Proof.
  unfold stock. rewrite !weigh_app. enough (∀ ts, sum_list_with (λ t, weigh f (pending_input t)) ts
    = weigh f (concat (pending_input <$> ts))) as -> by lia.
  induction ts as [|t ts IH]; [done|]. cbn. by rewrite IH, weigh_app.
Qed.

(** The input that waits in the active turn, and the input that turns which are no longer
    active left behind: nobody will take it any more. *)
Definition waiting (s : Session) : list TurnInput :=
  match active_turn s with Some a => pending_of s (turn_state a) | None => [] end.
Definition left_behind (s : Session) : list TurnInput :=
  match active_turn s with
  | Some a => concat (pending_input <$> delete (turn_state a) (turn_states s))
  | None => concat (pending_input <$> turn_states s)
  end.

Lemma pending_split s : concat (pending_input <$> turn_states s) ≡ₚ waiting s ++ left_behind s.
Proof.
  unfold waiting, left_behind, pending_of. destruct (active_turn s) as [a|]; [|done].
  destruct (turn_states s !! turn_state a) as [st|] eqn:Ht.
  - rewrite (delete_Permutation _ _ _ Ht) at 1. done.
  - rewrite delete_take_drop. apply lookup_ge_None in Ht. rewrite take_ge, drop_ge, app_nil_r by lia. done.
Qed.

(** C32: Nothing that was accepted is duplicated or vanishes, and a turn that ends leaves
    nothing behind that it could have recorded.  For every interleaving of mail, prompts,
    injections, turns, aborts and the tasks of the turns: the input the session accepted
    is what it has recorded, what hooks refused, what was set aside (turns that failed
    before recording, reviews and compactions), what aborts cleared, what waits in the
    mailbox and in the active turn, what turns that are no longer active left behind, what
    tasks have in hand, and what stopped tasks had in hand.  Once all tasks are finished
    none has anything in hand.  As long as no task was aborted, nothing was cleared and
    nothing was lost with a stopped task; and if then all tasks are finished, none of the
    input left in any turn was ever pending while a task ran that turn: it came after the
    turn's task had taken what was left, or before a task that was never installed. *)
Theorem input_conserved σ :
  reachable σ →
  let s := sess σ in
  ∃ held lost,
    accepted s ≡ₚ (recorded s ++ refused s ++ set_aside s ++ cleared s
                   ++ map MailInput (mailbox_pending_mails s) ++ waiting s ++ left_behind s) ++ held ++ lost ∧
    (forallb finished (ops σ ++ workers σ) = true → held = []) ∧
    (aborted s = [] → lost = [] ∧ cleared s = []) ∧
    (forallb finished (ops σ ++ workers σ) = true → aborted s = [] → ∀ t, attended σ t = 0).
Proof.
  intros Hreach s. pose proof Hreach as (ho & hw & lost & [Hos Hws _ Hl Hsum])%reachable_PInv.
  exists (concat (ho ++ hw)), lost. split_and!.
  - rewrite <-pending_split. apply weigh_Permutation. intros f. unfold s. rewrite Hsum, stock_weigh, !weigh_app.
    enough (∀ hs, sum_list_with (weigh f) hs = weigh f (concat hs)) as -> by lia.
    clear. induction hs as [|h hs IH]; [done|]. cbn. by rewrite IH, weigh_app.
  - pose proof (Forall2_app Hos Hws) as Hts. clear Hsum Hl Hos Hws Hreach.
    induction Hts as [|h p hs ts Hp Hts IH]; [done|]. intros [Hf Hfs]%andb_true_iff.
    cbn. by rewrite (settled_finished h p), IH.
  - intros Ha. split; [by apply Hl|]. destruct (reachable_GInv σ Hreach Ha) as (ps & gs & HG). apply HG.
  - intros Hfin Ha t. by apply nothing_neglected.
Qed.

(** ** Schedules *)

(** The answers from outside in a schedule. *)
Record Answers := mkAnswers { the_script : list TurnScript; the_bool : bool; the_id : str }.
Definition answer (a : Answers) {X : Set} (e : Ev X) : option X :=
  match e with
  | AskScript => Some (the_script a)
  | AskBool => Some (the_bool a)
  | AskId => Some (the_id a)
  | _ => None
  end.
Definition event_result (a : Answers) {X : Set} (e : Ev X) (s : Session) : option (Session * X) :=
  match act e s with Some r => Some r | None => x ← answer a e; Some (s, x) end.

Inductive Choice := RunOp (i : nat) | RunWorker (i : nat) | Arrive (o : Op).
Definition run_one (a : Answers) (σ : Pool) (t : Choice) : Pool :=
  let '(mkPool s os ws att) := σ in
  match t with
  | Arrive o => arrive o σ
  | RunOp i =>
      match os !! i with
      | Some (Vis e k) =>
          match event_result a e s with
          | Some (s', x) => mkPool s' (<[i := k x]> os) (kill (killed e s) ws ++ forked e s) (attend s' att)
          | None => σ
          end
      | _ => σ
      end
  | RunWorker i =>
      match ws !! i with
      | Some (Vis e k) =>
          match event_result a e s with
          | Some (s', x) => mkPool s' os (kill (killed e s) (<[i := k x]> ws) ++ forked e s) (attend s' att)
          | None => σ
          end
      | _ => σ
      end
  end.
Definition schedule (a : Answers) (ts : list Choice) : Pool := fold_left (run_one a) ts pool_new.

Lemma event_result_step a {X : Set} (e : Ev X) s s' x : event_result a e s = Some (s', x) → estep e s x s'.
Proof.
  unfold event_result, estep. destruct (act e s) as [r|] eqn:He; [intros [= ->]; auto|].
  destruct e; cbn in *; intros; simplify_eq; auto.
Qed.

Lemma schedule_reachable a ts : reachable (schedule a ts).
Proof.
  unfold schedule, reachable.
  enough (∀ σ0 σ, rtc any_step σ0 σ → rtc any_step σ0 (fold_left (run_one a) ts σ)) as H by (by apply H).
  induction ts as [|t ts IH]; intros σ0 σ Hσ; [done|]. apply IH. etransitivity; [exact Hσ|].
  destruct σ as [s os ws att]. destruct t as [i|i|o]; cbn [run_one]; [| |by apply rtc_once, any_arrive].
  - destruct (os !! i) as [[|X e k]|] eqn:Hi; [done| |done].
    destruct (event_result a e s) as [[s' x]|] eqn:He; [|done].
    apply rtc_once, any_pool. eapply pool_op; [done|by eapply event_result_step].
  - destruct (ws !! i) as [[|X e k]|] eqn:Hi; [done| |done].
    destruct (event_result a e s) as [[s' x]|] eqn:He; [|done].
    apply rtc_once, any_pool. eapply pool_worker; [done|by eapply event_result_step].
Qed.

End InputQueue.

(** ** Examples *)

Abbreviation demo_input := (@TurnInput nat nat nat).
Abbreviation demo_schedule := (@schedule nat nat nat).

Definition demo_script : list TurnScript := [mkScript true [Sampled [Completed true] false false false false false]].
Definition demo_answers : Answers := mkAnswers demo_script false (lit "turn-2").
Definition demo_mail (trigger : bool) : @InterAgentCommunication nat :=
  mkMail (lit "/root/worker") (lit "/root") [] (lit "done") None None trigger.
Definition demo_prompt : demo_input := UserInput [1] None.

(** A turn that answers [demo_prompt]: [between] happens after the answer is complete, and
    [finishing] after its task has taken the input that was left. *)
Definition demo_turn (between finishing : list Choice) : list Choice :=
  [Arrive (OpSpawn (lit "turn-1") Regular [demo_prompt] demo_script)] ++ replicate 7 (RunOp 0)
  ++ replicate 4 (RunWorker 0) ++ between ++ replicate 5 (RunWorker 0) ++ finishing ++ [RunWorker 0].

Definition all_done (σ : @Pool nat nat nat) : bool := forallb finished (ops σ ++ workers σ).

Example demo_turn_recorded :
  let σ := demo_schedule demo_answers (demo_turn [] []) in
  (recorded (sess σ), active_turn (sess σ), all_done σ) = ([demo_prompt], None, true).
Proof. by vm_compute. Qed.

(** Mail that asks for a turn and arrives after the answer stays in the mailbox: the turn
    ends, the session is idle, and nothing starts the turn the mail asks for. *)
Example trigger_mail_waits :
  let σ := demo_schedule demo_answers (demo_turn (Arrive (OpMail (lit "turn-2") (demo_mail true)) :: replicate 4 (RunOp 1)) []) in
  (mailbox_pending_mails (sess σ), active_turn (sess σ), all_done σ) = ([demo_mail true], None, true).
Proof. by vm_compute. Qed.

(** An item injected while a turn finishes is accepted and neither recorded nor returned:
    the turn leaves it behind, and it was never attended. *)
Example injected_item_lost :
  let σ := demo_schedule demo_answers (demo_turn [] [Arrive (OpInject [7]); RunOp 1]) in
  (accepted (sess σ), recorded (sess σ), active_turn (sess σ), all_done σ)
  = ([demo_prompt; ResponseInput 7], [demo_prompt], None, true)
  ∧ left_behind (sess σ) = [ResponseInput 7] ∧ attended σ 0 = 0.
Proof. by vm_compute. Qed.

(** An item injected after the turn looked for input for the last time, and before its
    task takes the turn back, is recorded by that task. *)
Example injected_item_recorded :
  let σ := demo_schedule demo_answers
             ([Arrive (OpSpawn (lit "turn-1") Regular [demo_prompt] demo_script)] ++ replicate 7 (RunOp 0)
              ++ replicate 7 (RunWorker 0) ++ [Arrive (OpInject [7]); RunOp 1] ++ replicate 12 (RunWorker 0)) in
  recorded (sess σ) = [demo_prompt; ResponseInput 7] ∧ left_behind (sess σ) = [] ∧ all_done σ = true.
Proof. by vm_compute. Qed.

(** ** Witnesses *)

Lemma input_conserved_witness :
  let σ := demo_schedule demo_answers (demo_turn (Arrive (OpMail (lit "turn-2") (demo_mail false)) :: replicate 2 (RunOp 1)) []) in
  let s := sess σ in
  ∃ held lost,
    accepted s ≡ₚ (recorded s ++ refused s ++ set_aside s ++ cleared s
                   ++ map MailInput (mailbox_pending_mails s) ++ waiting s ++ left_behind s) ++ held ++ lost ∧
    held = [] ∧ lost = [] ∧ cleared s = [] ∧ attended σ 0 = 0.
Proof.
  intros σ s. destruct (input_conserved σ (schedule_reachable _ _)) as (held & lost & H1 & H2 & H3 & H4).
  assert (forallb finished (ops σ ++ workers σ) = true) as Hf by (vm_compute; reflexivity).
  assert (aborted s = []) as Ha by (vm_compute; reflexivity).
  exists held, lost. split; [exact H1|]. split; [exact (H2 Hf)|]. split; [exact (proj1 (H3 Ha))|].
  split; [exact (proj2 (H3 Ha))|exact (H4 Hf Ha 0)].
Defined.

Lemma waiter_woken_witness :
  ∃ j k', ops (demo_schedule demo_answers
                 ([Arrive (OpWait (lit "turn-1"))] ++ replicate 3 (RunOp 0)
                  ++ [Arrive (OpMail (lit "turn-2") (demo_mail false)); RunOp 1])) !! j
          = Some (Vis (Notify Mailbox) k').
Proof. eapply (waiter_woken _ 0); [apply schedule_reachable|vm_compute; reflexivity|vm_compute; reflexivity|by vm_compute]. Defined.
